(* ===== verification/_CoqProject ===== *)
-Q . S2P
Prelude.v
Text.v
TtlIndex.v
DomainName.v
Addr.v
SharedState.v
Policy.v
Chunked.v
HttpText.v
SecretScan.v
SecretHandler.v
SecretsLive.v
SecretBody.v
HeaderBlock.v
SecretHeaders.v
SecretHttp2.v
SecretHttp1.v
SecretStreams.v
Fragments.v
Message.v
Bulk.v
Codec.v
Transport.v
ExecAdmission.v
CpuPlanner.v
Writeback.v
Metrics.v
MetricsShared.v
MetricsRegistry.v
Sni.v
ImageTree.v
ImageMerge.v
ImageIngest.v
MemFs.v
MemFsTypes.v
MemFsTree.v
MemFsSpace.v
MemFsData.v
Quota.v
