(* ===== verification/Prelude.v ===== *)
(** * Microsandbox: verification development

    Microsandbox runs workloads in lightweight virtual machines.  A host-side
    runtime starts each VM, relays the connections of SDK clients to the agent
    inside the guest over one shared channel, and gives the guest a network
    through a userspace stack that enforces a policy.  This development models
    the decision-making parts of that system as executable definitions and
    proves what makes them correct.  It is a shallow embedding: every mapped
    definition translates the Rust item of the same name, pure functions as
    functions, [&mut self] methods as functions from a state to a state and a
    result, [Result] as [result], machine integers as [Z] with the checked,
    saturating and wrapping operations written out.

    ** Files

    - [Prelude] (this file): results and the [?] operator, machine integers,
      big-endian bytes, list lemmas, the tactics [len], [breflect], [inv_match]
      and the hint databases [msb] and [len]; [stE], the methods that change a
      state and may fail.
    - [Text]: strings as the standard library has them: searching, splitting,
      trimming, UTF-8, integers in a radix.

    Network policy ([crates/network/lib]):
    - [TtlIndex]: [crates/utils/lib/ttl_reverse_index.rs], the two-way index of
      expiring bindings; it refines a finite map from bindings to expiry times.
    - [DomainName]: [model/policy/name.rs], canonical domain names and
      label-aligned suffixes.
    - [Addr]: [engine/addr.rs], IPv4-mapped and NAT64 addresses; the class
      [IpNetworks] stands for the [ipnetwork] crate.
    - [SharedState]: the resolved-hostname cache of
      [engine/netstack/shared.rs] and the destination classification of
      [engine/policy/destination.rs].
    - [Policy]: [model/policy/types.rs], rules, the egress walk under partial
      knowledge of the hostname, ingress, DNS, profiles and domain deny rules.
    - [Fragments]: [engine/udp/fragments.rs], the IPv4 and IPv6 reassemblers;
      the class [Smoltcp] stands for the [smoltcp] parsers and emitters.
    - [Sni]: [engine/tls/sni.rs], the server name in a TLS first flight, and the
      peek of [engine/tcp/proxy.rs] that waits for it.

    Secrets of guest connections ([crates/network/lib/engine/secrets]), the
    proxy's handler that puts secret values in place of placeholders:
    - [Chunked]: the chunked-body parser of [handler.rs], against a grammar.
    - [HttpText]: its functions on request lines, authorities and framing
      fields.
    - [SecretScan]: its detector of placeholders, raw or encoded, and the tail
      it keeps between reads; the class [SecretCodecs] stands for the percent
      and base64 crates.
    - [SecretHandler]: which secrets a connection may receive and the state of
      [SecretsHandler]; the class [Hpack] stands for [httlib_hpack].
    - [SecretsLive]: [handle.rs], updates of the secrets while the sandbox runs,
      and the validation of secret entries.
    - [SecretBody]: chunked bodies and opaque streams.
    - [HeaderBlock]: [hpack.rs], the check that guards the HPACK decoder.
    - [SecretHeaders]: substitution in headers, and header credentials.
    - [SecretHttp2]: HTTP/2 frames, header blocks and streams.
    - [SecretHttp1]: [SecretsHandler::substitute] with HTTP/1 requests; the class
      [HttpParse] stands for [httparse].
    - [SecretStreams]: the theorems about it.

    Protocol ([crates/protocol/lib]):
    - [Message]: [message.rs], message types, wire names, flags, generations.
    - [Bulk]: [bulk.rs], bulk offers and the credit state machines of the two
      ends of a flow, composed into a system with frames and credits in flight.
    - [Codec]: [codec.rs], raw, control and bulk frames, buffered, streaming and
      vectored; the class [Cbor] stands for [ciborium].
    - [Transport]: [transport.rs], relay id ranges, the bulk-port handshake,
      range leases, incarnation-prefixed bulk records.

    Runtime ([crates/runtime/lib/runner]):
    - [ExecAdmission]: [relay/exec_admission.rs] and the limits of
      [packages/microsandbox-types/rust/lib/exec.rs].
    - [CpuPlanner]: [cpu/planner.rs].
    - [Writeback]: the fair-share arithmetic of [writeback/admission.rs].

    Metrics ([crates/metrics/lib]):
    - [Metrics]: [registry.rs], [layout.rs] and [compatibility.rs], the registry
      in shared memory, its methods as programs of atomic operations; the class
      [Chrono] stands for [chrono].
    - [MetricsShared]: the interleavings of such programs, the protocol they
      keep to and its invariant.
    - [MetricsRegistry]: every method keeps to it; the theorems.

    Images ([crates/image/lib]):
    - [ImageTree]: [tree/model.rs], layer trees, their path operations and
      counters, the spool file.
    - [ImageMerge]: the merges of [tree/model.rs], against overlay resolution.
    - [ImageIngest]: [tar/ingest.rs], from tar entries to a layer tree.

    Guest filesystem ([crates/filesystem/lib/backends]):
    - [MemFs]: the in-memory backend [memfs/*.rs] with the shared name
      validation, directory snapshots and init binary: every FUSE request as a
      function of the whole filesystem state.
    - [MemFsTypes]: nodes keep their types, and the case analyses of the
      operations the later files share.
    - [MemFsTree]: link counts, names, error paths.
    - [MemFsSpace]: capacity and inode limits, open handles, space given back.
    - [MemFsData]: file contents against sparse files, directory streams.
    - [Quota]: [passthroughfs/quota.rs], the byte budget of a passthrough mount.

    ** How the parts interact

    DNS answers fill the cache of [SharedState] (a [TtlIndex]); [Policy] reads it
    to decide connections whose hostname is only known by address, and decides
    provisionally at the first packet and finally once the name is known,
    from the server name [Sni] finds in the first flight for example.
    A connection it admits gets a handler of [SecretHandler], built from the same
    cache and policy; [SecretHttp1] dispatches each read of the guest to the
    bodies of [SecretBody], the headers of [SecretHeaders] or the frames of
    [SecretHttp2], all of which consult the detector of [SecretScan].
    Frames of [Codec] carry the messages of [Message] and the records of [Bulk];
    [Transport] assigns the correlation ids that route them and wraps bulk
    records with the owner's incarnation; [ExecAdmission] accounts the messages
    of [Codec] at the client boundary.  [CpuPlanner] and [Writeback] run once
    per VM and per refresh.  [MemFs] serves the guest kernel's requests, one
    after the other, from the state [build] makes.  [ImageIngest] turns each layer
    of an image into a tree of [ImageTree], and [ImageMerge] flattens the trees
    into the root filesystem of a VM.

    ** What the theorems show

    - Policy: a connection denied or allowed at the first packet keeps that
      verdict once its hostname is known; the evaluators are first-match
      semantics; a hostname rule only admits a connection with DNS evidence for
      that name; prepended domain denies block the domain; profiles mean what
      they say; policies without hostname rules ignore names.
    - Server names: the strict parser accepts exactly the nested encodings,
      however they are split into records; the lenient parser agrees with it on
      them; peeking loses no byte and does not depend on the chunks.
    - Secrets: a value only depends on connections proven to lead to its hosts,
      a header credential on requests for its origin; exactly the other
      placeholders are watched for, and no chunked body, HTTP/2 stream or opaque
      stream carries one past the handler, however it is cut into reads, chunks
      and frames; a rewritten body is the encoding of the substituted payload,
      and a rewritten request announces it; pipelined requests and bodies that
      arrive in pieces are handled like whole requests one by one; without
      secrets the handler is transparent;
      the chunked parser, the HPACK guard and the credential grammar accept
      exactly their languages.  Live updates act on the secrets as on a map
      from names and keep a valid configuration valid.
    - Cache: the index is an exact bounded map; lookups agree with its
      unexpired content under every sequence of operations; classification
      is the union of the address blocks it names, embedded IPv4 included.
    - Fragments: the fragments of a datagram reassemble to it in any order of
      arrival and whatever other sets are waiting, what is delivered was
      received, and memory stays bounded.
    - Protocol: round trips in both directions (a buffer decodes exactly when it
      is an encoding), independence from chunking, bounded buffering, complete
      vectored writes; two bulk peers never fail each other, never overrun the
      window and do not stall; id ranges partition.
    - Runtime: execution limits hold under every sequence of client and guest
      messages and stdin streams arrive intact; CPU plans are complete, shared
      only when they must be, and on one fitting NUMA node when asked; writeback
      targets come from one waterline within the pool.
    - Metrics: for every interleaving of any number of processes, some of which
      may be killed, a metric that is read is a slot at one moment at which no
      writer was inside, a sample takes effect as a whole, and a writer whose
      slot was given to another stores nothing; alone, what is written is what
      is read.  [release_by_identity_frees_new_reservation] runs a schedule that
      frees the slot of a new reservation.
    - Filesystem: after every sequence of at most 2^62 requests that does not
      swap a directory for another kind of node between two directories, link
      counts equal names, no entry dangles, the entries and the contents are
      those of an abstract name map and of sparse files, a refused request
      changes nothing, the limits hold, and used space is the space of the
      reachable files when unlinked names are known to the kernel; paging
      through a directory lists it exactly once.  Lemmas next to the theorems
      run the code where it leaves these bounds: [mixed_exchange_loses_directory],
      [unlink_keeps_bytes_charged], [unlimited_counter_wraps],
      [readdirplus_aliases_init], [link_takes_reserved_name].
    - Quota: counting charges and walking the tree only at the limit decides as
      walking it every time would, so the guest's additions stay within the limit
      and nothing that fits is refused, one request at a time, across removals
      and migrations.  [unseen_growth_admitted] and
      [overlapping_charges_exceed_limit] show where the budget is not kept.
    - Images: flattening layers is overlay resolution, path by path, and the
      provenance map names the layer each file comes from; ingestion keeps names
      safe and sizes, depths and counts within the limits for every tar stream;
      link counts are exact; spooled contents read back unchanged.  The examples
      [new_directory_keeps_whiteout], [dot_entry_takes_provenance] and
      [interior_dot_is_a_name] run the code outside the hypotheses.

    ** Modelling choices

    Loops recurse on what they consume: the bytes or elements left, the number
    of CPUs still to select, the length of the ready queue at entry; so no
    definition can run out of fuel.  The reader loop of [Codec], the loops of
    [Sni] and those of [ImageIngest] and [ImageTree] over contents take a number
    of rounds instead: it is at least the number of bytes left while every round
    consumes one, and the exactness theorems cover it.  The walk of [Quota] takes
    as many rounds as the tree has directories ([walk_total]).  Time is a number of nanoseconds passed in by the caller,
    one reading per call.  A mutex-protected method is one step; concurrency is
    the order of the steps.  Where the code synchronises through atomics, in
    [Metrics], a step is one atomic operation; the interleavings are sequentially
    consistent, which is stronger than the orderings the code asks for.  Hash maps and sets are [gmap] and [gset].  Error
    messages are constructors.  Third-party code is a class parameter with its
    documented behaviour as named hypotheses, instantiated in the witnesses.
    A call of the secret handler reads the hostname cache and the clock once,
    borrowed and owned results are one, and log lines are left out; a recursive
    call of a method on what follows a request is an argument, tied with fuel
    that [substitute_recursion_ends] shows to be enough.
    A node of [MemFs] stays in [fs_arcs] once it exists, whether or not an
    [Arc] still points to it, and [fs_nodes] is the set of inodes in the table;
    [Arc::strong_count] counts the table, the handles and the local pointers
    of the running operation.  The [BTreeMap] of an image directory is a [gmap]
    too: the loops over it are folds, and their lemmas do not depend on the
    order.  The bound 2^62 on a run keeps 64-bit counters
    from wrapping; the streaming forms of readdir are modelled but are not
    among the requests of a run.

    ** Not modelled

    Socket, file (secret files included), shared-memory mapping, database and
    process I/O, the libkrun
    VMM, TLS sessions and DNS wire parsing; the async plumbing of the relay; configuration records
    and CLI; the guest agent, the disk formats, registry and cache of the image
    crate, the filesystem backends over host files and the SDKs. *)

From Stdlib Require Export ZArith Lia.
From stdpp Require Export base decidable option list gmap strings sorting.
From Stdlib Require Import Strings.Byte.

#[global] Open Scope Z_scope.

(** ** Results

    The source's [Result<T, E>].  The error type comes first so that
    [result E] is the functor. *)

Inductive result (E A : Type) : Type :=
| Ok (a : A)
| Err (e : E).
Arguments Ok {E A} a.
Arguments Err {E A} e.

Definition is_ok {E A} (r : result E A) : bool :=
  match r with Ok _ => true | Err _ => false end.

(** [Option::ok_or_else]. *)
Definition ok_or {E A} (o : option A) (e : E) : result E A :=
  match o with Some a => Ok a | None => Err e end.

Declare Scope msb_scope.
Delimit Scope msb_scope with msb.
#[global] Open Scope msb_scope.

(** The [?] operator, on results and on options. *)
Notation "'let?' x ':=' c 'in' k" :=
  (match c with Ok x => k | Err e => Err e end)
  (at level 10, x pattern, c at level 100, k at level 200) : msb_scope.
Notation "'let*' x ':=' c 'in' k" :=
  (match c with Some x => k | None => None end)
  (at level 10, x pattern, c at level 100, k at level 200) : msb_scope.

(** [&mut self] methods that return a [Result]: the state survives an error. *)
Definition stE (S E A : Type) : Type := S -> S * result E A.

Definition st_ret {S E A} (a : A) : stE S E A := fun s => (s, Ok a).
Definition st_err {S E A} (e : E) : stE S E A := fun s => (s, Err e).
Definition st_get {S E} : stE S E S := fun s => (s, Ok s).
Definition st_put {S E} (f : S -> S) : stE S E () := fun s => (f s, Ok ()).
Definition st_lift {S E A} (r : result E A) : stE S E A := fun s => (s, r).
Definition st_bind {S E A B} (m : stE S E A) (k : A -> stE S E B) : stE S E B :=
  fun s => match m s with (s', Ok a) => k a s' | (s', Err e) => (s', Err e) end.

Notation "'let!' x ':=' c 'in' k" := (st_bind c (fun x => k))
  (at level 10, x pattern, c at level 100, k at level 200) : msb_scope.

(** [Iterator::try_fold] and [collect::<Result<Vec<_>, _>>()]. *)
Fixpoint try_fold {E A B} (f : B -> A -> result E B) (b : B) (l : list A) : result E B :=
  match l with
  | [] => Ok b
  | a :: l' => let? b' := f b a in try_fold f b' l'
  end.

Lemma try_fold_ext {E A B} (f g : B -> A -> result E B) b l : (forall b a, f b a = g b a) -> try_fold f b l = try_fold g b l.
Proof. intros Hf. revert b. induction l as [|a l IH]; intros b; [done|]. cbn. rewrite Hf. destruct (g b a); [apply IH | done]. Qed.

Fixpoint collect_results {E A B} (f : A -> result E B) (l : list A) : result E (list B) :=
  match l with
  | [] => Ok []
  | a :: l' => let? b := f a in let? bs := collect_results f l' in Ok (b :: bs)
  end.

Lemma collect_results_Forall2 {E A B} (f : A -> result E B) l bs :
  collect_results f l = Ok bs <-> Forall2 (fun a b => f a = Ok b) l bs.
Proof.
  revert bs. induction l as [|a l IH]; intros bs; simpl.
  - split; [intros [= <-]; constructor | inversion 1; done].
  - split.
    + destruct (f a) eqn:Ha; [|discriminate].
      destruct (collect_results f l) eqn:Hl; [|discriminate].
      intros [= <-]. constructor; [done|]. by apply IH.
    + inversion 1 as [|? b ? bs' Hab Hrest]; subst.
      rewrite Hab. apply IH in Hrest. by rewrite Hrest.
Qed.

(** ** Machine integers

    A [w]-bit unsigned integer is a [Z] in [0, 2^w); the wrap-around, checked
    and saturating operations of the source are written out. *)

Definition u_max (w : Z) : Z := 2 ^ w - 1.
Definition fits (w z : Z) : Prop := 0 <= z < 2 ^ w.
Definition wrap (w z : Z) : Z := z `mod` 2 ^ w.
Definition checked_add (w a b : Z) : option Z :=
  if a + b <? 2 ^ w then Some (a + b) else None.
Definition checked_mul (w a b : Z) : option Z :=
  if a * b <? 2 ^ w then Some (a * b) else None.
Definition saturating_sub (a b : Z) : Z := Z.max 0 (a - b).

#[global] Instance fits_dec w z : Decision (fits w z).
Proof. unfold fits. apply _. Defined.

Lemma wrap_small w z : fits w z -> wrap w z = z.
Proof. unfold fits, wrap. intros. by apply Z.mod_small. Qed.

Lemma wrap_fits w z : 0 <= w -> fits w (wrap w z).
Proof. intros. apply Z.mod_pos_bound. lia. Qed.

Lemma checked_add_Some w a b c :
  checked_add w a b = Some c <-> c = a + b /\ a + b < 2 ^ w.
Proof.
  unfold checked_add. destruct (Z.ltb_spec (a + b) (2 ^ w)); split.
  - by intros [= <-].
  - by intros [-> _].
  - discriminate.
  - lia.
Qed.

Lemma checked_add_None w a b : checked_add w a b = None <-> 2 ^ w <= a + b.
Proof.
  unfold checked_add. destruct (Z.ltb_spec (a + b) (2 ^ w)); split; try done; lia.
Qed.

Lemma checked_mul_Some w a b c :
  checked_mul w a b = Some c <-> c = a * b /\ a * b < 2 ^ w.
Proof.
  unfold checked_mul. destruct (Z.ltb_spec (a * b) (2 ^ w)); split.
  - by intros [= <-].
  - by intros [-> _].
  - discriminate.
  - lia.
Qed.

(** The length of a [Vec] or slice as a machine integer. *)
Abbreviation zlen l := (Z.of_nat (length l)).

(** ** Bytes and big-endian integers ([to_be_bytes], [from_be_bytes]) *)

Abbreviation byte := Byte.byte.

Definition Z_of_byte (b : byte) : Z := Z.of_N (Byte.to_N b).
Definition byte_of_Z (z : Z) : byte :=
  match Byte.of_N (Z.to_N (z `mod` 256)) with Some b => b | None => Byte.x00 end.

#[global] Instance byte_eq_dec : EqDecision byte := Byte.byte_eq_dec.

Lemma Z_of_byte_bound b : 0 <= Z_of_byte b < 256.
Proof.
  unfold Z_of_byte. pose proof (Byte.to_N_bounded b). lia.
Qed.

Lemma byte_of_Z_of_byte b : byte_of_Z (Z_of_byte b) = b.
Proof.
  unfold byte_of_Z. rewrite Z.mod_small by apply Z_of_byte_bound.
  unfold Z_of_byte. by rewrite N2Z.id, Byte.of_to_N.
Qed.

#[global] Instance byte_countable : Countable byte :=
  inj_countable' Z_of_byte byte_of_Z byte_of_Z_of_byte.

Lemma Z_of_byte_of_Z z : Z_of_byte (byte_of_Z z) = z `mod` 256.
Proof.
  unfold byte_of_Z.
  assert (0 <= z `mod` 256 < 256) as Hb by (apply Z.mod_pos_bound; lia).
  destruct (Byte.of_N (Z.to_N (z `mod` 256))) as [b|] eqn:E.
  - unfold Z_of_byte. apply Byte.to_of_N in E. rewrite E. lia.
  - apply Byte.of_N_None_iff in E. lia.
Qed.

Lemma lor_shiftl (x b n : Z) : 0 <= n -> 0 <= b < 2 ^ n -> Z.lor (Z.shiftl x n) b = x * 2 ^ n + b.
Proof.
  intros Hn Hb. rewrite <- Z.shiftl_mul_pow2 by done. rewrite <- Z.add_lor_land.
  assert (Hl : Z.land (Z.shiftl x n) b = 0); [|lia].
  apply Z.bits_inj'. intros i Hi. rewrite Z.land_spec, Z.bits_0. destruct (Z.lt_ge_cases i n).
  - by rewrite Z.shiftl_spec_low.
  - rewrite <- (Z.mod_small b (2 ^ n)) by done. rewrite (Z.mod_pow2_bits_high b n i) by lia. apply andb_false_r.
Qed.

Fixpoint be_bytes (n : nat) (z : Z) : list byte :=
  match n with
  | O => []
  | S n' => byte_of_Z (z `div` 256 ^ Z.of_nat n') :: be_bytes n' z
  end.

Definition be_value (l : list byte) : Z :=
  fold_left (fun acc b => acc * 256 + Z_of_byte b) l 0.

Lemma length_be_bytes n z : length (be_bytes n z) = n.
Proof. induction n; simpl; congruence. Qed.

Lemma be_value_acc l acc :
  fold_left (fun acc b => acc * 256 + Z_of_byte b) l acc
  = acc * 256 ^ zlen l + be_value l.
Proof.
  unfold be_value. revert acc. induction l as [|b l IH]; intros acc.
  - simpl. lia.
  - cbn [fold_left length]. rewrite IH, (IH (0 * 256 + _)).
    rewrite Nat2Z.inj_succ, Z.pow_succ_r by lia. ring.
Qed.

Lemma be_value_cons b l : be_value (b :: l) = Z_of_byte b * 256 ^ zlen l + be_value l.
Proof. unfold be_value at 1. cbn [fold_left]. rewrite be_value_acc. lia. Qed.

Lemma be_value_bound l : 0 <= be_value l < 256 ^ zlen l.
Proof.
  induction l as [|b l IH].
  - cbv. split; congruence.
  - rewrite be_value_cons. cbn [length].
    rewrite Nat2Z.inj_succ, Z.pow_succ_r by lia.
    pose proof (Z_of_byte_bound b). nia.
Qed.

Lemma be_value_be_bytes n z : be_value (be_bytes n z) = z `mod` 256 ^ Z.of_nat n.
Proof.
  induction n as [|n IH].
  - cbn. by rewrite Z.mod_1_r.
  - cbn [be_bytes]. rewrite be_value_cons, IH, length_be_bytes, Z_of_byte_of_Z.
    rewrite Nat2Z.inj_succ, Z.pow_succ_r by lia.
    rewrite (Z.mul_comm 256), Z.rem_mul_r by lia. lia.
Qed.

Lemma be_bytes_be_value l : be_bytes (length l) (be_value l) = l.
Proof.
  induction l as [|b l IH]; [done|].
  cbn [length be_bytes]. rewrite be_value_cons.
  pose proof (be_value_bound l).
  f_equal.
  - rewrite Z.div_add_l, Z.div_small, Z.add_0_r by lia. apply byte_of_Z_of_byte.
  - assert (forall n m, (n <= m)%nat ->
      be_bytes n (Z_of_byte b * 256 ^ Z.of_nat m + be_value l) = be_bytes n (be_value l)) as E.
    { induction n as [|n IHn]; intros m Hm; [done|]. cbn [be_bytes].
      rewrite IHn by lia. f_equal.
      replace (Z.of_nat m) with ((Z.of_nat m - Z.of_nat n - 1) + 1 + Z.of_nat n) by lia.
      rewrite !Z.pow_add_r, !Z.mul_assoc, Z.div_add_l by lia.
      unfold byte_of_Z. do 3 f_equal. rewrite Z.pow_1_r.
      rewrite Z.add_comm, Z.mod_add by lia. done. }
    by rewrite E.
Qed.

Lemma be_bytes_inj n a b :
  fits (8 * Z.of_nat n) a -> fits (8 * Z.of_nat n) b -> be_bytes n a = be_bytes n b -> a = b.
Proof.
  unfold fits. intros Ha Hb Heq. apply (f_equal be_value) in Heq.
  rewrite !be_value_be_bytes in Heq.
  replace (256 ^ Z.of_nat n) with (2 ^ (8 * Z.of_nat n)) in Heq
    by (rewrite Z.pow_mul_r by lia; done).
  by rewrite !Z.mod_small in Heq by lia.
Qed.

(** ** Lists *)

Lemma list_filter_ext_in {A} (P Q : A -> Prop) `{!forall x, Decision (P x)}
    `{!forall x, Decision (Q x)} (l : list A) :
  (forall x, x ∈ l -> P x <-> Q x) -> filter P l = filter Q l.
Proof.
  induction l as [|x l IH]; intros HPQ; [done|].
  rewrite !filter_cons, IH by set_solver.
  destruct (HPQ x); [set_solver|]. do 2 case_decide; naive_solver.
Qed.

Lemma list_filter_id {A} (P : A -> Prop) `{!forall x, Decision (P x)} (l : list A) :
  (forall x, x ∈ l -> P x) -> filter P l = l.
Proof.
  induction l as [|x l IH]; intros Hall; [done|].
  rewrite filter_cons, decide_True by (apply Hall; by left). f_equal. apply IH. intros y Hy. apply Hall. by right.
Qed.

(** ** Sums over finite maps *)

Section msum.
Context `{Countable K} {A : Type}.
Implicit Types (f g : K -> A -> Z) (m : gmap K A).

Definition msum f m : Z := map_fold (fun k v acc => f k v + acc) 0 m.
Definition at_key f (k : K) (o : option A) : Z := match o with Some v => f k v | None => 0 end.

Lemma msum_empty f : msum f ∅ = 0.
Proof. apply map_fold_empty. Qed.

Lemma msum_insert_new f m k v : m !! k = None -> msum f (<[k := v]> m) = f k v + msum f m.
Proof. intros Hk. unfold msum. rewrite map_fold_insert_L; [done | intros; lia | done]. Qed.

Lemma msum_delete f m k : msum f (delete k m) = msum f m - at_key f k (m !! k).
Proof.
  destruct (m !! k) as [v|] eqn:Hk; simpl.
  - rewrite <- (insert_delete_id m k v Hk) at 2.
    rewrite msum_insert_new by apply lookup_delete_eq. lia.
  - rewrite delete_id by done. lia.
Qed.

Lemma msum_insert f m k v : msum f (<[k := v]> m) = msum f m - at_key f k (m !! k) + f k v.
Proof.
  rewrite <- insert_delete_eq, msum_insert_new by apply lookup_delete_eq. rewrite msum_delete. lia.
Qed.

Lemma msum_alter f m k (h : A -> A) :
  msum f (alter h k m) = msum f m - at_key f k (m !! k) + at_key f k (h <$> m !! k).
Proof.
  destruct (m !! k) as [v|] eqn:Hk; simpl.
  - assert (alter h k m = <[k := h v]> m) as ->; [|by rewrite msum_insert, Hk].
    apply map_eq. intros j. destruct (decide (j = k)) as [->|].
    + by rewrite lookup_alter_eq, lookup_insert_eq, Hk.
    + by rewrite lookup_alter_ne, lookup_insert_ne by done.
  - assert (alter h k m = m) as ->; [|lia].
    apply map_eq. intros j. destruct (decide (j = k)) as [->|].
    + by rewrite lookup_alter_eq, Hk.
    + by rewrite lookup_alter_ne by done.
Qed.

Lemma msum_ext f g m : (forall k v, m !! k = Some v -> f k v = g k v) -> msum f m = msum g m.
Proof.
  induction m as [|k v m Hk IH] using map_ind; intros Hfg; [by rewrite !msum_empty|].
  rewrite !msum_insert_new by done. rewrite (Hfg k v), IH; [done| |by rewrite lookup_insert_eq].
  intros j w Hj. apply Hfg. rewrite lookup_insert_ne; [done | congruence].
Qed.

Lemma msum_ext_except f g m k :
  (forall j v, j <> k -> m !! j = Some v -> f j v = g j v) ->
  msum g m = msum f m - at_key f k (m !! k) + at_key g k (m !! k).
Proof.
  intros Hfg. pose proof (msum_delete f m k). pose proof (msum_delete g m k).
  enough (msum f (delete k m) = msum g (delete k m)) by lia.
  apply msum_ext. intros j v [? ?]%lookup_delete_Some. by apply Hfg.
Qed.

Lemma msum_nonneg f m : (forall k v, m !! k = Some v -> 0 <= f k v) -> 0 <= msum f m.
Proof.
  induction m as [|k v m Hk IH] using map_ind; intros Hf; [by rewrite msum_empty|].
  rewrite msum_insert_new by done. assert (0 <= f k v) by (apply Hf; by rewrite lookup_insert_eq).
  enough (0 <= msum f m) by lia. apply IH. intros j w Hj. apply Hf.
  rewrite lookup_insert_ne; [done | congruence].
Qed.

Lemma msum_ge f m k v :
  (forall k v, m !! k = Some v -> 0 <= f k v) -> m !! k = Some v -> f k v <= msum f m.
Proof.
  intros Hf Hk. pose proof (msum_delete f m k) as Hd. rewrite Hk in Hd. simpl in Hd.
  enough (0 <= msum f (delete k m)) by lia. apply msum_nonneg.
  intros j w [? ?]%lookup_delete_Some. by apply Hf.
Qed.

Lemma msum_le f g m : (forall k v, m !! k = Some v -> f k v <= g k v) -> msum f m <= msum g m.
Proof.
  induction m as [|k v m Hk IH] using map_ind; intros Hfg; [by rewrite !msum_empty|].
  rewrite !msum_insert_new by done. assert (f k v <= g k v) by (apply Hfg; by rewrite lookup_insert_eq).
  enough (msum f m <= msum g m) by lia. apply IH. intros j w Hj. apply Hfg.
  rewrite lookup_insert_ne; [done | congruence].
Qed.
End msum.

(** ** Loops over the entries of a map

    When the step for a key only changes what is observed at that key, and only
    depends on it, the loop acts on each key on its own. *)

Lemma fold_local `{Countable K} {A S O : Type} (f : K -> A -> S -> S) (obs : K -> S -> O) :
  (forall n k a s, k <> n -> obs k (f n a s) = obs k s) ->
  (forall n a s s', obs n s = obs n s' -> obs n (f n a s) = obs n (f n a s')) ->
  forall (m : gmap K A) s k,
    obs k (map_fold f s m) = match m !! k with Some a => obs k (f k a s) | None => obs k s end.
Proof.
  intros Hother Hown m s k.
  apply (map_fold_weak_ind (fun r (m : gmap K A) =>
    obs k r = match m !! k with Some a => obs k (f k a s) | None => obs k s end)).
  - by rewrite lookup_empty.
  - intros i a m' r Hi IH. destruct (decide (i = k)) as [->|Hne].
    + rewrite lookup_insert_eq. apply Hown. by rewrite Hi in IH.
    + rewrite lookup_insert_ne, Hother by done. done.
Qed.

Lemma fold_morph `{Countable K} {A S T : Type} (g : S -> T) (f : K -> A -> S -> S) (h : K -> A -> T -> T) (m : gmap K A) s :
  (forall k a s, m !! k = Some a -> g (f k a s) = h k a (g s)) -> g (map_fold f s m) = map_fold h (g s) m.
Proof.
  intros Hgh. rewrite !map_fold_foldr.
  assert (Hin : forall k a, (k, a) ∈ map_to_list m -> m !! k = Some a) by (intros k a; apply elem_of_map_to_list).
  induction (map_to_list m) as [|[k a] l IH]; [done|]. simpl.
  rewrite Hgh, IH; [done | intros; apply Hin; by apply list_elem_of_further | apply Hin, list_elem_of_here].
Qed.

(** When no step for another key disturbs what [same k] observes, the step for
    [k] runs once, from a state that agrees with the initial one. *)
Lemma fold_visits `{Countable K} {A S : Type} (f : K -> A -> S -> S) (same : K -> S -> S -> Prop) (m : gmap K A) s k :
  (forall k, PreOrder (same k)) ->
  (forall n a s, m !! n = Some a -> k <> n -> same k s (f n a s)) ->
  match m !! k with
  | Some a => exists s0, same k s s0 /\ same k (f k a s0) (map_fold f s m)
  | None => same k s (map_fold f s m)
  end.
Proof.
  intros Hpre Hother.
  apply (map_fold_weak_ind (fun r (m' : gmap K A) => m' ⊆ m ->
    match m' !! k with Some a => exists s0, same k s s0 /\ same k (f k a s0) r | None => same k s r end)); [..|done].
  - intros _. rewrite lookup_empty. reflexivity.
  - intros i a m' r Hi IH Hsub.
    assert (Hm' : m' ⊆ m) by (etrans; [by apply insert_subseteq | done]).
    assert (Ha : m !! i = Some a) by (eapply lookup_weaken; [apply lookup_insert_eq | done]).
    specialize (IH Hm'). destruct (decide (i = k)) as [->|Hne].
    + rewrite lookup_insert_eq. rewrite Hi in IH. exists r. split; [done | reflexivity].
    + rewrite lookup_insert_ne by done. specialize (Hother i a r Ha ltac:(done)).
      destruct (m' !! k); [destruct IH as (s0 & H0 & H1); exists s0; split; [done | by etrans] | by etrans].
Qed.

Lemma fold_keeps `{Countable K} {A S : Type} (f : K -> A -> S -> S) (R : S -> S -> Prop) `{!PreOrder R} (m : gmap K A) s :
  (forall n a s, m !! n = Some a -> R s (f n a s)) -> R s (map_fold f s m).
Proof.
  intros Hf. rewrite map_fold_foldr.
  assert (Hin : forall k a, (k, a) ∈ map_to_list m -> m !! k = Some a) by (intros k a; apply elem_of_map_to_list).
  induction (map_to_list m) as [|[k a] l IH]; [reflexivity|]. simpl.
  etrans; [apply IH; intros; apply Hin; by apply list_elem_of_further | apply Hf, Hin, list_elem_of_here].
Qed.

(** ** Automation *)

Create HintDb msb.
Create HintDb len.

#[export] Hint Rewrite @length_app @length_drop @length_take @length_fmap @length_map
  @length_replicate @length_insert @length_cons length_be_bytes : len.
#[export] Hint Resolve Z_of_byte_bound wrap_fits : msb.

Ltac len := autorewrite with len in *; simpl in *; try lia.

(** Turn boolean tests in hypotheses and goal into propositions. *)
Ltac breflect :=
  repeat match goal with
  | H : (_ <? _) = true |- _ => apply Z.ltb_lt in H
  | H : (_ <? _) = false |- _ => apply Z.ltb_ge in H
  | H : (_ <=? _) = true |- _ => apply Z.leb_le in H
  | H : (_ <=? _) = false |- _ => apply Z.leb_gt in H
  | H : (_ >? _) = true |- _ => apply Z.gtb_lt in H
  | H : (_ =? _) = true |- _ => apply Z.eqb_eq in H
  | H : (_ =? _) = false |- _ => apply Z.eqb_neq in H
  | H : (_ && _) = true |- _ => apply andb_true_iff in H; destruct H
  | H : (_ || _) = false |- _ => apply orb_false_iff in H; destruct H
  | H : negb _ = true |- _ => apply negb_true_iff in H
  | H : negb _ = false |- _ => apply negb_false_iff in H
  | H : bool_decide _ = true |- _ => apply bool_decide_eq_true in H
  | H : bool_decide _ = false |- _ => apply bool_decide_eq_false in H
  end.

(** Case analysis on every [match] of the hypothesis [H], dropping the
    branches that contradict it. *)
Ltac inv_match H :=
  repeat match type of H with
  | context [match ?x with _ => _ end] =>
      let E := fresh "E" in destruct x eqn:E; try discriminate H
  end.
