(* ===== verification/Text.v ===== *)
(** * Byte strings

    What the network and image code uses of Rust's byte slices and [str].  A
    [str] is its UTF-8 bytes, so both are lists of bytes: searching for and
    splitting at ASCII text acts on bytes, and only trimming and splitting at
    whitespace look at characters. *)

From S2P Require Import Prelude.
From Stdlib Require Import Strings.Byte.

Implicit Types (s p : list byte) (b : byte).

Definition bytes_of (s : string) : list byte := String.list_byte_of_string s.

(** ** Searching *)

(** [strip_prefix], [starts_with], [ends_with]. *)
Fixpoint bytes_strip_prefix p s : option (list byte) :=
  match p, s with
  | [], _ => Some s
  | b :: p', b' :: s' => if decide (b = b') then bytes_strip_prefix p' s' else None
  | _ :: _, [] => None
  end.

Definition bytes_starts_with s p : bool := bool_decide (is_Some (bytes_strip_prefix p s)).

Definition bytes_strip_suffix s p : option (list byte) :=
  reverse <$> bytes_strip_prefix (reverse p) (reverse s).

(** [s.windows(p.len()).position(|w| w == p)], and [str::find]. *)
Fixpoint bytes_find p s : option nat :=
  if bytes_starts_with s p then Some 0%nat
  else match s with [] => None | _ :: s' => S <$> bytes_find p s' end.

(** [str::contains]: every string contains the empty one. *)
Definition str_contains s p : bool := bool_decide (is_Some (bytes_find p s)).

(** [iter().position(|byte| ...)]. *)
Fixpoint byte_position (P : byte -> bool) s : option nat :=
  match s with [] => None | b :: s' => if P b then Some 0%nat else S <$> byte_position P s' end.

Definition byte_eqb (b b' : byte) : bool := bool_decide (b = b').

(** ** Splitting *)

(** [split_once] and [rsplit_once] at a byte. *)
Definition split_once (sep : byte) s : option (list byte * list byte) :=
  let* i := byte_position (byte_eqb sep) s in Some (take i s, drop (S i) s).

Definition rsplit_once (sep : byte) s : option (list byte * list byte) :=
  let* i := byte_position (byte_eqb sep) (reverse s) in
  Some (take (length s - S i) s, drop (length s - i) s).

(** [split_once] at a string. *)
Definition split_once_at p s : option (list byte * list byte) :=
  let* i := bytes_find p s in Some (take i s, drop (i + length p) s).

(** [split] at a byte: at least one piece. *)
Fixpoint split_byte (sep : byte) s : list (list byte) :=
  match s with
  | [] => [[]]
  | b :: s' =>
      if decide (b = sep) then [] :: split_byte sep s'
      else match split_byte sep s' with
           | piece :: pieces => (b :: piece) :: pieces
           | [] => [[b]]
           end
  end.

Definition cr : byte := x0d.
Definition lf : byte := x0a.
Definition crlf : list byte := [cr; lf].

(** [str::split("\r\n")]: the separators are taken from the left. *)
Fixpoint split_crlf s : list (list byte) :=
  match s with
  | [] => [[]]
  | b :: s' =>
      let more := match split_crlf s' with piece :: pieces => (b :: piece) :: pieces | [] => [[b]] end in
      match s' with
      | b' :: s'' => if decide (b = cr /\ b' = lf) then [] :: split_crlf s'' else more
      | [] => more
      end
  end.

(** The lines with [\r\n] put back between them. *)
Fixpoint join_crlf (lines : list (list byte)) : list byte :=
  match lines with
  | [] => []
  | [line] => line
  | line :: lines' => line ++ crlf ++ join_crlf lines'
  end.

(** ** ASCII *)

Definition byte_in (first last : Z) b : bool := (first <=? Z_of_byte b) && (Z_of_byte b <=? last).

Definition byte_lower b : byte := if byte_in 65 90 b then byte_of_Z (Z_of_byte b + 32) else b.
Definition bytes_lower s : list byte := map byte_lower s.
Definition eq_ignore_ascii_case s s' : bool := bool_decide (bytes_lower s = bytes_lower s').

Definition is_ascii_whitespace b : bool :=
  (Z_of_byte b =? 32) || (Z_of_byte b =? 9) || (Z_of_byte b =? 10) || (Z_of_byte b =? 12) || (Z_of_byte b =? 13).
Definition is_ascii_control b : bool := (Z_of_byte b <=? 31) || (Z_of_byte b =? 127).
Definition is_ascii_alphabetic b : bool := byte_in 65 90 b || byte_in 97 122 b.
Definition is_ascii_alphanumeric b : bool := is_ascii_alphabetic b || byte_in 48 57 b.

Fixpoint skip_while {A} (P : A -> bool) (l : list A) : list A :=
  match l with [] => [] | a :: l' => if P a then skip_while P l' else l end.
Fixpoint take_until {A} (P : A -> bool) (l : list A) : list A :=
  match l with [] => [] | a :: l' => if P a then [] else a :: take_until P l' end.

Definition trim_ascii_start s : list byte := skip_while is_ascii_whitespace s.
Definition trim_ascii_end s : list byte := reverse (skip_while is_ascii_whitespace (reverse s)).
Definition trim_ascii s : list byte := trim_ascii_end (trim_ascii_start s).

(** [trim_end_matches(c)] for an ASCII character. *)
Definition trim_end_matches (c : byte) s : list byte := reverse (skip_while (byte_eqb c) (reverse s)).

(** ** UTF-8 *)

(** The well-formed sequences of one to four bytes. *)
Definition is_tail b : bool := (128 <=? Z_of_byte b) && (Z_of_byte b <=? 191).
Definition tail_from (first last : Z) b : bool := (first <=? Z_of_byte b) && (Z_of_byte b <=? last).

Definition second_ok (lead : Z) b : bool :=
  if lead =? 224 then tail_from 160 191 b
  else if lead =? 237 then tail_from 128 159 b
  else if lead =? 240 then tail_from 144 191 b
  else if lead =? 244 then tail_from 128 143 b
  else is_tail b.

(** [str::from_utf8] and [String::from_utf8] succeed. *)
Fixpoint utf8_valid (l : list byte) : bool :=
  match l with
  | [] => true
  | b0 :: l1 =>
      let lead := Z_of_byte b0 in
      if lead <=? 127 then utf8_valid l1
      else match l1 with
      | [] => false
      | b1 :: l2 =>
          if negb (second_ok lead b1) then false
          else if (194 <=? lead) && (lead <=? 223) then utf8_valid l2
          else match l2 with
          | [] => false
          | b2 :: l3 =>
              if negb (is_tail b2) then false
              else if (224 <=? lead) && (lead <=? 239) then utf8_valid l3
              else match l3 with
              | [] => false
              | b3 :: l4 =>
                  if negb (is_tail b3) then false
                  else if (240 <=? lead) && (lead <=? 244) then utf8_valid l4 else false
              end
          end
      end
  end.

(** [String::from_utf8_lossy]: every maximal ill-formed prefix of a character
    becomes U+FFFD. *)
Definition replacement : list byte := [xef; xbf; xbd].

Fixpoint from_utf8_lossy (l : list byte) : list byte :=
  match l with
  | [] => []
  | b0 :: l1 =>
      let lead := Z_of_byte b0 in
      if lead <=? 127 then b0 :: from_utf8_lossy l1
      else if (lead <? 194) || (244 <? lead) then replacement ++ from_utf8_lossy l1
      else match l1 with
      | [] => replacement
      | b1 :: l2 =>
          if negb (second_ok lead b1) then replacement ++ from_utf8_lossy l1
          else if lead <=? 223 then b0 :: b1 :: from_utf8_lossy l2
          else match l2 with
          | [] => replacement
          | b2 :: l3 =>
              if negb (is_tail b2) then replacement ++ from_utf8_lossy l2
              else if lead <=? 239 then b0 :: b1 :: b2 :: from_utf8_lossy l3
              else match l3 with
              | [] => replacement
              | b3 :: l4 =>
                  if negb (is_tail b3) then replacement ++ from_utf8_lossy l3
                  else b0 :: b1 :: b2 :: b3 :: from_utf8_lossy l4
              end
          end
      end
  end.

(** The characters of a string, each as its bytes. *)
Fixpoint str_chars s : list (list byte) :=
  match s with
  | [] => []
  | b :: s' =>
      match str_chars s' with
      | (b' :: c) :: cs => if is_tail b' then (b :: b' :: c) :: cs else [b] :: (b' :: c) :: cs
      | cs => [b] :: cs
      end
  end.

(** [char::is_whitespace]: the Unicode [White_Space] property. *)
Definition is_whitespace (c : list byte) : bool :=
  match c with
  | [b] => byte_in 9 13 b || (Z_of_byte b =? 32)
  | [xc2; b] => (Z_of_byte b =? 0x85) || (Z_of_byte b =? 0xa0)
  | [xe1; x9a; x80] => true
  | [xe2; x80; b] =>
      byte_in 0x80 0x8a b || (Z_of_byte b =? 0xa8) || (Z_of_byte b =? 0xa9) || (Z_of_byte b =? 0xaf)
  | [xe2; x81; x9f] => true
  | [xe3; x80; x80] => true
  | _ => false
  end.

(** [str::trim_start], [str::trim]. *)
Definition str_trim_start s : list byte := mjoin (skip_while is_whitespace (str_chars s)).
Definition str_trim s : list byte :=
  mjoin (reverse (skip_while is_whitespace (reverse (skip_while is_whitespace (str_chars s))))).

(** [str::split_whitespace]. *)
Fixpoint words_of (cs : list (list byte)) (word : list byte) : list (list byte) :=
  match cs with
  | [] => if decide (word = []) then [] else [word]
  | c :: cs' =>
      if is_whitespace c then (if decide (word = []) then [] else [word]) ++ words_of cs' []
      else words_of cs' (word ++ c)
  end.
Definition split_whitespace s : list (list byte) := words_of (str_chars s) [].

(** [str::replace]: the matches are taken from the left and do not overlap; the
    empty pattern matches at every character boundary. *)
Fixpoint replace_from (skip : nat) p to s : list byte :=
  match s with
  | [] => []
  | b :: s' =>
      match skip with
      | S skip' => replace_from skip' p to s'
      | O => if bytes_starts_with s p then to ++ replace_from (length p - 1) p to s'
             else b :: replace_from 0 p to s'
      end
  end.

Definition str_replace s p to : list byte :=
  if decide (p = []) then to ++ mjoin (map (fun c => c ++ to) (str_chars s))
  else replace_from 0 p to s.

(** ** Numbers *)

(** [char::to_digit]. *)
Definition to_digit (radix : Z) b : option Z :=
  let z := Z_of_byte b in
  let d := if byte_in 48 57 b then z - 48
           else if byte_in 97 122 b then z - 87
           else if byte_in 65 90 b then z - 55 else radix in
  if d <? radix then Some d else None.

Fixpoint digits_value (width radix acc : Z) s : option Z :=
  match s with
  | [] => Some acc
  | b :: s' =>
      let* d := to_digit radix b in
      let* shifted := checked_mul width acc radix in
      let* acc' := checked_add width shifted d in
      digits_value width radix acc' s'
  end.

(** [from_str_radix] and [parse] of an unsigned type: one leading [+] is
    accepted. *)
Definition from_str_radix (width radix : Z) s : option Z :=
  match s with
  | [] => None
  | b :: s' => if decide (b = "+"%byte) then (if decide (s' = []) then None else digits_value width radix 0 s')
               else digits_value width radix 0 s
  end.

(** [format!("{}")] and [format!("{:X}")]; 64 digits are enough for any
    machine integer. *)
Definition digit_char (d : Z) : byte := byte_of_Z (if d <? 10 then d + 48 else d + 55).

Fixpoint fmt_digits (fuel : nat) (radix n : Z) (acc : list byte) : list byte :=
  match fuel with
  | O => acc
  | S fuel' =>
      let acc' := digit_char (n `mod` radix) :: acc in
      if n <? radix then acc' else fmt_digits fuel' radix (n `div` radix) acc'
  end.
Definition fmt_radix (radix n : Z) : list byte := fmt_digits 64 radix n [].

(** ** Lemmas *)

Lemma to_digit_bound radix b d : 0 <= radix -> to_digit radix b = Some d -> 0 <= d < radix.
Proof.
  unfold to_digit, byte_in. intros Hr Hd. case_match; [|done]. simplify_eq. breflect. split; [|done].
  repeat case_match; breflect; lia.
Qed.

Lemma digits_value_nonneg w radix acc s z : 0 <= radix -> 0 <= acc -> digits_value w radix acc s = Some z -> 0 <= z.
Proof.
  intros Hr. revert acc. induction s as [|b s IH]; intros acc Hacc; cbn [digits_value].
  - by intros [= <-].
  - destruct (to_digit radix b) as [d|] eqn:Hd; [|done].
    destruct (checked_mul w acc radix) as [m|] eqn:Hm; [|done]. apply checked_mul_Some in Hm as [-> _].
    destruct (checked_add w (acc * radix) d) as [a|] eqn:Ha; [|done]. apply checked_add_Some in Ha as [-> _].
    apply IH. apply to_digit_bound in Hd; [nia|done].
Qed.

Lemma from_str_radix_nonneg w radix s z : 0 <= radix -> from_str_radix w radix s = Some z -> 0 <= z.
Proof.
  intros Hr. unfold from_str_radix. destruct s as [|b s]; [done|].
  case_decide; [case_decide; [done|]|]; by apply digits_value_nonneg.
Qed.

Lemma bytes_strip_prefix_Some p s r : bytes_strip_prefix p s = Some r <-> s = p ++ r.
Proof.
  revert s. induction p as [|b p IH]; intros s; cbn [bytes_strip_prefix app]; [naive_solver|].
  destruct s as [|b' s]; [naive_solver|]. case_decide as E; [subst; rewrite IH; naive_solver | naive_solver].
Qed.

Lemma bytes_strip_suffix_Some s p r : bytes_strip_suffix s p = Some r <-> s = r ++ p.
Proof.
  unfold bytes_strip_suffix. rewrite fmap_Some. split.
  - intros (r' & Hr & ->). apply bytes_strip_prefix_Some in Hr. apply (f_equal reverse) in Hr.
    by rewrite reverse_involutive, reverse_app, reverse_involutive in Hr.
  - intros ->. exists (reverse r). split; [|by rewrite reverse_involutive].
    apply bytes_strip_prefix_Some. apply reverse_app.
Qed.

Lemma bytes_strip_suffix_None s p : bytes_strip_suffix s p = None <-> forall r, s <> r ++ p.
Proof.
  split.
  - intros E r ->. by rewrite (proj2 (bytes_strip_suffix_Some _ p r) eq_refl) in E.
  - intros E. destruct (bytes_strip_suffix s p) as [r|] eqn:Hr; [|done]. apply bytes_strip_suffix_Some in Hr. by apply E in Hr.
Qed.

Lemma bytes_starts_with_iff s p : bytes_starts_with s p = true <-> exists r, s = p ++ r.
Proof.
  unfold bytes_starts_with. rewrite bool_decide_eq_true. split.
  - intros [r ->%bytes_strip_prefix_Some]. by exists r.
  - intros [r Hr]. exists r. by apply bytes_strip_prefix_Some.
Qed.

(** *** Formatted numbers *)

Lemma digit_cases (P : Z -> Prop) d :
  0 <= d < 16 -> Forall P [0; 1; 2; 3; 4; 5; 6; 7; 8; 9; 10; 11; 12; 13; 14; 15] -> P d.
Proof.
  intros Hd HP. rewrite Forall_forall in HP. apply HP.
  assert (d = 0 \/ d = 1 \/ d = 2 \/ d = 3 \/ d = 4 \/ d = 5 \/ d = 6 \/ d = 7 \/ d = 8 \/ d = 9 \/ d = 10 \/ d = 11
          \/ d = 12 \/ d = 13 \/ d = 14 \/ d = 15) by lia.
  set_solver.
Qed.

Lemma to_digit_char radix d : 0 <= d < radix -> radix <= 16 -> to_digit radix (digit_char d) = Some d.
Proof.
  intros [Hd Hr] H16.
  assert (to_digit 16 (digit_char d) = Some d) as E by (apply (digit_cases (fun d => to_digit 16 (digit_char d) = Some d)); [lia | repeat constructor]).
  unfold to_digit in *. revert E. repeat case_match; intros; simplify_eq; try done; breflect; (lia || by f_equal).
Qed.

Lemma digit_char_alphanumeric d : 0 <= d < 16 -> is_ascii_alphanumeric (digit_char d) = true.
Proof. intros Hd. apply (digit_cases (fun d => is_ascii_alphanumeric (digit_char d) = true)); [done | repeat constructor]. Qed.

Lemma fmt_digits_value w radix fuel n acc :
  2 <= radix <= 16 -> 0 <= n < 2 ^ w -> n < radix ^ Z.of_nat fuel ->
  digits_value w radix 0 (fmt_digits fuel radix n acc) = digits_value w radix n acc.
Proof.
  intros Hr. revert n acc. induction fuel as [|fuel IH]; intros n acc Hn Hf; cbn [fmt_digits].
  - cbn in Hf. assert (n = 0) as -> by lia. done.
  - assert (0 <= n `mod` radix < radix) by (apply Z.mod_pos_bound; lia). destruct (Z.ltb_spec n radix).
    + cbn [digits_value]. rewrite Z.mod_small by lia. rewrite to_digit_char by lia. unfold checked_mul, checked_add.
      rewrite Z.mul_0_l, (proj2 (Z.ltb_lt _ _)) by lia. by rewrite (proj2 (Z.ltb_lt _ _)) by lia.
    + assert (n = radix * (n `div` radix) + n `mod` radix) as E by (apply Z.div_mod; lia).
      assert (0 <= n `div` radix < n) by (split; [apply Z.div_pos | apply Z.div_lt]; lia).
      rewrite Nat2Z.inj_succ, Z.pow_succ_r in Hf by lia. rewrite IH; [|lia|nia]. cbn [digits_value].
      rewrite to_digit_char by lia. unfold checked_mul, checked_add.
      rewrite (proj2 (Z.ltb_lt _ _)) by lia. rewrite (proj2 (Z.ltb_lt _ _)) by lia. f_equal. lia.
Qed.

Lemma fmt_digits_alphanumeric radix fuel n acc :
  2 <= radix <= 16 -> Forall (fun b => is_ascii_alphanumeric b = true) acc ->
  Forall (fun b => is_ascii_alphanumeric b = true) (fmt_digits fuel radix n acc).
Proof.
  intros Hr. revert n acc. induction fuel as [|fuel IH]; intros n acc Hacc; cbn [fmt_digits]; [done|].
  assert (0 <= n `mod` radix < radix) by (apply Z.mod_pos_bound; lia).
  assert (Forall (fun b => is_ascii_alphanumeric b = true) (digit_char (n `mod` radix) :: acc))
    by (constructor; [apply digit_char_alphanumeric; lia | done]).
  destruct (n <? radix); [done | by apply IH].
Qed.

Lemma length_fmt_digits radix fuel n acc :
  (length acc < length (fmt_digits (S fuel) radix n acc) <= S fuel + length acc)%nat.
Proof.
  revert n acc. induction fuel as [|fuel IH]; intros n acc; [cbn; destruct (n <? radix); cbn; lia|].
  cbn [fmt_digits] in *. destruct (n <? radix); [cbn; lia|].
  specialize (IH (n `div` radix) (digit_char (n `mod` radix) :: acc)). cbn [length] in IH. lia.
Qed.

Lemma fmt_radix_alphanumeric radix n :
  2 <= radix <= 16 -> Forall (fun b => is_ascii_alphanumeric b = true) (fmt_radix radix n).
Proof. intros Hr. by apply fmt_digits_alphanumeric. Qed.

Lemma length_fmt_radix radix n : (1 <= length (fmt_radix radix n) <= 64)%nat.
Proof.
  pose proof (length_fmt_digits radix 63 n []) as Hl. cbn [length] in Hl. unfold fmt_radix. lia.
Qed.

Lemma parse_fmt_radix w radix n :
  2 <= radix <= 16 -> w <= 64 -> 0 <= n < 2 ^ w -> from_str_radix w radix (fmt_radix radix n) = Some n.
Proof.
  intros Hr Hw Hn. pose proof (fmt_radix_alphanumeric radix n Hr) as Hal. pose proof (length_fmt_radix radix n) as Hlen.
  assert (Hv : digits_value w radix 0 (fmt_radix radix n) = Some n).
  { unfold fmt_radix. rewrite fmt_digits_value; [done | done | done |].
    assert (2 ^ w <= 2 ^ 64) by (apply Z.pow_le_mono_r; lia). assert (2 ^ 64 <= radix ^ 64) by (apply Z.pow_le_mono_l; lia).
    change (Z.of_nat 64) with 64. lia. }
  unfold from_str_radix. destruct (fmt_radix radix n) as [|b s]; [cbn in Hlen; lia|].
  rewrite decide_False; [done|]. intros ->. by inversion Hal.
Qed.

(** *** Trimming *)

Lemma skip_while_none {A} (P : A -> bool) l : Forall (fun a => P a = false) l -> skip_while P l = l.
Proof. intros H. destruct H as [|a l Ha _]; [done|]. cbn. by rewrite Ha. Qed.

Lemma take_until_none {A} (P : A -> bool) l : Forall (fun a => P a = false) l -> take_until P l = l.
Proof. induction 1 as [|a l Ha _ IH]; [done|]. cbn. by rewrite Ha, IH. Qed.

Lemma trim_ascii_none s : Forall (fun b => is_ascii_whitespace b = false) s -> trim_ascii s = s.
Proof.
  intros Hs. unfold trim_ascii, trim_ascii_end, trim_ascii_start. rewrite (skip_while_none _ s) by done.
  rewrite skip_while_none; [apply reverse_involutive|]. by apply Forall_reverse.
Qed.

Lemma alphanumeric_plain b :
  is_ascii_alphanumeric b = true -> is_ascii_whitespace b = false /\ byte_eqb ";"%byte b = false /\ b <> cr /\ b <> lf /\ Z_of_byte b <= 127.
Proof. destruct b; vm_compute; intros H; (discriminate H || (split_and!; congruence)). Qed.

Lemma utf8_valid_ascii s : Forall (fun b => Z_of_byte b <= 127) s -> utf8_valid s = true.
Proof. induction 1 as [|b s Hb _ IH]; [done|]. cbn [utf8_valid]. by rewrite (proj2 (Z.leb_le _ _) Hb). Qed.

(** *** Lines *)

(** No line end inside. *)
Definition no_break (acc : list byte) : Prop := forall a c, acc <> a ++ crlf ++ c.

Lemma no_break_strip acc : no_break acc -> bytes_strip_suffix acc crlf = None.
Proof. intros Hn. apply bytes_strip_suffix_None. intros r ->. apply (Hn r []). by rewrite app_nil_r. Qed.

Lemma no_break_prefix acc c : no_break (acc ++ c) -> no_break acc.
Proof. intros Hn a d ->. apply (Hn a (d ++ c)). by rewrite <- !app_assoc. Qed.

Lemma no_break_snoc acc b : no_break acc -> bytes_strip_suffix (acc ++ [b]) crlf = None -> no_break (acc ++ [b]).
Proof.
  intros Hn Hs a c E. destruct c as [|b' c _] using rev_ind.
  - rewrite app_nil_r in E. by apply bytes_strip_suffix_None with (r := a) in Hs.
  - rewrite !app_assoc in E. apply app_inj_tail in E as [E _]. apply (Hn a c). by rewrite E, app_assoc.
Qed.

Lemma no_break_nil : no_break [].
Proof. intros [|? ?] c; discriminate. Qed.

(** The lines of a string: no line end inside any, and joining them gives the
    string back. *)
Definition push_byte b (pieces : list (list byte)) : list (list byte) :=
  match pieces with piece :: pieces => (b :: piece) :: pieces | [] => [[b]] end.

Lemma split_crlf_break s : split_crlf (cr :: lf :: s) = [] :: split_crlf s.
Proof. done. Qed.

Lemma split_crlf_cons b s : (forall r, ~ (b = cr /\ s = lf :: r)) -> split_crlf (b :: s) = push_byte b (split_crlf s).
Proof.
  intros Hn. cbn [split_crlf]. fold (push_byte b (split_crlf s)). destruct s as [|b' r]; [done|].
  rewrite decide_False; [done|]. intros [-> ->]. by apply (Hn r).
Qed.

Lemma crlf_cases b s : (exists r, b = cr /\ s = lf :: r) \/ (forall r, ~ (b = cr /\ s = lf :: r)).
Proof.
  destruct (decide (b = cr)), s as [|b' s]; [naive_solver | | naive_solver..]. destruct (decide (b' = lf)); naive_solver.
Qed.

Lemma split_crlf_nonempty s : split_crlf s <> [].
Proof.
  destruct s as [|b s]; [done|]. destruct (crlf_cases b s) as [(r & -> & ->)|Hn]; [done|].
  rewrite split_crlf_cons by done. unfold push_byte. by destruct (split_crlf s).
Qed.

Lemma split_crlf_ind (P : list byte -> list (list byte) -> Prop) :
  P [] [[]] ->
  (forall s, P s (split_crlf s) -> P (cr :: lf :: s) ([] :: split_crlf s)) ->
  (forall b s piece pieces, (forall r, ~ (b = cr /\ s = lf :: r)) -> split_crlf s = piece :: pieces ->
     P s (piece :: pieces) -> P (b :: s) ((b :: piece) :: pieces)) ->
  forall s, P s (split_crlf s).
Proof.
  intros Hnil Hbreak Hcons s. remember (length s) as n eqn:Hn. revert s Hn.
  induction (lt_wf n) as [n _ IH]; intros s ->. destruct s as [|b s]; [done|].
  destruct (crlf_cases b s) as [(r & -> & ->)|Hb].
  - rewrite split_crlf_break. apply Hbreak. by apply (IH (length r)); [cbn; lia|].
  - rewrite split_crlf_cons by done. destruct (split_crlf s) as [|piece pieces] eqn:E; [by apply split_crlf_nonempty in E|].
    cbn. apply Hcons; [done | done |]. rewrite <- E. by apply (IH (length s)); [cbn; lia|].
Qed.

Lemma join_crlf_cons l lines : lines <> [] -> join_crlf (l :: lines) = l ++ crlf ++ join_crlf lines.
Proof. by destruct lines. Qed.

Lemma join_split_crlf s : join_crlf (split_crlf s) = s.
Proof.
  apply (split_crlf_ind (fun s lines => join_crlf lines = s)); [done | |].
  - intros r IH. rewrite join_crlf_cons by apply split_crlf_nonempty. by rewrite IH.
  - intros b r piece pieces _ _ IH. destruct pieces; cbn in *; by rewrite IH.
Qed.

Lemma no_break_cons b l : no_break l -> (forall r, ~ (b = cr /\ l = lf :: r)) -> no_break (b :: l).
Proof.
  intros Hl Hb [|a0 a] c E; cbn in E; injection E as -> E; [by apply (Hb c) | by apply (Hl a c)].
Qed.

Lemma no_break_cons_inv b l : no_break (b :: l) -> no_break l /\ (forall r, ~ (b = cr /\ l = lf :: r)).
Proof.
  intros Hbl. split; [intros a c -> | intros r [-> ->]]; [by apply (Hbl (b :: a) c) | by apply (Hbl [] r)].
Qed.

Lemma split_crlf_no_break s : Forall no_break (split_crlf s).
Proof.
  apply (split_crlf_ind (fun s lines => Forall no_break lines)); [by repeat constructor; apply no_break_nil | |].
  - intros r IH. constructor; [apply no_break_nil | done].
  - intros b r piece pieces Hb Hs [Hp Hps]%Forall_cons. constructor; [|done]. apply no_break_cons; [done|].
    intros q [-> ->]. rewrite <- (join_split_crlf r), Hs in Hb. apply (Hb (join_crlf (q :: pieces))).
    split; [done|]. by destruct pieces.
Qed.

Lemma split_crlf_line l : no_break l -> split_crlf l = [l].
Proof.
  induction l as [|b l IH]; [done|]. intros [Hl Hb]%no_break_cons_inv. by rewrite split_crlf_cons, IH by done.
Qed.

Lemma split_crlf_app l s : no_break l -> split_crlf (l ++ crlf ++ s) = l :: split_crlf s.
Proof.
  induction l as [|b l IH]; [done|]. intros [Hl Hb]%no_break_cons_inv. cbn [app].
  rewrite split_crlf_cons; [by rewrite IH|]. intros r [-> E]. destruct l as [|b' l]; [done|]. injection E as -> _.
  by apply (Hb l).
Qed.

Lemma split_join_crlf lines : lines <> [] -> Forall no_break lines -> split_crlf (join_crlf lines) = lines.
Proof.
  intros Hne Hl. induction Hl as [|l lines Hb _ IH]; [done|]. destruct lines as [|l' lines]; [by apply split_crlf_line|].
  rewrite join_crlf_cons, split_crlf_app, IH by done. done.
Qed.

(** *** Characters of ASCII strings *)

Lemma is_tail_ascii b : Z_of_byte b <= 127 -> is_tail b = false.
Proof. intros. unfold is_tail. rewrite (proj2 (Z.leb_gt _ _)); [done|lia]. Qed.

Lemma str_chars_ascii s : Forall (fun b => Z_of_byte b <= 127) s -> str_chars s = map (fun b => [b]) s.
Proof.
  induction 1 as [|b s Hb Hs IH]; [done|]. cbn [str_chars map]. rewrite IH. destruct s as [|b' s]; [done|]. cbn [map].
  rewrite is_tail_ascii; [done|]. by inversion Hs.
Qed.

Lemma mjoin_singletons s : mjoin (map (fun b => [b]) s) = s.
Proof. induction s as [|b s IH]; [done|]. cbn. f_equal. exact IH. Qed.

Lemma mjoin_str_chars s : mjoin (str_chars s) = s.
Proof.
  induction s as [|b s IH]; [done|]. cbn [str_chars].
  destruct (str_chars s) as [|[|b' c] cs] eqn:E; [by rewrite <- IH | by rewrite <- IH|].
  destruct (is_tail b'); rewrite <- IH; done.
Qed.

Lemma skip_while_map {A B} (f : A -> B) (P : B -> bool) l : skip_while P (map f l) = map f (skip_while (fun a => P (f a)) l).
Proof. induction l as [|a l IH]; [done|]. cbn. by destruct (P (f a)). Qed.

Lemma map_reverse {A B} (f : A -> B) l : map f (reverse l) = reverse (map f l).
Proof. unfold reverse. rewrite <- !rev_alt. apply map_rev. Qed.

Definition ascii_whitespace_char b : bool := is_whitespace [b].

Lemma str_trim_ascii s :
  Forall (fun b => Z_of_byte b <= 127) s ->
  str_trim s = reverse (skip_while ascii_whitespace_char (reverse (skip_while ascii_whitespace_char s))).
Proof.
  intros Hs. unfold str_trim. rewrite str_chars_ascii by done.
  rewrite skip_while_map, <- map_reverse, skip_while_map, <- map_reverse. apply mjoin_singletons.
Qed.

Lemma no_lf_no_break l : lf ∉ l -> no_break l.
Proof. intros Hl a c ->. apply Hl. rewrite !elem_of_app. right. left. by apply list_elem_of_further, list_elem_of_here. Qed.

(** *** Splitting at a byte *)

Lemma byte_eqb_iff b b' : byte_eqb b b' = true <-> b = b'.
Proof. apply bool_decide_eq_true. Qed.

Lemma byte_position_Some P s i :
  byte_position P s = Some i -> exists b, s = take i s ++ b :: drop (S i) s /\ P b = true /\ Forall (fun b => P b = false) (take i s).
Proof.
  revert i. induction s as [|b s IH]; intros i; cbn [byte_position]; [done|]. destruct (P b) eqn:Hb.
  - intros [= <-]. exists b. by split_and!.
  - destruct (byte_position P s) as [j|]; [|done]. intros [= <-]. destruct (IH j eq_refl) as (b' & Hs & Hb' & Hall).
    exists b'. cbn [take drop app]. rewrite <- Hs. split_and!; [done | done | by constructor].
Qed.

Lemma byte_position_app P a b c :
  Forall (fun b => P b = false) a -> P b = true -> byte_position P (a ++ b :: c) = Some (length a).
Proof. induction 1 as [|b' a Hb' _ IH]; intros Hb; cbn [byte_position app length]; [by rewrite Hb|]. by rewrite Hb', IH. Qed.

Lemma byte_position_None P s : byte_position P s = None <-> Forall (fun b => P b = false) s.
Proof.
  induction s as [|b s IH]; cbn [byte_position]; [done|]. rewrite Forall_cons. destruct (P b); [naive_solver|].
  rewrite <- IH. destruct (byte_position P s); naive_solver.
Qed.

Lemma byte_eqb_false_forall sep s : Forall (fun b => byte_eqb sep b = false) s <-> sep ∉ s.
Proof.
  rewrite Forall_forall. split.
  - intros H Hin. apply H in Hin. unfold byte_eqb in Hin. by apply bool_decide_eq_false in Hin.
  - intros H b Hin. apply bool_decide_eq_false. by intros ->.
Qed.

Lemma drop_S_app {A} (a : list A) x c : drop (S (length a)) (a ++ x :: c) = c.
Proof. induction a; [done|]. done. Qed.

Lemma split_once_Some sep s a c : split_once sep s = Some (a, c) <-> s = a ++ sep :: c /\ sep ∉ a.
Proof.
  unfold split_once. split.
  - destruct (byte_position _ s) as [i|] eqn:E; [|done]. intros [= <- <-].
    apply byte_position_Some in E as (b & Hs & ->%byte_eqb_iff & Hall). by rewrite <- byte_eqb_false_forall.
  - intros [-> Hn]. rewrite byte_position_app by (by apply byte_eqb_false_forall || by apply byte_eqb_iff).
    by rewrite take_app_length, drop_S_app.
Qed.

Lemma rsplit_once_Some sep s a c : rsplit_once sep s = Some (a, c) <-> s = a ++ sep :: c /\ sep ∉ c.
Proof.
  unfold rsplit_once. split.
  - destruct (byte_position _ (reverse s)) as [i|] eqn:E; [|done]. intros [= <- <-].
    apply byte_position_Some in E as (b & Hs & ->%byte_eqb_iff & Hall%byte_eqb_false_forall).
    apply (f_equal reverse) in Hs as Hs'. rewrite reverse_involutive, reverse_app, reverse_cons in Hs'.
    set (x := reverse (drop (S i) (reverse s))) in *. set (y := reverse (take i (reverse s))) in *.
    assert (Hi : length y = i).
    { unfold y. rewrite length_reverse, length_take. apply (f_equal length) in Hs. rewrite !length_app, length_cons, length_take, length_drop in Hs. lia. }
    rewrite Hs'. rewrite !length_app, Hi. cbn [length].
    rewrite <- app_assoc. cbn [app].
    replace (length x + 1 + i - S i)%nat with (length x) by lia. replace (length x + 1 + i - i)%nat with (S (length x)) by lia.
    rewrite take_app_length, drop_S_app. split; [done|]. unfold y. by rewrite elem_of_reverse.
  - intros [-> Hn]. rewrite reverse_app, reverse_cons, <- app_assoc. cbn [app].
    rewrite byte_position_app; [|apply byte_eqb_false_forall; by rewrite elem_of_reverse | by apply byte_eqb_iff].
    rewrite length_reverse, length_app, length_cons.
    replace (length a + S (length c) - S (length c))%nat with (length a) by lia.
    replace (length a + S (length c) - length c)%nat with (S (length a)) by lia.
    by rewrite take_app_length, drop_S_app.
Qed.

(** *** Case *)

Lemma bytes_lower_app s s' : bytes_lower (s ++ s') = bytes_lower s ++ bytes_lower s'.
Proof. apply map_app. Qed.

Lemma length_bytes_lower s : length (bytes_lower s) = length s.
Proof. apply length_map. Qed.

Lemma byte_lower_fixed b c : byte_lower b = c -> is_ascii_alphabetic c = false -> b = c.
Proof. intros <-. destruct b; vm_compute; intros H; (discriminate H || reflexivity). Qed.

Lemma eq_ignore_ascii_case_iff s s' : eq_ignore_ascii_case s s' = true <-> bytes_lower s = bytes_lower s'.
Proof. apply bool_decide_eq_true. Qed.

Lemma eq_ignore_refl s : eq_ignore_ascii_case s s = true.
Proof. by apply eq_ignore_ascii_case_iff. Qed.

(** *** Trimming a character *)

Lemma skip_while_suffix {A} (P : A -> bool) l : exists pre, l = pre ++ skip_while P l.
Proof. induction l as [|a l [pre IH]]; [by exists []|]. cbn. destruct (P a); [exists (a :: pre); cbn; congruence | by exists []]. Qed.

Lemma trim_end_prefix c s : exists post, s = trim_end_matches c s ++ post.
Proof.
  destruct (skip_while_suffix (byte_eqb c) (reverse s)) as [pre Hp]. exists (reverse pre).
  unfold trim_end_matches. rewrite <- reverse_app, <- Hp. by rewrite reverse_involutive.
Qed.

Lemma trim_end_noop c s b : b <> c -> trim_end_matches c (s ++ [b]) = s ++ [b].
Proof.
  intros Hb. unfold trim_end_matches. rewrite reverse_app. cbn [reverse]. rewrite reverse_singleton. cbn [app skip_while].
  unfold byte_eqb. rewrite bool_decide_eq_false_2 by done. by rewrite reverse_cons, reverse_involutive.
Qed.

Lemma rsplit_once_None sep s : rsplit_once sep s = None <-> sep ∉ s.
Proof.
  unfold rsplit_once. destruct (byte_position _ (reverse s)) as [i|] eqn:E.
  - split; [done|]. apply byte_position_Some in E as (b & Hs & ->%byte_eqb_iff & _). intros Hn. exfalso. apply Hn.
    rewrite <- elem_of_reverse, Hs. rewrite elem_of_app. right. apply list_elem_of_here.
  - rewrite byte_position_None, byte_eqb_false_forall, elem_of_reverse in E. done.
Qed.

(** A parsed number ends with a digit. *)
Lemma digits_value_last w radix acc s b z :
  digits_value w radix acc (s ++ [b]) = Some z -> is_Some (to_digit radix b).
Proof.
  revert acc. induction s as [|b' s IH]; intros acc; cbn [app digits_value].
  - destruct (to_digit radix b); [done|discriminate].
  - destruct (to_digit radix b'); [|done]. destruct (checked_mul _ _ _); [|done]. destruct (checked_add _ _ _); [apply IH|done].
Qed.

Lemma from_str_radix_last w radix s z : from_str_radix w radix s = Some z -> exists s' b, s = s' ++ [b] /\ is_Some (to_digit radix b).
Proof.
  intros H. destruct s as [|b s _] using rev_ind; [done|]. exists s, b. split; [done|].
  unfold from_str_radix in H. destruct s as [|b' s]; cbn [app] in H.
  - case_decide as E; [by rewrite decide_True in H|]. by apply (digits_value_last _ _ _ []) in H.
  - case_decide as E.
    + rewrite decide_False in H by (by destruct s). by apply digits_value_last in H.
    + by apply (digits_value_last _ _ _ (b' :: s)) in H.
Qed.
