(* ===== verification/TtlIndex.v ===== *)
(** * The TTL-indexed reverse map

    Models [crates/utils/lib/ttl_reverse_index.rs]: keys own members with
    individual expiries, a reverse index maps members back to keys, and an
    ordered map of expirations holds one entry per binding.  The network engine
    stores in it which hostnames the guest's own DNS answers bound to which
    addresses.

    [Instant]s are integers (nanoseconds); the hash maps are [gmap]s, the hash
    sets [gset]s and the ordered map of expirations a [gmap] whose first entry
    is computed with the derived lexicographic order of [Expiry].  The
    refinement theorems relate every operation to the abstract state a client
    sees: the partial function from (key, member) to expiry instant. *)

From S2P Require Import Prelude.

(** The sequence distinguishes bindings with the same expiry. *)
Record Expiry := mkExpiry { expires_at : Z; sequence : Z }.

#[global] Instance Expiry_eq_dec : EqDecision Expiry.
Proof. solve_decision. Defined.

#[global] Instance Expiry_countable : Countable Expiry.
Proof.
  refine (inj_countable' (fun e => (expires_at e, sequence e))
                         (fun p => mkExpiry p.1 p.2) _).
  by intros [].
Defined.

(** The derived [Ord]: fields compared in declaration order. *)
Definition expiry_ltb (a b : Expiry) : bool :=
  (expires_at a <? expires_at b)
  || ((expires_at a =? expires_at b) && (sequence a <? sequence b)).

Record TtlReverseIndex (K M : Type) `{Countable K} `{Countable M} := mkIndex {
  by_key : gmap K (gmap M Expiry);
  by_member : gmap M (gset K);
  expirations : gmap Expiry (K * M);
  next_sequence : Z
}.
Arguments mkIndex {K M _ _ _ _}.
Arguments by_key {K M _ _ _ _}.
Arguments by_member {K M _ _ _ _}.
Arguments expirations {K M _ _ _ _}.
Arguments next_sequence {K M _ _ _ _}.

Section TtlReverseIndex.
Context {K M : Type} `{Countable K} `{Countable M}.
Abbreviation index := (TtlReverseIndex K M).
Implicit Types (t : index) (k key : K) (m member : M) (now expires : Z).

(** ** Operations *)

Definition default_index : index := mkIndex ∅ ∅ ∅ 0.

(** [BTreeMap::first_key_value]: the entry with the least key. *)
Fixpoint min_entry (l : list (Expiry * (K * M))) : option (Expiry * (K * M)) :=
  match l with
  | [] => None
  | e :: l' =>
      match min_entry l' with
      | Some e' => if expiry_ltb e'.1 e.1 then Some e' else Some e
      | None => Some e
      end
  end.

Definition first_key_value t : option (Expiry * (K * M)) :=
  min_entry (map_to_list (expirations t)).

Definition forget_reverse t member key : index :=
  match by_member t !! member with
  | Some keys =>
      let keys' := keys ∖ {[key]} in
      mkIndex (by_key t)
              (if decide (keys' = ∅) then delete member (by_member t)
               else <[member := keys']> (by_member t))
              (expirations t) (next_sequence t)
  | None => t
  end.

(** Remove a binding whose expiry entry has already been popped. *)
Definition unbind t key member : index :=
  match by_key t !! key with
  | Some bindings =>
      let bindings' := delete member bindings in
      forget_reverse
        (mkIndex (if decide (bindings' = ∅) then delete key (by_key t)
                  else <[key := bindings']> (by_key t))
                 (by_member t) (expirations t) (next_sequence t))
        member key
  | None => t
  end.

(** One iteration of the eviction loop: [None] when the loop stops. *)
Definition evict_step t now : option index :=
  match first_key_value t with
  | Some (expiry, (key, member)) =>
      if expires_at expiry <=? now then
        Some (unbind (mkIndex (by_key t) (by_member t)
                              (delete expiry (expirations t)) (next_sequence t))
                     key member)
      else None
  | None => None
  end.

Fixpoint evict_loop (fuel : nat) t now : index :=
  match fuel with
  | O => t
  | S fuel' =>
      match evict_step t now with
      | Some t' => evict_loop fuel' t' now
      | None => t
      end
  end.

(** Every iteration pops one entry, so the number of entries bounds the loop. *)
Definition evict_expired t now : index := evict_loop (size (expirations t)) t now.

Definition bind t key member expires : index :=
  let bindings := default ∅ (by_key t !! key) in
  let t := mkIndex (<[key := bindings]> (by_key t)) (by_member t)
                   (expirations t) (next_sequence t) in
  let insert_new (exps : gmap Expiry (K * M)) :=
    let expiry := mkExpiry expires (next_sequence t) in
    mkIndex (<[key := <[member := expiry]> bindings]> (by_key t))
            (<[member := {[key]} ∪ default ∅ (by_member t !! member)]> (by_member t))
            (<[expiry := (key, member)]> exps)
            (wrap 64 (next_sequence t + 1)) in
  match bindings !! member with
  | Some previous =>
      if expires <=? expires_at previous then t
      else insert_new (delete previous (expirations t))
  | None => insert_new (expirations t)
  end.

Definition bind_all t key (members : list M) expires : index :=
  fold_left (fun t member => bind t key member expires) members t.

(** The body of the loop of [remove_key] over the removed member map. *)
Definition remove_member key t (entry : M * Expiry) : index :=
  forget_reverse (mkIndex (by_key t) (by_member t) (delete entry.2 (expirations t))
                          (next_sequence t))
                 entry.1 key.

Definition remove_key t key : index :=
  match by_key t !! key with
  | Some removed =>
      fold_left (remove_member key) (map_to_list removed)
        (mkIndex (delete key (by_key t)) (by_member t) (expirations t) (next_sequence t))
  | None => t
  end.

Definition insert_index t key (members : list M) (ttl now : Z) : index :=
  bind_all (remove_key (evict_expired t now) key) key members (now + ttl).

Definition extend t key (members : list M) (ttl now : Z) : index :=
  bind_all (evict_expired t now) key members (now + ttl).

(** The scan of [try_extend]: the set of distinct members, or [None] when the
    number of new bindings exceeds [remaining]. *)
Fixpoint try_extend_scan (existing : option (gmap M Expiry)) (remaining : Z)
    (members : list M) (unique : gset M) (added : Z) : option (gset M) :=
  match members with
  | [] => Some unique
  | member :: members' =>
      if decide (member ∈ unique) then
        try_extend_scan existing remaining members' unique added
      else if decide (is_Some (existing ≫= (.!! member))) then
        try_extend_scan existing remaining members' ({[member]} ∪ unique) added
      else
        let added := added + 1 in
        if added >? remaining then None
        else try_extend_scan existing remaining members' ({[member]} ∪ unique) added
  end.

Definition binding_count t : nat := size (expirations t).

Definition member_count t key : nat := match by_key t !! key with Some b => size b | None => 0%nat end.

Definition try_extend t key (members : list M) (ttl now : Z) (capacity : Z) : index * bool :=
  let t := evict_expired t now in
  let remaining := saturating_sub capacity (Z.of_nat (size (expirations t))) in
  match try_extend_scan (by_key t !! key) remaining members ∅ 0 with
  | Some unique => (bind_all t key (elements unique) (now + ttl), true)
  | None => (t, false)
  end.

Definition remove t key now : index := remove_key (evict_expired t now) key.

(** [Iterator::any] with an [FnMut] predicate: the predicate's captured state is
    threaded through the visited elements. *)
Fixpoint any_mut {S A : Type} (f : S -> A -> S * bool) (s : S) (l : list A) : S * bool :=
  match l with
  | [] => (s, false)
  | a :: l' => let '(s', hit) := f s a in if hit then (s', true) else any_mut f s' l'
  end.

Definition member_matches_mut {S : Type} t member now (predicate : S -> K -> S * bool) (s : S)
  : S * bool :=
  match by_member t !! member with
  | Some keys =>
      any_mut (fun s key =>
        match by_key t !! key ≫= (.!! member) with
        | Some expiry => if now <? expires_at expiry then predicate s key else (s, false)
        | None => (s, false)
        end) s (elements keys)
  | None => (s, false)
  end.

(** The same with a predicate that captures no mutable state. *)
Definition member_matches t member now (predicate : K -> bool) : bool :=
  match by_member t !! member with
  | Some keys =>
      existsb (fun key =>
        match by_key t !! key ≫= (.!! member) with
        | Some expiry => (now <? expires_at expiry) && predicate key
        | None => false
        end) (elements keys)
  | None => false
  end.

(** ** Abstract state *)

Definition binding t k m : option Expiry := by_key t !! k ≫= (.!! m).

(** What a client observes: the expiry instant of every binding. *)
Definition expiry_of t k m : option Z := expires_at <$> binding t k m.

Definition spec_evict (s : K -> M -> option Z) now k m : option Z :=
  match s k m with Some e => if e <=? now then None else Some e | None => None end.

Definition spec_remove (s : K -> M -> option Z) key k m : option Z :=
  if decide (k = key) then None else s k m.

Definition spec_bind (s : K -> M -> option Z) key (members : list M) expires k m : option Z :=
  if decide (k = key /\ m ∈ members)
  then Some (match s k m with Some e => Z.max e expires | None => expires end)
  else s k m.

(** ** Invariant: the three maps describe the same set of bindings. *)

Record wf t : Prop := {
  wf_exp : forall e k m, expirations t !! e = Some (k, m) <-> binding t k m = Some e;
  wf_member : forall k m, k ∈ default ∅ (by_member t !! m) <-> is_Some (binding t k m);
  wf_key_ne : forall k b, by_key t !! k = Some b -> b <> ∅;
  wf_member_ne : forall m ks, by_member t !! m = Some ks -> ks <> ∅;
  wf_seq : forall e v, expirations t !! e = Some v -> 0 <= sequence e < next_sequence t;
  wf_next : 0 <= next_sequence t < 2 ^ 64
}.

(** ** Lemmas *)

Lemma binding_Some t k m e :
  binding t k m = Some e <-> exists b, by_key t !! k = Some b /\ b !! m = Some e.
Proof. unfold binding. rewrite bind_Some. done. Qed.

Lemma expiry_ltb_irrefl e : expiry_ltb e e = false.
Proof. unfold expiry_ltb. rewrite !Z.ltb_irrefl. by rewrite andb_false_r. Qed.

Lemma expiry_ltb_expires a b : expiry_ltb b a = false -> expires_at a <= expires_at b.
Proof. unfold expiry_ltb. intros ?. breflect. lia. Qed.

Lemma min_entry_None l : min_entry l = None <-> l = [].
Proof.
  destruct l as [|e l]; [done|]. cbn.
  split; [|done]. destruct (min_entry l); [destruct (expiry_ltb _ _)|]; discriminate.
Qed.

Lemma min_entry_Some l e :
  min_entry l = Some e -> e ∈ l /\ forall e', e' ∈ l -> expires_at e.1 <= expires_at e'.1.
Proof.
  revert e. induction l as [|x l IH]; intros e; [discriminate|]. cbn.
  destruct (min_entry l) as [y|] eqn:E.
  - destruct (IH y eq_refl) as [Hin Hmin].
    destruct (expiry_ltb y.1 x.1) eqn:Hlt; intros [= <-]; split.
    + by apply list_elem_of_further.
    + intros e' [-> | He']%elem_of_cons; [|by apply Hmin].
      unfold expiry_ltb in Hlt. apply orb_true_iff in Hlt as [|]; breflect; lia.
    + apply elem_of_cons. by left.
    + intros e' [-> | He']%elem_of_cons; [lia|].
      specialize (Hmin _ He'). apply expiry_ltb_expires in Hlt. lia.
  - apply min_entry_None in E as ->. intros [= <-].
    split; [by apply list_elem_of_singleton|]. intros e' ->%list_elem_of_singleton. lia.
Qed.

Lemma first_key_value_None t : first_key_value t = None <-> expirations t = ∅.
Proof. unfold first_key_value. by rewrite min_entry_None, map_to_list_empty_iff. Qed.

Lemma first_key_value_Some t e k m :
  first_key_value t = Some (e, (k, m)) ->
  expirations t !! e = Some (k, m)
  /\ forall e' v, expirations t !! e' = Some v -> expires_at e <= expires_at e'.
Proof.
  intros [Hin Hmin]%min_entry_Some. split; [by apply elem_of_map_to_list|].
  intros e' v He'. apply (Hmin (e', v)). by apply elem_of_map_to_list.
Qed.

(** *** [forget_reverse] touches the reverse index only *)

Lemma forget_reverse_frame t m k :
  by_key (forget_reverse t m k) = by_key t
  /\ expirations (forget_reverse t m k) = expirations t
  /\ next_sequence (forget_reverse t m k) = next_sequence t.
Proof. unfold forget_reverse. by destruct (by_member t !! m). Qed.

Lemma forget_reverse_member t m k m' k' :
  k' ∈ default ∅ (by_member (forget_reverse t m k) !! m')
  <-> k' ∈ default ∅ (by_member t !! m') /\ ~ (k' = k /\ m' = m).
Proof.
  unfold forget_reverse. destruct (by_member t !! m) as [ks|] eqn:E; cbn.
  - destruct (decide (m' = m)) as [->|Hne].
    + rewrite E. case_decide as Hks; simplify_map_eq; set_solver.
    + case_decide; simplify_map_eq; naive_solver.
  - destruct (decide (m' = m)) as [->|]; [rewrite E; set_solver|naive_solver].
Qed.

Lemma forget_reverse_ne t m k :
  (forall m' ks, by_member t !! m' = Some ks -> ks <> ∅) ->
  forall m' ks, by_member (forget_reverse t m k) !! m' = Some ks -> ks <> ∅.
Proof.
  intros Hne m' ks. unfold forget_reverse.
  destruct (by_member t !! m) as [ks0|] eqn:E; cbn; [|by apply Hne].
  case_decide.
  - intros [_ ?]%lookup_delete_Some. by eapply Hne.
  - intros [[<- <-]|[_ ?]]%lookup_insert_Some; [done|by eapply Hne].
Qed.

(** *** [unbind] *)

Lemma unbind_expirations t k m :
  expirations (unbind t k m) = expirations t /\ next_sequence (unbind t k m) = next_sequence t.
Proof.
  unfold unbind. destruct (by_key t !! k); [|done].
  edestruct forget_reverse_frame as (_ & -> & ->). done.
Qed.

Lemma unbind_binding t k m k' m' :
  binding (unbind t k m) k' m'
  = if decide (k' = k /\ m' = m) then None else binding t k' m'.
Proof.
  unfold unbind, binding. destruct (by_key t !! k) as [b|] eqn:E.
  - edestruct forget_reverse_frame as (-> & _ & _). cbn.
    destruct (decide (k' = k)) as [->|Hk].
    + case_decide as Hb.
      * rewrite lookup_delete_eq, E. cbn. case_decide as Hm; [done|].
        assert (m' <> m) by naive_solver.
        rewrite <- (lookup_delete_ne b m m') by done. by rewrite Hb.
      * rewrite lookup_insert_eq, E. cbn. case_decide as Hm.
        -- destruct Hm as [_ ->]. apply lookup_delete_eq.
        -- apply lookup_delete_ne. naive_solver.
    + rewrite (decide_False (P := k' = k /\ m' = m)) by naive_solver.
      case_decide; by simplify_map_eq.
  - case_decide as Hc; [|done]. destruct Hc as [-> ->]. by rewrite E.
Qed.

Lemma unbind_key_ne t k m :
  (forall k' b, by_key t !! k' = Some b -> b <> ∅) ->
  forall k' b, by_key (unbind t k m) !! k' = Some b -> b <> ∅.
Proof.
  intros Hne k' b. unfold unbind. destruct (by_key t !! k) as [b0|] eqn:E; [|by apply Hne].
  edestruct forget_reverse_frame as (-> & _ & _). cbn. case_decide.
  - intros [_ ?]%lookup_delete_Some. by eapply Hne.
  - intros [[<- <-]|[_ ?]]%lookup_insert_Some; [done|by eapply Hne].
Qed.

Lemma unbind_member t k m m' k' :
  is_Some (by_key t !! k) ->
  k' ∈ default ∅ (by_member (unbind t k m) !! m')
  <-> k' ∈ default ∅ (by_member t !! m') /\ ~ (k' = k /\ m' = m).
Proof.
  intros [b E]. unfold unbind. rewrite E, forget_reverse_member. done.
Qed.

Lemma unbind_member_ne t k m :
  (forall m' ks, by_member t !! m' = Some ks -> ks <> ∅) ->
  forall m' ks, by_member (unbind t k m) !! m' = Some ks -> ks <> ∅.
Proof.
  intros Hne. unfold unbind. destruct (by_key t !! k); [|done].
  by apply forget_reverse_ne.
Qed.

(** *** Removing one binding from all three maps preserves the invariant *)

Lemma wf_drop_binding t t' k m e :
  wf t -> binding t k m = Some e ->
  (forall k' m', binding t' k' m' = if decide (k' = k /\ m' = m) then None else binding t k' m') ->
  expirations t' = delete e (expirations t) ->
  next_sequence t' = next_sequence t ->
  (forall k' m', k' ∈ default ∅ (by_member t' !! m')
     <-> k' ∈ default ∅ (by_member t !! m') /\ ~ (k' = k /\ m' = m)) ->
  (forall k' b, by_key t' !! k' = Some b -> b <> ∅) ->
  (forall m' ks, by_member t' !! m' = Some ks -> ks <> ∅) ->
  wf t'.
Proof.
  intros [Hexp Hmem Hkne Hmne Hseq Hnext] Hb Hbind He Hns Hmem' Hk' Hm'. split.
  - intros e' k' m'. rewrite He, Hbind, lookup_delete_Some, Hexp. case_decide as Hc.
    + destruct Hc as [-> ->]. split; [|done]. intros [? ?]. congruence.
    + split; [by intros [_ ?]|]. intros Hb'. split; [|done]. intros ->.
      apply Hexp in Hb, Hb'. naive_solver.
  - intros k' m'. rewrite Hmem', Hmem, Hbind. case_decide as Hc.
    + split; [naive_solver|]. by intros [? ?].
    + naive_solver.
  - done.
  - done.
  - intros e' v. rewrite He, Hns, lookup_delete_Some. intros [_ ?]. by eapply Hseq.
  - by rewrite Hns.
Qed.

(** *** Eviction *)

Lemma evict_step_Some t now t' :
  wf t -> evict_step t now = Some t' ->
  wf t' /\ next_sequence t' = next_sequence t
  /\ size (expirations t) = S (size (expirations t'))
  /\ exists k m e, binding t k m = Some e /\ expires_at e <= now
     /\ forall k' m', binding t' k' m' = if decide (k' = k /\ m' = m) then None else binding t k' m'.
Proof.
  intros Hwf. unfold evict_step.
  destruct (first_key_value t) as [[e [k m]]|] eqn:Hf; [|discriminate].
  destruct (expires_at e <=? now) eqn:Hle; [|discriminate]. intros [= <-].
  apply first_key_value_Some in Hf as [He _]. breflect.
  pose proof (proj1 (wf_exp t Hwf e k m) He) as Hb.
  set (t1 := mkIndex (by_key t) (by_member t) (delete e (expirations t)) (next_sequence t)).
  destruct (unbind_expirations t1 k m) as [Hexp' Hns'].
  assert (forall k' m', binding (unbind t1 k m) k' m'
            = if decide (k' = k /\ m' = m) then None else binding t k' m') as Hbind'
    by (intros; exact (unbind_binding t1 k m k' m')).
  split; [|split; [done|split]].
  - eapply (wf_drop_binding t); try done.
    + intros k' m'. refine (unbind_member t1 k m m' k' _).
      apply binding_Some in Hb as (b & Hk & _). cbn. rewrite Hk. eauto.
    + apply unbind_key_ne, (wf_key_ne t Hwf).
    + apply unbind_member_ne, (wf_member_ne t Hwf).
  - rewrite Hexp'. cbn. rewrite map_size_delete_Some by eauto.
    assert (size (expirations t) <> 0%nat); [|lia].
    intros Hz%map_size_empty_iff. rewrite Hz in He. by simplify_map_eq.
  - exists k, m, e. done.
Qed.

Lemma evict_step_None t now :
  wf t -> evict_step t now = None -> forall k m e, binding t k m = Some e -> now < expires_at e.
Proof.
  intros Hwf. unfold evict_step.
  destruct (first_key_value t) as [[e0 [k0 m0]]|] eqn:Hf.
  - destruct (expires_at e0 <=? now) eqn:Hle; [discriminate|]. intros _ k m e Hb.
    apply first_key_value_Some in Hf as [_ Hmin]. breflect.
    apply (wf_exp t Hwf) in Hb. specialize (Hmin _ _ Hb). lia.
  - intros _ k m e Hb. apply first_key_value_None in Hf.
    apply (wf_exp t Hwf) in Hb. rewrite Hf in Hb. by simplify_map_eq.
Qed.

Definition keep_live (now : Z) (o : option Expiry) : option Expiry :=
  match o with Some e => if expires_at e <=? now then None else Some e | None => None end.

Lemma evict_loop_spec now fuel t :
  wf t -> (size (expirations t) <= fuel)%nat ->
  wf (evict_loop fuel t now)
  /\ next_sequence (evict_loop fuel t now) = next_sequence t
  /\ (size (expirations (evict_loop fuel t now)) <= size (expirations t))%nat
  /\ forall k m, binding (evict_loop fuel t now) k m = keep_live now (binding t k m).
Proof.
  revert t. induction fuel as [|fuel IH]; intros t Hwf Hsize; cbn.
  - assert (expirations t = ∅) as He by (apply map_size_empty_iff; lia).
    split; [done|]. split; [done|]. split; [done|].
    intros k m. destruct (binding t k m) as [e|] eqn:E; [|done].
    apply (wf_exp t Hwf) in E. rewrite He in E. by simplify_map_eq.
  - destruct (evict_step t now) as [t'|] eqn:Hs.
    + destruct (evict_step_Some _ _ _ Hwf Hs) as (Hwf' & Hns & Hsz & k0 & m0 & e0 & Hb0 & Hle & Hb).
      destruct (IH t') as (Hwf'' & Hns'' & Hsz'' & Hb''); [done|lia|].
      split; [done|]. split; [congruence|]. split; [lia|]. intros k m. rewrite Hb'', Hb.
      case_decide as Hc; [|done]. destruct Hc as [-> ->]. rewrite Hb0. cbn.
      by rewrite (proj2 (Z.leb_le _ _) Hle).
    + split; [done|]. split; [done|]. split; [done|]. intros k m.
      destruct (binding t k m) as [e|] eqn:E; [|done]. cbn.
      pose proof (evict_step_None _ _ Hwf Hs _ _ _ E) as Hlt.
      by rewrite (proj2 (Z.leb_gt _ _) Hlt).
Qed.

Lemma evict_expired_wf t now : wf t -> wf (evict_expired t now).
Proof. intros Hwf. by apply (evict_loop_spec now). Qed.

Lemma evict_expired_next t now :
  wf t -> next_sequence (evict_expired t now) = next_sequence t.
Proof. intros Hwf. by apply (evict_loop_spec now). Qed.

Lemma evict_expired_binding t now k m :
  wf t -> binding (evict_expired t now) k m = keep_live now (binding t k m).
Proof. intros Hwf. by apply (evict_loop_spec now). Qed.

Lemma evict_expired_count t now :
  wf t -> (binding_count (evict_expired t now) <= binding_count t)%nat.
Proof. intros Hwf. by apply (evict_loop_spec now). Qed.

Lemma evict_expired_expiry_of t now k m :
  wf t -> expiry_of (evict_expired t now) k m = spec_evict (expiry_of t) now k m.
Proof.
  intros Hwf. unfold expiry_of, spec_evict. rewrite evict_expired_binding by done.
  destruct (binding t k m) as [e|]; cbn; [|done]. by destruct (expires_at e <=? now).
Qed.

(** *** Binding *)

(** The state after [bind] replaced (or created) the binding. *)
Definition rebound t key member expires (exps : gmap Expiry (K * M)) : index :=
  let expiry := mkExpiry expires (next_sequence t) in
  mkIndex (<[key := <[member := expiry]> (default ∅ (by_key t !! key))]> (by_key t))
          (<[member := {[key]} ∪ default ∅ (by_member t !! member)]> (by_member t))
          (<[expiry := (key, member)]> exps)
          (wrap 64 (next_sequence t + 1)).

Lemma binding_default t k m : default ∅ (by_key t !! k) !! m = binding t k m.
Proof. unfold binding. destruct (by_key t !! k); [done|]. apply lookup_empty. Qed.

Lemma bind_cases t key member expires :
  bind t key member expires =
  match binding t key member with
  | Some previous =>
      if expires <=? expires_at previous then t
      else rebound t key member expires (delete previous (expirations t))
  | None => rebound t key member expires (expirations t)
  end.
Proof.
  unfold bind, rebound. rewrite binding_default. cbn.
  destruct (binding t key member) as [e|] eqn:E.
  - destruct (expires <=? expires_at e).
    + apply binding_Some in E as (b & Hk & _). rewrite Hk. cbn.
      rewrite insert_id by done. by destruct t.
    + by rewrite insert_insert_eq.
  - by rewrite insert_insert_eq.
Qed.

Lemma rebound_binding t key member expires exps k m :
  binding (rebound t key member expires exps) k m
  = if decide (k = key /\ m = member) then Some (mkExpiry expires (next_sequence t))
    else binding t k m.
Proof.
  unfold binding, rebound. cbn. destruct (decide (k = key)) as [->|Hk].
  - rewrite lookup_insert_eq. cbn. case_decide as Hc.
    + destruct Hc as [_ ->]. apply lookup_insert_eq.
    + rewrite lookup_insert_ne by naive_solver. apply binding_default.
  - rewrite lookup_insert_ne by done. rewrite decide_False by naive_solver. done.
Qed.

(** [bind] keeps the later of the two expiries. *)
Lemma bind_binding t key member expires k m :
  binding (bind t key member expires) k m
  = if decide (k = key /\ m = member) then
      Some (match binding t k m with
            | Some e => if expires <=? expires_at e then e else mkExpiry expires (next_sequence t)
            | None => mkExpiry expires (next_sequence t)
            end)
    else binding t k m.
Proof.
  rewrite bind_cases. destruct (binding t key member) as [e|] eqn:E.
  - destruct (expires <=? expires_at e) eqn:Hle.
    + case_decide as Hc; [|done]. destruct Hc as [-> ->]. by rewrite E, Hle.
    + rewrite rebound_binding. case_decide as Hc; [|done]. destruct Hc as [-> ->]. by rewrite E, Hle.
  - rewrite rebound_binding. case_decide as Hc; [|done]. destruct Hc as [-> ->]. by rewrite E.
Qed.

(** [rebound] restores the invariant when the old entry of the binding, if
    any, has been dropped from the expirations. *)
Lemma rebound_wf t key member expires exps :
  wf t -> next_sequence t + 1 < 2 ^ 64 ->
  (forall e k m, exps !! e = Some (k, m)
     <-> binding t k m = Some e /\ ~ (k = key /\ m = member)) ->
  wf (rebound t key member expires exps).
Proof.
  intros [Hexp Hmem Hkne Hmne Hseq Hnext] Hroom Hexps.
  assert (wrap 64 (next_sequence t + 1) = next_sequence t + 1) as Hw
    by (apply wrap_small; unfold fits; lia).
  assert (forall k m, binding t k m <> Some (mkExpiry expires (next_sequence t))) as Hfresh.
  { intros k m Hb%Hexp%Hseq. cbn in Hb. lia. }
  split.
  - intros e k m. rewrite rebound_binding. cbn. rewrite lookup_insert_Some, Hexps.
    case_decide as Hc; [naive_solver|].
    split; [naive_solver|]. intros Hb. right. split; [|done]. intros <-. by eapply Hfresh.
  - intros k m. rewrite rebound_binding. cbn. specialize (Hmem k m).
    destruct (decide (m = member)) as [->|Hm].
    + rewrite lookup_insert_eq. cbn. case_decide as Hc; [naive_solver set_solver|].
      rewrite elem_of_union, elem_of_singleton, Hmem. naive_solver.
    + rewrite lookup_insert_ne by done. rewrite decide_False by naive_solver. done.
  - intros k b. cbn. intros [[<- <-]|[_ ?]]%lookup_insert_Some; [|by eapply Hkne].
    intros Hz. eapply (insert_non_empty (M := gmap M)). exact Hz.
  - intros m ks. cbn. intros [[<- <-]|[_ ?]]%lookup_insert_Some; [set_solver|by eapply Hmne].
  - intros e [k m]. cbn. rewrite Hw.
    intros [[<- _]|[_ [Hb _]%Hexps]]%lookup_insert_Some; [cbn; lia|].
    apply Hexp, Hseq in Hb. lia.
  - cbn. rewrite Hw. lia.
Qed.

Lemma bind_wf t key member expires :
  wf t -> next_sequence t + 1 < 2 ^ 64 -> wf (bind t key member expires).
Proof.
  intros Hwf Hroom. rewrite bind_cases.
  destruct (binding t key member) as [e|] eqn:E.
  - destruct (expires <=? expires_at e); [done|].
    apply rebound_wf; [done..|]. intros e' k m.
    rewrite lookup_delete_Some, (wf_exp t Hwf). split.
    + intros [Hne Hb]. split; [done|]. intros [-> ->]. congruence.
    + intros [Hb Hne]. split; [|done]. intros ->. apply (wf_exp t Hwf) in E, Hb. naive_solver.
  - apply rebound_wf; [done..|]. intros e' k m. rewrite (wf_exp t Hwf).
    split; [|naive_solver]. intros Hb. split; [done|]. intros [-> ->]. congruence.
Qed.

Lemma bind_next t key member expires :
  wf t -> next_sequence t + 1 < 2 ^ 64 ->
  next_sequence t <= next_sequence (bind t key member expires) <= next_sequence t + 1.
Proof.
  intros Hwf Hroom. rewrite bind_cases.
  assert (wrap 64 (next_sequence t + 1) = next_sequence t + 1) as Hw
    by (apply wrap_small; unfold fits; pose proof (wf_next t Hwf); lia).
  destruct (binding t key member) as [e|]; [destruct (expires <=? expires_at e)|]; cbn; lia.
Qed.

(** A new binding adds one entry, both overall and under its key. *)
Lemma bind_counts t key member expires :
  wf t -> next_sequence t + 1 < 2 ^ 64 ->
  let d := if decide (is_Some (binding t key member)) then 0%nat else 1%nat in
  binding_count (bind t key member expires) = (binding_count t + d)%nat
  /\ member_count (bind t key member expires) key = (member_count t key + d)%nat
  /\ (forall k, k <> key -> member_count (bind t key member expires) k = member_count t k).
Proof.
  intros Hwf Hroom. cbn zeta. rewrite bind_cases. unfold binding_count, member_count.
  assert (expirations t !! mkExpiry expires (next_sequence t) = None) as Hfresh.
  { destruct (expirations t !! _) as [v|] eqn:Ev; [|done].
    apply (wf_seq t Hwf) in Ev. cbn in Ev. lia. }
  assert (forall k, k <> key -> forall exps, by_key (rebound t key member expires exps) !! k
            = by_key t !! k) as Hother.
  { intros k Hk exps. cbn. by rewrite lookup_insert_ne. }
  destruct (binding t key member) as [e|] eqn:E.
  - rewrite decide_True by eauto. destruct (expires <=? expires_at e).
    + split; [lia|]. split; [lia|done].
    + pose proof (proj2 (wf_exp t Hwf _ _ _) E) as He.
      split; [|split].
      * cbn. rewrite map_size_insert_None, map_size_delete_Some; [|eauto|].
        -- assert (size (expirations t) <> 0%nat); [|lia].
           intros Hz%map_size_empty_iff. rewrite Hz in He. by simplify_map_eq.
        -- apply lookup_delete_None. by right.
      * cbn. rewrite lookup_insert_eq. apply binding_Some in E as (b & Hk & Hm).
        rewrite Hk. cbn. rewrite map_size_insert_Some; [lia|eauto].
      * intros k Hk. by rewrite Hother.
  - rewrite decide_False by (by intros [? ?]). split; [|split].
    + cbn. rewrite map_size_insert_None by done. lia.
    + cbn. rewrite lookup_insert_eq. rewrite <- binding_default in E.
      rewrite map_size_insert_None by done.
      destruct (by_key t !! key); cbn; [lia|]. rewrite map_size_empty. lia.
    + intros k Hk. by rewrite Hother.
Qed.

Definition room t (n : nat) : Prop := next_sequence t + Z.of_nat n < 2 ^ 64.

Lemma bind_expiry_of t key member expires k m :
  expiry_of (bind t key member expires) k m = spec_bind (expiry_of t) key [member] expires k m.
Proof.
  unfold expiry_of, spec_bind. rewrite bind_binding.
  destruct (decide (k = key /\ m = member)) as [Hc|Hc].
  - rewrite decide_True by set_solver. cbn.
    destruct (binding t k m) as [e|]; cbn; [|done].
    destruct (expires <=? expires_at e) eqn:Hle; breflect; f_equal; cbn; lia.
  - rewrite decide_False by set_solver. done.
Qed.

Lemma bind_all_spec key expires members t :
  wf t -> room t (length members) ->
  wf (bind_all t key members expires)
  /\ next_sequence (bind_all t key members expires) <= next_sequence t + zlen members
  /\ forall k m, expiry_of (bind_all t key members expires) k m
       = spec_bind (expiry_of t) key members expires k m.
Proof.
  unfold room. revert t. induction members as [|x members IH]; intros t Hwf Hroom.
  - cbn. split; [done|]. split; [lia|]. intros k m. unfold spec_bind.
    rewrite decide_False; [done|set_solver].
  - cbn [bind_all fold_left length] in *.
    pose proof (bind_next t key x expires Hwf) as Hn.
    destruct (IH (bind t key x expires)) as (Hwf' & Hn' & Hs); [by apply bind_wf; [|lia]|lia|].
    split; [done|]. split; [unfold bind_all in *; lia|].
    intros k m. fold (bind_all (bind t key x expires) key members expires). rewrite Hs.
    unfold spec_bind. rewrite bind_expiry_of. unfold spec_bind.
    destruct (decide (k = key)) as [->|]; [|rewrite !decide_False by naive_solver; done].
    destruct (decide (m ∈ members)), (decide (m = x)) as [->|].
    + rewrite !decide_True by set_solver. f_equal. destruct (expiry_of t key x); lia.
    + rewrite !(decide_True (P := _ /\ m ∈ members)) by set_solver.
      rewrite decide_False by set_solver. rewrite decide_True by set_solver. done.
    + rewrite (decide_False (P := _ /\ x ∈ members)) by set_solver.
      rewrite !decide_True by set_solver. done.
    + rewrite !decide_False by set_solver. done.
Qed.

(** How many new bindings a list of distinct members creates under [key]. *)
Definition new_members t key (members : list M) : list M :=
  filter (fun m => binding t key m = None) members.

Lemma bind_all_counts key expires members t :
  wf t -> room t (length members) -> NoDup members ->
  let n := length (new_members t key members) in
  binding_count (bind_all t key members expires) = (binding_count t + n)%nat
  /\ member_count (bind_all t key members expires) key = (member_count t key + n)%nat
  /\ (forall k, k <> key -> member_count (bind_all t key members expires) k = member_count t k).
Proof.
  unfold room, new_members. revert t. induction members as [|x members IH]; intros t Hwf Hroom Hnd.
  - cbn. split; [lia|]. split; [lia|done].
  - apply NoDup_cons in Hnd as [Hx Hnd]. cbn [bind_all fold_left length] in *.
    assert (next_sequence t + 1 < 2 ^ 64) as Hr by lia.
    pose proof (bind_next t key x expires Hwf Hr) as Hn.
    destruct (bind_counts t key x expires Hwf Hr) as (Hc1 & Hc2 & Hc3).
    destruct (IH (bind t key x expires)) as (H1 & H2 & H3); [by apply bind_wf|lia|done|].
    assert (filter (fun m => binding (bind t key x expires) key m = None) members
            = filter (fun m => binding t key m = None) members) as Hf.
    { apply list_filter_ext_in. intros m Hm. rewrite bind_binding.
      rewrite decide_False; [done|]. intros [_ ->]. done. }
    rewrite Hf in *. unfold bind_all in *. rewrite H1, H2, Hc1, Hc2, filter_cons.
    destruct (binding t key x) eqn:E.
    + rewrite decide_True by eauto. rewrite decide_False by done.
      split; [lia|]. split; [lia|]. intros k Hk. by rewrite H3, Hc3.
    + rewrite decide_False by (by intros [? ?]). rewrite decide_True by done. cbn [length].
      split; [lia|]. split; [lia|]. intros k Hk. by rewrite H3, Hc3.
Qed.

(** *** Removing a key *)

Lemma remove_members_spec key l t :
  let t' := fold_left (remove_member key) l t in
  by_key t' = by_key t /\ next_sequence t' = next_sequence t
  /\ (forall e v, expirations t' !! e = Some v <-> expirations t !! e = Some v /\ e ∉ l.*2)
  /\ (forall k m, k ∈ default ∅ (by_member t' !! m)
        <-> k ∈ default ∅ (by_member t !! m) /\ ~ (k = key /\ m ∈ l.*1))
  /\ ((forall m ks, by_member t !! m = Some ks -> ks <> ∅) ->
      forall m ks, by_member t' !! m = Some ks -> ks <> ∅).
Proof.
  revert t. induction l as [|[m0 e0] l IH]; intros t; cbn.
  - split; [done|]. split; [done|]. split; [set_solver|]. split; [set_solver|done].
  - set (t1 := mkIndex (by_key t) (by_member t) (delete e0 (expirations t)) (next_sequence t)).
    destruct (IH (remove_member key t (m0, e0))) as (H1 & H2 & H3 & H4 & H5). cbn zeta in *.
    destruct (forget_reverse_frame t1 m0 key) as (F1 & F2 & F3).
    change (remove_member key t (m0, e0)) with (forget_reverse t1 m0 key) in *.
    rewrite H1, H2, F1, F3. split; [done|]. split; [done|]. split; [|split].
    + intros e v. rewrite H3, F2. cbn. rewrite lookup_delete_Some. set_solver.
    + intros k m. rewrite H4, forget_reverse_member. cbn. set_solver.
    + intros Hne. apply H5, forget_reverse_ne, Hne.
Qed.

Lemma remove_key_binding t key k m :
  binding (remove_key t key) k m = if decide (k = key) then None else binding t k m.
Proof.
  unfold remove_key, binding. destruct (by_key t !! key) as [b|] eqn:E.
  - edestruct remove_members_spec as (-> & _). cbn.
    case_decide; subst; by simplify_map_eq.
  - case_decide; [|done]. subst. by rewrite E.
Qed.

Lemma remove_key_next t key : next_sequence (remove_key t key) = next_sequence t.
Proof.
  unfold remove_key. destruct (by_key t !! key) as [b|]; [|done].
  by edestruct remove_members_spec as (_ & -> & _).
Qed.

Lemma remove_key_wf t key : wf t -> wf (remove_key t key).
Proof.
  intros Hwf. pose proof (remove_key_binding t key) as Hb.
  pose proof (remove_key_next t key) as Hn.
  unfold remove_key in *. destruct (by_key t !! key) as [b|] eqn:E; [|done].
  edestruct remove_members_spec as (H1 & _ & H3 & H4 & H5). cbn in *.
  destruct Hwf as [Hexp Hmem Hkne Hmne Hseq Hnext].
  assert (forall e, e ∈ (map_to_list b).*2 <-> exists m, binding t key m = Some e) as Hel.
  { intros e. rewrite list_elem_of_fmap. setoid_rewrite binding_Some. split.
    - intros ([m e'] & -> & Hin%elem_of_map_to_list). eauto.
    - intros (m & b' & Hk & Hm). simplify_eq. exists (m, e). by rewrite elem_of_map_to_list. }
  split.
  - intros e k m. rewrite H3, Hb, Hexp, Hel. case_decide as Hc.
    + subst. split; [|done]. intros [? []]. eauto.
    + split; [by intros [? _]|]. intros Hk. split; [done|]. intros [m' Hm'].
      apply Hexp in Hk, Hm'. naive_solver.
  - intros k m. rewrite H4, Hb, Hmem. case_decide as Hc; [|naive_solver].
    subst. split; [|by intros [? ?]]. intros [[e (b' & Hk & Hm)%binding_Some] Hno].
    exfalso. apply Hno. split; [done|]. simplify_eq.
    apply list_elem_of_fmap. exists (m, e). by rewrite elem_of_map_to_list.
  - intros k b'. rewrite H1. cbn. intros [_ ?]%lookup_delete_Some. by eapply Hkne.
  - by apply H5.
  - intros e v. rewrite H3, Hn. intros [? _]. by eapply Hseq.
  - by rewrite Hn.
Qed.

Lemma remove_key_expiry_of t key k m :
  expiry_of (remove_key t key) k m = spec_remove (expiry_of t) key k m.
Proof. unfold expiry_of, spec_remove. rewrite remove_key_binding. by case_decide. Qed.

(** *** The capacity scan of [try_extend] *)

Lemma try_extend_scan_spec existing remaining members unique added :
  let fresh := fun m : M => (existing ≫= (.!! m)) = None in
  let total := unique ∪ list_to_set members in
  added = Z.of_nat (size (filter fresh unique)) -> added <= remaining ->
  try_extend_scan existing remaining members unique added
  = if decide (Z.of_nat (size (filter fresh total)) <= remaining) then Some total else None.
Proof.
  cbn zeta. revert unique added. induction members as [|x members IH]; intros unique added Ha Hle; cbn.
  - rewrite (right_id_L ∅ (∪)). rewrite decide_True by lia. done.
  - case_decide as Hx.
    + rewrite (IH unique added) by done.
      replace (unique ∪ ({[x]} ∪ list_to_set members)) with (unique ∪ list_to_set members)
        by set_solver. done.
    + replace (unique ∪ ({[x]} ∪ list_to_set members))
        with (({[x]} ∪ unique) ∪ list_to_set members) by set_solver.
      assert (forall P `{!forall m : M, Decision (P m)}, P x ->
        size (filter P ({[x]} ∪ unique)) = S (size (filter P unique))) as Hadd.
      { intros P ? HP. replace (filter P ({[x]} ∪ unique)) with ({[x]} ∪ filter P unique) by set_solver.
        rewrite size_union by set_solver. rewrite size_singleton. lia. }
      case_decide as Hb.
      * apply IH; [|done]. rewrite Ha. f_equal. f_equal. apply set_eq. intros m.
        rewrite !elem_of_filter. destruct Hb as [e He]. split; [set_solver|].
        intros [Hm [->%elem_of_singleton|?]%elem_of_union]; [congruence|done].
      * assert ((existing ≫= (.!! x)) = None) as Hn by (by apply eq_None_not_Some).
        specialize (Hadd (fun m => (existing ≫= (.!! m)) = None) _ Hn).
        destruct (added + 1 >? remaining) eqn:Hgt.
        -- rewrite decide_False; [done|]. rewrite Z.gtb_lt in Hgt.
           assert (size (filter (fun m : M => (existing ≫= (.!! m)) = None) ({[x]} ∪ unique))
             <= size (filter (fun m : M => (existing ≫= (.!! m)) = None)
                  ({[x]} ∪ unique ∪ list_to_set members)))%nat; [|lia].
           apply subseteq_size. set_solver.
        -- apply IH; [lia|]. rewrite Z.gtb_ltb in Hgt. breflect. lia.
Qed.

(** ** The abstract index: a finite map from (key, member) to expiry. *)

Definition abs t : gmap (K * M) Z :=
  list_to_map ((fun p : Expiry * (K * M) => (p.2, expires_at p.1)) <$> map_to_list (expirations t)).

Lemma abs_keys_NoDup t :
  wf t ->
  NoDup ((fun p : Expiry * (K * M) => (p.2, expires_at p.1)) <$> map_to_list (expirations t)).*1.
Proof.
  intros Hwf. rewrite <- list_fmap_compose.
  apply NoDup_fmap_2_strong; [|apply NoDup_map_to_list].
  intros [e1 [k1 m1]] [e2 [k2 m2]] H1%elem_of_map_to_list H2%elem_of_map_to_list [= <- <-].
  apply (wf_exp t Hwf) in H1, H2. congruence.
Qed.

Lemma lookup_abs t k m : wf t -> abs t !! (k, m) = expiry_of t k m.
Proof.
  intros Hwf. unfold expiry_of. apply option_eq. intros x. unfold abs.
  rewrite <- elem_of_list_to_map by (by apply abs_keys_NoDup).
  rewrite list_elem_of_fmap, fmap_Some. split.
  - intros ([e [k' m']] & [= -> -> ->] & Hin%elem_of_map_to_list).
    exists e. split; [by apply (wf_exp t Hwf)|done].
  - intros (e & Hb%(wf_exp t Hwf) & ->). exists (e, (k, m)). by rewrite elem_of_map_to_list.
Qed.

Lemma size_abs t : wf t -> size (abs t) = binding_count t.
Proof.
  intros Hwf. unfold abs, binding_count.
  rewrite <- (length_map_to_list (list_to_map _)).
  rewrite map_to_list_to_map by (by apply abs_keys_NoDup).
  rewrite length_fmap. apply length_map_to_list.
Qed.

(** ** The public operations, as one step function, and their specification *)

Inductive index_op :=
| OpInsert (key : K) (members : list M) (ttl now : Z)
| OpExtend (key : K) (members : list M) (ttl now : Z)
| OpTryExtend (key : K) (members : list M) (ttl now capacity : Z)
| OpRemove (key : K) (now : Z)
| OpEvict (now : Z).

Definition apply_op t (op : index_op) : index * bool :=
  match op with
  | OpInsert key members ttl now => (insert_index t key members ttl now, true)
  | OpExtend key members ttl now => (extend t key members ttl now, true)
  | OpTryExtend key members ttl now capacity => try_extend t key members ttl now capacity
  | OpRemove key now => (remove t key now, true)
  | OpEvict now => (evict_expired t now, true)
  end.

Definition op_members (op : index_op) : nat :=
  match op with
  | OpInsert _ ms _ _ | OpExtend _ ms _ _ | OpTryExtend _ ms _ _ _ => length ms
  | OpRemove _ _ | OpEvict _ => 0
  end.

Definition abs_evict (s : gmap (K * M) Z) now : gmap (K * M) Z :=
  filter (fun p => now < p.2) s.
Definition abs_remove (s : gmap (K * M) Z) key : gmap (K * M) Z :=
  filter (fun p => p.1.1 <> key) s.
Definition abs_bind (s : gmap (K * M) Z) key (members : list M) expires : gmap (K * M) Z :=
  foldr (fun m s => <[(key, m) := match s !! (key, m) with
                                  | Some e => Z.max e expires
                                  | None => expires
                                  end]> s) s members.

(** [try_extend] succeeds when the distinct members not yet bound under the key
    fit in what the live bindings leave of the capacity. *)
Definition abs_fits (s : gmap (K * M) Z) key (members : list M) (capacity : Z) : bool :=
  let fresh := filter (fun m => s !! (key, m) = None) (list_to_set members : gset M) in
  Z.of_nat (size fresh) <=? saturating_sub capacity (Z.of_nat (size s)).

Definition spec_op (s : gmap (K * M) Z) (op : index_op) : gmap (K * M) Z * bool :=
  match op with
  | OpInsert key members ttl now =>
      (abs_bind (abs_remove (abs_evict s now) key) key members (now + ttl), true)
  | OpExtend key members ttl now => (abs_bind (abs_evict s now) key members (now + ttl), true)
  | OpTryExtend key members ttl now capacity =>
      let s := abs_evict s now in
      if abs_fits s key members capacity
      then (abs_bind s key members (now + ttl), true) else (s, false)
  | OpRemove key now => (abs_remove (abs_evict s now) key, true)
  | OpEvict now => (abs_evict s now, true)
  end.

Fixpoint run {S O : Type} (step : S -> O -> S * bool) (s : S) (ops : list O) : S * list bool :=
  match ops with
  | [] => (s, [])
  | op :: ops' =>
      let '(s1, b) := step s op in
      let '(s2, bs) := run step s1 ops' in (s2, b :: bs)
  end.

Lemma abs_evict_expired t now : wf t -> abs (evict_expired t now) = abs_evict (abs t) now.
Proof.
  intros Hwf. apply map_eq. intros [k m]. unfold abs_evict.
  rewrite lookup_abs by (by apply evict_expired_wf).
  rewrite evict_expired_expiry_of by done. unfold spec_evict.
  rewrite map_lookup_filter, lookup_abs by done.
  destruct (expiry_of t k m) as [e|]; cbn; [|done].
  destruct (e <=? now) eqn:Hle; breflect; case_guard; cbn in *; done || lia.
Qed.

Lemma abs_remove_key t key : wf t -> abs (remove_key t key) = abs_remove (abs t) key.
Proof.
  intros Hwf. apply map_eq. intros [k m]. unfold abs_remove.
  rewrite lookup_abs by (by apply remove_key_wf).
  rewrite remove_key_expiry_of. unfold spec_remove.
  rewrite map_lookup_filter, lookup_abs by done.
  destruct (expiry_of t k m) as [e|]; cbn; case_decide; try case_guard; cbn in *; done.
Qed.

Lemma lookup_abs_bind s key members expires k m :
  abs_bind s key members expires !! (k, m)
  = if decide (k = key /\ m ∈ members)
    then Some (match s !! (k, m) with Some e => Z.max e expires | None => expires end)
    else s !! (k, m).
Proof.
  induction members as [|x members IH]; cbn.
  - rewrite decide_False; [done|set_solver].
  - fold (abs_bind s key members expires).
    destruct (decide ((k, m) = (key, x))) as [[= -> ->]|Hne].
    + rewrite lookup_insert_eq. rewrite (decide_True (P := key = key /\ _)) by set_solver.
      f_equal. rewrite IH. case_decide; [|done]. destruct (s !! (key, x)); lia.
    + rewrite lookup_insert_ne by done. rewrite IH.
      destruct (decide (k = key /\ m ∈ members)).
      * rewrite decide_True by set_solver. done.
      * rewrite decide_False; [done|]. intros [-> [->|?]%elem_of_cons]; naive_solver.
Qed.

Lemma abs_bind_all t key members expires :
  wf t -> room t (length members) ->
  abs (bind_all t key members expires) = abs_bind (abs t) key members expires.
Proof.
  intros Hwf Hroom. destruct (bind_all_spec key expires members t) as (Hwf' & _ & Hs); [done..|].
  apply map_eq. intros [k m]. rewrite lookup_abs, Hs, lookup_abs_bind by done.
  unfold spec_bind. by rewrite lookup_abs.
Qed.

Lemma abs_bind_ext s key l1 l2 expires :
  (forall m, m ∈ l1 <-> m ∈ l2) -> abs_bind s key l1 expires = abs_bind s key l2 expires.
Proof.
  intros Hl. apply map_eq. intros [k m]. rewrite !lookup_abs_bind.
  destruct (decide (k = key /\ m ∈ l1)); [rewrite decide_True|rewrite decide_False]; naive_solver.
Qed.

Lemma length_elements_list_to_set (l : list M) :
  (length (elements (list_to_set l : gset M)) <= length l)%nat.
Proof.
  change (size (list_to_set l : gset M) <= length l)%nat.
  induction l as [|x l IH]; cbn; [rewrite size_empty; lia|].
  rewrite size_union_alt, size_singleton.
  assert (size ((list_to_set l : gset M) ∖ {[x]}) <= size (list_to_set l : gset M))%nat; [|lia].
  apply subseteq_size. set_solver.
Qed.

(** What [try_extend] does, in terms of the abstract state. *)
Lemma try_extend_cases t key members ttl now capacity :
  wf t ->
  let t1 := evict_expired t now in
  try_extend t key members ttl now capacity
  = if abs_fits (abs t1) key members capacity
    then (bind_all t1 key (elements (list_to_set members : gset M)) (now + ttl), true)
    else (t1, false).
Proof.
  intros Hwf t1. unfold try_extend. fold t1.
  assert (wf t1) as Hwf1 by (by apply evict_expired_wf).
  rewrite try_extend_scan_spec; 
    [|replace (filter _ ∅) with (∅ : gset M) by set_solver; by rewrite size_empty
     |unfold saturating_sub; lia].
  rewrite (left_id_L ∅ (∪)). unfold abs_fits. rewrite size_abs by done. unfold binding_count.
  assert (filter (fun m => (by_key t1 !! key ≫= (.!! m)) = None) (list_to_set members : gset M)
     = filter (fun m => abs t1 !! (key, m) = None) (list_to_set members : gset M)) as ->.
  { apply set_eq. intros m. rewrite !elem_of_filter, lookup_abs by done.
    unfold expiry_of, binding. by rewrite fmap_None. }
  case_decide as Hd; [apply Z.leb_le in Hd|apply Z.nle_gt, Z.leb_gt in Hd]; by rewrite Hd.
Qed.

(** Every operation refines its abstract counterpart and keeps the invariant. *)
Lemma apply_op_refines t op :
  wf t -> room t (op_members op) ->
  wf (apply_op t op).1
  /\ next_sequence (apply_op t op).1 <= next_sequence t + Z.of_nat (op_members op)
  /\ spec_op (abs t) op = (abs (apply_op t op).1, (apply_op t op).2).
Proof.
  intros Hwf. pose proof (fun now => evict_expired_wf t now Hwf) as Hev.
  pose proof (fun now => evict_expired_next t now Hwf) as Hnx.
  pose proof (fun now => abs_evict_expired t now Hwf) as Hab.
  assert (forall now n, room t n -> room (evict_expired t now) n) as Hrm.
  { unfold room. intros. by rewrite Hnx. }
  destruct op as [key ms ttl now|key ms ttl now|key ms ttl now cap|key now|now]; cbn; intros Hroom.
  - unfold insert_index. set (t1 := remove_key (evict_expired t now) key).
    assert (wf t1) by (by apply remove_key_wf).
    assert (room t1 (length ms)) by (unfold room, t1; rewrite remove_key_next, Hnx; done).
    destruct (bind_all_spec key (now + ttl) ms t1) as (? & Hn & _); [done..|].
    split; [done|]. split; [unfold t1 in Hn; by rewrite remove_key_next, Hnx in Hn|].
    rewrite abs_bind_all by done. unfold t1. rewrite abs_remove_key, Hab by done. done.
  - unfold extend. destruct (bind_all_spec key (now + ttl) ms (evict_expired t now))
      as (? & Hn & _); [done|auto|].
    split; [done|]. split; [by rewrite Hnx in Hn|].
    rewrite abs_bind_all, Hab by auto. done.
  - rewrite try_extend_cases, <- Hab by done.
    destruct (abs_fits _ _ _ _); cbn; [|split; [done|]; split; [rewrite Hnx; lia|done]].
    set (ms' := elements (list_to_set ms : gset M)).
    assert (length ms' <= length ms)%nat by apply length_elements_list_to_set.
    assert (room (evict_expired t now) (length ms')).
    { apply Hrm. unfold room in *. lia. }
    destruct (bind_all_spec key (now + ttl) ms' (evict_expired t now)) as (? & Hn & _); [done..|].
    split; [done|]. split; [rewrite Hnx in Hn; lia|].
    rewrite abs_bind_all by done. f_equal. apply abs_bind_ext.
    intros m. unfold ms'. rewrite elem_of_elements, elem_of_list_to_set. done.
  - unfold remove. split; [by apply remove_key_wf|].
    split; [rewrite remove_key_next, Hnx; lia|]. by rewrite abs_remove_key, Hab.
  - split; [done|]. split; [rewrite Hnx; lia|]. by rewrite Hab.
Qed.

Lemma run_refines ops t :
  wf t -> room t (sum_list (op_members <$> ops)) ->
  wf (run apply_op t ops).1
  /\ run spec_op (abs t) ops = (abs (run apply_op t ops).1, (run apply_op t ops).2).
Proof.
  revert t. induction ops as [|op ops IH]; intros t Hwf Hroom; cbn in *; [done|].
  destruct (apply_op_refines t op) as (Hwf' & Hn & Hs); [done|unfold room in *; lia|].
  rewrite Hs. destruct (apply_op t op) as [t1 b]; cbn in *.
  destruct (IH t1) as [Hwf'' Hs']; [done|unfold room in *; lia|].
  rewrite Hs'. by destruct (run apply_op t1 ops).
Qed.

Lemma default_wf : wf default_index.
Proof.
  split; unfold binding; cbn.
  - intros e k m. by rewrite !lookup_empty.
  - intros k m. rewrite !lookup_empty. cbn. split; [set_solver|by intros [? ?]].
  - intros k b. by rewrite lookup_empty.
  - intros m ks. by rewrite lookup_empty.
  - intros e v. by rewrite lookup_empty.
  - lia.
Qed.

Lemma abs_default : abs default_index = ∅.
Proof. done. Qed.

Lemma member_matches_spec t m now P :
  wf t ->
  member_matches t m now P = true
  <-> exists k e, abs t !! (k, m) = Some e /\ now < e /\ P k = true.
Proof.
  intros Hwf. unfold member_matches. setoid_rewrite lookup_abs; [|done].
  destruct (by_member t !! m) as [ks|] eqn:E.
  - rewrite existsb_exists. split.
    + intros (k & _ & Hk). fold (binding t k m) in Hk. unfold expiry_of.
      destruct (binding t k m) as [e|] eqn:Eb; [|discriminate]. breflect.
      exists k, (expires_at e). cbn. rewrite Eb. done.
    + intros (k & e & Hk & Hlt & HP). unfold expiry_of in Hk.
      apply fmap_Some in Hk as (e' & Hb & ->). exists k. split.
      * apply list_elem_of_In, elem_of_elements.
        assert (k ∈ default ∅ (by_member t !! m)) as Hin by (apply (wf_member t Hwf); eauto).
        by rewrite E in Hin.
      * fold (binding t k m). rewrite Hb, HP. cbn. rewrite andb_true_r. by apply Z.ltb_lt.
  - split; [discriminate|]. intros (k & e & Hk & _). apply fmap_Some in Hk as (e' & Hb & _).
    assert (k ∈ default ∅ (by_member t !! m)) as Hin by (apply (wf_member t Hwf); eauto).
    rewrite E in Hin. set_solver.
Qed.

Lemma any_mut_pure {A} (f : A -> bool) l : any_mut (fun _ a => (tt, f a)) tt l = (tt, existsb f l).
Proof. induction l as [|a l IH]; [done|]. cbn. by destruct (f a). Qed.

Lemma member_matches_mut_pure t m now P :
  member_matches_mut t m now (fun _ k => (tt, P k)) tt = (tt, member_matches t m now P).
Proof.
  unfold member_matches_mut, member_matches. destruct (by_member t !! m) as [ks|]; [|done].
  rewrite <- any_mut_pure. generalize tt. induction (elements ks) as [|k l IH]; intros u; [done|].
  cbn. destruct (by_key t !! k ≫= (.!! m)) as [e|]; cbn; [|by rewrite <- IH; destruct u].
  destruct (now <? expires_at e); cbn; [|by rewrite <- IH; destruct u].
  destruct (P k); [done|]. apply IH.
Qed.

(** *** The counters only depend on the bindings *)

Lemma binding_count_mono t t' :
  wf t -> wf t' -> (forall k m e, binding t' k m = Some e -> binding t k m = Some e) ->
  (binding_count t' <= binding_count t)%nat.
Proof.
  intros Hwf Hwf' Hsub. rewrite <- !size_abs by done. apply map_subseteq_size, map_subseteq_spec.
  intros [k m] x. rewrite !lookup_abs by done. unfold expiry_of. rewrite !fmap_Some.
  intros (e & He & ->). eauto.
Qed.

Lemma member_count_mono t t' k :
  (forall m e, binding t' k m = Some e -> binding t k m = Some e) ->
  (member_count t' k <= member_count t k)%nat.
Proof.
  intros Hsub. unfold member_count. unfold binding in Hsub.
  destruct (by_key t' !! k) as [b'|]; [|lia].
  destruct (by_key t !! k) as [b|]; cbn in Hsub.
  - apply map_subseteq_size, map_subseteq_spec, Hsub.
  - assert (b' = ∅) as ->; [|by rewrite map_size_empty].
    apply map_empty. intros m. destruct (b' !! m) eqn:E; [|done].
    by specialize (Hsub m _ E).
Qed.

(** Growth of the counters under a successful or refused [try_extend]: the new
    bindings all belong to [key] and fit in the capacity. *)
Lemma try_extend_counts t key members ttl now capacity :
  wf t -> room t (length members) ->
  let t1 := evict_expired t now in
  let t2 := (try_extend t key members ttl now capacity).1 in
  exists n : nat,
    Z.of_nat n <= saturating_sub capacity (Z.of_nat (binding_count t1))
    /\ binding_count t2 = (binding_count t1 + n)%nat
    /\ member_count t2 key = (member_count t1 key + n)%nat
    /\ forall k, k <> key -> member_count t2 k = member_count t1 k.
Proof.
  intros Hwf Hroom t1. rewrite try_extend_cases by done. fold t1.
  assert (wf t1) as Hwf1 by (by apply evict_expired_wf).
  assert (room t1 (length members)) as Hr1
    by (unfold room, t1 in *; by rewrite evict_expired_next).
  destruct (abs_fits (abs t1) key members capacity) eqn:Hf; cbn.
  - set (ms := elements (list_to_set members : gset M)).
    destruct (bind_all_counts key (now + ttl) ms t1) as (H1 & H2 & H3).
    + done.
    + pose proof (length_elements_list_to_set members). unfold room, ms in *. lia.
    + apply NoDup_elements.
    + exists (length (new_members t1 key ms)). split; [|done].
      unfold abs_fits in Hf. breflect. rewrite size_abs in Hf by done.
      etrans; [|exact Hf]. apply Nat2Z.inj_le, Nat.eq_le_incl.
      unfold new_members, ms.
      rewrite <- (size_list_to_set (C := gset M)) by (apply NoDup_filter, NoDup_elements).
      f_equal. apply set_eq. intros m.
      rewrite elem_of_list_to_set, list_elem_of_filter, elem_of_filter, elem_of_elements.
      rewrite lookup_abs by done. unfold expiry_of. by rewrite fmap_None.
  - exists 0%nat. unfold saturating_sub. split; [lia|]. split; [lia|]. split; [lia|done].
Qed.

(** ** Properties *)

(** C40: after any sequence of public operations on a fresh index (inserting in
    total fewer than 2^64 members), the concrete index satisfies its structural
    invariant (forward map, reverse map and expiry queue describe the same
    bindings, no empty buckets) and equals, through the abstraction function,
    the state of the abstract map machine run on the same operations; the
    accept/reject verdicts of [try_extend] agree as well. *)
Theorem ttl_index_refines_map (ops : list index_op) :
  Z.of_nat (sum_list (op_members <$> ops)) < 2 ^ 64 ->
  let '(t, verdicts) := run apply_op default_index ops in
  wf t /\ run spec_op ∅ ops = (abs t, verdicts).
Proof.
  intros Hlt. destruct (run_refines ops default_index default_wf Hlt) as [Hwf Hs].
  rewrite abs_default in Hs. by destruct (run apply_op default_index ops).
Qed.

(** after any such sequence, [member_matches] answers [true] exactly when
    the abstract map binds the member to some key whose expiry is strictly later
    than [now] and which satisfies the predicate. *)
Lemma member_matches_exact (ops : list index_op) m now P :
  Z.of_nat (sum_list (op_members <$> ops)) < 2 ^ 64 ->
  member_matches (run apply_op default_index ops).1 m now P = true
  <-> exists k e, (run spec_op ∅ ops).1 !! (k, m) = Some e /\ now < e /\ P k = true.
Proof.
  intros Hlt. destruct (run_refines ops default_index default_wf Hlt) as [Hwf Hs].
  rewrite abs_default in Hs. rewrite Hs. by apply member_matches_spec.
Qed.

End TtlReverseIndex.

(** ** Witnesses *)

Definition sample_ops : list (@index_op Z Z) :=
  [OpInsert 1 [10; 11] 30 0; OpExtend 1 [11; 12] 5 2; OpTryExtend 2 [10; 10; 13] 7 3 4;
   OpTryExtend 2 [10; 10] 7 3 4; OpRemove 3 4; OpEvict 8; OpInsert 2 [14] 1 9].

Example sample_ops_verdicts :
  (run apply_op default_index sample_ops).2 = [true; true; false; true; true; true; true].
Proof. vm_compute. reflexivity. Qed.

Lemma ttl_index_refines_map_witness :
  let '(t, verdicts) := run apply_op default_index sample_ops in
  wf t /\ run spec_op ∅ sample_ops = (abs t, verdicts).
Proof. apply (ttl_index_refines_map sample_ops). vm_compute. reflexivity. Defined.

Lemma member_matches_exact_witness :
  member_matches (run apply_op default_index sample_ops).1 11 9 (fun k => k =? 1) = true
  <-> exists k e, (run spec_op ∅ sample_ops).1 !! (k, 11) = Some e /\ 9 < e /\ (k =? 1) = true.
Proof. apply (member_matches_exact sample_ops). vm_compute. reflexivity. Defined.
