(* ===== verification/DomainName.v ===== *)
(** * Domain names of the network policy

    Models [crates/network/lib/model/policy/name.rs] (the validated
    [DomainName]), the label-aware suffix matcher of
    [crates/network/lib/model/policy/types.rs] and the hostname normalisation of
    [crates/network/lib/engine/netstack/shared.rs].

    A Rust [str] is its UTF-8 bytes, so a [string] here is a sequence of 8-bit
    characters; the operations used ([trim_*_matches('.')], [strip_suffix],
    [to_ascii_lowercase], [contains('.')], [len]) act on bytes.  The DNS label
    grammar is checked by the [hickory_proto] crate: it is a parameter. *)

From S2P Require Import Prelude.
From Stdlib Require Import Ascii String.
#[local] Open Scope string_scope.

#[local] Arguments String.append !_ _ : simpl nomatch.

Definition dot : ascii := ".".

(** ** Operations of [str] *)

(** [str::trim_start_matches(c)]. *)
Fixpoint trim_start (c : ascii) (s : string) : string :=
  match s with
  | String a s' => if decide (a = c) then trim_start c s' else s
  | EmptyString => EmptyString
  end.

(** [str::trim_end_matches(c)]. *)
Fixpoint trim_end (c : ascii) (s : string) : string :=
  match s with
  | String a s' =>
      match trim_end c s' with
      | EmptyString => if decide (a = c) then EmptyString else String a EmptyString
      | r => String a r
      end
  | EmptyString => EmptyString
  end.

Definition ascii_lower (a : ascii) : ascii :=
  let n := nat_of_ascii a in
  if ((65 <=? n) && (n <=? 90))%nat then ascii_of_nat (n + 32) else a.

(** [str::to_ascii_lowercase]. *)
Fixpoint to_ascii_lowercase (s : string) : string :=
  match s with
  | String a s' => String (ascii_lower a) (to_ascii_lowercase s')
  | EmptyString => EmptyString
  end.

(** [str::strip_suffix]: the part of [s] before the suffix. *)
Fixpoint strip_suffix (s suffix : string) : option string :=
  if decide (s = suffix) then Some EmptyString
  else match s with
       | String a s' => let* p := strip_suffix s' suffix in Some (String a p)
       | EmptyString => None
       end.

(** [str::ends_with(c)]. *)
Fixpoint ends_with (s : string) (c : ascii) : bool :=
  match s with
  | EmptyString => false
  | String a EmptyString => bool_decide (a = c)
  | String _ s' => ends_with s' c
  end.

(** [str::starts_with(c)]. *)
Definition starts_with (s : string) (c : ascii) : bool :=
  match s with EmptyString => false | String a _ => bool_decide (a = c) end.

(** [str::contains(c)]. *)
Fixpoint contains (s : string) (c : ascii) : bool :=
  match s with
  | EmptyString => false
  | String a s' => bool_decide (a = c) || contains s' c
  end.

(** ** Suffix matching and hostname normalisation *)

Definition matches_suffix (hostname suffix : string) : bool :=
  if decide (hostname = suffix) then true
  else match strip_suffix hostname suffix with
       | Some prefix => (1 <? String.length prefix)%nat && ends_with prefix dot
       | None => false
       end.

Definition normalize_hostname (domain : string) : string :=
  to_ascii_lowercase (trim_end dot domain).

(** ** [DomainName] *)

(** The inner string is private to the source's module: names are built by
    [from_str] only. *)
Record DomainName := mkDomainName { as_str : string }.

#[global] Instance DomainName_eq_dec : EqDecision DomainName.
Proof. solve_decision. Defined.

Inductive DomainNameError (ProtoError : Type) :=
| EmptyName
| InvalidName (e : ProtoError)
| SuffixTooBroad (raw : string).
Arguments EmptyName {_}.
Arguments InvalidName {_}.
Arguments SuffixTooBroad {_}.

Definition try_into_suffix {ProtoError} (d : DomainName)
  : result (DomainNameError ProtoError) DomainName :=
  if contains (as_str d) dot then Ok d else Err (SuffixTooBroad (as_str d)).

Section DomainName.
Context {ProtoError : Type}.

(** [hickory_proto::rr::Name::from_str]; the parsed name itself is discarded. *)
Variable hickory_parse : string -> result ProtoError unit.

Definition domain_from_str (s : string) : result (DomainNameError ProtoError) DomainName :=
  let trimmed := trim_end dot (trim_start dot s) in
  if decide (trimmed = EmptyString) then Err EmptyName
  else match hickory_parse trimmed with
       | Ok _ => Ok (mkDomainName (to_ascii_lowercase trimmed))
       | Err e => Err (InvalidName e)
       end.

End DomainName.

(** ** Lemmas *)

Lemma append_nil_r s : s +:+ EmptyString = s.
Proof. induction s; cbn; congruence. Qed.

Lemma append_assoc a b c : (a +:+ b) +:+ c = a +:+ (b +:+ c).
Proof. induction a; cbn; congruence. Qed.

Lemma strip_suffix_Some s suffix p : strip_suffix s suffix = Some p -> s = p +:+ suffix.
Proof.
  revert p. induction s as [|a s IH]; intros p; cbn.
  - case_decide; [|discriminate]. by intros [= <-].
  - case_decide; [by intros [= <-]|].
    destruct (strip_suffix s suffix) as [q|] eqn:E; [|discriminate].
    intros [= <-]. cbn. f_equal. by apply IH.
Qed.

Lemma string_length_app a b : String.length (a +:+ b) = (String.length a + String.length b)%nat.
Proof. induction a; cbn; congruence. Qed.

Lemma strip_suffix_app p suffix : strip_suffix (p +:+ suffix) suffix = Some p.
Proof.
  induction p as [|a p IH].
  - cbn. destruct suffix; cbn; by rewrite decide_True.
  - cbn. rewrite decide_False, IH; [done|]. intros Heq.
    apply (f_equal String.length) in Heq. cbn in Heq. rewrite string_length_app in Heq. lia.
Qed.

Lemma ends_with_app p c : ends_with (p +:+ String c EmptyString) c = true.
Proof.
  induction p as [|a p IH]; cbn.
  - by rewrite bool_decide_true.
  - by destruct (p +:+ String c EmptyString) eqn:E; [destruct p|].
Qed.

Lemma ends_with_Some s c : ends_with s c = true -> exists p, s = p +:+ String c EmptyString.
Proof.
  induction s as [|a s IH]; [discriminate|]. cbn. destruct s as [|b s].
  - intros ->%bool_decide_eq_true. by exists EmptyString.
  - intros [p Hp]%IH. exists (String a p). cbn. by rewrite Hp.
Qed.

Lemma matches_suffix_iff hostname suffix :
  matches_suffix hostname suffix = true
  <-> hostname = suffix
      \/ exists label, label <> EmptyString /\ hostname = label +:+ String dot suffix.
Proof.
  unfold matches_suffix. case_decide as Heq; [naive_solver|]. split.
  - destruct (strip_suffix hostname suffix) as [p|] eqn:E; [|discriminate].
    intros [Hlen%Nat.ltb_lt [q ->]%ends_with_Some]%andb_true_iff.
    apply strip_suffix_Some in E as ->. right. exists q. split.
    + intros ->. cbn in Hlen. lia.
    + by rewrite append_assoc.
  - intros [|(label & Hne & ->)]; [done|].
    replace (label +:+ String dot suffix) with ((label +:+ String dot EmptyString) +:+ suffix)
      by apply append_assoc.
    rewrite strip_suffix_app, ends_with_app, string_length_app, andb_true_r.
    apply Nat.ltb_lt. destruct label; [done|]. cbn. lia.
Qed.

Lemma ascii_lower_idem a : ascii_lower (ascii_lower a) = ascii_lower a.
Proof. destruct a as [[] [] [] [] [] [] [] []]; reflexivity. Qed.

Lemma ascii_lower_dot a : ascii_lower a = dot <-> a = dot.
Proof. split; [|by intros ->]. destruct a as [[] [] [] [] [] [] [] []]; cbv; congruence. Qed.

Lemma to_ascii_lowercase_idem s : to_ascii_lowercase (to_ascii_lowercase s) = to_ascii_lowercase s.
Proof. induction s; cbn; [done|]. by rewrite ascii_lower_idem, IHs. Qed.

Lemma to_ascii_lowercase_nil s : to_ascii_lowercase s = EmptyString <-> s = EmptyString.
Proof. by destruct s. Qed.

Lemma trim_start_lower s :
  trim_start dot (to_ascii_lowercase s) = to_ascii_lowercase (trim_start dot s).
Proof.
  induction s as [|a s IH]; [done|]. cbn.
  destruct (decide (a = dot)) as [->|Hne]; [done|].
  rewrite decide_False; [done|]. by rewrite ascii_lower_dot.
Qed.

Lemma trim_end_lower s :
  trim_end dot (to_ascii_lowercase s) = to_ascii_lowercase (trim_end dot s).
Proof.
  induction s as [|a s IH]; [done|]. cbn. rewrite IH.
  destruct (trim_end dot s) as [|b r]; [|done]. cbn.
  destruct (decide (a = dot)) as [->|Hne]; [done|].
  rewrite decide_False; [done|]. by rewrite ascii_lower_dot.
Qed.

Lemma trim_start_idem c s : trim_start c (trim_start c s) = trim_start c s.
Proof.
  induction s as [|a s IH]; [done|]. cbn. case_decide; [done|]. cbn. by rewrite decide_False.
Qed.

Lemma trim_end_idem c s : trim_end c (trim_end c s) = trim_end c s.
Proof.
  induction s as [|a s IH]; [done|]. cbn.
  destruct (trim_end c s) as [|b r] eqn:E.
  - case_decide; [done|]. cbn. by rewrite decide_False.
  - cbn in *. by rewrite IH.
Qed.

Lemma starts_with_trim_start c s : starts_with (trim_start c s) c = false.
Proof.
  induction s as [|a s IH]; [done|]. cbn. case_decide; [done|]. cbn. by apply bool_decide_eq_false.
Qed.

Lemma trim_end_starts c s : starts_with s c = false -> starts_with (trim_end c s) c = false.
Proof.
  destruct s as [|a s]; [done|]. cbn. intros Ha.
  destruct (trim_end c s); [|exact Ha]. by destruct (decide (a = c)).
Qed.

Lemma ends_with_trim_end c s : ends_with (trim_end c s) c = false.
Proof.
  induction s as [|a s IH]; [done|]. cbn.
  destruct (trim_end c s) as [|b r]; [|done].
  case_decide; [done|]. cbn. by apply bool_decide_eq_false.
Qed.

Lemma trim_start_noop c s : starts_with s c = false -> trim_start c s = s.
Proof. destruct s; [done|]. cbn. intros ?%bool_decide_eq_false. by rewrite decide_False. Qed.

Lemma starts_with_lower s : starts_with (to_ascii_lowercase s) dot = starts_with s dot.
Proof. destruct s; [done|]. cbn. apply bool_decide_ext, ascii_lower_dot. Qed.

Lemma ends_with_lower s : ends_with (to_ascii_lowercase s) dot = ends_with s dot.
Proof.
  induction s as [|a s IH]; [done|]. cbn. destruct s as [|b s].
  - apply bool_decide_ext, ascii_lower_dot.
  - exact IH.
Qed.

(** ** The canonical form *)

Record canonical (s : string) : Prop := {
  canonical_nonempty : s <> EmptyString;
  canonical_lower : to_ascii_lowercase s = s;
  canonical_start : starts_with s dot = false;
  canonical_end : ends_with s dot = false
}.

Lemma domain_from_str_canonical {ProtoError} (parse : string -> result ProtoError unit) s d :
  domain_from_str parse s = Ok d -> canonical (as_str d).
Proof.
  unfold domain_from_str. case_decide as Hne; [discriminate|].
  destruct (parse _); [|discriminate]. intros [= <-]. cbn. split.
  - by rewrite to_ascii_lowercase_nil.
  - apply to_ascii_lowercase_idem.
  - rewrite starts_with_lower. apply trim_end_starts, starts_with_trim_start.
  - rewrite ends_with_lower. apply ends_with_trim_end.
Qed.

Lemma normalize_hostname_idem s : normalize_hostname (normalize_hostname s) = normalize_hostname s.
Proof.
  unfold normalize_hostname. by rewrite trim_end_lower, to_ascii_lowercase_idem, trim_end_idem.
Qed.

(** ** Properties *)

(** a parsed domain name is in canonical form (non-empty, lower-case ASCII,
    neither leading nor trailing dot), the resolver cache's normalisation leaves
    it unchanged, and parsing its text again yields the same name, provided the
    DNS label grammar does not depend on letter case. *)
Lemma domain_name_canonical {ProtoError} (parse : string -> result ProtoError unit) s d
    (parse_case_insensitive : forall t, is_ok (parse t) = true ->
       is_ok (parse (to_ascii_lowercase t)) = true) :
  domain_from_str parse s = Ok d ->
  canonical (as_str d)
  /\ normalize_hostname (as_str d) = as_str d
  /\ domain_from_str parse (as_str d) = Ok d.
Proof.
  intros Hd. pose proof (domain_from_str_canonical parse s d Hd) as Hc. split; [done|].
  unfold domain_from_str in *. case_decide as Hne; [discriminate|].
  destruct (parse (trim_end dot (trim_start dot s))) eqn:Hp; [|discriminate].
  injection Hd as <-. cbn in *.
  assert (trim_end dot (trim_start dot (to_ascii_lowercase (trim_end dot (trim_start dot s))))
          = to_ascii_lowercase (trim_end dot (trim_start dot s))) as Htrim.
  { rewrite trim_start_noop by apply Hc. by rewrite trim_end_lower, trim_end_idem. }
  split.
  - unfold normalize_hostname. by rewrite trim_end_lower, trim_end_idem, to_ascii_lowercase_idem.
  - rewrite Htrim. rewrite decide_False by (by rewrite to_ascii_lowercase_nil).
    specialize (parse_case_insensitive (trim_end dot (trim_start dot s))).
    rewrite Hp in parse_case_insensitive. specialize (parse_case_insensitive eq_refl).
    destruct (parse (to_ascii_lowercase _)); [|discriminate].
    by rewrite to_ascii_lowercase_idem.
Qed.

(** suffix matching is aligned on DNS labels: a hostname matches a suffix
    exactly when it is the suffix, or a non-empty prefix followed by a dot and
    the suffix. *)
Lemma matches_suffix_label_aligned hostname suffix :
  matches_suffix hostname suffix = true
  <-> hostname = suffix
      \/ exists label, label <> EmptyString /\ hostname = label +:+ String dot suffix.
Proof. apply matches_suffix_iff. Qed.

(** ** Witnesses *)

Definition accept_all : string -> result unit unit := fun _ => Ok tt.

Lemma domain_name_canonical_witness :
  canonical "example.com"
  /\ normalize_hostname "example.com" = "example.com"
  /\ domain_from_str accept_all "example.com" = Ok (mkDomainName "example.com").
Proof.
  apply (domain_name_canonical accept_all "..Example.COM." (mkDomainName "example.com")).
  - reflexivity.
  - vm_compute. reflexivity.
Defined.

Example evil_example_no_match : matches_suffix "evilexample.com" "example.com" = false.
Proof. reflexivity. Qed.
Example leading_dot_no_match : matches_suffix ".example.com" "example.com" = false.
Proof. reflexivity. Qed.
Example subdomain_match : matches_suffix "a.b.example.com" "example.com" = true.
Proof. reflexivity. Qed.
