(* ===== verification/Addr.v ===== *)
(** * IP addresses

    Models [crates/network/lib/engine/addr.rs] and what it uses of
    [std::net]: an IPv4 address is a 32-bit integer, an IPv6 address a 128-bit
    integer, both in network order as [u32::from] and [u128::from] give them.
    The [ipnetwork] crate is a parameter: a class with the two network types
    and the methods the code calls. *)

From S2P Require Import Prelude.

Inductive IpAddr :=
| V4 (a : Z)
| V6 (a : Z).

#[global] Instance IpAddr_eq_dec : EqDecision IpAddr.
Proof. solve_decision. Defined.

#[global] Instance IpAddr_countable : Countable IpAddr.
Proof.
  refine (inj_countable' (fun a => match a with V4 a => inl a | V6 a => inr a end)
                         (fun s => match s with inl a => V4 a | inr a => V6 a end) _).
  by intros [].
Defined.

(** The integers that are addresses of each family. *)
Definition ip_valid (a : IpAddr) : Prop :=
  match a with V4 a => fits 32 a | V6 a => fits 128 a end.

(** [Ipv4Addr::octets()[i]] and [Ipv6Addr::segments()[i]]. *)
Definition octet (a : Z) (i : Z) : Z := Z.land (Z.shiftr a (24 - 8 * i)) 0xff.
Definition segment (a : Z) (i : Z) : Z := Z.land (Z.shiftr a (112 - 16 * i)) 0xffff.

Definition ipv4 (a b c d : Z) : Z :=
  Z.lor (Z.shiftl a 24) (Z.lor (Z.shiftl b 16) (Z.lor (Z.shiftl c 8) d)).

(** [Ipv6Addr::to_ipv4_mapped]: [::ffff:a.b.c.d]. *)
Definition to_ipv4_mapped (a : Z) : option Z :=
  if Z.shiftr a 32 =? 0xffff then Some (Z.land a 0xffffffff) else None.

Definition is_unspecified (a : IpAddr) : bool :=
  match a with V4 a => a =? 0 | V6 a => a =? 0 end.

(** The [ipnetwork] crate. *)
Class IpNetworks := {
  IpNetwork : Type;
  Ipv6Network : Type;
  network_contains : IpNetwork -> IpAddr -> bool;
  v6_prefix : Ipv6Network -> Z;
  v6_contains : Ipv6Network -> Z -> bool
}.

Definition normalize_ip_addr (addr : IpAddr) : IpAddr :=
  match addr with
  | V4 _ => addr
  | V6 v6 => match to_ipv4_mapped v6 with Some v4 => V4 v4 | None => V6 v6 end
  end.

Definition nat64_embedded_ipv4_addr `{IpNetworks} (addr : Z) (prefixes : list Ipv6Network)
  : option Z :=
  if existsb (fun prefix => (v6_prefix prefix =? 96) && v6_contains prefix addr) prefixes
  then Some (Z.land addr 0xffffffff) else None.

(** ** Lemmas *)

Lemma normalize_ip_addr_idem a : normalize_ip_addr (normalize_ip_addr a) = normalize_ip_addr a.
Proof.
  destruct a as [a|a]; [done|]. cbn.
  destruct (to_ipv4_mapped a) eqn:E; [done|]. cbn. by rewrite E.
Qed.

Lemma land_low32_fits a : 0 <= a -> fits 32 (Z.land a 0xffffffff).
Proof.
  intros Ha. change 0xffffffff with (Z.ones 32). rewrite Z.land_ones by lia.
  apply Z.mod_pos_bound. lia.
Qed.

Lemma normalize_ip_addr_valid a : ip_valid a -> ip_valid (normalize_ip_addr a).
Proof.
  destruct a as [a|a]; [done|]. cbn. unfold to_ipv4_mapped. intros Ha.
  destruct (_ =? _); [|done]. apply land_low32_fits. unfold fits in Ha. lia.
Qed.

(** The mapped form of a valid IPv4 address normalises to that address. *)
Lemma normalize_mapped v4 : fits 32 v4 -> normalize_ip_addr (V6 (0xffff * 2 ^ 32 + v4)) = V4 v4.
Proof.
  unfold fits. intros Hv. cbn [normalize_ip_addr]. unfold to_ipv4_mapped.
  rewrite Z.shiftr_div_pow2, Z.div_add_l, Z.div_small by lia. cbn.
  f_equal. change 0xffffffff with (Z.ones 32). rewrite Z.land_ones by lia.
  rewrite Z.add_comm, Z.mod_add, Z.mod_small by lia. done.
Qed.

(** A concrete [ipnetwork]: an address and a prefix length. *)
Module CidrNetworks.

Definition v4_in (net : Z * Z) (a : Z) : bool := Z.shiftr net.1 (32 - net.2) =? Z.shiftr a (32 - net.2).
Definition v6_in (net : Z * Z) (a : Z) : bool :=
  Z.shiftr net.1 (128 - net.2) =? Z.shiftr a (128 - net.2).

#[export] Instance cidr_networks : IpNetworks := {|
  IpNetwork := (Z * Z) + (Z * Z);
  Ipv6Network := Z * Z;
  network_contains net addr :=
    match net, addr with
    | inl net, V4 a => v4_in net a
    | inr net, V6 a => v6_in net a
    | _, _ => false
    end;
  v6_prefix net := net.2;
  v6_contains := v6_in
|}.

End CidrNetworks.
