(* ===== verification/SharedState.v ===== *)
(** * Shared network state: resolved hostnames, gateway, classification

    Models the parts of [crates/network/lib/engine/netstack/shared.rs] that
    policy evaluation depends on (the resolved-hostname cache, the gateway
    addresses, the NAT64 prefixes and the byte counters) and the destination
    classifier of [crates/network/lib/engine/policy/destination.rs].

    Every operation of the cache takes the write lock for its whole body, so an
    execution is a sequence of atomic operations; [Instant::now()] is an
    argument.  The frame queues belong to [crossbeam_queue] and are an argument
    of the one operation that counts what it pushes. *)

From S2P Require Import Prelude TtlIndex DomainName Addr.

Definition MAX_RESOLVED_HOSTNAME_BINDINGS : Z := 16384.
Definition MAX_BINDINGS_PER_HOSTNAME : Z := 1024.

Inductive ResolvedHostnameFamily := Ipv4 | Ipv6.

#[global] Instance family_eq_dec : EqDecision ResolvedHostnameFamily.
Proof. solve_decision. Defined.
#[global] Instance family_countable : Countable ResolvedHostnameFamily.
Proof.
  refine (inj_countable' (fun f => match f with Ipv4 => true | Ipv6 => false end)
                         (fun b => if b then Ipv4 else Ipv6) _).
  by intros [].
Defined.

Record ResolvedHostnameKey := mkKey { hostname : string; family : ResolvedHostnameFamily }.

#[global] Instance key_eq_dec : EqDecision ResolvedHostnameKey.
Proof. solve_decision. Defined.
#[global] Instance key_countable : Countable ResolvedHostnameKey.
Proof.
  refine (inj_countable' (fun k => (hostname k, family k)) (fun p => mkKey p.1 p.2) _).
  by intros [].
Defined.

Abbreviation hostname_index := (TtlReverseIndex ResolvedHostnameKey IpAddr).

(** The fields of [NetworkMetrics] are 64-bit counters. *)
Record SharedState `{IpNetworks} := mkShared {
  resolved_hostnames : hostname_index;
  gateway_ipv4 : option Z;
  gateway_ipv6 : option Z;
  nat64_prefixes_lock : option (list Ipv6Network);
  tx_bytes : Z;
  rx_bytes : Z
}.
Arguments mkShared {_}.

Inductive DestinationGroup :=
| Public | Loopback | Private | LinkLocal | Metadata | Multicast | Host.

#[global] Instance DestinationGroup_eq_dec : EqDecision DestinationGroup.
Proof. solve_decision. Defined.

Section SharedState.
Context `{IpNetworks}.
Implicit Types (s : SharedState) (now ttl : Z).

Definition new_shared : SharedState := mkShared default_index None None None 0 0.

Definition with_index s (i : hostname_index) : SharedState :=
  mkShared i (gateway_ipv4 s) (gateway_ipv6 s) (nat64_prefixes_lock s) (tx_bytes s) (rx_bytes s).

(** [OnceLock::set] with its result ignored: the first value stays. *)
Definition once_set {A} (lock : option A) (a : A) : option A :=
  match lock with Some _ => lock | None => Some a end.

Definition set_gateway_ips s (ipv4 ipv6 : option Z) : SharedState :=
  mkShared (resolved_hostnames s)
           (match ipv4 with Some a => once_set (gateway_ipv4 s) a | None => gateway_ipv4 s end)
           (match ipv6 with Some a => once_set (gateway_ipv6 s) a | None => gateway_ipv6 s end)
           (nat64_prefixes_lock s) (tx_bytes s) (rx_bytes s).

Definition set_nat64_prefixes s (prefixes : list Ipv6Network) : SharedState :=
  mkShared (resolved_hostnames s) (gateway_ipv4 s) (gateway_ipv6 s)
           (once_set (nat64_prefixes_lock s) prefixes) (tx_bytes s) (rx_bytes s).

Definition nat64_prefixes s : list Ipv6Network :=
  match nat64_prefixes_lock s with Some l => l | None => [] end.

(** ** The resolved-hostname cache *)

Definition cache_resolved_hostname s (domain : string) (fam : ResolvedHostnameFamily)
    (addrs : list IpAddr) (ttl now : Z) : SharedState * bool :=
  let host := normalize_hostname domain in
  let key := mkKey host fam in
  let addrs := map normalize_ip_addr addrs in
  let index := evict_expired (resolved_hostnames s) now in
  let bindings_for fam := Z.of_nat (member_count index (mkKey host fam)) in
  let hostname_bindings := bindings_for Ipv4 + bindings_for Ipv6 in
  let total_bindings := Z.of_nat (binding_count index) in
  let hostname_slots := saturating_sub MAX_BINDINGS_PER_HOSTNAME hostname_bindings in
  let sandbox_slots := saturating_sub MAX_RESOLVED_HOSTNAME_BINDINGS total_bindings in
  let available_slots := Z.min hostname_slots sandbox_slots in
  let capacity := total_bindings + available_slots in
  let '(index, ok) := try_extend index key addrs ttl now capacity in
  (with_index s index, ok).

Definition clear_resolved_hostname s (domain : string) fam now : SharedState :=
  with_index s (remove (resolved_hostnames s) (mkKey (normalize_hostname domain) fam) now).

Definition any_resolved_hostname s (addr : IpAddr) now (predicate : string -> bool) : bool :=
  member_matches (resolved_hostnames s) (normalize_ip_addr addr) now
    (fun key => predicate (hostname key)).

(** The closure of [resolved_hostname_for]: it captures [smallest] and always
    answers [false], so that every live binding is visited. *)
Definition keep_smallest (smallest : option string) (key : ResolvedHostnameKey)
  : option string * bool :=
  (match smallest with
   | Some current => if String.ltb (hostname key) current then Some (hostname key) else smallest
   | None => Some (hostname key)
   end, false).

Definition resolved_hostname_for s (addr : IpAddr) now : option string :=
  (member_matches_mut (resolved_hostnames s) (normalize_ip_addr addr) now keep_smallest None).1.

(** [acquired]: whether [try_write] got the lock. *)
Definition cleanup_resolved_hostnames s (acquired : bool) now : SharedState :=
  if acquired then with_index s (evict_expired (resolved_hostnames s) now) else s.

(** ** Byte counters *)

Definition add_tx_bytes s (bytes : Z) : SharedState :=
  mkShared (resolved_hostnames s) (gateway_ipv4 s) (gateway_ipv6 s) (nat64_prefixes_lock s)
           (wrap 64 (tx_bytes s + bytes)) (rx_bytes s).

Definition add_rx_bytes s (bytes : Z) : SharedState :=
  mkShared (resolved_hostnames s) (gateway_ipv4 s) (gateway_ipv6 s) (nat64_prefixes_lock s)
           (tx_bytes s) (wrap 64 (rx_bytes s + bytes)).

(** ** Destination classification *)

Definition nat64_ipv4_projection (addr : IpAddr) s : option IpAddr :=
  match addr with
  | V6 v6 => V4 <$> nat64_embedded_ipv4_addr v6 (nat64_prefixes s)
  | V4 _ => None
  end.

Definition matches_host (addr : IpAddr) s : bool :=
  match addr with
  | V4 v4 => bool_decide (gateway_ipv4 s = Some v4)
  | V6 v6 => bool_decide (gateway_ipv6 s = Some v6)
  end.

Definition is_loopback (addr : IpAddr) : bool :=
  match addr with V4 v4 => octet v4 0 =? 127 | V6 v6 => v6 =? 1 end.

Definition is_private (addr : IpAddr) : bool :=
  match addr with
  | V4 v4 =>
      (octet v4 0 =? 10)
      || ((octet v4 0 =? 172) && (Z.land (octet v4 1) 0xf0 =? 16))
      || ((octet v4 0 =? 192) && (octet v4 1 =? 168))
      || ((octet v4 0 =? 100) && (Z.land (octet v4 1) 0xc0 =? 64))
  | V6 v6 => Z.land (segment v6 0) 0xfe00 =? 0xfc00
  end.

Definition is_link_local (addr : IpAddr) : bool :=
  match addr with
  | V4 v4 => (octet v4 0 =? 169) && (octet v4 1 =? 254)
  | V6 v6 => Z.land (segment v6 0) 0xffc0 =? 0xfe80
  end.

Definition is_metadata (addr : IpAddr) : bool :=
  match addr with
  | V4 v4 => (octet v4 0 =? 169) && (octet v4 1 =? 254) && (octet v4 2 =? 169) && (octet v4 3 =? 254)
  | V6 _ => false
  end.

Definition is_multicast (addr : IpAddr) : bool :=
  match addr with
  | V4 v4 => (224 <=? octet v4 0) && (octet v4 0 <=? 239)
  | V6 v6 => Z.land (segment v6 0) 0xff00 =? 0xff00
  end.

Definition addr_classify (addr : IpAddr) s : option DestinationGroup :=
  let addr := normalize_ip_addr addr in
  let addr := default addr (nat64_ipv4_projection addr s) in
  if is_unspecified addr then None
  else if matches_host addr s then Some Host
  else if is_metadata addr then Some Metadata
  else if is_loopback addr then Some Loopback
  else if is_private addr then Some Private
  else if is_link_local addr then Some LinkLocal
  else if is_multicast addr then Some Multicast
  else Some Public.

Definition matches_group (group : DestinationGroup) (addr : IpAddr) s : bool :=
  bool_decide (addr_classify addr s = Some group).

Definition matches_cidr (network : IpNetwork) (addr : IpAddr) s : bool :=
  let addr := normalize_ip_addr addr in
  network_contains network addr
  || match nat64_ipv4_projection addr s with
     | Some v4 => network_contains network v4
     | None => false
     end.

End SharedState.

(** The ring is [crossbeam_queue::ArrayQueue]: [push] gives the new queue, or
    [None] when it is full. *)
Definition push_rx_frame `{IpNetworks} {Ring} (push : Ring -> list byte -> option Ring)
    (s : SharedState) (ring : Ring) (frame : list byte) : SharedState * Ring * bool :=
  match push ring frame with
  | Some ring' => (add_rx_bytes s (zlen frame), ring', true)
  | None => (s, ring, false)
  end.

(** ** The cache as a sequence of operations *)

Inductive cache_op :=
| OpCache (domain : string) (fam : ResolvedHostnameFamily) (addrs : list IpAddr) (ttl now : Z)
| OpClear (domain : string) (fam : ResolvedHostnameFamily) (now : Z)
| OpCleanup (acquired : bool) (now : Z).

Definition cache_op_size (op : cache_op) : nat :=
  match op with OpCache _ _ addrs _ _ => length addrs | _ => 0 end.

Section CacheProofs.
Context `{IpNetworks}.
Implicit Types (s : SharedState) (now ttl : Z).

Definition apply_cache_op s (op : cache_op) : SharedState * bool :=
  match op with
  | OpCache domain fam addrs ttl now => cache_resolved_hostname s domain fam addrs ttl now
  | OpClear domain fam now => (clear_resolved_hostname s domain fam now, true)
  | OpCleanup acquired now => (cleanup_resolved_hostnames s acquired now, true)
  end.

Definition hostname_bindings (i : hostname_index) (h : string) : Z :=
  Z.of_nat (member_count i (mkKey h Ipv4)) + Z.of_nat (member_count i (mkKey h Ipv6)).

(** The documented limits of the cache. *)
Record within_limits (i : hostname_index) : Prop := {
  limit_total : Z.of_nat (binding_count i) <= MAX_RESOLVED_HOSTNAME_BINDINGS;
  limit_host : forall h, hostname_bindings i h <= MAX_BINDINGS_PER_HOSTNAME
}.

(** *** Eviction and removal only drop bindings *)

Lemma evict_expired_sub (i : hostname_index) now k m e :
  wf i -> binding (evict_expired i now) k m = Some e -> binding i k m = Some e.
Proof.
  intros Hwf. rewrite evict_expired_binding by done. unfold keep_live.
  destruct (binding i k m); [|done]. by case_match.
Qed.

Lemma evict_expired_idem (i : hostname_index) now k m :
  wf i -> binding (evict_expired (evict_expired i now) now) k m = binding (evict_expired i now) k m.
Proof.
  intros Hwf. rewrite !evict_expired_binding by (try apply evict_expired_wf; done).
  unfold keep_live. destruct (binding i k m) as [e|]; [|done].
  destruct (expires_at e <=? now) eqn:E; [done|]. cbn. by rewrite E.
Qed.

Lemma within_limits_mono (i i' : hostname_index) :
  wf i -> wf i' -> (forall k m e, binding i' k m = Some e -> binding i k m = Some e) ->
  within_limits i -> within_limits i'.
Proof.
  intros Hwf Hwf' Hsub [Ht Hh]. split.
  - pose proof (binding_count_mono i i' Hwf Hwf' Hsub). lia.
  - intros h. specialize (Hh h). unfold hostname_bindings in *.
    pose proof (member_count_mono i i' (mkKey h Ipv4) (Hsub _)).
    pose proof (member_count_mono i i' (mkKey h Ipv6) (Hsub _)). lia.
Qed.

Lemma evict_expired_twice_counts (i : hostname_index) now :
  wf i ->
  let i1 := evict_expired i now in
  binding_count (evict_expired i1 now) = binding_count i1
  /\ forall k, member_count (evict_expired i1 now) k = member_count i1 k.
Proof.
  intros Hwf i1. assert (wf i1) as Hwf1 by (by apply evict_expired_wf).
  assert (wf (evict_expired i1 now)) as Hwf2 by (by apply evict_expired_wf).
  assert (forall k m, binding (evict_expired i1 now) k m = binding i1 k m) as Heq
    by (intros; by apply evict_expired_idem).
  split.
  - apply Nat.le_antisymm; apply binding_count_mono; try done; intros k m e; by rewrite Heq.
  - intros k. apply Nat.le_antisymm; apply member_count_mono; intros m e; by rewrite Heq.
Qed.

(** *** One cached answer *)

Lemma cache_index s domain fam addrs ttl now :
  exists capacity,
    let i1 := evict_expired (resolved_hostnames s) now in
    capacity = Z.of_nat (binding_count i1)
      + Z.min (saturating_sub MAX_BINDINGS_PER_HOSTNAME
                 (hostname_bindings i1 (normalize_hostname domain)))
              (saturating_sub MAX_RESOLVED_HOSTNAME_BINDINGS (Z.of_nat (binding_count i1)))
    /\ let '(s', ok) := cache_resolved_hostname s domain fam addrs ttl now in
       (resolved_hostnames s', ok)
       = try_extend i1 (mkKey (normalize_hostname domain) fam) (map normalize_ip_addr addrs)
                    ttl now capacity.
Proof.
  eexists. split; [reflexivity|]. unfold cache_resolved_hostname, hostname_bindings.
  by destruct (try_extend _ _ _ _ _ _).
Qed.

Lemma cache_within_limits s domain fam addrs ttl now :
  wf (resolved_hostnames s) -> room (resolved_hostnames s) (length addrs) ->
  within_limits (resolved_hostnames s) ->
  within_limits (resolved_hostnames (cache_resolved_hostname s domain fam addrs ttl now).1).
Proof.
  intros Hwf Hroom Hlim.
  destruct (cache_index s domain fam addrs ttl now) as (cap & Hcap & Heq).
  set (i1 := evict_expired (resolved_hostnames s) now) in *.
  assert (wf i1) as Hwf1 by (by apply evict_expired_wf).
  assert (within_limits i1) as [Ht Hh].
  { apply (within_limits_mono (resolved_hostnames s)); try done.
    intros k m e. by apply evict_expired_sub. }
  assert (room i1 (length (map normalize_ip_addr addrs))) as Hr1.
  { unfold room, i1 in *. rewrite evict_expired_next, length_map; done. }
  destruct (try_extend_counts i1 (mkKey (normalize_hostname domain) fam)
              (map normalize_ip_addr addrs) ttl now cap Hwf1 Hr1) as (n & Hn & Hb & Hk & Ho).
  destruct (evict_expired_twice_counts (resolved_hostnames s) now Hwf) as [Hbc Hmc].
  fold i1 in Hbc, Hmc. rewrite Hbc in Hn, Hb. rewrite Hmc in Hk.
  destruct (cache_resolved_hostname s domain fam addrs ttl now) as [s' ok].
  apply (f_equal fst) in Heq. cbn in Heq. cbn. rewrite Heq.
  unfold saturating_sub in *. split.
  - rewrite Hb. lia.
  - intros h. specialize (Hh h) as Hhh. specialize (Hh (normalize_hostname domain)).
    unfold hostname_bindings in *.
    destruct (decide (h = normalize_hostname domain)) as [->|Hne].
    + destruct fam; rewrite Hk, Ho, Hmc by congruence; lia.
    + rewrite !Ho, !Hmc by congruence. lia.
Qed.

Lemma abs_lookup_hit (i : hostname_index) a now P :
  wf i ->
  member_matches i a now (fun key => P (hostname key)) = true
  <-> exists k e, abs i !! (k, a) = Some e /\ now < e /\ P (hostname k) = true.
Proof. intros. by rewrite member_matches_spec. Qed.

Lemma cache_try_extend s domain fam addrs ttl now s' ok :
  wf (resolved_hostnames s) -> room (resolved_hostnames s) (length addrs) ->
  cache_resolved_hostname s domain fam addrs ttl now = (s', ok) ->
  wf (resolved_hostnames s')
  /\ next_sequence (resolved_hostnames s') <= next_sequence (resolved_hostnames s) + zlen addrs
  /\ abs (resolved_hostnames s')
     = if ok then abs_bind (abs_evict (abs (resolved_hostnames s)) now)
                    (mkKey (normalize_hostname domain) fam) (map normalize_ip_addr addrs) (now + ttl)
       else abs_evict (abs (resolved_hostnames s)) now.
Proof.
  intros Hwf Hroom Hc.
  destruct (cache_index s domain fam addrs ttl now) as (cap & _ & Heq). rewrite Hc in Heq.
  set (i1 := evict_expired (resolved_hostnames s) now) in *.
  assert (wf i1) as Hwf1 by (by apply evict_expired_wf).
  set (op := OpTryExtend (mkKey (normalize_hostname domain) fam) (map normalize_ip_addr addrs)
               ttl now cap).
  assert (room i1 (op_members op)) as Hr1.
  { unfold room, i1, op in *. cbn. rewrite evict_expired_next, length_map; done. }
  pose proof (apply_op_refines i1 op Hwf1 Hr1) as Hop.
  cbn [apply_op op] in Hop. rewrite <- Heq in Hop. cbn in Hop.
  destruct Hop as (Hwf' & Hseq & Hspec). split; [done|].
  split.
  { unfold i1 in Hseq. rewrite evict_expired_next, length_map in Hseq; done. }
  assert (abs_evict (abs i1) now = abs_evict (abs (resolved_hostnames s)) now) as Hidem.
  { unfold i1. rewrite abs_evict_expired by done. unfold abs_evict.
    rewrite map_filter_filter. apply map_filter_ext. naive_solver. }
  rewrite Hidem in Hspec. destruct (abs_fits _ _ _ _); injection Hspec as Ha Hok; by subst ok.
Qed.

Lemma cache_exact s domain fam addrs ttl now s' ok :
  wf (resolved_hostnames s) -> room (resolved_hostnames s) (length addrs) ->
  cache_resolved_hostname s domain fam addrs ttl now = (s', ok) ->
  forall addr later P, now <= later ->
    any_resolved_hostname s' addr later P = true
    <-> any_resolved_hostname s addr later P = true
        \/ (ok = true /\ normalize_ip_addr addr ∈ map normalize_ip_addr addrs
            /\ later < now + ttl /\ P (normalize_hostname domain) = true).
Proof.
  intros Hwf Hroom Hc addr later P Hle. unfold any_resolved_hostname.
  destruct (cache_try_extend s domain fam addrs ttl now s' ok Hwf Hroom Hc) as (Hwf' & _ & Habs).
  rewrite !abs_lookup_hit, Habs by done. clear Habs Hwf' Hc.
  assert (forall k e, abs_evict (abs (resolved_hostnames s)) now !! k = Some e
            <-> abs (resolved_hostnames s) !! k = Some e /\ now < e) as Hev.
  { intros k e. unfold abs_evict. rewrite map_lookup_filter_Some. done. }
  destruct ok.
  - setoid_rewrite lookup_abs_bind. split.
    + intros (k & e & Hk & Hlt & HP). case_decide as Hd; [|naive_solver].
      destruct Hd as [-> Hin]. injection Hk as Hk.
      destruct (abs_evict _ _ !! _) as [e0|] eqn:E.
      * apply Hev in E as [E _]. destruct (Z.max_spec e0 (now + ttl)) as [[_ Hm]|[_ Hm]];
          rewrite Hm in Hk; subst e.
        -- right. done.
        -- left. eauto.
      * right. subst e. done.
    + intros [(k & e & Hk & Hlt & HP)|(_ & Hin & Hlt & HP)].
      * assert (abs_evict (abs (resolved_hostnames s)) now !! (k, normalize_ip_addr addr) = Some e)
          as E by (apply Hev; split; [done|lia]).
        exists k. rewrite E. case_decide; eexists; (split; [done|]); split; [lia|done|lia|done].
      * eexists (mkKey (normalize_hostname domain) fam). rewrite decide_True by done.
        eexists. split; [done|]. split; [|done]. case_match; lia.
  - setoid_rewrite Hev. split.
    + naive_solver.
    + intros [(k & e & Hk & Hlt & HP)|(? & _)]; [|done]. exists k, e. split; [split; [done|lia]|done].
Qed.

(** *** Executions *)

Lemma clear_abs s domain fam now :
  wf (resolved_hostnames s) ->
  let i' := resolved_hostnames (clear_resolved_hostname s domain fam now) in
  wf i' /\ next_sequence i' = next_sequence (resolved_hostnames s)
  /\ forall k m e, binding i' k m = Some e -> binding (resolved_hostnames s) k m = Some e.
Proof.
  intros Hwf i'. unfold i', clear_resolved_hostname, remove. cbn.
  assert (wf (evict_expired (resolved_hostnames s) now)) as Hwf1 by (by apply evict_expired_wf).
  split; [by apply remove_key_wf|].
  split; [by rewrite remove_key_next, evict_expired_next|].
  intros k m e. rewrite remove_key_binding. case_decide; [done|]. by apply evict_expired_sub.
Qed.

Lemma apply_cache_op_inv s op :
  wf (resolved_hostnames s) -> room (resolved_hostnames s) (cache_op_size op) ->
  within_limits (resolved_hostnames s) ->
  let i' := resolved_hostnames (apply_cache_op s op).1 in
  wf i' /\ within_limits i'
  /\ next_sequence i' <= next_sequence (resolved_hostnames s) + Z.of_nat (cache_op_size op).
Proof.
  intros Hwf Hroom Hlim. destruct op as [domain fam addrs ttl now|domain fam now|acq now]; cbn in *.
  - pose proof (cache_within_limits s domain fam addrs ttl now Hwf Hroom Hlim) as Hl.
    destruct (cache_resolved_hostname s domain fam addrs ttl now) as [s' ok] eqn:E.
    destruct (cache_try_extend s domain fam addrs ttl now s' ok Hwf Hroom E) as (? & ? & _).
    done.
  - destruct (clear_abs s domain fam now Hwf) as (Hwf' & Hn & Hsub).
    split; [done|]. split; [by apply (within_limits_mono (resolved_hostnames s))|].
    etrans; [apply Z.eq_le_incl, Hn|lia].
  - destruct acq; cbn; [|split; [done|]; split; [done|lia]].
    assert (wf (evict_expired (resolved_hostnames s) now)) by (by apply evict_expired_wf).
    split; [done|]. split; [|rewrite evict_expired_next by done; lia].
    apply (within_limits_mono (resolved_hostnames s)); try done.
    intros k m e. by apply evict_expired_sub.
Qed.

Lemma run_cache_inv ops s :
  wf (resolved_hostnames s) -> within_limits (resolved_hostnames s) ->
  room (resolved_hostnames s) (sum_list (cache_op_size <$> ops)) ->
  wf (resolved_hostnames (run apply_cache_op s ops).1)
  /\ within_limits (resolved_hostnames (run apply_cache_op s ops).1).
Proof.
  unfold room. revert s. induction ops as [|op ops IH]; intros s Hwf Hlim Hroom; [done|].
  change (sum_list (cache_op_size <$> op :: ops))
    with (cache_op_size op + sum_list (cache_op_size <$> ops))%nat in Hroom. cbn [run].
  destruct (apply_cache_op_inv s op) as (Hwf' & Hlim' & Hn'); [done|unfold room; lia|done|].
  destruct (apply_cache_op s op) as [s1 b]. cbn [fst] in *.
  destruct (IH s1) as [Hw Hl]; [done|done|lia|].
  by destruct (run apply_cache_op s1 ops).
Qed.

Lemma run_cache_seq ops s :
  wf (resolved_hostnames s) -> within_limits (resolved_hostnames s) ->
  room (resolved_hostnames s) (sum_list (cache_op_size <$> ops)) ->
  next_sequence (resolved_hostnames (run apply_cache_op s ops).1)
  <= next_sequence (resolved_hostnames s) + Z.of_nat (sum_list (cache_op_size <$> ops)).
Proof.
  unfold room. revert s. induction ops as [|op ops IH]; intros s Hwf Hlim Hroom; [cbn; lia|].
  change (sum_list (cache_op_size <$> op :: ops))
    with (cache_op_size op + sum_list (cache_op_size <$> ops))%nat in *. cbn [run].
  destruct (apply_cache_op_inv s op) as (Hwf' & Hlim' & Hn'); [done|unfold room; lia|done|].
  destruct (apply_cache_op s op) as [s1 b]. cbn [fst] in *.
  specialize (IH s1 Hwf' Hlim'). destruct (run apply_cache_op s1 ops). cbn [fst] in *. lia.
Qed.

Lemma new_within_limits : within_limits (resolved_hostnames new_shared).
Proof. split; [|intros h]; vm_compute; discriminate. Qed.

(** *** The smallest live name *)

Definition live_name s addr now h : Prop :=
  any_resolved_hostname s addr now (fun x => bool_decide (x = h)) = true.

Lemma string_leb_refl a : String.leb a a = true.
Proof. by destruct (String.leb_total a a). Qed.

Lemma string_leb_trans a b c : String.leb a b = true -> String.leb b c = true -> String.leb a c = true.
Proof.
  unfold String.leb. revert b c. induction a as [|x a IH]; intros [|y b] [|z c]; cbn; try done.
  unfold Ascii.compare.
  destruct (N.compare_spec (Ascii.N_of_ascii x) (Ascii.N_of_ascii y)) as [Hxy|Hxy|Hxy]; [| |done];
  destruct (N.compare_spec (Ascii.N_of_ascii y) (Ascii.N_of_ascii z)) as [Hyz|Hyz|Hyz]; try done;
  destruct (N.compare_spec (Ascii.N_of_ascii x) (Ascii.N_of_ascii z)); try lia; try done.
  apply IH.
Qed.

Lemma string_ltb_leb a b : String.ltb a b = true -> String.leb a b = true.
Proof. unfold String.ltb, String.leb. by destruct (String.compare a b). Qed.

Lemma string_ltb_ge a b : String.ltb a b = false -> String.leb b a = true.
Proof.
  unfold String.ltb, String.leb. rewrite (String.compare_antisym b a).
  by destruct (String.compare a b).
Qed.

(** The loop invariant of the visit: [r] is the least of the accumulator and
    the names of the live keys visited. *)
Lemma keep_smallest_visit (live : ResolvedHostnameKey -> bool) l acc :
  let '(r, hit) := any_mut (fun best k => if live k then keep_smallest best k else (best, false)) acc l in
  hit = false
  /\ (forall h, r = Some h ->
        (acc = Some h \/ exists k, k ∈ l /\ live k = true /\ hostname k = h))
  /\ (forall x, (acc = Some x \/ exists k, k ∈ l /\ live k = true /\ hostname k = x) ->
        exists h, r = Some h /\ String.leb h x = true).
Proof.
  revert acc. induction l as [|k l IH]; intros acc; cbn.
  - split; [done|]. split; [by left|].
    intros x [->|(k & Hk & _)]; [|by apply elem_of_nil in Hk].
    exists x. split; [done|apply string_leb_refl].
  - destruct (live k) eqn:Hlive; cbn.
    2:{ specialize (IH acc). destruct (any_mut _ acc l) as [r hit]. destruct IH as (Hh & H1 & H2).
        setoid_rewrite elem_of_cons. split; [done|]. split; [naive_solver|].
        intros x Hx. apply H2. naive_solver congruence. }
    set (acc' := match acc with Some _ => _ | None => _ end).
    specialize (IH acc'). destruct (any_mut _ acc' l) as [r hit]. destruct IH as (Hh & H1 & H2).
    assert (forall x, acc = Some x \/ hostname k = x ->
              exists y, acc' = Some y /\ String.leb y x = true) as Hacc.
    { unfold acc'. intros x Hx. destruct acc as [c|].
      - destruct (String.ltb (hostname k) c) eqn:E; eexists; (split; [done|]).
        + destruct Hx as [[= ->]| ->]; [by apply string_ltb_leb|apply string_leb_refl].
        + destruct Hx as [[= ->]| <-]; [apply string_leb_refl|by apply string_ltb_ge].
      - destruct Hx as [|<-]; [done|]. eexists. split; [done|apply string_leb_refl]. }
    assert (forall h, acc' = Some h -> acc = Some h \/ hostname k = h) as Hacc'.
    { unfold acc'. intros h. destruct acc as [c|]; [destruct (String.ltb _ _)|]; naive_solver. }
    setoid_rewrite elem_of_cons. split; [done|]. split.
    + intros h [Ha|(k' & Hk' & ?)]%H1; [|naive_solver].
      apply Hacc' in Ha as [Ha|Ha]; naive_solver.
    + intros x Hx.
      assert ((acc = Some x \/ hostname k = x)
              \/ exists k', k' ∈ l /\ live k' = true /\ hostname k' = x) as [Hx'|Hx'] by naive_solver.
      * apply Hacc in Hx' as (y & Hy & Hle). destruct (H2 y (or_introl Hy)) as (h & Hr & Hle').
        exists h. split; [done|]. by eapply string_leb_trans.
      * apply H2. by right.
Qed.

Lemma any_mut_ext {S A} (f g : S -> A -> S * bool) st l :
  (forall x a, f x a = g x a) -> any_mut f st l = any_mut g st l.
Proof.
  intros Hfg. revert st. induction l as [|a l IH]; intros st; [done|]. cbn. rewrite Hfg.
  destruct (g st a) as [st' []]; [done|apply IH].
Qed.

Lemma resolved_hostname_for_spec s addr now :
  wf (resolved_hostnames s) ->
  match resolved_hostname_for s addr now with
  | Some h => live_name s addr now h /\ forall h', live_name s addr now h' -> String.leb h h' = true
  | None => forall h, ~ live_name s addr now h
  end.
Proof.
  intros Hwf. unfold live_name, any_resolved_hostname, resolved_hostname_for, member_matches_mut,
    member_matches.
  set (i := resolved_hostnames s). set (a := normalize_ip_addr addr).
  destruct (by_member i !! a) as [ks|]; [|by intros h].
  set (live := fun k => match by_key i !! k ≫= (.!! a) with
                        | Some expiry => now <? expires_at expiry | None => false end).
  rewrite (any_mut_ext _ (fun best k => if live k then keep_smallest best k else (best, false))).
  2:{ intros s0 k. unfold live. destruct (by_key i !! k ≫= _); [|done]. by case_match. }
  assert (forall h, existsb (fun key => match by_key i !! key ≫= (.!! a) with
                       | Some expiry => (now <? expires_at expiry) && bool_decide (hostname key = h)
                       | None => false end) (elements ks) = true
            <-> exists k, k ∈ elements ks /\ live k = true /\ hostname k = h) as Hex.
  { intros h. rewrite existsb_exists. setoid_rewrite <- list_elem_of_In. unfold live.
    split; intros (k & Hk & Hb); exists k; split; try done.
    - destruct (by_key i !! k ≫= _); [|done].
      by apply andb_true_iff in Hb as [? ?%bool_decide_eq_true].
    - destruct Hb as [Hb ->]. destruct (by_key i !! k ≫= _); [|done].
      by rewrite Hb, bool_decide_true. }
  pose proof (keep_smallest_visit live (elements ks) None) as Hv.
  destruct (any_mut _ None (elements ks)) as [[h|] hit]; cbn; destruct Hv as (_ & H1 & H2).
  - split.
    + apply Hex. by destruct (H1 h eq_refl).
    + intros h' Hh'%Hex. destruct (H2 h' (or_intror Hh')) as (? & [= <-] & ?). done.
  - intros h Hh%Hex. by destruct (H2 h (or_intror Hh)) as (? & ? & ?).
Qed.

End CacheProofs.

(** ** Classification against address blocks *)

(** [a] lies in the block of [w]-bit addresses that share [base]'s first [len] bits. *)
Definition in_block (w base len a : Z) : Prop := base <= a < base + 2 ^ (w - len).

Definition metadata_v4 : Z := ipv4 169 254 169 254.

Definition loopback_block (p : IpAddr) : Prop :=
  match p with V4 a => in_block 32 (ipv4 127 0 0 0) 8 a | V6 a => a = 1 end.

Definition private_block (p : IpAddr) : Prop :=
  match p with
  | V4 a => in_block 32 (ipv4 10 0 0 0) 8 a \/ in_block 32 (ipv4 172 16 0 0) 12 a
            \/ in_block 32 (ipv4 192 168 0 0) 16 a \/ in_block 32 (ipv4 100 64 0 0) 10 a
  | V6 a => in_block 128 (Z.shiftl 0xfc00 112) 7 a
  end.

Definition link_local_block (p : IpAddr) : Prop :=
  match p with
  | V4 a => in_block 32 (ipv4 169 254 0 0) 16 a
  | V6 a => in_block 128 (Z.shiftl 0xfe80 112) 10 a
  end.

Definition multicast_block (p : IpAddr) : Prop :=
  match p with
  | V4 a => in_block 32 (ipv4 224 0 0 0) 4 a
  | V6 a => in_block 128 (Z.shiftl 0xff00 112) 8 a
  end.

(** The documented meaning of each group, on the policy projection [p] of an
    address. *)
Definition group_spec `{IpNetworks} (g : DestinationGroup) (p : IpAddr) (s : SharedState) : Prop :=
  match g with
  | Host => matches_host p s = true
  | Metadata => matches_host p s = false /\ p = V4 metadata_v4
  | Loopback => matches_host p s = false /\ loopback_block p
  | Private => matches_host p s = false /\ private_block p
  | LinkLocal => matches_host p s = false /\ link_local_block p /\ p <> V4 metadata_v4
  | Multicast => matches_host p s = false /\ multicast_block p
  | Public => matches_host p s = false /\ ~ loopback_block p /\ ~ private_block p
              /\ ~ link_local_block p /\ ~ multicast_block p
  end.

(** The address the classifier looks at. *)
Definition projection `{IpNetworks} (addr : IpAddr) (s : SharedState) : IpAddr :=
  let addr := normalize_ip_addr addr in default addr (nat64_ipv4_projection addr s).

(** Masking the high bits of an [n]-bit number compares its leading bits. *)
Lemma land_high_mask n k x c :
  0 <= k <= n -> fits n x ->
  Z.land x (Z.shiftl (Z.ones (n - k)) k) = Z.shiftl c k <-> Z.shiftr x k = c.
Proof.
  intros Hk Hx. unfold fits in Hx.
  assert (Z.land x (Z.shiftl (Z.ones (n - k)) k) = Z.shiftl (Z.shiftr x k) k) as ->.
  { apply Z.bits_inj'. intros i Hi. rewrite Z.land_spec, !Z.shiftl_spec by lia.
    destruct (Z.ltb_spec i k).
    - rewrite !(Z.testbit_neg_r _ (i - k)) by lia. apply andb_false_r.
    - rewrite Z.shiftr_spec by lia. replace (i - k + k) with i by lia.
      destruct (Z.ltb_spec i n).
      + by rewrite Z.ones_spec_low, andb_true_r by lia.
      + rewrite Z.ones_spec_high, andb_false_r by lia. symmetry.
        destruct (decide (x = 0)) as [->|]; [apply Z.bits_0|].
        apply Z.bits_above_log2; [lia|]. apply Z.log2_lt_pow2; [lia|].
        apply Z.lt_le_trans with (2 ^ n); [lia|]. apply Z.pow_le_mono_r; lia. }
  split; [|by intros ->]. intros Heq. apply (f_equal (fun z => Z.shiftr z k)) in Heq.
  rewrite !Z.shiftr_shiftl_l, Z.sub_diag, !Z.shiftl_0_r in Heq by lia. done.
Qed.

Lemma octet_div a i : octet a i = Z.shiftr a (24 - 8 * i) `mod` 256.
Proof. unfold octet. change 0xff with (Z.ones 8). by rewrite Z.land_ones by lia. Qed.

Lemma segment0_div a : fits 128 a -> segment a 0 = a `div` 2 ^ 112.
Proof.
  unfold fits, segment. intros Ha. change 0xffff with (Z.ones 16).
  rewrite Z.land_ones, Z.shiftr_div_pow2 by lia. apply Z.mod_small.
  split; [apply Z.div_pos; lia|]. apply Z.div_lt_upper_bound; lia.
Qed.

Lemma octets_v4 a :
  fits 32 a ->
  exists b0 b1 b2 b3, a = ((b0 * 256 + b1) * 256 + b2) * 256 + b3
    /\ fits 8 b0 /\ fits 8 b1 /\ fits 8 b2 /\ fits 8 b3
    /\ octet a 0 = b0 /\ octet a 1 = b1 /\ octet a 2 = b2 /\ octet a 3 = b3.
Proof.
  unfold fits. intros Ha. rewrite !octet_div, !Z.shiftr_div_pow2 by lia. cbn [Z.mul Z.sub Z.opp Z.add].
  exists (a `div` 2 ^ 24), ((a `div` 2 ^ 16) `mod` 256), ((a `div` 2 ^ 8) `mod` 256), (a `mod` 256).
  change (2 ^ (24 - 8 * 0)) with (2 ^ 24). change (2 ^ (24 - 8 * 1)) with (2 ^ 16).
  change (2 ^ (24 - 8 * 2)) with (2 ^ 8). change (2 ^ (24 - 8 * 3)) with 1.
  rewrite Z.div_1_r.
  assert (0 <= a `div` 2 ^ 24 < 256)
    by (split; [apply Z.div_pos; lia|apply Z.div_lt_upper_bound; lia]).
  repeat split; try lia; Z.div_mod_to_equations; lia.
Qed.

Lemma octet_mask_f0 b : fits 8 b -> (Z.land b 0xf0 =? 16) = bool_decide (16 <= b < 32).
Proof.
  intros Hb. apply eq_true_iff_eq. rewrite Z.eqb_eq, bool_decide_eq_true.
  rewrite (land_high_mask 8 4 b 1) by (done || lia). rewrite Z.shiftr_div_pow2 by lia.
  unfold fits in Hb. split; intros; Z.div_mod_to_equations; lia.
Qed.

Lemma octet_mask_c0 b : fits 8 b -> (Z.land b 0xc0 =? 64) = bool_decide (64 <= b < 128).
Proof.
  intros Hb. apply eq_true_iff_eq. rewrite Z.eqb_eq, bool_decide_eq_true.
  rewrite (land_high_mask 8 6 b 1) by (done || lia). rewrite Z.shiftr_div_pow2 by lia.
  unfold fits in Hb. split; intros; Z.div_mod_to_equations; lia.
Qed.

(** Reflect the comparisons of a bit-level test into linear arithmetic. *)
Ltac breflect_iff :=
  rewrite ?orb_true_iff, ?andb_true_iff, ?Z.eqb_eq, ?Z.leb_le, ?bool_decide_eq_true.

Lemma is_loopback_iff p : ip_valid p -> is_loopback p = true <-> loopback_block p.
Proof.
  destruct p as [a|a]; cbn; intros Hp; [|apply Z.eqb_eq].
  destruct (octets_v4 a Hp) as (b0 & b1 & b2 & b3 & Ha & H0 & H1 & H2 & H3 & -> & _).
  unfold in_block, fits in *. breflect_iff. change (ipv4 127 0 0 0) with (127 * 2 ^ 24).
  change (32 - 8) with 24. lia.
Qed.

Lemma is_private_iff p : ip_valid p -> is_private p = true <-> private_block p.
Proof.
  destruct p as [a|a]; cbn [is_private private_block ip_valid]; intros Hp.
  - destruct (octets_v4 a Hp) as (b0 & b1 & b2 & b3 & Ha & H0 & H1 & H2 & H3 & -> & -> & _).
    rewrite octet_mask_f0, octet_mask_c0 by done. unfold in_block, fits in *. breflect_iff.
    change (ipv4 10 0 0 0) with (10 * 2 ^ 24). change (ipv4 172 16 0 0) with ((172 * 256 + 16) * 2 ^ 16).
    change (ipv4 192 168 0 0) with ((192 * 256 + 168) * 2 ^ 16).
    change (ipv4 100 64 0 0) with ((100 * 256 + 64) * 2 ^ 16).
    change (32 - 8) with 24. change (32 - 12) with 20. change (32 - 16) with 16.
    change (32 - 10) with 22. lia.
  - breflect_iff. rewrite segment0_div by done.
    assert (fits 16 (a `div` 2 ^ 112)) as Hf.
    { unfold fits in *. split; [apply Z.div_pos; lia|apply Z.div_lt_upper_bound; lia]. }
    rewrite (land_high_mask 16 9 _ 0x7e) by (done || lia). rewrite Z.shiftr_div_pow2 by lia.
    rewrite Z.div_div by lia. unfold in_block, fits in *.
    change (Z.shiftl 0xfc00 112) with (0x7e * 2 ^ 121). change (128 - 7) with 121.
    change (2 ^ 112 * 2 ^ 9) with (2 ^ 121). split; intros; Z.div_mod_to_equations; lia.
Qed.

Lemma is_link_local_iff p : ip_valid p -> is_link_local p = true <-> link_local_block p.
Proof.
  destruct p as [a|a]; cbn [is_link_local link_local_block ip_valid]; intros Hp.
  - destruct (octets_v4 a Hp) as (b0 & b1 & b2 & b3 & Ha & H0 & H1 & H2 & H3 & -> & -> & _).
    unfold in_block, fits in *. breflect_iff.
    change (ipv4 169 254 0 0) with ((169 * 256 + 254) * 2 ^ 16). change (32 - 16) with 16. lia.
  - breflect_iff. rewrite segment0_div by done.
    assert (fits 16 (a `div` 2 ^ 112)) as Hf.
    { unfold fits in *. split; [apply Z.div_pos; lia|apply Z.div_lt_upper_bound; lia]. }
    rewrite (land_high_mask 16 6 _ 0x3fa) by (done || lia). rewrite Z.shiftr_div_pow2 by lia.
    rewrite Z.div_div by lia. unfold in_block, fits in *.
    change (Z.shiftl 0xfe80 112) with (0x3fa * 2 ^ 118). change (128 - 10) with 118.
    change (2 ^ 112 * 2 ^ 6) with (2 ^ 118). split; intros; Z.div_mod_to_equations; lia.
Qed.

Lemma is_multicast_iff p : ip_valid p -> is_multicast p = true <-> multicast_block p.
Proof.
  destruct p as [a|a]; cbn [is_multicast multicast_block ip_valid]; intros Hp.
  - destruct (octets_v4 a Hp) as (b0 & b1 & b2 & b3 & Ha & H0 & H1 & H2 & H3 & -> & _).
    unfold in_block, fits in *. breflect_iff.
    change (ipv4 224 0 0 0) with (224 * 2 ^ 24). change (32 - 4) with 28. lia.
  - breflect_iff. rewrite segment0_div by done.
    assert (fits 16 (a `div` 2 ^ 112)) as Hf.
    { unfold fits in *. split; [apply Z.div_pos; lia|apply Z.div_lt_upper_bound; lia]. }
    rewrite (land_high_mask 16 8 _ 0xff) by (done || lia). rewrite Z.shiftr_div_pow2 by lia.
    rewrite Z.div_div by lia. unfold in_block, fits in *.
    change (Z.shiftl 0xff00 112) with (0xff * 2 ^ 120). change (128 - 8) with 120.
    change (2 ^ 112 * 2 ^ 8) with (2 ^ 120). split; intros; Z.div_mod_to_equations; lia.
Qed.

Lemma is_metadata_iff p : ip_valid p -> is_metadata p = true <-> p = V4 metadata_v4.
Proof.
  destruct p as [a|a]; cbn [is_metadata ip_valid]; intros Hp; [|done].
  destruct (octets_v4 a Hp) as (b0 & b1 & b2 & b3 & Ha & H0 & H1 & H2 & H3 & -> & -> & -> & ->).
  unfold fits in *. breflect_iff.
  change metadata_v4 with (((169 * 256 + 254) * 256 + 169) * 256 + 254).
  split; [intros; f_equal; lia|]. intros [= Heq]. lia.
Qed.

(** The blocks are pairwise disjoint. *)
Lemma blocks_disjoint p :
  (loopback_block p -> ~ private_block p /\ ~ link_local_block p /\ ~ multicast_block p)
  /\ (private_block p -> ~ link_local_block p /\ ~ multicast_block p)
  /\ (link_local_block p -> ~ multicast_block p).
Proof.
  destruct p as [a|a]; cbn [loopback_block private_block link_local_block multicast_block];
    unfold in_block.
  - change (ipv4 10 0 0 0) with (10 * 2 ^ 24). change (ipv4 172 16 0 0) with ((172 * 256 + 16) * 2 ^ 16).
    change (ipv4 192 168 0 0) with ((192 * 256 + 168) * 2 ^ 16).
    change (ipv4 100 64 0 0) with ((100 * 256 + 64) * 2 ^ 16).
    change (ipv4 169 254 0 0) with ((169 * 256 + 254) * 2 ^ 16).
    change (ipv4 224 0 0 0) with (224 * 2 ^ 24). change (ipv4 127 0 0 0) with (127 * 2 ^ 24). lia.
  - change (Z.shiftl 0xfc00 112) with (0x7e * 2 ^ 121).
    change (Z.shiftl 0xfe80 112) with (0x3fa * 2 ^ 118).
    change (Z.shiftl 0xff00 112) with (0xff * 2 ^ 120). lia.
Qed.

Lemma metadata_link_local : link_local_block (V4 metadata_v4).
Proof. vm_compute. split; [discriminate|reflexivity]. Qed.

Section Classify.
Context `{IpNetworks}.
Implicit Types (s : SharedState).

Lemma projection_valid addr s : ip_valid addr -> ip_valid (projection addr s).
Proof.
  intros Hv%normalize_ip_addr_valid. unfold projection.
  destruct (normalize_ip_addr addr) as [a|a]; [done|]. cbn in *.
  unfold nat64_embedded_ipv4_addr. destruct (existsb _ _); [|done]. cbn.
  apply land_low32_fits. unfold fits in Hv. lia.
Qed.

Lemma addr_classify_spec addr s g :
  ip_valid addr ->
  addr_classify addr s = Some g
  <-> is_unspecified (projection addr s) = false /\ group_spec g (projection addr s) s.
Proof.
  intros Hv%(projection_valid _ s). unfold addr_classify. fold (projection addr s).
  set (p := projection addr s) in *. clearbody p. clear addr.
  destruct (is_unspecified p); [by split; [|intros [? _]]|].
  pose proof (is_loopback_iff p Hv) as Hl. pose proof (is_private_iff p Hv) as Hp.
  pose proof (is_link_local_iff p Hv) as Hll. pose proof (is_multicast_iff p Hv) as Hm.
  pose proof (is_metadata_iff p Hv) as Hmd.
  pose proof (blocks_disjoint p) as (D1 & D2 & D3).
  assert (p = V4 metadata_v4 -> link_local_block p) as D4 by (intros ->; apply metadata_link_local).
  unfold group_spec.
  apply iff_sym, iff_reflect in Hl, Hp, Hll, Hm, Hmd.
  assert (true <> false) by done. assert (false <> true) by done.
  destruct (matches_host p s); [|destruct Hmd; [|destruct Hl; [|destruct Hp; [|destruct Hll;
    [|destruct Hm]]]]]; destruct g;
    (split; [first [discriminate | intros _; split; [reflexivity|tauto]]
            | intros [_ Hg]; first [reflexivity | exfalso; tauto]]).
Qed.

Lemma classify_projection addr s : addr_classify (projection addr s) s = addr_classify addr s
  \/ exists a, projection addr s = V6 a /\ normalize_ip_addr addr = V6 a.
Proof.
  unfold projection. destruct (normalize_ip_addr addr) as [a|a] eqn:E.
  - left. unfold addr_classify. by rewrite E.
  - destruct (nat64_ipv4_projection (V6 a) s) as [p|] eqn:Ep; [|right; eauto].
    left. unfold addr_classify. rewrite E, Ep. cbn.
    cbn in Ep. destruct (nat64_embedded_ipv4_addr a (nat64_prefixes s)); [|done].
    injection Ep as <-. done.
Qed.

End Classify.

(** ** Properties *)

Section Properties.
Context `{IpNetworks}.
Implicit Types (s : SharedState).

(** However the guest's DNS answers are cached, cleared and expired, the
    cache never holds more than 16,384 bindings, nor more than 1,024 for one
    normalised hostname over both address families (up to 2^64 cached
    addresses in total, the range of the index's sequence numbers). *)
Lemma resolved_cache_limits (ops : list cache_op) :
  Z.of_nat (sum_list (cache_op_size <$> ops)) < 2 ^ 64 ->
  within_limits (resolved_hostnames (run apply_cache_op new_shared ops).1).
Proof.
  intros Hlt. apply run_cache_inv; [apply default_wf|apply new_within_limits|exact Hlt].
Qed.

(** In every reachable cache, caching an answer at [now] does exactly this
    for every later query: the names bound before stay bound as long as they
    were, and when the answer is accepted the hostname is bound to each of its
    addresses until [now + ttl]; a refused answer changes nothing. *)
Lemma resolved_cache_exact (ops : list cache_op) domain fam addrs ttl now s' ok :
  Z.of_nat (sum_list (cache_op_size <$> ops)) + zlen addrs < 2 ^ 64 ->
  let s := (run apply_cache_op new_shared ops).1 in
  cache_resolved_hostname s domain fam addrs ttl now = (s', ok) ->
  forall addr later P, now <= later ->
    any_resolved_hostname s' addr later P = true
    <-> any_resolved_hostname s addr later P = true
        \/ (ok = true /\ normalize_ip_addr addr ∈ map normalize_ip_addr addrs
            /\ later < now + ttl /\ P (normalize_hostname domain) = true).
Proof.
  intros Hlt s. apply cache_exact.
  - apply run_cache_inv; [apply default_wf|apply new_within_limits|unfold room; cbn; lia].
  - unfold room. pose proof (run_cache_seq ops new_shared default_wf new_within_limits) as Hn.
    fold s in Hn. unfold room in Hn. cbn in Hn. lia.
Qed.

(** [resolved_hostname_for] reports, in every reachable cache, the
    lexicographically smallest name with a live binding to the address, and
    reports none only when no name is bound. *)
Lemma resolved_hostname_for_smallest (ops : list cache_op) addr now :
  Z.of_nat (sum_list (cache_op_size <$> ops)) < 2 ^ 64 ->
  let s := (run apply_cache_op new_shared ops).1 in
  match resolved_hostname_for s addr now with
  | Some h => live_name s addr now h /\ forall h', live_name s addr now h' -> String.leb h h' = true
  | None => forall h, ~ live_name s addr now h
  end.
Proof.
  intros Hlt s. apply resolved_hostname_for_spec.
  apply run_cache_inv; [apply default_wf|apply new_within_limits|exact Hlt].
Qed.

(** The bit tests of the classifier decide the documented address blocks:
    an address is in a group exactly when its policy projection is specified
    and lies in the group's blocks, with the gateway taken by [Host] first and
    the metadata address taken out of [LinkLocal]. *)
Lemma classify_blocks g addr s :
  ip_valid addr ->
  matches_group g addr s = true
  <-> is_unspecified (projection addr s) = false /\ group_spec g (projection addr s) s.
Proof. intros Hv. unfold matches_group. rewrite bool_decide_eq_true. by apply addr_classify_spec. Qed.

(** An IPv4 destination cannot be disguised: its IPv4-mapped IPv6 form, and
    any IPv6 address of a configured NAT64 /96 prefix that embeds it, are in
    the same destination group as the IPv4 address itself. *)
Lemma classify_embedded_ipv4 v4 s :
  fits 32 v4 ->
  addr_classify (V6 (0xffff * 2 ^ 32 + v4)) s = addr_classify (V4 v4) s
  /\ forall v6 prefix, to_ipv4_mapped v6 = None -> Z.land v6 0xffffffff = v4 ->
       prefix ∈ nat64_prefixes s -> v6_prefix prefix = 96 -> v6_contains prefix v6 = true ->
       addr_classify (V6 v6) s = addr_classify (V4 v4) s.
Proof.
  intros Hv. split.
  - unfold addr_classify. by rewrite normalize_mapped.
  - intros v6 prefix Hm <- Hin H96 Hc. unfold addr_classify. cbn [normalize_ip_addr]. rewrite Hm.
    cbn [nat64_ipv4_projection]. unfold nat64_embedded_ipv4_addr.
    replace (existsb _ _) with true; [done|]. symmetry. apply existsb_exists.
    exists prefix. rewrite H96, Hc. by split; [apply list_elem_of_In|].
Qed.

End Properties.

(** ** Witnesses *)

Import CidrNetworks.
#[local] Open Scope string_scope.

Definition sample_cache_ops : list cache_op :=
  [OpCache "Example.COM." Ipv4 [V4 (ipv4 93 184 216 34); V4 (ipv4 93 184 216 35)] 60 0;
   OpCache "cdn.example.com" Ipv4 [V4 (ipv4 93 184 216 34)] 30 5;
   OpCleanup true 20; OpClear "other.org" Ipv6 21].

Lemma resolved_cache_limits_witness :
  within_limits (resolved_hostnames (run apply_cache_op new_shared sample_cache_ops).1).
Proof. apply (resolved_cache_limits sample_cache_ops). vm_compute. reflexivity. Defined.

Lemma resolved_cache_exact_witness :
  let s := (run apply_cache_op new_shared sample_cache_ops).1 in
  let s' := (cache_resolved_hostname s "a.b." Ipv6 [V6 5] 10 25).1 in
  any_resolved_hostname s' (V6 5) 30 (fun h => bool_decide (h = "a.b")) = true
  <-> any_resolved_hostname s (V6 5) 30 (fun h => bool_decide (h = "a.b")) = true
      \/ (true = true /\ normalize_ip_addr (V6 5) ∈ map normalize_ip_addr [V6 5]
          /\ 30 < 25 + 10 /\ bool_decide (normalize_hostname "a.b." = "a.b") = true).
Proof.
  apply (resolved_cache_exact sample_cache_ops "a.b." Ipv6 [V6 5] 10 25).
  - vm_compute. reflexivity.
  - vm_compute. reflexivity.
  - lia.
Defined.

Example sample_smallest :
  resolved_hostname_for (run apply_cache_op new_shared sample_cache_ops).1
    (V4 (ipv4 93 184 216 34)) 22 = Some "cdn.example.com".
Proof. vm_compute. reflexivity. Qed.

Lemma resolved_hostname_for_smallest_witness :
  let s := (run apply_cache_op new_shared sample_cache_ops).1 in
  live_name s (V4 (ipv4 93 184 216 34)) 22 "cdn.example.com"
  /\ forall h', live_name s (V4 (ipv4 93 184 216 34)) 22 h' ->
       String.leb "cdn.example.com" h' = true.
Proof.
  pose proof (resolved_hostname_for_smallest sample_cache_ops (V4 (ipv4 93 184 216 34)) 22
                ltac:(vm_compute; reflexivity)) as Hs.
  cbv zeta in Hs. rewrite sample_smallest in Hs. exact Hs.
Defined.

Definition sample_shared : SharedState :=
  set_nat64_prefixes (set_gateway_ips new_shared (Some (ipv4 100 64 0 1)) None)
    [(Z.shiftl 0x64ff9b 96, 96)].

Lemma classify_blocks_witness :
  matches_group Metadata (V6 (Z.shiftl 0x64ff9b 96 + ipv4 169 254 169 254)) sample_shared = true
  <-> is_unspecified (projection (V6 (Z.shiftl 0x64ff9b 96 + ipv4 169 254 169 254)) sample_shared)
      = false
      /\ group_spec Metadata
           (projection (V6 (Z.shiftl 0x64ff9b 96 + ipv4 169 254 169 254)) sample_shared) sample_shared.
Proof. apply classify_blocks. vm_compute. split; [discriminate|reflexivity]. Defined.

Lemma classify_embedded_ipv4_witness :
  addr_classify (V6 (0xffff * 2 ^ 32 + ipv4 169 254 169 254)) sample_shared
  = addr_classify (V4 (ipv4 169 254 169 254)) sample_shared.
Proof.
  apply (classify_embedded_ipv4 (ipv4 169 254 169 254) sample_shared).
  vm_compute. split; [discriminate|reflexivity].
Defined.
