(* ===== verification/Policy.v ===== *)
(** * Network policy evaluation

    Models [crates/network/lib/model/policy/types.rs]: policies, rules and
    their constructors, the egress walk with its three hostname sources, the
    ingress, DNS-query and address-only evaluators, and the builder methods that
    prepend domain rules.

    An evaluation reads the shared state at one instant [now]; the source reads
    the clock once per domain rule within the same call. *)

From S2P Require Import Prelude TtlIndex DomainName Addr SharedState.

(** ** Data *)

Inductive Action := Allow | Deny.
Inductive NetworkProfile := ProfilePublic | ProfilePrivate | ProfileHost.
Inductive Direction := Egress | Ingress | AnyDirection.
Inductive Protocol := Tcp | Udp | Icmpv4 | Icmpv6.

#[global] Instance Action_eq_dec : EqDecision Action.
Proof. solve_decision. Defined.
#[global] Instance NetworkProfile_eq_dec : EqDecision NetworkProfile.
Proof. solve_decision. Defined.
#[global] Instance Direction_eq_dec : EqDecision Direction.
Proof. solve_decision. Defined.
#[global] Instance Protocol_eq_dec : EqDecision Protocol.
Proof. solve_decision. Defined.

Inductive Destination `{IpNetworks} :=
| DestAny
| DestCidr (network : IpNetwork)
| DestDomain (domain : DomainName)
| DestDomainSuffix (suffix : DomainName)
| DestGroup (group : DestinationGroup).

Record PortRange := mkPortRange { pr_start : Z; pr_end : Z }.

Record Rule `{IpNetworks} := mkRule {
  direction : Direction;
  destination : Destination;
  protocols : list Protocol;
  ports : list PortRange;
  action : Action
}.
Arguments mkRule {_}.

Record NetworkPolicy `{IpNetworks} := mkPolicy {
  default_egress : Action;
  default_ingress : Action;
  rules : list Rule
}.
Arguments mkPolicy {_}.

Record SocketAddr := mkSocketAddr { sa_ip : IpAddr; sa_port : Z }.

Inductive HostnameSource := Sni (name : string) | CacheOnly | Deferred.
Inductive EgressEvaluation := EvalAllow | EvalDeny | DeferUntilHostname.
Inductive EgressWalk := Matched (a : Action) | WalkDefer | WalkDefault.
Inductive DestinationMatch := Match | NoMatch | Defer.

#[global] Instance EgressEvaluation_eq_dec : EqDecision EgressEvaluation.
Proof. solve_decision. Defined.

(** ** Small methods *)

Definition is_allow (a : Action) : bool := match a with Allow => true | Deny => false end.
Definition is_deny (a : Action) : bool := match a with Deny => true | Allow => false end.

Definition evaluation_of_action (a : Action) : EgressEvaluation :=
  match a with Allow => EvalAllow | Deny => EvalDeny end.

(** The deferred branch is a [debug_assert!(false)] followed by [Deny]: release
    builds fall back to [Deny]. *)
Definition action_of_evaluation (e : EgressEvaluation) : Action :=
  match e with EvalAllow => Allow | EvalDeny => Deny | DeferUntilHostname => Deny end.

Definition destination_match_of_bool (matched : bool) : DestinationMatch :=
  if matched then Match else NoMatch.

Definition port_range_single (port : Z) : PortRange := mkPortRange port port.
Definition port_range_contains (r : PortRange) (port : Z) : bool :=
  (pr_start r <=? port) && (port <=? pr_end r).

Section Policy.
Context `{IpNetworks}.
Implicit Types (p : NetworkPolicy) (rule : Rule) (dest : Destination) (s : SharedState) (now : Z)
  (addr : IpAddr) (dst : SocketAddr) (port : option Z) (protocol : Protocol).

Definition rule_new (d : Direction) dest (a : Action) : Rule := mkRule d dest [] [] a.
Definition allow_egress dest : Rule := rule_new Egress dest Allow.
Definition deny_egress dest : Rule := rule_new Egress dest Deny.
Definition allow_ingress dest : Rule := rule_new Ingress dest Allow.
Definition deny_ingress dest : Rule := rule_new Ingress dest Deny.
Definition allow_any dest : Rule := rule_new AnyDirection dest Allow.
Definition deny_any dest : Rule := rule_new AnyDirection dest Deny.

Definition allow_dns : Rule :=
  mkRule Egress (DestGroup Host) [Udp; Tcp] [port_range_single 53] Allow.
Definition deny_dns : Rule :=
  mkRule (direction allow_dns) (destination allow_dns) (protocols allow_dns) (ports allow_dns) Deny.

Definition policy_none : NetworkPolicy := mkPolicy Deny Deny [].
Definition policy_allow_all : NetworkPolicy := mkPolicy Allow Allow [].

(** The loop of [from_profiles] over the profiles: the three flags. *)
Definition profile_flags (profiles : list NetworkProfile) : bool * bool * bool :=
  fold_left (fun '(public, private, host) profile =>
    match profile with
    | ProfilePublic => (true, private, host)
    | ProfilePrivate => (public, true, host)
    | ProfileHost => (public, private, true)
    end) profiles (false, false, false).

Definition from_profiles (profiles : list NetworkProfile) : NetworkPolicy :=
  let '(public, private, host) := profile_flags profiles in
  let dns := if public || private || host then [allow_dns] else [] in
  let groups := flat_map (fun '(enabled, group) =>
    if (enabled : bool) then [allow_egress (DestGroup group)] else [])
    [(public, Public); (private, Private); (host, Host)] in
  mkPolicy Deny Allow (dns ++ groups).

Definition default_policy : NetworkPolicy := from_profiles [ProfilePublic].

(** ** Destination matching *)

Definition is_hostname_destination dest : bool :=
  match dest with DestDomain _ | DestDomainSuffix _ => true | _ => false end.

Definition deferred_domain_match (a : Action) addr s now (matches_hostname : string -> bool)
  : DestinationMatch :=
  if is_deny a || any_resolved_hostname s addr now matches_hostname then Defer else NoMatch.

Definition matches_egress_destination_with_source dest (a : Action) addr s now
    (source : HostnameSource) : DestinationMatch :=
  match dest with
  | DestAny => Match
  | DestCidr network => destination_match_of_bool (matches_cidr network addr s)
  | DestGroup group => destination_match_of_bool (matches_group group addr s)
  | DestDomain domain =>
      let is_name hostname := bool_decide (hostname = as_str domain) in
      match source with
      | Sni name =>
          let name_matches := bool_decide (name = as_str domain) in
          destination_match_of_bool
            (name_matches && (is_deny a || any_resolved_hostname s addr now is_name))
      | CacheOnly => destination_match_of_bool (any_resolved_hostname s addr now is_name)
      | Deferred => deferred_domain_match a addr s now is_name
      end
  | DestDomainSuffix suffix =>
      let in_suffix hostname := matches_suffix hostname (as_str suffix) in
      match source with
      | Sni name =>
          let name_matches := matches_suffix name (as_str suffix) in
          destination_match_of_bool
            (name_matches && (is_deny a || any_resolved_hostname s addr now in_suffix))
      | CacheOnly => destination_match_of_bool (any_resolved_hostname s addr now in_suffix)
      | Deferred => deferred_domain_match a addr s now in_suffix
      end
  end.

Definition matches_destination dest addr s now : bool :=
  match matches_egress_destination_with_source dest Allow addr s now CacheOnly with
  | Match => true
  | _ => false
  end.

(** ** Rule filters *)

Definition in_egress (d : Direction) : bool :=
  match d with Egress | AnyDirection => true | Ingress => false end.
Definition in_ingress (d : Direction) : bool :=
  match d with Ingress | AnyDirection => true | Egress => false end.

Definition protocol_filter rule protocol : bool :=
  match protocols rule with [] => true | l => bool_decide (protocol ∈ l) end.

Definition port_filter rule port : bool :=
  match ports rule with
  | [] => true
  | l => match port with Some pt => existsb (fun r => port_range_contains r pt) l | None => false end
  end.

Definition rule_matches_protocol_and_port rule protocol (pt : Z) : bool :=
  if negb (protocol_filter rule protocol) then false
  else if negb (port_filter rule (Some pt)) then false
  else true.

Definition rule_matches rule addr port protocol s now : bool :=
  if negb (protocol_filter rule protocol) then false
  else if negb (port_filter rule port) then false
  else matches_destination (destination rule) addr s now.

(** The [continue] conditions at the head of the egress loops. *)
Definition egress_rule_applies rule port protocol : bool :=
  in_egress (direction rule) && protocol_filter rule protocol && port_filter rule port.

(** ** Egress *)

Fixpoint deferred_tail_can_allow (tail : list Rule) (dflt : Action) addr port protocol s now : bool :=
  match tail with
  | [] => is_allow dflt
  | rule :: tail' =>
      if egress_rule_applies rule port protocol then
        match matches_egress_destination_with_source (destination rule) (action rule) addr s now
                Deferred with
        | Match => is_allow (action rule)
        | Defer => if is_allow (action rule) then true
                   else deferred_tail_can_allow tail' dflt addr port protocol s now
        | NoMatch => deferred_tail_can_allow tail' dflt addr port protocol s now
        end
      else deferred_tail_can_allow tail' dflt addr port protocol s now
  end.

Fixpoint egress_walk_rules (rs : list Rule) (dflt : Action) addr port protocol s now
    (source : HostnameSource) : EgressWalk :=
  match rs with
  | [] => WalkDefault
  | rule :: rs' =>
      if egress_rule_applies rule port protocol then
        match matches_egress_destination_with_source (destination rule) (action rule) addr s now
                source with
        | Match => Matched (action rule)
        | Defer =>
            if is_deny (action rule)
               && negb (deferred_tail_can_allow rs' dflt addr port protocol s now)
            then Matched Deny else WalkDefer
        | NoMatch => egress_walk_rules rs' dflt addr port protocol s now source
        end
      else egress_walk_rules rs' dflt addr port protocol s now source
  end.

Definition egress_walk_outcome p addr port protocol s now source : EgressWalk :=
  egress_walk_rules (rules p) (default_egress p) addr port protocol s now source.

Definition egress_walk p addr port protocol s now source : EgressEvaluation :=
  match egress_walk_outcome p addr port protocol s now source with
  | Matched a => evaluation_of_action a
  | WalkDefer => DeferUntilHostname
  | WalkDefault => evaluation_of_action (default_egress p)
  end.

Definition evaluate_egress p dst protocol s now : Action :=
  action_of_evaluation (egress_walk p (sa_ip dst) (Some (sa_port dst)) protocol s now CacheOnly).

Definition evaluate_egress_ip p addr protocol s now : Action :=
  action_of_evaluation (egress_walk p addr None protocol s now CacheOnly).

Definition evaluate_egress_with_source p dst protocol s now source : EgressEvaluation :=
  egress_walk p (sa_ip dst) (Some (sa_port dst)) protocol s now source.

Definition egress_denied_by_default p dst protocol s now source : bool :=
  is_deny (default_egress p)
  && match egress_walk_outcome p (sa_ip dst) (Some (sa_port dst)) protocol s now source with
     | WalkDefault => true
     | _ => false
     end.

Fixpoint allows_via_hostname_rules (rs : list Rule) dst protocol s now source : bool :=
  match rs with
  | [] => false
  | rule :: rs' =>
      if egress_rule_applies rule (Some (sa_port dst)) protocol then
        match matches_egress_destination_with_source (destination rule) (action rule) (sa_ip dst)
                s now source with
        | Match => is_allow (action rule) && is_hostname_destination (destination rule)
        | Defer | NoMatch => allows_via_hostname_rules rs' dst protocol s now source
        end
      else allows_via_hostname_rules rs' dst protocol s now source
  end.

Definition allows_egress_via_hostname p dst protocol s now source : bool :=
  allows_via_hostname_rules (rules p) dst protocol s now source.

Definition explicit_rule_applies rule protocol : bool :=
  in_egress (direction rule)
  && match destination rule with DestCidr _ | DestGroup _ => true | _ => false end
  && match ports rule with [] => true | _ => false end
  && protocol_filter rule protocol.

Definition evaluate_explicit_egress_ip p addr protocol s now : option Action :=
  action <$> List.find (fun rule => explicit_rule_applies rule protocol
                              && matches_destination (destination rule) addr s now) (rules p).

(** ** Ingress, DNS queries *)

Fixpoint evaluate_ingress_rules (rs : list Rule) (dflt : Action) (peer : SocketAddr)
    (guest_port : Z) protocol s now : Action :=
  match rs with
  | [] => dflt
  | rule :: rs' =>
      if negb (in_ingress (direction rule)) then
        evaluate_ingress_rules rs' dflt peer guest_port protocol s now
      else if negb (rule_matches rule (sa_ip peer) (Some guest_port) protocol s now) then
        evaluate_ingress_rules rs' dflt peer guest_port protocol s now
      else action rule
  end.

Definition evaluate_ingress p (peer : SocketAddr) (guest_port : Z) protocol s now : Action :=
  evaluate_ingress_rules (rules p) (default_ingress p) peer guest_port protocol s now.

Definition has_domain_rules p : bool :=
  existsb (fun r => match destination r with DestDomain _ | DestDomainSuffix _ => true | _ => false end)
    (rules p).

Definition dns_rule_matches rule (name : option DomainName) protocol (pt : Z) : bool :=
  match destination rule with
  | DestAny => rule_matches_protocol_and_port rule protocol pt
  | DestGroup Host => rule_matches_protocol_and_port rule protocol pt
  | DestDomain d => bool_decide (name = Some d)
  | DestDomainSuffix sfx =>
      match name with Some n => matches_suffix (as_str n) (as_str sfx) | None => false end
  | _ => false
  end.

Fixpoint evaluate_dns_rules (rs : list Rule) (dflt : Action) (name : option DomainName)
    protocol (pt : Z) : Action :=
  match rs with
  | [] => dflt
  | rule :: rs' =>
      if negb (in_egress (direction rule)) then evaluate_dns_rules rs' dflt name protocol pt
      else if dns_rule_matches rule name protocol pt then action rule
      else evaluate_dns_rules rs' dflt name protocol pt
  end.

Definition evaluate_dns_query_inner p (name : option DomainName) protocol (pt : Z) : Action :=
  evaluate_dns_rules (rules p) (default_egress p) name protocol pt.

Definition evaluate_dns_query p (name : DomainName) protocol (pt : Z) : Action :=
  evaluate_dns_query_inner p (Some name) protocol pt.

Definition evaluate_dns_query_without_name p protocol (pt : Z) : Action :=
  evaluate_dns_query_inner p None protocol pt.

(** ** Builders *)

Section Builders.
Context {ProtoError : Type} (hickory_parse : string -> result ProtoError unit).

Definition prepend_egress_rules p (names : list string) (mk_rule : DomainName -> Rule)
  : result (DomainNameError ProtoError) NetworkPolicy :=
  let? new_rules :=
    collect_results (fun name => let? d := domain_from_str hickory_parse name in Ok (mk_rule d)) names in
  Ok (mkPolicy (default_egress p) (default_ingress p) (new_rules ++ rules p)).

Definition deny_domains p names := prepend_egress_rules p names (fun d => deny_egress (DestDomain d)).
Definition allow_domains p names := prepend_egress_rules p names (fun d => allow_egress (DestDomain d)).
Definition deny_domain_suffixes p names :=
  prepend_egress_rules p names (fun d => deny_egress (DestDomainSuffix d)).
Definition allow_domain_suffixes p names :=
  prepend_egress_rules p names (fun d => allow_egress (DestDomainSuffix d)).
Definition deny_domain p name := deny_domains p [name].
Definition allow_domain p name := allow_domains p [name].
Definition deny_domain_suffix p name := deny_domain_suffixes p [name].
Definition allow_domain_suffix p name := allow_domain_suffixes p [name].

End Builders.

(** ** Lemmas on single rules *)

(** Same gateway addresses and NAT64 prefixes: both are set once at boot. *)
Definition same_addressing s s' : Prop :=
  gateway_ipv4 s = gateway_ipv4 s' /\ gateway_ipv6 s = gateway_ipv6 s'
  /\ nat64_prefixes_lock s = nat64_prefixes_lock s'.

(** Every name bound to [addr] in [s'] at [now'] is bound to it in [s] at [now]. *)
Definition no_new_names addr s now s' now' : Prop :=
  forall P, any_resolved_hostname s' addr now' P = true -> any_resolved_hostname s addr now P = true.

Lemma same_addressing_group s s' g addr :
  same_addressing s s' -> matches_group g addr s = matches_group g addr s'.
Proof.
  intros (H4 & H6 & H64). unfold matches_group, addr_classify, nat64_ipv4_projection, matches_host,
    nat64_prefixes. by rewrite H4, H6, H64.
Qed.

Lemma same_addressing_cidr s s' network addr :
  same_addressing s s' -> matches_cidr network addr s = matches_cidr network addr s'.
Proof.
  intros (_ & _ & H64). unfold matches_cidr, nat64_ipv4_projection, nat64_prefixes. by rewrite H64.
Qed.

Lemma source_match_not_defer dest a addr s now source :
  source <> Deferred -> matches_egress_destination_with_source dest a addr s now source <> Defer.
Proof.
  intros Hs. destruct dest, source; cbn; try done; unfold destination_match_of_bool;
    by match goal with |- context [if ?b then _ else _] => destruct b end.
Qed.

Lemma deferred_match_stable dest a addr s now s' now' source :
  same_addressing s s' ->
  matches_egress_destination_with_source dest a addr s now Deferred = Match ->
  matches_egress_destination_with_source dest a addr s' now' source = Match.
Proof.
  intros Hsame. destruct dest; cbn; try done.
  - by rewrite (same_addressing_cidr s s').
  - unfold deferred_domain_match. by destruct (_ || _).
  - unfold deferred_domain_match. by destruct (_ || _).
  - by rewrite (same_addressing_group s s').
Qed.

(** A rule that neither matches nor defers at SYN time cannot match later: an
    IP rule decides on the address alone, a deny-domain rule always defers and
    an allow-domain rule needs a name bound to the address. *)
Lemma deferred_nomatch_stable dest a addr s now s' now' source :
  same_addressing s s' -> source <> Deferred ->
  no_new_names addr s now s' now' \/ a = Deny ->
  matches_egress_destination_with_source dest a addr s now Deferred = NoMatch ->
  matches_egress_destination_with_source dest a addr s' now' source = NoMatch.
Proof.
  intros Hsame Hsrc Hnew. destruct dest as [|net|d|d|g]; cbn; try done.
  - by rewrite (same_addressing_cidr s s').
  - unfold deferred_domain_match.
    destruct Hnew as [Hnew| ->]; [|done]. destruct a; [|done]. cbn.
    destruct (any_resolved_hostname s addr now _) eqn:E; [done|]. intros _.
    destruct (any_resolved_hostname s' addr now' _) eqn:E'; [apply Hnew in E'; congruence|].
    destruct source; [by rewrite andb_false_r|done|done].
  - unfold deferred_domain_match.
    destruct Hnew as [Hnew| ->]; [|done]. destruct a; [|done]. cbn.
    destruct (any_resolved_hostname s addr now _) eqn:E; [done|]. intros _.
    destruct (any_resolved_hostname s' addr now' _) eqn:E'; [apply Hnew in E'; congruence|].
    destruct source; [by rewrite andb_false_r|done|done].
  - by rewrite (same_addressing_group s s').
Qed.

(** ** Lemmas on walks *)

Definition walk_denies (w : EgressWalk) (dflt : Action) : Prop :=
  w = Matched Deny \/ (w = WalkDefault /\ dflt = Deny).
Definition walk_allows (w : EgressWalk) (dflt : Action) : Prop :=
  w = Matched Allow \/ (w = WalkDefault /\ dflt = Allow).

Lemma egress_walk_denies p addr port protocol s now source :
  egress_walk p addr port protocol s now source = EvalDeny
  <-> walk_denies (egress_walk_outcome p addr port protocol s now source) (default_egress p).
Proof.
  unfold egress_walk, walk_denies.
  destruct (egress_walk_outcome _ _ _ _ _ _ _) as [[]| |], (default_egress p); naive_solver.
Qed.

Lemma egress_walk_allows p addr port protocol s now source :
  egress_walk p addr port protocol s now source = EvalAllow
  <-> walk_allows (egress_walk_outcome p addr port protocol s now source) (default_egress p).
Proof.
  unfold egress_walk, walk_allows.
  destruct (egress_walk_outcome _ _ _ _ _ _ _) as [[]| |], (default_egress p); naive_solver.
Qed.

Lemma walk_not_defer rs dflt addr port protocol s now source :
  source <> Deferred -> egress_walk_rules rs dflt addr port protocol s now source <> WalkDefer.
Proof.
  intros Hs. induction rs as [|r rs IH]; cbn; [done|]. case_match; [|done].
  pose proof (source_match_not_defer (destination r) (action r) addr s now source Hs).
  by case_match.
Qed.

Section Resolve.
Context (addr : IpAddr) (port : option Z) (protocol : Protocol).
Context (s s' : SharedState) (now now' : Z) (source : HostnameSource).
Hypothesis Hsame : same_addressing s s'.
Hypothesis Hsource : source <> Deferred.

Lemma tail_cannot_allow_denies rs dflt :
  no_new_names addr s now s' now' ->
  deferred_tail_can_allow rs dflt addr port protocol s now = false ->
  walk_denies (egress_walk_rules rs dflt addr port protocol s' now' source) dflt.
Proof.
  intros Hnew. induction rs as [|r rs IH]; cbn; [by right; destruct dflt|].
  destruct (egress_rule_applies r port protocol); [|done].
  destruct (matches_egress_destination_with_source _ _ addr s now Deferred) eqn:E.
  - rewrite (deferred_match_stable _ _ _ s now s' now' source Hsame E).
    left. by destruct (action r).
  - rewrite (deferred_nomatch_stable _ _ _ s now s' now' source Hsame Hsource (or_introl Hnew) E).
    done.
  - destruct (action r) eqn:Ea; [done|]. cbn. intros Ht.
    pose proof (source_match_not_defer (destination r) Deny addr s' now' source Hsource).
    destruct (matches_egress_destination_with_source _ _ addr s' now' source); [by left|auto|done].
Qed.

Lemma deferred_deny_stable rs dflt :
  no_new_names addr s now s' now' ->
  walk_denies (egress_walk_rules rs dflt addr port protocol s now Deferred) dflt ->
  walk_denies (egress_walk_rules rs dflt addr port protocol s' now' source) dflt.
Proof.
  intros Hnew. induction rs as [|r rs IH]; cbn; [done|].
  destruct (egress_rule_applies r port protocol); [|done].
  destruct (matches_egress_destination_with_source _ _ addr s now Deferred) eqn:E.
  - by rewrite (deferred_match_stable _ _ _ s now s' now' source Hsame E).
  - by rewrite (deferred_nomatch_stable _ _ _ s now s' now' source Hsame Hsource (or_introl Hnew) E).
  - destruct (action r) eqn:Ea; cbn; [by intros [|[]]|].
    destruct (deferred_tail_can_allow rs dflt addr port protocol s now) eqn:Et; cbn;
      [by intros [|[]]|]. intros _.
    pose proof (source_match_not_defer (destination r) Deny addr s' now' source Hsource).
    destruct (matches_egress_destination_with_source _ _ addr s' now' source); [by left| |done].
    by apply tail_cannot_allow_denies.
Qed.

Lemma deferred_allow_stable rs dflt :
  walk_allows (egress_walk_rules rs dflt addr port protocol s now Deferred) dflt ->
  walk_allows (egress_walk_rules rs dflt addr port protocol s' now' source) dflt.
Proof.
  induction rs as [|r rs IH]; cbn; [done|].
  destruct (egress_rule_applies r port protocol); [|done].
  destruct (matches_egress_destination_with_source _ _ addr s now Deferred) eqn:E.
  - by rewrite (deferred_match_stable _ _ _ s now s' now' source Hsame E).
  - intros Hw%IH. destruct (action r) eqn:Ea.
    + pose proof (source_match_not_defer (destination r) Allow addr s' now' source Hsource).
      destruct (matches_egress_destination_with_source _ _ addr s' now' source); [by left|done|done].
    + by rewrite (deferred_nomatch_stable _ _ _ s now s' now' source Hsame Hsource
                    (or_intror eq_refl) E).
  - destruct (action r); cbn; [by intros [|[]]|]. destruct (negb _); by intros [|[]].
Qed.

End Resolve.

(** *** First match *)

(** The reference semantics: the action of the first rule that holds. *)
Definition first_match (holds : Rule -> bool) (rs : list Rule) (dflt : Action) : Action :=
  match List.find holds rs with Some r => action r | None => dflt end.

Definition egress_holds addr port protocol s now source rule : bool :=
  egress_rule_applies rule port protocol
  && match matches_egress_destination_with_source (destination rule) (action rule) addr s now source
     with Match => true | _ => false end.

Lemma walk_first_match rs dflt addr port protocol s now source :
  source <> Deferred ->
  egress_walk_rules rs dflt addr port protocol s now source
  = match List.find (egress_holds addr port protocol s now source) rs with
    | Some r => Matched (action r)
    | None => WalkDefault
    end.
Proof.
  intros Hs. induction rs as [|r rs IH]; cbn; [done|]. unfold egress_holds at 1.
  destruct (egress_rule_applies r port protocol); [|done]. cbn.
  pose proof (source_match_not_defer (destination r) (action r) addr s now source Hs).
  by destruct (matches_egress_destination_with_source _ _ _ _ _ source).
Qed.

Lemma egress_walk_first_match p addr port protocol s now source :
  source <> Deferred ->
  egress_walk p addr port protocol s now source
  = evaluation_of_action (first_match (egress_holds addr port protocol s now source)
                            (rules p) (default_egress p)).
Proof.
  intros Hs. unfold egress_walk, egress_walk_outcome, first_match. rewrite walk_first_match by done.
  by destruct (List.find _ _).
Qed.

Lemma action_of_evaluation_of_action a : action_of_evaluation (evaluation_of_action a) = a.
Proof. by destruct a. Qed.

Lemma ingress_first_match p peer guest_port protocol s now :
  evaluate_ingress p peer guest_port protocol s now
  = first_match (fun r => in_ingress (direction r)
                          && rule_matches r (sa_ip peer) (Some guest_port) protocol s now)
      (rules p) (default_ingress p).
Proof.
  unfold evaluate_ingress, first_match. induction (rules p) as [|r rs IH]; cbn; [done|].
  destruct (in_ingress (direction r)); cbn; [|done].
  by destruct (rule_matches r (sa_ip peer) (Some guest_port) protocol s now).
Qed.

Lemma dns_first_match p name protocol pt :
  evaluate_dns_query_inner p name protocol pt
  = first_match (fun r => in_egress (direction r) && dns_rule_matches r name protocol pt)
      (rules p) (default_egress p).
Proof.
  unfold evaluate_dns_query_inner, first_match. induction (rules p) as [|r rs IH]; cbn; [done|].
  destruct (in_egress (direction r)); cbn; [|done]. by destruct (dns_rule_matches r name protocol pt).
Qed.

Lemma find_app {A} (f : A -> bool) l1 l2 :
  List.find f (l1 ++ l2) = match List.find f l1 with Some x => Some x | None => List.find f l2 end.
Proof. induction l1 as [|x l1 IH]; cbn; [done|]. by destruct (f x). Qed.

Lemma first_match_app holds l1 l2 dflt :
  first_match holds (l1 ++ l2) dflt = first_match holds l1 (first_match holds l2 dflt).
Proof. unfold first_match. rewrite find_app. by destruct (List.find holds l1). Qed.

Lemma first_match_none holds l dflt :
  (forall r, r ∈ l -> holds r = false) -> first_match holds l dflt = dflt.
Proof.
  unfold first_match. induction l as [|x l IH]; intros Hf; cbn; [done|].
  rewrite (Hf x) by set_solver. apply IH. set_solver.
Qed.

(** *** Profiles *)

Definition profile_group (pr : NetworkProfile) : DestinationGroup :=
  match pr with ProfilePublic => Public | ProfilePrivate => Private | ProfileHost => Host end.

Lemma profile_flags_spec profiles :
  profile_flags profiles
  = (bool_decide (ProfilePublic ∈ profiles), bool_decide (ProfilePrivate ∈ profiles),
     bool_decide (ProfileHost ∈ profiles)).
Proof.
  unfold profile_flags.
  assert (forall a b c, fold_left (fun '(public, private, host) profile =>
    match profile with
    | ProfilePublic => (true, private, host)
    | ProfilePrivate => (public, true, host)
    | ProfileHost => (public, private, true)
    end) profiles (a, b, c)
    = (a || bool_decide (ProfilePublic ∈ profiles), b || bool_decide (ProfilePrivate ∈ profiles),
       c || bool_decide (ProfileHost ∈ profiles))) as Hgen; [|by rewrite Hgen].
  induction profiles as [|pr profiles IH]; intros a b c; cbn.
  - rewrite !bool_decide_false by apply not_elem_of_nil. by rewrite !orb_false_r.
  - assert (forall x, bool_decide (x ∈ pr :: profiles)
                      = bool_decide (x = pr) || bool_decide (x ∈ profiles)) as Hcons.
    { intros x. apply eq_true_iff_eq.
      by rewrite orb_true_iff, !bool_decide_eq_true, elem_of_cons. }
    rewrite !Hcons. destruct pr; rewrite IH; by destruct a, b, c.
Qed.

Definition dns_to_gateway dst protocol s : bool :=
  matches_group Host (sa_ip dst) s && bool_decide (protocol = Udp \/ protocol = Tcp)
  && (sa_port dst =? 53).

Lemma allow_dns_holds dst protocol s now source :
  egress_holds (sa_ip dst) (Some (sa_port dst)) protocol s now source allow_dns
  = dns_to_gateway dst protocol s.
Proof.
  unfold egress_holds, egress_rule_applies, dns_to_gateway.
  assert (protocol_filter allow_dns protocol = bool_decide (protocol = Udp \/ protocol = Tcp)) as ->.
  { unfold protocol_filter. cbn [protocols allow_dns]. apply bool_decide_ext. set_solver. }
  assert (port_filter allow_dns (Some (sa_port dst)) = (sa_port dst =? 53)) as ->.
  { cbn. unfold port_range_contains. cbn [pr_start pr_end port_range_single]. apply eq_true_iff_eq.
    rewrite orb_false_r, andb_true_iff, !Z.leb_le, Z.eqb_eq. lia. }
  cbn [direction allow_dns in_egress destination matches_egress_destination_with_source].
  by destruct (matches_group Host (sa_ip dst) s), (bool_decide _), (sa_port dst =? 53).
Qed.

Lemma allow_group_holds g dst protocol s now source :
  egress_holds (sa_ip dst) (Some (sa_port dst)) protocol s now source (allow_egress (DestGroup g))
  = matches_group g (sa_ip dst) s.
Proof. unfold egress_holds. cbn. by destruct (matches_group g (sa_ip dst) s). Qed.

Lemma first_match_allow_only holds l :
  (forall r, r ∈ l -> action r = Allow) ->
  first_match holds l Deny = Allow <-> exists r, r ∈ l /\ holds r = true.
Proof.
  intros Hall. unfold first_match. destruct (List.find holds l) as [r|] eqn:E.
  - apply List.find_some in E as [Hin Hr]. rewrite <- list_elem_of_In in Hin.
    rewrite Hall by done. naive_solver.
  - split; [done|]. intros (r & Hin%list_elem_of_In & Hr).
    by rewrite (List.find_none _ _ E r Hin) in Hr.
Qed.

Lemma from_profiles_rules profiles r :
  r ∈ rules (from_profiles profiles)
  <-> (profiles <> [] /\ r = allow_dns)
      \/ exists pr, pr ∈ profiles /\ r = allow_egress (DestGroup (profile_group pr)).
Proof.
  unfold from_profiles. rewrite profile_flags_spec. cbn [rules]. rewrite elem_of_app.
  assert (bool_decide (ProfilePublic ∈ profiles) || bool_decide (ProfilePrivate ∈ profiles)
          || bool_decide (ProfileHost ∈ profiles) = bool_decide (profiles <> [])) as ->.
  { apply eq_true_iff_eq. rewrite !orb_true_iff, !bool_decide_eq_true.
    destruct profiles as [|[] l]; [set_solver|set_solver..]. }
  assert (r ∈ flat_map (fun '(enabled, group) =>
            if (enabled : bool) then [allow_egress (DestGroup group)] else [])
            [(bool_decide (ProfilePublic ∈ profiles), Public);
             (bool_decide (ProfilePrivate ∈ profiles), Private);
             (bool_decide (ProfileHost ∈ profiles), Host)]
          <-> exists pr, pr ∈ profiles /\ r = allow_egress (DestGroup (profile_group pr))) as ->.
  { cbn. rewrite app_nil_r, !elem_of_app. split.
    - intros [Hr|[Hr|Hr]]; case_bool_decide; try (by apply elem_of_nil in Hr);
        apply list_elem_of_singleton in Hr as ->;
        [exists ProfilePublic|exists ProfilePrivate|exists ProfileHost]; done.
    - intros ([] & Hpr & ->); [left|right; left|right; right];
        rewrite bool_decide_true by done; by apply list_elem_of_singleton. }
  case_bool_decide; set_solver.
Qed.

(** *** Domain rules *)

Definition dest_accepts dest (name : string) : bool :=
  match dest with
  | DestDomain d => bool_decide (name = as_str d)
  | DestDomainSuffix sfx => matches_suffix name (as_str sfx)
  | _ => false
  end.

Lemma hostname_match dest a addr s now source :
  is_hostname_destination dest = true ->
  matches_egress_destination_with_source dest a addr s now source
  = match source with
    | Sni name => destination_match_of_bool
        (dest_accepts dest name && (is_deny a || any_resolved_hostname s addr now (dest_accepts dest)))
    | CacheOnly => destination_match_of_bool (any_resolved_hostname s addr now (dest_accepts dest))
    | Deferred => deferred_domain_match a addr s now (dest_accepts dest)
    end.
Proof. by destruct dest. Qed.

Lemma domain_free_match dest a addr s now s' now' source source' :
  same_addressing s s' -> is_hostname_destination dest = false ->
  matches_egress_destination_with_source dest a addr s now source
  = matches_egress_destination_with_source dest a addr s' now' source'
  /\ matches_egress_destination_with_source dest a addr s now source <> Defer.
Proof.
  intros Hsame. destruct dest; cbn; try done; intros _.
  - rewrite (same_addressing_cidr s s') by done. split; [done|]. by destruct (matches_cidr _ _ _).
  - rewrite (same_addressing_group s s') by done. split; [done|]. by destruct (matches_group _ _ _).
Qed.

Lemma domain_free_walk rs dflt addr port protocol s now s' now' source source' :
  same_addressing s s' ->
  existsb (fun r => is_hostname_destination (destination r)) rs = false ->
  egress_walk_rules rs dflt addr port protocol s now source
  = egress_walk_rules rs dflt addr port protocol s' now' source'.
Proof.
  intros Hsame. induction rs as [|r rs IH]; cbn; [done|].
  intros [Hr Hrs]%orb_false_iff. rewrite (IH Hrs). case_match; [|done].
  destruct (domain_free_match (destination r) (action r) addr s now s' now' source source' Hsame Hr)
    as [-> Hnd].
  destruct (domain_free_match (destination r) (action r) addr s' now' s' now' source' source'
              ltac:(done) Hr) as [_ Hnd'].
  by destruct (matches_egress_destination_with_source _ _ _ s' now' source').
Qed.

Lemma prepended_rules {ProtoError} (parse : string -> result ProtoError unit) p names mk p' :
  prepend_egress_rules parse p names mk = Ok p' ->
  exists ds, Forall2 (fun n d => domain_from_str parse n = Ok d) names ds
    /\ p' = mkPolicy (default_egress p) (default_ingress p) (map mk ds ++ rules p).
Proof.
  unfold prepend_egress_rules. destruct (collect_results _ names) as [rs|] eqn:E; [|done].
  intros [= <-]. apply collect_results_Forall2 in E.
  assert (exists ds, Forall2 (fun n d => domain_from_str parse n = Ok d) names ds
                     /\ rs = map mk ds) as (ds & Hds & ->); [|by exists ds].
  induction E as [|n r names rs Hn _ (ds & Hds & ->)]; [by exists []|].
  destruct (domain_from_str parse n) as [d|] eqn:Ed; [|done]. injection Hn as <-.
  exists (d :: ds). split; [by constructor|done].
Qed.

Lemma deny_domain_holds d addr port protocol s now source :
  egress_holds addr port protocol s now source (deny_egress (DestDomain d))
  = match source with
    | Sni name => bool_decide (name = as_str d)
    | CacheOnly => any_resolved_hostname s addr now (fun h => bool_decide (h = as_str d))
    | Deferred => false
    end.
Proof.
  unfold egress_holds. cbn. destruct source; cbn.
  - rewrite andb_true_r. by destruct (bool_decide _).
  - by destruct (any_resolved_hostname _ _ _ _).
  - done.
Qed.

Lemma first_match_denies holds l r dflt :
  (forall r, r ∈ l -> action r = Deny) -> r ∈ l -> holds r = true -> first_match holds l dflt = Deny.
Proof.
  intros Hall Hin Hr. unfold first_match. destruct (List.find holds l) as [r'|] eqn:E.
  - apply List.find_some in E as [Hin' _]. apply Hall. by apply list_elem_of_In.
  - apply list_elem_of_In in Hin. by rewrite (List.find_none _ _ E r Hin) in Hr.
Qed.

Lemma domain_free_rules rs :
  existsb (fun r => match destination r with DestDomain _ | DestDomainSuffix _ => true | _ => false end)
    rs = existsb (fun r => is_hostname_destination (destination r)) rs.
Proof. done. Qed.

Lemma via_hostname_rules rs dst protocol s now source :
  allows_via_hostname_rules rs dst protocol s now source
  = match List.find (egress_holds (sa_ip dst) (Some (sa_port dst)) protocol s now source) rs with
    | Some r => is_allow (action r) && is_hostname_destination (destination r)
    | None => false
    end.
Proof.
  induction rs as [|r rs IH]; cbn; [done|]. unfold egress_holds at 1.
  destruct (egress_rule_applies r _ protocol); [|done]. cbn.
  by destruct (matches_egress_destination_with_source _ _ _ _ _ source).
Qed.

(** A rule with a hostname destination that holds has DNS evidence, unless it
    denies on the SNI alone. *)
Lemma hostname_rule_evidence r addr port protocol s now source :
  is_hostname_destination (destination r) = true -> action r = Allow ->
  egress_holds addr port protocol s now source r = true ->
  any_resolved_hostname s addr now (dest_accepts (destination r)) = true
  /\ forall name, source = Sni name -> dest_accepts (destination r) name = true.
Proof.
  intros Hd Ha Hh. unfold egress_holds in Hh. apply andb_true_iff in Hh as [_ Hm].
  rewrite hostname_match, Ha in Hm by done. destruct source as [n| |]; cbn in Hm.
  - destruct (dest_accepts (destination r) n) eqn:E; cbn in Hm; [|done].
    destruct (any_resolved_hostname _ _ _ _); [|done]. split; [done|]. by intros ? [= <-].
  - by destruct (any_resolved_hostname _ _ _ _).
  - unfold deferred_domain_match in Hm. by destruct (_ || _).
Qed.

(** ** Properties *)

(** C1: a connection refused at SYN time stays refused: whatever hostname the
    guest later presents (or if none is), evaluating the same flow denies it, as
    long as no further name got bound to the address.  So refusing before the
    TLS handshake never cuts a flow the full policy would have admitted. *)
Theorem syn_deny_is_final p dst protocol s now s' now' source :
  same_addressing s s' -> no_new_names (sa_ip dst) s now s' now' -> source <> Deferred ->
  evaluate_egress_with_source p dst protocol s now Deferred = EvalDeny ->
  evaluate_egress_with_source p dst protocol s' now' source = EvalDeny.
Proof.
  intros Hsame Hnew Hsrc Hw%egress_walk_denies. apply egress_walk_denies.
  by apply (deferred_deny_stable _ _ _ s s' now now').
Qed.

(** C2: a connection admitted at SYN time without deferral is admitted by the
    policy for every hostname and every later state of the resolved-hostname
    cache: accepting early never lets through a flow that a domain rule would
    have refused. *)
Theorem syn_allow_is_final p dst protocol s now s' now' source :
  same_addressing s s' -> source <> Deferred ->
  evaluate_egress_with_source p dst protocol s now Deferred = EvalAllow ->
  evaluate_egress_with_source p dst protocol s' now' source = EvalAllow.
Proof.
  intros Hsame Hsrc Hw%egress_walk_allows. apply egress_walk_allows.
  by apply (deferred_allow_stable _ _ _ s s' now now').
Qed.

(** The evaluators implement first-match-wins: once the hostname source is
    settled the egress verdict is the action of the first rule of the egress
    direction that matches, or the egress default (so deferral cannot leak into
    an [Action]); ingress and DNS-query evaluation likewise in their direction
    with their own matching. *)
Lemma evaluators_first_match p :
  (forall dst protocol s now source, source <> Deferred ->
     evaluate_egress_with_source p dst protocol s now source
     = evaluation_of_action
         (first_match (egress_holds (sa_ip dst) (Some (sa_port dst)) protocol s now source)
            (rules p) (default_egress p)))
  /\ (forall dst protocol s now,
       evaluate_egress p dst protocol s now
       = first_match (egress_holds (sa_ip dst) (Some (sa_port dst)) protocol s now CacheOnly)
           (rules p) (default_egress p))
  /\ (forall addr protocol s now,
       evaluate_egress_ip p addr protocol s now
       = first_match (egress_holds addr None protocol s now CacheOnly) (rules p) (default_egress p))
  /\ (forall peer guest_port protocol s now,
       evaluate_ingress p peer guest_port protocol s now
       = first_match (fun r => in_ingress (direction r)
                               && rule_matches r (sa_ip peer) (Some guest_port) protocol s now)
           (rules p) (default_ingress p))
  /\ (forall name protocol pt,
       evaluate_dns_query p name protocol pt
       = first_match (fun r => in_egress (direction r)
                               && dns_rule_matches r (Some name) protocol pt)
           (rules p) (default_egress p)).
Proof.
  split; [intros; by apply egress_walk_first_match|].
  split; [intros; unfold evaluate_egress|].
  { by rewrite egress_walk_first_match, action_of_evaluation_of_action. }
  split; [intros; unfold evaluate_egress_ip|].
  { by rewrite egress_walk_first_match, action_of_evaluation_of_action. }
  split; [intros; apply ingress_first_match|intros; apply dns_first_match].
Qed.

(** A policy built from profiles admits exactly the destinations of its
    profiles' groups, plus plain DNS to the gateway when there is any profile,
    and refuses every other outbound flow; only the set of profiles matters. *)
Lemma from_profiles_exact profiles :
  (forall dst protocol s now,
     evaluate_egress (from_profiles profiles) dst protocol s now = Allow
     <-> (exists pr, pr ∈ profiles /\ matches_group (profile_group pr) (sa_ip dst) s = true)
         \/ (profiles <> [] /\ dns_to_gateway dst protocol s = true))
  /\ forall profiles', (forall pr, pr ∈ profiles <-> pr ∈ profiles') ->
       from_profiles profiles = from_profiles profiles'.
Proof.
  split.
  - intros dst protocol s now. unfold evaluate_egress.
    rewrite egress_walk_first_match, action_of_evaluation_of_action by done.
    replace (default_egress (from_profiles profiles)) with Deny
      by (unfold from_profiles; by rewrite profile_flags_spec).
    rewrite first_match_allow_only.
    + setoid_rewrite from_profiles_rules. split.
      * intros (r & [[Hne ->]|(pr & Hpr & ->)] & Hr).
        -- right. by rewrite allow_dns_holds in Hr.
        -- left. exists pr. by rewrite allow_group_holds in Hr.
      * intros [(pr & Hpr & Hg)|[Hne Hd]].
        -- eexists. split; [right; by exists pr|]. by rewrite allow_group_holds.
        -- eexists. split; [by left|]. by rewrite allow_dns_holds.
    + intros r [[_ ->]|(pr & _ & ->)]%from_profiles_rules; done.
  - intros profiles' Heq. unfold from_profiles. rewrite !profile_flags_spec.
    by rewrite !(bool_decide_ext _ _ (Heq _)).
Qed.

(** C3: blocking domains works on every path: after [deny_domains], a DNS query
    for a blocked name, a TLS flow presenting it as SNI and a flow to an address
    the guest resolved from it are all refused, no SYN is admitted before its
    hostname is known, and a flow presenting another SNI is treated as before. *)
Theorem deny_domains_block {ProtoError} (parse : string -> result ProtoError unit) p names p' :
  deny_domains parse p names = Ok p' ->
  (forall n d, n ∈ names -> domain_from_str parse n = Ok d ->
     forall dst protocol s now,
       evaluate_egress_with_source p' dst protocol s now (Sni (as_str d)) = EvalDeny
       /\ evaluate_egress_with_source p' dst protocol s now Deferred <> EvalAllow
       /\ (any_resolved_hostname s (sa_ip dst) now (fun h => bool_decide (h = as_str d)) = true ->
           evaluate_egress p' dst protocol s now = Deny)
       /\ forall pt, evaluate_dns_query p' d protocol pt = Deny)
  /\ forall name, (forall n d, n ∈ names -> domain_from_str parse n = Ok d -> as_str d <> name) ->
       forall dst protocol s now,
         evaluate_egress_with_source p' dst protocol s now (Sni name)
         = evaluate_egress_with_source p dst protocol s now (Sni name).
Proof.
  intros (ds & Hds & ->)%prepended_rules.
  set (mk := fun d => deny_egress (DestDomain d)).
  assert (forall r, r ∈ map mk ds -> action r = Deny) as Hdeny
    by (intros r (d & -> & _)%list_elem_of_fmap; done).
  split.
  - intros n d Hn Hd dst protocol s now.
    assert (d ∈ ds) as Hin.
    { apply list_elem_of_lookup in Hn as [i Hi].
      destruct (Forall2_lookup_l _ _ _ _ _ Hds Hi) as (d' & Hi' & Hd').
      rewrite Hd in Hd'. injection Hd' as <-. by eapply list_elem_of_lookup_2. }
    assert (mk d ∈ map mk ds) as Hmk by (by apply list_elem_of_fmap_2).
    split; [|split; [|split]].
    + unfold evaluate_egress_with_source. rewrite egress_walk_first_match by done. cbn [rules].
      rewrite first_match_app, (first_match_denies _ _ (mk d)); [done|done|done|].
      unfold mk. rewrite deny_domain_holds. by apply bool_decide_eq_true.
    + unfold evaluate_egress_with_source. rewrite egress_walk_allows. unfold egress_walk_outcome.
      cbn [rules]. destruct ds as [|d0 ds]; [by apply elem_of_nil in Hin|]. cbn.
      destruct (negb _); by intros [|[]].
    + intros Hres. unfold evaluate_egress.
      rewrite egress_walk_first_match, action_of_evaluation_of_action by done. cbn [rules].
      rewrite first_match_app. apply (first_match_denies _ _ (mk d)); [done|done|].
      unfold mk. by rewrite deny_domain_holds.
    + intros pt. unfold evaluate_dns_query. rewrite dns_first_match. cbn [rules].
      rewrite first_match_app. apply (first_match_denies _ _ (mk d)); [done|done|].
      cbn. by apply bool_decide_eq_true.
  - intros name Hname dst protocol s now. unfold evaluate_egress_with_source.
    rewrite !egress_walk_first_match by done. cbn [rules default_egress]. rewrite first_match_app.
    rewrite first_match_none; [done|]. intros r (d & -> & Hd)%list_elem_of_fmap.
    unfold mk. rewrite deny_domain_holds. apply bool_decide_eq_false. intros Heq.
    apply list_elem_of_lookup in Hd as [i Hi].
    destruct (Forall2_lookup_r _ _ _ _ _ Hds Hi) as (n & Hn & Hnd).
    by apply (Hname n d); [eapply list_elem_of_lookup_2|..].
Qed.

(** C4: no allow-by-name without DNS evidence: when a flow is admitted because
    of a domain rule, the guest's own DNS answers bound a name the rule accepts
    to the destination address, and a presented SNI is also accepted by the
    rule; such a flow is indeed admitted by the full evaluation. *)
Theorem hostname_allow_has_dns_evidence p dst protocol s now source :
  allows_egress_via_hostname p dst protocol s now source = true ->
  exists r, r ∈ rules p /\ action r = Allow /\ is_hostname_destination (destination r) = true
    /\ any_resolved_hostname s (sa_ip dst) now (dest_accepts (destination r)) = true
    /\ (forall name, source = Sni name -> dest_accepts (destination r) name = true)
    /\ evaluate_egress_with_source p dst protocol s now source = EvalAllow.
Proof.
  unfold allows_egress_via_hostname. rewrite via_hostname_rules.
  destruct (List.find _ (rules p)) as [r|] eqn:E; [|done]. intros [Ha Hd]%andb_true_iff.
  pose proof E as [Hin Hr]%List.find_some. destruct (action r) eqn:Hact; [|done].
  destruct (hostname_rule_evidence r _ _ _ _ _ _ Hd Hact Hr) as [He Hs].
  exists r. split; [by apply list_elem_of_In|]. do 4 (split; [done|]).
  unfold evaluate_egress_with_source. rewrite egress_walk_first_match.
  - unfold first_match. by rewrite E, Hact.
  - intros ->. unfold egress_holds in Hr. apply andb_true_iff in Hr as [_ Hm].
    rewrite hostname_match in Hm by done. unfold deferred_domain_match in Hm. by destruct (_ || _).
Qed.

(** a policy without domain rules decides on the address alone: its egress
    verdict is the same for every hostname source, every state of the cache and
    every instant, and is never deferred, so peeking at the SNI can be skipped. *)
Lemma domain_free_policy_ignores_names p dst protocol s now s' now' source source' :
  same_addressing s s' -> has_domain_rules p = false ->
  evaluate_egress_with_source p dst protocol s now source
  = evaluate_egress_with_source p dst protocol s' now' source'
  /\ evaluate_egress_with_source p dst protocol s now source <> DeferUntilHostname.
Proof.
  intros Hsame Hfree. unfold has_domain_rules in Hfree. rewrite domain_free_rules in Hfree.
  unfold evaluate_egress_with_source, egress_walk, egress_walk_outcome. split.
  - by rewrite (domain_free_walk _ _ _ _ _ s now s' now' source source').
  - rewrite (domain_free_walk _ _ _ _ _ s now s now source CacheOnly) by done.
    rewrite walk_first_match by done. destruct (List.find _ _) as [r|]; [by destruct (action r)|].
    by destruct (default_egress p).
Qed.

(** the "not on the allow list" test is exact: once the hostname source is
    settled it holds exactly when the egress default is [Deny] and no egress
    rule matches the flow; the flow is then denied, and by no explicit rule. *)
Lemma denied_by_default_exact p dst protocol s now source :
  source <> Deferred ->
  egress_denied_by_default p dst protocol s now source = true
  <-> default_egress p = Deny
      /\ forall r, r ∈ rules p ->
           egress_holds (sa_ip dst) (Some (sa_port dst)) protocol s now source r = false.
Proof.
  intros Hs. unfold egress_denied_by_default, egress_walk_outcome. rewrite walk_first_match by done.
  rewrite andb_true_iff. destruct (List.find _ (rules p)) as [r|] eqn:E.
  - split; [by intros [_ ?]|]. intros [_ Hall]. apply List.find_some in E as [Hin Hr].
    by rewrite Hall in Hr by (by apply list_elem_of_In).
  - destruct (default_egress p); [naive_solver|]. split; [|done]. intros _. split; [done|].
    intros r Hin%list_elem_of_In. by apply (List.find_none _ _ E).
Qed.

(** A DNS query whose name is not a valid domain name can still be admitted
    by a rule for the gateway group: the documentation of
    [evaluate_dns_query_without_name] says that only [Any] rules can match. *)
Lemma nameless_dns_matches_gateway_rule :
  existsb (fun r => match destination r with DestAny => true | _ => false end) (rules default_policy)
  = false
  /\ default_egress default_policy = Deny
  /\ evaluate_dns_query_without_name default_policy Udp 53 = Allow.
Proof. done. Qed.

End Policy.

(** ** Witnesses *)

Import CidrNetworks.
#[local] Open Scope string_scope.

Definition sample_state : SharedState :=
  let s := set_gateway_ips new_shared (Some (ipv4 100 64 0 1)) None in
  (cache_resolved_hostname s "api.example.com" Ipv4 [V4 (ipv4 93 184 216 34)] 60 0).1.

Definition web : SocketAddr := mkSocketAddr (V4 (ipv4 93 184 216 34)) 443.
Definition elsewhere : SocketAddr := mkSocketAddr (V4 (ipv4 8 8 4 4)) 443.

Definition sample_policy : NetworkPolicy :=
  mkPolicy Deny Allow
    [deny_egress (DestDomain (mkDomainName "evil.org"));
     allow_egress (DestDomainSuffix (mkDomainName "example.com"))].

Example sample_policy_verdicts :
  evaluate_egress_with_source sample_policy web Tcp sample_state 10 Deferred = DeferUntilHostname
  /\ evaluate_egress_with_source sample_policy web Tcp sample_state 10 (Sni "api.example.com") = EvalAllow
  /\ evaluate_egress_with_source sample_policy elsewhere Tcp sample_state 10 (Sni "api.example.com")
     = EvalDeny
  /\ evaluate_egress_with_source sample_policy web Tcp sample_state 60 (Sni "api.example.com") = EvalDeny.
Proof. vm_compute. done. Qed.

Lemma syn_deny_is_final_witness :
  evaluate_egress_with_source sample_policy elsewhere Tcp sample_state 10 Deferred = EvalDeny
  /\ evaluate_egress_with_source sample_policy elsewhere Tcp sample_state 10 (Sni "api.example.com")
     = EvalDeny.
Proof.
  split; [vm_compute; reflexivity|].
  apply (syn_deny_is_final sample_policy elsewhere Tcp sample_state 10 sample_state 10).
  - done.
  - intros P HP. exact HP.
  - discriminate.
  - vm_compute. reflexivity.
Defined.

Lemma syn_allow_is_final_witness :
  evaluate_egress_with_source default_policy web Tcp sample_state 10 Deferred = EvalAllow
  /\ evaluate_egress_with_source default_policy web Tcp
       (set_gateway_ips new_shared (Some (ipv4 100 64 0 1)) None) 90 (Sni "evil.org") = EvalAllow.
Proof.
  split; [vm_compute; reflexivity|].
  apply (syn_allow_is_final default_policy web Tcp sample_state 10).
  - vm_compute. done.
  - discriminate.
  - vm_compute. reflexivity.
Defined.

Lemma evaluators_first_match_witness :
  evaluate_egress_with_source sample_policy web Tcp sample_state 10 (Sni "api.example.com")
  = evaluation_of_action
      (first_match (egress_holds (sa_ip web) (Some 443) Tcp sample_state 10 (Sni "api.example.com"))
         (rules sample_policy) Deny).
Proof. apply (proj1 (evaluators_first_match sample_policy)). discriminate. Defined.

Lemma from_profiles_exact_witness :
  from_profiles [ProfileHost; ProfilePublic; ProfileHost] = from_profiles [ProfilePublic; ProfileHost].
Proof.
  apply (proj2 (from_profiles_exact [ProfileHost; ProfilePublic; ProfileHost])).
  intros pr. rewrite !elem_of_cons. tauto.
Defined.

Definition blocked_policy : NetworkPolicy :=
  mkPolicy Deny Allow (deny_egress (DestDomain (mkDomainName "api.example.com")) :: rules default_policy).

Lemma deny_domains_block_witness :
  deny_domains accept_all default_policy ["API.example.com."] = Ok blocked_policy
  /\ evaluate_egress_with_source blocked_policy web Tcp sample_state 10 (Sni "api.example.com") = EvalDeny.
Proof.
  split; [vm_compute; reflexivity|].
  apply (deny_domains_block accept_all default_policy ["API.example.com."] blocked_policy
           ltac:(vm_compute; reflexivity)) with (n := "API.example.com.")
           (d := mkDomainName "api.example.com").
  - apply elem_of_cons. by left.
  - vm_compute. reflexivity.
Defined.

Lemma hostname_allow_has_dns_evidence_witness :
  exists r, r ∈ rules sample_policy /\ action r = Allow
    /\ is_hostname_destination (destination r) = true
    /\ any_resolved_hostname sample_state (sa_ip web) 10 (dest_accepts (destination r)) = true
    /\ (forall name, Sni "api.example.com" = Sni name -> dest_accepts (destination r) name = true)
    /\ evaluate_egress_with_source sample_policy web Tcp sample_state 10 (Sni "api.example.com")
       = EvalAllow.
Proof. apply hostname_allow_has_dns_evidence. vm_compute. reflexivity. Defined.

Lemma domain_free_policy_ignores_names_witness :
  evaluate_egress_with_source default_policy web Tcp sample_state 10 Deferred
  = evaluate_egress_with_source default_policy web Tcp sample_state 99 (Sni "evil.org")
  /\ evaluate_egress_with_source default_policy web Tcp sample_state 10 Deferred <> DeferUntilHostname.
Proof. apply domain_free_policy_ignores_names; [done|vm_compute; reflexivity]. Defined.

Lemma denied_by_default_exact_witness :
  egress_denied_by_default sample_policy elsewhere Tcp sample_state 10 CacheOnly = true
  <-> default_egress sample_policy = Deny
      /\ forall r, r ∈ rules sample_policy ->
           egress_holds (sa_ip elsewhere) (Some 443) Tcp sample_state 10 CacheOnly r = false.
Proof. apply (denied_by_default_exact sample_policy elsewhere). discriminate. Defined.
