(* ===== verification/Chunked.v ===== *)
(** * Chunked request bodies

    The incremental parser of chunked transfer coding of
    [engine/secrets/handler.rs]: [process_chunked_body] consumes the bytes of
    one network read, keeps its state between reads, and hands size lines,
    payload slices, the final chunk and trailer lines to a callback.  The
    callback is an argument here, a function on the state it captures.

    The theorems relate the parser to the grammar of chunked bodies, whatever
    the reads, and to the chunks [append_chunk] writes. *)

From S2P Require Import Prelude Text.
From Stdlib Require Import Strings.Byte.

(** ** Definitions *)

(** [packages/microsandbox-types/rust/lib/domain.rs]. *)
Inductive SecretViolationAction := Block | BlockAndLog | BlockAndTerminate.

Definition MAX_HTTP_HEADER_BYTES : Z := 64 * 1024.

Inductive ChunkedPhase :=
| SizeLine
| Data (remaining : Z)
| DataCrlf (seen_cr : bool)
| TrailerLine.

Record ChunkedBodyState := mkChunked { phase : ChunkedPhase; line : list byte; decoded_tail : list byte }.

Definition chunked_default : ChunkedBodyState := mkChunked SizeLine [] [].

Inductive ChunkedBodyEvent :=
| EvSizeLine (l : list byte)
| EvPayload (p : list byte)
| EvZeroChunk
| EvTrailerLine (l : list byte).

Definition parse_chunk_size (l : list byte) : result SecretViolationAction Z :=
  let size := trim_ascii (take_until (byte_eqb ";"%byte) l) in
  if decide (size = []) then Err Block
  else if negb (utf8_valid size) then Err Block
  else ok_or (from_str_radix 64 16 size) Block.

Definition append_chunk (output payload : list byte) : list byte :=
  if decide (payload = []) then output
  else output ++ fmt_radix 16 (zlen payload) ++ crlf ++ payload ++ crlf.

Section process.
Context {S : Type} (on_event : ChunkedBodyEvent -> stE S SecretViolationAction ()).

(** The [while] loop, from the bytes left to read; every round consumes one of
    them, except the first one in the state [Data 0]. *)
Fixpoint chunked_loop (fuel : nat) (st : ChunkedBodyState) (cursor : nat) (data : list byte)
    : stE S SecretViolationAction (ChunkedBodyState * option nat) :=
  match fuel, data with
  | _, [] => st_ret (st, None)
  | O, _ => st_err Block
  | Datatypes.S fuel', b :: rest =>
      let tail := decoded_tail st in
      match phase st with
      | SizeLine =>
          let l := line st ++ [b] in
          if MAX_HTTP_HEADER_BYTES <? zlen l then st_err Block
          else match bytes_strip_suffix l crlf with
          | Some body =>
              let! size := st_lift (parse_chunk_size body) in
              let! _ := on_event (EvSizeLine l) in
              if size =? 0 then
                let! _ := on_event EvZeroChunk in
                chunked_loop fuel' (mkChunked TrailerLine [] tail) (cursor + 1) rest
              else chunked_loop fuel' (mkChunked (Data size) [] tail) (cursor + 1) rest
          | None => chunked_loop fuel' (mkChunked SizeLine l tail) (cursor + 1) rest
          end
      | Data remaining =>
          let n := Z.min remaining (zlen data) in
          let! _ := on_event (EvPayload (take (Z.to_nat n) data)) in
          let phase' := if remaining - n =? 0 then DataCrlf false else Data (remaining - n) in
          chunked_loop fuel' (mkChunked phase' (line st) tail) (cursor + Z.to_nat n) (drop (Z.to_nat n) data)
      | DataCrlf false =>
          if decide (b = cr) then chunked_loop fuel' (mkChunked (DataCrlf true) (line st) tail) (cursor + 1) rest
          else st_err Block
      | DataCrlf true =>
          if decide (b = lf) then chunked_loop fuel' (mkChunked SizeLine (line st) tail) (cursor + 1) rest
          else st_err Block
      | TrailerLine =>
          let l := line st ++ [b] in
          if MAX_HTTP_HEADER_BYTES <? zlen l then st_err Block
          else match bytes_strip_suffix l crlf with
          | Some _ =>
              let! _ := on_event (EvTrailerLine l) in
              if (length l =? 2)%nat then st_ret (mkChunked SizeLine [] tail, Some (cursor + 1)%nat)
              else chunked_loop fuel' (mkChunked TrailerLine [] tail) (cursor + 1) rest
          | None => chunked_loop fuel' (mkChunked TrailerLine l tail) (cursor + 1) rest
          end
      end
  end.

Definition process_chunked_body (st : ChunkedBodyState) (data : list byte)
    : stE S SecretViolationAction (ChunkedBodyState * option nat) :=
  chunked_loop (Datatypes.S (length data)) st 0 data.
End process.

(** The parser without a callback. *)
Definition consume_chunked_body (st : ChunkedBodyState) (data : list byte)
    : result SecretViolationAction (ChunkedBodyState * option nat) :=
  snd (process_chunked_body (fun _ => st_ret ()) st data ()).

(** A request body as the proxy meets it: read after read, with what follows
    the body, once it is complete. *)
Fixpoint process_reads {S} (on_event : ChunkedBodyEvent -> stE S SecretViolationAction ())
    (st : ChunkedBodyState) (reads : list (list byte)) : stE S SecretViolationAction (option (list byte)) :=
  match reads with
  | [] => st_ret None
  | data :: reads' =>
      let! (st', body_end) := process_chunked_body on_event st data in
      match body_end with
      | Some n => st_ret (Some (drop n data ++ mjoin reads'))
      | None => process_reads on_event st' reads'
      end
  end.

(** ** Reference: one byte at a time *)

Definition ref_byte (st : ChunkedBodyState) (b : byte)
    : result SecretViolationAction (list ChunkedBodyEvent * ChunkedBodyState * bool) :=
  let tail := decoded_tail st in
  match phase st with
  | SizeLine =>
      let l := line st ++ [b] in
      if MAX_HTTP_HEADER_BYTES <? zlen l then Err Block
      else match bytes_strip_suffix l crlf with
      | Some body =>
          let? size := parse_chunk_size body in
          if size =? 0 then Ok ([EvSizeLine l; EvZeroChunk], mkChunked TrailerLine [] tail, false)
          else Ok ([EvSizeLine l], mkChunked (Data size) [] tail, false)
      | None => Ok ([], mkChunked SizeLine l tail, false)
      end
  | Data r =>
      Ok ([EvPayload [b]], mkChunked (if r - 1 =? 0 then DataCrlf false else Data (r - 1)) (line st) tail, false)
  | DataCrlf false =>
      if decide (b = cr) then Ok ([], mkChunked (DataCrlf true) (line st) tail, false) else Err Block
  | DataCrlf true =>
      if decide (b = lf) then Ok ([], mkChunked SizeLine (line st) tail, false) else Err Block
  | TrailerLine =>
      let l := line st ++ [b] in
      if MAX_HTTP_HEADER_BYTES <? zlen l then Err Block
      else match bytes_strip_suffix l crlf with
      | Some _ =>
          if (length l =? 2)%nat then Ok ([EvTrailerLine l], mkChunked SizeLine [] tail, true)
          else Ok ([EvTrailerLine l], mkChunked TrailerLine [] tail, false)
      | None => Ok ([], mkChunked TrailerLine l tail, false)
      end
  end.

Definition shift_end (n : nat) (r : result SecretViolationAction (ChunkedBodyState * option nat)) :=
  match r with
  | Ok (st, body_end) => Ok (st, (fun m => (n + m)%nat) <$> body_end)
  | Err e => Err e
  end.

Fixpoint ref_run (st : ChunkedBodyState) (data : list byte)
    : list ChunkedBodyEvent * result SecretViolationAction (ChunkedBodyState * option nat) :=
  match data with
  | [] => ([], Ok (st, None))
  | b :: rest =>
      match ref_byte st b with
      | Err e => ([], Err e)
      | Ok (evs, st', true) => (evs, Ok (st', Some 1%nat))
      | Ok (evs, st', false) => let '(evs', r) := ref_run st' rest in (evs ++ evs', shift_end 1 r)
      end
  end.

(** Payload slices split into bytes. *)
Definition explode (evs : list ChunkedBodyEvent) : list ChunkedBodyEvent :=
  flat_map (fun ev => match ev with EvPayload p => map (fun b => EvPayload [b]) p | _ => [ev] end) evs.

Definition payload_of (evs : list ChunkedBodyEvent) : list byte :=
  flat_map (fun ev => match ev with EvPayload p => p | _ => [] end) evs.
Definition trailers_of (evs : list ChunkedBodyEvent) : list (list byte) :=
  flat_map (fun ev => match ev with EvTrailerLine l => [l] | _ => [] end) evs.

Fixpoint run_events {S} (on_event : ChunkedBodyEvent -> stE S SecretViolationAction ()) (evs : list ChunkedBodyEvent)
    : stE S SecretViolationAction () :=
  match evs with
  | [] => st_ret ()
  | ev :: evs' => let! _ := on_event ev in run_events on_event evs'
  end.

Definition chunked_wf (st : ChunkedBodyState) : Prop := match phase st with Data r => 0 < r | _ => True end.

(** ** The loop is the reference *)

Lemma shift_end_add n m r : shift_end n (shift_end m r) = shift_end (n + m) r.
Proof. destruct r as [[st [k|]]|]; simpl; [by rewrite Nat.add_assoc | done..]. Qed.

Lemma shift_end_0 r : shift_end 0 r = r.
Proof. by destruct r as [[st [k|]]|]. Qed.

Lemma explode_app evs evs' : explode (evs ++ evs') = explode evs ++ explode evs'.
Proof. apply flat_map_app. Qed.

Lemma explode_payload_of evs : payload_of (explode evs) = payload_of evs.
Proof.
  unfold payload_of, explode in *. induction evs as [|ev evs IH]; [done|]. cbn [flat_map]. rewrite flat_map_app, IH. f_equal.
  destruct ev as [|p| |]; simpl; try done. induction p; simpl; congruence.
Qed.

Lemma explode_trailers_of evs : trailers_of (explode evs) = trailers_of evs.
Proof.
  unfold trailers_of, explode in *. induction evs as [|ev evs IH]; [done|]. cbn [flat_map]. rewrite flat_map_app, IH. f_equal.
  destruct ev as [|p| |]; simpl; try done. induction p; simpl; congruence.
Qed.

Lemma run_events_app {S} (on_event : ChunkedBodyEvent -> stE S SecretViolationAction ()) evs evs' s :
  run_events on_event (evs ++ evs') s = (let! _ := run_events on_event evs in run_events on_event evs') s.
Proof.
  revert s. induction evs as [|ev evs IH]; intros s; [done|]. cbn [run_events app]. unfold st_bind in *.
  destruct (on_event ev s) as [s' [|]]; [apply IH | done].
Qed.

Lemma ref_run_app st a b :
  ref_run st (a ++ b) = match ref_run st a with
                        | (evs, Ok (st', None)) => let '(evs', r) := ref_run st' b in (evs ++ evs', shift_end (length a) r)
                        | done => done
                        end.
Proof.
  revert st. induction a as [|x a IH]; intros st; cbn [app ref_run length].
  - destruct (ref_run st b) as [evs r]. by rewrite shift_end_0.
  - destruct (ref_byte st x) as [[[evs st'] []]|]; [done| |done]. rewrite IH.
    destruct (ref_run st' a) as [evs1 [[st1 [n|]]|]]; simpl; [done| |done].
    destruct (ref_run st1 b) as [evs2 r]. by rewrite shift_end_add, app_assoc.
Qed.

Lemma ref_run_data r l tail p :
  zlen p <= r -> p <> [] ->
  ref_run (mkChunked (Data r) l tail) p
  = (map (fun b => EvPayload [b]) p,
     Ok (mkChunked (if r - zlen p =? 0 then DataCrlf false else Data (r - zlen p)) l tail, None)).
Proof.
  revert r. induction p as [|b p IH]; intros r Hle Hne; [done|]. cbn [ref_run ref_byte phase decoded_tail line map length] in *.
  destruct p as [|b' p].
  - cbn [ref_run length map]. reflexivity.
  - destruct (Z.eqb_spec (r - 1) 0); [cbn [length] in *; lia|]. rewrite IH by (done || lia).
    replace (r - 1 - zlen (b' :: p)) with (r - Z.of_nat (S (length (b' :: p)))) by lia. done.
Qed.

(** What one call of the loop does: the callback sees the events of the
    reference, with payload in slices, and the rest is the result. *)
Definition does_events (st : ChunkedBodyState) (data : list byte) (cursor fuel : nat) : Prop :=
  exists evs, explode evs = fst (ref_run st data) /\ Forall (fun ev => ev <> EvPayload []) evs
    /\ forall S (on_event : ChunkedBodyEvent -> stE S SecretViolationAction ()) s,
         chunked_loop on_event fuel st cursor data s
         = (let! _ := run_events on_event evs in st_lift (shift_end cursor (snd (ref_run st data)))) s.

Lemma does_events_step st b rest cursor fuel evs st' :
  ref_byte st b = Ok (evs, st', false) -> explode evs = evs -> Forall (fun ev => ev <> EvPayload []) evs ->
  (forall S (on_event : ChunkedBodyEvent -> stE S SecretViolationAction ()) s,
     chunked_loop on_event (Datatypes.S fuel) st cursor (b :: rest) s
     = (let! _ := run_events on_event evs in chunked_loop on_event fuel st' (cursor + 1) rest) s) ->
  does_events st' rest (cursor + 1) fuel -> does_events st (b :: rest) cursor (Datatypes.S fuel).
Proof.
  intros Hb Hev Hne Hloop (evs' & Hex & Hne' & Hrest). exists (evs ++ evs'). cbn [ref_run]. rewrite Hb.
  destruct (ref_run st' rest) as [evs2 r] eqn:Er. cbn [fst snd] in *.
  split; [by rewrite explode_app, Hev, Hex|]. split; [by apply Forall_app|].
  intros S on_event s. rewrite Hloop, shift_end_add. unfold st_bind at 1 2. rewrite run_events_app. unfold st_bind at 1.
  destruct (run_events on_event evs s) as [s' [[]|]]; [by rewrite Hrest | done].
Qed.

Lemma does_events_stop st b rest cursor fuel evs r :
  ref_run st (b :: rest) = (evs, r) -> explode evs = evs -> Forall (fun ev => ev <> EvPayload []) evs ->
  (forall S (on_event : ChunkedBodyEvent -> stE S SecretViolationAction ()) s,
     chunked_loop on_event (Datatypes.S fuel) st cursor (b :: rest) s
     = (let! _ := run_events on_event evs in st_lift (shift_end cursor r)) s) ->
  does_events st (b :: rest) cursor (Datatypes.S fuel).
Proof. intros Hr Hev Hne Hloop. exists evs. by rewrite Hr. Qed.

Ltac ref_tac := cbn [ref_run]; unfold ref_byte; cbn [phase line decoded_tail].

Ltac events_tac :=
  try done; repeat constructor; try discriminate;
  intros; unfold st_bind; cbn [run_events chunked_loop phase line decoded_tail];
  unfold st_bind, st_lift, st_ret, st_err;
  repeat match goal with
  | H : ?x = _ |- context [?x] => rewrite H
  end; try reflexivity; repeat (case_match; simplify_eq; try reflexivity).

Lemma parse_chunk_size_nonneg l size : parse_chunk_size l = Ok size -> 0 <= size.
Proof.
  unfold parse_chunk_size. case_decide; [done|]. destruct (negb _); [done|]. unfold ok_or.
  destruct (from_str_radix 64 16 _) as [z|] eqn:E; [|done]. intros [= <-]. by apply from_str_radix_nonneg in E.
Qed.

(** The rounds in the payload of a chunk take as many bytes as there are. *)
Lemma data_does_events r l tail b rest cursor fuel :
  0 < r ->
  (forall st data cursor', chunked_wf st -> (length data < S (length rest))%nat -> does_events st data cursor' fuel) ->
  does_events (mkChunked (Data r) l tail) (b :: rest) cursor (Datatypes.S fuel).
Proof.
  intros Hr IH. set (data := b :: rest). set (n := Z.min r (zlen data)).
  assert (Hn : 0 < n <= zlen data) by (unfold n, data; cbn [length]; lia).
  set (st' := mkChunked (if r - n =? 0 then DataCrlf false else Data (r - n)) l tail).
  destruct (IH st' (drop (Z.to_nat n) data) (cursor + Z.to_nat n)%nat) as (evs & Hex & Hne & Hloop).
  { unfold st', chunked_wf. cbn. destruct (Z.eqb_spec (r - n) 0); [done|]. cbn. lia. }
  { rewrite length_drop. unfold data in *. cbn [length] in *. lia. }
  assert (Hlen : zlen (take (Z.to_nat n) data) = n) by (rewrite length_take; lia).
  assert (Hrun : ref_run (mkChunked (Data r) l tail) data
    = (map (fun b => EvPayload [b]) (take (Z.to_nat n) data) ++ fst (ref_run st' (drop (Z.to_nat n) data)),
       shift_end (Z.to_nat n) (snd (ref_run st' (drop (Z.to_nat n) data))))).
  { rewrite <- (take_drop (Z.to_nat n) data) at 1. rewrite ref_run_app, ref_run_data.
    - rewrite Hlen. fold st'. destruct (ref_run st' _) as [evs' r']. cbn [fst snd]. do 2 f_equal. lia.
    - rewrite Hlen. lia.
    - intros E. rewrite E in Hlen. cbn in Hlen. lia. }
  exists (EvPayload (take (Z.to_nat n) data) :: evs). rewrite Hrun. cbn [fst snd]. split; [|split].
  - rewrite <- Hex. unfold explode. done.
  - constructor; [|done]. intros [= E]. rewrite E in Hlen. cbn in Hlen. lia.
  - intros S on_event s. cbn [chunked_loop phase line decoded_tail run_events]. fold data n st'. unfold st_bind in *. unfold data at 1. cbv beta iota.
    destruct (on_event _ s) as [s' [[]|]]; [|done]. rewrite Hloop, shift_end_add. done.
Qed.

Lemma loop_is_ref st data cursor fuel :
  chunked_wf st -> (length data < fuel)%nat -> does_events st data cursor fuel.
Proof.
  revert st data cursor. induction fuel as [|fuel IH]; intros st data cursor Hwf Hfuel; [lia|].
  destruct data as [|b rest]; [by exists []|]. cbn [length] in Hfuel.
  destruct st as [ph l tail]. destruct ph as [|r|[]|].
  - destruct (MAX_HTTP_HEADER_BYTES <? zlen (l ++ [b])) eqn:Hmax.
    { eapply does_events_stop; [ref_tac; rewrite Hmax; done|..]; events_tac. }
    destruct (bytes_strip_suffix (l ++ [b]) crlf) as [body|] eqn:Hs.
    2:{ eapply does_events_step; [ref_tac; rewrite Hmax, Hs; done|..|apply IH; [done|lia]]; events_tac. }
    destruct (parse_chunk_size body) as [size|e] eqn:Hp.
    2:{ eapply does_events_stop; [ref_tac; rewrite Hmax, Hs, Hp; done|..]; events_tac. }
    assert (0 <= size) by (eapply parse_chunk_size_nonneg; done).
    destruct (Z.eqb_spec size 0) as [->|Hsize].
    + eapply does_events_step; [ref_tac; rewrite Hmax, Hs, Hp; done|..|apply IH; [done|lia]]; events_tac.
    + apply Z.eqb_neq in Hsize as Hsize'.
      eapply does_events_step; [ref_tac; rewrite Hmax, Hs, Hp, Hsize'; done|..|apply IH; [cbn; lia|lia]]; events_tac.
  - unfold chunked_wf in Hwf. cbn in Hwf. apply data_does_events; [done|]. intros. apply IH; [done|lia].
  - destruct (decide (b = lf)) as [->|Hne].
    + eapply does_events_step; [ref_tac; by rewrite decide_True|..|apply IH; [done|lia]]; events_tac.
    + eapply does_events_stop; [ref_tac; by rewrite decide_False|..]; events_tac.
  - destruct (decide (b = cr)) as [->|Hne].
    + eapply does_events_step; [ref_tac; by rewrite decide_True|..|apply IH; [done|lia]]; events_tac.
    + eapply does_events_stop; [ref_tac; by rewrite decide_False|..]; events_tac.
  - destruct (MAX_HTTP_HEADER_BYTES <? zlen (l ++ [b])) eqn:Hmax.
    { eapply does_events_stop; [ref_tac; rewrite Hmax; done|..]; events_tac. }
    destruct (bytes_strip_suffix (l ++ [b]) crlf) as [body|] eqn:Hs.
    2:{ eapply does_events_step; [ref_tac; rewrite Hmax, Hs; done|..|apply IH; [done|lia]]; events_tac. }
    destruct (length (l ++ [b]) =? 2)%nat eqn:Hl.
    + eapply does_events_stop; [ref_tac; rewrite Hmax, Hs, Hl; done|..]; events_tac.
    + eapply does_events_step; [ref_tac; rewrite Hmax, Hs, Hl; done|..|apply IH; [done|lia]]; events_tac.
Qed.

Lemma process_is_ref st data :
  chunked_wf st ->
  exists evs, explode evs = fst (ref_run st data) /\ Forall (fun ev => ev <> EvPayload []) evs
    /\ forall S (on_event : ChunkedBodyEvent -> stE S SecretViolationAction ()) s,
         process_chunked_body on_event st data s
         = (let! _ := run_events on_event evs in st_lift (snd (ref_run st data))) s.
Proof.
  intros Hwf. destruct (loop_is_ref st data 0 (S (length data)) Hwf) as (evs & Hex & Hne & Hloop); [lia|].
  exists evs. rewrite shift_end_0 in Hloop. done.
Qed.

Lemma ref_byte_wf st b evs st' stop : ref_byte st b = Ok (evs, st', stop) -> chunked_wf st -> chunked_wf st'.
Proof.
  unfold ref_byte, chunked_wf. destruct st as [[|r|[]|] l tail]; cbn [phase line decoded_tail].
  - destruct (_ <? _); [done|]. destruct (bytes_strip_suffix _ _) as [body|]; [|by intros [= <- <- <-]].
    destruct (parse_chunk_size body) as [size|] eqn:Hp; [|done]. apply parse_chunk_size_nonneg in Hp.
    destruct (Z.eqb_spec size 0); intros [= <- <- <-]; cbn; [done|lia].
  - intros [= <- <- <-] Hr. cbn. destruct (Z.eqb_spec (r - 1) 0); [done|lia].
  - case_decide; [|done]. by intros [= <- <- <-].
  - case_decide; [|done]. by intros [= <- <- <-].
  - destruct (_ <? _); [done|]. destruct (bytes_strip_suffix _ _) as [body|]; [|by intros [= <- <- <-]].
    destruct (_ =? _)%nat; by intros [= <- <- <-].
Qed.

Lemma ref_run_wf st data evs st' n : ref_run st data = (evs, Ok (st', n)) -> chunked_wf st -> chunked_wf st'.
Proof.
  revert st evs n. induction data as [|b data IH]; intros st evs n; cbn [ref_run]; [by intros [= <- <- <-]|].
  destruct (ref_byte st b) as [[[evs1 st1] []]|] eqn:Hb; [| |done].
  - intros [= <- <- <-]. by eapply ref_byte_wf.
  - destruct (ref_run st1 data) as [evs2 [[st2 m]|]] eqn:Hr; [|done]. intros [= <- <- <-] Hwf.
    eapply IH; [done|]. by eapply ref_byte_wf.
Qed.

(** ** The grammar *)

(** A line with its line end, which is the first one in it. *)
Definition complete_line (l : list byte) : Prop :=
  exists body, l = body ++ crlf /\ (forall a c, body ++ [cr] <> a ++ crlf ++ c) /\ zlen l <= MAX_HTTP_HEADER_BYTES.

(** [enc] is a chunked body with payload [p] and trailer lines [t], the empty
    line included. *)
Inductive chunked_trailers : list byte -> list (list byte) -> Prop :=
| trailers_end : chunked_trailers crlf [crlf]
| trailers_line l enc t :
    complete_line l -> l <> crlf -> chunked_trailers enc t -> chunked_trailers (l ++ enc) (l :: t).

Inductive chunked_body : list byte -> list byte -> list (list byte) -> Prop :=
| body_last l enc t :
    complete_line (l ++ crlf) -> parse_chunk_size l = Ok 0 -> chunked_trailers enc t ->
    chunked_body (l ++ crlf ++ enc) [] t
| body_chunk l c enc p t :
    complete_line (l ++ crlf) -> parse_chunk_size l = Ok (zlen c) -> c <> [] -> chunked_body enc p t ->
    chunked_body (l ++ crlf ++ c ++ crlf ++ enc) (c ++ p) t.

Lemma complete_line_iff acc : complete_line (acc ++ crlf) <-> no_break (acc ++ [cr]) /\ zlen (acc ++ crlf) <= MAX_HTTP_HEADER_BYTES.
Proof.
  split.
  - intros (body & E & Hn & Hl). apply app_inv_tail in E as ->. done.
  - intros [Hn Hl]. by exists acc.
Qed.

Lemma ref_run_step st b rest evs st' evs' st'' n :
  ref_byte st b = Ok (evs, st', false) -> ref_run st' rest = (evs', Ok (st'', Some n)) ->
  ref_run st (b :: rest) = (evs ++ evs', Ok (st'', Some (S n))).
Proof. intros Hb Hr. cbn [ref_run]. by rewrite Hb, Hr. Qed.

Lemma ref_run_chain st a b evs st' evs' st'' n :
  ref_run st a = (evs, Ok (st', None)) -> ref_run st' b = (evs', Ok (st'', Some n)) ->
  ref_run st (a ++ b) = (evs ++ evs', Ok (st'', Some (length a + n)%nat)).
Proof. intros Ha Hb. by rewrite ref_run_app, Ha, Hb. Qed.

Lemma line_prefix_run ph acc l tail :
  ph = SizeLine \/ ph = TrailerLine -> no_break (acc ++ l) -> zlen (acc ++ l) <= MAX_HTTP_HEADER_BYTES ->
  ref_run (mkChunked ph acc tail) l = ([], Ok (mkChunked ph (acc ++ l) tail, None)).
Proof.
  intros Hph. revert acc. induction l as [|b l IH]; intros acc Hn Hmax; [by rewrite app_nil_r|].
  rewrite (cons_middle b acc l) in *. rewrite app_assoc in Hn, Hmax. ref_tac.
  assert (Hs : bytes_strip_suffix (acc ++ [b]) crlf = None) by (by eapply no_break_strip, no_break_prefix).
  assert (Hm : (MAX_HTTP_HEADER_BYTES <? zlen (acc ++ [b])) = false) by (apply Z.ltb_ge; len).
  destruct Hph as [-> | ->]; rewrite Hm, Hs, (IH _ Hn Hmax); cbn; by rewrite <- app_assoc.
Qed.

(** A line read byte by byte, up to its last byte. *)
Lemma line_run ph l tail :
  ph = SizeLine \/ ph = TrailerLine -> complete_line (l ++ crlf) ->
  ref_run (mkChunked ph [] tail) (l ++ [cr]) = ([], Ok (mkChunked ph (l ++ [cr]) tail, None))
  /\ (MAX_HTTP_HEADER_BYTES <? zlen ((l ++ [cr]) ++ [lf])) = false
  /\ bytes_strip_suffix ((l ++ [cr]) ++ [lf]) crlf = Some l.
Proof.
  intros Hph [Hn Hmax]%complete_line_iff. split; [|split].
  - apply (line_prefix_run ph []); [done | done | len].
  - apply Z.ltb_ge. len.
  - apply bytes_strip_suffix_Some. by rewrite <- app_assoc.
Qed.

Lemma size_line_run l tail size rest evs st n :
  complete_line (l ++ crlf) -> parse_chunk_size l = Ok size ->
  ref_run (mkChunked (if size =? 0 then TrailerLine else Data size) [] tail) rest = (evs, Ok (st, Some n)) ->
  ref_run (mkChunked SizeLine [] tail) (l ++ crlf ++ rest)
  = ((EvSizeLine (l ++ crlf) :: if size =? 0 then [EvZeroChunk] else []) ++ evs, Ok (st, Some (length l + 2 + n)%nat)).
Proof.
  intros Hl Hp Hr. destruct (line_run SizeLine l tail) as (Hrun & Hm & Hs); [by left | done |].
  replace (l ++ crlf ++ rest) with ((l ++ [cr]) ++ lf :: rest) by (by rewrite <- app_assoc).
  replace (l ++ crlf) with ((l ++ [cr]) ++ [lf]) by (by rewrite <- app_assoc).
  replace (length l + 2 + n)%nat with (length (l ++ [cr]) + S n)%nat by len.
  apply (ref_run_chain _ _ _ [] _ _ _ (S n) Hrun).
  destruct (size =? 0) eqn:Hz.
  - eapply (ref_run_step _ _ _ [_; _]); [|done]. ref_tac. by rewrite Hm, Hs, Hp, Hz.
  - eapply (ref_run_step _ _ _ [_]); [|done]. ref_tac. by rewrite Hm, Hs, Hp, Hz.
Qed.

Lemma trailers_run enc t :
  chunked_trailers enc t -> forall tail rest, exists evs,
    ref_run (mkChunked TrailerLine [] tail) (enc ++ rest) = (evs, Ok (mkChunked SizeLine [] tail, Some (length enc)))
    /\ evs = map EvTrailerLine t.
Proof.
  induction 1 as [|l enc t Hl Hne _ IH]; intros tail rest; [by exists [EvTrailerLine crlf]|].
  destruct (IH tail rest) as (evs & Hr & ->). pose proof Hl as (body & -> & _).
  destruct (line_run TrailerLine body tail) as (Hrun & Hm & Hs); [by right | done |].
  exists (map EvTrailerLine ((body ++ crlf) :: t)). split; [|done]. cbn [map].
  replace ((body ++ crlf) ++ enc) with ((body ++ [cr]) ++ lf :: enc) by (by rewrite <- !app_assoc).
  rewrite <- app_assoc, <- app_comm_cons.
  replace (length (_ ++ lf :: enc)) with (length (body ++ [cr]) + S (length enc))%nat by len.
  apply (ref_run_chain _ _ _ [] _ _ _ (S (length enc)) Hrun).
  eapply (ref_run_step _ _ _ [EvTrailerLine (body ++ crlf)]); [|done]. ref_tac. rewrite Hm, Hs.
  rewrite <- app_assoc. cbn [app]. rewrite (proj2 (Nat.eqb_neq _ 2)); [done|].
  intros Hlen. destruct body; [done | len].
Qed.

Lemma data_run c tail rest evs st n :
  c <> [] -> ref_run (mkChunked SizeLine [] tail) rest = (evs, Ok (st, Some n)) ->
  ref_run (mkChunked (Data (zlen c)) [] tail) (c ++ crlf ++ rest)
  = (map (fun b => EvPayload [b]) c ++ evs, Ok (st, Some (length c + (2 + n))%nat)).
Proof.
  intros Hc Hr. eapply ref_run_chain; [by apply ref_run_data|]. rewrite Z.sub_diag.
  eapply (ref_run_step _ _ _ []); [done|]. by eapply (ref_run_step _ _ _ []).
Qed.

Lemma payload_of_map c evs : payload_of (map (fun b => EvPayload [b]) c ++ evs) = c ++ payload_of evs.
Proof. induction c; simpl; [done | f_equal; done]. Qed.
Lemma trailers_of_map c evs : trailers_of (map (fun b => EvPayload [b]) c ++ evs) = trailers_of evs.
Proof. by induction c. Qed.

(** The events of a body: sizes and payload, the last chunk, the trailers. *)
Definition before_last (ev : ChunkedBodyEvent) : Prop := match ev with EvSizeLine _ | EvPayload _ => True | _ => False end.
Definition body_events (evs : list ChunkedBodyEvent) (p : list byte) (t : list (list byte)) : Prop :=
  exists pre, evs = pre ++ EvZeroChunk :: map EvTrailerLine t /\ Forall before_last pre /\ payload_of pre = p.

Lemma body_events_payload evs p t : body_events evs p t -> payload_of evs = p /\ trailers_of evs = t.
Proof.
  intros (pre & -> & Hpre & <-). unfold payload_of, trailers_of. rewrite !flat_map_app. cbn [flat_map app]. split.
  - rewrite <- (app_nil_r (flat_map _ pre)) at 2. f_equal. by induction t.
  - assert (flat_map (fun ev => match ev with EvTrailerLine l => [l] | _ => [] end) pre = []) as ->.
    { induction Hpre as [|[] pre Hev _ IH]; [done | done | done | done | done]. }
    cbn. induction t as [|l t IH]; [done|]. cbn. by rewrite IH.
Qed.

Lemma body_run enc p t :
  chunked_body enc p t -> forall tail rest, exists evs,
    ref_run (mkChunked SizeLine [] tail) (enc ++ rest) = (evs, Ok (mkChunked SizeLine [] tail, Some (length enc)))
    /\ body_events evs p t.
Proof.
  induction 1 as [l enc t Hl Hp Ht|l c enc p t Hl Hp Hc _ IH]; intros tail rest.
  - destruct (trailers_run _ _ Ht tail rest) as (evs & Hr & ->).
    eexists. rewrite <- !app_assoc, (size_line_run _ _ 0 _ _ _ _ Hl Hp Hr). split; [do 4 f_equal; len|].
    exists [EvSizeLine (l ++ crlf)]. by repeat constructor.
  - destruct (IH tail rest) as (evs & Hr & (pre & -> & Hpre & Hpay)). pose proof (data_run c tail _ _ _ _ Hc Hr) as Hd.
    assert ((zlen c =? 0) = false) as Hz by (apply Z.eqb_neq; destruct c; [done|cbn; lia]).
    eexists. rewrite <- !app_assoc. erewrite (size_line_run _ _ (zlen c)); [|done..|by rewrite Hz]. rewrite Hz.
    split; [do 4 f_equal; len|]. exists (EvSizeLine (l ++ crlf) :: map (fun b => EvPayload [b]) c ++ pre).
    split; [cbn [app]; by rewrite <- app_assoc|]. split; [|cbn; by rewrite payload_of_map, Hpay].
    constructor; [done|]. apply Forall_app. split; [|done]. apply Forall_map, Forall_true. done.
Qed.

Lemma body_events_explode evs p t :
  Forall (fun ev => ev <> EvPayload []) evs -> body_events (explode evs) p t -> body_events evs p t.
Proof.
  intros Hne (pre & E & Hpre & <-). enough (exists pre', evs = pre' ++ EvZeroChunk :: map EvTrailerLine t /\ explode pre' = pre) as (pre' & -> & <-).
  { exists pre'. split; [done|]. rewrite explode_payload_of. split; [|done]. clear -Hpre. unfold explode in Hpre.
    induction pre' as [|ev pre' IH]; [done|]. cbn [flat_map] in Hpre. apply Forall_app in Hpre as [H1 H2].
    constructor; [|by apply IH]. destruct ev; [done | done | by inversion H1 | by inversion H1]. }
  revert pre Hpre E. induction Hne as [|ev evs Hev Hne IH]; intros pre Hpre E; [by destruct pre|].
  change (explode (ev :: evs)) with (match ev with EvPayload p => map (fun b => EvPayload [b]) p | _ => [ev] end ++ explode evs) in E.
  destruct ev as [l|q| |l].
  - destruct pre as [|? pre]; [done|]. injection E as <- E. apply Forall_cons in Hpre as [_ Hpre].
    destruct (IH pre Hpre E) as (pre' & -> & <-). by exists (EvSizeLine l :: pre').
  - assert (exists pre2, pre = map (fun b => EvPayload [b]) q ++ pre2 /\ explode evs = pre2 ++ EvZeroChunk :: map EvTrailerLine t) as (pre2 & -> & E2).
    { clear -E. revert pre E. induction q as [|b q IHq]; intros pre E; [by exists pre|]. destruct pre as [|? pre]; [done|].
      injection E as <- E. destruct (IHq pre E) as (pre2 & -> & ?). by exists pre2. }
    apply Forall_app in Hpre as [_ Hpre]. destruct (IH pre2 Hpre E2) as (pre' & -> & <-). by exists (EvPayload q :: pre').
  - destruct pre as [|? pre]; [|injection E as <- E; by inversion Hpre]. injection E as E. exists []. split; [|done]. cbn. f_equal.
    clear -E Hne. revert t E. induction Hne as [|ev evs Hev Hne IH]; intros t E; [by destruct t|].
    destruct ev as [l|[|b q]| |l]; [by destruct t | done | by destruct t | by destruct t |].
    destruct t as [|l' t]; [done|]. injection E as <- E. cbn. f_equal. by apply IH.
  - destruct pre as [|? pre]; [done|]. injection E as <- E. by inversion Hpre.
Qed.

Lemma ref_run_cons_inv st b rest evs st' n :
  ref_run st (b :: rest) = (evs, Ok (st', Some n)) ->
  exists evs1 st1, (ref_byte st b = Ok (evs1, st', true) /\ evs = evs1 /\ n = 1%nat)
    \/ exists evs2 n', ref_byte st b = Ok (evs1, st1, false) /\ ref_run st1 rest = (evs2, Ok (st', Some n'))
                       /\ evs = evs1 ++ evs2 /\ n = S n'.
Proof.
  cbn [ref_run]. destruct (ref_byte st b) as [[[evs1 st1] []]|] eqn:Hb; [| |done].
  - intros [= <- <- <-]. exists evs1, st1. by left.
  - destruct (ref_run st1 rest) as [evs2 [[st2 [n'|]]|]] eqn:Hr; intros [=]. subst. exists evs1, st1. right. by exists evs2, n'.
Qed.

(** The end of a line: where the parser sees it, the line is complete. *)
Lemma line_end acc b body :
  no_break acc -> zlen (acc ++ [b]) <= MAX_HTTP_HEADER_BYTES -> bytes_strip_suffix (acc ++ [b]) crlf = Some body ->
  acc = body ++ [cr] /\ b = lf /\ acc ++ [b] = body ++ crlf /\ complete_line (body ++ crlf).
Proof.
  intros Hn Hm Hs%bytes_strip_suffix_Some. pose proof Hs as Hs'. rewrite Hs in Hm.
  replace (body ++ crlf) with ((body ++ [cr]) ++ [lf]) in Hs' by (by rewrite <- app_assoc).
  apply app_inj_tail in Hs' as [-> ->]. split_and!; [done.. | by apply complete_line_iff].
Qed.

Lemma size_line_split acc tail data evs st n :
  no_break acc -> ref_run (mkChunked SizeLine acc tail) data = (evs, Ok (st, Some n)) ->
  exists l rest size evs' n',
    acc ++ data = l ++ crlf ++ rest /\ complete_line (l ++ crlf) /\ parse_chunk_size l = Ok size
    /\ ref_run (mkChunked (if size =? 0 then TrailerLine else Data size) [] tail) rest = (evs', Ok (st, Some n'))
    /\ payload_of evs = payload_of evs' /\ trailers_of evs = trailers_of evs'
    /\ (length acc + n = length l + 2 + n')%nat.
Proof.
  revert acc evs n. induction data as [|b data IH]; intros acc evs n Hn; [done|].
  intros (evs1 & st1 & H)%ref_run_cons_inv. revert H. ref_tac.
  destruct (Z.ltb_spec MAX_HTTP_HEADER_BYTES (zlen (acc ++ [b]))); [naive_solver|].
  destruct (bytes_strip_suffix (acc ++ [b]) crlf) as [body|] eqn:Hs.
  - destruct (parse_chunk_size body) as [size|] eqn:Hp; [|naive_solver].
    intros [(? & _)|(evs2 & n' & Hb & Hr & -> & ->)]; [by destruct (size =? 0)|].
    destruct (line_end acc b body) as (Hacc & -> & Hcat & Hl); [done..|].
    exists body, data, size, evs2, n'. split_and!; [by rewrite Hacc, <- !app_assoc | done | done |..].
    + destruct (size =? 0); by simplify_eq.
    + by destruct (size =? 0); simplify_eq.
    + by destruct (size =? 0); simplify_eq.
    + rewrite Hacc. len.
  - intros [(? & _)|(evs2 & n' & Hb & Hr & -> & ->)]; [done|]. simplify_eq.
    destruct (IH (acc ++ [b]) evs2 n') as (l & rest & size & evs' & m & Hcat & ?); [by apply no_break_snoc | done |].
    exists l, rest, size, evs', m. rewrite <- Hcat, <- app_assoc. split; [done|]. len. naive_solver lia.
Qed.

Lemma trailer_split acc tail data evs st n :
  no_break acc -> ref_run (mkChunked TrailerLine acc tail) data = (evs, Ok (st, Some n)) ->
  exists l rest, acc ++ data = l ++ crlf ++ rest /\ complete_line (l ++ crlf)
    /\ ((l = [] /\ evs = [EvTrailerLine crlf] /\ (length acc + n = 2)%nat)
        \/ exists evs' n', l <> [] /\ evs = EvTrailerLine (l ++ crlf) :: evs'
             /\ ref_run (mkChunked TrailerLine [] tail) rest = (evs', Ok (st, Some n')) /\ (length acc + n = length l + 2 + n')%nat).
Proof.
  revert acc evs n. induction data as [|b data IH]; intros acc evs n Hn; [done|].
  intros (evs1 & st1 & H)%ref_run_cons_inv. revert H. ref_tac.
  destruct (Z.ltb_spec MAX_HTTP_HEADER_BYTES (zlen (acc ++ [b]))); [naive_solver|].
  destruct (bytes_strip_suffix (acc ++ [b]) crlf) as [body|] eqn:Hs.
  - destruct (line_end acc b body) as (Hacc & -> & Hcat & Hl); [done..|].
    rewrite Hcat. destruct (Nat.eqb_spec (length (body ++ crlf)) 2) as [H2|H2].
    + assert (body = []) as -> by (destruct body; [done | len]).
      intros [(? & -> & ->)|(? & ? & ? & _)]; [|done]. simplify_eq. exists [], data. split; [done|]. split; [done|]. by left.
    + intros [(? & _)|(evs2 & n' & Hb & Hr & -> & ->)]; [done|]. simplify_eq.
      exists body, data. split; [by rewrite <- !app_assoc|]. split; [done|]. right. exists evs2, n'.
      split_and!; [by intros ->| done | done | len].
  - intros [(? & _)|(evs2 & n' & Hb & Hr & -> & ->)]; [done|]. simplify_eq.
    destruct (IH (acc ++ [b]) evs2 n') as (l & rest & Hcat & Hl & Hor); [by apply no_break_snoc | done |].
    exists l, rest. rewrite <- Hcat, <- app_assoc. split; [done|]. split; [done|]. rewrite length_app in Hor. cbn [length] in Hor.
    destruct Hor as [(-> & -> & ?)|(evs' & m & ? & -> & ? & ?)]; [left|right; exists evs', m]; split_and!; done || lia.
Qed.

Lemma data_split r tail data evs st n :
  0 < r -> ref_run (mkChunked (Data r) [] tail) data = (evs, Ok (st, Some n)) ->
  exists c rest evs' n', data = c ++ crlf ++ rest /\ zlen c = r
    /\ evs = map (fun b => EvPayload [b]) c ++ evs' /\ (n = length c + 2 + n')%nat
    /\ ref_run (mkChunked SizeLine [] tail) rest = (evs', Ok (st, Some n')).
Proof.
  revert r evs n. induction data as [|b data IH]; intros r evs n Hr; [done|].
  intros (evs1 & st1 & [(? & _)|(evs2 & n1 & [= <- <-] & H & -> & ->)])%ref_run_cons_inv; [done|].
  destruct (Z.eqb_spec (r - 1) 0).
  - destruct data as [|b1 data]; [done|]. apply ref_run_cons_inv in H as (evs3 & st3 & [(H & _)|(evs4 & n3 & H & Hr3 & -> & ->)]).
    all: revert H; ref_tac; case_decide; [|done]; intros [=]. simplify_eq.
    destruct data as [|b2 data]; [done|]. apply ref_run_cons_inv in Hr3 as (evs5 & st5 & [(H & _)|(evs6 & n5 & H & Hr5 & -> & ->)]).
    all: revert H; ref_tac; case_decide; [|done]; intros [=]. simplify_eq.
    exists [b], data, evs6, n5. split_and!; [done | cbn; lia | done | done | done].
  - destruct (IH (r - 1) evs2 n1) as (c & rest & evs' & m & -> & Hc & -> & -> & Hrest); [lia | done |].
    exists (b :: c), rest, evs', m. split_and!; [done | cbn [length]; lia | done | done | done].
Qed.

Lemma trailers_sound tail data evs st n :
  ref_run (mkChunked TrailerLine [] tail) data = (evs, Ok (st, Some n)) ->
  exists enc rest, data = enc ++ rest /\ length enc = n /\ chunked_trailers enc (trailers_of evs) /\ payload_of evs = [].
Proof.
  remember (length data) as m eqn:Hm. revert data evs n Hm.
  induction (lt_wf m) as [m _ IH]; intros data evs n -> H.
  destruct (trailer_split [] tail data evs st n no_break_nil H) as (l & rest & Hcat & Hl & [(-> & -> & Hn)|(evs' & n' & Hne & -> & Hr & Hn)]);
    cbn [app length] in *; subst data.
  - exists crlf, rest. split_and!; [done | cbn in *; lia | constructor | done].
  - destruct (IH (length rest)) with (data := rest) (evs := evs') (n := n') as (enc & rest' & -> & <- & Ht & Hp); [len | done | done |].
    exists ((l ++ crlf) ++ enc), rest'. split_and!; [by rewrite <- !app_assoc | len | | done].
    constructor; [done | by destruct l as [|? [|? []]] | done].
Qed.

Lemma body_sound tail data evs st n :
  ref_run (mkChunked SizeLine [] tail) data = (evs, Ok (st, Some n)) ->
  exists enc rest, data = enc ++ rest /\ length enc = n /\ chunked_body enc (payload_of evs) (trailers_of evs).
Proof.
  remember (length data) as m eqn:Hm. revert data evs n Hm.
  induction (lt_wf m) as [m _ IH]; intros data evs n -> H.
  destruct (size_line_split [] tail data evs st n no_break_nil H)
    as (l & rest & size & evs' & n' & Hcat & Hl & Hp & Hr & -> & -> & Hn); cbn [app length] in *; subst data.
  destruct (Z.eqb_spec size 0) as [->|Hs].
  - destruct (trailers_sound _ _ _ _ _ Hr) as (enc & rest' & -> & <- & Ht & ->).
    exists (l ++ crlf ++ enc), rest'. split_and!; [by rewrite <- !app_assoc | len | by constructor].
  - pose proof (parse_chunk_size_nonneg _ _ Hp).
    destruct (data_split size tail rest evs' st n') as (c & rest' & evs2 & n2 & -> & <- & -> & -> & Hr2); [lia | done |].
    destruct (IH (length rest')) with (data := rest') (evs := evs2) (n := n2) as (enc & rest2 & -> & <- & Hb); [len | done | done |].
    exists (l ++ crlf ++ c ++ crlf ++ enc), rest2. rewrite payload_of_map, trailers_of_map.
    split_and!; [by rewrite <- !app_assoc | len | constructor; [done | done | by intros -> | done]].
Qed.

(** ** Reads *)

Definition collect_event (ev : ChunkedBodyEvent) : stE (list ChunkedBodyEvent) SecretViolationAction () :=
  st_put (fun evs => evs ++ [ev]).

Lemma run_collect evs acc : run_events collect_event evs acc = (acc ++ evs, Ok ()).
Proof.
  revert acc. induction evs as [|ev evs IH]; intros acc; cbn [run_events]; [by rewrite app_nil_r|].
  unfold st_bind, collect_event, st_put. rewrite IH. by rewrite <- app_assoc.
Qed.

(** Reading a stream in pieces is reading it at once. *)
Definition ref_reads (st : ChunkedBodyState) (data : list byte) : list ChunkedBodyEvent * result SecretViolationAction (option (list byte)) :=
  let '(evs, r) := ref_run st data in
  (evs, match r with Ok (_, Some n) => Ok (Some (drop n data)) | Ok (_, None) => Ok None | Err e => Err e end).

Lemma ref_run_end st data evs st' n : ref_run st data = (evs, Ok (st', Some n)) -> (n <= length data)%nat.
Proof.
  revert st evs n. induction data as [|b data IH]; intros st evs n; [done|].
  intros (evs1 & st1 & [(_ & _ & ->)|(evs2 & m & _ & H & _ & ->)])%ref_run_cons_inv; cbn [length]; [lia|].
  apply IH in H. lia.
Qed.

Lemma reads_ref st reads :
  chunked_wf st ->
  exists evs, explode evs = fst (ref_reads st (mjoin reads)) /\ Forall (fun ev => ev <> EvPayload []) evs
    /\ forall S (on_event : ChunkedBodyEvent -> stE S SecretViolationAction ()) s,
         process_reads on_event st reads s
         = (let! _ := run_events on_event evs in st_lift (snd (ref_reads st (mjoin reads)))) s.
Proof.
  revert st. induction reads as [|data reads IH]; intros st Hwf; [by exists []|].
  destruct (process_is_ref st data Hwf) as (evs & Hex & Hne & Hproc). unfold ref_reads in *. cbn [mjoin list_join].
  fold (mjoin reads). rewrite ref_run_app. destruct (ref_run st data) as [revs [[st' [n|]]|]] eqn:Hr; cbn [fst snd] in *.
  - exists evs. apply ref_run_end in Hr as Hle. split_and!; [done..|]. intros S on_event s. cbn [process_reads].
    unfold st_bind at 1. rewrite Hproc. unfold st_bind. rewrite drop_app_le by done.
    by destruct (run_events on_event evs s) as [s' [[]|]].
  - apply ref_run_wf in Hr as Hwf'; [|done]. destruct (IH st' Hwf') as (evs' & Hex' & Hne' & Hproc').
    exists (evs ++ evs'). destruct (ref_run st' (mjoin reads)) as [revs' r'] eqn:Hr'. cbn [fst snd] in *.
    split; [by rewrite explode_app, Hex, Hex'|]. split; [by apply Forall_app|].
    intros S on_event s. cbn [process_reads]. unfold st_bind at 1. rewrite Hproc. unfold st_bind. rewrite run_events_app.
    unfold st_bind. destruct (run_events on_event evs s) as [s' [[]|]]; [|done]. cbn [st_lift]. unfold st_lift at 1.
    rewrite Hproc'. unfold st_bind. destruct (run_events on_event evs' s') as [s'' [[]|]]; [|done]. unfold st_lift.
    destruct r' as [[st2 [n|]]|]; cbn [shift_end option_fmap option_map fmap]; [|done..].
    by rewrite drop_app_ge, (Nat.add_comm (length data)), Nat.add_sub by lia.
  - exists evs. split_and!; [done..|]. intros S on_event s. cbn [process_reads]. unfold st_bind at 1. rewrite Hproc. unfold st_bind.
    by destruct (run_events on_event evs s) as [s' [[]|]].
Qed.

(** C18: A chunked request body is recognised exactly, whatever the network
    reads: the parser reports the end of a body if and only if the bytes read
    so far start with one of the grammar (size lines with extensions, payload,
    trailers, no line longer than 64 KiB), it gives back the bytes that follow,
    and the payload and the trailers it hands out are those of the body. *)
Theorem chunked_reads_exact (reads : list (list byte)) :
  (forall evs rest, process_reads collect_event chunked_default reads [] = (evs, Ok (Some rest)) ->
     exists enc, mjoin reads = enc ++ rest /\ chunked_body enc (payload_of evs) (trailers_of evs))
  /\ (forall enc p t rest, chunked_body enc p t -> mjoin reads = enc ++ rest ->
        exists evs, process_reads collect_event chunked_default reads [] = (evs, Ok (Some rest))
          /\ payload_of evs = p /\ trailers_of evs = t).
Proof.
  destruct (reads_ref chunked_default reads I) as (evs & Hex & _ & Hproc). specialize (Hproc _ collect_event []).
  unfold st_bind in Hproc. rewrite run_collect in Hproc. cbn [app] in Hproc. unfold st_lift, ref_reads in *.
  destruct (ref_run chunked_default (mjoin reads)) as [revs r] eqn:Hr. cbn [fst snd] in *.
  rewrite Hproc. split.
  - intros evs' rest [= <- H]. destruct r as [[st [n|]]|]; simplify_eq.
    destruct (body_sound [] _ _ _ _ Hr) as (enc & rest & Hcat & <- & Hb). exists enc. rewrite Hcat, drop_app_length.
    by rewrite explode_payload_of, explode_trailers_of in Hb.
  - intros enc p t rest Hb Hcat. destruct (body_run _ _ _ Hb [] rest) as (evs' & Hr' & [Hp Ht]%body_events_payload).
    rewrite Hcat in Hr. unfold chunked_default in Hr. rewrite Hr' in Hr. simplify_eq. exists evs.
    by rewrite Hcat, drop_app_length, <- (explode_payload_of evs), <- (explode_trailers_of evs).
Qed.

(** ** Writing chunks *)

Lemma parse_chunk_size_fmt n : 0 <= n < 2 ^ 64 -> parse_chunk_size (fmt_radix 16 n) = Ok n.
Proof.
  intros Hn. assert (Hal := fmt_radix_alphanumeric 16 n ltac:(lia)).
  unfold parse_chunk_size. rewrite take_until_none, trim_ascii_none; [|eapply Forall_impl; [done|]; apply alphanumeric_plain..].
  rewrite decide_False by (pose proof (length_fmt_radix 16 n) as Hl; intros E; rewrite E in Hl; cbn in Hl; lia).
  rewrite utf8_valid_ascii by (eapply Forall_impl; [done|]; apply alphanumeric_plain). cbn [negb].
  by rewrite parse_fmt_radix.
Qed.

Lemma fmt_complete_line n : complete_line (fmt_radix 16 n ++ crlf).
Proof.
  apply complete_line_iff. pose proof (length_fmt_radix 16 n) as Hl. split; [|len; unfold MAX_HTTP_HEADER_BYTES; lia].
  assert (Forall (fun b => b <> lf) (fmt_radix 16 n ++ [cr])) as Hlf.
  { apply Forall_app. split; [|by repeat constructor]. eapply Forall_impl; [apply fmt_radix_alphanumeric; lia|]. apply alphanumeric_plain. }
  intros a c E. rewrite E, !Forall_app in Hlf. destruct Hlf as (_ & Hlf & _). inversion Hlf as [|? ? _ H]. by inversion H.
Qed.

(** A chunk in front of a chunked body makes a chunked body. *)
Lemma append_chunk_body payload enc p t :
  zlen payload < 2 ^ 64 -> chunked_body enc p t -> chunked_body (append_chunk [] payload ++ enc) (payload ++ p) t.
Proof.
  intros Hl Hb. unfold append_chunk. case_decide as Hp; [by subst|]. cbn [app]. rewrite <- !app_assoc.
  constructor; [apply fmt_complete_line | apply parse_chunk_size_fmt; lia | done | done].
Qed.

Lemma append_chunk_app output payload : append_chunk output payload = output ++ append_chunk [] payload.
Proof. unfold append_chunk. case_decide; [by rewrite app_nil_r | done]. Qed.

(** The parser does not touch the decoded tail of its state. *)
Lemma ref_run_tail st data evs st' n : ref_run st data = (evs, Ok (st', n)) -> decoded_tail st' = decoded_tail st.
Proof.
  revert st evs n. induction data as [|b data IH]; intros st evs n; cbn [ref_run]; [by intros [= _ <- _]|].
  assert (Hb : forall evs st1 stop, ref_byte st b = Ok (evs, st1, stop) -> decoded_tail st1 = decoded_tail st).
  { intros evs1 st1 stop. unfold ref_byte. intros E. inv_match E; by simplify_eq. }
  destruct (ref_byte st b) as [[[evs1 st1] []]|] eqn:Hr; [| |done].
  - intros [= <- <- <-]. by eapply Hb.
  - destruct (ref_run st1 data) as [evs2 [[st2 m]|]] eqn:Hr2; [|done]. intros [= <- <- <-].
    apply IH in Hr2 as ->. by eapply Hb.
Qed.

Lemma process_decoded_tail {S} (on_event : ChunkedBodyEvent -> stE S SecretViolationAction ()) st data s s' st' n :
  chunked_wf st -> process_chunked_body on_event st data s = (s', Ok (st', n)) -> chunked_wf st' /\ decoded_tail st' = decoded_tail st.
Proof.
  intros Hwf. destruct (process_is_ref st data Hwf) as (evs & _ & _ & ->). unfold st_bind, st_lift.
  destruct (run_events on_event evs s) as [s1 [[]|]]; [|done]. intros [= _ E].
  destruct (ref_run st data) as [evs1 r] eqn:Hr. cbn in E. subst r. split; [by eapply ref_run_wf | by eapply ref_run_tail].
Qed.
