(* ===== verification/HttpText.v ===== *)
(** * HTTP requests as the secret handler reads them

    The text functions of [engine/secrets/handler.rs]: request lines and
    targets, authorities, the framing fields, [Authorization] values and the
    tests that tell HTTP from other protocols; with what they use of
    [std::net]'s address parser. *)

From S2P Require Import Prelude Text Addr Chunked.
From Stdlib Require Import Strings.Byte.

Implicit Types (s data headers : list byte) (b : byte).

(** ** Constants *)

Definition MAX_HTTP_BODY_BUFFER_BYTES : Z := 16 * 1024 * 1024.
Definition HTTP2_PREFACE : list byte := bytes_of "PRI * HTTP/2.0" ++ crlf ++ crlf ++ bytes_of "SM" ++ crlf ++ crlf.
Definition AUTHORIZATION_HEADER_NAME : list byte := bytes_of "authorization:".

(** ** Addresses ([IpAddr::from_str]) *)

Fixpoint read_digits (radix acc : Z) (count : nat) s : Z * nat * list byte :=
  match s with
  | b :: s' => match to_digit radix b with
               | Some d => read_digits radix (acc * radix + d) (S count) s'
               | None => (acc, count, s)
               end
  | [] => (acc, count, [])
  end.

Definition read_number (radix : Z) (max_digits : nat) (max : Z) (allow_zero_prefix : bool) s : option (Z * list byte) :=
  let '(v, count, rest) := read_digits radix 0 0 s in
  if (max_digits <? count)%nat || (max <? v) || (count =? 0)%nat then None
  else if negb allow_zero_prefix && bytes_starts_with s (bytes_of "0") && (1 <? count)%nat then None
  else Some (v, rest).

(** [read_separator]: the separator comes before every item but the first. *)
Definition read_separator {A} (sep : byte) (index : nat) (inner : list byte -> option (A * list byte)) s : option (A * list byte) :=
  if (0 <? index)%nat then let* rest := bytes_strip_prefix [sep] s in inner rest else inner s.

Fixpoint read_octets (n i : nat) (acc : Z) s : option (Z * list byte) :=
  match n with
  | O => Some (acc, s)
  | S n' =>
      let* (octet, rest) := read_separator "."%byte i (read_number 10 3 255 false) s in
      read_octets n' (S i) (acc * 256 + octet) rest
  end.
Definition read_ipv4_addr s : option (Z * list byte) := read_octets 4 0 0 s.

Fixpoint read_groups (left i : nat) s : list Z * bool * list byte :=
  match left with
  | O => ([], false, s)
  | S left' =>
      match (if (0 <? left')%nat then read_separator ":"%byte i read_ipv4_addr s else None) with
      | Some (v4, rest) => ([v4 `div` 65536; v4 `mod` 65536], true, rest)
      | None =>
          match read_separator ":"%byte i (read_number 16 4 65535 true) s with
          | Some (g, rest) => let '(gs, v4, rest') := read_groups left' (S i) rest in (g :: gs, v4, rest')
          | None => ([], false, s)
          end
      end
  end.

Definition groups_value (gs : list Z) : Z := fold_left (fun acc g => acc * 65536 + g) gs 0.

Definition read_ipv6_addr s : option (Z * list byte) :=
  let '(head, head_ipv4, rest) := read_groups 8 0 s in
  if (length head =? 8)%nat then Some (groups_value head, rest)
  else if head_ipv4 then None
  else
    let* rest' := bytes_strip_prefix (bytes_of "::") rest in
    let '(tl, _, rest'') := read_groups (8 - (length head + 1)) 0 rest' in
    Some (groups_value (head ++ replicate (8 - length head - length tl) 0 ++ tl), rest'').

Definition parse_ip_addr s : option IpAddr :=
  match read_ipv4_addr s with
  | Some (a, rest) => if decide (rest = []) then Some (V4 a) else None
  | None => match read_ipv6_addr s with
            | Some (a, []) => Some (V6 a)
            | _ => None
            end
  end.

(** ** Request lines *)

Definition is_http_token_byte b : bool :=
  existsb (byte_eqb b) (bytes_of "!#$%&'*+-.^_`|~") || is_ascii_alphanumeric b.

Fixpoint skip_empty_lines (fuel : nat) data : list byte :=
  match fuel with
  | O => data
  | S fuel' => match bytes_strip_prefix crlf data with Some rest => skip_empty_lines fuel' rest | None => data end
  end.
Definition skip_leading_empty_http_lines data : list byte := skip_empty_lines (length data) data.

Definition split_http_request_line (request_line : list byte) : option (list byte * list byte * list byte) :=
  match split_whitespace request_line with
  | [method; target; version] => if forallb is_http_token_byte method then Some (method, target, version) else None
  | _ => None
  end.

Definition http_request_version (request_line : list byte) : option (list byte) :=
  let* (_, _, version) := split_http_request_line request_line in Some version.

Definition absolute_form_authority (target : list byte) : result SecretViolationAction (option (list byte)) :=
  match split_once_at (bytes_of "://") target with
  | None => Ok None
  | Some (scheme, rest) =>
      if negb (eq_ignore_ascii_case scheme (bytes_of "http")) && negb (eq_ignore_ascii_case scheme (bytes_of "https")) then Err Block
      else
        let authority := take_until (fun b => existsb (byte_eqb b) (bytes_of "/?#")) rest in
        if decide (authority = []) then Err Block
        else if existsb (byte_eqb "@"%byte) authority then Err Block
        else Ok (Some authority)
  end.

Definition request_target_authority (method target : list byte) : result SecretViolationAction (option (list byte)) :=
  if bytes_starts_with target (bytes_of "/") || bool_decide (target = bytes_of "*") then Ok None
  else
    let? found := absolute_form_authority target in
    match found with
    | Some authority => Ok (Some authority)
    | None =>
        if eq_ignore_ascii_case method (bytes_of "CONNECT") then
          if bool_decide (target = []) || existsb (byte_eqb "/"%byte) target || existsb (byte_eqb "@"%byte) target then Err Block
          else Ok (Some target)
        else Err Block
    end.

Record HttpRequestMetadata := mkMetadata {
  host_headers : list (list byte);
  target_authority : option (list byte);
  target_scheme : option (list byte)
}.

Definition nonempty s : bool := negb (bool_decide (s = [])).
Definition is_nil s : bool := bool_decide (s = []).

(** The loop of [parse_http_request_metadata] over the header lines. *)
Definition metadata_line (hosts : list (list byte)) (l : list byte) : result SecretViolationAction (list (list byte)) :=
  match split_once ":"%byte l with
  | None => Err Block
  | Some (name, value) =>
      if is_nil name || negb (forallb is_http_token_byte name) then Err Block
      else if eq_ignore_ascii_case name (bytes_of "host") then Ok (hosts ++ [str_trim value]) else Ok hosts
  end.

Definition parse_http_request_metadata (header_bytes : list byte) : result SecretViolationAction (option HttpRequestMetadata) :=
  if negb (utf8_valid header_bytes) then Err Block
  else match skip_while is_nil (split_crlf header_bytes) with
  | [] => Ok None
  | request_line :: lines =>
      match split_http_request_line request_line with
      | None => Err Block
      | Some (method, target, version) =>
          if bool_decide (version = bytes_of "HTTP/2.0") then Err Block
          else if negb (bytes_starts_with version (bytes_of "HTTP/1.")) then Err Block
          else
            let? target_authority := request_target_authority method target in
            let target_scheme := fst <$> split_once_at (bytes_of "://") target in
            let? hosts := try_fold metadata_line [] (take_until is_nil lines) in
            if decide (hosts = []) then Err Block
            else Ok (Some (mkMetadata hosts target_authority target_scheme))
      end
  end.

Definition redacted_request_path (target : list byte) : list byte :=
  let without_query := match split_once "?"%byte target with Some (path, _) => path | None => target end in
  match split_once_at (bytes_of "://") without_query with
  | Some (_, after_scheme) =>
      match byte_position (byte_eqb "/"%byte) after_scheme with
      | Some path_start => drop path_start after_scheme
      | None => bytes_of "/"
      end
  | None => without_query
  end.

Record RequestSummary := mkSummary {
  rs_method : option (list byte);
  rs_path : option (list byte);
  rs_host : option (list byte)
}.
Definition summary_default : RequestSummary := mkSummary None None None.

Fixpoint find_host (lines : list (list byte)) : option (list byte) :=
  match lines with
  | [] => None
  | l :: lines' =>
      match split_once ":"%byte l with
      | Some (name, value) => if eq_ignore_ascii_case name (bytes_of "host") then Some (str_trim value) else find_host lines'
      | None => find_host lines'
      end
  end.

Definition http1_request_summary headers : RequestSummary :=
  match skip_while is_nil (split_crlf headers) with
  | [] => summary_default
  | request_line :: lines =>
      match split_http_request_line request_line with
      | None => summary_default
      | Some (method, target, _) =>
          mkSummary (Some method) (Some (redacted_request_path target)) (find_host (take_until is_nil lines))
      end
  end.

Definition http2_summary_line (summary : RequestSummary) (l : list byte) : RequestSummary :=
  match bytes_strip_prefix (bytes_of ":method: ") l with
  | Some value => mkSummary (Some value) (rs_path summary) (rs_host summary)
  | None =>
      match bytes_strip_prefix (bytes_of ":path: ") l with
      | Some value => mkSummary (rs_method summary) (Some (redacted_request_path value)) (rs_host summary)
      | None =>
          match bytes_strip_prefix (bytes_of ":authority: ") l with
          | Some value => mkSummary (rs_method summary) (rs_path summary) (Some (str_trim value))
          | None => summary
          end
      end
  end.

Definition http2_request_summary headers : RequestSummary :=
  fold_left http2_summary_line (List.filter nonempty (split_crlf headers)) summary_default.

(** ** Telling HTTP from other protocols *)

Definition is_http2_preface_prefix data : bool :=
  nonempty data
  && (if (length data <=? length HTTP2_PREFACE)%nat then bytes_starts_with HTTP2_PREFACE data
      else bytes_starts_with data HTTP2_PREFACE).

Definition has_complete_http2_preface data : bool :=
  (length HTTP2_PREFACE <=? length data)%nat && bytes_starts_with data HTTP2_PREFACE.

Definition binary_control b : bool := is_ascii_control b && negb (is_ascii_whitespace b).
Definition is_line_end b : bool := byte_eqb b cr || byte_eqb b lf.

Definition http_request_line_has_binary_control data : bool :=
  existsb binary_control (take_until is_line_end (skip_leading_empty_http_lines data)).

(** [eq_ignore_ascii_case] of the common length of a target and a scheme. *)
Definition scheme_overlaps (target scheme : list byte) : bool :=
  let overlap := Nat.min (length target) (length scheme) in
  eq_ignore_ascii_case (take overlap target) (take overlap scheme).

Definition looks_like_http_request_prefix data : bool :=
  if is_nil data || bytes_starts_with HTTP2_PREFACE data then true
  else
    let data := skip_leading_empty_http_lines data in
    if is_nil data then true
    else if http_request_line_has_binary_control data then false
    else
      let method_end := byte_position (fun b => byte_eqb b " "%byte || byte_eqb b x09) data in
      let method := match method_end with Some e => take e data | None => data end in
      if is_nil method || negb (forallb is_http_token_byte method) then false
      else match method_end with
      | Some e =>
          if decide (data !! e = Some x09) then
            let target := take_until is_ascii_whitespace (drop (S e) data) in
            is_nil target || bytes_starts_with target (bytes_of "/") || bytes_starts_with target (bytes_of "*")
            || eq_ignore_ascii_case method (bytes_of "CONNECT")
            || existsb (scheme_overlaps target) [bytes_of "http://"; bytes_of "https://"]
          else true
      | None => true
      end.

Definition HTTP_METHODS : list (list byte) :=
  map bytes_of ["CONNECT"; "DELETE"; "GET"; "HEAD"; "OPTIONS"; "PATCH"; "POST"; "PUT"; "TRACE"]%string.

(** [s.windows(p.len()).any(|window| window.eq_ignore_ascii_case(p))]. *)
Definition contains_ignore_case s (p : list byte) : bool := str_contains (bytes_lower s) (bytes_lower p).

Definition opaque_prefix_might_be_http data : bool :=
  let l := take_until is_line_end (skip_leading_empty_http_lines data) in
  let method := take_until (fun b => byte_eqb b " "%byte || binary_control b) l in
  (existsb binary_control l && nonempty method && existsb (fun m => bool_decide (m = method)) HTTP_METHODS)
  || contains_ignore_case l (bytes_of "HTTP/").

Definition first_line_is_not_http_request data : bool :=
  let data := skip_leading_empty_http_lines data in
  match bytes_find crlf data with
  | None => false
  | Some line_end =>
      match http_request_version (from_utf8_lossy (take line_end data)) with Some _ => false | None => true end
  end.

(** ** Authorities *)

Definition authority_hostname (authority : list byte) : option (list byte) :=
  let authority := trim_end_matches "."%byte (str_trim authority) in
  if is_nil authority then None
  else match bytes_strip_prefix (bytes_of "[") authority with
  | Some rest => let* (host, _) := split_once "]"%byte rest in Some (trim_end_matches "."%byte host)
  | None =>
      match rsplit_once ":"%byte authority with
      | Some (host, port) =>
          if negb (existsb (byte_eqb ":"%byte) host) && bool_decide (is_Some (from_str_radix 16 10 port))
          then Some (trim_end_matches "."%byte host) else Some authority
      | None => Some authority
      end
  end.

Definition authority_origin (authority : list byte) : option (list byte * option Z) :=
  let authority := str_trim authority in
  if is_nil authority then None
  else match bytes_strip_prefix (bytes_of "[") authority with
  | Some rest =>
      let* (host, remainder) := split_once "]"%byte rest in
      if is_nil host then None
      else if is_nil remainder then Some (trim_end_matches "."%byte host, None)
      else
        let* digits := bytes_strip_prefix (bytes_of ":") remainder in
        let* port := from_str_radix 16 10 digits in
        Some (trim_end_matches "."%byte host, Some port)
  | None =>
      match rsplit_once ":"%byte authority with
      | Some (host, digits) =>
          if is_nil host || existsb (byte_eqb ":"%byte) host then None
          else let* port := from_str_radix 16 10 digits in Some (trim_end_matches "."%byte host, Some port)
      | None => if existsb (byte_eqb ":"%byte) authority then None else Some (trim_end_matches "."%byte authority, None)
      end
  end.

Definition authority_matches_sni (authority sni : list byte) : bool :=
  match authority_hostname authority with
  | None => false
  | Some hostname =>
      match parse_ip_addr sni with
      | Some address => bool_decide (parse_ip_addr hostname = Some address)
      | None => eq_ignore_ascii_case hostname (trim_end_matches "."%byte sni)
      end
  end.

(** ** Framing fields *)

Definition find_header_boundary data : option nat :=
  (fun pos => pos + 4)%nat <$> bytes_find (crlf ++ crlf) data.

(** One line of [parse_content_length]. *)
Definition content_length_line (acc : option Z) (l : list byte) : result SecretViolationAction (option Z) :=
  match split_once ":"%byte l with
  | None => Ok acc
  | Some (name, value) =>
      if eq_ignore_ascii_case name (bytes_of "content-length") then
        let? parsed := ok_or (from_str_radix 64 10 (str_trim value)) Block in
        match acc with
        | Some existing => if existing =? parsed then Ok (Some parsed) else Err Block
        | None => Ok (Some parsed)
        end
      else Ok acc
  end.

Definition parse_content_length headers : result SecretViolationAction (option Z) :=
  try_fold content_length_line None (split_crlf headers).

Definition content_length_exceeds_buffer_limit headers : result SecretViolationAction bool :=
  let? len := parse_content_length headers in
  Ok match len with Some n => MAX_HTTP_BODY_BUFFER_BYTES <? n | None => false end.

Inductive TransferEncoding := TeChunked.

(** One coding, and one line, of [parse_transfer_encoding]. *)
Definition transfer_coding (saw_chunked : bool) (coding : list byte) : result SecretViolationAction bool :=
  let coding := str_trim coding in
  let coding_name := str_trim (match split_once ";"%byte coding with Some (name, _) => name | None => coding end) in
  if is_nil coding_name || negb (eq_ignore_ascii_case coding_name (bytes_of "chunked")) then Err Block
  else if saw_chunked then Err Block else Ok true.

Definition transfer_encoding_line (saw_chunked : bool) (l : list byte) : result SecretViolationAction bool :=
  match split_once ":"%byte l with
  | None => Ok saw_chunked
  | Some (name, value) =>
      if negb (eq_ignore_ascii_case name (bytes_of "transfer-encoding")) then Ok saw_chunked
      else try_fold transfer_coding saw_chunked (split_byte ","%byte value)
  end.

Definition parse_transfer_encoding headers : result SecretViolationAction (option TransferEncoding) :=
  let? saw_chunked := try_fold transfer_encoding_line false (split_crlf headers) in
  Ok (if (saw_chunked : bool) then Some TeChunked else None).

Definition has_non_identity_content_encoding headers : bool :=
  existsb (fun l => match split_once ":"%byte l with
                    | None => false
                    | Some (name, value) =>
                        eq_ignore_ascii_case name (bytes_of "content-encoding")
                        && existsb (fun e => negb (eq_ignore_ascii_case (str_trim e) (bytes_of "identity"))) (split_byte ","%byte value)
                    end) (split_crlf headers).

Definition content_length_prefix : list byte := bytes_of "content-length:".

Definition update_content_length_line (new_len : Z) (l : list byte) : list byte :=
  if (15 <=? length l)%nat && eq_ignore_ascii_case (take 15 l) content_length_prefix
  then bytes_of "Content-Length: " ++ fmt_radix 10 new_len else l.

Definition update_content_length headers (new_len : Z) : list byte :=
  join_crlf (map (update_content_length_line new_len) (split_crlf headers)).

(** ** Header fields *)

Definition header_field_allowed (headers_enabled : bool) (header_fields : list (list byte)) (name : list byte) : bool :=
  headers_enabled && (bool_decide (header_fields = []) || existsb (eq_ignore_ascii_case name) header_fields).

Definition header_field_name (l : list byte) : list byte := take_until (byte_eqb ":"%byte) l.

Definition is_authorization_header (l : list byte) : bool :=
  (length AUTHORIZATION_HEADER_NAME <=? length l)%nat
  && eq_ignore_ascii_case (take (length AUTHORIZATION_HEADER_NAME) l) AUTHORIZATION_HEADER_NAME.

(** [header_value.find(char::is_whitespace)] and the split there. *)
Definition split_auth_scheme (header_value : list byte) : option (list byte * list byte) :=
  let cs := str_chars header_value in
  if existsb is_whitespace cs then
    let scheme := mjoin (take_until is_whitespace cs) in
    Some (scheme, str_trim_start (drop (length scheme) header_value))
  else None.

Definition opaque_basic_auth_payload (l : list byte) : option (list byte) :=
  if (length l <? length AUTHORIZATION_HEADER_NAME)%nat then None
  else
    let value := trim_ascii_start (drop (length AUTHORIZATION_HEADER_NAME) l) in
    let* scheme_end := byte_position is_ascii_whitespace value in
    if negb (eq_ignore_ascii_case (take scheme_end value) (bytes_of "basic")) then None
    else
      let encoded := trim_ascii_start (drop scheme_end value) in
      if nonempty encoded && forallb (fun b => is_ascii_alphanumeric b || existsb (byte_eqb b) (bytes_of "+/=")) encoded
      then Some encoded else None.

Definition substitute_query_in_target (target placeholder value : list byte) : option (list byte) :=
  if is_nil placeholder then None
  else
    let* (path, query) := split_once "?"%byte target in
    if negb (str_contains query placeholder) then None
    else Some (take (length path + 1) target ++ str_replace query placeholder value).

(** The target of the request line is between its first and its last space. *)
Definition substitute_query_in_request_line (l placeholder value : list byte) : option (list byte) :=
  if is_nil placeholder then None
  else
    let* method_end := byte_position (byte_eqb " "%byte) l in
    let target_start := S method_end in
    let* (target, _) := rsplit_once " "%byte (drop target_start l) in
    let version_start := (target_start + length target)%nat in
    if (version_start <=? target_start)%nat then None
    else
      let* (path, query) := split_once "?"%byte target in
      if negb (str_contains query placeholder) then None
      else Some (take (target_start + (length path + 1)) l ++ str_replace query placeholder value ++ drop version_start l).

(** ** Lemmas *)

Lemma colon_prefix_iff n l :
  ":"%byte ∉ n ->
  (S (length n) <=? length l)%nat && eq_ignore_ascii_case (take (S (length n)) l) (n ++ [":"%byte]) = true
  <-> exists name value, split_once ":"%byte l = Some (name, value) /\ eq_ignore_ascii_case name n = true.
Proof.
  intros Hn. rewrite andb_true_iff, Nat.leb_le, eq_ignore_ascii_case_iff. split.
  - intros [Hlen Hl]. rewrite <- (take_drop (S (length n)) l). set (t := take _ l) in *. set (value := drop _ l).
    destruct t as [|c name _] using rev_ind; [by destruct n|]. rewrite !bytes_lower_app in Hl. cbn [bytes_lower map] in Hl.
    apply app_inj_tail in Hl as [Hname Hc]. apply byte_lower_fixed in Hc as ->; [|done].
    exists name, value. split; [|by apply eq_ignore_ascii_case_iff]. apply split_once_Some. split; [by rewrite <- app_assoc|].
    intros Hin%(list_elem_of_fmap_2 byte_lower). change (byte_lower <$> name) with (bytes_lower name) in Hin.
    rewrite Hname in Hin. apply list_elem_of_fmap in Hin as (c & Hc & Hin). symmetry in Hc. by apply byte_lower_fixed in Hc as ->.
  - intros (name & value & [-> _]%split_once_Some & Hname%eq_ignore_ascii_case_iff).
    apply (f_equal length) in Hname as Hl. rewrite !length_bytes_lower in Hl.
    split; [rewrite length_app; cbn [length]; lia|]. rewrite <- Hl, (cons_middle _ name), app_assoc, take_app_length' by len.
    by rewrite !bytes_lower_app, Hname.
Qed.

Lemma content_length_line_iff l :
  (15 <=? length l)%nat && eq_ignore_ascii_case (take 15 l) content_length_prefix = true
  <-> exists name value, split_once ":"%byte l = Some (name, value) /\ eq_ignore_ascii_case name (bytes_of "content-length") = true.
Proof. apply (colon_prefix_iff (bytes_of "content-length")). by apply (bool_decide_eq_true (":"%byte ∉ bytes_of "content-length")). Qed.

Lemma str_trim_number n : str_trim (" "%byte :: fmt_radix 10 n) = fmt_radix 10 n.
Proof.
  pose proof (fmt_radix_alphanumeric 10 n ltac:(lia)) as Hal.
  assert (Hw : Forall (fun b => ascii_whitespace_char b = false) (fmt_radix 10 n)).
  { eapply Forall_impl; [done|]. intros b. cbn. destruct b; vm_compute; congruence. }
  rewrite str_trim_ascii.
  - change (skip_while ascii_whitespace_char (" "%byte :: fmt_radix 10 n)) with (skip_while ascii_whitespace_char (fmt_radix 10 n)).
    rewrite (skip_while_none _ (fmt_radix 10 n)) by done.
    rewrite skip_while_none by (by apply Forall_reverse). apply reverse_involutive.
  - constructor; [done|]. eapply Forall_impl; [apply Hal|]. apply alphanumeric_plain.
Qed.

Lemma content_length_line_update n acc l r :
  0 <= n < 2 ^ 64 -> content_length_line acc l = Ok r ->
  content_length_line ((fun _ => n) <$> acc) (update_content_length_line n l) = Ok ((fun _ => n) <$> r).
Proof.
  intros Hn Hl. unfold update_content_length_line. destruct (_ && _) eqn:E.
  - apply content_length_line_iff in E as (name & value & Hs & Hname). unfold content_length_line in Hl. rewrite Hs, Hname in Hl.
    unfold content_length_line.
    replace (split_once ":"%byte _) with (Some (bytes_of "Content-Length", " "%byte :: fmt_radix 10 n))
      by (symmetry; apply split_once_Some; split; [done | by apply (bool_decide_eq_true (":"%byte ∉ bytes_of "Content-Length"))]).
    change (eq_ignore_ascii_case (bytes_of "Content-Length") (bytes_of "content-length")) with true. cbv iota.
    rewrite str_trim_number, parse_fmt_radix by lia. cbn [ok_or].
    destruct (ok_or _ _) as [parsed|]; [|done]. destruct acc as [existing|]; cbn [fmap option_fmap option_map].
    + rewrite Z.eqb_refl. destruct (existing =? parsed); [|done]. by injection Hl as <-.
    + by injection Hl as <-.
  - assert (Hno : forall name value, split_once ":"%byte l = Some (name, value) -> eq_ignore_ascii_case name (bytes_of "content-length") = false).
    { intros name value Hs. destruct (eq_ignore_ascii_case name _) eqn:Hname; [|done].
      rewrite (proj2 (content_length_line_iff l)) in E; [done | by exists name, value]. }
    unfold content_length_line in *. destruct (split_once ":"%byte l) as [[name value]|]; [|by injection Hl as <-].
    rewrite (Hno name value eq_refl) in *. by injection Hl as <-.
Qed.

Lemma update_line_no_break n l : no_break l -> no_break (update_content_length_line n l).
Proof.
  intros Hl. unfold update_content_length_line. destruct (_ && _); [|done]. apply no_lf_no_break.
  rewrite elem_of_app. intros [Hin|Hin]; [by vm_compute in Hin; set_solver|].
  pose proof (fmt_radix_alphanumeric 10 n ltac:(lia)) as Hal. rewrite Forall_forall in Hal. by apply Hal in Hin.
Qed.

(** Rewriting the length of a body: the head says the new length, whatever
    number of fields carried the old one, and a head without one is left alone. *)
Lemma update_content_length_parse headers n r :
  0 <= n < 2 ^ 64 -> parse_content_length headers = Ok r ->
  parse_content_length (update_content_length headers n) = Ok ((fun _ => n) <$> r).
Proof.
  intros Hn. unfold parse_content_length, update_content_length. pose proof (split_crlf_no_break headers) as Hnb.
  rewrite split_join_crlf.
  - change (@None Z) with ((fun _ : Z => n) <$> @None Z) at 2. generalize (@None Z). clear Hnb.
    induction (split_crlf headers) as [|l lines IH]; intros acc; cbn [try_fold map]; [by intros [= <-]|].
    destruct (content_length_line acc l) as [acc'|] eqn:Hl; [|done]. rewrite (content_length_line_update n acc l acc' Hn Hl). apply IH.
  - intros E%(f_equal length). rewrite length_map in E. pose proof (split_crlf_nonempty headers). by destruct (split_crlf headers).
  - apply Forall_map. eapply Forall_impl; [done|]. apply update_line_no_break.
Qed.

Lemma port_last s z : from_str_radix 16 10 s = Some z -> exists s' b, s = s' ++ [b] /\ b <> "."%byte.
Proof.
  intros (s' & b & -> & [d Hd])%from_str_radix_last. exists s', b. split; [done|]. by intros ->.
Qed.

(** The host a credential is scoped to is the host the connection's server
    name was compared with. *)
Lemma authority_origin_hostname authority host port :
  authority_origin authority = Some (host, port) -> host <> [] -> authority_hostname authority = Some host.
Proof.
  unfold authority_origin, authority_hostname. set (a := str_trim authority). intros Ho Hne.
  destruct (is_nil a) eqn:Hnil; [done|]. destruct (bytes_strip_prefix (bytes_of "[") a) as [rest|] eqn:Hb.
  - apply bytes_strip_prefix_Some in Hb. destruct (split_once "]"%byte rest) as [[h remainder]|] eqn:Hs; [|done].
    pose proof Hs as [Hrest _]%split_once_Some.
    assert (trim_end_matches "."%byte a = a /\ trim_end_matches "."%byte h = host) as [-> <-].
    { destruct (is_nil h); [done|]. unfold is_nil in Ho. case_bool_decide as Hr.
      - subst remainder. split; [|congruence]. rewrite Hb, Hrest, app_assoc. by apply trim_end_noop.
      - destruct (bytes_strip_prefix (bytes_of ":") remainder) as [digits|] eqn:Hd; [|done].
        destruct (from_str_radix 16 10 digits) as [z|] eqn:Hz; [|done]. split; [|congruence].
        apply bytes_strip_prefix_Some in Hd as ->. apply port_last in Hz as (s' & b & -> & Hne').
        rewrite Hb, Hrest, (cons_middle "]"%byte), !app_assoc. by apply trim_end_noop. }
    rewrite Hnil, (proj2 (bytes_strip_prefix_Some _ _ rest) Hb), Hs. done.
  - destruct (rsplit_once ":"%byte a) as [[h digits]|] eqn:Hr.
    + destruct (is_nil h || existsb _ h) eqn:Hh; [done|]. apply orb_false_iff in Hh as [_ Hh].
      destruct (from_str_radix 16 10 digits) as [z|] eqn:Hz; [|done]. injection Ho as <- <-.
      pose proof Hz as (s' & b & -> & Hne')%port_last. pose proof Hr as [Ha _]%rsplit_once_Some.
      assert (trim_end_matches "."%byte a = a) as ->
        by (rewrite Ha, (cons_middle ":"%byte), !app_assoc; by apply trim_end_noop).
      rewrite Hnil, Hb, Hr, Hh. by rewrite bool_decide_eq_true_2 by (by eexists).
    + apply rsplit_once_None in Hr as Hn. destruct (existsb _ a); [done|]. injection Ho as <- <-.
      destruct (trim_end_prefix "."%byte a) as [post Hpost]. set (t := trim_end_matches "."%byte a) in *.
      unfold is_nil. rewrite bool_decide_eq_false_2 by done.
      destruct (bytes_strip_prefix (bytes_of "[") t) as [rest|] eqn:Ht.
      * apply bytes_strip_prefix_Some in Ht. rewrite Hpost, Ht in Hb. by rewrite <- app_assoc in Hb.
      * rewrite (proj2 (rsplit_once_None _ t)); [done|]. intros Hin. apply Hn. rewrite Hpost, elem_of_app. by left.
Qed.

(** What violation reports show of a request target has no query. *)
Lemma redacted_path_has_no_query target : "?"%byte ∉ redacted_request_path target.
Proof.
  unfold redacted_request_path.
  assert (Hq : "?"%byte ∉ match split_once "?"%byte target with Some (path, _) => path | None => target end).
  { destruct (split_once "?"%byte target) as [[path query]|] eqn:E; [by apply split_once_Some in E as [_ ?]|].
    unfold split_once in E. destruct (byte_position _ target) eqn:Hp; [done|].
    by rewrite byte_position_None, byte_eqb_false_forall in Hp. }
  set (without_query := match split_once _ target with Some _ => _ | None => _ end) in *.
  unfold split_once_at. destruct (bytes_find _ without_query) as [i|]; [|done].
  destruct (byte_position _ _) as [j|]; [|by apply (bool_decide_eq_true ("?"%byte ∉ bytes_of "/"))].
  intros Hin. apply Hq. by eapply subseteq_drop, subseteq_drop in Hin.
Qed.
