(* ===== verification/SecretScan.v ===== *)
(** * Detecting placeholders

    The violation detector of [engine/secrets/handler.rs]: byte search, the
    percent and JSON decodings it looks through, the fragments of a request it
    looks at, the report it keeps, and the tail it carries from one network
    read to the next.

    The theorems show that a stream scanned read by read lets no placeholder
    through, raw or encoded, wherever the reads cut it, and that the report is
    the strictest one. *)

From S2P Require Import Prelude Text Chunked HttpText.
From Stdlib Require Import Strings.Byte.

Implicit Types (data : list byte) (b : byte).

(** The [percent_encoding] and [base64] crates. *)
Class SecretCodecs := {
  percent_decode : list byte -> list byte;
  base64_decode : list byte -> option (list byte);
  base64_encode : list byte -> list byte
}.

(** ** Types *)

Inductive BlockingAction := BaBlock | BaBlockAndLog | BaBlockAndTerminate.
Inductive RequestProtocol := Http1 | Http2 | Opaque.
Inductive RequestLocation := LocHeader | LocQuery | LocBasicAuth | LocBody | LocChunkMetadata | LocTrailer | LocUnknown.
Inductive PlaceholderMatchForm := MatchRaw | MatchPercentDecoded | MatchJsonUnescaped | MatchBasicAuthDecoded.

#[global] Instance RequestLocation_eq_dec : EqDecision RequestLocation.
Proof. solve_decision. Defined.

Record IneligibleSecret := mkIneligible { is_env_var : list byte; is_placeholder : list byte; is_action : BlockingAction }.

Record SecretViolationReport := mkReport {
  vr_action : BlockingAction;
  vr_env_var : list byte;
  vr_placeholder : list byte;
  vr_protocol : RequestProtocol;
  vr_location : RequestLocation;
  vr_match_form : PlaceholderMatchForm;
  vr_summary : RequestSummary;
  vr_http2_stream_id : option Z
}.

Definition from_violation_action (a : SecretViolationAction) : option BlockingAction :=
  match a with
  | Block => Some BaBlock
  | BlockAndLog => Some BaBlockAndLog
  | BlockAndTerminate => Some BaBlockAndTerminate
  end.

Definition into_violation_action (a : BlockingAction) : SecretViolationAction :=
  match a with
  | BaBlock => Block
  | BaBlockAndLog => BlockAndLog
  | BaBlockAndTerminate => BlockAndTerminate
  end.

Definition priority (a : BlockingAction) : Z :=
  match a with BaBlock => 0 | BaBlockAndLog => 1 | BaBlockAndTerminate => 2 end.

(** [SecretViolationReport::apply_request_summary]. *)
Definition apply_request_summary (r : SecretViolationReport) (summary : RequestSummary) : SecretViolationReport :=
  let or (a c : option (list byte)) := match a with None => c | Some _ => a end in
  let own := vr_summary r in
  mkReport (vr_action r) (vr_env_var r) (vr_placeholder r) (vr_protocol r) (vr_location r) (vr_match_form r)
    (mkSummary (or (rs_method own) (rs_method summary)) (or (rs_path own) (rs_path summary)) (or (rs_host own) (rs_host summary)))
    (vr_http2_stream_id r).

(** ** Bytes *)

Definition contains_bytes (haystack needle : list byte) : bool :=
  if is_nil needle || (length haystack <? length needle)%nat then false
  else bool_decide (is_Some (bytes_find needle haystack)).

Definition replace_bytes (haystack needle replacement : list byte) : option (list byte) :=
  if negb (contains_bytes haystack needle) then None else Some (replace_from 0 needle replacement haystack).

Definition max_placeholder_detection_len (placeholder_len : Z) : Z :=
  Z.min (u_max 64) (placeholder_len * 6).

Definition hex_digit b : option Z := to_digit 16 b.

(** [char::from_u32] and [encode_utf8], for the code points of four hex digits. *)
Definition encode_char (cp : Z) : list byte :=
  if cp <? 0x80 then [byte_of_Z cp]
  else if cp <? 0x800 then [byte_of_Z (0xc0 + cp `div` 64); byte_of_Z (0x80 + cp `mod` 64)]
  else if (0xd800 <=? cp) && (cp <=? 0xdfff) then []
  else [byte_of_Z (0xe0 + cp `div` 4096); byte_of_Z (0x80 + (cp `div` 64) `mod` 64); byte_of_Z (0x80 + cp `mod` 64)].

(** What the escape [\u] followed by these bytes stands for. *)
Definition json_escape (tl : list byte) : option (list byte) :=
  match tl with
  | [u; d1; d2; d3; d4] =>
      if decide (u = "u"%byte) then
        let* h1 := hex_digit d1 in
        let* h2 := hex_digit d2 in
        let* h3 := hex_digit d3 in
        let* h4 := hex_digit d4 in
        Some (encode_char (Z.lor (Z.lor (Z.lor (Z.shiftl h1 12) (Z.shiftl h2 8)) (Z.shiftl h3 4)) h4))
      else None
  | _ => None
  end.

Fixpoint json_unescape (haystack : list byte) : list byte :=
  match haystack with
  | [] => []
  | b :: rest =>
      match rest with
      | u :: d1 :: d2 :: d3 :: d4 :: rest' =>
          if decide (b = "\"%byte) then
            match json_escape [u; d1; d2; d3; d4] with
            | Some out => out ++ json_unescape rest'
            | None => b :: json_unescape rest
            end
          else b :: json_unescape rest
      | _ => b :: json_unescape rest
      end
  end.

Definition update_tail_buffer (tail data : list byte) (tail_size : Z) : list byte :=
  if tail_size =? 0 then []
  else if tail_size <=? zlen data then drop (length data - Z.to_nat tail_size) data
  else
    let tail' := tail ++ data in
    drop (Z.to_nat (saturating_sub (zlen tail') tail_size)) tail'.

(** ** Reports *)

Definition strictest_violation_report (current : option SecretViolationReport) (candidate : SecretViolationReport)
    : SecretViolationReport :=
  match current with
  | None => candidate
  | Some r => if priority (vr_action r) <? priority (vr_action candidate) then candidate else r
  end.

Definition is_scoped_fragment_location (location : RequestLocation) : bool :=
  match location with LocBody | LocChunkMetadata | LocTrailer => true | _ => false end.

Definition push_request_target_fragments (fragments : list (list byte * RequestLocation)) (target : list byte)
    : list (list byte * RequestLocation) :=
  match byte_position (byte_eqb "?"%byte) target with
  | Some query_start => fragments ++ [(take query_start target, LocUnknown); (drop (S query_start) target, LocQuery)]
  | None => fragments ++ [(target, LocUnknown)]
  end.

Section Scan.
Context `{SecretCodecs}.

Definition decode_basic_credentials (l : list byte) : option (list byte) :=
  let* (_, raw_value) := split_once ":"%byte l in
  let* (scheme, encoded) := split_auth_scheme (str_trim_start raw_value) in
  if negb (eq_ignore_ascii_case scheme (bytes_of "basic")) then None
  else
    let* bytes := base64_decode (str_trim encoded) in
    if utf8_valid bytes then Some bytes else None.

Definition decoded_basic_auth_credentials (headers : list byte) : list (list byte) :=
  omap decode_basic_credentials (List.filter is_authorization_header (split_crlf headers)).

Definition basic_auth_decoded_contains (headers placeholder : list byte) : bool :=
  existsb (fun decoded => str_contains decoded placeholder) (decoded_basic_auth_credentials headers).

(** How a fragment matches a placeholder: the inner [if] chain of
    [detect_blocking_action_in_fragments]. *)
Definition fragment_match (protocol : RequestProtocol) (fragment : list byte * RequestLocation) (placeholder : list byte)
    : option (RequestLocation * PlaceholderMatchForm) :=
  let '(data, location) := fragment in
  let opaque := match protocol with Opaque => true | _ => false end in
  let basic := if opaque || match location with LocHeader | LocTrailer => true | _ => false end
               then decoded_basic_auth_credentials (from_utf8_lossy data) else [] in
  if existsb (fun decoded => str_contains decoded placeholder) basic then
    Some (match location with LocTrailer => location | _ => LocBasicAuth end, MatchBasicAuthDecoded)
  else if contains_bytes data placeholder then Some (location, MatchRaw)
  else if existsb (byte_eqb "%"%byte) data && contains_bytes (percent_decode data) placeholder then Some (location, MatchPercentDecoded)
  else if str_contains data (bytes_of "\u") && contains_bytes (json_unescape data) placeholder then Some (location, MatchJsonUnescaped)
  else None.

Definition detect_one protocol summary http2_stream_id fragment (detected : option SecretViolationReport) (secret : IneligibleSecret)
    : option SecretViolationReport :=
  match fragment_match protocol fragment (is_placeholder secret) with
  | Some (location, match_form) =>
      Some (strictest_violation_report detected
              (mkReport (is_action secret) (is_env_var secret) (is_placeholder secret) protocol location match_form
                 summary http2_stream_id))
  | None => detected
  end.

Definition detect_blocking_action_in_fragments (secrets : list IneligibleSecret) (fragments : list (list byte * RequestLocation))
    (protocol : RequestProtocol) (summary : RequestSummary) (http2_stream_id : option Z) : option SecretViolationReport :=
  fold_left (fun detected fragment => fold_left (detect_one protocol summary http2_stream_id fragment) secrets detected)
    fragments None.

Definition request_summary (headers : list byte) (protocol : RequestProtocol) : RequestSummary :=
  match protocol with
  | Http1 => http1_request_summary headers
  | Http2 => http2_request_summary headers
  | Opaque => summary_default
  end.

(** The fragments of an HTTP/1 request: the parts of its request line, its
    header lines, its body. *)
Definition http1_fragments (data headers : list byte) : list (list byte * RequestLocation) :=
  let '(request_line, metadata) := match split_once_at crlf headers with Some p => p | None => (headers, []) end in
  let line_fragments :=
    match split_http_request_line request_line with
    | Some (method, target, version) => push_request_target_fragments [(method, LocUnknown)] target ++ [(version, LocUnknown)]
    | None => [(request_line, LocUnknown)]
    end in
  let body_start := default (length data) (find_header_boundary data) in
  line_fragments ++ [(metadata, LocHeader); (drop body_start data, LocBody)].

Definition detect_blocking_action_with_tail (secrets : list IneligibleSecret) (prev_tail data headers : list byte)
    (protocol : RequestProtocol) (location_hint : RequestLocation) (http2_stream_id : option Z) : option SecretViolationReport :=
  if bool_decide (secrets = []) then None
  else if match protocol with Http1 => true | _ => false end && nonempty headers && negb (is_scoped_fragment_location location_hint)
  then detect_blocking_action_in_fragments secrets (http1_fragments data headers) protocol (request_summary headers protocol) http2_stream_id
  else detect_blocking_action_in_fragments secrets [(prev_tail ++ data, location_hint)] protocol summary_default http2_stream_id.

(** HTTP/2 fields: pseudo-headers and names on their own, the other fields as
    lines. *)
Definition http2_header_fragments (headers : list (list byte * list byte)) : list (list byte * RequestLocation) :=
  let pseudo (name : list byte) := bytes_starts_with name (bytes_of ":") in
  let metadata := map (fun '(name, value) => name ++ bytes_of ": " ++ value) (List.filter (fun '(name, _) => negb (pseudo name)) headers) in
  fold_left (fun fragments '(name, value) =>
    let fragments := fragments ++ [(name, LocUnknown)] in
    if eq_ignore_ascii_case name (bytes_of ":path") then push_request_target_fragments fragments value
    else if pseudo name then fragments ++ [(value, LocUnknown)] else fragments) headers []
  ++ map (fun l => (l, LocHeader)) metadata.

Definition detect_http2_header_blocking_action (secrets : list IneligibleSecret) (headers : list (list byte * list byte))
    (summary : RequestSummary) (stream_id : Z) : option SecretViolationReport :=
  detect_blocking_action_in_fragments secrets (http2_header_fragments headers) Http2 summary (Some stream_id).
End Scan.

(** ** Searching *)

Definition infix (p l : list byte) : Prop := exists x y, l = x ++ p ++ y.

Lemma infix_app p l x y : infix p l -> infix p (x ++ l ++ y).
Proof. intros (x' & y' & ->). exists (x ++ x'), (y' ++ y). by rewrite <- !app_assoc. Qed.

Lemma bytes_find_infix p l : is_Some (bytes_find p l) <-> infix p l.
Proof.
  induction l as [|b l IH]; cbn [bytes_find].
  - destruct (bytes_starts_with [] p) eqn:E.
    + apply bytes_starts_with_iff in E as [r Hr]. split; [|by eexists]. intros _. by exists [], r.
    + split; [by intros []|]. intros (x & y & Hxy). destruct x; [|done]. cbn in Hxy.
      by rewrite (proj2 (bytes_starts_with_iff [] p)) in E by (by exists y).
  - destruct (bytes_starts_with (b :: l) p) eqn:E.
    + apply bytes_starts_with_iff in E as [r Hr]. split; [|by eexists]. intros _. by exists [], r.
    + rewrite fmap_is_Some, IH. split; intros (x & y & Hxy); [exists (b :: x), y; by rewrite Hxy|].
      destruct x as [|b' x]; cbn in Hxy.
      * by rewrite (proj2 (bytes_starts_with_iff _ p)) in E by (by exists y).
      * injection Hxy as -> ->. by exists x, y.
Qed.

Lemma contains_bytes_iff l p : contains_bytes l p = true <-> p <> [] /\ infix p l.
Proof.
  unfold contains_bytes, is_nil. case_bool_decide; [naive_solver|]. cbn [orb].
  destruct (Nat.ltb_spec (length l) (length p)) as [Hlt|].
  - split; [done|]. intros [_ (x & y & ->)]. len.
  - rewrite bool_decide_eq_true, bytes_find_infix. naive_solver.
Qed.

Lemma str_contains_iff l p : str_contains l p = true <-> infix p l.
Proof. unfold str_contains. by rewrite bool_decide_eq_true, bytes_find_infix. Qed.

Lemma app_tail_split {A} (x d y r : list A) : x ++ d = y ++ r -> (length d <= length r)%nat -> exists r1, r = r1 ++ d /\ x = y ++ r1.
Proof.
  intros E Hl. apply app_eq_app in E as [m [[-> ->]|[-> ->]]]; [by exists m|].
  rewrite length_app in Hl. destruct m; [|cbn in Hl; lia]. exists []. by rewrite !app_nil_r.
Qed.

Lemma app_head_split {A} (x d y r : list A) : x ++ d = y ++ r -> (length x <= length y)%nat -> exists m, y = x ++ m /\ d = m ++ r.
Proof.
  intros E Hl. apply app_eq_app in E as [m [[-> ->]|[-> ->]]]; [|by exists m].
  rewrite length_app in Hl. destruct m; [|cbn in Hl; lia]. exists []. by rewrite !app_nil_r.
Qed.

(** ** Escapes

    A decoding that replaces every occurrence of an escape: the byte [c] and
    [K] more bytes, none of which is [c]. *)

Section escapes.
Variables (c : byte) (K : nat) (esc : list byte -> option (list byte)) (f : list byte -> list byte).
Hypothesis esc_shape : forall t out, esc t = Some out -> length t = K /\ c ∉ t.
Hypothesis f_nil : f [] = [].
Hypothesis f_escape : forall t out rest, esc t = Some out -> f (c :: t ++ rest) = out ++ f rest.
Hypothesis f_literal : forall b rest, (forall t out y, b :: rest = c :: t ++ y -> esc t <> Some out) -> f (b :: rest) = b :: f rest.

(** No escape lies across the end of [u]. *)
Definition clean (u v : list byte) : Prop :=
  forall u1 u2 v1 v2 t, u = u1 ++ u2 -> v = v1 ++ v2 -> u2 <> [] -> v1 <> [] -> u2 ++ v1 = c :: t -> esc t = None.

Lemma clean_mono x u v y : clean (x ++ u) (v ++ y) -> clean u v.
Proof.
  intros Hc u1 u2 v1 v2 t -> -> H2 H1 Ht.
  apply (Hc (x ++ u1) u2 v1 (v2 ++ y) t); [by rewrite app_assoc | by rewrite app_assoc | done..].
Qed.

Lemma clean_nil_l v : clean [] v.
Proof. intros u1 u2 v1 v2 t E _ Hu. symmetry in E. apply app_eq_nil in E as [_ ->]. done. Qed.

Lemma clean_nil_r u : clean u [].
Proof. intros u1 u2 v1 v2 t _ E _ Hv. symmetry in E. apply app_eq_nil in E as [-> _]. done. Qed.

Lemma clean_app u v w : clean u (v ++ w) -> clean v w -> clean (u ++ v) w.
Proof.
  intros Huv Hvw x1 x2 w1 w2 t Hx Hw Hx2 Hw1 Ht. symmetry in Hx. apply app_eq_app in Hx as [m [[Hx1 Hv]|[Hu Hx2']]]; subst.
  - by apply (Hvw m x2 w1 w2 t).
  - destruct m as [|b m]; [cbn in *; by apply (Hvw [] v w1 w2 t)|].
    apply (Huv x1 (b :: m) (v ++ w1) w2 t); [done | by rewrite app_assoc | done | | by rewrite app_assoc].
    destruct v; [done|]. done.
Qed.

(** One token: an escape, or one byte. *)
Inductive token : list byte -> list byte -> list byte -> Prop :=
| token_escape t out rest : esc t = Some out -> token (c :: t) out rest
| token_literal b rest : (forall t out y, b :: rest = c :: t ++ y -> esc t <> Some out) -> token [b] [b] rest.

Lemma token_decode tok out rest : token tok out rest -> f (tok ++ rest) = out ++ f rest.
Proof. destruct 1; [by apply f_escape | by apply f_literal]. Qed.

Lemma token_alone tok out rest : token tok out rest -> f tok = out.
Proof.
  destruct 1 as [t out rest Ht|b rest Hn].
  - pose proof (f_escape t out [] Ht) as E. by rewrite app_nil_r, f_nil, app_nil_r in E.
  - rewrite (f_literal b []); [by rewrite f_nil|]. intros t out y E Ht. destruct t; [|done]. injection E as -> _.
    by apply (Hn [] out rest).
Qed.

Lemma token_clean tok out rest : token tok out rest -> clean tok rest.
Proof.
  destruct 1 as [t out rest Ht|b rest Hn]; intros u1 u2 v1 v2 t' Hu Hv Hu2 Hv1 Ht'.
  - destruct (esc t') as [out'|] eqn:E; [|done]. exfalso. apply esc_shape in Ht as [Hlt Hct]. apply esc_shape in E as [Hlt' _].
    destruct u1 as [|b u1]; cbn in Hu.
    + subst u2. cbn in Ht'. injection Ht' as <-. destruct v1; [done|]. len.
    + injection Hu as <- ->. destruct u2 as [|b' u2]; [done|]. cbn in Ht'. injection Ht' as -> _.
      apply Hct. rewrite elem_of_app. right. apply list_elem_of_here.
  - destruct (esc t') as [out'|] eqn:E; [|done]. exfalso. destruct u1 as [|b' [|]]; cbn in Hu; [|by simplify_eq..].
    subst u2. cbn in Ht'. injection Ht' as -> <-. subst rest. by apply (Hn v1 out' v2).
Qed.

Lemma token_first b l : exists tok out rest, b :: l = tok ++ rest /\ token tok out rest.
Proof.
  destruct (decide (b = c)) as [->|Hne].
  - destruct (esc (take K l)) as [out|] eqn:E.
    + exists (c :: take K l), out, (drop K l). split; [cbn; by rewrite take_drop | by constructor].
    + exists [c], [c], l. split; [done|]. apply token_literal. intros t out y [= ->] Ht. pose proof Ht as [Hl _]%esc_shape.
      rewrite take_app_length' in E by done. congruence.
  - exists [b], [b], l. split; [done|]. apply token_literal. intros t out y [= -> _]. done.
Qed.

Lemma token_length tok out rest : token tok out rest -> (0 < length tok <= S K)%nat.
Proof. destruct 1 as [t out rest Ht|b rest Hn]; [apply esc_shape in Ht as [Hl _]; cbn; lia | cbn; lia]. Qed.

Lemma by_tokens (P : list byte -> Prop) :
  P [] -> (forall tok out rest, token tok out rest -> P rest -> P (tok ++ rest)) -> forall s, P s.
Proof.
  intros Hnil Htok s. remember (length s) as n eqn:Hn. revert s Hn. induction (lt_wf n) as [n _ IH]; intros s ->.
  destruct s as [|b s]; [done|]. destruct (token_first b s) as (tok & out & rest & Hs & Ht). pose proof (token_length _ _ _ Ht).
  rewrite Hs. apply (Htok _ out); [done|]. apply (IH (length rest)); [|done]. rewrite Hs, length_app. lia.
Qed.

Lemma decode_app u v : clean u v -> f (u ++ v) = f u ++ f v.
Proof.
  revert v. induction u as [|tok out rest Ht IH] using by_tokens; intros v Hc; [by rewrite f_nil|].
  rewrite (token_decode _ _ _ Ht), <- app_assoc.
  assert (token tok out (rest ++ v)) as Ht'.
  { destruct Ht as [t out rest Ht|b rest Hn]; [by constructor|]. apply token_literal. intros t out y E Ht.
    destruct (decide (K <= length rest)%nat) as [Hle|Hgt].
    - apply (Hn t out (drop K rest)); [|done]. injection E as -> E. f_equal. pose proof Ht as [Hl _]%esc_shape.
      rewrite <- (take_drop K rest) at 1. f_equal. apply (f_equal (take K)) in E.
      by rewrite take_app_le, take_app_length' in E by lia.
    - pose proof Ht as [Hl _]%esc_shape. injection E as -> E.
      assert (t = rest ++ take (K - length rest) v) as Et.
      { apply (f_equal (take K)) in E. rewrite (take_app_length' t y) in E by lia. rewrite <- E, take_app. rewrite take_ge by lia. done. }
      assert (esc t = None); [|congruence].
      apply (Hc [] (c :: rest) (take (K - length rest) v) (drop (K - length rest) v) t); [done | by rewrite take_drop | done | | by rewrite Et].
      intros E0. rewrite E0 in Et. rewrite Et in Hl. len. }
  rewrite (token_decode _ _ _ Ht'), IH, app_assoc; [done|]. rewrite <- (app_nil_r v) in Hc. by eapply clean_mono.
Qed.

(** Every escape of [s] stands for something. *)
Definition visible (s : list byte) : Prop := forall x t out y, s = x ++ c :: t ++ y -> esc t = Some out -> out <> [].

Lemma visible_suffix x s : visible (x ++ s) -> visible s.
Proof. intros Hv x' t out y -> Ht. apply (Hv (x ++ x') t out y); [by rewrite <- app_assoc | done]. Qed.

Lemma token_visible tok out rest : token tok out rest -> visible (tok ++ rest) -> out <> [].
Proof. destruct 1 as [t out rest Ht|b rest Hn]; intros Hv; [|done]. by apply (Hv [] t out rest). Qed.

(** The first [n] decoded bytes come from few bytes. *)
Lemma decode_cover s n :
  visible s -> (n <= length (f s))%nat ->
  exists e r, s = e ++ r /\ clean e r /\ (n <= length (f e))%nat /\ (length e <= S K * n)%nat.
Proof.
  revert n. induction s as [|tok out rest Ht IH] using by_tokens; intros n Hv Hn.
  - rewrite f_nil in Hn. cbn in Hn. exists [], []. split_and!; [done | apply clean_nil_l | lia | cbn; lia].
  - destruct n as [|n]; [exists [], (tok ++ rest); split_and!; [done | apply clean_nil_l | lia | cbn; lia]|].
    rewrite (token_decode _ _ _ Ht), length_app in Hn. pose proof (token_visible _ _ _ Ht Hv) as Hne.
    assert (0 < length out)%nat by (destruct out; [done | cbn; lia]).
    destruct (IH (S n - length out)%nat) as (e & r & -> & Hc & Hl & He); [by eapply visible_suffix | lia |].
    pose proof (token_length _ _ _ Ht). exists (tok ++ e), r. split_and!; [by rewrite app_assoc | | | rewrite length_app; nia].
    + apply clean_app; [by apply (token_clean _ out) | done].
    + assert (clean tok e) as Hte.
      { pose proof (token_clean _ _ _ Ht) as Hcl. rewrite <- (app_nil_l tok) in Hcl. by eapply clean_mono. }
      rewrite (decode_app _ _ Hte), length_app.
      rewrite (token_alone _ _ _ Ht). lia.
Qed.

Lemma occurrence_further tok out a e r p :
  token tok out (a ++ e ++ r) ->
  (forall a1 a2 r1 r2, a = a1 ++ a2 -> r = r1 ++ r2 -> infix p (f (a2 ++ e ++ r1))) ->
  forall a1 a2 r1 r2, tok ++ a = a1 ++ a2 -> r = r1 ++ r2 -> infix p (f (a2 ++ e ++ r1)).
Proof.
  intros Ht Hin a1 a2 r1 r2 Ha ->. apply app_eq_app in Ha as [m [[-> ->]|[-> ->]]].
  - pose proof (token_clean _ _ _ Ht) as Hc.
    replace (a ++ e ++ r1 ++ r2) with ((a ++ e ++ r1) ++ r2) in Hc by (by rewrite <- !app_assoc).
    apply clean_mono in Hc. rewrite <- app_assoc, decode_app by done.
    rewrite <- (app_nil_r (f (a ++ e ++ r1))). apply infix_app. by apply (Hin [] a r1 r2).
  - by apply (Hin m a2 r1 r2).
Qed.

Lemma occurrence_here tok out rest x m p y :
  token tok out rest -> visible rest -> p <> [] -> out = x ++ m -> m <> [] -> p ++ y = m ++ f rest ->
  exists e r, tok ++ rest = e ++ r /\ (length e <= S K * length p)%nat /\ e <> []
    /\ forall r1 r2, r = r1 ++ r2 -> infix p (f (e ++ r1)).
Proof.
  intros Ht Hv Hp -> Hm Hf. pose proof (token_length _ _ _ Ht) as Hlt.
  assert (0 < length m)%nat by (destruct m; [done | cbn; lia]).
  pose proof (f_equal length Hf) as Hlen. rewrite !length_app in Hlen.
  destruct (decode_cover rest (length p - length m)) as (e & r & -> & Hc & Hn & He); [done | lia |].
  exists (tok ++ e), r. split_and!.
  - by rewrite app_assoc.
  - rewrite length_app. assert (length p <> 0)%nat by (by destruct p). nia.
  - destruct tok; [cbn in Hlt; lia | done].
  - intros r1 r2 ->. pose proof (token_clean _ _ _ Ht) as Hct. rewrite app_assoc in Hct. rewrite <- (app_nil_l tok) in Hct.
    apply clean_mono in Hct. pose proof (clean_mono [] e r1 r2 Hc) as Hc1.
    rewrite <- app_assoc, decode_app, (token_alone _ _ _ Ht), decode_app by done.
    rewrite (decode_app e (r1 ++ r2)), app_assoc in Hf by done.
    apply app_eq_app in Hf as [z [[Hz _]|[Hz _]]].
    + assert (z = []) as -> by (apply (f_equal length) in Hz; rewrite !length_app in Hz; destruct z; [done | cbn in Hz; lia]).
      rewrite app_nil_r in Hz. exists x, (f r1). by rewrite Hz, <- !app_assoc.
    + exists x, (z ++ f r1). by rewrite <- !app_assoc, (app_assoc m), Hz, <- !app_assoc.
Qed.

(** An occurrence in the decoded text comes from a short part of the text, and
    shows in every part of the text around it. *)
Lemma decode_occurrence s p :
  visible s -> p <> [] -> infix p (f s) ->
  exists a e r, s = a ++ e ++ r /\ (length e <= S K * length p)%nat /\ e <> []
    /\ forall a1 a2 r1 r2, a = a1 ++ a2 -> r = r1 ++ r2 -> infix p (f (a2 ++ e ++ r1)).
Proof.
  intros Hv Hp. revert Hv. induction s as [|tok out rest Ht IH] using by_tokens; intros Hv (x & y & Hf).
  - rewrite f_nil in Hf. symmetry in Hf. apply app_eq_nil in Hf as [_ [? _]%app_eq_nil]. done.
  - pose proof (visible_suffix _ _ Hv) as Hv'. rewrite (token_decode _ _ _ Ht) in Hf.
    apply app_eq_app in Hf as [m [[Hout Hrest]|[Hx Hrest]]].
    + destruct m as [|b m].
      * rewrite app_nil_r in Hout. subst x. cbn in Hrest.
        destruct IH as (a & e & r & -> & He & Hne & Hin); [done | by exists [], y |].
        exists (tok ++ a), e, r. split_and!; [by rewrite <- app_assoc | done | done |]. by eapply occurrence_further.
      * destruct (occurrence_here tok out rest x (b :: m) p y) as (e & r & -> & He & Hne & Hin); [done..|].
        exists [], e, r. split_and!; [done..|]. intros a1 a2 r1 r2 Ha. symmetry in Ha. apply app_eq_nil in Ha as [_ ->]. apply Hin.
    + destruct IH as (a & e & r & -> & He & Hne & Hin); [done | by exists m, y |].
      exists (tok ++ a), e, r. split_and!; [by rewrite <- app_assoc | done | done |]. by eapply occurrence_further.
Qed.

(** ** Streams

    One more read: [q ++ sfx ++ data] is looked at, where the stream so far
    ends with [sfx].  Either [sfx] is all of it, or it is long enough, or a
    byte comes before it that is in no escape and not in the pattern. *)

Lemma clean_mark q v : c ∉ q -> clean q v.
Proof.
  intros Hq u1 u2 v1 v2 t -> _ Hu _ Ht. destruct u2 as [|b u2]; [done|]. injection Ht as -> _.
  exfalso. apply Hq. rewrite elem_of_app. right. apply list_elem_of_here.
Qed.

Lemma clean_around w x y :
  w <> c -> (forall t out, esc t = Some out -> w ∉ t) -> clean x (w :: y) /\ clean (x ++ [w]) y.
Proof.
  intros Hw Hesc. split; intros u1 u2 v1 v2 t Hu Hv Hu2 Hv1 Ht; (destruct (esc t) as [out|] eqn:E; [|done]); exfalso; apply (Hesc _ _ E).
  - destruct v1 as [|b v1]; [done|]. injection Hv as <- _. destruct u2 as [|b' u2]; [done|]. injection Ht as _ <-.
    rewrite elem_of_app. right. apply list_elem_of_here.
  - destruct u2 as [|b u2 _] using rev_ind; [done|]. rewrite app_assoc in Hu. apply app_inj_tail in Hu as [_ <-].
    destruct u2 as [|b' u2]; [exfalso; cbn in Ht; congruence|]. injection Ht as _ <-.
    rewrite !elem_of_app. left. right. apply list_elem_of_here.
Qed.

Lemma infix_split p x w y : w ∉ p -> infix p (x ++ w :: y) -> infix p x \/ infix p y.
Proof.
  intros Hw (a & e & E). apply app_eq_app in E as [m [[-> Hm]|[-> Hm]]].
  - apply app_eq_app in Hm as [z [[Hz Hy]|[Hz _]]]; [|left; exists a, z; by rewrite Hz].
    destruct z as [|b z]; [left; rewrite app_nil_r in Hz; subst; exists a, []; by rewrite app_nil_r|].
    injection Hy as <- ->. exfalso. apply Hw. rewrite Hz, elem_of_app. right. apply list_elem_of_here.
  - destruct m as [|b m].
    + cbn in Hm. destruct p as [|b p]; [right; by exists [], y|]. injection Hm as -> _. exfalso. apply Hw, list_elem_of_here.
    + injection Hm as -> ->. right. by exists m, e.
Qed.

Definition covered (W : Z) (p pre sfx : list byte) : Prop :=
  pre = [] \/ W - 1 <= zlen sfx
  \/ (exists pre' w, pre = pre' ++ [w] /\ w <> c /\ (w ∉ p) /\ (forall t out, esc t = Some out -> w ∉ t)).

Lemma stream_step W p q pre sfx data :
  visible ((pre ++ sfx) ++ data) -> p <> [] -> Z.of_nat (S K * length p) <= W -> c ∉ q -> covered W p pre sfx ->
  ~ infix p (f (pre ++ sfx)) -> ~ infix p (f (q ++ sfx ++ data)) -> ~ infix p (f ((pre ++ sfx) ++ data)).
Proof.
  intros Hv Hp HW Hq Hcov Hold Hnew Hin.
  assert (Hnew' : ~ infix p (f (sfx ++ data))).
  { intros Hz. apply Hnew. rewrite decode_app by (by apply clean_mark). rewrite <- (app_nil_r (f (sfx ++ data))). by apply infix_app. }
  destruct Hcov as [->|[Hlen|(pre' & w & -> & Hwc & Hwp & Hw)]]; [done| |].
  - destruct (decode_occurrence _ p Hv Hp Hin) as (a & e & r & E & He & _ & Hocc).
    pose proof (f_equal length E) as El. rewrite !length_app in El.
    destruct (decide (length data <= length r)%nat) as [Hr|Hr].
    + rewrite app_assoc in E. destruct (app_tail_split _ _ _ _ E Hr) as (r1 & -> & Hs). rewrite <- app_assoc in Hs.
      apply Hold. rewrite Hs. by apply (Hocc [] a r1 data).
    + rewrite <- app_assoc in E. destruct (app_head_split _ _ _ _ E) as (m & -> & Hs); [lia|].
      apply Hnew'. rewrite Hs. apply (Hocc pre m r []); [done | by rewrite app_nil_r].
  - destruct (clean_around w pre' (sfx ++ data) Hwc Hw) as [Hc1 Hc2].
    destruct (clean_around w pre' sfx Hwc Hw) as [_ Hc3].
    rewrite <- (app_assoc (pre' ++ [w])), decode_app in Hin by done. rewrite decode_app in Hold by done.
    assert (Hfw : f (pre' ++ [w]) = f pre' ++ [w]).
    { rewrite decode_app by (rewrite <- (app_nil_l pre') in Hc1; change (w :: sfx ++ data) with ([w] ++ (sfx ++ data)) in Hc1; by eapply clean_mono).
      rewrite f_literal; [by rewrite f_nil|]. intros t out y [= -> _]. done. }
    rewrite Hfw, <- app_assoc in Hin, Hold. cbn [app] in Hin, Hold. apply infix_split in Hin as [Hin|Hin]; [|by apply Hnew' | done].
    apply Hold. rewrite <- (app_nil_l (f pre' ++ _)). by apply infix_app.
Qed.
End escapes.

(** ** The two decodings *)

(** [percent_encoding::percent_decode], as documented: a percent sign and two
    hex digits stand for a byte, everything else for itself. *)
Class PercentDecoding `{SecretCodecs} := {
  percent_nil : percent_decode [] = [];
  percent_hex : forall h l x y rest, hex_digit h = Some x -> hex_digit l = Some y ->
    percent_decode ("%"%byte :: h :: l :: rest) = byte_of_Z (x * 16 + y) :: percent_decode rest;
  percent_other : forall b rest,
    (b = "%"%byte -> forall h l r, rest = h :: l :: r -> hex_digit h = None \/ hex_digit l = None) ->
    percent_decode (b :: rest) = b :: percent_decode rest
}.

Definition percent_escape (t : list byte) : option (list byte) :=
  match t with
  | [h; l] => let* x := hex_digit h in let* y := hex_digit l in Some [byte_of_Z (x * 16 + y)]
  | _ => None
  end.

Lemma hex_digit_not_mark b x : hex_digit b = Some x -> b <> "%"%byte /\ b <> "\"%byte.
Proof. intros Hx. split; intros ->; vm_compute in Hx; congruence. Qed.

Lemma percent_escape_shape t out : percent_escape t = Some out -> length t = 2%nat /\ "%"%byte ∉ t.
Proof.
  destruct t as [|h [|l [|]]]; try done. cbn. destruct (hex_digit h) eqn:Hh; [|done]. destruct (hex_digit l) eqn:Hl; [|done].
  apply hex_digit_not_mark in Hh as [Hh _], Hl as [Hl _]. intros _. split; [done|]. rewrite !elem_of_cons, elem_of_nil. naive_solver.
Qed.

Lemma json_escape_shape t out : json_escape t = Some out -> length t = 5%nat /\ "\"%byte ∉ t.
Proof.
  destruct t as [|u [|d1 [|d2 [|d3 [|d4 [|]]]]]]; try done. cbn. case_decide as Hu; [|done].
  destruct (hex_digit d1) eqn:H1; [|done]. destruct (hex_digit d2) eqn:H2; [|done].
  destruct (hex_digit d3) eqn:H3; [|done]. destruct (hex_digit d4) eqn:H4; [|done].
  apply hex_digit_not_mark in H1 as [_ H1], H2 as [_ H2], H3 as [_ H3], H4 as [_ H4]. intros _. split; [done|].
  rewrite !elem_of_cons, elem_of_nil. subst u. naive_solver.
Qed.

Lemma json_unescape_escape t out rest : json_escape t = Some out -> json_unescape ("\"%byte :: t ++ rest) = out ++ json_unescape rest.
Proof.
  intros Ht. pose proof Ht as [Hl _]%json_escape_shape. destruct t as [|u [|d1 [|d2 [|d3 [|d4 [|]]]]]]; try done.
  cbn [app json_unescape]. rewrite decide_True by done. by rewrite Ht.
Qed.

Lemma json_unescape_literal b rest :
  (forall t out y, b :: rest = "\"%byte :: t ++ y -> json_escape t <> Some out) -> json_unescape (b :: rest) = b :: json_unescape rest.
Proof.
  intros Hn. cbn [json_unescape]. destruct rest as [|u [|d1 [|d2 [|d3 [|d4 rest']]]]]; try done.
  case_decide as Hb; [|done]. destruct (json_escape [u; d1; d2; d3; d4]) as [out|] eqn:E; [|done].
  exfalso. by apply (Hn [u; d1; d2; d3; d4] out rest'); [subst b|].
Qed.

Section decoding.
Context `{PercentDecoding}.

Lemma percent_decode_escape t out rest :
  percent_escape t = Some out -> percent_decode ("%"%byte :: t ++ rest) = out ++ percent_decode rest.
Proof.
  destruct t as [|h [|l [|]]]; try done. cbn. destruct (hex_digit h) eqn:Hh; [|done]. destruct (hex_digit l) eqn:Hl; [|done].
  intros [= <-]. by apply percent_hex.
Qed.

Lemma percent_decode_literal b rest :
  (forall t out y, b :: rest = "%"%byte :: t ++ y -> percent_escape t <> Some out) -> percent_decode (b :: rest) = b :: percent_decode rest.
Proof.
  intros Hn. apply percent_other. intros -> h l r ->. destruct (hex_digit h) eqn:Hh; [|by left].
  destruct (hex_digit l) eqn:Hl; [|by right]. exfalso. eapply (Hn [h; l]); [done|]. cbn. by rewrite Hh, Hl.
Qed.

Lemma percent_visible s : visible "%"%byte percent_escape s.
Proof.
  intros x t out y _ Ht. destruct t as [|h [|l [|]]]; try done. cbn in Ht.
  destruct (hex_digit h); [|done]. destruct (hex_digit l); [|done]. by injection Ht as <-.
Qed.

Lemma percent_decode_plain s : "%"%byte ∉ s -> percent_decode s = s.
Proof.
  induction s as [|b s IH]; intros Hs; [apply percent_nil|]. apply not_elem_of_cons in Hs as [Hb Hs].
  rewrite percent_other by done. f_equal. by apply IH.
Qed.

Lemma json_unescape_plain s : ~ infix (bytes_of "\u") s -> json_unescape s = s.
Proof.
  induction s as [|b s IH]; intros Hs; [done|]. rewrite json_unescape_literal.
  - f_equal. apply IH. intros (x & y & ->). apply Hs. by exists (b :: x), y.
  - intros t out y [= -> ->] Ht. pose proof Ht as [Hl _]%json_escape_shape. destruct t as [|u t]; [done|]. apply Hs.
    destruct (decide (u = "u"%byte)) as [->|Hu]; [by exists [], (t ++ y)|].
    exfalso. destruct t as [|d1 [|d2 [|d3 [|d4 [|]]]]]; try done. cbn in Ht. by rewrite decide_False in Ht.
Qed.

(** A fragment without a match has the placeholder in no form. *)
Lemma fragment_match_None protocol z location p :
  fragment_match protocol (z, location) p = None -> p <> [] ->
  ~ infix p z /\ ~ infix p (percent_decode z) /\ ~ infix p (json_unescape z).
Proof.
  intros Hm Hp. unfold fragment_match in Hm. destruct (existsb _ _) in Hm; [done|].
  destruct (contains_bytes z p) eqn:Hraw; [done|].
  assert (Hr : ~ infix p z) by (intros Hin; by rewrite (proj2 (contains_bytes_iff z p)) in Hraw).
  destruct (existsb (byte_eqb "%"%byte) z && contains_bytes (percent_decode z) p) eqn:Hpc; [done|].
  destruct (str_contains z (bytes_of "\u") && contains_bytes (json_unescape z) p) eqn:Hjs; [done|].
  split; [done|]. split; intros Hin.
  - rewrite (proj2 (contains_bytes_iff (percent_decode z) p)), andb_true_r in Hpc by done.
    rewrite percent_decode_plain in Hin; [done|]. intros Hel. apply not_true_iff_false in Hpc. apply Hpc.
    apply existsb_exists. exists "%"%byte. split; [by apply list_elem_of_In | by apply byte_eqb_iff].
  - rewrite (proj2 (contains_bytes_iff (json_unescape z) p)), andb_true_r in Hjs by done.
    rewrite json_unescape_plain in Hin; [done|]. intros Hu. by rewrite (proj2 (str_contains_iff z _) Hu) in Hjs.
Qed.
End decoding.

(** ** The report *)

Section report.
Context `{SecretCodecs}.
Variables (protocol : RequestProtocol) (summary : RequestSummary) (id : option Z).

Definition report_of (secret : IneligibleSecret) (m : RequestLocation * PlaceholderMatchForm) : SecretViolationReport :=
  mkReport (is_action secret) (is_env_var secret) (is_placeholder secret) protocol (fst m) (snd m) summary id.

(** [r] reports one of [pairs] and is as strict as all of them. *)
Definition strictest_of (pairs : list ((list byte * RequestLocation) * IneligibleSecret)) (r : option SecretViolationReport) : Prop :=
  match r with
  | None => Forall (fun '(fragment, secret) => fragment_match protocol fragment (is_placeholder secret) = None) pairs
  | Some r =>
      (exists fragment secret m, (fragment, secret) ∈ pairs
         /\ fragment_match protocol fragment (is_placeholder secret) = Some m /\ r = report_of secret m)
      /\ Forall (fun '(fragment, secret) => is_Some (fragment_match protocol fragment (is_placeholder secret)) ->
                                            priority (is_action secret) <= priority (vr_action r)) pairs
  end.

Lemma detect_one_strictest pairs r fragment secret :
  strictest_of pairs r -> strictest_of (pairs ++ [(fragment, secret)]) (detect_one protocol summary id fragment r secret).
Proof.
  intros Hr. unfold detect_one. destruct (fragment_match protocol fragment (is_placeholder secret)) as [[loc form]|] eqn:Hm.
  - assert (Hnew : (fragment, secret) ∈ pairs ++ [(fragment, secret)]) by (rewrite elem_of_app, list_elem_of_singleton; by right).
    destruct r as [r|]; cbn [strictest_violation_report strictest_of] in *.
    + destruct Hr as [(fr & s & m & Hin & Hfm & Hrep) Hall]. destruct (Z.ltb_spec (priority (vr_action r)) (priority (is_action secret))) as [Hlt|Hge].
      * cbn. rewrite (proj2 (Z.ltb_lt _ _) Hlt). split; [by exists fragment, secret, (loc, form)|].
        apply Forall_app. split; [|by repeat constructor]. eapply Forall_impl; [done|]. intros [f' s'] Hle Hs. cbn in Hle |- *.
        specialize (Hle Hs). lia.
      * cbn. rewrite (proj2 (Z.ltb_ge _ _) Hge). split; [exists fr, s, m; rewrite elem_of_app; tauto|].
        apply Forall_app. split; [done|]. by repeat constructor.
    + split; [by exists fragment, secret, (loc, form)|]. apply Forall_app. split; [|by repeat constructor].
      eapply Forall_impl; [done|]. intros [f' s'] Hnone [? Hs]. congruence.
  - destruct r as [r|]; cbn [strictest_of] in *.
    + destruct Hr as [(fr & s & m & Hin & Hfm & Hrep) Hall]. split; [exists fr, s, m; rewrite elem_of_app; tauto|].
      apply Forall_app. split; [done|]. repeat constructor. intros [? Hs]. congruence.
    + apply Forall_app. split; [done|]. by repeat constructor.
Qed.

Definition pairs_of (secrets : list IneligibleSecret) (fragments : list (list byte * RequestLocation)) :=
  flat_map (fun fragment => map (pair fragment) secrets) fragments.

Lemma detect_fragment_strictest secrets fragment pairs r :
  strictest_of pairs r ->
  strictest_of (pairs ++ map (pair fragment) secrets) (fold_left (detect_one protocol summary id fragment) secrets r).
Proof.
  revert pairs r. induction secrets as [|secret secrets IH]; intros pairs r Hr; cbn [fold_left map]; [by rewrite app_nil_r|].
  rewrite (cons_middle (fragment, secret)), app_assoc. apply IH. by apply detect_one_strictest.
Qed.

Lemma detect_strictest secrets fragments :
  strictest_of (pairs_of secrets fragments) (detect_blocking_action_in_fragments secrets fragments protocol summary id).
Proof.
  unfold detect_blocking_action_in_fragments, pairs_of.
  assert (Hnil : strictest_of [] None) by constructor. revert Hnil.
  change (flat_map (fun fragment => map (pair fragment) secrets) fragments)
    with ([] ++ flat_map (fun fragment => map (pair fragment) secrets) fragments).
  generalize (@nil ((list byte * RequestLocation) * IneligibleSecret)). generalize (@None SecretViolationReport).
  induction fragments as [|fragment fragments IH]; intros r pairs Hr; cbn [fold_left flat_map]; [by rewrite app_nil_r|].
  rewrite app_assoc. apply IH. by apply detect_fragment_strictest.
Qed.

Lemma elem_of_pairs_of secrets fragments fragment secret :
  (fragment, secret) ∈ pairs_of secrets fragments <-> fragment ∈ fragments /\ secret ∈ secrets.
Proof.
  unfold pairs_of. rewrite list_elem_of_In, in_flat_map. rewrite !list_elem_of_In. split.
  - intros (x & Hx & (y & [= -> ->] & Hy)%in_map_iff). done.
  - intros [Hf Hs]. exists fragment. split; [done|]. apply in_map_iff. by exists secret.
Qed.

Lemma detect_None secrets fragments :
  detect_blocking_action_in_fragments secrets fragments protocol summary id = None ->
  forall fragment secret, fragment ∈ fragments -> secret ∈ secrets -> fragment_match protocol fragment (is_placeholder secret) = None.
Proof.
  intros Hd fragment secret Hf Hs. pose proof (detect_strictest secrets fragments) as H1. rewrite Hd in H1. cbn in H1.
  rewrite Forall_forall in H1. apply (H1 (fragment, secret)). by apply elem_of_pairs_of.
Qed.
End report.

(** ** The tail carried between reads *)

Definition lastn {A} (n : nat) (l : list A) : list A := drop (length l - n) l.

Lemma update_tail_lastn tail data n :
  0 <= n -> update_tail_buffer tail data n = lastn (Z.to_nat n) (tail ++ data).
Proof.
  intros Hn. unfold update_tail_buffer, lastn, saturating_sub. destruct (Z.eqb_spec n 0) as [->|Hn0].
  - rewrite drop_ge by lia. done.
  - destruct (Z.leb_spec n (zlen data)).
    + rewrite length_app, drop_app_ge by lia. f_equal. lia.
    + f_equal. lia.
Qed.

Section streams.
Context `{PercentDecoding}.

(** The placeholder is in [z], as it is or behind an encoding. *)
Definition shows (p z : list byte) : Prop := infix p z \/ infix p (percent_decode z) \/ infix p (json_unescape z).

(** [\u] escapes of code points that are no characters decode to nothing. *)
Definition no_lone_surrogates (s : list byte) : Prop := visible "\"%byte json_escape s.

(** What the tail must keep of the stream: all of it, or the last [W - 1]
    bytes, or what follows a blank that is not in the placeholder; possibly
    behind other bytes. *)
Definition tail_covers (W : Z) (p stream tail : list byte) : Prop :=
  exists q pre sfx, tail = q ++ sfx /\ stream = pre ++ sfx /\ ("%"%byte ∉ q) /\ ("\"%byte ∉ q)
    /\ (pre = [] \/ W - 1 <= zlen sfx \/ (exists pre' w, pre = pre' ++ [w] /\ is_ascii_whitespace w = true /\ (w ∉ p))).

Lemma hex_digit_not_blank b x : hex_digit b = Some x -> is_ascii_whitespace b = false.
Proof. destruct b; vm_compute; congruence. Qed.

Lemma percent_escape_no_blank t out w : percent_escape t = Some out -> is_ascii_whitespace w = true -> w ∉ t.
Proof.
  destruct t as [|h [|l [|]]]; try done. cbn. destruct (hex_digit h) eqn:Hh; [|done]. destruct (hex_digit l) eqn:Hl; [|done].
  apply hex_digit_not_blank in Hh, Hl. intros _ Hw. rewrite !elem_of_cons, elem_of_nil. intros [->|[->|[]]]; congruence.
Qed.

Lemma json_escape_no_blank t out w : json_escape t = Some out -> is_ascii_whitespace w = true -> w ∉ t.
Proof.
  destruct t as [|u [|d1 [|d2 [|d3 [|d4 [|]]]]]]; try done. cbn. case_decide as Hu; [|done].
  destruct (hex_digit d1) eqn:H1; [|done]. destruct (hex_digit d2) eqn:H2; [|done].
  destruct (hex_digit d3) eqn:H3; [|done]. destruct (hex_digit d4) eqn:H4; [|done].
  apply hex_digit_not_blank in H1, H2, H3, H4. intros _ Hw. rewrite !elem_of_cons, elem_of_nil. subst u.
  intros [->|[->|[->|[->|[->|[]]]]]]; try congruence. done.
Qed.

(** The same without decoding. *)
Lemma raw_step W p stream tail data :
  p <> [] -> zlen p <= W -> tail_covers W p stream tail -> ~ infix p stream -> ~ infix p (tail ++ data) -> ~ infix p (stream ++ data).
Proof.
  intros Hp HW (q & pre & sfx & -> & -> & Hq1 & Hq2 & Hcov) Hold Hnew Hin. rewrite <- app_assoc in Hnew.
  refine (stream_step "%"%byte 0 (fun _ => None) (fun z => z) _ _ _ _ W p q pre sfx data _ _ _ _ _ _ _ Hin);
    try done; try (by intros; simplify_eq); try lia; try tauto.
  destruct Hcov as [?|[?|(pre' & w & ? & Hw & ?)]]; [by left | right; by left | right; right]. exists pre', w.
  split_and!; [done | by intros -> | done | done].
Qed.

Lemma no_lone_surrogates_plain s : "\"%byte ∉ s -> no_lone_surrogates s.
Proof. intros Hs x t out y -> _. exfalso. apply Hs. rewrite elem_of_app. right. apply list_elem_of_here. Qed.

Lemma no_lone_surrogates_prefix s s' : no_lone_surrogates (s ++ s') -> no_lone_surrogates s.
Proof. intros Hv x t out y -> Ht. apply (Hv x t out (y ++ s')); [by rewrite <- app_assoc; cbn; rewrite <- app_assoc | done]. Qed.

Lemma tail_covers_step W p stream tail data :
  no_lone_surrogates (stream ++ data) -> p <> [] -> 6 * zlen p <= W -> tail_covers W p stream tail ->
  ~ shows p stream -> ~ shows p (tail ++ data) -> ~ shows p (stream ++ data).
Proof.
  intros Hv Hp HW (q & pre & sfx & -> & -> & Hq1 & Hq2 & Hcov) Hold Hnew. unfold shows in *.
  rewrite <- app_assoc in Hnew. intros [Hin|[Hin|Hin]].
  - apply (raw_step W p (pre ++ sfx) (q ++ sfx) data); [done | lia | by exists q, pre, sfx | tauto | rewrite <- app_assoc; tauto | done].
  - refine (stream_step "%"%byte 2 percent_escape percent_decode percent_escape_shape percent_nil percent_decode_escape
      percent_decode_literal W p q pre sfx data _ _ _ _ _ _ _ Hin); try done; try lia; try tauto; [apply percent_visible|].
    destruct Hcov as [?|[?|(pre' & w & ? & Hw & ?)]]; [by left | right; by left | right; right]. exists pre', w.
    split_and!; [done | by intros -> | done | intros t out Ht; by apply (percent_escape_no_blank t out)].
  - refine (stream_step "\"%byte 5 json_escape json_unescape json_escape_shape eq_refl json_unescape_escape
      json_unescape_literal W p q pre sfx data _ _ _ _ _ _ _ Hin); try done; try lia; try tauto.
    destruct Hcov as [?|[?|(pre' & w & ? & Hw & ?)]]; [by left | right; by left | right; right]. exists pre', w.
    split_and!; [done | by intros -> | done | intros t out Ht; by apply (json_escape_no_blank t out)].
Qed.

Lemma tail_covers_lastn W p stream tail data n :
  W - 1 <= Z.of_nat n -> tail_covers W p stream tail -> tail_covers W p (stream ++ data) (lastn n (tail ++ data)).
Proof.
  intros Hn (q & pre & sfx & -> & -> & Hq1 & Hq2 & Hcov). unfold lastn. set (k := (length ((q ++ sfx) ++ data) - n)%nat).
  rewrite <- (app_assoc q). destruct (decide (k <= length q)%nat) as [Hk|Hk].
  - exists (drop k q), pre, (sfx ++ data). split_and!; [by rewrite drop_app_le | by rewrite app_assoc | | |].
    + intros Hin. by apply subseteq_drop in Hin.
    + intros Hin. by apply subseteq_drop in Hin.
    + destruct Hcov as [?|[?|?]]; [by left | right; left; rewrite length_app; lia | by right; right].
  - exists [], (pre ++ take (k - length q) (sfx ++ data)), (drop (k - length q) (sfx ++ data)).
    split_and!; [by rewrite drop_app_ge by lia | by rewrite <- !app_assoc, take_drop | by apply not_elem_of_nil | by apply not_elem_of_nil|].
    right. left. rewrite length_drop. unfold k in *. rewrite !length_app in *. lia.
Qed.

Lemma tail_covers_update W p stream tail data n :
  W - 1 <= n -> 0 <= n -> tail_covers W p stream tail -> tail_covers W p (stream ++ data) (update_tail_buffer tail data n).
Proof. intros Hn Hpos Ht. rewrite update_tail_lastn by done. apply tail_covers_lastn; [lia|done]. Qed.

Lemma tail_covers_drop W p stream tail n :
  W - 1 <= zlen (drop n tail) -> tail_covers W p stream tail -> tail_covers W p stream (drop n tail).
Proof.
  intros Hn Ht. rewrite length_drop in Hn. apply (tail_covers_lastn _ _ _ _ [] (length tail - n)) in Ht; [|lia].
  rewrite !app_nil_r in Ht. unfold lastn in Ht. destruct (decide (n <= length tail)%nat); [by replace (length tail - (length tail - n))%nat with n in Ht by lia|].
  rewrite drop_ge in * by lia. done.
Qed.

Lemma tail_covers_prefix W p stream tail lit : "%"%byte ∉ lit -> "\"%byte ∉ lit -> tail_covers W p stream tail -> tail_covers W p stream (lit ++ tail).
Proof.
  intros H1 H2 (q & pre & sfx & -> & -> & Hq1 & Hq2 & Hcov). exists (lit ++ q), pre, sfx.
  split_and!; [by rewrite app_assoc | done | rewrite elem_of_app; tauto..|done].
Qed.

(** What follows a blank covers the stream for a placeholder without it. *)
Lemma tail_covers_blank W p stream tail y w enc :
  tail_covers W p stream tail -> tail = y ++ [w] ++ enc -> is_ascii_whitespace w = true -> (w ∉ p) -> tail_covers W p stream enc.
Proof.
  intros (q & pre & sfx & -> & -> & Hq1 & Hq2 & Hcov) E Hw Hwp. rewrite app_assoc in E. symmetry in E.
  apply app_eq_app in E as [m [[Hq Hs]|[Hq Hs]]].
  - subst sfx. destruct m as [|b m _] using rev_ind.
    + exists [], pre, enc. rewrite app_nil_r in Hq. split_and!; [done | done | by apply not_elem_of_nil.. | done].
    + rewrite app_assoc in Hq. apply app_inj_tail in Hq as [_ <-]. exists [], (pre ++ m ++ [w]), enc.
      split_and!; [done | by rewrite <- !app_assoc | by apply not_elem_of_nil.. |]. right. right. exists (pre ++ m), w. by rewrite <- app_assoc.
  - subst enc. exists m, pre, sfx. rewrite Hq, !elem_of_app in *. split_and!; [done | done | tauto | tauto | done].
Qed.

Lemma tail_covers_app W p stream tail data : tail_covers W p stream tail -> tail_covers W p (stream ++ data) (tail ++ data).
Proof.
  intros (q & pre & sfx & -> & -> & Hq1 & Hq2 & Hcov). exists q, pre, (sfx ++ data). rewrite <- !app_assoc. split_and!; try done.
  destruct Hcov as [?|[?|?]]; [by left | right; left; rewrite length_app; lia | by right; right].
Qed.

Lemma tail_covers_nil W p : tail_covers W p [] [].
Proof. exists [], [], []. split_and!; [done | done | by apply not_elem_of_nil | by apply not_elem_of_nil | by left]. Qed.

Lemma infix_nil_inv p : p <> [] -> ~ infix p [].
Proof. intros Hp (x & y & E). symmetry in E. apply app_eq_nil in E as [_ [? _]%app_eq_nil]. done. Qed.

Lemma not_shows_nil p : p <> [] -> ~ shows p [].
Proof.
  intros Hp. pose proof (infix_nil_inv p Hp) as Hn.
  intros [Hin|[Hin|Hin]]; [done | rewrite percent_nil in Hin; done | done].
Qed.
End streams.

(** ** An instance *)

Fixpoint percent_decode_ref (s : list byte) : list byte :=
  match s with
  | [] => []
  | b :: rest =>
      match rest with
      | h :: l :: rest' =>
          if decide (b = "%"%byte) then
            match hex_digit h, hex_digit l with
            | Some x, Some y => byte_of_Z (x * 16 + y) :: percent_decode_ref rest'
            | _, _ => b :: percent_decode_ref rest
            end
          else b :: percent_decode_ref rest
      | _ => b :: percent_decode_ref rest
      end
  end.

(** Percent decoding with no Basic credentials. *)
Definition simple_codecs : SecretCodecs := {|
  percent_decode := percent_decode_ref;
  base64_decode := fun _ => None;
  base64_encode := fun s => s
|}.

Lemma simple_percent : @PercentDecoding simple_codecs.
Proof.
  split; [done | |].
  - intros h l x y rest Hh Hl. cbn [percent_decode simple_codecs percent_decode_ref]. by rewrite decide_True, Hh, Hl.
  - intros b rest Hb. cbn [percent_decode simple_codecs percent_decode_ref]. destruct rest as [|h [|l rest]]; [done..|].
    case_decide as E; [|done]. destruct (Hb E h l rest eq_refl) as [->| ->]; [done|]. by destruct (hex_digit h).
Qed.
