(* ===== verification/SecretHandler.v ===== *)
(** * The secret handler of a connection

    [SecretsHandler] of [engine/secrets/handler.rs]: which secrets a connection
    may receive, which placeholders it must not carry, the state kept between
    network reads, and the methods its HTTP/1 and HTTP/2 halves share; with the
    configuration records of
    [packages/microsandbox-types/rust/lib/domain.rs] and the header credentials
    of [model/secrets/credential.rs].

    The theorems say which connections a secret's value can reach, that every
    other placeholder is watched for, and that the windows of the detector and
    of the body rewriter are long enough. *)

From S2P Require Import Prelude Text DomainName Addr TtlIndex SharedState Policy Chunked HttpText SecretScan.
From Stdlib Require Import Strings.Byte.

(** ** Configuration *)

Definition MAX_SECRET_PLACEHOLDER_BYTES : Z := 1024.
Definition MAX_HEADER_CREDENTIAL_VALUE_BYTES : Z := 8 * 1024.
Definition HOST_ALIAS : list byte := bytes_of "host.microsandbox.internal".

Inductive HostPattern :=
| Exact (h : list byte)
| Wildcard (pattern : list byte)
| AnyHost.

#[global] Instance HostPattern_eq_dec : EqDecision HostPattern.
Proof. solve_decision. Defined.

Definition host_pattern_parse (host : list byte) : HostPattern :=
  if bool_decide (host = bytes_of "*") then AnyHost
  else if bytes_starts_with host (bytes_of "*.") then Wildcard host else Exact host.

Definition host_pattern_matches (pattern : HostPattern) (hostname : list byte) : bool :=
  match pattern with
  | Exact h => eq_ignore_ascii_case hostname h
  | Wildcard p =>
      match bytes_strip_prefix (bytes_of "*.") p with
      | Some suffix =>
          let at_suffix := (length hostname - length suffix)%nat in
          eq_ignore_ascii_case hostname suffix
          || ((length suffix + 1 <? length hostname)%nat
              && bool_decide (hostname !! (at_suffix - 1)%nat = Some "."%byte)
              && eq_ignore_ascii_case (drop at_suffix hostname) suffix)
      | None => eq_ignore_ascii_case hostname p
      end
  | AnyHost => true
  end.

Record SecretSubstitution := mkSubstitution {
  sub_headers : bool;
  sub_header_fields : list (list byte);
  sub_query : bool;
  sub_body : bool
}.

Inductive SecretSource := SrcEnv (var : list byte) | SrcStore (reference : list byte) | SrcFile (path : list byte).

Record SecretEntry := mkEntry {
  env_var : list byte;
  value : list byte;
  source : option SecretSource;
  placeholder : list byte;
  allowed_hosts : list HostPattern;
  substitution : SecretSubstitution;
  passthrough_hosts : list HostPattern;
  violation_action : option SecretViolationAction;
  require_tls_identity : bool
}.

Record SecretsConfig := mkSecrets {
  cfg_passthrough_hosts : option (list HostPattern);
  cfg_secrets : list SecretEntry;
  cfg_violation_action : SecretViolationAction
}.

(** [SecretsConfigExt::has_host_scoped_secrets]. *)
Definition has_host_scoped_secrets (config : SecretsConfig) : bool :=
  let scoped h := negb (bool_decide (h = AnyHost)) in
  existsb (fun secret =>
    existsb scoped (allowed_hosts secret) || existsb scoped (passthrough_hosts secret)
    || (negb (bool_decide (is_Some (violation_action secret)))
        && match cfg_passthrough_hosts config with Some hosts => existsb scoped hosts | None => false end))
    (cfg_secrets config).

Definition has_plain_http_candidates (config : SecretsConfig) : bool :=
  existsb (fun secret => negb (require_tls_identity secret)
                         && (sub_headers (substitution secret) || sub_query (substitution secret) || sub_body (substitution secret)))
    (cfg_secrets config).

(** ** Header credentials *)

Record ResolvedHeaderCredential := mkCredential {
  cred_id : list byte;
  cred_origin_host : list byte;
  cred_origin_port : Z;
  cred_header : list byte;
  cred_format : list byte;
  cred_value : list byte
}.

Inductive HeaderCredentialRenderError := EmptyValue | UnsafeValue | RenderedTooLong (max_bytes : Z).

Definition is_printable_ascii (v : list byte) : bool := forallb (byte_in 0x20 0x7e) v.

(** [str::replacen(pat, to, 1)]. *)
Definition replace_first (s p to : list byte) : list byte :=
  match bytes_find p s with
  | Some i => take i s ++ to ++ drop (i + length p) s
  | None => s
  end.

Definition render (c : ResolvedHeaderCredential) : result HeaderCredentialRenderError (list byte) :=
  if is_nil (cred_value c) then Err EmptyValue
  else if negb (is_printable_ascii (cred_value c)) then Err UnsafeValue
  else
    let rendered := replace_first (cred_format c) (bytes_of "%s") (cred_value c) in
    if MAX_HEADER_CREDENTIAL_VALUE_BYTES <? zlen rendered then Err (RenderedTooLong MAX_HEADER_CREDENTIAL_VALUE_BYTES)
    else if negb (is_printable_ascii rendered) then Err UnsafeValue
    else Ok rendered.

Inductive CredentialIdentity :=
| Unverified
| ConnectAuthority
| DnsPinned (hostnames : list (list byte)) (gateway_bound : bool).

Record CredentialRequestOrigin := mkOrigin {
  co_host : list byte;
  co_port : Z;
  co_scheme_https : bool;
  co_absolute_form_agrees : bool
}.

(** ** Connection state *)

Record EligibleSecret := mkEligible {
  es_placeholder : list byte;
  es_value : list byte;
  es_substitute_headers : bool;
  es_header_fields : list (list byte);
  es_substitute_query : bool;
  es_substitute_body : bool;
  es_require_tls_identity : bool
}.

Record ChunkedRewriteState := mkRewrite { rw_parser : ChunkedBodyState; rw_substitution_tail : list byte }.
Definition rewrite_default : ChunkedRewriteState := mkRewrite chunked_default [].

Inductive HttpState :=
| AwaitingHeaders
| InBody (remaining : Z)
| InChunkedBody (state : ChunkedBodyState)
| InChunkedRewriteBody (state : ChunkedRewriteState)
| BufferingBody (remaining : Z).

Inductive RefusalSite :=
| SecretViolationSite | HttpAuthoritySite | HttpAuthorityCountSite | HttpAuthorityInvalidSite | HttpAuthorityMismatchSite | HttpHeaderLimitSite.

Inductive NameEvidence := NameSni (s : list byte) | NameHttpHost (s : list byte) | NameNone.

(** The arguments of one [refusal::record] call of the handler; the layer is
    always the tenant's and the protocol TCP. *)
Record Denial := mkDenial { d_site : RefusalSite; d_dst : SocketAddr; d_name : NameEvidence; d_revision : Z }.

Record RecordedBlock := mkBlock { rb_site : RefusalSite; rb_authority : option (list byte) }.

Record ViolationReporting := mkReporting { rep_guest_dst : SocketAddr; rep_revision : Z }.

Record Http2HeaderBlock := mkHeaderBlock { hb_stream_id : Z; hb_end_stream : bool; hb_block : list byte }.

(** The [httlib_hpack] crate: its decoder and encoder, with their dynamic
    tables. *)
Class Hpack := {
  HpackDecoder : Type;
  HpackEncoder : Type;
  hpack_decoder_new : HpackDecoder;
  hpack_encoder_new : HpackEncoder;
  (** [decode_exact]: the bytes left and at most one field. *)
  decode_exact : HpackDecoder -> list byte -> option (HpackDecoder * list byte * option (list byte * list byte));
  (** [encode] of a never-indexed field. *)
  hpack_encode : HpackEncoder -> list byte * list byte -> option (HpackEncoder * list byte)
}.

Section Handler.
Context `{Hpack} `{IpNetworks}.

Record Http2State := mkHttp2 {
  h2_preface_seen : bool;
  h2_buffer : list byte;
  h2_header_block : option Http2HeaderBlock;
  h2_highest_client_stream_id : Z;
  h2_open_request_streams : gset Z;
  h2_data_tails : gmap Z (list byte);
  h2_request_summaries : gmap Z RequestSummary;
  h2_decoder : HpackDecoder;
  h2_encoder : HpackEncoder
}.

Definition http2_default : Http2State := mkHttp2 false [] None 0 ∅ ∅ ∅ hpack_decoder_new hpack_encoder_new.

(** The live cache and clock a policy validator reads come with each call. *)
Inductive HttpAuthorityValidator :=
| ValidateSni (sni : list byte)
| ValidatePolicy (guest_dst : SocketAddr) (network_policy : NetworkPolicy) (secret_host : option (list byte)).

(** The fields no method changes after construction. *)
Record Connection := mkConnection {
  eligible_for_substitution : list EligibleSecret;
  ineligible_for_substitution : list IneligibleSecret;
  tls_intercepted : bool;
  sni : list byte;
  guest_dst : option SocketAddr;
  max_detection_window_len : Z;
  max_body_placeholder_len : Z;
  placeholder_limit_exceeded : bool;
  http_authority : option HttpAuthorityValidator;
  header_credentials : list ResolvedHeaderCredential;
  credential_identity : CredentialIdentity;
  reporting : option ViolationReporting
}.

Record SecretsHandler := mkHandler {
  conn : Connection;
  prev_tail : list byte;
  http_state : HttpState;
  opaque : bool;
  http1_request_summary_ : option RequestSummary;
  http_pending : list byte;
  unsupported_body_tail : list byte;
  http2_state : option Http2State;
  http1_requests : Z;
  http1_response_allowed : bool;
  http1_violation : bool;
  denials : list Denial
}.
Implicit Types (h : SecretsHandler) (c : Connection).

Definition with_prev_tail h v : SecretsHandler := mkHandler (conn h) v (http_state h) (opaque h) (http1_request_summary_ h) (http_pending h)
  (unsupported_body_tail h) (http2_state h) (http1_requests h) (http1_response_allowed h) (http1_violation h) (denials h).
Definition with_http_state h v := mkHandler (conn h) (prev_tail h) v (opaque h) (http1_request_summary_ h) (http_pending h)
  (unsupported_body_tail h) (http2_state h) (http1_requests h) (http1_response_allowed h) (http1_violation h) (denials h).
Definition with_opaque h v := mkHandler (conn h) (prev_tail h) (http_state h) v (http1_request_summary_ h) (http_pending h)
  (unsupported_body_tail h) (http2_state h) (http1_requests h) (http1_response_allowed h) (http1_violation h) (denials h).
Definition with_summary h v := mkHandler (conn h) (prev_tail h) (http_state h) (opaque h) v (http_pending h)
  (unsupported_body_tail h) (http2_state h) (http1_requests h) (http1_response_allowed h) (http1_violation h) (denials h).
Definition with_pending h v := mkHandler (conn h) (prev_tail h) (http_state h) (opaque h) (http1_request_summary_ h) v
  (unsupported_body_tail h) (http2_state h) (http1_requests h) (http1_response_allowed h) (http1_violation h) (denials h).
Definition with_body_tail h v := mkHandler (conn h) (prev_tail h) (http_state h) (opaque h) (http1_request_summary_ h) (http_pending h)
  v (http2_state h) (http1_requests h) (http1_response_allowed h) (http1_violation h) (denials h).
Definition with_http2 h v := mkHandler (conn h) (prev_tail h) (http_state h) (opaque h) (http1_request_summary_ h) (http_pending h)
  (unsupported_body_tail h) v (http1_requests h) (http1_response_allowed h) (http1_violation h) (denials h).
Definition with_requests h n allowed := mkHandler (conn h) (prev_tail h) (http_state h) (opaque h) (http1_request_summary_ h) (http_pending h)
  (unsupported_body_tail h) (http2_state h) n allowed (http1_violation h) (denials h).
Definition with_violation h v := mkHandler (conn h) (prev_tail h) (http_state h) (opaque h) (http1_request_summary_ h) (http_pending h)
  (unsupported_body_tail h) (http2_state h) (http1_requests h) (http1_response_allowed h) v (denials h).
Definition with_denials h v := mkHandler (conn h) (prev_tail h) (http_state h) (opaque h) (http1_request_summary_ h) (http_pending h)
  (unsupported_body_tail h) (http2_state h) (http1_requests h) (http1_response_allowed h) (http1_violation h) v.

(** ** Which secrets a connection may receive *)

(** The guest's destination with the cache and the clock at connection setup. *)
Record SecretHostIdentity := mkIdentity { guest_ip : IpAddr; id_shared : SharedState; id_now : Z }.

Definition gateway_bound (ip : IpAddr) (shared : SharedState) : bool :=
  match gateway_ipv4 shared with Some a => bool_decide (ip = V4 a) | None => false end
  || match gateway_ipv6 shared with Some a => bool_decide (ip = V6 a) | None => false end.

Definition host_alias_matches (pattern : HostPattern) (sni : list byte) (ident : SecretHostIdentity) : bool :=
  if negb (eq_ignore_ascii_case sni HOST_ALIAS) || negb (host_pattern_matches pattern HOST_ALIAS) then false
  else gateway_bound (guest_ip ident) (id_shared ident).

Definition host_pattern_allowed (pattern : HostPattern) (sni : list byte) (ident : option SecretHostIdentity) : bool :=
  if negb (host_pattern_matches pattern sni) then false
  else match pattern with
  | AnyHost => true
  | _ =>
      match ident with
      | None => true
      | Some i =>
          host_alias_matches pattern sni i
          || any_resolved_hostname (id_shared i) (guest_ip i) (id_now i)
               (fun hostname => host_pattern_matches pattern (bytes_of hostname))
      end
  end.

Definition secret_host_allowed (secret : SecretEntry) (sni : list byte) (ident : option SecretHostIdentity) : bool :=
  existsb (fun pattern => host_pattern_allowed pattern sni ident) (allowed_hosts secret).

(** The closure of [snapshot_dns_pin] collects and never stops. *)
Definition snapshot_dns_pin (ip : IpAddr) (shared : SharedState) (now : Z) : CredentialIdentity :=
  let hostnames :=
    (member_matches_mut (resolved_hostnames shared) (normalize_ip_addr ip) now
       (fun acc key => (acc ++ [bytes_of (hostname key)], false)) []).1 in
  DnsPinned hostnames (gateway_bound ip shared).

Section construct.
(** [file_source::read_file_secret], which reads the host's files. *)
Variable read_file_secret : list byte -> option (list byte).
Variables (config : SecretsConfig) (sni : list byte) (tls_intercepted : bool) (ident : option SecretHostIdentity) (force_ineligible : bool).

Definition resolved_value (secret : SecretEntry) : option (list byte) :=
  match source secret with
  | Some (SrcFile path) => read_file_secret path
  | _ => Some (value secret)
  end.

Definition host_allowed (secret : SecretEntry) : bool :=
  negb force_ineligible && bool_decide (is_Some (resolved_value secret)) && secret_host_allowed secret sni ident.

(** A verified destination may receive the placeholder itself. *)
Definition placeholder_passes (secret : SecretEntry) : bool :=
  bool_decide (is_Some (resolved_value secret))
  && (existsb (fun pattern => host_pattern_allowed pattern sni ident) (passthrough_hosts secret)
      || (negb (bool_decide (is_Some (violation_action secret)))
          && match cfg_passthrough_hosts config with
             | Some hosts => existsb (fun pattern => host_pattern_allowed pattern sni ident) hosts
             | None => false
             end)).

Definition eligible_entry (secret : SecretEntry) (v : list byte) : EligibleSecret :=
  mkEligible (placeholder secret) v (sub_headers (substitution secret)) (sub_header_fields (substitution secret))
    (sub_query (substitution secret)) (sub_body (substitution secret)) (require_tls_identity secret).

Definition ineligible_entry (secret : SecretEntry) : IneligibleSecret :=
  mkIneligible (env_var secret) (placeholder secret)
    (default BaBlockAndLog (from_violation_action (default (cfg_violation_action config) (violation_action secret)))).

Record Selection := mkSelection {
  sel_eligible : list EligibleSecret;
  sel_ineligible : list IneligibleSecret;
  sel_window : Z;
  sel_body : Z;
  sel_limit_exceeded : bool
}.

(** One round of the loop of [new_inner]. *)
Definition select_secret (sel : Selection) (secret : SecretEntry) : Selection :=
  let len := zlen (placeholder secret) in
  let capped := Z.min len MAX_SECRET_PLACEHOLDER_BYTES in
  let exceeded := sel_limit_exceeded sel || (MAX_SECRET_PLACEHOLDER_BYTES <? len) in
  let window := Z.max (sel_window sel) (max_placeholder_detection_len capped) in
  let refused (eligible : list EligibleSecret) (body : Z) :=
    mkSelection eligible
      (if placeholder_passes secret then sel_ineligible sel else sel_ineligible sel ++ [ineligible_entry secret]) window body exceeded in
  match resolved_value secret with
  | Some v =>
      if host_allowed secret then
        let eligible := sel_eligible sel ++ [eligible_entry secret v] in
        let body := if sub_body (substitution secret) then Z.max (sel_body sel) capped else sel_body sel in
        if negb (require_tls_identity secret) || tls_intercepted then mkSelection eligible (sel_ineligible sel) window body exceeded
        else refused eligible body
      else refused (sel_eligible sel) (sel_body sel)
  | None => refused (sel_eligible sel) (sel_body sel)
  end.

Definition select_secrets : Selection :=
  let sel := fold_left select_secret (cfg_secrets config) (mkSelection [] [] 0 0 false) in
  let revoked (i : IneligibleSecret) :=
    existsb (fun e => bool_decide (is_placeholder i = es_placeholder e) && (negb (es_require_tls_identity e) || tls_intercepted))
      (sel_eligible sel) in
  mkSelection (sel_eligible sel) (List.filter (fun i => negb (revoked i)) (sel_ineligible sel)) (sel_window sel) (sel_body sel)
    (sel_limit_exceeded sel).

Definition new_inner (authority : option HttpAuthorityValidator) (cred_identity : CredentialIdentity) : SecretsHandler :=
  let sel := select_secrets in
  mkHandler
    (mkConnection (sel_eligible sel) (sel_ineligible sel) tls_intercepted sni None (sel_window sel) (sel_body sel)
       (sel_limit_exceeded sel) authority [] cred_identity None)
    [] AwaitingHeaders false None [] [] None 0 false false [].
End construct.

(** The constructors; [shared] and [now] as they are at connection setup. *)
Definition handler_new files config sni tls := new_inner files config sni tls None false None Unverified.

Definition new_tls_intercepted files config sni ip shared now :=
  new_inner files config sni true (Some (mkIdentity ip shared now)) false (Some (ValidateSni sni)) (snapshot_dns_pin ip shared now).

Definition new_tls_intercepted_via_connect files config sni :=
  new_inner files config sni true None false (Some (ValidateSni sni)) ConnectAuthority.

Definition new_plain_http files config host ip shared now :=
  new_inner files config host false (Some (mkIdentity ip shared now)) false (Some (ValidateSni host)) (snapshot_dns_pin ip shared now).

Definition new_plain_http_policy files config host (dst : SocketAddr) network_policy shared now :=
  let ident := if nonempty host then Some (mkIdentity (sa_ip dst) shared now) else None in
  new_inner files config host false ident false
    (Some (ValidatePolicy dst network_policy (if has_host_scoped_secrets config then Some host else None))) Unverified.

Definition new_plain_http_invalid_host files config :=
  let host_scoped :=
    existsb (fun secret => existsb (fun p => negb (bool_decide (p = AnyHost))) (allowed_hosts secret)) (cfg_secrets config) in
  new_inner files config [] false None host_scoped None Unverified.

Definition new_plain_http_untrusted_metadata files config :=
  new_inner files config [] false None true None Unverified.

Definition with_conn h c := mkHandler c (prev_tail h) (http_state h) (opaque h) (http1_request_summary_ h) (http_pending h)
  (unsupported_body_tail h) (http2_state h) (http1_requests h) (http1_response_allowed h) (http1_violation h) (denials h).

Definition conn_with c guest credentials rep :=
  mkConnection (eligible_for_substitution c) (ineligible_for_substitution c) (tls_intercepted c) (sni c) guest
    (max_detection_window_len c) (max_body_placeholder_len c) (placeholder_limit_exceeded c) (http_authority c) credentials
    (credential_identity c) rep.

Definition with_header_credentials h credentials :=
  with_conn h (conn_with (conn h) (guest_dst (conn h)) credentials (reporting (conn h))).
Definition with_guest_dst h dst :=
  with_conn h (conn_with (conn h) (Some dst) (header_credentials (conn h)) (reporting (conn h))).
Definition with_refusal_reporting h dst revision :=
  with_conn h (conn_with (conn h) (guest_dst (conn h)) (header_credentials (conn h)) (Some (mkReporting dst revision))).

(** ** Methods both protocols use *)

(** A secret that needs a TLS identity is inert without interception. *)
Definition secret_active c (secret : EligibleSecret) : bool := negb (es_require_tls_identity secret) || tls_intercepted c.

Definition needs_body_substitution c : bool :=
  existsb (fun secret => es_substitute_body secret && secret_active c secret) (eligible_for_substitution c).

Definition body_secret_applies c (secret : EligibleSecret) : bool :=
  es_substitute_body secret && nonempty (es_placeholder secret) && secret_active c secret.

Definition contains_eligible_body_placeholder c (tail data : list byte) : bool :=
  if negb (needs_body_substitution c) then false
  else existsb (fun secret => body_secret_applies c secret && contains_bytes (tail ++ data) (es_placeholder secret))
         (eligible_for_substitution c).

Definition block_unsupported_body_placeholder c (tail data : list byte) : result SecretViolationAction () :=
  if contains_eligible_body_placeholder c tail data then Err Block else Ok ().

Definition connection_name c : NameEvidence :=
  if tls_intercepted c then
    if nonempty (sni c) && negb (bool_decide (is_Some (parse_ip_addr (sni c)))) then NameSni (sni c) else NameNone
  else if is_nil (sni c) then NameNone else NameHttpHost (sni c).

Definition record_denial h (site : RefusalSite) (name : option (list byte)) : SecretsHandler :=
  match reporting (conn h) with
  | Some rep =>
      let evidence := match name with Some host => NameHttpHost host | None => connection_name (conn h) end in
      with_denials h (denials h ++ [mkDenial site (rep_guest_dst rep) evidence (rep_revision rep)])
  | None => h
  end.

Definition refuse {A} (block : RecordedBlock) : stE SecretsHandler SecretViolationAction A :=
  let! _ := st_put (fun h => record_denial h (rb_site block) (rb_authority block)) in
  st_err Block.

Definition apply_blocking_action (report : option SecretViolationReport) : stE SecretsHandler SecretViolationAction () :=
  match report with
  | None => st_ret ()
  | Some r =>
      let violation :=
        match vr_protocol r, rs_method (vr_summary r) with
        | Http1, Some method => negb (bool_decide (method = bytes_of "HEAD")) && negb (bool_decide (method = bytes_of "CONNECT"))
        | _, _ => false
        end in
      let! _ := st_put (fun h => record_denial (with_violation h violation) SecretViolationSite (rs_host (vr_summary r))) in
      st_err (into_violation_action (vr_action r))
  end.
End Handler.

(** ** What the constructors select *)

Section selection.
Variables (files : list byte -> option (list byte)) (config : SecretsConfig) (sni : list byte) (tls : bool).
Context `{IpNetworks}.
Variables (ident : option SecretHostIdentity) (force : bool).

Abbreviation allowed := (host_allowed files sni ident force).
Abbreviation passes := (placeholder_passes files config sni ident).

(** The secret is substituted on this connection. *)
Definition receives (secret : SecretEntry) : bool := allowed secret && (negb (require_tls_identity secret) || tls).

Definition eligible_of (secret : SecretEntry) : option EligibleSecret :=
  if allowed secret then eligible_entry secret <$> resolved_value files secret else None.
Definition ineligible_of (secret : SecretEntry) : option IneligibleSecret :=
  if receives secret || passes secret then None else Some (ineligible_entry config secret).

Lemma select_secret_lists sel secret :
  let sel' := select_secret files config sni tls ident force sel secret in
  sel_eligible sel' = sel_eligible sel ++ omap eligible_of [secret]
  /\ sel_ineligible sel' = sel_ineligible sel ++ omap ineligible_of [secret]
  /\ sel_limit_exceeded sel' = sel_limit_exceeded sel || (MAX_SECRET_PLACEHOLDER_BYTES <? zlen (placeholder secret))
  /\ sel_window sel' = Z.max (sel_window sel) (max_placeholder_detection_len (Z.min (zlen (placeholder secret)) MAX_SECRET_PLACEHOLDER_BYTES))
  /\ sel_body sel <= sel_body sel'
  /\ (allowed secret = true -> sub_body (substitution secret) = true ->
      Z.min (zlen (placeholder secret)) MAX_SECRET_PLACEHOLDER_BYTES <= sel_body sel').
Proof.
  unfold select_secret, eligible_of, ineligible_of, receives. cbn [omap list_omap].
  assert (Hres : allowed secret = true -> is_Some (resolved_value files secret)).
  { unfold host_allowed. rewrite !andb_true_iff. by intros [[_ ?%bool_decide_eq_true] _]. }
  destruct (resolved_value files secret) as [v|] eqn:Hv.
  - destruct (allowed secret) eqn:Ha; cbn [fmap option_fmap option_map andb].
    + destruct (negb (require_tls_identity secret) || tls); cbn [orb].
      * cbn. rewrite app_nil_r. split_and!; try done; destruct (sub_body _); lia || done.
      * destruct (passes secret); cbn; rewrite ?app_nil_r; split_and!; try done; destruct (sub_body _); lia || done.
    + cbn [orb]. destruct (passes secret); cbn; rewrite ?app_nil_r; split_and!; done.
  - destruct (allowed secret) eqn:Ha; [by destruct (Hres eq_refl)|]. cbn [orb andb].
    destruct (passes secret); cbn; rewrite ?app_nil_r; split_and!; done.
Qed.

Definition selected := fold_left (select_secret files config sni tls ident force) (cfg_secrets config) (mkSelection [] [] 0 0 false).

Lemma selected_lists :
  sel_eligible selected = omap eligible_of (cfg_secrets config) /\ sel_ineligible selected = omap ineligible_of (cfg_secrets config).
Proof.
  unfold selected. set (sel := mkSelection [] [] 0 0 false).
  enough (Hgen : forall secrets sel, let sel' := fold_left (select_secret files config sni tls ident force) secrets sel in
    sel_eligible sel' = sel_eligible sel ++ omap eligible_of secrets /\ sel_ineligible sel' = sel_ineligible sel ++ omap ineligible_of secrets).
  { exact (Hgen (cfg_secrets config) sel). }
  clear sel. intros secrets. induction secrets as [|secret secrets IH]; intros sel; cbn [fold_left]; [cbn; by rewrite !app_nil_r|].
  destruct (select_secret_lists sel secret) as (He & Hi & _). destruct (IH (select_secret files config sni tls ident force sel secret)) as [IHe IHi].
  cbn zeta. rewrite IHe, IHi, He, Hi, <- !app_assoc, <- !omap_app. done.
Qed.

Lemma selected_windows secret :
  secret ∈ cfg_secrets config -> sel_limit_exceeded selected = false ->
  6 * zlen (placeholder secret) <= sel_window selected
  /\ (allowed secret = true -> sub_body (substitution secret) = true -> zlen (placeholder secret) <= sel_body selected).
Proof.
  unfold selected. generalize (mkSelection [] [] 0 0 false).
  induction (cfg_secrets config) as [|s secrets IH]; intros sel Hin Hlim; [by apply not_elem_of_nil in Hin|]. cbn [fold_left] in *.
  set (sel' := select_secret files config sni tls ident force sel s) in *.
  assert (Hmono : forall l x, let r := fold_left (select_secret files config sni tls ident force) l x in
    sel_limit_exceeded r = false -> sel_limit_exceeded x = false /\ sel_window x <= sel_window r /\ sel_body x <= sel_body r).
  { clear. intros l. induction l as [|a l IHl]; intros x; cbn [fold_left]; cbn zeta; intros Hr; [split_and!; done || lia|].
    destruct (IHl _ Hr) as (H1 & H2 & H3). destruct (select_secret_lists x a) as (_ & _ & E1 & E2 & E3 & _).
    rewrite E1 in H1. apply orb_false_iff in H1 as [H1 _]. rewrite E2 in H2. split_and!; [done | lia | lia]. }
  apply elem_of_cons in Hin as [->|Hin]; [|by apply IH].
  destruct (Hmono _ _ Hlim) as (H1 & H2 & H3). destruct (select_secret_lists sel s) as (_ & _ & E1 & E2 & _ & E4). fold sel' in E1, E2, E4.
  rewrite E1 in H1. apply orb_false_iff in H1 as [_ H1]. breflect. unfold MAX_SECRET_PLACEHOLDER_BYTES in *.
  unfold max_placeholder_detection_len, u_max in E2. split; [lia|]. intros Ha Hb. specialize (E4 Ha Hb). lia.
Qed.
End selection.

Definition with_value (secret : SecretEntry) (v : list byte) : SecretEntry :=
  mkEntry (env_var secret) v (source secret) (placeholder secret) (allowed_hosts secret) (substitution secret)
    (passthrough_hosts secret) (violation_action secret) (require_tls_identity secret).

Definition with_secrets (config : SecretsConfig) (secrets : list SecretEntry) : SecretsConfig :=
  mkSecrets (cfg_passthrough_hosts config) secrets (cfg_violation_action config).

Section confined.
Context `{Hpack} `{IpNetworks}.

Lemma resolved_with_value files secret v : is_Some (resolved_value files (with_value secret v)) <-> is_Some (resolved_value files secret).
Proof. unfold resolved_value. cbn. destruct (source secret) as [[]|]; done. Qed.

Lemma host_allowed_with_value files sni ident force secret v :
  host_allowed files sni ident force (with_value secret v) = host_allowed files sni ident force secret.
Proof. unfold host_allowed. by rewrite (bool_decide_ext _ _ (resolved_with_value files secret v)). Qed.

Lemma placeholder_passes_with_value files config sni ident secret v :
  placeholder_passes files config sni ident (with_value secret v) = placeholder_passes files config sni ident secret.
Proof. unfold placeholder_passes. by rewrite (bool_decide_ext _ _ (resolved_with_value files secret v)). Qed.

Lemma select_secret_with_value files config config' sni tls ident force sel secret v :
  cfg_passthrough_hosts config = cfg_passthrough_hosts config' -> cfg_violation_action config = cfg_violation_action config' ->
  host_allowed files sni ident force secret = false ->
  select_secret files config sni tls ident force sel (with_value secret v) = select_secret files config' sni tls ident force sel secret.
Proof.
  intros Hp Ha Hn. unfold select_secret, ineligible_entry. rewrite host_allowed_with_value, Hn, placeholder_passes_with_value. cbn.
  rewrite Ha. unfold placeholder_passes. rewrite Hp.
  destruct (resolved_value files (with_value secret v)), (resolved_value files secret); reflexivity.
Qed.

Lemma select_secret_config files config config' sni tls ident force sel secret :
  cfg_passthrough_hosts config = cfg_passthrough_hosts config' -> cfg_violation_action config = cfg_violation_action config' ->
  select_secret files config sni tls ident force sel secret = select_secret files config' sni tls ident force sel secret.
Proof. intros Hp Ha. unfold select_secret, ineligible_entry, placeholder_passes. by rewrite Hp, Ha. Qed.

Lemma select_secrets_with_value files config config' sni tls ident force secrets i secret v sel :
  cfg_passthrough_hosts config = cfg_passthrough_hosts config' -> cfg_violation_action config = cfg_violation_action config' ->
  secrets !! i = Some secret -> host_allowed files sni ident force secret = false ->
  fold_left (select_secret files config sni tls ident force) (<[i := with_value secret v]> secrets) sel
  = fold_left (select_secret files config' sni tls ident force) secrets sel.
Proof.
  intros Hp Ha Hi Hn.
  assert (Hcfg : forall l sel, fold_left (select_secret files config sni tls ident force) l sel
                               = fold_left (select_secret files config' sni tls ident force) l sel).
  { induction l as [|s l IH]; intros sel'; [done|]. cbn [fold_left]. by rewrite IH, (select_secret_config _ config config'). }
  revert i Hi sel. induction secrets as [|s secrets IH]; intros i Hi sel; [done|]. destruct i as [|i]; cbn in Hi |- *.
  - injection Hi as ->. by rewrite Hcfg, (select_secret_with_value _ _ config').
  - rewrite (select_secret_config _ config config') by done. by apply IH.
Qed.


Lemma elem_of_omap_iff {A B} (f : A -> option B) (l : list A) b : b ∈ omap f l <-> exists a, a ∈ l /\ f a = Some b.
Proof. apply list_elem_of_omap. Qed.

Lemma revoked_iff files config sni tls ident force secret :
  existsb (fun e => bool_decide (is_placeholder (ineligible_entry config secret) = es_placeholder e)
                    && (negb (es_require_tls_identity e) || tls))
    (sel_eligible (selected files config sni tls ident force)) = true
  <-> exists s', s' ∈ cfg_secrets config /\ receives files sni tls ident force s' = true /\ placeholder s' = placeholder secret.
Proof.
  destruct (selected_lists files config sni tls ident force) as [-> _]. rewrite existsb_exists. unfold receives. split.
  - intros (e & He & Hp). apply list_elem_of_In, elem_of_omap_iff in He as (s' & Hs' & Hel). unfold eligible_of in Hel.
    destruct (host_allowed files sni ident force s') eqn:Ha; [|done]. apply fmap_Some in Hel as (v & _ & ->).
    apply andb_true_iff in Hp as [Hp Ht]. apply bool_decide_eq_true in Hp. exists s'. rewrite Ha. cbn in *. by split_and!.
  - intros (s' & Hs' & [Ha Ht]%andb_true_iff & Hp).
    assert (is_Some (resolved_value files s')) as [v Hv].
    { unfold host_allowed in Ha. rewrite !andb_true_iff in Ha. by destruct Ha as [[_ ?%bool_decide_eq_true] _]. }
    exists (eligible_entry s' v). split.
    + apply list_elem_of_In, elem_of_omap_iff. exists s'. split; [done|]. unfold eligible_of. by rewrite Ha, Hv.
    + cbn. rewrite Hp, bool_decide_eq_true_2 by done. done.
Qed.

Lemma eligible_listed files config sni tls ident force e :
  e ∈ sel_eligible (selected files config sni tls ident force) <->
  exists secret v, secret ∈ cfg_secrets config /\ host_allowed files sni ident force secret = true
    /\ resolved_value files secret = Some v /\ e = eligible_entry secret v.
Proof.
  rewrite (proj1 (selected_lists files config sni tls ident force)), elem_of_omap_iff. unfold eligible_of. split.
  - intros (secret & Hin & Hs). destruct (host_allowed _ _ _ _ secret) eqn:Ha; [|done].
    apply fmap_Some in Hs as (v & Hv & ->). by exists secret, v.
  - intros (secret & v & Hin & Ha & Hv & ->). exists secret. by rewrite Ha, Hv.
Qed.

Lemma ineligible_listed files config sni tls ident force authority cred i :
  i ∈ ineligible_for_substitution (conn (new_inner files config sni tls ident force authority cred)) <->
  exists secret, secret ∈ cfg_secrets config /\ receives files sni tls ident force secret = false
    /\ placeholder_passes files config sni ident secret = false
    /\ (forall s', s' ∈ cfg_secrets config -> receives files sni tls ident force s' = true -> placeholder s' <> placeholder secret)
    /\ i = ineligible_entry config secret.
Proof.
  cbn. fold (selected files config sni tls ident force). pose proof (revoked_iff files config sni tls ident force) as Hrev.
  rewrite list_elem_of_In, filter_In, <- list_elem_of_In, (proj2 (selected_lists files config sni tls ident force)), elem_of_omap_iff.
  unfold ineligible_of. split.
  - intros [(secret & Hin & Hs) Hr%negb_true_iff%not_true_iff_false]. destruct (_ || _) eqn:Hor; [done|]. injection Hs as <-.
    apply orb_false_iff in Hor as [Hrec Hpass]. exists secret. split_and!; [done..| |done].
    intros s' Hs' Hrs' Heq. apply Hr, Hrev. by exists s'.
  - intros (secret & Hin & Hrec & Hpass & Hno & ->). split; [exists secret; by rewrite Hrec, Hpass|].
    apply negb_true_iff, not_true_iff_false. rewrite Hrev. intros (s' & Hs' & Hrs' & Heq). by apply (Hno s').
Qed.

(** The windows are large enough for the placeholders: six bytes for each byte
    of a watched placeholder, and every placeholder substituted in bodies. *)
Definition body_window (c : Connection) : Prop :=
  forall e, e ∈ eligible_for_substitution c -> es_substitute_body e = true -> zlen (es_placeholder e) <= max_body_placeholder_len c.

Record windows_ok (c : Connection) : Prop := {
  ineligible_window : forall i, i ∈ ineligible_for_substitution c -> 6 * zlen (is_placeholder i) <= max_detection_window_len c;
  eligible_window : forall e, e ∈ eligible_for_substitution c -> zlen (es_placeholder e) <= max_detection_window_len c;
  rewrite_window : body_window c
}.

Lemma new_inner_windows files config sni tls ident force authority cred :
  let c := conn (new_inner files config sni tls ident force authority cred) in placeholder_limit_exceeded c = false -> windows_ok c.
Proof.
  intros c Hlim. split.
  - intros i (secret & Hin & _ & _ & _ & ->)%ineligible_listed. by apply (selected_windows files config sni tls ident force).
  - intros e (secret & v & Hin & _ & _ & ->)%eligible_listed.
    pose proof (proj1 (selected_windows files config sni tls ident force secret Hin Hlim)).
    change (zlen (placeholder secret) <= sel_window (selected files config sni tls ident force)). lia.
  - intros e (secret & v & Hin & Ha & _ & ->)%eligible_listed Hb. by apply (selected_windows files config sni tls ident force secret).
Qed.

(** C6: A connection's handler substitutes exactly the secrets whose allowed
    hosts match its verified destination, and watches for exactly the
    placeholders that no declared secret lets through: not substituted here, not
    passed through by its own or the default policy.  Unless a placeholder
    exceeds the supported length, the detection window holds six bytes for each
    byte of every watched placeholder and the rewrite window holds every
    placeholder substituted in bodies. *)
Theorem placeholders_watched files config sni tls ident force authority cred :
  let c := conn (new_inner files config sni tls ident force authority cred) in
  (forall e, e ∈ eligible_for_substitution c <->
     exists secret v, secret ∈ cfg_secrets config /\ host_allowed files sni ident force secret = true
       /\ resolved_value files secret = Some v /\ e = eligible_entry secret v)
  /\ (forall i, i ∈ ineligible_for_substitution c <->
     exists secret, secret ∈ cfg_secrets config /\ receives files sni tls ident force secret = false
       /\ placeholder_passes files config sni ident secret = false
       /\ (forall s', s' ∈ cfg_secrets config -> receives files sni tls ident force s' = true -> placeholder s' <> placeholder secret)
       /\ i = ineligible_entry config secret)
  /\ (placeholder_limit_exceeded c = false -> windows_ok c).
Proof.
  intros c. split; [intros e; apply eligible_listed|]. split; [intros i; apply ineligible_listed | apply new_inner_windows].
Qed.
End confined.

(** ** An instance *)

(** Literal never-indexed fields with short strings and no Huffman coding: a
    part of HPACK that needs no table. *)
Definition literal_string (s : list byte) : option (list byte * list byte) :=
  match s with
  | n :: rest =>
      if (Z_of_byte n <? 127) && (Z_of_byte n <=? zlen rest)
      then Some (take (Z.to_nat (Z_of_byte n)) rest, drop (Z.to_nat (Z_of_byte n)) rest) else None
  | [] => None
  end.

Definition literal_hpack : Hpack := {|
  HpackDecoder := unit;
  HpackEncoder := unit;
  hpack_decoder_new := ();
  hpack_encoder_new := ();
  decode_exact := fun _ s =>
    match s with
    | [] => Some ((), [], None)
    | b :: rest =>
        if decide (b = byte_of_Z 16) then
          let* (name, rest) := literal_string rest in
          let* (v, rest) := literal_string rest in
          Some ((), rest, Some (name, v))
        else None
    end;
  hpack_encode := fun _ '(name, v) =>
    if (zlen name <? 127) && (zlen v <? 127)
    then Some ((), byte_of_Z 16 :: byte_of_Z (zlen name) :: name ++ byte_of_Z (zlen v) :: v) else None
|}.

(** A token for api.example.com, substituted in headers and bodies. *)
Definition demo_secret : SecretEntry :=
  mkEntry (bytes_of "API_TOKEN") (bytes_of "s3cr3t") None (bytes_of "MSB_TOKEN") [Exact (bytes_of "api.example.com")]
    (mkSubstitution true [] false true) [] None true.
Definition demo_config : SecretsConfig := mkSecrets None [demo_secret] Block.

Import CidrNetworks.


(** The handlers of an intercepted connection to the secret's host and to
    another one. *)
Definition demo_handler (host : list byte) : @SecretsHandler literal_hpack _ :=
  @new_inner literal_hpack _ (fun _ => None) demo_config host true None false None Unverified.

Lemma demo_windows host : windows_ok (conn (demo_handler host)).
Proof.
  apply new_inner_windows.
  destruct (select_secret_lists (fun _ => None) demo_config host true None false (mkSelection [] [] 0 0 false) demo_secret) as (_ & _ & E & _).
  exact E.
Qed.
