(* ===== verification/SecretsLive.v ===== *)
(** * Live updates of the secrets

    [engine/secrets/handle.rs]: the configuration future connections are built
    from, swapped as a whole by each update; and the validation of secret entries
    of [microsandbox-types].  The handle's lock makes an update one step, and a
    connection keeps the snapshot it loaded.

    [live_updates_refine]: a sequence of updates acts on the secrets as on a map from
    names, reports exactly the names that are missing, and keeps a valid
    configuration valid.  The lemmas after it: a value that was rotated or
    removed plays no part in connections made later. *)

From S2P Require Import Prelude Text DomainName Addr TtlIndex SharedState Policy HttpText SecretScan SecretHandler.

(** ** Validation *)

(** [SecretConfigError], without the credential errors. *)
Inductive SecretConfigError :=
  | EmptyEnvVar (secret_index : nat)
  | EnvVarContainsEquals (secret_index : nat)
  | EnvVarContainsNul (secret_index : nat)
  | MissingAllowedHosts (secret_index : nat)
  | MissingSubstitutionLocation (secret_index : nat)
  | HeaderFieldsRequireHeaders (secret_index : nat)
  | InvalidHeaderFieldName (secret_index : nat) (field : list byte)
  | EmptyPlaceholder (secret_index : nat)
  | PlaceholderTooLong (secret_index : nat) (actual_bytes max_bytes : Z)
  | PlaceholderContainsNul (secret_index : nat)
  | PlaceholderContainsLineBreak (secret_index : nat)
  | FileSourcePathEmpty (secret_index : nat)
  | FileSourcePathNotAbsolute (secret_index : nat).

Definition has_char (l : list byte) (z : Z) : bool := existsb (fun b => Z_of_byte b =? z) l.

Definition validate_env_var (env_var : list byte) (i : nat) : result SecretConfigError () :=
  if bool_decide (env_var = []) then Err (EmptyEnvVar i)
  else if has_char env_var 61 then Err (EnvVarContainsEquals i)
  else if has_char env_var 0 then Err (EnvVarContainsNul i)
  else Ok ().

Definition validate_header_field_name (field : list byte) (i : nat) : result SecretConfigError () :=
  if bool_decide (field = []) || negb (forallb is_http_token_byte field) then Err (InvalidHeaderFieldName i field) else Ok ().

Definition validate_placeholder (placeholder : list byte) (i : nat) : result SecretConfigError () :=
  if bool_decide (placeholder = []) then Err (EmptyPlaceholder i)
  else if MAX_SECRET_PLACEHOLDER_BYTES <? zlen placeholder then Err (PlaceholderTooLong i (zlen placeholder) MAX_SECRET_PLACEHOLDER_BYTES)
  else if has_char placeholder 0 then Err (PlaceholderContainsNul i)
  else if has_char placeholder 13 || has_char placeholder 10 then Err (PlaceholderContainsLineBreak i)
  else Ok ().

(** [Path::is_absolute], on Unix. *)
Definition is_absolute (path : list byte) : bool := bytes_starts_with path (bytes_of "/").

Definition entry_validate (secret : SecretEntry) (i : nat) : result SecretConfigError () :=
  let? _ := validate_env_var (env_var secret) i in
  if bool_decide (allowed_hosts secret = []) then Err (MissingAllowedHosts i)
  else
    let s := substitution secret in
    if negb (sub_headers s) && negb (sub_query s) && negb (sub_body s) then Err (MissingSubstitutionLocation i)
    else if negb (sub_headers s) && negb (bool_decide (sub_header_fields s = [])) then Err (HeaderFieldsRequireHeaders i)
    else
      let? _ := try_fold (fun _ field => validate_header_field_name field i) () (sub_header_fields s) in
      let? _ := validate_placeholder (placeholder secret) i in
      match source secret with
      | Some (SrcFile path) =>
          if bool_decide (path = []) then Err (FileSourcePathEmpty i)
          else if negb (is_absolute path) then Err (FileSourcePathNotAbsolute i)
          else Ok ()
      | _ => Ok ()
      end.

(** [SecretsConfig::validate], its secrets. *)
Definition secrets_validate (config : SecretsConfig) : result SecretConfigError () :=
  try_fold (fun _ '(i, secret) => entry_validate secret i) () (imap pair (cfg_secrets config)).

(** ** The handle *)

Inductive SecretsUpdateError :=
  | UnknownSecret (name : list byte)
  | NoAllowedHosts (name : list byte).

(** [iter_mut().find(..)] and the change of what it finds. *)
Fixpoint update_first (name : list byte) (mutate : SecretEntry -> SecretEntry) (secrets : list SecretEntry) : option (list SecretEntry) :=
  match secrets with
  | [] => None
  | e :: rest => if bool_decide (env_var e = name) then Some (mutate e :: rest) else let* rest' := update_first name mutate rest in Some (e :: rest')
  end.

Definition update_secret (config : SecretsConfig) (name : list byte) (mutate : SecretEntry -> SecretEntry) : SecretsConfig * result SecretsUpdateError () :=
  match update_first name mutate (cfg_secrets config) with
  | None => (config, Err (UnknownSecret name))
  | Some secrets => (with_secrets config secrets, Ok ())
  end.

Definition rotate_value (config : SecretsConfig) (name new : list byte) : SecretsConfig * result SecretsUpdateError () :=
  update_secret config name (fun e => with_value e new).

Definition remove_secret (config : SecretsConfig) (name : list byte) : SecretsConfig :=
  if negb (existsb (fun e => bool_decide (env_var e = name)) (cfg_secrets config)) then config
  else with_secrets config (List.filter (fun e => negb (bool_decide (env_var e = name))) (cfg_secrets config)).

Definition with_allowed_hosts (e : SecretEntry) (hosts : list HostPattern) : SecretEntry :=
  mkEntry (env_var e) (value e) (source e) (placeholder e) hosts (substitution e) (passthrough_hosts e) (violation_action e) (require_tls_identity e).

Definition set_allowed_hosts (config : SecretsConfig) (name : list byte) (hosts : list (list byte)) : SecretsConfig * result SecretsUpdateError () :=
  match hosts with
  | [] => (config, Err (NoAllowedHosts name))
  | _ => update_secret config name (fun e => with_allowed_hosts e (host_pattern_parse <$> hosts))
  end.

Inductive LiveUpdate :=
  | RotateValue (name new : list byte)
  | RemoveSecret (name : list byte)
  | SetAllowedHosts (name : list byte) (hosts : list (list byte)).

Definition apply_update (config : SecretsConfig) (u : LiveUpdate) : SecretsConfig * result SecretsUpdateError () :=
  match u with
  | RotateValue name new => rotate_value config name new
  | RemoveSecret name => (remove_secret config name, Ok ())
  | SetAllowedHosts name hosts => set_allowed_hosts config name hosts
  end.

Fixpoint apply_updates (config : SecretsConfig) (us : list LiveUpdate) : SecretsConfig * list (result SecretsUpdateError ()) :=
  match us with
  | [] => (config, [])
  | u :: us => let '(config1, r) := apply_update config u in let '(config2, rs) := apply_updates config1 us in (config2, r :: rs)
  end.

(** ** The abstract configuration: secrets by name *)

Definition names (config : SecretsConfig) : list (list byte) := env_var <$> cfg_secrets config.
Definition secret_map (config : SecretsConfig) : gmap (list byte) SecretEntry := list_to_map ((fun e => (env_var e, e)) <$> cfg_secrets config).

Definition spec_alter (m : gmap (list byte) SecretEntry) (name : list byte) (f : SecretEntry -> SecretEntry)
    : gmap (list byte) SecretEntry * result SecretsUpdateError () :=
  if m !! name then (alter f name m, Ok ()) else (m, Err (UnknownSecret name)).

Definition spec_update (m : gmap (list byte) SecretEntry) (u : LiveUpdate) : gmap (list byte) SecretEntry * result SecretsUpdateError () :=
  match u with
  | RotateValue name new => spec_alter m name (fun e => with_value e new)
  | RemoveSecret name => (delete name m, Ok ())
  | SetAllowedHosts name [] => (m, Err (NoAllowedHosts name))
  | SetAllowedHosts name hosts => spec_alter m name (fun e => with_allowed_hosts e (host_pattern_parse <$> hosts))
  end.

Fixpoint spec_updates (m : gmap (list byte) SecretEntry) (us : list LiveUpdate) : gmap (list byte) SecretEntry * list (result SecretsUpdateError ()) :=
  match us with
  | [] => (m, [])
  | u :: us => let '(m1, r) := spec_update m u in let '(m2, rs) := spec_updates m1 us in (m2, r :: rs)
  end.

Abbreviation by_name secrets := (list_to_map ((fun e => (env_var e, e)) <$> secrets) : gmap (list byte) SecretEntry).

Lemma by_name_in secrets name : is_Some (by_name secrets !! name) <-> name ∈ env_var <$> secrets.
Proof.
  rewrite <- elem_of_dom, dom_list_to_map_L, elem_of_list_to_set, <- list_fmap_compose. done.
Qed.

Lemma update_first_spec name f secrets :
  (forall e, env_var (f e) = env_var e) ->
  match update_first name f secrets with
  | None => name ∉ env_var <$> secrets
  | Some secrets' =>
      name ∈ env_var <$> secrets /\ env_var <$> secrets' = env_var <$> secrets /\ by_name secrets' = alter f name (by_name secrets)
      /\ forall P : SecretEntry -> Prop, (forall e, P e -> P (f e)) -> Forall P secrets -> Forall P secrets'
  end.
Proof.
  intros Hf. induction secrets as [|e secrets IH]; cbn [update_first]; [by intros ?%elem_of_nil|].
  case_bool_decide as He.
  - subst name. split_and!; [by left|by rewrite !fmap_cons, Hf| |].
    + rewrite !fmap_cons, !list_to_map_cons, Hf. apply map_eq. intros k.
      destruct (decide (k = env_var e)) as [->|Hne]; [by rewrite lookup_alter_eq, !lookup_insert_eq|by rewrite lookup_alter_ne, !lookup_insert_ne by done].
    + intros P HP [He Hs]%Forall_cons. constructor; auto.
  - destruct (update_first name f secrets) as [secrets'|].
    + destruct IH as (Hin & Hn & Hm & HP). split_and!; [by right|by rewrite !fmap_cons, Hn| |].
      * rewrite !fmap_cons, !list_to_map_cons, Hm. by rewrite alter_insert_ne.
      * intros P HP' [He' Hs]%Forall_cons. constructor; auto.
    + by intros [->|?]%elem_of_cons.
Qed.

Lemma remove_spec name secrets :
  let rest := List.filter (fun e => negb (bool_decide (env_var e = name))) secrets in
  by_name rest = delete name (by_name secrets) /\ (env_var <$> rest) `sublist_of` (env_var <$> secrets)
  /\ forall P : SecretEntry -> Prop, Forall P secrets -> Forall P rest.
Proof.
  cbn. induction secrets as [|e secrets (Hm & Hs & HP)]; [split_and!; [symmetry; apply delete_empty|done|done]|]. cbn [List.filter]. case_bool_decide as He; cbn [negb].
  - split_and!; [|by apply sublist_cons|intros P [_ ?]%Forall_cons; auto]. rewrite Hm, fmap_cons, list_to_map_cons. subst name. by rewrite delete_insert_eq.
  - split_and!; [|by apply sublist_skip|intros P [? ?]%Forall_cons; auto]. rewrite !fmap_cons, !list_to_map_cons, Hm.
    by rewrite delete_insert_ne.
Qed.

(** ** The theorem *)

(** A valid entry stays valid under an update. *)
Definition entry_valid (e : SecretEntry) : Prop := forall i, entry_validate e i = Ok ().

Lemma with_value_valid e new : entry_valid e -> entry_valid (with_value e new).
Proof. intros He i. exact (He i). Qed.

Lemma with_allowed_hosts_valid e hosts : hosts <> [] -> entry_valid e -> entry_valid (with_allowed_hosts e hosts).
Proof.
  intros Hh He i. specialize (He i). unfold entry_validate in *. cbn [env_var allowed_hosts substitution placeholder source with_allowed_hosts].
  destruct (validate_env_var _ _); [|done]. rewrite bool_decide_eq_false_2 by done. by case_bool_decide.
Qed.

(** What one update keeps. *)
Definition kept (P : SecretEntry -> Prop) (config config1 : SecretsConfig) : Prop :=
  (NoDup (names config) -> NoDup (names config1)) /\ (Forall P (cfg_secrets config) -> Forall P (cfg_secrets config1))
  /\ cfg_passthrough_hosts config1 = cfg_passthrough_hosts config /\ cfg_violation_action config1 = cfg_violation_action config.

Lemma update_secret_spec config name f config1 r (P : SecretEntry -> Prop) :
  (forall e, env_var (f e) = env_var e) -> (forall e, P e -> P (f e)) -> update_secret config name f = (config1, r) ->
  spec_alter (secret_map config) name f = (secret_map config1, r) /\ kept P config config1.
Proof.
  intros Hf HP. unfold update_secret, spec_alter, secret_map. pose proof (update_first_spec name f (cfg_secrets config) Hf) as Hu.
  destruct (update_first _ _ _) as [secrets'|]; intros [= <- <-].
  - destruct Hu as (Hin & Hn & Hm & Hk). apply by_name_in in Hin as [e He]. rewrite He. cbn [cfg_secrets with_secrets]. rewrite Hm.
    split; [done|]. split_and!; [unfold names; cbn; by rewrite Hn|by apply Hk|done|done].
  - rewrite <- by_name_in in Hu. destruct (by_name _ !! name); [by destruct Hu|]. by split_and!.
Qed.

Lemma apply_update_spec config u config1 r :
  apply_update config u = (config1, r) -> spec_update (secret_map config) u = (secret_map config1, r) /\ kept entry_valid config config1.
Proof.
  destruct u as [name new|name|name hosts]; cbn.
  - apply update_secret_spec; [done|]. intros e. apply with_value_valid.
  - intros [= <- <-]. destruct (remove_spec name (cfg_secrets config)) as (Hm & Hs & HP). unfold remove_secret.
    destruct (existsb _ _) eqn:E; cbn [negb].
    + unfold secret_map at 2. cbn [cfg_secrets with_secrets]. rewrite Hm. split; [done|]. split_and!; [|apply HP|done|done].
      intros Hn. by eapply sublist_NoDup.
    + split; [|by split_and!]. f_equal. apply delete_id. destruct (secret_map config !! name) eqn:El; [|done].
      assert (Hin : name ∈ env_var <$> cfg_secrets config) by (apply by_name_in; unfold secret_map in El; rewrite El; eauto).
      apply list_elem_of_fmap in Hin as (e & -> & Hin). apply not_true_iff_false in E. destruct E. apply existsb_exists.
      exists e. split; [by apply list_elem_of_In|by apply bool_decide_eq_true].
  - destruct hosts as [|h hosts]; [by intros [= <- <-]; split_and!|]. apply update_secret_spec; [done|]. intros e. by apply with_allowed_hosts_valid.
Qed.

(** Whether an entry is valid does not depend on its position. *)
Lemma header_fields_index fields i j :
  try_fold (fun _ field => validate_header_field_name field i) () fields = Ok () ->
  try_fold (fun _ field => validate_header_field_name field j) () fields = Ok ().
Proof.
  induction fields as [|f fields IH]; [done|]. cbn. unfold validate_header_field_name at 1 3. by destruct (_ || _).
Qed.

Lemma env_var_index v i j : validate_env_var v i = Ok () -> validate_env_var v j = Ok ().
Proof. unfold validate_env_var. by repeat case_match. Qed.
Lemma placeholder_index v i j : validate_placeholder v i = Ok () -> validate_placeholder v j = Ok ().
Proof. unfold validate_placeholder. by repeat case_match. Qed.

Lemma entry_validate_index e i j : entry_validate e i = Ok () -> entry_validate e j = Ok ().
Proof.
  unfold entry_validate. intros He. destruct (validate_env_var _ i) as [[]|] eqn:E1; [|done]. rewrite (env_var_index _ _ j E1).
  destruct (bool_decide _); [done|]. destruct (negb _ && negb _ && negb _); [done|]. destruct (negb _ && negb _); [done|].
  destruct (try_fold _ () _) as [[]|] eqn:E2 in He; [|done]. rewrite (header_fields_index _ _ j E2).
  destruct (validate_placeholder _ i) as [[]|] eqn:E3; [|done]. rewrite (placeholder_index _ _ j E3). by repeat case_match.
Qed.

Lemma validate_from_iff k secrets :
  try_fold (fun _ '(i, secret) => entry_validate secret i) () (imap (fun i => pair (k + i)%nat) secrets) = Ok () <-> Forall entry_valid secrets.
Proof.
  revert k. induction secrets as [|e secrets IH]; intros k; [by split|]. cbn [imap try_fold]. rewrite Forall_cons.
  destruct (entry_validate e (k + 0)) as [[]|] eqn:He.
  - rewrite <- (IH (S k)). rewrite (imap_ext _ (fun i => pair (S k + i)%nat)) by (intros; cbn; f_equal; lia).
    split; [|by intros [_ ?]]. intros Hr. split; [|done]. intros j. by eapply entry_validate_index.
  - split; [done|]. intros [Hv _]. by rewrite Hv in He.
Qed.

Lemma secrets_validate_iff config : secrets_validate config = Ok () <-> Forall entry_valid (cfg_secrets config).
Proof. apply (validate_from_iff 0). Qed.

(** Live updates act on the secrets as on a map from names: whatever the
    sequence, the secrets and the reported errors are those of the map, names
    stay unique, and a valid configuration stays valid. *)
Lemma live_updates_refine config us :
  NoDup (names config) ->
  let '(config1, rs) := apply_updates config us in
  spec_updates (secret_map config) us = (secret_map config1, rs) /\ NoDup (names config1)
  /\ (secrets_validate config = Ok () -> secrets_validate config1 = Ok ()).
Proof.
  revert config. induction us as [|u us IH]; intros config Hn; [done|]. cbn [apply_updates spec_updates].
  destruct (apply_update config u) as [config1 r] eqn:Hu. apply apply_update_spec in Hu as [-> (Hn1 & Hv1 & _)].
  specialize (IH config1 (Hn1 Hn)). destruct (apply_updates config1 us) as [config2 rs]. destruct IH as (-> & Hn2 & Hv2).
  split_and!; [done|done|]. rewrite secrets_validate_iff in *. auto.
Qed.

(** ** Values that were replaced *)

Lemma update_first_insert name f secrets i secret secret' :
  NoDup (env_var <$> secrets) -> secrets !! i = Some secret -> env_var secret = name -> env_var secret' = name -> f secret' = f secret ->
  update_first name f (<[i := secret']> secrets) = update_first name f secrets.
Proof.
  revert i. induction secrets as [|e secrets IH]; intros i Hn Hi Hname Hname' Hf; [done|]. destruct i as [|i]; cbn in Hi.
  - injection Hi as ->. cbn. rewrite !bool_decide_eq_true_2 by done. by rewrite Hf.
  - rewrite fmap_cons in Hn. apply NoDup_cons in Hn as [Hnot Hn]. change (<[S i:=secret']> (e :: secrets)) with (e :: <[i:=secret']> secrets).
    cbn [update_first]. rewrite bool_decide_eq_false_2; [by rewrite (IH i)|].
    intros He. apply Hnot. rewrite He, <- Hname. apply list_elem_of_fmap. exists secret. split; [done|]. by eapply list_elem_of_lookup_2.
Qed.

(** A value that is rotated away plays no part in what follows. *)
Lemma rotated_value_gone config i secret old new :
  NoDup (names config) -> cfg_secrets config !! i = Some secret ->
  rotate_value (with_secrets config (<[i := with_value secret old]> (cfg_secrets config))) (env_var secret) new = rotate_value config (env_var secret) new.
Proof.
  intros Hn Hi. unfold rotate_value, update_secret. cbn [cfg_secrets with_secrets].
  rewrite (update_first_insert _ _ _ _ secret) by done. destruct (update_first _ _ _) eqn:E; [done|].
  pose proof (update_first_spec (env_var secret) (fun e => with_value e new) (cfg_secrets config) (fun _ => eq_refl)) as Hs. rewrite E in Hs.
  destruct Hs. apply list_elem_of_fmap. exists secret. split; [done|]. by eapply list_elem_of_lookup_2.
Qed.

(** Nor does the value of a secret that was removed. *)
Lemma removed_value_gone config i secret old :
  cfg_secrets config !! i = Some secret ->
  remove_secret (with_secrets config (<[i := with_value secret old]> (cfg_secrets config))) (env_var secret) = remove_secret config (env_var secret).
Proof.
  intros Hi. destruct config as [pass secrets action]. unfold remove_secret. cbn [cfg_secrets with_secrets] in *.
  assert (Hf : List.filter (fun e => negb (bool_decide (env_var e = env_var secret))) (<[i := with_value secret old]> secrets)
               = List.filter (fun e => negb (bool_decide (env_var e = env_var secret))) secrets).
  { revert i Hi. induction secrets as [|e secrets IH]; intros [|i] Hi; [done..| |].
    - cbn in *. injection Hi as ->. by rewrite !bool_decide_eq_true_2.
    - cbn in Hi. change (<[S i:=with_value secret old]> (e :: secrets)) with (e :: <[i:=with_value secret old]> secrets).
      cbn [List.filter]. by rewrite (IH i). }
  assert (He : forall l j s, l !! j = Some s -> env_var s = env_var secret -> existsb (fun e => bool_decide (env_var e = env_var secret)) l = true).
  { intros l j s Hl Hs. apply existsb_exists. exists s. split; [by eapply list_elem_of_In, list_elem_of_lookup_2|by apply bool_decide_eq_true]. }
  rewrite (He _ i (with_value secret old)), (He _ i secret); [by rewrite Hf|done|done| |done].
  apply list_lookup_insert_eq. by eapply lookup_lt_Some.
Qed.
