(* ===== verification/SecretBody.v ===== *)
(** * Bodies and opaque streams

    The methods of [SecretsHandler] that meet bytes without headers: opaque
    streams, chunked bodies that are forwarded as they are, and chunked bodies
    that are decoded, substituted and encoded again.

    The theorems: no placeholder the connection must not carry leaves in a
    stream or a body, however it is cut into reads or chunks; and a rewritten
    body is the chunked encoding of the substituted payload. *)

From S2P Require Import Prelude Text Addr Policy Chunked HttpText SecretScan SecretHandler.
From Stdlib Require Import Strings.Byte.

Section Body.
Context `{SecretCodecs} `{Hpack} `{IpNetworks}.
Implicit Types (h : SecretsHandler) (c : Connection) (data l : list byte).

(** ** Definitions *)

Definition detect_http1_fragment_blocking_action h (tail data headers : list byte) (location_hint : RequestLocation)
    : option SecretViolationReport :=
  let report := detect_blocking_action_with_tail (ineligible_for_substitution (conn h)) tail data headers Http1 location_hint None in
  match report, http1_request_summary_ h with
  | Some r, Some summary => Some (apply_request_summary r summary)
  | _, _ => report
  end.

Definition detect_blocking_action h data (headers : list byte) location_hint :=
  detect_http1_fragment_blocking_action h (prev_tail h) data headers location_hint.

Definition apply_chunked_metadata_policy l (location : RequestLocation) : stE SecretsHandler SecretViolationAction () :=
  let headers := if decide (location = LocTrailer) then (if utf8_valid l then l else []) else [] in
  let! h := st_get in
  apply_blocking_action (detect_http1_fragment_blocking_action h [] l headers location).

Definition detection_tail_len c : Z := saturating_sub (max_detection_window_len c) 1.

Definition update_tail h data : SecretsHandler :=
  with_prev_tail h (update_tail_buffer (prev_tail h) data (detection_tail_len (conn h))).

(** [windows(n).rposition(|window| window.eq_ignore_ascii_case(p))]. *)
Fixpoint rfind_ignore_case (p s : list byte) : option nat :=
  match s with
  | [] => None
  | _ :: s' =>
      match rfind_ignore_case p s' with
      | Some i => Some (S i)
      | None => if (length p <=? length s)%nat && eq_ignore_ascii_case (take (length p) s) p then Some 0%nat else None
      end
  end.

Definition opaque_tail c (tail data : list byte) : list byte :=
  let scan := tail ++ data in
  let base_len := saturating_sub (Z.max (max_detection_window_len c) (zlen AUTHORIZATION_HEADER_NAME + 2)) 1 in
  let authorization_line :=
    let* start := rfind_ignore_case AUTHORIZATION_HEADER_NAME scan in
    let line := drop start scan in
    if str_contains line crlf then None else Some line in
  let bounded :=
    let tail_len := match authorization_line with
                    | Some line => if zlen line <=? MAX_HTTP_HEADER_BYTES then zlen line else base_len
                    | None => base_len
                    end in
    update_tail_buffer tail data (Z.max tail_len base_len) in
  match authorization_line with
  | Some line =>
      if MAX_HTTP_HEADER_BYTES <? zlen line then
        match opaque_basic_auth_payload line with
        | Some encoded =>
            let suffix_start := saturating_sub (zlen encoded) base_len in
            let suffix_start := suffix_start - suffix_start `mod` 4 in
            AUTHORIZATION_HEADER_NAME ++ bytes_of " Basic " ++ drop (Z.to_nat suffix_start) encoded
        | None => bounded
        end
      else bounded
  | None => bounded
  end.

Definition update_opaque_tail h data : SecretsHandler := with_prev_tail h (opaque_tail (conn h) (prev_tail h) data).

Definition scan_opaque data : stE SecretsHandler SecretViolationAction (list byte) :=
  let! h := st_get in
  if negb (opaque h) && bool_decide (is_Some (http_authority (conn h))) && opaque_prefix_might_be_http data then st_err Block
  else
    let! _ := st_put (fun h => with_opaque h true) in
    let! _ := apply_blocking_action
                (detect_blocking_action_with_tail (ineligible_for_substitution (conn h)) (prev_tail h) data [] Opaque LocUnknown None) in
    let! _ := st_put (fun h => update_opaque_tail h data) in
    st_ret data.

(** A handler method run by a closure that also captures [T]. *)
Definition on_handler {T A} (m : stE SecretsHandler SecretViolationAction A) : stE (SecretsHandler * T) SecretViolationAction A :=
  fun '(h, t) => let '(h', r) := m h in ((h', t), r).

(** The closure of [consume_chunked_body_with_violation_detection]: it captures
    the handler and the decoded tail. *)
Definition consume_event (ev : ChunkedBodyEvent) : stE (SecretsHandler * list byte) SecretViolationAction () :=
  match ev with
  | EvSizeLine l => on_handler (apply_chunked_metadata_policy l LocChunkMetadata)
  | EvPayload payload =>
      let! (h, tail) := st_get in
      let! _ := st_lift (block_unsupported_body_placeholder (conn h) tail payload) in
      let! _ := on_handler (apply_blocking_action (detect_http1_fragment_blocking_action h tail payload [] LocBody)) in
      st_put (fun '(h, tail) => (h, update_tail_buffer tail payload (detection_tail_len (conn h))))
  | EvZeroChunk => st_ret ()
  | EvTrailerLine l => on_handler (apply_chunked_metadata_policy l LocTrailer)
  end.

Definition with_decoded_tail (st : ChunkedBodyState) (tail : list byte) : ChunkedBodyState := mkChunked (phase st) (line st) tail.

Definition consume_chunked_body_with_violation_detection (st : ChunkedBodyState) data
    : stE SecretsHandler SecretViolationAction (ChunkedBodyState * option nat) :=
  fun h =>
    match process_chunked_body consume_event (with_decoded_tail st []) data (h, decoded_tail st) with
    | ((h', tail), Ok (st', body_end)) => (h', Ok (with_decoded_tail st' tail, body_end))
    | ((h', _), Err e) => (h', Err e)
    end.

Definition matching_body_secret_at c data : option EligibleSecret :=
  List.find (fun secret => body_secret_applies c secret && bytes_starts_with data (es_placeholder secret)) (eligible_for_substitution c).

(** The loop of [append_rewritten_chunked_prefix] from the cursor on: the
    payload it builds, and the bytes after the cursor when it stops.  [skip] are
    the bytes left of a placeholder. *)
Fixpoint rewrite_from c (skip safe : nat) l : list byte * list byte :=
  match l with
  | [] => ([], [])
  | b :: rest =>
      match skip, safe with
      | S skip', _ => rewrite_from c skip' (safe - 1) rest
      | O, O => ([], l)
      | O, S safe' =>
          match matching_body_secret_at c l with
          | Some secret =>
              let '(payload, kept) := rewrite_from c (length (es_placeholder secret) - 1) safe' rest in (es_value secret ++ payload, kept)
          | None => let '(payload, kept) := rewrite_from c 0 safe' rest in (b :: payload, kept)
          end
      end
  end.

Definition append_rewritten_chunked_prefix c (substitution_tail : list byte) (keep_len : Z) (output : list byte) : list byte * list byte :=
  let safe_len := saturating_sub (zlen substitution_tail) keep_len in
  if safe_len =? 0 then (substitution_tail, output)
  else
    let '(chunk_payload, kept) := rewrite_from c 0 (Z.to_nat safe_len) substitution_tail in
    (kept, append_chunk output chunk_payload).

Definition append_rewritten_chunked_payload c (substitution_tail payload output : list byte) : list byte * list byte :=
  append_rewritten_chunked_prefix c (substitution_tail ++ payload) (saturating_sub (max_body_placeholder_len c) 1) output.

Definition flush_rewritten_chunked_payload c (substitution_tail output : list byte) : list byte * list byte :=
  append_rewritten_chunked_prefix c substitution_tail 0 output.

(** What the closure of [rewrite_chunked_body_part] captures besides the
    handler. *)
Record Rewriting := mkRewriting { rg_decoded_tail : list byte; rg_substitution_tail : list byte; rg_output : list byte }.

Definition rewrite_event (ev : ChunkedBodyEvent) : stE (SecretsHandler * Rewriting) SecretViolationAction () :=
  match ev with
  | EvSizeLine l => on_handler (apply_chunked_metadata_policy l LocChunkMetadata)
  | EvPayload payload =>
      let! (h, rg) := st_get in
      let! _ := on_handler (apply_blocking_action (detect_http1_fragment_blocking_action h (rg_decoded_tail rg) payload [] LocBody)) in
      st_put (fun '(h, rg) =>
        let tail := update_tail_buffer (rg_decoded_tail rg) payload (detection_tail_len (conn h)) in
        let '(sub, output) := append_rewritten_chunked_payload (conn h) (rg_substitution_tail rg) payload (rg_output rg) in
        (h, mkRewriting tail sub output))
  | EvZeroChunk =>
      st_put (fun '(h, rg) =>
        let '(sub, output) := flush_rewritten_chunked_payload (conn h) (rg_substitution_tail rg) (rg_output rg) in
        (h, mkRewriting (rg_decoded_tail rg) sub (output ++ bytes_of "0" ++ crlf)))
  | EvTrailerLine l =>
      let! _ := on_handler (apply_chunked_metadata_policy l LocTrailer) in
      st_put (fun '(h, rg) => (h, mkRewriting (rg_decoded_tail rg) (rg_substitution_tail rg) (rg_output rg ++ l)))
  end.

Definition rewrite_chunked_body_part (st : ChunkedRewriteState) data
    : stE SecretsHandler SecretViolationAction (ChunkedRewriteState * (list byte * option nat)) :=
  fun h =>
    let parser := rw_parser st in
    match process_chunked_body rewrite_event (with_decoded_tail parser []) data
            (h, mkRewriting (decoded_tail parser) (rw_substitution_tail st) []) with
    | ((h', rg), Ok (parser', body_end)) =>
        (h', Ok (mkRewrite (with_decoded_tail parser' (rg_decoded_tail rg)) (rg_substitution_tail rg), (rg_output rg, body_end)))
    | ((h', _), Err e) => (h', Err e)
    end.

(** A body read by read, as the handler's states [InChunkedBody] and
    [InChunkedRewriteBody] see it. *)
Fixpoint consume_reads (st : ChunkedBodyState) (reads : list (list byte)) : stE SecretsHandler SecretViolationAction (option (list byte)) :=
  match reads with
  | [] => st_ret None
  | data :: reads' =>
      let! (st', body_end) := consume_chunked_body_with_violation_detection st data in
      match body_end with
      | Some n => st_ret (Some (drop n data ++ mjoin reads'))
      | None => consume_reads st' reads'
      end
  end.

Fixpoint rewrite_reads (st : ChunkedRewriteState) (reads : list (list byte))
    : stE SecretsHandler SecretViolationAction (list byte * option (list byte)) :=
  match reads with
  | [] => st_ret ([], None)
  | data :: reads' =>
      let! (st', (output, body_end)) := rewrite_chunked_body_part st data in
      match body_end with
      | Some n => st_ret (output, Some (drop n data ++ mjoin reads'))
      | None => let! (output', rest) := rewrite_reads st' reads' in st_ret (output ++ output', rest)
      end
  end.

(** ** Reads *)

Lemma consume_reads_process st reads h :
  chunked_wf st ->
  consume_reads st reads h
  = let '((h', _), r) := process_reads consume_event (with_decoded_tail st []) reads (h, decoded_tail st) in (h', r).
Proof.
  revert st h. induction reads as [|data reads IH]; intros st h Hwf; [done|]. cbn [consume_reads process_reads]. unfold st_bind.
  unfold consume_chunked_body_with_violation_detection.
  destruct (process_chunked_body consume_event (with_decoded_tail st []) data (h, decoded_tail st)) as [[h1 tail] [[st' [n|]]|]] eqn:Hp; [done| |done].
  apply process_decoded_tail in Hp as [Hwf' Ht]; [|done]. cbn in Ht. rewrite IH by done. cbn. unfold with_decoded_tail. cbn.
  rewrite <- Ht. by destruct st'.
Qed.

(** The output of a rewrite only grows. *)
Definition prefix_output (o : list byte) (r : (SecretsHandler * Rewriting) * result SecretViolationAction ()) :=
  let '((h, rg), e) := r in ((h, mkRewriting (rg_decoded_tail rg) (rg_substitution_tail rg) (o ++ rg_output rg)), e).

Lemma append_rewritten_output c sub keep o x :
  append_rewritten_chunked_prefix c sub keep (o ++ x)
  = let '(sub', x') := append_rewritten_chunked_prefix c sub keep x in (sub', o ++ x').
Proof.
  unfold append_rewritten_chunked_prefix. destruct (_ =? 0); [done|]. destruct (rewrite_from _ _ _ _) as [p k].
  by rewrite append_chunk_app, (append_chunk_app x), app_assoc.
Qed.

Lemma rewrite_event_output ev h tail sub o x :
  rewrite_event ev (h, mkRewriting tail sub (o ++ x)) = prefix_output o (rewrite_event ev (h, mkRewriting tail sub x)).
Proof.
  destruct ev as [l|payload| |l]; cbn [rewrite_event]; unfold st_bind, st_get, st_put, on_handler, prefix_output; cbn.
  - by destruct (apply_blocking_action _ h) as [h' [[]|]].
  - destruct (apply_blocking_action _ h) as [h' [[]|]]; [|done]. cbn. unfold append_rewritten_chunked_payload.
    rewrite append_rewritten_output. by destruct (append_rewritten_chunked_prefix _ _ _ x) as [sub' x'].
  - unfold flush_rewritten_chunked_payload. rewrite append_rewritten_output.
    destruct (append_rewritten_chunked_prefix _ _ _ x) as [sub' x']. by rewrite <- app_assoc.
  - destruct (apply_blocking_action _ h) as [h' [[]|]]; [|done]. cbn. by rewrite <- app_assoc.
Qed.

Lemma run_rewrite_output evs h tail sub o x :
  run_events rewrite_event evs (h, mkRewriting tail sub (o ++ x))
  = prefix_output o (run_events rewrite_event evs (h, mkRewriting tail sub x)).
Proof.
  revert h tail sub x. induction evs as [|ev evs IH]; intros h tail sub x; cbn [run_events]; [done|]. unfold st_bind.
  rewrite rewrite_event_output. destruct (rewrite_event ev _) as [[h' [tail' sub' x']] [[]|]]; [|done]. cbn. apply IH.
Qed.

Lemma rewrite_reads_process parser sub reads h :
  chunked_wf parser ->
  rewrite_reads (mkRewrite parser sub) reads h
  = let '((h', rg), r) := process_reads rewrite_event (with_decoded_tail parser []) reads (h, mkRewriting (decoded_tail parser) sub []) in
    (h', match r with Ok rest => Ok (rg_output rg, rest) | Err e => Err e end).
Proof.
  revert parser sub h. induction reads as [|data reads IH]; intros parser sub h Hwf; [done|]. cbn [rewrite_reads process_reads]. unfold st_bind.
  unfold rewrite_chunked_body_part. cbn [rw_parser rw_substitution_tail].
  destruct (process_chunked_body rewrite_event (with_decoded_tail parser []) data _) as [[h1 [tail1 sub1 o1]] [[st' [n|]]|]] eqn:Hp; [done| |done].
  apply process_decoded_tail in Hp as [Hwf' Ht]; [|done]. cbn [with_decoded_tail decoded_tail] in Ht. cbn [rg_decoded_tail rg_substitution_tail rg_output].
  rewrite IH by done. cbn [decoded_tail with_decoded_tail phase line].
  replace (with_decoded_tail (with_decoded_tail st' tail1) []) with st' by (destruct st'; cbn in *; by subst).
  destruct (reads_ref st' reads Hwf') as (evs & _ & _ & Hproc). rewrite !Hproc. unfold st_bind.
  replace (mkRewriting tail1 sub1 o1) with (mkRewriting tail1 sub1 (o1 ++ [])) by (by rewrite app_nil_r). rewrite run_rewrite_output.
  destruct (run_events rewrite_event evs (h1, mkRewriting tail1 sub1 [])) as [[h2 rg2] [[]|]]; [|done].
  cbn [prefix_output]. unfold st_lift. by destruct (snd (ref_reads st' (mjoin reads))).
Qed.

(** ** Substitution *)

(** The substituted payload: placeholders of the secrets that apply in bodies
    become their values, scanning from the left. *)
Definition subst_all c l : list byte := fst (rewrite_from c 0 (length l) l).

Lemma matching_body_Some c l e :
  matching_body_secret_at c l = Some e ->
  e ∈ eligible_for_substitution c /\ body_secret_applies c e = true /\ exists l', l = es_placeholder e ++ l'.
Proof.
  intros [Hin [Ha Hs]%andb_true_iff]%find_some. apply list_elem_of_In in Hin. split_and!; [done | done|].
  by apply bytes_starts_with_iff.
Qed.

(** Bytes beyond the longest body placeholder do not change a match. *)
Lemma matching_body_app c l more :
  body_window c -> max_body_placeholder_len c <= zlen l -> matching_body_secret_at c (l ++ more) = matching_body_secret_at c l.
Proof.
  intros Hw Hl. unfold matching_body_secret_at. assert (Hin : forall e, e ∈ eligible_for_substitution c -> e ∈ eligible_for_substitution c) by done.
  revert Hin. generalize (eligible_for_substitution c) at 1 3 4 as es. induction es as [|e es IH]; intros Hin; [done|]. cbn [List.find].
  assert (body_secret_applies c e && bytes_starts_with (l ++ more) (es_placeholder e)
          = body_secret_applies c e && bytes_starts_with l (es_placeholder e)) as ->.
  { destruct (body_secret_applies c e) eqn:Ha; [|done]. cbn. unfold body_secret_applies in Ha.
    apply andb_true_iff in Ha as [[Hb _]%andb_true_iff _]. specialize (Hw e (Hin e (list_elem_of_here _ _)) Hb).
    apply eq_true_iff_eq. rewrite !bytes_starts_with_iff. split; intros [l' E]; [|exists (l' ++ more); by rewrite E, app_assoc].
    exists (drop (length (es_placeholder e)) l). rewrite <- (take_drop (length (es_placeholder e)) l) at 1. f_equal.
    apply (f_equal (take (length (es_placeholder e)))) in E. rewrite take_app_le, take_app_length in E by lia. done. }
  destruct (_ && _); [done|]. apply IH. intros e' He'. apply Hin. by right.
Qed.

Lemma rewrite_from_whole c skip safe l : (length l <= safe)%nat -> snd (rewrite_from c skip safe l) = [].
Proof.
  revert skip safe. induction l as [|b l IH]; intros skip safe Hs; [done|]. cbn [rewrite_from length] in *.
  destruct skip as [|skip]; [|apply IH; lia]. destruct safe as [|safe]; [lia|]. destruct (matching_body_secret_at c (b :: l)) as [e|].
  - specialize (IH (length (es_placeholder e) - 1)%nat safe ltac:(lia)). by destruct (rewrite_from c _ safe l).
  - specialize (IH 0%nat safe ltac:(lia)). by destruct (rewrite_from c 0 safe l).
Qed.

(** Rewriting the safe prefix and then what is kept, followed by more bytes, is
    rewriting all of it. *)
Lemma rewrite_from_app c skip safe l more :
  body_window c -> safe = 0%nat \/ Z.of_nat safe + max_body_placeholder_len c <= zlen l + 1 -> (skip <= length l)%nat ->
  let '(p, k) := rewrite_from c skip safe l in
  fst (rewrite_from c skip (length (l ++ more)) (l ++ more)) = p ++ subst_all c (k ++ more).
Proof.
  intros Hw. revert skip safe. induction l as [|b l IH]; intros skip safe Hs Hk; cbn [length] in Hk.
  { destruct skip; [|lia]. done. }
  cbn [rewrite_from app length] in *. destruct skip as [|skip].
  - destruct safe as [|safe]; [done|]. destruct Hs as [?|Hs]; [done|].
    change (b :: l ++ more) with ((b :: l) ++ more). rewrite matching_body_app by (done || cbn [length]; lia).
    destruct (matching_body_secret_at c (b :: l)) as [e|] eqn:Hm.
    + apply matching_body_Some in Hm as (_ & _ & l' & E). apply (f_equal length) in E. rewrite length_app in E. cbn [length] in E.
      specialize (IH (length (es_placeholder e) - 1)%nat safe ltac:(lia) ltac:(lia)).
      destruct (rewrite_from c _ safe l) as [p k]. destruct (rewrite_from c _ (length (l ++ more)) (l ++ more)). cbn [fst] in *.
      by rewrite IH, app_assoc.
    + specialize (IH 0%nat safe ltac:(lia) ltac:(lia)). destruct (rewrite_from c 0 safe l) as [p k].
      destruct (rewrite_from c 0 (length (l ++ more)) (l ++ more)). cbn [fst] in *. by rewrite IH.
  - specialize (IH skip (safe - 1)%nat ltac:(lia) ltac:(lia)). cbn [Nat.sub]. by rewrite ?Nat.sub_0_r.
Qed.

(** The output is the chunked encoding of [chunks]. *)
Definition chunks_out (chunks : list (list byte)) : list byte := mjoin (map (append_chunk []) chunks).

Lemma append_rewritten_prefix_chunk c sub keep out sub' out' :
  append_rewritten_chunked_prefix c sub keep out = (sub', out') ->
  exists p, out' = out ++ append_chunk [] p /\ rewrite_from c 0 (Z.to_nat (saturating_sub (zlen sub) keep)) sub = (p, sub').
Proof.
  unfold append_rewritten_chunked_prefix. destruct (Z.eqb_spec (saturating_sub (zlen sub) keep) 0) as [->|_].
  - intros [= <- <-]. exists []. unfold append_chunk. rewrite decide_True, app_nil_r by done. split; [done|]. by destruct sub.
  - destruct (rewrite_from c 0 _ sub) as [p k]. intros [= <- <-]. exists p. by rewrite append_chunk_app.
Qed.

Lemma append_payload_chunk c sub payload out sub' out' :
  body_window c -> append_rewritten_chunked_payload c sub payload out = (sub', out') ->
  exists p, out' = out ++ append_chunk [] p /\ forall more, subst_all c ((sub ++ payload) ++ more) = p ++ subst_all c (sub' ++ more).
Proof.
  intros Hw (p & -> & Hr)%append_rewritten_prefix_chunk. exists p. split; [done|]. intros more.
  pose proof (rewrite_from_app c 0 (Z.to_nat (saturating_sub (zlen (sub ++ payload)) (saturating_sub (max_body_placeholder_len c) 1)))
    (sub ++ payload) more Hw) as H2. rewrite Hr in H2. apply H2; [|lia]. unfold saturating_sub. lia.
Qed.

Lemma flush_chunk c sub out sub' out' :
  flush_rewritten_chunked_payload c sub out = (sub', out') -> out' = out ++ append_chunk [] (subst_all c sub) /\ sub' = [].
Proof.
  intros (p & -> & Hr)%append_rewritten_prefix_chunk. unfold saturating_sub in Hr.
  replace (Z.to_nat (Z.max 0 (zlen sub - 0))) with (length sub) in Hr by lia.
  pose proof (rewrite_from_whole c 0 (length sub) sub ltac:(lia)) as Hn. unfold subst_all. by rewrite Hr in *.
Qed.

Lemma chunks_out_body chunks enc p t :
  zlen (mjoin chunks) < 2 ^ 64 -> chunked_body enc p t -> chunked_body (chunks_out chunks ++ enc) (mjoin chunks ++ p) t.
Proof.
  unfold chunks_out. induction chunks as [|ch chunks IH]; intros Hl Hb; [done|].
  change (mjoin (ch :: chunks)) with (ch ++ mjoin chunks) in *.
  change (mjoin (map (append_chunk []) (ch :: chunks))) with (append_chunk [] ch ++ mjoin (map (append_chunk []) chunks)).
  rewrite length_app in Hl. rewrite <- !app_assoc. apply append_chunk_body; [lia|]. apply IH; [lia|done].
Qed.

(** ** Events *)

(** What a piece of the body is checked against: the tail of the payload for
    payload, the line alone for lines. *)
Definition event_report h (tail : list byte) (ev : ChunkedBodyEvent) : option SecretViolationReport :=
  match ev with
  | EvSizeLine l => detect_http1_fragment_blocking_action h [] l [] LocChunkMetadata
  | EvPayload payload => detect_http1_fragment_blocking_action h tail payload [] LocBody
  | EvZeroChunk => None
  | EvTrailerLine l => detect_http1_fragment_blocking_action h [] l (if utf8_valid l then l else []) LocTrailer
  end.
Definition event_tail c (tail : list byte) (ev : ChunkedBodyEvent) : list byte :=
  match ev with EvPayload payload => update_tail_buffer tail payload (detection_tail_len c) | _ => tail end.

(** Nothing in the events is refused. *)
Fixpoint silent h (tail : list byte) (evs : list ChunkedBodyEvent) : Prop :=
  match evs with
  | [] => True
  | ev :: evs' => event_report h tail ev = None /\ silent h (event_tail (conn h) tail ev) evs'
  end.

Definition rewritten c (rg : Rewriting) (ev : ChunkedBodyEvent) : Rewriting :=
  let tail := event_tail c (rg_decoded_tail rg) ev in
  match ev with
  | EvSizeLine _ => rg
  | EvPayload payload =>
      let '(sub, output) := append_rewritten_chunked_payload c (rg_substitution_tail rg) payload (rg_output rg) in mkRewriting tail sub output
  | EvZeroChunk =>
      let '(sub, output) := flush_rewritten_chunked_payload c (rg_substitution_tail rg) (rg_output rg) in
      mkRewriting tail sub (output ++ bytes_of "0" ++ crlf)
  | EvTrailerLine l => mkRewriting tail (rg_substitution_tail rg) (rg_output rg ++ l)
  end.

Lemma apply_blocking_None h : apply_blocking_action None h = (h, Ok ()).
Proof. done. Qed.

Lemma apply_blocking_Some r h : exists h' e, apply_blocking_action (Some r) h = (h', Err e) /\ conn h' = conn h.
Proof.
  do 2 eexists. split; [reflexivity|]. unfold record_denial. by destruct (reporting _).
Qed.

Lemma size_line_policy l h tail :
  apply_chunked_metadata_policy l LocChunkMetadata h = apply_blocking_action (event_report h tail (EvSizeLine l)) h.
Proof. unfold apply_chunked_metadata_policy. by rewrite decide_False. Qed.

Lemma trailer_policy l h tail :
  apply_chunked_metadata_policy l LocTrailer h = apply_blocking_action (event_report h tail (EvTrailerLine l)) h.
Proof. unfold apply_chunked_metadata_policy. by rewrite decide_True. Qed.

Lemma rewrite_event_spec ev h rg :
  match event_report h (rg_decoded_tail rg) ev with
  | None => rewrite_event ev (h, rg) = ((h, rewritten (conn h) rg ev), Ok ())
  | Some _ => exists s e, rewrite_event ev (h, rg) = (s, Err e)
  end.
Proof.
  destruct (event_report h (rg_decoded_tail rg) ev) as [r|] eqn:Hr.
  - destruct (apply_blocking_Some r h) as (h' & e & Ha & _).
    destruct ev; cbn [rewrite_event]; unfold st_bind, st_get, on_handler; [| |done|];
      rewrite ?(size_line_policy _ _ (rg_decoded_tail rg)), ?(trailer_policy _ _ (rg_decoded_tail rg)), ?Hr;
      cbn [event_report] in Hr; rewrite ?Hr, Ha; by do 2 eexists.
  - destruct ev; cbn [rewrite_event]; unfold st_bind, st_get, st_put, on_handler;
      rewrite ?(size_line_policy _ _ (rg_decoded_tail rg)), ?(trailer_policy _ _ (rg_decoded_tail rg)), ?Hr;
      cbn [event_report] in Hr; rewrite ?Hr, ?apply_blocking_None; cbn.
    + by destruct rg.
    + by destruct (append_rewritten_chunked_payload _ _ _ _).
    + by destruct (flush_rewritten_chunked_payload _ _ _).
    + done.
Qed.

Lemma consume_event_spec ev h tail :
  match event_report h tail ev with
  | None =>
      (match ev with EvPayload payload => contains_eligible_body_placeholder (conn h) tail payload = false | _ => True end ->
       consume_event ev (h, tail) = ((h, event_tail (conn h) tail ev), Ok ()))
      /\ (match ev with EvPayload payload => contains_eligible_body_placeholder (conn h) tail payload = true | _ => False end ->
       consume_event ev (h, tail) = ((h, tail), Err Block))
  | Some _ => exists s e, consume_event ev (h, tail) = (s, Err e)
  end.
Proof.
  destruct (event_report h tail ev) as [r|] eqn:Hr.
  - destruct (apply_blocking_Some r h) as (h' & e & Ha & _).
    destruct ev; cbn [consume_event]; unfold st_bind, st_get, st_lift, on_handler, block_unsupported_body_placeholder; [| |done|];
      try destruct (contains_eligible_body_placeholder _ _ _); try (by do 2 eexists);
      rewrite ?(size_line_policy _ _ tail), ?(trailer_policy _ _ tail), ?Hr;
      cbn [event_report] in Hr; rewrite ?Hr, Ha; by do 2 eexists.
  - destruct ev; cbn [consume_event]; unfold st_bind, st_get, st_put, st_lift, on_handler, block_unsupported_body_placeholder;
      (split; [|try done]); intros Hel; rewrite ?Hel; try done; rewrite ?(size_line_policy _ _ tail), ?(trailer_policy _ _ tail), ?Hr;
      cbn [event_report] in Hr; by rewrite ?Hr, ?apply_blocking_None.
Qed.

Lemma rewritten_tail c rg ev : rg_decoded_tail (rewritten c rg ev) = event_tail c (rg_decoded_tail rg) ev.
Proof.
  destruct ev; cbn; [done | by destruct (append_rewritten_chunked_payload _ _ _ _) | by destruct (flush_rewritten_chunked_payload _ _ _) | done].
Qed.

(** A run succeeds exactly when nothing is refused. *)
Lemma run_rewrite_spec evs h rg :
  (silent h (rg_decoded_tail rg) evs -> run_events rewrite_event evs (h, rg) = ((h, fold_left (rewritten (conn h)) evs rg), Ok ()))
  /\ (forall s, run_events rewrite_event evs (h, rg) = (s, Ok ()) -> silent h (rg_decoded_tail rg) evs).
Proof.
  revert rg. induction evs as [|ev evs IH]; intros rg; [done|]. cbn [silent run_events fold_left]. unfold st_bind.
  pose proof (rewrite_event_spec ev h rg) as Hev. destruct (event_report h (rg_decoded_tail rg) ev) as [rep|].
  - split; [by intros []|]. destruct Hev as (s & e & ->). done.
  - rewrite Hev. specialize (IH (rewritten (conn h) rg ev)). rewrite rewritten_tail in IH. split; [intros [_ Hs]; by apply IH|].
    intros s Hs. split; [done|]. by eapply IH.
Qed.

Lemma silent_app h tail evs evs' :
  silent h tail (evs ++ evs') <-> silent h tail evs /\ silent h (fold_left (event_tail (conn h)) evs tail) evs'.
Proof. revert tail. induction evs as [|ev evs IH]; intros tail; cbn; [tauto|]. rewrite IH. tauto. Qed.

Lemma silent_empty h tail evs : ineligible_for_substitution (conn h) = [] -> silent h tail evs.
Proof.
  intros He. revert tail. induction evs as [|ev evs IH]; intros tail; [done|]. split; [|apply IH].
  destruct ev; cbn; unfold detect_http1_fragment_blocking_action, detect_blocking_action_with_tail; by rewrite ?He.
Qed.

(** A body that is only watched passes when nothing is refused and it carries no
    placeholder that would have to be substituted. *)
Fixpoint unsubstituted c (tail : list byte) (evs : list ChunkedBodyEvent) : Prop :=
  match evs with
  | [] => True
  | ev :: evs' =>
      match ev with EvPayload payload => contains_eligible_body_placeholder c tail payload = false | _ => True end
      /\ unsubstituted c (event_tail c tail ev) evs'
  end.

Lemma run_consume_spec evs h tail :
  (silent h tail evs -> unsubstituted (conn h) tail evs ->
     run_events consume_event evs (h, tail) = ((h, fold_left (event_tail (conn h)) evs tail), Ok ()))
  /\ (forall s, run_events consume_event evs (h, tail) = (s, Ok ()) -> silent h tail evs /\ unsubstituted (conn h) tail evs /\ fst s = h).
Proof.
  revert tail. induction evs as [|ev evs IH]; intros tail; [split; [done|]; by intros s [= <-]|].
  cbn [silent unsubstituted run_events fold_left]. unfold st_bind.
  pose proof (consume_event_spec ev h tail) as Hev. destruct (event_report h tail ev) as [rep|].
  - split; [by intros []|]. destruct Hev as (s & e & ->). done.
  - destruct Hev as [Hok Hblock]. specialize (IH (event_tail (conn h) tail ev)). split.
    + intros [_ Hs] [Hu Hus]. rewrite Hok by done. by apply IH.
    + intros s Hs. assert (Hu : match ev with EvPayload payload => contains_eligible_body_placeholder (conn h) tail payload = false | _ => True end).
      { destruct ev; [done| |done|done]. destruct (contains_eligible_body_placeholder _ _ _); [|done]. by rewrite Hblock in Hs. }
      rewrite Hok in Hs by done. apply IH in Hs as (? & ? & ?). by split_and!.
Qed.

(** ** Rewriting a body *)

Lemma rewritten_pre c pre rg :
  body_window c -> Forall before_last pre ->
  exists chunks, rg_output (fold_left (rewritten c) pre rg) = rg_output rg ++ chunks_out chunks
    /\ forall more, subst_all c (rg_substitution_tail rg ++ payload_of pre ++ more)
                   = mjoin chunks ++ subst_all c (rg_substitution_tail (fold_left (rewritten c) pre rg) ++ more).
Proof.
  intros Hw Hpre. revert rg. induction Hpre as [|ev pre Hev _ IH]; intros rg.
  { exists []. cbn. by rewrite app_nil_r. }
  cbn [fold_left]. destruct (IH (rewritten c rg ev)) as (chunks & Ho & Hs). destruct ev as [l|payload| |l]; [|  |done|done].
  - exists chunks. done.
  - cbn [rewritten event_tail] in *. destruct (append_rewritten_chunked_payload c _ payload _) as [sub' out'] eqn:Ha.
    apply append_payload_chunk in Ha as (p & -> & Hp); [|done]. cbn [rg_output rg_substitution_tail] in *.
    exists (p :: chunks). rewrite Ho. split; [by rewrite <- app_assoc|]. intros more.
    change (payload_of (EvPayload payload :: pre)) with (payload ++ payload_of pre). change (mjoin (p :: chunks)) with (p ++ mjoin chunks).
    rewrite <- !app_assoc, <- Hs. rewrite <- Hp. by rewrite <- !app_assoc.
Qed.

Lemma rewritten_trailers c t rg : rg_output (fold_left (rewritten c) (map EvTrailerLine t) rg) = rg_output rg ++ mjoin t.
Proof.
  revert rg. induction t as [|l t IH]; intros rg; cbn; [by rewrite app_nil_r|]. rewrite IH. cbn. by rewrite <- app_assoc.
Qed.

Lemma trailers_join enc t : chunked_trailers enc t -> enc = mjoin t.
Proof. induction 1 as [|l enc t _ _ _ IH]; [done|]. cbn. by rewrite IH. Qed.

Lemma body_trailers enc p t : chunked_body enc p t -> chunked_trailers (mjoin t) t.
Proof. induction 1 as [l enc t _ _ Ht|]; [|done]. by rewrite <- (trailers_join _ _ Ht). Qed.

Lemma zero_chunk_body t : chunked_trailers (mjoin t) t -> chunked_body (bytes_of "0" ++ crlf ++ mjoin t) [] t.
Proof.
  intros Ht. constructor; [apply (fmt_complete_line 0) | by vm_compute | done].
Qed.

(** The events of a whole body, rewritten from the start. *)
Lemma rewritten_body c evs enc p t tail :
  body_window c -> chunked_body enc p t -> body_events evs p t -> zlen (subst_all c p) < 2 ^ 64 ->
  chunked_body (rg_output (fold_left (rewritten c) evs (mkRewriting tail [] []))) (subst_all c p) t.
Proof.
  intros Hw Hb (pre & -> & Hpre & <-) Hl. rewrite fold_left_app. cbn [fold_left]. rewrite rewritten_trailers.
  destruct (rewritten_pre c pre (mkRewriting tail [] []) Hw Hpre) as (chunks & Ho & Hs). cbn [rewritten].
  destruct (flush_rewritten_chunked_payload _ _ _) as [sub' out'] eqn:Hf. apply flush_chunk in Hf as [-> ->]. cbn [rg_output] in *.
  rewrite Ho. cbn [app]. specialize (Hs []). cbn [app] in Hs. rewrite !app_nil_r in Hs. cbn [rg_substitution_tail app] in Hs. rewrite Hs in *.
  set (last := subst_all c (rg_substitution_tail _)) in *. rewrite length_app in Hl. rewrite <- !app_assoc.
  apply chunks_out_body; [lia|]. rewrite <- (app_nil_r last) at 2. apply append_chunk_body; [lia|]. apply zero_chunk_body. by eapply body_trailers.
Qed.

(** The events a complete body gives, however it is read. *)
Lemma whole_body_events reads enc p t rest :
  chunked_body enc p t -> mjoin reads = enc ++ rest ->
  exists evs, body_events evs p t
    /\ forall S (on_event : ChunkedBodyEvent -> stE S SecretViolationAction ()) s,
         process_reads on_event chunked_default reads s = (let! _ := run_events on_event evs in st_ret (Some rest)) s.
Proof.
  intros Hb Hcat. destruct (reads_ref chunked_default reads) as (evs & Hex & Hne & Hproc); [done|].
  destruct (body_run _ _ _ Hb [] rest) as (revs & Hr & Hev). unfold ref_reads in *. rewrite Hcat in *.
  unfold chunked_default in *. rewrite Hr in *. cbn [fst snd] in *.
  exists evs. split; [apply body_events_explode; [done|]; by rewrite Hex|]. intros S on_event s. rewrite Hproc. by rewrite drop_app_length.
Qed.

(** ** Placeholders that must not leave *)

Section detection.
Context {HP : PercentDecoding}.

Lemma report_None_shows h tail data headers location secret :
  detect_http1_fragment_blocking_action h tail data headers location = None -> is_scoped_fragment_location location = true ->
  secret ∈ ineligible_for_substitution (conn h) -> is_placeholder secret <> [] -> ~ shows (is_placeholder secret) (tail ++ data).
Proof.
  unfold detect_http1_fragment_blocking_action, detect_blocking_action_with_tail. intros Hd Hl Hin Hp.
  rewrite bool_decide_eq_false_2 in Hd by (intros E; rewrite E in Hin; by apply not_elem_of_nil in Hin).
  rewrite Hl, andb_false_r in Hd. destruct (detect_blocking_action_in_fragments _ _ _ _ _) eqn:Hdet; [by destruct (http1_request_summary_ h)|].
  apply (detect_None _ _ _ _ _ Hdet (tail ++ data, location) secret) in Hin; [|apply list_elem_of_here].
  apply fragment_match_None in Hin as (? & ? & ?); [|done]. unfold shows. tauto.
Qed.

Lemma silent_payload h secret stream tail evs :
  windows_ok (conn h) -> secret ∈ ineligible_for_substitution (conn h) -> is_placeholder secret <> [] ->
  no_lone_surrogates (stream ++ payload_of evs) -> tail_covers (max_detection_window_len (conn h)) (is_placeholder secret) stream tail ->
  ~ shows (is_placeholder secret) stream -> silent h tail evs -> ~ shows (is_placeholder secret) (stream ++ payload_of evs).
Proof.
  intros Hw Hin Hp. pose proof (ineligible_window _ Hw secret Hin) as HW. revert stream tail.
  induction evs as [|ev evs IH]; intros stream tail Hv Hc Hs Hsil; [cbn; by rewrite app_nil_r|]. destruct Hsil as [Hev Hsil].
  destruct ev as [l|payload| |l]; cbn [event_tail event_report] in *; try (by apply (IH stream tail)).
  change (payload_of (EvPayload payload :: evs)) with (payload ++ payload_of evs) in *. rewrite app_assoc in *.
  apply (IH _ (update_tail_buffer tail payload (detection_tail_len (conn h)))); [done | | | done].
  - apply tail_covers_update; [unfold detection_tail_len, saturating_sub; lia..|done].
  - apply report_None_shows with (secret := secret) in Hev; [|done..].
    apply (tail_covers_step (max_detection_window_len (conn h)) _ _ tail); [by eapply no_lone_surrogates_prefix | done..].
Qed.

Lemma silent_trailers h secret tail evs :
  secret ∈ ineligible_for_substitution (conn h) -> is_placeholder secret <> [] -> silent h tail evs ->
  Forall (fun l => ~ shows (is_placeholder secret) l) (trailers_of evs).
Proof.
  intros Hin Hp. revert tail. induction evs as [|ev evs IH]; intros tail; [constructor|]. intros [Hev Hsil].
  destruct ev as [l|payload| |l]; try (by eapply IH). change (trailers_of (EvTrailerLine l :: evs)) with (l :: trailers_of evs).
  constructor; [|by eapply IH]. by apply report_None_shows with (secret := secret) in Hev.
Qed.

Lemma body_applies_ne c e : body_secret_applies c e = true -> es_placeholder e <> [].
Proof. unfold body_secret_applies. intros Ha E. by rewrite E, andb_false_r in Ha. Qed.

Lemma contains_eligible_None c e tail data :
  e ∈ eligible_for_substitution c -> body_secret_applies c e = true -> contains_eligible_body_placeholder c tail data = false ->
  ~ infix (es_placeholder e) (tail ++ data).
Proof.
  intros Hin Ha Hev Hinf. unfold contains_eligible_body_placeholder in Hev. pose proof (body_applies_ne _ _ Ha) as Hne.
  assert (needs_body_substitution c = true) as Hneed.
  { unfold body_secret_applies in Ha. rewrite !andb_true_iff in Ha. destruct Ha as ((Hb & _) & Hact).
    apply existsb_exists. exists e. by rewrite <- list_elem_of_In, Hb, Hact. }
  rewrite Hneed in Hev. cbn in Hev. apply not_true_iff_false in Hev. apply Hev, existsb_exists. exists e.
  rewrite <- list_elem_of_In, Ha. split; [done|]. by apply contains_bytes_iff.
Qed.

Lemma unsubstituted_payload h e stream tail evs :
  windows_ok (conn h) -> e ∈ eligible_for_substitution (conn h) -> body_secret_applies (conn h) e = true ->
  tail_covers (max_detection_window_len (conn h)) (es_placeholder e) stream tail -> ~ infix (es_placeholder e) stream ->
  unsubstituted (conn h) tail evs -> ~ infix (es_placeholder e) (stream ++ payload_of evs).
Proof.
  intros Hw Hin Ha. pose proof (eligible_window _ Hw e Hin) as HW. pose proof (body_applies_ne _ _ Ha) as Hne. revert stream tail.
  induction evs as [|ev evs IH]; intros stream tail Hc Hs Hu; [cbn; by rewrite app_nil_r|]. destruct Hu as [Hev Hu].
  destruct ev as [l|payload| |l]; cbn [event_tail] in *; try (by apply (IH stream tail)).
  change (payload_of (EvPayload payload :: evs)) with (payload ++ payload_of evs) in *. rewrite app_assoc in *.
  apply (IH _ (update_tail_buffer tail payload (detection_tail_len (conn h)))); [| | done].
  - apply tail_covers_update; [unfold detection_tail_len, saturating_sub; lia..|done].
  - apply (raw_step (max_detection_window_len (conn h)) _ _ tail); [done..|]. by apply (contains_eligible_None (conn h)).
Qed.

(** Neither the payload nor the trailers of the events show a placeholder the
    connection must not carry. *)
Definition no_placeholder_leaves c (evs : list ChunkedBodyEvent) : Prop :=
  forall secret, secret ∈ ineligible_for_substitution c -> is_placeholder secret <> [] ->
    (no_lone_surrogates (payload_of evs) -> ~ shows (is_placeholder secret) (payload_of evs))
    /\ Forall (fun l => ~ shows (is_placeholder secret) l) (trailers_of evs).

Lemma silent_guarded h evs : windows_ok (conn h) -> silent h [] evs -> no_placeholder_leaves (conn h) evs.
Proof.
  intros Hw Hs secret Hin Hp. split; [|by eapply silent_trailers]. intros Hv. apply (silent_payload h secret [] []); try done.
  - apply tail_covers_nil.
  - by apply not_shows_nil.
Qed.

Lemma no_placeholder_leaves_explode c evs evs' : explode evs = evs' -> no_placeholder_leaves c evs -> no_placeholder_leaves c evs'.
Proof. intros <-. unfold no_placeholder_leaves. by rewrite explode_payload_of, explode_trailers_of. Qed.

End detection.

(** C8: A rewritten chunked body is the chunked encoding of the substituted
    payload with the trailers it came with, however it was cut into chunks and
    reads; the rewriting stops exactly where the body ends, and it succeeds when
    the connection watches for no placeholder. *)
Theorem rewritten_body_exact h reads enc p t rest :
  body_window (conn h) -> chunked_body enc p t -> mjoin reads = enc ++ rest -> zlen (subst_all (conn h) p) < 2 ^ 64 ->
  (forall h' out, rewrite_reads (mkRewrite chunked_default []) reads h = (h', Ok out) ->
     exists output, out = (output, Some rest) /\ h' = h /\ chunked_body output (subst_all (conn h) p) t)
  /\ (ineligible_for_substitution (conn h) = [] ->
     exists output, rewrite_reads (mkRewrite chunked_default []) reads h = (h, Ok (output, Some rest))).
Proof.
  intros Hw Hb Hcat Hl. destruct (whole_body_events _ _ _ _ _ Hb Hcat) as (evs & Hev & Hproc).
  rewrite rewrite_reads_process by done. change (with_decoded_tail chunked_default []) with chunked_default. rewrite Hproc. unfold st_bind.
  split.
  - intros h' out. destruct (run_events rewrite_event evs _) as [[h1 t1] [[]|]] eqn:Hr; [|done].
    pose proof Hr as Hs. apply (proj2 (run_rewrite_spec _ _ _)) in Hs. rewrite (proj1 (run_rewrite_spec _ _ _) Hs) in Hr.
    injection Hr as <- <-. intros [= <- <-]. eexists. split; [done|]. split; [done|]. by eapply rewritten_body.
  - intros He. rewrite (proj1 (run_rewrite_spec _ _ _)) by (by apply silent_empty). by eexists.
Qed.

(** [subst_all], equation by equation. *)
Lemma rewrite_from_skip c skip l : fst (rewrite_from c skip (length l) l) = subst_all c (drop skip l).
Proof. revert skip. induction l as [|b l IH]; intros [|skip]; [done..|]. cbn [rewrite_from length drop]. cbn [Nat.sub]. rewrite Nat.sub_0_r. apply IH. Qed.

Lemma subst_all_eq c b l :
  subst_all c (b :: l)
  = match matching_body_secret_at c (b :: l) with
    | Some e => es_value e ++ subst_all c (drop (length (es_placeholder e)) (b :: l))
    | None => b :: subst_all c l
    end.
Proof.
  unfold subst_all at 1. cbn [rewrite_from length]. destruct (matching_body_secret_at c (b :: l)) as [e|] eqn:Hm.
  - apply matching_body_Some in Hm as (_ & Ha & _). unfold body_secret_applies in Ha.
    pose proof (rewrite_from_skip c (length (es_placeholder e) - 1) l) as Hs. destruct (rewrite_from c _ (length l) l) as [p k]. cbn [fst] in *.
    rewrite Hs. by destruct (es_placeholder e); [rewrite andb_false_r in Ha|]; cbn [length drop]; rewrite ?Nat.sub_succ, ?Nat.sub_0_r.
  - pose proof (rewrite_from_skip c 0 l) as Hs. by destruct (rewrite_from c 0 (length l) l); cbn [fst drop] in *; subst.
Qed.

(** ** Opaque streams *)

Fixpoint scan_reads (reads : list (list byte)) : stE SecretsHandler SecretViolationAction (list byte) :=
  match reads with
  | [] => st_ret []
  | data :: reads' =>
      let! forwarded := scan_opaque data in
      let! forwarded' := scan_reads reads' in
      st_ret (forwarded ++ forwarded')
  end.

Lemma trim_ascii_start_split s : exists x, s = x ++ trim_ascii_start s /\ (x = [] \/ exists y w, x = y ++ [w] /\ is_ascii_whitespace w = true).
Proof.
  induction s as [|b s (x & E & Hx)]; [by exists []; split; [|left]|]. unfold trim_ascii_start. cbn [skip_while].
  destruct (is_ascii_whitespace b) eqn:Hb; [|by exists []; split; [|left]]. fold (trim_ascii_start s). exists (b :: x). split; [cbn; congruence|].
  right. destruct Hx as [->|(y & w & -> & Hw)]; [by exists [], b | by exists (b :: y), w].
Qed.

Lemma trim_ascii_start_blank b s :
  is_ascii_whitespace b = true -> exists y w, b :: s = y ++ [w] ++ trim_ascii_start (b :: s) /\ is_ascii_whitespace w = true.
Proof.
  intros Hb. unfold trim_ascii_start. cbn [skip_while]. rewrite Hb. fold (trim_ascii_start s).
  destruct (trim_ascii_start_split s) as (x & E & [->|(y & w & -> & Hw)]).
  - exists [], b. split; [cbn; by f_equal | done].
  - exists (b :: y), w. split; [|done]. cbn [app]. f_equal. by rewrite E at 1; rewrite <- app_assoc.
Qed.

Lemma byte_position_drop P s n : byte_position P s = Some n -> exists b, drop n s = b :: drop (S n) s /\ P b = true.
Proof.
  revert n. induction s as [|b s IH]; intros n; [done|]. cbn [byte_position]. destruct (P b) eqn:Hb; [intros [= <-]; by exists b|].
  destruct (byte_position P s) as [m|]; [|done]. intros [= <-]. exact (IH m eq_refl).
Qed.

(** The payload of a Basic credential ends the line and follows a blank. *)
Lemma opaque_basic_auth_split l encoded :
  opaque_basic_auth_payload l = Some encoded -> exists y w, l = y ++ [w] ++ encoded /\ is_ascii_whitespace w = true.
Proof.
  unfold opaque_basic_auth_payload. destruct (_ <? _)%nat; [done|]. set (value := trim_ascii_start _).
  destruct (trim_ascii_start_split (drop (length AUTHORIZATION_HEADER_NAME) l)) as (x & Ex & _). fold value in Ex.
  destruct (byte_position is_ascii_whitespace value) as [n|] eqn:Hp; [|done]. destruct (negb _); [done|].
  apply byte_position_drop in Hp as (b & Hd & Hb).
  rewrite Hd. destruct (trim_ascii_start_blank b (drop (S n) value) Hb) as (y & w & Ez & Hw).
  destruct (_ && _); [|done]. intros [= <-]. exists (take (length AUTHORIZATION_HEADER_NAME) l ++ x ++ take n value ++ y), w.
  split; [|done]. rewrite <- (take_drop (length AUTHORIZATION_HEADER_NAME) l) at 1. rewrite Ex.
  rewrite <- (take_drop n value) at 1. rewrite Hd, Ez at 1. by rewrite <- !app_assoc.
Qed.

Section opaque.
Context {HP : PercentDecoding}.

Lemma rfind_drop p s n : rfind_ignore_case p s = Some n -> (n <= length s)%nat.
Proof.
  revert n. induction s as [|b s IH]; intros n; [done|]. cbn [rfind_ignore_case].
  destruct (rfind_ignore_case p s) as [m|]; [intros [= <-]; specialize (IH m eq_refl); cbn; lia|].
  destruct (_ && _); [|done]. intros [= <-]. lia.
Qed.

Lemma opaque_tail_covers c p stream tail data :
  Forall (fun b => is_ascii_whitespace b = false) p ->
  tail_covers (max_detection_window_len c) p stream tail ->
  tail_covers (max_detection_window_len c) p (stream ++ data) (opaque_tail c tail data).
Proof.
  intros Hp Ht. unfold opaque_tail. set (base := saturating_sub _ 1). assert (max_detection_window_len c - 1 <= base /\ 0 <= base) as [Hb Hb0].
  { unfold base, saturating_sub. lia. }
  set (auth := let* start := rfind_ignore_case _ _ in _). set (bounded := update_tail_buffer _ _ _).
  assert (Hbounded : tail_covers (max_detection_window_len c) p (stream ++ data) bounded) by (apply tail_covers_update; [lia | lia | done]).
  destruct auth as [line|] eqn:Hauth; [|done]. destruct (_ <? _); [|done].
  destruct (opaque_basic_auth_payload line) as [encoded|] eqn:Henc; [|done].
  apply opaque_basic_auth_split in Henc as (y & w & -> & Hw).
  assert (exists x, tail ++ data = x ++ [w] ++ encoded) as [x Ex].
  { unfold auth in Hauth. destruct (rfind_ignore_case _ _) as [start|]; [|done]. cbn in Hauth. destruct (str_contains _ _); [done|].
    injection Hauth as E. exists (take start (tail ++ data) ++ y). rewrite <- app_assoc. cbn [app]. rewrite <- E. by rewrite take_drop. }
  assert (Hcov : tail_covers (max_detection_window_len c) p (stream ++ data) encoded).
  { apply (tail_covers_blank _ _ _ (tail ++ data) x w encoded); [by apply tail_covers_app | done | done|].
    intros Hin. rewrite Forall_forall in Hp. by rewrite (Hp w Hin) in Hw. }
  rewrite app_assoc. apply tail_covers_prefix; [by vm_compute; repeat (apply not_elem_of_cons; split; [done|]); apply not_elem_of_nil..|].
  set (s := saturating_sub (zlen encoded) base). assert (s = Z.max 0 (zlen encoded - base)) as Hs by done.
  pose proof (Z.mod_pos_bound s 4 ltac:(lia)). pose proof (Z.mod_le s 4 ltac:(lia) ltac:(lia)).
  destruct (Z.eq_dec (s - s `mod` 4) 0) as [->|Hne]; [done|]. apply tail_covers_drop; [|done]. rewrite length_drop. lia.
Qed.

(** One read of an opaque stream. *)
Lemma scan_opaque_Ok data h h' r :
  scan_opaque data h = (h', Ok r) ->
  r = data /\ conn h' = conn h /\ prev_tail h' = opaque_tail (conn h) (prev_tail h) data
  /\ detect_blocking_action_with_tail (ineligible_for_substitution (conn h)) (prev_tail h) data [] Opaque LocUnknown None = None.
Proof.
  unfold scan_opaque, st_bind, st_get. destruct (_ && _); [done|]. unfold st_put.
  destruct (detect_blocking_action_with_tail _ _ _ _ _ _ _) as [rep|]; [|by intros [= <- <-]].
  destruct (apply_blocking_Some rep (with_opaque h true)) as (h1 & e & -> & _). done.
Qed.

Lemma scan_reads_out reads h h' out : scan_reads reads h = (h', Ok out) -> out = mjoin reads.
Proof.
  revert h h' out. induction reads as [|data reads IH]; intros h h' out; [by intros [= _ <-]|]. cbn [scan_reads]. unfold st_bind.
  destruct (scan_opaque data h) as [h1 [r|]] eqn:Hr; [|done]. apply scan_opaque_Ok in Hr as (-> & _).
  destruct (scan_reads reads h1) as [h2 [r2|]] eqn:Hr2; [|done]. intros [= _ <-]. by rewrite (IH _ _ _ Hr2).
Qed.

Lemma scan_reads_free reads h :
  ineligible_for_substitution (conn h) = [] -> http_authority (conn h) = None -> exists h', scan_reads reads h = (h', Ok (mjoin reads)).
Proof.
  revert h. induction reads as [|data reads IH]; intros h Hi Ha; [by eexists|]. cbn [scan_reads]. unfold st_bind, scan_opaque, st_get, st_bind.
  rewrite Ha, andb_false_r. cbn [andb]. unfold st_put, detect_blocking_action_with_tail. rewrite Hi. cbn.
  destruct (IH (update_opaque_tail (with_opaque h true) data)) as [h' ->]; [done..|]. by eexists.
Qed.

Lemma scan_reads_guarded h reads h' out secret stream :
  windows_ok (conn h) -> secret ∈ ineligible_for_substitution (conn h) -> is_placeholder secret <> [] ->
  Forall (fun b => is_ascii_whitespace b = false) (is_placeholder secret) -> no_lone_surrogates (stream ++ mjoin reads) ->
  tail_covers (max_detection_window_len (conn h)) (is_placeholder secret) stream (prev_tail h) -> ~ shows (is_placeholder secret) stream ->
  scan_reads reads h = (h', Ok out) -> ~ shows (is_placeholder secret) (stream ++ mjoin reads).
Proof.
  intros Hw Hin Hp Hb. pose proof (ineligible_window _ Hw secret Hin) as HW. revert h h' out stream Hw Hin HW.
  induction reads as [|data reads IH]; intros h h' out stream Hw Hin HW Hv Hc Hs; [cbn; by rewrite app_nil_r|].
  change (mjoin (data :: reads)) with (data ++ mjoin reads) in *. rewrite app_assoc in *. cbn [scan_reads]. unfold st_bind.
  destruct (scan_opaque data h) as [h1 [r|]] eqn:Hr; [|done]. apply scan_opaque_Ok in Hr as (-> & Hconn & Htail & Hdet).
  destruct (scan_reads reads h1) as [h2 [r2|]] eqn:Hr2; [|done]. intros _.
  apply (IH h1 h2 r2 (stream ++ data)); rewrite ?Hconn, ?Htail; try done; [by apply opaque_tail_covers|].
  unfold detect_blocking_action_with_tail in Hdet.
  rewrite bool_decide_eq_false_2 in Hdet by (intros E; rewrite E in Hin; by apply not_elem_of_nil in Hin). cbn [andb] in Hdet.
  apply (detect_None _ _ _ _ _ Hdet (prev_tail h ++ data, LocUnknown) secret) in Hin; [|apply list_elem_of_here].
  apply fragment_match_None in Hin as (? & ? & ?); [|done].
  apply (tail_covers_step (max_detection_window_len (conn h)) _ _ (prev_tail h)); [by eapply no_lone_surrogates_prefix | done.. |].
  unfold shows. tauto.
Qed.

End opaque.
End Body.

(** ** Witnesses *)

Import CidrNetworks.

(** Two chunks that split a placeholder, and a body in three reads. *)
Definition demo_body (text : string) : list byte :=
  bytes_of "5" ++ crlf ++ take 5 (bytes_of text) ++ crlf ++ append_chunk [] (drop 5 (bytes_of text)) ++ bytes_of "0" ++ crlf ++ crlf.
Definition demo_reads (text : string) : list (list byte) := [take 6 (demo_body text); drop 6 (demo_body text) ++ bytes_of "GET"].


Lemma demo_chunked : chunked_body (demo_body "a MSB_TOKEN!") (bytes_of "a MSB_TOKEN!") [crlf].
Proof.
  apply (body_chunk (bytes_of "5") (take 5 (bytes_of "a MSB_TOKEN!"))); [apply (fmt_complete_line 5) | by vm_compute | done|].
  apply (append_chunk_body (drop 5 (bytes_of "a MSB_TOKEN!")) _ []); [by vm_compute|]. apply (zero_chunk_body [crlf]), trailers_end.
Qed.

Lemma rewritten_body_exact_witness :
  let h := demo_handler (bytes_of "api.example.com") in
  subst_all (conn h) (bytes_of "a MSB_TOKEN!") = bytes_of "a s3cr3t!"
  /\ exists output, @rewrite_reads simple_codecs literal_hpack _ (mkRewrite chunked_default []) (demo_reads "a MSB_TOKEN!") h = (h, Ok (output, Some (bytes_of "GET"))).
Proof.
  intros h. split; [by vm_compute|].
  destruct (@rewritten_body_exact simple_codecs literal_hpack _ h (demo_reads "a MSB_TOKEN!") (demo_body "a MSB_TOKEN!")
    (bytes_of "a MSB_TOKEN!") [crlf] (bytes_of "GET")) as [_ Hok].
  - apply demo_windows.
  - apply demo_chunked.
  - by vm_compute.
  - by vm_compute.
  - apply Hok. by vm_compute.
Defined.

