(* ===== verification/HeaderBlock.v ===== *)
(** * The structural check of HPACK header blocks

    [engine/secrets/hpack.rs]: the walk over the representations of a guest's
    HTTP/2 header block that runs before the decoder sees it.

    The theorem: the walk accepts exactly the sequences of complete
    representations of RFC 7541, section 6, with integers of at most five
    octets, and reports the offset where the first incomplete one starts. *)

From S2P Require Import Prelude Text.
From Stdlib Require Import Strings.Byte.

Definition MAX_INTEGER_CONTINUATION_OCTETS : nat := 4.

(** ** Definitions *)

(** The loop over the continuation octets; [i] counts them. *)
Fixpoint read_continuation (i : nat) (value : Z) (octets : list byte) : option (Z * nat) :=
  match octets with
  | [] => None
  | octet :: octets' =>
      let value := value + Z.shiftl (Z.land (Z_of_byte octet) 0x7f) (7 * Z.of_nat i) in
      if Z.land (Z_of_byte octet) 0x80 =? 0 then Some (value, (i + 2)%nat) else read_continuation (S i) value octets'
  end.

Definition read_integer (buf : list byte) (prefix_bits : Z) : option (Z * nat) :=
  let mask := Z.shiftl 1 prefix_bits - 1 in
  match buf with
  | [] => None
  | first :: rest =>
      let value := Z.land (Z_of_byte first) mask in
      if value <? mask then Some (value, 1%nat) else read_continuation 0 value (take MAX_INTEGER_CONTINUATION_OCTETS rest)
  end.

(** [block.get(pos..)] is [None] beyond the end. *)
Definition skip_string (block : list byte) (pos : nat) : option nat :=
  if (length block <? pos)%nat then None
  else
    let* (len, used) := read_integer (drop pos block) 7 in
    let end_ := (pos + used + Z.to_nat len)%nat in
    if (end_ <=? length block)%nat then Some end_ else None.

Definition representation_end (block : list byte) (pos : nat) : option nat :=
  let* first := block !! pos in
  let bit n := negb (Z.land (Z_of_byte first) n =? 0) in
  let integer bits := let* (_, used) := read_integer (drop pos block) bits in Some (pos + used)%nat in
  let literal prefix_bits :=
    let* (name_index, used) := read_integer (drop pos block) prefix_bits in
    let* pos' := if name_index =? 0 then skip_string block (pos + used)%nat else Some (pos + used)%nat in
    skip_string block pos' in
  if bit 0x80 then integer 7
  else if bit 0x40 then literal 6
  else if bit 0x20 then integer 5
  else literal 4.

(** The loop of [check_header_block], the offset of the rejected representation
    in [Err]. *)
Fixpoint check_from (fuel : nat) (block : list byte) (pos : nat) : result nat () :=
  match fuel with
  | O => Ok ()
  | S fuel' =>
      if (pos <? length block)%nat then
        match representation_end block pos with
        | Some pos' => check_from fuel' block pos'
        | None => Err pos
        end
      else Ok ()
  end.

Definition check_header_block (block : list byte) : result nat () := check_from (S (length block)) block 0.

(** ** Representations of RFC 7541 *)

(** The continuation octets of an integer (section 5.1). *)
Inductive continuation : list byte -> Z -> Prop :=
| cont_last o : Z_of_byte o < 128 -> continuation [o] (Z_of_byte o)
| cont_more o os v : 128 <= Z_of_byte o -> continuation os v -> continuation (o :: os) (Z_of_byte o - 128 + 128 * v).

(** An integer with a prefix of [bits] bits. *)
Inductive hpack_integer (bits : Z) : list byte -> Z -> Prop :=
| int_short b : Z_of_byte b `mod` 2 ^ bits < 2 ^ bits - 1 -> hpack_integer bits [b] (Z_of_byte b `mod` 2 ^ bits)
| int_long b os v :
    Z_of_byte b `mod` 2 ^ bits = 2 ^ bits - 1 -> continuation os v -> (length os <= MAX_INTEGER_CONTINUATION_OCTETS)%nat ->
    hpack_integer bits (b :: os) (2 ^ bits - 1 + v).

(** A string literal (section 5.2). *)
Inductive hpack_string : list byte -> Prop :=
| string_literal len body : hpack_integer 7 len (zlen body) -> hpack_string (len ++ body).

Inductive representation : list byte -> Prop :=
| repr_indexed b os v : 128 <= Z_of_byte b -> hpack_integer 7 (b :: os) v -> representation (b :: os)
| repr_size_update b os v : 32 <= Z_of_byte b < 64 -> hpack_integer 5 (b :: os) v -> representation (b :: os)
| repr_literal bits b os v name value :
    (bits = 6 /\ 64 <= Z_of_byte b < 128 \/ bits = 4 /\ Z_of_byte b < 32) -> hpack_integer bits (b :: os) v ->
    (if v =? 0 then hpack_string name else name = []) -> hpack_string value -> representation ((b :: os) ++ name ++ value).

(** A header block: representations one after another. *)
Definition header_block (block : list byte) : Prop := exists reprs, Forall representation reprs /\ block = mjoin reprs.

(** ** Integers *)

Lemma land_7f o : Z.land (Z_of_byte o) 0x7f = if Z_of_byte o <? 128 then Z_of_byte o else Z_of_byte o - 128.
Proof. by destruct o. Qed.
Lemma land_80 o : (Z.land (Z_of_byte o) 0x80 =? 0) = (Z_of_byte o <? 128).
Proof. by destruct o. Qed.

Lemma read_continuation_sound i v os w n :
  read_continuation i v os = Some (w, n) ->
  exists c os' u, os = c ++ os' /\ continuation c u /\ w = v + 2 ^ (7 * Z.of_nat i) * u /\ n = (i + length c + 1)%nat.
Proof.
  revert i v. induction os as [|o os IH]; intros i v; [done|]. cbn [read_continuation]. rewrite land_80, land_7f, Z.shiftl_mul_pow2 by lia.
  destruct (Z.ltb_spec (Z_of_byte o) 128) as [Ho|Ho].
  - intros [= <- <-]. exists [o], os, (Z_of_byte o). split_and!; [done | by constructor | ring | cbn; lia].
  - intros (c & os' & u & -> & Hc & -> & ->)%IH. exists (o :: c), os', (Z_of_byte o - 128 + 128 * u).
    split_and!; [done | by constructor | | cbn; lia].
    replace (7 * Z.of_nat (S i)) with (7 * Z.of_nat i + 7) by lia. rewrite Z.pow_add_r by lia. change (2 ^ 7) with 128. ring.
Qed.

Lemma read_continuation_complete c u :
  continuation c u -> forall i v os', read_continuation i v (c ++ os') = Some (v + 2 ^ (7 * Z.of_nat i) * u, (i + length c + 1)%nat).
Proof.
  induction 1 as [o Ho|o os v' Ho Hc IH]; intros i v os'; cbn [app read_continuation]; rewrite land_80, land_7f, Z.shiftl_mul_pow2 by lia.
  - destruct (Z.ltb_spec (Z_of_byte o) 128); [|lia]. f_equal. f_equal; [ring | cbn; lia].
  - destruct (Z.ltb_spec (Z_of_byte o) 128); [lia|]. rewrite IH. f_equal. f_equal; [|cbn; lia].
    replace (7 * Z.of_nat (S i)) with (7 * Z.of_nat i + 7) by lia. rewrite Z.pow_add_r by lia. change (2 ^ 7) with 128. ring.
Qed.

Lemma mask_mod b bits : 0 <= bits -> Z.land (Z_of_byte b) (Z.shiftl 1 bits - 1) = Z_of_byte b `mod` 2 ^ bits.
Proof. intros Hb. rewrite Z.shiftl_1_l, <- Z.land_ones by done. f_equal. by rewrite Z.ones_equiv. Qed.

Lemma read_integer_iff bits buf v n :
  0 <= bits -> read_integer buf bits = Some (v, n) <-> exists i rest, buf = i ++ rest /\ hpack_integer bits i v /\ n = length i.
Proof.
  intros Hb. unfold read_integer. destruct buf as [|b rest].
  { split; [done|]. intros (i & rest & E & Hi & _). by destruct Hi. }
  rewrite mask_mod, Z.shiftl_1_l by done. pose proof (Z.mod_pos_bound (Z_of_byte b) (2 ^ bits) ltac:(lia)) as Hm. split.
  - destruct (Z.ltb_spec (Z_of_byte b `mod` 2 ^ bits) (2 ^ bits - 1)) as [Hs|Hs].
    + intros [= <- <-]. exists [b], rest. split_and!; [done | by constructor | done].
    + intros (c & os' & u & E & Hc & -> & ->)%read_continuation_sound. exists (b :: c), (drop (length c) rest).
      assert (length c <= MAX_INTEGER_CONTINUATION_OCTETS)%nat as Hl.
      { apply (f_equal length) in E. rewrite length_take, length_app in E. lia. }
      apply (f_equal (take (length c))) in E. rewrite take_take, take_app_length, Nat.min_l in E by done.
      split_and!; [cbn; f_equal; by rewrite <- E at 1; rewrite take_drop | | cbn; lia].
      replace (Z_of_byte b `mod` 2 ^ bits + 2 ^ (7 * Z.of_nat 0) * u) with (2 ^ bits - 1 + u) by (cbn; lia). constructor; [lia | done | done].
  - intros (i & rest' & E & Hi & ->). destruct Hi as [b' Hs|b' os u Hs Hc Hl]; injection E as <- ->.
    + destruct (Z.ltb_spec (Z_of_byte b `mod` 2 ^ bits) (2 ^ bits - 1)); [done | lia].
    + destruct (Z.ltb_spec (Z_of_byte b `mod` 2 ^ bits) (2 ^ bits - 1)); [lia|]. rewrite take_app_ge by done.
      rewrite (read_continuation_complete _ _ Hc). f_equal. f_equal; [cbn; lia | cbn; lia].
Qed.

Lemma continuation_bound c u : continuation c u -> 0 <= u < 2 ^ (7 * zlen c).
Proof.
  induction 1 as [o Ho|o os v Ho _ IH].
  - pose proof (Z_of_byte_bound o). cbn. lia.
  - pose proof (Z_of_byte_bound o). cbn [length]. replace (7 * Z.of_nat (S (length os))) with (7 + 7 * Z.of_nat (length os)) by lia.
    rewrite Z.pow_add_r by lia. change (2 ^ 7) with 128. lia.
Qed.

(** No value reaches 2^28 + 2^7, so the offsets computed from them stay far from
    the width of the machine. *)
Lemma hpack_integer_bound bits i v : 0 <= bits <= 7 -> hpack_integer bits i v -> 0 <= v < 2 ^ 28 + 2 ^ 7 /\ (1 <= length i <= 5)%nat.
Proof.
  intros Hb Hi. assert (2 ^ bits <= 2 ^ 7) by (apply Z.pow_le_mono_r; lia). assert (0 < 2 ^ bits) by lia.
  destruct Hi as [b Hs|b os u Hs Hc Hl].
  - pose proof (Z.mod_pos_bound (Z_of_byte b) (2 ^ bits) ltac:(lia)). cbn [length]. lia.
  - unfold MAX_INTEGER_CONTINUATION_OCTETS in Hl. apply continuation_bound in Hc.
    assert (2 ^ (7 * zlen os) <= 2 ^ 28) by (apply Z.pow_le_mono_r; lia). cbn [length]. lia.
Qed.

(** ** Strings and representations *)

Lemma skip_string_iff block pos e :
  skip_string block pos = Some e <->
  (pos <= length block)%nat /\ exists s rest, drop pos block = s ++ rest /\ hpack_string s /\ e = (pos + length s)%nat.
Proof.
  unfold skip_string. destruct (Nat.ltb_spec (length block) pos) as [Hp|Hp]; [split; [done|]; intros [? _]; lia|].
  assert (Hlen : length (drop pos block) = (length block - pos)%nat) by apply length_drop. split.
  - destruct (read_integer (drop pos block) 7) as [[len used]|] eqn:Hr; [|done]. cbn.
    apply read_integer_iff in Hr as (i & rest & E & Hi & ->); [|lia]. pose proof (hpack_integer_bound 7 i len ltac:(lia) Hi) as [Hv _].
    destruct (Nat.leb_spec (pos + length i + Z.to_nat len) (length block)) as [Hle|]; [|done]. intros [= <-]. split; [done|].
    rewrite E, length_app in Hlen. exists (i ++ take (Z.to_nat len) rest), (drop (Z.to_nat len) rest).
    split_and!; [by rewrite <- app_assoc, take_drop | | rewrite length_app, length_take; lia].
    constructor. rewrite length_take. replace (Z.of_nat (Z.to_nat len `min` length rest)) with len by lia. done.
  - intros (_ & s & rest & E & Hs & ->). inversion Hs as [i body Hi]; subst s. rewrite <- app_assoc in E.
    rewrite (proj2 (read_integer_iff 7 (drop pos block) (zlen body) (length i) ltac:(lia))); [|exists i, (body ++ rest); by rewrite E].
    cbn. rewrite E, !length_app in Hlen. rewrite length_app. destruct (Nat.leb_spec (pos + length i + Z.to_nat (zlen body)) (length block)); [|lia].
    f_equal. lia.
Qed.

Lemma first_bits b :
  negb (Z.land (Z_of_byte b) 0x80 =? 0) = (128 <=? Z_of_byte b)
  /\ (Z_of_byte b < 128 -> negb (Z.land (Z_of_byte b) 0x40 =? 0) = (64 <=? Z_of_byte b))
  /\ (Z_of_byte b < 64 -> negb (Z.land (Z_of_byte b) 0x20 =? 0) = (32 <=? Z_of_byte b)).
Proof. destruct b; vm_compute; split_and!; done. Qed.

(** The integer of a representation, from its first octet on. *)
Lemma integer_at bits b rest : 0 <= bits ->
  (exists v used, read_integer (b :: rest) bits = Some (v, used) /\ exists os rest', rest = os ++ rest' /\ hpack_integer bits (b :: os) v /\ used = S (length os))
  \/ (read_integer (b :: rest) bits = None /\ forall os rest' v, rest = os ++ rest' -> ~ hpack_integer bits (b :: os) v).
Proof.
  intros Hb. destruct (read_integer (b :: rest) bits) as [[v used]|] eqn:Hr.
  - left. exists v, used. split; [done|]. apply read_integer_iff in Hr as (i & rest' & E & Hi & ->); [|done].
    destruct i as [|b' os]; [by inversion Hi|]. injection E as <- ->. by exists os, rest'.
  - right. split; [done|]. intros os rest' v -> Hi.
    rewrite (proj2 (read_integer_iff bits (b :: os ++ rest') v (S (length os)) Hb)) in Hr; [done|]. by exists (b :: os), rest'.
Qed.

Lemma integer_unique bits i i' rest rest' v v' : 0 <= bits ->
  hpack_integer bits i v -> hpack_integer bits i' v' -> i ++ rest = i' ++ rest' -> i = i' /\ rest = rest' /\ v = v'.
Proof.
  intros Hb H1 H2 E. assert (read_integer (i ++ rest) bits = Some (v, length i)) as R1 by (apply read_integer_iff; [done | by exists i, rest]).
  rewrite E in R1. rewrite (proj2 (read_integer_iff bits (i' ++ rest') v' (length i') Hb)) in R1 by (by exists i', rest').
  injection R1 as <- Hl. apply app_inj_1 in E as [-> ->]; done.
Qed.

(** The kinds of representation by the first octet. *)
Definition literal_bits (b : byte) : option Z :=
  if 128 <=? Z_of_byte b then None else if 64 <=? Z_of_byte b then Some 6 else if 32 <=? Z_of_byte b then None else Some 4.
Definition integer_bits (b : byte) : Z :=
  if 128 <=? Z_of_byte b then 7 else if 64 <=? Z_of_byte b then 6 else if 32 <=? Z_of_byte b then 5 else 4.

Lemma representation_iff r :
  representation r <-> exists b os v, hpack_integer (integer_bits b) (b :: os) v /\
    match literal_bits b with
    | None => r = b :: os
    | Some _ => exists name value, r = (b :: os) ++ name ++ value /\ (if v =? 0 then hpack_string name else name = []) /\ hpack_string value
    end.
Proof.
  unfold integer_bits, literal_bits. split.
  - intros [b os v Hb Hi|b os v Hb Hi|bits b os v name value Hb Hi Hn Hv]; exists b, os, v.
    + by destruct (Z.leb_spec 128 (Z_of_byte b)); [|lia].
    + destruct (Z.leb_spec 128 (Z_of_byte b)); [lia|]. destruct (Z.leb_spec 64 (Z_of_byte b)); [lia|]. by destruct (Z.leb_spec 32 (Z_of_byte b)); [|lia].
    + destruct Hb as [[-> Hb]|[-> Hb]]; destruct (Z.leb_spec 128 (Z_of_byte b)); try lia; destruct (Z.leb_spec 64 (Z_of_byte b)); try lia.
      * split; [done|]. by exists name, value.
      * destruct (Z.leb_spec 32 (Z_of_byte b)); [lia|]. split; [done|]. by exists name, value.
  - intros (b & os & v & Hi & Hr).
    destruct (Z.leb_spec 128 (Z_of_byte b)); [subst; by econstructor|]. destruct (Z.leb_spec 64 (Z_of_byte b)).
    + destruct Hr as (name & value & -> & Hn & Hv). eapply (repr_literal 6); [left; by split | done..].
    + destruct (Z.leb_spec 32 (Z_of_byte b)); [subst; by eapply repr_size_update|].
      destruct Hr as (name & value & -> & Hn & Hv). eapply (repr_literal 4); [right; by split | done..].
Qed.

Lemma representation_end_eq block pos b rest :
  drop pos block = b :: rest ->
  representation_end block pos
  = match literal_bits b with
    | None => let* (_, used) := read_integer (b :: rest) (integer_bits b) in Some (pos + used)%nat
    | Some _ =>
        let* (name_index, used) := read_integer (b :: rest) (integer_bits b) in
        let* pos' := if name_index =? 0 then skip_string block (pos + used)%nat else Some (pos + used)%nat in
        skip_string block pos'
    end.
Proof.
  intros E. assert (block !! pos = Some b) as Hb by (by rewrite <- (Nat.add_0_r pos), <- lookup_drop, E). unfold representation_end.
  rewrite Hb, E. cbn. destruct (first_bits b) as (-> & H40 & H20). unfold literal_bits, integer_bits.
  destruct (Z.leb_spec 128 (Z_of_byte b)); [done|]. rewrite H40 by done. destruct (Z.leb_spec 64 (Z_of_byte b)); [done|].
  rewrite H20 by done. by destruct (Z.leb_spec 32 (Z_of_byte b)).
Qed.

Lemma skip_string_at block pos s rest :
  drop pos block = s ++ rest -> hpack_string s -> (pos <= length block)%nat -> skip_string block pos = Some (pos + length s)%nat.
Proof. intros E Hs Hp. apply skip_string_iff. split; [done|]. by exists s, rest. Qed.

Lemma drop_further (block : list byte) pos x rest : drop pos block = x ++ rest -> drop (pos + length x) block = rest.
Proof. intros E. by rewrite <- drop_drop, E, drop_app_length. Qed.

Lemma drop_bound (block : list byte) pos x rest : drop pos block = x ++ rest -> x <> [] -> (pos + length x <= length block)%nat.
Proof.
  intros E Hx. apply (f_equal length) in E. rewrite length_drop, length_app in E.
  assert (0 < length x)%nat by (destruct x; [done | cbn; lia]). lia.
Qed.

Lemma representation_end_sound block pos e :
  representation_end block pos = Some e -> exists r rest, drop pos block = r ++ rest /\ representation r /\ e = (pos + length r)%nat.
Proof.
  intros He. assert (exists b rest, drop pos block = b :: rest) as (b & rest & E).
  { unfold representation_end in He. destruct (block !! pos) as [b|] eqn:Hb; [|done]. exists b, (drop (S pos) block). by apply drop_S. }
  rewrite (representation_end_eq _ _ _ _ E) in He. assert (0 <= integer_bits b) as Hbits by (unfold integer_bits; repeat case_match; lia).
  destruct (integer_at (integer_bits b) b rest Hbits) as [(v & used & Hr & os & rest' & -> & Hi & ->)|[Hr _]]; rewrite Hr in He;
    [|by destruct (literal_bits b)]. change (b :: os ++ rest') with ((b :: os) ++ rest') in E.
  pose proof (drop_further _ _ _ _ E) as Ed. destruct (literal_bits b) eqn:Hl.
  - cbn in He, Ed. assert (exists name, (if v =? 0 then hpack_string name else name = []) /\ exists rest1, rest' = name ++ rest1
        /\ skip_string block (pos + S (length os) + length name)%nat = Some e) as (name & Hn & rest1 & -> & Hs).
    { destruct (v =? 0) eqn:Hv.
      - destruct (skip_string block (pos + S (length os))%nat) as [p1|] eqn:H1; [|done].
        apply skip_string_iff in H1 as (_ & s & rest1 & E1 & Hs & ->). exists s. split; [done|]. exists rest1. by rewrite Ed in E1.
      - exists []. split; [done|]. exists rest'. by rewrite Nat.add_0_r. }
    rewrite app_assoc in E. pose proof (drop_further _ _ _ _ E) as Ed1. rewrite length_app in Ed1. cbn [length] in Ed1.
    apply skip_string_iff in Hs as (_ & s & rest2 & E2 & Hs & ->). rewrite <- Nat.add_assoc, Ed1 in E2. subst rest1.
    exists ((b :: os) ++ name ++ s), rest2. split_and!; [by rewrite E, <- !app_assoc | | rewrite !length_app; cbn; lia].
    apply representation_iff. exists b, os, v. split; [done|]. rewrite Hl. by exists name, s.
  - injection He as <-. exists (b :: os), rest'. split_and!; [done | | done]. apply representation_iff. exists b, os, v. by rewrite Hl.
Qed.

Lemma representation_end_complete block pos r rest :
  drop pos block = r ++ rest -> representation r -> representation_end block pos = Some (pos + length r)%nat.
Proof.
  intros E Hr. pose proof Hr as (b & os & v & Hi & Hr')%representation_iff.
  assert (0 <= integer_bits b) as Hbits by (unfold integer_bits; repeat case_match; lia).
  assert (exists tl, drop pos block = b :: os ++ tl) as [tl Etl].
  { destruct (literal_bits b); [destruct Hr' as (name & value & -> & _) | subst r]; rewrite E; [rewrite <- !app_assoc|]; by eexists. }
  rewrite (representation_end_eq _ _ _ _ Etl).
  rewrite (proj2 (read_integer_iff (integer_bits b) (b :: os ++ tl) v (S (length os)) Hbits)) by (by exists (b :: os), tl).
  destruct (literal_bits b) eqn:Hl; [|by subst r]. destruct Hr' as (name & value & -> & Hn & Hv). cbn [mbind option_bind].
  rewrite <- !app_assoc in E. pose proof (drop_further _ _ _ _ E) as E1. pose proof (drop_bound _ _ _ _ E ltac:(done)) as B1.
  change (length (b :: os)) with (S (length os)) in *. pose proof (drop_further _ _ _ _ E1) as E2.
  assert (B2 : (pos + S (length os) + length name <= length block)%nat).
  { destruct name; [cbn; lia|]. by apply (drop_bound _ _ _ _ E1). }
  assert ((if v =? 0 then skip_string block (pos + S (length os))%nat else Some (pos + S (length os))%nat)
          = Some (pos + S (length os) + length name)%nat) as ->.
  { destruct (v =? 0); [by apply (skip_string_at _ _ name (value ++ rest)) | subst name; cbn; by rewrite Nat.add_0_r]. }
  rewrite (skip_string_at _ _ value rest E2 Hv B2). f_equal. rewrite !length_app. cbn. lia.
Qed.

Lemma representation_nonempty r : representation r -> r <> [].
Proof. by intros []. Qed.

(** No representation starts the bytes. *)
Definition stuck (rest : list byte) : Prop := rest <> [] /\ forall r rest', rest = r ++ rest' -> ~ representation r.

Lemma check_from_complete reprs rest fuel block pos :
  Forall representation reprs -> drop pos block = mjoin reprs ++ rest -> rest = [] \/ stuck rest -> (length block < pos + fuel)%nat ->
  check_from fuel block pos = if decide (rest = []) then Ok () else Err (pos + length (mjoin reprs))%nat.
Proof.
  intros Hr. revert fuel pos. induction Hr as [|r reprs Hr _ IH]; intros fuel pos E Hrest Hf.
  - cbn in E. rewrite Nat.add_0_r. pose proof (f_equal length E) as Hl. rewrite length_drop in Hl. destruct fuel as [|fuel]; cbn [check_from].
    { case_decide; [done|]. destruct rest; [done | cbn in Hl; lia]. }
    case_decide as Hd; [rewrite Hd in Hl; cbn in Hl; by destruct (Nat.ltb_spec pos (length block)); [lia|]|].
    destruct Hrest as [?|[_ Hs]]; [done|]. destruct (Nat.ltb_spec pos (length block)); [|destruct rest; [done | cbn in Hl; lia]].
    destruct (representation_end block pos) as [e|] eqn:He; [|done].
    apply representation_end_sound in He as (r & rest' & E' & Hr & _). exfalso. apply (Hs r rest'); [by rewrite <- E | done].
  - change (mjoin (r :: reprs)) with (r ++ mjoin reprs) in *. rewrite <- app_assoc in E.
    pose proof (representation_nonempty r Hr) as Hne. pose proof (drop_bound _ _ _ _ E Hne) as Hb.
    assert (0 < length r)%nat by (destruct r; [done | cbn; lia]). destruct fuel as [|fuel]; [lia|]. cbn [check_from].
    destruct (Nat.ltb_spec pos (length block)); [|lia]. rewrite (representation_end_complete _ _ _ _ E Hr).
    rewrite IH; [|by eapply drop_further | done | lia]. case_decide; [done|]. f_equal. rewrite length_app. lia.
Qed.

(** Every block is representations followed by nothing or by bytes that start
    with none. *)
Lemma block_split n block : (length block <= n)%nat ->
  exists reprs rest, Forall representation reprs /\ block = mjoin reprs ++ rest /\ (rest = [] \/ stuck rest).
Proof.
  revert block. induction n as [|n IH]; intros block Hl.
  { destruct block; [|cbn in Hl; lia]. exists [], []. split_and!; [constructor | done | by left]. }
  destruct (decide (block = [])) as [->|Hne]; [exists [], []; split_and!; [constructor | done | by left]|].
  destruct (representation_end block 0) as [e|] eqn:He.
  - apply representation_end_sound in He as (r & rest & E & Hr & _). rewrite drop_0 in E. subst block.
    assert (0 < length r)%nat by (pose proof (representation_nonempty r Hr); destruct r; [done | cbn; lia]).
    destruct (IH rest) as (reprs & rest' & Hrs & -> & Hs); [rewrite length_app in Hl; lia|].
    exists (r :: reprs), rest'. split_and!; [by constructor | by rewrite app_assoc | done].
  - exists [], block. split_and!; [constructor | done|]. right. split; [done|]. intros r rest' E Hr.
    rewrite (representation_end_complete block 0 r rest') in He; [done | by rewrite drop_0 | done].
Qed.

(** C19: The structural check accepts a header block exactly when it is a
    sequence of complete representations; otherwise it reports the offset of the
    first representation that is truncated or has an over-long integer. *)
Theorem check_header_block_exact block :
  (check_header_block block = Ok () <-> header_block block)
  /\ (forall offset, check_header_block block = Err offset <->
        exists pre rest, block = pre ++ rest /\ header_block pre /\ stuck rest /\ offset = length pre).
Proof.
  assert (Hc : forall reprs rest, Forall representation reprs -> block = mjoin reprs ++ rest -> rest = [] \/ stuck rest ->
    check_header_block block = if decide (rest = []) then Ok () else Err (length (mjoin reprs))).
  { intros reprs rest Hr E Hs. unfold check_header_block. by rewrite (check_from_complete reprs rest) by (done || lia). }
  destruct (block_split (length block) block) as (reprs & rest & Hr & E & Hs); [lia|]. pose proof (Hc _ _ Hr E Hs) as Hres. split.
  - split.
    + rewrite Hres. case_decide; [|done]. intros _. exists reprs. subst rest. by rewrite app_nil_r in E.
    + intros (reprs' & Hr' & E'). rewrite (Hc reprs' []); [done | done | by rewrite app_nil_r | by left].
  - intros offset. split.
    + rewrite Hres. case_decide; [done|]. intros [= <-]. destruct Hs as [?|Hs]; [done|]. exists (mjoin reprs), rest.
      split_and!; [done | by exists reprs | done | done].
    + intros (pre & rest' & E' & (reprs' & Hr' & ->) & Hs' & ->). rewrite (Hc reprs' rest') by auto. rewrite decide_False; [done | by destruct Hs'].
Qed.
