(* ===== verification/SecretHeaders.v ===== *)
(** * Header fields, header credentials, authorities

    The part of [engine/secrets/handler.rs] that decides what happens to the
    header fields of a request: the substitution of placeholders in the lines of
    an HTTP/1 head and the fields of an HTTP/2 block, the origin-scoped header
    credentials, and the validation of the authorities a request names. *)

From S2P Require Import Prelude Text DomainName Addr TtlIndex SharedState Policy Chunked HttpText SecretScan SecretHandler.
From Stdlib Require Import Strings.Byte.

Definition MAX_HTTP2_HEADER_FIELDS : Z := 1024.
Definition MAX_HTTP2_DECODED_HEADER_BYTES : Z := 64 * 1024.

Definition Http2Headers := list (list byte * list byte).
Definition CredentialFields := list (list byte * list byte).

Section Headers.
Context `{SecretCodecs} `{Hpack} `{IpNetworks}.
Implicit Types (c : Connection) (secret : EligibleSecret) (l : list byte).

(** ** Placeholders *)

Definition wants_header_injection secret : bool := es_substitute_headers secret || es_substitute_query secret.

Definition es_header_field_allowed secret (name : list byte) : bool :=
  header_field_allowed (es_substitute_headers secret) (es_header_fields secret) name.

Definition may_substitute_in_headers secret (headers : list byte) : bool :=
  if negb (wants_header_injection secret) then false
  else if contains_bytes headers (es_placeholder secret) then true
  else if es_substitute_headers secret then basic_auth_decoded_contains (from_utf8_lossy headers) (es_placeholder secret)
  else false.

Definition substitute_basic_auth_header secret l : option (list byte) :=
  let* decoded := decode_basic_credentials l in
  if negb (str_contains decoded (es_placeholder secret)) then None
  else
    let* (name, _) := split_once ":"%byte l in
    Some (name ++ bytes_of ": Basic " ++ base64_encode (str_replace decoded (es_placeholder secret) (es_value secret))).

Definition substitute_in_header_line secret l (is_request_line : bool) : option (list byte) :=
  if is_request_line then
    if es_substitute_query secret then substitute_query_in_request_line l (es_placeholder secret) (es_value secret) else None
  else if negb (es_header_field_allowed secret (header_field_name l)) then None
  else
    match (if is_authorization_header l then substitute_basic_auth_header secret l else None) with
    | Some replaced => Some replaced
    | None => Some (str_replace l (es_placeholder secret) (es_value secret))
    end.

Definition substitute_in_headers secret (headers : list byte) : list byte :=
  match split_crlf headers with
  | [] => []
  | request_line :: lines =>
      join_crlf (default request_line (substitute_in_header_line secret request_line true)
                 :: map (fun l => default l (substitute_in_header_line secret l false)) lines)
  end.

Definition substitute_basic_auth_value (header_value placeholder value : list byte) : option (list byte) :=
  let* (scheme, encoded) := split_auth_scheme (str_trim_start header_value) in
  if negb (eq_ignore_ascii_case scheme (bytes_of "basic")) then None
  else
    let* bytes := base64_decode (str_trim encoded) in
    if negb (utf8_valid bytes) then None
    else if negb (str_contains bytes placeholder) then None
    else Some (bytes_of "Basic " ++ base64_encode (str_replace bytes placeholder value)).

(** The three rewrites of one field, one after the other. *)
Definition substitute_http2_field secret '(name, value) : list byte * list byte :=
  let is_pseudo := bytes_starts_with name (bytes_of ":") in
  let header_allowed := negb is_pseudo && es_header_field_allowed secret name in
  let value :=
    if eq_ignore_ascii_case name (bytes_of ":path") && es_substitute_query secret && utf8_valid value
    then default value (substitute_query_in_target value (es_placeholder secret) (es_value secret)) else value in
  let value :=
    if header_allowed && eq_ignore_ascii_case name (bytes_of "authorization") && utf8_valid value
    then default value (substitute_basic_auth_value value (es_placeholder secret) (es_value secret)) else value in
  let value :=
    if header_allowed && contains_bytes value (es_placeholder secret)
    then str_replace (from_utf8_lossy value) (es_placeholder secret) (es_value secret) else value in
  (name, value).

Definition substitute_http2_headers c (headers : Http2Headers) : Http2Headers :=
  fold_left (fun headers secret => if secret_active c secret then map (substitute_http2_field secret) headers else headers)
    (eligible_for_substitution c) headers.

(** ** Header credentials *)

(** Whether the connection can receive any header credential. *)
Definition credential_connection_ok c : bool :=
  tls_intercepted c && match http_authority c with Some (ValidateSni _) => true | _ => false end && bool_decide (is_Some (guest_dst c)).

Definition credential_identity_allows c (host : list byte) : bool :=
  match credential_identity c with
  | Unverified => false
  | ConnectAuthority => true
  | DnsPinned hostnames bound => existsb (fun hostname => eq_ignore_ascii_case hostname host) hostnames || (bound && eq_ignore_ascii_case host HOST_ALIAS)
  end.

Definition credential_authorized c (credential : ResolvedHeaderCredential) (request : CredentialRequestOrigin) : bool :=
  match guest_dst c with
  | None => false
  | Some dst =>
      tls_intercepted c
      && eq_ignore_ascii_case (sni c) (cred_origin_host credential)
      && credential_identity_allows c (cred_origin_host credential)
      && (sa_port dst =? cred_origin_port credential)
      && eq_ignore_ascii_case (co_host request) (cred_origin_host credential)
      && (co_port request =? cred_origin_port credential)
      && co_scheme_https request
      && co_absolute_form_agrees request
  end.

(** The loop of [rendered_credential_fields]. *)
Definition credential_field c request (fields : CredentialFields) (credential : ResolvedHeaderCredential)
    : result SecretViolationAction CredentialFields :=
  if credential_authorized c credential request then
    match render credential with
    | Ok rendered => Ok (fields ++ [(cred_header credential, rendered)])
    | Err _ => Err Block
    end
  else Ok fields.

Definition rendered_credential_fields c (request : CredentialRequestOrigin) : result SecretViolationAction (option CredentialFields) :=
  let? fields := try_fold (credential_field c request) [] (header_credentials c) in
  Ok (if decide (fields = []) then None else Some fields).

(** The origin an authority names, with the default port. *)
Definition http1_credential_request_origin (metadata : HttpRequestMetadata) : result SecretViolationAction CredentialRequestOrigin :=
  match host_headers metadata with
  | [header] =>
      match authority_origin header with
      | None => Err Block
      | Some (host, port) =>
          let port := default 443 port in
          match target_scheme metadata with
          | None => Ok (mkOrigin (bytes_lower host) port true true)
          | Some scheme =>
              match target_authority metadata with
              | None => Err Block
              | Some target =>
                  match authority_origin target with
                  | None => Err Block
                  | Some (target_host, target_port) =>
                      Ok (mkOrigin (bytes_lower host) port (eq_ignore_ascii_case scheme (bytes_of "https"))
                            (eq_ignore_ascii_case target_host host && (default 443 target_port =? port)))
                  end
              end
          end
      end
  | _ => Err Block
  end.

(** The variables of [check_credential_http2_grammar] across the fields. *)
Record Http2Grammar := mkGrammar {
  gr_seen_regular : bool;
  gr_method : option (list byte);
  gr_scheme_seen : bool;
  gr_path : option (list byte);
  gr_authority_seen : bool;
  gr_protocol_seen : bool
}.
Definition grammar_start : Http2Grammar := mkGrammar false None false None false false.

Definition check_credential_http2_field (g : Http2Grammar) '(name, value) : result SecretViolationAction Http2Grammar :=
  match name with
  | [] => Err Block
  | first :: rest =>
      if byte_eqb first ":"%byte then
        if gr_seen_regular g || negb (forallb is_http_token_byte rest) then Err Block
        else if bool_decide (name = bytes_of ":method") then
          if bool_decide (is_Some (gr_method g)) || is_nil value || negb (forallb is_http_token_byte value) then Err Block
          else Ok (mkGrammar (gr_seen_regular g) (Some value) (gr_scheme_seen g) (gr_path g) (gr_authority_seen g) (gr_protocol_seen g))
        else if bool_decide (name = bytes_of ":scheme") then
          if gr_scheme_seen g || is_nil value then Err Block
          else Ok (mkGrammar (gr_seen_regular g) (gr_method g) true (gr_path g) (gr_authority_seen g) (gr_protocol_seen g))
        else if bool_decide (name = bytes_of ":path") then
          if bool_decide (is_Some (gr_path g)) then Err Block
          else Ok (mkGrammar (gr_seen_regular g) (gr_method g) (gr_scheme_seen g) (Some value) (gr_authority_seen g) (gr_protocol_seen g))
        else if bool_decide (name = bytes_of ":authority") then
          if gr_authority_seen g then Err Block
          else Ok (mkGrammar (gr_seen_regular g) (gr_method g) (gr_scheme_seen g) (gr_path g) true (gr_protocol_seen g))
        else if bool_decide (name = bytes_of ":protocol") then
          if gr_protocol_seen g then Err Block
          else Ok (mkGrammar (gr_seen_regular g) (gr_method g) (gr_scheme_seen g) (gr_path g) (gr_authority_seen g) true)
        else Err Block
      else if existsb (byte_in 65 90) name || negb (forallb is_http_token_byte name) then Err Block
      else Ok (mkGrammar true (gr_method g) (gr_scheme_seen g) (gr_path g) (gr_authority_seen g) (gr_protocol_seen g))
  end.

Definition check_credential_http2_grammar (headers : Http2Headers) : result SecretViolationAction bool :=
  let? g := try_fold check_credential_http2_field grammar_start headers in
  let no_path := match gr_path g with None => true | Some path => is_nil path end in
  match gr_method g with
  | None => Err Block
  | Some method =>
      if eq_ignore_ascii_case method (bytes_of "CONNECT") then
        if negb (gr_authority_seen g) then Err Block
        else if gr_protocol_seen g then if negb (gr_scheme_seen g) || no_path then Err Block else Ok false
        else if gr_scheme_seen g || bool_decide (is_Some (gr_path g)) then Err Block else Ok false
      else if negb (gr_scheme_seen g) || negb (gr_authority_seen g) || gr_protocol_seen g then Err Block
      else if no_path then Err Block
      else Ok true
  end.

(** The tokens of a [Connection] field: well formed, and none names a
    credential's field. *)
Definition check_connection_tokens (credentials : list ResolvedHeaderCredential) (value : list byte) : result SecretViolationAction () :=
  let configured := map (fun credential => bytes_lower (cred_header credential)) credentials in
  try_fold (fun _ token =>
    let token := str_trim token in
    if is_nil token || negb (forallb is_http_token_byte token) then Err Block
    else if bool_decide (bytes_lower token ∈ configured) then Err Block
    else Ok ()) () (split_byte ","%byte value).

Definition check_credential_http2_hop_by_hop (headers : Http2Headers) (credentials : list ResolvedHeaderCredential)
    : result SecretViolationAction () :=
  try_fold (fun _ '(name, value) =>
    if negb (eq_ignore_ascii_case name (bytes_of "connection")) then Ok ()
    else if negb (utf8_valid value) then Err Block
    else check_connection_tokens credentials value) () headers.

(** The loop of [http2_credential_request_origin]: authority, host, scheme. *)
Definition http2_origin_field '(authority, host, scheme) '(name, value)
    : result SecretViolationAction (option (list byte) * option (list byte) * option (list byte)) :=
  let set (field : option (list byte)) : result SecretViolationAction (option (list byte)) :=
    match field with Some _ => Err Block | None => Ok (Some value) end in
  if eq_ignore_ascii_case name (bytes_of ":authority") then let? a := set authority in Ok (a, host, scheme)
  else if eq_ignore_ascii_case name (bytes_of "host") then let? h := set host in Ok (authority, h, scheme)
  else if eq_ignore_ascii_case name (bytes_of ":scheme") then let? s := set scheme in Ok (authority, host, s)
  else Ok (authority, host, scheme).

Definition utf8_origin (value : list byte) : result SecretViolationAction (list byte * Z) :=
  if negb (utf8_valid value) then Err Block
  else match authority_origin value with Some (host, port) => Ok (host, default 443 port) | None => Err Block end.

Definition http2_credential_request_origin (headers : Http2Headers) : result SecretViolationAction CredentialRequestOrigin :=
  let? (authority, host_header, scheme) := try_fold http2_origin_field (None, None, None) headers in
  match authority with
  | None => Err Block
  | Some authority =>
      let? (host, port) := utf8_origin authority in
      let? _ := match host_header with
                | None => Ok ()
                | Some value =>
                    let? (host_header_host, host_header_port) := utf8_origin value in
                    if negb (eq_ignore_ascii_case host_header_host host) || negb (host_header_port =? port) then Err Block else Ok ()
                end in
      let? scheme_https := match scheme with
                           | None => Ok true
                           | Some value => if utf8_valid value then Ok (eq_ignore_ascii_case value (bytes_of "https")) else Err Block
                           end in
      Ok (mkOrigin (bytes_lower host) port scheme_https true)
  end.

(** The loop of [check_credential_http1_grammar]; it counts the
    [Content-Length] fields. *)
Definition check_credential_http1_line (credentials : list ResolvedHeaderCredential) (content_lengths : Z) l : result SecretViolationAction Z :=
  if is_nil l then Ok content_lengths
  else match split_once ":"%byte l with
  | None => Err Block
  | Some (name, value) =>
      if is_nil name || negb (forallb is_http_token_byte name) then Err Block
      else if eq_ignore_ascii_case name (bytes_of "connection") then let? _ := check_connection_tokens credentials value in Ok content_lengths
      else if eq_ignore_ascii_case name (bytes_of "content-length") then Ok (content_lengths + 1)
      else Ok content_lengths
  end.

Definition check_credential_http1_grammar (header_bytes : list byte) (credentials : list ResolvedHeaderCredential)
    : result SecretViolationAction () :=
  if negb (utf8_valid header_bytes) then Err Block
  else
    let? content_lengths := try_fold (check_credential_http1_line credentials) 0 (drop 1 (split_crlf header_bytes)) in
    if 1 <? content_lengths then Err Block else Ok ().

Definition authorized_http1_credential_fields c (header_bytes : list byte) : result SecretViolationAction (option CredentialFields) :=
  if decide (header_credentials c = []) then Ok None
  else
    let? metadata := parse_http_request_metadata header_bytes in
    match metadata with
    | None => Err Block
    | Some metadata =>
        let? _ := check_credential_http1_grammar header_bytes (header_credentials c) in
        if negb (credential_connection_ok c) then Ok None
        else
          let? request := http1_credential_request_origin metadata in
          rendered_credential_fields c request
    end.

Definition authorized_h2_credential_fields c (headers : Http2Headers) : result SecretViolationAction (option CredentialFields) :=
  if decide (header_credentials c = []) then Ok None
  else
    let? eligible := check_credential_http2_grammar headers in
    if negb eligible then Ok None
    else
      let? _ := check_credential_http2_hop_by_hop headers (header_credentials c) in
      let? request := http2_credential_request_origin headers in
      if negb (credential_connection_ok c) then Ok None else rendered_credential_fields c request.

Definition strip_cr l : list byte := default l (bytes_strip_suffix l [cr]).

(** Whether a line of the head is a field one of [fields] replaces. *)
Definition field_replaced (fields : CredentialFields) l : bool :=
  match byte_position (byte_eqb ":"%byte) l with
  | Some pos => existsb (fun '(name, _) => eq_ignore_ascii_case (take pos l) name) fields
  | None => false
  end.

Definition credential_line '(name, value) : list byte := name ++ bytes_of ": " ++ value.

Definition set_credential_fields_in_head (head : list byte) (fields : CredentialFields) : result SecretViolationAction (list byte) :=
  match bytes_strip_suffix head (crlf ++ crlf) with
  | None => Err Block
  | Some stripped =>
      let kept :=
        match split_byte lf stripped with
        | [] => []
        | first :: lines => strip_cr first :: List.filter (fun l => negb (is_nil l) && negb (field_replaced fields l)) (map strip_cr lines)
        end in
      let output := mjoin (map (fun l => l ++ crlf) (kept ++ map credential_line fields)) ++ crlf in
      if MAX_HTTP_HEADER_BYTES <? zlen output then Err Block else Ok output
  end.

(** The secrets' substitutions in turn; [None] while nothing asked for one. *)
Definition substituted_head c (header_bytes : list byte) : option (list byte) :=
  fold_left (fun head secret =>
    if secret_active c secret && may_substitute_in_headers secret header_bytes
    then Some (substitute_in_headers secret (default (from_utf8_lossy header_bytes) head)) else head)
    (eligible_for_substitution c) None.

Definition substitute_header_bytes c (header_bytes : list byte) : result SecretViolationAction (option (list byte)) :=
  let head := substituted_head c header_bytes in
  let? fields := authorized_http1_credential_fields c header_bytes in
  let? head :=
    match fields with
    | None => Ok head
    | Some fields =>
        let? rewritten := set_credential_fields_in_head (default header_bytes head) fields in
        if utf8_valid rewritten then Ok (Some rewritten) else Err Block
    end in
  Ok (match head with
      | Some headers => if bool_decide (headers = header_bytes) then None else Some headers
      | None => None
      end).

(** ** Authorities *)

Section authority.
(** The resolved-hostname cache and the clock at the check. *)
Variables (shared : SharedState) (now : Z).

Definition validate_authority (authority : list byte) (validator : HttpAuthorityValidator) : result RecordedBlock () :=
  match validator with
  | ValidateSni sni => if authority_matches_sni authority sni then Ok () else Err (mkBlock HttpAuthorityMismatchSite (Some authority))
  | ValidatePolicy guest_dst network_policy secret_host =>
      if match secret_host with Some host => negb (authority_matches_sni authority host) | None => false end
      then Err (mkBlock HttpAuthorityMismatchSite (Some authority))
      else match authority_hostname authority with
      | None => Err (mkBlock HttpAuthorityInvalidSite None)
      | Some hostname =>
          match evaluate_egress_with_source network_policy guest_dst Tcp shared now
                  (Sni (String.string_of_list_byte (bytes_lower hostname))) with
          | EvalAllow => Ok ()
          | EvalDeny | DeferUntilHostname => Err (mkBlock HttpAuthoritySite (Some authority))
          end
      end
  end.

Definition validate_http1_authority (metadata : HttpRequestMetadata) (validator : HttpAuthorityValidator) : result RecordedBlock () :=
  if negb (length (host_headers metadata) =? 1)%nat then Err (mkBlock HttpAuthorityCountSite None)
  else
    try_fold (fun _ authority => validate_authority authority validator) ()
      (host_headers metadata ++ match target_authority metadata with Some a => [a] | None => [] end).

Definition validate_http2_field (validator : HttpAuthorityValidator) (count : Z) '(name, value) : result RecordedBlock Z :=
  if eq_ignore_ascii_case name (bytes_of ":authority") then
    let? _ := validate_authority (from_utf8_lossy value) validator in Ok (count + 1)
  else if eq_ignore_ascii_case name (bytes_of "host") then
    let? _ := validate_authority (from_utf8_lossy value) validator in Ok count
  else Ok count.

Definition validate_http2_authority (headers : Http2Headers) (validator : HttpAuthorityValidator) (require_authority : bool)
    : result RecordedBlock () :=
  let? count := try_fold (validate_http2_field validator) 0 headers in
  if require_authority && negb (count =? 1) then Err (mkBlock HttpAuthorityCountSite None) else Ok ().
End authority.

(** ** HTTP/2 blocks *)

Definition headers_bytes (headers : Http2Headers) : Z := foldr (fun '(name, value) n => zlen name + zlen value + 4 + n) 0 headers.

Definition enforce_http2_header_limits (headers : Http2Headers) : result RecordedBlock () :=
  if MAX_HTTP2_HEADER_FIELDS <? zlen headers then Err (mkBlock HttpHeaderLimitSite None)
  else if MAX_HTTP2_DECODED_HEADER_BYTES <? headers_bytes headers then Err (mkBlock HttpHeaderLimitSite None)
  else Ok ().

Definition http2_header_detection_bytes (headers : Http2Headers) : list byte :=
  mjoin (map (fun '(name, value) => name ++ bytes_of ": " ++ value ++ crlf) headers).

(** The fields of a block after injection: each credential replaces the fields
    of its name. *)
Definition inject_http2_fields (headers : Http2Headers) (fields : CredentialFields) : Http2Headers :=
  fold_left (fun headers '(name, value) =>
    List.filter (fun '(field_name, _) => negb (eq_ignore_ascii_case field_name name)) headers ++ [(name, value)]) fields headers.

(** ** Where a credential's value can go *)

Definition with_cred_value (cred : ResolvedHeaderCredential) (v : list byte) : ResolvedHeaderCredential :=
  mkCredential (cred_id cred) (cred_origin_host cred) (cred_origin_port cred) (cred_header cred) (cred_format cred) v.

(** The connection with the value of its credential [i] replaced. *)
Definition with_credential_value c (i : nat) (cred : ResolvedHeaderCredential) (v : list byte) : Connection :=
  conn_with c (guest_dst c) (<[i := with_cred_value cred v]> (header_credentials c)) (reporting c).

Section confined.
Variables (c : Connection) (i : nat) (cred : ResolvedHeaderCredential) (v : list byte).
Hypothesis Hi : header_credentials c !! i = Some cred.
Abbreviation c' := (with_credential_value c i cred v).

Lemma map_credentials {A} (f : ResolvedHeaderCredential -> A) :
  f (with_cred_value cred v) = f cred -> map f (header_credentials c') = map f (header_credentials c).
Proof. intros Hf. cbn. rewrite list_fmap_insert, Hf. apply list_insert_id. by rewrite list_lookup_fmap, Hi. Qed.

Lemma connection_tokens_value value : check_connection_tokens (header_credentials c') value = check_connection_tokens (header_credentials c) value.
Proof. unfold check_connection_tokens. by rewrite (map_credentials (fun credential => bytes_lower (cred_header credential))). Qed.

Lemma http1_grammar_value head : check_credential_http1_grammar head (header_credentials c') = check_credential_http1_grammar head (header_credentials c).
Proof.
  unfold check_credential_http1_grammar. erewrite try_fold_ext; [done|]. intros n l. unfold check_credential_http1_line.
  destruct (is_nil l); [done|]. destruct (split_once ":"%byte l) as [[name value]|]; [|done]. by rewrite connection_tokens_value.
Qed.

Lemma hop_by_hop_value headers :
  check_credential_http2_hop_by_hop headers (header_credentials c') = check_credential_http2_hop_by_hop headers (header_credentials c).
Proof.
  unfold check_credential_http2_hop_by_hop. apply try_fold_ext. intros _ [name value]. by rewrite connection_tokens_value.
Qed.

Lemma credentials_nonempty : (header_credentials c' = [] <-> header_credentials c = []).
Proof. cbn. by rewrite <- !length_zero_iff_nil, length_insert. Qed.

Lemma rendered_value request : credential_authorized c cred request = false -> rendered_credential_fields c' request = rendered_credential_fields c request.
Proof.
  intros Ha. unfold rendered_credential_fields.
  assert (Hn : forall fields v', credential_field c request fields (with_cred_value cred v') = Ok fields).
  { intros fields v'. unfold credential_field. by replace (credential_authorized c (with_cred_value cred v') request) with false. }
  assert (Hf : forall fields, try_fold (credential_field c' request) fields (header_credentials c')
                         = try_fold (credential_field c request) fields (header_credentials c)); [|by rewrite Hf].
  intros fields. rewrite (try_fold_ext _ (credential_field c request)) by done. cbn. clear Ha.
  revert i Hi fields. induction (header_credentials c) as [|x l IH]; intros n Hn' fields; [done|]. destruct n as [|n]; cbn in Hn' |- *.
  - injection Hn' as ->. rewrite Hn. by replace (credential_field c request fields cred) with (Ok (E := SecretViolationAction) fields)
      by (rewrite <- (Hn fields (cred_value cred)); by destruct cred).
  - destruct (credential_field c request fields x); [by apply IH | done].
Qed.

Lemma http1_fields_value head :
  (forall metadata request, parse_http_request_metadata head = Ok (Some metadata) -> http1_credential_request_origin metadata = Ok request ->
     credential_authorized c cred request = false) ->
  authorized_http1_credential_fields c' head = authorized_http1_credential_fields c head.
Proof.
  intros Ha. unfold authorized_http1_credential_fields. rewrite http1_grammar_value. pose proof credentials_nonempty as Hn.
  do 2 case_decide; try tauto. destruct (parse_http_request_metadata head) as [[metadata|]|]; [|done..].
  destruct (check_credential_http1_grammar head _); [|done]. change (credential_connection_ok c') with (credential_connection_ok c).
  destruct (negb _); [done|]. destruct (http1_credential_request_origin metadata) as [request|] eqn:Hr; [|done]. apply rendered_value. by eapply Ha.
Qed.

Lemma http2_fields_value headers :
  (forall request, http2_credential_request_origin headers = Ok request -> credential_authorized c cred request = false) ->
  authorized_h2_credential_fields c' headers = authorized_h2_credential_fields c headers.
Proof.
  intros Ha. unfold authorized_h2_credential_fields. rewrite hop_by_hop_value. pose proof credentials_nonempty as Hn.
  do 2 case_decide; try tauto. destruct (check_credential_http2_grammar headers) as [[]|]; [|done..]. cbn [negb].
  destruct (check_credential_http2_hop_by_hop headers _); [|done]. destruct (http2_credential_request_origin headers) as [request|]; [|done].
  change (credential_connection_ok c') with (credential_connection_ok c). destruct (negb _); [done|]. apply rendered_value. by apply Ha.
Qed.
End confined.


(** ** The rewritten head *)

Lemma split_byte_line sep l : sep ∉ l -> split_byte sep l = [l].
Proof.
  induction l as [|b l IH]; intros Hs; [done|]. apply not_elem_of_cons in Hs as [Hb Hl]. cbn [split_byte]. rewrite IH by done.
  by rewrite decide_False by congruence.
Qed.

Lemma split_byte_app sep l s : sep ∉ l -> split_byte sep (l ++ sep :: s) = l :: split_byte sep s.
Proof.
  induction l as [|b l IH]; intros Hs; cbn [app split_byte]; [by rewrite decide_True|].
  apply not_elem_of_cons in Hs as [Hb Hl]. rewrite IH by done. by rewrite decide_False by congruence.
Qed.

Lemma strip_cr_snoc l : strip_cr (l ++ [cr]) = l.
Proof. unfold strip_cr. by rewrite (proj2 (bytes_strip_suffix_Some _ _ l) eq_refl). Qed.

Lemma strip_cr_plain l : cr ∉ l -> strip_cr l = l.
Proof.
  intros Hc. unfold strip_cr. destruct (bytes_strip_suffix l [cr]) as [r|] eqn:E; [|done]. apply bytes_strip_suffix_Some in E as ->.
  exfalso. apply Hc. rewrite elem_of_app. right. apply list_elem_of_here.
Qed.

Lemma join_crlf_lines l lines : mjoin (map (fun l => l ++ crlf) (l :: lines)) = join_crlf (l :: lines) ++ crlf.
Proof.
  revert l. induction lines as [|l' lines IH]; intros l; [cbn; by rewrite app_nil_r|]. rewrite join_crlf_cons by done.
  change (mjoin (map (fun l => l ++ crlf) (l :: l' :: lines))) with ((l ++ crlf) ++ mjoin (map (fun l => l ++ crlf) (l' :: lines))).
  by rewrite IH, <- !app_assoc.
Qed.

(** A line with neither of the bytes that end lines. *)
Definition plain_line l : Prop := (cr ∉ l) /\ (lf ∉ l).

Lemma split_lf_lines l lines : Forall plain_line (l :: lines) -> map strip_cr (split_byte lf (join_crlf (l :: lines))) = l :: lines.
Proof.
  revert l. induction lines as [|l' lines IH]; intros l [[Hc Hl] Hls]%Forall_cons.
  - cbn [join_crlf]. rewrite split_byte_line by done. cbn [map]. by rewrite strip_cr_plain.
  - rewrite join_crlf_cons by done. unfold crlf. change ([cr; lf] ++ join_crlf (l' :: lines)) with ([cr] ++ lf :: join_crlf (l' :: lines)).
    rewrite app_assoc, split_byte_app.
    + cbn [map]. by rewrite strip_cr_snoc, IH.
    + rewrite elem_of_app, elem_of_cons, elem_of_nil. by intros [?|[?|?]].
Qed.

Lemma field_replaced_line name value fields :
  ":"%byte ∉ name -> field_replaced fields (credential_line (name, value)) = existsb (fun '(name', _) => eq_ignore_ascii_case name name') fields.
Proof.
  intros Hn. unfold field_replaced, credential_line. assert (byte_position (byte_eqb ":"%byte) (name ++ bytes_of ": " ++ value) = Some (length name)) as ->.
  { induction name as [|b name IH]; [done|]. apply not_elem_of_cons in Hn as [Hb Hn]. cbn [app byte_position].
    unfold byte_eqb at 1. rewrite bool_decide_eq_false_2 by done. by rewrite IH. }
  by rewrite take_app_length.
Qed.

Lemma field_replaced_one fields field l : field ∈ fields -> field_replaced fields l = false -> field_replaced [field] l = false.
Proof.
  unfold field_replaced. destruct (byte_position _ l) as [pos|]; [|done]. intros Hf He. destruct field as [name value]. cbn. rewrite orb_false_r.
  apply not_true_iff_false. intros Hn. apply not_true_iff_false in He. apply He, existsb_exists. exists (name, value). by rewrite <- list_elem_of_In.
Qed.

Lemma credential_lines_one fields field :
  NoDup (map (fun '(name, _) => bytes_lower name) fields) -> Forall (fun '(name, _) => ":"%byte ∉ name) fields -> field ∈ fields ->
  List.filter (field_replaced [field]) (map credential_line fields) = [credential_line field].
Proof.
  destruct field as [name value]. intros Hnd Hcol Hf.
  assert (Hother : forall fields', Forall (fun '(n, _) => ":"%byte ∉ n) fields' -> bytes_lower name ∉ map (fun '(n, _) => bytes_lower n) fields' ->
    List.filter (field_replaced [(name, value)]) (map credential_line fields') = []).
  { induction 1 as [|[n v] fields' Hn _ IH]; [done|]. cbn [map]. rewrite not_elem_of_cons. intros [Hne Hin]. cbn [List.filter].
    rewrite field_replaced_line by done. cbn. unfold eq_ignore_ascii_case. rewrite bool_decide_eq_false_2 by congruence. by apply IH. }
  induction Hcol as [|[n v] fields Hn Hcol IH]; [by apply not_elem_of_nil in Hf|]. cbn [map] in Hnd. apply NoDup_cons in Hnd as [Hnin Hnd].
  cbn [map List.filter]. rewrite field_replaced_line by done. cbn [existsb]. rewrite orb_false_r. unfold eq_ignore_ascii_case.
  apply elem_of_cons in Hf as [[= -> ->]|Hf].
  - rewrite bool_decide_eq_true_2 by done. by rewrite Hother.
  - rewrite bool_decide_eq_false_2; [by apply IH|]. intros E. apply Hnin. rewrite E. apply list_elem_of_fmap. by exists (name, value).
Qed.

(** Setting credential fields keeps the request line and every other field
    line of a head as it is, in order, and ends the head with the new fields, or
    refuses when the head would exceed its limit; afterwards each credential
    name occurs exactly once. *)
Lemma credential_fields_set request_line lines fields :
  Forall plain_line (request_line :: lines) -> Forall (fun l => l <> []) lines ->
  let lines' := List.filter (fun l => negb (field_replaced fields l)) lines ++ map credential_line fields in
  let head' := join_crlf (request_line :: lines') ++ crlf ++ crlf in
  set_credential_fields_in_head (join_crlf (request_line :: lines) ++ crlf ++ crlf) fields
    = (if MAX_HTTP_HEADER_BYTES <? zlen head' then Err Block else Ok head')
  /\ (NoDup (map (fun '(name, _) => bytes_lower name) fields) -> Forall (fun '(name, _) => ":"%byte ∉ name) fields ->
      forall field, field ∈ fields -> List.filter (field_replaced [field]) lines' = [credential_line field]).
Proof.
  intros Hp Hne lines' head'. split.
  - unfold set_credential_fields_in_head. rewrite (proj2 (bytes_strip_suffix_Some _ _ (join_crlf (request_line :: lines))) eq_refl).
    pose proof (split_lf_lines _ _ Hp) as Hs. destruct (split_byte lf _) as [|first rest]; [done|]. cbn [map] in Hs. injection Hs as -> ->.
    assert (List.filter (fun l => negb (is_nil l) && negb (field_replaced fields l)) lines
            = List.filter (fun l => negb (field_replaced fields l)) lines) as ->.
    { apply filter_ext_in. intros l Hl%list_elem_of_In. rewrite Forall_forall in Hne. unfold is_nil.
      by rewrite bool_decide_eq_false_2 by (by apply Hne). }
    change (request_line :: ?x ++ ?y) with ((request_line :: x) ++ y). cbn [app]. fold lines'. rewrite join_crlf_lines, <- app_assoc. done.
  - intros Hnd Hcol field Hf. unfold lines'. rewrite List.filter_app, credential_lines_one by done.
    replace (List.filter (field_replaced [field]) (List.filter _ lines)) with (@nil (list byte)); [done|]. symmetry.
    clear -Hf. induction lines as [|l lines IH]; [done|]. cbn [List.filter]. destruct (field_replaced fields l) eqn:Hl; [apply IH|].
    cbn [negb List.filter]. by rewrite (field_replaced_one fields field l Hf Hl).
Qed.

(** ** The shape of a request that may receive a credential *)

Definition request_pseudo : list (list byte) := [bytes_of ":method"; bytes_of ":scheme"; bytes_of ":path"; bytes_of ":authority"].
Definition all_pseudo : list (list byte) := request_pseudo ++ [bytes_of ":protocol"].

Definition pseudo_value_ok '(name, value) : Prop :=
  (name = bytes_of ":method" -> value <> [] /\ forallb is_http_token_byte value = true) /\ (name = bytes_of ":scheme" -> value <> []).

Definition regular_name (name : list byte) : Prop :=
  name <> [] /\ forallb is_http_token_byte name = true /\ existsb (byte_in 65 90) name = false.

(** The variables after the pseudo-header fields [fs]. *)
Definition field_of (name : list byte) (fs : Http2Headers) : option (list byte) := snd <$> List.find (fun '(n, _) => bool_decide (n = name)) fs.
Definition has_field (name : list byte) (fs : Http2Headers) : bool := bool_decide (is_Some (field_of name fs)).
Definition grammar_of (regular : bool) (fs : Http2Headers) : Http2Grammar :=
  mkGrammar regular (field_of (bytes_of ":method") fs) (has_field (bytes_of ":scheme") fs) (field_of (bytes_of ":path") fs)
    (has_field (bytes_of ":authority") fs) (has_field (bytes_of ":protocol") fs).

Lemma field_of_snoc name fs n v :
  field_of name (fs ++ [(n, v)]) = match field_of name fs with Some x => Some x | None => if bool_decide (n = name) then Some v else None end.
Proof.
  unfold field_of. induction fs as [|[m w] fs IH]; cbn [app List.find]; [by destruct (bool_decide (n = name))|]. by destruct (bool_decide (m = name)).
Qed.

Lemma field_of_names name fs : is_Some (field_of name fs) <-> name ∈ map fst fs.
Proof.
  unfold field_of. induction fs as [|[m w] fs IH]; cbn [List.find map fst].
  - split; [by intros [? ?] | by intros ?%elem_of_nil].
  - rewrite elem_of_cons. case_bool_decide; [split; [by left; subst | by eexists]|]. rewrite IH. naive_solver.
Qed.

Lemma field_of_elem name fs v : field_of name fs = Some v -> (name, v) ∈ fs.
Proof.
  unfold field_of. intros ([m w] & Hf & ->)%fmap_Some. apply find_some in Hf as [Hin Hn]. apply bool_decide_eq_true in Hn as ->. by apply list_elem_of_In.
Qed.

Local Ltac decide_names :=
  repeat match goal with
  | |- context [bool_decide (bytes_of ?a = bytes_of ?b)] =>
      first [rewrite (bool_decide_eq_true_2 (bytes_of a = bytes_of b)) by done
            | rewrite (bool_decide_eq_false_2 (bytes_of a = bytes_of b)) by discriminate]
  end.

(** One pseudo-header field, by its name. *)
Lemma pseudo_field_eq fs rest v :
  let name := ":"%byte :: rest in
  check_credential_http2_field (grammar_of false fs) (name, v)
  = if bool_decide (name ∈ all_pseudo) && negb (has_field name fs)
       && (negb (bool_decide (name = bytes_of ":method")) || (negb (is_nil v) && forallb is_http_token_byte v))
       && (negb (bool_decide (name = bytes_of ":scheme")) || negb (is_nil v))
    then Ok (grammar_of false (fs ++ [(name, v)])) else Err Block.
Proof.
  intros name. unfold check_credential_http2_field, grammar_of, has_field. rewrite !field_of_snoc.
  cbn [gr_seen_regular gr_method gr_scheme_seen gr_path gr_authority_seen gr_protocol_seen orb]. unfold name at 1.
  change (byte_eqb ":"%byte ":"%byte) with true. cbv iota.
  assert (Htok : name ∈ all_pseudo -> forallb is_http_token_byte rest = true).
  { unfold all_pseudo, request_pseudo, name. cbn. rewrite !elem_of_cons, elem_of_nil. intros Hin.
    destruct Hin as [[= ->]|[[= ->]|[[= ->]|[[= ->]|[[= ->]|[]]]]]]; done. }
  unfold all_pseudo, request_pseudo in *. cbn [app] in *. rewrite !elem_of_cons in *.
  destruct (decide (name = bytes_of ":method")) as [E|N1]; [|destruct (decide (name = bytes_of ":scheme")) as [E|N2];
    [|destruct (decide (name = bytes_of ":path")) as [E|N3]; [|destruct (decide (name = bytes_of ":authority")) as [E|N4];
    [|destruct (decide (name = bytes_of ":protocol")) as [E|N5]]]]].
  1-5: rewrite Htok by tauto; clearbody name; subst name; cbn [negb]; decide_names;
    rewrite (bool_decide_eq_true_2 (_ ∈ _)) by (rewrite !elem_of_cons; tauto);
    destruct (field_of (bytes_of ":method") fs), (field_of (bytes_of ":scheme") fs), (field_of (bytes_of ":path") fs),
      (field_of (bytes_of ":authority") fs), (field_of (bytes_of ":protocol") fs); destruct (is_nil v), (forallb is_http_token_byte v); done.
  rewrite (bool_decide_eq_false_2 (name ∈ _)) by (rewrite !elem_of_cons, elem_of_nil; tauto).
  destruct (negb _); [done|]. by rewrite !bool_decide_eq_false_2 by done.
Qed.

Lemma pseudo_step fs rest v :
  let name := ":"%byte :: rest in
  (name ∈ all_pseudo -> name ∉ map fst fs -> pseudo_value_ok (name, v) ->
     check_credential_http2_field (grammar_of false fs) (name, v) = Ok (grammar_of false (fs ++ [(name, v)])))
  /\ (forall g, check_credential_http2_field (grammar_of false fs) (name, v) = Ok g ->
       g = grammar_of false (fs ++ [(name, v)]) /\ name ∈ all_pseudo /\ (name ∉ map fst fs) /\ pseudo_value_ok (name, v)).
Proof.
  intros name. pose proof (pseudo_field_eq fs rest v) as Heq. cbn zeta in Heq. fold name in Heq. rewrite Heq. clear Heq.
  unfold has_field, is_nil, pseudo_value_ok. rewrite <- field_of_names. split.
  - intros Hin Hnew [Hm Hs]. rewrite (bool_decide_eq_true_2 (name ∈ _)) by done. rewrite (bool_decide_eq_false_2 (is_Some _)) by done. cbn [negb andb].
    do 3 case_bool_decide; cbn; try done; try (by destruct (Hm ltac:(done))); try (by destruct (Hs ltac:(done)));
      by destruct (Hm ltac:(done)) as [_ ->].
  - intros g. destruct (_ && _) eqn:Hc; [|done]. intros [= <-]. rewrite !andb_true_iff, !orb_true_iff, !andb_true_iff, !negb_true_iff in Hc.
    rewrite !bool_decide_eq_true, !bool_decide_eq_false in Hc. rewrite <- field_of_names. tauto.
Qed.

Lemma regular_step regular fs name v :
  bytes_starts_with name (bytes_of ":") = false ->
  check_credential_http2_field (grammar_of regular fs) (name, v)
  = if bool_decide (regular_name name) then Ok (grammar_of true fs) else Err Block.
Proof.
  intros Hn. unfold check_credential_http2_field, regular_name. destruct name as [|b rest]; [by rewrite bool_decide_eq_false_2 by tauto|].
  assert (b <> ":"%byte) as Hb by (intros ->; done). unfold byte_eqb. rewrite (bool_decide_eq_false_2 (b = _)) by done.
  destruct (existsb (byte_in 65 90) (b :: rest)) eqn:Hu; [by rewrite bool_decide_eq_false_2 by (intros (_ & _ & ?); done)|].
  destruct (forallb is_http_token_byte (b :: rest)) eqn:Ht; [|by rewrite bool_decide_eq_false_2 by (intros (_ & ? & _); done)].
  by rewrite bool_decide_eq_true_2.
Qed.

Definition is_pseudo (f : list byte * list byte) : bool := bytes_starts_with (fst f) (bytes_of ":").

Lemma pseudo_after_regular fs f : is_pseudo f = true -> check_credential_http2_field (grammar_of true fs) f = Err Block.
Proof.
  destruct f as [name v]. unfold is_pseudo. cbn [fst]. rewrite bytes_starts_with_iff. by intros [rest ->].
Qed.

(** The fields after the pseudo-headers. *)
Lemma regular_fields fs fields :
  try_fold check_credential_http2_field (grammar_of true fs) fields
  = if bool_decide (Forall (fun f => is_pseudo f = false /\ regular_name (fst f)) fields) then Ok (grammar_of true fs) else Err Block.
Proof.
  induction fields as [|f fields IH]; [done|]. cbn [try_fold]. destruct (is_pseudo f) eqn:Hp.
  - rewrite pseudo_after_regular by done. rewrite bool_decide_eq_false_2; [done|]. intros [[??] _]%Forall_cons. congruence.
  - destruct f as [name v]. rewrite regular_step by done. destruct (bool_decide_reflect (regular_name name)) as [Hr|Hr].
    + rewrite IH. erewrite (bool_decide_ext (Forall _ fields)); [done|]. rewrite Forall_cons. tauto.
    + rewrite bool_decide_eq_false_2; [done|]. by intros [[??] _]%Forall_cons.
Qed.

(** Valid pseudo-header fields, each at most once, then regular fields. *)
Definition grammatical (prior ps regular : Http2Headers) : Prop :=
  Forall (fun f => is_pseudo f = true /\ fst f ∈ all_pseudo /\ pseudo_value_ok f) ps
  /\ NoDup (map fst ps) /\ (forall name, name ∈ map fst ps -> name ∉ map fst prior)
  /\ Forall (fun f => is_pseudo f = false /\ regular_name (fst f)) regular.

Lemma grammar_sound prior headers g :
  try_fold check_credential_http2_field (grammar_of false prior) headers = Ok g ->
  exists ps regular, headers = ps ++ regular /\ grammatical prior ps regular /\ g = grammar_of (bool_decide (regular <> [])) (prior ++ ps).
Proof.
  revert prior. induction headers as [|f headers IH]; intros prior; cbn [try_fold].
  { intros [= <-]. exists [], []. rewrite !app_nil_r. split_and!; [done | | by rewrite bool_decide_eq_false_2 by tauto].
    split_and!; try constructor. intros name Hn. by apply elem_of_nil in Hn. }
  destruct (is_pseudo f) eqn:Hp.
  - destruct f as [name v]. unfold is_pseudo in Hp. cbn [fst] in Hp. pose proof Hp as [rest ->]%bytes_starts_with_iff.
    destruct (check_credential_http2_field _ _) as [g1|] eqn:Hg; [|done]. apply (proj2 (pseudo_step prior rest v)) in Hg as (-> & Hin & Hnew & Hv).
    intros (ps & regular & -> & (Hps & Hnd & Hfresh & Hreg) & ->)%IH. exists ((":"%byte :: rest, v) :: ps), regular.
    split_and!; [done | | by rewrite <- app_assoc]. split_and!; [by constructor | | | done].
    + constructor; [|done]. intros Hdup%Hfresh. apply Hdup. rewrite map_app, elem_of_app. right. apply list_elem_of_here.
    + intros name' [->|Hn']%elem_of_cons; [done|]. specialize (Hfresh name' Hn'). rewrite map_app, elem_of_app in Hfresh. tauto.
  - destruct f as [name v]. rewrite regular_step by done. case_bool_decide as Hr; [|done]. rewrite regular_fields. case_bool_decide as Hreg; [|done].
    intros [= <-]. exists [], ((name, v) :: headers). rewrite app_nil_r. split_and!; [done | |].
    + split_and!; [constructor | constructor | intros ? Hn; by apply elem_of_nil in Hn | by constructor].
    + by rewrite bool_decide_eq_true_2.
Qed.

Lemma grammar_complete prior ps regular :
  grammatical prior ps regular ->
  try_fold check_credential_http2_field (grammar_of false prior) (ps ++ regular) = Ok (grammar_of (bool_decide (regular <> [])) (prior ++ ps)).
Proof.
  intros (Hps & Hnd & Hfresh & Hreg). revert prior Hfresh Hnd. induction Hps as [|f ps (Hp & Hin & Hv) _ IH]; intros prior Hfresh Hnd.
  - rewrite app_nil_r. cbn [app]. destruct Hreg as [|[name v] regular [Hn Hr] Hreg]; [by rewrite bool_decide_eq_false_2 by tauto|]. cbn [try_fold].
    rewrite regular_step by done. rewrite bool_decide_eq_true_2 by done. rewrite regular_fields, bool_decide_eq_true_2 by done.
    by rewrite bool_decide_eq_true_2.
  - destruct f as [name v]. unfold is_pseudo in Hp. cbn [fst] in *. pose proof Hp as [rest ->]%bytes_starts_with_iff.
    change (bytes_of ":" ++ rest) with (":"%byte :: rest) in *. cbn [app try_fold].
    cbn [map] in Hnd. apply NoDup_cons in Hnd as [Hnot Hnd].
    rewrite (proj1 (pseudo_step prior rest v)) by (try done; apply Hfresh; apply list_elem_of_here).
    rewrite IH; [by rewrite <- app_assoc | | done]. intros name Hn. rewrite map_app, elem_of_app. intros [Hold|Hnew].
    + apply (Hfresh name); [by right | done].
    + cbn in Hnew. apply elem_of_cons in Hnew as [->|?%elem_of_nil]; done.
Qed.

Lemma field_of_unique fs name v : NoDup (map fst fs) -> (name, v) ∈ fs -> field_of name fs = Some v.
Proof.
  unfold field_of. induction fs as [|[m w] fs IH]; [by intros _ ?%elem_of_nil|]. cbn [map fst List.find]. intros [Hm Hnd]%NoDup_cons.
  intros [[= <- <-]|Hin]%elem_of_cons; [by rewrite bool_decide_eq_true_2|]. rewrite bool_decide_eq_false_2; [by apply IH|].
  intros ->. apply Hm. apply list_elem_of_fmap. by exists (name, v).
Qed.

Lemma request_pseudo_exact fs :
  NoDup (map fst fs) -> Forall (fun f => fst f ∈ all_pseudo) fs ->
  (map fst fs ≡ₚ request_pseudo <->
   is_Some (field_of (bytes_of ":method") fs) /\ has_field (bytes_of ":scheme") fs = true /\ is_Some (field_of (bytes_of ":path") fs)
   /\ has_field (bytes_of ":authority") fs = true /\ has_field (bytes_of ":protocol") fs = false).
Proof.
  intros Hnd Hall. unfold has_field. rewrite !bool_decide_eq_true, bool_decide_eq_false, !field_of_names. split.
  - intros Hp. rewrite Hp. split_and!; by apply (bool_decide_unpack _); vm_compute.
  - intros (Hm & Hs & Hpa & Ha & Hpr). apply NoDup_Permutation; [done | by apply (bool_decide_unpack _); vm_compute|]. intros name. split.
    + intros Hin. pose proof Hin as ([n v] & -> & Hf)%list_elem_of_fmap. rewrite Forall_forall in Hall. specialize (Hall _ Hf). unfold all_pseudo in Hall.
      apply elem_of_app in Hall as [?|[E|?%elem_of_nil]%elem_of_cons]; [done | | done]. cbn in E, Hin. subst n. done.
    + unfold request_pseudo. rewrite !elem_of_cons, elem_of_nil. intros [->|[->|[->|[->|[]]]]]; done.
Qed.

(** A header block may receive a credential exactly when it is one
    unambiguous request: the pseudo-header fields method, scheme, path and
    authority, each once and before every other field, with a token method that
    is not CONNECT, a scheme and a path, followed by fields with lower-case token
    names. *)
Lemma credential_request_shape headers :
  check_credential_http2_grammar headers = Ok true <->
  exists pseudo regular, headers = pseudo ++ regular /\ map fst pseudo ≡ₚ request_pseudo
    /\ Forall pseudo_value_ok pseudo
    /\ (forall v, (bytes_of ":method", v) ∈ pseudo -> eq_ignore_ascii_case v (bytes_of "CONNECT") = false)
    /\ (forall v, (bytes_of ":path", v) ∈ pseudo -> v <> [])
    /\ Forall (fun f => regular_name (fst f)) regular.
Proof.
  unfold check_credential_http2_grammar. change grammar_start with (grammar_of false []). split.
  - destruct (try_fold _ _ headers) as [g|] eqn:Hg; [|done]. apply grammar_sound in Hg as (ps & regular & -> & (Hps & Hnd & _ & Hreg) & ->).
    cbn [grammar_of gr_method gr_scheme_seen gr_path gr_authority_seen gr_protocol_seen app].
    destruct (field_of (bytes_of ":method") ps) as [m|] eqn:Hm; [|done]. destruct (eq_ignore_ascii_case m _) eqn:Hc.
    { by destruct (negb _), (has_field (bytes_of ":protocol") ps); [| |destruct (_ || _)|destruct (_ || _)]. }
    destruct (negb (has_field (bytes_of ":scheme") ps) || negb (has_field (bytes_of ":authority") ps) || has_field (bytes_of ":protocol") ps) eqn:Hb; [done|].
    rewrite !orb_false_iff, !negb_false_iff in Hb. destruct Hb as [[Hs Ha] Hpr].
    destruct (field_of (bytes_of ":path") ps) as [path|] eqn:Hpath; [|done]. destruct (is_nil path) eqn:Hnil; [done|]. intros _.
    exists ps, regular. split_and!; [done | | | | |].
    + apply request_pseudo_exact; [done | eapply Forall_impl; [done|]; by intros f (_ & ? & _)|]. rewrite Hm, Hpath. by split_and!.
    + eapply Forall_impl; [done|]. by intros f (_ & _ & ?).
    + intros v Hv. apply field_of_unique in Hv; [|done]. congruence.
    + intros v Hv ->. apply field_of_unique in Hv; [|done]. rewrite Hpath in Hv. by injection Hv as ->.
    + eapply Forall_impl; [done|]. by intros f [_ ?].
  - intros (ps & regular & -> & Hperm & Hval & Hcon & Hpath & Hreg). assert (Hnd : NoDup (map fst ps)).
    { rewrite Hperm. by apply (bool_decide_unpack _); vm_compute. }
    assert (Hall : Forall (fun f => fst f ∈ all_pseudo) ps).
    { apply Forall_forall. intros f Hf. unfold all_pseudo. rewrite elem_of_app. left. rewrite <- Hperm. apply list_elem_of_fmap. by exists f. }
    rewrite grammar_complete.
    + pose proof (proj1 (request_pseudo_exact ps Hnd Hall) Hperm) as ([m Hm] & Hs & [path Hpa] & Ha & Hpr).
      cbn [grammar_of gr_method gr_scheme_seen gr_path gr_authority_seen gr_protocol_seen app]. rewrite Hm, Hs, Hpa, Ha, Hpr.
      rewrite (Hcon m) by (by apply field_of_elem). apply field_of_elem, Hpath in Hpa. unfold is_nil. by rewrite bool_decide_eq_false_2.
    + split_and!; [|done | intros name _ Hn; by apply elem_of_nil in Hn |].
      * rewrite !Forall_forall in *. intros f Hf. split_and!; [|by apply Hall | by apply Hval]. specialize (Hall f Hf).
        unfold is_pseudo. unfold all_pseudo, request_pseudo in Hall. cbn [app] in Hall. rewrite !elem_of_cons, elem_of_nil in Hall.
        by destruct Hall as [->|[->|[->|[->|[->|[]]]]]].
      * eapply Forall_impl; [done|]. intros f Hr. split; [|done]. unfold is_pseudo. apply not_true_iff_false. intros [r E]%bytes_starts_with_iff.
        destruct Hr as (_ & Ht & _). by rewrite E in Ht.
Qed.

(** ** The scope of a substitution *)

(** A secret may be put into the field [name] of a block. *)
Definition in_scope secret (name : list byte) : bool :=
  (eq_ignore_ascii_case name (bytes_of ":path") && es_substitute_query secret)
  || (negb (bytes_starts_with name (bytes_of ":")) && es_header_field_allowed secret name).

Lemma substitute_field_scope secret name v :
  exists v', substitute_http2_field secret (name, v) = (name, v') /\ (in_scope secret name = false -> v' = v).
Proof.
  eexists. split; [reflexivity|]. unfold in_scope. intros [Hq Ha]%orb_false_iff. cbn zeta. rewrite Hq, Ha. done.
Qed.

(** Substituting in an HTTP/2 header block keeps the fields, their names and
    their order; a value changes only where a secret of the connection that may
    be used here has that field in its scope. *)
Lemma http2_substitution_scoped c headers :
  Forall2 (fun '(name, v) '(name', v') => name' = name
             /\ (v' = v \/ exists secret, secret ∈ eligible_for_substitution c /\ secret_active c secret = true /\ in_scope secret name = true))
    headers (substitute_http2_headers c headers).
Proof.
  unfold substitute_http2_headers. assert (Hin : forall s, s ∈ eligible_for_substitution c -> s ∈ eligible_for_substitution c) by done.
  revert Hin. generalize (eligible_for_substitution c) at 1 4 as secrets. intros secrets. revert headers.
  induction secrets as [|secret secrets IH]; intros headers Hin; cbn [fold_left].
  { apply Forall_Forall2_diag, Forall_true. intros [name v]. by split; [|left]. }
  assert (Htl : forall s, s ∈ secrets -> s ∈ eligible_for_substitution c) by (intros s Hs; apply Hin; by right).
  destruct (secret_active c secret) eqn:Ha; [|by apply IH]. specialize (IH (map (substitute_http2_field secret) headers) Htl).
  apply Forall2_fmap_l in IH. eapply Forall2_impl; [exact IH|]. intros [name v] [name' v'] Hf.
  destruct (substitute_field_scope secret name v) as (v1 & E & Hs). unfold compose in Hf. rewrite E in Hf. destruct Hf as [-> [->|Hex]]; split; [done| |done|by right].
  destruct (in_scope secret name) eqn:Hsc; [right; exists secret; split_and!; [apply Hin, list_elem_of_here | done | done] | left; by apply Hs].
Qed.
End Headers.


(** ** Witnesses *)

Import CidrNetworks.

Definition demo_credential : ResolvedHeaderCredential :=
  mkCredential (bytes_of "key") (bytes_of "api.example.com") 443 (bytes_of "Authorization") (bytes_of "Bearer %s") (bytes_of "s3cr3t").
Definition demo_credential_conn : @Connection _ :=
  conn (with_guest_dst (with_header_credentials (demo_handler (bytes_of "evil.example.org")) [demo_credential])
          (mkSocketAddr (V4 0) 443)).


Lemma demo_plain s : forallb (fun b => negb (byte_eqb b cr) && negb (byte_eqb b lf)) (bytes_of s) = true -> plain_line (bytes_of s).
Proof.
  unfold plain_line. intros Hs. rewrite forallb_forall in Hs.
  split; intros Hin%list_elem_of_In%Hs; apply andb_true_iff in Hin as [H1 H2]; by vm_compute in H1, H2.
Qed.

Lemma credential_fields_set_witness :
  set_credential_fields_in_head
    (join_crlf [bytes_of "GET / HTTP/1.1"; bytes_of "Host: a"; bytes_of "authorization: x"; bytes_of "Accept: y"] ++ crlf ++ crlf)
    [(bytes_of "Authorization", bytes_of "Bearer s3cr3t")]
  = Ok (join_crlf [bytes_of "GET / HTTP/1.1"; bytes_of "Host: a"; bytes_of "Accept: y"; bytes_of "Authorization: Bearer s3cr3t"] ++ crlf ++ crlf).
Proof.
  destruct (credential_fields_set (bytes_of "GET / HTTP/1.1") [bytes_of "Host: a"; bytes_of "authorization: x"; bytes_of "Accept: y"]
    [(bytes_of "Authorization", bytes_of "Bearer s3cr3t")]) as [H1 _].
  - repeat constructor; by apply demo_plain.
  - by repeat constructor.
  - exact H1.
Defined.
