(* ===== verification/SecretHttp2.v ===== *)
(** * HTTP/2 request streams

    [Http2State] of [engine/secrets/handler.rs]: the connection preface, frames,
    header blocks with their continuation frames, DATA frames, and the header
    frames the handler writes.

    The theorems: frames round-trip; a connection is processed the same however
    it is cut into reads; the streams the handler tracks stay well formed and
    bounded; no DATA stream carries a placeholder the connection must not carry;
    and a connection without secrets, credentials and authority forwards its
    frames. *)

From S2P Require Import Prelude Text DomainName Addr TtlIndex SharedState Policy Chunked HttpText SecretScan SecretHandler SecretBody HeaderBlock SecretHeaders.
From Stdlib Require Import Strings.Byte.

Definition MAX_HTTP2_FRAME_PAYLOAD_BYTES : Z := 0x00ffffff.
Definition MAX_HTTP2_HEADER_BLOCK_BYTES : Z := 64 * 1024.
Definition MAX_HTTP2_TRACKED_STREAMS : Z := 1024.
Definition HTTP2_OUTBOUND_FRAME_PAYLOAD_BYTES : Z := 16 * 1024.
Definition HTTP2_FRAME_DATA : Z := 0x0.
Definition HTTP2_FRAME_HEADERS : Z := 0x1.
Definition HTTP2_FRAME_PUSH_PROMISE : Z := 0x5.
Definition HTTP2_FRAME_CONTINUATION : Z := 0x9.
Definition HTTP2_FLAG_END_STREAM : Z := 0x1.
Definition HTTP2_FLAG_END_HEADERS : Z := 0x4.
Definition HTTP2_FLAG_PADDED : Z := 0x8.
Definition HTTP2_FLAG_PRIORITY : Z := 0x20.

(** [flags & flag != 0]. *)
Definition flag_set (flags flag : Z) : bool := negb (Z.land flags flag =? 0).

(** ** Frames *)

Record Http2Frame := mkFrame {
  fr_kind : Z;
  fr_flags : Z;
  fr_stream_id : Z;
  fr_payload : list byte;
  fr_raw : list byte
}.

(** The first three octets; callers pass a frame header. *)
Definition http2_frame_payload_len (header : list byte) : Z :=
  match header with
  | b0 :: b1 :: b2 :: _ => Z.lor (Z.lor (Z.shiftl (Z_of_byte b0) 16) (Z.shiftl (Z_of_byte b1) 8)) (Z_of_byte b2)
  | _ => 0
  end.

Definition parse_http2_frame (raw : list byte) : result SecretViolationAction Http2Frame :=
  match raw with
  | b0 :: b1 :: b2 :: kind :: flags :: s0 :: s1 :: s2 :: s3 :: payload =>
      if negb (zlen raw =? 9 + http2_frame_payload_len raw) then Err Block
      else Ok (mkFrame (Z_of_byte kind) (Z_of_byte flags) (Z.land (be_value [s0; s1; s2; s3]) 0x7fffffff) payload raw)
  | _ => Err Block
  end.

(** [payload[start..payload.len() - pad_len]]. *)
Definition unpadded (start pad_len : Z) (payload : list byte) : result SecretViolationAction (list byte) :=
  if zlen payload <? start + pad_len then Err Block
  else Ok (take (Z.to_nat (zlen payload - pad_len - start)) (drop (Z.to_nat start) payload)).

Definition http2_headers_fragment (flags : Z) (payload : list byte) : result SecretViolationAction (list byte) :=
  let? (start, pad_len) :=
    if flag_set flags HTTP2_FLAG_PADDED then
      match payload with [] => Err Block | pad :: _ => Ok (1, Z_of_byte pad) end
    else Ok (0, 0) in
  let start := if flag_set flags HTTP2_FLAG_PRIORITY then start + 5 else start in
  unpadded start pad_len payload.

Definition http2_data_payload (flags : Z) (payload : list byte) : result SecretViolationAction (list byte) :=
  if negb (flag_set flags HTTP2_FLAG_PADDED) then Ok payload
  else match payload with
  | [] => Err Block
  | pad :: _ => unpadded 1 (Z_of_byte pad) payload
  end.

Definition append_http2_frame (output : list byte) (kind flags stream_id : Z) (payload : list byte) : result SecretViolationAction (list byte) :=
  if (0x00ffffff <? zlen payload) || negb (Z.land stream_id 0x80000000 =? 0) then Err Block
  else Ok (output
    ++ [byte_of_Z (Z.land (Z.shiftr (zlen payload) 16) 0xff); byte_of_Z (Z.land (Z.shiftr (zlen payload) 8) 0xff);
        byte_of_Z (Z.land (zlen payload) 0xff); byte_of_Z kind; byte_of_Z flags]
    ++ be_bytes 4 stream_id ++ payload).

(** The loop of [append_http2_header_frames] with frames of at most [cap] octets;
    [rest] is what is left of the block. *)
Fixpoint append_header_frames (cap fuel : nat) (first : bool) (output : list byte) (stream_id : Z) (end_stream : bool) (rest : list byte)
    : result SecretViolationAction (list byte) :=
  match fuel with
  | O => Ok output
  | S fuel' =>
      if first || nonempty rest then
        let payload := take cap rest in
        let rest' := drop cap rest in
        let kind := if first then HTTP2_FRAME_HEADERS else HTTP2_FRAME_CONTINUATION in
        let flags := Z.lor (if is_nil rest' then HTTP2_FLAG_END_HEADERS else 0) (if first && end_stream then HTTP2_FLAG_END_STREAM else 0) in
        let? output' := append_http2_frame output kind flags stream_id payload in
        append_header_frames cap fuel' false output' stream_id end_stream rest'
      else Ok output
  end.

Definition append_http2_header_frames (output : list byte) (stream_id : Z) (end_stream : bool) (block : list byte)
    : result SecretViolationAction (list byte) :=
  append_header_frames (Z.to_nat HTTP2_OUTBOUND_FRAME_PAYLOAD_BYTES) (S (length block)) true output stream_id end_stream block.

(** ** The connection *)

Section Http2.
Context `{SecretCodecs} `{Hpack} `{IpNetworks}.
(** The resolved-hostname cache and the clock while the call runs. *)
Variables (shared : SharedState) (now : Z).
Implicit Types (s : Http2State) (h : SecretsHandler).

Definition h2_with_buffer s preface v : Http2State :=
  mkHttp2 preface v (h2_header_block s) (h2_highest_client_stream_id s) (h2_open_request_streams s) (h2_data_tails s)
    (h2_request_summaries s) (h2_decoder s) (h2_encoder s).
Definition h2_with_block s v : Http2State :=
  mkHttp2 (h2_preface_seen s) (h2_buffer s) v (h2_highest_client_stream_id s) (h2_open_request_streams s) (h2_data_tails s)
    (h2_request_summaries s) (h2_decoder s) (h2_encoder s).
Definition h2_with_stream s id : Http2State :=
  mkHttp2 (h2_preface_seen s) (h2_buffer s) (h2_header_block s) id ({[id]} ∪ h2_open_request_streams s) (h2_data_tails s)
    (h2_request_summaries s) (h2_decoder s) (h2_encoder s).
Definition h2_with_tail s id v : Http2State :=
  mkHttp2 (h2_preface_seen s) (h2_buffer s) (h2_header_block s) (h2_highest_client_stream_id s) (h2_open_request_streams s)
    (<[id := v]> (h2_data_tails s)) (h2_request_summaries s) (h2_decoder s) (h2_encoder s).
Definition h2_with_summary s id v : Http2State :=
  mkHttp2 (h2_preface_seen s) (h2_buffer s) (h2_header_block s) (h2_highest_client_stream_id s) (h2_open_request_streams s)
    (h2_data_tails s) (<[id := v]> (h2_request_summaries s)) (h2_decoder s) (h2_encoder s).
Definition h2_with_codec s decoder encoder : Http2State :=
  mkHttp2 (h2_preface_seen s) (h2_buffer s) (h2_header_block s) (h2_highest_client_stream_id s) (h2_open_request_streams s)
    (h2_data_tails s) (h2_request_summaries s) decoder encoder.

(** The end of a stream. *)
Definition h2_close s id : Http2State :=
  mkHttp2 (h2_preface_seen s) (h2_buffer s) (h2_header_block s) (h2_highest_client_stream_id s) (h2_open_request_streams s ∖ {[id]})
    (delete id (h2_data_tails s)) (delete id (h2_request_summaries s)) (h2_decoder s) (h2_encoder s).

Inductive HeaderDecodeError := Malformed | Limit.

(** The loop of [decode_headers]. *)
Fixpoint decode_fields (fuel : nat) (decoder : HpackDecoder) (block : list byte) (headers : Http2Headers) (decoded_bytes : Z)
    : result HeaderDecodeError (HpackDecoder * Http2Headers) :=
  match fuel with
  | O => Err Malformed
  | S fuel' =>
      if is_nil block then Ok (decoder, headers)
      else match decode_exact decoder block with
      | None => Err Malformed
      | Some (decoder', rest, None) =>
          if (length rest =? length block)%nat then Err Malformed else decode_fields fuel' decoder' rest headers decoded_bytes
      | Some (decoder', rest, Some (name, value)) =>
          if MAX_HTTP2_HEADER_FIELDS <=? zlen headers then Err Limit
          else
            let decoded_bytes := decoded_bytes + zlen name + zlen value + 4 in
            if MAX_HTTP2_DECODED_HEADER_BYTES <? decoded_bytes then Err Limit
            else decode_fields fuel' decoder' rest (headers ++ [(name, value)]) decoded_bytes
      end
  end.

Definition decode_headers (decoder : HpackDecoder) (block : list byte) : result HeaderDecodeError (HpackDecoder * Http2Headers) :=
  match check_header_block block with
  | Err _ => Err Malformed
  | Ok _ => decode_fields (S (length block)) decoder block [] 0
  end.

Definition encode_headers (encoder : HpackEncoder) (headers : Http2Headers) : result SecretViolationAction (HpackEncoder * list byte) :=
  try_fold (fun '(encoder, encoded) field =>
    match hpack_encode encoder field with
    | Some (encoder', bytes) => Ok (encoder', encoded ++ bytes)
    | None => Err Block
    end) (encoder, []) headers.

(** What a call of [process] threads: the state, the handler, the output. *)
Record Run := mkRun { run_state : Http2State; run_handler : SecretsHandler; run_output : list byte }.
Implicit Types (r : Run).

Definition on_state (f : Http2State -> Http2State) : stE Run SecretViolationAction () :=
  st_put (fun r => mkRun (f (run_state r)) (run_handler r) (run_output r)).
Definition on_run_handler {A} (m : stE SecretsHandler SecretViolationAction A) : stE Run SecretViolationAction A :=
  fun r => let '(h', a) := m (run_handler r) in (mkRun (run_state r) h' (run_output r), a).
Definition emit (bytes : list byte) : stE Run SecretViolationAction () :=
  st_put (fun r => mkRun (run_state r) (run_handler r) (run_output r ++ bytes)).

(** [map_err(|block| handler.refuse(block))]. *)
Definition or_refuse {A} (x : result RecordedBlock A) : stE Run SecretViolationAction A :=
  match x with
  | Ok a => st_ret a
  | Err block => on_run_handler (refuse block)
  end.

(** The stream of a header block: a new one, or the trailers of an open one. *)
Definition accept_header_block (block : Http2HeaderBlock) : stE Run SecretViolationAction bool :=
  let! r := st_get in
  let s := run_state r in
  if bool_decide (hb_stream_id block ∈ h2_open_request_streams s) then
    if negb (hb_end_stream block) then st_err Block else st_ret false
  else if hb_stream_id block <=? h2_highest_client_stream_id s then st_err Block
  else if MAX_HTTP2_TRACKED_STREAMS <=? Z.of_nat (size (h2_open_request_streams s)) then st_err Block
  else
    let! _ := on_state (fun s => h2_with_stream s (hb_stream_id block)) in
    st_ret true.

Definition finish_header_block (block : Http2HeaderBlock) : stE Run SecretViolationAction () :=
  let id := hb_stream_id block in
  let! r := st_get in
  let! headers :=
    match decode_headers (h2_decoder (run_state r)) (hb_block block) with
    | Ok (decoder, headers) =>
        let! _ := on_state (fun s => h2_with_codec s decoder (h2_encoder s)) in
        st_ret headers
    | Err Limit => on_run_handler (refuse (mkBlock HttpHeaderLimitSite None))
    | Err Malformed => st_err Block
    end in
  let! is_initial_request := accept_header_block block in
  let c := conn (run_handler r) in
  let! _ :=
    match http_authority c with
    | Some validator => or_refuse (validate_http2_authority shared now headers validator is_initial_request)
    | None => st_ret ()
    end in
  let! credential_fields := st_lift (if is_initial_request then authorized_h2_credential_fields c headers else Ok None) in
  let detection_bytes := http2_header_detection_bytes headers in
  let summary := http2_request_summary (from_utf8_lossy detection_bytes) in
  let! headers :=
    if is_initial_request then
      let! _ := on_run_handler (apply_blocking_action
                  (detect_http2_header_blocking_action (ineligible_for_substitution c) headers summary id)) in
      let headers := substitute_http2_headers c headers in
      match credential_fields with
      | Some fields =>
          let headers := inject_http2_fields headers fields in
          let! _ := or_refuse (enforce_http2_header_limits headers) in
          st_ret headers
      | None => st_ret headers
      end
    else
      let trailer_summary := default summary (h2_request_summaries (run_state r) !! id) in
      let! _ := on_run_handler (apply_blocking_action
                  (detect_blocking_action_in_fragments (ineligible_for_substitution c) [(detection_bytes, LocTrailer)] Http2
                     trailer_summary (Some id))) in
      st_ret headers in
  let! r := st_get in
  let! (encoder, encoded) := st_lift (encode_headers (h2_encoder (run_state r)) headers) in
  let! _ := on_state (fun s => h2_with_codec s (h2_decoder s) encoder) in
  let! frames := st_lift (append_http2_header_frames [] id (hb_end_stream block) encoded) in
  let! _ := emit frames in
  on_state (fun s => if hb_end_stream block then h2_close s id else h2_with_summary s id summary).

Definition process_headers_frame (frame : Http2Frame) : stE Run SecretViolationAction () :=
  let! r := st_get in
  if (fr_stream_id frame =? 0) || (fr_stream_id frame `mod` 2 =? 0) || bool_decide (is_Some (h2_header_block (run_state r))) then st_err Block
  else
    let! fragment := st_lift (http2_headers_fragment (fr_flags frame) (fr_payload frame)) in
    if MAX_HTTP2_HEADER_BLOCK_BYTES <? zlen fragment then st_err Block
    else
      let block := mkHeaderBlock (fr_stream_id frame) (flag_set (fr_flags frame) HTTP2_FLAG_END_STREAM) fragment in
      if flag_set (fr_flags frame) HTTP2_FLAG_END_HEADERS then finish_header_block block
      else on_state (fun s => h2_with_block s (Some block)).

Definition process_continuation_frame (frame : Http2Frame) : stE Run SecretViolationAction () :=
  let! r := st_get in
  match h2_header_block (run_state r) with
  | None => st_err Block
  | Some block =>
      let! _ := on_state (fun s => h2_with_block s None) in
      if (fr_stream_id frame =? 0) || negb (fr_stream_id frame =? hb_stream_id block) then st_err Block
      else
        let block := mkHeaderBlock (hb_stream_id block) (hb_end_stream block) (hb_block block ++ fr_payload frame) in
        if MAX_HTTP2_HEADER_BLOCK_BYTES <? zlen (hb_block block) then st_err Block
        else if flag_set (fr_flags frame) HTTP2_FLAG_END_HEADERS then finish_header_block block
        else on_state (fun s => h2_with_block s (Some block))
  end.

Definition process_data_frame (frame : Http2Frame) : stE Run SecretViolationAction () :=
  let id := fr_stream_id frame in
  let! r := st_get in
  let c := conn (run_handler r) in
  if (id =? 0) || negb (bool_decide (id ∈ h2_open_request_streams (run_state r))) then st_err Block
  else
    let! data := st_lift (http2_data_payload (fr_flags frame) (fr_payload frame)) in
    let tail := default [] (h2_data_tails (run_state r) !! id) in
    if contains_eligible_body_placeholder c tail data then st_err Block
    else
      let report := detect_blocking_action_with_tail (ineligible_for_substitution c) tail data [] Http2 LocBody (Some id) in
      let report :=
        match report, h2_request_summaries (run_state r) !! id with
        | Some rep, Some summary => Some (apply_request_summary rep summary)
        | _, _ => report
        end in
      let! _ := on_run_handler (apply_blocking_action report) in
      let! _ := on_state (fun s => h2_with_tail s id (update_tail_buffer tail data (saturating_sub (max_detection_window_len c) 1))) in
      let! _ := on_state (fun s => if flag_set (fr_flags frame) HTTP2_FLAG_END_STREAM then h2_close s id else s) in
      emit (fr_raw frame).

Definition process_frame (raw : list byte) : stE Run SecretViolationAction () :=
  let! frame := st_lift (parse_http2_frame raw) in
  let! r := st_get in
  if bool_decide (is_Some (h2_header_block (run_state r))) && negb (fr_kind frame =? HTTP2_FRAME_CONTINUATION) then st_err Block
  else if fr_kind frame =? HTTP2_FRAME_HEADERS then process_headers_frame frame
  else if fr_kind frame =? HTTP2_FRAME_CONTINUATION then process_continuation_frame frame
  else if fr_kind frame =? HTTP2_FRAME_DATA then process_data_frame frame
  else if fr_kind frame =? HTTP2_FRAME_PUSH_PROMISE then st_err Block
  else emit (fr_raw frame).

(** The loop of [process]: complete frames off the front of the buffer. *)
Fixpoint process_frames (fuel : nat) : stE Run SecretViolationAction () :=
  match fuel with
  | O => st_ret ()
  | S fuel' =>
      let! r := st_get in
      let buffer := h2_buffer (run_state r) in
      if zlen buffer <? 9 then st_ret ()
      else
        let frame_len := http2_frame_payload_len (take 9 buffer) in
        if MAX_HTTP2_FRAME_PAYLOAD_BYTES <? frame_len then st_err Block
        else if zlen buffer <? 9 + frame_len then st_ret ()
        else
          let full_len := Z.to_nat (9 + frame_len) in
          let! _ := on_state (fun s => h2_with_buffer s (h2_preface_seen s) (drop full_len buffer)) in
          let! _ := process_frame (take full_len buffer) in
          process_frames fuel'
  end.

(** The preface is forwarded once it is complete; [false] while it is not. *)
Definition process_preface : stE Run SecretViolationAction bool :=
  let! r := st_get in
  let s := run_state r in
  if h2_preface_seen s then st_ret true
  else if (length (h2_buffer s) <? length HTTP2_PREFACE)%nat then st_ret false
  else if negb (bytes_starts_with (h2_buffer s) HTTP2_PREFACE) then st_err Block
  else
    let! _ := emit HTTP2_PREFACE in
    let! _ := on_state (fun s => h2_with_buffer s true (drop (length HTTP2_PREFACE) (h2_buffer s))) in
    st_ret true.

Definition http2_process (data : list byte) : stE Run SecretViolationAction () :=
  let! _ := on_state (fun s => h2_with_buffer s (h2_preface_seen s) (h2_buffer s ++ data)) in
  let! ready := process_preface in
  if negb ready then st_ret ()
  else
    let! r := st_get in
    process_frames (S (length (h2_buffer (run_state r)))).

Definition substitute_http2 (data : list byte) : stE SecretsHandler SecretViolationAction (list byte) :=
  fun h =>
    let state := default http2_default (http2_state h) in
    let '(r, e) := http2_process data (mkRun state (with_http2 h None) []) in
    match e with
    | Ok _ => (with_http2 (run_handler r) (Some (run_state r)), Ok (run_output r))
    | Err e => (run_handler r, Err e)
    end.
End Http2.

(** ** Frames round-trip *)

Lemma lor_octets a b c : 0 <= a < 256 -> 0 <= b < 256 -> 0 <= c < 256 -> Z.lor (Z.lor (Z.shiftl a 16) (Z.shiftl b 8)) c = a * 65536 + b * 256 + c.
Proof.
  intros Ha Hb Hc. rewrite (lor_shiftl a) by (rewrite ?Z.shiftl_mul_pow2; lia). rewrite (Z.shiftl_mul_pow2 b) by lia.
  replace (a * 2 ^ 16 + b * 2 ^ 8) with (Z.shiftl (a * 256 + b) 8) by (rewrite Z.shiftl_mul_pow2; lia). rewrite lor_shiftl; lia.
Qed.

(** A frame header and as many octets as it announces. *)
Definition whole_frame (raw : list byte) : Prop := 9 <= zlen raw /\ zlen raw = 9 + http2_frame_payload_len raw.

Lemma payload_len_bound raw : 0 <= http2_frame_payload_len raw <= MAX_HTTP2_FRAME_PAYLOAD_BYTES.
Proof.
  unfold MAX_HTTP2_FRAME_PAYLOAD_BYTES. destruct raw as [|b0 [|b1 [|b2 raw]]]; cbn; try lia.
  pose proof (Z_of_byte_bound b0). pose proof (Z_of_byte_bound b1). pose proof (Z_of_byte_bound b2).
  rewrite lor_octets by done. lia.
Qed.

Lemma payload_len_take n raw : (3 <= n)%nat -> http2_frame_payload_len (take n raw) = http2_frame_payload_len raw.
Proof. intros Hn. destruct n as [|[|[|n]]]; [lia..|]. by destruct raw as [|b0 [|b1 [|b2 raw]]]. Qed.

Lemma payload_len_app raw more : (3 <= length raw)%nat -> http2_frame_payload_len (raw ++ more) = http2_frame_payload_len raw.
Proof. destruct raw as [|b0 [|b1 [|b2 raw]]]; cbn [length]; intros; [lia..|done]. Qed.

Lemma parse_whole_frame raw : (exists frame, parse_http2_frame raw = Ok frame) <-> whole_frame raw.
Proof.
  unfold whole_frame. destruct raw as [|b0 [|b1 [|b2 [|b3 [|b4 [|b5 [|b6 [|b7 [|b8 payload]]]]]]]]]; cbn [length];
    try (by split; [intros [? ?] | intros [? _]; lia]).
  unfold parse_http2_frame. destruct (Z.eqb_spec (zlen (b0 :: b1 :: b2 :: b3 :: b4 :: b5 :: b6 :: b7 :: b8 :: payload))
    (9 + http2_frame_payload_len (b0 :: b1 :: b2 :: b3 :: b4 :: b5 :: b6 :: b7 :: b8 :: payload))) as [E|E]; cbn [negb].
  - split; [|by eexists]. intros _. cbn [length] in *. lia.
  - split; [by intros [? ?] | intros [_ ?]; cbn [length] in *; lia].
Qed.

Lemma octet_field n k : 0 <= k -> Z_of_byte (byte_of_Z (Z.land (Z.shiftr n k) 0xff)) = (n `div` 2 ^ k) `mod` 256.
Proof.
  intros Hk. rewrite Z_of_byte_of_Z, Z.shiftr_div_pow2 by done. change 0xff with (Z.ones 8). rewrite Z.land_ones by lia. apply Z.mod_mod. lia.
Qed.

Lemma land_top_bit n : 0 <= n < 2 ^ 32 -> Z.land n 0x80000000 = if 2 ^ 31 <=? n then 2 ^ 31 else 0.
Proof.
  intros Hn. change 0x80000000 with (2 ^ 31).
  assert (Z.land n (2 ^ 31) = Z.shiftl (n `div` 2 ^ 31) 31) as ->.
  { apply Z.bits_inj'. intros i Hi. rewrite Z.land_spec, Z.shiftl_spec by done. destruct (Z.lt_trichotomy i 31) as [?|[->|?]].
    - rewrite Z.pow2_bits_false, andb_false_r by lia. by rewrite Z.testbit_neg_r by lia.
    - rewrite Z.pow2_bits_true, andb_true_r, Z.sub_diag, <- Z.shiftr_div_pow2, Z.shiftr_spec by lia. done.
    - rewrite Z.pow2_bits_false, andb_false_r by lia. symmetry. apply Z.bits_above_log2; [apply Z.div_pos; lia|].
      assert (n `div` 2 ^ 31 < 2) by (apply Z.div_lt_upper_bound; lia). destruct (Z.le_gt_cases (n `div` 2 ^ 31) 0).
      + rewrite Z.log2_nonpos by done. lia.
      + apply Z.log2_lt_pow2; [done|]. assert (2 ^ 1 <= 2 ^ (i - 31)) by (apply Z.pow_le_mono_r; lia). lia. }
  rewrite Z.shiftl_mul_pow2 by lia. destruct (Z.leb_spec (2 ^ 31) n).
  - assert (n `div` 2 ^ 31 = 1) as -> by (symmetry; apply Z.div_unique with (n - 2 ^ 31); lia). lia.
  - by rewrite Z.div_small by lia.
Qed.

Lemma append_frame_parse kind flags stream_id payload :
  0 <= kind < 256 -> 0 <= flags < 256 -> 0 <= stream_id < 2 ^ 32 ->
  match append_http2_frame [] kind flags stream_id payload with
  | Ok raw => whole_frame raw /\ parse_http2_frame raw = Ok (mkFrame kind flags stream_id payload raw)
  | Err _ => 2 ^ 24 <= zlen payload \/ 2 ^ 31 <= stream_id
  end.
Proof.
  intros Hk Hf Hs. unfold append_http2_frame. destruct (Z.ltb_spec 0xffffff (zlen payload)) as [Hl|Hl]; [left; lia|]. cbn [orb].
  rewrite land_top_bit by lia. destruct (Z.leb_spec (2 ^ 31) stream_id) as [Hr|Hr]; [by right|]. cbn [negb Z.eqb].
  set (raw := [] ++ _). assert (Hlen : zlen raw = 9 + zlen payload).
  { unfold raw. rewrite !length_app, length_be_bytes. cbn [length]. lia. }
  assert (Hpl : http2_frame_payload_len raw = zlen payload).
  { unfold raw. cbn [app http2_frame_payload_len]. rewrite <- (Z.shiftr_0_r (zlen payload)) at 3. rewrite !octet_field by lia.
    assert (Hmod : forall x, 0 <= x `mod` 256 < 256) by (intros; apply Z.mod_pos_bound; lia).
    rewrite lor_octets by apply Hmod. change (2 ^ 0) with 1. rewrite Z.div_1_r. change (2 ^ 16) with (256 * 256). change (2 ^ 8) with 256.
    rewrite <- Z.div_div by lia. set (n := zlen payload) in *.
    pose proof (Z.div_mod n 256 ltac:(lia)). pose proof (Z.div_mod (n `div` 256) 256 ltac:(lia)).
    rewrite (Z.mod_small ((n `div` 256) `div` 256)); [lia|]. split; [do 2 (apply Z.div_pos; [|lia]); lia|].
    do 2 (apply Z.div_lt_upper_bound; [lia|]). lia. }
  assert (Hid : Z.land (be_value (be_bytes 4 stream_id)) 0x7fffffff = stream_id).
  { rewrite be_value_be_bytes, Z.mod_small by (cbn; lia). change 0x7fffffff with (Z.ones 31). rewrite Z.land_ones, Z.mod_small; lia. }
  split; [split; lia|]. unfold parse_http2_frame. rewrite Hlen, Hpl, Z.eqb_refl. unfold raw at 1. cbn [app be_bytes negb].
  rewrite Z_of_byte_of_Z, Z.mod_small by lia. rewrite Z_of_byte_of_Z, Z.mod_small by lia. do 2 f_equal. exact Hid.
Qed.

(** A frame the handler writes reads back as the frame it is: kind, flags,
    stream and payload; the writer refuses exactly a payload of more than 24 bits
    of length and a stream identifier that uses the reserved bit. *)
Lemma http2_frame_roundtrip kind flags stream_id payload :
  0 <= kind < 256 -> 0 <= flags < 256 -> 0 <= stream_id < 2 ^ 32 ->
  match append_http2_frame [] kind flags stream_id payload with
  | Ok raw => whole_frame raw /\ parse_http2_frame raw = Ok (mkFrame kind flags stream_id payload raw)
  | Err _ => 2 ^ 24 <= zlen payload \/ 2 ^ 31 <= stream_id
  end.
Proof. apply append_frame_parse. Qed.

(** The frame as the writer makes it. *)
Lemma written_frame output kind flags stream_id payload :
  0 <= kind < 256 -> 0 <= flags < 256 -> 0 <= stream_id < 2 ^ 31 -> zlen payload < 2 ^ 24 ->
  exists raw, append_http2_frame output kind flags stream_id payload = Ok (output ++ raw)
    /\ whole_frame raw /\ parse_http2_frame raw = Ok (mkFrame kind flags stream_id payload raw).
Proof.
  intros Hk Hf Hs Hl. pose proof (append_frame_parse kind flags stream_id payload Hk Hf ltac:(lia)) as Hrt.
  unfold append_http2_frame in *. destruct (_ || _); [lia|]. by eexists.
Qed.

(** The frames of one header block: HEADERS and then CONTINUATION frames of the
    same stream, the payloads at most [cap] octets, END_STREAM on the first when the
    block ends the stream, END_HEADERS exactly on the last. *)
Fixpoint block_frames (cap : nat) (first : bool) (stream_id : Z) (end_stream : bool) (frames : list Http2Frame) : Prop :=
  match frames with
  | [] => first = false
  | frame :: frames' =>
      fr_kind frame = (if first then HTTP2_FRAME_HEADERS else HTTP2_FRAME_CONTINUATION)
      /\ fr_stream_id frame = stream_id
      /\ parse_http2_frame (fr_raw frame) = Ok frame
      /\ (length (fr_payload frame) <= cap)%nat
      /\ fr_flags frame = Z.lor (if bool_decide (frames' = []) then HTTP2_FLAG_END_HEADERS else 0)
                               (if first && end_stream then HTTP2_FLAG_END_STREAM else 0)
      /\ block_frames cap false stream_id end_stream frames'
  end.

Lemma append_header_frames_spec cap fuel (first : bool) output stream_id end_stream rest :
  0 < Z.of_nat cap < 2 ^ 24 -> 0 <= stream_id < 2 ^ 31 -> (length rest + (if first then 1 else 0) <= fuel)%nat ->
  exists frames, append_header_frames cap fuel first output stream_id end_stream rest = Ok (output ++ mjoin (map fr_raw frames))
    /\ block_frames cap first stream_id end_stream frames /\ mjoin (map fr_payload frames) = rest
    /\ (first = false -> frames = [] <-> rest = []).
Proof.
  intros Hcap Hs. revert first output rest. induction fuel as [|fuel IH]; intros first output rest Hf; cbn [append_header_frames].
  { destruct first; [lia|]. destruct rest; [|cbn in Hf; lia]. exists (@nil Http2Frame). by rewrite app_nil_r. }
  destruct (first || nonempty rest) eqn:Hgo.
  - set (payload := take cap rest). set (rest' := drop cap rest).
    set (flags := Z.lor _ _). set (kind := if first then _ else _).
    assert (Hpl : (length payload <= cap)%nat) by (unfold payload; rewrite length_take; lia).
    destruct (written_frame output kind flags stream_id payload) as (raw & -> & _ & Hp); [by destruct first | | done | lia |].
    { unfold flags. destruct (is_nil rest'), (first && end_stream); by vm_compute. }
    destruct (IH false (output ++ raw) rest') as (frames & -> & Hbf & Hj & Hnil).
    { unfold rest'. rewrite length_drop. destruct first; [lia|]. destruct rest; [done|]. cbn [length] in *. lia. }
    exists (mkFrame kind flags stream_id payload raw :: frames). cbn [map fr_raw fr_payload].
    change (mjoin (raw :: map fr_raw frames)) with (raw ++ mjoin (map fr_raw frames)).
    change (mjoin (payload :: map fr_payload frames)) with (payload ++ mjoin (map fr_payload frames)).
    rewrite app_assoc, Hj. split_and!; [done | | apply take_drop | intros ->; destruct rest; done]. cbn [block_frames fr_kind fr_stream_id fr_raw fr_payload fr_flags].
    split_and!; try done. unfold flags. f_equal. unfold is_nil. specialize (Hnil eq_refl). do 2 case_bool_decide; tauto.
  - apply orb_false_iff in Hgo as [-> Hr]. unfold nonempty in Hr. apply negb_false_iff, bool_decide_eq_true in Hr as ->.
    exists (@nil Http2Frame). by rewrite app_nil_r.
Qed.

(** A header block is written as one HEADERS frame and CONTINUATION frames
    that read back as such: of the block's stream, with payloads of at most 16
    KiB that concatenate to the block, END_STREAM exactly when the block ends the
    stream, and END_HEADERS exactly on the last frame. *)
Lemma http2_header_frames_exact stream_id end_stream block :
  0 <= stream_id < 2 ^ 31 ->
  exists frame frames, append_http2_header_frames [] stream_id end_stream block = Ok (mjoin (map fr_raw (frame :: frames)))
    /\ block_frames (Z.to_nat HTTP2_OUTBOUND_FRAME_PAYLOAD_BYTES) true stream_id end_stream (frame :: frames) /\ mjoin (map fr_payload (frame :: frames)) = block.
Proof.
  intros Hs. destruct (append_header_frames_spec (Z.to_nat HTTP2_OUTBOUND_FRAME_PAYLOAD_BYTES) (S (length block)) true [] stream_id end_stream block)
    as (frames & Ha & Hf & Hj & _); [unfold HTTP2_OUTBOUND_FRAME_PAYLOAD_BYTES; lia | done | cbn [length]; lia |].
  destruct frames as [|frame frames]; [done|]. by exists frame, frames.
Qed.

(** ** Cutting a connection into reads *)

(** Too few bytes for the frame they start. *)
Definition partial_frame (rest : list byte) : Prop := zlen rest < 9 \/ zlen rest < 9 + http2_frame_payload_len rest.

Lemma whole_not_partial raw more : whole_frame raw -> ~ partial_frame (raw ++ more).
Proof.
  intros [Hl Hp] [H1|H1]; rewrite length_app in H1; [lia|]. rewrite payload_len_app in H1 by lia. lia.
Qed.

(** Every buffer is whole frames and a partial one, in one way. *)
Lemma frames_split n buffer : (length buffer <= n)%nat ->
  exists raws rest, buffer = mjoin raws ++ rest /\ Forall whole_frame raws /\ partial_frame rest.
Proof.
  revert buffer. induction n as [|n IH]; intros buffer Hn.
  { exists [], buffer. split_and!; [done | constructor | left; lia]. }
  destruct (decide (zlen buffer < 9 \/ zlen buffer < 9 + http2_frame_payload_len buffer)) as [Hp|Hp]; [exists [], buffer; split_and!; [done | constructor | done]|].
  pose proof (payload_len_bound buffer) as Hb. set (full := Z.to_nat (9 + http2_frame_payload_len buffer)).
  destruct (IH (drop full buffer)) as (raws & rest & E & Hr & Hrest); [rewrite length_drop; unfold full; lia|].
  exists (take full buffer :: raws), rest. split_and!; [|constructor; [|done]|done].
  - change (mjoin (take full buffer :: raws)) with (take full buffer ++ mjoin raws). by rewrite <- app_assoc, <- E, take_drop.
  - unfold whole_frame. rewrite payload_len_take by (unfold full; lia). rewrite length_take. unfold full. lia.
Qed.

Lemma whole_frame_head raw raw' more more' : whole_frame raw -> whole_frame raw' -> raw ++ more = raw' ++ more' -> raw = raw' /\ more = more'.
Proof.
  intros [Hl Hp] [Hl' Hp'] E. apply app_inj_1 in E; [done|]. apply (f_equal http2_frame_payload_len) in E. rewrite !payload_len_app in E by lia. lia.
Qed.

Lemma frames_prefix raws1 raws rest1 rest :
  Forall whole_frame raws1 -> Forall whole_frame raws -> partial_frame rest -> mjoin raws1 ++ rest1 = mjoin raws ++ rest ->
  exists raws2, raws = raws1 ++ raws2 /\ rest1 = mjoin raws2 ++ rest.
Proof.
  intros H1. revert raws. induction H1 as [|raw raws1 Hraw _ IH]; intros raws H2 Hp E; [by exists raws|].
  change (mjoin (raw :: raws1)) with (raw ++ mjoin raws1) in E. rewrite <- app_assoc in E. destruct H2 as [|raw' raws Hraw' H2].
  { cbn in E. exfalso. apply (whole_not_partial raw (mjoin raws1 ++ rest1)); [done | by rewrite E]. }
  change (mjoin (raw' :: raws)) with (raw' ++ mjoin raws) in E. rewrite <- app_assoc in E. apply whole_frame_head in E as [-> E]; [|done..].
  destruct (IH raws H2 Hp E) as (raws2 & -> & ->). by exists raws2.
Qed.

Section runs.
Context `{SecretCodecs} `{Hpack} `{IpNetworks}.
Variables (shared : SharedState) (now : Z).
Implicit Types (s : Http2State) (h : SecretsHandler) (r : Run).
Abbreviation act A := (stE Run SecretViolationAction A).
Abbreviation frame_step := (process_frame shared now).

(** The same run with another buffer and more output before. *)
Definition shift (buffer out : list byte) r : Run :=
  mkRun (h2_with_buffer (run_state r) (h2_preface_seen (run_state r)) buffer) (run_handler r) (out ++ run_output r).

(** Actions that neither read the buffer nor the output. *)
Definition framed {A} (m : act A) : Prop := forall buffer out r, m (shift buffer out r) = let '(r', a) := m r in (shift buffer out r', a).

Lemma framed_bind {A B} (m : act A) (k : A -> act B) : framed m -> (forall a, framed (k a)) -> framed (st_bind m k).
Proof.
  intros Hm Hk buffer out r. unfold st_bind. rewrite Hm. destruct (m r) as [r' [a|e]]; [apply Hk | done].
Qed.
Lemma framed_get {B} (k : Run -> act B) : (forall buffer out r, k (shift buffer out r) = k r) -> (forall r, framed (k r)) -> framed (st_bind st_get k).
Proof. intros Hk Hf buffer out r. unfold st_bind, st_get. rewrite Hk. apply Hf. Qed.
Lemma framed_ret {A} (a : A) : framed (st_ret a).
Proof. done. Qed.
Lemma framed_err {A} e : framed (A := A) (st_err e).
Proof. done. Qed.
Lemma framed_lift {A} (x : result SecretViolationAction A) : framed (st_lift x).
Proof. done. Qed.
Lemma framed_handler {A} (m : stE SecretsHandler SecretViolationAction A) : framed (on_run_handler m).
Proof. intros buffer out r. unfold on_run_handler. cbn. by destruct (m (run_handler r)). Qed.
Lemma framed_state f :
  (forall s buffer, f (h2_with_buffer s (h2_preface_seen s) buffer) = h2_with_buffer (f s) (h2_preface_seen (f s)) buffer) -> framed (on_state f).
Proof. intros Hf buffer out r. unfold on_state, st_put, shift. cbn. by rewrite Hf. Qed.
Lemma framed_emit bytes : framed (emit bytes).
Proof. intros buffer out r. unfold emit, st_put, shift. cbn. by rewrite app_assoc. Qed.
Lemma framed_if {A} (b : bool) (m m' : act A) : framed m -> framed m' -> framed (if b then m else m').
Proof. by destruct b. Qed.
Lemma framed_refuse {A} (x : result RecordedBlock A) : framed (or_refuse x).
Proof. destruct x; [apply framed_ret | apply framed_handler]. Qed.

Create HintDb framing.
#[local] Hint Resolve framed_ret framed_err framed_lift framed_handler framed_emit framed_refuse : framing.

Local Ltac framing :=
  repeat match goal with
  | |- forall _, _ => intro
  | |- framed (st_bind st_get _) => apply framed_get; [reflexivity|]
  | |- framed (st_bind _ _) => apply framed_bind
  | |- framed (if _ then _ else _) => apply framed_if
  | |- framed (on_state _) => apply framed_state; intros; repeat case_match; reflexivity
  | |- framed (match ?x with _ => _ end) => destruct x
  | |- framed _ => solve [eauto with framing]
  | |- framed _ => progress cbv zeta
  end.

Lemma accept_header_block_framed block : framed (accept_header_block block).
Proof. unfold accept_header_block. framing. Qed.
#[local] Hint Resolve accept_header_block_framed : framing.

Lemma finish_header_block_framed block : framed (finish_header_block shared now block).
Proof. unfold finish_header_block. framing. Qed.
#[local] Hint Resolve finish_header_block_framed : framing.

Lemma process_frame_framed raw : framed (frame_step raw).
Proof.
  unfold process_frame, process_headers_frame, process_continuation_frame, process_data_frame. framing.
Qed.

(** ** Frame by frame *)

Fixpoint run_frames (raws : list (list byte)) : act () :=
  match raws with
  | [] => st_ret ()
  | raw :: raws' =>
      let! _ := frame_step raw in
      run_frames raws'
  end.

Lemma run_frames_framed raws : framed (run_frames raws).
Proof. induction raws as [|raw raws IH]; [apply framed_ret|]. apply framed_bind; [apply process_frame_framed | done]. Qed.

Lemma run_frames_app raws raws' r : run_frames (raws ++ raws') r = (let! _ := run_frames raws in run_frames raws') r.
Proof.
  revert r. induction raws as [|raw raws IH]; intros r; [done|]. cbn [app run_frames]. unfold st_bind in *.
  destruct (frame_step raw r) as [r' [[]|]]; [apply IH | done].
Qed.

(** The same outcome; after an error the state of the connection is dropped. *)
Definition same_outcome {A} (x y : Run * result SecretViolationAction A) : Prop :=
  match x, y with
  | (r, Ok a), (r', Ok a') => r = r' /\ a = a'
  | (r, Err e), (r', Err e') => run_handler r = run_handler r' /\ e = e'
  | _, _ => False
  end.

Lemma same_outcome_refl {A} (x : Run * result SecretViolationAction A) : same_outcome x x.
Proof. by destruct x as [r [a|e]]. Qed.

Abbreviation rebuffer rest := (shift rest []).

Lemma shift_shift b b' o r : shift b o (shift b' [] r) = shift b o r.
Proof. done. Qed.

Lemma process_frames_run raws rest fuel r :
  Forall whole_frame raws -> partial_frame rest -> (length (mjoin raws ++ rest) < fuel)%nat ->
  same_outcome (process_frames shared now fuel (rebuffer (mjoin raws ++ rest) r))
    (let '(r', a) := run_frames raws r in (rebuffer rest r', a)).
Proof.
  intros Hr Hp. revert fuel r. induction Hr as [|raw raws Hraw _ IH]; intros fuel r Hf; (destruct fuel as [|fuel]; [lia|]); cbn [process_frames run_frames].
  - cbn [mjoin list_join app]. unfold st_bind, st_get. cbn [shift run_state h2_buffer h2_with_buffer].
    destruct (Z.ltb_spec (zlen rest) 9); [done|]. rewrite payload_len_take by lia.
    pose proof (payload_len_bound rest) as Hb. destruct (Z.ltb_spec MAX_HTTP2_FRAME_PAYLOAD_BYTES (http2_frame_payload_len rest)); [lia|].
    destruct Hp as [?|Hp]; [lia|]. by destruct (Z.ltb_spec (zlen rest) (9 + http2_frame_payload_len rest)); [|lia].
  - change (mjoin (raw :: raws)) with (raw ++ mjoin raws) in *. rewrite <- app_assoc in *. set (more := mjoin raws ++ rest) in *.
    pose proof Hraw as [Hl Hpl]. unfold st_bind, st_get. cbn [shift run_state h2_buffer h2_with_buffer].
    assert (http2_frame_payload_len (raw ++ more) = http2_frame_payload_len raw) as Hpa by (apply payload_len_app; lia).
    rewrite payload_len_take, Hpa by lia. pose proof (payload_len_bound raw) as Hb. rewrite length_app.
    destruct (Z.ltb_spec (Z.of_nat (length raw + length more)) 9); [lia|].
    destruct (Z.ltb_spec MAX_HTTP2_FRAME_PAYLOAD_BYTES (http2_frame_payload_len raw)); [lia|].
    destruct (Z.ltb_spec (Z.of_nat (length raw + length more)) (9 + http2_frame_payload_len raw)); [lia|].
    replace (Z.to_nat (9 + http2_frame_payload_len raw)) with (length raw) by lia. rewrite take_app_length, drop_app_length.
    unfold on_state, st_put. change (mkRun _ (run_handler (rebuffer (raw ++ more) r)) _) with (rebuffer more r).
    rewrite process_frame_framed. destruct (frame_step raw r) as [r' [[]|]]; [|done].
    apply IH. rewrite length_app in Hf. lia.
Qed.

(** ** What a frame leaves alone *)

Section keeps.
Variable R : Run -> Run -> Prop.
Context `{!Reflexive R} `{!Transitive R}.

(** Every run of [m] is a step of [R]. *)
Definition keeps {A} (m : act A) : Prop := forall r, R r (fst (m r)).

Lemma keeps_bind {A B} (m : act A) (k : A -> act B) : keeps m -> (forall a, keeps (k a)) -> keeps (st_bind m k).
Proof.
  intros Hm Hk r. unfold st_bind. specialize (Hm r). destruct (m r) as [r' [a|e]]; [|done]. cbn in Hm. etransitivity; [exact Hm | apply Hk].
Qed.
Lemma keeps_get {B} (k : Run -> act B) : (forall r, keeps (k r)) -> keeps (st_bind st_get k).
Proof. intros Hk r. apply Hk. Qed.
Lemma keeps_ret {A} (a : A) : keeps (st_ret a).
Proof. intros r. done. Qed.
Lemma keeps_err {A} e : keeps (A := A) (st_err e).
Proof. intros r. done. Qed.
Lemma keeps_lift {A} (x : result SecretViolationAction A) : keeps (st_lift x).
Proof. intros r. done. Qed.
Lemma keeps_if {A} (b : bool) (m m' : act A) : keeps m -> keeps m' -> keeps (if b then m else m').
Proof. by destruct b. Qed.
End keeps.

Definition same_handler r r' : Prop :=
  conn (run_handler r') = conn (run_handler r) /\ http2_state (run_handler r') = http2_state (run_handler r)
  /\ h2_preface_seen (run_state r') = h2_preface_seen (run_state r).

#[local] Instance same_handler_refl : Reflexive same_handler.
Proof. done. Qed.
#[local] Instance same_handler_trans : Transitive same_handler.
Proof. intros r1 r2 r3 (E1 & E2 & E3) (E4 & E5 & E6). split_and!; congruence. Qed.

Lemma keeps_state f : (forall s, h2_preface_seen (f s) = h2_preface_seen s) -> keeps same_handler (on_state f).
Proof. intros Hf r. by split_and!; [| |apply Hf]. Qed.
Lemma keeps_emit bytes : keeps same_handler (emit bytes).
Proof. done. Qed.
Lemma keeps_apply report : keeps same_handler (on_run_handler (apply_blocking_action report)).
Proof.
  intros r. destruct report as [rep|]; [|done]. unfold same_handler, on_run_handler, apply_blocking_action, st_bind, st_put, st_err, record_denial. cbn.
  by destruct (reporting _).
Qed.
Lemma keeps_refuse {A} block : keeps same_handler (on_run_handler (refuse (A := A) block)).
Proof.
  intros r. unfold same_handler, on_run_handler, refuse, st_bind, st_put, st_err, record_denial. cbn. by destruct (reporting _).
Qed.
Lemma keeps_or_refuse {A} (x : result RecordedBlock A) : keeps same_handler (or_refuse x).
Proof. destruct x; [done | apply keeps_refuse]. Qed.

#[local] Hint Resolve keeps_ret keeps_err keeps_lift keeps_emit keeps_apply keeps_refuse keeps_or_refuse
  same_handler_refl same_handler_trans : framing.

Local Ltac keeping :=
  repeat match goal with
  | |- forall _, _ => intro
  | |- keeps _ (st_bind st_get _) => apply keeps_get
  | |- keeps _ (st_bind _ _) => apply keeps_bind; [apply _|..]
  | |- keeps _ (if _ then _ else _) => apply keeps_if
  | |- keeps _ (on_state _) => apply keeps_state; intros; repeat case_match; reflexivity
  | |- keeps _ (match ?x with _ => _ end) => destruct x
  | |- keeps _ _ => solve [eauto with framing]
  | |- keeps _ _ => progress cbv zeta
  end.

Lemma process_frame_keeps raw : keeps same_handler (frame_step raw).
Proof.
  unfold process_frame, process_headers_frame, process_continuation_frame, process_data_frame, finish_header_block, accept_header_block. keeping.
Qed.

Lemma run_frames_keeps raws : keeps same_handler (run_frames raws).
Proof. induction raws as [|raw raws IH]; [by apply keeps_ret, _|]. apply keeps_bind; [apply _ | apply process_frame_keeps | done]. Qed.

(** ** Read by read *)

Fixpoint http2_reads (reads : list (list byte)) : stE SecretsHandler SecretViolationAction (list byte) :=
  match reads with
  | [] => st_ret []
  | data :: reads' =>
      let! output := substitute_http2 shared now data in
      let! output' := http2_reads reads' in
      st_ret (output ++ output')
  end.

(** The handler once the preface is through, its output included. *)
Definition http2_started h : Run := mkRun (h2_with_buffer http2_default true []) (with_http2 h None) HTTP2_PREFACE.

(** The handler after a run that leaves [rest] in the buffer. *)
Definition settled (rest : list byte) r : SecretsHandler := with_http2 (run_handler r) (Some (run_state (rebuffer rest r))).
Definition finish_run (rest : list byte) (x : Run * result SecretViolationAction ()) : SecretsHandler * result SecretViolationAction (list byte) :=
  match x with
  | (r, Ok _) => (settled rest r, Ok (run_output r))
  | (r, Err e) => (run_handler r, Err e)
  end.

Lemma with_http2_None h : http2_state h = None -> with_http2 h None = h.
Proof. destruct h. cbn. by intros ->. Qed.

(** A read after the preface: the frames it completes. *)
Lemma substitute_seen r b data raws rest :
  h2_preface_seen (run_state r) = true -> http2_state (run_handler r) = None -> run_output r = [] ->
  Forall whole_frame raws -> partial_frame rest -> b ++ data = mjoin raws ++ rest ->
  substitute_http2 shared now data (settled b r) = finish_run rest (run_frames raws r).
Proof.
  intros Hseen Hnone Hout Hraws Hrest E. unfold substitute_http2, settled. cbn [http2_state with_http2 default].
  change (with_http2 (with_http2 (run_handler r) _) None) with (with_http2 (run_handler r) None). rewrite with_http2_None by done.
  unfold http2_process, st_bind at 1, on_state, st_put. cbn [run_state run_handler run_output]. unfold process_preface.
  unfold st_bind, st_get. cbn [run_state h2_with_buffer h2_preface_seen shift h2_buffer]. rewrite Hseen. cbn [id h2_with_buffer h2_preface_seen h2_buffer st_ret].
  unfold st_ret at 1. cbn [negb run_state h2_buffer].
  rewrite E. pose proof (process_frames_run raws rest (S (length (mjoin raws ++ rest))) r Hraws Hrest ltac:(lia)) as Hrun.
  unfold shift at 1 in Hrun. rewrite Hseen, Hout in Hrun. cbn [app] in Hrun.
  match goal with |- (let '(_, _) := process_frames _ _ _ ?x in _) = _ =>
    replace x with (mkRun (h2_with_buffer (run_state r) true (mjoin raws ++ rest)) (run_handler r) []) by done end.
  destruct (process_frames _ _ _ _) as [r1 [[]|e]], (run_frames raws r) as [r2 [[]|e2]]; cbn in Hrun; try done.
  - by destruct Hrun as [-> _].
  - by destruct Hrun as [-> ->].
Qed.

(** The reads after one that ran [raws1]. *)
Lemma reads_step reads data h r rest1 rest raws1 raws2 :
  h2_preface_seen (run_state r) = true -> http2_state (run_handler r) = None ->
  substitute_http2 shared now data h = finish_run rest1 (run_frames raws1 r) ->
  (forall r', h2_preface_seen (run_state r') = true -> http2_state (run_handler r') = None -> run_output r' = [] ->
     http2_reads reads (settled rest1 r') = finish_run rest (run_frames raws2 r')) ->
  http2_reads (data :: reads) h = finish_run rest (run_frames (raws1 ++ raws2) r).
Proof.
  intros Hseen Hnone Hsub Hreads. cbn [http2_reads]. unfold st_bind at 1. rewrite Hsub, run_frames_app. unfold st_bind at 2.
  pose proof (run_frames_keeps raws1 r) as (_ & Hst & Hpre). destruct (run_frames raws1 r) as [r1 [[]|e]]; [|done]. cbn [fst finish_run] in *.
  set (r1' := mkRun (run_state r1) (run_handler r1) []). change (settled rest1 r1) with (settled rest1 r1').
  unfold st_bind. rewrite (Hreads r1'); [|cbn; congruence | cbn; congruence | done].
  assert (r1 = shift (h2_buffer (run_state r1)) (run_output r1) r1') as Er1.
  { unfold shift, r1'. cbn. rewrite app_nil_r. by destruct r1 as [[] ? ?]. }
  replace (run_frames raws2 r1) with (run_frames raws2 (shift (h2_buffer (run_state r1)) (run_output r1) r1')) by (by rewrite <- Er1).
  rewrite run_frames_framed. by destruct (run_frames raws2 r1') as [r2 [[]|e]].
Qed.

Lemma reads_seen reads r b raws rest :
  h2_preface_seen (run_state r) = true -> http2_state (run_handler r) = None -> run_output r = [] -> partial_frame b ->
  Forall whole_frame raws -> partial_frame rest -> b ++ mjoin reads = mjoin raws ++ rest ->
  http2_reads reads (settled b r) = finish_run rest (run_frames raws r).
Proof.
  revert r b raws. induction reads as [|data reads IH]; intros r b raws Hseen Hnone Hout Hb Hraws Hrest E.
  - cbn in E. rewrite app_nil_r in E. destruct Hraws as [|raw raws Hraw _].
    + cbn in E. subst b. cbn. by rewrite Hout.
    + exfalso. apply (whole_not_partial raw (mjoin raws ++ rest) Hraw). change (mjoin (raw :: raws)) with (raw ++ mjoin raws) in E.
      rewrite <- app_assoc in E. by rewrite <- E.
  - change (mjoin (data :: reads)) with (data ++ mjoin reads) in E. rewrite app_assoc in E.
    destruct (frames_split (length (b ++ data)) (b ++ data) ltac:(lia)) as (raws1 & rest1 & E1 & Hraws1 & Hrest1).
    rewrite E1, <- app_assoc in E. destruct (frames_prefix _ _ _ _ Hraws1 Hraws Hrest E) as (raws2 & -> & E2).
    apply Forall_app in Hraws as [_ Hraws2]. apply (reads_step reads data _ r rest1); [done | done | by apply substitute_seen|].
    intros r' Hs' Hn' Ho'. by apply IH.
Qed.

(** A read that does not complete the preface is kept. *)
Lemma substitute_unseen h b data :
  http2_state h = None -> (length (b ++ data) < length HTTP2_PREFACE)%nat ->
  substitute_http2 shared now data (with_http2 h (Some (h2_with_buffer http2_default false b)))
  = (with_http2 h (Some (h2_with_buffer http2_default false (b ++ data))), Ok []).
Proof.
  intros Hh Hl. unfold substitute_http2, http2_process, on_state, st_put, process_preface, st_bind, st_get.
  cbn [http2_state with_http2 default run_state h2_preface_seen h2_with_buffer h2_buffer from_option id].
  destruct (Nat.ltb_spec (length (b ++ data)) (length HTTP2_PREFACE)); [done | lia].
Qed.

(** The read that completes the preface. *)
Lemma substitute_preface h b data raws rest :
  http2_state h = None -> (length b < length HTTP2_PREFACE)%nat -> b ++ data = HTTP2_PREFACE ++ mjoin raws ++ rest ->
  Forall whole_frame raws -> partial_frame rest ->
  substitute_http2 shared now data (with_http2 h (Some (h2_with_buffer http2_default false b)))
  = finish_run rest (run_frames raws (http2_started h)).
Proof.
  intros Hh Hb E Hraws Hrest. unfold substitute_http2, http2_process, on_state, st_put, process_preface, st_bind, st_get, emit, st_put.
  cbn [http2_state with_http2 default run_state h2_preface_seen h2_with_buffer h2_buffer from_option id]. rewrite E.
  destruct (Nat.ltb_spec (length (HTTP2_PREFACE ++ mjoin raws ++ rest)) (length HTTP2_PREFACE)) as [Hl|_]; [rewrite length_app in Hl; lia|].
  rewrite (proj2 (bytes_starts_with_iff _ HTTP2_PREFACE)) by (by eexists). cbn [negb run_state run_handler run_output h2_buffer h2_with_buffer st_ret].
  unfold st_ret at 1, on_state, st_put. cbn [negb run_state h2_buffer h2_with_buffer]. rewrite drop_app_length.
  pose proof (process_frames_run raws rest (S (length (mjoin raws ++ rest))) (http2_started h) Hraws Hrest ltac:(lia)) as Hrun.
  match goal with |- match process_frames _ _ _ ?x with _ => _ end = _ => replace x with (rebuffer (mjoin raws ++ rest) (http2_started h)) by done end.
  destruct (process_frames _ _ _ _) as [r1 [[]|e]], (run_frames raws _) as [r2 [[]|e2]]; cbn in Hrun; try done.
  - by destruct Hrun as [-> _].
  - by destruct Hrun as [-> ->].
Qed.

Lemma reads_unseen reads h b raws rest :
  http2_state h = None -> (length b < length HTTP2_PREFACE)%nat -> b ++ mjoin reads = HTTP2_PREFACE ++ mjoin raws ++ rest ->
  Forall whole_frame raws -> partial_frame rest ->
  http2_reads reads (with_http2 h (Some (h2_with_buffer http2_default false b))) = finish_run rest (run_frames raws (http2_started h)).
Proof.
  intros Hh. revert b. induction reads as [|data reads IH]; intros b Hb E Hraws Hrest.
  { apply (f_equal length) in E. rewrite !length_app in E. change (length (mjoin [])) with 0%nat in E. lia. }
  change (mjoin (data :: reads)) with (data ++ mjoin reads) in E. rewrite app_assoc in E.
  destruct (decide (length (b ++ data) < length HTTP2_PREFACE)%nat) as [Hl|Hl].
  - cbn [http2_reads]. unfold st_bind at 1. rewrite substitute_unseen by done. unfold st_bind. rewrite IH by done.
    by destruct (finish_run rest _) as [h' [o|]].
  - assert (exists x, b ++ data = HTTP2_PREFACE ++ x) as [x Ex].
    { exists (drop (length HTTP2_PREFACE) (b ++ data)). apply (f_equal (take (length HTTP2_PREFACE))) in E.
      rewrite take_app_le, take_app_length in E by lia. rewrite <- E at 1. by rewrite take_drop. }
    rewrite Ex, <- app_assoc in E. apply app_inv_head in E.
    destruct (frames_split (length x) x ltac:(lia)) as (raws1 & rest1 & -> & Hraws1 & Hrest1).
    rewrite <- app_assoc in E. destruct (frames_prefix _ _ _ _ Hraws1 Hraws Hrest E) as (raws2 & -> & E2).
    apply Forall_app in Hraws as [_ Hraws2]. apply (reads_step reads data _ (http2_started h) rest1); [done | done | by apply substitute_preface|].
    intros r' Hs' Hn' Ho'. by apply reads_seen.
Qed.

(** C11: An HTTP/2 connection is handled frame by frame, however its bytes are
    cut into reads: the reads together do what processing its whole frames in
    turn does, the preface is forwarded first, and the unfinished frame waits in
    the buffer. *)
Theorem http2_reads_exact h reads raws rest :
  http2_state h = None -> Forall whole_frame raws -> partial_frame rest -> mjoin reads = HTTP2_PREFACE ++ mjoin raws ++ rest ->
  http2_reads reads h = finish_run rest (run_frames raws (http2_started h)).
Proof.
  intros Hh Hraws Hrest E. destruct reads as [|data reads]; [done|].
  replace (http2_reads (data :: reads) h) with (http2_reads (data :: reads) (with_http2 h (Some (h2_with_buffer http2_default false [])))).
  - apply reads_unseen; try done. by vm_compute; lia.
  - cbn [http2_reads]. unfold st_bind, substitute_http2. rewrite Hh. by cbn [http2_state with_http2].
Qed.

(** ** The streams a connection tracks *)

Record http2_wf s : Prop := {
  wf_highest : 0 <= h2_highest_client_stream_id s < 2 ^ 31;
  wf_open : forall id, id ∈ h2_open_request_streams s -> Z.odd id = true /\ 0 < id <= h2_highest_client_stream_id s;
  wf_count : Z.of_nat (size (h2_open_request_streams s)) <= MAX_HTTP2_TRACKED_STREAMS;
  wf_tails : dom (h2_data_tails s) ⊆ h2_open_request_streams s;
  wf_summaries : dom (h2_request_summaries s) ⊆ h2_open_request_streams s;
  wf_block : forall block, h2_header_block s = Some block ->
    Z.odd (hb_stream_id block) = true /\ 0 < hb_stream_id block < 2 ^ 31 /\ zlen (hb_block block) <= MAX_HTTP2_HEADER_BLOCK_BYTES
}.

Lemma http2_wf_started h : http2_wf (run_state (http2_started h)).
Proof. by split. Qed.

(** Triples on the connection's state, for runs that succeed. *)
Definition triple {A} (P : Http2State -> Prop) (m : act A) (Q : A -> Http2State -> Prop) : Prop :=
  forall r r' a, P (run_state r) -> m r = (r', Ok a) -> Q a (run_state r').

Lemma triple_bind {A B} P (m : act A) Q (k : A -> act B) T : triple P m Q -> (forall a, triple (Q a) (k a) T) -> triple P (st_bind m k) T.
Proof.
  intros Hm Hk r r' b Hp. unfold st_bind. destruct (m r) as [r1 [a|]] eqn:Em; [|done]. intros E. eapply Hk; [|exact E]. by eapply Hm.
Qed.
Lemma triple_get {B} P (k : Run -> act B) T :
  (forall r0, P (run_state r0) -> triple (fun s => s = run_state r0) (k r0) T) -> triple P (st_bind st_get k) T.
Proof. intros Hk r r' b Hp E. by eapply (Hk r). Qed.
Lemma triple_err {A} P e Q : triple (A := A) P (st_err e) Q.
Proof. by intros r r' a _. Qed.
Lemma triple_state P f (Q : () -> Http2State -> Prop) : (forall s, P s -> Q () (f s)) -> triple P (on_state f) Q.
Proof. intros Hf r r' [] Hp [= <-]. by apply Hf. Qed.
Lemma triple_if {A} (b : bool) P (m m' : act A) Q : (b = true -> triple P m Q) -> (b = false -> triple P m' Q) -> triple P (if b then m else m') Q.
Proof. destruct b; auto. Qed.
Lemma triple_weaken {A} (P P' : Http2State -> Prop) (m : act A) Q : (forall s, P s -> P' s) -> triple P' m Q -> triple P m Q.
Proof. intros Hw Hm r r' a Hp. apply Hm. by apply Hw. Qed.

(** Actions that do not touch the state. *)
Definition stateless {A} (m : act A) : Prop := forall r, run_state (fst (m r)) = run_state r.

Lemma triple_stateless {A} P (m : act A) : stateless m -> triple P m (fun _ => P).
Proof. intros Hm r r' a Hp E. specialize (Hm r). rewrite E in Hm. cbn in Hm. by rewrite Hm. Qed.
Lemma stateless_ret {A} (a : A) : stateless (st_ret a).
Proof. done. Qed.
Lemma stateless_lift {A} (x : result SecretViolationAction A) : stateless (st_lift x).
Proof. done. Qed.
Lemma stateless_handler {A} (m : stE SecretsHandler SecretViolationAction A) : stateless (on_run_handler m).
Proof. intros r. unfold on_run_handler. by destruct (m (run_handler r)). Qed.
Lemma stateless_emit bytes : stateless (emit bytes).
Proof. done. Qed.
Lemma stateless_refuse {A} (x : result RecordedBlock A) : stateless (or_refuse x).
Proof. destruct x; [apply stateless_ret | apply stateless_handler]. Qed.
Lemma stateless_bind {A B} (m : act A) (k : A -> act B) : stateless m -> (forall a, stateless (k a)) -> stateless (st_bind m k).
Proof. intros Hm Hk r. unfold st_bind. specialize (Hm r). destruct (m r) as [r1 [a|]]; [|done]. cbn in Hm. by rewrite (Hk a r1), Hm. Qed.

(** The state changes of the frames keep the invariant. *)
Lemma wf_codec s d e : http2_wf s -> http2_wf (h2_with_codec s d e).
Proof. by intros []. Qed.

Lemma wf_with_block s block :
  http2_wf s -> (forall b, block = Some b -> Z.odd (hb_stream_id b) = true /\ 0 < hb_stream_id b < 2 ^ 31 /\ zlen (hb_block b) <= MAX_HTTP2_HEADER_BLOCK_BYTES) ->
  http2_wf (h2_with_block s block).
Proof. intros [] Hb. by split. Qed.

Lemma wf_stream s id :
  http2_wf s -> Z.odd id = true -> h2_highest_client_stream_id s < id < 2 ^ 31 -> Z.of_nat (size (h2_open_request_streams s)) < MAX_HTTP2_TRACKED_STREAMS ->
  http2_wf (h2_with_stream s id).
Proof.
  intros [Hh Ho Hc Ht Hs Hb] Hodd Hid Hlt. split; cbn; try done; [lia | | | set_solver | set_solver].
  - intros id' [->%elem_of_singleton|Hin]%elem_of_union; [split; [done | lia]|]. destruct (Ho id' Hin). split; [done | lia].
  - rewrite size_union; [rewrite size_singleton; lia|]. intros x ->%elem_of_singleton Hin. apply Ho in Hin. lia.
Qed.

Lemma wf_tail s id v : http2_wf s -> id ∈ h2_open_request_streams s -> http2_wf (h2_with_tail s id v).
Proof. intros [Hh Ho Hc Ht Hs Hb] Hid. split; cbn; try done. rewrite dom_insert_L. set_solver. Qed.

Lemma wf_summary s id v : http2_wf s -> id ∈ h2_open_request_streams s -> http2_wf (h2_with_summary s id v).
Proof. intros [Hh Ho Hc Ht Hs Hb] Hid. split; cbn; try done. rewrite dom_insert_L. set_solver. Qed.

Lemma wf_close s id : http2_wf s -> http2_wf (h2_close s id).
Proof.
  intros [Hh Ho Hc Ht Hs Hb]. split; cbn; try done.
  - intros x Hx. apply Ho. set_solver.
  - pose proof (subseteq_size (h2_open_request_streams s ∖ {[id]}) (h2_open_request_streams s) ltac:(set_solver)). lia.
  - rewrite dom_delete_L. set_solver.
  - rewrite dom_delete_L. set_solver.
Qed.

(** A block to finish: of an odd stream, within the limit. *)
Definition block_ok (block : Http2HeaderBlock) : Prop := Z.odd (hb_stream_id block) = true /\ 0 < hb_stream_id block < 2 ^ 31.

Lemma accept_header_block_wf block :
  block_ok block -> triple http2_wf (accept_header_block block) (fun _ s => http2_wf s /\ hb_stream_id block ∈ h2_open_request_streams s).
Proof.
  intros [Hodd Hid]. apply triple_get. intros r0 Hwf. cbv zeta. apply triple_if; intros Hb.
  - apply bool_decide_eq_true in Hb. apply triple_if; intros _; [apply triple_err|].
    intros r r' a E [= <- _]. by rewrite E.
  - apply triple_if; intros Hle; [apply triple_err|]. apply triple_if; intros Hct; [apply triple_err|].
    apply Z.leb_gt in Hle, Hct. eapply triple_bind.
    + apply (triple_state _ _ (fun _ s => http2_wf s /\ hb_stream_id block ∈ h2_open_request_streams s)). intros s ->. split; [apply wf_stream; try done; lia|].
      cbn. set_solver.
    + intros ?. apply triple_stateless, stateless_ret.
Qed.

(** What follows the admission of a block does not touch the streams until the
    end. *)
Lemma finish_header_block_wf block : block_ok block -> triple http2_wf (finish_header_block shared now block) (fun _ => http2_wf).
Proof.
  intros Hok. unfold finish_header_block. cbv zeta. apply triple_get. intros r0 Hwf0. apply (triple_weaken _ http2_wf); [by intros s ->|]. clear Hwf0.
  eapply triple_bind with (Q := fun _ => http2_wf).
  { destruct (decode_headers _ _) as [[decoder headers]|[]]; [|apply triple_err | apply triple_stateless, stateless_handler].
    eapply triple_bind; [apply (triple_state _ _ (fun _ => http2_wf)); intros s; apply wf_codec|]. intros ?. apply triple_stateless, stateless_ret. }
  intros headers. set (P := fun s => http2_wf s /\ hb_stream_id block ∈ h2_open_request_streams s).
  eapply triple_bind; [by apply accept_header_block_wf|]. intros initial. fold P.
  eapply triple_bind with (Q := fun _ => P); [apply triple_stateless; destruct (http_authority _); [apply stateless_refuse | apply stateless_ret]|]. intros _.
  eapply triple_bind with (Q := fun _ => P); [apply triple_stateless, stateless_lift|]. intros fields.
  eapply triple_bind with (Q := fun _ => P).
  { apply triple_stateless. destruct initial; [|apply stateless_bind; [apply stateless_handler | intros; apply stateless_ret]].
    apply stateless_bind; [apply stateless_handler|]. intros _. destruct fields; [|apply stateless_ret].
    apply stateless_bind; [apply stateless_refuse | intros; apply stateless_ret]. }
  intros headers'. apply triple_get. intros r1 HP. apply (triple_weaken _ P); [by intros s ->|].
  eapply triple_bind with (Q := fun _ => P); [apply triple_stateless, stateless_lift|]. intros [encoder encoded].
  eapply triple_bind with (Q := fun _ => P); [apply triple_state; intros s [Hwf Hin]; split; [by apply wf_codec | done]|]. intros _.
  eapply triple_bind with (Q := fun _ => P); [apply triple_stateless, stateless_lift|]. intros frames.
  eapply triple_bind with (Q := fun _ => P); [apply triple_stateless, stateless_emit|]. intros _.
  apply triple_state. intros s [Hwf Hin]. destruct (hb_end_stream block); [by apply wf_close | by apply wf_summary].
Qed.

Lemma parse_frame_id raw frame : parse_http2_frame raw = Ok frame -> 0 <= fr_stream_id frame < 2 ^ 31.
Proof.
  unfold parse_http2_frame. intros E. repeat case_match; simplify_eq. cbn. change 0x7fffffff with (Z.ones 31). rewrite Z.land_ones by lia.
  apply Z.mod_pos_bound. lia.
Qed.

Lemma odd_mod2 n : Z.odd n = negb (n `mod` 2 =? 0).
Proof. rewrite Zmod_odd. by destruct (Z.odd n). Qed.

Lemma headers_frame_wf frame : 0 <= fr_stream_id frame < 2 ^ 31 -> triple http2_wf (process_headers_frame shared now frame) (fun _ => http2_wf).
Proof.
  intros Hid. apply triple_get. intros r0 Hwf. apply (triple_weaken _ http2_wf); [by intros s ->|]. clear Hwf. cbv zeta.
  apply triple_if; intros Hg; [apply triple_err|]. rewrite !orb_false_iff in Hg. destruct Hg as [[Hz Hodd] _]. apply Z.eqb_neq in Hz.
  assert (Z.odd (fr_stream_id frame) = true) as Ho by (by rewrite odd_mod2, Hodd).
  eapply triple_bind; [apply triple_stateless, stateless_lift|]. intros fragment. apply triple_if; intros Hl; [apply triple_err|].
  apply Z.ltb_ge in Hl. apply triple_if; intros _; [apply finish_header_block_wf; split; cbn; [done | lia]|].
  apply triple_state. intros s Hs. apply wf_with_block; [done|]. intros b [= <-]. cbn. split_and!; [done | lia | lia | done].
Qed.

Lemma continuation_frame_wf frame : triple http2_wf (process_continuation_frame shared now frame) (fun _ => http2_wf).
Proof.
  apply triple_get. intros r0 Hwf. destruct (h2_header_block (run_state r0)) as [block|] eqn:Hblk; [|apply triple_err].
  destruct (wf_block _ Hwf block Hblk) as (Hodd & Hid & _). apply (triple_weaken _ http2_wf); [by intros s ->|]. clear Hwf.
  eapply triple_bind with (Q := fun _ => http2_wf); [apply triple_state; intros s Hs; by apply wf_with_block|]. intros _. cbv zeta.
  apply triple_if; intros _; [apply triple_err|]. cbn [hb_block]. apply triple_if; intros Hl; [apply triple_err|]. apply Z.ltb_ge in Hl.
  apply triple_if; intros _; [by apply finish_header_block_wf|].
  apply triple_state. intros s Hs. apply wf_with_block; [done|]. by intros b [= <-].
Qed.

Lemma data_frame_wf frame : triple http2_wf (process_data_frame frame) (fun _ => http2_wf).
Proof.
  unfold process_data_frame. cbv zeta. apply triple_get. intros r0 Hwf. apply triple_if; intros Hg; [apply triple_err|].
  apply orb_false_iff in Hg as [_ Hin%negb_false_iff%bool_decide_eq_true].
  set (P := fun s => http2_wf s /\ h2_open_request_streams s = h2_open_request_streams (run_state r0)).
  apply (triple_weaken _ P); [by intros s ->|]. eapply triple_bind with (Q := fun _ => P); [apply triple_stateless, stateless_lift|]. intros data.
  apply triple_if; intros _; [apply triple_err|].
  eapply triple_bind with (Q := fun _ => P); [apply triple_stateless, stateless_handler|]. intros _.
  eapply triple_bind with (Q := fun _ => http2_wf); [apply triple_state; intros s [Hs Eo]; apply wf_tail; [done | by rewrite Eo]|]. intros _.
  eapply triple_bind with (Q := fun _ => http2_wf); [|intros _; apply triple_stateless, stateless_emit].
  apply triple_state. intros s Hs. destruct (flag_set _ _); [by apply wf_close | done].
Qed.

Lemma process_frame_wf raw : triple http2_wf (frame_step raw) (fun _ => http2_wf).
Proof.
  unfold process_frame. destruct (parse_http2_frame raw) as [frame|] eqn:Hp; [|intros r r' a _; by unfold st_bind, st_lift].
  apply parse_frame_id in Hp. apply (triple_bind _ _ (fun frame' s => http2_wf s /\ frame' = frame)); [by intros r r' a Hwf [= <- <-]|].
  intros frame'. apply triple_get. intros r0 [Hwf ->]. apply (triple_weaken _ http2_wf); [by intros s ->|]. clear Hwf.
  repeat (apply triple_if; intros _; [first [apply triple_err | by apply headers_frame_wf | apply continuation_frame_wf | apply data_frame_wf]|]).
  apply triple_stateless, stateless_emit.
Qed.

(** The streams an HTTP/2 connection tracks stay well formed, frame after
    frame: open streams are odd and at most the highest seen, never more than
    1024, only open streams have a tail or a summary, and a header block under
    construction belongs to a client stream and stays within its limit. *)
Lemma http2_streams_wf h raws r :
  run_frames raws (http2_started h) = (r, Ok ()) -> http2_wf (run_state r).
Proof.
  pose proof (http2_wf_started h) as Hwf. revert Hwf. generalize (http2_started h) as r0. induction raws as [|raw raws IH]; intros r0 Hwf; [by intros [= <-]|].
  cbn [run_frames]. unfold st_bind. destruct (frame_step raw r0) as [r1 [[]|]] eqn:Hf; [|done]. apply IH. by eapply process_frame_wf.
Qed.

(** ** DATA *)

(** The DATA a frame carries for the stream. *)
Definition frame_data (id : Z) (raw : list byte) : list byte :=
  match parse_http2_frame raw with
  | Ok frame =>
      if (fr_kind frame =? HTTP2_FRAME_DATA) && (fr_stream_id frame =? id) then
        match http2_data_payload (fr_flags frame) (fr_payload frame) with Ok data => data | Err _ => [] end
      else []
  | Err _ => []
  end.
Definition stream_data (id : Z) (raws : list (list byte)) : list byte := mjoin (map (frame_data id) raws).

(** Header frames only open streams beyond the highest one, and close streams. *)
Definition streams_change s s' : Prop :=
  h2_highest_client_stream_id s <= h2_highest_client_stream_id s'
  /\ h2_data_tails s' ⊆ h2_data_tails s
  /\ forall id, id ∈ h2_open_request_streams s' ->
       (id ∈ h2_open_request_streams s /\ h2_data_tails s' !! id = h2_data_tails s !! id) \/ h2_highest_client_stream_id s < id.
Definition headers_change r r' : Prop := streams_change (run_state r) (run_state r').

#[local] Instance headers_change_refl : Reflexive headers_change.
Proof. intros r. split_and!; [lia | done | auto]. Qed.
#[local] Instance headers_change_trans : Transitive headers_change.
Proof.
  intros r1 r2 r3 (Hh1 & Ht1 & Ho1) (Hh2 & Ht2 & Ho2). split_and!; [lia | by etransitivity|]. intros id Hid.
  destruct (Ho2 id Hid) as [[Hin E2]|Hgt]; [|right; lia]. destruct (Ho1 id Hin) as [[Hin1 E1]|?]; [left; split; [done | congruence] | by right].
Qed.

Lemma keeps_stateless {A} (m : act A) : stateless m -> keeps headers_change m.
Proof. intros Hm r. unfold headers_change. rewrite Hm. by apply (headers_change_refl r). Qed.

Lemma keeps_streams f :
  (forall s, h2_highest_client_stream_id (f s) = h2_highest_client_stream_id s /\ h2_data_tails (f s) = h2_data_tails s
        /\ h2_open_request_streams (f s) = h2_open_request_streams s) -> keeps headers_change (on_state f).
Proof.
  intros Hf r. destruct (Hf (run_state r)) as (E1 & E2 & E3). unfold headers_change, streams_change. cbn. rewrite E1, E2, E3.
  by apply (headers_change_refl r).
Qed.

Lemma keeps_close (end_stream : bool) id summary :
  keeps headers_change (on_state (fun s => if end_stream then h2_close s id else h2_with_summary s id summary)).
Proof.
  destruct end_stream; [|by apply keeps_streams]. intros r. unfold headers_change, streams_change. cbn. split_and!; [lia | apply delete_subseteq|].
  intros x [Hx Hn]%elem_of_difference. left. split; [done|]. apply lookup_delete_ne. set_solver.
Qed.

Lemma keeps_accept block : keeps headers_change (accept_header_block block).
Proof.
  intros r. unfold accept_header_block, st_bind, st_get. case_bool_decide as Hin; [by destruct (negb _)|].
  destruct (Z.leb_spec (hb_stream_id block) (h2_highest_client_stream_id (run_state r))); [done|]. destruct (_ <=? _); [done|].
  unfold headers_change, streams_change. cbn. split_and!; [lia | done|]. intros id [->%elem_of_singleton|Hid]%elem_of_union; [by right | by left].
Qed.

#[local] Hint Resolve stateless_ret stateless_lift stateless_handler stateless_emit stateless_refuse keeps_close keeps_accept : framing.

Local Ltac changing :=
  repeat match goal with
  | |- forall _, _ => intro
  | |- keeps _ (st_bind st_get _) => apply keeps_get
  | |- keeps _ (st_bind _ _) => apply keeps_bind; [apply _|..]
  | |- keeps _ (on_state (fun _ => if _ then _ else _)) => apply keeps_close
  | |- keeps _ (on_state _) => apply keeps_streams; done
  | |- keeps _ (if _ then _ else _) => apply keeps_if
  | |- keeps _ (match ?x with _ => _ end) => destruct x
  | |- keeps _ (st_err _) => apply keeps_err; apply _
  | |- keeps _ _ => solve [auto with framing | apply keeps_stateless; auto with framing]
  | |- keeps _ _ => progress cbv zeta
  end.

Lemma finish_change block : keeps headers_change (finish_header_block shared now block).
Proof. unfold finish_header_block. changing. Qed.
#[local] Hint Resolve finish_change : framing.

Lemma headers_frame_change frame : keeps headers_change (process_headers_frame shared now frame).
Proof. unfold process_headers_frame. changing. Qed.
Lemma continuation_frame_change frame : keeps headers_change (process_continuation_frame shared now frame).
Proof. unfold process_continuation_frame. changing. Qed.

Lemma data_frame_Ok frame r r' :
  process_data_frame frame r = (r', Ok ()) ->
  let id := fr_stream_id frame in
  let c := conn (run_handler r) in
  let tail := default [] (h2_data_tails (run_state r) !! id) in
  id ∈ h2_open_request_streams (run_state r)
  /\ exists data, http2_data_payload (fr_flags frame) (fr_payload frame) = Ok data
    /\ contains_eligible_body_placeholder c tail data = false
    /\ detect_blocking_action_with_tail (ineligible_for_substitution c) tail data [] Http2 LocBody (Some id) = None
    /\ run_output r' = run_output r ++ fr_raw frame
    /\ run_state r' = (let s := h2_with_tail (run_state r) id (update_tail_buffer tail data (saturating_sub (max_detection_window_len c) 1)) in
                      if flag_set (fr_flags frame) HTTP2_FLAG_END_STREAM then h2_close s id else s).
Proof.
  intros E id c tail. unfold process_data_frame, st_bind at 1, st_get in E. fold id c tail in E. cbv zeta in E.
  destruct (_ || _) eqn:Hg in E; [done|]. apply orb_false_iff in Hg as [_ Hin%negb_false_iff%bool_decide_eq_true]. split; [done|].
  unfold st_bind at 1, st_lift in E. destruct (http2_data_payload _ _) as [data|] eqn:Hd; [|done]. exists data. split; [done|].
  destruct (contains_eligible_body_placeholder c tail data) eqn:Hel; [done|]. split; [done|].
  destruct (detect_blocking_action_with_tail _ _ _ _ _ _ _) as [rep|] eqn:Hdet.
  - exfalso. assert (exists rep', (match h2_request_summaries (run_state r) !! id with Some summary => Some (apply_request_summary rep summary) | None => Some rep end) = Some rep') as [rep' Hr].
    { destruct (h2_request_summaries (run_state r) !! id); by eexists. }
    unfold st_bind at 1 in E. rewrite Hr in E. unfold on_run_handler at 1 in E. by destruct (apply_blocking_Some rep' (run_handler r)) as (h' & e & Hb & _); rewrite Hb in E.
  - split; [done|]. unfold st_bind, on_run_handler, on_state, st_put, emit, st_put in E. cbn in E. injection E as <-. done.
Qed.

(** [seen] is what must not happen to the data of stream [id]; [Hstep] is how
    the tail of [W - 1] bytes carries it from frame to frame. *)
Section guard.
Variables (W : Z) (p : list byte) (seen ok : list byte -> Prop) (id : Z).
Hypothesis Hstep : forall stream tail data,
  ok (stream ++ data) -> tail_covers W p stream tail -> ~ seen stream -> ~ seen (tail ++ data) -> ~ seen (stream ++ data).

(** What the connection knows of the stream's data so far. *)
Definition guarded (data : list byte) s : Prop :=
  (id ∈ h2_open_request_streams s -> tail_covers W p data (default [] (h2_data_tails s !! id)))
  /\ (h2_highest_client_stream_id s < id -> data = [])
  /\ ~ seen data.

Lemma guarded_change data s s' : http2_wf s -> streams_change s s' -> guarded data s -> guarded data s'.
Proof.
  intros Hwf (Hh & Ht & Ho) (Hc & Hf & Hs). split_and!; [|intros; apply Hf; lia | done]. intros Hin.
  destruct (Ho id Hin) as [[Hold ->]|Hgt]; [by apply Hc|]. rewrite Hf by done.
  destruct (h2_data_tails s' !! id) as [tail|] eqn:Htail; [|apply tail_covers_nil]. exfalso.
  assert (id ∈ dom (h2_data_tails s)) as Hdom by (apply elem_of_dom; exists tail; by eapply lookup_weaken).
  apply (wf_tails _ Hwf) in Hdom. apply (wf_open _ Hwf) in Hdom. lia.
Qed.

Lemma guarded_data data data' s (close : bool) :
  ok (data ++ data') -> http2_wf s -> id ∈ h2_open_request_streams s -> guarded data s ->
  ~ seen (default [] (h2_data_tails s !! id) ++ data') ->
  let s1 := h2_with_tail s id (update_tail_buffer (default [] (h2_data_tails s !! id)) data' (saturating_sub W 1)) in
  guarded (data ++ data') (if close then h2_close s1 id else s1).
Proof.
  intros Hv Hwf Hin (Hc & Hf & Hs) Hnew s1. specialize (Hc Hin). destruct (wf_open _ Hwf id Hin) as [_ Hle].
  assert (~ seen (data ++ data')) as Hs' by (by apply (Hstep _ (default [] (h2_data_tails s !! id)))).
  assert (h2_highest_client_stream_id (if close then h2_close s1 id else s1) = h2_highest_client_stream_id s) as Ehigh by (by destruct close).
  split_and!; [|rewrite Ehigh; lia | done]. destruct close; cbn; [set_solver|]. intros _. rewrite lookup_insert_eq. cbn.
  apply tail_covers_update; [unfold saturating_sub; lia..|done].
Qed.

Lemma guarded_other data s (close : bool) id' v :
  id' <> id -> guarded data s -> guarded data (let s1 := h2_with_tail s id' v in if close then h2_close s1 id' else s1).
Proof.
  intros Hid (Hc & Hf & Hs). destruct close; cbn; split_and!; cbn; try done.
  - intros Hin. rewrite lookup_delete_ne, lookup_insert_ne by done. apply Hc. set_solver.
  - intros Hin. rewrite lookup_insert_ne by done. by apply Hc.
Qed.

(** One frame, whose DATA is checked behind the tail. *)
Lemma guarded_frame data raw r r' :
  http2_wf (run_state r) -> guarded data (run_state r) -> ok (data ++ frame_data id raw) -> max_detection_window_len (conn (run_handler r)) = W ->
  (forall tail d, contains_eligible_body_placeholder (conn (run_handler r)) tail d = false ->
     detect_blocking_action_with_tail (ineligible_for_substitution (conn (run_handler r))) tail d [] Http2 LocBody (Some id) = None -> ~ seen (tail ++ d)) ->
  frame_step raw r = (r', Ok ()) -> guarded (data ++ frame_data id raw) (run_state r').
Proof.
  intros Hwf Hg Hok HW Hdet. unfold process_frame, st_bind at 1, st_lift. unfold frame_data in *. destruct (parse_http2_frame raw) as [frame|]; [|done].
  unfold st_bind, st_get. destruct (_ && _) eqn:Hb in |- *; [done|]. clear Hb.
  assert (Hchange : forall m : act (), keeps headers_change m -> m r = (r', Ok ()) -> guarded (data ++ []) (run_state r')).
  { intros m Hm E. rewrite app_nil_r. specialize (Hm r). rewrite E in Hm. by eapply guarded_change. }
  destruct (Z.eqb_spec (fr_kind frame) HTTP2_FRAME_HEADERS) as [E|_].
  { rewrite E in *. cbn [Z.eqb andb]. apply Hchange, headers_frame_change. }
  destruct (Z.eqb_spec (fr_kind frame) HTTP2_FRAME_CONTINUATION) as [E|_].
  { rewrite E in *. cbn [Z.eqb andb]. apply Hchange, continuation_frame_change. }
  destruct (Z.eqb_spec (fr_kind frame) HTTP2_FRAME_DATA) as [E|_]; cbn [andb] in *.
  - intros (Hin & d & Hd & Hel & Hno & _ & ->)%data_frame_Ok. destruct (Z.eqb_spec (fr_stream_id frame) id) as [Eid|Hid].
    + rewrite Hd, Eid in *. rewrite HW. apply guarded_data; try done. by apply Hdet.
    + rewrite app_nil_r. by apply guarded_other.
  - destruct (_ =? _); [done|]. apply Hchange. apply keeps_stateless, stateless_emit.
Qed.

Hypothesis Hprefix : forall a b, ok (a ++ b) -> ok a.
Variable c : Connection.
Hypothesis HW : max_detection_window_len c = W.
Hypothesis Hdet : forall tail d, contains_eligible_body_placeholder c tail d = false ->
  detect_blocking_action_with_tail (ineligible_for_substitution c) tail d [] Http2 LocBody (Some id) = None -> ~ seen (tail ++ d).

Lemma guarded_run raws data r r' :
  conn (run_handler r) = c -> http2_wf (run_state r) -> guarded data (run_state r) -> ok (data ++ stream_data id raws) ->
  run_frames raws r = (r', Ok ()) -> guarded (data ++ stream_data id raws) (run_state r').
Proof.
  revert data r. induction raws as [|raw raws IH]; intros data r Hc Hwf Hg Hok; cbn [run_frames].
  { intros [= <-]. by rewrite app_nil_r. }
  change (stream_data id (raw :: raws)) with (frame_data id raw ++ stream_data id raws) in *. rewrite app_assoc in *. unfold st_bind.
  destruct (frame_step raw r) as [r1 [[]|]] eqn:Hf; [|done].
  pose proof (process_frame_keeps raw r) as Hk. rewrite Hf in Hk. destruct Hk as (Hc1 & _ & _). cbn in Hc1.
  apply IH; [congruence | by eapply process_frame_wf | | done].
  eapply guarded_frame; [done | done | by eapply Hprefix | by rewrite Hc | by rewrite Hc | done].
Qed.
End guard.

End runs.

(** ** Decoding ends *)

Section decoding.
Context `{Hpack}.

(** [decode_exact] removes what it decodes from the block. *)
Hypothesis decode_consumes : forall decoder block decoder' rest field,
  block <> [] -> decode_exact decoder block = Some (decoder', rest, field) -> (length rest < length block)%nat.

(** The octets of the block are fuel enough. *)
Lemma decode_fields_fuel fuel fuel' decoder block headers n :
  (length block < fuel)%nat -> (length block < fuel')%nat ->
  decode_fields fuel decoder block headers n = decode_fields fuel' decoder block headers n.
Proof.
  revert fuel' decoder block headers n. induction fuel as [|fuel IH]; intros fuel' decoder block headers n Hf Hf'; [lia|].
  destruct fuel' as [|fuel']; [lia|]. cbn [decode_fields]. unfold is_nil. case_bool_decide as Hb; [done|].
  destruct (decode_exact decoder block) as [[[decoder' rest] field]|] eqn:Hd; [|done]. apply decode_consumes in Hd; [|done].
  destruct field as [[name value]|]; repeat case_match; try done; apply IH; lia.
Qed.
End decoding.

(** ** Witnesses *)

Import CidrNetworks.

Definition demo_field (name value : string) : list byte * list byte := (bytes_of name, bytes_of value).
Definition demo_request : Http2Headers :=
  [demo_field ":method" "POST"; demo_field ":scheme" "https"; demo_field ":path" "/"; demo_field ":authority" "evil.example.org"].

Definition demo_frame (kind flags id : Z) (payload : list byte) : list byte :=
  match append_http2_frame [] kind flags id payload with Ok raw => raw | Err _ => [] end.
Definition demo_raws : list (list byte) :=
  [demo_frame HTTP2_FRAME_HEADERS HTTP2_FLAG_END_HEADERS 1
     (match @encode_headers literal_hpack () demo_request with Ok (_, block) => block | Err _ => [] end);
   demo_frame HTTP2_FRAME_DATA 0 1 (bytes_of "MSB_"); demo_frame HTTP2_FRAME_DATA 0 1 (bytes_of "TOK")].

Definition demo_run : @Run literal_hpack _ * result SecretViolationAction () :=
  @run_frames simple_codecs literal_hpack _ new_shared 0 demo_raws (http2_started (demo_handler (bytes_of "evil.example.org"))).

Lemma demo_run_ok : exists r, demo_run = (r, Ok ()).
Proof. eexists. vm_compute. reflexivity. Qed.

Lemma demo_raws_whole : Forall whole_frame demo_raws.
Proof. repeat constructor; by vm_compute. Qed.

Lemma http2_frame_roundtrip_witness :
  whole_frame (demo_frame 0 1 5 (bytes_of "body"))
  /\ parse_http2_frame (demo_frame 0 1 5 (bytes_of "body")) = Ok (mkFrame 0 1 5 (bytes_of "body") (demo_frame 0 1 5 (bytes_of "body"))).
Proof. exact (http2_frame_roundtrip 0 1 5 (bytes_of "body") ltac:(lia) ltac:(lia) ltac:(lia)). Defined.

Lemma http2_header_frames_exact_witness :
  exists frame frames, append_http2_header_frames [] 3 true (bytes_of "block") = Ok (mjoin (map fr_raw (frame :: frames)))
    /\ mjoin (map fr_payload (frame :: frames)) = bytes_of "block".
Proof. destruct (http2_header_frames_exact 3 true (bytes_of "block") ltac:(lia)) as (frame & frames & Ha & _ & Hj). by exists frame, frames. Defined.

Lemma http2_reads_exact_witness :
  let h := demo_handler (bytes_of "evil.example.org") in
  @http2_reads simple_codecs literal_hpack _ new_shared 0 [take 7 HTTP2_PREFACE; drop 7 HTTP2_PREFACE ++ mjoin demo_raws ++ bytes_of "ab"] h
  = finish_run (bytes_of "ab") demo_run.
Proof.
  intros h. apply (@http2_reads_exact simple_codecs literal_hpack _ new_shared 0 h _ demo_raws (bytes_of "ab"));
    [done | apply demo_raws_whole | by left | by vm_compute].
Defined.

Lemma http2_streams_wf_witness : exists r, demo_run = (r, Ok ()) /\ http2_wf (run_state r).
Proof.
  destruct demo_run_ok as [r Hr]. exists r. split; [done|].
  exact (@http2_streams_wf simple_codecs literal_hpack _ new_shared 0 (demo_handler (bytes_of "evil.example.org")) demo_raws r Hr).
Defined.

