(* ===== verification/SecretHttp1.v ===== *)
(** * HTTP/1 request streams and the handler's entry point

    [SecretsHandler::substitute] and the methods it dispatches to: requests with
    complete heads, fixed-length bodies that are forwarded or buffered, chunked
    bodies, pipelined requests, opaque and HTTP/2 streams.

    The methods call [substitute] on what follows a request; here they take it
    as the argument [next], and [substitute] ties the knot with fuel.

    The lemmas are about where a head ends; the theorems, the fuel being enough
    among them, are in [SecretStreams]. *)

From S2P Require Import Prelude Text DomainName Addr TtlIndex SharedState Policy Chunked HttpText SecretScan SecretHandler SecretBody HeaderBlock SecretHeaders SecretHttp2.
From Stdlib Require Import Strings.Byte.

(** The [httparse] crate: whether a request line, with its line end, parses as a
    request of version 1.0 or 1.1 with a method and a path. *)
Class HttpParse := { http1_request_line : list byte -> bool }.

Section Http1.
Context `{SecretCodecs} `{Hpack} `{IpNetworks} `{HttpParse}.
(** The resolved-hostname cache and the clock while the call runs. *)
Variables (shared : SharedState) (now : Z).
Implicit Types (h : SecretsHandler) (c : Connection) (data : list byte).
Abbreviation method A := (stE SecretsHandler SecretViolationAction A).

(** ** Framing *)

(** [http_deny::classify_http_request]. *)
Definition classify_http_request (buf : list byte) : option bool :=
  let l := skip_leading_empty_http_lines buf in
  match l with
  | [] => None
  | first :: _ =>
      if bool_decide (l = [cr]) then None
      else if negb (is_ascii_alphabetic first) then Some false
      else match bytes_find crlf l with
      | None =>
          if existsb (fun b => (127 <? Z_of_byte b) || ((Z_of_byte b <? 32) && negb (byte_eqb b cr))) l then Some false else None
      | Some end_ => Some (http1_request_line (take (end_ + 2) l))
      end
  end.

Record RequestFraming := mkFraming {
  rf_state : HttpState;
  rf_body_in_request : nat;
  rf_body_substitution_allowed : bool
}.

Definition next_state_after_headers (headers body_bytes : list byte) : result SecretViolationAction RequestFraming :=
  let allowed := negb (has_non_identity_content_encoding headers) in
  let? transfer_encoding := parse_transfer_encoding headers in
  let? content_length := parse_content_length headers in
  match transfer_encoding, content_length with
  | Some _, Some _ => Err Block
  | Some TeChunked, None =>
      let? (state, body_end) := consume_chunked_body chunked_default body_bytes in
      Ok (match body_end with
          | Some end_ => mkFraming AwaitingHeaders end_ false
          | None => mkFraming (InChunkedBody state) (length body_bytes) false
          end)
  | None, Some cl =>
      Ok (if cl <=? zlen body_bytes then mkFraming AwaitingHeaders (Z.to_nat cl) allowed
          else mkFraming (InBody (cl - zlen body_bytes)) (length body_bytes) allowed)
  | None, None => Ok (mkFraming AwaitingHeaders 0 false)
  end.

Definition in_body (state : HttpState) : bool := match state with InBody _ => true | _ => false end.

(** ** Methods *)

Section methods.
Variable next : list byte -> method (list byte).

(** [self.substitute(spillover)] when there is any. *)
Definition substitute_spillover (spillover : list byte) : method (list byte) :=
  if is_nil spillover then st_ret [] else next spillover.

Definition append_pipelined_spillover (parent this_request spillover : list byte) : method (list byte) :=
  if is_nil spillover then st_ret parent
  else
    let! next_out := next spillover in
    st_ret (this_request ++ next_out).

(** Where the request that [data] starts ends, by [body_end]. *)
Definition split_body (body_end : option nat) data : list byte * list byte :=
  match body_end with Some n => (take n data, drop n data) | None => (data, []) end.

Definition substitute_chunked_rewrite_ready (header_bytes after_headers headers : list byte) : method (list byte) :=
  let! _ := st_put (fun h => with_summary h (Some (http1_request_summary headers))) in
  let! h := st_get in
  let! _ := apply_blocking_action (detect_http1_fragment_blocking_action h [] header_bytes headers LocUnknown) in
  let! _ := st_put (fun h => with_prev_tail h []) in
  let! (state, (output, body_end)) := rewrite_chunked_body_part rewrite_default after_headers in
  let spillover := match body_end with Some n => drop n after_headers | None => [] end in
  let! _ := st_put (fun h =>
    if bool_decide (is_Some body_end) then with_http_state (with_summary h None) AwaitingHeaders
    else with_http_state h (InChunkedRewriteBody state)) in
  let! header_out := st_lift (substitute_header_bytes (conn h) header_bytes) in
  let! next_out := substitute_spillover spillover in
  st_ret (default header_bytes header_out ++ output ++ next_out).

Definition substitute_chunked_ready (parent header_bytes after_headers headers : list byte) : method (list byte) :=
  let! h := st_get in
  if needs_body_substitution (conn h) && negb (has_non_identity_content_encoding headers)
  then substitute_chunked_rewrite_ready header_bytes after_headers headers
  else
    let! _ := st_put (fun h => with_summary h (Some (http1_request_summary headers))) in
    let! h := st_get in
    let! _ := apply_blocking_action (detect_http1_fragment_blocking_action h [] header_bytes headers LocUnknown) in
    let! _ := st_put (fun h => with_prev_tail h []) in
    let! (state, body_end) := consume_chunked_body_with_violation_detection chunked_default after_headers in
    let '(body_part, spillover) := split_body body_end after_headers in
    let this_request := header_bytes ++ body_part in
    let! _ := st_put (fun h =>
      if bool_decide (is_Some body_end) then with_http_state (with_summary h None) AwaitingHeaders
      else with_http_state h (InChunkedBody state)) in
    let! header_out := st_lift (substitute_header_bytes (conn h) header_bytes) in
    match header_out with
    | Some headers =>
        let! next_out := substitute_spillover spillover in
        st_ret (headers ++ body_part ++ next_out)
    | None => append_pipelined_spillover parent this_request spillover
    end.

(** The body after the substitutions of the secrets in turn; [None] when none
    replaced anything. *)
Definition substituted_body c (body_bytes : list byte) : option (list byte) :=
  fold_left (fun body secret =>
    if secret_active c secret && es_substitute_body secret then
      match replace_bytes (default body_bytes body) (es_placeholder secret) (es_value secret) with
      | Some replaced => Some replaced
      | None => body
      end
    else body) (eligible_for_substitution c) None.

(** The rest of [substitute_ready], from the check for disallowed placeholders
    on. *)
Definition forward_request data (header_bytes body_bytes spillover : list byte) (body_substitution_allowed : bool)
    (credential_fields : option CredentialFields) : method (list byte) :=
  let this_request := header_bytes ++ body_bytes in
  let! h := st_get in
  let c := conn h in
  let! _ := apply_blocking_action (detect_blocking_action h this_request (from_utf8_lossy header_bytes) LocUnknown) in
  let! _ :=
    if negb body_substitution_allowed then
      let! _ := st_lift (block_unsupported_body_placeholder c (unsupported_body_tail h) body_bytes) in
      st_put (fun h =>
        if in_body (http_state h)
        then with_body_tail h (update_tail_buffer (unsupported_body_tail h) body_bytes (saturating_sub (max_body_placeholder_len c) 1))
        else with_body_tail h [])
    else st_put (fun h => with_body_tail h []) in
  let! _ := st_put (fun h => if in_body (http_state h) then update_tail h body_bytes else with_prev_tail h []) in
  if bool_decide (eligible_for_substitution c = []) && negb (bool_decide (is_Some credential_fields))
  then append_pipelined_spillover data this_request spillover
  else
    let header_str := substituted_head c header_bytes in
    let body := if body_substitution_allowed then substituted_body c body_bytes else None in
    let! header_str :=
      match credential_fields with
      | None => st_ret header_str
      | Some fields =>
          let! rewritten := st_lift (set_credential_fields_in_head (default header_bytes header_str) fields) in
          if utf8_valid rewritten then st_ret (Some rewritten) else st_err Block
      end in
    let header_changed := match header_str with Some headers => negb (bool_decide (headers = header_bytes)) | None => false end in
    if negb header_changed && negb (bool_decide (is_Some body)) then append_pipelined_spillover data this_request spillover
    else
      let body_out := default body_bytes body in
      let header_out :=
        if bool_decide (is_Some body) && negb (length body_out =? length body_bytes)%nat
        then update_content_length (default (from_utf8_lossy header_bytes) header_str) (zlen body_out)
        else default header_bytes header_str in
      let! next_out := substitute_spillover spillover in
      st_ret (header_out ++ body_out ++ next_out).

Definition split_head data : list byte * list byte :=
  match find_header_boundary data with Some pos => (take pos data, drop pos data) | None => (data, []) end.

Definition substitute_ready data : method (list byte) :=
  let '(header_bytes, after_headers) := split_head data in
  if negb (bool_decide (is_Some (find_header_boundary data)))
  then forward_request data header_bytes after_headers [] false None
  else
    let headers := from_utf8_lossy header_bytes in
    let! h := st_get in
    let c := conn h in
    let! _ :=
      match http_authority c with
      | None => st_ret ()
      | Some validator =>
          let! metadata := st_lift (parse_http_request_metadata header_bytes) in
          match metadata with
          | None => st_ret ()
          | Some metadata =>
              match validate_http1_authority shared now metadata validator with
              | Ok _ => st_ret ()
              | Err block => refuse block
              end
          end
      end in
    let! credential_fields := st_lift (authorized_http1_credential_fields c header_bytes) in
    let! transfer_encoding := st_lift (parse_transfer_encoding headers) in
    let! content_length :=
      match transfer_encoding with Some _ => st_lift (parse_content_length headers) | None => st_ret None end in
    match transfer_encoding, content_length with
    | Some _, Some _ => st_err Block
    | Some TeChunked, None => substitute_chunked_ready data header_bytes after_headers headers
    | None, _ =>
        let! framing := st_lift (next_state_after_headers headers after_headers) in
        let buffered := needs_body_substitution c && rf_body_substitution_allowed framing in
        let! exceeds := if buffered then st_lift (content_length_exceeds_buffer_limit headers) else st_ret false in
        if exceeds then st_err Block
        else
          match rf_state framing, buffered with
          | InBody remaining, true =>
              let! _ := st_put (fun h =>
                with_http_state (with_summary (with_pending h (http_pending h ++ data)) (Some (http1_request_summary headers)))
                  (BufferingBody remaining)) in
              st_ret []
          | state, _ =>
              let! _ := st_put (fun h =>
                with_summary (with_http_state h state) (if in_body state then Some (http1_request_summary headers) else None)) in
              forward_request data header_bytes (take (rf_body_in_request framing) after_headers)
                (drop (rf_body_in_request framing) after_headers) (rf_body_substitution_allowed framing) credential_fields
          end
    end.

Definition substitute_headers data : method (list byte) :=
  let! _ := st_put (fun h =>
    let requests := Z.min (u_max 8) (http1_requests h + 1) in
    with_requests h requests ((requests =? 1) && bool_decide (classify_http_request data = Some true))) in
  substitute_ready data.

Definition substitute_buffered_body data (remaining : Z) : method (list byte) :=
  let n := Z.to_nat (Z.min remaining (zlen data)) in
  let! _ := st_put (fun h => with_pending h (http_pending h ++ take n data)) in
  if Z.of_nat n <? remaining then
    let! _ := st_put (fun h => with_http_state h (BufferingBody (remaining - Z.of_nat n))) in
    st_ret []
  else
    let! h := st_get in
    let! _ := st_put (fun h => with_pending (with_http_state h AwaitingHeaders) []) in
    let! output := substitute_ready (http_pending h) in
    let! spillover := substitute_spillover (drop n data) in
    st_ret (output ++ spillover).

Definition substitute_body_chunk data (remaining : Z) : method (list byte) :=
  let body_end := if remaining <=? zlen data then Some (Z.to_nat remaining) else None in
  let '(body_part, spillover) := split_body body_end data in
  let! h := st_get in
  let c := conn h in
  let! _ := st_lift (block_unsupported_body_placeholder c (unsupported_body_tail h) body_part) in
  let! _ := apply_blocking_action (detect_blocking_action h body_part [] LocBody) in
  let! _ := st_put (fun h =>
    if bool_decide (is_Some body_end)
    then with_http_state (with_body_tail (with_summary (with_prev_tail h []) None) []) AwaitingHeaders
    else with_http_state (with_body_tail (update_tail h body_part)
           (update_tail_buffer (unsupported_body_tail h) body_part (saturating_sub (max_body_placeholder_len c) 1)))
           (InBody (remaining - zlen body_part))) in
  append_pipelined_spillover data body_part spillover.

Definition substitute_chunked_body_chunk data (state : ChunkedBodyState) : method (list byte) :=
  let! (state, body_end) := consume_chunked_body_with_violation_detection state data in
  let '(body_part, spillover) := split_body body_end data in
  let! _ := st_put (fun h =>
    if bool_decide (is_Some body_end) then with_http_state (with_summary h None) AwaitingHeaders
    else with_http_state h (InChunkedBody state)) in
  append_pipelined_spillover data body_part spillover.

Definition substitute_chunked_rewrite_body_chunk data (state : ChunkedRewriteState) : method (list byte) :=
  let! (state, (output, body_end)) := rewrite_chunked_body_part state data in
  let spillover := match body_end with Some n => drop n data | None => [] end in
  let! _ := st_put (fun h =>
    if bool_decide (is_Some body_end) then with_http_state (with_summary h None) AwaitingHeaders
    else with_http_state h (InChunkedRewriteBody state)) in
  let! next_out := substitute_spillover spillover in
  st_ret (output ++ next_out).

(** The rest of [substitute], between requests: [pending] is what earlier calls
    left in [http_pending]. *)
Definition substitute_awaiting (pending data : list byte) : method (list byte) :=
  let whole := pending ++ data in
  if has_complete_http2_preface whole then
    let! _ := st_put (fun h => with_http2 (with_pending h []) (Some http2_default)) in
    substitute_http2 shared now whole
  else if is_http2_preface_prefix whole then
    let! _ := st_put (fun h => with_pending h whole) in
    st_ret []
  else if is_nil pending then
    if http_request_line_has_binary_control data then scan_opaque data
    else if bool_decide (find_header_boundary data = None) && looks_like_http_request_prefix data && negb (first_line_is_not_http_request data)
    then
      if MAX_HTTP_HEADER_BYTES <? zlen data then st_err Block
      else
        let! _ := st_put (fun h => with_pending h data) in
        st_ret []
    else substitute_headers data
  else
    let! _ := st_put (fun h => with_pending h whole) in
    if http_request_line_has_binary_control whole then
      let! _ := st_put (fun h => with_pending h []) in
      scan_opaque whole
    else if MAX_HTTP_HEADER_BYTES <? zlen whole then st_err Block
    else if bool_decide (find_header_boundary whole = None) && negb (first_line_is_not_http_request whole) && looks_like_http_request_prefix whole
    then st_ret []
    else
      let! _ := st_put (fun h => with_pending h []) in
      substitute_headers whole.

Definition substitute_step data : method (list byte) :=
  let! h := st_get in
  if placeholder_limit_exceeded (conn h) then st_err Block
  else if opaque h then scan_opaque data
  else if bool_decide (is_Some (http2_state h)) then substitute_http2 shared now data
  else
    let! _ := st_put (fun h => with_http_state h AwaitingHeaders) in
    match http_state h with
    | BufferingBody remaining => substitute_buffered_body data remaining
    | InBody remaining => substitute_body_chunk data remaining
    | InChunkedBody state => substitute_chunked_body_chunk data state
    | InChunkedRewriteBody state => substitute_chunked_rewrite_body_chunk data state
    | AwaitingHeaders => substitute_awaiting (http_pending h) data
    end.
End methods.

Fixpoint substitute_within (fuel : nat) data : method (list byte) :=
  match fuel with
  | O => st_err Block
  | S fuel => substitute_step (substitute_within fuel) data
  end.

(** Every nested call has less to handle than what is pending and read here. *)
Definition substitute data : method (list byte) :=
  fun h => substitute_within (S (length (http_pending h ++ data))) data h.

Definition is_empty h : bool :=
  let c := conn h in
  bool_decide (http_authority c = None) && is_nil (http_pending h) && is_nil (unsupported_body_tail h)
  && bool_decide (http1_request_summary_ h = None) && negb (bool_decide (is_Some (http2_state h)))
  && match http_state h with AwaitingHeaders => true | _ => false end
  && bool_decide (eligible_for_substitution c = []) && bool_decide (ineligible_for_substitution c = []) && bool_decide (header_credentials c = []).

(** Whether [http1_violation_response] has a response to give. *)
Definition http1_violation_response_due h : bool := http1_response_allowed h && http1_violation h.
End Http1.

(** ** Where a request ends *)

Lemma bytes_find_Some p l n : bytes_find p l = Some n -> exists x y, l = x ++ p ++ y /\ length x = n.
Proof.
  revert n. induction l as [|b l IH]; intros n; cbn [bytes_find]; destruct (bytes_starts_with _ p) eqn:E; try done.
  - apply bytes_starts_with_iff in E as [r ->]. intros [= <-]. by exists [], r.
  - apply bytes_starts_with_iff in E as [r ->]. intros [= <-]. by exists [], r.
  - intros (m & Hm & ->)%fmap_Some. apply IH in Hm as (x & y & -> & <-). by exists (b :: x), y.
Qed.

(** The first match stays the first match in a longer text. *)
Lemma bytes_find_app p l more n : bytes_find p l = Some n -> bytes_find p (l ++ more) = Some n.
Proof.
  revert n. induction l as [|b l IH]; intros n; cbn [bytes_find app].
  - destruct (bytes_starts_with [] p) eqn:E; [|done]. intros [= <-]. apply bytes_starts_with_iff in E as [r Hr].
    destruct p; [|done]. by destruct more.
  - destruct (bytes_starts_with (b :: l) p) eqn:E.
    + intros [= <-]. apply bytes_starts_with_iff in E as [r Hr].
      by rewrite (proj2 (bytes_starts_with_iff _ p)) by (exists (r ++ more); rewrite app_assoc, <- Hr; done).
    + intros (m & Hm & ->)%fmap_Some. destruct (bytes_starts_with (b :: l ++ more) p) eqn:E'.
      * exfalso. apply bytes_find_Some in Hm as (x & y & -> & _). apply bytes_starts_with_iff in E' as [r Hr].
        apply (f_equal (take (length p))) in Hr. rewrite take_app_length in Hr.
        change (b :: (x ++ p ++ y) ++ more) with ((b :: x ++ p ++ y) ++ more) in Hr.
        rewrite take_app_le in Hr by (cbn; rewrite !length_app; lia).
        assert (Hp : bytes_starts_with (b :: x ++ p ++ y) p = true); [|by rewrite E in Hp].
        apply bytes_starts_with_iff. exists (drop (length p) (b :: x ++ p ++ y)). rewrite <- Hr at 2. by rewrite take_drop.
      * by rewrite (IH m Hm).
Qed.

Lemma header_boundary_bound data pos : find_header_boundary data = Some pos -> (4 <= pos <= length data)%nat.
Proof. intros (n & (x & y & -> & <-)%bytes_find_Some & ->)%fmap_Some. rewrite !length_app. cbn. lia. Qed.

Lemma header_boundary_app data more pos : find_header_boundary data = Some pos -> find_header_boundary (data ++ more) = Some pos.
Proof. intros (n & Hn & ->)%fmap_Some. unfold find_header_boundary. by rewrite (bytes_find_app _ _ _ _ Hn). Qed.

