(* ===== verification/SecretStreams.v ===== *)
(** * HTTP/1 request streams: theorems

    [SecretsHandler::substitute] calls itself on what follows a request.  [runs]
    describes the methods that do so: what they do before that last call.  With
    it the theorems go through the methods of [SecretHttp1] once.

    The theorems: every nested call has less to read, so the fuel is enough; a
    connection with nothing to substitute forwards exactly what it is given;
    pipelined requests are handled like requests that arrive one by one; a
    request whose body is substituted is handled as a whole, however its body is
    cut into reads; and its rewritten head announces its rewritten body. *)

From S2P Require Import Prelude Text DomainName Addr TtlIndex SharedState Policy Chunked HttpText SecretScan SecretHandler SecretBody HeaderBlock SecretHeaders SecretHttp2 SecretHttp1.
From Stdlib Require Import Strings.Byte.

Section Streams.
Context `{SecretCodecs} `{Hpack} `{IpNetworks} `{HttpParse}.
Variables (shared : SharedState) (now : Z).
Implicit Types (h : SecretsHandler) (c : Connection) (data spill out : list byte).
Abbreviation method A := (stE SecretsHandler SecretViolationAction A).

(** ** Methods that end in what follows a request *)

(** What a method does before [next] gets [spill]. *)
Definition then_next (next : list byte -> method (list byte)) (h1 : SecretsHandler) (r : result SecretViolationAction (list byte)) spill :=
  match r with
  | Ok out => (let! more := substitute_spillover next spill in st_ret (out ++ more)) h1
  | Err e => (h1, Err e)
  end.

(** [f] started in [h] calls [next] at most once and last; when it gets there,
    its output, what it leaves to [next] and its handler satisfy [Q]. *)
Definition runs (f : (list byte -> method (list byte)) -> method (list byte)) h (Q : list byte -> list byte -> SecretsHandler -> Prop) : Prop :=
  exists h1 r spill, (forall next, f next h = then_next next h1 r spill) /\ forall out, r = Ok out -> Q out spill h1.

Lemma runs_err f h h1 e Q : (forall next, f next h = (h1, Err e)) -> runs f h Q.
Proof. intros Hf. by exists h1, (Err e), []. Qed.

Lemma runs_bind {A} (m : method A) (k : (list byte -> method (list byte)) -> A -> method (list byte)) h Q :
  (forall h1 a, m h = (h1, Ok a) -> runs (fun next => k next a) h1 Q) -> runs (fun next => st_bind m (k next)) h Q.
Proof.
  intros Hk. destruct (m h) as [h1 [a|e]] eqn:Hm.
  - destruct (Hk h1 a eq_refl) as (h2 & r & spill & Hf & HQ). exists h2, r, spill. split; [|done].
    intros next. unfold st_bind at 1. rewrite Hm. apply Hf.
  - eapply runs_err. intros next. unfold st_bind at 1. by rewrite Hm.
Qed.

Lemma runs_get k h Q : runs (fun next => k next h) h Q -> runs (fun next => st_bind st_get (k next)) h Q.
Proof. intros Hk. apply runs_bind. by intros h1 a [= <- <-]. Qed.

Lemma runs_put f k h Q : runs (fun next => k next ()) (f h) Q -> runs (fun next => st_bind (st_put f) (k next)) h Q.
Proof. intros Hk. apply runs_bind. by intros h1 a [= <- <-]. Qed.

Lemma runs_lift {A} (x : result SecretViolationAction A) k h Q :
  (forall a, x = Ok a -> runs (fun next => k next a) h Q) -> runs (fun next => st_bind (st_lift x) (k next)) h Q.
Proof. intros Hk. apply runs_bind. intros h1 a [= <- Hx]. by apply Hk. Qed.

Lemma runs_ret_bind {A} (a : A) k h Q : runs (fun next => k next a) h Q -> runs (fun next => st_bind (st_ret a) (k next)) h Q.
Proof. intros Hk. apply runs_bind. by intros h1 a' [= <- <-]. Qed.

Lemma runs_pure m h Q : (forall h1 out, m h = (h1, Ok out) -> Q out [] h1) -> runs (fun _ => m) h Q.
Proof.
  intros HQ. destruct (m h) as [h1 r] eqn:Hm. exists h1, r, []. split; [|intros out ->; by apply HQ].
  intros next. rewrite Hm. destruct r; cbn; [|done]. unfold st_bind, st_ret. by rewrite app_nil_r.
Qed.

Lemma runs_spill (g : list byte -> list byte) out spill h Q :
  (forall more, g more = out ++ more) -> Q out spill h ->
  runs (fun next => let! more := substitute_spillover next spill in st_ret (g more)) h Q.
Proof.
  intros Hg HQ. exists h, (Ok out), spill. split; [|by intros ? [= <-]]. intros next. cbn. unfold st_bind.
  destruct (substitute_spillover next spill h) as [h1 [more|]]; [|done]. unfold st_ret. by rewrite Hg.
Qed.

Lemma runs_append parent this spill h Q :
  parent = this ++ spill -> Q this spill h -> runs (fun next => append_pipelined_spillover next parent this spill) h Q.
Proof.
  intros -> HQ. exists h, (Ok this), spill. split; [|by intros ? [= <-]]. intros next.
  unfold append_pipelined_spillover, then_next, substitute_spillover, st_bind. destruct (is_nil spill) eqn:Hn; [|done].
  apply bool_decide_eq_true in Hn as ->. done.
Qed.

Lemma runs_weaken f h (Q Q' : list byte -> list byte -> SecretsHandler -> Prop) :
  runs f h Q -> (forall out spill h1, Q out spill h1 -> Q' out spill h1) -> runs f h Q'.
Proof. intros (h1 & r & spill & Hf & HQ) Himp. exists h1, r, spill. split; [done|]. intros out Hr. by apply Himp, HQ. Qed.

Lemma runs_blocking k report h Q :
  (report = None -> runs (fun next => k next ()) h Q) -> runs (fun next => st_bind (apply_blocking_action report) (k next)) h Q.
Proof.
  intros Hk. destruct report as [rep|].
  - destruct (apply_blocking_Some rep h) as (h1 & e & Ha & _). eapply runs_err. intros next. unfold st_bind. by rewrite Ha.
  - apply runs_bind. intros h1 [] [= <-]. by apply Hk.
Qed.

(** ** One request *)

(** The head of a request with its secrets substituted and its header
    credentials [fields] set; [None] when nothing was substituted or set. *)
Definition request_head c (fields : option CredentialFields) (header_bytes : list byte) : result SecretViolationAction (option (list byte)) :=
  match fields with
  | None => Ok (substituted_head c header_bytes)
  | Some fields =>
      let? rewritten := set_credential_fields_in_head (default header_bytes (substituted_head c header_bytes)) fields in
      if utf8_valid rewritten then Ok (Some rewritten) else Err Block
  end.

(** What a request with a body of fixed length becomes; [allowed] says whether
    its body may be substituted. *)
Definition request_output c (allowed : bool) (fields : option CredentialFields) (header_bytes body_bytes : list byte)
    : result SecretViolationAction (list byte) :=
  let body := if allowed then substituted_body c body_bytes else None in
  let? head := request_head c fields header_bytes in
  let body_out := default body_bytes body in
  Ok ((if bool_decide (is_Some body) && negb (length body_out =? length body_bytes)%nat
       then update_content_length (default (from_utf8_lossy header_bytes) head) (zlen body_out)
       else default header_bytes head) ++ body_out).

(** The handler after a request, or its first part, was forwarded. *)
Definition forwarded (allowed : bool) (body_bytes : list byte) h : SecretsHandler :=
  let c := conn h in
  let tail :=
    if negb allowed && in_body (http_state h)
    then update_tail_buffer (unsupported_body_tail h) body_bytes (saturating_sub (max_body_placeholder_len c) 1) else [] in
  let h := with_body_tail h tail in
  if in_body (http_state h) then update_tail h body_bytes else with_prev_tail h [].

Definition idle c : Prop := eligible_for_substitution c = [] /\ header_credentials c = [].

Lemma no_eligible_output c allowed hb bb :
  eligible_for_substitution c = [] -> request_output c allowed None hb bb = Ok (hb ++ bb).
Proof.
  intros He. unfold request_output, request_head, substituted_body, substituted_head. rewrite He. by destruct allowed.
Qed.

Lemma forward_request_runs data hb bb spill allowed fields h Q :
  data = hb ++ bb ++ spill ->
  (detect_blocking_action h (hb ++ bb) (from_utf8_lossy hb) LocUnknown = None ->
   (allowed = false -> contains_eligible_body_placeholder (conn h) (unsupported_body_tail h) bb = false) ->
   forall out, request_output (conn h) allowed fields hb bb = Ok out -> Q out spill (forwarded allowed bb h)) ->
  runs (fun next => forward_request next data hb bb spill allowed fields) h Q.
Proof.
  intros Hdata HQ. unfold forward_request. apply runs_get. apply runs_blocking. intros Hdet. specialize (HQ Hdet). clear Hdet.
  apply runs_bind. intros h1 [] Htail.
  assert (Hel : (allowed = false -> contains_eligible_body_placeholder (conn h) (unsupported_body_tail h) bb = false)
                /\ (if in_body (http_state h1) then update_tail h1 bb else with_prev_tail h1 []) = forwarded allowed bb h).
  { unfold forwarded. destruct allowed; cbn [negb] in Htail.
    - injection Htail as <-. done.
    - unfold st_bind, st_lift, block_unsupported_body_placeholder in Htail.
      destruct (contains_eligible_body_placeholder _ _ _); [done|]. injection Htail as <-. split; [done|]. cbn [andb negb].
      by destruct (in_body (http_state h)). }
  destruct Hel as [Hel Hh]. specialize (HQ Hel). apply runs_put. rewrite Hh. clear Htail Hh Hel h1.
  set (h1 := forwarded allowed bb h) in *. clearbody h1. rewrite (app_assoc hb bb spill) in Hdata.
  destruct (bool_decide (eligible_for_substitution (conn h) = []) && _) eqn:Hnone.
  { apply andb_prop in Hnone as [He%bool_decide_eq_true Hf%negb_true_iff%bool_decide_eq_false]. destruct fields; [by destruct Hf|].
    apply runs_append; [done|]. apply HQ. by apply no_eligible_output. }
  clear Hnone. unfold request_output in HQ. apply runs_bind. intros h2 head Hhead.
  assert (h2 = h1 /\ request_head (conn h) fields hb = Ok head) as [-> Ehead].
  { unfold request_head. destruct fields as [fields|]; [|by injection Hhead as <- <-]. unfold st_bind, st_lift in Hhead.
    destruct (set_credential_fields_in_head _ _) as [rw|]; [|done]. destruct (utf8_valid rw) eqn:Hu; [|done]. by injection Hhead as <- <-. }
  rewrite Ehead in HQ. clear Ehead Hhead. specialize (HQ _ eq_refl).
  destruct (negb _ && negb _) eqn:Hch.
  - apply runs_append; [done|]. apply andb_prop in Hch as [Hh%negb_true_iff Hb%negb_true_iff%bool_decide_eq_false].
    rewrite bool_decide_eq_false_2 in HQ by done. cbn [andb] in HQ.
    assert (default bb (if allowed then substituted_body (conn h) bb else None) = bb) as Eb.
    { destruct (if allowed then _ else _); [by destruct Hb|done]. }
    rewrite Eb in HQ. destruct head as [head|]; [|done]. cbn in Hh. apply negb_false_iff, bool_decide_eq_true in Hh as ->. done.
  - eapply runs_spill; [|exact HQ]. intros more. by rewrite <- app_assoc.
Qed.

(** The fields that say what kind of stream a connection is. *)
Definition same_stream h h1 : Prop :=
  conn h1 = conn h /\ http_pending h1 = http_pending h /\ opaque h1 = opaque h /\ http2_state h1 = http2_state h.

Lemma forwarded_stream allowed bb h : same_stream h (forwarded allowed bb h) /\ http_state (forwarded allowed bb h) = http_state h.
Proof. unfold forwarded. cbn [http_state with_body_tail]. by destruct (in_body (http_state h)). Qed.

Lemma chunk_run_ends st data evs st' k : ref_run st data = (evs, Ok (st', Some k)) -> (0 < k <= length data)%nat.
Proof.
  revert st evs k. induction data as [|b data IH]; intros st evs k; [done|]. intros Hr.
  apply ref_run_cons_inv in Hr as (evs1 & st1 & [(_ & _ & ->)|(evs2 & n & _ & Hr & _ & ->)]); cbn; [lia|]. apply IH in Hr. lia.
Qed.

Lemma process_end {S} (on_event : ChunkedBodyEvent -> stE S SecretViolationAction ()) st data s s' st' k :
  chunked_wf st -> process_chunked_body on_event st data s = (s', Ok (st', Some k)) -> (0 < k <= length data)%nat.
Proof.
  intros Hwf. destruct (process_is_ref st data Hwf) as (evs & _ & _ & ->). unfold st_bind, st_lift.
  destruct (run_events on_event evs s) as [s1 [[]|]]; [|done]. intros [= _ E].
  destruct (ref_run st data) as [evs1 r] eqn:Hr. cbn in E. subst r. by eapply chunk_run_ends.
Qed.

Definition ends_within (body_end : option nat) data : Prop := forall k, body_end = Some k -> (0 < k <= length data)%nat.

Lemma consume_Ok st data h h1 st1 n :
  chunked_wf st -> consume_chunked_body_with_violation_detection st data h = (h1, Ok (st1, n)) ->
  h1 = h /\ chunked_wf st1 /\ ends_within n data.
Proof.
  intros Hwf. unfold consume_chunked_body_with_violation_detection.
  destruct (process_chunked_body _ _ _ _) as [[h' tail] [[st' n']|]] eqn:Hp; [|done]. intros [= <- <- <-].
  assert (Hh : h' = h).
  { destruct (process_is_ref (with_decoded_tail st []) data Hwf) as (evs & _ & _ & Hproc). rewrite Hproc in Hp. unfold st_bind in Hp.
    destruct (run_events consume_event evs (h, decoded_tail st)) as [s [[]|]] eqn:Hr; [|done].
    apply (proj2 (run_consume_spec evs h (decoded_tail st))) in Hr as (_ & _ & Hs). cbn in Hp. by injection Hp as -> _. }
  split; [done|]. split; [by apply process_decoded_tail in Hp as [? _]|]. intros k ->. by eapply process_end in Hp.
Qed.

Lemma rewrite_Ok st data h h1 st1 output n :
  chunked_wf (rw_parser st) -> rewrite_chunked_body_part st data h = (h1, Ok (st1, (output, n))) ->
  h1 = h /\ chunked_wf (rw_parser st1) /\ ends_within n data.
Proof.
  intros Hwf. unfold rewrite_chunked_body_part.
  destruct (process_chunked_body _ _ _ _) as [[h' rg] [[st' n']|]] eqn:Hp; [|done]. intros [= <- <- _ <-].
  assert (Hh : h' = h).
  { destruct (process_is_ref (with_decoded_tail (rw_parser st) []) data Hwf) as (evs & _ & _ & Hproc). rewrite Hproc in Hp. unfold st_bind in Hp.
    destruct (run_events rewrite_event evs _) as [s [[]|]] eqn:Hr; [|done]. pose proof Hr as Hs. apply run_rewrite_spec in Hs.
    apply run_rewrite_spec in Hs. rewrite Hs in Hr. injection Hr as <-. cbn in Hp. by injection Hp as -> _. }
  split; [done|]. split; [by apply process_decoded_tail in Hp as [? _]|]. intros k ->. by eapply process_end in Hp.
Qed.

Lemma body_end {S} (on_event : ChunkedBodyEvent -> stE S SecretViolationAction ()) enc p t s s' st n :
  chunked_body enc p t -> process_chunked_body on_event chunked_default enc s = (s', Ok (st, n)) -> n = Some (length enc).
Proof.
  intros Hb. destruct (body_run _ _ _ Hb [] []) as (evs & Hr & _). rewrite app_nil_r in Hr.
  destruct (process_is_ref chunked_default enc) as (evs' & _ & _ & ->); [done|]. unfold chunked_default. rewrite Hr. unfold st_bind.
  destruct (run_events on_event evs' s) as [s1 [[]|]]; [|done]. by intros [= _ _ <-].
Qed.

(** A chunked request: its head, and the part of its body that was read. *)
Lemma chunked_ready_runs data hb after headers h Q :
  data = hb ++ after ->
  (forall header_out, substitute_header_bytes (conn h) hb = Ok header_out -> forall n h1, same_stream h h1 -> ends_within n after ->
     (forall p t, chunked_body after p t -> n = Some (length after)) ->
     (forall st, chunked_wf st -> http_state h1 = (if bool_decide (is_Some n) then AwaitingHeaders else InChunkedBody st) ->
        Q (default hb header_out ++ fst (split_body n after)) (snd (split_body n after)) h1)
     /\ (needs_body_substitution (conn h) = true -> forall st output, chunked_wf (rw_parser st) ->
        http_state h1 = (if bool_decide (is_Some n) then AwaitingHeaders else InChunkedRewriteBody st) ->
        Q (default hb header_out ++ output) (snd (split_body n after)) h1)) ->
  runs (fun next => substitute_chunked_ready next data hb after headers) h Q.
Proof.
  intros Hdata HQ. unfold substitute_chunked_ready. apply runs_get. destruct (_ && _) eqn:Hneed.
  - apply andb_prop in Hneed as [Hneed _]. unfold substitute_chunked_rewrite_ready. apply runs_put, runs_get, runs_blocking. intros _. apply runs_put.
    apply runs_bind. intros h1 [st [output n]] Hr. pose proof Hr as (-> & Hwf & Hn)%rewrite_Ok; [|done]. apply runs_put, runs_lift. intros header_out Hh.
    assert (Hend : forall p t, chunked_body after p t -> n = Some (length after)).
    { intros p t Hb. unfold rewrite_chunked_body_part in Hr. destruct (process_chunked_body _ _ _ _) as [[h3 rg] [[st' n']|]] eqn:Hp; [|done].
      eapply body_end in Hp; [|done]. congruence. }
    eapply runs_spill; [intros more; by rewrite app_assoc|].
    assert ((match n with Some n => drop n after | None => [] end) = snd (split_body n after)) as -> by by destruct n.
    edestruct (HQ header_out Hh n) as [_ HQ']; [| | |eapply (HQ' Hneed st output); [done|]]; [|done|done|]; case_bool_decide; done.
  - apply runs_put, runs_get, runs_blocking. intros _. apply runs_put.
    apply runs_bind. intros h1 [st n] Hr. pose proof Hr as (-> & Hwf & Hn)%consume_Ok; [|done].
    assert (Hend : forall p t, chunked_body after p t -> n = Some (length after)).
    { intros p t Hb. unfold consume_chunked_body_with_violation_detection in Hr.
      destruct (process_chunked_body _ _ _ _) as [[h3 tail] [[st' n']|]] eqn:Hp; [|done]. eapply body_end in Hp; [|done]. congruence. }
    destruct (split_body n after) as [body spill] eqn:Hs.
    assert (Hbody : after = body ++ spill).
    { destruct n; cbn in Hs; injection Hs as <- <-; [by rewrite take_drop | by rewrite app_nil_r]. }
    apply runs_put, runs_lift. intros header_out Hh. edestruct (HQ header_out Hh n) as [HQ' _]; [| exact Hn | exact Hend |].
    2:{ specialize (HQ' st Hwf). rewrite Hs in HQ'. cbn [fst snd] in HQ'. destruct header_out as [head|].
        - eapply runs_spill; [intros more; by rewrite app_assoc|]. apply HQ'. case_bool_decide; done.
        - apply runs_append; [by rewrite Hdata, Hbody, app_assoc|]. apply HQ'. case_bool_decide; done. }
    case_bool_decide; done.
Qed.

(** ** Between reads *)

(** The head of a request whose body is being collected, and the part of the
    body that is there. *)
Definition buffering c (pending : list byte) (remaining : Z) : Prop :=
  needs_body_substitution c = true
  /\ exists pos framing, find_header_boundary pending = Some pos
       /\ next_state_after_headers (from_utf8_lossy (take pos pending)) (drop pos pending) = Ok framing /\ rf_state framing = InBody remaining.

(** What holds of a handler between reads: only a head, the start of an
    HTTP/2 preface or a buffered request is pending, a head is not complete, and
    a body is not at its end. *)
Definition stream_ok h : Prop :=
  (opaque h = true /\ http_pending h = []) \/ is_Some (http2_state h)
  \/ opaque h = false
     /\ match http_state h with
        | AwaitingHeaders => find_header_boundary (http_pending h) = None \/ is_http2_preface_prefix (http_pending h) = true
        | BufferingBody remaining => buffering (conn h) (http_pending h) remaining
        | InBody remaining => 0 < remaining /\ http_pending h = []
        | InChunkedBody st => chunked_wf st /\ http_pending h = []
        | InChunkedRewriteBody st => chunked_wf (rw_parser st) /\ needs_body_substitution (conn h) = true /\ http_pending h = []
        end.

Lemma next_state_cases headers after framing :
  next_state_after_headers headers after = Ok framing ->
  (rf_body_in_request framing <= length after)%nat
  /\ match rf_state framing with
     | AwaitingHeaders => True
     | InBody remaining =>
         0 < remaining /\ parse_transfer_encoding headers = Ok None /\ parse_content_length headers = Ok (Some (zlen after + remaining))
         /\ rf_body_in_request framing = length after /\ rf_body_substitution_allowed framing = negb (has_non_identity_content_encoding headers)
     | InChunkedBody st => parse_transfer_encoding headers = Ok (Some TeChunked)
     | _ => False
     end.
Proof.
  unfold next_state_after_headers. destruct (parse_transfer_encoding headers) as [[[]|]|] eqn:Hte; [| |done].
  - destruct (parse_content_length headers) as [[cl|]|] eqn:Hcl; [done| |done]. unfold consume_chunked_body.
    destruct (process_chunked_body _ chunked_default after ()) as [s [[st [k|]]|]] eqn:Hp; [| |done]; intros [= <-]; cbn; [|done].
    apply process_end in Hp; [|done]. split; [lia|done].
  - destruct (parse_content_length headers) as [[cl|]|] eqn:Hcl; [| |done]; intros [= <-]; [|cbn; split; [lia|done]].
    destruct (Z.leb_spec cl (zlen after)); cbn; [split; [lia|done]|]. split; [lia|]. split_and!; [lia|done| |done|done]. f_equal. f_equal. lia.
Qed.

(** The rest of a body arrives. *)
Lemma next_state_more headers after more framing remaining :
  next_state_after_headers headers after = Ok framing -> rf_state framing = InBody remaining -> zlen more <= remaining ->
  next_state_after_headers headers (after ++ more)
  = Ok (if zlen more =? remaining then mkFraming AwaitingHeaders (length (after ++ more)) (rf_body_substitution_allowed framing)
        else mkFraming (InBody (remaining - zlen more)) (length (after ++ more)) (rf_body_substitution_allowed framing)).
Proof.
  intros Hn Hs Hm. pose proof Hn as (_ & Hc)%next_state_cases. rewrite Hs in Hc. destruct Hc as (Hr & Hte & Hcl & _ & Ha).
  unfold next_state_after_headers. rewrite Hte, Hcl, Ha. f_equal. rewrite length_app.
  destruct (Z.eqb_spec (zlen more) remaining), (Z.leb_spec (zlen after + remaining) (Z.of_nat (length after + length more))); try lia.
  - f_equal. lia.
  - do 2 f_equal. lia.
Qed.

Lemma buffering_more c pending more remaining :
  buffering c pending remaining -> zlen more < remaining -> buffering c (pending ++ more) (remaining - zlen more).
Proof.
  intros (Hneed & pos & f & Hpos & Hf & Hs) Hm. split; [done|]. pose proof (header_boundary_bound _ _ Hpos).
  exists pos. eexists. split; [by apply header_boundary_app|]. rewrite take_app_le, drop_app_le by lia.
  rewrite (next_state_more _ _ _ _ _ Hf Hs) by lia. destruct (Z.eqb_spec (zlen more) remaining); [lia|done].
Qed.

(** What a method that starts a request leaves: see [stream_ok]; what follows
    the request comes after its head; nothing is lost on an idle connection. *)
Definition ready_post data h out spill h1 : Prop :=
  conn h1 = conn h /\ opaque h1 = opaque h /\ http2_state h1 = http2_state h /\ stream_ok h1
  /\ (spill = [] \/ http_pending h1 = [] /\ (length spill < length data)%nat)
  /\ (idle (conn h) -> data = out ++ http_pending h1 ++ spill).

(** A request that ends where [data] does. *)
Definition whole_request data : Prop :=
  exists pos, find_header_boundary data = Some pos
    /\ match parse_transfer_encoding (from_utf8_lossy (take pos data)) with
       | Ok (Some TeChunked) => exists p t, chunked_body (drop pos data) p t
       | Ok None =>
           exists framing, next_state_after_headers (from_utf8_lossy (take pos data)) (drop pos data) = Ok framing
             /\ rf_state framing = AwaitingHeaders /\ rf_body_in_request framing = length (drop pos data)
       | Err _ => False
       end.

(** What is left after one. *)
Definition request_done data spill h1 : Prop := whole_request data -> spill = [] /\ http_state h1 = AwaitingHeaders /\ http_pending h1 = [].

Lemma idle_needs_no_body c : idle c -> needs_body_substitution c = false.
Proof. intros [He _]. unfold needs_body_substitution. by rewrite He. Qed.

Lemma idle_header_bytes c hb header_out : idle c -> substitute_header_bytes c hb = Ok header_out -> header_out = None.
Proof.
  intros [He Hc]. unfold substitute_header_bytes, substituted_head, authorized_http1_credential_fields. rewrite He, decide_True by done.
  by intros [= <-].
Qed.

Lemma split_body_app n data : fst (split_body n data) ++ snd (split_body n data) = data.
Proof. destruct n; cbn; [apply take_drop | apply app_nil_r]. Qed.

Lemma chunked_ready_post data pos h h0 :
  find_header_boundary data = Some pos -> same_stream h h0 -> http_pending h = [] -> opaque h = false ->
  parse_transfer_encoding (from_utf8_lossy (take pos data)) = Ok (Some TeChunked) ->
  runs (fun next => substitute_chunked_ready next data (take pos data) (drop pos data) (from_utf8_lossy (take pos data))) h0
    (fun out spill h1 => ready_post data h out spill h1 /\ request_done data spill h1).
Proof.
  intros Hpos Hsame Hpend Hop Hte. assert (Hsplit : data = take pos data ++ drop pos data) by by rewrite take_drop.
  eapply chunked_ready_runs; [done|]. destruct Hsame as (Hc & Hp & Ho & Hh2). rewrite Hc, Hpend in *.
  intros header_out Hh n h1 (Hc1 & Hp1 & Ho1 & Hh21) Hn Hend.
  assert (Hempty : http_pending h1 = []) by congruence. pose proof (header_boundary_bound _ _ Hpos).
  assert (Hlen : snd (split_body n (drop pos data)) = []
                 \/ http_pending h1 = [] /\ (length (snd (split_body n (drop pos data))) < length data)%nat).
  { destruct n as [k|]; [right|by left]. split; [done|]. cbn. rewrite length_drop, length_drop. lia. }
  assert (Hdone : http_state h1 = (if bool_decide (is_Some n) then AwaitingHeaders else http_state h1) ->
                  request_done data (snd (split_body n (drop pos data))) h1).
  { intros Hst (pos' & Hpos' & Hw). rewrite Hpos in Hpos'. injection Hpos' as <-. rewrite Hte in Hw. destruct Hw as (p & t & Hb).
    rewrite (Hend p t Hb) in *. cbn in *. by rewrite drop_all. }
  split.
  - intros st Hwf Hst. split; [|apply Hdone; by case_bool_decide]. split_and!; [congruence..| |done|].
    + right; right. split; [congruence|]. rewrite Hst. case_bool_decide; [left; by rewrite Hempty|by split].
    + intros Hidle. apply (idle_header_bytes _ _ _ Hidle) in Hh as ->. rewrite Hempty. cbn [default app from_option id].
      by rewrite <- app_assoc, split_body_app.
  - intros Hneed st output Hwf Hst. split; [|apply Hdone; by case_bool_decide]. split_and!; [congruence..| |done|].
    + right; right. split; [congruence|]. rewrite Hst. case_bool_decide; [left; by rewrite Hempty|]. split_and!; [done| |done]. congruence.
    + intros Hidle. by rewrite idle_needs_no_body in Hneed.
Qed.

Lemma forward_post data pos h state summary framing fields :
  find_header_boundary data = Some pos -> http_pending h = [] -> opaque h = false ->
  next_state_after_headers (from_utf8_lossy (take pos data)) (drop pos data) = Ok framing ->
  parse_transfer_encoding (from_utf8_lossy (take pos data)) = Ok None -> rf_state framing = state ->
  authorized_http1_credential_fields (conn h) (take pos data) = Ok fields ->
  runs (fun next => forward_request next data (take pos data) (take (rf_body_in_request framing) (drop pos data))
                      (drop (rf_body_in_request framing) (drop pos data)) (rf_body_substitution_allowed framing) fields)
    (with_summary (with_http_state h state) summary)
    (fun out spill h1 => ready_post data h out spill h1 /\ request_done data spill h1).
Proof.
  intros Hpos Hpend Hop Hf Hte Hst Hcred. pose proof (next_state_cases _ _ _ Hf) as (Hle & Hcase). rewrite Hst in Hcase.
  eapply forward_request_runs; [by rewrite take_drop, take_drop|]. intros _ _ out Hout.
  set (h0 := with_summary _ _) in *. destruct (forwarded_stream (rf_body_substitution_allowed framing) (take (rf_body_in_request framing) (drop pos data)) h0)
    as ((Hc & Hp & Ho & Hh2) & Hs).
  split.
  - split_and!; [done..| | |].
    + right; right. split; [by rewrite Ho|]. rewrite Hs. change (http_state h0) with state. rewrite Hp. change (http_pending h0) with (http_pending h). rewrite Hpend.
      destruct state; [by left| | |done|done]; [by destruct Hcase|]. by rewrite Hte in Hcase.
    + right. split; [by rewrite Hp|]. rewrite !length_drop. apply header_boundary_bound in Hpos. lia.
    + intros Hidle. rewrite Hp. change (http_pending h0) with (http_pending h). rewrite Hpend. change (conn h0) with (conn h) in Hout.
      destruct Hidle as [He Hcr]. unfold authorized_http1_credential_fields in Hcred. rewrite decide_True in Hcred by done.
      injection Hcred as <-. rewrite no_eligible_output in Hout by done. injection Hout as <-. cbn [app]. by rewrite <- app_assoc, !take_drop.
  - intros (pos' & Hpos' & Hw). rewrite Hpos in Hpos'. injection Hpos' as <-. rewrite Hte in Hw. destruct Hw as (f' & Hf' & Hs' & Hb').
    rewrite Hf in Hf'. injection Hf' as <-.
    rewrite Hs, Hp, Hb', drop_all. split_and!; [done| |done]. cbn. congruence.
Qed.

Lemma ready_runs data h :
  http_state h = AwaitingHeaders -> http_pending h = [] -> opaque h = false ->
  runs (fun next => substitute_ready shared now next data) h
    (fun out spill h1 => ready_post data h out spill h1 /\ request_done data spill h1).
Proof.
  intros Hst Hpend Hop. unfold substitute_ready, split_head. destruct (find_header_boundary data) as [pos|] eqn:Hpos; cbn [negb].
  2:{ rewrite bool_decide_eq_false_2 by (by intros []). cbn [negb].
      eapply forward_request_runs; [by rewrite app_nil_r|]. intros _ _ out Hout.
      destruct (forwarded_stream false [] h) as ((Hc & Hp & Ho & Hh2) & Hs).
      split; [|by intros (pos & Hpos' & _); rewrite Hpos in Hpos']. split_and!; [done..| |by left|].
      - right; right. split; [congruence|]. rewrite Hs, Hst, Hp, Hpend. by left.
      - intros [He _]. rewrite no_eligible_output in Hout by done. injection Hout as <-. by rewrite Hp, Hpend, !app_nil_r. }
  rewrite bool_decide_eq_true_2 by done. cbn [negb]. apply runs_get. apply runs_bind. intros h1 [] Hauth.
  assert (h1 = h) as ->.
  { destruct (http_authority (conn h)) as [validator|]; [|by injection Hauth]. unfold st_bind, st_lift in Hauth.
    destruct (parse_http_request_metadata _) as [[m|]|]; [|by injection Hauth|done].
    destruct (validate_http1_authority _ _ _ _); [by injection Hauth | done]. }
  clear Hauth. apply runs_lift. intros fields Hcred. apply runs_lift. intros te Hte. apply runs_bind. intros h1 cl Hcl.
  assert (h1 = h) as -> by (destruct te; by injection Hcl). clear Hcl.
  destruct te as [[]|].
  - destruct cl; [by eapply runs_err|]. by apply (chunked_ready_post data pos h).
  - apply runs_lift. intros framing Hf. apply runs_bind. intros h1 exceeds He.
    assert (h1 = h) as -> by (destruct (_ && _) in He; by injection He). clear He. destruct exceeds; [by eapply runs_err|].
    pose proof (next_state_cases _ _ _ Hf) as [_ Hcase].
    destruct (rf_state framing) as [|remaining|st|st|remaining] eqn:Hs; [| | |done|done].
    1, 3: by apply runs_put, (forward_post data pos h).
    destruct (_ && _) eqn:Hbuf; [|by apply runs_put, (forward_post data pos h)].
    apply runs_put. apply runs_pure. intros h1 out [= <- <-]. apply andb_prop in Hbuf as [Hneed _].
    split.
    + split_and!; [done..| |by left|].
      * right; right. split; [done|]. cbn. rewrite Hpend. split; [done|]. exists pos, framing. done.
      * intros Hidle. by rewrite idle_needs_no_body in Hneed.
    + intros (pos' & Hpos' & Hw). rewrite Hpos in Hpos'. injection Hpos' as <-. rewrite Hte in Hw. destruct Hw as (f & Hf' & Hs' & _).
      rewrite Hf in Hf'. injection Hf' as <-. congruence.
Qed.

(** ** One read *)

Lemma process_frames_conn fuel (r : Run) : conn (run_handler (fst (process_frames shared now fuel r))) = conn (run_handler r).
Proof.
  revert r. induction fuel as [|fuel IH]; intros r; [done|]. cbn [process_frames]. unfold st_bind at 1, st_get at 1.
  destruct (_ <? _); [done|]. destruct (_ <? _); [done|]. destruct (_ <? _); [done|]. unfold st_bind, on_state, st_put.
  set (r1 := mkRun _ _ _). pose proof (process_frame_keeps shared now (take (Z.to_nat (9 + http2_frame_payload_len (take 9 (h2_buffer (run_state r)))))
    (h2_buffer (run_state r))) r1) as (Hc & _). destruct (process_frame _ _ _ _) as [r2 [[]|]]; [|done]. cbn [fst] in Hc. rewrite IH. exact Hc.
Qed.

Lemma substitute_http2_conn data h h1 out :
  substitute_http2 shared now data h = (h1, Ok out) -> conn h1 = conn h /\ is_Some (http2_state h1).
Proof.
  unfold substitute_http2. set (r0 := mkRun _ _ _).
  assert (Hconn : conn (run_handler (fst (http2_process shared now data r0))) = conn (run_handler r0)).
  { unfold http2_process, process_preface, st_bind, st_get, on_state, emit, st_put, st_ret, st_err.
    destruct (h2_preface_seen _); cbn [negb]; [by rewrite process_frames_conn|]. destruct (_ <? _)%nat; [done|]. destruct (negb _); [done|].
    cbn [negb]. by rewrite process_frames_conn. }
  destruct (http2_process shared now data r0) as [r [[]|]]; [|done]. intros [= <- _]. split; [exact Hconn | done].
Qed.

(** What a read leaves: see [stream_ok]; what follows a request is less than
    what there was; nothing is lost on an idle connection that is not HTTP/2. *)
Definition step_post data h out spill h1 : Prop :=
  conn h1 = conn h /\ stream_ok h1 /\ (is_Some (http2_state h) -> is_Some (http2_state h1))
  /\ (spill = [] \/ http_pending h1 = [] /\ (length spill < length (http_pending h ++ data))%nat)
  /\ (idle (conn h) -> http2_state h1 = None -> http_pending h ++ data = out ++ http_pending h1 ++ spill).

Lemma scan_opaque_stream data h h1 out :
  scan_opaque data h = (h1, Ok out) ->
  out = data /\ conn h1 = conn h /\ opaque h1 = true /\ http_pending h1 = http_pending h /\ http2_state h1 = http2_state h.
Proof.
  unfold scan_opaque, st_bind, st_get. destruct (_ && _); [done|]. unfold st_put.
  destruct (detect_blocking_action_with_tail _ _ _ _ _ _ _) as [rep|]; [|by intros [= <- <-]].
  destruct (apply_blocking_Some rep (with_opaque h true)) as (h2 & e & -> & _). done.
Qed.

Lemma opaque_runs whole data h h0 :
  conn h0 = conn h -> http_pending h0 = [] -> http_pending h ++ data = whole -> http2_state h0 = http2_state h ->
  runs (fun _ => scan_opaque whole) h0 (step_post data h).
Proof.
  intros Hc Hp <- Hh2. apply runs_pure. intros h1 out (-> & Hc1 & Ho1 & Hp1 & Hh1)%scan_opaque_stream.
  rewrite Hp in Hp1. split_and!; [congruence| left; done | by rewrite Hh1, Hh2 | by left|]. intros _ _. by rewrite Hp1, !app_nil_r.
Qed.

(** A request starts with what was pending and what was read. *)
Lemma headers_runs whole data h h0 :
  conn h0 = conn h -> http_state h0 = AwaitingHeaders -> http_pending h0 = [] -> opaque h0 = false -> http2_state h0 = http2_state h -> whole = http_pending h ++ data ->
  runs (fun next => substitute_headers shared now next whole) h0 (step_post data h).
Proof.
  intros Hc Hst Hp Hop Hh2 ->. unfold substitute_headers. apply runs_put.
  eapply runs_weaken; [apply ready_runs; [exact Hst | exact Hp | exact Hop]|]. cbn beta. intros out spill h1 ((Hc1 & Ho1 & Hh1 & Hok & Hsp & Hidle) & _).
  cbn [conn http2_state with_requests] in *. split_and!; [congruence|done|congruence|done|].
  intros Hi _. apply Hidle. congruence.
Qed.

Lemma awaiting_runs data h :
  http_state h = AwaitingHeaders -> opaque h = false ->
  runs (fun next => substitute_awaiting shared now next (http_pending h) data) h (step_post data h).
Proof.
  intros Hst Hop. unfold substitute_awaiting.
  assert (Hwait : forall h0, conn h0 = conn h -> opaque h0 = false -> http_state h0 = AwaitingHeaders -> http2_state h0 = http2_state h -> http_pending h0 = http_pending h ++ data ->
            find_header_boundary (http_pending h ++ data) = None \/ is_http2_preface_prefix (http_pending h ++ data) = true ->
            runs (fun _ => st_ret []) h0 (step_post data h)).
  { intros h0 Hc Ho Hs Hh2 Hp Hb. apply runs_pure. intros h1 out [= <- <-]. split_and!; [done| right; right; split; [done|]; by rewrite Hs, Hp | congruence | by left|].
    intros _ _. by rewrite Hp, app_nil_r. }
  destruct (has_complete_http2_preface _).
  { apply runs_put, runs_pure. intros h1 out (Hc & Hs)%substitute_http2_conn. split_and!; [done | right; by left | done | by left|].
    intros _ Hn. by rewrite Hn in Hs; destruct Hs. }
  destruct (is_http2_preface_prefix _) eqn:Hpre; [apply runs_put, Hwait; auto|].
  destruct (is_nil (http_pending h)) eqn:Hnil.
  - apply bool_decide_eq_true in Hnil. destruct (http_request_line_has_binary_control data); [apply opaque_runs; by rewrite ?Hnil|].
    destruct (_ && _) eqn:Hb; [|apply headers_runs; by rewrite ?Hnil]. destruct (_ <? _); [by eapply runs_err|].
    rewrite !andb_true_iff, bool_decide_eq_true in Hb. apply runs_put, Hwait; rewrite ?Hnil; [done..|]. left. tauto.
  - apply runs_put. destruct (http_request_line_has_binary_control _); [apply runs_put; by apply opaque_runs|].
    destruct (_ <? _); [by eapply runs_err|]. destruct (_ && _) eqn:Hb; [|apply runs_put; by apply headers_runs].
    rewrite !andb_true_iff, bool_decide_eq_true in Hb. apply Hwait; [done..|]. left. tauto.
Qed.

(** A method that leaves nothing to [next] may be followed by another. *)
Lemma runs_then f k h Q1 Q :
  runs f h Q1 -> (forall out spill h1, Q1 out spill h1 -> spill = [] /\ runs (fun next => k next out) h1 Q) ->
  runs (fun next => st_bind (f next) (k next)) h Q.
Proof.
  intros (h1 & [out|e] & spill & Hf & HQ1) Hk.
  - destruct (Hk out spill h1 (HQ1 out eq_refl)) as (-> & h2 & r & spill' & Hk' & HQ). exists h2, r, spill'. split; [|done].
    intros next. unfold st_bind at 1. rewrite Hf. cbn. unfold st_bind, st_ret. rewrite app_nil_r. apply Hk'.
  - eapply runs_err. intros next. unfold st_bind. by rewrite Hf.
Qed.

(** The handler [substitute] passes on: its state was taken. *)
Abbreviation taken h := (with_http_state h AwaitingHeaders).

Lemma buffered_exact c pending more remaining :
  buffering c pending remaining -> zlen more = remaining -> whole_request (pending ++ more).
Proof.
  intros (_ & pos & f & Hpos & Hf & Hs) Hm. pose proof (header_boundary_bound _ _ Hpos). exists pos.
  split; [by apply header_boundary_app|]. rewrite take_app_le, drop_app_le by lia.
  pose proof (next_state_cases _ _ _ Hf) as (_ & Hcase). rewrite Hs in Hcase. destruct Hcase as (_ & -> & _). eexists.
  rewrite (next_state_more _ _ _ _ _ Hf Hs) by lia. rewrite (proj2 (Z.eqb_eq _ _) Hm). done.
Qed.

Lemma buffered_runs data remaining h :
  opaque h = false -> http_state h = BufferingBody remaining -> buffering (conn h) (http_pending h) remaining ->
  runs (fun next => substitute_buffered_body shared now next data remaining) (taken h) (step_post data h).
Proof.
  intros Hop Hst Hbuf. unfold substitute_buffered_body. set (n := Z.to_nat (Z.min remaining (zlen data))).
  assert (Hr : 0 < remaining).
  { destruct Hbuf as (_ & pos & f & _ & Hf & Hs). apply next_state_cases in Hf as [_ Hc]. rewrite Hs in Hc. tauto. }
  assert (Hn : Z.of_nat n = Z.min remaining (zlen data)) by (unfold n; lia).
  assert (Htake : zlen (take n data) = Z.of_nat n) by (rewrite length_take; lia).
  apply runs_put. destruct (Z.ltb_spec (Z.of_nat n) remaining).
  - apply runs_put, runs_pure. intros h1 out [= <- <-]. assert (take n data = data) as -> by (apply take_ge; lia).
    split_and!; [done| |done|by left|intros _ _; cbn; by rewrite app_nil_r].
    right; right. split; [done|]. cbn. replace (Z.of_nat n) with (zlen data) by lia. apply buffering_more; [done|lia].
  - apply runs_get, runs_put. eapply runs_then; [by apply ready_runs|]. cbn beta.
    intros out spill h1 ((Hc & _ & Hh2 & Hok & _) & Hex). cbn [conn http2_state with_pending with_http_state] in Hc, Hh2.
    destruct Hex as (-> & Hs1 & Hp1); [by eapply buffered_exact; [exact Hbuf|lia]|]. split; [done|].
    eapply runs_spill; [done|]. split_and!; [done|done|by rewrite Hh2| |].
    + right. split; [done|]. rewrite length_drop, length_app. lia.
    + intros Hidle _. destruct Hbuf as [Hneed _]. by rewrite idle_needs_no_body in Hneed.
Qed.

Lemma body_chunk_runs data remaining h :
  opaque h = false -> http_state h = InBody remaining -> 0 < remaining -> http_pending h = [] ->
  runs (fun next => substitute_body_chunk next data remaining) (taken h) (step_post data h).
Proof.
  intros Hop Hst Hr Hp. unfold substitute_body_chunk. destruct (split_body _ data) as [body spill] eqn:Hs. apply runs_get, runs_lift. intros [] _.
  apply runs_blocking. intros _. apply runs_put. apply runs_append.
  { apply (f_equal (fun p => fst p ++ snd p)) in Hs. cbn [fst snd] in Hs. by rewrite split_body_app in Hs. }
  destruct (Z.leb_spec remaining (zlen data)); cbn in Hs; injection Hs as <- <-.
  - rewrite bool_decide_eq_true_2 by done. split_and!; [done| |done| |].
    + right; right. split; [done|]. cbn. rewrite Hp. by left.
    + right. split; [done|]. rewrite length_drop, length_app. lia.
    + intros _ _. cbn. rewrite Hp. cbn. by rewrite take_drop.
  - rewrite bool_decide_eq_false_2 by (by intros []). split_and!; [done| |done|by left|].
    + right; right. split; [done|]. cbn. split; [lia|done].
    + intros _ _. cbn. by rewrite Hp, !app_nil_r.
Qed.

Lemma chunked_chunk_runs data st h :
  opaque h = false -> http_state h = InChunkedBody st -> chunked_wf st -> http_pending h = [] ->
  runs (fun next => substitute_chunked_body_chunk next data st) (taken h) (step_post data h).
Proof.
  intros Hop Hst Hwf Hp. unfold substitute_chunked_body_chunk. apply runs_bind. intros h1 [st1 n] Hr. apply consume_Ok in Hr as (-> & Hwf1 & Hn); [|done].
  destruct (split_body n data) as [body spill] eqn:Hs. apply runs_put.
  pose proof (f_equal (fun p => fst p ++ snd p) Hs) as Hd. cbn [fst snd] in Hd. rewrite split_body_app in Hd. apply runs_append; [done|].
  destruct n as [k|]; cbn in Hs; injection Hs as <- <-.
  - rewrite bool_decide_eq_true_2 by done. split_and!; [done| |done| |].
    + right; right. split; [done|]. cbn. rewrite Hp. by left.
    + right. split; [done|]. rewrite length_drop, length_app. specialize (Hn k eq_refl). lia.
    + intros _ _. cbn. rewrite Hp. cbn. by rewrite take_drop.
  - rewrite bool_decide_eq_false_2 by (by intros []). split_and!; [done| |done|by left|].
    + right; right. split; [done|]. cbn. done.
    + intros _ _. cbn. by rewrite Hp, !app_nil_r.
Qed.

Lemma rewrite_chunk_runs data st h :
  opaque h = false -> http_state h = InChunkedRewriteBody st -> chunked_wf (rw_parser st) -> needs_body_substitution (conn h) = true -> http_pending h = [] ->
  runs (fun next => substitute_chunked_rewrite_body_chunk next data st) (taken h) (step_post data h).
Proof.
  intros Hop Hst Hwf Hneed Hp. unfold substitute_chunked_rewrite_body_chunk. apply runs_bind. intros h1 [st1 [output n]] Hr.
  apply rewrite_Ok in Hr as (-> & Hwf1 & Hn); [|done]. apply runs_put. eapply runs_spill; [done|].
  assert (Hi : idle (conn h) -> False) by (intros Hidle; by rewrite idle_needs_no_body in Hneed).
  destruct n as [k|]; [rewrite bool_decide_eq_true_2 by done | rewrite bool_decide_eq_false_2 by (by intros [])].
  - split_and!; [done| |done| |by intros ?%Hi].
    + right; right. split; [done|]. cbn. rewrite Hp. by left.
    + right. split; [done|]. rewrite length_drop, length_app. specialize (Hn k eq_refl). lia.
  - split_and!; [done| |done|by left|by intros ?%Hi]. right; right. done.
Qed.

Lemma step_runs data h : stream_ok h -> runs (fun next => substitute_step shared now next data) h (step_post data h).
Proof.
  intros Hok. unfold substitute_step. apply runs_get. destruct (placeholder_limit_exceeded _); [by eapply runs_err|].
  destruct (opaque h) eqn:Ho.
  { apply runs_pure. intros h1 out (-> & Hc1 & Ho1 & Hp1 & Hh1)%scan_opaque_stream.
    destruct Hok as [[_ Hp]|[Hs|[Ho' _]]]; [| |by rewrite Ho in Ho'].
    - rewrite Hp in Hp1. split_and!; [done| left; done | by rewrite Hh1 | by left|]. intros _ _. by rewrite Hp1, Hp, app_nil_r.
    - split_and!; [done| right; left; by rewrite Hh1 | by rewrite Hh1 | by left|]. intros _ Hn. rewrite Hh1 in Hn. by rewrite Hn in Hs; destruct Hs. }
  case_bool_decide as Hh2.
  { apply runs_pure. intros h1 out (Hc & Hs)%substitute_http2_conn. split_and!; [done| right; by left | done | by left|].
    intros _ Hn. by rewrite Hn in Hs; destruct Hs. }
  destruct Hok as [[Ho' _]|[Hs|[_ Hok]]]; [by rewrite Ho in Ho' | done|]. apply runs_put.
  destruct (http_state h) as [|remaining|st|st|remaining] eqn:Hst; cbn beta iota.
  - eapply runs_weaken; [by apply (awaiting_runs data (taken h))|]. done.
  - destruct Hok as [? ?]. by apply body_chunk_runs.
  - destruct Hok as [? ?]. by apply chunked_chunk_runs.
  - destruct Hok as (? & ? & ?). by apply rewrite_chunk_runs.
  - by apply buffered_runs.
Qed.

(** ** The recursion *)

Lemma spillover_agrees next next' spill h :
  (spill <> [] -> next spill h = next' spill h) -> substitute_spillover next spill h = substitute_spillover next' spill h.
Proof. intros Hn. unfold substitute_spillover, is_nil. case_bool_decide; auto. Qed.

Lemma within_enough n m data h :
  stream_ok h -> (length (http_pending h ++ data) < n)%nat -> (length (http_pending h ++ data) < m)%nat ->
  substitute_within shared now n data h = substitute_within shared now m data h.
Proof.
  revert m data h. induction n as [|n IH]; intros m data h Hok Hn Hm; [lia|]. destruct m as [|m]; [lia|]. cbn [substitute_within].
  destruct (step_runs data h Hok) as (h1 & [out|e] & spill & Hf & Hpost); rewrite !Hf; [|done]. cbn. unfold st_bind.
  destruct (Hpost out eq_refl) as (_ & Hok1 & _ & Hsp & _).
  rewrite (spillover_agrees _ (substitute_within shared now m)); [done|]. intros Hne. destruct Hsp as [|[Hp Hlen]]; [done|].
  apply IH; [done|rewrite Hp; cbn; lia..].
Qed.

Lemma substitute_unfold data h : stream_ok h -> substitute shared now data h = substitute_step shared now (substitute shared now) data h.
Proof.
  intros Hok. unfold substitute at 1. cbn [substitute_within].
  destruct (step_runs data h Hok) as (h1 & [out|e] & spill & Hf & Hpost); rewrite !Hf; [|done]. cbn. unfold st_bind.
  destruct (Hpost out eq_refl) as (_ & Hok1 & _ & Hsp & _).
  rewrite (spillover_agrees _ (substitute shared now)); [done|]. intros Hne. destruct Hsp as [|[Hp Hlen]]; [done|].
  apply within_enough; [done|rewrite Hp; cbn; lia..].
Qed.

(** A read, with the requests that follow in it. *)
Lemma substitute_post data h h1 out :
  stream_ok h -> substitute shared now data h = (h1, Ok out) ->
  conn h1 = conn h /\ stream_ok h1 /\ (is_Some (http2_state h) -> is_Some (http2_state h1))
  /\ (idle (conn h) -> http2_state h1 = None -> http_pending h ++ data = out ++ http_pending h1).
Proof.
  remember (length (http_pending h ++ data)) as n eqn:Hn. revert data h out Hn.
  induction n as [n IH] using lt_wf_ind. intros data h out -> Hok. rewrite substitute_unfold by done.
  destruct (step_runs data h Hok) as (h2 & [out2|e] & spill & Hf & Hpost); rewrite Hf; [|done]. cbn. unfold st_bind, st_ret.
  destruct (Hpost out2 eq_refl) as (Hc & Hok2 & Hh2 & Hsp & Hidle). unfold substitute_spillover, is_nil. case_bool_decide as He.
  - intros [= <- <-]. split_and!; [done..|]. intros Hi Hn. rewrite (Hidle Hi Hn), He. by rewrite !app_nil_r.
  - destruct Hsp as [|[Hp Hlen]]; [done|]. destruct (substitute shared now spill h2) as [h3 [more|]] eqn:Hs; [|done]. intros [= <- <-].
    assert (Hlt : (length (http_pending h2 ++ spill) < length (http_pending h ++ data))%nat) by (rewrite Hp; exact Hlen).
    apply (IH _ Hlt) in Hs as (Hc3 & Hok3 & Hh3 & Hidle3); [|done|done].
    split_and!; [congruence|done|auto|]. intros Hi Hn.
    assert (http2_state h2 = None) as Hn2 by (destruct (http2_state h2); [destruct Hh3; [done|congruence] | done]).
    rewrite (Hidle Hi Hn2). rewrite <- app_assoc. f_equal. apply Hidle3; [congruence|done].
Qed.

(** A connection, read by read. *)
Fixpoint substitute_reads (reads : list (list byte)) : method (list byte) :=
  match reads with
  | [] => st_ret []
  | data :: reads' =>
      let! out := substitute shared now data in
      let! out' := substitute_reads reads' in
      st_ret (out ++ out')
  end.

Lemma substitute_reads_post reads h h1 out :
  stream_ok h -> substitute_reads reads h = (h1, Ok out) ->
  conn h1 = conn h /\ stream_ok h1 /\ (is_Some (http2_state h) -> is_Some (http2_state h1))
  /\ (idle (conn h) -> http2_state h1 = None -> http_pending h ++ mjoin reads = out ++ http_pending h1).
Proof.
  revert h out. induction reads as [|data reads IH]; intros h out Hok; cbn [substitute_reads].
  { intros [= <- <-]. split_and!; [done..|]. intros _ _. by rewrite app_nil_r. }
  unfold st_bind. destruct (substitute shared now data h) as [h2 [out2|]] eqn:Hs; [|done].
  apply substitute_post in Hs as (Hc & Hok2 & Hh2 & Hidle); [|done].
  destruct (substitute_reads reads h2) as [h3 [more|]] eqn:Hr; [|done]. intros [= <- <-]. apply IH in Hr as (Hc3 & Hok3 & Hh3 & Hidle3); [|done].
  split_and!; [congruence|done|auto|]. intros Hi Hn.
  assert (http2_state h2 = None) as Hn2 by (destruct (http2_state h2); [destruct Hh3; [done|congruence] | done]).
  change (mjoin (data :: reads)) with (data ++ mjoin reads). rewrite app_assoc, (Hidle Hi Hn2), <- !app_assoc. f_equal. apply Hidle3; [congruence|done].
Qed.

Lemma new_inner_stream_ok files config sni tls ident force authority cred :
  stream_ok (new_inner files config sni tls ident force authority cred).
Proof. right; right. split; [done|]. by left. Qed.

(** ** Pipelined requests *)

Lemma ref_run_rest st b data evs evs1 st1 st' n :
  ref_byte st b = Ok (evs1, st1, false) -> ref_run st (b :: data) = (evs, Ok (st', Some n)) -> exists evs' n', ref_run st1 data = (evs', Ok (st', Some n')).
Proof.
  intros Hb. cbn [ref_run]. rewrite Hb. destruct (ref_run st1 data) as [evs' [[st2 [m|]]|]]; [|done|done]. intros [= _ -> _]. eauto.
Qed.

Lemma ref_run_payload r l tail data evs st' n :
  0 < r -> ref_run (mkChunked (Data r) l tail) data = (evs, Ok (st', Some n)) ->
  r <= zlen data /\ exists evs' n', ref_run (mkChunked (DataCrlf false) l tail) (drop (Z.to_nat r) data) = (evs', Ok (st', Some n')).
Proof.
  intros Hr Hrun. destruct (Z.le_gt_cases r (zlen data)) as [Hle|Hgt].
  - split; [done|]. rewrite <- (take_drop (Z.to_nat r) data) in Hrun at 1. rewrite ref_run_app in Hrun.
    assert (Hlen : zlen (take (Z.to_nat r) data) = r) by (rewrite length_take; lia).
    rewrite ref_run_data, Hlen, Z.sub_diag in Hrun; [|lia|intros E; rewrite E in Hlen; cbn in Hlen; lia]. cbn in Hrun.
    destruct (ref_run _ (drop _ _)) as [evs' [[st2 [m|]]|]]; [|done|done]. injection Hrun as _ -> _. eauto.
  - destruct (decide (data = [])) as [->|Hne]; [done|]. rewrite ref_run_data in Hrun by (done || lia). done.
Qed.

(** A body that ends in the bytes read is parsed the same when more follow. *)
Lemma loop_more {S} (on_event : ChunkedBodyEvent -> stE S SecretViolationAction ()) fuel fuel' st cursor data rest s evs st' n :
  chunked_wf st -> ref_run st data = (evs, Ok (st', Some n)) -> (length data < fuel)%nat -> (length data < fuel')%nat ->
  chunked_loop on_event fuel' st cursor (data ++ rest) s = chunked_loop on_event fuel st cursor data s.
Proof.
  revert fuel' st cursor data s evs n. induction fuel as [|fuel IH]; intros fuel' st cursor data s evs n Hwf Hr Hf Hf'; [lia|].
  destruct data as [|b data]; [done|]. destruct fuel' as [|fuel']; [lia|]. cbn [length] in *. destruct st as [ph l tail].
  destruct ph as [|r|[]|]; cbn [chunked_loop app phase line decoded_tail].
  - destruct (MAX_HTTP_HEADER_BYTES <? _) eqn:Hmax; [done|]. destruct (bytes_strip_suffix _ _) as [body|] eqn:Hs.
    2:{ eapply ref_run_rest in Hr as (evs' & n' & Hr); [|ref_tac; by rewrite Hmax, Hs]. eapply IH; [done|exact Hr|lia..]. }
    unfold st_bind, st_lift. destruct (parse_chunk_size body) as [size|] eqn:Hp; [|done].
    destruct (on_event _ s) as [s1 [[]|]]; [|done]. destruct (size =? 0) eqn:Hz.
    + eapply ref_run_rest in Hr as (evs' & n' & Hr); [|ref_tac; by rewrite Hmax, Hs, Hp, Hz].
      destruct (on_event _ s1) as [s2 [[]|]]; [|done]. eapply IH; [done|exact Hr|lia..].
    + eapply ref_run_rest in Hr as (evs' & n' & Hr); [|ref_tac; by rewrite Hmax, Hs, Hp, Hz].
      apply parse_chunk_size_nonneg in Hp. eapply IH; [|exact Hr|lia..]. unfold chunked_wf. cbn. lia.
  - unfold chunked_wf in Hwf. cbn in Hwf. apply ref_run_payload in Hr as (Hle & evs' & n' & Hr); [|done]. cbn [length] in Hle.
    change (b :: data ++ rest) with ((b :: data) ++ rest). cbn [length].
    rewrite !Z.min_l by (rewrite ?length_app; cbn [length]; lia). rewrite take_app_le, drop_app_le by (cbn; lia). unfold st_bind.
    destruct (on_event _ s) as [s1 [[]|]]; [|done]. rewrite Z.sub_diag. eapply IH; [done|exact Hr|rewrite length_drop; cbn [length]; lia..].
  - case_decide as Hb; [|done]. eapply ref_run_rest in Hr as (evs' & n' & Hr); [|ref_tac; by rewrite decide_True]. eapply IH; [done|exact Hr|lia..].
  - case_decide as Hb; [|done]. eapply ref_run_rest in Hr as (evs' & n' & Hr); [|ref_tac; by rewrite decide_True]. eapply IH; [done|exact Hr|lia..].
  - destruct (MAX_HTTP_HEADER_BYTES <? _) eqn:Hmax; [done|]. destruct (bytes_strip_suffix _ _) as [body|] eqn:Hs.
    2:{ eapply ref_run_rest in Hr as (evs' & n' & Hr); [|ref_tac; by rewrite Hmax, Hs]. eapply IH; [done|exact Hr|lia..]. }
    unfold st_bind. destruct (on_event _ s) as [s1 [[]|]]; [|done]. destruct (_ =? 2)%nat eqn:Hl; [done|].
    eapply ref_run_rest in Hr as (evs' & n' & Hr); [|ref_tac; by rewrite Hmax, Hs, Hl]. eapply IH; [done|exact Hr|lia..].
Qed.

Lemma body_more {S} (on_event : ChunkedBodyEvent -> stE S SecretViolationAction ()) enc p t rest s :
  chunked_body enc p t -> process_chunked_body on_event chunked_default (enc ++ rest) s = process_chunked_body on_event chunked_default enc s.
Proof.
  intros Hb. destruct (body_run _ _ _ Hb [] []) as (evs & Hr & _). rewrite app_nil_r in Hr. unfold process_chunked_body.
  eapply loop_more; [done|exact Hr|lia|rewrite length_app; lia].
Qed.

(** [f] does what [f0] does and then leaves [spill] to [next]. *)
Definition continues (f f0 : (list byte -> method (list byte)) -> method (list byte)) spill h : Prop :=
  forall next next0, f next h = (let '(h1, r) := f0 next0 h in then_next next h1 r spill).

Lemma continues_bind {A} (m m0 : method A) k k0 spill h :
  m h = m0 h -> (forall h1 a, m0 h = (h1, Ok a) -> continues (fun next => k next a) (fun next => k0 next a) spill h1) ->
  continues (fun next => st_bind m (k next)) (fun next => st_bind m0 (k0 next)) spill h.
Proof.
  intros Hm Hk next next0. unfold st_bind. rewrite Hm. destruct (m0 h) as [h1 [a|e]]; [|done]. by apply (Hk h1 a).
Qed.

Lemma continues_step {A} (m : method A) k k0 spill h :
  (forall h1 a, m h = (h1, Ok a) -> continues (fun next => k next a) (fun next => k0 next a) spill h1) ->
  continues (fun next => st_bind m (k next)) (fun next => st_bind m (k0 next)) spill h.
Proof. by apply continues_bind. Qed.

Lemma continues_err e spill h : continues (fun _ => st_err e) (fun _ => st_err e) spill h.
Proof. done. Qed.

Lemma continues_append parent this spill h :
  parent = this ++ spill ->
  continues (fun next => append_pipelined_spillover next parent this spill) (fun next => append_pipelined_spillover next this this []) spill h.
Proof.
  intros -> next next0. unfold append_pipelined_spillover, then_next, substitute_spillover, st_bind. cbn.
  destruct (is_nil spill) eqn:Hn; [|done]. apply bool_decide_eq_true in Hn as ->. done.
Qed.

Lemma continues_spill (g : list byte -> list byte) out spill h :
  (forall more, g more = out ++ more) ->
  continues (fun next => let! more := substitute_spillover next spill in st_ret (g more))
    (fun next => let! more := substitute_spillover next [] in st_ret (g more)) spill h.
Proof.
  intros Hg next next0. unfold st_bind, then_next, substitute_spillover. cbn. rewrite (Hg []), app_nil_r. unfold st_bind.
  destruct (is_nil spill); cbn; [by rewrite Hg, app_nil_r|]. destruct (next spill h) as [h1 [more|]]; [|done]. by rewrite Hg.
Qed.

Lemma forward_continues hb bb spill allowed fields h :
  continues (fun next => forward_request next (hb ++ bb ++ spill) hb bb spill allowed fields)
    (fun next => forward_request next (hb ++ bb) hb bb [] allowed fields) spill h.
Proof.
  unfold forward_request. do 4 (apply continues_step; intros ? ? _).
  destruct (_ && _); [apply continues_append; by rewrite app_assoc|]. apply continues_step. intros hx head _.
  destruct (_ && _); [apply continues_append; by rewrite app_assoc|]. eapply continues_spill. intros more. by rewrite app_assoc.
Qed.

(** A chunked request that ends where its bytes do. *)
Lemma chunked_continues hb enc p t spill headers h :
  chunked_body enc p t ->
  continues (fun next => substitute_chunked_ready next (hb ++ enc ++ spill) hb (enc ++ spill) headers)
    (fun next => substitute_chunked_ready next (hb ++ enc) hb enc headers) spill h.
Proof.
  intros Hb. unfold substitute_chunked_ready. apply continues_step. intros h0 h1 _. destruct (_ && _).
  - unfold substitute_chunked_rewrite_ready. do 4 (apply continues_step; intros ? ? _).
    apply continues_bind; [unfold rewrite_chunked_body_part; by rewrite (body_more rewrite_event enc p t)|]. intros hx [st [output n]] Hr.
    assert (n = Some (length enc)) as ->.
    { unfold rewrite_chunked_body_part in Hr. destruct (process_chunked_body _ _ _ _) as [[hy rg] [[st' n']|]] eqn:Hp; [|done].
      eapply body_end in Hp; [|done]. congruence. }
    rewrite drop_app_length, drop_all. do 2 (apply continues_step; intros ? ? _). eapply continues_spill. intros more. by rewrite app_assoc.
  - do 4 (apply continues_step; intros ? ? _).
    apply continues_bind; [unfold consume_chunked_body_with_violation_detection; by rewrite (body_more consume_event enc p t)|]. intros hx [st n] Hr.
    assert (n = Some (length enc)) as ->.
    { unfold consume_chunked_body_with_violation_detection in Hr. destruct (process_chunked_body _ _ _ _) as [[hy tail] [[st' n']|]] eqn:Hp; [|done].
      eapply body_end in Hp; [|done]. congruence. }
    cbn [split_body]. rewrite take_app_length, drop_app_length, take_ge, drop_all by done. apply continues_step. intros hy [] _. apply continues_step. intros hz header_out _.
    destruct header_out as [head|]; [eapply continues_spill; intros more; by rewrite app_assoc|]. apply continues_append. by rewrite app_assoc.
Qed.

Lemma whole_framing_more headers after rest framing :
  parse_transfer_encoding headers = Ok None -> next_state_after_headers headers after = Ok framing ->
  rf_state framing = AwaitingHeaders -> rf_body_in_request framing = length after ->
  next_state_after_headers headers (after ++ rest) = Ok framing.
Proof.
  intros Hte. unfold next_state_after_headers. rewrite Hte. destruct (parse_content_length headers) as [[cl|]|]; [| |done]; intros [= <-]; [|done].
  destruct (Z.leb_spec cl (zlen after)); [|done]. cbn. intros _ Hcl. rewrite length_app.
  destruct (Z.leb_spec cl (Z.of_nat (length after + length rest))); [done|lia].
Qed.

Lemma ready_continues data rest h :
  whole_request data -> continues (fun next => substitute_ready shared now next (data ++ rest)) (fun next => substitute_ready shared now next data) rest h.
Proof.
  intros (pos & Hpos & Hwhole). pose proof (header_boundary_bound _ _ Hpos). unfold substitute_ready, split_head.
  rewrite (header_boundary_app _ _ _ Hpos), Hpos, take_app_le, drop_app_le by lia. rewrite bool_decide_eq_true_2 by done. cbn [negb].
  set (hb := take pos data) in *. set (after := drop pos data) in *. assert (Hd : data = hb ++ after) by (unfold hb, after; by rewrite take_drop).
  do 3 (apply continues_step; intros ? ? _). apply continues_step. intros hx te Hte. apply continues_step. intros hy cl _.
  injection Hte as <- Hte. rewrite Hte in Hwhole. destruct te as [[]|].
  - destruct cl; [apply continues_err|]. destruct Hwhole as (p & t & Hb). rewrite Hd. rewrite <- app_assoc. by eapply chunked_continues.
  - destruct Hwhole as (framing & Hf & Hs & Hbody).
    apply continues_bind; [by rewrite (whole_framing_more _ _ _ _ Hte Hf Hs Hbody), Hf|]. intros hz f [= <- Hf']. rewrite Hf in Hf'. injection Hf' as <-.
    apply continues_step. intros hz exceeds _. destruct exceeds; [apply continues_err|]. rewrite Hs, Hbody.
    apply continues_step. intros hw [] _. rewrite take_app_length, drop_app_length, take_ge, drop_all by done.
    rewrite Hd, <- app_assoc. apply forward_continues.
Qed.

(** What the dispatcher looks at stays the same when more follows a head that
    does not start with an empty line. *)
Lemma strip_prefix_more p l rest : (length p <= length l)%nat -> is_Some (bytes_strip_prefix p (l ++ rest)) <-> is_Some (bytes_strip_prefix p l).
Proof.
  revert l. induction p as [|b p IH]; intros l Hl; [by split; eexists|]. destruct l as [|b' l]; [cbn in Hl; lia|]. cbn in *.
  destruct (decide _); [apply IH; lia | done].
Qed.

Lemma skip_lines_none l : bytes_starts_with l crlf = false -> skip_leading_empty_http_lines l = l.
Proof.
  unfold skip_leading_empty_http_lines, bytes_starts_with. intros Hl%bool_decide_eq_false. destruct (length l); [done|]. cbn [skip_empty_lines].
  destruct (bytes_strip_prefix crlf l); [by destruct Hl|done].
Qed.

Lemma take_until_more {A} (P : A -> bool) l rest : existsb P l = true -> take_until P (l ++ rest) = take_until P l.
Proof. induction l as [|a l IH]; cbn; [done|]. destruct (P a); [done|]. cbn. intros Hl. by rewrite IH. Qed.

(** The start of a request: its head is there, it does not start with an empty
    line nor an HTTP/2 connection, and its request line is text. *)
Definition plain_head data : Prop :=
  bytes_starts_with data crlf = false /\ is_http2_preface_prefix data = false /\ http_request_line_has_binary_control data = false
  /\ is_Some (find_header_boundary data).
Definition plain_request data : Prop := plain_head data /\ whole_request data.

Lemma preface_prefix_iff data :
  is_http2_preface_prefix data = true <-> data <> [] /\ exists x, HTTP2_PREFACE = data ++ x \/ data = HTTP2_PREFACE ++ x.
Proof.
  unfold is_http2_preface_prefix, nonempty. rewrite andb_true_iff, negb_true_iff, bool_decide_eq_false. apply and_iff_compat_l.
  destruct (Nat.leb_spec (length data) (length HTTP2_PREFACE)) as [Hl|Hl]; rewrite bytes_starts_with_iff; split.
  - intros [x Hx]. exists x. by left.
  - intros (x & [Hx|Hx]); [by exists x|]. exists []. rewrite Hx in Hl. rewrite length_app in Hl. destruct x; [by rewrite Hx, !app_nil_r|cbn in Hl; lia].
  - intros [x Hx]. exists x. by right.
  - intros (x & [Hx|Hx]); [|by exists x]. rewrite Hx in Hl. rewrite length_app in Hl. lia.
Qed.

Lemma preface_prefix_of data rest : is_http2_preface_prefix (data ++ rest) = true -> data <> [] -> is_http2_preface_prefix data = true.
Proof.
  rewrite !preface_prefix_iff. intros (_ & x & [Hx|Hx]) Hne; (split; [done|]).
  - exists (rest ++ x). left. rewrite Hx. by rewrite app_assoc.
  - apply app_eq_inv in Hx as [(k & Hk & _)|(k & Hk & _)]; exists k; auto.
Qed.

Lemma plain_head_more data rest :
  plain_head data ->
  is_http2_preface_prefix (data ++ rest) = false /\ has_complete_http2_preface (data ++ rest) = false
  /\ http_request_line_has_binary_control (data ++ rest) = false /\ classify_http_request (data ++ rest) = classify_http_request data.
Proof.
  intros (Hcrlf & Hpre & Hbin & pos & Hpos). pose proof (header_boundary_bound _ _ Hpos) as Hlen.
  assert (Hne : data <> []) by (intros ->; cbn in Hlen; lia).
  assert (Hpre' : is_http2_preface_prefix (data ++ rest) = false).
  { apply not_true_iff_false. intros Hp%preface_prefix_of; [|done]. by rewrite Hpre in Hp. }
  assert (Hcrlf' : bytes_starts_with (data ++ rest) crlf = false).
  { unfold bytes_starts_with in *. rewrite bool_decide_eq_false in *. rewrite strip_prefix_more; [done|]. cbn. lia. }
  assert (Hfind : exists e, bytes_find crlf data = Some e /\ (e + 2 <= length data)%nat).
  { apply fmap_Some in Hpos as (n & (x & y & -> & _)%bytes_find_Some & _).
    destruct (proj2 (bytes_find_infix crlf (x ++ (crlf ++ crlf) ++ y))) as [e He]; [exists x, (crlf ++ y); by rewrite <- app_assoc|].
    exists e. split; [done|]. apply bytes_find_Some in He as (x' & y' & -> & <-). rewrite !length_app. cbn. lia. }
  split_and!; [done| | |].
  - apply not_true_iff_false. unfold has_complete_http2_preface. rewrite andb_true_iff. intros [_ [x Hx]%bytes_starts_with_iff].
    apply not_true_iff_false in Hpre'. apply Hpre', preface_prefix_iff. split; [by destruct data|]. exists x. by right.
  - unfold http_request_line_has_binary_control in *. rewrite skip_lines_none in * by done. rewrite take_until_more; [done|].
    destruct Hfind as (e & (x & y & -> & _)%bytes_find_Some & _). apply existsb_exists. exists cr. split; [|done].
    apply list_elem_of_In. set_solver.
  - unfold classify_http_request. rewrite !skip_lines_none by done. destruct data as [|b data]; [done|]. cbn [app].
    destruct Hfind as (e & He & Hle). change (b :: data ++ rest) with ((b :: data) ++ rest). rewrite (bytes_find_app _ _ _ _ He), He, take_app_le by done.
    destruct data; [cbn in Hlen; lia|]. by rewrite !bool_decide_eq_false_2.
Qed.

Definition between_requests h : Prop := opaque h = false /\ http2_state h = None /\ http_state h = AwaitingHeaders /\ http_pending h = [].

Lemma between_stream_ok h : between_requests h -> stream_ok h.
Proof. intros (Ho & _ & Hs & Hp). right; right. rewrite Hs, Hp. split; [done|]. by left. Qed.

(** A read that starts with a request goes to [substitute_headers]. *)
Lemma plain_step next data rest h :
  between_requests h -> plain_head data ->
  substitute_step shared now next (data ++ rest) h
  = if placeholder_limit_exceeded (conn h) then (h, Err Block) else substitute_headers shared now next (data ++ rest) (taken h).
Proof.
  intros (Ho & Hh2 & Hs & Hp) Hplain. destruct (plain_head_more data rest Hplain) as (H1' & H2' & H3' & _).
  destruct Hplain as (_ & _ & _ & pos & Hpos). unfold substitute_step, st_bind, st_get. destruct (placeholder_limit_exceeded _); [done|].
  rewrite Ho, Hh2, Hs, Hp, bool_decide_eq_false_2 by (by intros []). unfold st_put, substitute_awaiting. cbn [app].
  rewrite H2', H1', H3'. change (is_nil []) with true. cbv iota.
  by rewrite bool_decide_eq_false_2 by (by rewrite (header_boundary_app _ _ _ Hpos)).
Qed.

Lemma plain_continues data rest h :
  between_requests h -> plain_request data ->
  continues (fun next => substitute_step shared now next (data ++ rest)) (fun next => substitute_step shared now next data) rest h.
Proof.
  intros Hb [Hplain Hwhole] next next0. rewrite (plain_step next data rest) by done. pose proof (plain_step next0 data [] h Hb Hplain) as Hone.
  rewrite app_nil_r in Hone. rewrite Hone. destruct (placeholder_limit_exceeded _); [done|].
  pose proof (plain_head_more data rest Hplain) as (_ & _ & _ & Hclass). unfold substitute_headers, st_bind, st_put. rewrite Hclass.
  by apply (ready_continues data rest).
Qed.

Lemma plain_request_done data h h1 out :
  between_requests h -> plain_request data -> substitute shared now data h = (h1, Ok out) -> between_requests h1.
Proof.
  intros Hb [Hplain Hwhole]. rewrite substitute_unfold by by apply between_stream_ok.
  pose proof (plain_step (substitute shared now) data [] h Hb Hplain) as Hone. rewrite app_nil_r in Hone. rewrite Hone.
  destruct (placeholder_limit_exceeded _); [done|]. destruct Hb as (Ho & Hh2 & Hs & Hp). unfold substitute_headers, st_bind, st_put.
  set (h0 := with_requests _ _ _).
  destruct (ready_runs data h0) as (h2 & r & spill & Hf & Hpost); [done|done|done|]. rewrite Hf. destruct r as [out2|]; [|done].
  destruct (Hpost out2 eq_refl) as [(_ & Ho2 & Hh22 & _) Hdone]. destruct (Hdone Hwhole) as (-> & Hs2 & Hp2).
  cbn. unfold st_bind, st_ret. intros [= <- _]. split_and!; [by rewrite Ho2|by rewrite Hh22|done|done].
Qed.

Lemma pipelined_step data rest h :
  between_requests h -> plain_request data -> rest <> [] ->
  substitute shared now (data ++ rest) h = (let! out := substitute shared now data in let! out' := substitute shared now rest in st_ret (out ++ out')) h.
Proof.
  intros Hb Hplain Hne. rewrite substitute_unfold by by apply between_stream_ok. unfold st_bind at 1.
  rewrite (substitute_unfold data) by by apply between_stream_ok. rewrite (plain_continues data rest h Hb Hplain _ (substitute shared now)).
  destruct (substitute_step _ _ _ data h) as [h1 [out|]]; [|done]. cbn. unfold st_bind, substitute_spillover, is_nil. by rewrite bool_decide_eq_false_2.
Qed.

Lemma plain_request_nonempty data : plain_request data -> data <> [].
Proof. intros (_ & pos & Hpos & _) ->. by apply header_boundary_bound in Hpos as [? ?]; cbn in *; lia. Qed.

(** ** A connection with nothing to do *)

Lemma no_ineligible_detect h data headers location : ineligible_for_substitution (conn h) = [] -> detect_blocking_action h data headers location = None.
Proof. intros He. unfold detect_blocking_action, detect_http1_fragment_blocking_action, detect_blocking_action_with_tail. by rewrite He. Qed.

Lemma no_eligible_contains c tail data : eligible_for_substitution c = [] -> contains_eligible_body_placeholder c tail data = false.
Proof. intros He. unfold contains_eligible_body_placeholder, needs_body_substitution. by rewrite He. Qed.

Lemma no_eligible_unsubstituted c tail evs : eligible_for_substitution c = [] -> unsubstituted c tail evs.
Proof.
  intros He. revert tail. induction evs as [|ev evs IH]; intros tail; [done|]. split; [|apply IH]. destruct ev; [done| |done|done]. by apply no_eligible_contains.
Qed.

(** Nothing to substitute, to watch for or to validate. *)
Definition unrestricted c : Prop :=
  idle c /\ ineligible_for_substitution c = [] /\ http_authority c = None /\ placeholder_limit_exceeded c = false.

Lemma consume_whole h enc p t :
  idle (conn h) -> ineligible_for_substitution (conn h) = [] -> chunked_body enc p t ->
  exists st, consume_chunked_body_with_violation_detection chunked_default enc h = (h, Ok (st, Some (length enc))).
Proof.
  intros [He _] Hi Hb. destruct (body_run _ _ _ Hb [] []) as (evs & Hr & _). rewrite app_nil_r in Hr.
  unfold consume_chunked_body_with_violation_detection. destruct (process_is_ref chunked_default enc) as (evs' & _ & _ & Hp); [done|].
  change (with_decoded_tail chunked_default []) with chunked_default. rewrite Hp. unfold chunked_default. rewrite Hr. unfold st_bind.
  rewrite (proj1 (run_consume_spec evs' h [])); [|by apply silent_empty | by apply no_eligible_unsubstituted]. cbn. by eexists.
Qed.

(** The framing of a request is accepted. *)
Definition framed_request data : Prop :=
  plain_request data
  /\ exists pos framing, find_header_boundary data = Some pos
       /\ next_state_after_headers (from_utf8_lossy (take pos data)) (drop pos data) = Ok framing.

Lemma forward_idle next hb bb allowed h :
  unrestricted (conn h) -> forward_request next (hb ++ bb) hb bb [] allowed None h = (forwarded allowed bb h, Ok (hb ++ bb)).
Proof.
  intros ([He Hc] & Hi & _). unfold forward_request, st_bind at 1, st_get at 1. rewrite no_ineligible_detect by done.
  unfold st_bind at 1. rewrite apply_blocking_None. rewrite He. cbn [andb negb bool_decide is_Some].
  unfold st_bind, block_unsupported_body_placeholder. rewrite no_eligible_contains by done.
  rewrite !bool_decide_eq_true_2, bool_decide_eq_false_2 by (done || by intros []). unfold st_lift, st_put, forwarded, append_pipelined_spillover. cbn.
  destruct allowed, (in_body (http_state h)) eqn:Hin; cbn [negb andb]; rewrite ?Hin; cbn [http_state with_body_tail]; by rewrite ?Hin.
Qed.

Lemma framed_ready next data h :
  unrestricted (conn h) -> http_pending h = [] -> framed_request data -> exists h1, substitute_ready shared now next data h = (h1, Ok data).
Proof.
  intros Hun Hp ((_ & pos & Hpos & Hwhole) & pos' & framing & Hpos' & Hf). rewrite Hpos in Hpos'. injection Hpos' as <-.
  pose proof Hun as ([He Hcr] & Hi & Ha & _). unfold substitute_ready, split_head. rewrite Hpos, bool_decide_eq_true_2 by done. cbn [negb].
  set (hb := take pos data) in *. set (after := drop pos data) in *. assert (Hd : data = hb ++ after) by (unfold hb, after; by rewrite take_drop).
  unfold st_bind at 1, st_get at 1. rewrite Ha. unfold st_bind at 1, st_ret at 1.
  assert (Hcred : authorized_http1_credential_fields (conn h) hb = Ok None) by (unfold authorized_http1_credential_fields; by rewrite decide_True).
  assert (Hneed : needs_body_substitution (conn h) = false) by by apply idle_needs_no_body.
  rewrite Hcred. unfold st_bind at 1, st_lift at 1. unfold st_bind at 1, st_lift at 1.
  destruct (parse_transfer_encoding (from_utf8_lossy hb)) as [[[]|]|] eqn:Hte; [| |done].
  - assert (Hcl : parse_content_length (from_utf8_lossy hb) = Ok None).
    { unfold next_state_after_headers in Hf. rewrite Hte in Hf. by destruct (parse_content_length _) as [[]|]. }
    unfold st_bind at 1, st_lift at 1. rewrite Hcl. destruct Hwhole as (p & t & Hb).
    unfold substitute_chunked_ready, st_bind at 1, st_get at 1. rewrite Hneed. cbn [andb]. unfold st_bind at 1, st_put at 1. unfold st_bind at 1, st_get at 1.
    unfold detect_http1_fragment_blocking_action, detect_blocking_action_with_tail. rewrite bool_decide_eq_true_2 by done. unfold st_bind at 1.
    cbn [http1_request_summary_ with_summary]. rewrite apply_blocking_None. unfold st_bind at 1, st_put at 1. set (h0 := with_prev_tail _ _).
    unfold st_bind at 1. destruct (consume_whole h0 after p t) as [st ->]; [done|done|done|]. cbn [split_body]. rewrite take_ge, drop_all by done.
    unfold st_bind at 1, st_put at 1. unfold st_bind at 1, st_lift at 1.
    assert (Hsub : substitute_header_bytes (conn h) hb = Ok None).
    { unfold substitute_header_bytes, substituted_head. by rewrite Hcred, He. }
    change (conn h0) with (conn h). cbn [conn with_summary]. rewrite Hsub. unfold append_pipelined_spillover. cbn. eexists. done.
  - unfold st_bind at 1, st_ret at 1. unfold st_bind at 1, st_lift at 1. rewrite Hf, Hneed. cbn [andb]. unfold st_bind at 1, st_ret at 1.
    destruct Hwhole as (f & Hf' & Hs & Hb). rewrite Hf in Hf'. injection Hf' as <-. rewrite Hs, Hb, take_ge, drop_all by done.
    unfold st_bind at 1, st_put at 1. rewrite Hd. eexists. apply forward_idle. done.
Qed.

Lemma framed_reads reads h :
  between_requests h -> unrestricted (conn h) -> Forall framed_request reads ->
  exists h1, substitute_reads reads h = (h1, Ok (mjoin reads)) /\ between_requests h1.
Proof.
  intros Hb Hun Hreads. revert h Hb Hun. induction Hreads as [|data reads Hdata _ IH]; intros h Hb Hun; [by exists h|]. cbn [substitute_reads].
  assert (exists h1, substitute shared now data h = (h1, Ok data)) as [h1 Hs].
  { rewrite substitute_unfold by by apply between_stream_ok. pose proof (plain_step (substitute shared now) data [] h Hb (proj1 (proj1 Hdata))) as Hone.
    rewrite app_nil_r in Hone. rewrite Hone. pose proof Hun as (_ & _ & _ & ->). unfold substitute_headers, st_bind, st_put.
    apply framed_ready; [done | apply Hb | done]. }
  pose proof (plain_request_done _ _ _ _ Hb (proj1 Hdata) Hs) as Hb1.
  pose proof (substitute_post _ _ _ _ (between_stream_ok _ Hb) Hs) as (Hc & _). unfold st_bind. rewrite Hs.
  destruct (IH h1 Hb1) as (h2 & Hr & Hb2); [by rewrite Hc|]. exists h2. by rewrite Hr.
Qed.

(** ** Theorems *)

(** C16: Handling what follows a request by calling [substitute] again ends: on
    every handler a connection can reach, [substitute] satisfies the recursive
    equation of the code, each nested call with less to handle, and the handler
    stays well formed: a pending head is incomplete, a body is not at its end,
    and a buffered request still misses the bytes its Content-Length announces. *)
Theorem substitute_recursion_ends h reads h1 out :
  stream_ok h -> substitute_reads reads h = (h1, Ok out) ->
  stream_ok h1 /\ forall data, substitute shared now data h1 = substitute_step shared now (substitute shared now) data h1.
Proof.
  intros Hok Hr. apply substitute_reads_post in Hr as (_ & Hok1 & _); [|done]. split; [done|]. intros data. by apply substitute_unfold.
Qed.


(** C12: Pipelined requests are handled like requests that arrive one by one:
    reading several whole requests at once has the effect of reading them in
    turn, in the output, in the handler left behind and in the errors, with
    bodies of fixed length and chunked ones alike. *)
Theorem pipelined_requests_sequential h requests :
  between_requests h -> Forall plain_request requests -> requests <> [] ->
  substitute shared now (mjoin requests) h = substitute_reads requests h.
Proof.
  intros Hb Hreq. revert h Hb. induction Hreq as [|data requests Hdata Hreq IH]; intros h Hb Hne; [done|]. cbn [substitute_reads].
  change (mjoin (data :: requests)) with (data ++ mjoin requests). destruct requests as [|data' requests].
  - change (mjoin []) with (@nil byte). rewrite app_nil_r. cbn [substitute_reads]. unfold st_bind, st_ret.
    destruct (substitute shared now data h) as [h1 [out|]]; [|done]. by rewrite app_nil_r.
  - rewrite pipelined_step; [|done|done|].
    + unfold st_bind at 1 3. destruct (substitute shared now data h) as [h1 [out|]] eqn:Hs; [|done]. unfold st_bind.
      rewrite IH; [done| |done]. by eapply plain_request_done.
    + inversion Hreq as [|? ? Hd' _]; subst. apply plain_request_nonempty in Hd'. by destruct data'.
Qed.

(** ** Buffered bodies *)

Lemma bind_Ok {A B} (m : method A) (k : A -> method B) h h1 b :
  st_bind m k h = (h1, Ok b) <-> exists h2 a, m h = (h2, Ok a) /\ k a h2 = (h1, Ok b).
Proof.
  unfold st_bind. split.
  - destruct (m h) as [h2 [a|]]; [|done]. eauto.
  - by intros (h2 & a & -> & ?).
Qed.

(** The authority of a head is accepted. *)
Definition head_accepted c (header_bytes : list byte) : Prop :=
  match http_authority c with
  | None => True
  | Some validator =>
      exists metadata, parse_http_request_metadata header_bytes = Ok metadata
        /\ match metadata with Some m => validate_http1_authority shared now m validator = Ok () | None => True end
  end.

(** What happens to a request of fixed length once its head is accepted: it is
    buffered, or its first part is forwarded. *)
Definition fixed_outcome (next : list byte -> method (list byte)) data pos framing fields h h1 out : Prop :=
  let hb := take pos data in
  let after := drop pos data in
  let buffered := needs_body_substitution (conn h) && rf_body_substitution_allowed framing in
  let summary := Some (http1_request_summary (from_utf8_lossy hb)) in
  (buffered = true -> content_length_exceeds_buffer_limit (from_utf8_lossy hb) = Ok false)
  /\ match rf_state framing, buffered with
     | InBody remaining, true =>
         h1 = with_http_state (with_summary (with_pending h (http_pending h ++ data)) summary) (BufferingBody remaining) /\ out = []
     | state, _ =>
         forward_request next data hb (take (rf_body_in_request framing) after) (drop (rf_body_in_request framing) after)
           (rf_body_substitution_allowed framing) fields (with_summary (with_http_state h state) (if in_body state then summary else None)) = (h1, Ok out)
     end.

Lemma ready_fixed next data pos framing h h1 out :
  find_header_boundary data = Some pos -> parse_transfer_encoding (from_utf8_lossy (take pos data)) = Ok None ->
  next_state_after_headers (from_utf8_lossy (take pos data)) (drop pos data) = Ok framing ->
  substitute_ready shared now next data h = (h1, Ok out)
  <-> head_accepted (conn h) (take pos data)
      /\ exists fields, authorized_http1_credential_fields (conn h) (take pos data) = Ok fields /\ fixed_outcome next data pos framing fields h h1 out.
Proof.
  intros Hpos Hte Hf. unfold substitute_ready, split_head. rewrite Hpos, bool_decide_eq_true_2 by done. cbn [negb]. unfold fixed_outcome.
  set (hb := take pos data) in *. set (after := drop pos data) in *. set (headers := from_utf8_lossy hb) in *.
  unfold st_bind at 1, st_get at 1. rewrite bind_Ok.
  assert (Hauth : forall h2 (a : ()), match http_authority (conn h) with
      | None => st_ret ()
      | Some validator =>
          let! metadata := st_lift (parse_http_request_metadata hb) in
          match metadata with
          | None => st_ret ()
          | Some metadata => match validate_http1_authority shared now metadata validator with Ok _ => st_ret () | Err block => refuse block end
          end
      end h = (h2, Ok a) <-> h2 = h /\ head_accepted (conn h) hb).
  { intros h2 []. unfold head_accepted. destruct (http_authority (conn h)) as [v|]; [|unfold st_ret; split; [by intros [= <-]|by intros [-> _]]].
    unfold st_bind, st_lift. destruct (parse_http_request_metadata hb) as [[m|]|]; [| |split; [done|by intros (_ & m & [= ] & _)]].
    - destruct (validate_http1_authority _ _ _ _) as [[]|] eqn:Hv.
      + unfold st_ret. split; [intros [= <-]; split; [done|]; by exists (Some m) | by intros [-> _]].
      + split; [done|]. intros (_ & m' & [= <-] & Hv'). congruence.
    - unfold st_ret. split; [intros [= <-]; split; [done|]; by exists None | by intros [-> _]]. }
  split.
  - intros (h2 & [] & [-> Hacc]%Hauth & Hk). split; [done|]. apply bind_Ok in Hk as (h2 & fields & [= <- Hfields] & Hk). exists fields. split; [done|].
    apply bind_Ok in Hk as (h2 & te & [= <- Hte'] & Hk). rewrite Hte in Hte'. injection Hte' as <-.
    apply bind_Ok in Hk as (h2 & cl & [= <- <-] & Hk). apply bind_Ok in Hk as (h2 & f & [= <- Hf'] & Hk). rewrite Hf in Hf'. injection Hf' as <-.
    apply bind_Ok in Hk as (h2 & exceeds & He & Hk). destruct (needs_body_substitution _ && _) eqn:Hbuf.
    + injection He as <- He. destruct exceeds; [done|]. split; [done|]. destruct (rf_state framing); try exact Hk. by injection Hk as <- <-.
    + injection He as <- <-. split; [done|]. by destruct (rf_state framing).
  - intros (Hacc & fields & Hfields & Hex & Hk). exists h, (). split; [by apply Hauth|]. apply bind_Ok. exists h, fields. split; [by rewrite Hfields|].
    apply bind_Ok. exists h, None. split; [by rewrite Hte|]. apply bind_Ok. exists h, None. split; [done|].
    apply bind_Ok. exists h, framing. split; [by rewrite Hf|]. apply bind_Ok. exists h, false. destruct (needs_body_substitution _ && _) eqn:Hbuf.
    + split; [by rewrite Hex|]. destruct (rf_state framing); try exact Hk. destruct Hk as [-> ->]. done.
    + split; [done|]. by destruct (rf_state framing).
Qed.

Lemma buffered_step data remaining h :
  opaque h = false -> http2_state h = None -> placeholder_limit_exceeded (conn h) = false ->
  http_state h = BufferingBody remaining -> buffering (conn h) (http_pending h) remaining -> zlen data <= remaining ->
  substitute shared now data h
  = if zlen data <? remaining then (with_http_state (with_pending h (http_pending h ++ data)) (BufferingBody (remaining - zlen data)), Ok [])
    else substitute_ready shared now (substitute shared now) (http_pending h ++ data) (with_pending (taken h) []).
Proof.
  intros Ho Hh2 Hlim Hst Hbuf Hle.
  rewrite substitute_unfold by (right; right; by rewrite Hst).
  unfold substitute_step, st_bind at 1, st_get. rewrite Hlim, Ho, Hh2, Hst, bool_decide_eq_false_2 by (by intros []).
  unfold st_bind at 1, st_put at 1, substitute_buffered_body. rewrite Z.min_r, Nat2Z.id, take_ge, drop_all by done.
  unfold st_bind at 1, st_put at 1. destruct (zlen data <? remaining); [done|]. unfold st_bind at 1, st_get. unfold st_bind at 1, st_put.
  unfold st_bind, substitute_spillover. cbn [http_pending with_pending with_http_state].
  change (with_pending (taken (with_pending (taken h) (http_pending h ++ data))) []) with (with_pending (taken h) []).
  destruct (substitute_ready _ _ _ _ _) as [h2 [o|]]; [|done]. cbn. unfold st_ret. by rewrite app_nil_r.
Qed.

Lemma buffered_reads reads h remaining h1 out :
  opaque h = false -> http2_state h = None -> placeholder_limit_exceeded (conn h) = false ->
  http_state h = BufferingBody remaining -> buffering (conn h) (http_pending h) remaining ->
  Forall (fun data => data <> []) reads -> zlen (mjoin reads) = remaining ->
  substitute_reads reads h = (h1, Ok out)
  <-> substitute_ready shared now (substitute shared now) (http_pending h ++ mjoin reads) (with_pending (taken h) []) = (h1, Ok out).
Proof.
  revert h remaining out. induction reads as [|data reads IH]; intros h remaining out Ho Hh2 Hlim Hst Hbuf Hne Hlen.
  { destruct Hbuf as (_ & pos & f & _ & Hf & Hs). apply next_state_cases in Hf as [_ Hc]. rewrite Hs in Hc. cbn in Hlen. lia. }
  apply Forall_cons in Hne as [Hd Hne]. change (mjoin (data :: reads)) with (data ++ mjoin reads) in *. rewrite length_app in Hlen.
  cbn [substitute_reads]. unfold st_bind at 1. rewrite (buffered_step data remaining) by (done || lia).
  destruct (Z.ltb_spec (zlen data) remaining) as [Hlt|Hge].
  - set (h2 := with_http_state _ _). assert (Hbuf2 : buffering (conn h2) (http_pending h2) (remaining - zlen data)).
    { apply buffering_more; [done|lia]. }
    rewrite app_assoc. etransitivity; [|apply (IH h2 (remaining - zlen data) out); done || lia]. unfold st_bind, st_ret.
    by destruct (substitute_reads reads h2) as [h3 [o|]].
  - assert (mjoin reads = []) as Hj by (apply length_zero_iff_nil; lia). assert (reads = []) as ->.
    { destruct reads as [|r reads]; [done|]. apply Forall_cons in Hne as [Hr _]. by destruct r. }
    cbn [substitute_reads]. rewrite Hj, app_nil_r. unfold st_bind, st_ret. destruct (substitute_ready _ _ _ _ _) as [h3 [o|]]; [|done]. by rewrite app_nil_r.
Qed.

(** The handler when a request starts. *)
Definition counted data h : SecretsHandler :=
  let requests := Z.min (u_max 8) (http1_requests h + 1) in
  with_requests (taken h) requests ((requests =? 1) && bool_decide (classify_http_request data = Some true)).

(** A read that starts with a head that is there. *)
Lemma plain_ready data rest h :
  between_requests h -> plain_head data -> placeholder_limit_exceeded (conn h) = false ->
  substitute shared now (data ++ rest) h
  = substitute_ready shared now (substitute shared now) (data ++ rest) (counted data h).
Proof.
  intros Hb Hplain Hlim. rewrite substitute_unfold by by apply between_stream_ok. rewrite plain_step, Hlim by done.
  unfold substitute_headers, st_bind, st_put. pose proof (plain_head_more data rest Hplain) as (_ & _ & _ & ->). done.
Qed.

Lemma forward_output next hb bb allowed fields h h1 out :
  forward_request next (hb ++ bb) hb bb [] allowed fields h = (h1, Ok out) -> request_output (conn h) allowed fields hb bb = Ok out.
Proof.
  destruct (forward_request_runs (hb ++ bb) hb bb [] allowed fields h
    (fun out spill _ => spill = [] /\ request_output (conn h) allowed fields hb bb = Ok out)) as (h2 & r & spill & Hf & HQ); [by rewrite app_nil_r|done|].
  rewrite Hf. destruct r as [o|]; [|done]. destruct (HQ o eq_refl) as [-> Ho]. cbn. unfold st_bind, st_ret. intros [= _ <-]. by rewrite app_nil_r.
Qed.

(** A request of fixed length that is there as a whole. *)
Lemma whole_fixed next request pos h h1 out :
  let headers := from_utf8_lossy (take pos request) in
  find_header_boundary request = Some pos -> parse_transfer_encoding headers = Ok None ->
  needs_body_substitution (conn h) = true -> has_non_identity_content_encoding headers = false ->
  parse_content_length headers = Ok (Some (zlen (drop pos request))) ->
  substitute_ready shared now next request h = (h1, Ok out)
  <-> head_accepted (conn h) (take pos request)
      /\ exists fields, authorized_http1_credential_fields (conn h) (take pos request) = Ok fields
           /\ content_length_exceeds_buffer_limit headers = Ok false
           /\ forward_request next request (take pos request) (drop pos request) [] true fields (with_summary (taken h) None) = (h1, Ok out).
Proof.
  intros headers Hpos Hte Hneed Hce Hcl.
  rewrite (ready_fixed next request pos (mkFraming AwaitingHeaders (length (drop pos request)) true)); [|done|done|].
  - apply and_iff_compat_l. apply exist_proper. intros fields. apply and_iff_compat_l. unfold fixed_outcome.
    cbn [rf_state rf_body_in_request rf_body_substitution_allowed in_body]. rewrite Hneed. cbn [andb].
    rewrite (take_ge (drop pos request)), drop_all by done. fold headers. split; intros [He Hf]; (split; [|exact Hf]); [by apply He | done].
  - unfold next_state_after_headers. fold headers. rewrite Hte, Hcl, Hce, Z.leb_refl. by rewrite Nat2Z.id.
Qed.

Lemma partial_fixed next data more pos h h1 out :
  let headers := from_utf8_lossy (take pos data) in
  find_header_boundary data = Some pos -> parse_transfer_encoding headers = Ok None ->
  needs_body_substitution (conn h) = true -> has_non_identity_content_encoding headers = false -> 0 < more ->
  parse_content_length headers = Ok (Some (zlen (drop pos data) + more)) -> http_pending h = [] ->
  substitute_ready shared now next data h = (h1, Ok out)
  <-> (head_accepted (conn h) (take pos data)
      /\ exists fields, authorized_http1_credential_fields (conn h) (take pos data) = Ok fields
           /\ content_length_exceeds_buffer_limit headers = Ok false)
      /\ h1 = with_http_state (with_summary (with_pending h data) (Some (http1_request_summary headers))) (BufferingBody more) /\ out = [].
Proof.
  intros headers Hpos Hte Hneed Hce Hmore Hcl Hp.
  rewrite (ready_fixed next data pos (mkFraming (InBody more) (length (drop pos data)) true)); [|done|done|].
  - unfold fixed_outcome. cbn [rf_state rf_body_in_request rf_body_substitution_allowed in_body]. rewrite Hneed, Hp. cbn [andb app]. fold headers. split.
    + intros (Ha & fields & Hfields & He & -> & ->). split; [|done]. split; [done|]. exists fields. split; [done|]. by apply He.
    + intros ((Ha & fields & Hfields & He) & -> & ->). split; [done|]. exists fields. done.
  - unfold next_state_after_headers. fold headers. rewrite Hte, Hcl, Hce. destruct (Z.leb_spec (zlen (drop pos data) + more) (zlen (drop pos data))); [lia|].
    do 3 f_equal. lia.
Qed.

(** Nothing of the buffering is left when the request is complete. *)
Lemma buffered_handler h data summary state :
  http_pending h = [] ->
  with_summary (taken (with_pending (taken (with_http_state (with_summary (with_pending h data) summary) state)) [])) None = with_summary (taken h) None.
Proof. destruct h. cbn. by intros ->. Qed.

(** A whole request that is read at once is rewritten as [request_output] says. *)
Lemma whole_output h data more pos h1 out :
  between_requests h -> plain_head data -> placeholder_limit_exceeded (conn h) = false ->
  let request := data ++ more in
  let headers := from_utf8_lossy (take pos request) in
  find_header_boundary request = Some pos -> parse_transfer_encoding headers = Ok None ->
  needs_body_substitution (conn h) = true -> has_non_identity_content_encoding headers = false ->
  parse_content_length headers = Ok (Some (zlen (drop pos request))) ->
  substitute shared now request h = (h1, Ok out) ->
  exists fields, authorized_http1_credential_fields (conn h) (take pos request) = Ok fields
    /\ request_output (conn h) true fields (take pos request) (drop pos request) = Ok out.
Proof.
  intros Hb Hplain Hlim request headers Hpos Hte Hneed Hce Hcl. unfold request. rewrite (plain_ready data more h Hb Hplain Hlim).
  fold request. rewrite (whole_fixed _ request pos) by done. intros (_ & fields & Hfields & _ & Hf). exists fields. split; [done|].
  rewrite <- (take_drop pos request) in Hf at 1. by apply forward_output in Hf.
Qed.

(** C13: A request whose body is substituted is handled as a whole, however its
    body is cut into reads: the reads succeed exactly when reading the request
    at once does, with the same output and the same handler; and that output is
    the request with its head and body rewritten. *)
Theorem buffered_request_exact h data reads pos h1 out :
  between_requests h -> plain_head data -> Forall (fun r => r <> []) reads -> placeholder_limit_exceeded (conn h) = false ->
  let request := data ++ mjoin reads in
  let headers := from_utf8_lossy (take pos request) in
  find_header_boundary data = Some pos -> parse_transfer_encoding headers = Ok None ->
  needs_body_substitution (conn h) = true -> has_non_identity_content_encoding headers = false ->
  parse_content_length headers = Ok (Some (zlen (drop pos request))) ->
  (substitute_reads (data :: reads) h = (h1, Ok out) <-> substitute shared now request h = (h1, Ok out))
  /\ (substitute shared now request h = (h1, Ok out) ->
      exists fields, authorized_http1_credential_fields (conn h) (take pos request) = Ok fields
        /\ request_output (conn h) true fields (take pos request) (drop pos request) = Ok out).
Proof.
  intros Hb Hplain Hne Hlim request headers Hpos Hte Hneed Hce Hcl.
  pose proof (header_boundary_bound _ _ Hpos) as Hbound. pose proof (header_boundary_app data (mjoin reads) pos Hpos) as Hpos'. fold request in Hpos'.
  pose proof (plain_ready data (mjoin reads) h Hb Hplain Hlim) as Hwhole. fold request in Hwhole.
  pose proof (whole_fixed (substitute shared now) request pos (counted data h) h1 out Hpos' Hte Hneed Hce Hcl) as Hreq. rewrite <- Hwhole in Hreq.
  split; [|by apply whole_output].
  destruct (decide (reads = [])) as [->|Hreads].
  { unfold request. change (mjoin []) with (@nil byte). rewrite app_nil_r. cbn [substitute_reads]. unfold st_bind, st_ret.
    destruct (substitute shared now data h) as [h2 [o|]]; [|done]. by rewrite app_nil_r. }
  rewrite Hreq. clear Hreq. cbn [substitute_reads]. rewrite bind_Ok.
  pose proof (plain_ready data [] h Hb Hplain Hlim) as Hpart. rewrite app_nil_r in Hpart.
  assert (Hmore : 0 < zlen (mjoin reads)).
  { destruct reads as [|r reads]; [done|]. apply Forall_cons in Hne as [Hr _]. destruct r; [done|]. cbn. lia. }
  assert (Hhead : take pos request = take pos data) by (unfold request; by rewrite take_app_le by lia).
  assert (Hbody : drop pos request = drop pos data ++ mjoin reads) by (unfold request; by rewrite drop_app_le by lia).
  unfold headers in *. rewrite Hhead, Hbody, length_app, Nat2Z.inj_add in *.
  setoid_rewrite Hpart. setoid_rewrite (partial_fixed (substitute shared now) data (zlen (mjoin reads)) pos (counted data h)); [|done..|apply Hb].
  set (h2 := with_http_state _ _). assert (Hbuf : buffering (conn h2) (http_pending h2) (zlen (mjoin reads))).
  { split; [done|]. exists pos, (mkFraming (InBody (zlen (mjoin reads))) (length (drop pos data)) true). split_and!; [done| |done].
    unfold next_state_after_headers. cbn [http_pending h2 with_http_state with_summary with_pending]. rewrite Hte, Hcl, Hce.
    destruct (Z.leb_spec (zlen (drop pos data) + zlen (mjoin reads)) (zlen (drop pos data))); [lia|]. do 3 f_equal. lia. }
  destruct Hb as (Ho & Hh2 & Hs & Hp). pose proof (buffered_reads reads h2 (zlen (mjoin reads)) h1 out Ho Hh2 Hlim eq_refl Hbuf Hne eq_refl) as Hrest.
  change (http_pending h2 ++ mjoin reads) with request in Hrest. rewrite (whole_fixed _ request pos) in Hrest; rewrite ?Hhead, ?Hbody, ?length_app, ?Nat2Z.inj_add; [|done..].
  rewrite Hhead, Hbody in Hrest.
  unfold h2 in Hrest at 4. rewrite buffered_handler in Hrest by done. change (conn (with_pending (taken h2) [])) with (conn (counted data h)) in Hrest. rewrite <- Hrest. split.
  - intros (h3 & a & (_ & -> & ->) & Hr). apply bind_Ok in Hr as (h4 & o & Hr & [= -> <-]). done.
  - intros Hr. exists h2, []. split; [|apply bind_Ok; by exists h1, out]. split; [|done]. apply Hrest in Hr as (Ha & fields & Hf & He & _). eauto.
Qed.

(** ** Rewritten requests *)

Lemma lossy_valid l : utf8_valid l = true -> from_utf8_lossy l = l.
Proof.
  induction l as [l IH] using (induction_ltof1 _ (@length byte)). unfold ltof in IH. destruct l as [|b0 l1]; [done|]. cbn [utf8_valid from_utf8_lossy].
  destruct (Z.leb_spec (Z_of_byte b0) 127); [intros Hv; by rewrite IH by (done || cbn; lia)|]. destruct l1 as [|b1 l2]; [done|].
  destruct (second_ok (Z_of_byte b0) b1) eqn:Hs; [|done]. cbn [negb].
  destruct (Z.ltb_spec (Z_of_byte b0) 194), (Z.ltb_spec 244 (Z_of_byte b0)), (Z.leb_spec 194 (Z_of_byte b0)); try lia; cbn [andb orb];
    destruct (Z.leb_spec (Z_of_byte b0) 223); try lia; cbn [andb];
    try (intros Hv; by rewrite IH by (done || cbn; lia));
    (destruct l2 as [|b2 l3]; [done|]; destruct (is_tail b2); [|done]; cbn [negb]);
    destruct (Z.leb_spec 224 (Z_of_byte b0)), (Z.leb_spec (Z_of_byte b0) 239); try lia; cbn [andb];
    try (intros Hv; by rewrite IH by (done || cbn; lia));
    (destruct l3 as [|b3 l4]; [done|]; destruct (is_tail b3); [|done]; cbn [negb]);
    destruct (Z.leb_spec 240 (Z_of_byte b0)), (Z.leb_spec (Z_of_byte b0) 244); try lia; cbn [andb]; try done;
    intros Hv; by rewrite IH by (done || cbn; lia).
Qed.

(** The head of a rewritten request announces the rewritten body. *)
Lemma output_framed c fields hb bb head out :
  utf8_valid hb = true -> request_head c fields hb = Ok head -> parse_content_length (default hb head) = Ok (Some (zlen bb)) ->
  zlen (default bb (substituted_body c bb)) < 2 ^ 64 -> request_output c true fields hb bb = Ok out ->
  exists head_out, out = head_out ++ default bb (substituted_body c bb)
    /\ parse_content_length head_out = Ok (Some (zlen (default bb (substituted_body c bb)))).
Proof.
  intros Hv Hh Hcl Hlen. unfold request_output. rewrite Hh, lossy_valid by done. intros [= <-]. eexists. split; [done|].
  destruct (bool_decide _ && _) eqn:E.
  - rewrite (update_content_length_parse _ _ (Some (zlen bb))); [done|lia|]. by destruct head.
  - rewrite Hcl. apply andb_false_iff in E as [E|E].
    + apply bool_decide_eq_false in E. destruct (substituted_body c bb); [by destruct E|done].
    + apply negb_false_iff, Nat.eqb_eq in E. by rewrite E.
Qed.

(** C14: A request whose body is substituted says how long its new body is: when
    its Content-Length was right and the substitutions in its head leave that
    field alone, the head that is forwarded announces exactly the bytes that
    follow it. *)
Theorem rewritten_request_framed h request pos fields head h1 out :
  between_requests h -> plain_head request -> placeholder_limit_exceeded (conn h) = false ->
  let c := conn h in
  let header_bytes := take pos request in
  let body := drop pos request in
  find_header_boundary request = Some pos -> utf8_valid header_bytes = true -> parse_transfer_encoding header_bytes = Ok None ->
  needs_body_substitution c = true -> has_non_identity_content_encoding header_bytes = false ->
  parse_content_length header_bytes = Ok (Some (zlen body)) ->
  authorized_http1_credential_fields c header_bytes = Ok fields -> request_head c fields header_bytes = Ok head ->
  parse_content_length (default header_bytes head) = Ok (Some (zlen body)) ->
  zlen (default body (substituted_body c body)) < 2 ^ 64 ->
  substitute shared now request h = (h1, Ok out) ->
  exists head_out, out = head_out ++ default body (substituted_body c body)
    /\ parse_content_length head_out = Ok (Some (zlen (default body (substituted_body c body)))).
Proof.
  intros Hb Hp Hlim c header_bytes body Hpos Hv Hte Hneed Hce Hcl Hf Hh Hcl' Hlen Hs.
  pose proof (whole_output h request [] pos h1 out Hb Hp Hlim) as Ho. cbv zeta in Ho. rewrite app_nil_r in Ho.
  fold header_bytes body in Ho. rewrite (lossy_valid header_bytes) in Ho by done. destruct Ho as (fields' & Hf' & Ho); [done..|].
  fold c in Hf'. rewrite Hf in Hf'. injection Hf' as <-. by eapply output_framed.
Qed.
End Streams.

(** ** Witnesses *)

Import CidrNetworks.

(** The request lines of three words that end in HTTP/1.0 or HTTP/1.1. *)
Definition simple_http_parse : HttpParse := {|
  http1_request_line := fun l =>
    match split_http_request_line (take (length l - 2) l) with
    | Some (_, _, version) => bool_decide (version = bytes_of "HTTP/1.0") || bool_decide (version = bytes_of "HTTP/1.1")
    | None => false
    end
|}.

Definition demo_head (lines : list string) : list byte := mjoin (map (fun l => bytes_of l ++ crlf) lines) ++ crlf.
Definition demo_get : list byte := demo_head ["GET /a HTTP/1.1"; "Host: api.example.com"; "Authorization: Bearer MSB_TOKEN"]%string.
Definition demo_post_head : list byte := demo_head ["POST /b HTTP/1.1"; "Host: api.example.com"; "Content-Length: 12"]%string.
Definition demo_post : list byte := demo_post_head ++ bytes_of "t=MSB_TOKEN;".
Definition demo_chunked_post : list byte :=
  demo_head ["POST /c HTTP/1.1"; "Host: api.example.com"; "Transfer-Encoding: chunked"]%string ++ demo_body "a MSB_TOKEN!".

Abbreviation demo_reads_of := (@substitute_reads simple_codecs literal_hpack _ simple_http_parse new_shared 0).
Abbreviation demo_substitute := (@substitute simple_codecs literal_hpack _ simple_http_parse new_shared 0).

(** A handler without secrets. *)
Definition idle_handler : @SecretsHandler literal_hpack _ :=
  @new_inner literal_hpack _ (fun _ => None) (mkSecrets None [] Block) (bytes_of "api.example.com") true None false None Unverified.

(** Three requests in two reads to the host of the secret. *)
Example demo_connection :
  snd (demo_reads_of [demo_get ++ demo_post ++ take 30 demo_chunked_post; drop 30 demo_chunked_post] (demo_handler (bytes_of "api.example.com")))
  = Ok (demo_head ["GET /a HTTP/1.1"; "Host: api.example.com"; "Authorization: Bearer s3cr3t"]%string
        ++ demo_head ["POST /b HTTP/1.1"; "Host: api.example.com"; "Content-Length: 9"]%string ++ bytes_of "t=s3cr3t;"
        ++ demo_head ["POST /c HTTP/1.1"; "Host: api.example.com"; "Transfer-Encoding: chunked"]%string
        ++ append_chunk [] (bytes_of "a s3cr3t") ++ append_chunk [] (bytes_of "!") ++ bytes_of "0" ++ crlf ++ crlf).
Proof. by vm_compute. Qed.

Definition demo_pos (data : list byte) : nat := default 0%nat (find_header_boundary data).

Definition demo_framing (data : list byte) : RequestFraming :=
  let pos := demo_pos data in
  match next_state_after_headers (from_utf8_lossy (take pos data)) (drop pos data) with
  | Ok framing => framing
  | Err _ => mkFraming AwaitingHeaders 0%nat false
  end.

(** What makes the start of a demonstration request one, as a computation. *)
Definition demo_head_ok (data : list byte) : bool :=
  let pos := demo_pos data in
  negb (bytes_starts_with data crlf || is_http2_preface_prefix data || http_request_line_has_binary_control data)
  && bool_decide (find_header_boundary data = Some pos)
  && match next_state_after_headers (from_utf8_lossy (take pos data)) (drop pos data) with Ok _ => true | Err _ => false end.

Lemma demo_head_framed data :
  let pos := demo_pos data in
  demo_head_ok data = true ->
  plain_head data /\ find_header_boundary data = Some pos
  /\ next_state_after_headers (from_utf8_lossy (take pos data)) (drop pos data) = Ok (demo_framing data).
Proof.
  intros pos. unfold demo_head_ok, demo_framing. fold pos.
  rewrite !andb_true_iff, negb_true_iff, !orb_false_iff, bool_decide_eq_true. intros (([[Hc Hp] Hb] & Hpos) & Hf).
  split_and!; [split_and!; try done; by exists pos|done|by destruct (next_state_after_headers _ _)].
Qed.

Lemma demo_fixed data :
  let pos := demo_pos data in
  demo_head_ok data = true -> parse_transfer_encoding (from_utf8_lossy (take pos data)) = Ok None ->
  rf_state (demo_framing data) = AwaitingHeaders -> rf_body_in_request (demo_framing data) = length (drop pos data) ->
  framed_request data.
Proof.
  intros pos Hh Hte Hs Hn. destruct (demo_head_framed _ Hh) as (Hp & Hpos & Hf). fold pos in Hpos, Hf.
  split; [split; [done|]|by exists pos, (demo_framing data)]. exists pos. rewrite Hte. split; [done|]. by exists (demo_framing data).
Qed.

Lemma demo_chunks data body p t :
  let pos := demo_pos data in
  demo_head_ok data = true -> parse_transfer_encoding (from_utf8_lossy (take pos data)) = Ok (Some TeChunked) ->
  drop pos data = body -> chunked_body body p t -> framed_request data.
Proof.
  intros pos Hh Hte Hb Hc. destruct (demo_head_framed _ Hh) as (Hp & Hpos & Hf). fold pos in Hpos, Hf.
  split; [split; [done|]|by exists pos, (demo_framing data)]. exists pos. rewrite Hte, Hb. split; [done|]. by exists p, t.
Qed.

Lemma demo_framed_get : framed_request demo_get.
Proof. apply demo_fixed; vm_compute; reflexivity. Qed.

Lemma demo_framed_post : framed_request demo_post.
Proof. apply demo_fixed; vm_compute; reflexivity. Qed.

Lemma demo_framed_chunked : framed_request demo_chunked_post.
Proof.
  apply (demo_chunks _ (demo_body "a MSB_TOKEN!") (bytes_of "a MSB_TOKEN!") [crlf]).
  - vm_compute. reflexivity.
  - vm_compute. reflexivity.
  - vm_compute. reflexivity.
  - apply demo_chunked.
Qed.

Lemma demo_framed : Forall framed_request [demo_get; demo_post; demo_chunked_post].
Proof. constructor; [apply demo_framed_get|]. constructor; [apply demo_framed_post|]. constructor; [apply demo_framed_chunked|constructor]. Qed.

Lemma demo_between host : between_requests (demo_handler host).
Proof. done. Qed.

Lemma substitute_recursion_ends_witness :
  exists h1 out, demo_reads_of [demo_get; demo_post_head ++ bytes_of "t=MSB"] (demo_handler (bytes_of "api.example.com")) = (h1, Ok out)
    /\ stream_ok h1.
Proof.
  set (r := demo_reads_of _ _).
  assert (Hr : exists out, r = (r.1, Ok out)) by (vm_compute; eexists; reflexivity). destruct Hr as [out Hr].
  exists (r.1), out. split; [exact Hr|].
  exact (proj1 (@substitute_recursion_ends simple_codecs literal_hpack _ simple_http_parse new_shared 0 (demo_handler (bytes_of "api.example.com"))
    [demo_get; demo_post_head ++ bytes_of "t=MSB"] _ _ (between_stream_ok _ (demo_between _)) Hr)).
Defined.


Lemma pipelined_requests_sequential_witness :
  demo_substitute (mjoin [demo_get; demo_post; demo_chunked_post]) (demo_handler (bytes_of "api.example.com"))
  = demo_reads_of [demo_get; demo_post; demo_chunked_post] (demo_handler (bytes_of "api.example.com")).
Proof.
  apply (@pipelined_requests_sequential simple_codecs literal_hpack _ simple_http_parse new_shared 0); [done | | done].
  eapply Forall_impl; [apply demo_framed|]. by intros ? [? _].
Defined.

Definition demo_post_out : list byte :=
  demo_head ["POST /b HTTP/1.1"; "Host: api.example.com"; "Content-Length: 9"]%string ++ bytes_of "t=s3cr3t;".

Lemma demo_post_run :
  let r := demo_substitute ((demo_post_head ++ bytes_of "t=MSB") ++ mjoin [bytes_of "_TOK"; bytes_of "EN;"]) (demo_handler (bytes_of "api.example.com")) in
  r = (r.1, Ok demo_post_out).
Proof. vm_compute. reflexivity. Qed.

Lemma buffered_request_exact_witness :
  exists h1, demo_reads_of [demo_post_head ++ bytes_of "t=MSB"; bytes_of "_TOK"; bytes_of "EN;"] (demo_handler (bytes_of "api.example.com"))
             = (h1, Ok demo_post_out).
Proof.
  pose proof demo_post_run as Hr. set (r := demo_substitute _ _) in Hr. exists (r.1).
  refine (proj2 (proj1 (@buffered_request_exact simple_codecs literal_hpack _ simple_http_parse new_shared 0
    (demo_handler (bytes_of "api.example.com")) (demo_post_head ++ bytes_of "t=MSB") [bytes_of "_TOK"; bytes_of "EN;"] (length demo_post_head)
    (r.1) demo_post_out (demo_between _) _ _ _ _ _ _ _ _)) Hr);
    [apply demo_head_framed | by repeat constructor | ..]; vm_compute; reflexivity.
Defined.

Lemma rewritten_request_framed_witness :
  exists head_out, demo_post_out = head_out ++ bytes_of "t=s3cr3t;" /\ parse_content_length head_out = Ok (Some 9).
Proof.
  pose proof demo_post_run as Hr. set (r := demo_substitute _ _) in Hr.
  refine (@rewritten_request_framed simple_codecs literal_hpack _ simple_http_parse new_shared 0 (demo_handler (bytes_of "api.example.com"))
    demo_post (length demo_post_head) None None (r.1) demo_post_out (demo_between _) _ _ _ _ _ _ _ _ _ _ _ _ Hr);
    [apply demo_head_framed | ..]; vm_compute; reflexivity.
Defined.
