(* ===== verification/Fragments.v ===== *)
(** * UDP fragment reassembly

    Models [crates/network/lib/engine/udp/fragments.rs]: the bounded IPv4 and
    IPv6 fragment reassemblers in front of the userspace UDP relay.

    The source has the same code twice, once per address family.  The class
    [FragmentFamily] lists what the two copies differ in (the fragment and key
    types, the payload bound, the construction of the result); the reassembler
    is written once over it, with the instances [ipv4_family] and
    [ipv6_family].  The wire formats of Ethernet, IPv4, IPv6 and UDP are parsed and
    emitted by the [smoltcp] crate, which is a class parameter. *)

From S2P Require Import Prelude Addr.

Definition FRAGMENT_TIMEOUT : Z := 10 * 1000000000.
Definition MAX_FRAGMENT_SETS : Z := 64.
Definition MAX_FRAGMENTS_PER_SET : Z := 128.
Definition MAX_IPV4_PAYLOAD_LEN : Z := 65515.
Definition MAX_IPV6_PAYLOAD_LEN : Z := 65535.
Definition ETH_HDR_LEN : Z := 14.
Definition IPV4_HDR_LEN : Z := 20.
Definition IPV6_HDR_LEN : Z := 40.
Definition IPV6_FRAGMENT_HDR_LEN : Z := 8.
Definition MAX_IPV6_EXTENSION_HEADERS : nat := 4.
Definition UDP_HDR_LEN : Z := 8.

Record FragmentPiece := mkPiece { pc_start : Z; pc_end : Z; pc_bytes : list byte }.

Inductive FragmentPush := Accepted | RejectSet.

(** ** Positions *)

Definition ranges_overlap (a_start a_end b_start b_end : Z) : bool :=
  (a_start <? b_end) && (b_start <? a_end).

(** [slice::binary_search_by_key] on a slice sorted by [pc_start]: [Ok] of the
    index of an equal key, [Err] of the number of smaller keys. *)
Fixpoint binary_search_start (pieces : list FragmentPiece) (start : Z) : result nat nat :=
  match pieces with
  | [] => Err 0%nat
  | p :: ps =>
      if pc_start p =? start then Ok 0%nat
      else if start <? pc_start p then Err 0%nat
      else match binary_search_start ps start with Ok i => Ok (S i) | Err i => Err (S i) end
  end.

Definition piece_insert_position (pieces : list FragmentPiece) (start end_ : Z) : option nat :=
  if end_ <=? start then None
  else match binary_search_start pieces start with
       | Ok _ => None
       | Err insert_at =>
           let overlaps_at i :=
             match pieces !! i with
             | Some p => ranges_overlap start end_ (pc_start p) (pc_end p)
             | None => false
             end in
           if (0 <? insert_at)%nat && overlaps_at (insert_at - 1)%nat then None
           else if overlaps_at insert_at then None
           else Some insert_at
       end.

(** [Vec::insert] at an index within the vector. *)
Definition vec_insert {A} (l : list A) (i : nat) (a : A) : list A := take i l ++ a :: drop i l.

(** ** Fragment sets *)

Class FragmentFamily (Frag Key First Datagram : Type) := {
  frag_key : Frag -> Key;
  frag_first : Frag -> First;
  frag_offset : Frag -> Z;
  frag_more : Frag -> bool;
  frag_payload : Frag -> list byte;
  frag_end : Frag -> Z;
  frag_received_at : Frag -> Z;
  max_payload_len : Z;
  (** The end of [try_reassemble]: check the UDP header, build the frame. *)
  finish_datagram : First -> list byte -> option Datagram
}.

Record FragmentSet (First : Type) := mkSet {
  created_at : Z;
  last_active : Z;
  first_fragment : option First;
  pieces : list FragmentPiece;
  total_payload_len : option Z
}.
Arguments mkSet {_}.
Arguments created_at {_}.
Arguments last_active {_}.
Arguments first_fragment {_}.
Arguments pieces {_}.
Arguments total_payload_len {_}.

Section Reassembler.
Context {Frag Key First Datagram : Type} `{Countable Key}.
Context `{!FragmentFamily Frag Key First Datagram}.
Implicit Types (set : FragmentSet First) (f : Frag) (sets : gmap Key (FragmentSet First)).

Definition new_set (now : Z) : FragmentSet First := mkSet now now None [] None.

(** The whole method: [self] after the call, which is partly updated when a
    later check rejects the set, and the verdict. *)
Definition set_push set f : FragmentSet First * FragmentPush :=
  let set := mkSet (created_at set) (frag_received_at f) (first_fragment set) (pieces set)
                   (total_payload_len set) in
  if (zlen (frag_payload f) =? 0) || (max_payload_len <? frag_end f)
     || (MAX_FRAGMENTS_PER_SET <=? zlen (pieces set))
  then (set, RejectSet)
  else if frag_more f && negb (zlen (frag_payload f) `mod` 8 =? 0) then (set, RejectSet)
  else match piece_insert_position (pieces set) (frag_offset f) (frag_end f) with
  | None => (set, RejectSet)
  | Some insert_at =>
      let total' := if frag_more f then total_payload_len set else Some (frag_end f) in
      let conflict := negb (frag_more f)
        && match total_payload_len set with Some len => negb (len =? frag_end f) | None => false end in
      let set := mkSet (created_at set) (last_active set) (first_fragment set) (pieces set) total' in
      if conflict then (set, RejectSet)
      else
        let first_ok := negb ((zlen (frag_payload f) <? UDP_HDR_LEN)
                              || bool_decide (is_Some (first_fragment set))) in
        if (frag_offset f =? 0) && negb first_ok then (set, RejectSet)
        else
          let first' := if frag_offset f =? 0 then Some (frag_first f) else first_fragment set in
          (mkSet (created_at set) (last_active set) first'
                 (vec_insert (pieces set) insert_at
                    (mkPiece (frag_offset f) (frag_end f) (frag_payload f)))
                 (total_payload_len set), Accepted)
  end.

Fixpoint contiguous_from (cursor : Z) (ps : list FragmentPiece) : option Z :=
  match ps with
  | [] => Some cursor
  | p :: ps' =>
      if negb (pc_start p =? cursor) || (pc_end p <=? pc_start p) then None
      else contiguous_from (pc_end p) ps'
  end.

Definition has_contiguous_payload set (total : Z) : bool :=
  match contiguous_from 0 (pieces set) with Some cursor => cursor =? total | None => false end.

(** [payload[start..end].copy_from_slice(&bytes)]; [None] when it panics. *)
Definition copy_piece (payload : list byte) (p : FragmentPiece) : option (list byte) :=
  if (0 <=? pc_start p) && (pc_start p <=? pc_end p) && (pc_end p <=? zlen payload)
     && (zlen (pc_bytes p) =? pc_end p - pc_start p)
  then Some (take (Z.to_nat (pc_start p)) payload ++ pc_bytes p
             ++ drop (Z.to_nat (pc_end p)) payload)
  else None.

Fixpoint copy_pieces (payload : list byte) (ps : list FragmentPiece) : option (list byte) :=
  match ps with
  | [] => Some payload
  | p :: ps' => let* payload' := copy_piece payload p in copy_pieces payload' ps'
  end.

(** The outer [None] is a panic in the copy loop. *)
Definition try_reassemble set : option (option Datagram) :=
  match total_payload_len set, first_fragment set with
  | Some total, Some first =>
      if negb (has_contiguous_payload set total) then Some None
      else
        let* payload := copy_pieces (replicate (Z.to_nat total) Byte.x00) (pieces set) in
        Some (finish_datagram first payload)
  | _, _ => Some None
  end.

(** ** The reassembler *)

(** [Instant::duration_since] saturates at zero. *)
Definition duration_since (now earlier : Z) : Z := Z.max 0 (now - earlier).

Definition fresh set (now : Z) : bool :=
  (duration_since now (created_at set) <=? FRAGMENT_TIMEOUT)
  && (duration_since now (last_active set) <=? FRAGMENT_TIMEOUT).

Definition cleanup_expired sets (now : Z) : gmap Key (FragmentSet First) :=
  filter (fun e => fresh e.2 now = true) sets.

(** [min_by_key] over [(last_active, created_at)]; the first of equal ones. *)
Definition older (a b : FragmentSet First) : bool :=
  (last_active a <? last_active b)
  || ((last_active a =? last_active b) && (created_at a <? created_at b)).

Fixpoint oldest (l : list (Key * FragmentSet First)) : option (Key * FragmentSet First) :=
  match l with
  | [] => None
  | e :: l' =>
      match oldest l' with
      | Some e' => if older e'.2 e.2 then Some e' else Some e
      | None => Some e
      end
  end.

Definition evict_oldest sets : gmap Key (FragmentSet First) :=
  match oldest (map_to_list sets) with Some (key, _) => delete key sets | None => sets end.

(** [push] after parsing: the fragment carries its reception instant, [now] is
    the instant of the cleanup.  The outer [None] of the result is a panic. *)
Definition reassembler_push sets (now : Z) (parsed : option Frag)
  : gmap Key (FragmentSet First) * option (option Datagram) :=
  let sets := cleanup_expired sets now in
  match parsed with
  | None => (sets, Some None)
  | Some f =>
      let key := frag_key f in
      let sets :=
        if bool_decide (sets !! key = None) && (MAX_FRAGMENT_SETS <=? Z.of_nat (size sets))
        then evict_oldest sets else sets in
      let set := default (new_set (frag_received_at f)) (sets !! key) in
      match set_push set f with
      | (_, RejectSet) => (delete key sets, Some None)
      | (set', Accepted) =>
          let sets := <[key := set']> sets in
          let result := try_reassemble set' in
          (match result with Some (Some _) => delete key sets | _ => sets end, result)
      end
  end.

End Reassembler.

(** ** Wire formats: the [smoltcp] crate *)

(** What the accessors of the checked packet views return. *)
Inductive EthernetProtocol := EtherIpv4 | EtherIpv6 | EtherOther.

Record EthernetView (EthernetAddress : Type) := mkEthernetView {
  ev_src : EthernetAddress;
  ev_dst : EthernetAddress;
  ev_ethertype : EthernetProtocol;
  ev_payload : list byte
}.
Arguments ev_src {_}.
Arguments ev_dst {_}.
Arguments ev_ethertype {_}.
Arguments ev_payload {_}.

Record Ipv4View (IpProtocol : Type) := mkIpv4View {
  i4_src : Z; i4_dst : Z; i4_ident : Z; i4_hop_limit : Z;
  i4_frag_offset : Z; i4_more_frags : bool; i4_next_header : IpProtocol; i4_payload : list byte
}.
Arguments i4_src {_}.
Arguments i4_dst {_}.
Arguments i4_ident {_}.
Arguments i4_hop_limit {_}.
Arguments i4_frag_offset {_}.
Arguments i4_more_frags {_}.
Arguments i4_next_header {_}.
Arguments i4_payload {_}.

Record Ipv6View (IpProtocol : Type) := mkIpv6View {
  i6_src : Z; i6_dst : Z; i6_hop_limit : Z; i6_next_header : IpProtocol; i6_payload : list byte
}.
Arguments i6_src {_}.
Arguments i6_dst {_}.
Arguments i6_hop_limit {_}.
Arguments i6_next_header {_}.
Arguments i6_payload {_}.

Record UdpView := mkUdpView { udp_len : Z; udp_src_port : Z; udp_dst_port : Z }.

(** The values the frame constructors hand to the setters. *)
Record Ipv4Emit (EthernetAddress : Type) := mkIpv4Emit {
  em4_frame_len : Z; em4_eth_src : EthernetAddress; em4_eth_dst : EthernetAddress;
  em4_header_len : Z; em4_total_len : Z; em4_ident : Z; em4_hop_limit : Z;
  em4_src : Z; em4_dst : Z; em4_payload : list byte
}.
Record Ipv6Emit (EthernetAddress : Type) := mkIpv6Emit {
  em6_frame_len : Z; em6_eth_src : EthernetAddress; em6_eth_dst : EthernetAddress;
  em6_payload_len : Z; em6_hop_limit : Z; em6_src : Z; em6_dst : Z; em6_payload : list byte
}.
Arguments mkIpv4Emit {_}.
Arguments em4_frame_len {_}.
Arguments em4_total_len {_}.
Arguments em4_payload {_}.
Arguments mkIpv6Emit {_}.
Arguments em6_frame_len {_}.
Arguments em6_payload_len {_}.
Arguments em6_payload {_}.

Class Smoltcp := {
  EthernetAddress : Type;
  IpProtocol : Type;
  #[global] IpProtocol_eq_dec :: EqDecision IpProtocol;
  ip_protocol_of_byte : byte -> IpProtocol;
  ProtoUdp : IpProtocol;
  ProtoIpv6Frag : IpProtocol;
  ProtoHopByHop : IpProtocol;
  ProtoIpv6Route : IpProtocol;
  ProtoIpSecAh : IpProtocol;
  ProtoIpv6Opts : IpProtocol;
  (** [new_checked] of each packet type. *)
  ethernet_checked : list byte -> option (EthernetView EthernetAddress);
  ipv4_checked : list byte -> option (Ipv4View IpProtocol);
  ipv6_checked : list byte -> option (Ipv6View IpProtocol);
  udp_checked : list byte -> option UdpView;
  (** Emission into a zeroed frame of the given length. *)
  ipv4_emit : Ipv4Emit EthernetAddress -> list byte;
  ipv6_emit : Ipv6Emit EthernetAddress -> list byte
}.

Record ReassembledUdpDatagram := mkDatagram {
  dg_frame : list byte;
  dg_src : IpAddr * Z;
  dg_dst : IpAddr * Z
}.

Section Families.
Context `{Smoltcp}.

(** *** IPv4 *)

Record Ipv4FragmentKey := mkKey4 { k4_src : Z; k4_dst : Z; k4_ident : Z }.

#[global] Instance Ipv4FragmentKey_eq_dec : EqDecision Ipv4FragmentKey.
Proof. solve_decision. Defined.
#[global] Instance Ipv4FragmentKey_countable : Countable Ipv4FragmentKey.
Proof.
  refine (inj_countable' (fun k => (k4_src k, k4_dst k, k4_ident k))
                         (fun p => mkKey4 p.1.1 p.1.2 p.2) _).
  by intros [].
Defined.

Record FirstFragment := mkFirst4 {
  ff_eth_src : EthernetAddress; ff_eth_dst : EthernetAddress;
  ff_src_ip : Z; ff_dst_ip : Z; ff_ident : Z; ff_hop_limit : Z
}.

Record Ipv4UdpFragment := mkFragment4 {
  f4_eth_src : EthernetAddress; f4_eth_dst : EthernetAddress;
  f4_src_ip : Z; f4_dst_ip : Z; f4_ident : Z; f4_hop_limit : Z;
  f4_offset : Z; f4_more_frags : bool; f4_payload : list byte; f4_end : Z; f4_received_at : Z
}.

Definition ipv4_fragment_key (f : Ipv4UdpFragment) : Ipv4FragmentKey :=
  mkKey4 (f4_src_ip f) (f4_dst_ip f) (f4_ident f).

Definition ipv4_first_fragment (f : Ipv4UdpFragment) : FirstFragment :=
  mkFirst4 (f4_eth_src f) (f4_eth_dst f) (f4_src_ip f) (f4_dst_ip f) (f4_ident f) (f4_hop_limit f).

Definition is_ipv4_udp_fragment (packet : Ipv4View IpProtocol) : bool :=
  bool_decide (i4_next_header packet = ProtoUdp)
  && (i4_more_frags packet || negb (i4_frag_offset packet =? 0)).

Definition parse_ipv4_udp_fragment (frame : list byte) (received_at : Z) : option Ipv4UdpFragment :=
  let* eth := ethernet_checked frame in
  match ev_ethertype eth with
  | EtherIpv4 =>
      let* ipv4 := ipv4_checked (ev_payload eth) in
      if negb (is_ipv4_udp_fragment ipv4) then None
      else
        let offset := i4_frag_offset ipv4 in
        let payload := i4_payload ipv4 in
        let* end_ := checked_add 64 offset (zlen payload) in
        Some (mkFragment4 (ev_src eth) (ev_dst eth) (i4_src ipv4) (i4_dst ipv4) (i4_ident ipv4)
                (i4_hop_limit ipv4) offset (i4_more_frags ipv4) payload end_ received_at)
  | _ => None
  end.

Definition reassembled_ipv4 (first : FirstFragment) (payload : list byte)
  : Ipv4Emit EthernetAddress :=
  let ip_total_len := IPV4_HDR_LEN + zlen payload in
  mkIpv4Emit (ETH_HDR_LEN + ip_total_len) (ff_eth_src first) (ff_eth_dst first) IPV4_HDR_LEN
    (wrap 16 ip_total_len) (ff_ident first) (ff_hop_limit first) (ff_src_ip first) (ff_dst_ip first)
    payload.

Definition construct_reassembled_frame (first : FirstFragment) (payload : list byte) : list byte :=
  ipv4_emit (reassembled_ipv4 first payload).

Definition finish_ipv4 (first : FirstFragment) (payload : list byte) : option ReassembledUdpDatagram :=
  let* udp := udp_checked payload in
  if negb (udp_len udp =? zlen payload) then None
  else Some (mkDatagram (construct_reassembled_frame first payload)
               (V4 (ff_src_ip first), udp_src_port udp) (V4 (ff_dst_ip first), udp_dst_port udp)).

#[global] Instance ipv4_family
  : FragmentFamily Ipv4UdpFragment Ipv4FragmentKey FirstFragment ReassembledUdpDatagram := {|
  frag_key := ipv4_fragment_key;
  frag_first := ipv4_first_fragment;
  frag_offset := f4_offset;
  frag_more := f4_more_frags;
  frag_payload := f4_payload;
  frag_end := f4_end;
  frag_received_at := f4_received_at;
  max_payload_len := MAX_IPV4_PAYLOAD_LEN;
  finish_datagram := finish_ipv4
|}.

Definition Ipv4UdpFragmentReassembler : Type := gmap Ipv4FragmentKey (FragmentSet FirstFragment).

Definition ipv4_push (sets : Ipv4UdpFragmentReassembler) (now received_at : Z) (frame : list byte)
  : Ipv4UdpFragmentReassembler * option (option ReassembledUdpDatagram) :=
  reassembler_push sets now (parse_ipv4_udp_fragment frame received_at).

(** *** IPv6 *)

Record Ipv6FragmentKey := mkKey6 { k6_src : Z; k6_dst : Z; k6_ident : Z }.

#[global] Instance Ipv6FragmentKey_eq_dec : EqDecision Ipv6FragmentKey.
Proof. solve_decision. Defined.
#[global] Instance Ipv6FragmentKey_countable : Countable Ipv6FragmentKey.
Proof.
  refine (inj_countable' (fun k => (k6_src k, k6_dst k, k6_ident k))
                         (fun p => mkKey6 p.1.1 p.1.2 p.2) _).
  by intros [].
Defined.

Record FirstIpv6Fragment := mkFirst6 {
  ff6_eth_src : EthernetAddress; ff6_eth_dst : EthernetAddress;
  ff6_src_ip : Z; ff6_dst_ip : Z; ff6_hop_limit : Z
}.

Record Ipv6UdpFragment := mkFragment6 {
  f6_eth_src : EthernetAddress; f6_eth_dst : EthernetAddress;
  f6_src_ip : Z; f6_dst_ip : Z; f6_ident : Z; f6_hop_limit : Z;
  f6_offset : Z; f6_more_frags : bool; f6_payload : list byte; f6_end : Z; f6_received_at : Z
}.

Record Ipv6FragmentHeader := mkFragmentHeader {
  fh_next_header : IpProtocol; fh_offset : Z; fh_more_frags : bool; fh_ident : Z
}.

Record Ipv6FragmentInfo := mkFragmentInfo {
  fi_header : Ipv6FragmentHeader; fi_payload_offset : Z
}.

Definition ipv6_fragment_key (f : Ipv6UdpFragment) : Ipv6FragmentKey :=
  mkKey6 (f6_src_ip f) (f6_dst_ip f) (f6_ident f).

Definition ipv6_first_fragment (f : Ipv6UdpFragment) : FirstIpv6Fragment :=
  mkFirst6 (f6_eth_src f) (f6_eth_dst f) (f6_src_ip f) (f6_dst_ip f) (f6_hop_limit f).

Definition fragment_header_parse (bytes : list byte) : option Ipv6FragmentHeader :=
  match bytes with
  | b0 :: b1 :: b2 :: b3 :: b4 :: b5 :: b6 :: b7 :: _ =>
      let raw := be_value [b2; b3] in
      if negb (Z_of_byte b1 =? 0) || negb (Z.land raw 6 =? 0) then None
      else
        let offset_units := Z.shiftr raw 3 in
        Some (mkFragmentHeader (ip_protocol_of_byte b0) (offset_units * 8)
                (negb (Z.land raw 1 =? 0)) (be_value [b4; b5; b6; b7]))
  | _ => None
  end.

Definition is_ipv6_pre_fragment_extension (protocol : IpProtocol) : bool :=
  bool_decide (protocol ∈ [ProtoHopByHop; ProtoIpv6Route; ProtoIpSecAh; ProtoIpv6Opts]).

Definition ipv6_extension_header_len (protocol : IpProtocol) (bytes : list byte) : option Z :=
  let* b := bytes !! 1%nat in
  let payload_len := Z_of_byte b in
  let len := if decide (protocol = ProtoIpSecAh) then (payload_len + 2) * 4 else (payload_len + 1) * 8 in
  if len <=? zlen bytes then Some len else None.

(** [slice.get(from..)] and [slice.get(from..to)]. *)
Definition get_from {A} (l : list A) (from : Z) : option (list A) :=
  if from <=? zlen l then Some (drop (Z.to_nat from) l) else None.
Definition get_range {A} (l : list A) (from to : Z) : option (list A) :=
  if (from <=? to) && (to <=? zlen l) then Some (take (Z.to_nat (to - from)) (drop (Z.to_nat from) l))
  else None.

(** The loop over the extension headers; [fuel] counts its iterations. *)
Fixpoint fragment_info_loop (fuel : nat) (payload : list byte) (next_header : IpProtocol) (offset : Z)
  : option Ipv6FragmentInfo :=
  match fuel with
  | O => None
  | S fuel' =>
      if decide (next_header = ProtoIpv6Frag) then
        let* header_end := checked_add 64 offset IPV6_FRAGMENT_HDR_LEN in
        let* header_bytes := get_range payload offset header_end in
        let* header := fragment_header_parse header_bytes in
        Some (mkFragmentInfo header header_end)
      else if negb (is_ipv6_pre_fragment_extension next_header) then None
      else
        let* extension := get_from payload offset in
        match extension with
        | b0 :: _ :: _ =>
            let* extension_len := ipv6_extension_header_len next_header extension in
            let* offset' := checked_add 64 offset extension_len in
            fragment_info_loop fuel' payload (ip_protocol_of_byte b0) offset'
        | _ => None
        end
  end.

(** [for _ in 0..=MAX_IPV6_EXTENSION_HEADERS]. *)
Definition parse_ipv6_fragment_info (packet : Ipv6View IpProtocol) : option Ipv6FragmentInfo :=
  fragment_info_loop (S MAX_IPV6_EXTENSION_HEADERS) (i6_payload packet) (i6_next_header packet) 0.

Definition is_ipv6_udp_fragment (packet : Ipv6View IpProtocol) : bool :=
  match parse_ipv6_fragment_info packet with
  | Some info => bool_decide (fh_next_header (fi_header info) = ProtoUdp)
  | None => false
  end.

Definition is_ipv6_fragment (packet : Ipv6View IpProtocol) : bool :=
  bool_decide (is_Some (parse_ipv6_fragment_info packet)).

Definition parse_ipv6_udp_fragment (frame : list byte) (received_at : Z) : option Ipv6UdpFragment :=
  let* eth := ethernet_checked frame in
  match ev_ethertype eth with
  | EtherIpv6 =>
      let* ipv6 := ipv6_checked (ev_payload eth) in
      let* fragment := parse_ipv6_fragment_info ipv6 in
      if negb (bool_decide (fh_next_header (fi_header fragment) = ProtoUdp)) then None
      else
        let* fragment_payload := get_from (i6_payload ipv6) (fi_payload_offset fragment) in
        let* end_ := checked_add 64 (fh_offset (fi_header fragment)) (zlen fragment_payload) in
        Some (mkFragment6 (ev_src eth) (ev_dst eth) (i6_src ipv6) (i6_dst ipv6)
                (fh_ident (fi_header fragment)) (i6_hop_limit ipv6) (fh_offset (fi_header fragment))
                (fh_more_frags (fi_header fragment)) fragment_payload end_ received_at)
  | _ => None
  end.

Definition reassembled_ipv6 (first : FirstIpv6Fragment) (payload : list byte)
  : Ipv6Emit EthernetAddress :=
  mkIpv6Emit (ETH_HDR_LEN + IPV6_HDR_LEN + zlen payload) (ff6_eth_src first) (ff6_eth_dst first)
    (wrap 16 (zlen payload)) (ff6_hop_limit first) (ff6_src_ip first) (ff6_dst_ip first) payload.

Definition construct_reassembled_ipv6_frame (first : FirstIpv6Fragment) (payload : list byte)
  : list byte :=
  ipv6_emit (reassembled_ipv6 first payload).

Definition finish_ipv6 (first : FirstIpv6Fragment) (payload : list byte)
  : option ReassembledUdpDatagram :=
  let* udp := udp_checked payload in
  if negb (udp_len udp =? zlen payload) then None
  else Some (mkDatagram (construct_reassembled_ipv6_frame first payload)
               (V6 (ff6_src_ip first), udp_src_port udp) (V6 (ff6_dst_ip first), udp_dst_port udp)).

#[global] Instance ipv6_family
  : FragmentFamily Ipv6UdpFragment Ipv6FragmentKey FirstIpv6Fragment ReassembledUdpDatagram := {|
  frag_key := ipv6_fragment_key;
  frag_first := ipv6_first_fragment;
  frag_offset := f6_offset;
  frag_more := f6_more_frags;
  frag_payload := f6_payload;
  frag_end := f6_end;
  frag_received_at := f6_received_at;
  max_payload_len := MAX_IPV6_PAYLOAD_LEN;
  finish_datagram := finish_ipv6
|}.

Definition Ipv6UdpFragmentReassembler : Type := gmap Ipv6FragmentKey (FragmentSet FirstIpv6Fragment).

Definition ipv6_push (sets : Ipv6UdpFragmentReassembler) (now received_at : Z) (frame : list byte)
  : Ipv6UdpFragmentReassembler * option (option ReassembledUdpDatagram) :=
  reassembler_push sets now (parse_ipv6_udp_fragment frame received_at).

End Families.

(** ** Lemmas on positions *)

Definition piece_before (a b : FragmentPiece) : Prop := pc_end a <= pc_start b.

Definition piece_ok (max : Z) (p : FragmentPiece) : Prop :=
  0 <= pc_start p < pc_end p /\ pc_end p <= max /\ zlen (pc_bytes p) = pc_end p - pc_start p.

Definition overlaps (start end_ : Z) (p : FragmentPiece) : bool :=
  ranges_overlap start end_ (pc_start p) (pc_end p).

Lemma ranges_overlap_false a b c d : a < b -> c < d -> ranges_overlap a b c d = false <-> b <= c \/ d <= a.
Proof. unfold ranges_overlap. intros. rewrite andb_false_iff, !Z.ltb_ge. lia. Qed.

Lemma binary_search_spec max ps start :
  Forall (piece_ok max) ps -> StronglySorted piece_before ps ->
  match binary_search_start ps start with
  | Ok i => exists p, ps !! i = Some p /\ pc_start p = start
  | Err i => (i <= length ps)%nat
             /\ (forall p, p ∈ take i ps -> pc_start p < start)
             /\ (forall p, p ∈ drop i ps -> start < pc_start p)
  end.
Proof.
  induction ps as [|p ps IH]; intros Hok Hs; cbn.
  - split; [lia|]. split; intros p Hp; by apply elem_of_nil in Hp.
  - apply Forall_cons in Hok as [[Hp _] Hok]. apply StronglySorted_inv in Hs as [Hs Hhd].
    destruct (Z.eqb_spec (pc_start p) start) as [<-|Hne]; [by exists p|].
    destruct (Z.ltb_spec start (pc_start p)) as [Hlt|Hge]; cbn.
    + split; [lia|]. split; [intros q Hq; by apply elem_of_nil in Hq|].
      intros q [->|Hq]%elem_of_cons; [done|].
      rewrite Forall_forall in Hhd. specialize (Hhd q Hq). unfold piece_before in Hhd. lia.
    + specialize (IH Hok Hs). destruct (binary_search_start ps start) as [i|i]; cbn; [done|].
      destruct IH as (Hi & H1 & H2). split; [lia|]. split; [|done].
      intros q [->|Hq]%elem_of_cons; [lia|by apply H1].
Qed.

Lemma sorted_lookup_lt {A} (R : A -> A -> Prop) l i j x y :
  StronglySorted R l -> l !! i = Some x -> l !! j = Some y -> (i < j)%nat -> R x y.
Proof.
  intros Hs. revert i j. induction Hs as [|a l Hs IH Hhd]; intros i j Hi Hj Hlt; [done|].
  destruct i as [|i], j as [|j]; cbn in *; try lia.
  - simplify_eq. rewrite Forall_forall in Hhd. apply Hhd. by eapply list_elem_of_lookup_2.
  - eapply IH; [done..|lia].
Qed.

Lemma piece_insert_position_Some max ps start end_ i :
  Forall (piece_ok max) ps -> StronglySorted piece_before ps ->
  piece_insert_position ps start end_ = Some i ->
  start < end_ /\ (i <= length ps)%nat
  /\ (forall p, p ∈ take i ps -> pc_end p <= start) /\ (forall p, p ∈ drop i ps -> end_ <= pc_start p).
Proof.
  intros Hok Hs. unfold piece_insert_position.
  destruct (Z.leb_spec end_ start) as [|Hlt]; [done|].
  pose proof (binary_search_spec max ps start Hok Hs) as Hb.
  destruct (binary_search_start ps start) as [|k]; [done|]. destruct Hb as (Hk & Hbefore & Hafter).
  destruct ((0 <? k)%nat && _) eqn:Eprev; [done|].
  destruct (match ps !! k with Some _ => _ | None => _ end) eqn:Enext; [done|].
  intros [= <-]. rewrite Forall_forall in Hok. split; [done|]. split; [done|]. split.
  - intros p Hp. apply list_elem_of_lookup in Hp as [j Hj]. apply lookup_take_Some in Hj as [Hj Hjk].
    replace (0 <? k)%nat with true in Eprev by (symmetry; apply Nat.ltb_lt; lia). cbn in Eprev.
    destruct (lookup_lt_is_Some_2 ps (k - 1)) as [q Hq]; [lia|]. rewrite Hq in Eprev.
    destruct (Hok q) as [Hqb _]; [by eapply list_elem_of_lookup_2|].
    assert (pc_start q < start) as Hqs.
    { apply Hbefore. apply list_elem_of_lookup. exists (k - 1)%nat. apply lookup_take_Some. split; [done|lia]. }
    apply ranges_overlap_false in Eprev; [|lia..].
    destruct (decide (j = k - 1)%nat) as [->|Hne]; [simplify_eq; lia|].
    assert (piece_before p q) as Hpq by (eapply sorted_lookup_lt; [done..|lia]).
    unfold piece_before in Hpq. lia.
  - intros p Hp. apply list_elem_of_lookup in Hp as [j Hj]. rewrite lookup_drop in Hj.
    destruct (lookup_lt_is_Some_2 ps k) as [q Hq]; [apply lookup_lt_Some in Hj; lia|].
    rewrite Hq in Enext. destruct (Hok q) as [Hqb _]; [by eapply list_elem_of_lookup_2|].
    assert (start < pc_start q) as Hqs.
    { apply Hafter. apply list_elem_of_lookup. exists 0%nat. rewrite lookup_drop. by rewrite Nat.add_0_r. }
    apply ranges_overlap_false in Enext; [|lia..].
    destruct (decide (j = 0)%nat) as [->|Hne]; [rewrite Nat.add_0_r in Hj; simplify_eq; lia|].
    assert (piece_before q p) as Hpq by (eapply sorted_lookup_lt; [done..|lia]).
    unfold piece_before in Hpq. lia.
Qed.

Lemma piece_insert_position_None max ps start end_ :
  Forall (piece_ok max) ps -> StronglySorted piece_before ps -> start < end_ ->
  piece_insert_position ps start end_ = None -> exists p, p ∈ ps /\ overlaps start end_ p = true.
Proof.
  intros Hok Hs Hlt. unfold piece_insert_position, overlaps.
  destruct (Z.leb_spec end_ start) as [|_]; [lia|].
  pose proof (binary_search_spec max ps start Hok Hs) as Hb.
  rewrite Forall_forall in Hok.
  destruct (binary_search_start ps start) as [k|k].
  - intros _. destruct Hb as (p & Hp & <-). exists p.
    assert (p ∈ ps) as Hin by (by eapply list_elem_of_lookup_2). split; [done|].
    destruct (Hok p Hin) as [? _]. unfold ranges_overlap. by rewrite !(proj2 (Z.ltb_lt _ _)) by lia.
  - destruct ((0 <? k)%nat && _) eqn:Eprev.
    + intros _. apply andb_true_iff in Eprev as [_ Ep]. destruct (ps !! (k - 1)%nat) as [p|] eqn:E; [|done].
      exists p. split; [by eapply list_elem_of_lookup_2|done].
    + destruct (ps !! k) as [p|] eqn:E; [|done].
      destruct (ranges_overlap _ _ _ _) eqn:Eo; [|done]. intros _.
      exists p. split; [by eapply list_elem_of_lookup_2|done].
Qed.

Lemma vec_insert_perm {A} (l : list A) i a : vec_insert l i a ≡ₚ a :: l.
Proof.
  unfold vec_insert. rewrite <- Permutation_middle. by rewrite take_drop.
Qed.

Lemma length_vec_insert {A} (l : list A) i a : length (vec_insert l i a) = S (length l).
Proof. by rewrite vec_insert_perm. Qed.

Lemma StronglySorted_app {A} (R : A -> A -> Prop) l1 l2 :
  StronglySorted R l1 -> StronglySorted R l2 -> (forall x y, x ∈ l1 -> y ∈ l2 -> R x y) ->
  StronglySorted R (l1 ++ l2).
Proof.
  intros Hs1 Hs2. induction Hs1 as [|a l1 Hs1 IH Hhd]; intros Hx; [done|]. cbn. constructor.
  - apply IH. intros x y Hx' Hy. apply Hx; [by apply elem_of_cons; right|done].
  - apply Forall_app. split; [done|]. apply Forall_forall. intros y Hy.
    apply Hx; [by apply elem_of_cons; left|done].
Qed.

Lemma StronglySorted_take_drop {A} (R : A -> A -> Prop) i l :
  StronglySorted R l -> StronglySorted R (take i l) /\ StronglySorted R (drop i l).
Proof.
  intros Hs. revert i. induction Hs as [|a l Hs IH Hhd]; intros i.
  - rewrite take_nil, drop_nil. split; constructor.
  - destruct i as [|i]; cbn; [split; constructor; done|].
    destruct (IH i) as [H1 H2]. split; [|done]. constructor; [done|]. by apply Forall_take.
Qed.

Lemma vec_insert_sorted max ps i start end_ bytes :
  Forall (piece_ok max) ps -> StronglySorted piece_before ps ->
  piece_insert_position ps start end_ = Some i ->
  StronglySorted piece_before (vec_insert ps i (mkPiece start end_ bytes)).
Proof.
  intros Hok Hs Hi. destruct (piece_insert_position_Some max ps start end_ i Hok Hs Hi)
    as (Hlt & Hlen & Hb & Ha).
  destruct (StronglySorted_take_drop piece_before i ps Hs) as [H1 H2].
  unfold vec_insert. apply StronglySorted_app; [done| |].
  - constructor; [done|]. apply Forall_forall. intros p Hp. by apply Ha.
  - intros x y Hx [->|Hy]%elem_of_cons.
    + unfold piece_before. cbn. by apply Hb.
    + specialize (Hb x Hx). specialize (Ha y Hy). unfold piece_before. lia.
Qed.

(** ** Lemmas on sets *)

Section SetProofs.
Context {Frag Key First Datagram : Type} `{Countable Key}.
Context `{!FragmentFamily Frag Key First Datagram}.
Implicit Types (set : FragmentSet First) (f : Frag).

(** What the parsers guarantee of a fragment. *)
Definition frag_ok f : Prop := 0 <= frag_offset f /\ frag_end f = frag_offset f + zlen (frag_payload f).

Definition piece_of f : FragmentPiece := mkPiece (frag_offset f) (frag_end f) (frag_payload f).

Record set_wf set : Prop := {
  sw_ok : Forall (piece_ok max_payload_len) (pieces set);
  sw_sorted : StronglySorted piece_before (pieces set);
  sw_count : zlen (pieces set) <= MAX_FRAGMENTS_PER_SET;
  sw_first : is_Some (first_fragment set) <-> exists p, p ∈ pieces set /\ pc_start p = 0;
  sw_total : forall t, total_payload_len set = Some t -> exists p, p ∈ pieces set /\ pc_end p = t
}.

Lemma new_set_wf now : set_wf (new_set now).
Proof.
  split; cbn; try done; try constructor.
  - by intros [? ?].
  - intros (p & Hp & _). by apply elem_of_nil in Hp.
Qed.

(** The conditions under which a fragment is accepted. *)
Definition acceptable set f : Prop :=
  frag_payload f <> [] /\ frag_end f <= max_payload_len
  /\ zlen (pieces set) < MAX_FRAGMENTS_PER_SET
  /\ (frag_more f = true -> zlen (frag_payload f) `mod` 8 = 0)
  /\ (forall p, p ∈ pieces set -> overlaps (frag_offset f) (frag_end f) p = false)
  /\ (frag_more f = false -> total_payload_len set = None \/ total_payload_len set = Some (frag_end f))
  /\ (frag_offset f = 0 -> UDP_HDR_LEN <= zlen (frag_payload f)).

Definition pushed_set set f (i : nat) : FragmentSet First :=
  mkSet (created_at set) (frag_received_at f)
    (if frag_offset f =? 0 then Some (frag_first f) else first_fragment set)
    (vec_insert (pieces set) i (piece_of f))
    (if frag_more f then total_payload_len set else Some (frag_end f)).

Lemma set_push_cases set f :
  set_wf set -> frag_ok f ->
  (acceptable set f
   /\ exists i, piece_insert_position (pieces set) (frag_offset f) (frag_end f) = Some i
                /\ set_push set f = (pushed_set set f i, Accepted))
  \/ (~ acceptable set f /\ (set_push set f).2 = RejectSet).
Proof.
  intros Hwf [Hoff Hend]. unfold set_push, acceptable. cbn [pieces total_payload_len first_fragment].
  destruct (_ || _) eqn:E1.
  { right. split; [|done]. intros (Hne & Hmax & Hcnt & _).
    apply orb_true_iff in E1 as [[E1%Z.eqb_eq|E1%Z.ltb_lt]%orb_true_iff|E1%Z.leb_le]; [|lia..].
    destruct (frag_payload f); [done|cbn in E1; lia]. }
  apply orb_false_iff in E1 as [[E1 E2]%orb_false_iff E3]. breflect.
  destruct (frag_more f && _) eqn:E4.
  { right. split; [|done]. intros (_ & _ & _ & Hmod & _). breflect. naive_solver. }
  destruct (piece_insert_position _ _ _) as [i|] eqn:Ei.
  2:{ right. split; [|done]. intros (_ & _ & _ & _ & Hov & _).
      destruct (piece_insert_position_None max_payload_len (pieces set) (frag_offset f) (frag_end f))
        as (p & Hp & Ho); [apply Hwf..|lia|done|]. by rewrite Hov in Ho. }
  destruct (piece_insert_position_Some max_payload_len (pieces set) (frag_offset f) (frag_end f) i)
    as (Hlt & Hi & Hb & Ha); [apply Hwf..|done|].
  assert (forall p, p ∈ pieces set -> overlaps (frag_offset f) (frag_end f) p = false) as Hno.
  { intros p Hp. pose proof (sw_ok set Hwf) as Hok. rewrite Forall_forall in Hok.
    destruct (Hok p Hp) as [Hpb _]. unfold overlaps. apply ranges_overlap_false; [lia..|].
    rewrite <- (take_drop i (pieces set)), elem_of_app in Hp.
    destruct Hp as [Hp|Hp]; [right; by apply Hb|left; by apply Ha]. }
  destruct (negb (frag_more f) && _) eqn:E5.
  { right. split; [|done]. intros (_ & _ & _ & _ & _ & Ht & _).
    apply andb_true_iff in E5 as [Em%negb_true_iff E5]. destruct (Ht Em) as [Hn|Hs].
    - by rewrite Hn in E5.
    - rewrite Hs in E5. by rewrite Z.eqb_refl in E5. }
  destruct ((frag_offset f =? 0) && _) eqn:E6.
  { right. split; [|done]. intros (_ & _ & _ & _ & _ & _ & Hu).
    apply andb_true_iff in E6 as [E6%Z.eqb_eq E7]. rewrite negb_involutive in E7.
    apply orb_true_iff in E7 as [E7%Z.ltb_lt|E7%bool_decide_eq_true].
    - specialize (Hu E6). lia.
    - apply (sw_first set Hwf) in E7 as (p & Hp & Hp0).
      pose proof (sw_ok set Hwf) as Hok. rewrite Forall_forall in Hok. destruct (Hok p Hp) as [Hpb _].
      specialize (Hno p Hp). unfold overlaps in Hno. apply ranges_overlap_false in Hno; lia. }
  left. split; [|by exists i].
  split; [intros Hnil; by rewrite Hnil in E1|]. split; [lia|]. split; [done|].
  split; [intros Hm; rewrite Hm in E4; cbn in E4; by breflect|]. split; [done|].
  split.
  - intros Hm. rewrite Hm in E5. cbn in E5. destruct (total_payload_len set); [|by left].
    breflect. right. by f_equal.
  - intros Ho. rewrite Ho in E6. cbn in E6. rewrite negb_involutive in E6. breflect. done.
Qed.

Lemma pushed_set_wf set f i :
  set_wf set -> frag_ok f -> acceptable set f ->
  piece_insert_position (pieces set) (frag_offset f) (frag_end f) = Some i ->
  set_wf (pushed_set set f i).
Proof.
  intros Hwf [Hoff Hend] (Hne & Hmax & Hcnt & _ & _ & Ht & _) Hi.
  assert (0 < zlen (frag_payload f)) by (destruct (frag_payload f); [done|cbn; lia]).
  assert (forall p, p ∈ vec_insert (pieces set) i (piece_of f) <-> p = piece_of f \/ p ∈ pieces set)
    as Hin by (intros p; by rewrite vec_insert_perm, elem_of_cons).
  split; cbn [pieces first_fragment total_payload_len pushed_set].
  - rewrite vec_insert_perm. constructor; [|apply Hwf]. unfold piece_ok. cbn. lia.
  - eapply vec_insert_sorted; [apply Hwf..|done].
  - rewrite length_vec_insert. unfold MAX_FRAGMENTS_PER_SET in *. lia.
  - setoid_rewrite Hin. destruct (Z.eqb_spec (frag_offset f) 0) as [Hz|Hz].
    + split; [|by eauto]. intros _. exists (piece_of f). by split; [left|].
    + rewrite (sw_first set Hwf). split; [naive_solver|]. intros (p & [->|Hp] & Hp0); [done|eauto].
  - intros t Htt. setoid_rewrite Hin. destruct (frag_more f).
    + destruct (sw_total set Hwf t Htt) as (p & ? & ?). exists p. auto.
    + injection Htt as <-. exists (piece_of f). by split; [left|].
Qed.

(** *** Copying a contiguous chain of pieces rebuilds the concatenation *)

Definition chain_bytes (ps : list FragmentPiece) : list byte := concat (pc_bytes <$> ps).

Lemma contiguous_chain_length max ps a b :
  Forall (piece_ok max) ps -> contiguous_from a ps = Some b -> zlen (chain_bytes ps) = b - a.
Proof.
  revert a. induction ps as [|p ps IH]; intros a Hok; cbn.
  - intros [= <-]. lia.
  - apply Forall_cons in Hok as [(_ & _ & Hl) Hok].
    destruct (negb _ || _) eqn:E; [done|]. breflect. intros Hc%IH; [|done].
    unfold chain_bytes in *. cbn. rewrite length_app. lia.
Qed.

Lemma copy_pieces_chain max ps a b payload :
  Forall (piece_ok max) ps -> 0 <= a -> contiguous_from a ps = Some b -> b <= zlen payload ->
  copy_pieces payload ps
  = Some (take (Z.to_nat a) payload ++ chain_bytes ps ++ drop (Z.to_nat b) payload).
Proof.
  revert a payload. induction ps as [|p ps IH]; intros a payload Hok Ha.
  - cbn. intros [= <-] _. by rewrite take_drop.
  - cbn [contiguous_from]. destruct (negb _ || _) eqn:E; [done|]. breflect.
    intros Hc Hb. apply Forall_cons in Hok as [Hp Hok]. destruct Hp as (Hb1 & _ & Hlen).
    pose proof (contiguous_chain_length max ps _ _ Hok Hc) as Hcl.
    cbn [copy_pieces]. unfold copy_piece.
    replace (_ && _) with true.
    2:{ symmetry. rewrite !andb_true_iff, !Z.leb_le, Z.eqb_eq. lia. }
    rewrite (IH (pc_end p)); [|done|lia|done|].
    2:{ rewrite !length_app, length_take, length_drop. lia. }
    f_equal. unfold chain_bytes. cbn. rewrite <- app_assoc. subst a.
    assert (length (take (Z.to_nat (pc_start p)) payload) = Z.to_nat (pc_start p)) as Hlt
      by (rewrite length_take; lia).
    assert (length (take (Z.to_nat (pc_start p)) payload ++ pc_bytes p) = Z.to_nat (pc_end p)) as Hle
      by (rewrite length_app, Hlt; lia).
    rewrite (app_assoc (take _ payload) (pc_bytes p) (drop _ payload)).
    rewrite take_app_length' by done. rewrite <- app_assoc. do 3 f_equal.
    rewrite drop_app_ge, drop_drop by lia. f_equal. lia.
Qed.

Lemma try_reassemble_spec set :
  set_wf set ->
  try_reassemble set
  = Some (match total_payload_len set, first_fragment set with
          | Some total, Some first =>
              if bool_decide (contiguous_from 0 (pieces set) = Some total)
              then finish_datagram first (chain_bytes (pieces set)) else None
          | _, _ => None
          end).
Proof.
  intros Hwf. unfold try_reassemble, has_contiguous_payload.
  destruct (total_payload_len set) as [total|]; [|done]. destruct (first_fragment set) as [first|]; [|done].
  destruct (contiguous_from 0 (pieces set)) as [b|] eqn:Ec; [|by rewrite bool_decide_false].
  destruct (Z.eqb_spec b total) as [->|Hne]; cbn; [|rewrite bool_decide_false; congruence].
  pose proof (contiguous_chain_length _ _ _ _ (sw_ok set Hwf) Ec) as Hl.
  rewrite (copy_pieces_chain _ _ _ _ _ (sw_ok set Hwf) (Z.le_refl 0) Ec)
    by (rewrite length_replicate; lia).
  rewrite bool_decide_true by done. cbn. rewrite drop_ge by (rewrite length_replicate; lia).
  by rewrite app_nil_r.
Qed.

Lemma contiguous_sorted max ps a b :
  Forall (piece_ok max) ps -> contiguous_from a ps = Some b ->
  StronglySorted piece_before ps /\ a <= b /\ forall p, p ∈ ps -> a <= pc_start p /\ pc_end p <= b.
Proof.
  revert a. induction ps as [|p ps IH]; intros a Hok; cbn.
  - intros [= <-]. split; [constructor|]. split; [lia|]. intros p Hp. by apply elem_of_nil in Hp.
  - apply Forall_cons in Hok as [(Hp & _) Hok].
    destruct (negb _ || _) eqn:E; [done|]. breflect. intros Hc.
    destruct (IH _ Hok Hc) as (Hs & Hab & Hall). split; [|split; [lia|]].
    + constructor; [done|]. apply Forall_forall. intros q Hq. unfold piece_before.
      by destruct (Hall q Hq).
    + intros q [->|Hq]%elem_of_cons; [lia|]. destruct (Hall q Hq). lia.
Qed.

Lemma contiguous_last max ps a b :
  Forall (piece_ok max) ps -> contiguous_from a ps = Some b -> a < b -> exists p, p ∈ ps /\ pc_end p = b.
Proof.
  revert a. induction ps as [|p ps IH]; intros a Hok; cbn; [intros [= <-]; lia|].
  apply Forall_cons in Hok as [Hp Hok]. destruct (negb _ || _) eqn:E; [done|]. breflect.
  intros Hc _. destruct (decide (pc_end p = b)) as [He|Hne].
  - exists p. split; [by apply elem_of_cons; left|done].
  - pose proof (contiguous_sorted max ps _ _ Hok Hc) as (_ & Hab & _).
    destruct (IH _ Hok Hc) as (q & Hq & Hqe); [lia|]. exists q. split; [by apply elem_of_cons; right|done].
Qed.

Lemma contiguous_head max ps b :
  Forall (piece_ok max) ps -> contiguous_from 0 ps = Some b -> 0 < b -> exists p, p ∈ ps /\ pc_start p = 0.
Proof.
  destruct ps as [|p ps]; cbn; [intros _ [= <-]; lia|]. intros _.
  destruct (negb _ || _) eqn:E; [done|]. breflect. intros _ _. exists p.
  split; [by apply elem_of_cons; left|done].
Qed.

Lemma chain_bytes_perm ps qs : ps ≡ₚ qs -> length (chain_bytes ps) = length (chain_bytes qs).
Proof.
  intros Hp. unfold chain_bytes. rewrite !length_concat. by rewrite Hp.
Qed.

Lemma sorted_pieces_unique max ps qs :
  Forall (piece_ok max) ps -> StronglySorted piece_before ps -> StronglySorted piece_before qs ->
  ps ≡ₚ qs -> ps = qs.
Proof.
  intros Hok Hs1 Hs2 Hp. apply (StronglySorted_unique_strong piece_before); [|done..].
  intros x y Hx Hy Hxy Hyx. rewrite Forall_forall in Hok. rewrite <- Hp in Hy.
  destruct (Hok x Hx) as [? _], (Hok y Hy) as [? _]. unfold piece_before in *. lia.
Qed.

Lemma sorted_pieces_NoDup max ps :
  Forall (piece_ok max) ps -> StronglySorted piece_before ps -> NoDup ps.
Proof.
  intros Hok Hs. induction Hs as [|p ps Hs IH Hhd]; [constructor|].
  apply Forall_cons in Hok as [[Hp _] Hok]. constructor; [|by apply IH].
  intros Hin. rewrite Forall_forall in Hhd. specialize (Hhd p Hin). unfold piece_before in Hhd. lia.
Qed.

Lemma sorted_pieces_disjoint max ps p q :
  Forall (piece_ok max) ps -> StronglySorted piece_before ps -> p ∈ ps -> q ∈ ps -> p <> q ->
  overlaps (pc_start p) (pc_end p) q = false.
Proof.
  intros Hok Hs Hp Hq Hne. rewrite Forall_forall in Hok.
  destruct (Hok p Hp) as [? _], (Hok q Hq) as [? _].
  apply list_elem_of_lookup in Hp as [i Hi]. apply list_elem_of_lookup in Hq as [j Hj].
  unfold overlaps. apply ranges_overlap_false; [lia..|].
  destruct (lt_eq_lt_dec i j) as [[Hlt| ->]|Hlt].
  - pose proof (sorted_lookup_lt _ _ _ _ _ _ Hs Hi Hj Hlt) as Hb. unfold piece_before in Hb. lia.
  - congruence.
  - pose proof (sorted_lookup_lt _ _ _ _ _ _ Hs Hj Hi Hlt) as Hb. unfold piece_before in Hb. lia.
Qed.

(** ** Fragmentations of a payload *)

(** [fs], in the order of arrival, are the fragments of [payload]. *)
Record fragmentation (payload : list byte) (fs : list Frag) : Prop := {
  fg_ok : Forall frag_ok fs;
  fg_nonempty : Forall (fun f => frag_payload f <> []) fs;
  fg_cover : exists ps, ps ≡ₚ (piece_of <$> fs) /\ contiguous_from 0 ps = Some (zlen payload)
                        /\ chain_bytes ps = payload;
  fg_more : Forall (fun f => frag_more f = negb (frag_end f =? zlen payload)) fs;
  fg_align : Forall (fun f => frag_more f = true -> zlen (frag_payload f) `mod` 8 = 0) fs;
  fg_head : Forall (fun f => frag_offset f = 0 -> UDP_HDR_LEN <= zlen (frag_payload f)) fs;
  fg_count : zlen fs <= MAX_FRAGMENTS_PER_SET;
  fg_max : zlen payload <= max_payload_len
}.

(** The set after the first fragments [arrived] of [fs] have arrived. *)
Record progress (payload : list byte) (fs arrived : list Frag) set : Prop := {
  pg_wf : set_wf set;
  pg_pieces : pieces set ≡ₚ (piece_of <$> arrived);
  pg_first : forall f, f ∈ arrived -> frag_offset f = 0 -> first_fragment set = Some (frag_first f);
  pg_total : total_payload_len set
             = if existsb (fun f => negb (frag_more f)) arrived then Some (zlen payload) else None;
  pg_created : exists f, f ∈ fs /\ created_at set = frag_received_at f;
  pg_active : exists f, f ∈ fs /\ last_active set = frag_received_at f
}.

Section Fragmentation.
Context (payload : list byte) (fs : list Frag).
Hypothesis Hfg : fragmentation payload fs.

Lemma fragmentation_pieces_ok ps :
  ps ≡ₚ (piece_of <$> fs) -> contiguous_from 0 ps = Some (zlen payload) ->
  Forall (piece_ok max_payload_len) ps.
Proof.
  intros Hp Hc.
  assert (Forall (fun p => 0 <= pc_start p < pc_end p /\ zlen (pc_bytes p) = pc_end p - pc_start p) ps)
    as Hbase.
  { rewrite Hp, Forall_fmap. pose proof (fg_ok _ _ Hfg) as Hok. pose proof (fg_nonempty _ _ Hfg) as Hne.
    rewrite Forall_forall in *. intros f Hf. cbn. destruct (Hok f Hf) as [? ->].
    specialize (Hne f Hf). destruct (frag_payload f); [done|cbn]. lia. }
  pose proof (fg_max _ _ Hfg) as Hmax.
  assert (Forall (piece_ok (Z.max (zlen payload) (foldr Z.max 0 (pc_end <$> ps)))) ps) as Hwide.
  { clear Hc Hp. apply Forall_forall. intros p Hin. rewrite Forall_forall in Hbase.
    destruct (Hbase p Hin) as [Hb Hl]. split; [done|]. split; [|done]. clear Hbase Hb Hl.
    induction ps as [|q ps IH]; [by apply elem_of_nil in Hin|]. cbn.
    apply elem_of_cons in Hin as [->|Hin]; [lia|]. specialize (IH Hin). lia. }
  destruct (contiguous_sorted _ _ _ _ Hwide Hc) as (_ & _ & Hall).
  apply Forall_forall. intros p Hin. rewrite Forall_forall in Hbase.
  destruct (Hbase p Hin) as [? ?], (Hall p Hin) as [? ?]. unfold piece_ok. lia.
Qed.

Lemma progress_acceptable arrived f rest set :
  arrived ++ f :: rest = fs -> progress payload fs arrived set -> acceptable set f.
Proof.
  intros Hfs Hpg. destruct (fg_cover _ _ Hfg) as (ps & Hps & Hc & Hb).
  pose proof (fragmentation_pieces_ok ps Hps Hc) as Hok.
  destruct (contiguous_sorted _ _ _ _ Hok Hc) as (Hs & _ & Hall).
  assert (f ∈ fs) as Hf by (rewrite <- Hfs, elem_of_app, elem_of_cons; auto).
  assert (piece_of f ∈ ps) as Hfp by (rewrite Hps; by apply list_elem_of_fmap_2).
  assert (forall P, Forall P fs -> P f) as Hall_f by (intros P; rewrite Forall_forall; auto).
  split; [apply (Hall_f _ (fg_nonempty _ _ Hfg))|].
  split; [pose proof (fg_max _ _ Hfg); destruct (Hall _ Hfp); cbn in *; lia|].
  split.
  { rewrite (pg_pieces _ _ _ _ Hpg), length_fmap. pose proof (fg_count _ _ Hfg) as Hcnt.
    rewrite <- Hfs, length_app in Hcnt. cbn in Hcnt. lia. }
  split; [apply (Hall_f _ (fg_align _ _ Hfg))|].
  split.
  { intros q Hq. rewrite (pg_pieces _ _ _ _ Hpg) in Hq.
    assert (piece_of f :: (piece_of <$> arrived) ++ (piece_of <$> rest) ≡ₚ ps) as Hperm.
    { rewrite Hps, <- Hfs, fmap_app. cbn. by rewrite Permutation_middle. }
    apply (sorted_pieces_disjoint _ ps (piece_of f) q Hok Hs Hfp).
    - rewrite <- Hperm, elem_of_cons, elem_of_app. auto.
    - intros <-. pose proof (sorted_pieces_NoDup _ ps Hok Hs) as Hnd. rewrite <- Hperm in Hnd.
      apply NoDup_cons in Hnd as [Hnin _]. apply Hnin, elem_of_app. by left. }
  split; [|apply (Hall_f _ (fg_head _ _ Hfg))].
  intros Hm. pose proof (Hall_f _ (fg_more _ _ Hfg)) as Hmore. cbn in Hmore. rewrite Hm in Hmore.
  symmetry in Hmore. breflect. rewrite (pg_total _ _ _ _ Hpg), Hmore.
  destruct (existsb _ arrived); [by right|by left].
Qed.

Lemma progress_step arrived f rest set :
  arrived ++ f :: rest = fs -> progress payload fs arrived set ->
  exists set', set_push set f = (set', Accepted) /\ progress payload fs (arrived ++ [f]) set'.
Proof.
  intros Hfs Hpg. pose proof (progress_acceptable arrived f rest set Hfs Hpg) as Hacc.
  assert (f ∈ fs) as Hf by (rewrite <- Hfs, elem_of_app, elem_of_cons; auto).
  assert (forall P, Forall P fs -> P f) as Hall_f by (intros P; rewrite Forall_forall; auto).
  assert (frag_ok f) as Hok by apply (Hall_f _ (fg_ok _ _ Hfg)).
  destruct (set_push_cases set f (pg_wf _ _ _ _ Hpg) Hok) as [(_ & i & Hi & Hpush)|[Hn _]]; [|done].
  exists (pushed_set set f i). split; [done|].
  pose proof (pushed_set_wf set f i (pg_wf _ _ _ _ Hpg) Hok Hacc Hi) as Hwf'. split; [done|..]; cbn.
  - rewrite vec_insert_perm, (pg_pieces _ _ _ _ Hpg), fmap_app. cbn.
    by rewrite <- Permutation_cons_append.
  - intros g Hg Hg0. apply elem_of_app in Hg as [Hg| ->%list_elem_of_singleton].
    + destruct (Z.eqb_spec (frag_offset f) 0) as [Hz|Hz]; [|by apply (pg_first _ _ _ _ Hpg)].
      exfalso. destruct Hacc as (_ & _ & _ & _ & Hno & _).
      assert (piece_of g ∈ pieces set) as Hgp
        by (rewrite (pg_pieces _ _ _ _ Hpg); by apply list_elem_of_fmap_2).
      specialize (Hno _ Hgp). pose proof (sw_ok _ (pg_wf _ _ _ _ Hpg)) as Hoks.
      rewrite Forall_forall in Hoks. destruct (Hoks _ Hgp) as [Hgb _]. cbn in Hgb.
      pose proof (Hall_f _ (fg_nonempty _ _ Hfg)) as Hne. cbn in Hne. destruct Hok as [_ Hend].
      assert (0 < zlen (frag_payload f)) by (destruct (frag_payload f); [done|cbn; lia]).
      unfold overlaps in Hno. cbn in Hno. apply ranges_overlap_false in Hno; lia.
    + by rewrite Hg0.
  - rewrite existsb_app, (pg_total _ _ _ _ Hpg). cbn. rewrite orb_false_r.
    pose proof (Hall_f _ (fg_more _ _ Hfg)) as Hm. cbn in Hm.
    destruct (frag_more f) eqn:Em; cbn; [by rewrite orb_false_r|].
    rewrite orb_true_r. symmetry in Hm. breflect. by rewrite Hm.
  - apply (pg_created _ _ _ _ Hpg).
  - by exists f.
Qed.

Lemma progress_new f : f ∈ fs -> progress payload fs [] (new_set (frag_received_at f)).
Proof.
  intros Hf. split; cbn; try done; [apply new_set_wf| |by exists f..].
  intros g Hg. by apply elem_of_nil in Hg.
Qed.

Lemma progress_incomplete arrived f rest set :
  arrived ++ f :: rest = fs -> progress payload fs arrived set -> try_reassemble set = Some None.
Proof.
  intros Hfs Hpg. rewrite try_reassemble_spec by apply Hpg. f_equal.
  destruct (total_payload_len set) as [total|] eqn:Et; [|done].
  destruct (first_fragment set) as [first|]; [|done].
  rewrite (pg_total _ _ _ _ Hpg) in Et. destruct (existsb _ arrived); [|done]. injection Et as <-.
  rewrite bool_decide_false; [done|]. intros Hc.
  pose proof (contiguous_chain_length _ _ _ _ (sw_ok _ (pg_wf _ _ _ _ Hpg)) Hc) as Hl.
  rewrite (chain_bytes_perm _ _ (pg_pieces _ _ _ _ Hpg)) in Hl.
  destruct (fg_cover _ _ Hfg) as (ps & Hps & _ & Hb).
  assert (f ∈ fs) as Hf by (rewrite <- Hfs, elem_of_app, elem_of_cons; auto).
  pose proof (fg_nonempty _ _ Hfg) as Hne. rewrite Forall_forall in Hne. specialize (Hne f Hf).
  assert (length payload = length (chain_bytes (piece_of <$> fs))) as Hall
    by (rewrite <- Hb; by apply chain_bytes_perm).
  unfold chain_bytes in *. rewrite <- Hfs, fmap_app in Hall. cbn in Hall.
  rewrite fmap_app, concat_app in Hall. cbn in Hall. rewrite !length_app in Hall.
  destruct (frag_payload f); [done|]. cbn in Hall. lia.
Qed.

Lemma progress_complete set :
  0 < zlen payload -> progress payload fs fs set ->
  exists f, f ∈ fs /\ frag_offset f = 0
            /\ try_reassemble set = Some (finish_datagram (frag_first f) payload).
Proof.
  intros Hpos Hpg. destruct (fg_cover _ _ Hfg) as (ps & Hps & Hc & Hb).
  pose proof (fragmentation_pieces_ok ps Hps Hc) as Hok.
  destruct (contiguous_sorted _ _ _ _ Hok Hc) as (Hs & _ & _).
  assert (pieces set = ps) as Hpieces.
  { apply (sorted_pieces_unique max_payload_len); try apply Hpg; [done|].
    rewrite Hps. apply Hpg. }
  destruct (contiguous_head _ _ _ Hok Hc Hpos) as (p0 & Hp0 & Hp0s).
  rewrite Hps in Hp0. apply list_elem_of_fmap in Hp0 as (f & -> & Hf).
  exists f. split; [done|]. split; [done|].
  rewrite try_reassemble_spec by apply Hpg.
  rewrite (pg_first _ _ _ _ Hpg f Hf Hp0s), (pg_total _ _ _ _ Hpg).
  replace (existsb _ fs) with true.
  { rewrite Hpieces, bool_decide_true by done. by rewrite Hb. }
  symmetry. apply existsb_exists.
  destruct (contiguous_last _ _ _ _ Hok Hc Hpos) as (p1 & Hp1 & Hp1e).
  rewrite Hps in Hp1. apply list_elem_of_fmap in Hp1 as (g & -> & Hg). exists g.
  split; [by apply list_elem_of_In|]. pose proof (fg_more _ _ Hfg) as Hm.
  rewrite Forall_forall in Hm. rewrite (Hm g Hg). cbn in Hp1e. by rewrite Hp1e, Z.eqb_refl.
Qed.

End Fragmentation.
End SetProofs.

(** ** Lemmas on the reassembler *)

Section ReassemblerProofs.
Context {Frag Key First Datagram : Type} `{Countable Key}.
Context `{!FragmentFamily Frag Key First Datagram}.
Implicit Types (set : FragmentSet First) (f : Frag) (sets : gmap Key (FragmentSet First)).

Record reassembler_wf sets : Prop := {
  rw_sets : map_Forall (fun _ set => set_wf set) sets;
  rw_size : Z.of_nat (size sets) <= MAX_FRAGMENT_SETS
}.

Lemma oldest_None (l : list (Key * FragmentSet First)) : oldest l = None <-> l = [].
Proof.
  destruct l as [|e l]; [done|]. cbn. split; [|done].
  destruct (oldest l); [destruct (older _ _)|]; discriminate.
Qed.

Lemma oldest_Some (l : list (Key * FragmentSet First)) e :
  oldest l = Some e -> e ∈ l /\ forall e', e' ∈ l -> older e'.2 e.2 = false.
Proof.
  revert e. induction l as [|x l IH]; intros e; [done|]. cbn.
  assert (forall s : FragmentSet First, older s s = false) as Hirr.
  { intros s. unfold older. rewrite !Z.ltb_irrefl. by rewrite andb_false_r. }
  destruct (oldest l) as [y|] eqn:E.
  - destruct (IH y eq_refl) as [Hin Hmin].
    destruct (older y.2 x.2) eqn:Ho; intros [= <-]; split.
    + apply elem_of_cons. by right.
    + intros e' [->|He']%elem_of_cons; [|by apply Hmin].
      unfold older in *. destruct (Z.ltb_spec (last_active y.2) (last_active x.2)); cbn in *;
        rewrite ?orb_false_iff, ?andb_false_iff, ?Z.ltb_ge, ?Z.eqb_neq; breflect; lia.
    + apply elem_of_cons. by left.
    + intros e' [->|He']%elem_of_cons; [done|]. specialize (Hmin e' He').
      unfold older in *. apply orb_false_iff in Ho as [Ho1 Ho2], Hmin as [Hm1 Hm2].
      apply andb_false_iff in Ho2, Hm2. rewrite !Z.ltb_ge, !Z.eqb_neq in *.
      rewrite orb_false_iff, andb_false_iff, !Z.ltb_ge, Z.eqb_neq. lia.
  - apply oldest_None in E as ->. intros [= <-]. split; [by apply list_elem_of_singleton|].
    intros e' ->%list_elem_of_singleton. done.
Qed.

Lemma cleanup_expired_lookup sets now k set :
  cleanup_expired sets now !! k = Some set <-> sets !! k = Some set /\ fresh set now = true.
Proof. unfold cleanup_expired. by rewrite map_lookup_filter_Some. Qed.

Lemma cleanup_expired_wf sets now : reassembler_wf sets -> reassembler_wf (cleanup_expired sets now).
Proof.
  intros [Hs Hn]. split.
  - intros k set [Hk _]%cleanup_expired_lookup. by apply (Hs k).
  - assert (size (cleanup_expired sets now) <= size sets)%nat; [|lia].
    apply map_subseteq_size, map_subseteq_spec. intros k set. rewrite cleanup_expired_lookup. by intros [].
Qed.

(** After making room, a set for [key] can be added. *)
Definition make_room sets (key : Key) : gmap Key (FragmentSet First) :=
  if bool_decide (sets !! key = None) && (MAX_FRAGMENT_SETS <=? Z.of_nat (size sets))
  then evict_oldest sets else sets.

Lemma evict_oldest_subseteq sets : evict_oldest sets ⊆ sets.
Proof.
  unfold evict_oldest. destruct (oldest _) as [[k ?]|]; [|done]. apply delete_subseteq.
Qed.

Lemma make_room_wf sets key :
  reassembler_wf sets ->
  map_Forall (fun _ set => set_wf set) (make_room sets key)
  /\ make_room sets key !! key = sets !! key
  /\ forall set, Z.of_nat (size (<[key := set]> (make_room sets key))) <= MAX_FRAGMENT_SETS.
Proof.
  intros [Hs Hn]. unfold make_room.
  destruct (bool_decide _ && _) eqn:E.
  - apply andb_true_iff in E as [E1%bool_decide_eq_true E2%Z.leb_le].
    assert (evict_oldest sets !! key = None) as Hk.
    { apply eq_None_not_Some. intros [set Hset].
      pose proof (lookup_weaken _ _ _ _ Hset (evict_oldest_subseteq sets)). congruence. }
    split; [|split].
    + intros k set Hk'. apply (Hs k). eapply lookup_weaken; [done|apply evict_oldest_subseteq].
    + by rewrite E1.
    + intros set. rewrite map_size_insert_None by done. unfold evict_oldest.
      destruct (oldest (map_to_list sets)) as [[k s0]|] eqn:Eo.
      * apply oldest_Some in Eo as [Hin%elem_of_map_to_list _].
        rewrite map_size_delete_Some by eauto.
        assert (size sets <> 0)%nat by (intros Hz; apply map_size_empty_inv in Hz; by rewrite Hz in Hin).
        unfold MAX_FRAGMENT_SETS in *. lia.
      * apply oldest_None, map_to_list_empty_iff in Eo as ->.
        rewrite map_size_empty. unfold MAX_FRAGMENT_SETS. lia.
  - split; [done|]. split; [done|]. intros set. destruct (sets !! key) eqn:Ek.
    + rewrite map_size_insert_Some by eauto. done.
    + rewrite map_size_insert_None by done. rewrite bool_decide_true in E by done. cbn in E.
      breflect. unfold MAX_FRAGMENT_SETS in *. lia.
Qed.

(** [reassembler_push] with its state named. *)
Lemma reassembler_push_unfold sets now f :
  reassembler_push sets now (Some f)
  = let room := make_room (cleanup_expired sets now) (frag_key f) in
    let set := default (new_set (frag_received_at f)) (room !! frag_key f) in
    match set_push set f with
    | (_, RejectSet) => (delete (frag_key f) room, Some None)
    | (set', Accepted) =>
        let sets := <[frag_key f := set']> room in
        (match try_reassemble set' with Some (Some _) => delete (frag_key f) sets | _ => sets end,
         try_reassemble set')
    end.
Proof. done. Qed.

Lemma default_set_wf sets f :
  map_Forall (fun _ set => set_wf set) sets ->
  set_wf (default (new_set (frag_received_at f)) (sets !! frag_key f)).
Proof.
  intros Hs. destruct (sets !! frag_key f) as [set|] eqn:E; cbn; [by apply (Hs (frag_key f))|].
  apply new_set_wf.
Qed.

Lemma size_delete_le {A} (m : gmap Key A) k : (size (delete k m) <= size m)%nat.
Proof. apply map_subseteq_size, delete_subseteq. Qed.

Lemma reassembler_push_inv sets now parsed :
  reassembler_wf sets -> (forall f, parsed = Some f -> frag_ok f) ->
  reassembler_wf (reassembler_push sets now parsed).1
  /\ is_Some (reassembler_push sets now parsed).2.
Proof.
  intros Hwf Hok. destruct parsed as [f|]; [|split; [by apply cleanup_expired_wf|by eexists]].
  specialize (Hok f eq_refl). rewrite reassembler_push_unfold. cbv zeta.
  destruct (make_room_wf _ (frag_key f) (cleanup_expired_wf sets now Hwf)) as (Hs & _ & Hsize).
  set (room := make_room _ _) in *.
  assert (Z.of_nat (size room) <= MAX_FRAGMENT_SETS) as Hroom.
  { specialize (Hsize (new_set 0)). assert (size room <= size (<[frag_key f := new_set 0]> room))%nat; [|lia].
    destruct (room !! frag_key f) eqn:E; [rewrite map_size_insert_Some by eauto; lia|].
    rewrite map_size_insert_None by done. lia. }
  pose proof (default_set_wf room f Hs) as Hset.
  destruct (set_push_cases _ f Hset Hok) as [(Hacc & i & Hi & ->)|[_ Hrej]].
  - pose proof (pushed_set_wf _ f i Hset Hok Hacc Hi) as Hset'.
    rewrite try_reassemble_spec by done. cbn [fst snd]. split; [|by eexists].
    set (set' := pushed_set _ _ _) in *.
    assert (reassembler_wf (<[frag_key f:=set']> room)) as Hins
      by (split; [by apply map_Forall_insert_2|done]).
    destruct Hins as [Hs' Hn'].
    destruct (match total_payload_len _ with Some _ => _ | None => _ end); [|by split].
    split; [by apply map_Forall_delete|].
    pose proof (size_delete_le (<[frag_key f:=set']> room) (frag_key f)). lia.
  - destruct (set_push _ f) as [s' v]. cbn in Hrej. subst v. cbn.
    split; [|by eexists]. split; [by apply map_Forall_delete|].
    pose proof (size_delete_le room (frag_key f)). lia.
Qed.

(** A sequence of received frames: the cleanup instant and the parsed fragment. *)
Fixpoint push_all sets (evs : list (Z * option Frag))
  : gmap Key (FragmentSet First) * list (option (option Datagram)) :=
  match evs with
  | [] => (sets, [])
  | (now, parsed) :: evs' =>
      let '(sets1, r) := reassembler_push sets now parsed in
      let '(sets2, rs) := push_all sets1 evs' in (sets2, r :: rs)
  end.

Definition evs_ok (evs : list (Z * option Frag)) : Prop :=
  forall now f, (now, Some f) ∈ evs -> frag_ok f.

Lemma push_all_inv evs sets :
  reassembler_wf sets -> evs_ok evs ->
  reassembler_wf (push_all sets evs).1 /\ Forall is_Some (push_all sets evs).2.
Proof.
  revert sets. induction evs as [|[now parsed] evs IH]; intros sets Hwf Hok; cbn; [done|].
  destruct (reassembler_push_inv sets now parsed Hwf) as [Hwf1 Hr].
  { intros f ->. apply (Hok now). apply elem_of_cons. by left. }
  destruct (reassembler_push sets now parsed) as [sets1 r]. cbn in *.
  destruct (IH sets1 Hwf1) as [Hwf2 Hrs].
  { intros n f Hin. apply (Hok n). apply elem_of_cons. by right. }
  destruct (push_all sets1 evs) as [sets2 rs]. cbn in *. split; [done|by constructor].
Qed.

Lemma empty_reassembler_wf : reassembler_wf ∅.
Proof. split; [apply map_Forall_empty|]. rewrite map_size_empty. unfold MAX_FRAGMENT_SETS. lia. Qed.

Section AnyOrder.
Context (payload : list byte) (fs : list Frag) (key : Key).
Hypothesis Hfg : fragmentation payload fs.
Hypothesis Hkey : Forall (fun f => frag_key f = key) fs.
Hypothesis Hpos : 0 < zlen payload.

Lemma progress_fresh arrived set now :
  progress payload fs arrived set ->
  (forall f, f ∈ fs -> now - frag_received_at f <= FRAGMENT_TIMEOUT) -> fresh set now = true.
Proof.
  intros Hpg Hnow. destruct (pg_created _ _ _ _ Hpg) as (f & Hf & Hc).
  destruct (pg_active _ _ _ _ Hpg) as (g & Hg & Ha).
  specialize (Hnow f Hf) as Hnf. specialize (Hnow g Hg) as Hng.
  unfold fresh, duration_since. rewrite Hc, Ha. unfold FRAGMENT_TIMEOUT in *.
  rewrite andb_true_iff, !Z.leb_le. lia.
Qed.

(** The key's entry while fragments are still missing: absent before the first
    one, in progress afterwards. *)
Definition waiting sets (arrived : list Frag) : Prop :=
  match arrived with
  | [] => sets !! key = None
  | _ => exists set, sets !! key = Some set /\ progress payload fs arrived set
  end.

Lemma waiting_default sets arrived f rest now :
  reassembler_wf sets -> arrived ++ f :: rest = fs -> waiting sets arrived ->
  (forall f, f ∈ fs -> now - frag_received_at f <= FRAGMENT_TIMEOUT) ->
  let room := make_room (cleanup_expired sets now) (frag_key f) in
  progress payload fs arrived (default (new_set (frag_received_at f)) (room !! frag_key f)).
Proof.
  intros Hwf Hfs Hw Hnow. cbv zeta.
  assert (f ∈ fs) as Hf by (rewrite <- Hfs, elem_of_app, elem_of_cons; auto).
  pose proof Hkey as Hk. rewrite Forall_forall in Hk. rewrite (Hk f Hf).
  destruct (make_room_wf _ key (cleanup_expired_wf sets now Hwf)) as (_ & Hlk & _).
  rewrite Hlk. destruct arrived as [|a arrived]; cbn in Hw.
  - replace (cleanup_expired sets now !! key) with (@None (FragmentSet First)).
    + cbn. by apply progress_new.
    + symmetry. apply eq_None_not_Some. intros [set [Hset _]%cleanup_expired_lookup]. congruence.
  - destruct Hw as (set & Hset & Hpg).
    replace (cleanup_expired sets now !! key) with (Some set); [done|]. symmetry.
    apply cleanup_expired_lookup. split; [done|]. by eapply progress_fresh.
Qed.

Lemma push_progress sets arrived f rest now :
  reassembler_wf sets -> arrived ++ f :: rest = fs -> waiting sets arrived ->
  (forall f, f ∈ fs -> now - frag_received_at f <= FRAGMENT_TIMEOUT) ->
  (forall f, f ∈ fs -> frag_offset f = 0 -> is_Some (finish_datagram (frag_first f) payload)) ->
  let '(sets', r) := reassembler_push sets now (Some f) in
  match rest with
  | [] => exists g, g ∈ fs /\ frag_offset g = 0 /\ sets' !! key = None
                    /\ r = Some (finish_datagram (frag_first g) payload)
  | _ => waiting sets' (arrived ++ [f]) /\ r = Some None
  end.
Proof.
  intros Hwf Hfs Hw Hnow Hfin. rewrite reassembler_push_unfold. cbv zeta.
  pose proof (waiting_default sets arrived f rest now Hwf Hfs Hw Hnow) as Hpg. cbv zeta in Hpg.
  destruct (progress_step _ _ Hfg arrived f rest _ Hfs Hpg) as (set' & -> & Hpg').
  assert (frag_key f = key) as ->.
  { pose proof Hkey as Hk. rewrite Forall_forall in Hk. apply Hk.
    rewrite <- Hfs, elem_of_app, elem_of_cons. auto. }
  destruct rest as [|g rest].
  - rewrite Hfs in Hpg'. destruct (progress_complete _ _ Hfg _ Hpos Hpg') as (g & Hg & Hg0 & ->).
    exists g. split; [done|]. split; [done|]. split; [|done].
    destruct (Hfin g Hg Hg0) as [d ->]. apply lookup_delete_eq.
  - assert ((arrived ++ [f]) ++ g :: rest = fs) as Hfs' by (by rewrite <- app_assoc).
    rewrite (progress_incomplete _ _ Hfg _ _ _ _ Hfs' Hpg'). split; [|done].
    unfold waiting. destruct (arrived ++ [f]) eqn:E; [by destruct arrived|].
    exists set'. split; [apply lookup_insert_eq|done].
Qed.

Lemma push_all_progress rest arrived sets nows :
  reassembler_wf sets -> arrived ++ rest = fs -> rest <> [] -> waiting sets arrived ->
  length nows = length rest ->
  Forall (fun now => forall f, f ∈ fs -> now - frag_received_at f <= FRAGMENT_TIMEOUT) nows ->
  (forall f, f ∈ fs -> frag_offset f = 0 -> is_Some (finish_datagram (frag_first f) payload)) ->
  exists g, g ∈ fs /\ frag_offset g = 0
    /\ (push_all sets (zip nows (Some <$> rest))).1 !! key = None
    /\ (push_all sets (zip nows (Some <$> rest))).2
       = replicate (length rest - 1) (Some None) ++ [Some (finish_datagram (frag_first g) payload)].
Proof.
  revert arrived sets nows. induction rest as [|f rest IH]; intros arrived sets nows; [done|].
  intros Hwf Hfs _ Hw Hlen Hnows Hfin. destruct nows as [|now nows]; [done|].
  apply Forall_cons in Hnows as [Hnow Hnows]. cbn in Hlen.
  pose proof (push_progress sets arrived f rest now Hwf Hfs Hw Hnow Hfin) as Hp.
  cbn [fmap list_fmap zip_with push_all].
  assert (frag_ok f) as Hok.
  { pose proof (fg_ok _ _ Hfg) as Hok. rewrite Forall_forall in Hok. apply Hok.
    rewrite <- Hfs, elem_of_app, elem_of_cons. auto. }
  destruct (reassembler_push_inv sets now (Some f) Hwf) as [Hwf1 _]; [by intros ? [= <-]|].
  destruct (reassembler_push sets now (Some f)) as [sets1 r]. cbn [fst] in Hwf1.
  destruct rest as [|g rest].
  - destruct nows; [|done]. cbn. destruct Hp as (g & Hg & Hg0 & Hk & ->). by exists g.
  - destruct Hp as [Hw1 ->].
    destruct (IH (arrived ++ [f]) sets1 nows) as (h & Hh & Hh0 & Hk & Hr); try done.
    { by rewrite <- app_assoc. }
    { lia. }
    exists h.
    destruct (push_all sets1 (zip nows (Some <$> g :: rest))) as [sets2 rs].
    cbn [fst snd] in *. rewrite Hr. split; [done|]. split; [done|]. split; [done|].
    cbn [length]. replace (S (S (length rest)) - 1)%nat with (S (S (length rest) - 1)) by lia. done.
Qed.

End AnyOrder.

Lemma chain_bytes_at max ps a b p :
  Forall (piece_ok max) ps -> contiguous_from a ps = Some b -> p ∈ ps ->
  take (length (pc_bytes p)) (drop (Z.to_nat (pc_start p - a)) (chain_bytes ps)) = pc_bytes p.
Proof.
  revert a. induction ps as [|q ps IH]; intros a Hok Hc Hp; [by apply elem_of_nil in Hp|].
  apply Forall_cons in Hok as [(Hq & _ & Hql) Hok]. cbn in Hc.
  destruct (negb _ || _) eqn:E; [done|]. breflect. unfold chain_bytes. cbn.
  apply elem_of_cons in Hp as [->|Hp].
  - replace (Z.to_nat (pc_start q - a)) with 0%nat by lia. by rewrite drop_0, take_app_length.
  - destruct (contiguous_sorted _ _ _ _ Hok Hc) as (_ & _ & Hall). destruct (Hall p Hp) as [Hps _].
    rewrite drop_app_ge by lia. fold (chain_bytes ps).
    replace (Z.to_nat (pc_start p - a) - length (pc_bytes q))%nat
      with (Z.to_nat (pc_start p - pc_end q)) by lia.
    by apply IH.
Qed.

(** *** Properties of both reassemblers *)

(** C26: a datagram's fragments reassemble in whatever order they arrive: pushed
    one after the other within the timeout into a reassembler that has no set
    for them (however many other sets it holds), every fragment but the last
    yields nothing, the last yields the datagram built from the original
    payload and the first fragment's header, and the set is gone. *)
Theorem fragments_reassemble_in_any_order sets payload fs key nows :
  reassembler_wf sets -> sets !! key = None ->
  fragmentation payload fs -> Forall (fun f => frag_key f = key) fs -> 0 < zlen payload ->
  length nows = length fs ->
  Forall (fun now => forall f, f ∈ fs -> now - frag_received_at f <= FRAGMENT_TIMEOUT) nows ->
  (forall f, f ∈ fs -> frag_offset f = 0 -> is_Some (finish_datagram (frag_first f) payload)) ->
  exists g, g ∈ fs /\ frag_offset g = 0
    /\ (push_all sets (zip nows (Some <$> fs))).1 !! key = None
    /\ (push_all sets (zip nows (Some <$> fs))).2
       = replicate (length fs - 1) (Some None) ++ [Some (finish_datagram (frag_first g) payload)].
Proof.
  intros Hwf Hnone Hfg Hkey Hpos Hlen Hnows Hfin.
  apply (push_all_progress payload fs key Hfg Hkey Hpos fs []); try done.
  intros ->. destruct (fg_cover _ _ Hfg) as (ps & Hps & Hc & _).
  apply Permutation_nil_r in Hps. subst ps. cbn in Hc. injection Hc as Hz. lia.
Qed.

(** What is delivered is what arrived: a delivered datagram is built from
    pieces that cover it contiguously from zero without overlap, each either the
    fragment just received or buffered under the same key, and every piece's
    bytes stand at its offset; the payload is within the family's bound. *)
Lemma reassembly_delivers_received_bytes sets now f sets' d :
  reassembler_wf sets -> frag_ok f ->
  reassembler_push sets now (Some f) = (sets', Some (Some d)) ->
  exists ps first,
    finish_datagram first (chain_bytes ps) = Some d
    /\ contiguous_from 0 ps = Some (zlen (chain_bytes ps))
    /\ zlen (chain_bytes ps) <= max_payload_len
    /\ piece_of f ∈ ps
    /\ (forall p, p ∈ ps -> p = piece_of f
          \/ exists set, sets !! frag_key f = Some set /\ fresh set now = true /\ p ∈ pieces set)
    /\ (forall p, p ∈ ps ->
          take (length (pc_bytes p)) (drop (Z.to_nat (pc_start p)) (chain_bytes ps)) = pc_bytes p).
Proof.
  intros Hwf Hok. rewrite reassembler_push_unfold. cbv zeta.
  destruct (make_room_wf _ (frag_key f) (cleanup_expired_wf sets now Hwf)) as (Hs & Hlk & _).
  pose proof (default_set_wf _ f Hs) as Hset. rewrite Hlk in *.
  set (set := default _ _) in *.
  destruct (set_push_cases set f Hset Hok) as [(Hacc & i & Hi & ->)|[_ Hrej]];
    [|destruct (set_push set f) as [? v]; cbn in Hrej; subst v; discriminate].
  pose proof (pushed_set_wf set f i Hset Hok Hacc Hi) as Hset'.
  assert (forall p, p ∈ pieces (pushed_set set f i) <-> p = piece_of f \/ p ∈ pieces set) as Hin
    by (intros p; cbn; by rewrite vec_insert_perm, elem_of_cons).
  clear Hi. revert Hset' Hin. generalize (pushed_set set f i) as set'. intros set' Hset' Hin.
  rewrite try_reassemble_spec by done. intros [= _ Hd].
  destruct (total_payload_len set') as [total|]; [|done].
  destruct (first_fragment set') as [first|]; [|done].
  case_bool_decide as Hc; [|done].
  pose proof (contiguous_chain_length _ _ _ _ (sw_ok _ Hset') Hc) as Hlen. rewrite Z.sub_0_r in Hlen.
  assert (piece_of f ∈ pieces set') as Hnew by (apply Hin; by left).
  pose proof (sw_ok _ Hset') as Hoks. rewrite Forall_forall in Hoks.
  exists (pieces set'), first. rewrite Hlen. split; [done|]. split; [done|].
  split; [|split; [done|split]].
  - destruct (contiguous_last _ _ _ _ (sw_ok _ Hset') Hc) as (p & Hp & <-); [|by apply (Hoks p Hp)].
    destruct (contiguous_sorted _ _ _ _ (sw_ok _ Hset') Hc) as (_ & _ & Hall).
    destruct (Hall _ Hnew), (Hoks _ Hnew) as [? _]. lia.
  - intros p [->|Hp]%Hin; [by left|]. right. unfold set in Hp.
    destruct (cleanup_expired sets now !! frag_key f) as [s|] eqn:E; [|by apply elem_of_nil in Hp].
    apply cleanup_expired_lookup in E as [? ?]. by exists s.
  - intros p Hp. pose proof (chain_bytes_at _ _ _ _ p (sw_ok _ Hset') Hc Hp) as Hb.
    by rewrite Z.sub_0_r in Hb.
Qed.

(** a fragment is accepted into a set exactly when it is non-empty, within
    the payload bound, the set has room, a non-final fragment is a multiple of
    eight bytes, it overlaps no buffered piece, it agrees with a known total
    length, and a leading fragment holds the UDP header; otherwise the set is
    rejected as a whole. *)
Lemma fragment_accepted_exactly set f :
  set_wf set -> frag_ok f -> (set_push set f).2 = Accepted <-> acceptable set f.
Proof.
  intros Hwf Hok. destruct (set_push_cases set f Hwf Hok) as [(Hacc & i & _ & ->)|[Hn Hrej]]; [done|].
  rewrite Hrej. split; done.
Qed.

(** Whatever fragments arrive, the reassembler never panics (its slice
    copies stay in bounds), buffers at most 64 sets, and each set holds at most
    128 pairwise disjoint pieces, sorted and within the payload bound. *)
Lemma reassembler_stays_bounded evs :
  evs_ok evs ->
  Forall is_Some (push_all ∅ evs).2
  /\ Z.of_nat (size (push_all ∅ evs).1) <= MAX_FRAGMENT_SETS
  /\ map_Forall (fun _ set => zlen (pieces set) <= MAX_FRAGMENTS_PER_SET
                              /\ StronglySorted piece_before (pieces set)
                              /\ Forall (piece_ok max_payload_len) (pieces set)) (push_all ∅ evs).1.
Proof.
  intros Hok. destruct (push_all_inv evs ∅ empty_reassembler_wf Hok) as [Hwf Hr].
  split; [done|]. split; [apply Hwf|].
  intros k set Hk. apply (rw_sets _ Hwf) in Hk. split; [apply Hk|]. split; apply Hk.
Qed.

End ReassemblerProofs.

(** ** The two families *)

Section FamilyProofs.
Context `{Smoltcp}.

Lemma be_value_nonneg l : 0 <= be_value l.
Proof. apply be_value_bound. Qed.

Lemma fragment_info_offset fuel payload nh off info :
  fragment_info_loop fuel payload nh off = Some info -> 0 <= fh_offset (fi_header info).
Proof.
  revert nh off. induction fuel as [|fuel IH]; intros nh off; cbn [fragment_info_loop]; [done|].
  case_decide.
  - destruct (checked_add 64 off IPV6_FRAGMENT_HDR_LEN) as [e|]; [|done].
    destruct (get_range payload off e) as [bs|]; [|done].
    destruct (fragment_header_parse bs) as [h|] eqn:E; [|done]. intros [= <-]. cbn.
    unfold fragment_header_parse in E.
    destruct bs as [|b0 [|b1 [|b2 [|b3 [|b4 [|b5 [|b6 [|b7 bs]]]]]]]]; try done.
    destruct (_ || _); [done|]. injection E as <-. cbn [fh_offset].
    pose proof (proj2 (Z.shiftr_nonneg (be_value [b2; b3]) 3) (be_value_nonneg _)). lia.
  - destruct (negb _); [done|]. destruct (get_from payload off) as [[|b0 [|b1 ext]]|]; try done.
    destruct (ipv6_extension_header_len _ _) as [l|]; [|done].
    destruct (checked_add 64 off l) as [off'|]; [|done]. apply IH.
Qed.

Lemma parse_ipv6_frag_ok frame t f : parse_ipv6_udp_fragment frame t = Some f -> frag_ok f.
Proof.
  unfold parse_ipv6_udp_fragment. destruct (ethernet_checked frame) as [eth|]; [|done].
  destruct (ev_ethertype eth); try done.
  destruct (ipv6_checked (ev_payload eth)) as [v|]; [|done].
  destruct (parse_ipv6_fragment_info v) as [info|] eqn:Ei; [|done]. destruct (negb _); [done|].
  destruct (get_from _ _) as [p|]; [|done].
  destruct (checked_add 64 _ _) as [e|] eqn:Ea; [|done]. intros [= <-].
  apply checked_add_Some in Ea as [-> _]. split; cbn; [|done]. by eapply fragment_info_offset.
Qed.

Lemma parse_ipv4_frag_ok frame t f :
  (forall bs v, ipv4_checked bs = Some v -> 0 <= i4_frag_offset v) ->
  parse_ipv4_udp_fragment frame t = Some f -> frag_ok f.
Proof.
  intros Hoff. unfold parse_ipv4_udp_fragment. destruct (ethernet_checked frame) as [eth|]; [|done].
  destruct (ev_ethertype eth); try done.
  destruct (ipv4_checked (ev_payload eth)) as [v|] eqn:Ev; [|done]. destruct (negb _); [done|].
  destruct (checked_add 64 _ _) as [e|] eqn:Ea; [|done]. intros [= <-].
  apply checked_add_Some in Ea as [-> _]. split; cbn; [|done]. by eapply Hoff.
Qed.

(** The Fragment header of RFC 8200 as bytes. *)
Definition encode_fragment_header (next_header : byte) (offset : Z) (more : bool) (ident : Z)
  : list byte :=
  [next_header; Byte.x00] ++ be_bytes 2 (offset + (if more then 1 else 0)) ++ be_bytes 4 ident.

Lemma land_low_bits k m mask : 0 <= m < 8 -> Z.land mask 7 = mask -> Z.land (8 * k + m) mask = Z.land m mask.
Proof.
  intros Hm Hmask. rewrite <- Hmask, (Z.land_comm mask 7), !Z.land_assoc.
  f_equal. change 7 with (Z.ones 3). rewrite !Z.land_ones by lia.
  rewrite Z.add_comm, Z.mul_comm. change (2 ^ 3) with 8. by rewrite Z.mod_add by lia.
Qed.

(** the IPv6 Fragment header is decoded as it is laid out: for every
    eight-byte-aligned 16-bit offset, flag and 32-bit identification, parsing the
    encoded header (whatever follows it) gives these values back. *)
Lemma fragment_header_roundtrip nh offset more ident rest :
  fits 16 offset -> offset `mod` 8 = 0 -> fits 32 ident ->
  fragment_header_parse (encode_fragment_header nh offset more ident ++ rest)
  = Some (mkFragmentHeader (ip_protocol_of_byte nh) offset more ident).
Proof.
  intros Ho Hm Hi. unfold encode_fragment_header, fits in *. set (raw := offset + _).
  assert (offset = 8 * (offset `div` 8)) as Hdiv by (pose proof (Z.div_mod offset 8); lia).
  assert (raw = 8 * (offset `div` 8) + (if more then 1 else 0)) as Hraw by (unfold raw; lia).
  assert (0 <= (if more then 1 else 0) < 8) as Hb by (destruct more; lia).
  cbn [be_bytes app fragment_header_parse].
  change [byte_of_Z (raw `div` 256 ^ Z.of_nat 1); byte_of_Z (raw `div` 256 ^ Z.of_nat 0)]
    with (be_bytes 2 raw).
  change [byte_of_Z (ident `div` 256 ^ Z.of_nat 3); byte_of_Z (ident `div` 256 ^ Z.of_nat 2);
          byte_of_Z (ident `div` 256 ^ Z.of_nat 1); byte_of_Z (ident `div` 256 ^ Z.of_nat 0)]
    with (be_bytes 4 ident).
  rewrite !be_value_be_bytes. change (256 ^ Z.of_nat 2) with 65536. change (256 ^ Z.of_nat 4) with (2 ^ 32).
  rewrite (Z.mod_small ident), (Z.mod_small raw) by lia.
  rewrite Hraw, !land_low_bits by done.
  rewrite Z.shiftr_div_pow2 by lia. change (2 ^ 3) with 8.
  assert ((8 * (offset `div` 8) + (if more then 1 else 0)) `div` 8 = offset `div` 8) as ->
    by (rewrite (Z.mul_comm 8), Z.div_add_l, (Z.div_small (if more then 1 else 0)) by lia; lia).
  rewrite Z.mul_comm, <- Hdiv. by destruct more.
Qed.

(** The 16-bit length fields of the rebuilt frames are exact: no payload
    within the family's bound truncates the total or payload length, and the
    frame buffer has exactly the length the headers announce. *)
Lemma reassembled_lengths_exact :
  (forall first payload, zlen payload <= MAX_IPV4_PAYLOAD_LEN ->
     em4_total_len (reassembled_ipv4 first payload) = IPV4_HDR_LEN + zlen payload
     /\ em4_frame_len (reassembled_ipv4 first payload)
        = ETH_HDR_LEN + em4_total_len (reassembled_ipv4 first payload))
  /\ (forall first payload, zlen payload <= MAX_IPV6_PAYLOAD_LEN ->
     em6_payload_len (reassembled_ipv6 first payload) = zlen payload
     /\ em6_frame_len (reassembled_ipv6 first payload)
        = ETH_HDR_LEN + IPV6_HDR_LEN + em6_payload_len (reassembled_ipv6 first payload)).
Proof.
  split; intros first payload Hlen; cbn;
    rewrite wrap_small by (unfold fits, MAX_IPV4_PAYLOAD_LEN, MAX_IPV6_PAYLOAD_LEN, IPV4_HDR_LEN in *; lia);
    done.
Qed.

End FamilyProofs.

(** ** Witnesses *)

(** A small instance of the wire formats: only UDP headers are decoded. *)
Module ToyWire.

Definition toy_udp (bs : list byte) : option UdpView :=
  match bs with
  | s0 :: s1 :: d0 :: d1 :: l0 :: l1 :: _ :: _ :: _ =>
      Some (mkUdpView (be_value [l0; l1]) (be_value [s0; s1]) (be_value [d0; d1]))
  | _ => None
  end.

#[export] Instance toy_smoltcp : Smoltcp := {|
  EthernetAddress := unit;
  IpProtocol := Z;
  ip_protocol_of_byte := Z_of_byte;
  ProtoUdp := 17; ProtoIpv6Frag := 44; ProtoHopByHop := 0; ProtoIpv6Route := 43;
  ProtoIpSecAh := 51; ProtoIpv6Opts := 60;
  ethernet_checked _ := None;
  ipv4_checked _ := None;
  ipv6_checked _ := None;
  udp_checked := toy_udp;
  ipv4_emit e := em4_payload e;
  ipv6_emit e := em6_payload e
|}.

Definition toy_payload : list byte :=
  be_bytes 2 4000 ++ be_bytes 2 53 ++ be_bytes 2 20 ++ be_bytes 2 0
  ++ be_bytes 8 0x0102030405060708 ++ be_bytes 4 0x090a0b0c.

Definition toy_fragment (offset : Z) (n : nat) (more : bool) (t : Z) : Ipv4UdpFragment :=
  let bytes := take n (drop (Z.to_nat offset) toy_payload) in
  mkFragment4 tt tt (ipv4 10 0 0 2) (ipv4 8 8 8 8) 7 64 offset more bytes (offset + zlen bytes) t.

(** Arrival order: last, first, middle. *)
Definition toy_fragments : list Ipv4UdpFragment :=
  [toy_fragment 16 4 false 100; toy_fragment 0 8 true 101; toy_fragment 8 8 true 102].

Lemma toy_frag_ok : Forall frag_ok toy_fragments.
Proof. repeat constructor; cbn; lia. Qed.

Lemma toy_fragmentation : fragmentation toy_payload toy_fragments.
Proof.
  split.
  - apply toy_frag_ok.
  - repeat constructor; done.
  - exists (piece_of <$> [toy_fragment 0 8 true 101; toy_fragment 8 8 true 102; toy_fragment 16 4 false 100]).
    split; [|by vm_compute].
    symmetry. exact (Permutation_cons_append (piece_of <$> [toy_fragment 0 8 true 101; toy_fragment 8 8 true 102])
                       (piece_of (toy_fragment 16 4 false 100))).
  - repeat constructor; by vm_compute.
  - repeat constructor; by vm_compute.
  - repeat constructor; by vm_compute.
  - by vm_compute.
  - by vm_compute.
Qed.

End ToyWire.
Import ToyWire.

Lemma fragments_reassemble_in_any_order_witness :
  exists g, g ∈ toy_fragments /\ frag_offset g = 0
    /\ (push_all ∅ (zip [100; 101; 102] (Some <$> toy_fragments))).1
         !! mkKey4 (ipv4 10 0 0 2) (ipv4 8 8 8 8) 7 = None
    /\ (push_all ∅ (zip [100; 101; 102] (Some <$> toy_fragments))).2
       = replicate 2 (Some None) ++ [Some (finish_datagram (frag_first g) toy_payload)].
Proof.
  apply (fragments_reassemble_in_any_order ∅ toy_payload toy_fragments
           (mkKey4 (ipv4 10 0 0 2) (ipv4 8 8 8 8) 7) [100; 101; 102]).
  - apply empty_reassembler_wf.
  - done.
  - apply toy_fragmentation.
  - repeat constructor.
  - by vm_compute.
  - done.
  - rewrite !Forall_cons. split; [|split; [|split; [|done]]]; intros f Hf;
      (repeat (apply elem_of_cons in Hf as [->|Hf]; [cbn; unfold FRAGMENT_TIMEOUT; lia|]));
      by apply elem_of_nil in Hf.
  - intros f Hf Hz.
    repeat (apply elem_of_cons in Hf as [->|Hf]; [try discriminate Hz; eexists; by vm_compute|]).
    by apply elem_of_nil in Hf.
Defined.

Definition toy_sets : Ipv4UdpFragmentReassembler :=
  (push_all ∅ (zip [100; 101] (Some <$> take 2 toy_fragments))).1.

Lemma toy_sets_wf : reassembler_wf toy_sets.
Proof.
  apply push_all_inv; [apply empty_reassembler_wf|]. intros now f Hin.
  apply elem_of_zip_r, list_elem_of_fmap in Hin as (g & [= ->] & Hg).
  pose proof toy_frag_ok as Hok. rewrite Forall_forall in Hok. apply Hok.
  by eapply subseteq_take.
Qed.

Lemma reassembly_delivers_received_bytes_witness :
  exists d sets', reassembler_push toy_sets 102 (Some (toy_fragment 8 8 true 102)) = (sets', Some (Some d))
  /\ exists ps (first : FirstFragment), finish_datagram first (chain_bytes ps) = Some d
     /\ piece_of (toy_fragment 8 8 true 102) ∈ ps.
Proof.
  eexists _, _. split; [vm_compute; reflexivity|].
  edestruct (reassembly_delivers_received_bytes toy_sets 102 (toy_fragment 8 8 true 102))
    as (ps & first & Hd & _ & _ & Hin & _).
  - apply toy_sets_wf.
  - split; cbn; lia.
  - vm_compute. reflexivity.
  - exists ps, first. split; [exact Hd|exact Hin].
Defined.

Lemma fragment_accepted_exactly_witness :
  (set_push (new_set 5) (toy_fragment 0 8 true 6)).2 = Accepted
  <-> acceptable (new_set 5) (toy_fragment 0 8 true 6).
Proof. apply fragment_accepted_exactly; [apply new_set_wf|split; cbn; lia]. Defined.

Lemma reassembler_stays_bounded_witness :
  Forall is_Some (push_all ∅ [(1, Some (toy_fragment 0 8 true 1)); (2, None)]).2.
Proof.
  apply (reassembler_stays_bounded [(1, Some (toy_fragment 0 8 true 1)); (2, None)]).
  intros now f Hin. apply elem_of_cons in Hin as [[= -> ->]|Hin]; [split; cbn; lia|].
  apply elem_of_cons in Hin as [[=]|Hin]. by apply elem_of_nil in Hin.
Defined.

Lemma fragment_header_roundtrip_witness :
  fragment_header_parse (encode_fragment_header Byte.x11 1480 true 0xdeadbeef ++ [Byte.x01])
  = Some (mkFragmentHeader (ip_protocol_of_byte Byte.x11) 1480 true 0xdeadbeef).
Proof. apply fragment_header_roundtrip; by vm_compute. Defined.

Lemma reassembled_lengths_exact_witness :
  em4_total_len (reassembled_ipv4 (mkFirst4 tt tt 1 2 3 64) toy_payload) = 40.
Proof. apply (proj1 reassembled_lengths_exact). by vm_compute. Defined.
