(* ===== verification/Message.v ===== *)
(** * Protocol messages

    Models [crates/protocol/lib/message.rs]: the message envelope, the message
    types with their wire strings, frame flags and protocol generations.  The
    wire strings come from the [strum] attributes; [as_str] and [from_wire_str]
    are what the derives generate from them. *)

From S2P Require Import Prelude.

Definition PROTOCOL_VERSION : Z := 11.
Definition FLAG_TERMINAL : Z := 1.
Definition FLAG_SESSION_START : Z := 2.
Definition FLAG_SHUTDOWN : Z := 4.
Definition FLAG_BULK : Z := 8.
Definition FRAME_HEADER_SIZE : Z := 5.

Inductive MessageType :=
| MtReady | MtInitResolved | MtInitAck | MtShutdown | MtRelayClientDisconnected | MtClockSync
| MtPing | MtPong | MtTouch | MtTouched | MtWorkloadFreeze | MtWorkloadFrozen | MtWorkloadThaw
| MtWorkloadThawed | MtWorkloadTransportCredit | MtRootDiskPrepare | MtRootDiskGrow
| MtRootDiskState | MtCoreError | MtBulkAccepted | MtBulkCredit | MtBulkFinish | MtBulkCancel
| MtExecRequest | MtExecStarted | MtExecStdin | MtExecStdinError | MtExecStdout | MtExecStderr
| MtExecExited | MtExecFailed | MtExecResize | MtExecSignal | MtExecOutputAck | MtExecStdinAck
| MtFsRequest | MtFsResponse | MtFsData | MtTcpConnect | MtTcpConnected | MtTcpData | MtTcpEof
| MtTcpClose | MtTcpClosed | MtTcpFailed | MtBootstrap | MtPortEvent | MtLoopbackForward
| MtLoopbackForwardCancel | MtLoopbackForwardResp.

#[global] Instance MessageType_eq_dec : EqDecision MessageType.
Proof. solve_decision. Defined.

(** [strum::EnumIter]: every variant, in declaration order. *)
Definition all_message_types : list MessageType :=
  [MtReady; MtInitResolved; MtInitAck; MtShutdown; MtRelayClientDisconnected; MtClockSync; MtPing;
   MtPong; MtTouch; MtTouched; MtWorkloadFreeze; MtWorkloadFrozen; MtWorkloadThaw;
   MtWorkloadThawed; MtWorkloadTransportCredit; MtRootDiskPrepare; MtRootDiskGrow;
   MtRootDiskState; MtCoreError; MtBulkAccepted; MtBulkCredit; MtBulkFinish; MtBulkCancel;
   MtExecRequest; MtExecStarted; MtExecStdin; MtExecStdinError; MtExecStdout; MtExecStderr;
   MtExecExited; MtExecFailed; MtExecResize; MtExecSignal; MtExecOutputAck; MtExecStdinAck;
   MtFsRequest; MtFsResponse; MtFsData; MtTcpConnect; MtTcpConnected; MtTcpData; MtTcpEof;
   MtTcpClose; MtTcpClosed; MtTcpFailed; MtBootstrap; MtPortEvent; MtLoopbackForward;
   MtLoopbackForwardCancel; MtLoopbackForwardResp].

Record Message := mkMessage {
  msg_v : Z;
  msg_t : MessageType;
  msg_id : Z;
  msg_flags : Z;
  msg_p : list byte;
  msg_maintenance : bool
}.

#[local] Open Scope string_scope.

Definition message_type_as_str (t : MessageType) : string :=
  match t with
  | MtReady => "core.ready"
  | MtInitResolved => "core.init.resolved"
  | MtInitAck => "core.init.ack"
  | MtShutdown => "core.shutdown"
  | MtRelayClientDisconnected => "core.relay.client.disconnected"
  | MtClockSync => "core.clock.sync"
  | MtPing => "core.ping"
  | MtPong => "core.pong"
  | MtTouch => "core.touch"
  | MtTouched => "core.touched"
  | MtWorkloadFreeze => "core.workload.freeze"
  | MtWorkloadFrozen => "core.workload.frozen"
  | MtWorkloadThaw => "core.workload.thaw"
  | MtWorkloadThawed => "core.workload.thawed"
  | MtWorkloadTransportCredit => "core.workload.transport.credit"
  | MtRootDiskPrepare => "core.root_disk.prepare"
  | MtRootDiskGrow => "core.root_disk.grow"
  | MtRootDiskState => "core.root_disk.state"
  | MtCoreError => "core.error"
  | MtBulkAccepted => "core.bulk.accepted"
  | MtBulkCredit => "core.bulk.credit"
  | MtBulkFinish => "core.bulk.finish"
  | MtBulkCancel => "core.bulk.cancel"
  | MtExecRequest => "core.exec.request"
  | MtExecStarted => "core.exec.started"
  | MtExecStdin => "core.exec.stdin"
  | MtExecStdinError => "core.exec.stdin.error"
  | MtExecStdout => "core.exec.stdout"
  | MtExecStderr => "core.exec.stderr"
  | MtExecExited => "core.exec.exited"
  | MtExecFailed => "core.exec.failed"
  | MtExecResize => "core.exec.resize"
  | MtExecSignal => "core.exec.signal"
  | MtExecOutputAck => "core.exec.output.ack"
  | MtExecStdinAck => "core.exec.stdin.ack"
  | MtFsRequest => "core.fs.request"
  | MtFsResponse => "core.fs.response"
  | MtFsData => "core.fs.data"
  | MtTcpConnect => "core.tcp.connect"
  | MtTcpConnected => "core.tcp.connected"
  | MtTcpData => "core.tcp.data"
  | MtTcpEof => "core.tcp.eof"
  | MtTcpClose => "core.tcp.close"
  | MtTcpClosed => "core.tcp.closed"
  | MtTcpFailed => "core.tcp.failed"
  | MtBootstrap => "core.bootstrap"
  | MtPortEvent => "core.port.event"
  | MtLoopbackForward => "core.loopback.forward"
  | MtLoopbackForwardCancel => "core.loopback.forward.cancel"
  | MtLoopbackForwardResp => "core.loopback.forward.resp"
  end.

#[local] Close Scope string_scope.

Definition from_wire_str (s : string) : option MessageType :=
  List.find (fun t => bool_decide (message_type_as_str t = s)) all_message_types.

Definition is_exec_control (t : MessageType) : bool :=
  match t with
  | MtExecOutputAck | MtExecStdinAck | MtExecSignal | MtExecResize => true
  | _ => false
  end.

Definition uses_workload_data_credit (t : MessageType) : bool :=
  match t with MtExecStdin | MtFsData | MtTcpData | MtTcpEof => true | _ => false end.

Definition message_flags (t : MessageType) : Z :=
  match t with
  | MtPong | MtTouched | MtWorkloadFrozen | MtWorkloadThawed | MtRootDiskState | MtCoreError
  | MtExecExited | MtExecFailed | MtFsResponse | MtTcpClosed | MtTcpFailed
  | MtLoopbackForwardResp => FLAG_TERMINAL
  | MtExecRequest | MtFsRequest | MtTcpConnect => FLAG_SESSION_START
  | MtShutdown => FLAG_SHUTDOWN
  | _ => 0
  end.

Definition min_protocol_version (t : MessageType) : Z :=
  match t with
  | MtReady | MtInitResolved | MtInitAck | MtShutdown | MtRelayClientDisconnected | MtClockSync
  | MtExecRequest | MtExecStarted | MtExecStdin | MtExecStdinError | MtExecStdout | MtExecStderr
  | MtExecExited | MtExecFailed | MtExecResize | MtExecSignal => 1
  | MtExecOutputAck | MtExecStdinAck => 10
  | MtFsRequest | MtFsResponse | MtFsData => 2
  | MtCoreError => 5
  | MtPing | MtPong | MtTouch | MtTouched => 6
  | MtBootstrap => 7
  | MtPortEvent | MtLoopbackForward | MtLoopbackForwardCancel | MtLoopbackForwardResp => 11
  | MtWorkloadFreeze | MtWorkloadFrozen | MtWorkloadThaw | MtWorkloadThawed
  | MtWorkloadTransportCredit => 9
  | MtRootDiskPrepare | MtRootDiskGrow | MtRootDiskState => 9
  | MtBulkAccepted | MtBulkCredit | MtBulkFinish | MtBulkCancel => 8
  | MtTcpConnect | MtTcpConnected | MtTcpData | MtTcpEof | MtTcpClose | MtTcpClosed
  | MtTcpFailed => 4
  end.

Definition is_available_at (t : MessageType) (peer_generation : Z) : bool :=
  min_protocol_version t <=? peer_generation.

Definition message_new (t : MessageType) (id : Z) (p : list byte) : Message :=
  mkMessage PROTOCOL_VERSION t id (message_flags t) p false.

(** ** Properties *)

Lemma all_message_types_complete t : t ∈ all_message_types.
Proof. destruct t; apply list_elem_of_In; cbn; tauto. Qed.

Lemma message_type_as_str_inj t1 t2 : message_type_as_str t1 = message_type_as_str t2 -> t1 = t2.
Proof. destruct t1; destruct t2; intros Heq; first [reflexivity | discriminate Heq]. Qed.

(** The wire string of every message type is decoded to that type, and a
    string is decoded only to the type it belongs to: [from_wire_str] and
    [as_str] are inverse to each other. *)
Lemma wire_string_roundtrip s t : from_wire_str s = Some t <-> message_type_as_str t = s.
Proof.
  unfold from_wire_str. split.
  - intros [_ ?%bool_decide_eq_true]%List.find_some. done.
  - intros <-. destruct (List.find _ all_message_types) as [t'|] eqn:E.
    + apply List.find_some in E as [_ ->%bool_decide_eq_true%message_type_as_str_inj]. done.
    + pose proof (all_message_types_complete t) as Hin%list_elem_of_In.
      apply (List.find_none _ _ E) in Hin. by apply bool_decide_eq_false in Hin.
Qed.

(** The frame flags of a message type are at most one of terminal, session
    start and shutdown, never the raw-bulk flag, so a control frame is never
    taken for a bulk record and no message both opens and ends a session. *)
Lemma message_flags_exclusive t :
  (message_flags t = 0 \/ message_flags t = FLAG_TERMINAL \/ message_flags t = FLAG_SESSION_START
   \/ message_flags t = FLAG_SHUTDOWN)
  /\ Z.land (message_flags t) FLAG_BULK = 0.
Proof. destruct t; cbn; tauto. Qed.

(** Every message type was introduced in some generation between 1 and the
    current one, and availability only grows with the peer's generation. *)
Lemma message_generations t :
  1 <= min_protocol_version t <= PROTOCOL_VERSION
  /\ is_available_at t PROTOCOL_VERSION = true
  /\ forall g g', g <= g' -> is_available_at t g = true -> is_available_at t g' = true.
Proof.
  assert (1 <= min_protocol_version t <= PROTOCOL_VERSION) as Hb
    by (destruct t; unfold PROTOCOL_VERSION; cbn; lia).
  unfold is_available_at. split; [done|]. split; [apply Z.leb_le; lia|].
  intros g g' Hg ?%Z.leb_le. apply Z.leb_le. lia.
Qed.

Lemma message_generations_witness : is_available_at MtBulkCredit 9 = true.
Proof. apply (message_generations MtBulkCredit) with (g := 8); [lia|reflexivity]. Defined.
