(* ===== verification/Bulk.v ===== *)
(** * Raw bulk flows

    Models [crates/protocol/lib/bulk.rs]: the generation-8 bulk records, the
    negotiation of an offer and its acceptance, and the sender and receiver
    state machines of one credit-controlled flow.  Offsets and lengths are
    [u64], [u32] and [usize] values as integers; a method that takes
    [&mut self] returns the new state with its result, also on errors. *)

From stdpp Require Import pretty.
From S2P Require Import Prelude.

#[local] Open Scope string_scope.
#[local] Open Scope Z_scope.

Definition BULK_PROTOCOL_VERSION : Z := 8.
Definition BULK_FORMAT_RAW_V1 : Z := 1.
Definition BULK_HEADER_SIZE : Z := 12.
Definition DEFAULT_BULK_RECORD_PAYLOAD : Z := 256 * 1024.
Definition DEFAULT_FILESYSTEM_BULK_RECORD_PAYLOAD : Z := 3 * 1024 * 1024.
Definition MIN_BULK_RECORD_PAYLOAD : Z := 16 * 1024.
Definition MAX_BULK_RECORD_PAYLOAD : Z := DEFAULT_FILESYSTEM_BULK_RECORD_PAYLOAD.
Definition DEFAULT_BULK_WINDOW : Z := 8 * 1024 * 1024.
Definition MAX_BULK_WINDOW : Z := 32 * 1024 * 1024.
Definition BULK_FLOW_MASK_HOST_TO_GUEST : Z := 1.
Definition BULK_FLOW_MASK_GUEST_TO_HOST : Z := 2.

Inductive BulkKind := Filesystem | TcpStream.
Inductive BulkFlow := HostToGuest | GuestToHost.

#[global] Instance BulkKind_eq_dec : EqDecision BulkKind.
Proof. solve_decision. Defined.
#[global] Instance BulkFlow_eq_dec : EqDecision BulkFlow.
Proof. solve_decision. Defined.

Record BulkRecord := mkRecord {
  br_id : Z; br_kind : BulkKind; br_flow : BulkFlow; br_offset : Z; br_payload : list byte
}.

Record BulkOffer := mkOffer {
  bo_format : Z; bo_max_record_payload : Z; bo_guest_to_host_credit_limit : Z
}.

Record BulkAccepted := mkAccepted {
  ba_kind : BulkKind; ba_flows : Z; ba_format : Z; ba_max_record_payload : Z;
  ba_host_to_guest_credit_limit : Z; ba_guest_to_host_credit_limit : Z
}.

Record BulkCredit := mkCredit {
  bc_kind : BulkKind; bc_flow : BulkFlow; bc_consumed_offset : Z; bc_credit_limit : Z
}.

Record BulkFinish := mkFinish { bf_kind : BulkKind; bf_flow : BulkFlow; bf_final_offset : Z }.

Record BulkSendState := mkSend {
  bs_kind : BulkKind; bs_flow : BulkFlow; bs_max_record_payload : Z;
  bs_next_offset : Z; bs_consumed_offset : Z; bs_credit_limit : Z; bs_finished : bool
}.

Record BulkReceiveState := mkReceive {
  rv_kind : BulkKind; rv_flow : BulkFlow; rv_max_record_payload : Z; rv_window : Z;
  rv_next_expected_offset : Z; rv_consumed_offset : Z; rv_credit_limit : Z; rv_finished : bool
}.

Inductive BulkStateError :=
| UnsupportedFormat (format : Z)
| InvalidRecordLimit (limit : Z)
| InvalidPayloadLength (length max : Z)
| FlowMismatch
| OffsetOverflow
| CreditExceeded (end_ limit : Z)
| InvalidCredit (message : string)
| OffsetMismatch (expected actual : Z)
| FinishMismatch (expected actual : Z)
| AlreadyFinished.

Definition bulk_kind_wire (k : BulkKind) : Z := match k with Filesystem => 1 | TcpStream => 2 end.
Definition bulk_flow_wire (f : BulkFlow) : Z := match f with HostToGuest => 1 | GuestToHost => 2 end.

Definition bulk_kind_from_wire (value : Z) : option BulkKind :=
  match value with 1 => Some Filesystem | 2 => Some TcpStream | _ => None end.
Definition bulk_flow_from_wire (value : Z) : option BulkFlow :=
  match value with 1 => Some HostToGuest | 2 => Some GuestToHost | _ => None end.

Definition bulk_flow_mask (f : BulkFlow) : Z :=
  match f with
  | HostToGuest => BULK_FLOW_MASK_HOST_TO_GUEST
  | GuestToHost => BULK_FLOW_MASK_GUEST_TO_HOST
  end.

(** ** Negotiation *)

Definition validate_record_limit (limit : Z) : result BulkStateError unit :=
  if negb ((MIN_BULK_RECORD_PAYLOAD <=? limit) && (limit <=? MAX_BULK_RECORD_PAYLOAD))
  then Err (InvalidRecordLimit limit) else Ok tt.

Definition validate_payload_len (length max : Z) : result BulkStateError unit :=
  if (length =? 0) || (max <? length) then Err (InvalidPayloadLength length max) else Ok tt.

Definition offer_new (max_record_payload guest_to_host_credit_limit : Z) : BulkOffer :=
  mkOffer BULK_FORMAT_RAW_V1 max_record_payload guest_to_host_credit_limit.

Definition offer_filesystem_read : BulkOffer :=
  offer_new DEFAULT_FILESYSTEM_BULK_RECORD_PAYLOAD DEFAULT_BULK_WINDOW.
Definition offer_filesystem_write : BulkOffer := offer_new DEFAULT_FILESYSTEM_BULK_RECORD_PAYLOAD 0.
Definition offer_tcp : BulkOffer := offer_new DEFAULT_BULK_RECORD_PAYLOAD DEFAULT_BULK_WINDOW.

Definition offer_validate (o : BulkOffer) : result BulkStateError BulkOffer :=
  let? _ := validate_record_limit (bo_max_record_payload o) in
  if negb (bo_format o =? BULK_FORMAT_RAW_V1) then Err (UnsupportedFormat (bo_format o))
  else if MAX_BULK_WINDOW <? bo_guest_to_host_credit_limit o then
    Err (InvalidCredit ("initial guest-to-host limit " +:+ pretty (bo_guest_to_host_credit_limit o)
                        +:+ " exceeds " +:+ pretty MAX_BULK_WINDOW))
  else Ok o.

Definition validate_against (a : BulkAccepted) (offer : BulkOffer) (kind : BulkKind) (flows : Z)
  : result BulkStateError BulkAccepted :=
  let? offer := offer_validate offer in
  let? _ := validate_record_limit (ba_max_record_payload a) in
  if negb (bool_decide (ba_kind a = kind)) || negb (ba_flows a =? flows)
     || negb (Z.land (ba_flows a) (Z.lxor 0xff 3) =? 0)
  then Err FlowMismatch
  else if negb (ba_format a =? BULK_FORMAT_RAW_V1) then Err (UnsupportedFormat (ba_format a))
  else if bo_max_record_payload offer <? ba_max_record_payload a then
    Err (InvalidRecordLimit (ba_max_record_payload a))
  else if negb (ba_guest_to_host_credit_limit a =? bo_guest_to_host_credit_limit offer) then
    Err (InvalidCredit "guest-to-host grant was not echoed exactly")
  else if MAX_BULK_WINDOW <? ba_host_to_guest_credit_limit a then
    Err (InvalidCredit "host-to-guest grant exceeds the generation-8 window")
  else
    let host_to_guest := negb (Z.land (ba_flows a) BULK_FLOW_MASK_HOST_TO_GUEST =? 0) in
    let guest_to_host := negb (Z.land (ba_flows a) BULK_FLOW_MASK_GUEST_TO_HOST =? 0) in
    if negb (Bool.eqb host_to_guest (negb (ba_host_to_guest_credit_limit a =? 0))) then
      Err (InvalidCredit "host-to-guest credit must be nonzero exactly when that flow is enabled")
    else if negb (Bool.eqb guest_to_host (negb (ba_guest_to_host_credit_limit a =? 0))) then
      Err (InvalidCredit "guest-to-host credit must be nonzero exactly when that flow is enabled")
    else Ok a.

(** ** Sender *)

Definition send_new (kind : BulkKind) (flow : BulkFlow) (max_record_payload credit_limit : Z)
  : result BulkStateError BulkSendState :=
  let? _ := validate_record_limit max_record_payload in
  if MAX_BULK_WINDOW <? credit_limit then
    Err (InvalidCredit "initial credit exceeds the generation-8 window")
  else Ok (mkSend kind flow max_record_payload 0 0 credit_limit false).

Definition available_credit (s : BulkSendState) : Z :=
  saturating_sub (bs_credit_limit s) (bs_next_offset s).

Definition send_admit (s : BulkSendState) (payload_len : Z) : BulkSendState * result BulkStateError Z :=
  if bs_finished s then (s, Err AlreadyFinished)
  else match validate_payload_len payload_len (bs_max_record_payload s) with
  | Err e => (s, Err e)
  | Ok _ =>
      match checked_add 64 (bs_next_offset s) payload_len with
      | None => (s, Err OffsetOverflow)
      | Some end_ =>
          if bs_credit_limit s <? end_ then (s, Err (CreditExceeded end_ (bs_credit_limit s)))
          else (mkSend (bs_kind s) (bs_flow s) (bs_max_record_payload s) end_ (bs_consumed_offset s)
                       (bs_credit_limit s) (bs_finished s), Ok (bs_next_offset s))
      end
  end.

Definition apply_credit (s : BulkSendState) (c : BulkCredit)
  : BulkSendState * result BulkStateError bool :=
  if negb (bool_decide (bc_kind c = bs_kind s)) || negb (bool_decide (bc_flow c = bs_flow s)) then
    (s, Err FlowMismatch)
  else if bs_next_offset s <? bc_consumed_offset c then
    (s, Err (InvalidCredit "peer consumed bytes the sender has not admitted"))
  else if (bc_credit_limit c <? bc_consumed_offset c)
          || (MAX_BULK_WINDOW <? bc_credit_limit c - bc_consumed_offset c) then
    (s, Err (InvalidCredit "credit limit is outside the allowed absolute window"))
  else if (bc_consumed_offset c <=? bs_consumed_offset s) && (bc_credit_limit c <=? bs_credit_limit s)
  then (s, Ok false)
  else if (bc_consumed_offset c <? bs_consumed_offset s) || (bc_credit_limit c <? bs_credit_limit s)
          || (bc_credit_limit c <? bs_next_offset s) then
    (s, Err (InvalidCredit "credit fields advanced inconsistently"))
  else (mkSend (bs_kind s) (bs_flow s) (bs_max_record_payload s) (bs_next_offset s)
               (bc_consumed_offset c) (bc_credit_limit c) (bs_finished s), Ok true).

Definition send_finish (s : BulkSendState) : BulkSendState * result BulkStateError BulkFinish :=
  if bs_finished s then (s, Err AlreadyFinished)
  else (mkSend (bs_kind s) (bs_flow s) (bs_max_record_payload s) (bs_next_offset s)
               (bs_consumed_offset s) (bs_credit_limit s) true,
        Ok (mkFinish (bs_kind s) (bs_flow s) (bs_next_offset s))).

(** ** Receiver *)

Definition receive_new (kind : BulkKind) (flow : BulkFlow) (max_record_payload credit_limit window : Z)
  : result BulkStateError BulkReceiveState :=
  let? _ := validate_record_limit max_record_payload in
  if (window =? 0) || (MAX_BULK_WINDOW <? window) || (window <? credit_limit) then
    Err (InvalidCredit "invalid initial receive window")
  else Ok (mkReceive kind flow max_record_payload window 0 0 credit_limit false).

Definition accept_record (r : BulkReceiveState) (rec : BulkRecord)
  : BulkReceiveState * result BulkStateError Z :=
  if rv_finished r then (r, Err AlreadyFinished)
  else if negb (bool_decide (br_kind rec = rv_kind r)) || negb (bool_decide (br_flow rec = rv_flow r))
  then (r, Err FlowMismatch)
  else match validate_payload_len (zlen (br_payload rec)) (rv_max_record_payload r) with
  | Err e => (r, Err e)
  | Ok _ =>
      if negb (br_offset rec =? rv_next_expected_offset r) then
        (r, Err (OffsetMismatch (rv_next_expected_offset r) (br_offset rec)))
      else match checked_add 64 (br_offset rec) (zlen (br_payload rec)) with
      | None => (r, Err OffsetOverflow)
      | Some end_ =>
          if rv_credit_limit r <? end_ then (r, Err (CreditExceeded end_ (rv_credit_limit r)))
          else (mkReceive (rv_kind r) (rv_flow r) (rv_max_record_payload r) (rv_window r) end_
                  (rv_consumed_offset r) (rv_credit_limit r) (rv_finished r), Ok end_)
      end
  end.

(** On an overflow the consumed offset has already been stored. *)
Definition consume (r : BulkReceiveState) (consumed_offset : Z)
  : BulkReceiveState * result BulkStateError (option BulkCredit) :=
  if (consumed_offset <? rv_consumed_offset r) || (rv_next_expected_offset r <? consumed_offset) then
    (r, Err (InvalidCredit "consumed offset is outside admitted bytes"))
  else
    let r := mkReceive (rv_kind r) (rv_flow r) (rv_max_record_payload r) (rv_window r)
               (rv_next_expected_offset r) consumed_offset (rv_credit_limit r) (rv_finished r) in
    if rv_window r `div` 2 <? rv_credit_limit r - rv_consumed_offset r then (r, Ok None)
    else match checked_add 64 (rv_consumed_offset r) (rv_window r) with
    | None => (r, Err OffsetOverflow)
    | Some next_limit =>
        if next_limit <=? rv_credit_limit r then (r, Ok None)
        else (mkReceive (rv_kind r) (rv_flow r) (rv_max_record_payload r) (rv_window r)
                (rv_next_expected_offset r) (rv_consumed_offset r) next_limit (rv_finished r),
              Ok (Some (mkCredit (rv_kind r) (rv_flow r) (rv_consumed_offset r) next_limit)))
    end.

Definition accept_finish (r : BulkReceiveState) (f : BulkFinish)
  : BulkReceiveState * result BulkStateError unit :=
  if rv_finished r then (r, Err AlreadyFinished)
  else if negb (bool_decide (bf_kind f = rv_kind r)) || negb (bool_decide (bf_flow f = rv_flow r))
  then (r, Err FlowMismatch)
  else if negb (bf_final_offset f =? rv_next_expected_offset r) then
    (r, Err (FinishMismatch (rv_next_expected_offset r) (bf_final_offset f)))
  else (mkReceive (rv_kind r) (rv_flow r) (rv_max_record_payload r) (rv_window r)
          (rv_next_expected_offset r) (rv_consumed_offset r) (rv_credit_limit r) true, Ok tt).

#[local] Close Scope string_scope.

(** ** One flow between two peers

    The sender and the receiver of one flow, joined by two FIFO channels: data
    frames one way, credit updates the other way.  [flow_step] is total: local
    calls that the state refuses leave the system unchanged (the caller has to
    wait), while an error raised by a frame or credit from the peer is a
    protocol failure, which tears the correlation down. *)

Inductive data_frame := FrameRecord (rec : BulkRecord) | FrameFinish (f : BulkFinish).

Record flow_system := mkFlow {
  fl_send : BulkSendState;
  fl_recv : BulkReceiveState;
  fl_data : list data_frame;
  fl_credits : list BulkCredit;
  fl_sent : list byte;
  fl_received : list byte
}.

Inductive flow_event :=
| EvSend (id : Z) (payload : list byte)
| EvFinish
| EvDeliver
| EvConsume (offset : Z)
| EvCredit.

Definition flow_step (sys : flow_system) (ev : flow_event) : result BulkStateError flow_system :=
  let '(mkFlow s r data credits sent received) := sys in
  match ev with
  | EvSend id payload =>
      match send_admit s (zlen payload) with
      | (s', Ok offset) =>
          let rec := mkRecord id (bs_kind s) (bs_flow s) offset payload in
          Ok (mkFlow s' r (data ++ [FrameRecord rec]) credits (sent ++ payload) received)
      | (s', Err _) => Ok (mkFlow s' r data credits sent received)
      end
  | EvFinish =>
      match send_finish s with
      | (s', Ok f) => Ok (mkFlow s' r (data ++ [FrameFinish f]) credits sent received)
      | (s', Err _) => Ok (mkFlow s' r data credits sent received)
      end
  | EvDeliver =>
      match data with
      | [] => Ok sys
      | FrameRecord rec :: data' =>
          match accept_record r rec with
          | (r', Ok _) => Ok (mkFlow s r' data' credits sent (received ++ br_payload rec))
          | (_, Err e) => Err e
          end
      | FrameFinish f :: data' =>
          match accept_finish r f with
          | (r', Ok _) => Ok (mkFlow s r' data' credits sent received)
          | (_, Err e) => Err e
          end
      end
  | EvConsume offset =>
      match consume r offset with
      | (r', Ok (Some c)) => Ok (mkFlow s r' data (credits ++ [c]) sent received)
      | (r', Ok None) | (r', Err _) => Ok (mkFlow s r' data credits sent received)
      end
  | EvCredit =>
      match credits with
      | [] => Ok sys
      | c :: credits' =>
          match apply_credit s c with
          | (s', Ok _) => Ok (mkFlow s' r data credits' sent received)
          | (_, Err e) => Err e
          end
      end
  end.

(** ** Invariants *)

(** Receiver: what holds whatever the peer sends. *)
Record receiver_wf (r : BulkReceiveState) : Prop := {
  rw_window : 0 < rv_window r <= MAX_BULK_WINDOW;
  rw_order : 0 <= rv_consumed_offset r <= rv_next_expected_offset r;
  rw_credit : rv_next_expected_offset r <= rv_credit_limit r;
  rw_limit : rv_credit_limit r <= rv_consumed_offset r + rv_window r
}.

(** The data frames in flight continue the received stream up to the sent one. *)
Fixpoint frames_ok (k : BulkKind) (fl : BulkFlow) (max offset final : Z) (finished : bool)
    (frames : list data_frame) (rest : list byte) : Prop :=
  match frames with
  | [] => offset = final /\ rest = [] /\ finished = false
  | FrameRecord rec :: frames' =>
      br_kind rec = k /\ br_flow rec = fl /\ br_offset rec = offset
      /\ 0 < zlen (br_payload rec) <= max
      /\ exists rest', rest = br_payload rec ++ rest'
         /\ frames_ok k fl max (offset + zlen (br_payload rec)) final finished frames' rest'
  | FrameFinish f :: frames' =>
      f = mkFinish k fl offset /\ offset = final /\ frames' = [] /\ rest = [] /\ finished = true
  end.

(** The credits in flight advance from what the sender has applied to what the
    receiver has granted. *)
Fixpoint credits_ok (k : BulkKind) (fl : BulkFlow) (window consumed limit : Z)
    (credits : list BulkCredit) (r : BulkReceiveState) : Prop :=
  match credits with
  | [] => consumed <= rv_consumed_offset r /\ limit = rv_credit_limit r
  | c :: credits' =>
      bc_kind c = k /\ bc_flow c = fl /\ consumed <= bc_consumed_offset c
      /\ bc_consumed_offset c <= rv_consumed_offset r
      /\ bc_credit_limit c = bc_consumed_offset c + window /\ limit < bc_credit_limit c
      /\ credits_ok k fl window (bc_consumed_offset c) (bc_credit_limit c) credits' r
  end.

Record flow_wf (sys : flow_system) : Prop := {
  fw_kind : rv_kind (fl_recv sys) = bs_kind (fl_send sys);
  fw_flow : rv_flow (fl_recv sys) = bs_flow (fl_send sys);
  fw_max : rv_max_record_payload (fl_recv sys) = bs_max_record_payload (fl_send sys);
  fw_recv : receiver_wf (fl_recv sys);
  fw_next : bs_next_offset (fl_send sys) <= bs_credit_limit (fl_send sys);
  fw_top : bs_next_offset (fl_send sys) < 2 ^ 64;
  fw_ahead : bs_credit_limit (fl_send sys) <= rv_credit_limit (fl_recv sys);
  fw_frames : exists rest, fl_sent sys = fl_received sys ++ rest
    /\ frames_ok (bs_kind (fl_send sys)) (bs_flow (fl_send sys)) (bs_max_record_payload (fl_send sys))
         (rv_next_expected_offset (fl_recv sys)) (bs_next_offset (fl_send sys))
         (bs_finished (fl_send sys) && negb (rv_finished (fl_recv sys))) (fl_data sys) rest;
  fw_fin : rv_finished (fl_recv sys) = true -> bs_finished (fl_send sys) = true /\ fl_data sys = [];
  fw_credits : credits_ok (bs_kind (fl_send sys)) (bs_flow (fl_send sys)) (rv_window (fl_recv sys))
    (bs_consumed_offset (fl_send sys)) (bs_credit_limit (fl_send sys)) (fl_credits sys) (fl_recv sys);
  fw_received : zlen (fl_received sys) = rv_next_expected_offset (fl_recv sys)
}.

(** ** The receiver against any peer *)

Lemma receive_new_wf k fl max credit window r :
  0 <= credit -> 0 <= window -> receive_new k fl max credit window = Ok r -> receiver_wf r.
Proof.
  unfold receive_new. intros Hc Hw. destruct (validate_record_limit max); [|done].
  destruct (_ || _) eqn:E; [done|]. intros [= <-]. breflect. split; cbn; try lia.
Qed.

Lemma validate_payload_len_Ok length max u :
  validate_payload_len length max = Ok u -> 0 <= length -> 0 < length <= max.
Proof. unfold validate_payload_len. destruct (_ || _) eqn:E; [done|]. breflect. lia. Qed.

Lemma accept_record_wf r rec : receiver_wf r -> receiver_wf (accept_record r rec).1.
Proof.
  intros [Hw Ho Hc Hl]. unfold accept_record. destruct (rv_finished r); [done|].
  destruct (_ || _); [done|]. destruct (validate_payload_len _ _) eqn:Ev; [|done].
  apply validate_payload_len_Ok in Ev; [|lia].
  destruct (negb _) eqn:Eo; [done|]. breflect. destruct (checked_add _ _ _) as [e|] eqn:Ea; [|done].
  apply checked_add_Some in Ea as [-> _]. destruct (Z.ltb_spec (rv_credit_limit r) (br_offset rec + zlen (br_payload rec))); [done|].
  split; cbn; lia.
Qed.

Lemma consume_wf r offset : receiver_wf r -> receiver_wf (consume r offset).1.
Proof.
  intros [Hw Ho Hc Hl]. unfold consume. destruct (_ || _) eqn:E; [done|]. breflect. cbn.
  destruct (_ <? _) eqn:E1; [split; cbn; lia|].
  destruct (checked_add _ _ _) as [n|] eqn:Ea; [|split; cbn; lia].
  apply checked_add_Some in Ea as [-> _]. destruct (_ <=? _) eqn:E2; [split; cbn; lia|].
  breflect. split; cbn; lia.
Qed.

Lemma accept_finish_wf r f : receiver_wf r -> receiver_wf (accept_finish r f).1.
Proof.
  intros Hr. unfold accept_finish. destruct (rv_finished r); [done|].
  destruct (_ || _); [done|]. destruct (negb _); [done|]. destruct Hr. by split.
Qed.

(** Calls to a receiver, in any order and with any arguments. *)
Inductive receiver_call :=
| CallRecord (rec : BulkRecord)
| CallConsume (offset : Z)
| CallFinish (f : BulkFinish).

Definition receiver_apply (r : BulkReceiveState) (c : receiver_call) : BulkReceiveState :=
  match c with
  | CallRecord rec => (accept_record r rec).1
  | CallConsume offset => (consume r offset).1
  | CallFinish f => (accept_finish r f).1
  end.

Lemma receiver_apply_all_wf r calls : receiver_wf r -> receiver_wf (fold_left receiver_apply calls r).
Proof.
  revert r. induction calls as [|c calls IH]; intros r Hr; [done|]. cbn. apply IH.
  destruct c; [by apply accept_record_wf|by apply consume_wf|by apply accept_finish_wf].
Qed.

Lemma receiver_apply_window r c : rv_window (receiver_apply r c) = rv_window r.
Proof.
  destruct c; cbn; unfold accept_record, consume, accept_finish; repeat case_match; done.
Qed.

Lemma receiver_apply_all_window r calls : rv_window (fold_left receiver_apply calls r) = rv_window r.
Proof.
  revert r. induction calls as [|c calls IH]; intros r; [done|]. cbn. by rewrite IH, receiver_apply_window.
Qed.

(** ** The two peers together *)

Lemma frames_ok_app_record k fl max off final frames rest id payload :
  frames_ok k fl max off final false frames rest ->
  0 < zlen payload <= max ->
  frames_ok k fl max off (final + zlen payload) false
    (frames ++ [FrameRecord (mkRecord id k fl final payload)]) (rest ++ payload).
Proof.
  revert off rest. induction frames as [|[rec|f] frames IH]; intros off rest; cbn.
  - intros (-> & -> & _) Hp. do 3 (split; [done|]). split; [done|]. exists []. rewrite app_nil_r. done.
  - intros (Hk & Hf & Ho & Hl & rest' & -> & Hrest) Hp.
    do 4 (split; [done|]). exists (rest' ++ payload). rewrite app_assoc. split; [done|]. by apply IH.
  - by intros (_ & _ & _ & _ & ?).
Qed.

Lemma frames_ok_app_finish k fl max off final frames rest :
  frames_ok k fl max off final false frames rest ->
  frames_ok k fl max off final true (frames ++ [FrameFinish (mkFinish k fl final)]) rest.
Proof.
  revert off rest. induction frames as [|[rec|f] frames IH]; intros off rest; cbn.
  - intros (-> & -> & _). done.
  - intros (Hk & Hf & Ho & Hl & rest' & -> & Hrest).
    do 4 (split; [done|]). exists rest'. split; [done|]. by apply IH.
  - by intros (_ & _ & _ & _ & ?).
Qed.

(** The stream offset the data frames in flight lead to. *)
Lemma frames_ok_length k fl max off final fin frames rest :
  frames_ok k fl max off final fin frames rest -> final = off + zlen rest.
Proof.
  revert off rest. induction frames as [|[rec|f] frames IH]; intros off rest; cbn.
  - intros (-> & -> & _). cbn. lia.
  - intros (_ & _ & _ & _ & rest' & -> & Hrest). apply IH in Hrest. rewrite length_app. lia.
  - intros (_ & -> & _ & -> & _). cbn. lia.
Qed.

Lemma credits_ok_bounds k fl w consumed limit cs r :
  credits_ok k fl w consumed limit cs r -> consumed <= rv_consumed_offset r /\ limit <= rv_credit_limit r.
Proof.
  revert consumed limit. induction cs as [|c cs IH]; intros consumed limit; cbn; [lia|].
  intros (_ & _ & ? & ? & ? & ? & Hcs). apply IH in Hcs. lia.
Qed.

(** Only the consumed offset and the credit limit of the receiver matter; both
    may grow, the limit by appending the new credit. *)
Lemma credits_ok_mono k fl w consumed limit cs r r' :
  credits_ok k fl w consumed limit cs r ->
  rv_consumed_offset r <= rv_consumed_offset r' -> rv_credit_limit r' = rv_credit_limit r ->
  credits_ok k fl w consumed limit cs r'.
Proof.
  intros Hc Hle Heq. revert consumed limit Hc. induction cs as [|c cs IH]; intros consumed limit; cbn.
  - intros [? ->]. split; [lia|done].
  - intros (? & ? & ? & ? & ? & ? & Hcs). do 3 (split; [done|]). split; [lia|]. do 2 (split; [done|]). by apply IH.
Qed.

Lemma credits_ok_app k fl w consumed limit cs r r' :
  credits_ok k fl w consumed limit cs r ->
  rv_consumed_offset r <= rv_consumed_offset r' -> rv_credit_limit r < rv_credit_limit r' ->
  rv_credit_limit r' = rv_consumed_offset r' + w ->
  credits_ok k fl w consumed limit (cs ++ [mkCredit k fl (rv_consumed_offset r') (rv_credit_limit r')]) r'.
Proof.
  intros Hc Hle Hlt Heq. revert consumed limit Hc. induction cs as [|c cs IH]; intros consumed limit; cbn.
  - intros [? ->]. repeat split; lia.
  - intros (? & ? & ? & ? & ? & ? & Hcs). do 3 (split; [done|]). split; [lia|]. do 2 (split; [done|]). by apply IH.
Qed.

Lemma admit_Ok s len s' offset :
  0 <= len -> send_admit s len = (s', Ok offset) ->
  bs_finished s = false /\ offset = bs_next_offset s /\ 0 < len <= bs_max_record_payload s
  /\ bs_next_offset s + len <= bs_credit_limit s /\ bs_next_offset s + len < 2 ^ 64
  /\ s' = mkSend (bs_kind s) (bs_flow s) (bs_max_record_payload s) (bs_next_offset s + len)
            (bs_consumed_offset s) (bs_credit_limit s) false.
Proof.
  intros Hlen. unfold send_admit. destruct (bs_finished s) eqn:Hf; [done|].
  destruct (validate_payload_len _ _) eqn:Ev; [|done]. apply validate_payload_len_Ok in Ev; [|done].
  destruct (checked_add _ _ _) as [e|] eqn:Ea; [|done]. apply checked_add_Some in Ea as [-> Htop].
  destruct (_ <? _) eqn:E; [done|]. breflect. by intros [= <- <-].
Qed.

Lemma admit_Err s len s' e : send_admit s len = (s', Err e) -> s' = s.
Proof.
  unfold send_admit. destruct (bs_finished s); [by intros [= <- _]|].
  destruct (validate_payload_len _ _); [|by intros [= <- _]].
  destruct (checked_add _ _ _); [|by intros [= <- _]].
  destruct (_ <? _); [by intros [= <- _]|done].
Qed.

Section FlowSteps.
Variables (s : BulkSendState) (r : BulkReceiveState) (data : list data_frame)
  (credits : list BulkCredit) (sent received : list byte).
Hypothesis Hwf : flow_wf (mkFlow s r data credits sent received).

Lemma flow_send_ok id payload :
  exists sys', flow_step (mkFlow s r data credits sent received) (EvSend id payload) = Ok sys'
               /\ flow_wf sys'.
Proof.
  cbn. destruct (send_admit s (zlen payload)) as [s' [offset|e]] eqn:E.
  2:{ apply admit_Err in E as ->. eexists. split; [done|exact Hwf]. }
  apply admit_Ok in E as (Hfin & -> & Hlen & Hcredit & Htop & ->); [|lia].
  eexists. split; [done|]. destruct Hwf as [H1 H2 H3 H4 H5 H6 H7 (rest & Hsent & Hfr) H9 H10 H11].
  cbn in *. assert (rv_finished r = false) as Hrf.
  { destruct (rv_finished r); [|done]. destruct (H9 eq_refl) as [? _]. congruence. }
  rewrite Hfin in Hfr. split; cbn; try done.
  - exists (rest ++ payload). rewrite Hsent, app_assoc. split; [done|]. by apply frames_ok_app_record.
  - by rewrite Hrf.
Qed.

Lemma flow_finish_ok :
  exists sys', flow_step (mkFlow s r data credits sent received) EvFinish = Ok sys' /\ flow_wf sys'.
Proof.
  cbn. unfold send_finish. destruct (bs_finished s) eqn:Hfin; [eexists; split; [done|exact Hwf]|].
  eexists. split; [done|]. destruct Hwf as [H1 H2 H3 H4 H5 H6 H7 (rest & Hsent & Hfr) H9 H10 H11].
  cbn in *. assert (rv_finished r = false) as Hrf.
  { destruct (rv_finished r); [|done]. destruct (H9 eq_refl) as [? _]. congruence. }
  rewrite Hfin in Hfr. split; cbn; try done.
  - exists rest. split; [done|]. rewrite Hrf. by apply frames_ok_app_finish.
  - by rewrite Hrf.
Qed.

Lemma flow_deliver_ok :
  exists sys', flow_step (mkFlow s r data credits sent received) EvDeliver = Ok sys' /\ flow_wf sys'.
Proof.
  destruct data as [|[rec|f] data'] eqn:Hd; cbn; [eexists; split; [done|exact Hwf]|..];
    destruct Hwf as [H1 H2 H3 H4 H5 H6 H7 (rest & Hsent & Hfr) H9 H10 H11]; cbn in *.
  - destruct Hfr as (Hk & Hf & Ho & Hl & rest' & -> & Hrest).
    pose proof (frames_ok_length _ _ _ _ _ _ _ _ Hrest) as Hend.
    assert (rv_finished r = false) as Hrf by (destruct (rv_finished r); [by destruct (H9 eq_refl)|done]).
    pose proof (accept_record_wf r rec H4) as Hr'.
    unfold accept_record in *. rewrite Hrf in *.
    rewrite !bool_decide_true in * by congruence. cbn [negb orb] in *.
    unfold validate_payload_len in *.
    replace (_ || _) with false in * by (symmetry; rewrite orb_false_iff, Z.eqb_neq, Z.ltb_ge; lia).
    rewrite Ho, Z.eqb_refl in *. cbn [negb] in *.
    assert (checked_add 64 (rv_next_expected_offset r) (zlen (br_payload rec))
            = Some (rv_next_expected_offset r + zlen (br_payload rec))) as Ha
      by (apply checked_add_Some; split; [done|lia]).
    rewrite Ha in *.
    assert ((rv_credit_limit r <? rv_next_expected_offset r + zlen (br_payload rec)) = false) as Hc
      by (apply Z.ltb_ge; lia).
    rewrite Hc in *. eexists. split; [done|]. split; cbn; try done.
    + exists rest'. rewrite <- app_assoc. split; [done|]. exact Hrest.
    + by apply (credits_ok_mono _ _ _ _ _ _ r).
    + rewrite length_app. lia.
  - destruct Hfr as (-> & Ho & -> & -> & Hfin). apply andb_true_iff in Hfin as [Hsf Hrf%negb_true_iff].
    unfold accept_finish. rewrite Hrf. cbn. rewrite !bool_decide_true by done. rewrite Z.eqb_refl. cbn.
    eexists. split; [done|]. split; cbn; try done.
    + by destruct H4.
    + exists []. split; [done|]. split; [done|]. split; [done|]. by rewrite Hsf.
    + by apply (credits_ok_mono _ _ _ _ _ _ r).
Qed.

Lemma flow_consume_ok offset :
  exists sys', flow_step (mkFlow s r data credits sent received) (EvConsume offset) = Ok sys'
               /\ flow_wf sys'.
Proof.
  pose proof (consume_wf r offset (fw_recv _ Hwf)) as Hr'. cbn in Hr'. cbn. unfold consume in *.
  destruct (_ || _) eqn:E; [eexists; split; [done|exact Hwf]|]. breflect. cbn in *.
  destruct Hwf as [H1 H2 H3 H4 H5 H6 H7 H8 H9 H10 H11]. cbn in *.
  destruct (_ <? _) eqn:E1.
  { eexists. split; [done|]. split; cbn; try done. by apply (credits_ok_mono _ _ _ _ _ _ r). }
  destruct (checked_add _ _ _) as [n|] eqn:Ea.
  2:{ eexists. split; [done|]. split; cbn; try done. by apply (credits_ok_mono _ _ _ _ _ _ r). }
  apply checked_add_Some in Ea as [-> _]. destruct (_ <=? _) eqn:E2.
  { eexists. split; [done|]. split; cbn; try done. by apply (credits_ok_mono _ _ _ _ _ _ r). }
  breflect. eexists. split; [done|]. split; cbn; try done.
  - lia.
  - rewrite <- H1, <- H2 in H10 |- *. by apply (credits_ok_app _ _ _ _ _ _ r
      (mkReceive (rv_kind r) (rv_flow r) (rv_max_record_payload r) (rv_window r)
         (rv_next_expected_offset r) offset (offset + rv_window r) (rv_finished r))).
Qed.

Lemma flow_credit_ok :
  exists sys', flow_step (mkFlow s r data credits sent received) EvCredit = Ok sys' /\ flow_wf sys'.
Proof.
  destruct credits as [|c credits'] eqn:Hcr; cbn; [eexists; split; [done|exact Hwf]|].
  destruct Hwf as [H1 H2 H3 H4 H5 H6 H7 (rest & Hsent & Hfr) H9 H10 H11]. cbn in *.
  destruct H10 as (Hk & Hf & Hc1 & Hc2 & Hlim & Hgt & Hrest).
  pose proof (frames_ok_length _ _ _ _ _ _ _ _ Hfr) as Hend.
  pose proof (credits_ok_bounds _ _ _ _ _ _ _ Hrest) as [_ Htop].
  pose proof (rw_order _ H4) as Ho. pose proof (rw_window _ H4) as Hw.
  unfold apply_credit. rewrite !bool_decide_true by done. cbn [negb orb].
  rewrite (proj2 (Z.ltb_ge _ _)) by lia. rewrite (proj2 (Z.ltb_ge _ (bc_consumed_offset c))) by lia.
  rewrite (proj2 (Z.ltb_ge MAX_BULK_WINDOW _)) by lia. cbn [orb].
  rewrite (proj2 (Z.leb_gt (bc_credit_limit c) _)) by lia. rewrite andb_false_r.
  rewrite (proj2 (Z.ltb_ge (bc_consumed_offset c) _)), !(proj2 (Z.ltb_ge (bc_credit_limit c) _)) by lia.
  cbn [orb]. eexists. split; [done|]. split; cbn; try done.
  - lia.
  - by exists rest.
Qed.

End FlowSteps.

Lemma flow_step_ok sys ev : flow_wf sys -> exists sys', flow_step sys ev = Ok sys' /\ flow_wf sys'.
Proof.
  destruct sys as [s r data credits sent received]. intros Hwf.
  destruct ev; [by apply flow_send_ok|by apply flow_finish_ok|by apply flow_deliver_ok
    |by apply flow_consume_ok|by apply flow_credit_ok].
Qed.

Definition flow_run (sys : flow_system) (evs : list flow_event) : result BulkStateError flow_system :=
  try_fold flow_step sys evs.

Lemma flow_run_ok evs sys : flow_wf sys -> exists sys', flow_run sys evs = Ok sys' /\ flow_wf sys'.
Proof.
  unfold flow_run. revert sys. induction evs as [|ev evs IH]; intros sys Hwf; cbn; [by eauto|].
  destruct (flow_step_ok sys ev Hwf) as (sys1 & -> & Hwf1). by apply IH.
Qed.

(** The two ends of one negotiated flow. *)
Definition flow_start (s : BulkSendState) (r : BulkReceiveState) : flow_system := mkFlow s r [] [] [] [].

Lemma flow_start_wf k fl max credit window s r :
  0 <= credit -> 0 <= window ->
  send_new k fl max credit = Ok s -> receive_new k fl max credit window = Ok r ->
  flow_wf (flow_start s r).
Proof.
  intros Hc Hw Hs Hr. pose proof (receive_new_wf _ _ _ _ _ _ Hc Hw Hr) as Hrw.
  unfold send_new, receive_new in *. destruct (validate_record_limit max); [|done].
  destruct (_ <? _) eqn:E1; [done|]. injection Hs as <-. destruct (_ || _) eqn:E2; [done|].
  injection Hr as <-. breflect. split; cbn; try done; try lia.
  by exists [].
Qed.

(** *** Progress *)

Lemma admit_when_room s len :
  bs_finished s = false -> 0 < len <= bs_max_record_payload s ->
  bs_next_offset s + len <= bs_credit_limit s -> bs_next_offset s + len < 2 ^ 64 ->
  (send_admit s len).2 = Ok (bs_next_offset s).
Proof.
  intros Hf Hl Hc Ht. unfold send_admit, validate_payload_len. rewrite Hf.
  rewrite (proj2 (Z.eqb_neq len 0)), (proj2 (Z.ltb_ge _ len)) by lia. cbn [orb].
  rewrite (proj2 (checked_add_Some _ _ _ _) (conj eq_refl Ht)).
  by rewrite (proj2 (Z.ltb_ge _ _)) by lia.
Qed.

(** Consuming everything admitted leaves at least half a window of credit. *)
Lemma consume_all_credit r :
  receiver_wf r -> rv_next_expected_offset r + rv_window r < 2 ^ 64 ->
  let r' := (consume r (rv_next_expected_offset r)).1 in
  rv_next_expected_offset r + rv_window r `div` 2 <= rv_credit_limit r'.
Proof.
  intros [Hw Ho Hc Hl] Ht. unfold consume.
  rewrite (proj2 (Z.ltb_ge _ _)), (proj2 (Z.ltb_ge (rv_next_expected_offset r) _)) by lia. cbn.
  destruct (_ <? _) eqn:E; breflect; [cbn; lia|].
  rewrite (proj2 (checked_add_Some _ _ _ _) (conj eq_refl Ht)).
  pose proof (Z.div_le_upper_bound (rv_window r) 2 (rv_window r)).
  destruct (_ <=? _) eqn:E2; breflect; cbn; lia.
Qed.

Lemma apply_credit_frame s c :
  bs_next_offset (apply_credit s c).1 = bs_next_offset s
  /\ bs_finished (apply_credit s c).1 = bs_finished s
  /\ bs_max_record_payload (apply_credit s c).1 = bs_max_record_payload s.
Proof. unfold apply_credit. repeat case_match; done. Qed.

(** ** Properties *)


(** The receiver is safe against any peer: after any sequence of records,
    finishes and consumptions, valid or not, the admitted but unconsumed bytes
    fit in the window, and the credit limit is never behind the consumed offset
    (the subtraction of [consume] cannot underflow). *)
Lemma bulk_receiver_bounded k fl max credit window r calls :
  0 <= credit -> 0 <= window -> receive_new k fl max credit window = Ok r ->
  let r' := fold_left receiver_apply calls r in
  0 <= rv_next_expected_offset r' - rv_consumed_offset r' <= window
  /\ rv_consumed_offset r' <= rv_credit_limit r' /\ window <= MAX_BULK_WINDOW.
Proof.
  intros Hc Hw Hr r'. pose proof (receive_new_wf _ _ _ _ _ _ Hc Hw Hr) as Hwf.
  destruct (receiver_apply_all_wf r calls Hwf) as [Hwin Ho Hcr Hl].
  pose proof (receiver_apply_all_window r calls) as Hweq.
  assert (rv_window r = window) as Hrw.
  { unfold receive_new in Hr. destruct (validate_record_limit max); [|done].
    destruct (_ || _); [done|]. by injection Hr as <-. }
  unfold r'. lia.
Qed.

(** C38: a flow does not stall: in any reachable state with nothing in flight,
    once the receiver consumes what it has admitted and the sender applies the
    resulting credit, the sender can admit any record of at most the negotiated
    size and half the window (below the 2^64 offset limit). *)
Theorem bulk_flow_does_not_stall k fl max credit window s r evs sys len :
  0 <= credit -> 0 <= window ->
  send_new k fl max credit = Ok s -> receive_new k fl max credit window = Ok r ->
  flow_run (flow_start s r) evs = Ok sys ->
  fl_data sys = [] -> fl_credits sys = [] -> bs_finished (fl_send sys) = false ->
  0 < len <= bs_max_record_payload (fl_send sys) -> len <= rv_window (fl_recv sys) `div` 2 ->
  bs_next_offset (fl_send sys) + rv_window (fl_recv sys) < 2 ^ 64 ->
  exists sys', flow_run sys [EvConsume (rv_next_expected_offset (fl_recv sys)); EvCredit] = Ok sys'
    /\ (send_admit (fl_send sys') len).2 = Ok (bs_next_offset (fl_send sys)).
Proof.
  intros Hc Hw Hs Hr Hrun Hd Hcr Hfin Hlen Hhalf Htop.
  pose proof (flow_start_wf _ _ _ _ _ _ _ Hc Hw Hs Hr) as Hwf0.
  destruct (flow_run_ok evs _ Hwf0) as (sys1 & Hrun1 & Hwf). rewrite Hrun in Hrun1. injection Hrun1 as <-.
  destruct (flow_step_ok sys (EvConsume (rv_next_expected_offset (fl_recv sys))) Hwf) as (sys1 & E1 & Hwf1).
  destruct (flow_step_ok sys1 EvCredit Hwf1) as (sys2 & E2 & Hwf2).
  exists sys2. split; [unfold flow_run; cbn [try_fold]; by rewrite E1, E2|].
  destruct sys as [sd rv data credits sent received]. cbn in Hd, Hcr, Hfin, Hlen, Hhalf, Htop. subst.
  destruct (fw_frames _ Hwf) as (rest & _ & Hnext & _). cbn in Hnext.
  pose proof (consume_all_credit rv (fw_recv _ Hwf)) as Hcredit. cbn in Hcredit.
  specialize (Hcredit ltac:(lia)). pose proof (rw_window _ (fw_recv _ Hwf)) as Hwin. cbn in Hwin.
  assert (rv_window rv `div` 2 <= rv_window rv) by (apply Z.div_le_upper_bound; lia).
  cbn in E1, E2.
  destruct (consume rv (rv_next_expected_offset rv)) as [rv' [[c|]|e]]; injection E1 as <-; cbn in *.
  1:{ destruct (apply_credit_frame sd c) as (Hn & Hf & Hm).
      destruct (apply_credit sd c) as [sd' [b|e]]; [|done]. injection E2 as <-. cbn in *.
      pose proof (fw_credits _ Hwf2) as [_ Heq]. cbn in Heq. rewrite <- Hn.
      apply admit_when_room; lia || congruence. }
  all: injection E2 as <-; cbn in *; pose proof (fw_credits _ Hwf2) as [_ Heq]; cbn in Heq;
    apply admit_when_room; lia || congruence.
Qed.

Definition ba_credit (a : BulkAccepted) (fl : BulkFlow) : Z :=
  match fl with
  | HostToGuest => ba_host_to_guest_credit_limit a
  | GuestToHost => ba_guest_to_host_credit_limit a
  end.

Lemma validate_record_limit_Ok limit u :
  validate_record_limit limit = Ok u -> MIN_BULK_RECORD_PAYLOAD <= limit <= MAX_BULK_RECORD_PAYLOAD.
Proof.
  unfold validate_record_limit. destruct (_ && _) eqn:E; [|done]. intros _. breflect. done.
Qed.

Lemma offer_validate_Ok o o' :
  offer_validate o = Ok o' ->
  o' = o /\ MIN_BULK_RECORD_PAYLOAD <= bo_max_record_payload o <= MAX_BULK_RECORD_PAYLOAD
  /\ bo_format o = BULK_FORMAT_RAW_V1 /\ bo_guest_to_host_credit_limit o <= MAX_BULK_WINDOW.
Proof.
  unfold offer_validate. destruct (validate_record_limit _) as [u|] eqn:Em; [|done].
  apply validate_record_limit_Ok in Em.
  destruct (bo_format o =? _) eqn:E2; cbn [negb]; [|done].
  destruct (MAX_BULK_WINDOW <? _) eqn:E3; [done|]. intros [= <-]. breflect. done.
Qed.

(** an acceptance that passes validation agrees with the offer (format,
    record size within the offered one, guest-to-host grant echoed), grants
    credit to exactly the enabled flows, and lets both ends of every enabled
    flow be created with its limits. *)
Lemma bulk_acceptance_usable a offer kind flows a' :
  0 <= ba_host_to_guest_credit_limit a -> 0 <= ba_guest_to_host_credit_limit a ->
  validate_against a offer kind flows = Ok a' ->
  a' = a /\ ba_kind a = kind /\ ba_flows a = flows /\ ba_format a = bo_format offer
  /\ ba_max_record_payload a <= bo_max_record_payload offer
  /\ ba_guest_to_host_credit_limit a = bo_guest_to_host_credit_limit offer
  /\ (forall fl, ba_credit a fl <> 0 <-> Z.land flows (bulk_flow_mask fl) <> 0)
  /\ forall fl, Z.land flows (bulk_flow_mask fl) <> 0 ->
       exists s r, send_new kind fl (ba_max_record_payload a) (ba_credit a fl) = Ok s
         /\ receive_new kind fl (ba_max_record_payload a) (ba_credit a fl) (ba_credit a fl) = Ok r
         /\ flow_wf (flow_start s r).
Proof.
  intros Hh Hg. unfold validate_against. destruct (offer_validate offer) as [o|] eqn:Eo; [|done].
  apply offer_validate_Ok in Eo as (-> & Homax & Hofmt & Howin).
  destruct (validate_record_limit (ba_max_record_payload a)) as [u|] eqn:Em; [|done].
  destruct (_ || _) eqn:E1; [done|].
  destruct (negb (ba_format a =? BULK_FORMAT_RAW_V1)) eqn:E2; [done|].
  destruct (bo_max_record_payload offer <? ba_max_record_payload a) eqn:E3; [done|].
  destruct (negb (ba_guest_to_host_credit_limit a =? _)) eqn:E4; [done|].
  destruct (MAX_BULK_WINDOW <? _) eqn:E5; [done|].
  destruct (negb (Bool.eqb (negb (Z.land (ba_flows a) BULK_FLOW_MASK_HOST_TO_GUEST =? 0)) _)) eqn:E6; [done|].
  destruct (negb (Bool.eqb (negb (Z.land (ba_flows a) BULK_FLOW_MASK_GUEST_TO_HOST =? 0)) _)) eqn:E7; [done|].
  intros [= <-]. breflect. apply Bool.eqb_prop in E6, E7.
  assert (forall x y, negb (x =? 0) = negb (y =? 0) -> y <> 0 <-> x <> 0) as Hiff.
  { intros x y Hxy. destruct (Z.eqb_spec x 0), (Z.eqb_spec y 0); cbn in Hxy; done. }
  assert (forall fl, ba_credit a fl <> 0 <-> Z.land flows (bulk_flow_mask fl) <> 0) as Hcredit.
  { subst flows. intros []; cbn; by apply Hiff. }
  split; [done|]. split; [done|]. split; [done|]. split; [congruence|]. split; [lia|]. split; [lia|].
  split; [done|]. intros fl Hfl. apply Hcredit in Hfl.
  assert (0 <= ba_credit a fl <= MAX_BULK_WINDOW) as Hb by (destruct fl; cbn; lia).
  assert (send_new kind fl (ba_max_record_payload a) (ba_credit a fl)
          = Ok (mkSend kind fl (ba_max_record_payload a) 0 0 (ba_credit a fl) false)) as Hs.
  { unfold send_new. rewrite Em. by rewrite (proj2 (Z.ltb_ge _ _)) by lia. }
  assert (receive_new kind fl (ba_max_record_payload a) (ba_credit a fl) (ba_credit a fl)
          = Ok (mkReceive kind fl (ba_max_record_payload a) (ba_credit a fl) 0 0 (ba_credit a fl) false)) as Hr.
  { unfold receive_new. rewrite Em, (proj2 (Z.eqb_neq _ _)) by done.
    by rewrite !(proj2 (Z.ltb_ge _ _)) by lia. }
  eexists _, _. split; [done|]. split; [done|].
  apply (flow_start_wf kind fl (ba_max_record_payload a) (ba_credit a fl) (ba_credit a fl)); [lia|lia|done|done].
Qed.

(** ** Witnesses *)

Definition sample_send : BulkSendState :=
  mkSend TcpStream HostToGuest DEFAULT_BULK_RECORD_PAYLOAD 0 0 100 false.
Definition sample_receive : BulkReceiveState :=
  mkReceive TcpStream HostToGuest DEFAULT_BULK_RECORD_PAYLOAD 100 0 0 100 false.
Definition sample_events : list flow_event :=
  [EvSend 1 (replicate 60 Byte.x01); EvSend 1 (replicate 60 Byte.x02); EvDeliver; EvConsume 60; EvCredit;
   EvSend 1 (replicate 60 Byte.x02); EvDeliver].


Lemma bulk_receiver_bounded_witness :
  let r' := fold_left receiver_apply
              [CallRecord (mkRecord 1 TcpStream HostToGuest 0 (replicate 60 Byte.x01)); CallConsume 70;
               CallConsume 60; CallFinish (mkFinish TcpStream HostToGuest 3)] sample_receive in
  0 <= rv_next_expected_offset r' - rv_consumed_offset r' <= 100
  /\ rv_consumed_offset r' <= rv_credit_limit r' /\ 100 <= MAX_BULK_WINDOW.
Proof.
  apply (bulk_receiver_bounded TcpStream HostToGuest DEFAULT_BULK_RECORD_PAYLOAD 100);
    [lia|lia|vm_compute; reflexivity].
Defined.

Definition sample_end : flow_system :=
  let bytes := replicate 60 Byte.x01 ++ replicate 60 Byte.x02 in
  mkFlow (mkSend TcpStream HostToGuest DEFAULT_BULK_RECORD_PAYLOAD 120 60 160 false)
         (mkReceive TcpStream HostToGuest DEFAULT_BULK_RECORD_PAYLOAD 100 120 60 160 false)
         [] [] bytes bytes.

Lemma bulk_flow_does_not_stall_witness :
  exists sys', flow_run sample_end [EvConsume 120; EvCredit] = Ok sys'
    /\ (send_admit (fl_send sys') 50).2 = Ok 120.
Proof.
  apply (bulk_flow_does_not_stall TcpStream HostToGuest DEFAULT_BULK_RECORD_PAYLOAD 100 100
    sample_send sample_receive sample_events sample_end 50);
    [lia|lia|vm_compute; reflexivity|vm_compute; reflexivity|vm_compute; reflexivity
    |reflexivity|reflexivity|reflexivity
    |vm_compute; split; [reflexivity|discriminate]|vm_compute; discriminate|vm_compute; reflexivity].
Defined.

Definition sample_accepted : BulkAccepted := mkAccepted TcpStream 3 1 65536 4096 DEFAULT_BULK_WINDOW.

Lemma bulk_acceptance_usable_witness :
  validate_against sample_accepted offer_tcp TcpStream 3 = Ok sample_accepted
  /\ exists s r, send_new TcpStream GuestToHost 65536 DEFAULT_BULK_WINDOW = Ok s
       /\ receive_new TcpStream GuestToHost 65536 DEFAULT_BULK_WINDOW DEFAULT_BULK_WINDOW = Ok r
       /\ flow_wf (flow_start s r).
Proof.
  split; [vm_compute; reflexivity|].
  apply (bulk_acceptance_usable sample_accepted offer_tcp TcpStream 3 sample_accepted)
    with (fl := GuestToHost); vm_compute; done.
Defined.
