(* ===== verification/Codec.v ===== *)
(** * The frame codec

    Models [crates/protocol/lib/codec.rs]: length-prefixed frames
    [len: u32 BE][id: u32 BE][flags: u8][body], raw, as CBOR control messages,
    and as generation-8 bulk records.

    A byte buffer is a list of bytes; a decoder that consumes from [&mut buf]
    returns the buffer it leaves behind, also on errors.  An [AsyncRead] is the
    list of bytes it will deliver before the end of the stream; an [AsyncWrite]
    is the list of its answers to successive write calls.  CBOR ([ciborium]) is
    a class parameter. *)

From S2P Require Import Prelude Message Bulk.

Definition MAX_FRAME_SIZE : Z := 4 * 1024 * 1024.
Definition MAX_WIRE_FRAME : Z := 4 + MAX_FRAME_SIZE.

Record RawFrame := mkFrame { rf_id : Z; rf_flags : Z; rf_body : list byte }.

Inductive DecodedFrame := DecodedControl (m : Message) | DecodedBulk (r : BulkRecord).

Inductive io_error := IoUnexpectedEof | IoWriteZero | IoOther.

(** The diagnostics of malformed bulk frames. *)
Inductive bulk_reason :=
| FlagNotExclusive | FlagCombined | NoPayload | ReservedNonzero | BadPayloadLength (n : Z)
| EndOverflow | BadDecoderLimit (n : Z) | UnknownKind (b : Z) | UnknownFlow (b : Z)
| ExceedsMaximum (n max : Z) | RecordInControlDecoder | LaneNoPayload | LaneNonBulk.

(** The diagnostics of malformed transport bindings and leases. *)
Inductive binding_reason :=
| UnexpectedProfile (p : string) | UnexpectedPort (p : string) | ConnectionIdMismatch | AckIdMismatch
| BindingLength (label : string) (n : Z) | BindingMagic (label : string)
| BindingFormat (label : string) (b : Z) | BindingGeneration (label : string) (b : Z)
| BindingReserved (label : string) | MalformedLease.

Inductive ProtocolError (CborError : Type) :=
| Io (e : io_error)
| CborEncode (e : CborError)
| CborDecode (e : CborError)
| FrameTooLarge (size max : Z)
| FrameTooShort (size min : Z)
| InvalidBulkFrame (why : bulk_reason)
| InvalidBulkBinding (why : binding_reason)
| UnexpectedEof.
Arguments Io {_}.
Arguments CborEncode {_}.
Arguments CborDecode {_}.
Arguments FrameTooLarge {_}.
Arguments FrameTooShort {_}.
Arguments InvalidBulkFrame {_}.
Arguments InvalidBulkBinding {_}.
Arguments UnexpectedEof {_}.

(** [ciborium] on the envelope: [id] and [flags] are skipped, so a decoded
    message has both zero. *)
Class Cbor := {
  CborError : Type;
  cbor_into_writer : Message -> result CborError (list byte);
  cbor_from_reader : list byte -> result CborError Message
}.

Section Codec.
Context `{Cbor}.
Abbreviation res A := (result (ProtocolError CborError) A).

(** ** Raw frames *)

(** The length check shared by the encoders: [u32::try_from], then the limit. *)
Definition checked_frame_len (n : Z) : res Z :=
  if u_max 32 <? n then Err (FrameTooLarge (u_max 32) MAX_FRAME_SIZE)
  else if MAX_FRAME_SIZE <? n then Err (FrameTooLarge n MAX_FRAME_SIZE)
  else Ok n.

Definition frame_header (frame_len id flags : Z) : list byte :=
  be_bytes 4 frame_len ++ be_bytes 4 id ++ [byte_of_Z flags].

Definition encode_raw_to_buf (frame : RawFrame) (buf : list byte) : res (list byte) :=
  let? frame_len := checked_frame_len (FRAME_HEADER_SIZE + zlen (rf_body frame)) in
  Ok (buf ++ frame_header frame_len (rf_id frame) (rf_flags frame) ++ rf_body frame).

(** [u32::from_be_bytes] of the bytes at an offset, and the byte at an index. *)
Definition u32_at (buf : list byte) (i : Z) : Z := be_value (take 4 (drop (Z.to_nat i) buf)).
Definition u8_at (buf : list byte) (i : Z) : Z := be_value (take 1 (drop (Z.to_nat i) buf)).
(** [buf[from..to]]. *)
Definition slice (buf : list byte) (from to : Z) : list byte :=
  take (Z.to_nat (to - from)) (drop (Z.to_nat from) buf).

Definition try_decode_raw_from_buf (buf : list byte) : list byte * res (option RawFrame) :=
  if zlen buf <? 4 then (buf, Ok None)
  else
    let frame_len := u32_at buf 0 in
    if MAX_FRAME_SIZE <? frame_len then (buf, Err (FrameTooLarge frame_len MAX_FRAME_SIZE))
    else
      let total := 4 + frame_len in
      if zlen buf <? total then (buf, Ok None)
      else if frame_len <? FRAME_HEADER_SIZE then (buf, Err (FrameTooShort frame_len FRAME_HEADER_SIZE))
      else
        let id := u32_at buf 4 in
        let flags := u8_at buf 8 in
        let body := slice buf (4 + FRAME_HEADER_SIZE) total in
        (drop (Z.to_nat total) buf, Ok (Some (mkFrame id flags body))).

(** [read_exact]: the bytes and the rest of the stream, or end of stream. *)
Definition read_exact (stream : list byte) (n : Z) : option (list byte * list byte) :=
  if zlen stream <? n then None
  else Some (take (Z.to_nat n) stream, drop (Z.to_nat n) stream).

Definition read_raw_frame (stream : list byte) : res (RawFrame * list byte) :=
  match read_exact stream 4 with
  | None => Err UnexpectedEof
  | Some (len_buf, stream) =>
      let frame_len := be_value len_buf in
      if MAX_FRAME_SIZE <? frame_len then Err (FrameTooLarge frame_len MAX_FRAME_SIZE)
      else if frame_len <? FRAME_HEADER_SIZE then Err (FrameTooShort frame_len FRAME_HEADER_SIZE)
      else match read_exact stream FRAME_HEADER_SIZE with
      | None => Err (Io IoUnexpectedEof)
      | Some (header, stream) =>
          let id := be_value (take 4 header) in
          let flags := u8_at header 4 in
          match read_exact stream (frame_len - FRAME_HEADER_SIZE) with
          | None => Err (Io IoUnexpectedEof)
          | Some (body, stream) => Ok (mkFrame id flags body, stream)
          end
      end
  end.

(** ** Writing *)

(** The loop of [write_vectored_all].  [answers] are the writer's results: the
    number of bytes it took (never more than it was offered) or an error.  The
    output is what has been written; [None] means the writer gave no further
    answer. *)
Fixpoint write_vectored_loop (answers : list (result io_error Z)) (header body : list byte)
    (header_offset body_offset : Z) (out : list byte) : list byte * option (result io_error unit) :=
  if (header_offset <? zlen header) || (body_offset <? zlen body) then
    match answers with
    | [] => (out, None)
    | answer :: answers' =>
        let offered :=
          if header_offset <? zlen header
          then drop (Z.to_nat header_offset) header
               ++ (if body_offset <? zlen body then drop (Z.to_nat body_offset) body else [])
          else drop (Z.to_nat body_offset) body in
        match answer with
        | Err e => (out, Some (Err e))
        | Ok n =>
            let written := Z.min n (zlen offered) in
            let out' := out ++ take (Z.to_nat written) offered in
            if written =? 0 then (out', Some (Err IoWriteZero))
            else
              let header_remaining := zlen header - header_offset in
              if written <? header_remaining then
                write_vectored_loop answers' header body (header_offset + written) body_offset out'
              else
                write_vectored_loop answers' header body (zlen header)
                  (body_offset + (written - header_remaining)) out'
        end
    end
  else (out, Some (Ok tt)).

Definition write_vectored_all (answers : list (result io_error Z)) (header body : list byte)
  : list byte * option (result io_error unit) :=
  write_vectored_loop answers header body 0 0 [].

(** The result of the [write_vectored_all(..).await?; flush().await?] of the
    writers; the flush has its own answer. *)
Definition finish_write (r : list byte * option (result io_error unit)) (flush : result io_error unit)
  : list byte * option (res unit) :=
  match r with
  | (out, None) => (out, None)
  | (out, Some (Err e)) => (out, Some (Err (Io e)))
  | (out, Some (Ok _)) =>
      (out, Some (match flush with Ok _ => Ok tt | Err e => Err (Io e) end))
  end.

Definition write_raw_frame (answers : list (result io_error Z)) (flush : result io_error unit)
    (frame : RawFrame) : list byte * option (res unit) :=
  match checked_frame_len (FRAME_HEADER_SIZE + zlen (rf_body frame)) with
  | Err e => ([], Some (Err e))
  | Ok frame_len =>
      finish_write (write_vectored_all answers (frame_header frame_len (rf_id frame) (rf_flags frame))
                      (rf_body frame)) flush
  end.

(** ** Bulk records *)

Definition encode_bulk_header (record : BulkRecord) : res (list byte) :=
  let payload_len := zlen (br_payload record) in
  if (payload_len =? 0) || (MAX_BULK_RECORD_PAYLOAD <? payload_len) then
    Err (InvalidBulkFrame (BadPayloadLength payload_len))
  else match checked_add 64 (br_offset record) payload_len with
  | None => Err (InvalidBulkFrame EndOverflow)
  | Some _ =>
      let? frame_len := checked_frame_len (FRAME_HEADER_SIZE + BULK_HEADER_SIZE + payload_len) in
      Ok (frame_header frame_len (br_id record) FLAG_BULK
          ++ [byte_of_Z (bulk_kind_wire (br_kind record)); byte_of_Z (bulk_flow_wire (br_flow record));
              Byte.x00; Byte.x00]
          ++ be_bytes 8 (br_offset record))
  end.

Definition encode_bulk_to_buf (record : BulkRecord) (buf : list byte) : res (list byte) :=
  let? header := encode_bulk_header record in
  Ok (buf ++ header ++ br_payload record).

Definition write_bulk_record (answers : list (result io_error Z)) (flush : result io_error unit)
    (record : BulkRecord) : list byte * option (res unit) :=
  match encode_bulk_header record with
  | Err e => ([], Some (Err e))
  | Ok header => finish_write (write_vectored_all answers header (br_payload record)) flush
  end.

Definition decode_bulk_body (id : Z) (body : list byte) (max_payload : Z) : res BulkRecord :=
  if (max_payload =? 0) || (MAX_BULK_RECORD_PAYLOAD <? max_payload) then
    Err (InvalidBulkFrame (BadDecoderLimit max_payload))
  else if zlen body <? BULK_HEADER_SIZE + 1 then Err (InvalidBulkFrame NoPayload)
  else if negb (u8_at body 2 =? 0) || negb (u8_at body 3 =? 0) then Err (InvalidBulkFrame ReservedNonzero)
  else
    let? kind := ok_or (bulk_kind_from_wire (u8_at body 0)) (InvalidBulkFrame (UnknownKind (u8_at body 0))) in
    let? flow := ok_or (bulk_flow_from_wire (u8_at body 1)) (InvalidBulkFrame (UnknownFlow (u8_at body 1))) in
    let offset := be_value (slice body 4 12) in
    let payload := drop (Z.to_nat BULK_HEADER_SIZE) body in
    if max_payload <? zlen payload then
      Err (InvalidBulkFrame (ExceedsMaximum (zlen payload) max_payload))
    else match checked_add 64 offset (zlen payload) with
    | None => Err (InvalidBulkFrame EndOverflow)
    | Some _ => Ok (mkRecord id kind flow offset payload)
    end.

Definition raw_frame_to_bulk (frame : RawFrame) (max_payload : Z) : res BulkRecord :=
  if negb (rf_flags frame =? FLAG_BULK) then Err (InvalidBulkFrame FlagNotExclusive)
  else decode_bulk_body (rf_id frame) (rf_body frame) max_payload.

(** ** Control messages *)

Definition set_id_flags (m : Message) (id flags : Z) : Message :=
  mkMessage (msg_v m) (msg_t m) id flags (msg_p m) (msg_maintenance m).

Definition encode_to_buf (msg : Message) (buf : list byte) : res (list byte) :=
  match cbor_into_writer msg with
  | Err e => Err (CborEncode e)
  | Ok body => encode_raw_to_buf (mkFrame (msg_id msg) (msg_flags msg) body) buf
  end.

Definition decode_message_frame (frame : list byte) : res Message :=
  if zlen frame <? 4 then Err UnexpectedEof
  else
    let frame_len := u32_at frame 0 in
    if MAX_FRAME_SIZE <? frame_len then Err (FrameTooLarge frame_len MAX_FRAME_SIZE)
    else
      let total := 4 + frame_len in
      if zlen frame <? total then Err UnexpectedEof
      else if frame_len <? FRAME_HEADER_SIZE then Err (FrameTooShort frame_len FRAME_HEADER_SIZE)
      else match cbor_from_reader (slice frame (4 + FRAME_HEADER_SIZE) total) with
      | Err e => Err (CborDecode e)
      | Ok msg => Ok (set_id_flags msg (u32_at frame 4) (u8_at frame 8))
      end.

Definition try_decode_from_buf (buf : list byte) : list byte * res (option Message) :=
  if zlen buf <? 4 then (buf, Ok None)
  else
    let frame_len := u32_at buf 0 in
    if MAX_FRAME_SIZE <? frame_len then (buf, Err (FrameTooLarge frame_len MAX_FRAME_SIZE))
    else
      let total := 4 + frame_len in
      if zlen buf <? total then (buf, Ok None)
      else match decode_message_frame (slice buf 0 total) with
      | Err e => (buf, Err e)
      | Ok msg => (drop (Z.to_nat total) buf, Ok (Some msg))
      end.

Definition raw_frame_to_message (frame : RawFrame) : res Message :=
  match cbor_from_reader (rf_body frame) with
  | Err e => Err (CborDecode e)
  | Ok msg => Ok (set_id_flags msg (rf_id frame) (rf_flags frame))
  end.

Definition read_message (stream : list byte) : res (Message * list byte) :=
  let? p := read_raw_frame stream in
  let? msg := raw_frame_to_message p.1 in
  Ok (msg, p.2).

Definition write_message (answers : list (result io_error Z)) (flush : result io_error unit)
    (message : Message) : list byte * option (res unit) :=
  match cbor_into_writer message with
  | Err e => ([], Some (Err (CborEncode e)))
  | Ok body => write_raw_frame answers flush (mkFrame (msg_id message) (msg_flags message) body)
  end.

(** ** Either kind of frame *)

Definition complete_frame_len (buf : list byte) : res (option (Z * Z)) :=
  if zlen buf <? 4 then Ok None
  else
    let frame_len := u32_at buf 0 in
    if MAX_FRAME_SIZE <? frame_len then Err (FrameTooLarge frame_len MAX_FRAME_SIZE)
    else if frame_len <? FRAME_HEADER_SIZE then Err (FrameTooShort frame_len FRAME_HEADER_SIZE)
    else
      let total := 4 + frame_len in
      if zlen buf <? total then Ok None else Ok (Some (frame_len, total)).

(** A bulk frame is split off the buffer before its body is checked. *)
Definition try_decode_frame_from_bytes (buf : list byte) : list byte * res (option DecodedFrame) :=
  match complete_frame_len buf with
  | Err e => (buf, Err e)
  | Ok None => (buf, Ok None)
  | Ok (Some (frame_len, total)) =>
      let flags := u8_at buf 8 in
      if Z.land flags FLAG_BULK =? 0 then
        match decode_message_frame (slice buf 0 total) with
        | Err e => (buf, Err e)
        | Ok message => (drop (Z.to_nat total) buf, Ok (Some (DecodedControl message)))
        end
      else if negb (flags =? FLAG_BULK) then (buf, Err (InvalidBulkFrame FlagCombined))
      else if frame_len <? FRAME_HEADER_SIZE + BULK_HEADER_SIZE + 1 then
        (buf, Err (InvalidBulkFrame NoPayload))
      else
        let frame := slice buf 0 total in
        let buf' := drop (Z.to_nat total) buf in
        match decode_bulk_body (u32_at frame 4) (drop (Z.to_nat (4 + FRAME_HEADER_SIZE)) frame)
                MAX_BULK_RECORD_PAYLOAD with
        | Err e => (buf', Err e)
        | Ok record => (buf', Ok (Some (DecodedBulk record)))
        end
  end.

Definition try_decode_from_bytes (buf : list byte) : list byte * res (option Message) :=
  match try_decode_frame_from_bytes buf with
  | (buf', Ok (Some (DecodedControl message))) => (buf', Ok (Some message))
  | (buf', Ok (Some (DecodedBulk _))) => (buf', Err (InvalidBulkFrame RecordInControlDecoder))
  | (buf', Ok None) => (buf', Ok None)
  | (buf', Err e) => (buf', Err e)
  end.

End Codec.

(** ** Layout lemmas *)

Lemma be_value_be_bytes_fits n x : fits (8 * Z.of_nat n) x -> be_value (be_bytes n x) = x.
Proof.
  unfold fits. intros Hx. rewrite be_value_be_bytes. apply Z.mod_small.
  replace (256 ^ Z.of_nat n) with (2 ^ (8 * Z.of_nat n)) by (rewrite Z.pow_mul_r by lia; done). done.
Qed.

Lemma be_value_single b : be_value [b] = Z_of_byte b.
Proof. rewrite be_value_cons. cbn. lia. Qed.

Lemma byte_of_value (b : byte) z : be_value [b] = z -> b = byte_of_Z z.
Proof. intros <-. by rewrite be_value_single, byte_of_Z_of_byte. Qed.

Lemma length_frame_header l id flags : length (frame_header l id flags) = 9%nat.
Proof. unfold frame_header. by rewrite !length_app, !length_be_bytes. Qed.

(** Fields of a frame that begins with a header. *)
Lemma frame_header_fields l id flags tl :
  fits 32 l -> fits 32 id -> fits 8 flags ->
  let buf := frame_header l id flags ++ tl in
  u32_at buf 0 = l /\ u32_at buf 4 = id /\ u8_at buf 8 = flags /\ drop 9 buf = tl.
Proof.
  intros Hl Hid Hf buf. unfold buf, frame_header, u32_at, u8_at.
  rewrite <- !app_assoc. split; [|split; [|split]].
  - cbn [Z.to_nat]. rewrite drop_0, take_app_length' by (by rewrite length_be_bytes).
    by apply be_value_be_bytes_fits.
  - rewrite (drop_app_length' (be_bytes 4 l)) by (by rewrite length_be_bytes).
    rewrite take_app_length' by (by rewrite length_be_bytes). by apply be_value_be_bytes_fits.
  - rewrite app_assoc. rewrite (drop_app_length' (be_bytes 4 l ++ be_bytes 4 id))
      by (by rewrite length_app, !length_be_bytes).
    cbn [app take]. rewrite be_value_single, Z_of_byte_of_Z. unfold fits in Hf. apply Z.mod_small. lia.
  - rewrite app_assoc, (app_assoc _ _ tl). rewrite (drop_app_length' ((be_bytes 4 l ++ be_bytes 4 id) ++ _)); [done|].
    by rewrite !length_app, !length_be_bytes.
Qed.

Lemma slice_app_drop (buf tl body rest : list byte) (n : nat) total :
  drop n buf = body ++ rest -> Z.of_nat n + zlen body = total -> slice buf (Z.of_nat n) total = body.
Proof.
  intros Hd Ht. unfold slice. rewrite Nat2Z.id, Hd. apply take_app_length'. lia.
Qed.

(** ** Frames on the wire *)

Definition valid_frame (f : RawFrame) : Prop :=
  fits 32 (rf_id f) /\ fits 8 (rf_flags f) /\ FRAME_HEADER_SIZE + zlen (rf_body f) <= MAX_FRAME_SIZE.

Definition wire (f : RawFrame) : list byte :=
  frame_header (FRAME_HEADER_SIZE + zlen (rf_body f)) (rf_id f) (rf_flags f) ++ rf_body f.

Lemma length_wire f : zlen (wire f) = 4 + (FRAME_HEADER_SIZE + zlen (rf_body f)).
Proof. unfold wire. rewrite length_app, length_frame_header. unfold FRAME_HEADER_SIZE. lia. Qed.

Lemma wire_fields f rest :
  valid_frame f ->
  u32_at (wire f ++ rest) 0 = FRAME_HEADER_SIZE + zlen (rf_body f)
  /\ u32_at (wire f ++ rest) 4 = rf_id f /\ u8_at (wire f ++ rest) 8 = rf_flags f
  /\ slice (wire f ++ rest) (4 + FRAME_HEADER_SIZE) (4 + (FRAME_HEADER_SIZE + zlen (rf_body f))) = rf_body f
  /\ slice (wire f ++ rest) 0 (4 + (FRAME_HEADER_SIZE + zlen (rf_body f))) = wire f
  /\ drop (Z.to_nat (4 + (FRAME_HEADER_SIZE + zlen (rf_body f)))) (wire f ++ rest) = rest.
Proof.
  intros (Hid & Hf & Hsize).
  assert (fits 32 (FRAME_HEADER_SIZE + zlen (rf_body f))) as Hl
    by (unfold fits, FRAME_HEADER_SIZE, MAX_FRAME_SIZE in *; lia).
  pose proof (length_wire f) as Hw.
  destruct (frame_header_fields _ _ _ (rf_body f ++ rest) Hl Hid Hf) as (H1 & H2 & H3 & H4).
  unfold wire at 1 2 3. rewrite <- app_assoc. do 3 (split; [done|]). split; [|split].
  - change (4 + FRAME_HEADER_SIZE) with (Z.of_nat 9). eapply slice_app_drop; [exact rest| |].
    + unfold wire. rewrite <- app_assoc. exact H4.
    + unfold FRAME_HEADER_SIZE. lia.
  - unfold slice. cbn [Z.to_nat]. rewrite drop_0. apply take_app_length'. lia.
  - apply drop_app_length'. lia.
Qed.

Section CodecProofs.
Context `{Cbor}.

Lemma checked_frame_len_Ok n m : checked_frame_len n = Ok m <-> m = n /\ n <= MAX_FRAME_SIZE.
Proof.
  unfold checked_frame_len, MAX_FRAME_SIZE. change (u_max 32) with 4294967295.
  destruct (Z.ltb_spec 4294967295 n); [split; [done|lia]|].
  destruct (Z.ltb_spec (4 * 1024 * 1024) n); [split; [done|lia]|]. split; [intros [= <-]; lia|].
  by intros [-> _].
Qed.

Lemma encode_raw_wire f buf : valid_frame f -> encode_raw_to_buf f buf = Ok (buf ++ wire f).
Proof.
  intros (_ & _ & Hs). unfold encode_raw_to_buf.
  rewrite (proj2 (checked_frame_len_Ok _ _) (conj eq_refl Hs)). done.
Qed.

Lemma encode_raw_Ok_size f buf buf' :
  encode_raw_to_buf f buf = Ok buf' -> FRAME_HEADER_SIZE + zlen (rf_body f) <= MAX_FRAME_SIZE.
Proof.
  unfold encode_raw_to_buf. destruct (checked_frame_len _) as [n|] eqn:E; [|done].
  by apply checked_frame_len_Ok in E as [-> ?].
Qed.

Lemma decode_raw_wire f rest : valid_frame f -> try_decode_raw_from_buf (wire f ++ rest) = (rest, Ok (Some f)).
Proof.
  intros Hv. destruct (wire_fields f rest Hv) as (H1 & H2 & H3 & H4 & _ & H6).
  pose proof Hv as (_ & _ & Hs). pose proof (length_wire f) as Hw.
  unfold try_decode_raw_from_buf. rewrite H1, H2, H3, H4, H6. rewrite !length_app, Nat2Z.inj_add, Hw.
  unfold FRAME_HEADER_SIZE in *.
  rewrite !(proj2 (Z.ltb_ge _ _)) by lia. by destruct f.
Qed.

Lemma u32_at_nonneg buf i : 0 <= u32_at buf i.
Proof. apply be_value_bound. Qed.

Lemma take_drop_prefix {A} (l1 l2 : list A) (i n : nat) :
  (i + n <= length l1)%nat -> take n (drop i (l1 ++ l2)) = take n (drop i l1).
Proof.
  intros Hle. rewrite drop_app_le by lia. rewrite take_app_le; [done|]. rewrite length_drop. lia.
Qed.

(** A proper prefix of a frame decodes to nothing yet. *)
Lemma decode_raw_prefix f buf tl :
  valid_frame f -> wire f = buf ++ tl -> tl <> [] -> try_decode_raw_from_buf buf = (buf, Ok None).
Proof.
  intros Hv Hw Hne. assert (zlen buf < zlen (wire f)) as Hlt.
  { rewrite Hw, length_app. destruct tl; [done|]. cbn. lia. }
  unfold try_decode_raw_from_buf. destruct (Z.ltb_spec (zlen buf) 4) as [|H4]; [done|].
  destruct (wire_fields f [] Hv) as (H1 & _). rewrite app_nil_r in H1.
  assert (u32_at buf 0 = FRAME_HEADER_SIZE + zlen (rf_body f)) as ->.
  { rewrite <- H1, Hw. unfold u32_at. symmetry. f_equal. apply take_drop_prefix. lia. }
  destruct Hv as (_ & _ & Hs). rewrite (proj2 (Z.ltb_ge MAX_FRAME_SIZE _)) by lia.
  rewrite length_wire in Hlt. by rewrite (proj2 (Z.ltb_lt _ _)) by lia.
Qed.

Lemma read_exact_le stream n :
  0 <= n <= zlen stream ->
  read_exact stream n = Some (take (Z.to_nat n) stream, drop (Z.to_nat n) stream).
Proof. intros Hn. unfold read_exact. by rewrite (proj2 (Z.ltb_ge _ _)) by lia. Qed.

(** The buffered and the streaming reader agree on complete frames. *)
Lemma read_raw_agrees stream f rest :
  try_decode_raw_from_buf stream = (rest, Ok (Some f)) <-> read_raw_frame stream = Ok (f, rest).
Proof.
  unfold try_decode_raw_from_buf, read_raw_frame.
  destruct (Z.ltb_spec (zlen stream) 4) as [H4|H4].
  { unfold read_exact. rewrite (proj2 (Z.ltb_lt _ _)) by lia. done. }
  rewrite (read_exact_le stream 4) by lia. change (Z.to_nat 4) with 4%nat.
  replace (be_value (take 4 stream)) with (u32_at stream 0) by (unfold u32_at; by rewrite drop_0).
  pose proof (u32_at_nonneg stream 0) as Hnn. set (n := u32_at stream 0) in *.
  destruct (MAX_FRAME_SIZE <? n); [done|].
  destruct (Z.ltb_spec n FRAME_HEADER_SIZE) as [Hs|Hs].
  { destruct (zlen stream <? 4 + n); done. }
  unfold FRAME_HEADER_SIZE in *.
  destruct (Z.ltb_spec (zlen stream) (4 + n)) as [Hlt|Hge].
  - split; [done|]. unfold read_exact. rewrite !length_drop.
    destruct (Z.ltb_spec (Z.of_nat (length stream - 4)) 5); [done|]. rewrite !length_drop.
    rewrite (proj2 (Z.ltb_lt _ _)) by lia. done.
  - rewrite (read_exact_le (drop 4 stream)) by (rewrite length_drop; lia).
    change (Z.to_nat 5) with 5%nat. rewrite drop_drop. change (4 + 5)%nat with 9%nat.
    rewrite (read_exact_le (drop 9 stream)) by (rewrite length_drop; lia).
    unfold u32_at, u8_at, slice. rewrite drop_drop, take_take.
    change (Z.to_nat 4) with 4%nat. change (Z.to_nat 8) with 8%nat. change (Z.to_nat (4 + 5)) with 9%nat.
    change (4 `min` 5)%nat with 4%nat.
    replace (take 1 (drop 4 (take 5 (drop 4 stream)))) with (take 1 (drop 8 stream)).
    2:{ clear. do 9 (destruct stream as [|? stream]; [done|]). done. }
    replace (Z.to_nat (4 + n - (4 + 5))) with (Z.to_nat (n - 5)) by lia.
    replace (9 + Z.to_nat (n - 5))%nat with (Z.to_nat (4 + n)) by lia.
    split; [by intros [= <- <-]|by intros [= <- <-]].
Qed.

(** The message decoder is the raw decoder followed by the body decoder. *)
Lemma slice_prefix (buf : list byte) (total from to : Z) :
  0 <= from -> from <= to -> to <= total -> slice (slice buf 0 total) from to = slice buf from to.
Proof.
  intros Hf Hft Ht. unfold slice. change (Z.to_nat 0) with 0%nat. rewrite drop_0, Z.sub_0_r.
  replace (Z.to_nat total) with (Z.to_nat from + Z.to_nat (total - from))%nat by lia.
  rewrite <- take_drop_commute, take_take. f_equal. lia.
Qed.

Lemma u32_at_slice buf total i :
  0 <= i -> i + 4 <= total -> u32_at (slice buf 0 total) i = u32_at buf i.
Proof.
  intros Hi Ht. pose proof (slice_prefix buf total i (i + 4) Hi ltac:(lia) Ht) as Hs.
  unfold slice in Hs at 1 3. unfold u32_at.
  replace (Z.to_nat (i + 4 - i)) with 4%nat in Hs by lia. by rewrite Hs.
Qed.

Lemma u8_at_slice buf total i :
  0 <= i -> i + 1 <= total -> u8_at (slice buf 0 total) i = u8_at buf i.
Proof.
  intros Hi Ht. pose proof (slice_prefix buf total i (i + 1) Hi ltac:(lia) Ht) as Hs.
  unfold slice in Hs at 1 3. unfold u8_at.
  replace (Z.to_nat (i + 1 - i)) with 1%nat in Hs by lia. by rewrite Hs.
Qed.

Lemma length_slice0 (buf : list byte) total : 0 <= total <= zlen buf -> zlen (slice buf 0 total) = total.
Proof.
  intros Ht. unfold slice. change (Z.to_nat 0) with 0%nat. rewrite drop_0, length_take. lia.
Qed.

Lemma decode_message_slice buf :
  4 <= zlen buf -> u32_at buf 0 <= MAX_FRAME_SIZE -> 4 + u32_at buf 0 <= zlen buf ->
  decode_message_frame (slice buf 0 (4 + u32_at buf 0))
  = if u32_at buf 0 <? FRAME_HEADER_SIZE then Err (FrameTooShort (u32_at buf 0) FRAME_HEADER_SIZE)
    else raw_frame_to_message
           (mkFrame (u32_at buf 4) (u8_at buf 8) (slice buf (4 + FRAME_HEADER_SIZE) (4 + u32_at buf 0))).
Proof.
  intros H4 Hmax Htot. pose proof (u32_at_nonneg buf 0) as Hnn. set (n := u32_at buf 0) in *.
  unfold decode_message_frame. rewrite length_slice0 by lia. rewrite (proj2 (Z.ltb_ge _ _)) by lia.
  rewrite u32_at_slice by lia. fold n. rewrite !(proj2 (Z.ltb_ge _ _)) by lia.
  unfold FRAME_HEADER_SIZE. destruct (Z.ltb_spec n 5); [done|].
  rewrite slice_prefix, u32_at_slice, u8_at_slice by lia. done.
Qed.

Lemma message_decoder_is_raw_then_body buf :
  try_decode_from_buf buf
  = match try_decode_raw_from_buf buf with
    | (buf', Ok (Some f)) =>
        match raw_frame_to_message f with
        | Ok m => (buf', Ok (Some m))
        | Err e => (buf, Err e)
        end
    | (buf', Ok None) => (buf', Ok None)
    | (buf', Err e) => (buf', Err e)
    end.
Proof.
  unfold try_decode_from_buf, try_decode_raw_from_buf.
  destruct (Z.ltb_spec (zlen buf) 4) as [|H4]; [done|].
  destruct (Z.ltb_spec MAX_FRAME_SIZE (u32_at buf 0)) as [|Hmax]; [done|].
  destruct (Z.ltb_spec (zlen buf) (4 + u32_at buf 0)) as [|Htot]; [done|].
  rewrite decode_message_slice by done. destruct (u32_at buf 0 <? FRAME_HEADER_SIZE); [done|].
  by destruct (raw_frame_to_message _).
Qed.

(** ** A reader loop over chunks *)

(** [while let Some(frame) = try_decode_raw_from_buf(&mut buf)? { .. }]; every
    frame shortens the buffer, so its length bounds the iterations. *)
Fixpoint drain (fuel : nat) (buf : list byte) : list byte * result (ProtocolError CborError) (list RawFrame) :=
  match fuel with
  | O => (buf, Ok [])
  | S fuel' =>
      match try_decode_raw_from_buf buf with
      | (buf', Ok (Some f)) =>
          match drain fuel' buf' with
          | (buf'', Ok fs) => (buf'', Ok (f :: fs))
          | (buf'', Err e) => (buf'', Err e)
          end
      | (buf', Ok None) => (buf', Ok [])
      | (buf', Err e) => (buf', Err e)
      end
  end.

(** Chunks are appended as they arrive and the buffer drained after each. *)
Fixpoint feed_all (buf : list byte) (chunks : list (list byte))
  : list byte * result (ProtocolError CborError) (list RawFrame) :=
  match chunks with
  | [] => (buf, Ok [])
  | chunk :: chunks' =>
      let buf := buf ++ chunk in
      match drain (S (length buf)) buf with
      | (buf', Ok fs) =>
          match feed_all buf' chunks' with
          | (buf'', Ok fs') => (buf'', Ok (fs ++ fs'))
          | (buf'', Err e) => (buf'', Err e)
          end
      | (buf', Err e) => (buf', Err e)
      end
  end.

Definition wires (fs : list RawFrame) : list byte := concat (wire <$> fs).

Lemma length_wire_pos f : (0 < length (wire f))%nat.
Proof. pose proof (length_wire f). unfold FRAME_HEADER_SIZE in *. lia. Qed.

(** The buffer is too short for the next frame. *)
Definition partial (buf : list byte) (fs : list RawFrame) : Prop :=
  match fs with [] => True | f :: _ => (length buf < length (wire f))%nat end.

Lemma drain_wires fs fuel buf tl :
  Forall valid_frame fs -> buf ++ tl = wires fs -> (length buf < fuel)%nat ->
  exists fs1 fs2 buf', fs = fs1 ++ fs2 /\ drain fuel buf = (buf', Ok fs1) /\ buf' ++ tl = wires fs2
    /\ partial buf' fs2.
Proof.
  revert fuel buf. induction fs as [|f fs IH]; intros fuel buf Hv Heq Hfuel.
  - apply app_eq_nil in Heq as [-> ->]. destruct fuel as [|fuel]; [cbn in Hfuel; lia|].
    exists [], [], []. done.
  - apply Forall_cons in Hv as [Hf Hv]. destruct fuel as [|fuel]; [lia|].
    change (wires (f :: fs)) with (wire f ++ wires fs) in Heq.
    destruct (decide (length (wire f) <= length buf)%nat) as [Hle|Hgt].
    + assert (exists k, buf = wire f ++ k /\ wires fs = k ++ tl) as (k & -> & Hw).
      { apply app_eq_inv in Heq as [(k & -> & Hw)|(k & Hb & ->)]; [by exists k|].
        assert (k = []) as ->.
        { apply nil_length_inv. apply (f_equal length) in Hb. rewrite length_app in Hb. lia. }
        exists []. by rewrite Hb, !app_nil_r. }
      cbn [drain]. rewrite decode_raw_wire by done.
      destruct (IH fuel k) as (fs1 & fs2 & buf' & -> & Hd & Hr & Hp); [done|done| |].
      { rewrite length_app in Hfuel. pose proof (length_wire_pos f). lia. }
      exists (f :: fs1), fs2, buf'. by rewrite Hd.
    + exists [], (f :: fs), buf. split; [done|]. split; [|split; [done|unfold partial; lia]]. cbn [drain].
      assert (exists k, wire f = buf ++ k /\ k <> []) as (k & Hk & Hne).
      { apply app_eq_inv in Heq as [(k & -> & Hw)|(k & Hb & Hw)].
        - rewrite length_app in Hgt. lia.
        - exists k. split; [done|]. intros ->. rewrite app_nil_r in Hb. rewrite Hb in Hgt. lia. }
      by rewrite (decode_raw_prefix f buf k).
Qed.

Lemma feed_all_wires chunks fs buf :
  Forall valid_frame fs -> buf ++ concat chunks = wires fs -> partial buf fs ->
  feed_all buf chunks = ([], Ok fs).
Proof.
  revert fs buf. induction chunks as [|c chunks IH]; intros fs buf Hv Heq Hp.
  - cbn in Heq. rewrite app_nil_r in Heq. subst buf. destruct fs as [|f fs]; [done|].
    exfalso. unfold partial, wires in Hp. cbn [fmap list_fmap concat] in Hp. rewrite length_app in Hp. lia.
  - cbn [concat] in Heq. rewrite app_assoc in Heq. cbn [feed_all].
    destruct (drain_wires fs (S (length (buf ++ c))) (buf ++ c) (concat chunks) Hv Heq)
      as (fs1 & fs2 & buf' & -> & -> & Hr & Hp2); [lia|].
    apply Forall_app in Hv as [_ Hv2]. by rewrite (IH fs2 buf').
Qed.

(** ** Bulk records *)

Definition valid_record (r : BulkRecord) : Prop :=
  fits 32 (br_id r) /\ 0 <= br_offset r /\ br_offset r + zlen (br_payload r) < 2 ^ 64
  /\ 0 < zlen (br_payload r) <= MAX_BULK_RECORD_PAYLOAD.

Definition bulk_body (r : BulkRecord) : list byte :=
  [byte_of_Z (bulk_kind_wire (br_kind r)); byte_of_Z (bulk_flow_wire (br_flow r)); Byte.x00; Byte.x00]
  ++ be_bytes 8 (br_offset r) ++ br_payload r.

Definition bulk_frame (r : BulkRecord) : RawFrame := mkFrame (br_id r) FLAG_BULK (bulk_body r).

Lemma length_bulk_body r : zlen (bulk_body r) = BULK_HEADER_SIZE + zlen (br_payload r).
Proof. unfold bulk_body, BULK_HEADER_SIZE. rewrite !length_app, length_be_bytes. cbn [length]. lia. Qed.

Lemma bulk_frame_valid r : valid_record r -> valid_frame (bulk_frame r).
Proof.
  intros (Hid & _ & _ & Hl). split; [done|]. split; [by vm_compute|]. cbn [rf_body bulk_frame].
  rewrite length_bulk_body. unfold FRAME_HEADER_SIZE, BULK_HEADER_SIZE, MAX_FRAME_SIZE,
    MAX_BULK_RECORD_PAYLOAD, DEFAULT_FILESYSTEM_BULK_RECORD_PAYLOAD in *. lia.
Qed.

Lemma encode_bulk_wire r buf :
  valid_record r -> encode_bulk_to_buf r buf = Ok (buf ++ wire (bulk_frame r)).
Proof.
  intros Hr. pose proof (bulk_frame_valid r Hr) as (_ & _ & Hs). destruct Hr as (Hid & Ho & He & Hl).
  cbn [rf_body bulk_frame] in Hs. rewrite length_bulk_body in Hs.
  unfold encode_bulk_to_buf, encode_bulk_header.
  rewrite (proj2 (Z.eqb_neq _ 0)), (proj2 (Z.ltb_ge _ _)) by lia. cbn [orb].
  rewrite (proj2 (checked_add_Some _ _ _ _) (conj eq_refl He)).
  rewrite Z.add_assoc in Hs. rewrite (proj2 (checked_frame_len_Ok _ _) (conj eq_refl Hs)).
  unfold wire. cbn [rf_id rf_flags rf_body bulk_frame]. rewrite length_bulk_body, Z.add_assoc.
  unfold bulk_body. by rewrite <- !app_assoc.
Qed.

Lemma encode_bulk_Ok_valid r buf w :
  fits 32 (br_id r) -> fits 64 (br_offset r) -> encode_bulk_to_buf r buf = Ok w -> valid_record r.
Proof.
  intros Hid Hof E. unfold encode_bulk_to_buf, encode_bulk_header in E.
  destruct (zlen (br_payload r) =? 0) eqn:E0; [done|].
  destruct (MAX_BULK_RECORD_PAYLOAD <? zlen (br_payload r)) eqn:E1; [done|]. cbn [orb] in E.
  destruct (checked_add _ _ _) eqn:E2; [|done]. apply checked_add_Some in E2 as [_ E2]. breflect.
  destruct Hof. split; [done|]. lia.
Qed.

Lemma decode_bulk_body_ok r max :
  valid_record r -> 0 < max <= MAX_BULK_RECORD_PAYLOAD -> zlen (br_payload r) <= max ->
  decode_bulk_body (br_id r) (bulk_body r) max = Ok r.
Proof.
  intros (Hid & Ho & He & Hl) Hmax Hlen. unfold decode_bulk_body.
  rewrite (proj2 (Z.eqb_neq max 0)), (proj2 (Z.ltb_ge _ max)) by lia. cbn [orb].
  rewrite length_bulk_body. rewrite (proj2 (Z.ltb_ge _ _)) by (unfold BULK_HEADER_SIZE; lia).
  assert (u8_at (bulk_body r) 0 = bulk_kind_wire (br_kind r)) as -> by (destruct r as [? [] ? ? ?]; reflexivity).
  assert (u8_at (bulk_body r) 1 = bulk_flow_wire (br_flow r)) as -> by (destruct r as [? ? [] ? ?]; reflexivity).
  change (u8_at (bulk_body r) 2) with 0. change (u8_at (bulk_body r) 3) with 0. cbn [negb orb Z.eqb].
  assert (slice (bulk_body r) 4 12 = be_bytes 8 (br_offset r)) as ->.
  { unfold slice, bulk_body. rewrite (drop_app_length' [_; _; _; _]) by done.
    by rewrite take_app_length' by (by rewrite length_be_bytes). }
  assert (drop (Z.to_nat BULK_HEADER_SIZE) (bulk_body r) = br_payload r) as ->.
  { unfold bulk_body. rewrite app_assoc. apply drop_app_length'. by rewrite length_app, length_be_bytes. }
  rewrite be_value_be_bytes_fits by (unfold fits; lia).
  replace (bulk_kind_from_wire _) with (Some (br_kind r)) by (by destruct (br_kind r)).
  replace (bulk_flow_from_wire _) with (Some (br_flow r)) by (by destruct (br_flow r)).
  cbn [ok_or]. rewrite (proj2 (Z.ltb_ge _ _)) by lia.
  rewrite (proj2 (checked_add_Some _ _ _ _) (conj eq_refl He)). by destruct r.
Qed.

Lemma complete_wire f rest :
  valid_frame f ->
  complete_frame_len (wire f ++ rest)
  = Ok (Some (FRAME_HEADER_SIZE + zlen (rf_body f), 4 + (FRAME_HEADER_SIZE + zlen (rf_body f)))).
Proof.
  intros Hv. destruct (wire_fields f rest Hv) as (H1 & _). pose proof Hv as (_ & _ & Hs).
  pose proof (length_wire f) as Hw. unfold complete_frame_len. rewrite H1, length_app, Nat2Z.inj_add, Hw.
  unfold FRAME_HEADER_SIZE in *. by rewrite !(proj2 (Z.ltb_ge _ _)) by lia.
Qed.

Lemma decode_frame_bulk r rest :
  valid_record r ->
  try_decode_frame_from_bytes (wire (bulk_frame r) ++ rest) = (rest, Ok (Some (DecodedBulk r))).
Proof.
  intros Hr. pose proof (bulk_frame_valid r Hr) as Hv.
  destruct (wire_fields _ rest Hv) as (H1 & H2 & H3 & H4 & H5 & H6).
  destruct (wire_fields _ [] Hv) as (_ & H2' & _). rewrite app_nil_r in H2'.
  unfold try_decode_frame_from_bytes. rewrite complete_wire by done. rewrite H3. cbn [rf_flags bulk_frame].
  change (Z.land FLAG_BULK FLAG_BULK =? 0) with false. cbn [negb]. rewrite Z.eqb_refl. cbn [negb].
  cbn [rf_body bulk_frame] in *. pose proof Hr as (_ & _ & _ & Hl).
  rewrite (proj2 (Z.ltb_ge _ _)) by (rewrite length_bulk_body; unfold FRAME_HEADER_SIZE, BULK_HEADER_SIZE; lia).
  rewrite H5, H2', H6. cbn [rf_id].
  replace (drop (Z.to_nat (4 + FRAME_HEADER_SIZE)) (wire (bulk_frame r))) with (bulk_body r).
  2:{ unfold wire. symmetry. apply drop_app_length'. by rewrite length_frame_header. }
  change (rf_id (bulk_frame r)) with (br_id r).
  rewrite decode_bulk_body_ok; [done|done| |lia]. by vm_compute.
Qed.

(** ** Control messages *)

(** What the code relies on in [ciborium]: decoding an encoded envelope gives
    back its fields, with the skipped ones at their defaults. *)
Definition cbor_roundtrip : Prop :=
  forall m body, cbor_into_writer m = Ok body -> cbor_from_reader body = Ok (set_id_flags m 0 0).

Lemma raw_to_message_ok m body :
  cbor_roundtrip -> cbor_into_writer m = Ok body ->
  raw_frame_to_message (mkFrame (msg_id m) (msg_flags m) body) = Ok m.
Proof.
  intros Hrt Hb. unfold raw_frame_to_message. cbn. rewrite (Hrt _ _ Hb). by destruct m.
Qed.

Lemma decode_frame_control m body rest :
  cbor_roundtrip -> cbor_into_writer m = Ok body ->
  let f := mkFrame (msg_id m) (msg_flags m) body in
  valid_frame f -> Z.land (msg_flags m) FLAG_BULK = 0 ->
  try_decode_frame_from_bytes (wire f ++ rest) = (rest, Ok (Some (DecodedControl m))).
Proof.
  intros Hrt Hb f Hv Hfl. destruct (wire_fields f rest Hv) as (H1 & H2 & H3 & H4 & H5 & H6).
  pose proof Hv as (_ & _ & Hs). pose proof (length_wire f) as Hw.
  unfold try_decode_frame_from_bytes. rewrite complete_wire by done. rewrite H3. cbn [rf_flags f].
  rewrite Hfl, Z.eqb_refl. rewrite H6. rewrite <- H1 at 1.
  rewrite decode_message_slice.
  - rewrite H1, H2, H3, H4. unfold FRAME_HEADER_SIZE in *. rewrite (proj2 (Z.ltb_ge _ _)) by lia.
    change (mkFrame (rf_id f) (rf_flags f) (rf_body f)) with f. unfold f. by rewrite raw_to_message_ok.
  - rewrite length_app. unfold FRAME_HEADER_SIZE in *. lia.
  - by rewrite H1.
  - rewrite H1, length_app. lia.
Qed.

Lemma decode_encoded_message m w rest :
  cbor_roundtrip -> fits 32 (msg_id m) -> fits 8 (msg_flags m) -> encode_to_buf m [] = Ok w ->
  try_decode_from_buf (w ++ rest) = (rest, Ok (Some m)).
Proof.
  intros Hrt Hid Hfl He. unfold encode_to_buf in He.
  destruct (cbor_into_writer m) as [body|] eqn:Hc; [|done].
  pose proof (encode_raw_Ok_size _ _ _ He) as Hs. set (f := mkFrame _ _ _) in *.
  assert (valid_frame f) as Hv by done. rewrite encode_raw_wire in He by done. injection He as <-. cbn [app].
  rewrite message_decoder_is_raw_then_body, decode_raw_wire by done. unfold f.
  by rewrite raw_to_message_ok.
Qed.

(** ** Vectored writes *)

Definition answer_ok (a : result io_error Z) : Prop := match a with Ok n => 0 <= n | Err _ => True end.

Lemma offered_drop (header body : list byte) ho bo :
  0 <= ho <= zlen header -> 0 <= bo <= zlen body -> (ho < zlen header -> bo = 0) ->
  (if ho <? zlen header
   then drop (Z.to_nat ho) header ++ (if bo <? zlen body then drop (Z.to_nat bo) body else [])
   else drop (Z.to_nat bo) body)
  = drop (Z.to_nat (ho + bo)) (header ++ body).
Proof.
  intros Hho Hbo H0. destruct (Z.ltb_spec ho (zlen header)) as [Hlt|Hge].
  - rewrite (H0 Hlt). rewrite Z.add_0_r, drop_app_le by lia. f_equal.
    destruct body; [done|]. by rewrite (proj2 (Z.ltb_lt _ _)) by (cbn; lia).
  - rewrite drop_app_ge by lia. f_equal. lia.
Qed.

Lemma take_advance {A} (l : list A) (k n : nat) : take k l ++ take n (drop k l) = take (k + n) l.
Proof.
  revert k. induction l as [|x l IH]; intros k; [by rewrite drop_nil, !take_nil|].
  destruct k as [|k]; cbn; [done|]. by rewrite IH.
Qed.

(** The loop writes a prefix of header and body, the whole of it on success,
    and succeeds when the writer makes progress often enough. *)
Lemma write_loop_spec answers (header body : list byte) ho bo :
  Forall answer_ok answers ->
  0 <= ho <= zlen header -> 0 <= bo <= zlen body -> (ho < zlen header -> bo = 0) ->
  let r := write_vectored_loop answers header body ho bo (take (Z.to_nat (ho + bo)) (header ++ body)) in
  r.1 `prefix_of` header ++ body
  /\ (r.2 = Some (Ok tt) -> r.1 = header ++ body)
  /\ (Forall (fun a => exists n, a = Ok n /\ 0 < n) answers ->
      (length (header ++ body) <= length answers + Z.to_nat (ho + bo))%nat -> r.2 = Some (Ok tt)).
Proof.
  revert ho bo. induction answers as [|a answers IH]; intros ho bo Ha Hho Hbo H0; cbn [write_vectored_loop];
    (destruct ((ho <? zlen header) || (bo <? zlen body)) eqn:E;
     [|breflect; cbn; rewrite take_ge by (rewrite length_app; lia); done]).
  - cbn. split; [apply prefix_take|]. split; [done|]. rewrite length_app.
    apply orb_true_iff in E. rewrite !Z.ltb_lt in E. lia.
  - apply Forall_cons in Ha as [Ha0 Ha]. rewrite offered_drop by done. rewrite length_drop.
    destruct a as [n|e]; cbn in Ha0.
    2:{ cbn. split; [apply prefix_take|]. split; [done|]. intros [(n & ? & _) _]%Forall_cons. done. }
    set (w := Z.min n _). rewrite take_advance.
    assert (0 < Z.of_nat (length (header ++ body) - Z.to_nat (ho + bo))) as Hrem.
    { rewrite length_app. apply orb_true_iff in E. rewrite !Z.ltb_lt in E. lia. }
    destruct (Z.eqb_spec w 0) as [Hw|Hw].
    { cbn. split; [apply prefix_take|]. split; [done|]. intros [(m & [= <-] & Hm) _]%Forall_cons. lia. }
    rewrite length_app in Hrem. assert (0 < w <= zlen header + zlen body - (ho + bo)) as Hwb
      by (unfold w; rewrite length_app; lia).
    replace (Z.to_nat (ho + bo) + Z.to_nat w)%nat with (Z.to_nat (ho + bo + w)) by lia.
    destruct (Z.ltb_spec w (zlen header - ho)) as [Hlt|Hge].
    + replace (ho + bo + w) with (ho + w + bo) by lia.
      destruct (IH (ho + w) bo) as (I1 & I2 & I3); [done|lia|lia|intros; apply H0; lia|].
      split; [done|]. split; [done|]. intros [_ Hp]%Forall_cons Hl. apply I3; [done|]. cbn in Hl. lia.
    + replace (ho + bo + w) with (zlen header + (bo + (w - (zlen header - ho)))) by lia.
      destruct (IH (zlen header) (bo + (w - (zlen header - ho)))) as (I1 & I2 & I3); [done|lia| |lia|].
      { split; [lia|]. destruct (decide (ho < zlen header)); [rewrite H0 in * by lia|]; lia. }
      split; [done|]. split; [done|]. intros [_ Hp]%Forall_cons Hl. apply I3; [done|]. cbn in Hl. lia.
Qed.

(** ** Decoded frames re-encode to the bytes they were read from *)

Lemma be_bytes_take (l : list byte) n : (n <= length l)%nat -> be_bytes n (be_value (take n l)) = take n l.
Proof.
  intros Hn. rewrite <- (be_bytes_be_value (take n l)) at 2. rewrite length_take. f_equal. lia.
Qed.

Lemma u32_at_fits buf i : fits 32 (u32_at buf i).
Proof.
  unfold fits, u32_at. pose proof (be_value_bound (take 4 (drop (Z.to_nat i) buf))) as Hb.
  split; [lia|]. eapply Z.lt_le_trans; [apply Hb|]. change (2 ^ 32) with (256 ^ 4).
  apply Z.pow_le_mono_r; [lia|]. rewrite length_take. lia.
Qed.

Lemma u8_at_fits buf i : fits 8 (u8_at buf i).
Proof.
  unfold fits, u8_at. pose proof (be_value_bound (take 1 (drop (Z.to_nat i) buf))) as Hb.
  split; [lia|]. eapply Z.lt_le_trans; [apply Hb|]. change (2 ^ 8) with (256 ^ 1).
  apply Z.pow_le_mono_r; [lia|]. rewrite length_take. lia.
Qed.

Lemma decode_raw_sound buf rest f :
  try_decode_raw_from_buf buf = (rest, Ok (Some f)) -> valid_frame f /\ buf = wire f ++ rest.
Proof.
  unfold try_decode_raw_from_buf. destruct (Z.ltb_spec (zlen buf) 4) as [|H4]; [done|].
  destruct (Z.ltb_spec MAX_FRAME_SIZE (u32_at buf 0)) as [|Hmax]; [done|].
  destruct (Z.ltb_spec (zlen buf) (4 + u32_at buf 0)) as [|Htot]; [done|].
  destruct (Z.ltb_spec (u32_at buf 0) FRAME_HEADER_SIZE) as [|Hmin]; [done|].
  assert (zlen (slice buf (4 + FRAME_HEADER_SIZE) (4 + u32_at buf 0)) = u32_at buf 0 - FRAME_HEADER_SIZE) as Hb.
  { unfold slice. rewrite length_take, length_drop. unfold FRAME_HEADER_SIZE in *. lia. }
  pose proof (u32_at_fits buf 4) as Hid. pose proof (u8_at_fits buf 8) as Hfl.
  set (body := slice buf _ _) in *. set (n := u32_at buf 0) in *.
  intros Heq. injection Heq as Hr Hf.
  assert (valid_frame f) as Hv. { subst f. split; [done|]. split; [done|]. cbn [rf_body]. lia. }
  split; [done|]. subst f rest. unfold wire. cbn [rf_id rf_flags rf_body].
  replace (FRAME_HEADER_SIZE + zlen body) with n by lia. unfold FRAME_HEADER_SIZE in *.
  assert (frame_header n (u32_at buf 4) (u8_at buf 8) = take 9 buf) as ->.
  { unfold frame_header, n, u32_at. rewrite !be_bytes_take by (rewrite length_drop; lia).
    change (Z.to_nat 0) with 0%nat. change (Z.to_nat 4) with 4%nat. rewrite drop_0.
    rewrite app_assoc, take_advance. change (4 + 4)%nat with 8%nat. unfold u8_at.
    change (take 9 buf) with (take (8 + 1) buf). rewrite <- take_advance. f_equal. change (Z.to_nat 8) with 8%nat.
    destruct (drop 8 buf) as [|b l] eqn:E.
    { apply (f_equal length) in E. rewrite length_drop in E. cbn in E. lia. }
    change (take 1 (b :: l)) with [b]. by rewrite be_value_single, byte_of_Z_of_byte. }
  unfold body, slice. change (Z.to_nat (4 + 5)) with 9%nat. rewrite take_advance.
  replace (9 + Z.to_nat (4 + n - (4 + 5)))%nat with (Z.to_nat (4 + n)) by lia. by rewrite take_drop.
Qed.

(** The same for bulk bodies: what decodes is the body of a legal record. *)
Lemma decode_bulk_body_sound id body max r :
  fits 32 id -> decode_bulk_body id body max = Ok r ->
  br_id r = id /\ valid_record r /\ body = bulk_body r.
Proof.
  intros Hid. unfold decode_bulk_body. destruct ((max =? 0) || _) eqn:Hmax; [done|].
  destruct (zlen body <? BULK_HEADER_SIZE + 1) eqn:Hlen; [done|].
  destruct (negb (u8_at body 2 =? 0) || _) eqn:Hres; [done|]. apply orb_false_iff in Hres as [Hr2 Hr3].
  destruct (bulk_kind_from_wire _) as [k|] eqn:Hk; [|done].
  destruct (bulk_flow_from_wire _) as [fl|] eqn:Hfl; [|done]. cbn [ok_or].
  destruct (max <? _) eqn:Hpl; [done|]. destruct (checked_add _ _ _) eqn:Hadd; [|done].
  apply checked_add_Some in Hadd as [_ Hadd]. breflect. intros Heq.
  assert (bulk_kind_wire k = u8_at body 0) as Hk'.
  { unfold bulk_kind_from_wire in Hk. by inv_match Hk; injection Hk as <-. }
  assert (bulk_flow_wire fl = u8_at body 1) as Hfl'.
  { unfold bulk_flow_from_wire in Hfl. by inv_match Hfl; injection Hfl as <-. }
  pose proof (be_value_bound (slice body 4 12)) as Hof.
  assert (be_bytes 8 (be_value (slice body 4 12)) = slice body 4 12) as Hoff
    by (apply be_bytes_take; rewrite length_drop; unfold BULK_HEADER_SIZE in *; lia).
  unfold BULK_HEADER_SIZE in *. do 12 (destruct body as [|? body]; [cbn [length] in *; lia|]).
  change (drop (Z.to_nat 12) _) with body in *. injection Heq as <-. split; [done|].
  cbn [length] in Hlen. split.
  { split; [done|]. cbn [br_offset br_payload]. lia. }
  unfold bulk_body. cbn [br_kind br_flow br_offset br_payload]. rewrite Hk', Hfl', Hoff.
  apply (byte_of_value _ 0) in Hr2 as ->. apply (byte_of_value _ 0) in Hr3 as ->.
  change (u8_at (b :: _) 0) with (be_value [b]). change (u8_at (b :: b0 :: _) 1) with (be_value [b0]).
  rewrite !be_value_single, !byte_of_Z_of_byte. reflexivity.
Qed.

(** ** Buffering is bounded *)

Lemma raw_none_bounded buf buf' :
  try_decode_raw_from_buf buf = (buf', Ok None) -> buf' = buf /\ zlen buf < MAX_WIRE_FRAME.
Proof.
  unfold try_decode_raw_from_buf, MAX_WIRE_FRAME. destruct (Z.ltb_spec (zlen buf) 4) as [|H4].
  { intros [= <-]. split; [done|]. unfold MAX_FRAME_SIZE. lia. }
  destruct (Z.ltb_spec MAX_FRAME_SIZE (u32_at buf 0)) as [|Hmax]; [done|].
  destruct (Z.ltb_spec (zlen buf) (4 + u32_at buf 0)) as [|Htot].
  { intros [= <-]. split; [done|]. lia. }
  destruct (_ <? _); done.
Qed.

Lemma frame_none_bounded buf buf' :
  try_decode_frame_from_bytes buf = (buf', Ok None) -> buf' = buf /\ zlen buf < MAX_WIRE_FRAME.
Proof.
  unfold try_decode_frame_from_bytes, complete_frame_len, MAX_WIRE_FRAME.
  destruct (Z.ltb_spec (zlen buf) 4) as [|H4].
  { intros [= <-]. split; [done|]. unfold MAX_FRAME_SIZE. lia. }
  destruct (Z.ltb_spec MAX_FRAME_SIZE (u32_at buf 0)) as [|Hmax]; [done|].
  destruct (Z.ltb_spec (u32_at buf 0) FRAME_HEADER_SIZE) as [|Hmin]; [done|].
  destruct (Z.ltb_spec (zlen buf) (4 + u32_at buf 0)) as [|Htot].
  { intros [= <-]. split; [done|]. lia. }
  intros Hd. by inv_match Hd.
Qed.

(** ** Properties *)

(** C39: Raw frames are a prefix code: a buffer starts with a complete frame,
    for the buffered decoder and for the streaming reader alike, exactly when
    it is the encoding of that frame followed by the bytes left over, and every
    frame within the size limit has such an encoding. *)
Theorem raw_frame_roundtrip buf rest f :
  (valid_frame f -> exists w, encode_raw_to_buf f [] = Ok w)
  /\ (try_decode_raw_from_buf buf = (rest, Ok (Some f))
      <-> valid_frame f /\ exists w, encode_raw_to_buf f [] = Ok w /\ buf = w ++ rest)
  /\ (read_raw_frame buf = Ok (f, rest)
      <-> valid_frame f /\ exists w, encode_raw_to_buf f [] = Ok w /\ buf = w ++ rest).
Proof.
  rewrite <- read_raw_agrees.
  assert (try_decode_raw_from_buf buf = (rest, Ok (Some f))
      <-> valid_frame f /\ exists w, encode_raw_to_buf f [] = Ok w /\ buf = w ++ rest) as Hiff.
  { split.
    - intros Hd. apply decode_raw_sound in Hd as [Hv ->]. split; [done|]. exists (wire f).
      by rewrite encode_raw_wire.
    - intros [Hv (w & Hw & ->)]. rewrite encode_raw_wire in Hw by done. injection Hw as <-.
      by apply decode_raw_wire. }
  split; [|done]. intros Hv. exists (wire f). by rewrite encode_raw_wire.
Qed.

(** However a stream of encoded frames is cut into chunks, a reader that
    appends each chunk to its buffer and drains the decoder recovers exactly
    those frames, in order, and ends with an empty buffer. *)
Lemma stream_chunking_irrelevant fs chunks :
  Forall valid_frame fs ->
  (forall w, try_fold (fun buf f => encode_raw_to_buf f buf) [] fs = Ok w -> concat chunks = w ->
   feed_all [] chunks = ([], Ok fs))
  /\ exists w, try_fold (fun buf f => encode_raw_to_buf f buf) [] fs = Ok w.
Proof.
  intros Hv.
  assert (forall b, try_fold (fun buf f => encode_raw_to_buf f buf) b fs = Ok (b ++ wires fs)) as He.
  { induction Hv as [|f fs Hf _ IH]; intros b; cbn [try_fold]; [by rewrite app_nil_r|].
    rewrite encode_raw_wire by done. rewrite IH, <- app_assoc. done. }
  rewrite He. split; [|by eexists]. intros w Heq Hc. injection Heq as <-.
  apply feed_all_wires; [done|done|]. destruct fs as [|f fs]; [done|]. apply length_wire_pos.
Qed.

(** A bulk record of legal size and offset encodes, and its encoding is
    read back as that record by the frame decoder and through the raw reader,
    while the control decoder refuses it; any other record is refused by the
    encoder. *)
Lemma bulk_record_roundtrip r rest :
  fits 32 (br_id r) -> fits 64 (br_offset r) ->
  match encode_bulk_to_buf r [] with
  | Err _ => ~ valid_record r
  | Ok w =>
      valid_record r
      /\ try_decode_frame_from_bytes (w ++ rest) = (rest, Ok (Some (DecodedBulk r)))
      /\ (exists f, read_raw_frame (w ++ rest) = Ok (f, rest)
           /\ raw_frame_to_bulk f MAX_BULK_RECORD_PAYLOAD = Ok r)
      /\ try_decode_from_bytes (w ++ rest) = (rest, Err (InvalidBulkFrame RecordInControlDecoder))
  end.
Proof.
  intros Hid Hof. destruct (encode_bulk_to_buf r []) as [w|e] eqn:E.
  - assert (valid_record r) as Hv by (by apply (encode_bulk_Ok_valid r [] w)).
    rewrite encode_bulk_wire in E by done. injection E as <-. cbn [app].
    split; [done|]. split; [by apply decode_frame_bulk|]. split.
    + exists (bulk_frame r). split.
      * apply read_raw_agrees, decode_raw_wire, bulk_frame_valid, Hv.
      * unfold raw_frame_to_bulk. cbn [rf_flags rf_id rf_body bulk_frame negb Z.eqb].
        rewrite Z.eqb_refl. cbn [negb]. pose proof Hv as (_ & _ & _ & Hl).
        apply decode_bulk_body_ok; [done| |lia]. by vm_compute.
    + unfold try_decode_from_bytes. by rewrite decode_frame_bulk.
  - intros Hv. by rewrite encode_bulk_wire in E.
Qed.

(** A control message whose envelope fits in a frame and whose flags leave
    the bulk bit clear is read back unchanged, routing id and flags included,
    by the buffered, the streaming and the mixed-frame decoder. *)
Lemma message_roundtrip m w rest :
  cbor_roundtrip -> fits 32 (msg_id m) -> fits 8 (msg_flags m) -> Z.land (msg_flags m) FLAG_BULK = 0 ->
  encode_to_buf m [] = Ok w ->
  try_decode_from_buf (w ++ rest) = (rest, Ok (Some m))
  /\ read_message (w ++ rest) = Ok (m, rest)
  /\ try_decode_frame_from_bytes (w ++ rest) = (rest, Ok (Some (DecodedControl m)))
  /\ try_decode_from_bytes (w ++ rest) = (rest, Ok (Some m)).
Proof.
  intros Hrt Hid Hfl Hb He. pose proof (decode_encoded_message m w rest Hrt Hid Hfl He) as Hbuf.
  unfold encode_to_buf in He. destruct (cbor_into_writer m) as [body|] eqn:Hc; [|done].
  pose proof (encode_raw_Ok_size _ _ _ He) as Hs. set (f := mkFrame _ _ _) in *.
  assert (valid_frame f) as Hv by done. rewrite encode_raw_wire in He by done. injection He as <-. cbn [app].
  pose proof (decode_frame_control m body rest Hrt Hc Hv Hb) as Hf. fold f in Hf.
  split; [exact Hbuf|split; [|split; [done|]]].
  - unfold read_message. rewrite (proj1 (read_raw_agrees _ f rest)) by (by apply decode_raw_wire).
    unfold f. cbn [fst snd]. by rewrite raw_to_message_ok.
  - unfold try_decode_from_bytes. by rewrite Hf.
Qed.

(** No decoder makes its caller buffer without bound: one that asks for
    more data leaves the buffer untouched and holds less than a maximal wire
    frame, and a decoded raw frame has a body within the frame limit. *)
Lemma decoder_buffer_bounded buf :
  (forall buf', try_decode_raw_from_buf buf = (buf', Ok None) -> buf' = buf /\ zlen buf < MAX_WIRE_FRAME)
  /\ (forall buf', try_decode_from_buf buf = (buf', Ok None) -> buf' = buf /\ zlen buf < MAX_WIRE_FRAME)
  /\ (forall buf', try_decode_frame_from_bytes buf = (buf', Ok None) ->
       buf' = buf /\ zlen buf < MAX_WIRE_FRAME)
  /\ (forall buf' f, try_decode_raw_from_buf buf = (buf', Ok (Some f)) ->
       zlen (rf_body f) <= MAX_FRAME_SIZE - FRAME_HEADER_SIZE
       /\ zlen buf' = zlen buf - (4 + FRAME_HEADER_SIZE + zlen (rf_body f))).
Proof.
  split; [apply raw_none_bounded|]. split; [|split; [apply frame_none_bounded|]].
  - intros buf' Hd. apply raw_none_bounded. rewrite message_decoder_is_raw_then_body in Hd.
    destruct (try_decode_raw_from_buf buf) as [b [[f|]|e]]; [|by injection Hd as ->|done].
    by destruct (raw_frame_to_message f).
  - intros buf' f Hd. apply decode_raw_sound in Hd as [(_ & _ & Hs) ->].
    rewrite length_app, Nat2Z.inj_add, length_wire. lia.
Qed.

(** A frame writer puts a prefix of the encoded frame on the wire whatever
    partial writes and errors it meets, reports success only when the whole
    encoding is out, and does succeed when every write call makes progress. *)
Lemma write_raw_frame_complete answers flush f :
  valid_frame f -> Forall answer_ok answers ->
  exists w, encode_raw_to_buf f [] = Ok w
  /\ (write_raw_frame answers flush f).1 `prefix_of` w
  /\ ((write_raw_frame answers flush f).2 = Some (Ok tt) -> (write_raw_frame answers flush f).1 = w)
  /\ (Forall (fun a => exists n, a = Ok n /\ 0 < n) answers -> flush = Ok tt ->
      (length w <= length answers)%nat -> (write_raw_frame answers flush f).2 = Some (Ok tt)).
Proof.
  intros Hv Ha. exists (wire f). rewrite encode_raw_wire by done. split; [done|].
  destruct Hv as (_ & _ & Hs). unfold write_raw_frame.
  rewrite (proj2 (checked_frame_len_Ok _ _) (conj eq_refl Hs)). unfold write_vectored_all.
  destruct (write_loop_spec answers (frame_header (FRAME_HEADER_SIZE + zlen (rf_body f)) (rf_id f) (rf_flags f))
              (rf_body f) 0 0 Ha) as (H1 & H2 & H3); [lia|lia|done|].
  change (take _ _) with (@nil byte) in *. fold (wire f) in *.
  destruct (write_vectored_loop _ _ _ _ _ _) as [out [[[]|e]|]]; cbn [fst snd finish_write] in *.
  - split; [done|]. split; [by rewrite H2|]. by intros _ ->.
  - split; [done|]. split; [done|]. intros Hp _ Hl. rewrite Nat.add_0_r in H3. by specialize (H3 Hp Hl).
  - split; [done|]. split; [done|]. intros Hp _ Hl. rewrite Nat.add_0_r in H3. by specialize (H3 Hp Hl).
Qed.

End CodecProofs.

(** ** Witnesses *)

(** A concrete envelope encoding: version, kind, maintenance bit, payload. *)
Module ToyCbor.

Definition kind_index (t : MessageType) : Z :=
  match list_find (t =.) all_message_types with Some (i, _) => Z.of_nat i | None => 255 end.

Definition into_writer (m : Message) : result unit (list byte) :=
  if bool_decide (fits 8 (msg_v m)) then
    Ok (byte_of_Z (msg_v m) :: byte_of_Z (kind_index (msg_t m))
        :: (if msg_maintenance m then Byte.x01 else Byte.x00) :: msg_p m)
  else Err tt.

Definition from_reader (l : list byte) : result unit Message :=
  match l with
  | v :: t :: k :: p =>
      match all_message_types !! Z.to_nat (Z_of_byte t) with
      | Some t => Ok (mkMessage (Z_of_byte v) t 0 0 p (bool_decide (k = Byte.x01)))
      | None => Err tt
      end
  | _ => Err tt
  end.

#[export] Instance cbor : Cbor :=
  {| CborError := unit; cbor_into_writer := into_writer; cbor_from_reader := from_reader |}.

Lemma roundtrip : cbor_roundtrip.
Proof.
  intros m body. cbn [cbor_into_writer cbor_from_reader cbor]. unfold into_writer.
  case_bool_decide as Hv; [|done]. intros [= <-]. unfold from_reader, set_id_flags.
  rewrite !Z_of_byte_of_Z, (Z.mod_small (msg_v m)) by exact Hv.
  assert (all_message_types !! Z.to_nat (kind_index (msg_t m) `mod` 256) = Some (msg_t m)) as ->
    by (destruct (msg_t m); vm_compute; reflexivity).
  do 2 f_equal. by destruct (msg_maintenance m).
Qed.

End ToyCbor.

Definition demo_frame : RawFrame := mkFrame 7 0 [Byte.x61; Byte.x62].
Definition demo_record : BulkRecord := mkRecord 9 Filesystem HostToGuest 4096 [Byte.x61; Byte.x62; Byte.x63].
Definition demo_message : Message := mkMessage 8 MtPing 5 0 [Byte.x01; Byte.x02] false.

Lemma demo_frame_valid : valid_frame demo_frame.
Proof. repeat split; vm_compute; done. Qed.

Definition demo_frame_bytes : list byte :=
  [Byte.x00; Byte.x00; Byte.x00; Byte.x07; Byte.x00; Byte.x00; Byte.x00; Byte.x07; Byte.x00; Byte.x61; Byte.x62].

Lemma raw_frame_roundtrip_witness :
  valid_frame demo_frame
  /\ try_decode_raw_from_buf (H := ToyCbor.cbor) (demo_frame_bytes ++ [Byte.xff]) = ([Byte.xff], Ok (Some demo_frame)).
Proof.
  split; [exact demo_frame_valid|].
  apply (proj1 (proj2 (@raw_frame_roundtrip ToyCbor.cbor (demo_frame_bytes ++ [Byte.xff]) [Byte.xff] demo_frame))).
  split; [exact demo_frame_valid|]. exists demo_frame_bytes. split; reflexivity.
Defined.

Lemma stream_chunking_irrelevant_witness :
  feed_all (H := ToyCbor.cbor) [] [take 3 demo_frame_bytes; drop 3 demo_frame_bytes ++ take 9 demo_frame_bytes;
                [] ; drop 9 demo_frame_bytes]
  = ([], Ok [demo_frame; demo_frame]).
Proof.
  apply (proj1 (@stream_chunking_irrelevant ToyCbor.cbor [demo_frame; demo_frame] _
            (Forall_cons_2 _ _ _ demo_frame_valid (Forall_cons_2 _ _ _ demo_frame_valid (Forall_nil_2 _))))
           (demo_frame_bytes ++ demo_frame_bytes)); reflexivity.
Defined.

Lemma bulk_record_roundtrip_witness :
  exists w, encode_bulk_to_buf (H := ToyCbor.cbor) demo_record [] = Ok w
  /\ try_decode_frame_from_bytes (H := ToyCbor.cbor) (w ++ [Byte.xff])
     = ([Byte.xff], Ok (Some (DecodedBulk demo_record))).
Proof.
  pose proof (@bulk_record_roundtrip ToyCbor.cbor demo_record [Byte.xff]
                ltac:(vm_compute; split; congruence) ltac:(vm_compute; split; congruence)) as Hr.
  destruct (encode_bulk_to_buf demo_record []) as [w|e] eqn:E; [|vm_compute in E; discriminate].
  exists w. split; [reflexivity|apply Hr].
Defined.

Lemma message_roundtrip_witness :
  exists w, encode_to_buf (H := ToyCbor.cbor) demo_message [] = Ok w
  /\ read_message (H := ToyCbor.cbor) (w ++ demo_frame_bytes) = Ok (demo_message, demo_frame_bytes).
Proof.
  destruct (encode_to_buf demo_message []) as [w|e] eqn:E; [|vm_compute in E; discriminate].
  exists w. split; [reflexivity|].
  refine (proj1 (proj2 (@message_roundtrip ToyCbor.cbor demo_message w demo_frame_bytes
                ToyCbor.roundtrip _ _ eq_refl E))); vm_compute; split; congruence.
Defined.

Lemma decoder_buffer_bounded_witness :
  zlen (take 5 demo_frame_bytes) < MAX_WIRE_FRAME.
Proof.
  apply (proj1 (@decoder_buffer_bounded ToyCbor.cbor (take 5 demo_frame_bytes)) (take 5 demo_frame_bytes)).
  reflexivity.
Defined.

Lemma write_raw_frame_complete_witness :
  exists w, encode_raw_to_buf (H := ToyCbor.cbor) demo_frame [] = Ok w
  /\ (write_raw_frame (H := ToyCbor.cbor) (replicate 11 (Ok 1)) (Ok tt) demo_frame).1 = w.
Proof.
  destruct (@write_raw_frame_complete ToyCbor.cbor (replicate 11 (Ok 1)) (Ok tt) demo_frame)
    as (w & Hw & _ & Hdone & Hlive).
  - exact demo_frame_valid.
  - apply Forall_replicate. cbn. lia.
  - exists w. split; [exact Hw|]. apply Hdone, Hlive; [|reflexivity|].
    + apply Forall_replicate. exists 1. split; [reflexivity|lia].
    + vm_compute in Hw. injection Hw as <-. cbn. lia.
Defined.
