(* ===== verification/Transport.v ===== *)
(** * Transport lanes and relay ranges

    Models [crates/protocol/lib/transport.rs]: the assignment of correlation-id
    ranges to relay client slots, the binding handshake of the dedicated bulk
    port, the range-lease records of the control lane and the
    incarnation-prefixed records of the bulk lane.

    A fixed-size array is a list of bytes; its length is a hypothesis where a
    statement needs it. *)

From S2P Require Import Prelude Message Bulk Codec.
From Stdlib Require Import Strings.Byte.

#[local] Open Scope string_scope.
Definition AGENT_BULK_PORT_NAME : string := "agent-bulk".
Definition DUAL_PORT_V1_PROFILE : string := "dual-port-v1".
Definition hello_label : string := "hello".
Definition ack_label : string := "acknowledgement".
#[local] Close Scope string_scope.

Definition AGENT_RELAY_MAX_CLIENTS : Z := 128.
Definition AGENT_RELAY_ID_RANGE_STEP : Z := u_max 32 / AGENT_RELAY_MAX_CLIENTS.

Definition BULK_BINDING_SIZE : Z := 24.
Definition BULK_BINDING_FORMAT_V1 : Z := 1.
Definition CLIENT_INCARNATION_SIZE : Z := 16.
Definition RELAY_CLIENT_LEASE_SIZE : Z := 41.
Definition RELAY_LEASE_FORMAT_V1 : Z := 1.
Definition LOCAL_SHM_FORMAT_V1 : Z := 1.
Definition BULK_HELLO_MAGIC : list byte := [x4d; x53; x42; x42].
Definition BULK_ACK_MAGIC : list byte := [x4d; x53; x42; x41].
Definition RELAY_CLIENT_MAGIC : list byte := [x4d; x53; x42; x4c].
Definition RELAY_CLIENT_CONNECTED : Z := 1.
Definition RELAY_CLIENT_DISCONNECTED_ACK : Z := 2.

Record BulkTransportReady := mkBulkReady {
  btr_profile : string; btr_port : string; btr_connection_id : list byte }.

Record RelayLeaseReady := mkLeaseReady { rlr_max_format : Z }.
Record LocalTransportReady := mkLocalReady { ltr_max_format : Z }.

Record IncarnatedBulkFrame := mkIncarnated {
  ibf_incarnation : list byte; ibf_frame : list byte; ibf_record : BulkRecord }.

Record RelayClientConnected := mkConnected {
  rcc_id_start : Z; rcc_id_end_exclusive : Z; rcc_incarnation : list byte }.

Record RelayClientDisconnectedAck := mkDisconnectedAck {
  rda_id_start : Z; rda_id_end_exclusive : Z; rda_incarnation : list byte }.

(** ** Correlation-id ranges *)

Definition relay_client_id_range (slot : Z) : option (Z * Z) :=
  if AGENT_RELAY_MAX_CLIENTS <=? slot then None
  else
    let* offset := checked_mul 32 slot AGENT_RELAY_ID_RANGE_STEP in
    let* lo := checked_add 32 offset 1 in
    let* hi := checked_add 32 offset AGENT_RELAY_ID_RANGE_STEP in
    Some (lo, hi).

Definition relay_client_slot (id : Z) : option Z :=
  let slot := id / AGENT_RELAY_ID_RANGE_STEP in
  let* (id_start, id_end_exclusive) := relay_client_id_range slot in
  if (id_start <=? id) && (id <? id_end_exclusive) then Some slot else None.

Definition validate_relay_client_range (id_start id_end_exclusive : Z) : option Z :=
  let* slot := relay_client_slot id_start in
  if bool_decide (relay_client_id_range slot = Some (id_start, id_end_exclusive)) then Some slot else None.

(** ** Capabilities *)

Definition lease_select_supported (r : RelayLeaseReady) (host_max : Z) : option Z :=
  let selected := Z.min (rlr_max_format r) host_max in
  if RELAY_LEASE_FORMAT_V1 <=? selected then Some selected else None.

Definition local_select_supported (r : LocalTransportReady) (client_max : Z) : option Z :=
  let selected := Z.min (ltr_max_format r) client_max in
  if LOCAL_SHM_FORMAT_V1 <=? selected then Some selected else None.

Definition range_lease_v1 : RelayLeaseReady := mkLeaseReady RELAY_LEASE_FORMAT_V1.
Definition shared_arena_v1 : LocalTransportReady := mkLocalReady LOCAL_SHM_FORMAT_V1.

Definition dual_port_v1 (connection_id : list byte) : BulkTransportReady :=
  mkBulkReady DUAL_PORT_V1_PROFILE AGENT_BULK_PORT_NAME connection_id.

Section Transport.
Context `{Cbor}.
Abbreviation res A := (result (ProtocolError CborError) A).

Definition validate_dual_port_v1 (ready : BulkTransportReady) (expected_id : list byte) : res unit :=
  if negb (bool_decide (btr_profile ready = DUAL_PORT_V1_PROFILE)) then
    Err (InvalidBulkBinding (UnexpectedProfile (btr_profile ready)))
  else if negb (bool_decide (btr_port ready = AGENT_BULK_PORT_NAME)) then
    Err (InvalidBulkBinding (UnexpectedPort (btr_port ready)))
  else if negb (bool_decide (btr_connection_id ready = expected_id)) then
    Err (InvalidBulkBinding ConnectionIdMismatch)
  else Ok tt.

(** ** Bulk-port handshake *)

Definition encode_binding (magic connection_id : list byte) : list byte :=
  magic ++ [byte_of_Z BULK_BINDING_FORMAT_V1; byte_of_Z BULK_PROTOCOL_VERSION; x00; x00] ++ connection_id.

Definition decode_binding (bytes expected_magic : list byte) (label : string) : res (list byte) :=
  if negb (zlen bytes =? BULK_BINDING_SIZE) then
    Err (InvalidBulkBinding (BindingLength label (zlen bytes)))
  else if negb (bool_decide (slice bytes 0 4 = expected_magic)) then
    Err (InvalidBulkBinding (BindingMagic label))
  else if negb (u8_at bytes 4 =? BULK_BINDING_FORMAT_V1) then
    Err (InvalidBulkBinding (BindingFormat label (u8_at bytes 4)))
  else if negb (u8_at bytes 5 =? BULK_PROTOCOL_VERSION) then
    Err (InvalidBulkBinding (BindingGeneration label (u8_at bytes 5)))
  else if negb (bool_decide (slice bytes 6 8 = [x00; x00])) then
    Err (InvalidBulkBinding (BindingReserved label))
  else Ok (drop 8 bytes).

Definition encode_bulk_hello (connection_id : list byte) : list byte :=
  encode_binding BULK_HELLO_MAGIC connection_id.
Definition encode_bulk_ack (connection_id : list byte) : list byte :=
  encode_binding BULK_ACK_MAGIC connection_id.

Definition decode_bulk_hello (bytes : list byte) : res (list byte) :=
  decode_binding bytes BULK_HELLO_MAGIC hello_label.

Definition decode_bulk_ack (bytes expected_id : list byte) : res unit :=
  let? actual_id := decode_binding bytes BULK_ACK_MAGIC ack_label in
  if negb (bool_decide (actual_id = expected_id)) then Err (InvalidBulkBinding AckIdMismatch)
  else Ok tt.

(** ** Bulk-lane records *)

(** A complete packet is split off the buffer before its content is checked. *)
Definition try_decode_incarnated_bulk_from_bytes (bytes : list byte)
  : list byte * res (option IncarnatedBulkFrame) :=
  let length_offset := CLIENT_INCARNATION_SIZE in
  if zlen bytes <? length_offset + 4 then (bytes, Ok None)
  else
    let frame_len := u32_at bytes length_offset in
    if MAX_FRAME_SIZE <? frame_len then (bytes, Err (FrameTooLarge frame_len MAX_FRAME_SIZE))
    else
      let minimum := FRAME_HEADER_SIZE + BULK_HEADER_SIZE + 1 in
      if frame_len <? minimum then (bytes, Err (InvalidBulkFrame LaneNoPayload))
      else
        let total := CLIENT_INCARNATION_SIZE + 4 + frame_len in
        if zlen bytes <? total then (bytes, Ok None)
        else
          let packet := slice bytes 0 total in
          let bytes' := drop (Z.to_nat total) bytes in
          let incarnation := slice packet 0 CLIENT_INCARNATION_SIZE in
          let frame := drop (Z.to_nat CLIENT_INCARNATION_SIZE) packet in
          if negb (u8_at frame 8 =? FLAG_BULK) then (bytes', Err (InvalidBulkFrame LaneNonBulk))
          else
            let id := u32_at frame 4 in
            let body := drop (Z.to_nat (4 + FRAME_HEADER_SIZE)) frame in
            match decode_bulk_body id body MAX_BULK_RECORD_PAYLOAD with
            | Err e => (bytes', Err e)
            | Ok record => (bytes', Ok (Some (mkIncarnated incarnation frame record)))
            end.

(** ** Range leases *)

Definition encode_relay_client_lease (event : Z) (lease : RelayClientConnected) : list byte :=
  be_bytes 4 (RELAY_CLIENT_LEASE_SIZE - 4) ++ replicate 5 x00 ++ RELAY_CLIENT_MAGIC
  ++ [byte_of_Z RELAY_LEASE_FORMAT_V1; byte_of_Z event; x00; x00]
  ++ be_bytes 4 (rcc_id_start lease) ++ be_bytes 4 (rcc_id_end_exclusive lease) ++ rcc_incarnation lease.

Definition encode_relay_client_connected (connected : RelayClientConnected) : list byte :=
  encode_relay_client_lease RELAY_CLIENT_CONNECTED connected.

Definition encode_relay_client_disconnected_ack (ack : RelayClientDisconnectedAck) : list byte :=
  encode_relay_client_lease RELAY_CLIENT_DISCONNECTED_ACK
    (mkConnected (rda_id_start ack) (rda_id_end_exclusive ack) (rda_incarnation ack)).

Definition try_decode_relay_client_lease_from_bytes (bytes : list byte) (expected_event : Z)
  : list byte * res (option RelayClientConnected) :=
  if zlen bytes <? 13 then (bytes, Ok None)
  else if negb (bool_decide (slice bytes 9 13 = RELAY_CLIENT_MAGIC)) then (bytes, Ok None)
  else if zlen bytes <? RELAY_CLIENT_LEASE_SIZE then (bytes, Ok None)
  else
    let frame_len := u32_at bytes 0 in
    if negb (frame_len =? RELAY_CLIENT_LEASE_SIZE - 4)
       || negb (bool_decide (slice bytes 4 9 = [x00; x00; x00; x00; x00]))
       || negb (u8_at bytes 13 =? RELAY_LEASE_FORMAT_V1)
       || negb (u8_at bytes 14 =? expected_event)
       || negb (bool_decide (slice bytes 15 17 = [x00; x00]))
    then (bytes, Err (InvalidBulkBinding MalformedLease))
    else
      let frame := slice bytes 0 RELAY_CLIENT_LEASE_SIZE in
      let bytes' := drop (Z.to_nat RELAY_CLIENT_LEASE_SIZE) bytes in
      (bytes', Ok (Some (mkConnected (u32_at frame 17) (u32_at frame 21) (drop 25 frame)))).

Definition try_decode_relay_client_connected_from_bytes (bytes : list byte)
  : list byte * res (option RelayClientConnected) :=
  try_decode_relay_client_lease_from_bytes bytes RELAY_CLIENT_CONNECTED.

Definition try_decode_relay_client_disconnected_ack_from_bytes (bytes : list byte)
  : list byte * res (option RelayClientDisconnectedAck) :=
  match try_decode_relay_client_lease_from_bytes bytes RELAY_CLIENT_DISCONNECTED_ACK with
  | (bytes', Ok (Some lease)) =>
      (bytes', Ok (Some (mkDisconnectedAck (rcc_id_start lease) (rcc_id_end_exclusive lease)
                           (rcc_incarnation lease))))
  | (bytes', Ok None) => (bytes', Ok None)
  | (bytes', Err e) => (bytes', Err e)
  end.

End Transport.

(** ** Range arithmetic *)

Lemma relay_range_step : AGENT_RELAY_ID_RANGE_STEP = 33554431.
Proof. reflexivity. Qed.

Lemma relay_client_id_range_Some slot lo hi :
  0 <= slot ->
  relay_client_id_range slot = Some (lo, hi)
  <-> slot < AGENT_RELAY_MAX_CLIENTS /\ lo = slot * AGENT_RELAY_ID_RANGE_STEP + 1
      /\ hi = slot * AGENT_RELAY_ID_RANGE_STEP + AGENT_RELAY_ID_RANGE_STEP.
Proof.
  intros H0. unfold relay_client_id_range, checked_mul, checked_add. rewrite relay_range_step.
  unfold AGENT_RELAY_MAX_CLIENTS. destruct (Z.leb_spec 128 slot); [split; [done|lia]|].
  rewrite !(proj2 (Z.ltb_lt _ _)) by lia.
  split; [intros [= <- <-]; lia|]. by intros (_ & -> & ->).
Qed.

Lemma relay_client_slot_Some id slot :
  0 <= id ->
  relay_client_slot id = Some slot
  <-> exists lo hi, 0 <= slot /\ relay_client_id_range slot = Some (lo, hi) /\ lo <= id < hi.
Proof.
  intros Hid. unfold relay_client_slot.
  assert (0 <= id / AGENT_RELAY_ID_RANGE_STEP) as Hq by (apply Z.div_pos; [done|by vm_compute]).
  split.
  - destruct (relay_client_id_range (id / _)) as [[lo hi]|] eqn:E; [|done].
    destruct (_ && _) eqn:E1; [|done]. intros [= <-]. breflect. exists lo, hi. done.
  - intros (lo & hi & H0 & Hr & Hin).
    pose proof Hr as Hr'. apply relay_client_id_range_Some in Hr' as (Hs & -> & ->); [|done].
    assert (id / AGENT_RELAY_ID_RANGE_STEP = slot) as ->.
    { rewrite relay_range_step in *. symmetry. apply (Z.div_unique _ _ _ (id - slot * 33554431)); lia. }
    rewrite Hr. by rewrite (proj2 (Z.leb_le _ _)), (proj2 (Z.ltb_lt _ _)) by lia.
Qed.

(** ** Fixed layouts *)

Lemma be_value_cat4 (a b c d : byte) : be_bytes 4 (be_value [a; b; c; d]) = [a; b; c; d].
Proof. exact (be_bytes_be_value [a; b; c; d]). Qed.

Lemma be_value_byte z : fits 8 z -> be_value [byte_of_Z z] = z.
Proof. intros Hz. rewrite be_value_single, Z_of_byte_of_Z. by apply Z.mod_small. Qed.

Section TransportProofs.
Context `{Cbor}.

Definition lease_ok (l : RelayClientConnected) : Prop :=
  fits 32 (rcc_id_start l) /\ fits 32 (rcc_id_end_exclusive l) /\ length (rcc_incarnation l) = 16%nat.

Lemma be_bytes4_explicit z :
  fits 32 z -> exists a b c d, be_bytes 4 z = [a; b; c; d] /\ be_value [a; b; c; d] = z.
Proof.
  intros Hz. do 4 eexists. split; [reflexivity|]. by apply (be_value_be_bytes_fits 4).
Qed.

Lemma decode_lease_encoded ev l rest :
  fits 8 ev -> lease_ok l ->
  try_decode_relay_client_lease_from_bytes (encode_relay_client_lease ev l ++ rest) ev = (rest, Ok (Some l)).
Proof.
  intros Hev (Hs & He & Hi). destruct l as [s e inc]. cbn [rcc_id_start rcc_id_end_exclusive rcc_incarnation] in *.
  do 16 (destruct inc as [|? inc]; [done|]). destruct inc; [|done].
  pose proof (be_value_byte ev Hev) as Hb.
  destruct (be_bytes4_explicit s Hs) as (s0 & s1 & s2 & s3 & Hsb & Hsv).
  destruct (be_bytes4_explicit e He) as (e0 & e1 & e2 & e3 & Heb & Hev').
  unfold encode_relay_client_lease. cbn [rcc_id_start rcc_id_end_exclusive rcc_incarnation]. rewrite Hsb, Heb.
  change (be_bytes 4 (RELAY_CLIENT_LEASE_SIZE - 4)) with [x00; x00; x00; x25].
  change (byte_of_Z RELAY_LEASE_FORMAT_V1) with x01. unfold RELAY_CLIENT_MAGIC. cbn [replicate app].
  set (buf := x00 :: _). unfold try_decode_relay_client_lease_from_bytes.
  rewrite !(proj2 (Z.ltb_ge (zlen buf) _)) by (unfold buf, RELAY_CLIENT_LEASE_SIZE; cbn [length]; lia).
  change (slice buf 9 13) with RELAY_CLIENT_MAGIC. rewrite bool_decide_eq_true_2 by done.
  change (u32_at buf 0) with (RELAY_CLIENT_LEASE_SIZE - 4). rewrite Z.eqb_refl.
  change (slice buf 4 9) with [x00; x00; x00; x00; x00]. rewrite bool_decide_eq_true_2 by done.
  change (u8_at buf 13) with RELAY_LEASE_FORMAT_V1. rewrite Z.eqb_refl.
  change (u8_at buf 14) with (be_value [byte_of_Z ev]). rewrite Hb, Z.eqb_refl.
  change (slice buf 15 17) with [x00; x00]. rewrite bool_decide_eq_true_2 by done. cbn [negb orb].
  change (u32_at (slice buf 0 RELAY_CLIENT_LEASE_SIZE) 17) with (be_value [s0; s1; s2; s3]). rewrite Hsv.
  change (u32_at (slice buf 0 RELAY_CLIENT_LEASE_SIZE) 21) with (be_value [e0; e1; e2; e3]). rewrite Hev'.
  reflexivity.
Qed.

Lemma decode_lease_sound ev bytes rest l :
  try_decode_relay_client_lease_from_bytes bytes ev = (rest, Ok (Some l)) ->
  lease_ok l /\ bytes = encode_relay_client_lease ev l ++ rest.
Proof.
  unfold try_decode_relay_client_lease_from_bytes, RELAY_CLIENT_LEASE_SIZE.
  destruct (zlen bytes <? 13); [done|]. destruct (negb _) eqn:Hm; [done|].
  destruct (zlen bytes <? 41) eqn:Hlen; [done|]. destruct (_ || _) eqn:Hc; [done|].
  do 4 (apply orb_false_iff in Hc as [Hc ?]). breflect. intros Heq.
  pose proof (u32_at_fits (slice bytes 0 41) 17) as Hf1. pose proof (u32_at_fits (slice bytes 0 41) 21) as Hf2.
  do 41 (destruct bytes as [|? bytes]; [cbn [length] in *; lia|]).
  unfold slice in Hm, H0, H3. injection Hm as -> -> -> ->. injection H0 as -> ->.
  injection H3 as -> -> -> -> ->.
  apply byte_of_value in H1 as ->. apply byte_of_value in H2 as ->.
  injection Heq as <- <-. split; [split; [exact Hf1|split; [exact Hf2|reflexivity]]|].
  unfold encode_relay_client_lease. cbn [rcc_id_start rcc_id_end_exclusive rcc_incarnation].
  match goal with |- context [be_bytes 4 (u32_at ?l 17)] =>
    replace (be_bytes 4 (u32_at l 17)) with (take 4 (drop 17 l)) by (symmetry; apply be_value_cat4);
    replace (be_bytes 4 (u32_at l 21)) with (take 4 (drop 21 l)) by (symmetry; apply be_value_cat4)
  end.
  change (RELAY_CLIENT_LEASE_SIZE - 4) with (41 - 4). rewrite <- Hc.
  match goal with |- context [be_bytes 4 (u32_at ?l 0)] =>
    replace (be_bytes 4 (u32_at l 0)) with (take 4 l) by (symmetry; apply be_value_cat4) end.
  reflexivity.
Qed.

Lemma decode_binding_iff bytes magic label id :
  length magic = 4%nat ->
  decode_binding bytes magic label = Ok id <-> length id = 16%nat /\ bytes = encode_binding magic id.
Proof.
  intros Hmg. unfold decode_binding, encode_binding, BULK_BINDING_SIZE. split.
  - destruct (negb (_ =? 24)) eqn:H24; [done|]. destruct (negb (bool_decide (slice bytes 0 4 = _))) eqn:Hm; [done|].
    destruct (negb (u8_at bytes 4 =? _)) eqn:H4; [done|]. destruct (negb (u8_at bytes 5 =? _)) eqn:H5; [done|].
    destruct (negb (bool_decide (slice bytes 6 8 = _))) eqn:H6; [done|]. breflect. intros Heq.
    do 24 (destruct bytes as [|? bytes]; [cbn [length] in *; lia|]). destruct bytes; [|cbn [length] in *; lia].
    unfold slice in H6. injection H6 as -> ->. apply byte_of_value in H4 as ->. apply byte_of_value in H5 as ->.
    subst magic. by injection Heq as <-.
  - intros [Hid ->]. do 16 (destruct id as [|? id]; [done|]). destruct id; [|done].
    do 4 (destruct magic as [|? magic]; [done|]). destruct magic; [|done].
    cbn [app]. set (bytes := b15 :: _). change (slice bytes 0 4) with [b15; b16; b17; b18].
    rewrite (bool_decide_eq_true_2 (_ = [b15; _; _; _])) by done. reflexivity.
Qed.

(** The bulk-lane decoder strips the incarnation and decodes the frame. *)
Lemma u32_at_app (inc l : list byte) i : u32_at (inc ++ l) (zlen inc + Z.of_nat i) = u32_at l (Z.of_nat i).
Proof.
  unfold u32_at. f_equal. f_equal. rewrite drop_app_ge by lia. f_equal. lia.
Qed.

Lemma incarnated_wire inc f rest :
  length inc = 16%nat -> valid_frame f -> BULK_HEADER_SIZE + 1 <= zlen (rf_body f) ->
  try_decode_incarnated_bulk_from_bytes (inc ++ wire f ++ rest)
  = (rest, if negb (rf_flags f =? FLAG_BULK) then Err (InvalidBulkFrame LaneNonBulk)
           else match decode_bulk_body (rf_id f) (rf_body f) MAX_BULK_RECORD_PAYLOAD with
                | Err e => Err e
                | Ok record => Ok (Some (mkIncarnated inc (wire f) record))
                end).
Proof.
  intros Hi Hv Hb. pose proof (length_wire f) as Hw. pose proof Hv as (_ & _ & Hs).
  destruct (wire_fields f rest Hv) as (H1 & _). destruct (wire_fields f [] Hv) as (_ & H2 & H3 & _).
  rewrite app_nil_r in H2, H3. unfold try_decode_incarnated_bulk_from_bytes, CLIENT_INCARNATION_SIZE.
  unfold BULK_HEADER_SIZE, FRAME_HEADER_SIZE in *.
  rewrite (proj2 (Z.ltb_ge (zlen _) (16 + 4))) by (rewrite !length_app; lia).
  replace (u32_at (inc ++ wire f ++ rest) 16) with (5 + zlen (rf_body f))
    by (rewrite <- H1; symmetry; rewrite <- (u32_at_app inc _ 0); f_equal; lia).
  rewrite !(proj2 (Z.ltb_ge _ _)) by (rewrite ?length_app; lia).
  assert (slice (inc ++ wire f ++ rest) 0 (16 + 4 + (5 + zlen (rf_body f))) = inc ++ wire f) as ->.
  { unfold slice. change (Z.to_nat 0) with 0%nat. rewrite drop_0, app_assoc. apply take_app_length'.
    rewrite length_app. lia. }
  rewrite (drop_app_length' inc (wire f)) by (rewrite Hi; done).
  assert (slice (inc ++ wire f) 0 16 = inc) as ->.
  { unfold slice. change (Z.to_nat 0) with 0%nat. rewrite drop_0. apply take_app_length'. by rewrite Hi. }
  assert (drop (Z.to_nat (16 + 4 + (5 + zlen (rf_body f)))) (inc ++ wire f ++ rest) = rest) as ->.
  { rewrite app_assoc. apply drop_app_length'. rewrite length_app. lia. }
  assert (drop (Z.to_nat (4 + 5)) (wire f) = rf_body f) as ->.
  { unfold wire. apply drop_app_length'. by rewrite length_frame_header. }
  rewrite H2, H3. destruct (negb _); [done|]. by destruct (decode_bulk_body _ _ _).
Qed.

(** A complete packet is an incarnation followed by a raw frame. *)
Lemma incarnated_packet bytes rest x :
  try_decode_incarnated_bulk_from_bytes bytes = (rest, Ok (Some x)) ->
  exists inc f rest', length inc = 16%nat /\ valid_frame f /\ BULK_HEADER_SIZE + 1 <= zlen (rf_body f)
    /\ bytes = inc ++ wire f ++ rest'.
Proof.
  unfold try_decode_incarnated_bulk_from_bytes, CLIENT_INCARNATION_SIZE.
  destruct (zlen bytes <? 16 + 4) eqn:H20; [done|]. destruct (MAX_FRAME_SIZE <? _) eqn:Hmax; [done|].
  destruct (u32_at bytes 16 <? _) eqn:Hmin; [done|]. destruct (zlen bytes <? 16 + 4 + u32_at bytes 16) eqn:Htot; [done|]. intros _.
  breflect. pose proof (take_drop 16 bytes) as Hsplit.
  assert (length (take 16 bytes) = 16%nat) as Hl by (rewrite length_take; lia).
  set (inc := take 16 bytes) in *. set (l := drop 16 bytes) in *. clearbody inc l. subst bytes.
  rewrite length_app in *. unfold BULK_HEADER_SIZE, FRAME_HEADER_SIZE in *.
  replace (u32_at (inc ++ l) 16) with (u32_at l 0) in *
    by (symmetry; rewrite <- (u32_at_app inc _ 0); f_equal; lia).
  destruct (try_decode_raw_from_buf l) as [l' [[f|]|e]] eqn:E.
  - apply decode_raw_sound in E as [Hv ->]. destruct (wire_fields f l' Hv) as (H1 & _).
    exists inc, f, l'. unfold FRAME_HEADER_SIZE in *. split; [done|]. split; [done|]. split; [lia|done].
  - unfold try_decode_raw_from_buf, FRAME_HEADER_SIZE in E.
    rewrite !(proj2 (Z.ltb_ge _ _)) in E by lia. done.
  - unfold try_decode_raw_from_buf, FRAME_HEADER_SIZE in E.
    rewrite !(proj2 (Z.ltb_ge _ _)) in E by lia. done.
Qed.

(** ** Properties *)

(** Relay client slots own disjoint ranges of correlation ids: every slot
    below the limit has a non-empty range of 32-bit ids above zero, an id is
    attributed to a slot exactly when it lies in that slot's range, no id lies
    in the ranges of two slots, and a pair of bounds is accepted exactly when
    it is the range of the slot returned. *)
Lemma relay_ranges_partition :
  (forall slot, 0 <= slot < AGENT_RELAY_MAX_CLIENTS ->
     exists lo hi, relay_client_id_range slot = Some (lo, hi) /\ 0 < lo < hi /\ fits 32 hi)
  /\ (forall id slot, 0 <= id ->
     (relay_client_slot id = Some slot
      <-> exists lo hi, 0 <= slot /\ relay_client_id_range slot = Some (lo, hi) /\ lo <= id < hi))
  /\ (forall id s1 lo1 hi1 s2 lo2 hi2, 0 <= s1 -> 0 <= s2 ->
     relay_client_id_range s1 = Some (lo1, hi1) -> lo1 <= id < hi1 ->
     relay_client_id_range s2 = Some (lo2, hi2) -> lo2 <= id < hi2 -> s1 = s2)
  /\ (forall lo hi slot, 0 <= lo ->
     (validate_relay_client_range lo hi = Some slot
      <-> 0 <= slot /\ relay_client_id_range slot = Some (lo, hi))).
Proof.
  split; [|split; [exact relay_client_slot_Some|split]].
  - intros slot Hs. do 2 eexists. split.
    { apply relay_client_id_range_Some; [lia|]. split; [lia|]. split; reflexivity. }
    rewrite relay_range_step. unfold fits, AGENT_RELAY_MAX_CLIENTS in *. lia.
  - intros id s1 lo1 hi1 s2 lo2 hi2 H1 H2 E1 Hin1 E2 Hin2.
    apply relay_client_id_range_Some in E1 as (? & -> & ->); [|done].
    apply relay_client_id_range_Some in E2 as (? & -> & ->); [|done]. rewrite relay_range_step in *. lia.
  - intros lo hi slot Hlo. unfold validate_relay_client_range. split.
    + destruct (relay_client_slot lo) as [s|] eqn:E; [|done]. case_bool_decide as Hr; [|done].
      intros [= <-]. split; [|done]. by apply relay_client_slot_Some in E as (? & ? & ? & _).
    + intros [Hs Hr]. assert (relay_client_slot lo = Some slot) as ->.
      { apply relay_client_slot_Some; [done|]. exists lo, hi. split; [done|]. split; [done|].
        apply relay_client_id_range_Some in Hr as (? & -> & ->); [|done]. rewrite relay_range_step. lia. }
      by rewrite bool_decide_eq_true_2.
Qed.

(** Lease records are read exactly as written: a buffer yields a connected
    record (or a disconnect acknowledgement) and a rest exactly when it is the
    encoding of that record followed by the rest; a record of the other event
    is refused without being consumed; and a buffer whose body does not start
    with the lease magic is left to the ordinary frame decoder. *)
Lemma relay_lease_exact bytes rest :
  (forall c, try_decode_relay_client_connected_from_bytes bytes = (rest, Ok (Some c))
     <-> lease_ok c /\ bytes = encode_relay_client_connected c ++ rest)
  /\ (forall a, try_decode_relay_client_disconnected_ack_from_bytes bytes = (rest, Ok (Some a))
     <-> lease_ok (mkConnected (rda_id_start a) (rda_id_end_exclusive a) (rda_incarnation a))
         /\ bytes = encode_relay_client_disconnected_ack a ++ rest)
  /\ (forall c, length (rcc_incarnation c) = 16%nat ->
     try_decode_relay_client_disconnected_ack_from_bytes (encode_relay_client_connected c ++ rest)
     = (encode_relay_client_connected c ++ rest, Err (InvalidBulkBinding MalformedLease)))
  /\ (slice bytes 9 13 <> RELAY_CLIENT_MAGIC ->
     try_decode_relay_client_connected_from_bytes bytes = (bytes, Ok None)
     /\ try_decode_relay_client_disconnected_ack_from_bytes bytes = (bytes, Ok None)).
Proof.
  unfold try_decode_relay_client_connected_from_bytes, try_decode_relay_client_disconnected_ack_from_bytes.
  split; [|split; [|split]].
  - intros c. split; [apply decode_lease_sound|]. intros [Hok ->]. by apply decode_lease_encoded.
  - intros a. split.
    + destruct (try_decode_relay_client_lease_from_bytes _ _) as [b [[l|]|e]] eqn:E; [|done|done].
      intros [= <- <-]. apply decode_lease_sound in E. destruct l; exact E.
    + intros [Hok ->]. unfold encode_relay_client_disconnected_ack. rewrite decode_lease_encoded by done.
      by destruct a.
  - intros c Hc. unfold try_decode_relay_client_lease_from_bytes. set (buf := _ ++ rest).
    assert (41 <= zlen buf) as Hl.
    { unfold buf, encode_relay_client_connected, encode_relay_client_lease. rewrite !length_app, !length_be_bytes.
      unfold RELAY_CLIENT_MAGIC; cbn [length replicate]. lia. }
    rewrite !(proj2 (Z.ltb_ge (zlen buf) _)) by (unfold RELAY_CLIENT_LEASE_SIZE; lia).
    change (slice buf 9 13) with RELAY_CLIENT_MAGIC. rewrite bool_decide_eq_true_2 by done. cbn [negb].
    change (u8_at buf 14) with 1. change (1 =? RELAY_CLIENT_DISCONNECTED_ACK) with false.
    cbn [negb]. by rewrite !orb_true_r.
  - intros Hm. unfold try_decode_relay_client_lease_from_bytes. rewrite bool_decide_eq_false_2 by done.
    cbn [negb]. by destruct (zlen bytes <? 13).
Qed.

(** The bulk lane yields an incarnation, a frame and a record exactly when
    the buffer is that 16-byte incarnation followed by the frame and the rest,
    and the frame is the encoding of the legal record: the frame handed on to
    the client is byte for byte the one its sender encoded. *)
Lemma incarnated_bulk_exact bytes rest inc frame r :
  fits 32 (br_id r) -> fits 64 (br_offset r) ->
  try_decode_incarnated_bulk_from_bytes bytes = (rest, Ok (Some (mkIncarnated inc frame r)))
  <-> length inc = 16%nat /\ encode_bulk_to_buf r [] = Ok frame /\ bytes = inc ++ frame ++ rest.
Proof.
  intros Hid Hof. split.
  - intros Hd. destruct (incarnated_packet _ _ _ Hd) as (inc' & f & rest' & Hl & Hv & Hb & ->).
    rewrite incarnated_wire in Hd by done. destruct (negb (rf_flags f =? FLAG_BULK)) eqn:Hf; [done|].
    destruct (decode_bulk_body _ _ _) as [r'|] eqn:E; [|done]. breflect.
    injection Hd as -> -> <- ->. pose proof Hv as (Hfid & _).
    apply decode_bulk_body_sound in E as (Hrid & Hr & Hbody); [|done].
    rewrite encode_bulk_wire by done. cbn [app].
    assert (f = bulk_frame r) as -> by (destruct f; cbn in *; unfold bulk_frame; by subst). done.
  - intros (Hl & He & ->).
    assert (valid_record r) as Hr by (apply (encode_bulk_Ok_valid r [] frame); done).
    rewrite encode_bulk_wire in He by done. injection He as <-. cbn [app].
    rewrite incarnated_wire; [|done|by apply bulk_frame_valid|].
    + cbn [rf_flags rf_id rf_body bulk_frame]. rewrite Z.eqb_refl. cbn [negb].
      pose proof Hr as (_ & _ & _ & Hpl). rewrite decode_bulk_body_ok; [done|done|by vm_compute|lia].
    + cbn [rf_body bulk_frame]. rewrite length_bulk_body. destruct Hr as (_ & _ & _ & Hpl). lia.
Qed.

(** The bulk-port handshake accepts exactly the encodings of 16-byte
    identities: a hello decodes to an identity exactly when it encodes it, an
    acknowledgement is accepted exactly when it encodes the expected identity,
    and the readiness advertisement built for an identity is the only one
    validated against it. *)
Lemma bulk_handshake_exact bytes id ready :
  (decode_bulk_hello bytes = Ok id <-> length id = 16%nat /\ bytes = encode_bulk_hello id)
  /\ (length id = 16%nat -> (decode_bulk_ack bytes id = Ok tt <-> bytes = encode_bulk_ack id))
  /\ (validate_dual_port_v1 ready id = Ok tt <-> ready = dual_port_v1 id).
Proof.
  split; [by apply decode_binding_iff|]. split.
  - intros Hl. unfold decode_bulk_ack.
    pose proof (fun id => decode_binding_iff bytes BULK_ACK_MAGIC ack_label id eq_refl) as Hiff.
    destruct (decode_binding bytes BULK_ACK_MAGIC ack_label) as [id'|e] eqn:E.
    + destruct (proj1 (Hiff id') eq_refl) as [Hl' ->]. case_bool_decide as Heq; cbn [negb].
      * by subst id'.
      * split; [done|]. unfold encode_binding, encode_bulk_ack, encode_binding. intros Ha.
        by apply app_inv_head, app_inv_head in Ha.
    + split; [done|]. intros ->. discriminate (proj2 (Hiff id) (conj Hl eq_refl)).
  - unfold validate_dual_port_v1, dual_port_v1. destruct ready as [pr po ci].
    cbn [btr_profile btr_port btr_connection_id]. repeat case_bool_decide; cbn [negb]; split; congruence.
Qed.

End TransportProofs.

(** ** Witnesses *)

Definition demo_incarnation : list byte := replicate 16 x07.
Definition demo_lease : RelayClientConnected := mkConnected 1 33554431 demo_incarnation.

Lemma relay_ranges_partition_witness :
  relay_client_slot 33554432 = Some 1 /\ validate_relay_client_range 33554432 67108862 = Some 1.
Proof.
  destruct relay_ranges_partition as (_ & Hslot & _ & Hval). split.
  - apply Hslot; [lia|]. exists 33554432, 67108862. split; [lia|]. split; [reflexivity|lia].
  - apply Hval; [lia|]. split; [lia|reflexivity].
Defined.

Lemma relay_lease_exact_witness :
  try_decode_relay_client_connected_from_bytes (H := ToyCbor.cbor)
    (encode_relay_client_connected demo_lease ++ [x01; x02])
  = ([x01; x02], Ok (Some demo_lease)).
Proof.
  apply (proj1 (@relay_lease_exact ToyCbor.cbor (encode_relay_client_connected demo_lease ++ [x01; x02]) [x01; x02])).
  split; [|reflexivity]. split; [vm_compute; split; congruence|]. split; [vm_compute; split; congruence|reflexivity].
Defined.

Lemma incarnated_bulk_exact_witness :
  exists frame, encode_bulk_to_buf (H := ToyCbor.cbor) demo_record [] = Ok frame
  /\ try_decode_incarnated_bulk_from_bytes (H := ToyCbor.cbor) (demo_incarnation ++ frame ++ [x01])
     = ([x01], Ok (Some (mkIncarnated demo_incarnation frame demo_record))).
Proof.
  destruct (encode_bulk_to_buf (H := ToyCbor.cbor) demo_record []) as [frame|e] eqn:E;
    [|vm_compute in E; discriminate].
  exists frame. split; [reflexivity|].
  apply (@incarnated_bulk_exact ToyCbor.cbor);
    [vm_compute; split; congruence|vm_compute; split; congruence|].
  split; [reflexivity|]. split; [exact E|reflexivity].
Defined.

Lemma bulk_handshake_exact_witness :
  decode_bulk_ack (H := ToyCbor.cbor) (encode_bulk_ack demo_incarnation) demo_incarnation = Ok tt.
Proof.
  apply (proj1 (proj2 (@bulk_handshake_exact ToyCbor.cbor (encode_bulk_ack demo_incarnation) demo_incarnation
                         (dual_port_v1 demo_incarnation)))); reflexivity.
Defined.
