(* ===== verification/ExecAdmission.v ===== *)
(** * Execution admission at the relay

    Models [crates/runtime/lib/runner/relay/exec_admission.rs] (the tracker that
    enforces the guest's execution limits on client and guest traffic) and the
    limits of [packages/microsandbox-types/rust/lib/exec.rs].

    The tracker's state is the content of its mutex and the permit of its
    [Notify]; every method is a function from that state to the next one and a
    result, on error paths too.  A [ControlWrite] is its data and the routing
    fields this file never looks at.  The CBOR payload decoders are a class
    parameter, and the [admit] closure of [take_input] an argument with its own
    state. *)

From S2P Require Import Prelude Message Bulk Codec.

(** ** Limits *)

Definition EXEC_OUTPUT_EVENT_OVERHEAD : Z := 256.
Definition MAX_EXEC_CONTROL_BYTES : Z := 4096.
Definition MAX_CHUNK_SIZE : Z := 4 * 1024 * 1024 - 1024.

Record ExecLimits := mkLimits {
  max_executions : Z; input_limit : Z; output_limit : Z;
  stdin_chunk_size : Z; output_chunk_size : Z }.

Definition default_limits : ExecLimits :=
  mkLimits 128 (64 * 1024) (1024 * 1024) (16 * 1024) (16 * 1024).

Inductive limits_error := ChunksExceedFrame | NoExecutions | BadStdinChunk | BadOutputChunk.

Definition limits_validate (l : ExecLimits) : result limits_error unit :=
  if (MAX_CHUNK_SIZE <? stdin_chunk_size l) || (MAX_CHUNK_SIZE <? output_chunk_size l) then
    Err ChunksExceedFrame
  else if max_executions l =? 0 then Err NoExecutions
  else if (stdin_chunk_size l =? 0) || (input_limit l <? stdin_chunk_size l) then Err BadStdinChunk
  else
    let output_charge := checked_add 32 (output_chunk_size l) EXEC_OUTPUT_EVENT_OVERHEAD in
    if (output_chunk_size l =? 0)
       || match output_charge with Some n => output_limit l <? n | None => true end
    then Err BadOutputChunk
    else Ok tt.

(** ** Payloads *)

(** [ciborium] on the payloads the tracker reads and writes: the length of a
    data field, stdin data, the two acknowledgement offsets, the offending type
    of a [CoreError]. *)
Class ExecPayloads := {
  PayloadError : Type;
  decode_data_length : list byte -> result PayloadError Z;
  decode_exec_stdin : list byte -> result PayloadError (list byte);
  decode_stdin_ack : list byte -> result PayloadError Z;
  decode_output_ack : list byte -> result PayloadError Z;
  decode_offending_type : list byte -> result PayloadError (option string);
  encode_exec_stdin : list byte -> result PayloadError (list byte)
}.

(** ** State *)

Record ControlWrite (R : Type) := mkWrite { cw_data : list byte; cw_routing : R }.
Arguments mkWrite {R}.
Arguments cw_data {R}.
Arguments cw_routing {R}.

Record PendingInput (R : Type) := mkPending {
  pi_write : ControlWrite R; pi_version : Z; pi_payload : option (list byte) }.
Arguments mkPending {R}.
Arguments pi_write {R}.
Arguments pi_version {R}.
Arguments pi_payload {R}.

Record Session (R : Type) := mkSession {
  input_closed : bool;
  pending_input : list (PendingInput R);
  started : bool;
  eof : bool;
  input_sent : Z;
  input_consumed : Z;
  output_sent : Z;
  output_consumed : Z }.
Arguments mkSession {R}.
Arguments input_closed {R}.
Arguments pending_input {R}.
Arguments started {R}.
Arguments eof {R}.
Arguments input_sent {R}.
Arguments input_consumed {R}.
Arguments output_sent {R}.
Arguments output_consumed {R}.

Definition default_session {R} : Session R := mkSession false [] false false 0 0 0 0.

Record State (R : Type) := mkState {
  policy : option ExecLimits;
  sessions : gmap Z (Session R);
  ready_inputs : list Z;
  notified : bool }.
Arguments mkState {R}.
Arguments policy {R}.
Arguments sessions {R}.
Arguments ready_inputs {R}.
Arguments notified {R}.

Definition default_state {R} : State R := mkState None ∅ [] false.

Inductive Admission := Accepted | Legacy | Full.

(** Field updates. *)
Definition set_pending {R} (s : Session R) (p : list (PendingInput R)) : Session R :=
  mkSession (input_closed s) p (started s) (eof s) (input_sent s) (input_consumed s)
    (output_sent s) (output_consumed s).
Definition set_input {R} (s : Session R) (sent : Z) (e : bool) : Session R :=
  mkSession (input_closed s) (pending_input s) (started s) e sent (input_consumed s)
    (output_sent s) (output_consumed s).
Definition set_input_consumed {R} (s : Session R) (c : Z) : Session R :=
  mkSession (input_closed s) (pending_input s) (started s) (eof s) (input_sent s) c
    (output_sent s) (output_consumed s).
Definition set_output_sent {R} (s : Session R) (c : Z) : Session R :=
  mkSession (input_closed s) (pending_input s) (started s) (eof s) (input_sent s) (input_consumed s)
    c (output_consumed s).
Definition set_output_consumed {R} (s : Session R) (c : Z) : Session R :=
  mkSession (input_closed s) (pending_input s) (started s) (eof s) (input_sent s) (input_consumed s)
    (output_sent s) c.
Definition set_started {R} (s : Session R) : Session R :=
  mkSession (input_closed s) (pending_input s) true (eof s) (input_sent s) (input_consumed s)
    (output_sent s) (output_consumed s).
Definition set_cancelled {R} (s : Session R) : Session R :=
  mkSession true [] (started s) (eof s) (input_sent s) (input_consumed s)
    (output_sent s) (output_consumed s).

Definition put_session {R} (st : State R) (id : Z) (s : Session R) : State R :=
  mkState (policy st) (<[id := s]> (sessions st)) (ready_inputs st) (notified st).
Definition set_ready {R} (st : State R) (q : list Z) : State R :=
  mkState (policy st) (sessions st) q (notified st).
Definition notify_one {R} (st : State R) : State R :=
  mkState (policy st) (sessions st) (ready_inputs st) true.
Definition drop_session {R} (st : State R) (id : Z) : State R :=
  mkState (policy st) (delete id (sessions st)) (filter (fun x => x <> id) (ready_inputs st)) (notified st).

Inductive exec_error (P C : Type) :=
| PolicyInvalid (why : limits_error)
| AlreadyActive
| PolicyUnavailable
| BadPayload (e : P)
| BadEncoding (e : ProtocolError C)
| AdmitFailed (why : string)
| StdinOutOfOrder
| InputOverflow
| StdinExceeds
| InvalidAck
| OutputOverflow
| OutputExceeds
| NeedsCleanup
| ControlTooLarge.
Arguments PolicyInvalid {P C}.
Arguments AlreadyActive {P C}.
Arguments PolicyUnavailable {P C}.
Arguments BadPayload {P C}.
Arguments BadEncoding {P C}.
Arguments AdmitFailed {P C}.
Arguments StdinOutOfOrder {P C}.
Arguments InputOverflow {P C}.
Arguments StdinExceeds {P C}.
Arguments InvalidAck {P C}.
Arguments OutputOverflow {P C}.
Arguments OutputExceeds {P C}.
Arguments NeedsCleanup {P C}.
Arguments ControlTooLarge {P C}.

Section ExecAdmission.
Context `{Cbor} `{ExecPayloads} {R : Type}.
Abbreviation err := (exec_error PayloadError CborError).
Abbreviation res A := (result err A).
Abbreviation state := (State R).
Abbreviation session := (Session R).

Definition payload {A} (r : result PayloadError A) : res A :=
  match r with Ok a => Ok a | Err e => Err (BadPayload e) end.

Definition acknowledge (previous consumed sent : Z) : res Z :=
  if (consumed <? previous) || (sent <? consumed) then Err InvalidAck else Ok consumed.

Definition validate_control (message : Message) (wire_len : Z) : res unit :=
  if is_exec_control (msg_t message) && (MAX_EXEC_CONTROL_BYTES <? wire_len) then Err ControlTooLarge
  else Ok tt.

Definition install (st : state) (p : option ExecLimits) : state * res unit :=
  match match p with Some l => limits_validate l | None => Ok tt end with
  | Err e => (st, Err (PolicyInvalid e))
  | Ok _ => (mkState p (sessions st) (ready_inputs st) (notified st), Ok tt)
  end.

Definition tracker_admit (st : state) (request : Message) : state * res Admission :=
  match match policy st with Some p => if 10 <=? msg_v request then Some p else None | None => None end with
  | None => (st, Ok Legacy)
  | Some p =>
      if bool_decide (is_Some (sessions st !! msg_id request)) then (st, Err AlreadyActive)
      else if max_executions p <=? Z.of_nat (size (sessions st)) then (st, Ok Full)
      else (put_session st (msg_id request) default_session, Ok Accepted)
  end.

Definition tracker_contains (st : state) (id : Z) : bool := bool_decide (is_Some (sessions st !! id)).

Definition routes_input (st : state) (message : Message) : bool :=
  match policy st with
  | Some _ => (10 <=? msg_v message) || tracker_contains st (msg_id message)
  | None => false
  end.

Definition has_pending_input (st : state) : bool := negb (bool_decide (ready_inputs st = [])).

(** The mutable tail a small write may be merged into. *)
Definition coalescing_tail (s : session) : option (list (PendingInput R) * PendingInput R * list byte) :=
  match last (pending_input s) with
  | Some input =>
      match pi_payload input with
      | Some data => Some (take (length (pending_input s) - 1) (pending_input s), input, data)
      | None => None
      end
  | None => None
  end.

Definition push_input (st : state) (p : ExecLimits) (s : session) (write : ControlWrite R)
    (message : Message) (payload_len : Z) : state * res unit :=
  let was_empty := bool_decide (pending_input s = []) in
  match (if negb was_empty && negb (payload_len =? 0) && (payload_len <? stdin_chunk_size p)
         then let? data := payload (decode_exec_stdin (msg_p message)) in Ok (Some data)
         else Ok None) with
  | Err e => (st, Err e)
  | Ok data =>
      let write := match data with Some _ => mkWrite [] (cw_routing write) | None => write end in
      let s' := set_pending s (pending_input s ++ [mkPending write (msg_v message) data]) in
      let st' := put_session st (msg_id message) s' in
      let st' := if was_empty then set_ready st' (ready_inputs st' ++ [msg_id message]) else st' in
      (notify_one st', Ok tt)
  end.

Definition enqueue_input (st : state) (write : ControlWrite R) (message : Message) (payload_len : Z)
  : state * res unit :=
  match policy st with
  | None => (st, Err PolicyUnavailable)
  | Some p =>
      match sessions st !! msg_id message with
      | None => (st, Ok tt)
      | Some s =>
          if input_closed s then (st, Ok tt)
          else match coalescing_tail s with
          | Some (before, input, data) =>
              if negb (payload_len =? 0) && (zlen data + payload_len <=? stdin_chunk_size p) then
                match payload (decode_exec_stdin (msg_p message)) with
                | Err e => (st, Err e)
                | Ok more =>
                    let input' := mkPending (pi_write input) (pi_version input) (Some (data ++ more)) in
                    (notify_one (put_session st (msg_id message) (set_pending s (before ++ [input']))), Ok tt)
                end
              else push_input st p s write message payload_len
          | None => push_input st p s write message payload_len
          end
      end
  end.

(** [input.payload.take()] and its encoding into the frame.  The payload is
    gone even when the encoding fails. *)
Definition freeze_input (id : Z) (input : PendingInput R) : PendingInput R * res unit :=
  match pi_payload input with
  | None => (input, Ok tt)
  | Some data =>
      let taken := mkPending (pi_write input) (pi_version input) None in
      match (let? p := payload (encode_exec_stdin data) in
             let m := message_new MtExecStdin id p in
             let m := mkMessage (pi_version input) (msg_t m) (msg_id m) (msg_flags m) (msg_p m) (msg_maintenance m) in
             match encode_to_buf m [] with Ok wire => Ok wire | Err e => Err (BadEncoding e) end) with
      | Err e => (taken, Err e)
      | Ok wire => (mkPending (mkWrite wire (cw_routing (pi_write input))) (pi_version input) None, Ok tt)
      end
  end.

(** The loop of [take_input]: [n] iterations are left, and [w] is the state of
    the caller's closure. *)
Section TakeInput.
Context {W : Type} (ctl_admit : W -> ControlWrite R -> W * (ControlWrite R * result string bool)).

Fixpoint take_input_loop (n : nat) (st : state) (w : W) : state * W * res (option (ControlWrite R)) :=
  match n with
  | O => (st, w, Ok None)
  | S n' =>
      match ready_inputs st with
      | [] => (st, w, Ok None)
      | id :: q =>
          let st := set_ready st q in
          match sessions st !! id with
          | None => take_input_loop n' st w
          | Some s =>
              match pending_input s with
              | [] => take_input_loop n' st w
              | input :: rest =>
                  match freeze_input id input with
                  | (input, Err e) => (put_session st id (set_pending s (input :: rest)), w, Err e)
                  | (input, Ok _) =>
                      match ctl_admit w (pi_write input) with
                      | (w, (write, Err why)) =>
                          let input := mkPending write (pi_version input) (pi_payload input) in
                          (put_session st id (set_pending s (input :: rest)), w, Err (AdmitFailed why))
                      | (w, (write, Ok admitted)) =>
                          let input := mkPending write (pi_version input) (pi_payload input) in
                          let pending := if admitted then rest else input :: rest in
                          let st := put_session st id (set_pending s pending) in
                          let st := if bool_decide (pending = []) then st
                                    else set_ready st (ready_inputs st ++ [id]) in
                          if admitted then (st, w, Ok (Some write)) else take_input_loop n' st w
                      end
                  end
              end
          end
      end
  end.

Definition take_input (st : state) (w : W) : state * W * res (option (ControlWrite R)) :=
  take_input_loop (length (ready_inputs st)) st w.

End TakeInput.

(** [input_changed] completes when a permit is available, and takes it. *)
Definition input_changed (st : state) : option state :=
  if notified st then Some (mkState (policy st) (sessions st) (ready_inputs st) false) else None.

Definition in_range (start stop id : Z) : bool := (start <=? id) && (id <? stop).

Definition cancel_input (st : state) (start stop : Z) : state :=
  mkState (policy st)
    (map_imap (fun id s => Some (if in_range start stop id then set_cancelled s else s)) (sessions st))
    (filter (fun id => in_range start stop id = false) (ready_inputs st)) (notified st).

Definition client_message (st : state) (message : Message) (wire_len : Z) : state * res (option Z) :=
  match validate_control message wire_len with
  | Err e => (st, Err e)
  | Ok _ =>
      match policy st, sessions st !! msg_id message with
      | Some p, Some s =>
          match msg_t message with
          | MtExecStdin =>
              match payload (decode_data_length (msg_p message)) with
              | Err e => (st, Err e)
              | Ok data =>
                  if negb (started s) || eof s then (st, Err StdinOutOfOrder)
                  else match checked_add 64 (input_sent s) data with
                  | None => (st, Err InputOverflow)
                  | Some sent =>
                      if (stdin_chunk_size p <? data) || (input_limit p <? sent - input_consumed s) then
                        (st, Err StdinExceeds)
                      else (put_session st (msg_id message) (set_input s sent (data =? 0)), Ok (Some data))
                  end
              end
          | MtExecOutputAck =>
              match (let? consumed := payload (decode_output_ack (msg_p message)) in
                     acknowledge (output_consumed s) consumed (output_sent s)) with
              | Err e => (st, Err e)
              | Ok consumed => (put_session st (msg_id message) (set_output_consumed s consumed), Ok None)
              end
          | _ => (st, Ok None)
          end
      | _, _ => (st, Ok None)
      end
  end.

(** The [ExecStdout | ExecStderr] arm. *)
Definition charge_output (st : state) (p : ExecLimits) (s : session) (message : Message) : state * res unit :=
  match payload (decode_data_length (msg_p message)) with
  | Err e => (st, Err e)
  | Ok length =>
      match checked_add 64 (output_sent s) (length + EXEC_OUTPUT_EVENT_OVERHEAD) with
      | None => (st, Err OutputOverflow)
      | Some sent =>
          if (output_chunk_size p <? length) || (output_limit p <? sent - output_consumed s) then
            (st, Err OutputExceeds)
          else (put_session st (msg_id message) (set_output_sent s sent), Ok tt)
      end
  end.

Definition guest_message (st : state) (message : Message) (wire_len : Z) : state * res unit :=
  match validate_control message wire_len with
  | Err e => (st, Err e)
  | Ok _ =>
      match policy st, sessions st !! msg_id message with
      | Some p, Some s =>
          match msg_t message with
          | MtExecStarted => (put_session st (msg_id message) (set_started s), Ok tt)
          | MtExecStdinAck =>
              match (let? consumed := payload (decode_stdin_ack (msg_p message)) in
                     acknowledge (input_consumed s) consumed (input_sent s)) with
              | Err e => (st, Err e)
              | Ok consumed => (put_session st (msg_id message) (set_input_consumed s consumed), Ok tt)
              end
          | MtExecStdout | MtExecStderr => charge_output st p s message
          | MtExecExited | MtExecFailed => (drop_session st (msg_id message), Ok tt)
          | MtCoreError =>
              match payload (decode_offending_type (msg_p message)) with
              | Err e => (st, Err e)
              | Ok offending =>
                  if started s
                     || negb (bool_decide (offending = Some (message_type_as_str MtExecRequest)))
                  then (st, Err NeedsCleanup)
                  else (drop_session st (msg_id message), Ok tt)
              end
          | _ => (st, Ok tt)
          end
      | _, _ => (st, Ok tt)
      end
  end.

Definition disconnect (st : state) (start stop : Z) : state :=
  let st := cancel_input st start stop in
  mkState (policy st) (filter (fun kv => in_range start stop kv.1 = false) (sessions st))
    (ready_inputs st) (notified st).

End ExecAdmission.

(** ** Invariant *)

Record session_wf {R} (p : ExecLimits) (s : Session R) : Prop := {
  swf_input : 0 <= input_consumed s <= input_sent s;
  swf_input_limit : input_sent s - input_consumed s <= input_limit p;
  swf_input_width : input_sent s < 2 ^ 64;
  swf_output : 0 <= output_consumed s <= output_sent s;
  swf_output_limit : output_sent s - output_consumed s <= output_limit p;
  swf_output_width : output_sent s < 2 ^ 64;
  swf_closed : input_closed s = true -> pending_input s = []
}.

Record tracker_wf {R} (p : ExecLimits) (st : State R) : Prop := {
  twf_policy : policy st = Some p /\ 0 <= input_limit p /\ 0 <= output_limit p;
  twf_slots : Z.of_nat (size (sessions st)) <= max_executions p;
  twf_sessions : forall id s, sessions st !! id = Some s -> session_wf p s;
  twf_nodup : NoDup (ready_inputs st);
  twf_ready : forall id, id ∈ ready_inputs st
                <-> exists s, sessions st !! id = Some s /\ pending_input s <> []
}.

(** Calls on the tracker, in any order and with any arguments. *)
Inductive tracker_op (R W : Type) :=
| OpAdmit (request : Message)
| OpEnqueue (write : ControlWrite R) (message : Message) (payload_len : Z)
| OpTake (ctl_admit : W -> ControlWrite R -> W * (ControlWrite R * result string bool)) (w : W)
| OpInputChanged
| OpCancel (start stop : Z)
| OpClient (message : Message) (wire_len : Z)
| OpGuest (message : Message) (wire_len : Z)
| OpDisconnect (start stop : Z).
Arguments OpAdmit {R W}.
Arguments OpEnqueue {R W}.
Arguments OpTake {R W}.
Arguments OpInputChanged {R W}.
Arguments OpCancel {R W}.
Arguments OpClient {R W}.
Arguments OpGuest {R W}.
Arguments OpDisconnect {R W}.

Section TrackerProofs.
Context `{Cbor} `{ExecPayloads} {R : Type}.
Implicit Types (st : State R) (s : Session R) (p : ExecLimits).

(** One call; [None] when [take_input] fails, which ends the relay's writer. *)
Definition tracker_step {W} st (op : tracker_op R W) : option (State R) :=
  match op with
  | OpAdmit request => Some (tracker_admit st request).1
  | OpEnqueue write message payload_len => Some (enqueue_input st write message payload_len).1
  | OpTake ctl_admit w =>
      match take_input ctl_admit st w with (next, _, Ok _) => Some next | (_, _, Err _) => None end
  | OpInputChanged => Some (default st (input_changed st))
  | OpCancel start stop => Some (cancel_input st start stop)
  | OpClient message wire_len => Some (client_message st message wire_len).1
  | OpGuest message wire_len => Some (guest_message st message wire_len).1
  | OpDisconnect start stop => Some (disconnect st start stop)
  end.

Fixpoint tracker_run {W} st (ops : list (tracker_op R W)) : option (State R) :=
  match ops with
  | [] => Some st
  | op :: ops' => let* next := tracker_step st op in tracker_run next ops'
  end.

(** [DataLength] decodes to a [usize]. *)
Definition data_length_unsigned : Prop := forall b n, decode_data_length b = Ok n -> 0 <= n.

Lemma put_session_wf p st id s s' :
  tracker_wf p st -> sessions st !! id = Some s -> session_wf p s' ->
  (pending_input s' = [] <-> pending_input s = []) -> tracker_wf p (put_session st id s').
Proof.
  intros [H1 H2 H3 H4 H5] Hs Hs' Hp. split; cbn; [done| | |done|].
  - rewrite map_size_insert_Some by done. done.
  - intros id' s''. rewrite lookup_insert_Some. intros [[<- <-]|[_ Hl]]; [done|by eapply H3].
  - intros id'. rewrite H5. destruct (decide (id = id')) as [<-|Hne].
    + rewrite lookup_insert_eq, Hs. split; intros (x & [= <-] & Hx); eexists; (split; [done|]); tauto.
    + by rewrite lookup_insert_ne.
Qed.

Lemma drop_session_wf p st id : tracker_wf p st -> tracker_wf p (drop_session st id).
Proof.
  intros [H1 H2 H3 H4 H5]. split; cbn; [done| | | |].
  - rewrite map_size_delete. destruct (sessions st !! id); cbn; lia.
  - intros id' s [_ Hl]%lookup_delete_Some. by eapply H3.
  - by apply NoDup_filter.
  - intros id'. rewrite list_elem_of_filter, H5. split.
    + intros (Hne & s & Hs & Hp). exists s. by rewrite lookup_delete_ne.
    + intros (s & [Hne Hs]%lookup_delete_Some & Hp). split; [done|]. by exists s.
Qed.

Lemma cancel_input_wf p st a b : tracker_wf p st -> tracker_wf p (cancel_input st a b).
Proof.
  intros [H1 H2 H3 H4 H5]. unfold cancel_input. split; cbn; [done| | | |].
  - assert (dom (map_imap (fun id s => Some (if in_range a b id then set_cancelled s else s)) (sessions st))
            = dom (sessions st)) as Hd.
    { apply set_eq. intros id. rewrite !elem_of_dom, map_lookup_imap.
      destruct (sessions st !! id); cbn; split; try done; by intros []. }
    rewrite <- !size_dom. by rewrite Hd, size_dom.
  - intros id s. rewrite map_lookup_imap. destruct (sessions st !! id) as [s0|] eqn:E; [|done].
    cbn. intros [= <-]. destruct (H3 _ _ E). destruct (in_range a b id); split; done.
  - by apply NoDup_filter.
  - intros id. rewrite list_elem_of_filter, H5, map_lookup_imap.
    destruct (sessions st !! id) as [s0|] eqn:E; cbn.
    + destruct (in_range a b id) eqn:Er; split.
      * by intros [? _].
      * by intros (s & [= <-] & ?).
      * intros (_ & s & [= <-] & ?). by exists s0.
      * intros (s & [= <-] & ?). split; [done|]. by exists s0.
    + split; [by intros (_ & s & ? & _)|by intros (s & ? & _)].
Qed.

Lemma disconnect_wf p st a b : tracker_wf p st -> tracker_wf p (disconnect st a b).
Proof.
  intros Hwf. pose proof (cancel_input_wf p st a b Hwf) as [H1 H2 H3 H4 H5].
  unfold disconnect. split; cbn; [done| | |done|].
  - pose proof (map_subseteq_size _ _ (map_filter_subseteq (fun kv => in_range a b kv.1 = false)
      (sessions (cancel_input st a b)))) as Hle. cbn in *. lia.
  - intros id s [Hl _]%map_lookup_filter_Some. by eapply H3.
  - intros id. rewrite H5. split.
    + intros (s & Hs & Hp). exists s. split; [|done]. apply map_lookup_filter_Some. split; [done|]. cbn.
      cbn in Hs. rewrite map_lookup_imap in Hs. destruct (sessions st !! id); [|done]. cbn in Hs.
      injection Hs as <-. by destruct (in_range a b id).
    + intros (s & [Hs _]%map_lookup_filter_Some & Hp). by exists s.
Qed.

Lemma notify_wf p st : tracker_wf p st -> tracker_wf p (notify_one st).
Proof. intros []. by split. Qed.

Lemma tracker_admit_wf p st m : tracker_wf p st -> tracker_wf p (tracker_admit st m).1.
Proof.
  intros Hwf. pose proof Hwf as [H1 H2 H3 H4 H5]. unfold tracker_admit. rewrite (proj1 H1).
  destruct (10 <=? msg_v m); [|done]. case_bool_decide as Hn; [done|].
  rewrite <- eq_None_not_Some in Hn. destruct (Z.leb_spec (max_executions p) (Z.of_nat (size (sessions st)))); [done|].
  split; cbn; [done| | |done|].
  - rewrite map_size_insert_None by done. lia.
  - intros id s. rewrite lookup_insert_Some. intros [[<- <-]|[_ Hl]]; [|by eapply H3]. by split; cbn; try lia.
  - intros id. rewrite H5. destruct (decide (msg_id m = id)) as [<-|Hne].
    + rewrite lookup_insert_eq, Hn. split; [by intros (? & ? & _)|by intros (? & [= <-] & ?)].
    + by rewrite lookup_insert_ne.
Qed.

Lemma push_input_wf p st s write m n :
  tracker_wf p st -> sessions st !! msg_id m = Some s -> input_closed s = false ->
  tracker_wf p (push_input st p s write m n).1.
Proof.
  intros Hwf Hs Hc. unfold push_input. match goal with |- context [match ?x with Ok _ => _ | Err _ => _ end] => destruct x as [data|e]; [|done] end.
  cbn [fst].
  set (s' := set_pending s _). apply notify_wf. pose proof (twf_sessions p st Hwf _ _ Hs) as Hsw.
  assert (session_wf p s') as Hsw' by (destruct Hsw; split; cbn; try done; by rewrite Hc).
  assert (pending_input s' <> []) as Hne by (cbn; by destruct (pending_input s)).
  case_bool_decide as Hempty.
  2:{ eapply put_session_wf; [done|done|done|tauto]. }
  destruct Hwf as [H1 H2 H3 H4 H5]. split; cbn; [done| | | |].
  - by rewrite map_size_insert_Some.
  - intros id s''. rewrite lookup_insert_Some. intros [[<- <-]|[_ Hl]]; [done|by eapply H3].
  - apply NoDup_app. split; [done|]. split; [|apply NoDup_singleton].
    intros id Hin ->%list_elem_of_singleton. apply H5 in Hin as (x & Hx & Hp). congruence.
  - intros id. rewrite elem_of_app, list_elem_of_singleton, H5. destruct (decide (msg_id m = id)) as [<-|Hn].
    + rewrite lookup_insert_eq. split; [by intros _; exists s'|tauto].
    + rewrite lookup_insert_ne by done. split; [by intros [?| ->]|by left].
Qed.

Lemma coalescing_tail_Some s before input data :
  coalescing_tail s = Some (before, input, data) ->
  pending_input s = before ++ [input] /\ pi_payload input = Some data.
Proof.
  unfold coalescing_tail. destruct (last (pending_input s)) as [i|] eqn:E; [|done].
  apply last_Some in E as [l E]. rewrite E. destruct (pi_payload i) eqn:Ep; [|done].
  intros [= <- -> ->]. split; [|done]. rewrite length_app. cbn [length].
  by rewrite Nat.add_sub, take_app_length.
Qed.

Lemma enqueue_input_wf p st write m n : tracker_wf p st -> tracker_wf p (enqueue_input st write m n).1.
Proof.
  intros Hwf. unfold enqueue_input. rewrite (proj1 (twf_policy p st Hwf)).
  destruct (sessions st !! msg_id m) as [s|] eqn:Hs; [|done].
  destruct (input_closed s) eqn:Hc; [done|].
  destruct (coalescing_tail s) as [[[before input] data]|] eqn:Ht; [|by apply push_input_wf].
  destruct (negb (n =? 0) && _); [|by apply push_input_wf].
  destruct (payload _) as [more|e]; [|done]. apply coalescing_tail_Some in Ht as [Hp _].
  apply notify_wf. eapply put_session_wf; [done|done| |].
  - destruct (twf_sessions p st Hwf _ _ Hs). split; cbn; try done. by rewrite Hc.
  - cbn. rewrite Hp. split; by intros []%app_eq_nil.
Qed.

(** One round of the forwarding loop: the head of the ready queue moves to its
    back while it has input left. *)
Lemma take_round_wf p st id q s pending :
  tracker_wf p st -> ready_inputs st = id :: q -> sessions st !! id = Some s -> pending_input s <> [] ->
  let st1 := put_session (set_ready st q) id (set_pending s pending) in
  tracker_wf p (if bool_decide (pending = []) then st1 else set_ready st1 (ready_inputs st1 ++ [id])).
Proof.
  intros [H1 H2 H3 H4 H5] Hq Hs Hp st1. rewrite Hq in H4. apply NoDup_cons in H4 as [Hnin H4].
  assert (input_closed s = false) as Hcl.
  { destruct (input_closed s) eqn:E; [|done]. by destruct Hp; apply (H3 _ _ Hs). }
  assert (forall id' x, sessions st1 !! id' = Some x -> session_wf p x) as Hsw.
  { intros id' x. cbn. rewrite lookup_insert_Some. intros [[<- <-]|[_ Hl]]; [|by eapply H3].
    destruct (H3 _ _ Hs). split; cbn; try done. by rewrite Hcl. }
  assert (forall id', id' <> id -> id' ∈ q <-> exists x, sessions st1 !! id' = Some x /\ pending_input x <> []) as Hr.
  { intros id' Hne. cbn. rewrite lookup_insert_ne by done. rewrite <- H5, Hq, elem_of_cons. tauto. }
  assert (Z.of_nat (size (sessions st1)) <= max_executions p) as Hsz by (cbn; by rewrite map_size_insert_Some).
  case_bool_decide as Hpe; (split; [done|done|done| |]); unfold st1 in *;
    cbn [policy set_ready put_session ready_inputs sessions] in *.
  - done.
  - intros id'. destruct (decide (id' = id)) as [->|Hne]; [|by apply Hr].
    rewrite lookup_insert_eq. split; [done|]. by intros (x & [= <-] & Hx).
  - apply NoDup_app. split; [done|]. split; [|apply NoDup_singleton]. by intros x Hx ->%list_elem_of_singleton.
  - intros id'. rewrite elem_of_app, list_elem_of_singleton. destruct (decide (id' = id)) as [->|Hne].
    + rewrite lookup_insert_eq. split; [by intros _; eexists|by right].
    + rewrite Hr by done. split; [by intros [?| ->]|by left].
Qed.

Lemma take_input_loop_wf {W} (f : W -> ControlWrite R -> W * (ControlWrite R * result string bool)) p n st w st' w' r :
  tracker_wf p st -> take_input_loop f n st w = (st', w', Ok r) -> tracker_wf p st'.
Proof.
  revert st w. induction n as [|n IH]; intros st w Hwf; cbn [take_input_loop]; [by intros [= <- _ _]|].
  destruct (ready_inputs st) as [|id q] eqn:Hq; [by intros [= <- _ _]|].
  destruct (proj1 (twf_ready p st Hwf id)) as (s & Hs & Hp); [rewrite Hq; by left|].
  cbn [sessions set_ready]. rewrite Hs. destruct (pending_input s) as [|input rest] eqn:Hpi; [done|].
  destruct (freeze_input id input) as [input' [[]|e]]; [|done].
  destruct (f w (pi_write input')) as [w1 [write [[]|why]]]; [| |done].
  - pose proof (take_round_wf p st id q s rest Hwf Hq Hs) as Hround. rewrite Hpi in Hround.
    intros [= <- _ _]. by apply Hround.
  - set (pending := mkPending write _ _ :: rest).
    pose proof (take_round_wf p st id q s pending Hwf Hq Hs) as Hround. rewrite Hpi in Hround.
    intros Hl. eapply IH; [|exact Hl]. by apply Hround.
Qed.

Lemma acknowledge_Ok prev c sent c' : acknowledge prev c sent = Ok c' -> c' = c /\ prev <= c <= sent.
Proof.
  unfold acknowledge. destruct (_ || _) eqn:E; [done|]. intros [= <-]. breflect. done.
Qed.

Lemma client_message_wf p st m n :
  data_length_unsigned -> tracker_wf p st -> tracker_wf p (client_message st m n).1.
Proof.
  intros Hlen Hwf. unfold client_message. destruct (validate_control m n); [|done].
  rewrite (proj1 (twf_policy p st Hwf)). destruct (sessions st !! msg_id m) as [s|] eqn:Hs; [|done].
  pose proof (twf_sessions p st Hwf _ _ Hs) as []. destruct (msg_t m); try done.
  - destruct (decode_data_length (msg_p m)) as [data|e] eqn:Hd; [|done]. cbn [payload].
    apply Hlen in Hd. destruct (negb (started s) || eof s); [done|].
    destruct (checked_add 64 _ _) as [sent|] eqn:Ha; [|done]. apply checked_add_Some in Ha as [-> Ha].
    destruct (_ || _) eqn:E; [done|]. breflect. eapply put_session_wf; [done|done| |done].
    split; cbn; try done; lia.
  - destruct (payload (decode_output_ack (msg_p m))) as [c|e]; [|done].
    destruct (acknowledge _ c _) as [c'|e] eqn:Ha; [|done]. apply acknowledge_Ok in Ha as [-> Ha].
    eapply put_session_wf; [done|done| |done]. split; cbn; try done; lia.
Qed.

Lemma charge_output_wf p st s m :
  data_length_unsigned -> tracker_wf p st -> sessions st !! msg_id m = Some s ->
  tracker_wf p (charge_output st p s m).1.
Proof.
  intros Hlen Hwf Hs. pose proof (twf_sessions p st Hwf _ _ Hs) as []. unfold charge_output.
  destruct (decode_data_length (msg_p m)) as [len|e] eqn:Hd; [|done]. cbn [payload]. apply Hlen in Hd.
  destruct (checked_add 64 _ _) as [sent|] eqn:Ha; [|done]. apply checked_add_Some in Ha as [-> Ha].
  destruct (_ || _) eqn:E; [done|]. breflect. unfold EXEC_OUTPUT_EVENT_OVERHEAD in *.
  eapply put_session_wf; [done|done| |done]. split; cbn; try done; lia.
Qed.

Lemma guest_message_wf p st m n :
  data_length_unsigned -> tracker_wf p st -> tracker_wf p (guest_message st m n).1.
Proof.
  intros Hlen Hwf. unfold guest_message. destruct (validate_control m n); [|done].
  rewrite (proj1 (twf_policy p st Hwf)). destruct (sessions st !! msg_id m) as [s|] eqn:Hs; [|done].
  pose proof (twf_sessions p st Hwf _ _ Hs) as [].
  destruct (msg_t m); try done; try (by apply drop_session_wf); try (by apply charge_output_wf).
  - destruct (payload _) as [off|e]; [|done]. destruct (started s || _); [done|]. by apply drop_session_wf.
  - eapply put_session_wf; [done|done|by split|done].
  - destruct (payload (decode_stdin_ack (msg_p m))) as [c|e]; [|done].
    destruct (acknowledge _ c _) as [c'|e] eqn:Ha; [|done]. apply acknowledge_Ok in Ha as [-> Ha].
    eapply put_session_wf; [done|done| |done]. split; cbn; try done; lia.
Qed.

Lemma tracker_step_wf {W} p st (op : tracker_op R W) st' :
  data_length_unsigned -> tracker_wf p st -> tracker_step st op = Some st' -> tracker_wf p st'.
Proof.
  intros Hlen Hwf. destruct op; cbn; try (intros [= <-]).
  - by apply tracker_admit_wf.
  - by apply enqueue_input_wf.
  - unfold take_input. destruct (take_input_loop _ _ _ _) as [[st1 w1] [r|e]] eqn:E; [|done].
    intros [= <-]. by eapply take_input_loop_wf.
  - unfold input_changed. destruct (notified st); cbn; [|done]. by destruct Hwf.
  - by apply cancel_input_wf.
  - by apply client_message_wf.
  - by apply guest_message_wf.
  - by apply disconnect_wf.
Qed.

Lemma tracker_run_wf {W} p st (ops : list (tracker_op R W)) st' :
  data_length_unsigned -> tracker_wf p st -> tracker_run st ops = Some st' -> tracker_wf p st'.
Proof.
  intros Hlen. revert st. induction ops as [|op ops IH]; intros st Hwf; cbn; [by intros [= <-]|].
  destruct (tracker_step st op) as [st1|] eqn:E; [|done]. intros Hr. eapply IH; [|exact Hr].
  by eapply tracker_step_wf.
Qed.

(** Limits a validated policy satisfies (its fields are unsigned). *)
Lemma limits_validate_Ok p :
  limits_validate p = Ok tt -> 0 <= stdin_chunk_size p -> 0 <= output_chunk_size p ->
  0 < stdin_chunk_size p <= input_limit p
  /\ 0 < output_chunk_size p /\ output_chunk_size p + EXEC_OUTPUT_EVENT_OVERHEAD <= output_limit p.
Proof.
  unfold limits_validate. intros Hv Hs Ho. destruct (_ || (MAX_CHUNK_SIZE <? output_chunk_size p)); [done|].
  destruct (max_executions p =? 0); [done|].
  destruct (stdin_chunk_size p =? 0) eqn:E1; [done|].
  destruct (input_limit p <? stdin_chunk_size p) eqn:E2; [done|]. cbn [orb] in Hv.
  destruct (output_chunk_size p =? 0) eqn:E3; [done|]. cbn [orb] in Hv.
  destruct (checked_add _ _ _) as [n|] eqn:E4; [|done]. apply checked_add_Some in E4 as [-> _].
  destruct (output_limit p <? _) eqn:E5; [done|]. breflect. lia.
Qed.

Lemma installed_wf p st :
  0 <= stdin_chunk_size p -> 0 <= output_chunk_size p -> 0 <= max_executions p ->
  install (default_state (R := R)) (Some p) = (st, Ok tt) -> tracker_wf p st.
Proof.
  intros Hs Ho Hm. unfold install. destruct (limits_validate p) as [[]|e] eqn:Hv; [|done]. intros [= <-].
  destruct (limits_validate_Ok p Hv Hs Ho) as (? & ? & ?). unfold EXEC_OUTPUT_EVENT_OVERHEAD in *.
  split; cbn; [split; [done|lia]|done|done|constructor|].
  intros id. split; [by intros ?%not_elem_of_nil|by intros (? & ? & _)].
Qed.

(** ** The stdin stream of an execution *)

(** The stdin data a wire frame carries. *)
Definition frame_stdin (data : list byte) : list byte :=
  match (try_decode_from_buf data).2 with
  | Ok (Some m) => match decode_exec_stdin (msg_p m) with Ok d => d | Err _ => [] end
  | _ => []
  end.

Definition input_bytes (input : PendingInput R) : list byte :=
  match pi_payload input with Some d => d | None => frame_stdin (cw_data (pi_write input)) end.

Definition pending_bytes (l : list (PendingInput R)) : list byte := concat (input_bytes <$> l).

Definition stdin_stream st (id : Z) : list byte :=
  match sessions st !! id with Some s => pending_bytes (pending_input s) | None => [] end.

(** What the code relies on in [ciborium] for stdin payloads. *)
Definition stdin_roundtrip : Prop := forall d b, encode_exec_stdin d = Ok b -> decode_exec_stdin b = Ok d.

Lemma pending_bytes_app l1 l2 : pending_bytes (l1 ++ l2) = pending_bytes l1 ++ pending_bytes l2.
Proof. unfold pending_bytes. by rewrite fmap_app, concat_app. Qed.

Lemma pending_bytes_one input : pending_bytes [input] = input_bytes input.
Proof. cbn. by rewrite app_nil_r. Qed.

Lemma freeze_input_bytes id input input' :
  cbor_roundtrip -> stdin_roundtrip -> fits 32 id -> freeze_input id input = (input', Ok tt) ->
  pi_payload input' = None /\ frame_stdin (cw_data (pi_write input')) = input_bytes input.
Proof.
  intros Hc Hr Hid. unfold freeze_input, input_bytes. destruct (pi_payload input) as [d|] eqn:Hp.
  2:{ by intros [= <-]. }
  destruct (encode_exec_stdin d) as [b|e] eqn:He; [|done]. cbn [payload].
  set (m := mkMessage _ _ _ _ _ _). destruct (encode_to_buf m []) as [wire|e] eqn:Hw; [|done].
  intros [= <-]. split; [done|]. cbn [pi_write cw_data]. unfold frame_stdin.
  pose proof (decode_encoded_message m wire [] Hc Hid) as Hd. rewrite app_nil_r in Hd.
  rewrite Hd; [|by vm_compute|done]. cbn [snd]. change (msg_p m) with b. by rewrite (Hr _ _ He).
Qed.

Lemma push_input_stream p st s write m n d st' :
  sessions st !! msg_id m = Some s -> decode_exec_stdin (msg_p m) = Ok d -> frame_stdin (cw_data write) = d ->
  push_input st p s write m n = (st', Ok tt) ->
  stdin_stream st' (msg_id m) = stdin_stream st (msg_id m) ++ d
  /\ (forall id, id <> msg_id m -> stdin_stream st' id = stdin_stream st id).
Proof.
  intros Hs Hd Hw. unfold push_input. rewrite Hd. cbn [payload].
  set (was_empty := bool_decide _).
  destruct (negb was_empty && negb (n =? 0) && (n <? stdin_chunk_size p)); intros [= <-];
    (split; [|intros id Hne]; unfold stdin_stream; destruct was_empty;
     cbn [notify_one set_ready put_session sessions];
     rewrite ?lookup_insert_eq, ?lookup_insert_ne by done; try done;
     rewrite Hs; cbn [set_pending pending_input]; rewrite pending_bytes_app, pending_bytes_one; try done;
     unfold input_bytes; cbn [pi_payload pi_write]; by rewrite Hw).
Qed.

Lemma enqueue_input_stream p st s write m n d st' :
  policy st = Some p -> sessions st !! msg_id m = Some s -> input_closed s = false ->
  decode_exec_stdin (msg_p m) = Ok d -> frame_stdin (cw_data write) = d ->
  enqueue_input st write m n = (st', Ok tt) ->
  stdin_stream st' (msg_id m) = stdin_stream st (msg_id m) ++ d
  /\ (forall id, id <> msg_id m -> stdin_stream st' id = stdin_stream st id).
Proof.
  intros Hp Hs Hc Hd Hw. unfold enqueue_input. rewrite Hp, Hs, Hc.
  destruct (coalescing_tail s) as [[[before input] data]|] eqn:Ht; [|by apply push_input_stream].
  destruct (negb (n =? 0) && _); [|by apply push_input_stream].
  apply coalescing_tail_Some in Ht as [Hpi Hpay]. rewrite Hd. cbn [payload]. intros [= <-].
  split; [|intros id Hne]; unfold stdin_stream; cbn [notify_one put_session sessions].
  - rewrite lookup_insert_eq, Hs. cbn [set_pending pending_input].
    rewrite Hpi, !pending_bytes_app, !pending_bytes_one, <- app_assoc. f_equal.
    unfold input_bytes. cbn [pi_payload]. by rewrite Hpay.
  - by rewrite lookup_insert_ne.
Qed.

(** One round keeps every stream, up to the frame it forwards. *)
Lemma take_round_stream st id q s input rest write v (admitted : bool) :
  sessions st !! id = Some s -> pending_input s = input :: rest ->
  frame_stdin (cw_data write) = input_bytes input ->
  let pending := if admitted then rest else mkPending write v None :: rest in
  let st1 := put_session (set_ready st q) id (set_pending s pending) in
  let st2 := if bool_decide (pending = []) then st1 else set_ready st1 (ready_inputs st1 ++ [id]) in
  stdin_stream st id = (if admitted then frame_stdin (cw_data write) else []) ++ stdin_stream st2 id
  /\ forall id', id' <> id -> stdin_stream st2 id' = stdin_stream st id'.
Proof.
  intros Hs Hp Hw pending st1 st2.
  assert (sessions st2 = <[id := set_pending s pending]> (sessions st)) as Hse
    by (unfold st2; by destruct (bool_decide _)).
  unfold stdin_stream. rewrite Hse, lookup_insert_eq, Hs, Hp. split.
  - cbn [set_pending pending_input]. unfold pending. change (input :: rest) with ([input] ++ rest).
    rewrite pending_bytes_app, pending_bytes_one, <- Hw. destruct admitted; [done|].
    change (mkPending write v None :: rest) with ([mkPending write v None] ++ rest).
    by rewrite pending_bytes_app, pending_bytes_one.
  - intros id' Hne. by rewrite lookup_insert_ne.
Qed.

Section Forwarding.
Context {W : Type} (f : W -> ControlWrite R -> W * (ControlWrite R * result string bool)).
(** The relay's closure decides about a frame without rewriting it. *)
Hypothesis f_keeps_data : forall w c, cw_data (f w c).2.1 = cw_data c.
Hypothesis cbor_law : cbor_roundtrip.
Hypothesis stdin_law : stdin_roundtrip.

Lemma take_input_loop_stream p n st w st' w' r :
  tracker_wf p st -> (forall id, id ∈ ready_inputs st -> fits 32 id) ->
  take_input_loop f n st w = (st', w', Ok r) ->
  match r with
  | None => forall id, stdin_stream st' id = stdin_stream st id
  | Some write => exists id, stdin_stream st id = frame_stdin (cw_data write) ++ stdin_stream st' id
                    /\ forall id', id' <> id -> stdin_stream st' id' = stdin_stream st id'
  end.
Proof.
  revert st w. induction n as [|n IH]; intros st w Hwf Hids; cbn [take_input_loop]; [by intros [= <- _ <-]|].
  destruct (ready_inputs st) as [|id q] eqn:Hq; [by intros [= <- _ <-]|].
  destruct (proj1 (twf_ready p st Hwf id)) as (s & Hs & Hp); [rewrite Hq; by left|].
  cbn [sessions set_ready]. rewrite Hs. destruct (pending_input s) as [|input rest] eqn:Hpi; [done|].
  destruct (freeze_input id input) as [input' [[]|e]] eqn:Hf; [|done].
  apply freeze_input_bytes in Hf as [Hnone Hbytes]; [|done|done|apply Hids; by left].
  pose proof (f_keeps_data w (pi_write input')) as Hkeep.
  destruct (f w (pi_write input')) as [w1 [write [[]|why]]]; [| |done]; cbn [fst snd] in Hkeep;
    rewrite <- Hkeep in Hbytes; rewrite ?Hnone.
  - intros [= <- _ <-]. exists id.
    exact (take_round_stream st id q s input rest write (pi_version input') true Hs Hpi Hbytes).
  - intros Hl.
    pose proof (take_round_stream st id q s input rest write (pi_version input') false Hs Hpi Hbytes) as [Hsame Hother].
    pose proof (take_round_wf p st id q s (mkPending write (pi_version input') None :: rest) Hwf Hq Hs) as Hwf2.
    rewrite Hpi in Hwf2. specialize (Hwf2 ltac:(done)).
    match type of Hl with take_input_loop _ _ ?x _ = _ => set (st2 := x) in Hl end.
    change (stdin_stream st id = stdin_stream st2 id) in Hsame.
    change (forall id', id' <> id -> stdin_stream st2 id' = stdin_stream st id') in Hother.
    change (tracker_wf p st2) in Hwf2. apply IH in Hl; [|done|].
    2:{ intros id'. unfold st2. rewrite bool_decide_eq_false_2 by done. cbn.
        rewrite elem_of_app, list_elem_of_singleton. intros [?| ->]; apply Hids; [by right|by left]. }
    assert (forall id', stdin_stream st2 id' = stdin_stream st id') as Hall
      by (intros id'; destruct (decide (id' = id)) as [->|Hne]; [symmetry; exact Hsame|by apply Hother]).
    destruct r as [write'|].
    + destruct Hl as (id' & He & Ho). exists id'. rewrite <- (Hall id'), He. split; [done|].
      intros id'' Hne. rewrite <- (Hall id''). by apply Ho.
    + intros id'. rewrite Hl. apply Hall.
Qed.

End Forwarding.

(** ** Properties *)


(** The stdin of an execution reaches the guest as it was sent: queueing a
    message appends its data to that execution's pending stream, merged into
    the tail chunk or not; forwarding takes a frame that carries exactly the
    bytes at the front of one execution's stream; a pass that forwards nothing
    loses nothing; no other execution's stream changes; and when the writer
    has room the execution at the head of the ready queue is served and goes
    to the back if it has input left. *)
Lemma exec_stdin_stream {W} (f : W -> ControlWrite R -> W * (ControlWrite R * result string bool)) p st :
  cbor_roundtrip -> stdin_roundtrip -> (forall w c, cw_data (f w c).2.1 = cw_data c) ->
  tracker_wf p st -> (forall id, id ∈ ready_inputs st -> fits 32 id) ->
  (forall s write m n d st', sessions st !! msg_id m = Some s -> input_closed s = false ->
     decode_exec_stdin (msg_p m) = Ok d -> frame_stdin (cw_data write) = d ->
     enqueue_input st write m n = (st', Ok tt) ->
     stdin_stream st' (msg_id m) = stdin_stream st (msg_id m) ++ d
     /\ forall id, id <> msg_id m -> stdin_stream st' id = stdin_stream st id)
  /\ (forall w st' w' write, take_input f st w = (st', w', Ok (Some write)) ->
     exists id, stdin_stream st id = frame_stdin (cw_data write) ++ stdin_stream st' id
       /\ forall id', id' <> id -> stdin_stream st' id' = stdin_stream st id')
  /\ (forall w st' w', take_input f st w = (st', w', Ok None) ->
     forall id, stdin_stream st' id = stdin_stream st id)
  /\ (forall w st' w' r id q, (forall w c, (f w c).2.2 = Ok true) ->
     ready_inputs st = id :: q -> take_input f st w = (st', w', Ok r) ->
     is_Some r /\ (ready_inputs st' = q \/ ready_inputs st' = q ++ [id])).
Proof.
  intros Hc Hst Hf Hwf Hids. split; [|split; [|split]].
  - intros s write m n d st' Hs Hcl Hd Hw. apply (enqueue_input_stream p _ s); try done.
    by apply (twf_policy p st Hwf).
  - intros w st' w' write Ht. exact (take_input_loop_stream f Hf Hc Hst p _ _ _ _ _ _ Hwf Hids Ht).
  - intros w st' w' Ht. exact (take_input_loop_stream f Hf Hc Hst p _ _ _ _ _ _ Hwf Hids Ht).
  - intros w st' w' r id q Hall Hq. unfold take_input. rewrite Hq. cbn [length take_input_loop]. rewrite Hq.
    destruct (proj1 (twf_ready p st Hwf id)) as (s & Hs & Hp); [rewrite Hq; by left|].
    cbn [sessions set_ready]. rewrite Hs. destruct (pending_input s) as [|input rest]; [done|].
    destruct (freeze_input id input) as [input' [[]|e]]; [|done].
    pose proof (Hall w (pi_write input')) as Ha.
    destruct (f w (pi_write input')) as [w1 [write r1]]. cbn in Ha. subst r1.
    intros [= <- _ <-]. split; [by eexists|]. case_bool_decide; cbn; auto.
Qed.

End TrackerProofs.

(** ** Witnesses *)

(** Concrete payload encodings: data as is, offsets big-endian. *)
Module ToyPayloads.

#[export] Instance payloads : ExecPayloads :=
  {| PayloadError := unit;
     decode_data_length := fun b => Ok (zlen b);
     decode_exec_stdin := Ok;
     decode_stdin_ack := fun b => Ok (be_value b);
     decode_output_ack := fun b => Ok (be_value b);
     decode_offending_type := fun _ => Ok None;
     encode_exec_stdin := Ok |}.

Definition limits : ExecLimits := mkLimits 2 4 1000 4 8.
Definition msg (t : MessageType) (id : Z) (p : list byte) : Message := mkMessage 11 t id 0 p false.
Definition abcd : list byte := [Byte.x61; Byte.x62; Byte.x63; Byte.x64].

Definition frame (m : Message) : ControlWrite unit :=
  match encode_to_buf (H := ToyCbor.cbor) m [] with Ok w => mkWrite w tt | Err _ => mkWrite [] tt end.

(** A client sends stdin to two executions; the second is served after the first. *)
Definition ops : list (tracker_op unit unit) :=
  [OpAdmit (msg MtExecRequest 7 []); OpAdmit (msg MtExecRequest 9 []);
   OpGuest (msg MtExecStarted 7 []) 20; OpGuest (msg MtExecStarted 9 []) 20;
   OpClient (msg MtExecStdin 7 [Byte.x61]) 30; OpEnqueue (frame (msg MtExecStdin 7 [Byte.x61])) (msg MtExecStdin 7 [Byte.x61]) 1;
   OpClient (msg MtExecStdin 9 abcd) 30; OpEnqueue (frame (msg MtExecStdin 9 abcd)) (msg MtExecStdin 9 abcd) 4;
   OpGuest (msg MtExecStdout 9 abcd) 30].

Definition run (ops : list (tracker_op unit unit)) : State unit :=
  match tracker_run (H := ToyCbor.cbor) (install (H := ToyCbor.cbor) default_state (Some limits)).1 ops with
  | Some st => st
  | None => default_state
  end.

Definition always : unit -> ControlWrite unit -> unit * (ControlWrite unit * result string bool) :=
  fun w c => (w, (c, Ok true)).

End ToyPayloads.

#[local] Existing Instance ToyCbor.cbor.
#[local] Existing Instance ToyPayloads.payloads.


Lemma toy_run_wf : tracker_wf ToyPayloads.limits (ToyPayloads.run ToyPayloads.ops).
Proof.
  refine (tracker_run_wf (W := unit) _ (install default_state (Some ToyPayloads.limits)).1 ToyPayloads.ops _ _ _ _).
  - intros b n [= <-]. lia.
  - refine (installed_wf ToyPayloads.limits _ _ _ _ eq_refl); cbn; lia.
  - vm_compute. reflexivity.
Qed.

Lemma exec_stdin_stream_witness :
  exists st' w' r, take_input ToyPayloads.always (ToyPayloads.run ToyPayloads.ops) tt = (st', w', Ok r)
  /\ is_Some r /\ stdin_stream st' 9 = ToyPayloads.abcd.
Proof.
  destruct (exec_stdin_stream ToyPayloads.always ToyPayloads.limits (ToyPayloads.run ToyPayloads.ops)
    ToyCbor.roundtrip) as (_ & Hsome & _ & Hserve).
  - intros d b [= <-]. reflexivity.
  - reflexivity.
  - exact toy_run_wf.
  - intros id Hin. vm_compute in Hin. apply elem_of_cons in Hin as [->|Hin]; [vm_compute; split; congruence|].
    apply list_elem_of_singleton in Hin as ->. vm_compute; split; congruence.
  - destruct (take_input ToyPayloads.always (ToyPayloads.run ToyPayloads.ops) tt) as [[st' w'] [r|e]] eqn:E.
    + exists st', w', r. split; [reflexivity|]. split.
      * apply (Hserve tt st' w' r 7 [9]); [reflexivity|vm_compute; reflexivity|exact E].
      * vm_compute in E. injection E as <- _ _. vm_compute. reflexivity.
    + vm_compute in E. discriminate.
Defined.

(** ** Acknowledgements ahead of forwarding *)

(** The guest may acknowledge stdin that is still queued on the host, since an
    acknowledgement is checked against what the client sent rather than against
    what was forwarded.  The client can then send more, so the bytes queued for
    one execution are not bounded by [input_limit]. *)
Definition early_ack_ops : list (tracker_op unit unit) :=
  let stdin := ToyPayloads.msg MtExecStdin 7 ToyPayloads.abcd in
  [OpAdmit (ToyPayloads.msg MtExecRequest 7 []); OpGuest (ToyPayloads.msg MtExecStarted 7 []) 20;
   OpClient stdin 30; OpEnqueue (ToyPayloads.frame stdin) stdin 4;
   OpGuest (ToyPayloads.msg MtExecStdinAck 7 (be_bytes 8 4)) 20;
   OpClient stdin 30; OpEnqueue (ToyPayloads.frame stdin) stdin 4].

Lemma early_ack_exceeds_input_limit :
  zlen (stdin_stream (ToyPayloads.run early_ack_ops) 7) = 8 /\ input_limit ToyPayloads.limits = 4.
Proof. split; vm_compute; reflexivity. Qed.
