(* ===== verification/CpuPlanner.v ===== *)
(** * CPU placement planning

    Models [crates/runtime/lib/runner/cpu/planner.rs], the topology types of
    [cpu/topology.rs], the request of [cpu/mod.rs] and the placement enums of
    [packages/microsandbox-types/rust/lib/domain.rs].

    Counts of assignments and CPUs are [nat]; memory sizes are [Z].  A slice
    index out of bounds is the error [Panic].  The [while] loops run at most
    once per CPU still to be selected, and recurse on that number. *)

From S2P Require Import Prelude.

(** ** Types *)

Record LogicalCpuId := mkCpuId { cpu_group : Z; cpu_index : Z }.

#[global] Instance LogicalCpuId_eq_dec : EqDecision LogicalCpuId.
Proof. solve_decision. Defined.
#[global] Instance LogicalCpuId_countable : Countable LogicalCpuId.
Proof.
  apply (inj_countable' (fun c => (cpu_group c, cpu_index c)) (fun p => mkCpuId p.1 p.2)). by intros [].
Defined.

Record LogicalCpu := mkCpu {
  lc_id : LogicalCpuId; lc_package : Z; lc_die : Z; lc_core : Z;
  lc_numa_node : Z; lc_performance_class : Z }.

Record HostNumaNode := mkNode {
  nn_id : Z; nn_package : Z; nn_total_memory_mib : Z; nn_available_memory_mib : Z;
  nn_distances : gmap Z Z }.

Record CpuTopology := mkTopology {
  logical_cpus : list LogicalCpu; numa_nodes : list HostNumaNode; fingerprint : string }.

Inductive CpuPlacement := CpuInherit | CpuAuto | CpuSpread | CpuCompact.
Inductive NumaPlacement := PreferSingle | StrictSingle | NumaInherit.
Inductive MemoryPlacement := FollowCpu | MemoryInherit.
Record PlacementProfile := mkProfile { pp_numa : NumaPlacement; pp_memory : MemoryPlacement }.

Record PlacementRequest := mkRequest {
  pr_policy : CpuPlacement; pr_max_vcpus : nat; pr_boot_memory_mib : Z; pr_max_memory_mib : Z;
  pr_profile : option PlacementProfile }.

Record CpuReservation := mkReservation {
  rv_logical_cpu : LogicalCpuId; rv_vcpu_index : option Z; rv_role : string }.

Inductive PlacementFallback := PreferSingleCapacity | FollowCpuCrossNode | FollowCpuMemoryCapacity.

Record ResolvedNumaNode := mkResolvedNode {
  rn_guest_node_id : Z; rn_host_node_id : Z; rn_vcpu_indices : list nat;
  rn_boot_memory_mib : Z; rn_max_memory_mib : Z }.

Record ResolvedNumaPlacement := mkResolvedNuma {
  rnp_nodes : list ResolvedNumaNode; rnp_distances : list (Z * Z * Z);
  rnp_memory : MemoryPlacement; rnp_required : bool }.

Record ResolvedPlacement := mkResolved {
  rp_requested : CpuPlacement; rp_resolved : CpuPlacement; rp_vcpu_targets : list LogicalCpuId;
  rp_reservations : list CpuReservation; rp_numa : option ResolvedNumaPlacement;
  rp_shared : bool; rp_fallback : option PlacementFallback }.

Inductive plan_error :=
| NoVcpus | FollowCpuNeedsPolicy | NoopProfile | NumaNeedsPolicy | StrictSingleUnfit
| NoHostNode | MissingHostNode (node : Z) | InheritBypass | NoHostProcessors (p : option CpuPlacement)
| Panic.

Record LogicalLoad := mkLoad { ll_id : LogicalCpuId; ll_assignments : nat }.
Record CoreLoad := mkCore { cl_logical : list LogicalLoad; cl_performance_class : Z }.

(** ** Standard-library sorting and minima *)

(** Lexicographic order on tuples of integers; [Reverse(x)] is the key [- x]. *)
Fixpoint lex_ltb (a b : list Z) : bool :=
  match a, b with
  | [], [] => false
  | [], _ :: _ => true
  | _ :: _, [] => false
  | x :: a', y :: b' => (x <? y) || ((x =? y) && lex_ltb a' b')
  end.

(** [sort_by_key], a stable sort. *)
Fixpoint insert_by_key {A} (key : A -> list Z) (x : A) (l : list A) : list A :=
  match l with
  | [] => [x]
  | y :: l' => if lex_ltb (key y) (key x) then y :: insert_by_key key x l' else x :: y :: l'
  end.
Definition sort_by_key {A} (key : A -> list Z) (l : list A) : list A := foldr (insert_by_key key) [] l.

(** [min_by_key], the first of the minima. *)
Fixpoint min_by_key {A} (key : A -> list Z) (l : list A) : option A :=
  match l with
  | [] => None
  | x :: l' =>
      match min_by_key key l' with
      | Some y => if lex_ltb (key y) (key x) then Some y else Some x
      | None => Some x
      end
  end.

Definition enumerate {A} (l : list A) : list (nat * A) := zip (seq 0 (length l)) l.

(** [position]. *)
Definition position {A} (P : A -> bool) (l : list A) : option nat :=
  fst <$> list_find (fun x => P x = true) l.

(** ** Core loads *)

Definition core_total (core : CoreLoad) : nat := sum_list (ll_assignments <$> cl_logical core).

Definition core_key (cpu : LogicalCpu) : list Z := [lc_package cpu; lc_die cpu; lc_core cpu].
Definition id_key (id : LogicalCpuId) : list Z := [cpu_group id; cpu_index id].

Definition load_of (loads : gmap LogicalCpuId nat) (id : LogicalCpuId) : nat := default 0%nat (loads !! id).

(** One group of the [BTreeMap] as a core. *)
Definition core_of_group (loads : gmap LogicalCpuId nat) (group : list LogicalCpu) : CoreLoad :=
  let logical := sort_by_key (fun cpu => id_key (lc_id cpu)) group in
  mkCore ((fun cpu => mkLoad (lc_id cpu) (load_of loads (lc_id cpu))) <$> logical)
    (match logical with cpu :: _ => lc_performance_class cpu | [] => 0 end).

(** The values of the [BTreeMap] in the order of its keys. *)
Definition grouped (cpus : list LogicalCpu) : list (list LogicalCpu) :=
  (fun k => filter (fun cpu => core_key cpu = k) cpus)
    <$> sort_by_key id (remove_dups (core_key <$> cpus)).

Definition core_loads (topology : CpuTopology) (loads : gmap LogicalCpuId nat) : list CoreLoad :=
  sort_by_key (fun core => [- cl_performance_class core])
    (core_of_group loads <$> grouped (logical_cpus topology)).

(** ** Selection *)

(** The local variables [cores], [selected] and [shared] of the planners. *)
Record Selection := mkSel { sel_cores : list CoreLoad; sel_selected : list LogicalCpuId; sel_shared : bool }.

Definition select_cpu (st : Selection) (core_index logical_index : nat) : result plan_error Selection :=
  match sel_cores st !! core_index with
  | None => Err Panic
  | Some core =>
      match cl_logical core !! logical_index with
      | None => Err Panic
      | Some cpu =>
          let cpu' := mkLoad (ll_id cpu) (S (ll_assignments cpu)) in
          let core' := mkCore (<[logical_index := cpu']> (cl_logical core)) (cl_performance_class core) in
          Ok (mkSel (<[core_index := core']> (sel_cores st)) (sel_selected st ++ [ll_id cpu])
                (sel_shared st || (0 <? ll_assignments cpu)%nat))
      end
  end.

Definition unused (cpu : LogicalLoad) : bool := (ll_assignments cpu =? 0)%nat.
Definition has_unused (core : CoreLoad) : bool := existsb unused (cl_logical core).

(** The first unused CPU of the core with that index. *)
Definition unused_of (ic : nat * CoreLoad) : option (nat * nat) :=
  (fun li => (ic.1, li)) <$> position unused (cl_logical ic.2).

(** All CPUs with their indices, core by core. *)
Definition indexed_cpus (cores : list CoreLoad) : list (nat * nat * LogicalLoad) :=
  concat ((fun ic => (fun lc => (ic.1, lc.1, lc.2)) <$> enumerate (cl_logical ic.2)) <$> enumerate cores).

Definition total_at (cores : list CoreLoad) (ci : nat) : Z :=
  match cores !! ci with Some core => Z.of_nat (core_total core) | None => 0 end.

Definition least_loaded_logical (cores : list CoreLoad) : option (nat * nat) :=
  fst <$> min_by_key (fun x : nat * nat * LogicalLoad =>
    [Z.of_nat (ll_assignments x.2); total_at cores x.1.1; Z.of_nat x.1.1; Z.of_nat x.1.2])
    (indexed_cpus cores).

Definition least_loaded_core_logical (cores : list CoreLoad) : option (nat * nat) :=
  let* (core_index, core) := min_by_key (fun ic : nat * CoreLoad =>
    [Z.of_nat (core_total ic.2); Z.of_nat ic.1]) (enumerate cores) in
  let* (logical_index, _) := min_by_key (fun lc : nat * LogicalLoad =>
    [Z.of_nat (ll_assignments lc.2); Z.of_nat lc.1]) (enumerate (cl_logical core)) in
  Some (core_index, logical_index).

(** Candidates of the planners' loops.  A core that passed the filter has an
    unused CPU, so [unused_of] gives one where the source [expect]s one. *)
Definition density_candidate (cores : list CoreLoad) : option (nat * nat) :=
  head (omap unused_of (enumerate cores)).

Definition spread_candidate (cores : list CoreLoad) : option (nat * nat) :=
  match min_by_key (fun ic : nat * CoreLoad => [Z.of_nat (core_total ic.2); Z.of_nat ic.1])
          (filter (fun ic => has_unused ic.2 = true) (enumerate cores)) with
  | Some ic => unused_of ic
  | None => least_loaded_core_logical cores
  end.

Definition compact_candidate (cores : list CoreLoad) : option (nat * nat) :=
  let* ic := min_by_key (fun ic : nat * CoreLoad =>
      [if (core_total ic.2 =? 0)%nat then 1 else 0; - Z.of_nat (core_total ic.2); Z.of_nat ic.1])
    (filter (fun ic => has_unused ic.2 = true) (enumerate cores)) in
  unused_of ic.

Definition compact_pressure_candidate (cores : list CoreLoad) : option (nat * nat) :=
  fst <$> min_by_key (fun x : nat * nat * LogicalLoad =>
    [Z.of_nat (ll_assignments x.2); - total_at cores x.1.1; Z.of_nat x.1.1; Z.of_nat x.1.2])
    (indexed_cpus cores).

(** [while selected.len() < requested_count]: [n] CPUs are still to be selected.
    Without a candidate the loop ends; what is left is returned. *)
Fixpoint select_while (candidate : list CoreLoad -> option (nat * nat)) (n : nat) (st : Selection)
  : result plan_error (nat * Selection) :=
  match n with
  | O => Ok (O, st)
  | S n' =>
      match candidate (sel_cores st) with
      | None => Ok (n, st)
      | Some (core_index, logical_index) =>
          let? st' := select_cpu st core_index logical_index in
          select_while candidate n' st'
      end
  end.

(** The low-contention phase of [plan_auto]: [for core_index in 0..cores.len()]. *)
Fixpoint spread_phase (indices : list nat) (requested_count : nat) (st : Selection)
  : result plan_error Selection :=
  match indices with
  | [] => Ok st
  | core_index :: indices' =>
      match sel_cores st !! core_index with
      | None => Err Panic
      | Some core =>
          if (core_total core =? 0)%nat then
            let? st' := select_cpu st core_index 0 in
            if (length (sel_selected st') =? requested_count)%nat then Ok st'
            else spread_phase indices' requested_count st'
          else spread_phase indices' requested_count st
      end
  end.

Definition finish_plan (requested : CpuPlacement) (selected : list LogicalCpuId) (shared : bool)
  : ResolvedPlacement :=
  mkResolved requested requested selected
    ((fun ic : nat * LogicalCpuId => mkReservation ic.2 (Some (wrap 8 (Z.of_nat ic.1))) "planned")
       <$> enumerate selected)
    None shared None.

Definition complete (requested : CpuPlacement) (why : plan_error) (r : nat * Selection)
  : result plan_error ResolvedPlacement :=
  match r.1 with
  | O => Ok (finish_plan requested (sel_selected r.2) (sel_shared r.2))
  | S _ => Err why
  end.

Definition plan_auto (cores : list CoreLoad) (requested_count : nat) : result plan_error ResolvedPlacement :=
  let? st := spread_phase (seq 0 (length cores)) requested_count (mkSel cores [] false) in
  let? r := select_while density_candidate (requested_count - length (sel_selected st)) st in
  let? r := select_while least_loaded_logical r.1 r.2 in
  complete CpuAuto (NoHostProcessors None) r.

Definition plan_spread (cores : list CoreLoad) (requested : CpuPlacement) (requested_count : nat)
  : result plan_error ResolvedPlacement :=
  let? r := select_while spread_candidate requested_count (mkSel cores [] false) in
  complete requested (NoHostProcessors (Some requested)) r.

Definition plan_compact (cores : list CoreLoad) (requested : CpuPlacement) (requested_count : nat)
  : result plan_error ResolvedPlacement :=
  let? r := select_while compact_candidate requested_count (mkSel cores [] false) in
  let? r := select_while compact_pressure_candidate r.1 r.2 in
  complete requested (NoHostProcessors (Some requested)) r.

Definition plan_cpu (topology : CpuTopology) (loads : gmap LogicalCpuId nat) (requested : CpuPlacement)
    (requested_count : nat) : result plan_error ResolvedPlacement :=
  let cores := core_loads topology loads in
  match requested with
  | CpuAuto => plan_auto cores requested_count
  | CpuSpread => plan_spread cores requested requested_count
  | CpuCompact => plan_compact cores requested requested_count
  | CpuInherit => Err InheritBypass
  end.

(** ** NUMA *)

Definition single_node_numa (host_node_id : Z) (max_vcpus : nat) (boot_memory_mib max_memory_mib : Z)
    (memory : MemoryPlacement) (required : bool) : ResolvedNumaPlacement :=
  mkResolvedNuma [mkResolvedNode 0 host_node_id (seq 0 max_vcpus) boot_memory_mib max_memory_mib]
    [(0, 0, 10)] memory required.

Definition node_can_fit_memory (node : HostNumaNode) (reserved_memory_mib : Z) (request : PlacementRequest) : bool :=
  (pr_boot_memory_mib request <=? nn_available_memory_mib node)
  && (pr_max_memory_mib request <=? saturating_sub (nn_total_memory_mib node) reserved_memory_mib).

Definition node_can_fit_unshared_cpus (topology : CpuTopology) (loads : gmap LogicalCpuId nat)
    (host_node_id : Z) (requested_count : nat) : bool :=
  (length (take requested_count
     (filter (fun cpu => load_of loads (lc_id cpu) = 0%nat)
        (filter (fun cpu => lc_numa_node cpu = host_node_id) (logical_cpus topology))))
   =? requested_count)%nat.

Definition reserved_of (reserved : gmap Z Z) (node : Z) : Z := default 0 (reserved !! node).

Definition scoped_topology (topology : CpuTopology) (node : HostNumaNode) : CpuTopology :=
  mkTopology (filter (fun cpu => lc_numa_node cpu = nn_id node) (logical_cpus topology)) [node]
    (fingerprint topology).

Definition set_numa (r : ResolvedPlacement) (n : option ResolvedNumaPlacement) : ResolvedPlacement :=
  mkResolved (rp_requested r) (rp_resolved r) (rp_vcpu_targets r) (rp_reservations r) n (rp_shared r)
    (rp_fallback r).
Definition set_fallback (r : ResolvedPlacement) (f : option PlacementFallback) : ResolvedPlacement :=
  mkResolved (rp_requested r) (rp_resolved r) (rp_vcpu_targets r) (rp_reservations r) (rp_numa r)
    (rp_shared r) f.

(** The loop over candidate nodes. *)
Fixpoint first_fitting_node (topology : CpuTopology) (loads : gmap LogicalCpuId nat)
    (request : PlacementRequest) (reserved : gmap Z Z) (profile : PlacementProfile)
    (candidates : list HostNumaNode) : option ResolvedPlacement :=
  match candidates with
  | [] => None
  | node :: candidates' =>
      if negb (node_can_fit_memory node (reserved_of reserved (nn_id node)) request)
         || negb (node_can_fit_unshared_cpus topology loads (nn_id node) (pr_max_vcpus request))
      then first_fitting_node topology loads request reserved profile candidates'
      else match plan_cpu (scoped_topology topology node) loads (pr_policy request) (pr_max_vcpus request) with
      | Err _ => first_fitting_node topology loads request reserved profile candidates'
      | Ok resolved =>
          Some (set_numa resolved (Some (single_node_numa (nn_id node) (pr_max_vcpus request)
            (pr_boot_memory_mib request) (pr_max_memory_mib request) (pp_memory profile)
            (match pp_numa profile with StrictSingle => true | _ => false end))))
      end
  end.

Definition node_key (reserved : gmap Z Z) (node : HostNumaNode) : list Z :=
  [- nn_available_memory_mib node; reserved_of reserved (nn_id node); nn_package node; nn_id node].

(** [NumaPlacement::Inherit] with [FollowCpu]. *)
Definition follow_cpu (topology : CpuTopology) (request : PlacementRequest) (reserved : gmap Z Z)
    (profile : PlacementProfile) (resolved : ResolvedPlacement) : result plan_error ResolvedPlacement :=
  let host_nodes := remove_dups (omap (fun target =>
      lc_numa_node <$> List.find (fun cpu => bool_decide (lc_id cpu = target)) (logical_cpus topology))
    (rp_vcpu_targets resolved)) in
  if negb (length host_nodes =? 1)%nat then Ok (set_fallback resolved (Some FollowCpuCrossNode))
  else
    let? host_node := ok_or (head host_nodes) NoHostNode in
    let? node := ok_or (List.find (fun node => nn_id node =? host_node) (numa_nodes topology))
                   (MissingHostNode host_node) in
    if node_can_fit_memory node (reserved_of reserved host_node) request then
      Ok (set_numa resolved (Some (single_node_numa host_node (pr_max_vcpus request)
            (pr_boot_memory_mib request) (pr_max_memory_mib request) (pp_memory profile) false)))
    else Ok (set_fallback resolved (Some FollowCpuMemoryCapacity)).

Definition plan (topology : CpuTopology) (loads : gmap LogicalCpuId nat) (request : PlacementRequest)
    (reserved_memory_mib : gmap Z Z) : result plan_error ResolvedPlacement :=
  let requested_count := pr_max_vcpus request in
  if (requested_count =? 0)%nat then Err NoVcpus
  else match pr_profile request with
  | None => plan_cpu topology loads (pr_policy request) requested_count
  | Some profile =>
      match pr_policy request, pp_memory profile, pp_numa profile with
      | CpuInherit, FollowCpu, _ => Err FollowCpuNeedsPolicy
      | CpuInherit, MemoryInherit, NumaInherit => Err NoopProfile
      | CpuInherit, MemoryInherit, _ => Err NumaNeedsPolicy
      | _, _, NumaInherit =>
          let? resolved := plan_cpu topology loads (pr_policy request) requested_count in
          match pp_memory profile with
          | FollowCpu => follow_cpu topology request reserved_memory_mib profile resolved
          | MemoryInherit => Ok resolved
          end
      | _, _, numa =>
          match first_fitting_node topology loads request reserved_memory_mib profile
                  (sort_by_key (node_key reserved_memory_mib) (numa_nodes topology)) with
          | Some resolved => Ok resolved
          | None =>
              match numa with
              | StrictSingle => Err StrictSingleUnfit
              | _ =>
                  let? resolved := plan_cpu topology loads (pr_policy request) requested_count in
                  Ok (set_fallback resolved (Some PreferSingleCapacity))
              end
          end
      end
  end.

(** ** Sorting, minima, enumeration *)

Lemma insert_by_key_perm {A} (key : A -> list Z) x l : insert_by_key key x l ≡ₚ x :: l.
Proof.
  induction l as [|y l IH]; cbn; [done|]. destruct (lex_ltb _ _); [|done]. by rewrite IH, Permutation_swap.
Qed.

Lemma sort_by_key_perm {A} (key : A -> list Z) l : sort_by_key key l ≡ₚ l.
Proof. induction l as [|x l IH]; cbn; [done|]. by rewrite insert_by_key_perm, IH. Qed.

(** The chosen element is in the list, and no element has a smaller first key. *)
Lemma min_by_key_Some {A} (key : A -> list Z) (hd : A -> Z) l x :
  (forall a, exists t, key a = hd a :: t) -> min_by_key key l = Some x ->
  x ∈ l /\ forall y, y ∈ l -> hd x <= hd y.
Proof.
  intros Hhd. revert x. induction l as [|a l IH]; intros x; cbn; [done|].
  destruct (min_by_key key l) as [m|] eqn:E.
  - destruct (IH m eq_refl) as [Hin Hmin]. destruct (lex_ltb (key m) (key a)) eqn:Hlt; intros [= <-].
    + split; [by right|]. intros y [->|Hy]%elem_of_cons; [|by apply Hmin].
      destruct (Hhd m) as [t1 E1], (Hhd a) as [t2 E2]. rewrite E1, E2 in Hlt. cbn in Hlt.
      apply orb_true_iff in Hlt as [Hlt|Hlt]; breflect; lia.
    + split; [by left|]. intros y [->|Hy]%elem_of_cons; [lia|]. specialize (Hmin y Hy).
      destruct (Hhd m) as [t1 E1], (Hhd a) as [t2 E2]. rewrite E1, E2 in Hlt. cbn in Hlt.
      apply orb_false_iff in Hlt as [Hlt _]. breflect. lia.
  - intros [= <-]. destruct l as [|b l]; [|cbn in E; by repeat case_match].
    split; [by left|]. intros y [->|?%not_elem_of_nil]%elem_of_cons; [lia|done].
Qed.

Lemma min_by_key_None {A} (key : A -> list Z) l : min_by_key key l = None -> l = [].
Proof. destruct l; cbn; [done|]. by repeat case_match. Qed.

Lemma elem_of_enumerate {A} (l : list A) i x : (i, x) ∈ enumerate l <-> l !! i = Some x.
Proof.
  unfold enumerate. rewrite list_elem_of_lookup. setoid_rewrite lookup_zip_Some. split.
  - intros (k & Hk & Hx). apply lookup_seq in Hk as [-> _]. done.
  - intros Hx. exists i. split; [|done]. apply lookup_seq. split; [done|]. by apply lookup_lt_Some in Hx.
Qed.

Lemma enumerate_nil {A} (l : list A) : enumerate l = [] -> l = [].
Proof. by destruct l. Qed.

Lemma elem_of_indexed cores ci li cpu :
  (ci, li, cpu) ∈ indexed_cpus cores
  <-> exists core, cores !! ci = Some core /\ cl_logical core !! li = Some cpu.
Proof.
  unfold indexed_cpus. rewrite list_elem_of_In, in_concat. setoid_rewrite <- list_elem_of_In.
  setoid_rewrite list_elem_of_fmap. split.
  - intros (l & ([i core] & -> & Hi) & ([j c] & [= -> -> ->] & Hj)%list_elem_of_fmap).
    apply elem_of_enumerate in Hi, Hj. by exists core.
  - intros (core & Hc & Hl). eexists. split.
    + exists (ci, core). split; [done|]. by apply elem_of_enumerate.
    + apply list_elem_of_fmap. exists (li, cpu). split; [done|]. by apply elem_of_enumerate.
Qed.

(** ** All CPUs of the cores *)

Definition flat (cores : list CoreLoad) : list LogicalLoad := concat (cl_logical <$> cores).
Definition idle (l : list LogicalLoad) : nat := length (filter (fun c => ll_assignments c = 0%nat) l).
Definition cores_ok (cores : list CoreLoad) : Prop := Forall (fun core => cl_logical core <> []) cores.

Lemma elem_of_flat cores cpu :
  cpu ∈ flat cores <-> exists ci li core, cores !! ci = Some core /\ cl_logical core !! li = Some cpu.
Proof.
  unfold flat. rewrite list_elem_of_In, in_concat. setoid_rewrite <- list_elem_of_In.
  setoid_rewrite list_elem_of_fmap. split.
  - intros (l & (core & -> & [ci Hc]%list_elem_of_lookup) & [li Hl]%list_elem_of_lookup). by exists ci, li, core.
  - intros (ci & li & core & Hc & Hl). eexists. split; [exists core; split; [done|]|];
      by eapply list_elem_of_lookup_2.
Qed.

Lemma idle_zero l : idle l = 0%nat <-> forall c, c ∈ l -> ll_assignments c <> 0%nat.
Proof.
  unfold idle. rewrite length_zero_iff_nil. split.
  - intros Hn c Hc Hz. assert (c ∈ filter (fun c => ll_assignments c = 0%nat) l) as Hin
      by (by apply list_elem_of_filter). rewrite Hn in Hin. by apply not_elem_of_nil in Hin.
  - intros Hall. apply elem_of_nil_inv. intros c [Hz Hc]%list_elem_of_filter. by eapply Hall.
Qed.

Lemma idle_split l1 cpu l2 :
  idle (l1 ++ cpu :: l2) = (idle (l1 ++ l2) + if decide (ll_assignments cpu = 0) then 1 else 0)%nat.
Proof.
  unfold idle. rewrite !filter_app, filter_cons, !length_app. case_decide; cbn; lia.
Qed.

(** Updating one CPU in place, seen on the flat list. *)
Lemma flat_insert cores ci core li cpu cpu' :
  cores !! ci = Some core -> cl_logical core !! li = Some cpu ->
  exists l1 l2, flat cores = l1 ++ cpu :: l2
  /\ flat (<[ci := mkCore (<[li := cpu']> (cl_logical core)) (cl_performance_class core)]> cores)
     = l1 ++ cpu' :: l2.
Proof.
  intros Hc Hl. unfold flat.
  exists (concat (cl_logical <$> take ci cores) ++ take li (cl_logical core)),
         (drop (S li) (cl_logical core) ++ concat (cl_logical <$> drop (S ci) cores)).
  split.
  - rewrite <- (take_drop_middle cores ci core Hc) at 1.
    rewrite fmap_app, fmap_cons, concat_app. cbn [concat].
    rewrite <- (take_drop_middle _ li cpu Hl) at 1. by rewrite <- !app_assoc.
  - rewrite insert_take_drop by (by apply lookup_lt_Some in Hc).
    rewrite fmap_app, fmap_cons, concat_app. cbn [concat cl_logical].
    rewrite insert_take_drop by (by apply lookup_lt_Some in Hl). by rewrite <- !app_assoc.
Qed.

(** ** Selection invariant *)

Definition times (id : LogicalCpuId) (l : list LogicalCpuId) : nat := length (filter (fun x => x = id) l).

Section Selection.
Context (loads : gmap LogicalCpuId nat) (start : list LogicalLoad).
Hypothesis start_nodup : NoDup (ll_id <$> start).
Hypothesis start_loads : forall c, c ∈ start -> ll_assignments c = load_of loads (ll_id c).

Record sel_wf (st : Selection) : Prop := {
  sw_cores : cores_ok (sel_cores st);
  sw_ids : ll_id <$> flat (sel_cores st) = ll_id <$> start;
  sw_counts : forall c, c ∈ flat (sel_cores st) ->
    ll_assignments c = (load_of loads (ll_id c) + times (ll_id c) (sel_selected st))%nat;
  sw_from : forall id, id ∈ sel_selected st -> id ∈ ll_id <$> start;
  sw_fresh : sel_shared st = false ->
    NoDup (sel_selected st) /\ (forall id, id ∈ sel_selected st -> load_of loads id = 0%nat)
    /\ (idle (flat (sel_cores st)) + length (sel_selected st) = idle start)%nat;
  sw_shared : sel_shared st = true ->
    idle (flat (sel_cores st)) = 0%nat /\ (idle start < length (sel_selected st))%nat
}.

Lemma sel_start cores : cores_ok cores -> flat cores = start -> sel_wf (mkSel cores [] false).
Proof.
  intros Hok Hf. split; cbn [sel_cores sel_selected sel_shared]; rewrite ?Hf; try done.
  - intros c Hc. rewrite start_loads by done. cbn. lia.
  - by intros id ?%not_elem_of_nil.
  - intros _. split; [constructor|]. split; [by intros id ?%not_elem_of_nil|]. cbn. lia.
Qed.

Lemma times_app id l x : times id (l ++ [x]) = (times id l + if decide (x = id) then 1 else 0)%nat.
Proof. unfold times. rewrite filter_app, length_app, filter_cons. case_decide; cbn; lia. Qed.

Lemma times_zero id l : times id l = 0%nat -> id ∉ l.
Proof.
  unfold times. rewrite length_zero_iff_nil. intros Hn Hin.
  assert (id ∈ filter (fun x => x = id) l) as H by (by apply list_elem_of_filter).
  rewrite Hn in H. by apply not_elem_of_nil in H.
Qed.

(** Selecting an unused CPU, or any CPU once none is unused, keeps the invariant. *)
Lemma select_cpu_wf st ci li core cpu :
  sel_wf st -> sel_cores st !! ci = Some core -> cl_logical core !! li = Some cpu ->
  (ll_assignments cpu = 0%nat \/ idle (flat (sel_cores st)) = 0%nat) ->
  exists st', select_cpu st ci li = Ok st' /\ sel_wf st'
    /\ length (sel_selected st') = S (length (sel_selected st))
    /\ length (sel_cores st') = length (sel_cores st).
Proof.
  intros [Hok Hids Hcnt Hfrom Hfresh Hsh] Hc Hl Hchoice. unfold select_cpu. rewrite Hc, Hl.
  eexists. split; [done|]. split; [|cbn; rewrite length_app, length_insert; cbn; lia].
  set (cpu' := mkLoad _ _).
  destruct (flat_insert _ _ _ _ _ cpu' Hc Hl) as (l1 & l2 & Hf1 & Hf2).
  assert (cpu ∈ flat (sel_cores st)) as Hin by (rewrite Hf1; apply elem_of_app; right; by left).
  assert (ll_id cpu ∈ ll_id <$> start) as Hst by (rewrite <- Hids; by apply list_elem_of_fmap_2).
  pose proof (idle_split l1 cpu l2) as Hi1. pose proof (idle_split l1 cpu' l2) as Hi2.
  rewrite decide_False in Hi2 by (cbn; lia). rewrite <- Hf1 in Hi1. pose proof (Hcnt cpu Hin) as Hcpu.
  split; cbn [sel_cores sel_selected sel_shared]; rewrite ?Hf2.
  - apply Forall_insert; [done|]. cbn. intros Hn%(f_equal length). rewrite length_insert in Hn.
    apply lookup_lt_Some in Hl. cbn in Hn. lia.
  - rewrite <- Hids, Hf1, !fmap_app, !fmap_cons. done.
  - pose proof start_nodup as Hnd. rewrite <- Hids, Hf1, fmap_app, fmap_cons in Hnd.
    apply NoDup_app in Hnd as (_ & Hnd1 & [Hnd2 _]%NoDup_cons).
    intros c Hcin. rewrite times_app. apply elem_of_app in Hcin as [Hcl|[->|Hcr]%elem_of_cons].
    + assert (ll_id cpu <> ll_id c) as Hne.
      { intros E. apply (Hnd1 (ll_id c)); [by apply list_elem_of_fmap_2|rewrite E; by left]. }
      rewrite decide_False, Nat.add_0_r by done. apply Hcnt. rewrite Hf1. apply elem_of_app. by left.
    + cbn [cpu' ll_id ll_assignments]. rewrite decide_True by done. lia.
    + assert (ll_id cpu <> ll_id c) as Hne.
      { intros E. apply Hnd2. rewrite E. by apply list_elem_of_fmap_2. }
      rewrite decide_False, Nat.add_0_r by done. apply Hcnt. rewrite Hf1. apply elem_of_app. right. by right.
  - intros id [Hin'| ->%list_elem_of_singleton]%elem_of_app; [by apply Hfrom|done].
  - intros [Hs Ha]%orb_false_iff. apply Nat.ltb_ge in Ha. destruct (Hfresh Hs) as (Hnd & Hz & Hsum).
    rewrite decide_True in Hi1 by lia. split; [|split].
    + apply NoDup_app. split; [done|]. split; [|apply NoDup_singleton].
      intros x Hx ->%list_elem_of_singleton. by apply (times_zero (ll_id cpu) (sel_selected st)); [lia|].
    + intros id [Hin'| ->%list_elem_of_singleton]%elem_of_app; [by apply Hz|lia].
    + rewrite length_app. cbn. lia.
  - intros Hs. rewrite length_app. cbn [length]. destruct (sel_shared st) eqn:Es.
    + destruct (Hsh eq_refl) as [Hz Hlt]. rewrite decide_False in Hi1 by (apply (proj1 (idle_zero _) Hz _ Hin)). lia.
    + cbn [orb] in Hs. apply Nat.ltb_lt in Hs. destruct (Hfresh eq_refl) as (_ & _ & Hsum).
      rewrite decide_False in Hi1 by lia. lia.
Qed.

(** What a loop's choice of CPU has to satisfy. *)
Definition idle_first (candidate : list CoreLoad -> option (nat * nat)) : Prop :=
  forall cores ci li, cores_ok cores -> candidate cores = Some (ci, li) ->
  exists core cpu, cores !! ci = Some core /\ cl_logical core !! li = Some cpu
    /\ (ll_assignments cpu = 0%nat \/ idle (flat cores) = 0%nat).

Lemma select_while_wf candidate n st :
  idle_first candidate -> sel_wf st ->
  exists r st', select_while candidate n st = Ok (r, st') /\ sel_wf st'
    /\ (length (sel_selected st') + r = length (sel_selected st) + n)%nat
    /\ (r <> 0%nat -> candidate (sel_cores st') = None).
Proof.
  intros Hc. revert st. induction n as [|n IH]; intros st Hwf; cbn [select_while].
  - exists 0%nat, st. split; [done|]. split; [done|]. split; [lia|done].
  - destruct (candidate (sel_cores st)) as [[ci li]|] eqn:E.
    + destruct (Hc _ _ _ (sw_cores st Hwf) E) as (core & cpu & Hco & Hcp & Hidle).
      destruct (select_cpu_wf st ci li core cpu Hwf Hco Hcp Hidle) as (st1 & -> & Hwf1 & Hl & _).
      destruct (IH st1 Hwf1) as (r & st' & -> & Hwf' & Hlen & Hn). exists r, st'.
      split; [done|]. split; [done|]. split; [lia|done].
    + exists (S n), st. split; [done|]. split; [done|]. split; [lia|done].
Qed.

Lemma core_total_zero core cpu : core_total core = 0%nat -> cpu ∈ cl_logical core -> ll_assignments cpu = 0%nat.
Proof.
  unfold core_total. induction (cl_logical core) as [|c l IH]; cbn; [by intros _ ?%not_elem_of_nil|].
  intros Ht [->|Hin]%elem_of_cons; [lia|apply IH; [lia|done]].
Qed.

Lemma spread_phase_wf indices req st :
  sel_wf st -> Forall (fun i => (i < length (sel_cores st))%nat) indices ->
  (length (sel_selected st) < req)%nat ->
  exists st', spread_phase indices req st = Ok st' /\ sel_wf st' /\ (length (sel_selected st') <= req)%nat.
Proof.
  revert st. induction indices as [|i indices IH]; intros st Hwf Hix Hlt; cbn [spread_phase].
  - exists st. split; [done|]. split; [done|lia].
  - apply Forall_cons in Hix as [Hi Hix]. destruct (lookup_lt_is_Some_2 _ _ Hi) as [core Hco]. rewrite Hco.
    destruct (Nat.eqb_spec (core_total core) 0) as [Hz|_]; [|by apply IH].
    destruct (cl_logical core) as [|cpu l] eqn:Hlog.
    { exfalso. pose proof (sw_cores st Hwf) as Hok. eapply Forall_lookup_1 in Hok; [|exact Hco]. done. }
    destruct (select_cpu_wf st i 0 core cpu Hwf Hco) as (st1 & -> & Hwf1 & Hl & Hlc); [by rewrite Hlog| |].
    { left. eapply core_total_zero; [done|rewrite Hlog; by left]. }
    destruct (Nat.eqb_spec (length (sel_selected st1)) req) as [He|He].
    + exists st1. split; [done|]. split; [done|lia].
    + apply IH; [done| |lia]. by rewrite Hlc.
Qed.

(** What a plan promises: one target per vCPU, all from the topology, shared
    exactly when there are not enough idle CPUs, and distinct idle CPUs otherwise. *)
Record plan_good (requested : CpuPlacement) (n : nat) (r : ResolvedPlacement) : Prop := {
  pg_policy : rp_requested r = requested /\ rp_resolved r = requested;
  pg_count : length (rp_vcpu_targets r) = n;
  pg_from : forall id, id ∈ rp_vcpu_targets r -> id ∈ ll_id <$> start;
  pg_shared : rp_shared r = (idle start <? n)%nat;
  pg_idle : rp_shared r = false ->
    NoDup (rp_vcpu_targets r) /\ forall id, id ∈ rp_vcpu_targets r -> load_of loads id = 0%nat;
  pg_reservations : rv_logical_cpu <$> rp_reservations r = rp_vcpu_targets r;
  pg_plain : rp_numa r = None /\ rp_fallback r = None
}.

Lemma finish_plan_good requested st n :
  sel_wf st -> length (sel_selected st) = n ->
  plan_good requested n (finish_plan requested (sel_selected st) (sel_shared st)).
Proof.
  intros [_ _ _ Hfrom Hfresh Hsh] Hn. split; cbn; try done.
  - destruct (sel_shared st) eqn:E; symmetry.
    + apply Nat.ltb_lt. destruct (Hsh eq_refl). lia.
    + apply Nat.ltb_ge. destruct (Hfresh eq_refl) as (_ & _ & ?). lia.
  - intros Hs. destruct (Hfresh Hs) as (? & ? & _). done.
  - unfold enumerate. rewrite <- list_fmap_compose. rewrite <- (snd_zip (seq 0 (length (sel_selected st))) (sel_selected st)) at 3;
      [done|by rewrite length_seq].
Qed.

Lemma complete_good requested why r st n :
  sel_wf st -> (length (sel_selected st) + r = n)%nat -> (r <> 0%nat -> False) ->
  exists p, complete requested why (r, st) = Ok p /\ plan_good requested n p.
Proof.
  intros Hwf Hlen Hr. destruct r; [|by destruct Hr]. eexists. split; [done|]. apply finish_plan_good; [done|cbn; lia].
Qed.

End Selection.

(** ** The planners' candidates *)

Lemma unused_of_Some ci core x y :
  unused_of (ci, core) = Some (x, y) -> x = ci /\ exists cpu, cl_logical core !! y = Some cpu /\ ll_assignments cpu = 0%nat.
Proof.
  unfold unused_of, position. cbn. destruct (list_find _ _) as [[i c]|] eqn:E; [|done]. cbn. intros [= <- <-].
  apply list_find_Some in E as (Hl & Hu & _). split; [done|]. exists c. split; [done|]. by apply Nat.eqb_eq in Hu.
Qed.

Lemma unused_of_None ci core : unused_of (ci, core) = None <-> has_unused core = false.
Proof.
  unfold unused_of, position, has_unused. cbn. destruct (list_find _ _) as [[i c]|] eqn:E; cbn.
  - apply list_find_Some in E as (Hl & Hu & _). split; [done|]. intros Hf.
    apply not_true_iff_false in Hf. destruct Hf. apply existsb_exists. exists c. split; [|done].
    apply list_elem_of_In. by eapply list_elem_of_lookup_2.
  - apply list_find_None in E. split; [|done]. intros _. apply not_true_iff_false. intros Ht.
    apply existsb_exists in Ht as (c & Hc & Hu). rewrite Forall_forall in E.
    by apply (E c); [apply list_elem_of_In|].
Qed.

Lemma has_unused_idle cores :
  (forall ci core, cores !! ci = Some core -> has_unused core = false) -> idle (flat cores) = 0%nat.
Proof.
  intros Hall. apply idle_zero. intros c (ci & li & core & Hc & Hl)%elem_of_flat Hz.
  specialize (Hall _ _ Hc). apply not_true_iff_false in Hall. destruct Hall. apply existsb_exists.
  exists c. split; [apply list_elem_of_In; by eapply list_elem_of_lookup_2|]. by apply Nat.eqb_eq.
Qed.

(** Candidates that only offer unused CPUs, and one whenever there is one. *)
Definition unused_only (candidate : list CoreLoad -> option (nat * nat)) : Prop :=
  (forall cores ci li, candidate cores = Some (ci, li) ->
     exists core cpu, cores !! ci = Some core /\ cl_logical core !! li = Some cpu /\ ll_assignments cpu = 0%nat)
  /\ forall cores, candidate cores = None -> idle (flat cores) = 0%nat.

Lemma unused_only_idle_first candidate : unused_only candidate -> idle_first candidate.
Proof.
  intros [Hs _] cores ci li _ Hc. destruct (Hs _ _ _ Hc) as (core & cpu & ? & ? & ?). exists core, cpu. auto.
Qed.

Lemma density_unused_only : unused_only density_candidate.
Proof.
  unfold density_candidate. split.
  - intros cores ci li Hh. apply head_Some_elem_of, list_elem_of_omap in Hh as ([i core] & Hi & Hu).
    apply unused_of_Some in Hu as (-> & cpu & Hl & Hz). apply elem_of_enumerate in Hi. by exists core, cpu.
  - intros cores Hn. apply has_unused_idle. intros ci core Hc. apply (unused_of_None ci).
    destruct (unused_of (ci, core)) as [x|] eqn:E; [|done]. exfalso.
    assert (x ∈ omap unused_of (enumerate cores)) as Hin
      by (apply list_elem_of_omap; exists (ci, core); split; [by apply elem_of_enumerate|done]).
    apply head_None in Hn. rewrite Hn in Hin. by apply not_elem_of_nil in Hin.
Qed.

(** Choosing by a key among the cores with an unused CPU. *)
Lemma filtered_min_Some (key : nat * CoreLoad -> list Z) cores ic :
  min_by_key key (filter (fun ic => has_unused ic.2 = true) (enumerate cores)) = Some ic ->
  cores !! ic.1 = Some ic.2 /\ has_unused ic.2 = true.
Proof.
  assert (forall l x, min_by_key key l = Some x -> x ∈ l) as Hin.
  { induction l as [|a l IH]; cbn; [done|]. intros x. destruct (min_by_key key l) as [m|].
    - destruct (lex_ltb _ _); intros [= <-]; [right; by apply IH|by left].
    - intros [= <-]. by left. }
  intros [Hu He]%Hin%list_elem_of_filter. split; [|done]. apply elem_of_enumerate. by destruct ic.
Qed.

Lemma filtered_min_None (key : nat * CoreLoad -> list Z) cores :
  min_by_key key (filter (fun ic => has_unused ic.2 = true) (enumerate cores)) = None ->
  idle (flat cores) = 0%nat.
Proof.
  intros Hn%min_by_key_None. apply has_unused_idle. intros ci core Hc.
  destruct (has_unused core) eqn:E; [|done]. exfalso.
  assert ((ci, core) ∈ filter (fun ic => has_unused ic.2 = true) (enumerate cores)) as Hin
    by (apply list_elem_of_filter; split; [done|by apply elem_of_enumerate]).
  rewrite Hn in Hin. by apply not_elem_of_nil in Hin.
Qed.

Lemma unused_of_filtered ci core : has_unused core = true ->
  exists li cpu, unused_of (ci, core) = Some (ci, li) /\ cl_logical core !! li = Some cpu /\ ll_assignments cpu = 0%nat.
Proof.
  intros Hu. destruct (unused_of (ci, core)) as [[x y]|] eqn:E.
  - pose proof E as (-> & cpu & ? & ?)%unused_of_Some. by exists y, cpu.
  - apply unused_of_None in E. congruence.
Qed.

Lemma compact_unused_only : unused_only compact_candidate.
Proof.
  unfold compact_candidate. split.
  - intros cores ci li. destruct (min_by_key _ _) as [[i core]|] eqn:E; [|done].
    apply filtered_min_Some in E as [Hc Hu]. intros (-> & cpu & ? & ?)%unused_of_Some. by exists core, cpu.
  - intros cores. destruct (min_by_key _ _) as [[i core]|] eqn:E; [|by apply filtered_min_None in E].
    apply filtered_min_Some in E as [_ Hu]. destruct (unused_of_filtered i core Hu) as (? & ? & -> & _). done.
Qed.

(** Choosing the least assigned CPU prefers unused ones. *)
Lemma least_assigned_idle_first (rest : list CoreLoad -> nat * nat * LogicalLoad -> list Z) :
  idle_first (fun cores => fst <$> min_by_key (fun x : nat * nat * LogicalLoad =>
    Z.of_nat (ll_assignments x.2) :: rest cores x) (indexed_cpus cores)).
Proof.
  intros cores ci li _ Hm. destruct (min_by_key _ _) as [[[i j] cpu]|] eqn:E; [|done]. cbn in Hm. injection Hm as <- <-.
  apply (min_by_key_Some _ (fun x => Z.of_nat (ll_assignments x.2))) in E as [Hin Hmin]; [|by eexists].
  apply elem_of_indexed in Hin as (core & Hc & Hl). exists core, cpu. split; [done|]. split; [done|].
  destruct (decide (ll_assignments cpu = 0%nat)) as [|Hne]; [by left|]. right. apply idle_zero.
  intros c (x & y & core' & Hc' & Hl')%elem_of_flat Hz.
  specialize (Hmin (x, y, c) ltac:(apply elem_of_indexed; by exists core')). cbn in Hmin. lia.
Qed.

Lemma least_assigned_None (rest : list CoreLoad -> nat * nat * LogicalLoad -> list Z) cores :
  (fst <$> min_by_key (fun x : nat * nat * LogicalLoad =>
    Z.of_nat (ll_assignments x.2) :: rest cores x) (indexed_cpus cores)) = None -> flat cores = [].
Proof.
  intros Hm. destruct (min_by_key _ _) eqn:E; [done|]. apply min_by_key_None in E.
  apply elem_of_nil_inv. intros c (x & y & core & Hc & Hl)%elem_of_flat.
  assert ((x, y, c) ∈ indexed_cpus cores) as Hin by (apply elem_of_indexed; by exists core).
  rewrite E in Hin. by apply not_elem_of_nil in Hin.
Qed.

Lemma least_loaded_core_valid cores ci li :
  least_loaded_core_logical cores = Some (ci, li) ->
  exists core cpu, cores !! ci = Some core /\ cl_logical core !! li = Some cpu.
Proof.
  unfold least_loaded_core_logical. destruct (min_by_key _ (enumerate cores)) as [[i core]|] eqn:E; [|done].
  apply (min_by_key_Some _ (fun ic => Z.of_nat (core_total ic.2))) in E as [Hi _]; [|by eexists].
  destruct (min_by_key _ (enumerate (cl_logical core))) as [[j cpu]|] eqn:E2; [|done].
  apply (min_by_key_Some _ (fun lc => Z.of_nat (ll_assignments lc.2))) in E2 as [Hj _]; [|by eexists].
  intros [= <- <-]. apply elem_of_enumerate in Hi, Hj. by exists core, cpu.
Qed.

Lemma least_loaded_core_None cores : cores_ok cores -> least_loaded_core_logical cores = None -> cores = [].
Proof.
  intros Hok. unfold least_loaded_core_logical. destruct (min_by_key _ (enumerate cores)) as [[i core]|] eqn:E.
  2:{ intros _. by apply min_by_key_None, enumerate_nil in E. }
  apply (min_by_key_Some _ (fun ic => Z.of_nat (core_total ic.2))) in E as [Hi _]; [|by eexists].
  apply elem_of_enumerate in Hi. destruct (min_by_key _ (enumerate (cl_logical core))) as [[j cpu]|] eqn:E2; [done|].
  apply min_by_key_None, enumerate_nil in E2. intros _. exfalso. by eapply Forall_lookup_1 in Hok.
Qed.

Lemma spread_idle_first : idle_first spread_candidate.
Proof.
  unfold spread_candidate. intros cores ci li Hok. destruct (min_by_key _ _) as [[i core]|] eqn:E.
  - apply filtered_min_Some in E as [Hc Hu]. intros (-> & cpu & ? & ?)%unused_of_Some. exists core, cpu. auto.
  - apply filtered_min_None in E. intros (core & cpu & ? & ?)%least_loaded_core_valid. exists core, cpu. auto.
Qed.

Lemma spread_None cores : cores_ok cores -> spread_candidate cores = None -> flat cores = [].
Proof.
  intros Hok. unfold spread_candidate. destruct (min_by_key _ _) as [[i core]|] eqn:E.
  - apply filtered_min_Some in E as [_ Hu]. destruct (unused_of_filtered i core Hu) as (? & ? & -> & _). done.
  - by intros ->%least_loaded_core_None.
Qed.

(** ** The planners *)

Section Planners.
Context (loads : gmap LogicalCpuId nat) (cores : list CoreLoad).
Hypothesis cores_nonempty : cores_ok cores.
Hypothesis some_cpu : flat cores <> [].
Hypothesis ids_nodup : NoDup (ll_id <$> flat cores).
Hypothesis assignments : forall c, c ∈ flat cores -> ll_assignments c = load_of loads (ll_id c).

Abbreviation wf := (sel_wf loads (flat cores)).
Abbreviation good := (plan_good loads (flat cores)).

Lemma selection_flat st : wf st -> flat (sel_cores st) <> [].
Proof.
  intros Hwf Hn. pose proof (sw_ids _ _ _ Hwf) as Hids. rewrite Hn in Hids. symmetry in Hids.
  by apply fmap_nil_inv in Hids.
Qed.

Lemma plan_spread_good requested n : exists r, plan_spread cores requested n = Ok r /\ good requested n r.
Proof.
  unfold plan_spread.
  destruct (select_while_wf loads (flat cores) ids_nodup spread_candidate n (mkSel cores [] false)
              spread_idle_first) as (r & st & -> & Hwf & Hlen & Hn).
  { by apply sel_start. }
  apply complete_good; [done|done|]. intros Hr. apply (selection_flat st Hwf), spread_None; [|by apply Hn].
  by apply (sw_cores loads (flat cores)).
Qed.

Lemma plan_compact_good requested n : exists r, plan_compact cores requested n = Ok r /\ good requested n r.
Proof.
  unfold plan_compact.
  destruct (select_while_wf loads (flat cores) ids_nodup compact_candidate n (mkSel cores [] false)
              (unused_only_idle_first _ compact_unused_only)) as (r1 & st1 & -> & Hwf1 & Hlen1 & _).
  { by apply sel_start. }
  destruct (select_while_wf loads (flat cores) ids_nodup compact_pressure_candidate r1 st1
              (least_assigned_idle_first (fun cores x => [- total_at cores x.1.1; Z.of_nat x.1.1; Z.of_nat x.1.2])) Hwf1)
    as (r & st & E & Hwf & Hlen & Hn). cbn [fst snd sel_selected length] in *. rewrite E.
  apply complete_good; [done|lia|]. intros Hr. apply (selection_flat st Hwf).
  apply (least_assigned_None (fun cores x => [- total_at cores x.1.1; Z.of_nat x.1.1; Z.of_nat x.1.2])). by apply Hn.
Qed.

Lemma plan_auto_good n : (0 < n)%nat -> exists r, plan_auto cores n = Ok r /\ good CpuAuto n r.
Proof.
  intros Hpos. unfold plan_auto.
  destruct (spread_phase_wf loads (flat cores) ids_nodup (seq 0 (length cores)) n (mkSel cores [] false))
    as (st0 & -> & Hwf0 & Hl0); [by apply sel_start| |done|].
  { apply Forall_forall. intros i [_ Hi]%elem_of_seq. done. }
  destruct (select_while_wf loads (flat cores) ids_nodup density_candidate (n - length (sel_selected st0)) st0
              (unused_only_idle_first _ density_unused_only) Hwf0) as (r1 & st1 & -> & Hwf1 & Hlen1 & _).
  destruct (select_while_wf loads (flat cores) ids_nodup least_loaded_logical r1 st1
              (least_assigned_idle_first (fun cores x => [total_at cores x.1.1; Z.of_nat x.1.1; Z.of_nat x.1.2])) Hwf1)
    as (r & st & E & Hwf & Hlen & Hn). cbn [fst snd sel_selected length] in *. rewrite E.
  apply complete_good; [done|lia|]. intros Hr. apply (selection_flat st Hwf).
  apply (least_assigned_None (fun cores x => [total_at cores x.1.1; Z.of_nat x.1.1; Z.of_nat x.1.2])). by apply Hn.
Qed.

End Planners.

(** ** From the topology to core loads *)

Definition topology_loads (topology : CpuTopology) (loads : gmap LogicalCpuId nat) : list LogicalLoad :=
  (fun cpu => mkLoad (lc_id cpu) (load_of loads (lc_id cpu))) <$> logical_cpus topology.

Lemma group_perm {A B} `{!EqDecision B} (key : A -> B) (ks : list B) (l : list A) :
  NoDup ks -> concat ((fun k => filter (fun x => key x = k) l) <$> ks) ≡ₚ filter (fun x => key x ∈ ks) l.
Proof.
  induction ks as [|k ks IH]; intros Hnd; cbn.
  - induction l as [|x l IHl]; [done|]. by rewrite filter_cons, decide_False by apply not_elem_of_nil.
  - apply NoDup_cons in Hnd as [Hk Hnd]. rewrite IH by done. clear IH.
    induction l as [|x l IHl]; [done|]. rewrite !filter_cons. pose proof (elem_of_cons ks (key x) k) as He.
    destruct (decide (key x = k)) as [E|Hne], (decide (key x ∈ ks)) as [Hin|Hnin], (decide (key x ∈ k :: ks));
      try tauto; try (by rewrite E in Hin).
    + cbn. by rewrite IHl.
    + by rewrite <- IHl, Permutation_middle.
Qed.

Lemma grouped_perm cpus : concat (grouped cpus) ≡ₚ cpus.
Proof.
  unfold grouped. rewrite group_perm.
  - apply reflexive_eq. apply list_filter_id. intros cpu Hc.
    rewrite (sort_by_key_perm id). apply elem_of_remove_dups. by apply list_elem_of_fmap_2.
  - rewrite (sort_by_key_perm id). apply NoDup_remove_dups.
Qed.

Lemma core_loads_flat topology loads : flat (core_loads topology loads) ≡ₚ topology_loads topology loads.
Proof.
  unfold core_loads, flat, topology_loads. rewrite sort_by_key_perm.
  rewrite <- (grouped_perm (logical_cpus topology)) at 2.
  induction (grouped (logical_cpus topology)) as [|g gs IH]; cbn; [done|].
  rewrite IH, fmap_app. apply Permutation_app_tail. cbn. by rewrite sort_by_key_perm.
Qed.

Lemma core_loads_ok topology loads : cores_ok (core_loads topology loads).
Proof.
  unfold cores_ok, core_loads. rewrite sort_by_key_perm. apply Forall_fmap, Forall_forall. intros g Hg. cbn.
  unfold grouped in Hg. apply list_elem_of_fmap in Hg as (k & -> & Hk).
  rewrite (sort_by_key_perm id) in Hk. apply elem_of_remove_dups, list_elem_of_fmap in Hk as (cpu & -> & Hc).
  intros Hn%fmap_nil_inv. assert (cpu ∈ filter (fun c => core_key c = core_key cpu) (logical_cpus topology)) as Hin
    by (by apply list_elem_of_filter).
  rewrite <- (sort_by_key_perm (fun c => id_key (lc_id c))), Hn in Hin. by apply not_elem_of_nil in Hin.
Qed.

Lemma idle_perm l1 l2 : l1 ≡ₚ l2 -> idle l1 = idle l2.
Proof. intros Hp. unfold idle. by rewrite Hp. Qed.

Lemma plan_good_perm loads l1 l2 p n r : l1 ≡ₚ l2 -> plan_good loads l1 p n r -> plan_good loads l2 p n r.
Proof.
  intros Hp []. split; try done.
  - intros i Hi. rewrite <- Hp. by apply pg_from0.
  - by rewrite <- (idle_perm _ _ Hp).
Qed.

Lemma plan_cpu_good topology loads policy n :
  logical_cpus topology <> [] -> NoDup (lc_id <$> logical_cpus topology) -> (0 < n)%nat -> policy <> CpuInherit ->
  exists r, plan_cpu topology loads policy n = Ok r /\ plan_good loads (topology_loads topology loads) policy n r.
Proof.
  intros Hne Hnd Hn Hpol. pose proof (core_loads_flat topology loads) as Hf.
  pose proof (core_loads_ok topology loads) as Hok. unfold plan_cpu.
  set (cores := core_loads topology loads) in *.
  assert (flat cores <> []) as Hne'.
  { intros E. rewrite E in Hf. apply Permutation_nil in Hf. by apply fmap_nil_inv in Hf. }
  assert (NoDup (ll_id <$> flat cores)) as Hnd'.
  { rewrite Hf. unfold topology_loads. by rewrite <- list_fmap_compose. }
  assert (forall c, c ∈ flat cores -> ll_assignments c = load_of loads (ll_id c)) as Ha.
  { intros c. rewrite Hf. intros (cpu & -> & _)%list_elem_of_fmap. done. }
  destruct policy; [done| | |].
  - destruct (plan_auto_good loads cores Hok Hne' Hnd' Ha n Hn) as (r & E & Hg). exists r.
    split; [exact E|by eapply plan_good_perm].
  - destruct (plan_spread_good loads cores Hok Hne' Hnd' Ha CpuSpread n) as (r & E & Hg). exists r.
    split; [exact E|by eapply plan_good_perm].
  - destruct (plan_compact_good loads cores Hok Hne' Hnd' Ha CpuCompact n) as (r & E & Hg). exists r.
    split; [exact E|by eapply plan_good_perm].
Qed.

(** ** NUMA node selection *)

Lemma insert_by_key_sorted {A} (key : A -> list Z) (hd : A -> Z) x l :
  (forall a, exists t, key a = hd a :: t) ->
  StronglySorted (fun a b => hd a <= hd b) l -> StronglySorted (fun a b => hd a <= hd b) (insert_by_key key x l).
Proof.
  intros Hhd. induction 1 as [|y l Hs IH Hall]; cbn; [by repeat constructor|].
  destruct (lex_ltb (key y) (key x)) eqn:E; destruct (Hhd x) as [t1 E1], (Hhd y) as [t2 E2];
    rewrite E1, E2 in E; cbn in E.
  - constructor; [done|]. rewrite insert_by_key_perm. constructor; [|done].
    apply orb_true_iff in E as [E|E]; breflect; lia.
  - apply orb_false_iff in E as [E _]. breflect. constructor; [by constructor|]. constructor; [done|].
    eapply Forall_impl; [exact Hall|]. cbn. lia.
Qed.

Lemma sort_by_key_sorted {A} (key : A -> list Z) (hd : A -> Z) l :
  (forall a, exists t, key a = hd a :: t) -> StronglySorted (fun a b => hd a <= hd b) (sort_by_key key l).
Proof. intros Hhd. induction l as [|x l IH]; cbn; [constructor|]. by apply insert_by_key_sorted. Qed.

Definition idle_cpus (topology : CpuTopology) (loads : gmap LogicalCpuId nat) : nat :=
  length (filter (fun cpu => load_of loads (lc_id cpu) = 0%nat) (logical_cpus topology)).

(** A node with the memory and the idle CPUs the request needs. *)
Definition node_fits (topology : CpuTopology) (loads : gmap LogicalCpuId nat) (reserved : gmap Z Z)
    (request : PlacementRequest) (node : HostNumaNode) : Prop :=
  node ∈ numa_nodes topology
  /\ pr_boot_memory_mib request <= nn_available_memory_mib node
  /\ pr_max_memory_mib request <= saturating_sub (nn_total_memory_mib node) (reserved_of reserved (nn_id node))
  /\ (pr_max_vcpus request <= idle_cpus (scoped_topology topology node) loads)%nat.

Lemma idle_topology_loads topology loads : idle (topology_loads topology loads) = idle_cpus topology loads.
Proof.
  unfold idle, topology_loads, idle_cpus. induction (logical_cpus topology) as [|c l IH]; [done|].
  rewrite fmap_cons, !filter_cons. cbn [ll_assignments]. destruct (decide _); cbn [length]; by rewrite IH.
Qed.

Lemma fitting_test topology loads reserved request node :
  node ∈ numa_nodes topology ->
  negb (node_can_fit_memory node (reserved_of reserved (nn_id node)) request)
  || negb (node_can_fit_unshared_cpus topology loads (nn_id node) (pr_max_vcpus request)) = false
  <-> node_fits topology loads reserved request node.
Proof.
  intros Hin. unfold node_can_fit_memory, node_can_fit_unshared_cpus, node_fits, idle_cpus.
  rewrite orb_false_iff, !negb_false_iff, andb_true_iff, !Z.leb_le, Nat.eqb_eq, length_take.
  cbn [logical_cpus scoped_topology]. intuition lia.
Qed.

(** The plan on one node. *)
Definition node_plan (request : PlacementRequest) (profile : PlacementProfile) (node : HostNumaNode)
    (resolved : ResolvedPlacement) : ResolvedPlacement :=
  set_numa resolved (Some (single_node_numa (nn_id node) (pr_max_vcpus request)
    (pr_boot_memory_mib request) (pr_max_memory_mib request) (pp_memory profile)
    (match pp_numa profile with StrictSingle => true | _ => false end))).

Section Numa.
Context (topology : CpuTopology) (loads : gmap LogicalCpuId nat) (reserved : gmap Z Z).
Context (request : PlacementRequest) (profile : PlacementProfile).
Hypothesis ids_nodup : NoDup (lc_id <$> logical_cpus topology).
Hypothesis vcpus_pos : (0 < pr_max_vcpus request)%nat.
Hypothesis managed : pr_policy request <> CpuInherit.

Lemma scoped_plan node :
  node_fits topology loads reserved request node ->
  exists r, plan_cpu (scoped_topology topology node) loads (pr_policy request) (pr_max_vcpus request) = Ok r
    /\ plan_good loads (topology_loads (scoped_topology topology node) loads) (pr_policy request) (pr_max_vcpus request) r
    /\ rp_shared r = false.
Proof.
  intros (_ & _ & _ & Hidle).
  destruct (plan_cpu_good (scoped_topology topology node) loads (pr_policy request) (pr_max_vcpus request))
    as (r & E & Hg); [| |done|done|].
  - intros Hn. unfold idle_cpus in Hidle. rewrite Hn in Hidle. cbn in Hidle. lia.
  - cbn. eapply sublist_NoDup; [exact ids_nodup|]. apply fmap_sublist, sublist_filter.
  - exists r. split; [done|]. split; [done|]. rewrite (pg_shared _ _ _ _ _ Hg), idle_topology_loads.
    by apply Nat.ltb_ge.
Qed.

Lemma first_fitting_spec l :
  (forall node, node ∈ l -> node ∈ numa_nodes topology) ->
  match first_fitting_node topology loads request reserved profile l with
  | None => forall node, node ∈ l -> ~ node_fits topology loads reserved request node
  | Some p => exists l1 node l2 r, l = l1 ++ node :: l2 /\ node_fits topology loads reserved request node
      /\ (forall node', node' ∈ l1 -> ~ node_fits topology loads reserved request node')
      /\ plan_cpu (scoped_topology topology node) loads (pr_policy request) (pr_max_vcpus request) = Ok r
      /\ p = node_plan request profile node r
  end.
Proof.
  induction l as [|node l IH]; intros Hall; cbn [first_fitting_node].
  { by intros node ?%not_elem_of_nil. }
  assert (node ∈ numa_nodes topology) as Hin by (apply Hall; by left).
  specialize (IH ltac:(intros n Hn; apply Hall; by right)).
  pose proof (fitting_test topology loads reserved request node Hin) as Hfit.
  destruct (negb _ || negb _).
  - assert (~ node_fits topology loads reserved request node) as Hno by (intros Hx; by apply Hfit in Hx).
    destruct (first_fitting_node _ _ _ _ _ l) as [p|].
    + destruct IH as (l1 & n & l2 & r & -> & Hn & Hl1 & E & ->). exists (node :: l1), n, l2, r.
      split; [done|]. split; [done|]. split; [|done]. intros n' [->|Hn']%elem_of_cons; [done|by apply Hl1].
    + intros n [->|Hn]%elem_of_cons; [done|by apply IH].
  - destruct (scoped_plan node) as (r & E & _); [by apply Hfit|]. rewrite E.
    exists [], node, l, r. split; [done|]. split; [by apply Hfit|]. split; [by intros n ?%not_elem_of_nil|done].
Qed.

End Numa.

(** [plan] for a managed policy and a single-node profile. *)
Lemma plan_single_unfold topology loads reserved request profile :
  (0 < pr_max_vcpus request)%nat -> pr_policy request <> CpuInherit ->
  pr_profile request = Some profile -> pp_numa profile <> NumaInherit ->
  plan topology loads request reserved
  = match first_fitting_node topology loads request reserved profile
            (sort_by_key (node_key reserved) (numa_nodes topology)) with
    | Some r => Ok r
    | None => match pp_numa profile with
              | StrictSingle => Err StrictSingleUnfit
              | _ => match plan_cpu topology loads (pr_policy request) (pr_max_vcpus request) with
                     | Ok r => Ok (set_fallback r (Some PreferSingleCapacity))
                     | Err e => Err e
                     end
              end
    end.
Proof.
  intros Hn Hp Hprof Hnuma. unfold plan. rewrite (proj2 (Nat.eqb_neq _ 0)) by lia. rewrite Hprof.
  destruct (pr_policy request), (pp_numa profile), (pp_memory profile); done.
Qed.

(** ** Properties *)

(** Managed placement always finds CPUs: on any non-empty topology every
    managed policy resolves to exactly one target per vCPU, all of them CPUs of
    the topology and each with its reservation; the plan is marked shared
    exactly when there are fewer idle CPUs than vCPUs, and when there are enough
    the targets are distinct idle CPUs.  No step of the planners panics. *)
Lemma cpu_plan_exact topology loads policy n :
  logical_cpus topology <> [] -> NoDup (lc_id <$> logical_cpus topology) -> (0 < n)%nat ->
  policy <> CpuInherit ->
  exists r, plan_cpu topology loads policy n = Ok r
  /\ length (rp_vcpu_targets r) = n
  /\ (forall id, id ∈ rp_vcpu_targets r -> id ∈ lc_id <$> logical_cpus topology)
  /\ rv_logical_cpu <$> rp_reservations r = rp_vcpu_targets r
  /\ rp_shared r = (idle_cpus topology loads <? n)%nat
  /\ ((n <= idle_cpus topology loads)%nat ->
      NoDup (rp_vcpu_targets r) /\ forall id, id ∈ rp_vcpu_targets r -> load_of loads id = 0%nat).
Proof.
  intros Hne Hnd Hn Hp. destruct (plan_cpu_good topology loads policy n Hne Hnd Hn Hp) as (r & E & Hg).
  exists r. destruct Hg as [_ Hc Hf Hs Hi Hr _]. rewrite idle_topology_loads in Hs.
  split; [done|]. split; [done|]. split; [|split; [done|split; [done|]]].
  - intros id Hid. apply Hf in Hid. unfold topology_loads in Hid. by rewrite <- list_fmap_compose in Hid.
  - intros Hle. apply Hi. rewrite Hs. by apply Nat.ltb_ge.
Qed.

(** Single-node placement is exact: when some NUMA node has the memory and
    the idle CPUs the request asks for, the plan puts every vCPU on distinct
    idle CPUs of one such node, the one with the most available memory among
    them, and records that node; when no node does, [strict_single] is refused
    and [prefer_single] falls back to an unconstrained plan. *)
Lemma numa_single_exact topology loads reserved request profile :
  NoDup (lc_id <$> logical_cpus topology) -> (0 < pr_max_vcpus request)%nat ->
  pr_policy request <> CpuInherit -> pr_profile request = Some profile -> pp_numa profile <> NumaInherit ->
  ((exists node, node_fits topology loads reserved request node) ->
   exists node r, plan topology loads request reserved = Ok r
   /\ node_fits topology loads reserved request node
   /\ (forall node', node_fits topology loads reserved request node' ->
       nn_available_memory_mib node' <= nn_available_memory_mib node)
   /\ length (rp_vcpu_targets r) = pr_max_vcpus request
   /\ (forall id, id ∈ rp_vcpu_targets r ->
       exists cpu, cpu ∈ logical_cpus topology /\ lc_id cpu = id /\ lc_numa_node cpu = nn_id node
         /\ load_of loads id = 0%nat)
   /\ NoDup (rp_vcpu_targets r)
   /\ rp_fallback r = None
   /\ (rn_host_node_id <$> (rp_numa r ≫= fun x => head (rnp_nodes x))) = Some (nn_id node))
  /\ ((forall node, ~ node_fits topology loads reserved request node) ->
   match pp_numa profile with
   | StrictSingle => plan topology loads request reserved = Err StrictSingleUnfit
   | _ => plan topology loads request reserved
          = match plan_cpu topology loads (pr_policy request) (pr_max_vcpus request) with
            | Ok r => Ok (set_fallback r (Some PreferSingleCapacity))
            | Err e => Err e
            end
   end).
Proof.
  intros Hnd Hn Hp Hprof Hnuma.
  rewrite (plan_single_unfold topology loads reserved request profile Hn Hp Hprof Hnuma).
  pose proof (first_fitting_spec topology loads reserved request profile Hnd Hn Hp
                (sort_by_key (node_key reserved) (numa_nodes topology))) as Hspec.
  specialize (Hspec ltac:(intros node; by rewrite sort_by_key_perm)).
  destruct (first_fitting_node _ _ _ _ _ _) as [p|].
  - destruct Hspec as (l1 & node & l2 & r & Hl & Hfit & Hbefore & E & ->).
    split; [|intros Hno; by destruct (Hno node)]. intros _. exists node, (node_plan request profile node r).
    destruct (scoped_plan topology loads reserved request Hnd Hn Hp node Hfit) as (r' & E' & [_ Hc Hf _ Hi _ Hpl] & Hsh).
    rewrite E in E'. injection E' as <-. destruct (Hi Hsh) as [Hdist Hidle].
    split; [done|]. split; [done|]. split; [|split; [done|split; [|split; [done|split; [apply Hpl|done]]]]].
    + intros node' Hfit'. pose proof (sort_by_key_sorted (node_key reserved) (fun n => - nn_available_memory_mib n)
        (numa_nodes topology) ltac:(by eexists)) as Hsorted. rewrite Hl in Hsorted.
      assert (node' ∈ l1 ++ node :: l2) as [Hin|[->|Hin]%elem_of_cons]%elem_of_app.
      { rewrite <- Hl, sort_by_key_perm. apply Hfit'. }
      * by destruct (Hbefore node').
      * lia.
      * apply StronglySorted_app_1_r in Hsorted. apply StronglySorted_inv in Hsorted as [_ Hall].
        rewrite Forall_forall in Hall. specialize (Hall node' Hin). cbn in Hall. lia.
    + intros id Hid. pose proof (Hf id Hid) as Hin. unfold topology_loads in Hin.
      rewrite <- list_fmap_compose in Hin. apply list_elem_of_fmap in Hin as (cpu & -> & Hcpu).
      cbn in Hcpu. apply list_elem_of_filter in Hcpu as [Hnode Hcpu]. exists cpu. by rewrite Hidle.
  - split.
    + intros [node Hfit]. exfalso. apply (Hspec node); [|done]. rewrite sort_by_key_perm. apply Hfit.
    + intros _. by destruct (pp_numa profile).
Qed.

(** ** Witnesses *)

(** Two nodes of two cores with two threads each; one thread of node 0 is busy. *)
Definition demo_cpu (i : Z) : LogicalCpu := mkCpu (mkCpuId 0 i) (i / 4) 0 (i / 2) (i / 4) 0.
Definition demo_topology : CpuTopology :=
  mkTopology (demo_cpu <$> [0; 1; 2; 3; 4; 5; 6; 7]) [mkNode 0 0 4096 2048 ∅; mkNode 1 1 4096 3072 ∅] EmptyString.
Definition demo_loads : gmap LogicalCpuId nat := {[ mkCpuId 0 0 := 1%nat ]}.
Definition demo_profile : PlacementProfile := mkProfile StrictSingle FollowCpu.
Definition demo_request : PlacementRequest := mkRequest CpuSpread 3 1024 2048 (Some demo_profile).

Lemma demo_ids_nodup : NoDup (lc_id <$> logical_cpus demo_topology).
Proof. apply (bool_decide_unpack _). vm_compute. exact I. Qed.

Lemma cpu_plan_exact_witness :
  exists r, plan_cpu demo_topology demo_loads CpuCompact 9 = Ok r
  /\ length (rp_vcpu_targets r) = 9%nat /\ rp_shared r = true.
Proof.
  destruct (cpu_plan_exact demo_topology demo_loads CpuCompact 9) as (r & E & Hl & _ & _ & Hs & _);
    [discriminate|exact demo_ids_nodup|lia|discriminate|].
  exists r. split; [exact E|]. split; [exact Hl|]. rewrite Hs. vm_compute. reflexivity.
Defined.

Lemma numa_single_exact_witness :
  exists node r, plan demo_topology demo_loads demo_request ∅ = Ok r
  /\ node_fits demo_topology demo_loads ∅ demo_request node /\ length (rp_vcpu_targets r) = 3%nat.
Proof.
  destruct (numa_single_exact demo_topology demo_loads ∅ demo_request demo_profile) as [Hfit _];
    [exact demo_ids_nodup|cbn; lia|discriminate|reflexivity|discriminate|].
  destruct Hfit as (node & r & E & Hn & _ & Hl & _).
  - exists (mkNode 1 1 4096 3072 ∅). split; [right; left|]. vm_compute. repeat split; try discriminate; lia.
  - exists node, r. split; [exact E|]. split; [exact Hn|exact Hl].
Defined.
