(* ===== verification/Writeback.v ===== *)
(** * Fair sharing of the writeback pool

    Models the arithmetic of [crates/runtime/lib/runner/writeback/admission.rs]:
    the per-disk target every runtime computes from the rows of the shared
    allocation table, the totals recorded at admission, and the check on lease
    names taken from the table.  Rows hold signed integers; [u64::try_from] is
    the test for a negative one. *)

From S2P Require Import Prelude.
From Stdlib Require Import Strings.Ascii.

(** A row of [writeback_allocation], the columns read here. *)
Record Allocation := mkAllocation {
  al_id : string; al_lease_name : string; al_per_disk_limit_bytes : Z; al_disk_count : Z;
  al_reserved_bytes : Z; al_pool_bytes : Z }.

Inductive writeback_error :=
| Disappeared | NegativeLimit (id : string) | NegativeCount (id : string) | NoDisksIn (id : string)
| NegativePool (id : string) | NegativeReserved (id : string)
| DiskTotalOverflow | NoDisks | FairShareOverflow | RequestedOverflow | RequestedTotalOverflow
| ExceedsI64 (label : string).

Abbreviation res A := (result writeback_error A).

(** [u64::try_from] of a signed column. *)
Definition u64_of (z : Z) (e : writeback_error) : res Z := if z <? 0 then Err e else Ok z.

Definition requested_max_bytes (per_disk_limit_bytes disk_count : Z) : res Z :=
  ok_or (checked_mul 64 per_disk_limit_bytes disk_count) RequestedOverflow.

Definition to_i64 (value : Z) (label : string) : res Z :=
  if 2 ^ 63 <=? value then Err (ExceedsI64 label) else Ok value.

Definition total_requested_bytes (allocations : list Allocation) : res Z :=
  try_fold (fun total a =>
    let? reserved := u64_of (al_reserved_bytes a) (NegativeReserved (al_id a)) in
    ok_or (checked_add 64 total reserved) RequestedTotalOverflow) 0 allocations.

Definition most_restrictive_pool_bytes (requested_pool_bytes : Z) (allocations : list Allocation) : res Z :=
  try_fold (fun minimum a =>
    let? pool_bytes := u64_of (al_pool_bytes a) (NegativePool (al_id a)) in
    Ok (Z.min minimum pool_bytes)) requested_pool_bytes allocations.

Definition allocation_limit_bytes (a : Allocation) : res Z :=
  u64_of (al_per_disk_limit_bytes a) (NegativeLimit (al_id a)).

Definition allocation_disk_count (a : Allocation) : res Z :=
  let? disk_count := u64_of (al_disk_count a) (NegativeCount (al_id a)) in
  if disk_count =? 0 then Err (NoDisksIn (al_id a)) else Ok disk_count.

Definition limit_and_count (a : Allocation) : res (Z * Z) :=
  let? limit := allocation_limit_bytes a in
  let? count := allocation_disk_count a in
  Ok (limit, count).

(** [sort_unstable_by_key] on the limit. *)
Definition by_limit (x y : Z * Z) : Prop := x.1 <= y.1.
#[global] Instance by_limit_dec : RelDecision by_limit.
Proof. unfold by_limit. solve_decision. Defined.

(** The loop over the sorted limits. *)
Fixpoint fill (requested_limit : Z) (limits : list (Z * Z)) (remaining_pool remaining_disks : Z) : res Z :=
  match limits with
  | [] => Ok requested_limit
  | (configured_limit, disk_count) :: limits' =>
      let waterline := remaining_pool / remaining_disks in
      if waterline <=? configured_limit then Ok (Z.min requested_limit (Z.max waterline 1))
      else
        let? allocation_bytes := ok_or (checked_mul 64 configured_limit disk_count) FairShareOverflow in
        let remaining_pool := saturating_sub remaining_pool allocation_bytes in
        let remaining_disks := remaining_disks - disk_count in
        if remaining_disks =? 0 then Ok requested_limit
        else fill requested_limit limits' remaining_pool remaining_disks
  end.

Definition fair_target_bytes (allocation_id : string) (allocations : list Allocation) : res Z :=
  let? allocation := ok_or (List.find (fun a => bool_decide (al_id a = allocation_id)) allocations) Disappeared in
  let? requested_limit := allocation_limit_bytes allocation in
  let? pool_bytes := most_restrictive_pool_bytes (u_max 64) allocations in
  let? limits := collect_results limit_and_count allocations in
  let limits := merge_sort by_limit limits in
  let? remaining_disks :=
    try_fold (fun total lc => ok_or (checked_add 64 total lc.2) DiskTotalOverflow) 0 limits in
  if remaining_disks =? 0 then Err NoDisks
  else fill requested_limit limits pool_bytes remaining_disks.

(** ** Lease names *)

Definition is_ascii_hexdigit (c : ascii) : bool :=
  let n := Z.of_nat (nat_of_ascii c) in
  ((48 <=? n) && (n <=? 57)) || ((65 <=? n) && (n <=? 70)) || ((97 <=? n) && (n <=? 102)).

Fixpoint all_chars (P : ascii -> bool) (s : string) : bool :=
  match s with EmptyString => true | String c s' => P c && all_chars P s' end.

#[local] Open Scope string_scope.
Definition is_valid_lease_name (allocation_id lease_name : string) : bool :=
  (String.length allocation_id =? 32)%nat && all_chars is_ascii_hexdigit allocation_id
  && bool_decide (lease_name = String.append allocation_id ".lock").
#[local] Close Scope string_scope.

(** ** Filling the pool *)

(** Bytes taken by disks with these limits under a waterline. *)
Fixpoint usage (waterline : Z) (limits : list (Z * Z)) : Z :=
  match limits with [] => 0 | (limit, count) :: l => count * Z.min limit waterline + usage waterline l end.
Fixpoint disks (limits : list (Z * Z)) : Z :=
  match limits with [] => 0 | (_, count) :: l => count + disks l end.
Definition limits_ok (limits : list (Z * Z)) : Prop := Forall (fun lc => 0 <= lc.1 /\ 1 <= lc.2) limits.

Lemma disks_nonneg l : limits_ok l -> 0 <= disks l.
Proof. induction 1 as [|[m c] l [Hm Hc] _ IH]; cbn in *; lia. Qed.

Lemma usage_low w l : limits_ok l -> 0 <= w -> usage w l <= w * disks l.
Proof. intros Hok Hw. induction Hok as [|[m c] l [Hm Hc] _ IH]; cbn in *; [lia|]. nia. Qed.

Lemma usage_capped w l : Forall (fun lc => w <= lc.1) l -> usage w l = w * disks l.
Proof. induction 1 as [|[m c] l Hm _ IH]; cbn in *; [lia|]. rewrite IH, Z.min_r by done. lia. Qed.

(** What the loop computes: one waterline for every requested limit up to [M]. *)
Lemma fill_spec M limits pool :
  limits_ok limits -> StronglySorted by_limit limits -> Forall (fun lc => lc.1 <= M) limits ->
  0 <= pool < 2 ^ 64 -> 0 < disks limits ->
  exists w, 1 <= w /\ Z.min M (pool / disks limits) <= w
  /\ (forall requested, requested <= M -> fill requested limits pool (disks limits) = Ok (Z.min requested w))
  /\ usage w limits <= Z.max pool (disks limits)
  /\ (disks limits <= pool -> Exists (fun lc => w < lc.1) limits -> pool < usage w limits + disks limits).
Proof.
  intros Hok Hs. revert pool. induction Hs as [|[m c] l Hs IH Hall]; intros pool HM Hpool HD; [cbn in HD; lia|].
  apply Forall_cons in Hok as [[Hm Hc] Hok]. apply Forall_cons in HM as [HmM HM]. cbn [fst snd] in *.
  pose proof (disks_nonneg l Hok) as HD'. cbn [disks usage] in *. set (D := c + disks l) in *.
  pose proof (Z.div_pos pool D ltac:(lia) HD) as HW0. pose proof (Z.mul_div_le pool D HD) as HW1.
  pose proof (Z.mul_succ_div_gt pool D HD) as HW2. set (W := pool / D) in *.
  destruct (Z.leb_spec W m) as [Hle|Hlt].
  - exists (Z.max W 1). split; [lia|]. split; [lia|]. split; [|split].
    + intros requested _. cbn [fill]. fold W. by rewrite (proj2 (Z.leb_le _ _)).
    + pose proof (usage_low (Z.max W 1) l Hok ltac:(lia)) as Hu.
      destruct (decide (W = 0)) as [->|]; [cbn in *; nia|]. rewrite Z.max_l in * by lia. nia.
    + intros HDp _. assert (1 <= W) as HW by (apply Z.div_le_lower_bound; lia).
      rewrite Z.max_l in * by lia. rewrite (usage_capped W l), Z.min_r; [nia|lia|].
      eapply Forall_impl; [exact Hall|]. unfold by_limit. cbn. lia.
  - assert (m * c <= W * c) as Hmc by nia. assert (W * c <= W * D) as HcD by nia.
    assert (checked_mul 64 m c = Some (m * c)) as Hmul by (apply checked_mul_Some; split; [done|lia]).
    assert (forall requested, fill requested ((m, c) :: l) pool D
      = if disks l =? 0 then Ok requested else fill requested l (pool - m * c) (disks l)) as Hfill.
    { intros requested. cbn [fill]. fold W. rewrite (proj2 (Z.leb_gt _ _)), Hmul by lia. cbn [ok_or].
      unfold saturating_sub. rewrite Z.max_r by lia. by replace (D - c) with (disks l) by lia. }
    destruct (Z.eqb_spec (disks l) 0) as [Hz|Hnz].
    + assert (l = []) as -> by (destruct l as [|[m' c'] l]; [done|]; apply Forall_cons in Hok as [[_ Hc'] Hok];
        pose proof (disks_nonneg l Hok); cbn in *; lia).
      exists (Z.max 1 M). split; [lia|]. split; [lia|]. split; [|split].
      * intros requested Hr. rewrite Hfill. f_equal. lia.
      * cbn. rewrite Z.min_l by lia. lia.
      * intros _ [Hx|Hx]%Exists_cons; [cbn in Hx; lia|by apply Exists_nil in Hx].
    + assert (W * disks l <= pool - m * c) as Hrest by nia.
      destruct (IH Hok (pool - m * c) HM ltac:(nia) ltac:(lia)) as (w & Hw1 & Hw2 & Hf & Hu & Hx).
      assert (W <= (pool - m * c) / disks l) as HWW by (apply Z.div_le_lower_bound; lia).
      exists w. split; [done|]. split; [lia|]. split; [|split].
      * intros requested Hr. rewrite Hfill. by apply Hf.
      * rewrite (Z.min_l m w) by lia. nia.
      * intros HDp [Hx'|Hx']%Exists_cons; [cbn in Hx'; lia|].
        rewrite (Z.min_l m w) by lia. specialize (Hx ltac:(nia) Hx'). nia.
Qed.

(** ** Rows of the table *)

Definition row_ok (a : Allocation) : Prop :=
  0 <= al_per_disk_limit_bytes a < 2 ^ 63 /\ 1 <= al_disk_count a < 2 ^ 31 /\ 0 <= al_pool_bytes a < 2 ^ 63.

Definition row (a : Allocation) : Z * Z := (al_per_disk_limit_bytes a, al_disk_count a).

(** The smallest pool any live runtime was configured with. *)
Definition active_pool (allocations : list Allocation) : Z :=
  foldr (fun a m => Z.min (al_pool_bytes a) m) (u_max 64) allocations.

#[global] Instance by_limit_trans : Transitive by_limit.
Proof. intros x y z. unfold by_limit. lia. Qed.
#[global] Instance by_limit_total : Total by_limit.
Proof. intros x y. unfold by_limit. lia. Qed.

Lemma u64_of_nonneg z e : 0 <= z -> u64_of z e = Ok z.
Proof. intros Hz. unfold u64_of. by rewrite (proj2 (Z.ltb_ge _ _)). Qed.

Lemma rows_collect l : Forall row_ok l -> collect_results limit_and_count l = Ok (row <$> l).
Proof.
  intros Hl. apply collect_results_Forall2. induction Hl as [|a l (H1 & H2 & H3) _ IH]; cbn; [constructor|].
  constructor; [|done]. unfold limit_and_count, allocation_limit_bytes, allocation_disk_count.
  rewrite !u64_of_nonneg by lia. by rewrite (proj2 (Z.eqb_neq _ _)) by lia.
Qed.

Lemma rows_pool l acc : Forall row_ok l ->
  most_restrictive_pool_bytes acc l = Ok (foldr (fun a m => Z.min (al_pool_bytes a) m) acc l).
Proof.
  intros Hl. revert acc. unfold most_restrictive_pool_bytes.
  assert (forall acc x, foldr (fun a m => Z.min (al_pool_bytes a) m) (Z.min acc x) l
    = Z.min x (foldr (fun a m => Z.min (al_pool_bytes a) m) acc l)) as Hfold.
  { clear Hl. induction l as [|a l IH]; intros acc x; cbn; [lia|]. rewrite IH. lia. }
  induction Hl as [|a l (H1 & H2 & H3) _ IH]; intros acc; cbn [try_fold foldr]; [done|].
  rewrite u64_of_nonneg by lia. rewrite IH.
  - f_equal. specialize (Hfold acc (al_pool_bytes a)). cbn in Hfold. clear IH.
    induction l as [|b l IHl]; cbn in *; lia.
  - intros acc' x. clear. induction l as [|b l IHl]; cbn; [lia|]. rewrite IHl. lia.
Qed.

Lemma disks_total l acc : limits_ok l -> 0 <= acc -> acc + disks l < 2 ^ 64 ->
  try_fold (fun total (lc : Z * Z) => ok_or (checked_add 64 total lc.2) DiskTotalOverflow) acc l
  = Ok (acc + disks l).
Proof.
  intros Hok. revert acc. induction Hok as [|[m c] l [Hm Hc] Hok IH]; intros acc H0 Hlt; cbn in *; [f_equal; lia|].
  pose proof (disks_nonneg l Hok). rewrite (proj2 (checked_add_Some 64 acc c (acc + c))) by lia. cbn.
  rewrite IH by lia. f_equal. lia.
Qed.

Lemma usage_perm w l1 l2 : l1 ≡ₚ l2 -> usage w l1 = usage w l2.
Proof. induction 1 as [|[] ? ? ? IH|[] []| ]; cbn in *; lia. Qed.
Lemma disks_perm l1 l2 : l1 ≡ₚ l2 -> disks l1 = disks l2.
Proof. induction 1 as [|[] ? ? ? IH|[] []| ]; cbn in *; lia. Qed.

Lemma rows_ok l : Forall row_ok l -> limits_ok (row <$> l).
Proof. induction 1 as [|a l (H1 & H2 & H3) _ IH]; cbn; constructor; [cbn; lia|done]. Qed.

Lemma active_pool_bound l : Forall row_ok l -> 0 <= active_pool l < 2 ^ 64.
Proof.
  unfold active_pool. induction 1 as [|a l (H1 & H2 & H3) _ IH]; [by vm_compute|]. cbn [foldr]. lia.
Qed.

Lemma find_by_id l a : NoDup (al_id <$> l) -> a ∈ l ->
  List.find (fun b => bool_decide (al_id b = al_id a)) l = Some a.
Proof.
  induction l as [|b l IH]; [by intros _ ?%not_elem_of_nil|]. cbn. intros [Hb Hnd]%NoDup_cons [->|Hin]%elem_of_cons.
  - by rewrite bool_decide_eq_true_2.
  - rewrite bool_decide_eq_false_2; [by apply IH|]. intros E. apply Hb. rewrite E. by apply list_elem_of_fmap_2.
Qed.

(** The targets of all runtimes come from one waterline: every runtime's
    per-disk target is its configured limit capped by the same value, at least
    one byte; together the disks stay within the active pool, or within one
    byte each when the pool is smaller than the number of disks; and when some
    limit is capped, less than one byte per disk of the pool is left unused. *)
Lemma writeback_fair_share allocations :
  allocations <> [] -> Forall row_ok allocations -> NoDup (al_id <$> allocations) ->
  disks (row <$> allocations) < 2 ^ 64 ->
  exists w, 1 <= w
  /\ (forall a, a ∈ allocations ->
      fair_target_bytes (al_id a) allocations = Ok (Z.min (al_per_disk_limit_bytes a) w))
  /\ usage w (row <$> allocations) <= Z.max (active_pool allocations) (disks (row <$> allocations))
  /\ (disks (row <$> allocations) <= active_pool allocations ->
      (exists a, a ∈ allocations /\ w < al_per_disk_limit_bytes a) ->
      active_pool allocations < usage w (row <$> allocations) + disks (row <$> allocations)).
Proof.
  intros Hne Hok Hnd Hd. pose proof (rows_ok _ Hok) as Hlok.
  pose proof (merge_sort_Permutation by_limit (row <$> allocations)) as Hperm.
  set (limits := merge_sort by_limit (row <$> allocations)) in *.
  assert (limits_ok limits) as Hlok' by (unfold limits_ok; by rewrite Hperm).
  rewrite <- (disks_perm _ _ Hperm) in *.
  assert (0 < disks limits) as Hpos.
  { rewrite (disks_perm _ _ Hperm). destruct allocations as [|a l]; [done|].
    apply Forall_cons in Hok as [(_ & H2 & _) Hok]. pose proof (disks_nonneg _ (rows_ok l Hok)). cbn. lia. }
  destruct (fill_spec (2 ^ 63) limits (active_pool allocations) Hlok') as (w & Hw & _ & Hf & Hu & Hx).
  - apply StronglySorted_merge_sort; apply _.
  - rewrite Hperm. apply Forall_fmap. eapply Forall_impl; [exact Hok|]. intros a (H1 & _). cbn. lia.
  - by apply active_pool_bound.
  - done.
  - exists w. rewrite <- !(usage_perm w _ _ Hperm). split; [done|]. split; [|split; [done|]].
    + intros a Ha. unfold fair_target_bytes. rewrite find_by_id by done. cbn [ok_or].
      rewrite Forall_forall in Hok. pose proof (Hok a Ha) as (Hl & _ & _). rewrite <- Forall_forall in Hok.
      unfold allocation_limit_bytes. rewrite u64_of_nonneg by lia. rewrite rows_pool, rows_collect by done.
      fold limits. rewrite disks_total by (done || lia). rewrite Z.add_0_l, (proj2 (Z.eqb_neq _ _)) by lia.
      apply Hf. lia.
    + intros Hle (a & Ha & Hwa). apply Hx; [done|]. apply Exists_exists. exists (row a). split; [|done].
      rewrite Hperm. by apply list_elem_of_fmap_2.
Qed.

(** A valid lease name is a plain file name: it has no path separator, so the
    lease path stays inside the lease directory. *)
Lemma valid_lease_name_plain allocation_id lease_name :
  is_valid_lease_name allocation_id lease_name = true ->
  all_chars (fun c => negb (bool_decide (c = "/"%char))) lease_name = true.
Proof.
  unfold is_valid_lease_name. rewrite !andb_true_iff, bool_decide_eq_true. intros [[_ Hhex] ->].
  induction allocation_id as [|c s IH]; [reflexivity|]. cbn [all_chars] in Hhex.
  apply andb_true_iff in Hhex as [Hc Hs]. change (String.append (String c s) ?x) with (String c (String.append s x)).
  cbn [all_chars]. rewrite IH by done. rewrite bool_decide_eq_false_2; [done|]. by intros ->.
Qed.

(** ** Witnesses *)

#[local] Open Scope string_scope.
Definition demo_rows : list Allocation :=
  [mkAllocation "a" "a.lock" 10 2 20 100; mkAllocation "b" "b.lock" 1000 3 3000 90].
Definition tiny_pool_rows : list Allocation :=
  [mkAllocation "a" "a.lock" 10 1 10 1; mkAllocation "b" "b.lock" 10 1 10 1].

Lemma writeback_fair_share_witness :
  exists w, fair_target_bytes "a" demo_rows = Ok (Z.min 10 w) /\ fair_target_bytes "b" demo_rows = Ok (Z.min 1000 w)
  /\ usage w (row <$> demo_rows) <= 90.
Proof.
  destruct (writeback_fair_share demo_rows) as (w & _ & Ht & Hu & _).
  - discriminate.
  - repeat constructor; cbn; lia.
  - apply (bool_decide_unpack _). vm_compute. exact I.
  - cbn. lia.
  - exists w. split; [|split].
    + apply (Ht (mkAllocation "a" "a.lock" 10 2 20 100)). left.
    + apply (Ht (mkAllocation "b" "b.lock" 1000 3 3000 90)). right. left.
    + exact Hu.
Defined.

(** The minimum of one byte per disk takes the total above a pool smaller than
    the number of disks. *)
Lemma tiny_pool_exceeded :
  fair_target_bytes "a" tiny_pool_rows = Ok 1 /\ fair_target_bytes "b" tiny_pool_rows = Ok 1
  /\ active_pool tiny_pool_rows = 1.
Proof. vm_compute. auto. Qed.
#[local] Close Scope string_scope.
