(* ===== verification/Metrics.v ===== *)
(** * The metrics registry

    [crates/metrics/lib]: a region of shared memory in which the runtimes of
    sandboxes publish samples and collectors read them.  Processes synchronise
    through atomics only: a state, a generation and a sequence lock per slot.

    A method is a program of atomic operations ([prog]); [MetricsShared] gives
    the interleavings of programs and the theorems.  A slot is its cells, the
    atomics of the struct [Slot].  [chrono] is the class [Chrono]; whether a
    process is alive and whether a deadline has passed are answers of the
    environment; [f32] values are their bits. *)

From S2P Require Import Prelude Text.

(** ** Programs of atomic operations *)

(** The atomics of [layout::Slot], in order. *)
Inductive Cell :=
  | c_state | c_generation | c_seq
  | c_sandbox_id | c_run_id | c_pid | c_started_at_unix_ms | c_sampled_at_unix_ms | c_sample_flags
  | c_memory_limit_bytes | c_vcpu_time_ns | c_cpu_percent_bits
  | c_memory_bytes | c_memory_available_bytes | c_memory_host_resident_bytes
  | c_disk_read_bytes | c_disk_write_bytes | c_net_rx_bytes | c_net_tx_bytes
  | c_upper_used_bytes | c_upper_free_bytes | c_upper_host_allocated_bytes
  | c_name_len | c_name_byte (i : nat).

#[export] Instance Cell_eq_dec : EqDecision Cell.
Proof. solve_decision. Defined.

(** The fields of [layout::Header]. *)
Inductive HeaderField :=
  | hd_magic | hd_version | hd_header_len | hd_slot_len | hd_capacity | hd_state | hd_created_at_unix_ms | hd_global_generation.

#[export] Instance HeaderField_eq_dec : EqDecision HeaderField.
Proof. solve_decision. Defined.

Inductive Loc :=
  | Header (f : HeaderField)
  | Slot (idx : Z) (c : Cell).

#[export] Instance Loc_eq_dec : EqDecision Loc.
Proof. solve_decision. Defined.

(** What a program asks of the memory and of its environment. *)
Inductive Event : Type -> Type :=
  | Load (l : Loc) : Event Z
  | Store (l : Loc) (v : Z) : Event ()
  | CompareExchange (l : Loc) (current new : Z) : Event (result Z Z)
  | FetchAdd (l : Loc) (n : Z) : Event Z
  | ProcessAlive (pid : Z) : Event bool
  | DeadlinePassed : Event bool.

(** [Loop body k] runs [body] until it returns [Some b] and goes on with [k b]. *)
Inductive prog (A : Type) : Type :=
  | Ret (a : A)
  | Do {B} (e : Event B) (k : B -> prog A)
  | Loop {B} (body : prog (option B)) (k : B -> prog A).
Arguments Ret {A} a.
Arguments Do {A B} e k.
Arguments Loop {A B} body k.

Fixpoint pbind {A C} (p : prog A) (f : A -> prog C) : prog C :=
  match p with
  | Ret a => f a
  | Do e k => Do e (fun r => pbind (k r) f)
  | Loop body k => Loop body (fun b => pbind (k b) f)
  end.

Declare Scope prog_scope.
Delimit Scope prog_scope with prog.
Notation "'let~' x ':=' p 'in' k" := (pbind p (fun x => k))
  (at level 10, x pattern, p at level 100, k at level 200) : prog_scope.
(** [?] *)
Notation "'let~?' x ':=' p 'in' k" := (pbind p (fun r => match r with Ok x => k | Err e => Ret (Err e) end))
  (at level 10, x pattern, p at level 100, k at level 200) : prog_scope.
Open Scope prog_scope.

Definition trigger {B} (e : Event B) : prog B := Do e Ret.
Definition load (l : Loc) : prog Z := trigger (Load l).
Definition store (l : Loc) (v : Z) : prog () := trigger (Store l v).
Definition compare_exchange (l : Loc) (current new : Z) : prog (result Z Z) := trigger (CompareExchange l current new).
Definition fetch_add (l : Loc) (n : Z) : prog Z := trigger (FetchAdd l n).
Definition loop {B} (body : prog (option B)) : prog B := Loop body Ret.

(** A [for] loop that may return early. *)
Fixpoint first_some {A B} (f : A -> prog (option B)) (l : list A) : prog (option B) :=
  match l with
  | [] => Ret None
  | a :: l => let~ r := f a in match r with Some b => Ret (Some b) | None => first_some f l end
  end.

Fixpoint filter_map {A B} (f : A -> prog (option B)) (l : list A) : prog (list B) :=
  match l with
  | [] => Ret []
  | a :: l =>
      let~ r := f a in
      let~ rest := filter_map f l in
      Ret (match r with Some b => b :: rest | None => rest end)
  end.

Fixpoint for_each {A} (f : A -> prog ()) (l : list A) : prog () :=
  match l with
  | [] => Ret ()
  | a :: l => let~ _ := f a in for_each f l
  end.

(** ** Layout *)

Definition REGISTRY_MAGIC : Z := 0x31305445_4d42534d.
Definition REGISTRY_VERSION : Z := 3.
Definition DEFAULT_CAPACITY : Z := 1024.
Definition NAME_BYTES : nat := 128.
Definition SLOT_SIZE : Z := 512.
Definition HEADER_SIZE : Z := 256.
Definition HEADER_STATE_UNINIT : Z := 0.
Definition HEADER_STATE_INITIALIZING : Z := 1.
Definition HEADER_STATE_READY : Z := 2.
Definition SLOT_FREE : Z := 0.
Definition SLOT_RESERVED : Z := 1.
Definition SLOT_ACTIVE : Z := 2.
Definition SLOT_STALE : Z := 3.
Definition SAMPLE_FLAG_CPU : Z := 1.
Definition SAMPLE_FLAG_MEMORY_USED : Z := 2.
Definition SAMPLE_FLAG_MEMORY_AVAILABLE : Z := 4.
Definition SAMPLE_FLAG_MEMORY_HOST_RESIDENT : Z := 8.
Definition SAMPLE_FLAG_UPPER_USED : Z := 16.
Definition SAMPLE_FLAG_UPPER_FREE : Z := 32.
Definition SAMPLE_FLAG_UPPER_HOST_ALLOCATED : Z := 64.
Definition SAMPLE_FLAG_MEMORY_LIMIT_LIVE : Z := 128.

Definition registry_size (capacity : Z) : Z := HEADER_SIZE + capacity * SLOT_SIZE.

(** ** Types *)

(** The [chrono] operations in use: [DateTime::timestamp_millis],
    [Utc.timestamp_millis_opt(_).single()], and [signed_duration_since] with
    [to_std]. *)
Class Chrono := {
  DateTime : Type;
  Duration : Type;
  timestamp_millis : DateTime -> Z;
  timestamp_millis_opt : Z -> option DateTime;
  UNIX_EPOCH : DateTime;
  duration_since : DateTime -> DateTime -> option Duration;
  zero_duration : Duration
}.

(** [error::MetricsError], the messages of [Custom] as constructors. *)
Inductive MetricsError :=
  | Full
  | GenerationMismatch (expected actual : Z)
  | NameTooLong
  | SlotOutOfRange
  | NotReserved (actual : Z)
  | WriterInProgress
  | StillInitializing
  | InvalidHeaderState (state : Z)
  | InvalidMagic
  | IncompatibleVersion
  | UnexpectedHeaderLength
  | UnexpectedSlotLength
  | CapacityMismatch.

Inductive ReleaseMode := ReleaseStale | ReleaseFree.
Inductive LiveMetricState := MetricActive | MetricStale.

#[export] Instance LiveMetricState_eq_dec : EqDecision LiveMetricState.
Proof. solve_decision. Defined.

(** A handle: the mapped region is the memory of the programs. *)
Record MetricsRegistry := mkRegistry { capacity : Z }.

Record ReserveSlot := mkReserve {
  rs_sandbox_id : Z;
  rs_name : list byte;
  rs_memory_limit_bytes : Z
}.

Record SlotReservation := mkReservation {
  sr_slot : Z;
  sr_generation : Z
}.

Record MetricsSlotWriter := mkWriter {
  w_registry : MetricsRegistry;
  w_slot : Z;
  w_generation : Z
}.

Section Metrics.
Context `{Chrono}.

Record ActivateSlot := mkActivate {
  as_slot : Z;
  as_generation : Z;
  as_run_id : Z;
  as_pid : Z;
  as_started_at : DateTime
}.

Record SampleWrite := mkSample {
  sampled_at : DateTime;
  sw_cpu_percent : option Z;
  sw_vcpu_time_ns : option Z;
  sw_memory_bytes : option Z;
  sw_memory_available_bytes : option Z;
  sw_memory_host_resident_bytes : option Z;
  sw_memory_limit_bytes : option Z;
  sw_disk_read_bytes : Z;
  sw_disk_write_bytes : Z;
  sw_net_rx_bytes : Z;
  sw_net_tx_bytes : Z;
  sw_upper_used_bytes : option Z;
  sw_upper_free_bytes : option Z;
  sw_upper_host_allocated_bytes : option Z
}.

Record LiveMetric := mkMetric {
  lm_state : LiveMetricState;
  lm_sandbox_id : Z;
  lm_run_id : Z;
  lm_pid : Z;
  lm_name : list byte;
  lm_timestamp : DateTime;
  lm_uptime : Duration;
  lm_cpu_percent : Z;
  lm_vcpu_time_ns : Z;
  lm_memory_bytes : Z;
  lm_memory_bytes_reported : bool;
  lm_memory_available_bytes : option Z;
  lm_memory_host_resident_bytes : option Z;
  lm_memory_limit_bytes : Z;
  lm_memory_limit_live : bool;
  lm_disk_read_bytes : Z;
  lm_disk_write_bytes : Z;
  lm_net_rx_bytes : Z;
  lm_net_tx_bytes : Z;
  lm_upper_used_bytes : option Z;
  lm_upper_free_bytes : option Z;
  lm_upper_host_allocated_bytes : option Z
}.

Record IdentifiedMetric := mkIdentified {
  im_metric : LiveMetric;
  im_slot : Z;
  im_generation : Z;
  im_registry_created_at_ms : Z;
  im_started_at_ms : Z
}.

(** ** The sequence lock *)

Definition begin_write (idx : Z) : prog Z :=
  loop (
    let~ seq := load (Slot idx c_seq) in
    if Z.odd seq then Ret None
    else
      let begin := wrap 64 (seq + 1) in
      let~ r := compare_exchange (Slot idx c_seq) seq begin in
      Ret (if is_ok r then Some begin else None)).

Definition end_write (idx : Z) : prog () :=
  let~ _ := fetch_add (Slot idx c_seq) 1 in
  Ret ().

Definition quiesce_seq (idx : Z) (force_if_busy : bool) : prog (result MetricsError ()) :=
  loop (
    let~ s := load (Slot idx c_seq) in
    if Z.even s then Ret (Some (Ok ()))
    else
      let~ expired := trigger DeadlinePassed in
      if expired then
        if negb force_if_busy then Ret (Some (Err WriterInProgress))
        else
          let~ _ := compare_exchange (Slot idx c_seq) s (wrap 64 (s + 1)) in
          Ret None
      else Ret None).

Definition next_generation : prog Z :=
  let~ g := fetch_add (Header hd_global_generation) 1 in
  Ret (g + 1).

Definition try_slot (reg : MetricsRegistry) (idx : Z) : result MetricsError Z :=
  if capacity reg <=? idx then Err SlotOutOfRange else Ok idx.

Definition pid_is_alive (pid : Z) : prog bool :=
  if pid <=? 0 then Ret false else trigger (ProcessAlive pid).

(** ** Reservations *)

Definition write_name (idx : Z) (name : list byte) : prog () :=
  let len := Nat.min (length name) NAME_BYTES in
  let~ _ := for_each (fun '(i, b) => store (Slot idx (c_name_byte i)) (Z_of_byte b)) (imap pair (take len name)) in
  let~ _ := for_each (fun i => store (Slot idx (c_name_byte i)) 0) (seq len (NAME_BYTES - len)) in
  store (Slot idx c_name_len) (Z.of_nat len).

Definition write_reservation_fields (idx : Z) (spec : ReserveSlot) (generation : Z) : prog () :=
  let~ _ := begin_write idx in
  let~ _ := store (Slot idx c_sandbox_id) (rs_sandbox_id spec) in
  let~ _ := store (Slot idx c_run_id) 0 in
  let~ _ := store (Slot idx c_pid) 0 in
  let~ _ := store (Slot idx c_started_at_unix_ms) 0 in
  let~ _ := store (Slot idx c_sampled_at_unix_ms) 0 in
  let~ _ := store (Slot idx c_sample_flags) 0 in
  let~ _ := store (Slot idx c_memory_limit_bytes) (rs_memory_limit_bytes spec) in
  let~ _ := store (Slot idx c_vcpu_time_ns) 0 in
  let~ _ := store (Slot idx c_cpu_percent_bits) 0 in
  let~ _ := store (Slot idx c_memory_bytes) 0 in
  let~ _ := store (Slot idx c_memory_available_bytes) 0 in
  let~ _ := store (Slot idx c_memory_host_resident_bytes) 0 in
  let~ _ := store (Slot idx c_disk_read_bytes) 0 in
  let~ _ := store (Slot idx c_disk_write_bytes) 0 in
  let~ _ := store (Slot idx c_net_rx_bytes) 0 in
  let~ _ := store (Slot idx c_net_tx_bytes) 0 in
  let~ _ := store (Slot idx c_upper_used_bytes) 0 in
  let~ _ := store (Slot idx c_upper_free_bytes) 0 in
  let~ _ := store (Slot idx c_upper_host_allocated_bytes) 0 in
  let~ _ := write_name idx (rs_name spec) in
  let~ _ := end_write idx in
  store (Slot idx c_generation) generation.

Definition release_inner (reg : MetricsRegistry) (slot_idx generation : Z) (mode : ReleaseMode) (force_if_busy : bool) : prog (result MetricsError ()) :=
  match try_slot reg slot_idx with
  | Err e => Ret (Err e)
  | Ok idx =>
      let~ observed := load (Slot idx c_generation) in
      if negb (observed =? generation) then Ret (Err (GenerationMismatch generation observed))
      else
        let~ new_gen := next_generation in
        let~ _ := store (Slot idx c_generation) new_gen in
        let~? _ := quiesce_seq idx force_if_busy in
        let new_state := match mode with ReleaseStale => SLOT_STALE | ReleaseFree => SLOT_FREE end in
        let~ _ := store (Slot idx c_state) new_state in
        Ret (Ok ())
  end.

Definition release (reg : MetricsRegistry) (slot_idx generation : Z) (mode : ReleaseMode) : prog (result MetricsError ()) :=
  release_inner reg slot_idx generation mode false.

Definition release_reserved (reg : MetricsRegistry) (slot_idx generation : Z) : prog (result MetricsError bool) :=
  match try_slot reg slot_idx with
  | Err e => Ret (Err e)
  | Ok idx =>
      let~ observed := load (Slot idx c_generation) in
      if negb (observed =? generation) then Ret (Err (GenerationMismatch generation observed))
      else
        let~ r := compare_exchange (Slot idx c_state) SLOT_RESERVED SLOT_FREE in
        if negb (is_ok r) then Ret (Ok false)
        else
          let~ new_gen := next_generation in
          let~ _ := compare_exchange (Slot idx c_generation) generation new_gen in
          Ret (Ok true)
  end.

(** Whether a scan of [reserve] may claim a slot, and the state to claim it from. *)
Definition claimable (reg : MetricsRegistry) (pass idx current : Z) : prog (option Z) :=
  if (current =? SLOT_FREE) || ((pass =? 1) && (current =? SLOT_STALE)) then Ret (Some current)
  else if (pass =? 2) && (current =? SLOT_ACTIVE) then
    let~ pid := load (Slot idx c_pid) in
    let~ busy := if pid <=? 0 then Ret true else pid_is_alive pid in
    if busy then Ret None
    else
      let~ generation := load (Slot idx c_generation) in
      let~ r := release_inner reg idx generation ReleaseFree true in
      if is_ok r then
        let~ current := load (Slot idx c_state) in
        Ret (if current =? SLOT_FREE then Some current else None)
      else Ret None
  else Ret None.

Definition reserve_at (reg : MetricsRegistry) (spec : ReserveSlot) (at_ : Z * Z) : prog (option SlotReservation) :=
  let '(pass, idx) := at_ in
  let~ current := load (Slot idx c_state) in
  let~ claim := claimable reg pass idx current in
  match claim with
  | None => Ret None
  | Some current =>
      let~ r := compare_exchange (Slot idx c_state) current SLOT_RESERVED in
      if is_ok r then
        let~ generation := next_generation in
        let~ _ := write_reservation_fields idx spec generation in
        Ret (Some (mkReservation idx generation))
      else Ret None
  end.

(** [0..capacity] *)
Definition slots (reg : MetricsRegistry) : list Z := seqZ 0 (capacity reg).

Definition reserve (reg : MetricsRegistry) (spec : ReserveSlot) : prog (result MetricsError SlotReservation) :=
  if (NAME_BYTES <? length (rs_name spec))%nat then Ret (Err NameTooLong)
  else
    let~ r := first_some (reserve_at reg spec) (pass ← [0; 1; 2]; idx ← slots reg; [(pass, idx)]) in
    Ret (ok_or r Full).

Definition activate_writer (reg : MetricsRegistry) (spec : ActivateSlot) : prog (result MetricsError MetricsSlotWriter) :=
  match try_slot reg (as_slot spec) with
  | Err e => Ret (Err e)
  | Ok idx =>
      let~ observed := load (Slot idx c_generation) in
      if negb (observed =? as_generation spec) then Ret (Err (GenerationMismatch (as_generation spec) observed))
      else
        let~ _ := begin_write idx in
        let~ observed_inside := load (Slot idx c_generation) in
        if negb (observed_inside =? as_generation spec) then
          let~ _ := end_write idx in
          Ret (Err (GenerationMismatch (as_generation spec) observed_inside))
        else
          let~ _ := store (Slot idx c_run_id) (as_run_id spec) in
          let~ _ := store (Slot idx c_pid) (as_pid spec) in
          let~ _ := store (Slot idx c_started_at_unix_ms) (timestamp_millis (as_started_at spec)) in
          let~ _ := end_write idx in
          let~ r := compare_exchange (Slot idx c_state) SLOT_RESERVED SLOT_ACTIVE in
          match r with
          | Err actual => Ret (Err (NotReserved actual))
          | Ok _ => Ret (Ok (mkWriter reg (as_slot spec) (as_generation spec)))
          end
  end.

(** ** Samples *)

Definition sample_flags (sample : SampleWrite) : Z :=
  let flag (b : bool) (f flags : Z) := if b then Z.lor flags f else flags in
  let is_some (o : option Z) := bool_decide (is_Some o) in
  flag (is_some (sw_memory_limit_bytes sample)) SAMPLE_FLAG_MEMORY_LIMIT_LIVE
  (flag (is_some (sw_upper_host_allocated_bytes sample)) SAMPLE_FLAG_UPPER_HOST_ALLOCATED
  (flag (is_some (sw_upper_free_bytes sample)) SAMPLE_FLAG_UPPER_FREE
  (flag (is_some (sw_upper_used_bytes sample)) SAMPLE_FLAG_UPPER_USED
  (flag (is_some (sw_memory_host_resident_bytes sample)) SAMPLE_FLAG_MEMORY_HOST_RESIDENT
  (flag (is_some (sw_memory_available_bytes sample)) SAMPLE_FLAG_MEMORY_AVAILABLE
  (flag (is_some (sw_memory_bytes sample)) SAMPLE_FLAG_MEMORY_USED
  (flag (is_some (sw_cpu_percent sample) && is_some (sw_vcpu_time_ns sample)) SAMPLE_FLAG_CPU 0))))))).

(** The stores of [write_sample]. *)
Definition store_sample (idx : Z) (sample : SampleWrite) : prog () :=
  let~ _ := store (Slot idx c_sampled_at_unix_ms) (timestamp_millis (sampled_at sample)) in
  let~ _ := store (Slot idx c_sample_flags) (sample_flags sample) in
  let~ _ := match sw_memory_limit_bytes sample with Some limit => store (Slot idx c_memory_limit_bytes) limit | None => Ret () end in
  let~ _ := store (Slot idx c_vcpu_time_ns) (default 0 (sw_vcpu_time_ns sample)) in
  let~ _ := store (Slot idx c_cpu_percent_bits) (default 0 (sw_cpu_percent sample)) in
  let~ _ := store (Slot idx c_memory_bytes) (default 0 (sw_memory_bytes sample)) in
  let~ _ := store (Slot idx c_memory_available_bytes) (default 0 (sw_memory_available_bytes sample)) in
  let~ _ := store (Slot idx c_memory_host_resident_bytes) (default 0 (sw_memory_host_resident_bytes sample)) in
  let~ _ := store (Slot idx c_disk_read_bytes) (sw_disk_read_bytes sample) in
  let~ _ := store (Slot idx c_disk_write_bytes) (sw_disk_write_bytes sample) in
  let~ _ := store (Slot idx c_net_rx_bytes) (sw_net_rx_bytes sample) in
  let~ _ := store (Slot idx c_net_tx_bytes) (sw_net_tx_bytes sample) in
  let~ _ := store (Slot idx c_upper_used_bytes) (default 0 (sw_upper_used_bytes sample)) in
  let~ _ := store (Slot idx c_upper_free_bytes) (default 0 (sw_upper_free_bytes sample)) in
  store (Slot idx c_upper_host_allocated_bytes) (default 0 (sw_upper_host_allocated_bytes sample)).

Definition write_sample (w : MetricsSlotWriter) (sample : SampleWrite) : prog (result MetricsError ()) :=
  match try_slot (w_registry w) (w_slot w) with
  | Err e => Ret (Err e)
  | Ok idx =>
      let~ observed := load (Slot idx c_generation) in
      if negb (observed =? w_generation w) then Ret (Err (GenerationMismatch (w_generation w) observed))
      else
        let~ _ := begin_write idx in
        let~ observed_inside := load (Slot idx c_generation) in
        if negb (observed_inside =? w_generation w) then
          let~ _ := end_write idx in
          Ret (Err (GenerationMismatch (w_generation w) observed_inside))
        else
          let~ _ := store_sample idx sample in
          let~ _ := end_write idx in
          Ret (Ok ())
  end.

Definition writer_release (w : MetricsSlotWriter) (mode : ReleaseMode) : prog (result MetricsError ()) :=
  release (w_registry w) (w_slot w) (w_generation w) mode.

Definition slot_visible (state : Z) (include_stale : bool) : bool :=
  (state =? SLOT_ACTIVE) || (include_stale && (state =? SLOT_STALE)).

Definition flag_set (flags flag : Z) : bool := Z.land flags flag =? flag.
Definition flag_value (flags flag value : Z) : option Z := if flag_set flags flag then Some value else None.

Definition ms_to_datetime (ms : Z) : DateTime :=
  if ms <=? 0 then UNIX_EPOCH else default UNIX_EPOCH (timestamp_millis_opt ms).

Fixpoint load_all (locs : list Loc) : prog (list Z) :=
  match locs with
  | [] => Ret []
  | l :: locs => let~ v := load l in let~ vs := load_all locs in Ret (v :: vs)
  end.

Definition read_name (idx : Z) : prog (list byte) :=
  let~ name_len := load (Slot idx c_name_len) in
  let len := Nat.min (Z.to_nat name_len) NAME_BYTES in
  let~ bytes := load_all ((fun i => Slot idx (c_name_byte i)) <$> seq 0 len) in
  Ret (from_utf8_lossy (byte_of_Z <$> bytes)).

(** What one attempt of [read_slot] loads between the two reads of the lock. *)
Record SlotFields := mkFields {
  f_sandbox_id : Z;
  f_run_id : Z;
  f_pid : Z;
  f_started_at_ms : Z;
  f_sampled_at_ms : Z;
  f_sample_flags : Z;
  f_memory_limit : Z;
  f_vcpu_time_ns : Z;
  f_cpu_bits : Z;
  f_memory : Z;
  f_memory_available : Z;
  f_memory_host_resident : Z;
  f_disk_r : Z;
  f_disk_w : Z;
  f_net_rx : Z;
  f_net_tx : Z;
  f_upper_used : Z;
  f_upper_free : Z;
  f_upper_host_allocated : Z;
  f_name : list byte
}.

Definition read_fields (idx : Z) : prog SlotFields :=
  let~ sandbox_id := load (Slot idx c_sandbox_id) in
  let~ run_id := load (Slot idx c_run_id) in
  let~ pid := load (Slot idx c_pid) in
  let~ started_at_ms := load (Slot idx c_started_at_unix_ms) in
  let~ sampled_at_ms := load (Slot idx c_sampled_at_unix_ms) in
  let~ sample_flags := load (Slot idx c_sample_flags) in
  let~ memory_limit := load (Slot idx c_memory_limit_bytes) in
  let~ vcpu_time_ns := load (Slot idx c_vcpu_time_ns) in
  let~ cpu_bits := load (Slot idx c_cpu_percent_bits) in
  let~ memory := load (Slot idx c_memory_bytes) in
  let~ memory_available := load (Slot idx c_memory_available_bytes) in
  let~ memory_host_resident := load (Slot idx c_memory_host_resident_bytes) in
  let~ disk_r := load (Slot idx c_disk_read_bytes) in
  let~ disk_w := load (Slot idx c_disk_write_bytes) in
  let~ net_rx := load (Slot idx c_net_rx_bytes) in
  let~ net_tx := load (Slot idx c_net_tx_bytes) in
  let~ upper_used := load (Slot idx c_upper_used_bytes) in
  let~ upper_free := load (Slot idx c_upper_free_bytes) in
  let~ upper_host_allocated := load (Slot idx c_upper_host_allocated_bytes) in
  let~ name := read_name idx in
  Ret (mkFields sandbox_id run_id pid started_at_ms sampled_at_ms sample_flags memory_limit vcpu_time_ns cpu_bits memory
        memory_available memory_host_resident disk_r disk_w net_rx net_tx upper_used upper_free upper_host_allocated name).

Definition live_metric (state_after : Z) (f : SlotFields) : LiveMetric :=
  let timestamp := ms_to_datetime (f_sampled_at_ms f) in
  let started_at := ms_to_datetime (f_started_at_ms f) in
  let flags := f_sample_flags f in
  {| lm_state := if state_after =? SLOT_STALE then MetricStale else MetricActive;
     lm_sandbox_id := f_sandbox_id f;
     lm_run_id := f_run_id f;
     lm_pid := f_pid f;
     lm_name := f_name f;
     lm_timestamp := timestamp;
     lm_uptime := default zero_duration (duration_since timestamp started_at);
     lm_cpu_percent := f_cpu_bits f;
     lm_vcpu_time_ns := f_vcpu_time_ns f;
     lm_memory_bytes := f_memory f;
     lm_memory_bytes_reported := flag_set flags SAMPLE_FLAG_MEMORY_USED;
     lm_memory_available_bytes := flag_value flags SAMPLE_FLAG_MEMORY_AVAILABLE (f_memory_available f);
     lm_memory_host_resident_bytes := flag_value flags SAMPLE_FLAG_MEMORY_HOST_RESIDENT (f_memory_host_resident f);
     lm_memory_limit_bytes := f_memory_limit f;
     lm_memory_limit_live := flag_set flags SAMPLE_FLAG_MEMORY_LIMIT_LIVE;
     lm_disk_read_bytes := f_disk_r f;
     lm_disk_write_bytes := f_disk_w f;
     lm_net_rx_bytes := f_net_rx f;
     lm_net_tx_bytes := f_net_tx f;
     lm_upper_used_bytes := flag_value flags SAMPLE_FLAG_UPPER_USED (f_upper_used f);
     lm_upper_free_bytes := flag_value flags SAMPLE_FLAG_UPPER_FREE (f_upper_free f);
     lm_upper_host_allocated_bytes := flag_value flags SAMPLE_FLAG_UPPER_HOST_ALLOCATED (f_upper_host_allocated f) |}.

(** One round of [read_slot]; [None] to try again. *)
Definition read_attempt (idx : Z) (include_stale : bool) : prog (option (option (LiveMetric * Z * Z))) :=
  let~ state := load (Slot idx c_state) in
  if negb (slot_visible state include_stale) then Ret (Some None)
  else
    let~ gen_before := load (Slot idx c_generation) in
    let~ s1 := load (Slot idx c_seq) in
    if Z.odd s1 then Ret None
    else
      let~ fields := read_fields idx in
      let~ s2 := load (Slot idx c_seq) in
      let~ gen_after := load (Slot idx c_generation) in
      let~ state_after := load (Slot idx c_state) in
      if negb (s1 =? s2) || Z.odd s2 || negb (gen_before =? gen_after) || negb (slot_visible state_after include_stale)
      then Ret None
      else if f_sampled_at_ms fields <=? 0 then Ret (Some None)
      else Ret (Some (Some (live_metric state_after fields, gen_after, f_started_at_ms fields))).

Definition READ_ATTEMPTS : nat := Z.to_nat 4096.

Definition read_slot (idx : Z) (include_stale : bool) : prog (option (LiveMetric * Z * Z)) :=
  let~ r := first_some (fun _ => read_attempt idx include_stale) (replicate READ_ATTEMPTS ()) in
  Ret (default None r).

Definition with_state (metric : LiveMetric) (state : LiveMetricState) : LiveMetric :=
  let '(mkMetric _ a b c d e f g h i j k l m n o p q r s t u) := metric in
  mkMetric state a b c d e f g h i j k l m n o p q r s t u.

Definition read_slot_demoting (reg : MetricsRegistry) (idx : Z) (include_stale : bool) : prog (option LiveMetric) :=
  let~ r := read_slot idx true in
  match r with
  | None => Ret None
  | Some (metric, generation, _) =>
      let~ dead :=
        if bool_decide (lm_state metric = MetricActive) && (0 <? lm_pid metric)
        then let~ alive := pid_is_alive (lm_pid metric) in Ret (negb alive)
        else Ret false in
      let~ demoted :=
        if dead then
          let~ r := release_inner reg idx generation ReleaseStale true in
          Ret (if is_ok r then Some (with_state metric MetricStale) else None)
        else Ret (Some metric) in
      Ret (match demoted with
           | None => None
           | Some metric => if bool_decide (lm_state metric = MetricStale) && negb include_stale then None else Some metric
           end)
  end.

Definition snapshot_slots (reg : MetricsRegistry) (include_stale : bool) : prog (list LiveMetric) :=
  filter_map (fun idx => read_slot_demoting reg idx include_stale) (slots reg).

Definition snapshot (reg : MetricsRegistry) : prog (list LiveMetric) := snapshot_slots reg true.
Definition active_snapshot (reg : MetricsRegistry) : prog (list LiveMetric) := snapshot_slots reg false.

Definition identified_at (reg : MetricsRegistry) (slot : Z) (include_stale : bool) : prog (option IdentifiedMetric) :=
  if capacity reg <=? slot then Ret None
  else
    let~ r := read_slot_demoting reg slot include_stale in
    match r with
    | None => Ret None
    | Some _ =>
        let~ r := read_slot slot include_stale in
        match r with
        | None => Ret None
        | Some (metric, generation, started_at_ms) =>
            let~ created := load (Header hd_created_at_unix_ms) in
            Ret (Some (mkIdentified metric slot generation created started_at_ms))
        end
    end.

Definition identified_snapshot (reg : MetricsRegistry) (include_stale : bool) : prog (list IdentifiedMetric) :=
  filter_map (fun slot => identified_at reg slot include_stale) (slots reg).

(** ** Lookups *)

Definition get_by_sandbox_identity (reg : MetricsRegistry) (sandbox_id : Z) (name : option (list byte)) : prog (option LiveMetric) :=
  first_some (fun '(want, idx) =>
    let~ state := load (Slot idx c_state) in
    if negb (state =? want) then Ret None
    else
      let~ id := load (Slot idx c_sandbox_id) in
      if negb (id =? sandbox_id) then Ret None
      else
        let~ r := read_slot_demoting reg idx true in
        Ret (match r with
             | Some metric =>
                 if (lm_sandbox_id metric =? sandbox_id) && match name with Some n => bool_decide (lm_name metric = n) | None => true end
                 then Some metric else None
             | None => None
             end)) (want ← [SLOT_ACTIVE; SLOT_STALE]; idx ← slots reg; [(want, idx)]).

Definition get_by_sandbox_id (reg : MetricsRegistry) (sandbox_id : Z) : prog (option LiveMetric) :=
  get_by_sandbox_identity reg sandbox_id None.

Definition get_by_run_id (reg : MetricsRegistry) (run_id : Z) : prog (option LiveMetric) :=
  first_some (fun idx =>
    let~ state := load (Slot idx c_state) in
    if negb (state =? SLOT_ACTIVE) && negb (state =? SLOT_STALE) then Ret None
    else
      let~ id := load (Slot idx c_run_id) in
      if negb (id =? run_id) then Ret None
      else
        let~ r := read_slot_demoting reg idx true in
        Ret (match r with Some metric => if lm_run_id metric =? run_id then Some metric else None | None => None end)) (slots reg).

Definition release_by_identity (reg : MetricsRegistry) (sandbox_id : Z) (run_id : option Z) (mode : ReleaseMode) : prog (result MetricsError (option Z)) :=
  let~ r := first_some (fun idx =>
    let~ state := load (Slot idx c_state) in
    if negb (state =? SLOT_ACTIVE) && negb (state =? SLOT_STALE) then Ret None
    else
      let~ matches :=
        match run_id with
        | Some rid => let~ id := load (Slot idx c_run_id) in Ret (id =? rid)
        | None => let~ id := load (Slot idx c_sandbox_id) in Ret (id =? sandbox_id)
        end in
      if negb matches then Ret None
      else
        let~ generation := load (Slot idx c_generation) in
        let~ force_if_busy :=
          if state =? SLOT_ACTIVE then
            let~ pid := load (Slot idx c_pid) in
            if 0 <? pid then let~ alive := pid_is_alive pid in Ret (negb alive) else Ret false
          else Ret false in
        let~ r := release_inner reg idx generation mode force_if_busy in
        Ret (Some (match r with Ok _ => Ok (Some idx) | Err e => Err e end))) (slots reg) in
  Ret (default (Ok None) r).

(** ** The header *)

Inductive WaitForReadyError := Stuck | Invalid (state : Z).

Definition wait_for_ready : prog (result WaitForReadyError ()) :=
  loop (
    let~ state := load (Header hd_state) in
    if state =? HEADER_STATE_READY then Ret (Some (Ok ()))
    else if negb (state =? HEADER_STATE_UNINIT) && negb (state =? HEADER_STATE_INITIALIZING) then Ret (Some (Err (Invalid state)))
    else
      let~ expired := trigger DeadlinePassed in
      Ret (if expired : bool then Some (Err Stuck) else None)).

Definition validate_header_version (expected_version : Z) (expected_capacity : option Z) : prog (result MetricsError ()) :=
  let~ magic := load (Header hd_magic) in
  if negb (magic =? REGISTRY_MAGIC) then Ret (Err InvalidMagic)
  else
    let~ version := load (Header hd_version) in
    if negb (version =? expected_version) then Ret (Err IncompatibleVersion)
    else
      let~ header_len := load (Header hd_header_len) in
      if negb (header_len =? HEADER_SIZE) then Ret (Err UnexpectedHeaderLength)
      else
        let~ slot_len := load (Header hd_slot_len) in
        if negb (slot_len =? SLOT_SIZE) then Ret (Err UnexpectedSlotLength)
        else
          match expected_capacity with
          | None => Ret (Ok ())
          | Some expected =>
              let~ cap := load (Header hd_capacity) in
              Ret (if negb (cap =? expected) then Err CapacityMismatch else Ok ())
          end.

Definition validate_header (expected_capacity : option Z) : prog (result MetricsError ()) :=
  validate_header_version REGISTRY_VERSION expected_capacity.

(** How [open] and [try_open_existing] report a header that is not ready. *)
Definition ready : prog (result MetricsError ()) :=
  let~ r := wait_for_ready in
  Ret (match r with
       | Ok _ => Ok ()
       | Err Stuck => Err StillInitializing
       | Err (Invalid state) => Err (InvalidHeaderState state)
       end).

(** [try_open_existing] on a region that exists. *)
Definition try_open_existing (expected_capacity : Z) : prog (result MetricsError MetricsRegistry) :=
  let~? _ := ready in
  let~? _ := validate_header (Some expected_capacity) in
  let~? _ := validate_header (Some expected_capacity) in
  let~ cap := load (Header hd_capacity) in
  Ret (Ok (mkRegistry cap)).

(** [open] on a region that exists. *)
Definition open : prog (result MetricsError MetricsRegistry) :=
  let~? _ := ready in
  let~? _ := validate_header None in
  let~ cap := load (Header hd_capacity) in
  try_open_existing cap.

(** [create_and_init] on the region it has created, zero-filled. *)
Definition create_and_init (cap now_ms : Z) : prog MetricsRegistry :=
  let~ _ := store (Header hd_state) HEADER_STATE_INITIALIZING in
  let~ _ := store (Header hd_magic) REGISTRY_MAGIC in
  let~ _ := store (Header hd_version) REGISTRY_VERSION in
  let~ _ := store (Header hd_header_len) HEADER_SIZE in
  let~ _ := store (Header hd_slot_len) SLOT_SIZE in
  let~ _ := store (Header hd_capacity) cap in
  let~ _ := store (Header hd_created_at_unix_ms) now_ms in
  let~ _ := store (Header hd_global_generation) 0 in
  let~ _ := store (Header hd_state) HEADER_STATE_READY in
  Ret (mkRegistry cap).

(** ** Registries of older runtimes *)

Definition LEGACY_REGISTRY_VERSION_V2 : Z := 2.

Definition read_fields_v2 (idx : Z) : prog SlotFields :=
  let~ sandbox_id := load (Slot idx c_sandbox_id) in
  let~ run_id := load (Slot idx c_run_id) in
  let~ pid := load (Slot idx c_pid) in
  let~ started_at_ms := load (Slot idx c_started_at_unix_ms) in
  let~ sampled_at_ms := load (Slot idx c_sampled_at_unix_ms) in
  let~ sample_flags := load (Slot idx c_sample_flags) in
  let~ memory_limit := load (Slot idx c_memory_limit_bytes) in
  let~ vcpu_time_ns := load (Slot idx c_vcpu_time_ns) in
  let~ cpu_bits := load (Slot idx c_cpu_percent_bits) in
  let~ memory := load (Slot idx c_memory_bytes) in
  let~ memory_available := load (Slot idx c_memory_available_bytes) in
  let~ memory_host_resident := load (Slot idx c_memory_host_resident_bytes) in
  let~ disk_r := load (Slot idx c_disk_read_bytes) in
  let~ disk_w := load (Slot idx c_disk_write_bytes) in
  let~ net_rx := load (Slot idx c_net_rx_bytes) in
  let~ net_tx := load (Slot idx c_net_tx_bytes) in
  let~ name := read_name idx in
  Ret (mkFields sandbox_id run_id pid started_at_ms sampled_at_ms sample_flags memory_limit vcpu_time_ns cpu_bits memory
        memory_available memory_host_resident disk_r disk_w net_rx net_tx 0 0 0 name).

Definition live_metric_v2 (f : SlotFields) : LiveMetric :=
  let timestamp := ms_to_datetime (f_sampled_at_ms f) in
  let started_at := ms_to_datetime (f_started_at_ms f) in
  let flags := f_sample_flags f in
  {| lm_state := MetricActive;
     lm_sandbox_id := f_sandbox_id f;
     lm_run_id := f_run_id f;
     lm_pid := f_pid f;
     lm_name := f_name f;
     lm_timestamp := timestamp;
     lm_uptime := default zero_duration (duration_since timestamp started_at);
     lm_cpu_percent := f_cpu_bits f;
     lm_vcpu_time_ns := f_vcpu_time_ns f;
     lm_memory_bytes := f_memory f;
     lm_memory_bytes_reported := flag_set flags SAMPLE_FLAG_MEMORY_USED;
     lm_memory_available_bytes := flag_value flags SAMPLE_FLAG_MEMORY_AVAILABLE (f_memory_available f);
     lm_memory_host_resident_bytes := flag_value flags SAMPLE_FLAG_MEMORY_HOST_RESIDENT (f_memory_host_resident f);
     lm_memory_limit_bytes := f_memory_limit f;
     lm_memory_limit_live := false;
     lm_disk_read_bytes := f_disk_r f;
     lm_disk_write_bytes := f_disk_w f;
     lm_net_rx_bytes := f_net_rx f;
     lm_net_tx_bytes := f_net_tx f;
     lm_upper_used_bytes := None;
     lm_upper_free_bytes := None;
     lm_upper_host_allocated_bytes := None |}.

Definition read_attempt_v2 (idx : Z) : prog (option (option LiveMetric)) :=
  let~ state := load (Slot idx c_state) in
  if negb (state =? SLOT_ACTIVE) then Ret (Some None)
  else
    let~ generation_before := load (Slot idx c_generation) in
    let~ sequence_before := load (Slot idx c_seq) in
    if Z.odd sequence_before then Ret None
    else
      let~ fields := read_fields_v2 idx in
      let~ sequence_after := load (Slot idx c_seq) in
      let~ generation_after := load (Slot idx c_generation) in
      let~ state_after := load (Slot idx c_state) in
      if negb (sequence_before =? sequence_after) || Z.odd sequence_after || negb (generation_before =? generation_after) || negb (state_after =? SLOT_ACTIVE)
      then Ret None
      else if f_sampled_at_ms fields <=? 0 then Ret (Some None)
      else Ret (Some (Some (live_metric_v2 fields))).

Definition read_slot_v2 (idx : Z) : prog (option LiveMetric) :=
  let~ r := first_some (fun _ => read_attempt_v2 idx) (replicate READ_ATTEMPTS ()) in
  Ret (default None r).

Definition active_snapshot_v2 (reg : MetricsRegistry) : prog (list LiveMetric) :=
  filter_map read_slot_v2 (slots reg).

(** [open_v2_registry] on a region that exists. *)
Definition open_v2_registry : prog (result MetricsError MetricsRegistry) :=
  let~? _ := ready in
  let~? _ := validate_header_version LEGACY_REGISTRY_VERSION_V2 None in
  let~ cap := load (Header hd_capacity) in
  let~? _ := validate_header_version LEGACY_REGISTRY_VERSION_V2 (Some cap) in
  Ret (Ok (mkRegistry cap)).

End Metrics.
