(* ===== verification/MetricsShared.v ===== *)
(** * The metrics registry under concurrency

    Any number of threads run the programs of [Metrics] on one memory, one
    atomic operation at a time, and processes may be killed at any point.  The
    interleavings are sequentially consistent.

    A thread carries what it holds: the slot whose sequence lock it has taken,
    and a generation it has drawn and not yet published.  [obeys] says that a
    program keeps to the protocol: it stores into a slot only while it holds the
    lock, and publishes only generations it has drawn.  Every method of the
    registry does.

    The theorems, for every interleaving of such programs in which a forced
    release only takes over locks of killed processes: at most one writer is in a
    slot; a metric that was read is the slot at one moment at which no writer was
    inside; a sample that was written took effect as a whole; and a writer whose
    slot was given to another never stores into it. *)

From S2P Require Import Prelude Text Metrics.
From Stdlib Require Import FunctionalExtensionality.

(** ** Interleavings *)

Definition Mem := Loc -> Z.
Definition upd (m : Mem) (l : Loc) (v : Z) : Mem := fun l' => if decide (l' = l) then v else m l'.

(** [r] is an answer to [e] in memory [m], which becomes [m']. *)
Definition outcome {B} (e : Event B) (m : Mem) (r : B) (m' : Mem) : Prop :=
  match e in Event B return B -> Prop with
  | Load l => fun r => r = m l /\ m' = m
  | Store l v => fun _ => m' = upd m l v
  | CompareExchange l cur new => fun r =>
      if decide (m l = cur) then r = Ok cur /\ m' = upd m l new else r = Err (m l) /\ m' = m
  | FetchAdd l n => fun r => r = m l /\ m' = upd m l (wrap 64 (m l + n))
  | ProcessAlive _ => fun _ => m' = m
  | DeadlinePassed => fun _ => m' = m
  end r.

(** What a thread holds: a slot's lock, and a generation to publish. *)
Record ghost := mkGhost { holds : option Z; minted : option Z }.
Definition quiet : ghost := mkGhost None None.

Definition ghost_after {B} (e : Event B) (r : B) (g : ghost) : ghost :=
  match e in Event B return B -> ghost with
  | Store (Slot _ c_generation) _ => fun _ => mkGhost (holds g) None
  | CompareExchange (Slot _ c_generation) _ _ => fun _ => mkGhost (holds g) None
  | CompareExchange (Slot idx c_seq) cur _ => fun r =>
      match r with Ok _ => if Z.even cur then mkGhost (Some idx) (minted g) else g | Err _ => g end
  | FetchAdd (Slot _ c_seq) _ => fun _ => mkGhost None (minted g)
  | FetchAdd (Header hd_global_generation) _ => fun r => mkGhost (holds g) (Some (r + 1))
  | _ => fun _ => g
  end r.

(** What a step did to the memory. *)
Inductive Obs :=
  | Silent
  | Wrote (l : Loc)
  | Recovered (idx : Z).

Definition observe {B} (e : Event B) (r : B) : Obs :=
  match e in Event B return B -> Obs with
  | Store l _ => fun _ => Wrote l
  | CompareExchange (Slot idx c_seq) cur _ => fun r =>
      match r with Ok _ => if Z.odd cur then Recovered idx else Wrote (Slot idx c_seq) | Err _ => Silent end
  | CompareExchange l _ _ => fun r => if is_ok r then Wrote l else Silent
  | FetchAdd l _ => fun _ => Wrote l
  | _ => fun _ => Silent
  end r.

Definition again {A B} (body : prog (option B)) (k : B -> prog A) : prog A :=
  pbind body (fun o => match o with Some b => k b | None => Loop body k end).

Definition thread A : Type := ghost * prog A.

Definition tstep {A} (m : Mem) (t : thread A) (o : Obs) (m' : Mem) (t' : thread A) : Prop :=
  match t.2 with
  | Ret _ => False
  | Do e k => exists r, outcome e m r m' /\ o = observe e r /\ t' = (ghost_after e r t.1, k r)
  | Loop body k => m' = m /\ o = Silent /\ t' = (t.1, again body k)
  end.

(** One thread whose result is of interest, and the others. *)
Record config A := mkConfig { mem : Mem; self : thread A; others : list (thread ()) }.
Arguments mkConfig {A} mem self others.
Arguments mem {A} c.
Arguments self {A} c.
Arguments others {A} c.

Definition ghosts {A} (c : config A) : list ghost := (self c).1 :: (others c).*1.

(** A step, by the thread of interest or by another one. *)
Inductive step {A} : config A -> bool -> Obs -> config A -> Prop :=
  | step_self m t o m' t' os : tstep m t o m' t' -> step (mkConfig m t os) true o (mkConfig m' t' os)
  | step_other m t o m' t1 t1' os1 os2 :
      tstep m t1 o m' t1' -> step (mkConfig m t (os1 ++ t1 :: os2)) false o (mkConfig m' t (os1 ++ t1' :: os2))
  | step_killed m t t1 os1 os2 : step (mkConfig m t (os1 ++ t1 :: os2)) false Silent (mkConfig m t (os1 ++ os2)).

(** A lock is only taken over from a process that was killed. *)
Definition clean (o : Obs) (gs : list ghost) : Prop :=
  forall idx, o = Recovered idx -> Forall (fun g => holds g <> Some idx) gs.

(** A step of a run, and what it left. *)
Record tick := mkTick { by_self : bool; obs : Obs; at_mem : Mem; at_ghosts : list ghost }.

Inductive run {A} : config A -> list tick -> config A -> Prop :=
  | run_nil c : run c [] c
  | run_cons c b o c1 ts c2 :
      step c b o c1 -> clean o (ghosts c) -> run c1 ts c2 -> run c (mkTick b o (mem c1) (ghosts c1) :: ts) c2.

(** The memories of a run, its start included. *)
Definition memories {A} (c : config A) (ts : list tick) : list Mem := mem c :: (at_mem <$> ts).

(** ** The protocol *)

(** The cells the lock protects. *)
Definition is_data (c : Cell) : bool :=
  match c with c_state | c_generation | c_seq => false | _ => true end.

Definition allowed {B} (e : Event B) (g : ghost) : Prop :=
  match e with
  | Load _ | ProcessAlive _ | DeadlinePassed => True
  | Store (Header _) _ => False
  | Store (Slot _ c_state) _ => True
  | Store (Slot _ c_generation) v => minted g = Some v
  | Store (Slot idx c) _ => is_data c = true /\ holds g = Some idx
  | CompareExchange (Slot _ c_state) _ _ => True
  | CompareExchange (Slot _ c_generation) _ new => minted g = Some new
  | CompareExchange (Slot _ c_seq) cur new => new = wrap 64 (cur + 1) /\ holds g = None
  | CompareExchange _ _ _ => False
  | FetchAdd (Slot idx c_seq) n => n = 1 /\ holds g = Some idx
  | FetchAdd (Header hd_global_generation) n => n = 1
  | FetchAdd _ _ => False
  end.

(** [p], started with [g], keeps to the protocol and ends in [Q]. *)
Fixpoint obeys {A} (p : prog A) (g : ghost) (Q : A -> ghost -> Prop) : Prop :=
  match p with
  | Ret a => Q a g
  | Do e k => allowed e g /\ forall r, obeys (k r) (ghost_after e r g) Q
  | Loop body k => obeys body g (fun o g' => match o with Some b => obeys (k b) g' Q | None => g' = g end)
  end.

Definition conforms {A} (p : prog A) : Prop := obeys p quiet (fun _ g => g = quiet).

Lemma obeys_mono {A} (p : prog A) g (Q Q' : A -> ghost -> Prop) : obeys p g Q -> (forall a g', Q a g' -> Q' a g') -> obeys p g Q'.
Proof.
  revert g Q Q'. induction p as [A a|A B e k IH|A B body IHb k IHk]; intros g Q Q' Hp HQ; cbn in *; [by apply HQ|..].
  - destruct Hp as [He Hk]. split; [done|]. intros r. by eapply IH.
  - eapply IHb; [exact Hp|]. intros [b|] g' Hg; [|done]. by eapply IHk.
Qed.

Lemma obeys_bind {A C} (p : prog A) (f : A -> prog C) g Q : obeys p g (fun a g' => obeys (f a) g' Q) -> obeys (pbind p f) g Q.
Proof.
  revert f g Q. induction p as [A a|A B e k IH|A B body IHb k IHk]; intros f g Q Hp; cbn in *; [done|..].
  - destruct Hp as [He Hk]. split; [done|]. intros r. by apply IH.
  - eapply obeys_mono; [exact Hp|]. intros [b|] g' Hg; [|done]. by apply IHk.
Qed.

Lemma obeys_again {A B} (body : prog (option B)) (k : B -> prog A) g Q : obeys (Loop body k) g Q -> obeys (again body k) g Q.
Proof. intros Hp. apply obeys_bind. cbn in Hp. eapply obeys_mono; [exact Hp|]. by intros [b|] g' Hg; [|subst]. Qed.

(** A step of an obeying thread: an allowed event, or nothing. *)
Lemma obeys_tstep {A} m (t : thread A) o m' t' Q :
  tstep m t o m' t' -> obeys t.2 t.1 Q ->
  obeys t'.2 t'.1 Q
  /\ ((m' = m /\ o = Silent /\ t'.1 = t.1)
      \/ exists B (e : Event B) r, allowed e t.1 /\ outcome e m r m' /\ o = observe e r /\ t'.1 = ghost_after e r t.1).
Proof.
  destruct t as [g [a|B e k|B body k]]; cbn [tstep fst snd]; [done|..].
  - intros (r & Ho & -> & ->) [He Hk]. split; [apply Hk|]. right. by exists B, e, r.
  - intros (-> & -> & ->) Hp. split; [by apply obeys_again|]. by left.
Qed.

(** The steps the protocol allows: memory, what the thread holds, observation. *)
Inductive shape (g : ghost) (m : Mem) : Mem -> ghost -> Obs -> Prop :=
  | sh_none : shape g m m g Silent
  | sh_state idx v : shape g m (upd m (Slot idx c_state) v) g (Wrote (Slot idx c_state))
  | sh_publish idx v : minted g = Some v -> shape g m (upd m (Slot idx c_generation) v) (mkGhost (holds g) None) (Wrote (Slot idx c_generation))
  | sh_drop : shape g m m (mkGhost (holds g) None) Silent
  | sh_data idx c v : is_data c = true -> holds g = Some idx -> shape g m (upd m (Slot idx c) v) g (Wrote (Slot idx c))
  | sh_begin idx : holds g = None -> Z.even (m (Slot idx c_seq)) = true ->
      shape g m (upd m (Slot idx c_seq) (wrap 64 (m (Slot idx c_seq) + 1))) (mkGhost (Some idx) (minted g)) (Wrote (Slot idx c_seq))
  | sh_recover idx : holds g = None -> Z.even (m (Slot idx c_seq)) = false ->
      shape g m (upd m (Slot idx c_seq) (wrap 64 (m (Slot idx c_seq) + 1))) g (Recovered idx)
  | sh_end idx : holds g = Some idx ->
      shape g m (upd m (Slot idx c_seq) (wrap 64 (m (Slot idx c_seq) + 1))) (mkGhost None (minted g)) (Wrote (Slot idx c_seq))
  | sh_mint :
      shape g m (upd m (Header hd_global_generation) (wrap 64 (m (Header hd_global_generation) + 1)))
        (mkGhost (holds g) (Some (m (Header hd_global_generation) + 1))) (Wrote (Header hd_global_generation)).

Lemma cas_shape idx c cur new g m m' r :
  allowed (CompareExchange (Slot idx c) cur new) g -> outcome (CompareExchange (Slot idx c) cur new) m r m' ->
  shape g m m' (ghost_after (CompareExchange (Slot idx c) cur new) r g) (observe (CompareExchange (Slot idx c) cur new) r).
Proof.
  cbn. destruct (decide (m (Slot idx c) = cur)) as [<-|Hne].
  - destruct c; try done; intros Ha [-> ->]; cbn; try by constructor.
    destruct Ha as [-> Hh]. rewrite <- Z.negb_even. destruct (Z.even _) eqn:E; by constructor.
  - intros Ha [-> ->]. destruct c; try done; by constructor.
Qed.

Lemma event_shape {B} (e : Event B) g m r m' : allowed e g -> outcome e m r m' -> shape g m m' (ghost_after e r g) (observe e r).
Proof.
  destruct e as [l|l v|l cur new|l n|pid|]; [| |destruct l as [|idx c]; [done|apply cas_shape]|..].
  - intros _ [-> ->]. constructor.
  - destruct l as [|idx c]; [done|]. cbn. intros Ha ->. destruct c; try (by constructor); by destruct Ha; constructor.
  - destruct l as [[]|idx []]; try done; cbn.
    + intros -> [-> ->]. constructor.
    + intros [-> Ha] [-> ->]. by constructor.
  - intros _ ->. constructor.
  - intros _ ->. constructor.
Qed.

Lemma upd_eq m l v : upd m l v l = v.
Proof. unfold upd. by rewrite decide_True. Qed.
Lemma upd_ne m l v l' : l' <> l -> upd m l v l' = m l'.
Proof. intros Hne. unfold upd. by rewrite decide_False. Qed.

(** ** The invariant *)

Abbreviation seq_at m idx := (m (Slot idx c_seq)).
Abbreviation gen_at m idx := (m (Slot idx c_generation)).
Abbreviation last_gen m := (m (Header hd_global_generation)).

(** At most one thread is in a slot, and its sequence number is odd; generations
    are drawn once, and those still to be published are in no slot. *)
Record shared_ok (m : Mem) (gs : list ghost) : Prop := {
  ok_seq : forall idx, 0 <= seq_at m idx < 2 ^ 64;
  ok_exclusive : NoDup (omap holds gs);
  ok_odd : forall g idx, g ∈ gs -> holds g = Some idx -> Z.even (seq_at m idx) = false;
  ok_distinct : NoDup (omap minted gs);
  ok_unpublished : forall g v, g ∈ gs -> minted g = Some v -> v <= last_gen m /\ forall idx, gen_at m idx <> v;
  ok_published : forall idx, gen_at m idx <= last_gen m;
  ok_last : 0 <= last_gen m
}.

#[export] Instance shared_ok_proper m : Proper ((≡ₚ) ==> iff) (shared_ok m).
Proof.
  assert (Hone : forall gs gs', gs ≡ₚ gs' -> shared_ok m gs -> shared_ok m gs').
  { intros gs gs' Hp [H1 H2 H3 H4 H5 H6 H7]. split; try done.
    - by rewrite <- Hp.
    - intros g idx Hg. rewrite <- Hp in Hg. eauto.
    - by rewrite <- Hp.
    - intros g v Hg. rewrite <- Hp in Hg. eauto. }
  intros gs gs' Hp. split; apply Hone; [done|by symmetry].
Qed.

Lemma shared_ok_killed m g gs : shared_ok m (g :: gs) -> shared_ok m gs.
Proof.
  intros [H1 H2 H3 H4 H5 H6 H7]. split; try done.
  - cbn in H2. destruct (holds g); [by apply NoDup_cons_1_2 in H2|done].
  - intros g' idx Hg. apply H3. by right.
  - cbn in H4. destruct (minted g); [by apply NoDup_cons_1_2 in H4|done].
  - intros g' v Hg. apply H5. by right.
Qed.

Lemma even_wrap_succ s : Z.even (wrap 64 (s + 1)) = negb (Z.even s).
Proof.
  unfold wrap.
  rewrite (Z.mod_eq (s + 1) (2 ^ 64)) by lia. rewrite Z.even_sub, Z.even_add, Z.even_mul. cbn. by destruct (Z.even s).
Qed.

Lemma holds_in (gs : list ghost) idx : idx ∈ omap holds gs <-> exists g, g ∈ gs /\ holds g = Some idx.
Proof. apply list_elem_of_omap. Qed.
Lemma minted_in (gs : list ghost) v : v ∈ omap minted gs <-> exists g, g ∈ gs /\ minted g = Some v.
Proof. apply list_elem_of_omap. Qed.

(** What the invariant says of the other threads. *)
Lemma shared_ok_cons m g gs :
  shared_ok m (g :: gs) <->
  shared_ok m gs
  /\ (forall idx, holds g = Some idx -> (idx ∉ omap holds gs) /\ Z.even (seq_at m idx) = false)
  /\ (forall v, minted g = Some v -> (v ∉ omap minted gs) /\ v <= last_gen m /\ forall idx, gen_at m idx <> v).
Proof.
  split.
  - intros Hok. split; [by eapply shared_ok_killed|]. destruct Hok as [H1 H2 H3 H4 H5 H6 H7]. split.
    + intros idx Hh. cbn in H2. rewrite Hh in H2. apply NoDup_cons in H2 as [? _]. split; [done|]. apply (H3 g); [by left|done].
    + intros v Hm. cbn in H4. rewrite Hm in H4. apply NoDup_cons in H4 as [? _]. split; [done|]. apply (H5 g); [by left|done].
  - intros ([H1 H2 H3 H4 H5 H6 H7] & Hh & Hm). split; try done.
    + cbn. destruct (holds g) as [idx|]; [|done]. constructor; [by apply Hh|done].
    + intros g' idx [->|Hin]%elem_of_cons Hg; [by apply Hh|by eapply H3].
    + cbn. destruct (minted g) as [v|]; [|done]. constructor; [by apply Hm|done].
    + intros g' v [->|Hin]%elem_of_cons Hg; [by apply Hm|by eapply H5].
Qed.

(** A sequence number moves on while no other thread is in the slot. *)
Lemma shared_ok_seq m gs idx :
  shared_ok m gs -> idx ∉ omap holds gs -> shared_ok (upd m (Slot idx c_seq) (wrap 64 (seq_at m idx + 1))) gs.
Proof.
  intros [H1 H2 H3 H4 H5 H6 H7] Hfree. split; rewrite ?(upd_ne _ _ _ (Header _)) by done; try done.
  - intros i. destruct (decide (i = idx)) as [->|]; [rewrite upd_eq; apply wrap_fits; lia|]. rewrite upd_ne by congruence. apply H1.
  - intros g i Hin Hh. rewrite upd_ne; [by eapply H3|]. intros [= ->]. apply Hfree, holds_in. eauto.
  - intros g v Hin Hm. destruct (H5 g v Hin Hm) as [Hle Hne]. split; [done|]. intros i. by rewrite upd_ne.
  - intros i. by rewrite upd_ne.
Qed.

Lemma shared_ok_same m m' gs :
  shared_ok m gs -> (forall idx, seq_at m' idx = seq_at m idx) -> (forall idx, gen_at m' idx = gen_at m idx) -> last_gen m' = last_gen m ->
  shared_ok m' gs.
Proof.
  intros [H1 H2 H3 H4 H5 H6 H7] Hs Hg Hl. split; try done; rewrite ?Hl; try done; intros; rewrite ?Hs, ?Hg; eauto.
  destruct (H5 g v) as [Hle Hne]; [done..|]. split; [done|]. intros i. rewrite Hg. apply Hne.
Qed.

Lemma shared_ok_publish m gs idx v :
  shared_ok m gs -> v <= last_gen m -> v ∉ omap minted gs -> shared_ok (upd m (Slot idx c_generation) v) gs.
Proof.
  intros [H1 H2 H3 H4 H5 H6 H7] Hv Hnew. split; rewrite ?(upd_ne _ _ _ (Header _)) by done; try done.
  - intros i. by rewrite upd_ne.
  - intros g i. rewrite upd_ne by done. eauto.
  - intros g v' Hin Hm. destruct (H5 g v' Hin Hm) as [Hle Hne]. split; [done|]. intros i.
    destruct (decide (i = idx)) as [->|]; [|rewrite upd_ne by congruence; apply Hne]. rewrite upd_eq. intros ->. apply Hnew, minted_in. eauto.
  - intros i. destruct (decide (i = idx)) as [->|]; [by rewrite upd_eq|]. rewrite upd_ne by congruence. apply H6.
Qed.

Lemma shared_ok_mint m gs :
  shared_ok m gs -> last_gen m + 1 < 2 ^ 64 ->
  shared_ok (upd m (Header hd_global_generation) (wrap 64 (last_gen m + 1))) gs /\ last_gen m + 1 ∉ omap minted gs.
Proof.
  intros [H1 H2 H3 H4 H5 H6 H7] Hb. rewrite wrap_small by (unfold fits; lia). split.
  - split; rewrite ?upd_eq; try done; try lia; intros; rewrite ?upd_ne by done; eauto.
    + destruct (H5 g v) as [Hle Hne]; [done..|]. split; [lia|]. intros i. by rewrite upd_ne.
    + specialize (H6 idx). lia.
  - rewrite minted_in. intros (g & Hin & Hm). destruct (H5 g _ Hin Hm). lia.
Qed.

(** A generation that can no longer come back. *)
Definition retired (v : Z) (m : Mem) (gs : list ghost) : Prop := v <= last_gen m /\ v ∉ omap minted gs.

(** What an allowed step of a thread with [g] does to a slot. *)
Record effect (idx : Z) (g : ghost) (o : Obs) (m m' : Mem) : Prop := {
  ef_seq : seq_at m' idx = seq_at m idx \/ seq_at m' idx = wrap 64 (seq_at m idx + 1);
  ef_locked : seq_at m' idx <> seq_at m idx -> holds g = Some idx \/ Z.even (seq_at m idx) = true \/ o = Recovered idx;
  ef_data : forall c, is_data c = true -> m' (Slot idx c) <> m (Slot idx c) -> holds g = Some idx;
  ef_gen : gen_at m' idx = gen_at m idx \/ minted g = Some (gen_at m' idx)
}.

Lemma shape_effect g m m' g' o idx : shape g m m' g' o -> effect idx g o m m'.
Proof.
  intros Hs. destruct Hs; split; intros; unfold upd in *; repeat case_decide; simplify_eq/=; auto; done.
Qed.

Lemma shape_ok g m m' g' o gs :
  shape g m m' g' o -> shared_ok m (g :: gs) -> clean o (g :: gs) -> last_gen m + 1 < 2 ^ 64 -> shared_ok m' (g' :: gs).
Proof.
  intros Hs Hok Hcl Hb. destruct (proj1 (shared_ok_cons _ _ _) Hok) as (Hgs & Hh & Hm).
  destruct Hs as [|i v|i v Hv| |i c v Hc Hi|i Hi He|i Hi He|i Hi|]; [done|..].
  - eapply shared_ok_same; [done|..]; intros; by rewrite upd_ne.
  - apply shared_ok_cons. destruct (Hm v Hv) as (Hnew & Hle & _). split_and!; [by apply shared_ok_publish| |done].
    intros idx Hg. rewrite upd_ne by done. by apply Hh.
  - apply shared_ok_cons. by split_and!.
  - eapply shared_ok_same; [done|..]; intros; apply upd_ne; by destruct c.
  - assert (Hfree : i ∉ omap holds gs).
    { rewrite holds_in. intros (g' & Hin & Hg). rewrite (ok_odd _ _ Hgs g' i) in He; done. }
    apply shared_ok_cons. split_and!; [by apply shared_ok_seq| |].
    + intros idx [= <-]. split; [done|]. by rewrite upd_eq, even_wrap_succ, He.
    + intros v Hv. destruct (Hm v Hv) as (? & ? & Hne). rewrite upd_ne by done. split_and!; [done..|]. intros idx. by rewrite upd_ne.
  - specialize (Hcl i eq_refl). apply shared_ok_seq; [done|]. rewrite holds_in. intros (g' & Hin & Hg).
    rewrite Forall_forall in Hcl. by eapply Hcl.
  - destruct (Hh i Hi) as [Hfree Hodd]. apply shared_ok_cons. split_and!; [by apply shared_ok_seq|done|].
    intros v Hv. destruct (Hm v Hv) as (? & ? & Hne). rewrite upd_ne by done. split_and!; [done..|]. intros idx. by rewrite upd_ne.
  - destruct (shared_ok_mint m gs Hgs Hb) as [Hok' Hnew]. rewrite wrap_small in * by (pose proof (ok_last _ _ Hgs); unfold fits; lia).
    apply shared_ok_cons. split_and!; [done| |].
    + intros idx Hg. rewrite upd_ne by done. by apply Hh.
    + intros v [= <-]. split_and!; [done|rewrite upd_eq; lia|]. intros idx. rewrite upd_ne by done. pose proof (ok_published _ _ Hgs idx). lia.
Qed.

Lemma shape_last g m m' g' o : shape g m m' g' o -> 0 <= last_gen m -> last_gen m + 1 < 2 ^ 64 -> last_gen m <= last_gen m' <= last_gen m + 1.
Proof.
  intros Hs Hl Hb. destruct Hs; try (rewrite upd_ne by done); try lia. rewrite upd_eq, wrap_small by (unfold fits; lia). lia.
Qed.

Lemma shape_retired g m m' g' o gs v :
  shape g m m' g' o -> 0 <= last_gen m -> last_gen m + 1 < 2 ^ 64 -> retired v m (g :: gs) -> retired v m' (g' :: gs).
Proof.
  intros Hs Hl Hb [Hle Hnew]. destruct (shape_last _ _ _ _ _ Hs Hl Hb). split; [lia|].
  cbn in *. destruct Hs; cbn; destruct (minted g); try done; set_solver by lia.
Qed.

(** ** Runs *)

Definition config_ok {A} (c : config A) (Q : A -> ghost -> Prop) : Prop :=
  shared_ok (mem c) (ghosts c) /\ obeys (self c).2 (self c).1 Q
  /\ Forall (fun t : thread () => obeys t.2 t.1 (fun _ g => g = quiet)) (others c).

Lemma tstep_shape {A} m (t : thread A) o m' t' Q :
  tstep m t o m' t' -> obeys t.2 t.1 Q -> obeys t'.2 t'.1 Q /\ shape t.1 m m' t'.1 o.
Proof.
  intros Ht Hp. apply (obeys_tstep _ _ _ _ _ _ Ht) in Hp as [Hp' [(-> & -> & Hg)|(B & e & r & Ha & Ho & -> & Hg)]];
    (split; [done|]); rewrite Hg; [constructor|by apply event_shape].
Qed.

(** A step of the thread with [g] among threads with [gs]. *)
Lemma moved_ok m gs g rest o m' g' gs' :
  shape g m m' g' o -> gs ≡ₚ g :: rest -> gs' ≡ₚ g' :: rest -> shared_ok m gs -> clean o gs -> last_gen m + 1 < 2 ^ 64 ->
  shared_ok m' gs' /\ last_gen m <= last_gen m' <= last_gen m + 1 /\ (forall v, retired v m gs -> retired v m' gs').
Proof.
  intros Hs Hgs Hgs' Hok Hcl Hb. pose proof (ok_last _ _ Hok) as Hl. rewrite Hgs in Hok. split_and!.
  - rewrite Hgs'. eapply shape_ok; [done..| |done]. intros idx Ho. rewrite <- Hgs. by apply Hcl.
  - by eapply shape_last.
  - by eapply shape_last.
  - intros v [Hle Hnew]. rewrite Hgs in Hnew. destruct (shape_retired _ _ _ _ _ rest v Hs Hl Hb) as [? Hn]; [by split|].
    split; [done|]. by rewrite Hgs'.
Qed.

(** What one step does: who did it, and what it did to each slot. *)
Lemma step_ok {A} (c : config A) b o c1 Q :
  step c b o c1 -> clean o (ghosts c) -> config_ok c Q -> last_gen (mem c) + 1 < 2 ^ 64 ->
  config_ok c1 Q /\ last_gen (mem c) <= last_gen (mem c1) <= last_gen (mem c) + 1
  /\ (forall v, retired v (mem c) (ghosts c) -> retired v (mem c1) (ghosts c1))
  /\ exists g gs, ghosts c ≡ₚ g :: gs /\ (if b then g = (self c).1 else (self c).1 ∈ gs) /\ forall idx, effect idx g o (mem c) (mem c1).
Proof.
  intros Hstep Hcl (Hok & Hself & Hos) Hb. destruct Hstep as [m t o m' t' os Ht|m t o m' t1 t1' os1 os2 Ht|m t t1 os1 os2]; cbn [mem self others] in *.
  - destruct (tstep_shape _ _ _ _ _ _ Ht Hself) as [Hp Hs]. edestruct (moved_ok m) as (H1 & H2 & H3); [done..|]. split; [by split_and!|]. split; [done|]. split; [done|].
    exists t.1, os.*1. split_and!; [done..|]. intros idx. by eapply shape_effect.
  - apply Forall_app in Hos as [Ho1 [Ht1 Ho2]%Forall_cons]. destruct (tstep_shape _ _ _ _ _ _ Ht Ht1) as [Hp Hs].
    assert (Hperm : forall u : thread (), ghosts (mkConfig m t (os1 ++ u :: os2)) ≡ₚ u.1 :: t.1 :: (os1 ++ os2).*1).
    { intros u. unfold ghosts. cbn. rewrite !fmap_app, fmap_cons. solve_Permutation. }
    edestruct (moved_ok m) as (H1 & H2 & H3); [exact Hs|exact (Hperm t1)|exact (Hperm t1')|done..|].
    split; [split_and!; [done..|by apply Forall_app_2, Forall_cons_2]|]. split; [done|]. split; [done|].
    exists t1.1, (t.1 :: (os1 ++ os2).*1). split_and!; [apply Hperm|by left|]. intros idx. by eapply shape_effect.
  - assert (Hperm : ghosts (mkConfig m t (os1 ++ t1 :: os2)) ≡ₚ t1.1 :: t.1 :: (os1 ++ os2).*1).
    { unfold ghosts. cbn. rewrite !fmap_app, fmap_cons. solve_Permutation. }
    rewrite Hperm in Hok. split; [split_and!; [by apply shared_ok_killed in Hok|done|]|split; [lia|split]].
    + apply Forall_app in Hos as [? [_ ?]%Forall_cons]. by apply Forall_app_2.
    + intros v [Hle Hnew]. split; [done|]. rewrite Hperm in Hnew. cbn in Hnew. unfold ghosts. cbn. destruct (minted t1.1), (minted t.1); set_solver.
    + exists t1.1, (t.1 :: (os1 ++ os2).*1). split_and!; [done|by left|]. intros idx. eapply shape_effect. constructor.
Qed.

Lemma run_app {A} (c : config A) ts1 c1 ts2 c2 : run c ts1 c1 -> run c1 ts2 c2 -> run c (ts1 ++ ts2) c2.
Proof. induction 1; [done|]. intros. cbn. econstructor; eauto. Qed.

Lemma run_split {A} (c : config A) ts1 ts2 c2 : run c (ts1 ++ ts2) c2 -> exists c1, run c ts1 c1 /\ run c1 ts2 c2.
Proof.
  revert c. induction ts1 as [|t ts1 IH]; intros c Hr; [by exists c; split; [constructor|]|].
  inversion Hr as [|c0 b o c1 ts c3 Hs Hcl Hr1]; subst. destruct (IH _ Hr1) as (c4 & Hr2 & Hr3). exists c4. split; [|done]. by econstructor.
Qed.

Lemma run_others_self {A} (c : config A) ts c1 : run c ts c1 -> Forall (fun t => by_self t = false) ts -> self c1 = self c.
Proof.
  induction 1 as [c|c b o c1 ts c2 Hs Hcl Hr IH]; intros Hts; [done|]. apply Forall_cons in Hts as [Hb Hts]. cbn in Hb. subst b.
  rewrite IH by done. by inversion Hs.
Qed.

Lemma run_keeps_ok {A} (c : config A) ts c1 Q :
  run c ts c1 -> config_ok c Q -> last_gen (mem c) + zlen ts < 2 ^ 64 ->
  config_ok c1 Q /\ last_gen (mem c1) <= last_gen (mem c) + zlen ts
  /\ (forall v, retired v (mem c) (ghosts c) -> retired v (mem c1) (ghosts c1)).
Proof.
  induction 1 as [c|c b o c1 ts c2 Hs Hcl Hr IH]; intros Hok Hb; [split_and!; [done|cbn; lia|done]|].
  rewrite length_cons, Nat2Z.inj_succ in *. destruct (step_ok _ _ _ _ _ Hs Hcl Hok) as (Hok1 & Hl & Hret & _); [lia|].
  destruct IH as (? & ? & ?); [done|lia|]. split_and!; [done|lia|auto].
Qed.

Lemma bind_bind {A C D} (p : prog A) (h : A -> prog C) (f : C -> prog D) : pbind (pbind p h) f = pbind p (fun a => pbind (h a) f).
Proof.
  revert h. induction p as [A a|A B e k IH|A B body IHb k IHk]; intros h; cbn; [done|..]; f_equal; apply functional_extensionality; auto.
Qed.

Lemma bind_again {A B C} (body : prog (option B)) (k : B -> prog A) (f : A -> prog C) :
  again body (fun b => pbind (k b) f) = pbind (again body k) f.
Proof. unfold again. rewrite bind_bind. f_equal. apply functional_extensionality. by intros [b|]. Qed.

Lemma tstep_bind {A C} m g (p : prog A) (f : A -> prog C) o m' t' :
  tstep m (g, pbind p f) o m' t' -> (forall a, p <> Ret a) -> exists g' p', t' = (g', pbind p' f) /\ tstep m (g, p) o m' (g', p').
Proof.
  destruct p as [a|B e k|B body k]; intros Ht Hp; [by destruct (Hp a)|..]; cbn in Ht.
  - destruct Ht as (r & Ho & -> & ->). exists (ghost_after e r g), (k r). split; [done|]. by exists r.
  - destruct Ht as (-> & -> & ->). exists g, (again body k). split; [|done]. by rewrite bind_again.
Qed.

Lemma step_bind {A C} m g (p : prog A) (f : A -> prog C) os b o c1 :
  step (mkConfig m (g, pbind p f) os) b o c1 -> (forall a, p <> Ret a) ->
  exists m' g' p' os', c1 = mkConfig m' (g', pbind p' f) os' /\ step (mkConfig m (g, p) os) b o (mkConfig m' (g', p') os').
Proof.
  intros Hs Hp. inversion Hs as [m0 t o0 m' t' os0 Ht|m0 t o0 m' t1 t1' os1 os2 Ht|m0 t t1 os1 os2]; subst.
  - destruct (tstep_bind _ _ _ _ _ _ _ Ht Hp) as (g' & p' & -> & Ht'). exists m', g', p', os. split; [done|by constructor].
  - exists m', g, p, (os1 ++ t1' :: os2). split; [done|by constructor].
  - exists m, g, p, (os1 ++ os2). split; [done|by constructor].
Qed.

(** A run of [pbind p f] is a run of [p] and then one of [f]. *)
Lemma run_bind {A C} m g (p : prog A) (f : A -> prog C) os ts c2 d :
  run (mkConfig m (g, pbind p f) os) ts c2 -> (self c2).2 = Ret d ->
  exists ts1 ts2 m1 g1 a os1, ts = ts1 ++ ts2 /\ run (mkConfig m (g, p) os) ts1 (mkConfig m1 (g1, Ret a) os1)
    /\ run (mkConfig m1 (g1, f a) os1) ts2 c2.
Proof.
  remember (mkConfig m (g, pbind p f) os) as c eqn:Ec. intros Hrun. revert m g p os Ec.
  induction Hrun as [c|c b o c1 ts c2 Hs Hcl Hr IH]; intros m g p os -> Hd.
  - destruct p as [a| |]; cbn in Hd; [|done..]. by exists [], [], m, g, a, os; split_and!; [|constructor..].
  - assert (Hp : (exists a, p = Ret a) \/ forall a, p <> Ret a) by (destruct p; [left; eauto|right; done|right; done]).
    destruct Hp as [[a ->]|Hp].
    { exists [], (mkTick b o (mem c1) (ghosts c1) :: ts), m, g, a, os. split_and!; [done|constructor|]. by econstructor. }
    destruct (step_bind _ _ _ _ _ _ _ _ Hs Hp) as (m' & g' & p' & os' & -> & Hs').
    destruct (IH m' g' p' os') as (ts1 & ts2 & m1 & g1 & a & os1 & -> & Hr1 & Hr2); [done..|].
    eexists (_ :: ts1), ts2, m1, g1, a, os1. split_and!; [reflexivity| |done]. by apply (run_cons _ _ _ _ _ _ Hs').
Qed.

(** A run of one operation: the others' steps, and its own. *)
Lemma run_do {A B} m g (e : Event B) (k : B -> prog A) os ts c2 d :
  run (mkConfig m (g, Do e k) os) ts c2 -> (self c2).2 = Ret d ->
  exists ts1 ts2 m1 os1 r m2, let c1 := mkConfig m2 (ghost_after e r g, k r) os1 in
    ts = ts1 ++ mkTick true (observe e r) (mem c1) (ghosts c1) :: ts2 /\ Forall (fun t => by_self t = false) ts1
    /\ run (mkConfig m (g, Do e k) os) ts1 (mkConfig m1 (g, Do e k) os1) /\ outcome e m1 r m2
    /\ clean (observe e r) (g :: os1.*1) /\ run c1 ts2 c2.
Proof.
  remember (mkConfig m (g, Do e k) os) as c eqn:Ec. intros Hrun. revert m os Ec.
  induction Hrun as [c|c b o c1 ts c2 Hs Hcl Hr IH]; intros m os -> Hd; [done|].
  inversion Hs as [m0 t o0 m' t' os0 Ht|m0 t o0 m' t1 t1' os1 os2 Ht|m0 t t1 os1 os2]; subst.
  - destruct Ht as (r & Ho & -> & ->). exists [], ts, m, os, r, m'. split_and!; [done|constructor|constructor|done..].
  - destruct (IH m' (os1 ++ t1' :: os2)) as (ts1 & ts2 & m1 & os1' & r & m2 & -> & Hts & Hr1 & Hrest); [done..|].
    eexists (_ :: ts1), ts2, m1, os1', r, m2. split_and!; [reflexivity|by constructor| |apply Hrest..]. by apply (run_cons _ _ _ _ _ _ Hs).
  - destruct (IH m (os1 ++ os2)) as (ts1 & ts2 & m1 & os1' & r & m2 & -> & Hts & Hr1 & Hrest); [done..|].
    eexists (_ :: ts1), ts2, m1, os1', r, m2. split_and!; [reflexivity|by constructor| |apply Hrest..]. by apply (run_cons _ _ _ _ _ _ Hs).
Qed.

Lemma run_ret {A} m g (a : A) os ts c2 d :
  run (mkConfig m (g, Ret a) os) ts c2 -> (self c2).2 = Ret d -> d = a.
Proof.
  remember (mkConfig m (g, Ret a) os) as c eqn:Ec. intros Hrun. revert m os Ec.
  induction Hrun as [c|c b o c1 ts c2 Hs Hcl Hr IH]; intros m os -> Hd; [by injection Hd|].
  inversion Hs as [m0 t o0 m' t' os0 Ht|m0 t o0 m' t1 t1' os1 os2 Ht|m0 t t1 os1 os2]; subst; [done|by eapply IH..].
Qed.

(** ** Reading *)

(** [m] is [b] increments of the sequence number after [m0]; with none, the slot
    is as in [m0]. *)
Definition window (idx : Z) (m0 : Mem) (b : Z) (m : Mem) : Prop :=
  seq_at m idx = wrap 64 (seq_at m0 idx + b) /\ (b = 0 -> forall c, is_data c = true -> m (Slot idx c) = m0 (Slot idx c)).

Lemma window_step {A} (c : config A) b o c1 Q idx m0 n :
  step c b o c1 -> clean o (ghosts c) -> config_ok c Q -> last_gen (mem c) + 1 < 2 ^ 64 ->
  0 <= seq_at m0 idx < 2 ^ 64 -> Z.even (seq_at m0 idx) = true -> 0 <= n -> window idx m0 n (mem c) ->
  exists n', n <= n' <= n + 1 /\ window idx m0 n' (mem c1).
Proof.
  intros Hs Hcl Hok Hb Hr He Hn [Hseq Hdata]. destruct (step_ok _ _ _ _ _ Hs Hcl Hok Hb) as (_ & _ & _ & g & gs & Hgs & _ & Hef).
  destruct (Hef idx) as [Hs1 _ Hd _]. destruct Hok as [Hok _]. rewrite Hgs in Hok. destruct Hs1 as [Hs1|Hs1].
  - exists n. split; [lia|]. split; [congruence|]. intros -> c' Hc. rewrite <- Hdata by done.
    destruct (decide (mem c1 (Slot idx c') = mem c (Slot idx c'))) as [|Hne]; [done|]. specialize (Hd c' Hc Hne).
    rewrite Z.add_0_r, wrap_small in Hseq by done. rewrite <- Hseq in He. by rewrite (ok_odd _ _ Hok g idx) in He by (done || by left).
  - exists (n + 1). split; [lia|]. split; [|lia]. rewrite Hs1, Hseq. unfold wrap. rewrite Zplus_mod_idemp_l. f_equal. lia.
Qed.

Lemma window_run {A} (c : config A) ts c1 Q idx m0 n :
  run c ts c1 -> config_ok c Q -> last_gen (mem c) + zlen ts < 2 ^ 64 ->
  0 <= seq_at m0 idx < 2 ^ 64 -> Z.even (seq_at m0 idx) = true -> 0 <= n -> window idx m0 n (mem c) ->
  exists n', n <= n' <= n + zlen ts /\ window idx m0 n' (mem c1).
Proof.
  intros Hrun. revert n. induction Hrun as [c|c b o c1 ts c2 Hs Hcl Hr IH]; intros n Hok Hb Hseq He Hn Hw; [exists n; split; [cbn; lia|done]|].
  rewrite length_cons, Nat2Z.inj_succ in *. destruct (step_ok _ _ _ _ _ Hs Hcl Hok) as (Hok1 & Hl & _); [lia|].
  destruct (window_step _ _ _ _ _ idx m0 n Hs Hcl Hok) as (n1 & Hn1 & Hw1); [lia|done..|].
  destruct (IH n1) as (n2 & Hn2 & Hw2); [done|lia|done|done|lia|done|]. exists n2. split; [lia|done].
Qed.

Lemma window_closed idx m0 n m :
  window idx m0 n m -> 0 <= n < 2 ^ 64 -> 0 <= seq_at m0 idx < 2 ^ 64 -> seq_at m idx = seq_at m0 idx -> n = 0.
Proof.
  intros [Hw _] Hn Hs Heq. rewrite Heq in Hw. unfold wrap in Hw.
  rewrite <- (Z.mod_small (seq_at m0 idx) (2 ^ 64)) in Hw at 1 by done.
  assert (Hd : (seq_at m0 idx + n - seq_at m0 idx) mod 2 ^ 64 = 0) by (rewrite Zminus_mod, <- Hw, Z.sub_diag; done).
  replace (seq_at m0 idx + n - seq_at m0 idx) with n in Hd by lia. by rewrite Z.mod_small in Hd.
Qed.

(** [p] only loads cells of the slot. *)
Inductive only_loads {A} (idx : Z) : prog A -> Prop :=
  | loads_ret a : only_loads idx (Ret a)
  | loads_load c k : is_data c = true -> (forall v, only_loads idx (k v)) -> only_loads idx (Do (Load (Slot idx c)) k).

(** What a program that only loads returns on one memory. *)
Fixpoint eval {A} (m : Mem) (p : prog A) : option A :=
  match p with
  | Ret a => Some a
  | Do e k => match e in Event B return (B -> prog A) -> option A with Load l => fun k => eval m (k (m l)) | _ => fun _ => None end k
  | Loop _ _ => None
  end.

Lemma loads_bind {A C} idx (p : prog A) (h : A -> prog C) : only_loads idx p -> (forall a, only_loads idx (h a)) -> only_loads idx (pbind p h).
Proof. intros Hp Hh. induction Hp as [a|c k Hc Hk IH]; cbn; [apply Hh|]. by constructor. Qed.

Lemma eval_bind {A C} idx m (p : prog A) (h : A -> prog C) : only_loads idx p -> eval m (pbind p h) = a ← eval m p; eval m (h a).
Proof. intros Hp. induction Hp as [a|c k Hc Hk IH]; cbn; [done|]. by rewrite IH. Qed.

Lemma window_reads {A} idx (p : prog A) m g os ts c2 a Q m0 n :
  only_loads idx p -> run (mkConfig m (g, p) os) ts c2 -> (self c2).2 = Ret a ->
  config_ok (mkConfig m (g, p) os) Q -> last_gen m + zlen ts < 2 ^ 64 ->
  0 <= seq_at m0 idx < 2 ^ 64 -> Z.even (seq_at m0 idx) = true -> 0 <= n -> window idx m0 n m ->
  exists n', n <= n' <= n + zlen ts /\ window idx m0 n' (mem c2) /\ (n' = 0 -> eval m0 p = Some a).
Proof.
  intros Hp. revert m g os ts n. induction Hp as [a0|c k Hc Hk IH]; intros m g os ts n Hrun Ha Hok Hb Hs He Hn Hw.
  - destruct (window_run _ _ _ _ idx m0 n Hrun Hok) as (n1 & Hn1 & Hw1); [done..|]. exists n1. split_and!; [lia..|done|].
    intros _. by rewrite (run_ret _ _ _ _ _ _ _ Hrun Ha).
  - destruct (run_do _ _ _ _ _ _ _ _ Hrun Ha) as (ts1 & ts2 & m1 & os1 & r & m2 & -> & _ & Hr1 & [-> ->] & _ & Hr2).
    rewrite length_app, length_cons, Nat2Z.inj_add, Nat2Z.inj_succ in *.
    destruct (run_keeps_ok _ _ _ _ Hr1 Hok) as (Hok1 & Hl1 & _); [cbn; lia|].
    destruct (window_run _ _ _ _ idx m0 n Hr1 Hok) as (n1 & Hn1 & Hw1); [cbn; lia|done..|]. cbn [mem] in *.
    edestruct (IH (m1 (Slot idx c)) m1 g os1 ts2 n1) as (n2 & Hn2 & Hw2 & Hv); [exact Hr2|done|..].
    + destruct Hok1 as (? & [_ Hself] & ?). split_and!; [done| |done]. apply (Hself (m1 (Slot idx c))).
    + lia.
    + done.
    + done.
    + lia.
    + done.
    + exists n2. split_and!; [lia..|done|]. intros ->. destruct Hw1 as [_ Hd]. cbn. rewrite <- (Hd ltac:(lia) c Hc). by apply Hv.
Qed.

(** ** Generations *)

Lemma published_retired m gs idx : shared_ok m gs -> retired (gen_at m idx) m gs.
Proof.
  intros Hok. split; [apply (ok_published _ _ Hok)|]. rewrite minted_in. intros (g & Hin & Hm).
  destruct (ok_unpublished _ _ Hok g _ Hin Hm) as [_ Hne]. by destruct (Hne idx).
Qed.

(** A generation that was replaced does not come back. *)
Lemma gen_gone {A} (c : config A) ts c1 Q idx v :
  run c ts c1 -> config_ok c Q -> last_gen (mem c) + zlen ts < 2 ^ 64 ->
  retired v (mem c) (ghosts c) -> gen_at (mem c) idx <> v -> retired v (mem c1) (ghosts c1) /\ gen_at (mem c1) idx <> v.
Proof.
  induction 1 as [c|c b o c1 ts c2 Hs Hcl Hr IH]; intros Hok Hb Hret Hne; [done|].
  rewrite length_cons, Nat2Z.inj_succ in *. destruct (step_ok _ _ _ _ _ Hs Hcl Hok) as (Hok1 & Hl & Hret1 & g & gs & Hgs & _ & Hef); [lia|].
  apply IH; [done|lia|by apply Hret1|]. destruct (ef_gen _ _ _ _ _ (Hef idx)) as [->|Hm]; [done|]. intros Heq.
  destruct Hret as [_ Hnew]. apply Hnew. rewrite Hgs. apply minted_in. exists g. rewrite <- Heq. split; [by left|done].
Qed.

(** ** Snapshots *)

Definition name_at (m : Mem) (idx : Z) : list byte :=
  from_utf8_lossy ((fun i => byte_of_Z (m (Slot idx (c_name_byte i)))) <$> seq 0 (Nat.min (Z.to_nat (m (Slot idx c_name_len))) NAME_BYTES)).

(** The fields of a slot in one memory. *)
Definition fields_at (m : Mem) (idx : Z) : SlotFields :=
  {| f_sandbox_id := m (Slot idx c_sandbox_id);
     f_run_id := m (Slot idx c_run_id);
     f_pid := m (Slot idx c_pid);
     f_started_at_ms := m (Slot idx c_started_at_unix_ms);
     f_sampled_at_ms := m (Slot idx c_sampled_at_unix_ms);
     f_sample_flags := m (Slot idx c_sample_flags);
     f_memory_limit := m (Slot idx c_memory_limit_bytes);
     f_vcpu_time_ns := m (Slot idx c_vcpu_time_ns);
     f_cpu_bits := m (Slot idx c_cpu_percent_bits);
     f_memory := m (Slot idx c_memory_bytes);
     f_memory_available := m (Slot idx c_memory_available_bytes);
     f_memory_host_resident := m (Slot idx c_memory_host_resident_bytes);
     f_disk_r := m (Slot idx c_disk_read_bytes);
     f_disk_w := m (Slot idx c_disk_write_bytes);
     f_net_rx := m (Slot idx c_net_rx_bytes);
     f_net_tx := m (Slot idx c_net_tx_bytes);
     f_upper_used := m (Slot idx c_upper_used_bytes);
     f_upper_free := m (Slot idx c_upper_free_bytes);
     f_upper_host_allocated := m (Slot idx c_upper_host_allocated_bytes);
     f_name := name_at m idx |}.

Lemma load_all_loads idx (l : list nat) : only_loads idx (load_all ((fun i => Slot idx (c_name_byte i)) <$> l)).
Proof. induction l as [|i l IH]; [constructor|]. rewrite fmap_cons. constructor; [done|]. intros v. apply loads_bind; [done|constructor]. Qed.

Lemma load_all_eval m idx (l : list nat) :
  eval m (load_all ((fun i => Slot idx (c_name_byte i)) <$> l)) = Some ((fun i => m (Slot idx (c_name_byte i))) <$> l).
Proof. induction l as [|i l IH]; [done|]. rewrite !fmap_cons. cbn. by rewrite (eval_bind idx), IH by apply load_all_loads. Qed.

Lemma read_name_loads idx : only_loads idx (read_name idx).
Proof. constructor; [done|]. intros v. apply loads_bind; [apply load_all_loads|constructor]. Qed.

Lemma read_name_eval m idx : eval m (read_name idx) = Some (name_at m idx).
Proof.
  unfold read_name, name_at. cbn [pbind load trigger eval]. rewrite (eval_bind idx), load_all_eval by apply load_all_loads. cbn [mbind option_bind eval].
  by rewrite <- list_fmap_compose.
Qed.

Lemma read_fields_loads idx : only_loads idx (read_fields idx).
Proof. unfold read_fields. do 19 (constructor; [done|]; intros ?; cbn [pbind]). apply loads_bind; [apply read_name_loads|constructor]. Qed.

Lemma read_fields_eval m idx : eval m (read_fields idx) = Some (fields_at m idx).
Proof.
  unfold read_fields. cbn -[read_name]. rewrite (eval_bind idx), read_name_eval by apply read_name_loads. done.
Qed.

(** A run of a load and what follows it. *)
Lemma run_load {A} m g l (f : Z -> prog A) os ts c2 d Q :
  run (mkConfig m (g, pbind (load l) f) os) ts c2 -> (self c2).2 = Ret d ->
  config_ok (mkConfig m (g, pbind (load l) f) os) Q -> last_gen m + zlen ts < 2 ^ 64 ->
  exists ts1 ts2 m1 os1, ts = ts1 ++ ts2 /\ m1 ∈ (at_mem <$> ts1)
    /\ run (mkConfig m (g, pbind (load l) f) os) ts1 (mkConfig m1 (g, f (m1 l)) os1)
    /\ run (mkConfig m1 (g, f (m1 l)) os1) ts2 c2
    /\ config_ok (mkConfig m1 (g, f (m1 l)) os1) Q /\ last_gen m1 + zlen ts2 < 2 ^ 64.
Proof.
  intros Hrun Hd Hok Hb. destruct (run_do _ _ _ _ _ _ _ _ Hrun Hd) as (ts1 & ts2 & m1 & os1 & r & m2 & -> & _ & Hr1 & [-> ->] & Hcl & Hr2).
  set (t := mkTick true _ _ _). assert (Hr : run (mkConfig m (g, pbind (load l) f) os) (ts1 ++ [t]) (mkConfig m1 (g, f (m1 l)) os1)).
  { eapply run_app; [exact Hr1|]. eapply (run_cons _ _ _ (mkConfig m1 (g, f (m1 l)) os1)); [|done|constructor]. constructor. by exists (m1 l). }
  exists (ts1 ++ [t]), ts2, m1, os1. rewrite length_app, length_cons in Hb.
  destruct (run_keeps_ok _ _ _ _ Hr Hok) as (Hok1 & Hl1 & _); [rewrite length_app; cbn in *; lia|]. rewrite length_app in Hl1. cbn [mem length] in *.
  split_and!; [by rewrite <- app_assoc| |done..|lia]. rewrite fmap_app. apply elem_of_app. right. by left.
Qed.

Lemma obeys_unbind {A C} (p : prog A) (f : A -> prog C) g Q : obeys (pbind p f) g Q -> obeys p g (fun a g' => obeys (f a) g' Q).
Proof.
  revert f g Q. induction p as [A a|A B e k IH|A B body IHb k IHk]; intros f g Q Hp; cbn in *; [done|..].
  - destruct Hp as [He Hk]. split; [done|]. intros r. by apply IH.
  - eapply obeys_mono; [exact Hp|]. intros [b|] g' Hg; [|done]. by apply IHk.
Qed.

Lemma run_bind_ok {A C} m g (p : prog A) (f : A -> prog C) os ts c2 d Q :
  run (mkConfig m (g, pbind p f) os) ts c2 -> (self c2).2 = Ret d ->
  config_ok (mkConfig m (g, pbind p f) os) Q -> last_gen m + zlen ts < 2 ^ 64 ->
  exists ts1 ts2 m1 g1 a os1, ts = ts1 ++ ts2
    /\ run (mkConfig m (g, p) os) ts1 (mkConfig m1 (g1, Ret a) os1) /\ run (mkConfig m1 (g1, f a) os1) ts2 c2
    /\ config_ok (mkConfig m (g, p) os) (fun a g' => obeys (f a) g' Q) /\ last_gen m + zlen ts1 < 2 ^ 64
    /\ config_ok (mkConfig m1 (g1, f a) os1) Q /\ last_gen m1 + zlen ts2 < 2 ^ 64.
Proof.
  intros Hrun Hd (Hok & Hp & Hos) Hb. destruct (run_bind _ _ _ _ _ _ _ _ Hrun Hd) as (ts1 & ts2 & m1 & g1 & a & os1 & -> & Hr1 & Hr2).
  rewrite length_app in Hb. assert (Hok0 : config_ok (mkConfig m (g, p) os) (fun a g' => obeys (f a) g' Q)).
  { split_and!; [done| |done]. by apply obeys_unbind. }
  destruct (run_keeps_ok _ _ _ _ Hr1 Hok0) as ((? & ? & ?) & Hl1 & _); [cbn; lia|]. cbn [mem] in *.
  exists ts1, ts2, m1, g1, a, os1. split_and!; [done|done|done|done|lia|by split_and!|lia].
Qed.

(** What a reader does once it has seen an even sequence number: when the number
    is still the same afterwards, it has read the slot as it was, and when the
    generation is one that was there before, it was there then. *)
Lemma locked_read {A C} idx (p : prog A) (k : A -> Z -> Z -> prog C) m g os ts c2 d Q :
  let q := let~ a := p in let~ s2 := load (Slot idx c_seq) in let~ gen := load (Slot idx c_generation) in k a s2 gen in
  only_loads idx p -> run (mkConfig m (g, q) os) ts c2 -> (self c2).2 = Ret d ->
  config_ok (mkConfig m (g, q) os) Q -> last_gen m + zlen ts < 2 ^ 64 -> Z.even (seq_at m idx) = true ->
  exists ts1 ts2 m1 g1 os1 a s2 gen, ts = ts1 ++ ts2 /\ run (mkConfig m1 (g1, k a s2 gen) os1) ts2 c2
    /\ config_ok (mkConfig m1 (g1, k a s2 gen) os1) Q /\ last_gen m1 + zlen ts2 < 2 ^ 64
    /\ (seq_at m idx = s2 -> eval m p = Some a) /\ (retired gen m (g :: os.*1) -> gen_at m idx = gen).
Proof.
  intros q Hp Hr Hd Hok Hb Hev. pose proof (ok_seq _ _ (proj1 Hok) idx) as Hs. pose proof (ok_last _ _ (proj1 Hok)) as Hl0. cbn [mem] in Hs, Hl0.
  destruct (run_bind_ok _ _ _ _ _ _ _ _ _ Hr Hd Hok Hb) as (t1 & ts1 & m1 & g1 & a & os1 & -> & Hp1 & Hr1 & Hokp & Hbp & Hok1 & Hb1).
  destruct (window_reads idx _ _ _ _ _ _ _ _ m 0 Hp Hp1 eq_refl Hokp Hbp Hs Hev) as (n1 & Hn1 & Hw1 & Hf);
    [done|split; [by rewrite Z.add_0_r, wrap_small|done]|].
  destruct (run_load _ _ _ _ _ _ _ _ _ Hr1 Hd Hok1 Hb1) as (t2 & ts2 & m2 & os2 & -> & _ & Hp2 & Hr2 & Hok2 & Hb2).
  rewrite !length_app, !Nat2Z.inj_add in *. cbn [mem] in *.
  destruct (window_run _ _ _ _ idx m n1 Hp2 Hok1) as (n2 & Hn2 & Hw2); [cbn; lia|done|done|lia|done|].
  destruct (run_load _ _ _ _ _ _ _ _ _ Hr2 Hd Hok2 Hb2) as (t3 & ts3 & m3 & os3 & -> & _ & Hp3 & Hr3 & Hok3 & Hb3).
  rewrite !length_app, !Nat2Z.inj_add in *. cbn [mem] in *.
  exists (t1 ++ t2 ++ t3), ts3, m3, g1, os3, a, (seq_at m2 idx), (gen_at m3 idx). split_and!; [by rewrite <- !app_assoc|done|done|done|..].
  - intros Heq. apply Hf. enough (n2 = 0) by lia. by eapply (window_closed idx m n2 m2); [|lia|..].
  - intros Hret. destruct (decide (gen_at m idx = gen_at m3 idx)) as [|Hne]; [done|exfalso].
    destruct (gen_gone _ _ _ _ idx _ Hp1 Hokp Hbp Hret Hne) as [Hret1 Hne1].
    destruct (gen_gone _ _ _ _ idx _ Hp2 Hok1 ltac:(cbn; lia) Hret1 Hne1) as [Hret2 Hne2].
    by destruct (gen_gone _ _ _ _ idx _ Hp3 Hok2 ltac:(cbn; lia) Hret2 Hne2) as [_ Hne3].
Qed.

(** A [for] loop that returns early does so in one of its rounds. *)
Lemma first_some_run {A B} (f : A -> prog (option B)) l m g os ts c2 b Q :
  run (mkConfig m (g, first_some f l) os) ts c2 -> (self c2).2 = Ret (Some b) ->
  config_ok (mkConfig m (g, first_some f l) os) Q -> last_gen m + zlen ts < 2 ^ 64 ->
  exists a ts0 ts1 ts2 m1 g1 os1 c3 Q1, a ∈ l /\ ts = ts0 ++ ts1 ++ ts2 /\ run (mkConfig m1 (g1, f a) os1) ts1 c3
    /\ (self c3).2 = Ret (Some b) /\ config_ok (mkConfig m1 (g1, f a) os1) Q1 /\ last_gen m1 + zlen ts1 < 2 ^ 64.
Proof.
  revert m g os ts Q. induction l as [|a l IH]; intros m g os ts Q Hr Hd Hok Hb; cbn [first_some] in *.
  { by pose proof (run_ret _ _ _ _ _ _ _ Hr Hd). }
  destruct (run_bind_ok _ _ _ _ _ _ _ _ _ Hr Hd Hok Hb) as (t1 & ts1 & m1 & g1 & o & os1 & -> & Hp1 & Hr1 & Hokp & Hbp & Hok1 & Hb1).
  destruct o as [b'|].
  - pose proof (run_ret _ _ _ _ _ _ _ Hr1 Hd) as [= ->]. eexists a, [], t1, ts1, m, g, os, _, _. split_and!; [by left|done|exact Hp1|done|exact Hokp|done].
  - destruct (IH _ _ _ _ _ Hr1 Hd Hok1 Hb1) as (a' & t2 & ts2 & ts3 & m2 & g2 & os2 & c3 & Q1 & Hin & -> & Hrest).
    exists a', (t1 ++ t2), ts2, ts3, m2, g2, os2, c3, Q1. split; [by right|]. split; [by rewrite <- !app_assoc|done].
Qed.

Section Coherent.
Context `{Chrono}.

(** One attempt that succeeds read the slot as it was when it first read the lock. *)
Lemma attempt_coherent idx stale m g os ts c2 r Q :
  run (mkConfig m (g, read_attempt idx stale) os) ts c2 -> (self c2).2 = Ret (Some (Some r)) ->
  config_ok (mkConfig m (g, read_attempt idx stale) os) Q -> last_gen m + zlen ts < 2 ^ 64 ->
  exists m1 state, m1 ∈ (at_mem <$> ts) /\ Z.even (seq_at m1 idx) = true /\ slot_visible state stale = true
    /\ r = (live_metric state (fields_at m1 idx), gen_at m1 idx, m1 (Slot idx c_started_at_unix_ms)).
Proof.
  intros Hr Hd Hok Hb.
  destruct (run_load _ _ _ _ _ _ _ _ _ Hr Hd Hok Hb) as (t1 & ts1 & ma & osa & -> & _ & _ & Hr1 & Hok1 & Hb1).
  destruct (slot_visible (ma _) stale) eqn:Hvis; cbn [negb] in *; [|by pose proof (run_ret _ _ _ _ _ _ _ Hr1 Hd)].
  destruct (run_load _ _ _ _ _ _ _ _ _ Hr1 Hd Hok1 Hb1) as (t2 & ts2 & mb & osb & -> & _ & _ & Hr2 & Hok2 & Hb2).
  destruct (run_load _ _ _ _ _ _ _ _ _ Hr2 Hd Hok2 Hb2) as (t3 & ts3 & mc & osc & -> & Hin & Hrc & Hr3 & Hok3 & Hb3).
  destruct (Z.odd (seq_at mc idx)) eqn:Hodd; [by pose proof (run_ret _ _ _ _ _ _ _ Hr3 Hd)|].
  assert (Hev : Z.even (seq_at mc idx) = true) by (by rewrite <- Z.negb_odd, Hodd).
  destruct (run_keeps_ok _ _ _ _ Hrc Hok2) as (_ & _ & Hret); [rewrite length_app in Hb2; cbn; lia|].
  specialize (Hret _ (published_retired _ _ idx (proj1 Hok2))). cbn [mem] in Hret.
  destruct (locked_read idx _ _ _ _ _ _ _ _ _ (read_fields_loads idx) Hr3 Hd Hok3 Hb3 Hev)
    as (t4 & ts4 & md & gd & osd & fields & s2 & gen & -> & Hr4 & Hok4 & Hb4 & Hf & Hg).
  destruct (run_load _ _ _ _ _ _ _ _ _ Hr4 Hd Hok4 Hb4) as (t5 & ts5 & me & ose & -> & _ & _ & Hr5 & _ & _).
  match type of Hr5 with context [if ?b then Ret None else _] => destruct b eqn:Hc end; [by pose proof (run_ret _ _ _ _ _ _ _ Hr5 Hd)|].
  destruct (f_sampled_at_ms fields <=? 0); [by pose proof (run_ret _ _ _ _ _ _ _ Hr5 Hd)|].
  pose proof (run_ret _ _ _ _ _ _ _ Hr5 Hd) as [= ->]. rewrite !orb_false_iff, !negb_false_iff, !Z.eqb_eq in Hc.
  destruct Hc as (((Hseq & _) & <-) & Hvis'). specialize (Hf Hseq). rewrite read_fields_eval in Hf. injection Hf as <-.
  exists mc, (me (Slot idx c_state)). split_and!; [|done|done|by rewrite Hg]. rewrite !fmap_app, !elem_of_app. auto.
Qed.
Lemma read_slot_coherent idx stale m g os ts c2 r Q :
  run (mkConfig m (g, read_slot idx stale) os) ts c2 -> (self c2).2 = Ret (Some r) ->
  config_ok (mkConfig m (g, read_slot idx stale) os) Q -> last_gen m + zlen ts < 2 ^ 64 ->
  exists m1 state, m1 ∈ (at_mem <$> ts) /\ Z.even (seq_at m1 idx) = true /\ slot_visible state stale = true
    /\ r = (live_metric state (fields_at m1 idx), gen_at m1 idx, m1 (Slot idx c_started_at_unix_ms)).
Proof.
  intros Hr Hd Hok Hb. unfold read_slot in *.
  destruct (run_bind_ok _ _ _ _ _ _ _ _ _ Hr Hd Hok Hb) as (t1 & ts1 & m1 & g1 & o & os1 & -> & Hp1 & Hr1 & Hokp & Hbp & _).
  pose proof (run_ret _ _ _ _ _ _ _ Hr1 Hd) as Ho. destruct o as [[r'|]|]; [injection Ho as ->|done..].
  destruct (first_some_run _ _ _ _ _ _ _ _ _ Hp1 eq_refl Hokp Hbp) as (a & t2 & ts2 & ts3 & m2 & g2 & os2 & c3 & Q1 & _ & -> & Hr2 & Hd2 & Hok2 & Hb2).
  destruct (attempt_coherent _ _ _ _ _ _ _ _ _ Hr2 Hd2 Hok2 Hb2) as (m3 & state & Hin & Hrest). exists m3, state. split; [|done].
  rewrite !fmap_app, !elem_of_app. auto.
Qed.

(** The same for the layout of older runtimes. *)
Definition fields_v2_at (m : Mem) (idx : Z) : SlotFields :=
  let '(mkFields a b c d e f g h i j k l m0 n o p _ _ _ name) := fields_at m idx in
  mkFields a b c d e f g h i j k l m0 n o p 0 0 0 name.

Lemma read_fields_v2_loads idx : only_loads idx (read_fields_v2 idx).
Proof. unfold read_fields_v2. do 16 (constructor; [done|]; intros ?; cbn [pbind]). apply loads_bind; [apply read_name_loads|constructor]. Qed.

Lemma read_fields_v2_eval m idx : eval m (read_fields_v2 idx) = Some (fields_v2_at m idx).
Proof.
  unfold read_fields_v2. cbn -[read_name]. rewrite (eval_bind idx), read_name_eval by apply read_name_loads. done.
Qed.

Lemma attempt_v2_coherent idx m g os ts c2 r Q :
  run (mkConfig m (g, read_attempt_v2 idx) os) ts c2 -> (self c2).2 = Ret (Some (Some r)) ->
  config_ok (mkConfig m (g, read_attempt_v2 idx) os) Q -> last_gen m + zlen ts < 2 ^ 64 ->
  exists m1, m1 ∈ (at_mem <$> ts) /\ Z.even (seq_at m1 idx) = true /\ r = live_metric_v2 (fields_v2_at m1 idx).
Proof.
  intros Hr Hd Hok Hb.
  destruct (run_load _ _ _ _ _ _ _ _ _ Hr Hd Hok Hb) as (t1 & ts1 & ma & osa & -> & _ & _ & Hr1 & Hok1 & Hb1).
  destruct (negb (ma _ =? _)); [by pose proof (run_ret _ _ _ _ _ _ _ Hr1 Hd)|].
  destruct (run_load _ _ _ _ _ _ _ _ _ Hr1 Hd Hok1 Hb1) as (t2 & ts2 & mb & osb & -> & _ & _ & Hr2 & Hok2 & Hb2).
  destruct (run_load _ _ _ _ _ _ _ _ _ Hr2 Hd Hok2 Hb2) as (t3 & ts3 & mc & osc & -> & Hin & Hrc & Hr3 & Hok3 & Hb3).
  destruct (Z.odd (seq_at mc idx)) eqn:Hodd; [by pose proof (run_ret _ _ _ _ _ _ _ Hr3 Hd)|].
  assert (Hev : Z.even (seq_at mc idx) = true) by (by rewrite <- Z.negb_odd, Hodd).
  destruct (locked_read idx _ _ _ _ _ _ _ _ _ (read_fields_v2_loads idx) Hr3 Hd Hok3 Hb3 Hev)
    as (t4 & ts4 & md & gd & osd & fields & s2 & gen & -> & Hr4 & Hok4 & Hb4 & Hf & _).
  destruct (run_load _ _ _ _ _ _ _ _ _ Hr4 Hd Hok4 Hb4) as (t5 & ts5 & me & ose & -> & _ & _ & Hr5 & _ & _).
  match type of Hr5 with context [if ?b then Ret None else _] => destruct b eqn:Hc end; [by pose proof (run_ret _ _ _ _ _ _ _ Hr5 Hd)|].
  destruct (f_sampled_at_ms fields <=? 0); [by pose proof (run_ret _ _ _ _ _ _ _ Hr5 Hd)|].
  pose proof (run_ret _ _ _ _ _ _ _ Hr5 Hd) as [= ->]. rewrite !orb_false_iff, !negb_false_iff, !Z.eqb_eq in Hc.
  destruct Hc as (((Hseq & _) & _) & _). specialize (Hf Hseq). rewrite read_fields_v2_eval in Hf. injection Hf as <-.
  exists mc. split_and!; [|done|done]. rewrite !fmap_app, !elem_of_app. auto.
Qed.

Lemma read_slot_v2_coherent idx m g os ts c2 r Q :
  run (mkConfig m (g, read_slot_v2 idx) os) ts c2 -> (self c2).2 = Ret (Some r) ->
  config_ok (mkConfig m (g, read_slot_v2 idx) os) Q -> last_gen m + zlen ts < 2 ^ 64 ->
  exists m1, m1 ∈ (at_mem <$> ts) /\ Z.even (seq_at m1 idx) = true /\ r = live_metric_v2 (fields_v2_at m1 idx).
Proof.
  intros Hr Hd Hok Hb. unfold read_slot_v2 in *.
  destruct (run_bind_ok _ _ _ _ _ _ _ _ _ Hr Hd Hok Hb) as (t1 & ts1 & m1 & g1 & o & os1 & -> & Hp1 & Hr1 & Hokp & Hbp & _).
  pose proof (run_ret _ _ _ _ _ _ _ Hr1 Hd) as Ho. destruct o as [[r'|]|]; [injection Ho as ->|done..].
  destruct (first_some_run _ _ _ _ _ _ _ _ _ Hp1 eq_refl Hokp Hbp) as (a & t2 & ts2 & ts3 & m2 & g2 & os2 & c3 & Q1 & _ & -> & Hr2 & Hd2 & Hok2 & Hb2).
  destruct (attempt_v2_coherent _ _ _ _ _ _ _ _ Hr2 Hd2 Hok2 Hb2) as (m3 & Hin & Hrest). exists m3. split; [|done].
  rewrite !fmap_app, !elem_of_app. auto.
Qed.
End Coherent.

(** ** Writing *)

(** The memory a run ends in. *)
Definition last_mem (m : Mem) (ts : list tick) : Mem := default m (last (at_mem <$> ts)).

Lemma run_last {A} (c : config A) ts c1 : run c ts c1 -> last_mem (mem c) ts = mem c1.
Proof.
  induction 1 as [c|c b o c1 ts c2 Hs Hcl Hr IH]; [done|]. unfold last_mem in *. rewrite fmap_cons, last_cons.
  rewrite <- IH. by destruct (last (at_mem <$> ts)).
Qed.

Lemma last_mem_app m ts ts' : last_mem m (ts ++ ts') = last_mem (last_mem m ts) ts'.
Proof. unfold last_mem. rewrite fmap_app, last_app. by destruct (last (at_mem <$> ts')). Qed.

Lemma last_mem_cons m t ts : last_mem m (t :: ts) = last_mem (at_mem t) ts.
Proof. apply (last_mem_app m [t]). Qed.

(** [m'] has the lock and the fields of the slot of [m]. *)
Definition same_slot (idx : Z) (m m' : Mem) : Prop :=
  seq_at m' idx = seq_at m idx /\ forall c, is_data c = true -> m' (Slot idx c) = m (Slot idx c).

Lemma same_slot_trans idx m m1 m2 : same_slot idx m m1 -> same_slot idx m1 m2 -> same_slot idx m m2.
Proof. intros [Hs Hd] [Hs' Hd']. split; [congruence|]. intros c Hc. by rewrite Hd', Hd. Qed.

(** While a thread is in a slot, the others leave it alone. *)
Lemma held_step {A} (c : config A) o c1 Q idx :
  step c false o c1 -> clean o (ghosts c) -> config_ok c Q -> last_gen (mem c) + 1 < 2 ^ 64 -> holds (self c).1 = Some idx ->
  self c1 = self c /\ same_slot idx (mem c) (mem c1).
Proof.
  intros Hs Hcl Hok Hb Hh. split; [by inversion Hs|].
  destruct (step_ok _ _ _ _ _ Hs Hcl Hok Hb) as (_ & _ & _ & g & gs & Hgs & Hin & Hef). destruct (Hef idx) as [Hs1 Hlk Hd _].
  destruct Hok as [Hok _]. assert (Hodd : Z.even (seq_at (mem c) idx) = false) by (eapply (ok_odd _ _ Hok); [by left|done]).
  rewrite Hgs in Hok. assert (Hnot : holds g <> Some idx).
  { intros Hg. apply shared_ok_cons in Hok as (_ & Hex & _). destruct (Hex idx Hg) as [Hfree _]. apply Hfree, holds_in. eauto. }
  split.
  - destruct (decide (seq_at (mem c1) idx = seq_at (mem c) idx)) as [|Hne]; [done|exfalso]. destruct (Hlk Hne) as [?|[?| ->]]; [done|congruence|].
    specialize (Hcl idx eq_refl). rewrite Forall_forall in Hcl. apply (Hcl (self c).1); [by left|done].
  - intros c' Hc. destruct (decide (mem c1 (Slot idx c') = mem c (Slot idx c'))) as [|Hne]; [done|]. by specialize (Hd c' Hc Hne).
Qed.

Lemma held_others {A} (c : config A) ts c1 Q idx :
  run c ts c1 -> Forall (fun t => by_self t = false) ts -> config_ok c Q -> last_gen (mem c) + zlen ts < 2 ^ 64 -> holds (self c).1 = Some idx ->
  self c1 = self c /\ same_slot idx (mem c) (mem c1) /\ Forall (fun t => seq_at (at_mem t) idx = seq_at (mem c) idx) ts.
Proof.
  induction 1 as [c|c b o c1 ts c2 Hs Hcl Hr IH]; intros Hts Hok Hb Hh; [by split_and!|].
  apply Forall_cons in Hts as [Hb0 Hts]. cbn in Hb0. subst b. rewrite length_cons, Nat2Z.inj_succ in *.
  destruct (step_ok _ _ _ _ _ Hs Hcl Hok) as (Hok1 & Hl & _); [lia|].
  destruct (held_step _ _ _ _ idx Hs Hcl Hok ltac:(lia) Hh) as [Hself Hsame]. rewrite Hself in IH.
  destruct IH as (Hself2 & Hsame2 & Hts2); [done..|lia|done|]. split_and!; [done|by eapply same_slot_trans|].
  constructor; [apply (proj1 Hsame)|]. eapply Forall_impl; [exact Hts2|]. intros t Ht. cbn in *. by rewrite Ht, (proj1 Hsame).
Qed.

Lemma run_ret_others {A} m g (a : A) os ts c2 :
  run (mkConfig m (g, Ret a) os) ts c2 -> Forall (fun t => by_self t = false) ts.
Proof.
  remember (mkConfig m (g, Ret a) os) as c eqn:Ec. intros Hrun. revert m os Ec.
  induction Hrun as [c|c b o c1 ts c2 Hs Hcl Hr IH]; intros m os ->; [constructor|].
  inversion Hs as [m0 t o0 m' t' os0 Ht|m0 t o0 m' t1 t1' os1 os2 Ht|m0 t t1 os1 os2]; subst; [done|constructor; [done|by eapply IH]..].
Qed.

(** A run of one operation, with the invariant. *)
Lemma run_do_ok {A B} m g (e : Event B) (k : B -> prog A) os ts c2 d Q :
  run (mkConfig m (g, Do e k) os) ts c2 -> (self c2).2 = Ret d ->
  config_ok (mkConfig m (g, Do e k) os) Q -> last_gen m + zlen ts < 2 ^ 64 ->
  exists ts1 ts2 m1 os1 r m2, let c1 := mkConfig m2 (ghost_after e r g, k r) os1 in
    ts = ts1 ++ mkTick true (observe e r) (mem c1) (ghosts c1) :: ts2 /\ Forall (fun t => by_self t = false) ts1
    /\ run (mkConfig m (g, Do e k) os) ts1 (mkConfig m1 (g, Do e k) os1) /\ last_gen m + zlen ts1 < 2 ^ 64
    /\ outcome e m1 r m2 /\ clean (observe e r) (g :: os1.*1) /\ shared_ok m1 (g :: os1.*1)
    /\ run c1 ts2 c2 /\ config_ok c1 Q /\ last_gen m2 + zlen ts2 < 2 ^ 64.
Proof.
  intros Hrun Hd Hok Hb. destruct (run_do _ _ _ _ _ _ _ _ Hrun Hd) as (ts1 & ts2 & m1 & os1 & r & m2 & -> & Hts & Hr1 & Ho & Hcl & Hr2).
  rewrite length_app, length_cons, Nat2Z.inj_add, Nat2Z.inj_succ in *. destruct (run_keeps_ok _ _ _ _ Hr1 Hok) as (Hok1 & Hl1 & _); [cbn; lia|].
  assert (Hs : step (mkConfig m1 (g, Do e k) os1) true (observe e r) (mkConfig m2 (ghost_after e r g, k r) os1)) by (constructor; by exists r).
  destruct (step_ok _ _ _ _ _ Hs Hcl Hok1) as (Hok2 & Hl2 & _); [cbn [mem] in *; lia|]. cbn [mem] in *.
  exists ts1, ts2, m1, os1, r, m2. split_and!; [done|done|done|lia|done|done|apply Hok1|done|done|lia].
Qed.

(** [p] only stores into cells of the slot. *)
Inductive only_stores {A} (idx : Z) : prog A -> Prop :=
  | stores_ret a : only_stores idx (Ret a)
  | stores_store c v k : is_data c = true -> only_stores idx (k ()) -> only_stores idx (Do (Store (Slot idx c) v) k).

(** The last value it stores into a cell. *)
Fixpoint stored {A} (p : prog A) (c : Cell) : option Z :=
  match p with
  | Do e k =>
      match e in Event B return (B -> prog A) -> option Z with
      | Store (Slot _ c') v => fun k => match stored (k ()) c with Some v' => Some v' | None => if decide (c = c') then Some v else None end
      | _ => fun _ => None
      end k
  | _ => None
  end.

Lemma held_stores {A} idx (p : prog A) m g os ts c2 a Q :
  only_stores idx p -> run (mkConfig m (g, p) os) ts c2 -> (self c2).2 = Ret a -> holds g = Some idx ->
  config_ok (mkConfig m (g, p) os) Q -> last_gen m + zlen ts < 2 ^ 64 ->
  (self c2).1 = g /\ seq_at (mem c2) idx = seq_at m idx
  /\ (forall c, is_data c = true -> mem c2 (Slot idx c) = default (m (Slot idx c)) (stored p c))
  /\ Forall (fun t => seq_at (at_mem t) idx = seq_at m idx) ts.
Proof.
  intros Hp. revert m os ts. induction Hp as [a0|c v k Hc Hk IH]; intros m os ts Hrun Ha Hh Hok Hb.
  - pose proof (run_ret_others _ _ _ _ _ _ Hrun) as Hts. destruct (held_others _ _ _ _ idx Hrun Hts Hok Hb Hh) as (-> & [Hs Hd] & Hf).
    by split_and!.
  - destruct (run_do_ok _ _ _ _ _ _ _ _ _ Hrun Ha Hok Hb) as (ts1 & ts2 & m1 & os1 & [] & m2 & -> & Hts & Hr1 & Hb1 & Ho & _ & _ & Hr2 & Hok2 & Hb2).
    cbn in Ho. subst m2. destruct (held_others _ _ _ _ idx Hr1 Hts Hok Hb1 Hh) as (_ & [Hs1 Hd1] & Hf1). cbn [mem self] in *.
    assert (Hg : ghost_after (Store (Slot idx c) v) () g = g) by (by destruct c). rewrite Hg in *.
    destruct (IH _ _ _ Hr2 Ha Hh Hok2 Hb2) as (Hg2 & Hs2 & Hd2 & Hf2). rewrite upd_ne in * by (by destruct c).
    split_and!; [done|congruence| |].
    + intros c' Hc'. rewrite Hd2 by done. cbn [stored]. destruct (stored (k ()) c'); [done|]. cbn.
      case_decide as Heq; [subst; by rewrite upd_eq|]. rewrite upd_ne by congruence. by apply Hd1.
    + apply Forall_app. split; [done|]. constructor; [cbn; by rewrite upd_ne by (by destruct c)|].
      eapply Forall_impl; [exact Hf2|]. cbn. congruence.
Qed.

Lemma run_loop_ok {A B} m g (body : prog (option B)) (k : B -> prog A) os ts c2 d Q :
  run (mkConfig m (g, Loop body k) os) ts c2 -> (self c2).2 = Ret d ->
  config_ok (mkConfig m (g, Loop body k) os) Q -> last_gen m + zlen ts < 2 ^ 64 ->
  exists ts1 ts2 m1 os1, ts = ts1 ++ ts2 /\ (length ts2 < length ts)%nat /\ last_mem m ts1 = m1
    /\ run (mkConfig m1 (g, again body k) os1) ts2 c2 /\ config_ok (mkConfig m1 (g, again body k) os1) Q /\ last_gen m1 + zlen ts2 < 2 ^ 64.
Proof.
  remember (mkConfig m (g, Loop body k) os) as c eqn:Ec. intros Hrun. revert m os Ec.
  induction Hrun as [c|c b o c1 ts c2 Hs Hcl Hr IH]; intros m os -> Hd Hok Hb; [done|].
  rewrite length_cons, Nat2Z.inj_succ in *. destruct (step_ok _ _ _ _ _ Hs Hcl Hok) as (Hok1 & Hl1 & _); [cbn; lia|]. cbn [mem] in *.
  inversion Hs as [m0 t o0 m' t' os0 Ht|m0 t o0 m' t1 t1' os1 os2 Ht|m0 t t1 os1 os2]; subst; cbn [mem] in *.
  - destruct Ht as (-> & -> & ->). eexists [_], ts, m, os. split_and!; [reflexivity|lia|reflexivity|done|done|lia].
  - destruct (IH m' (os1 ++ t1' :: os2)) as (ts1 & ts2 & m1 & os1' & -> & Hlen & Hlast & Hr2 & Hok2 & Hb2); [done|done|done|lia|].
    eexists (_ :: ts1), ts2, m1, os1'. split_and!; [reflexivity|lia|by rewrite last_mem_cons|done|done|done].
  - destruct (IH m (os1 ++ os2)) as (ts1 & ts2 & m1 & os1' & -> & Hlen & Hlast & Hr2 & Hok2 & Hb2); [done|done|done|lia|].
    eexists (_ :: ts1), ts2, m1, os1'. split_and!; [reflexivity|lia|by rewrite last_mem_cons|done|done|done].
Qed.

(** A thread that has entered a slot did so at a moment when no one was in it. *)
Definition entered (idx : Z) (m : Mem) (ts : list tick) (m2 : Mem) : Prop :=
  exists ts1 ts2, ts = ts1 ++ ts2 /\ let m1 := last_mem m ts1 in
    Z.even (seq_at m1 idx) = true /\ seq_at m2 idx = wrap 64 (seq_at m1 idx + 1)
    /\ (forall c, is_data c = true -> m2 (Slot idx c) = m1 (Slot idx c))
    /\ Forall (fun t => seq_at (at_mem t) idx = wrap 64 (seq_at m1 idx + 1)) ts2.

Lemma entered_after idx m ts m1 ts2 m2 : last_mem m ts = m1 -> entered idx m1 ts2 m2 -> entered idx m (ts ++ ts2) m2.
Proof.
  intros <- (t1 & t2 & -> & Hrest). exists (ts ++ t1), t2. split; [by rewrite app_assoc|]. by rewrite last_mem_app.
Qed.

Lemma entered_held idx m ts m2 ts' m3 :
  entered idx m ts m2 -> same_slot idx m2 m3 -> Forall (fun t => seq_at (at_mem t) idx = seq_at m2 idx) ts' -> entered idx m (ts ++ ts') m3.
Proof.
  intros (t1 & t2 & -> & He & Hs & Hd & Hf) [Hs' Hd'] Hf'. exists t1, (t2 ++ ts'). split; [by rewrite app_assoc|]. cbv zeta. split_and!; [done|congruence| |].
  - intros c Hc. by rewrite Hd', Hd.
  - apply Forall_app. split; [done|]. eapply Forall_impl; [exact Hf'|]. cbn. congruence.
Qed.

Lemma run_ret_self {A} m g (a : A) os ts c2 : run (mkConfig m (g, Ret a) os) ts c2 -> self c2 = (g, Ret a).
Proof.
  remember (mkConfig m (g, Ret a) os) as c eqn:Ec. intros Hrun. revert m os Ec.
  induction Hrun as [c|c b o c1 ts c2 Hs Hcl Hr IH]; intros m os ->; [done|].
  inversion Hs as [m0 t o0 m' t' os0 Ht|m0 t o0 m' t1 t1' os1 os2 Ht|m0 t t1 os1 os2]; subst; [done|by eapply IH..].
Qed.

Lemma ret_held {A} idx m g (a : A) os ts c2 Q :
  run (mkConfig m (g, Ret a) os) ts c2 -> config_ok (mkConfig m (g, Ret a) os) Q -> last_gen m + zlen ts < 2 ^ 64 -> holds g = Some idx ->
  same_slot idx m (mem c2) /\ Forall (fun t => seq_at (at_mem t) idx = seq_at m idx) ts.
Proof. intros Hr Hok Hb Hh. by apply (held_others _ _ _ _ idx Hr (run_ret_others _ _ _ _ _ _ Hr) Hok Hb Hh). Qed.

(** One round of [begin_write]. *)
Definition begin_round (idx : Z) : prog (option Z) :=
  let~ seq := load (Slot idx c_seq) in
  if Z.odd seq then Ret None
  else
    let begin := wrap 64 (seq + 1) in
    let~ r := compare_exchange (Slot idx c_seq) seq begin in
    Ret (if is_ok r then Some begin else None).

Lemma begin_round_run idx m g os ts m2 g2 o os2 Q :
  run (mkConfig m (g, begin_round idx) os) ts (mkConfig m2 (g2, Ret o) os2) ->
  config_ok (mkConfig m (g, begin_round idx) os) Q -> last_gen m + zlen ts < 2 ^ 64 ->
  match o with None => g2 = g | Some _ => g2 = mkGhost (Some idx) (minted g) /\ entered idx m ts m2 end.
Proof.
  intros Hr Hok Hb. destruct (run_load _ _ _ _ _ _ _ _ _ Hr eq_refl Hok Hb) as (t1 & ts1 & m1 & os1 & -> & _ & Hp1 & Hr1 & Hok1 & Hb1).
  destruct (Z.odd (seq_at m1 idx)) eqn:Hodd; [by apply run_ret_self in Hr1 as [= -> ->]|].
  assert (Hev : Z.even (seq_at m1 idx) = true) by (by rewrite <- Z.negb_odd, Hodd).
  destruct (run_do_ok _ _ _ _ _ _ _ _ _ Hr1 eq_refl Hok1 Hb1) as (t2 & ts2 & m3 & os3 & r & m4 & -> & _ & Hp2 & _ & Ho & _ & _ & Hr2 & Hok2 & Hb2).
  cbn in Ho. cbn [ghost_after] in *. case_decide as Heq; destruct Ho as [-> ->].
  - rewrite Hev in *. pose proof (run_ret_self _ _ _ _ _ _ Hr2) as [= -> ->].
    destruct (ret_held idx _ _ _ _ _ _ _ Hr2 Hok2 Hb2 eq_refl) as [Hsame Hf]. split; [done|].
    rewrite (app_assoc t1), (cons_middle _ _ ts2), app_assoc. eapply entered_held; [|exact Hsame|exact Hf].
    exists (t1 ++ t2), [mkTick true (Wrote (Slot idx c_seq)) (upd m3 (Slot idx c_seq) (wrap 64 (seq_at m1 idx + 1))) (mkGhost (Some idx) (minted g) :: os3.*1)].
    assert (Hm3 : last_mem m (t1 ++ t2) = m3).
    { rewrite last_mem_app. pose proof (run_last _ _ _ Hp1) as Hl1. cbn in Hl1. rewrite Hl1. apply (run_last _ _ _ Hp2). }
    split; [cbn; by rewrite Hodd|]. cbv zeta. rewrite Hm3, upd_eq, Heq. split_and!; [done|done| |].
    + intros c Hc. apply upd_ne. by destruct c.
    + constructor; [|constructor]. cbn. by rewrite upd_eq.
  - by apply run_ret_self in Hr2 as [= -> ->].
Qed.

Lemma begin_write_run idx m g os ts c2 b Q :
  run (mkConfig m (g, begin_write idx) os) ts c2 -> (self c2).2 = Ret b ->
  config_ok (mkConfig m (g, begin_write idx) os) Q -> last_gen m + zlen ts < 2 ^ 64 ->
  (self c2).1 = mkGhost (Some idx) (minted g) /\ entered idx m ts (mem c2).
Proof.
  assert (Hn : (length ts <= length ts)%nat) by done. revert Hn. generalize (length ts) at 2 as n. intros n.
  revert m os ts. induction n as [|n IH]; intros m os ts Hn Hr Hd Hok Hb; [destruct ts; [by inversion Hr; subst|cbn in Hn; lia]|].
  destruct (run_loop_ok _ _ _ _ _ _ _ _ _ Hr Hd Hok Hb) as (t1 & ts1 & m1 & os1 & -> & Hlen & Hlast & Hr1 & Hok1 & Hb1).
  change (again _ Ret) with (again (begin_round idx) Ret) in *.
  destruct (run_bind_ok _ _ _ _ _ _ _ _ _ Hr1 Hd Hok1 Hb1) as (t2 & ts2 & m2 & g2 & o & os2 & -> & Hp2 & Hr2 & Hokp & Hbp & Hok2 & Hb2).
  pose proof (begin_round_run _ _ _ _ _ _ _ _ _ _ Hp2 Hokp Hbp) as Ho. destruct o as [b'|].
  - destruct Ho as [-> Hent]. destruct (ret_held idx _ _ _ _ _ _ _ Hr2 Hok2 Hb2 eq_refl) as [Hsame Hf].
    rewrite (run_ret_self _ _ _ _ _ _ Hr2). split; [done|]. eapply entered_after; [exact Hlast|]. by eapply entered_held.
  - subst g2. rewrite length_app in Hlen. destruct (IH m2 os2 ts2) as [Hg Hent]; [rewrite !length_app in Hn, Hlen; lia|done..|].
    split; [done|]. rewrite app_assoc. eapply entered_after; [|exact Hent]. rewrite last_mem_app, Hlast. apply (run_last _ _ _ Hp2).
Qed.

(** A load by a thread that is in the slot. *)
Lemma held_load {A} idx m g l (f : Z -> prog A) os ts c2 d Q :
  run (mkConfig m (g, pbind (load l) f) os) ts c2 -> (self c2).2 = Ret d -> holds g = Some idx ->
  config_ok (mkConfig m (g, pbind (load l) f) os) Q -> last_gen m + zlen ts < 2 ^ 64 ->
  exists ts1 ts2 m1 os1, ts = ts1 ++ ts2 /\ m1 ∈ (at_mem <$> ts1) /\ last_mem m ts1 = m1
    /\ same_slot idx m m1 /\ Forall (fun t => seq_at (at_mem t) idx = seq_at m idx) ts1
    /\ run (mkConfig m1 (g, f (m1 l)) os1) ts2 c2 /\ config_ok (mkConfig m1 (g, f (m1 l)) os1) Q /\ last_gen m1 + zlen ts2 < 2 ^ 64.
Proof.
  intros Hr Hd Hh Hok Hb.
  destruct (run_do_ok _ _ _ _ _ _ _ _ _ Hr Hd Hok Hb) as (t1 & ts1 & m1 & os1 & r & m2 & -> & Hts & Hp1 & Hb1 & [-> ->] & _ & _ & Hr1 & Hok1 & Hb2).
  destruct (held_others _ _ _ _ idx Hp1 Hts Hok Hb1 Hh) as (_ & Hsame & Hf). cbn [mem] in *.
  eexists (t1 ++ [_]), ts1, m1, os1. split; [by rewrite <- app_assoc|]. split_and!; [| |done| |done..].
  - rewrite fmap_app. apply elem_of_app. right. by left.
  - by rewrite last_mem_app.
  - apply Forall_app. split; [done|]. constructor; [apply (proj1 Hsame)|constructor].
Qed.

(** The end of a write: the thread leaves the slot as it made it. *)
Lemma end_write_run {A} idx m g (k : () -> prog A) os ts c2 d Q :
  run (mkConfig m (g, pbind (end_write idx) k) os) ts c2 -> (self c2).2 = Ret d -> holds g = Some idx ->
  config_ok (mkConfig m (g, pbind (end_write idx) k) os) Q -> last_gen m + zlen ts < 2 ^ 64 ->
  exists ts1 t ts2, ts = ts1 ++ t :: ts2 /\ Forall (fun t => seq_at (at_mem t) idx = seq_at m idx) ts1
    /\ seq_at (at_mem t) idx = wrap 64 (seq_at m idx + 1)
    /\ forall c, is_data c = true -> at_mem t (Slot idx c) = m (Slot idx c).
Proof.
  intros Hr Hd Hh Hok Hb.
  destruct (run_do_ok _ _ _ _ _ _ _ _ _ Hr Hd Hok Hb) as (t1 & ts1 & m1 & os1 & r & m2 & -> & Hts & Hp1 & Hb1 & [-> ->] & _ & _ & Hr1 & Hok1 & Hb2).
  destruct (held_others _ _ _ _ idx Hp1 Hts Hok Hb1 Hh) as (_ & [Hs Hdata] & Hf). cbn [mem] in *.
  eexists t1, _, ts1. split_and!; [done|done| |]; cbn.
  - by rewrite upd_eq, Hs.
  - intros c Hc. rewrite upd_ne by (by destruct c). by apply Hdata.
Qed.

(** ** One process alone *)

Definition alone {A} (m : Mem) (g : ghost) (p : prog A) (m' : Mem) (g' : ghost) (a : A) : Prop :=
  exists ts, run (mkConfig m (g, p) []) ts (mkConfig m' (g', Ret a) []).

Lemma alone_ret {A} m g (a : A) : alone m g (Ret a) m g a.
Proof. exists []. constructor. Qed.

Lemma alone_do {A B} (e : Event B) r m m1 g (k : B -> prog A) m2 g2 a :
  outcome e m r m1 -> clean (observe e r) [g] -> alone m1 (ghost_after e r g) (k r) m2 g2 a -> alone m g (Do e k) m2 g2 a.
Proof.
  intros Ho Hcl [ts Hr]. eexists. eapply (run_cons _ true (observe e r) (mkConfig m1 (ghost_after e r g, k r) [])); [|exact Hcl|exact Hr].
  constructor. by exists r.
Qed.

Lemma alone_loop {A B} (body : prog (option B)) (k : B -> prog A) m g m2 g2 a :
  alone m g (again body k) m2 g2 a -> alone m g (Loop body k) m2 g2 a.
Proof. intros [ts Hr]. eexists. eapply (run_cons _ true Silent (mkConfig m (g, again body k) [])); [|done|exact Hr]. constructor. done. Qed.

Lemma run_lift {A C} (f : A -> prog C) (c : config A) ts c1 :
  run c ts c1 ->
  run (mkConfig (mem c) ((self c).1, pbind (self c).2 f) (others c)) ts (mkConfig (mem c1) ((self c1).1, pbind (self c1).2 f) (others c1)).
Proof.
  induction 1 as [c|c b o c1 ts c2 Hs Hcl Hr IH]; [constructor|].
  eapply (run_cons _ b o (mkConfig (mem c1) ((self c1).1, pbind (self c1).2 f) (others c1))); [|exact Hcl|exact IH].
  destruct Hs as [m [g p] o m' t' os Ht|m t o m' t1 t1' os1 os2 Ht|m t t1 os1 os2]; cbn; [|by constructor..].
  constructor. destruct p as [a|B e k|B body k]; [done|..].
  - destruct Ht as (r & Ho & -> & ->). by exists r.
  - destruct Ht as (-> & -> & ->). cbn. by rewrite bind_again.
Qed.

Lemma alone_bind {A C} m g (p : prog A) (f : A -> prog C) m1 g1 a m2 g2 d :
  alone m g p m1 g1 a -> alone m1 g1 (f a) m2 g2 d -> alone m g (pbind p f) m2 g2 d.
Proof. intros [ts1 Hr1] [ts2 Hr2]. exists (ts1 ++ ts2). eapply run_app; [exact (run_lift f _ _ _ Hr1)|exact Hr2]. Qed.

Lemma alone_load {A} m g l (k : Z -> prog A) m2 g2 a : alone m g (k (m l)) m2 g2 a -> alone m g (pbind (load l) k) m2 g2 a.
Proof. intros Hk. by apply (alone_do (Load l) (m l) m m). Qed.

Lemma alone_reads {A} idx m g (p : prog A) a : only_loads idx p -> eval m p = Some a -> alone m g p m g a.
Proof.
  intros Hp. induction Hp as [a0|c k Hc Hk IH]; cbn; [intros [= ->]; apply alone_ret|]. intros He. by apply alone_load, IH.
Qed.

Lemma alone_stores {A} idx m g (p : prog A) : only_stores idx p ->
  exists m' a, alone m g p m' g a /\ (forall c, is_data c = true -> m' (Slot idx c) = default (m (Slot idx c)) (stored p c))
    /\ forall l, (forall c, is_data c = true -> l <> Slot idx c) -> m' l = m l.
Proof.
  intros Hp. revert m. induction Hp as [a|c v k Hc Hk IH]; intros m; [by exists m, a; split_and!; [apply alone_ret|..]|].
  destruct (IH (upd m (Slot idx c) v)) as (m' & a & Hr & Hd & Hl). exists m', a. split_and!.
  - apply (alone_do (Store (Slot idx c) v) () m (upd m (Slot idx c) v)); [done..|]. by destruct c.
  - intros c' Hc'. rewrite Hd by done. cbn [stored]. destruct (stored (k ()) c'); [done|]. cbn.
    case_decide as Heq; [subst; by rewrite upd_eq|]. by rewrite upd_ne by congruence.
  - intros l Hne. rewrite Hl by done. apply upd_ne, Hne, Hc.
Qed.

Lemma alone_begin_write {A} idx m g (k : Z -> prog A) m2 g2 a :
  Z.even (seq_at m idx) = true ->
  (let b := wrap 64 (seq_at m idx + 1) in alone (upd m (Slot idx c_seq) b) (mkGhost (Some idx) (minted g)) (k b) m2 g2 a) ->
  alone m g (pbind (begin_write idx) k) m2 g2 a.
Proof.
  intros Hev Hk. apply alone_loop, alone_load. cbn. rewrite <- Z.negb_even, Hev. cbn.
  eapply (alone_do (CompareExchange (Slot idx c_seq) (seq_at m idx) (wrap 64 (seq_at m idx + 1))) (Ok (seq_at m idx))).
  - cbn. by rewrite decide_True.
  - cbn. by rewrite <- Z.negb_even, Hev.
  - cbn. rewrite Hev. exact Hk.
Qed.
