(* ===== verification/MetricsRegistry.v ===== *)
(** * The metrics registry: its methods, and what they guarantee

    Every method of [Metrics] keeps to the protocol of [MetricsShared], so the
    threads of this file are clients: they call the methods in any order and
    number, with arguments that depend on earlier results.

    The theorems hold for every interleaving of clients, with killed processes;
    the examples at the end run schedules the protocol does not protect from. *)

From S2P Require Import Prelude Text Metrics MetricsShared.
From Stdlib Require Import FunctionalExtensionality.

(** ** The methods keep to the protocol *)

Lemma obeys_load l g (Q : Z -> ghost -> Prop) : (forall v, Q v g) -> obeys (load l) g Q.
Proof. intros HQ. split; [done|]. exact HQ. Qed.

Lemma obeys_store_data idx c v g (Q : () -> ghost -> Prop) :
  is_data c = true -> holds g = Some idx -> Q () g -> obeys (store (Slot idx c) v) g Q.
Proof. intros Hc Hh HQ. split; [by destruct c|]. intros []. by destruct c. Qed.

Lemma obeys_store_state idx v g (Q : () -> ghost -> Prop) : Q () g -> obeys (store (Slot idx c_state) v) g Q.
Proof. intros HQ. split; [done|]. by intros []. Qed.

Lemma obeys_publish idx v g (Q : () -> ghost -> Prop) :
  minted g = Some v -> Q () (mkGhost (holds g) None) -> obeys (store (Slot idx c_generation) v) g Q.
Proof. intros Hm HQ. split; [done|]. by intros []. Qed.

Lemma obeys_cas_state idx cur new g (Q : result Z Z -> ghost -> Prop) :
  (forall r, Q r g) -> obeys (compare_exchange (Slot idx c_state) cur new) g Q.
Proof. intros HQ. split; [done|]. intros r. apply HQ. Qed.

Lemma obeys_cas_generation idx cur new g (Q : result Z Z -> ghost -> Prop) :
  minted g = Some new -> (forall r, Q r (mkGhost (holds g) None)) -> obeys (compare_exchange (Slot idx c_generation) cur new) g Q.
Proof. intros Hm HQ. split; [done|]. intros r. apply HQ. Qed.

Lemma obeys_next_generation g (Q : Z -> ghost -> Prop) : (forall v, Q v (mkGhost (holds g) (Some v))) -> obeys next_generation g Q.
Proof. intros HQ. split; [done|]. intros r. apply HQ. Qed.

Lemma obeys_begin_write idx g (Q : Z -> ghost -> Prop) :
  holds g = None -> (forall b, Q b (mkGhost (Some idx) (minted g))) -> obeys (begin_write idx) g Q.
Proof.
  intros Hh HQ. split; [done|]. intros s. cbn. destruct (Z.odd s) eqn:Hs; cbn; [done|]. split; [done|].
  intros [r|r]; cbn; [|done]. rewrite <- Z.negb_odd, Hs. apply HQ.
Qed.

Lemma obeys_end_write idx g (Q : () -> ghost -> Prop) :
  holds g = Some idx -> Q () (mkGhost None (minted g)) -> obeys (end_write idx) g Q.
Proof. intros Hh HQ. split; [done|]. intros r. apply HQ. Qed.

Lemma obeys_quiesce idx force g (Q : result MetricsError () -> ghost -> Prop) :
  holds g = None -> (forall r, Q r g) -> obeys (quiesce_seq idx force) g Q.
Proof.
  intros Hh HQ. split; [done|]. intros s. cbn. destruct (Z.even s) eqn:Hs; cbn; [apply HQ|]. split; [done|].
  intros [|]; cbn; [|done]. destruct force; cbn; [|apply HQ]. split; [done|]. intros [r|r]; cbn; [|done]. by rewrite Hs.
Qed.

Lemma obeys_pid_is_alive pid g (Q : bool -> ghost -> Prop) : (forall b, Q b g) -> obeys (pid_is_alive pid) g Q.
Proof. intros HQ. unfold pid_is_alive. destruct (pid <=? 0); [apply HQ|]. split; [done|]. apply HQ. Qed.

Lemma obeys_first_some {A B} (f : A -> prog (option B)) l g (Q : option B -> ghost -> Prop) :
  (forall a, obeys (f a) g (fun _ g' => g' = g)) -> (forall o, Q o g) -> obeys (first_some f l) g Q.
Proof.
  intros Hf HQ. induction l as [|a l IH]; [apply HQ|]. apply obeys_bind. eapply obeys_mono; [apply Hf|]. intros [b|] g' ->; [apply HQ|apply IH].
Qed.

Lemma obeys_filter_map {A B} (f : A -> prog (option B)) l g (Q : list B -> ghost -> Prop) :
  (forall a, obeys (f a) g (fun _ g' => g' = g)) -> (forall bs, Q bs g) -> obeys (filter_map f l) g Q.
Proof.
  intros Hf. revert Q. induction l as [|a l IH]; intros Q HQ; [apply HQ|]. apply obeys_bind. eapply obeys_mono; [apply Hf|].
  intros o g' ->. apply obeys_bind, IH. intros bs. apply HQ.
Qed.

Lemma obeys_for_each {A} (f : A -> prog ()) l g (Q : () -> ghost -> Prop) :
  (forall a, obeys (f a) g (fun _ g' => g' = g)) -> Q () g -> obeys (for_each f l) g Q.
Proof. intros Hf HQ. induction l as [|a l IH]; [done|]. apply obeys_bind. eapply obeys_mono; [apply Hf|]. by intros o g' ->. Qed.

Lemma obeys_only_loads {A} idx (p : prog A) g (Q : A -> ghost -> Prop) : only_loads idx p -> (forall a, Q a g) -> obeys p g Q.
Proof. intros Hp HQ. induction Hp as [a|c k Hc Hk IH]; [apply HQ|]. split; [done|]. intros r. apply IH. Qed.

Lemma obeys_conforms {A} (p : prog A) (Q : A -> ghost -> Prop) : conforms p -> (forall a, Q a quiet) -> obeys p quiet Q.
Proof. intros Hp HQ. eapply obeys_mono; [exact Hp|]. by intros a g ->. Qed.

(** The methods that are known to conform. *)
Create HintDb obeys.

(** Goes through a straight-line program; [t] handles calls. *)
Ltac obey_with t :=
  repeat match goal with
  | |- forall _, _ => intros ?
  | |- obeys (pbind _ _) _ _ => apply obeys_bind
  | |- obeys (Ret _) _ _ => cbn [obeys]
  | |- obeys (if ?b then _ else _) _ _ => destruct b
  | |- obeys (match ?o with _ => _ end) _ _ => destruct o
  | |- obeys _ _ _ => first [t | apply obeys_conforms; [solve [eauto with obeys]|] | apply obeys_load | apply obeys_store_data; [reflexivity|reflexivity|]
      | apply obeys_store_state | apply obeys_publish; [reflexivity|] | apply obeys_cas_state | apply obeys_cas_generation; [reflexivity|]
      | apply obeys_next_generation | apply obeys_begin_write; [reflexivity|] | apply obeys_end_write; [reflexivity|]
      | apply obeys_quiesce; [reflexivity|] | apply obeys_pid_is_alive]
  | |- _ = quiet => reflexivity
  end.
Ltac obey := obey_with fail.

Section Registry.
Context `{Chrono}.

Lemma write_name_obeys idx name g (Q : () -> ghost -> Prop) : holds g = Some idx -> Q () g -> obeys (write_name idx name) g Q.
Proof.
  intros Hh HQ. unfold write_name. apply obeys_bind, obeys_for_each; [intros [i b]; by apply obeys_store_data|].
  apply obeys_bind, obeys_for_each; [intros i; by apply obeys_store_data|]. by apply obeys_store_data.
Qed.

Lemma write_reservation_fields_obeys idx spec v (Q : () -> ghost -> Prop) :
  Q () quiet -> obeys (write_reservation_fields idx spec v) (mkGhost None (Some v)) Q.
Proof. intros HQ. unfold write_reservation_fields. by obey_with ltac:(apply write_name_obeys; [done|]). Qed.

Lemma release_inner_conforms reg idx g mode force : conforms (release_inner reg idx g mode force).
Proof. unfold release_inner, conforms. obey. Qed.
Hint Resolve release_inner_conforms : obeys.

Lemma release_reserved_conforms reg idx g : conforms (release_reserved reg idx g).
Proof. unfold release_reserved, conforms. obey. Qed.

Lemma claimable_conforms reg pass idx cur : conforms (claimable reg pass idx cur).
Proof. unfold claimable, conforms. obey. Qed.
Hint Resolve claimable_conforms : obeys.

Lemma reserve_conforms reg spec : conforms (reserve reg spec).
Proof.
  unfold reserve, conforms. destruct (_ <? _)%nat; [done|]. apply obeys_bind, obeys_first_some; [|done]. intros [pass idx]. unfold reserve_at.
  obey_with ltac:(apply write_reservation_fields_obeys).
Qed.

Lemma activate_writer_conforms reg spec : conforms (activate_writer reg spec).
Proof. unfold activate_writer, conforms. obey. Qed.

Lemma write_sample_conforms w sample : conforms (write_sample w sample).
Proof. unfold write_sample, store_sample, conforms. obey. Qed.

Lemma read_attempt_conforms idx stale : conforms (read_attempt idx stale).
Proof. unfold read_attempt, conforms. obey_with ltac:(eapply obeys_only_loads; [apply read_fields_loads|]). Qed.

Lemma read_slot_conforms idx stale : conforms (read_slot idx stale).
Proof. unfold read_slot, conforms. apply obeys_bind, obeys_first_some; [|by obey]. intros _. apply read_attempt_conforms. Qed.
Hint Resolve read_slot_conforms : obeys.

Lemma read_slot_demoting_conforms reg idx stale : conforms (read_slot_demoting reg idx stale).
Proof. unfold read_slot_demoting, conforms. obey. Qed.
Hint Resolve read_slot_demoting_conforms : obeys.

Lemma identified_at_conforms reg idx stale : conforms (identified_at reg idx stale).
Proof. unfold identified_at, conforms. obey. Qed.

Lemma get_by_sandbox_identity_conforms reg id name : conforms (get_by_sandbox_identity reg id name).
Proof. unfold get_by_sandbox_identity. apply obeys_first_some; [|done]. intros [want idx]. obey. Qed.

Lemma get_by_run_id_conforms reg id : conforms (get_by_run_id reg id).
Proof. unfold get_by_run_id. apply obeys_first_some; [|done]. intros idx. obey. Qed.

Lemma release_by_identity_conforms reg id run_id mode : conforms (release_by_identity reg id run_id mode).
Proof. unfold release_by_identity, conforms. apply obeys_bind, obeys_first_some; [|by obey]. intros idx. obey. Qed.

Lemma ready_conforms : conforms ready.
Proof.
  unfold ready, conforms. apply obeys_bind. split; [done|]. intros s. cbn. destruct (s =? _); [done|]. destruct (_ && _); [done|].
  split; [done|]. by intros [|].
Qed.
Hint Resolve ready_conforms : obeys.

Lemma validate_header_version_conforms v cap : conforms (validate_header_version v cap).
Proof. unfold validate_header_version, conforms. obey. Qed.
Hint Resolve validate_header_version_conforms : obeys.

Lemma try_open_existing_conforms cap : conforms (try_open_existing cap).
Proof. unfold try_open_existing, validate_header, conforms. obey. Qed.
Hint Resolve try_open_existing_conforms : obeys.

Lemma open_conforms : conforms open.
Proof. unfold open, validate_header, conforms. obey. Qed.

(** ** Clients *)

(** The methods of the registry and of its writers. *)
Inductive call : forall {A}, prog A -> Prop :=
  | call_open : call open
  | call_reserve reg spec : call (reserve reg spec)
  | call_activate_writer reg spec : call (activate_writer reg spec)
  | call_write_sample w sample : call (write_sample w sample)
  | call_writer_release w mode : call (writer_release w mode)
  | call_release reg idx g mode : call (release reg idx g mode)
  | call_release_reserved reg idx g : call (release_reserved reg idx g)
  | call_release_by_identity reg id run_id mode : call (release_by_identity reg id run_id mode)
  | call_snapshot reg : call (snapshot reg)
  | call_active_snapshot reg : call (active_snapshot reg)
  | call_identified_at reg idx stale : call (identified_at reg idx stale)
  | call_identified_snapshot reg stale : call (identified_snapshot reg stale)
  | call_get_by_sandbox_id reg id : call (get_by_sandbox_id reg id)
  | call_get_by_sandbox_identity reg id name : call (get_by_sandbox_identity reg id name)
  | call_get_by_run_id reg id : call (get_by_run_id reg id).

(** A process: calls whose arguments depend on earlier results. *)
Inductive client : prog () -> Prop :=
  | client_done : client (Ret ())
  | client_call {A} (p : prog A) k : call p -> (forall a, client (k a)) -> client (pbind p k).

Lemma call_conforms {A} (p : prog A) : call p -> conforms p.
Proof.
  intros Hp. destruct Hp; auto using open_conforms, reserve_conforms, activate_writer_conforms, write_sample_conforms, release_reserved_conforms,
    release_by_identity_conforms, identified_at_conforms, get_by_sandbox_identity_conforms, get_by_run_id_conforms, release_inner_conforms.
  all: first [apply release_inner_conforms | apply get_by_sandbox_identity_conforms | apply obeys_filter_map; [|done]]; intros idx.
  all: first [apply read_slot_demoting_conforms | apply identified_at_conforms].
Qed.

Lemma client_conforms p : client p -> conforms p.
Proof. induction 1 as [|A p k Hp Hk IH]; [done|]. apply obeys_bind, obeys_conforms; [by apply call_conforms|]. apply IH. Qed.

(** A registry no one is using; a killed writer may have left a lock taken. *)
Record settled (m : Mem) : Prop := {
  settled_seq : forall idx, 0 <= seq_at m idx < 2 ^ 64;
  settled_gen : forall idx, gen_at m idx <= last_gen m;
  settled_last : 0 <= last_gen m
}.

(** A method and clients start on a memory. *)
Definition start {A} (m : Mem) (p : prog A) (os : list (prog ())) : config A := mkConfig m (quiet, p) (pair quiet <$> os).

Lemma start_ok {A} m (p : prog A) os : settled m -> conforms p -> Forall client os -> config_ok (start m p os) (fun _ g => g = quiet).
Proof.
  intros [H1 H2 H3] Hp Hos. split_and!; [|done|].
  - assert (Hq : Forall (fun g => g = quiet) (ghosts (start m p os))).
    { constructor; [done|]. cbn. rewrite <- list_fmap_compose. apply Forall_fmap, Forall_true. done. }
    revert Hq. generalize (ghosts (start m p os)). intros gs Hq. cbn [start mem].
    induction Hq as [|g gs -> Hq IH]; [split; cbn; try done; try apply NoDup_nil_2; intros ?? Hin; by apply elem_of_nil in Hin|]. apply shared_ok_cons. by split_and!.
  - cbn. apply Forall_fmap. eapply Forall_impl; [exact Hos|]. intros q Hq. by apply client_conforms.
Qed.

(** ** Theorems *)


(** The value a sample gives to a cell, when it gives one. *)
Definition sample_cell (sample : SampleWrite) (c : Cell) : option Z :=
  match c with
  | c_sampled_at_unix_ms => Some (timestamp_millis (sampled_at sample))
  | c_sample_flags => Some (sample_flags sample)
  | c_memory_limit_bytes => sw_memory_limit_bytes sample
  | c_vcpu_time_ns => Some (default 0 (sw_vcpu_time_ns sample))
  | c_cpu_percent_bits => Some (default 0 (sw_cpu_percent sample))
  | c_memory_bytes => Some (default 0 (sw_memory_bytes sample))
  | c_memory_available_bytes => Some (default 0 (sw_memory_available_bytes sample))
  | c_memory_host_resident_bytes => Some (default 0 (sw_memory_host_resident_bytes sample))
  | c_disk_read_bytes => Some (sw_disk_read_bytes sample)
  | c_disk_write_bytes => Some (sw_disk_write_bytes sample)
  | c_net_rx_bytes => Some (sw_net_rx_bytes sample)
  | c_net_tx_bytes => Some (sw_net_tx_bytes sample)
  | c_upper_used_bytes => Some (default 0 (sw_upper_used_bytes sample))
  | c_upper_free_bytes => Some (default 0 (sw_upper_free_bytes sample))
  | c_upper_host_allocated_bytes => Some (default 0 (sw_upper_host_allocated_bytes sample))
  | _ => None
  end.

Lemma store_sample_stores idx sample : only_stores idx (store_sample idx sample).
Proof. unfold store_sample. destruct (sw_memory_limit_bytes sample); repeat (constructor; [done|]); constructor. Qed.

Lemma store_sample_stored idx sample c : stored (store_sample idx sample) c = sample_cell sample c.
Proof. unfold store_sample. destruct c; cbn; by destruct (sw_memory_limit_bytes sample). Qed.


(** The thread of interest stores into no field of a slot. *)
Definition stores_nothing (ts : list tick) : Prop :=
  Forall (fun t => by_self t = true -> forall idx c, obs t = Wrote (Slot idx c) -> is_data c = false) ts.

Lemma others_store_nothing ts : Forall (fun t => by_self t = false) ts -> stores_nothing ts.
Proof. intros Hts. eapply Forall_impl; [exact Hts|]. cbn. intros t Ht Hb. congruence. Qed.


(** At most one process is in a slot, and then its sequence number is odd;
    generations are drawn once and those not yet published are in no slot: an
    invariant of every interleaving of the methods. *)
Lemma metrics_writers_exclusive {A} m (p : prog A) os ts c2 :
  settled m -> call p -> Forall client os -> last_gen m + zlen ts < 2 ^ 64 -> run (start m p os) ts c2 -> shared_ok (mem c2) (ghosts c2).
Proof.
  intros Hm Hp Hos Hb Hr. by destruct (run_keeps_ok _ _ _ _ Hr (start_ok _ _ _ Hm (call_conforms _ Hp) Hos) Hb) as ((Hok & _) & _).
Qed.

(** The metric of a slot whose last sample is [sample], over the fields of [m]. *)
Definition sample_metric (m : Mem) (idx : Z) (sample : SampleWrite) : LiveMetric :=
  let is_some (o : option Z) := bool_decide (is_Some o) in
  let timestamp := ms_to_datetime (timestamp_millis (sampled_at sample)) in
  {| lm_state := MetricActive;
     lm_sandbox_id := m (Slot idx c_sandbox_id);
     lm_run_id := m (Slot idx c_run_id);
     lm_pid := m (Slot idx c_pid);
     lm_name := name_at m idx;
     lm_timestamp := timestamp;
     lm_uptime := default zero_duration (duration_since timestamp (ms_to_datetime (m (Slot idx c_started_at_unix_ms))));
     lm_cpu_percent := default 0 (sw_cpu_percent sample);
     lm_vcpu_time_ns := default 0 (sw_vcpu_time_ns sample);
     lm_memory_bytes := default 0 (sw_memory_bytes sample);
     lm_memory_bytes_reported := is_some (sw_memory_bytes sample);
     lm_memory_available_bytes := sw_memory_available_bytes sample;
     lm_memory_host_resident_bytes := sw_memory_host_resident_bytes sample;
     lm_memory_limit_bytes := default (m (Slot idx c_memory_limit_bytes)) (sw_memory_limit_bytes sample);
     lm_memory_limit_live := is_some (sw_memory_limit_bytes sample);
     lm_disk_read_bytes := sw_disk_read_bytes sample;
     lm_disk_write_bytes := sw_disk_write_bytes sample;
     lm_net_rx_bytes := sw_net_rx_bytes sample;
     lm_net_tx_bytes := sw_net_tx_bytes sample;
     lm_upper_used_bytes := sw_upper_used_bytes sample;
     lm_upper_free_bytes := sw_upper_free_bytes sample;
     lm_upper_host_allocated_bytes := sw_upper_host_allocated_bytes sample |}.

(** The flags a sample is written with say which of its values it has. *)
Lemma sample_flags_set sample :
  let flags := sample_flags sample in
  flag_set flags SAMPLE_FLAG_MEMORY_USED = bool_decide (is_Some (sw_memory_bytes sample))
  /\ flag_set flags SAMPLE_FLAG_MEMORY_AVAILABLE = bool_decide (is_Some (sw_memory_available_bytes sample))
  /\ flag_set flags SAMPLE_FLAG_MEMORY_HOST_RESIDENT = bool_decide (is_Some (sw_memory_host_resident_bytes sample))
  /\ flag_set flags SAMPLE_FLAG_MEMORY_LIMIT_LIVE = bool_decide (is_Some (sw_memory_limit_bytes sample))
  /\ flag_set flags SAMPLE_FLAG_UPPER_USED = bool_decide (is_Some (sw_upper_used_bytes sample))
  /\ flag_set flags SAMPLE_FLAG_UPPER_FREE = bool_decide (is_Some (sw_upper_free_bytes sample))
  /\ flag_set flags SAMPLE_FLAG_UPPER_HOST_ALLOCATED = bool_decide (is_Some (sw_upper_host_allocated_bytes sample)).
Proof.
  unfold sample_flags.
  destruct (bool_decide (is_Some (sw_memory_bytes sample))), (bool_decide (is_Some (sw_memory_available_bytes sample))),
    (bool_decide (is_Some (sw_memory_host_resident_bytes sample))), (bool_decide (is_Some (sw_memory_limit_bytes sample))),
    (bool_decide (is_Some (sw_upper_used_bytes sample))), (bool_decide (is_Some (sw_upper_free_bytes sample))),
    (bool_decide (is_Some (sw_upper_host_allocated_bytes sample))),
    (bool_decide (is_Some (sw_cpu_percent sample)) && bool_decide (is_Some (sw_vcpu_time_ns sample))); by vm_compute.
Qed.

Lemma flag_value_option flags flag (o : option Z) : flag_set flags flag = bool_decide (is_Some o) -> flag_value flags flag (default 0 o) = o.
Proof. unfold flag_value. intros ->. by destruct o. Qed.

Lemma sample_metric_live m m' idx sample :
  (forall c, is_data c = true -> m' (Slot idx c) = default (m (Slot idx c)) (sample_cell sample c)) ->
  live_metric SLOT_ACTIVE (fields_at m' idx) = sample_metric m idx sample.
Proof.
  intros Hd. destruct (sample_flags_set sample) as (H1 & H2 & H3 & H4 & H5 & H6 & H7).
  unfold live_metric, sample_metric, fields_at, name_at. cbn [f_sandbox_id f_run_id f_pid f_started_at_ms f_sampled_at_ms f_sample_flags
    f_memory_limit f_vcpu_time_ns f_cpu_bits f_memory f_memory_available f_memory_host_resident f_disk_r f_disk_w f_net_rx f_net_tx
    f_upper_used f_upper_free f_upper_host_allocated f_name].
  rewrite !Hd by done. cbn [sample_cell default option_fmap option_map from_option id].
  rewrite H1, H4, !flag_value_option by done. f_equal. f_equal. f_equal. apply functional_extensionality. intros i. by rewrite Hd.
Qed.

Lemma write_sample_alone m w sample :
  let idx := w_slot w in
  idx < capacity (w_registry w) -> gen_at m idx = w_generation w -> Z.even (seq_at m idx) = true ->
  exists m', alone m quiet (write_sample w sample) m' quiet (Ok ())
    /\ (forall c, is_data c = true -> m' (Slot idx c) = default (m (Slot idx c)) (sample_cell sample c))
    /\ m' (Slot idx c_state) = m (Slot idx c_state) /\ gen_at m' idx = gen_at m idx /\ Z.even (seq_at m' idx) = true.
Proof.
  intros idx Hcap Hgen Hev. unfold write_sample, try_slot. fold idx. rewrite (proj2 (Z.leb_gt _ _)) by done.
  set (m1 := upd m (Slot idx c_seq) (wrap 64 (seq_at m idx + 1))). assert (Hg1 : gen_at m1 idx = w_generation w) by (unfold m1; by rewrite upd_ne).
  destruct (alone_stores idx m1 (mkGhost (Some idx) None) _ (store_sample_stores idx sample)) as (m2 & [] & Hr & Hd & Hl).
  exists (upd m2 (Slot idx c_seq) (wrap 64 (seq_at m2 idx + 1))). split_and!.
  - apply alone_load. rewrite Hgen, Z.eqb_refl. apply alone_begin_write; [done|]. cbv zeta. fold m1. apply alone_load.
    rewrite Hg1, Z.eqb_refl. cbn [negb]. eapply alone_bind; [exact Hr|].
    apply (alone_do (FetchAdd (Slot idx c_seq) 1) (seq_at m2 idx) m2 (upd m2 (Slot idx c_seq) (wrap 64 (seq_at m2 idx + 1)))); [done..|].
    apply alone_ret.
  - intros c Hc. rewrite upd_ne by (by destruct c). rewrite Hd, store_sample_stored by done. unfold m1. by rewrite upd_ne by (by destruct c).
  - rewrite upd_ne, Hl by (try done; by intros []). unfold m1. by rewrite upd_ne.
  - rewrite upd_ne, Hl by (try done; by intros []). unfold m1. by rewrite upd_ne.
  - rewrite upd_eq, even_wrap_succ, Hl by (by intros []). unfold m1. by rewrite upd_eq, even_wrap_succ, Hev.
Qed.

Lemma read_slot_alone m idx stale g :
  slot_visible (m (Slot idx c_state)) stale = true -> Z.even (seq_at m idx) = true -> 0 < m (Slot idx c_sampled_at_unix_ms) ->
  alone m g (read_slot idx stale) m g (Some (live_metric (m (Slot idx c_state)) (fields_at m idx), gen_at m idx, m (Slot idx c_started_at_unix_ms))).
Proof.
  intros Hv Hev Hs. unfold read_slot. assert (Hn : READ_ATTEMPTS = S (Z.to_nat 4095)) by (unfold READ_ATTEMPTS; by rewrite <- Z2Nat.inj_succ by lia).
  rewrite Hn. cbn [replicate first_some]. set (r := (live_metric _ _, _, _)).
  apply (alone_bind _ _ _ _ m g (Some (Some r))); [apply (alone_bind _ _ _ _ m g (Some (Some r)))|apply alone_ret].
  - unfold read_attempt. apply alone_load. rewrite Hv. cbn [negb]. do 2 apply alone_load. rewrite <- Z.negb_even, Hev. cbn [negb].
    eapply alone_bind; [apply (alone_reads idx); [apply read_fields_loads|apply read_fields_eval]|]. do 3 apply alone_load.
    rewrite <- Z.negb_even, Hev, Hv, !Z.eqb_refl. cbn [negb orb]. cbn [fields_at f_sampled_at_ms]. rewrite (proj2 (Z.leb_gt _ _)) by done. apply alone_ret.
  - cbn. apply alone_ret.
Qed.

(** C24: What a writer writes is what a reader then reads: with no other process
    at work, writing a sample succeeds, and reading the slot returns the sample
    with exactly the optional values it has, under the identity of the slot. *)
Theorem metrics_sample_roundtrip m w sample stale :
  let idx := w_slot w in
  idx < capacity (w_registry w) -> m (Slot idx c_state) = SLOT_ACTIVE -> gen_at m idx = w_generation w -> Z.even (seq_at m idx) = true ->
  0 < timestamp_millis (sampled_at sample) ->
  exists m', alone m quiet (let~ r := write_sample w sample in let~ metric := read_slot idx stale in Ret (r, metric)) m' quiet
    (Ok (), Some (sample_metric m idx sample, w_generation w, m (Slot idx c_started_at_unix_ms))).
Proof.
  intros idx Hcap Hst Hgen Hev Hts. destruct (write_sample_alone m w sample Hcap Hgen Hev) as (m' & Hw & Hd & Hst' & Hgen' & Hev').
  fold idx in Hd, Hst', Hgen', Hev'. exists m'. eapply alone_bind; [exact Hw|]. eapply alone_bind; [apply read_slot_alone|].
  - rewrite Hst', Hst. done.
  - done.
  - by rewrite Hd.
  - rewrite Hst', Hst, (sample_metric_live m m' idx sample Hd), Hgen', Hgen, Hd by done. apply alone_ret.
Qed.

End Registry.

(** ** Schedules

    An executable form of the interleavings: a list of thread numbers, 0 for the
    thread of interest, with the environment's answers fixed. *)

Section Schedules.
Variables (alive : Z -> bool) (expired : bool).

Definition respond {B} (e : Event B) (m : Mem) : B * Mem :=
  match e in Event B return B * Mem with
  | Load l => (m l, m)
  | Store l v => ((), upd m l v)
  | CompareExchange l cur new => if decide (m l = cur) then (Ok cur, upd m l new) else (Err (m l), m)
  | FetchAdd l n => (m l, upd m l (wrap 64 (m l + n)))
  | ProcessAlive pid => (alive pid, m)
  | DeadlinePassed => (expired, m)
  end.

Lemma respond_outcome {B} (e : Event B) m : outcome e m (respond e m).1 (respond e m).2.
Proof. destruct e; cbn; try done. by case_decide. Qed.

Definition advance {A} (m : Mem) (t : thread A) : option (Obs * Mem * thread A) :=
  match t.2 with
  | Ret _ => None
  | Do e k => let '(r, m') := respond e m in Some (observe e r, m', (ghost_after e r t.1, k r))
  | Loop body k => Some (Silent, m, (t.1, again body k))
  end.

Lemma advance_tstep {A} m (t : thread A) o m' t' : advance m t = Some (o, m', t') -> tstep m t o m' t'.
Proof.
  unfold advance, tstep. destruct t.2 as [a|B e k|B body k]; [done|..].
  - pose proof (respond_outcome e m) as Ho. destruct (respond e m) as [r m1]. intros [= <- <- <-]. by exists r.
  - by intros [= <- <- <-].
Qed.

Definition clean_b (o : Obs) (gs : list ghost) : bool :=
  match o with Recovered idx => forallb (fun g => negb (bool_decide (holds g = Some idx))) gs | _ => true end.

Lemma clean_b_true o gs : clean_b o gs = true -> clean o gs.
Proof.
  intros Hc idx ->. apply Forall_forall. intros g Hg%list_elem_of_In. cbn in Hc. rewrite forallb_forall in Hc.
  specialize (Hc g Hg). by apply negb_true_iff, bool_decide_eq_false in Hc.
Qed.

(** One step of thread [i]. *)
Definition sched_step {A} (c : config A) (i : nat) : option (tick * config A) :=
  let next b o c1 := if clean_b o (ghosts c) then Some (mkTick b o (mem c1) (ghosts c1), c1) else None in
  match i with
  | O => match advance (mem c) (self c) with Some (o, m', t') => next true o (mkConfig m' t' (others c)) | None => None end
  | S i =>
      match others c !! i with
      | None => None
      | Some t =>
          match advance (mem c) t with
          | Some (o, m', t') => next false o (mkConfig m' (self c) (take i (others c) ++ t' :: drop (S i) (others c)))
          | None => None
          end
      end
  end.

Fixpoint schedule {A} (c : config A) (is_ : list nat) : option (list tick * config A) :=
  match is_ with
  | [] => Some ([], c)
  | i :: is_ =>
      match sched_step c i with
      | None => None
      | Some (t, c1) => match schedule c1 is_ with None => None | Some (ts, c2) => Some (t :: ts, c2) end
      end
  end.

Lemma sched_step_run {A} (c : config A) i t c1 ts c2 : sched_step c i = Some (t, c1) -> run c1 ts c2 -> run c (t :: ts) c2.
Proof.
  intros Hs Hr. destruct c as [m t0 os]. destruct i as [|i]; cbn in Hs.
  - destruct (advance m t0) as [[[o m'] t']|] eqn:Ha; [|done]. destruct (clean_b _ _) eqn:Hc; [|done]. injection Hs as <- <-.
    apply (run_cons _ true o (mkConfig m' t' os)); [|by apply clean_b_true|done]. constructor. by apply advance_tstep.
  - destruct (os !! i) as [ti|] eqn:Hi; [|done]. destruct (advance m ti) as [[[o m'] t']|] eqn:Ha; [|done].
    destruct (clean_b _ _) eqn:Hc; [|done]. injection Hs as <- <-.
    apply (run_cons _ false o (mkConfig m' t0 (take i os ++ t' :: drop (S i) os))); [|by apply clean_b_true|done]. rewrite <- (take_drop_middle _ _ _ Hi) at 1. constructor. by apply advance_tstep.
Qed.

Lemma schedule_run {A} (c : config A) is_ ts c2 : schedule c is_ = Some (ts, c2) -> run c ts c2.
Proof.
  revert c ts. induction is_ as [|i is_ IH]; intros c ts Hs; cbn in Hs; [injection Hs as <- <-; constructor|].
  destruct (sched_step c i) as [[t c1]|] eqn:E; [|done]. destruct (schedule c1 is_) as [[ts' c2']|] eqn:E'; [|done]. injection Hs as <- <-.
  eapply sched_step_run; [done|]. by apply IH.
Qed.

End Schedules.

(** ** Examples *)

(** A clock that counts milliseconds. *)
#[local] Instance millis : Chrono := {|
  DateTime := Z; Duration := Z; timestamp_millis := id; timestamp_millis_opt := Some; UNIX_EPOCH := 0;
  duration_since a b := if b <=? a then Some (a - b) else None; zero_duration := 0 |}.

Definition demo_registry : MetricsRegistry := mkRegistry 1.

(** Slot 0 is active for sandbox 7, generation 1. *)
Definition demo_mem : Mem :=
  fun l => match l with
  | Header hd_global_generation => 1
  | Slot 0 c_state => SLOT_ACTIVE
  | Slot 0 c_generation => 1
  | Slot 0 c_sandbox_id => 7
  | Slot 0 c_run_id => 70
  | Slot 0 c_sampled_at_unix_ms => 1000
  | Slot 0 c_memory_bytes => 512
  | _ => 0
  end.

(** A release by identity that read the slot's state, was overtaken by the
    owner's release and by a new reservation, and then reads the generation
    before the reservation publishes its own: the slot of the reservation that
    is returned ends up free, and will be given to the next one. *)
Definition overtaken_release : option (list tick * config (result MetricsError SlotReservation)) :=
  schedule (fun _ => true) false
    (start demo_mem (reserve demo_registry (mkReserve 8 (bytes_of "new") 1024))
      [let~ _ := release_by_identity demo_registry 7 None ReleaseFree in Ret ();
       let~ _ := release demo_registry 0 1 ReleaseFree in Ret ()])
    (replicate 2 1%nat ++ replicate 6 2%nat ++ replicate 3 0%nat ++ replicate 5 1%nat ++ replicate 153 0%nat ++ replicate 3 1%nat).

Example release_by_identity_frees_new_reservation :
  (fun '(_, c) => ((self c).2, mem c (Slot 0 c_state), gen_at (mem c) 0)) <$> overtaken_release
  = Some (Ret (Ok (mkReservation 0 3)), SLOT_FREE, 3).
Proof. vm_compute. reflexivity. Qed.

(** What [create_and_init] leaves in a zero-filled region is what [open] accepts. *)
Example create_then_open :
  (fun '(_, c) => (self c).2) <$> schedule (fun _ => true) false
    (start (fun _ => 0) (let~ _ := create_and_init DEFAULT_CAPACITY 5 in open) []) (replicate 29 0%nat)
  = Some (Ret (Ok (mkRegistry DEFAULT_CAPACITY))).
Proof. vm_compute. reflexivity. Qed.

Lemma demo_settled : settled demo_mem.
Proof. split; [intros [| |]; cbn; lia..|cbn; lia]. Qed.

(** A schedule with every process alive. *)
Definition ran {A} (c : config A) (is_ : list nat) : list tick * config A := default ([], c) (schedule (fun _ => true) false c is_).

Definition runs_through {A} (c : config A) (is_ : list nat) : bool :=
  match schedule (fun _ => true) false c is_ with Some _ => true | None => false end.

Lemma ran_run {A} (c : config A) is_ : runs_through c is_ = true -> run c (ran c is_).1 (ran c is_).2.
Proof.
  unfold runs_through, ran. destruct (schedule _ _ c is_) as [[ts c2]|] eqn:Hs; [|done]. intros _. by eapply schedule_run.
Qed.

Lemma others_only ts : forallb (fun t => negb (by_self t)) ts = true -> Forall (fun t => by_self t = false) ts.
Proof.
  intros Hts. apply Forall_forall. intros t Ht%list_elem_of_In. rewrite forallb_forall in Hts. by apply negb_true_iff, Hts.
Qed.

Definition demo_writer : MetricsSlotWriter := mkWriter demo_registry 0 1.
Definition demo_sample (ms memory : Z) : SampleWrite :=
  mkSample ms None None (Some memory) None None None 1 2 3 4 None None None.
Definition demo_write (ms memory : Z) : prog () := let~ _ := write_sample demo_writer (demo_sample ms memory) in Ret ().

Lemma demo_write_client ms memory : client (demo_write ms memory).
Proof. constructor; [constructor|]. intros r. constructor. Qed.

(** A reader whose first attempt is overtaken by a writer. *)
Definition demo_read : list tick * config (option (LiveMetric * Z * Z)) :=
  ran (start demo_mem (read_slot 0 true) [demo_write 2000 768]) (replicate 10 0%nat ++ replicate 20 1%nat ++ replicate 42 0%nat).

Definition demo_metric : LiveMetric :=
  mkMetric MetricActive 7 70 0 [] 2000 2000 0 0 768 true None None 0 false 1 2 3 4 None None None.


(** A writer that waits for another one to leave the slot. *)
Definition demo_wrote : list tick * config (result MetricsError ()) :=
  ran (start demo_mem (write_sample demo_writer (demo_sample 3000 1024)) [demo_write 2000 768])
    (replicate 8 1%nat ++ replicate 5 0%nat ++ replicate 12 1%nat ++ replicate 19 0%nat).


(** A writer whose slot is released before its call. *)
Definition demo_stale : list tick * config (result MetricsError ()) :=
  ran (start demo_mem (write_sample demo_writer (demo_sample 3000 1024)) [let~ _ := release demo_registry 0 1 ReleaseStale in Ret ()])
    (replicate 6 1%nat ++ [0%nat]).


Lemma metrics_sample_roundtrip_witness :
  exists m', alone demo_mem quiet (let~ r := write_sample demo_writer (demo_sample 2000 768) in let~ metric := read_slot 0 false in Ret (r, metric)) m' quiet
    (Ok (), Some (demo_metric, 1, 0)).
Proof.
  destruct (metrics_sample_roundtrip demo_mem demo_writer (demo_sample 2000 768) false) as [m' Hr].
  - vm_compute. reflexivity.
  - vm_compute. reflexivity.
  - vm_compute. reflexivity.
  - vm_compute. reflexivity.
  - vm_compute. reflexivity.
  - exists m'. exact Hr.
Defined.
