(* ===== verification/Sni.v ===== *)
(** * Server names in TLS handshakes

    [engine/tls/sni.rs], the parser of the ClientHello a guest sends, in the
    lenient form that policy peeks with and the strict form the TLS relay
    uses, and [peek_for_sni] of [engine/tcp/proxy.rs], which buffers the first
    flight for it. *)

From S2P Require Import Prelude Text DomainName.
From Stdlib Require Import Strings.Byte.

Implicit Types (d data hello : list byte) (first_name_only : bool).

(** ** Definitions *)

(** The server name is kept as its bytes. *)
Record ClientHello := mkHello { server_name : option (list byte) }.

(** [data.get(from..to)]. *)
Definition slice_get d (from to : nat) : option (list byte) :=
  if ((from <=? to) && (to <=? length d))%nat then Some (take (to - from) (drop from d)) else None.

Definition u16_be (l : list byte) : nat := Z.to_nat (be_value l).

(** [byte.is_ascii_control() || byte.is_ascii_whitespace()]. *)
Definition control_or_space (b : byte) : bool :=
  (Z_of_byte b <=? 31) || (Z_of_byte b =? 127) || (Z_of_byte b =? 32).

(** The [while] loop of [parse_sni_extension]; [fuel] bounds its rounds. *)
Fixpoint sni_names (fuel : nat) first_name_only (lst : list byte) (found : option (list byte))
    : option (list byte) :=
  match fuel, lst with
  | _, [] => found
  | O, _ => None
  | S fuel', _ =>
      let* header := slice_get lst 0 3 in
      let name_len := u16_be (drop 1 header) in
      let* name := slice_get lst 3 (3 + name_len) in
      let rest := drop (3 + name_len) lst in
      if bool_decide (take 1 header = [x00]) then
        if bool_decide (is_Some found) then None
        else if negb (utf8_valid name) then None
        else if existsb control_or_space name then None
        else if first_name_only then Some name
        else sni_names fuel' first_name_only rest (Some name)
      else if negb first_name_only then None
      else sni_names fuel' first_name_only rest found
  end.

Definition parse_sni_extension data first_name_only : option (list byte) :=
  let* len := slice_get data 0 2 in
  let list_len := u16_be len in
  if negb first_name_only && negb (list_len =? length data - 2)%nat then None else
  let* lst := slice_get data 2 (2 + list_len) in
  sni_names (length lst) first_name_only lst None.

(** The [while] loop of [parse_hello_body]. *)
Fixpoint hello_extensions (fuel : nat) first_name_only hello (pos last : nat) (found : option (list byte))
    : option ClientHello :=
  if ((pos + 4 <=? last) && (pos + 4 <=? length hello))%nat then
    match fuel with
    | O => None
    | S fuel' =>
        let* header := slice_get hello pos (pos + 4) in
        let kind := be_value (take 2 header) in
        let len := u16_be (drop 2 header) in
        let pos := (pos + 4)%nat in
        let* extension := slice_get hello pos (pos + len) in
        if kind =? 0 then
          if bool_decide (is_Some found) then None else
          let* name := parse_sni_extension extension first_name_only in
          if first_name_only then Some (mkHello (Some name))
          else hello_extensions fuel' first_name_only hello (pos + len) last (Some name)
        else hello_extensions fuel' first_name_only hello (pos + len) last found
    end
  else if negb first_name_only && negb (pos =? last)%nat then None
  else Some (mkHello found).

Definition parse_hello_body hello first_name_only : option ClientHello :=
  let pos := 34%nat in
  let* session := slice_get hello pos (pos + 1) in
  let pos := (pos + 1 + Z.to_nat (be_value session))%nat in
  let* cipher_len := slice_get hello pos (pos + 2) in
  let pos := (pos + 2 + u16_be cipher_len)%nat in
  let* compression := slice_get hello pos (pos + 1) in
  let pos := (pos + 1 + Z.to_nat (be_value compression))%nat in
  if (pos =? length hello)%nat then Some (mkHello None) else
  let* len := slice_get hello pos (pos + 2) in
  let pos := (pos + 2)%nat in
  let last := (pos + u16_be len)%nat in
  if negb first_name_only && negb (last =? length hello)%nat then None
  else hello_extensions (length hello) first_name_only hello pos last None.

(** The 24-bit length in the handshake header. *)
Definition handshake_len (handshake : list byte) : nat :=
  let byte_at i := Z_of_byte (nth i handshake x00) in
  Z.to_nat (Z.lor (Z.lor (Z.shiftl (byte_at 1%nat) 16) (Z.shiftl (byte_at 2%nat) 8)) (byte_at 3%nat)).

(** The [loop] over records of [parse_client_hello_inner]. *)
Fixpoint client_hello_records (fuel : nat) first_name_only data (handshake : list byte) : option ClientHello :=
  match fuel with
  | O => None
  | S fuel' =>
      let* header := slice_get data 0 5 in
      if negb (bool_decide (take 2 header = [x16; x03])) then None else
      let record_end := (5 + u16_be (drop 3 header))%nat in
      let* body := slice_get data 5 record_end in
      let handshake := handshake ++ body in
      let data := drop record_end data in
      if (length handshake <? 4)%nat then client_hello_records fuel' first_name_only data handshake
      else if negb (bool_decide (take 1 handshake = [x01])) then None
      else
        let len := handshake_len handshake in
        if (4 + len <=? length handshake)%nat
        then parse_hello_body (take len (drop 4 handshake)) first_name_only
        else client_hello_records fuel' first_name_only data handshake
  end.

Definition parse_client_hello_inner data first_name_only : option ClientHello :=
  client_hello_records (S (length data)) first_name_only data [].

Definition extract_sni data : option (list byte) :=
  let* h := parse_client_hello_inner data true in server_name h.

Definition parse_client_hello data : option ClientHello := parse_client_hello_inner data false.

(** What the peek loop waits for: bytes from the guest, the end of the
    channel, or the timer. *)
Inductive peek_event := Received (bytes : list byte) | ChannelClosed | TimedOut.

Fixpoint peek_loop (events : list peek_event) (max : nat) (buf : list byte) : option (list byte * option (list byte)) :=
  match events with
  | [] => None
  | TimedOut :: _ | ChannelClosed :: _ => Some (buf, None)
  | Received bytes :: events' =>
      let buf := buf ++ bytes in
      if negb (bool_decide (take 1 buf = [x16])) then Some (buf, None)
      else match extract_sni buf with
      | Some name => Some (buf, Some name)
      | None => if (max <=? length buf)%nat then Some (buf, None) else peek_loop events' max buf
      end
  end.

(** [s.trim_end_matches('.').to_ascii_lowercase()]. *)
Definition canonical_sni (name : list byte) : string :=
  to_ascii_lowercase (trim_end dot (String.string_of_list_byte name)).

(** [None] while no event has ended the wait. *)
Definition peek_for_sni (events : list peek_event) (max : nat) : option (list byte * option string) :=
  let* r := peek_loop events max [] in
  Some (r.1, canonical_sni <$> r.2).

(** ** Ranges *)

Lemma slice_get_Some d from to s :
  slice_get d from to = Some s <->
  (from <= to)%nat /\ (to <= length d)%nat /\ s = take (to - from) (drop from d).
Proof.
  unfold slice_get. destruct (Nat.leb_spec from to), (Nat.leb_spec to (length d)); simpl;
    split; try (by intros [=]); try (by intros [= <-]); try lia.
  by intros (_ & _ & ->).
Qed.

(** The range right after a prefix. *)
Lemma slice_get_at pre s rest : slice_get (pre ++ s ++ rest) (length pre) (length pre + length s) = Some s.
Proof.
  apply slice_get_Some. rewrite !length_app. split_and!; [lia | lia |].
  rewrite drop_app_length. replace (length pre + length s - length pre)%nat with (length s) by lia.
  by rewrite take_app_length.
Qed.

Lemma slice_get_split d from n s :
  slice_get d from (from + n) = Some s ->
  length s = n /\ drop from d = s ++ drop (from + n) d /\ (from + n <= length d)%nat.
Proof.
  intros (_ & Hle & ->)%slice_get_Some. rewrite length_take, length_drop. split_and!; [lia | | done].
  replace (from + n - from)%nat with n by lia. rewrite <- drop_drop. symmetry. apply take_drop.
Qed.

Lemma slice_get_more d from to s more : slice_get d from to = Some s -> slice_get (d ++ more) from to = Some s.
Proof.
  intros (Hft & Hle & ->)%slice_get_Some. apply slice_get_Some. rewrite length_app. split_and!; [lia | lia |].
  rewrite drop_app_le by lia. rewrite take_app_le; [done|]. rewrite length_drop. lia.
Qed.

(** ** More bytes do not change the answer *)

Lemma records_more fuel fno data hs r more :
  client_hello_records fuel fno data hs = Some r ->
  forall fuel', (fuel <= fuel')%nat -> client_hello_records fuel' fno (data ++ more) hs = Some r.
Proof.
  revert data hs. induction fuel as [|fuel IH]; intros data hs; [done|]. cbn [client_hello_records].
  destruct (slice_get data 0 5) as [header|] eqn:Hh; [|done].
  destruct (negb (bool_decide (take 2 header = [x16; x03]))) eqn:Hty; [done|].
  set (e := (5 + u16_be (drop 3 header))%nat). destruct (slice_get data 5 e) as [body|] eqn:Hb; [|done].
  intros Hr [|fuel'] Hf; [lia|]. cbn [client_hello_records]. rewrite (slice_get_more _ _ _ _ more Hh), Hty. fold e.
  rewrite (slice_get_more _ _ _ _ more Hb).
  apply slice_get_Some in Hb as (_ & He & _).
  assert (Hdrop : drop e (data ++ more) = drop e data ++ more) by (by rewrite drop_app_le).
  rewrite Hdrop. revert Hr. destruct (length (hs ++ body) <? 4)%nat; [intros Hr; apply IH; [done | lia]|].
  destruct (negb (bool_decide (take 1 (hs ++ body) = [x01]))); [done|].
  destruct (_ <=? length (hs ++ body))%nat; [done|]. intros Hr. apply IH; [done | lia].
Qed.

Lemma inner_more fno data r more :
  parse_client_hello_inner data fno = Some r -> parse_client_hello_inner (data ++ more) fno = Some r.
Proof.
  unfold parse_client_hello_inner. intros Hr. apply (records_more _ _ _ _ _ _ Hr). rewrite length_app. lia.
Qed.

(** ** The handshake header *)

Lemma handshake_len_value t b1 b2 b3 rest : handshake_len (t :: b1 :: b2 :: b3 :: rest) = Z.to_nat (be_value [b1; b2; b3]).
Proof.
  unfold handshake_len. simpl nth. pose proof (Z_of_byte_bound b1). pose proof (Z_of_byte_bound b2).
  pose proof (Z_of_byte_bound b3). f_equal.
  assert (Hin : Z.lor (Z.shiftl (Z_of_byte b1) 16) (Z.shiftl (Z_of_byte b2) 8)
                = Z.shiftl (Z_of_byte b1 * 256 + Z_of_byte b2) 8).
  { rewrite lor_shiftl; rewrite ?Z.shiftl_mul_pow2 by lia; lia. }
  rewrite Hin, lor_shiftl by lia. unfold be_value. simpl. lia.
Qed.

Definition handshake_of hello : list byte := [x01] ++ be_bytes 3 (zlen hello) ++ hello.

Lemma handshake_of_len hello extra :
  zlen hello < 2 ^ 24 ->
  handshake_len (handshake_of hello ++ extra) = length hello
  /\ take 1 (handshake_of hello ++ extra) = [x01]
  /\ take (length hello) (drop 4 (handshake_of hello ++ extra)) = hello.
Proof.
  intros Hl. unfold handshake_of. pose proof (length_be_bytes 3 (zlen hello)) as H3.
  pose proof (be_value_be_bytes 3 (zlen hello)) as Hv.
  destruct (be_bytes 3 (zlen hello)) as [|b1 [|b2 [|b3 [|]]]]; try done.
  simpl app. rewrite handshake_len_value, Hv, Z.mod_small by lia.
  split_and!; [lia | done |]. simpl. rewrite ?drop_0. apply take_app_length.
Qed.

Lemma handshake_shape hs :
  (4 <= length hs)%nat -> take 1 hs = [x01] -> (4 + handshake_len hs <= length hs)%nat ->
  let hello := take (handshake_len hs) (drop 4 hs) in
  exists extra, hs = handshake_of hello ++ extra /\ zlen hello < 2 ^ 24 /\ length hello = handshake_len hs.
Proof.
  intros H4 H1 Hlen hello. assert (Hl : length hello = handshake_len hs) by (unfold hello; len).
  destruct hs as [|t [|b1 [|b2 [|b3 rest]]]]; simpl in H4; try lia. simpl in H1. simplify_eq.
  rewrite handshake_len_value in *. pose proof (be_value_bound [b1; b2; b3]) as Hb. simpl length in Hb.
  exists (drop (handshake_len (x01 :: b1 :: b2 :: b3 :: rest)) rest). rewrite handshake_len_value.
  split_and!; [|lia|done]. unfold handshake_of, hello. simpl drop. rewrite drop_0, handshake_len_value.
  replace (zlen (take (Z.to_nat (be_value [b1; b2; b3])) rest)) with (be_value [b1; b2; b3]).
  2:{ rewrite length_take. simpl in Hlen. lia. }
  assert (Hbe : be_bytes 3 (be_value [b1; b2; b3]) = [b1; b2; b3]) by apply (be_bytes_be_value [b1; b2; b3]).
  rewrite Hbe. simpl. by rewrite take_drop.
Qed.

Lemma handshake_len_app hs more : (4 <= length hs)%nat -> handshake_len (hs ++ more) = handshake_len hs.
Proof. intros H4. destruct hs as [|t [|b1 [|b2 [|b3 rest]]]]; simpl in H4; try lia. done. Qed.

(** ** Records *)

Definition record_of (r : byte * list byte) : list byte := [x16; x03; r.1] ++ be_bytes 2 (zlen r.2) ++ r.2.
Definition records_of (rs : list (byte * list byte)) : list byte := concat (record_of <$> rs).
Definition bodies_of (rs : list (byte * list byte)) : list byte := concat (snd <$> rs).

(** [data] starts with records whose bodies carry [hello], the last of them
    being needed. *)
Definition framed_from (hs data hello : list byte) : Prop :=
  exists rs c rest extra,
    data = records_of (rs ++ [c]) ++ rest
    /\ Forall (fun r => zlen r.2 < 2 ^ 16) (rs ++ [c])
    /\ hs ++ bodies_of (rs ++ [c]) = handshake_of hello ++ extra
    /\ zlen hello < 2 ^ 24
    /\ (length (hs ++ bodies_of rs) < length (handshake_of hello))%nat.
Definition framed := framed_from [].

Lemma record_header data header :
  slice_get data 0 5 = Some header -> take 2 header = [x16; x03] ->
  let n := u16_be (drop 3 header) in
  exists m, header = [x16; x03; m] ++ be_bytes 2 (Z.of_nat n) /\ Z.of_nat n < 2 ^ 16 /\ data = header ++ drop 5 data.
Proof.
  intros Hh H2 n. apply (slice_get_split data 0 5) in Hh as (Hlen & Hd & _). rewrite drop_0 in Hd.
  destruct header as [|h0 [|h1 [|m [|l0 [|l1 [|]]]]]]; try done. simpl in H2. simplify_eq.
  exists m. pose proof (be_value_bound [l0; l1]) as Hb. simpl length in Hb.
  assert (Hn : Z.of_nat n = be_value [l0; l1]) by (unfold n, u16_be; simpl drop; lia).
  split_and!; [|lia|done]. rewrite Hn.
  assert (Hbe : be_bytes 2 (be_value [l0; l1]) = [l0; l1]) by apply (be_bytes_be_value [l0; l1]). by rewrite Hbe.
Qed.

Lemma record_read r rest :
  zlen r.2 < 2 ^ 16 ->
  slice_get (record_of r ++ rest) 0 5 = Some ([x16; x03; r.1] ++ be_bytes 2 (zlen r.2))
  /\ u16_be (drop 3 ([x16; x03; r.1] ++ be_bytes 2 (zlen r.2))) = length r.2
  /\ slice_get (record_of r ++ rest) 5 (5 + length r.2) = Some r.2
  /\ drop (5 + length r.2) (record_of r ++ rest) = rest.
Proof.
  intros Hl. set (header := [x16; x03; r.1] ++ be_bytes 2 (zlen r.2)).
  assert (Hrec : record_of r ++ rest = header ++ r.2 ++ rest).
  { unfold record_of, header. by rewrite <- !app_assoc. }
  assert (Hlen : length header = 5%nat) by (unfold header; len). rewrite Hrec.
  pose proof (slice_get_at [] header (r.2 ++ rest)) as H1. pose proof (slice_get_at header r.2 rest) as H2.
  rewrite Hlen in *. simpl app in H1. split_and!; [done | | done |].
  - unfold header, u16_be. change (drop 3 _) with (be_bytes 2 (zlen r.2)). rewrite be_value_be_bytes, Z.mod_small by lia. lia.
  - rewrite app_assoc. rewrite drop_app_length'; [done|]. rewrite length_app. lia.
Qed.

(** No complete handshake message yet. *)
Definition incomplete (hs : list byte) : Prop :=
  (length hs < 4)%nat \/ (length hs < 4 + handshake_len hs)%nat.

Lemma records_cons r rs : records_of (r :: rs) = record_of r ++ records_of rs.
Proof. done. Qed.
Lemma bodies_cons r rs : bodies_of (r :: rs) = r.2 ++ bodies_of rs.
Proof. done. Qed.

Lemma framed_one hs m body rest hello extra :
  zlen body < 2 ^ 16 -> hs ++ body = handshake_of hello ++ extra -> zlen hello < 2 ^ 24 -> incomplete hs ->
  framed_from hs (record_of (m, body) ++ rest) hello.
Proof.
  intros Hb Heq Hl Hinc. exists [], (m, body), rest, extra. unfold records_of, bodies_of. cbn [fmap list_fmap concat app snd].
  rewrite !app_nil_r. split_and!; [done | by constructor | done | done |].
  assert (Hlen : length (handshake_of hello) = (4 + length hello)%nat) by (unfold handshake_of; len).
  rewrite Hlen. destruct Hinc as [|Hinc]; [lia|]. destruct (decide (length hs < 4)%nat); [lia|].
  rewrite <- (handshake_len_app hs body), Heq in Hinc by lia.
  destruct (handshake_of_len hello extra Hl) as [H1 _]. rewrite H1 in Hinc. lia.
Qed.

Lemma framed_cons hs m body rest hello :
  zlen body < 2 ^ 16 -> framed_from (hs ++ body) rest hello -> framed_from hs (record_of (m, body) ++ rest) hello.
Proof.
  intros Hb (rs & c & rest' & extra & -> & Hall & Heq & Hl & Hlt). exists ((m, body) :: rs), c, rest', extra.
  change (((m, body) :: rs) ++ [c]) with ((m, body) :: (rs ++ [c])). rewrite records_cons, !bodies_cons, !app_assoc. rewrite <- (app_assoc hs body), app_assoc in Heq.
  split_and!; try done. by constructor.
Qed.

Lemma records_sound fuel fno data hs r :
  incomplete hs -> client_hello_records fuel fno data hs = Some r ->
  exists hello, framed_from hs data hello /\ parse_hello_body hello fno = Some r.
Proof.
  revert data hs. induction fuel as [|fuel IH]; intros data hs Hinc; [done|]. cbn [client_hello_records].
  destruct (slice_get data 0 5) as [header|] eqn:Hh; [|done].
  destruct (bool_decide (take 2 header = [x16; x03])) eqn:Hty; [|done]. apply bool_decide_eq_true in Hty. cbn [negb].
  destruct (record_header data header Hh Hty) as (m & Hhd & Hn & Hdata). set (n := u16_be (drop 3 header)) in *.
  destruct (slice_get data 5 (5 + n)) as [body|] eqn:Hb; [|done].
  apply slice_get_split in Hb as (Hbl & Hbd & _).
  assert (Hrec : data = record_of (m, body) ++ drop (5 + n) data).
  { rewrite Hdata at 1. rewrite Hbd, Hhd. unfold record_of. cbn [fst snd]. rewrite Hbl. by rewrite <- !app_assoc. }
  assert (Hbl' : zlen body < 2 ^ 16) by lia.
  set (hs' := hs ++ body). intros Hr.
  assert (Hnext : incomplete hs' -> client_hello_records fuel fno (drop (5 + n) data) hs' = Some r ->
            exists hello, framed_from hs data hello /\ parse_hello_body hello fno = Some r).
  { intros Hinc' Hr'. destruct (IH _ _ Hinc' Hr') as (hello & Hf & Hp). exists hello. split; [|done].
    rewrite Hrec. by apply framed_cons. }
  destruct (Nat.ltb_spec (length hs') 4); [apply Hnext; [by left | done]|].
  destruct (bool_decide (take 1 hs' = [x01])) eqn:H1; [|done]. apply bool_decide_eq_true in H1. cbn [negb] in Hr.
  destruct (Nat.leb_spec (4 + handshake_len hs') (length hs')); [|apply Hnext; [by right | done]].
  destruct (handshake_shape hs') as (extra & Heq & Hl & _); [done..|].
  eexists. split; [|done]. rewrite Hrec. by eapply framed_one.
Qed.

Lemma records_complete fno hello r data hs fuel :
  framed_from hs data hello -> parse_hello_body hello fno = Some r -> (length data < fuel)%nat ->
  client_hello_records fuel fno data hs = Some r.
Proof.
  intros (rs & c & rest & extra & -> & Hall & Heq & Hl & Hlt) Hp.
  assert (Hlen : length (handshake_of hello) = (4 + length hello)%nat) by (unfold handshake_of; len).
  revert hs fuel Heq Hlt. induction rs as [|[m body] rs IH]; intros hs fuel Heq Hlt Hf.
  - change ([] ++ [c]) with [c] in *. destruct c as [m body]. apply Forall_cons in Hall as [Hb _]. simpl in Hb.
    rewrite records_cons, <- app_assoc in *. rewrite bodies_cons in Heq.
    change (bodies_of []) with (@nil byte) in Heq. rewrite app_nil_r in Heq. cbn [snd] in Heq.
    set (tail := records_of [] ++ rest) in *.
    destruct (record_read (m, body) tail Hb) as (H5 & Hn & Hbody & _). simpl fst in *. simpl snd in *.
    destruct fuel as [|fuel]; [lia|]. cbn [client_hello_records]. rewrite H5.
    rewrite (bool_decide_eq_true_2 (take 2 _ = _)) by done. cbn [negb]. rewrite Hn, Hbody, Heq.
    destruct (handshake_of_len hello extra Hl) as (H1 & H2 & H3). rewrite H1, H2, H3, length_app, Hlen.
    destruct (Nat.ltb_spec (4 + length hello + length extra) 4); [lia|]. rewrite bool_decide_eq_true_2 by done. cbn [negb].
    destruct (Nat.leb_spec (4 + length hello) (4 + length hello + length extra)); [done | lia].
  - change (((m, body) :: rs) ++ [c]) with ((m, body) :: (rs ++ [c])) in *. apply Forall_cons in Hall as [Hb Hall]. simpl in Hb.
    rewrite records_cons, <- app_assoc in Hf |- *. rewrite bodies_cons in Heq, Hlt. simpl snd in *.
    set (tail := records_of (rs ++ [c]) ++ rest) in *.
    destruct (record_read (m, body) tail Hb) as (H5 & Hn & Hbody & Htail). simpl fst in *. simpl snd in *.
    destruct fuel as [|fuel]; [lia|]. cbn [client_hello_records]. rewrite H5.
    rewrite (bool_decide_eq_true_2 (take 2 _ = _)) by done. cbn [negb]. rewrite Hn, Hbody, Htail.
    rewrite app_assoc in Heq, Hlt.
    assert (Hrec : client_hello_records fuel fno tail (hs ++ body) = Some r).
    { apply IH; [done..|]. revert Hf. unfold record_of. rewrite !length_app. simpl. lia. }
    destruct (Nat.ltb_spec (length (hs ++ body)) 4); [done|].
    assert (Hpre : exists more, handshake_of hello ++ extra = (hs ++ body) ++ more) by (rewrite <- Heq; eauto).
    destruct Hpre as [more Hpre]. destruct (handshake_of_len hello extra Hl) as (H1 & H2 & _).
    rewrite Hpre in H1, H2. rewrite handshake_len_app in H1 by lia. rewrite take_app_le in H2 by lia.
    rewrite bool_decide_eq_true_2 by done. cbn [negb]. rewrite H1.
    rewrite length_app in Hlt. destruct (Nat.leb_spec (4 + length hello) (length (hs ++ body))); [|done]. lia.
Qed.

Lemma inner_framed fno data r :
  parse_client_hello_inner data fno = Some r <->
  exists hello, framed data hello /\ parse_hello_body hello fno = Some r.
Proof.
  unfold parse_client_hello_inner. split.
  - apply records_sound. left. simpl. lia.
  - intros (hello & Hf & Hp). by apply (records_complete fno hello r); [..|lia].
Qed.

(** ** Length-prefixed fields *)

Lemma slice_get_drop d pos s rest :
  (pos <= length d)%nat -> drop pos d = s ++ rest -> slice_get d pos (pos + length s) = Some s.
Proof.
  intros Hp Hd. pose proof (f_equal length Hd) as Hl. rewrite length_drop, length_app in Hl.
  apply slice_get_Some. split_and!; [lia | lia |]. replace (pos + length s - pos)%nat with (length s) by lia.
  by rewrite Hd, take_app_length.
Qed.

Lemma drop_step d pos s rest : drop pos d = s ++ rest -> drop (pos + length s) d = rest.
Proof. intros Hd. rewrite <- drop_drop, Hd. apply drop_app_length. Qed.

Lemma u16_be_bytes n : 0 <= n < 2 ^ 16 -> u16_be (be_bytes 2 n) = Z.to_nat n.
Proof. intros Hn. unfold u16_be. rewrite be_value_be_bytes, Z.mod_small; [done | lia]. Qed.

Lemma u16_be_inv l : length l = 2%nat -> be_bytes 2 (Z.of_nat (u16_be l)) = l /\ Z.of_nat (u16_be l) < 2 ^ 16.
Proof.
  intros Hl. pose proof (be_value_bound l) as Hb. rewrite Hl in Hb. unfold u16_be. rewrite Z2Nat.id by lia.
  split; [|lia]. rewrite <- Hl. apply be_bytes_be_value.
Qed.

(** A field with a 16-bit length in front of it. *)
Definition vec16 (s : list byte) : list byte := be_bytes 2 (zlen s) ++ s.

Lemma vec16_sound d pos l s :
  slice_get d pos (pos + 2) = Some l -> slice_get d (pos + 2) (pos + 2 + u16_be l) = Some s ->
  drop pos d = vec16 s ++ drop (pos + 2 + u16_be l) d /\ zlen s < 2 ^ 16 /\ length s = u16_be l.
Proof.
  intros (Hl & Hd1 & _)%slice_get_split (Hs & Hd2 & _)%slice_get_split.
  destruct (u16_be_inv l Hl) as [Hbe Hb]. split_and!; [|lia|done].
  unfold vec16. by rewrite Hd1, Hd2, Hs, Hbe, <- app_assoc.
Qed.

Lemma vec16_complete d pos s rest :
  (pos <= length d)%nat -> drop pos d = vec16 s ++ rest -> zlen s < 2 ^ 16 ->
  slice_get d pos (pos + 2) = Some (be_bytes 2 (zlen s)) /\ u16_be (be_bytes 2 (zlen s)) = length s
  /\ slice_get d (pos + 2) (pos + 2 + length s) = Some s /\ drop (pos + 2 + length s) d = rest
  /\ (pos + 2 + length s <= length d)%nat.
Proof.
  intros Hp Hd Hs. unfold vec16 in Hd. rewrite <- app_assoc in Hd.
  pose proof (slice_get_drop _ _ _ _ Hp Hd) as H1. pose proof (drop_step _ _ _ _ Hd) as H2.
  rewrite length_be_bytes in H1, H2. pose proof (f_equal length Hd) as Hl.
  rewrite length_drop, !length_app, length_be_bytes in Hl.
  pose proof (slice_get_drop d (pos + 2) s rest ltac:(lia) H2) as H3. pose proof (drop_step _ _ _ _ H2) as H4.
  split_and!; try done; [|lia]. rewrite u16_be_bytes by lia. lia.
Qed.

(** ** The name list *)

Definition ok_name (n : list byte) : Prop := utf8_valid n = true /\ existsb control_or_space n = false.
Definition sni_entry (n : list byte) : list byte := x00 :: vec16 n.
Definition sni_data (n : list byte) : list byte := vec16 (sni_entry n).

Lemma names_found fuel lst x y : sni_names fuel false lst (Some x) = Some y <-> lst = [] /\ x = y.
Proof.
  destruct lst as [|b lst].
  - destruct fuel; simpl; split; [by intros [= ->] | by intros [_ ->] | by intros [= ->] | by intros [_ ->]].
  - split; [|by intros []]. destruct fuel as [|fuel]; [done|]. cbn [sni_names].
    destruct (slice_get (b :: lst) 0 3) as [header|]; [|done].
    destruct (slice_get (b :: lst) 3 _); [|done].
    destruct (bool_decide (take 1 header = [x00])); [|done]. by rewrite bool_decide_eq_true_2 by eauto.
Qed.

Lemma header_three (header : list byte) :
  length header = 3%nat -> exists t, header = t :: drop 1 header /\ length (drop 1 header) = 2%nat /\ take 1 header = [t].
Proof. destruct header as [|t [|a [|b [|]]]]; try done. intros _. by exists t. Qed.

Lemma names_strict fuel lst n :
  (length lst <= fuel)%nat ->
  sni_names fuel false lst None = Some n <-> lst = sni_entry n /\ ok_name n /\ zlen n < 2 ^ 16.
Proof.
  intros Hf. destruct lst as [|b lst]; [destruct fuel; simpl; split; [done | by intros [] | done | by intros []]|].
  destruct fuel as [|fuel]; [simpl in Hf; lia|]. cbn [sni_names]. set (l := b :: lst). split.
  - destruct (slice_get l 0 3) as [header|] eqn:Hh; [|done].
    destruct (slice_get l 3 _) as [name|] eqn:Hn; [|done].
    apply (slice_get_split l 0 3) in Hh as (H3 & Hd & _). apply slice_get_split in Hn as (Hnl & Hdn & _).
    rewrite drop_0 in Hd. change (0 + 3)%nat with 3%nat in Hd. destruct (header_three header H3) as (t & Hht & H2 & Ht).
    destruct (u16_be_inv _ H2) as [Hbe Hb]. destruct (bool_decide (take 1 header = [x00])) eqn:H0; [|done].
    apply bool_decide_eq_true in H0. rewrite Ht in H0. simplify_eq.
    destruct (negb (utf8_valid name)) eqn:Hu; [done|]. destruct (existsb control_or_space name) eqn:Hc; [done|].
    intros [Hrest <-]%names_found. apply negb_false_iff in Hu. split_and!; [|done|lia].
    rewrite Hd, Hdn, Hrest, app_nil_r, Hht. unfold sni_entry, vec16. by rewrite Hnl, Hbe.
  - intros (Hl & [Hu Hc] & Hn). rewrite Hl.
    assert (H3 : slice_get (sni_entry n) 0 3 = Some (x00 :: be_bytes 2 (zlen n)))
      by exact (slice_get_at [] (x00 :: be_bytes 2 (zlen n)) n).
    assert (Hget : slice_get (sni_entry n) 3 (3 + length n) = Some n).
    { pose proof (slice_get_at (x00 :: be_bytes 2 (zlen n)) n []) as Hg. rewrite app_nil_r in Hg. exact Hg. }
    rewrite H3. change (drop 1 (x00 :: be_bytes 2 (zlen n))) with (be_bytes 2 (zlen n)).
    rewrite u16_be_bytes, Nat2Z.id, Hget by lia.
    rewrite bool_decide_eq_true_2 by done. rewrite bool_decide_eq_false_2 by (by intros []). rewrite Hu, Hc. cbn [negb].
    apply names_found. split; [|done]. apply drop_ge. unfold sni_entry, vec16. len.
Qed.

Lemma extension_strict d n :
  parse_sni_extension d false = Some n <-> d = sni_data n /\ ok_name n /\ zlen (sni_entry n) < 2 ^ 16.
Proof.
  unfold parse_sni_extension. cbn [negb andb]. split.
  - destruct (slice_get d 0 2) as [l|] eqn:Hl; [|done].
    destruct (Nat.eqb_spec (u16_be l) (length d - 2)) as [Hlen|]; [|done]. cbn [negb].
    destruct (slice_get d 2 (2 + u16_be l)) as [lst|] eqn:Hlst; [|done].
    destruct (vec16_sound d 0 l lst Hl Hlst) as (Hd & Hb & Hll). rewrite drop_0 in Hd.
    intros (-> & Hok & _)%names_strict; [|done]. split_and!; [|done|done].
    rewrite Hd. unfold sni_data. rewrite drop_ge, app_nil_r by lia. done.
  - intros (-> & Hok & Hb).
    destruct (vec16_complete (sni_data n) 0 (sni_entry n) []) as (H1 & H2 & H3 & _); [lia | | done |].
    { by rewrite drop_0, app_nil_r. }
    change (0 + 2)%nat with 2%nat in H1, H3. rewrite H1, H2. assert (Hlen : (length (sni_entry n) =? length (sni_data n) - 2)%nat = true).
    { apply Nat.eqb_eq. unfold sni_data, vec16. len. }
    rewrite Hlen. cbn [negb]. rewrite H3.
    apply names_strict; [done|]. split_and!; [done | done |]. unfold sni_entry, vec16 in Hb. revert Hb. len.
Qed.

(** ** The extensions *)

Definition ext_of (e : Z * list byte) : list byte := be_bytes 2 e.1 ++ vec16 e.2.
Definition exts_of (es : list (Z * list byte)) : list byte := concat (ext_of <$> es).
Definition ext_ok (e : Z * list byte) : Prop := 0 <= e.1 < 2 ^ 16 /\ zlen e.2 < 2 ^ 16.

(** The name the extensions carry, after [found]: at most one extension of
    kind zero, and it holds one name. *)
Fixpoint sni_in (found : option (list byte)) (es : list (Z * list byte)) (sn : option (list byte)) : Prop :=
  match es with
  | [] => found = sn
  | (k, d) :: es' =>
      if k =? 0 then found = None /\ exists n, d = sni_data n /\ ok_name n /\ zlen (sni_entry n) < 2 ^ 16 /\ sni_in (Some n) es' sn
      else sni_in found es' sn
  end.

Lemma ext_header hello pos header :
  slice_get hello pos (pos + 4) = Some header ->
  slice_get hello (pos + 2) (pos + 2 + 2) = Some (drop 2 header)
  /\ drop pos hello = be_bytes 2 (be_value (take 2 header)) ++ drop (pos + 2) hello
  /\ 0 <= be_value (take 2 header) < 2 ^ 16.
Proof.
  intros Hg. pose proof Hg as (Hl & Hd & Hle)%slice_get_split.
  assert (Hd2 : drop pos hello = take 2 header ++ drop 2 header ++ drop (pos + 4) hello).
  { by rewrite app_assoc, take_drop. }
  assert (H2 : length (take 2 header) = 2%nat) by (rewrite length_take; lia).
  pose proof (drop_step _ _ _ _ Hd2) as Hd3. rewrite H2 in Hd3.
  pose proof (slice_get_drop hello (pos + 2) (drop 2 header) _ ltac:(lia) Hd3) as Hr.
  rewrite length_drop, Hl in Hr. split; [done|].
  pose proof (be_value_bound (take 2 header)) as Hb. rewrite H2 in Hb. split; [|done].
  assert (Hbe : be_bytes 2 (be_value (take 2 header)) = take 2 header).
  { rewrite <- H2 at 1. apply be_bytes_be_value. }
  by rewrite Hbe, Hd3.
Qed.

Lemma ext_read hello pos e rest :
  (pos <= length hello)%nat -> drop pos hello = ext_of e ++ rest -> ext_ok e ->
  exists header, slice_get hello pos (pos + 4) = Some header /\ be_value (take 2 header) = e.1
    /\ u16_be (drop 2 header) = length e.2
    /\ slice_get hello (pos + 4) (pos + 4 + length e.2) = Some e.2
    /\ drop (pos + 4 + length e.2) hello = rest /\ (pos + 4 + length e.2 <= length hello)%nat.
Proof.
  intros Hp Hd [Hk Hlen]. destruct e as [k x]. cbn [fst snd] in *. exists (be_bytes 2 k ++ be_bytes 2 (zlen x)).
  unfold ext_of in Hd. cbn [fst snd] in Hd. rewrite <- app_assoc in Hd.
  assert (Hd4 : drop pos hello = (be_bytes 2 k ++ be_bytes 2 (zlen x)) ++ x ++ rest).
  { rewrite Hd. unfold vec16. by rewrite <- !app_assoc. }
  pose proof (slice_get_drop _ _ _ _ Hp Hd4) as Hg. rewrite length_app, !length_be_bytes in Hg.
  pose proof (f_equal length Hd) as Hlh. rewrite length_drop, !length_app, !length_be_bytes in Hlh.
  pose proof (drop_step _ _ _ _ Hd) as Hd2. rewrite length_be_bytes in Hd2.
  destruct (vec16_complete hello (pos + 2) x rest ltac:(lia) Hd2 Hlen) as (_ & Hu & Hx & Hr & Hle).
  replace (pos + 2 + 2)%nat with (pos + 4)%nat in * by lia.
  split_and!; try done.
  rewrite take_app_length' by (by rewrite length_be_bytes). rewrite be_value_be_bytes. apply Z.mod_small. lia.
Qed.

Lemma exts_cons e es : exts_of (e :: es) = ext_of e ++ exts_of es.
Proof. done. Qed.
Lemma ext_of_length e : length (ext_of e) = (4 + length e.2)%nat.
Proof. unfold ext_of, vec16. len. Qed.

(** One round of the strict loop takes one extension. *)
Lemma exts_round fuel hello pos found sn :
  (pos + 4 <= length hello)%nat ->
  hello_extensions (S fuel) false hello pos (length hello) found = Some (mkHello sn) <->
  exists e rest, drop pos hello = ext_of e ++ rest /\ ext_ok e
    /\ if e.1 =? 0 then found = None /\ exists n, parse_sni_extension e.2 false = Some n
          /\ hello_extensions fuel false hello (pos + 4 + length e.2) (length hello) (Some n) = Some (mkHello sn)
       else hello_extensions fuel false hello (pos + 4 + length e.2) (length hello) found = Some (mkHello sn).
Proof.
  intros Hp. cbn [hello_extensions]. rewrite (proj2 (Nat.leb_le _ _) Hp). cbn [andb]. split.
  - destruct (slice_get hello pos (pos + 4)) as [header|] eqn:Hh; [|done].
    destruct (slice_get hello (pos + 4) _) as [x|] eqn:Hx; [|done].
    destruct (ext_header _ _ _ Hh) as (H2 & Hd & Hk). replace (pos + 4)%nat with (pos + 2 + 2)%nat in * by lia.
    destruct (vec16_sound _ _ _ _ H2 Hx) as (Hd2 & Hxl & Hxn). intros Hr.
    exists (be_value (take 2 header), x), (drop (pos + 2 + 2 + u16_be (drop 2 header)) hello).
    unfold ext_of. cbn [fst snd]. split_and!; [by rewrite Hd, Hd2, <- app_assoc | done |]. rewrite Hxn.
    destruct (be_value (take 2 header) =? 0); [|done]. destruct found; [done|]. split; [done|].
    rewrite bool_decide_eq_false_2 in Hr by (by intros []).
    destruct (parse_sni_extension x false) as [n|]; [by exists n | done].
  - intros (e & rest & Hd & Hok & Hr). destruct (ext_read hello pos e rest ltac:(lia) Hd Hok) as (header & -> & -> & -> & -> & _ & _).
    destruct (e.1 =? 0); [|done]. destruct Hr as (-> & n & -> & Hr).
    by rewrite bool_decide_eq_false_2 by (by intros []).
Qed.

Lemma exts_end fuel hello pos found sn :
  (pos <= length hello)%nat -> (length hello < pos + 4)%nat ->
  hello_extensions fuel false hello pos (length hello) found = Some (mkHello sn) <->
  exists es, drop pos hello = exts_of es /\ Forall ext_ok es /\ sni_in found es sn.
Proof.
  intros Hp H4. assert (Heq : hello_extensions fuel false hello pos (length hello) found
    = if negb (pos =? length hello)%nat then None else Some (mkHello found)).
  { destruct fuel; cbn [hello_extensions]; by rewrite (proj2 (Nat.leb_gt _ _) H4). }
  rewrite Heq. destruct (Nat.eqb_spec pos (length hello)) as [->|Hne]; cbn [negb]; split.
  - intros [= ->]. exists []. by rewrite drop_all.
  - rewrite drop_all. intros ([|e es] & Hd & _ & Hin); [by simpl in Hin; subst|].
    apply (f_equal length) in Hd. rewrite exts_cons, length_app, ext_of_length in Hd. simpl in Hd. lia.
  - done.
  - intros (es & Hd & _). apply (f_equal length) in Hd. rewrite length_drop in Hd.
    destruct es as [|e es]; [simpl in Hd; lia|]. rewrite exts_cons, length_app, ext_of_length in Hd. lia.
Qed.

Lemma exts_strict fuel hello pos found sn :
  (pos <= length hello)%nat -> (length hello - pos <= fuel)%nat ->
  hello_extensions fuel false hello pos (length hello) found = Some (mkHello sn) <->
  exists es, drop pos hello = exts_of es /\ Forall ext_ok es /\ sni_in found es sn.
Proof.
  revert pos found. induction fuel as [|fuel IH]; intros pos found Hp Hf.
  all: destruct (Nat.le_gt_cases (pos + 4) (length hello)) as [H4|H4]; [|by apply exts_end].
  { lia. }
  rewrite exts_round by done. split.
  - intros (e & rest & Hd & Hok & Hr). destruct (ext_read _ _ _ _ Hp Hd Hok) as (_ & _ & _ & _ & _ & Hdr & Hle).
    destruct e as [k x]. cbn [fst snd] in *.
    assert (Hes : forall f, hello_extensions fuel false hello (pos + 4 + length x) (length hello) f = Some (mkHello sn) ->
              exists es, drop pos hello = exts_of ((k, x) :: es) /\ Forall ext_ok ((k, x) :: es) /\ sni_in f es sn).
    { intros f (es & He & Hall & Hin)%IH; [|lia..]. exists es. rewrite exts_cons, Hd, <- He, Hdr. by split_and!; [|constructor|]. }
    destruct (k =? 0) eqn:Hk.
    + destruct Hr as (-> & n & (-> & Hn & Hl)%extension_strict & (es & He & Hall & Hin)%Hes).
      exists ((k, sni_data n) :: es). split_and!; [done..|]. cbn [sni_in]. rewrite Hk. eauto 10.
    + destruct (Hes _ Hr) as (es & He & Hall & Hin). exists ((k, x) :: es). split_and!; [done..|]. cbn [sni_in]. by rewrite Hk.
  - intros ([|[k x] es] & Hd & Hall & Hin); [apply (f_equal length) in Hd; rewrite length_drop in Hd; simpl in Hd; lia|].
    apply Forall_cons in Hall as [Hok Hall]. rewrite exts_cons in Hd.
    destruct (ext_read _ _ _ _ Hp Hd Hok) as (_ & _ & _ & _ & _ & Hdr & Hle). exists (k, x), (exts_of es).
    split_and!; [done..|]. cbn [sni_in fst snd] in *. destruct (k =? 0).
    + destruct Hin as (-> & n & -> & Hn & Hl & Hin). split; [done|]. exists n. split; [by apply extension_strict|].
      apply IH; [lia..|]. eauto.
    + apply IH; [lia..|]. eauto.
Qed.

(** ** The body *)

(** A field behind its length in [w] bytes. *)
Definition vec (w : nat) (s : list byte) : list byte := be_bytes w (zlen s) ++ s.

Lemma vec_skip w d pos l :
  slice_get d pos (pos + w) = Some l -> (pos + w + Z.to_nat (be_value l) <= length d)%nat ->
  exists s, drop pos d = vec w s ++ drop (pos + length (vec w s)) d /\ zlen s < 256 ^ Z.of_nat w
    /\ length s = Z.to_nat (be_value l).
Proof.
  intros (Hl & Hd & _)%slice_get_split Hle. set (n := Z.to_nat (be_value l)) in *.
  pose proof (be_value_bound l) as Hb. rewrite Hl in Hb.
  exists (take n (drop (pos + w) d)). assert (Hs : length (take n (drop (pos + w) d)) = n) by len.
  assert (Hz : zlen (take n (drop (pos + w) d)) = be_value l) by lia.
  assert (Hbe : be_bytes w (be_value l) = l) by (rewrite <- Hl; apply be_bytes_be_value).
  unfold vec. rewrite Hz, Hbe, length_app, Hs, Hl. split_and!; [|lia|done].
  rewrite <- app_assoc, Nat.add_assoc, <- (drop_drop d n (pos + w)), take_drop. done.
Qed.

Lemma vec_at w d pos s rest :
  (pos <= length d)%nat -> drop pos d = vec w s ++ rest -> zlen s < 256 ^ Z.of_nat w ->
  slice_get d pos (pos + w) = Some (be_bytes w (zlen s)) /\ Z.to_nat (be_value (be_bytes w (zlen s))) = length s
  /\ drop (pos + w + length s) d = rest /\ (pos + w + length s <= length d)%nat.
Proof.
  intros Hp Hd Hs. pose proof (f_equal length Hd) as Hl. pose proof (drop_step _ _ _ _ Hd) as Hr.
  unfold vec in *. rewrite length_drop, !length_app, length_be_bytes in Hl. rewrite length_app, length_be_bytes in Hr.
  rewrite <- app_assoc in Hd. pose proof (slice_get_drop _ _ _ _ Hp Hd) as Hg. rewrite length_be_bytes in Hg.
  rewrite Nat.add_assoc in Hr. split_and!; [done | | done | lia].
  rewrite be_value_be_bytes, Z.mod_small by lia. lia.
Qed.

(** Version, random, session, cipher suites and compression methods. *)
Definition hello_pre (pre : list byte) : Prop :=
  exists head session ciphers compression,
    length head = 34%nat /\ zlen session < 256 /\ zlen ciphers < 2 ^ 16 /\ zlen compression < 256
    /\ pre = head ++ vec 1 session ++ vec 2 ciphers ++ vec 1 compression.

(** What follows them, in either form of the parser. *)
Definition hello_tail hello (pos : nat) first_name_only : option ClientHello :=
  if (pos =? length hello)%nat then Some (mkHello None) else
  let* len := slice_get hello pos (pos + 2) in
  let last := (pos + 2 + u16_be len)%nat in
  if negb first_name_only && negb (last =? length hello)%nat then None
  else hello_extensions (length hello) first_name_only hello (pos + 2) last None.

Lemma body_tail hello fno :
  parse_hello_body hello fno =
  (let* session := slice_get hello 34 35 in
   let p1 := (35 + Z.to_nat (be_value session))%nat in
   let* cipher_len := slice_get hello p1 (p1 + 2) in
   let p2 := (p1 + 2 + Z.to_nat (be_value cipher_len))%nat in
   let* compression := slice_get hello p2 (p2 + 1) in
   hello_tail hello (p2 + 1 + Z.to_nat (be_value compression)) fno).
Proof. done. Qed.

Lemma hello_tail_in hello pos fno r : hello_tail hello pos fno = Some r -> (pos <= length hello)%nat.
Proof.
  unfold hello_tail. destruct (Nat.eqb_spec pos (length hello)); [lia|].
  destruct (slice_get hello pos (pos + 2)) as [l|] eqn:Hl; [|done]. apply slice_get_split in Hl as (_ & _ & Hl). lia.
Qed.

Lemma body_iff hello fno r :
  parse_hello_body hello fno = Some r <->
  exists pre tail, hello_pre pre /\ hello = pre ++ tail /\ hello_tail hello (length pre) fno = Some r.
Proof.
  rewrite body_tail. split.
  - destruct (slice_get hello 34 35) as [sl|] eqn:Hsl; [|done].
    set (p1 := (35 + Z.to_nat (be_value sl))%nat). cbv zeta.
    destruct (slice_get hello p1 (p1 + 2)) as [cl|] eqn:Hcl; [|done].
    set (p2 := (p1 + 2 + Z.to_nat (be_value cl))%nat).
    destruct (slice_get hello p2 (p2 + 1)) as [ml|] eqn:Hml; [|done]. intros Ht.
    pose proof (hello_tail_in _ _ _ _ Ht) as Hp3.
    pose proof Hcl as (_ & _ & Hc)%slice_get_split. pose proof Hml as (_ & _ & Hm)%slice_get_split.
    destruct (vec_skip 1 hello 34 sl Hsl) as (s & Hds & Hs & Hsn); [lia|].
    destruct (vec_skip 2 hello p1 cl Hcl) as (c & Hdc & Hcb & Hcn); [lia|].
    destruct (vec_skip 1 hello p2 ml Hml) as (m & Hdm & Hmb & Hmn); [lia|].
    assert (Hl34 : length (take 34 hello) = 34%nat) by (rewrite length_take; lia).
    assert (Hvec : forall w x, length (vec w x) = (w + length x)%nat) by (intros; unfold vec; len).
    rewrite Hvec in Hds, Hdc, Hdm.
    exists (take 34 hello ++ vec 1 s ++ vec 2 c ++ vec 1 m), (drop (p2 + (1 + length m)) hello). split_and!.
    + exists (take 34 hello), s, c, m. split_and!; done.
    + rewrite <- (take_drop 34 hello) at 1. rewrite <- !app_assoc. f_equal. rewrite Hds. f_equal.
      replace (34 + (1 + length s))%nat with p1 by lia. rewrite Hdc. f_equal.
      replace (p1 + (2 + length c))%nat with p2 by lia. by rewrite Hdm at 1.
    + rewrite !length_app, !Hvec, Hl34. rewrite <- Ht. f_equal. lia.
  - intros (pre & tail & (head & s & c & m & Hh & Hs & Hc & Hm & ->) & Hd & Ht).
    rewrite <- !app_assoc in Hd. pose proof (f_equal (drop 34) Hd) as H0. rewrite drop_app_length' in H0 by done.
    assert (Hle : (34 <= length hello)%nat) by (rewrite Hd, length_app; lia).
    destruct (vec_at 1 _ _ _ _ Hle H0 Hs) as (Hg & Hn & H1 & Hle1).
    change (34 + 1)%nat with 35%nat in *. rewrite Hg, Hn. cbv zeta.
    destruct (vec_at 2 _ _ _ _ Hle1 H1 Hc) as (-> & -> & H2 & Hle2).
    destruct (vec_at 1 _ _ _ _ Hle2 H2 Hm) as (-> & -> & H3 & Hle3).
    rewrite <- Ht. f_equal. unfold vec. rewrite !length_app, !length_be_bytes. lia.
Qed.

(** The well-formed bodies, and the server name each carries. *)
Definition hello_encodes hello (sn : option (list byte)) : Prop :=
  exists pre, hello_pre pre /\
    (hello = pre /\ sn = None
     \/ exists es, hello = pre ++ vec16 (exts_of es) /\ zlen (exts_of es) < 2 ^ 16
          /\ Forall ext_ok es /\ sni_in None es sn).

Lemma tail_strict pre tail sn :
  hello_tail (pre ++ tail) (length pre) false = Some (mkHello sn) <->
  (tail = [] /\ sn = None
   \/ exists es, tail = vec16 (exts_of es) /\ zlen (exts_of es) < 2 ^ 16 /\ Forall ext_ok es /\ sni_in None es sn).
Proof.
  unfold hello_tail. rewrite length_app. destruct tail as [|b tail].
  { simpl. rewrite Nat.add_0_r, Nat.eqb_refl. split; [intros [= <-]; by left|].
    intros [[_ ->]|(es & He & _)]; [done|]. apply (f_equal length) in He. unfold vec16 in He.
    rewrite length_app, length_be_bytes in He. simpl in He. lia. }
  set (t := b :: tail). destruct (Nat.eqb_spec (length pre) (length pre + length t)); [simpl in *; lia|].
  assert (Hd : drop (length pre) (pre ++ t) = t) by apply drop_app_length.
  assert (Hlen : length (pre ++ t) = (length pre + length t)%nat) by apply length_app. split.
  - destruct (slice_get _ (length pre) _) as [l|] eqn:Hl; [|done]. cbn [negb andb].
    destruct (Nat.eqb_spec (length pre + 2 + u16_be l) (length pre + length t)) as [Hlast|]; [|done]. cbn [negb].
    rewrite Hlast, <- !Hlen. pose proof Hl as (_ & _ & Hle)%slice_get_split.
    intros (es & Hes & Hall & Hin)%exts_strict; [|lia..]. right. exists es.
    destruct (vec16_sound (pre ++ t) (length pre) l (exts_of es) Hl) as (Hv & Hb & _).
    { apply slice_get_Some. rewrite <- Hes. split_and!; [lia..|]. rewrite take_ge; [done|]. rewrite length_drop. lia. }
    rewrite Hd in Hv. split_and!; [|done..]. rewrite Hv, drop_ge, app_nil_r by lia. done.
  - intros [[]|(es & Ht & Hb & Hall & Hin)]; [done|]. rewrite Ht in Hd. rewrite <- (app_nil_r (vec16 _)) in Hd at 2.
    rewrite Ht in Hlen |- *.
    destruct (vec16_complete (pre ++ vec16 (exts_of es)) (length pre) _ _ ltac:(lia) Hd Hb) as (-> & -> & Hg & Hrest & Hle). cbn [negb andb].
    assert (Hend : (length pre + 2 + length (exts_of es) = length pre + length (vec16 (exts_of es)))%nat)
      by (unfold vec16; len).
    rewrite Hend, Nat.eqb_refl. cbn [negb]. rewrite <- !Hlen. apply exts_strict; [lia..|]. exists es. split_and!; [|done..].
    apply slice_get_split in Hg as (_ & Hg & _). by rewrite Hg, Hrest, app_nil_r.
Qed.

Lemma body_strict hello sn : parse_hello_body hello false = Some (mkHello sn) <-> hello_encodes hello sn.
Proof.
  rewrite body_iff. unfold hello_encodes. split.
  - intros (pre & tail & Hpre & -> & Ht%tail_strict). exists pre. split; [done|].
    destruct Ht as [[-> ->]|(es & -> & ?)]; [left; by rewrite app_nil_r | right; eauto].
  - intros (pre & Hpre & [[-> ->]|(es & -> & Hes)]).
    + exists pre, []. rewrite app_nil_r. split_and!; [done..|]. rewrite <- (app_nil_r pre) at 1. apply tail_strict. by left.
    + exists pre, (vec16 (exts_of es)). split_and!; [done..|]. apply tail_strict. eauto.
Qed.

(** ** The lenient form on well-formed input *)

Lemma names_lenient fuel lst n : sni_names fuel false lst None = Some n -> sni_names fuel true lst None = Some n.
Proof.
  destruct fuel as [|fuel], lst as [|b lst]; try done. cbn [sni_names]. set (l := b :: lst).
  destruct (slice_get l 0 3) as [header|]; [|done]. destruct (slice_get l 3 _) as [name|]; [|done].
  destruct (bool_decide (take 1 header = [x00])); [|done].
  destruct (bool_decide (is_Some None)); [done|]. destruct (negb (utf8_valid name)); [done|].
  destruct (existsb control_or_space name); [done|]. by intros [_ ->]%names_found.
Qed.

Lemma extension_lenient d n : parse_sni_extension d false = Some n -> parse_sni_extension d true = Some n.
Proof.
  unfold parse_sni_extension. destruct (slice_get d 0 2) as [l|]; [|done]. cbn [negb andb].
  destruct (negb _); [done|]. destruct (slice_get d 2 _); [|done]. apply names_lenient.
Qed.

Lemma exts_found fuel hello pos last n h :
  hello_extensions fuel false hello pos last (Some n) = Some h -> server_name h = Some n.
Proof.
  revert pos. induction fuel as [|fuel IH]; intros pos; cbn [hello_extensions].
  all: destruct ((pos + 4 <=? last) && (pos + 4 <=? length hello))%nat; [|cbn [negb andb]; destruct (negb _); [done|]; by intros [= <-]].
  { done. }
  destruct (slice_get hello pos (pos + 4)) as [header|]; [|done]. cbv zeta.
  destruct (slice_get hello (pos + 4) _); [|done]. destruct (_ =? 0); [by rewrite bool_decide_eq_true_2 by eauto | apply IH].
Qed.

Lemma exts_lenient fuel hello pos last h :
  hello_extensions fuel false hello pos last None = Some h -> hello_extensions fuel true hello pos last None = Some h.
Proof.
  revert pos. induction fuel as [|fuel IH]; intros pos; cbn [hello_extensions].
  all: destruct ((pos + 4 <=? last) && (pos + 4 <=? length hello))%nat; [|cbn [negb andb]; by destruct (negb _)].
  { done. }
  destruct (slice_get hello pos (pos + 4)) as [header|]; [|done]. cbv zeta.
  destruct (slice_get hello (pos + 4) _) as [x|]; [|done]. destruct (_ =? 0); [|apply IH].
  destruct (bool_decide (is_Some None)); [done|].
  destruct (parse_sni_extension x false) as [n|] eqn:Hx; [|done]. rewrite (extension_lenient _ _ Hx).
  intros Hh%exts_found. destruct h. simpl in Hh. by subst.
Qed.

Lemma inner_lenient data h :
  parse_client_hello_inner data false = Some h -> parse_client_hello_inner data true = Some h.
Proof.
  rewrite !inner_framed. intros (hello & Hf & Hb). exists hello. split; [done|].
  rewrite body_iff in *. destruct Hb as (pre & tail & Hpre & Heq & Ht). exists pre, tail. split_and!; [done..|].
  revert Ht. unfold hello_tail. destruct (length pre =? length hello)%nat; [done|].
  destruct (slice_get hello _ _); [|done]. cbn [negb andb]. destruct (negb _); [done|]. apply exts_lenient.
Qed.

(** ** The bytes of a name *)

Lemma names_ok fuel fno lst n found :
  (forall m, found = Some m -> ok_name m) -> sni_names fuel fno lst found = Some n -> ok_name n.
Proof.
  revert lst found. induction fuel as [|fuel IH]; intros [|b lst] found Hf; try (by eauto).
  cbn [sni_names]. set (l := b :: lst).
  destruct (slice_get l 0 3) as [header|]; [|done]. destruct (slice_get l 3 _) as [name|]; [|done]. cbv zeta.
  destruct (bool_decide (take 1 header = [x00])).
  - destruct (bool_decide (is_Some found)); [done|]. destruct (utf8_valid name) eqn:Hu; [|done].
    destruct (existsb control_or_space name) eqn:Hc; [done|]. cbn [negb].
    destruct fno; [intros [= <-]; done|]. apply IH. by intros m [= <-].
  - destruct (negb fno); [done|]. by apply IH.
Qed.

Lemma exts_ok fuel fno hello pos last found n :
  (forall m, found = Some m -> ok_name m) ->
  hello_extensions fuel fno hello pos last found = Some (mkHello (Some n)) -> ok_name n.
Proof.
  revert pos found. induction fuel as [|fuel IH]; intros pos found Hf; cbn [hello_extensions].
  all: destruct ((pos + 4 <=? last) && (pos + 4 <=? length hello))%nat; [|destruct (negb fno && _); [done|]; intros [= ->]; by apply Hf].
  { done. }
  destruct (slice_get hello pos (pos + 4)) as [header|]; [|done]. cbv zeta.
  destruct (slice_get hello (pos + 4) _) as [x|]; [|done]. destruct (_ =? 0); [|by apply IH].
  destruct (bool_decide (is_Some found)); [done|]. destruct (parse_sni_extension x fno) as [m|] eqn:Hx; [|done].
  assert (Hm : ok_name m).
  { revert Hx. unfold parse_sni_extension. destruct (slice_get x 0 2); [|done]. destruct (negb fno && _); [done|].
    destruct (slice_get x 2 _); [|done]. apply names_ok. done. }
  destruct fno; [by intros [= <-]|]. apply IH. by intros m' [= <-].
Qed.

Lemma inner_ok fno data n : parse_client_hello_inner data fno = Some (mkHello (Some n)) -> ok_name n.
Proof.
  rewrite inner_framed. intros (hello & _ & Hb). apply body_iff in Hb as (pre & tail & _ & _ & Ht).
  revert Ht. unfold hello_tail. destruct (length pre =? length hello)%nat; [done|].
  destruct (slice_get hello _ _); [|done]. destruct (negb fno && _); [done|]. by apply exts_ok.
Qed.

(** ** Peeking *)

Definition received (events : list peek_event) : list byte :=
  concat ((fun e => match e with Received bytes => bytes | _ => [] end) <$> events).

Lemma extract_more data n more : extract_sni data = Some n -> extract_sni (data ++ more) = Some n.
Proof.
  unfold extract_sni. destruct (parse_client_hello_inner data true) as [h|] eqn:Hh; [|done].
  by rewrite (inner_more _ _ _ _ Hh).
Qed.

Lemma extract_ok data n : extract_sni data = Some n -> ok_name n.
Proof.
  unfold extract_sni. destruct (parse_client_hello_inner data true) as [[sn]|] eqn:Hh; [|done].
  simpl. intros ->. by eapply inner_ok.
Qed.

Lemma extract_first data n : extract_sni data = Some n -> take 1 data = [x16].
Proof.
  unfold extract_sni. destruct (parse_client_hello_inner data true) as [h|] eqn:Hh; [|done]. intros _.
  apply inner_framed in Hh as (hello & (rs & c & rest & extra & -> & _) & _). by destruct rs.
Qed.

Lemma peek_sound events max buf0 buf name :
  peek_loop events max buf0 = Some (buf, name) ->
  (exists k, buf = buf0 ++ received (take k events)) /\ (forall n, name = Some n -> extract_sni buf = Some n).
Proof.
  revert buf0. induction events as [|e events IH]; intros buf0; [done|].
  destruct e as [bytes| |]; cbn [peek_loop].
  2,3: intros [= <- <-]; split; [exists 0%nat; by rewrite app_nil_r | done].
  assert (Hone : exists k, buf0 ++ bytes = buf0 ++ received (take k (Received bytes :: events))).
  { exists 1%nat. unfold received. cbn. by rewrite app_nil_r. }
  destruct (negb _); [by intros [= <- <-]|]. destruct (extract_sni (buf0 ++ bytes)) as [n|] eqn:Hn.
  { intros [= <- <-]. split; [done|]. by intros ? [= <-]. }
  destruct (max <=? _)%nat; [by intros [= <- <-]|]. intros [[k ->] Hname]%IH. split; [|done].
  exists (S k). unfold received. cbn. by rewrite <- app_assoc.
Qed.

Lemma peek_finds chunks rest max buf0 n :
  Forall (fun c => c <> []) chunks -> (length (buf0 ++ concat chunks) <= max)%nat -> chunks <> [] ->
  extract_sni (buf0 ++ concat chunks) = Some n ->
  exists buf, peek_loop ((Received <$> chunks) ++ rest) max buf0 = Some (buf, Some n).
Proof.
  intros Hne. revert buf0. induction Hne as [|c chunks Hc Hne IH]; intros buf0 Hmax; [done|]. intros _ Hn.
  cbn [concat] in *. rewrite app_assoc in Hmax, Hn. change ((Received <$> (c :: chunks)) ++ rest) with (Received c :: ((Received <$> chunks) ++ rest)).
  cbn [peek_loop]. pose proof (extract_first _ _ Hn) as H1.
  assert (Hlen : (0 < length c)%nat) by (destruct c; [done | simpl; lia]).
  rewrite take_app_le in H1 by (rewrite length_app; lia). rewrite bool_decide_eq_true_2 by done. cbn [negb].
  destruct (extract_sni (buf0 ++ c)) as [n'|] eqn:Hn'.
  { eexists. apply (extract_more _ _ (concat chunks)) in Hn'. by simplify_eq. }
  destruct chunks as [|c' chunks]; [cbn [concat] in Hn; rewrite app_nil_r in Hn; congruence|].
  destruct (Nat.leb_spec max (length (buf0 ++ c))) as [Hle|]; [|by apply IH].
  apply Forall_cons in Hne as [Hc' _]. destruct c'; [done|]. cbn [concat] in Hmax. rewrite !length_app in *. simpl in *. lia.
Qed.

(** ** Theorems *)

(** C25: the strict parser of the TLS relay accepts exactly the well-formed
    first flights. It returns a ClientHello if and only if the bytes start with
    handshake records, split anywhere, whose bodies concatenate to a handshake
    message with a complete body, and the body's length fields nest exactly; the name
    returned is then the one the single server-name extension carries, or none
    when there is no such extension. *)
Theorem client_hello_exact data sn :
  parse_client_hello data = Some (mkHello sn) <-> exists hello, framed data hello /\ hello_encodes hello sn.
Proof.
  unfold parse_client_hello. rewrite inner_framed. split; intros (hello & Hf & Hb); exists hello; split; try done;
    by apply body_strict.
Qed.

(** C20: policy and relay see the same server. On every first flight the strict
    parser accepts, the lenient parser that policy peeks with returns the same
    name, the absence of a name included, and goes on returning it whatever
    bytes follow; the name is well-formed UTF-8 without control or space bytes. *)
Theorem sni_forms_agree data h more :
  parse_client_hello data = Some h ->
  extract_sni (data ++ more) = server_name h /\ forall n, server_name h = Some n -> ok_name n.
Proof.
  unfold parse_client_hello. intros Hh. pose proof (inner_more _ _ _ more (inner_lenient _ _ Hh)) as Hm.
  unfold extract_sni. rewrite Hm. split; [done|]. destruct h as [sn]. simpl. intros n ->. by eapply inner_ok.
Qed.

(** Peeking at the first flight neither loses bytes nor depends on how
    they arrive. The buffer handed back for replay is the concatenation of what was received
    so far, a name is only reported when the buffer carries it, and once the
    chunks received within the limit carry a name the peek returns it,
    canonicalised, however the stream was cut into non-empty chunks. *)
Lemma sni_peek_exact events max :
  (forall buf name, peek_for_sni events max = Some (buf, name) ->
     (exists k, buf = received (take k events))
     /\ forall s, name = Some s -> exists n, extract_sni buf = Some n /\ ok_name n /\ s = canonical_sni n)
  /\ (forall chunks rest n,
        events = (Received <$> chunks) ++ rest -> Forall (fun c => c <> []) chunks ->
        (length (concat chunks) <= max)%nat -> extract_sni (concat chunks) = Some n ->
        exists buf, peek_for_sni events max = Some (buf, Some (canonical_sni n))).
Proof.
  unfold peek_for_sni. split.
  - intros buf name. destruct (peek_loop events max []) as [[b r]|] eqn:Hl; [|done]. intros [= -> <-].
    destruct (peek_sound _ _ _ _ _ Hl) as [Hk Hn]. split; [done|]. intros s Hs.
    apply fmap_Some in Hs as (n & -> & ->). exists n. pose proof (Hn n eq_refl) as He. eauto using extract_ok.
  - intros chunks rest n -> Hne Hmax Hn.
    destruct (peek_finds chunks rest max [] n Hne Hmax) as [buf ->]; [by intros -> | done | by exists buf].
Qed.

(** A first flight for "Ab.c." whose handshake message is split over two
    records. *)
Definition demo_hello (exts : list (Z * list byte)) : list byte :=
  replicate 34 x00 ++ vec 1 [] ++ vec 2 [x13; x01] ++ vec 1 [x00] ++ vec16 (exts_of exts).
Definition demo_flight (exts : list (Z * list byte)) : list byte :=
  let hs := handshake_of (demo_hello exts) in record_of (x01, take 3 hs) ++ record_of (x03, drop 3 hs).
Definition demo_name : list byte := [x41; x62; x2e; x63; x2e].
Definition demo_exts : list (Z * list byte) := [(10, [x00; x1d]); (0, sni_data demo_name); (16, [])].

Lemma sni_forms_agree_witness :
  parse_client_hello (demo_flight demo_exts) = Some (mkHello (Some demo_name))
  /\ extract_sni (demo_flight demo_exts ++ [x17; x03]) = Some demo_name.
Proof.
  assert (H : parse_client_hello (demo_flight demo_exts) = Some (mkHello (Some demo_name))) by (vm_compute; reflexivity).
  split; [exact H | exact (proj1 (sni_forms_agree _ _ [x17; x03] H))].
Defined.

(** The two forms differ only outside the well-formed flights: a second
    server-name extension is refused by the strict form and ignored by the
    lenient one. *)
Example second_sni_extension :
  let data := demo_flight (demo_exts ++ [(0, sni_data [x78])]) in
  parse_client_hello data = None /\ extract_sni data = Some demo_name.
Proof. vm_compute. done. Qed.

Example peek_two_chunks :
  let data := demo_flight demo_exts in
  peek_for_sni [Received (take 20 data); Received (drop 20 data); TimedOut] 100
  = Some (data, Some (canonical_sni demo_name))
  /\ peek_for_sni [Received [x47; x45; x54]] 100 = Some ([x47; x45; x54], None)
  /\ canonical_sni demo_name = "ab.c"%string.
Proof. vm_compute. done. Qed.
