(* ===== verification/ImageTree.v ===== *)
(** * Image layers: file trees

    [crates/image/lib/tree/model.rs]: the in-memory tree of a layer, its path
    operations, the counters over it, and the spool file that holds large
    contents.  The [BTreeMap] of a directory is a [gmap]: its loops are folds
    whose results do not depend on the order, as the lemmas on them show.  Keys
    are byte strings, as on Unix hosts. *)

From S2P Require Import Prelude Text.
From Stdlib Require Import Strings.Byte.

Abbreviation key := (list byte).
(** Paths as the list of their components. *)
Abbreviation path := (list key).

(** ** Constants *)

Definition DEFAULT_MAX_TOTAL_SIZE : Z := 10 * 1024 * 1024 * 1024.
Definition DEFAULT_MAX_FILE_SIZE : Z := 5 * 1024 * 1024 * 1024.
Definition DEFAULT_MAX_ENTRY_COUNT : Z := 1000000.
Definition DEFAULT_MAX_PATH_LENGTH : Z := 4096.
Definition DEFAULT_MAX_PATH_DEPTH : Z := 128.
Definition DEFAULT_MAX_SYMLINK_TARGET : Z := 4096.
Definition DEFAULT_DIR_MODE : Z := 493.
Definition WHITEOUT_MAJOR : Z := 0.
Definition WHITEOUT_MINOR : Z := 0.
Definition SPOOL_THRESHOLD : Z := 64 * 1024.

Definition OPAQUE_XATTR_NAME : list byte := bytes_of "trusted.overlay.opaque".
Definition OPAQUE_XATTR_VALUE : list byte := bytes_of "y".

(** ** Types *)

(** A spool file is named by a number. *)
Inductive FileData :=
| Memory (data : list byte)
| SharedMemory (data : list byte)
| Spool (spool : nat) (offset len : Z).

Record ResourceLimits := mkLimits {
  max_total_size : Z; max_file_size : Z; max_entry_count : Z;
  max_path_length : Z; max_path_depth : Z; max_symlink_target : Z
}.

Record InodeMetadata := mkMetadata { uid : Z; gid : Z; mode : Z; mtime : Z; mtime_nsec : Z }.
Record Xattr := mkXattr { xname : list byte; xvalue : list byte }.

Record RegularFileNode := mkRegular {
  id : Z; file_metadata : InodeMetadata; file_xattrs : list Xattr; data : FileData; nlink : Z
}.
Record DirectoryNode_ (T : Type) := mkDir { metadata : InodeMetadata; xattrs : list Xattr; entries : gmap key T }.
Arguments mkDir {_}.
Arguments metadata {_}.
Arguments xattrs {_}.
Arguments entries {_}.
Record SymlinkNode := mkSymlink { link_metadata : InodeMetadata; target : list byte }.
Record DeviceNode := mkDevice { device_metadata : InodeMetadata; major : Z; minor : Z }.

#[local] Set Warnings "-register-all".
Inductive TreeNode :=
| RegularFile (file : RegularFileNode)
| Directory (dir : DirectoryNode_ TreeNode)
| Symlink (link : SymlinkNode)
| CharDevice (device : DeviceNode)
| BlockDevice (device : DeviceNode)
| Fifo (meta : InodeMetadata)
| Socket (meta : InodeMetadata).
Definition DirectoryNode := DirectoryNode_ TreeNode.
Record FileTree := mkTree { root : DirectoryNode }.

Inductive FileTreeError := PathEmpty | PathTraversal | NotADirectory (component : key) | EntryExists (name : key).

#[global] Instance Xattr_eq_dec : EqDecision Xattr.
Proof. solve_decision. Defined.

(** ** Contents and the spool *)

Definition file_len (d : FileData) : Z :=
  match d with Memory v | SharedMemory v => zlen v | Spool _ _ len => len end.

(** [clone_ref]: the alias, and what [self] becomes. *)
Definition clone_ref (d : FileData) : FileData * FileData :=
  match d with
  | Memory data => (SharedMemory data, SharedMemory data)
  | SharedMemory data => (SharedMemory data, SharedMemory data)
  | Spool spool offset len => (Spool spool offset len, Spool spool offset len)
  end.

(** A file with the position its handles share: the two handles of a spool come
    from [try_clone]. *)
Record SpoolFile := mkFile { contents : list byte; cursor : nat }.
Abbreviation spools := (gmap nat SpoolFile).

Definition seek (f : SpoolFile) (off : Z) : SpoolFile := mkFile (contents f) (Z.to_nat off).
Definition write_all (f : SpoolFile) (bytes : list byte) : SpoolFile :=
  let c := cursor f in
  mkFile (take c (contents f) ++ replicate (c - length (contents f)) x00 ++ bytes ++ drop (c + length bytes) (contents f))
    (c + length bytes).
(** [None] is [UnexpectedEof]. *)
Definition file_read_exact (f : SpoolFile) (len : nat) : SpoolFile * option (list byte) :=
  let rest := drop (cursor f) (contents f) in
  if (len <=? length rest)%nat then (mkFile (contents f) (cursor f + len), Some (take len rest))
  else (mkFile (contents f) (cursor f + length rest), None).

Definition read_all (files : spools) (d : FileData) : spools * option (list byte) :=
  match d with
  | Memory v | SharedMemory v => (files, Some v)
  | Spool spool offset len =>
      match files !! spool with
      | None => (files, None)
      | Some f => let '(f, r) := file_read_exact (seek f offset) (Z.to_nat len) in (<[spool := f]> files, r)
      end
  end.

(** The loop of [write_range] over a spooled file, 64 KiB at a time; [fuel]
    bounds its rounds by the bytes to write. *)
Fixpoint write_spool_range (fuel : nat) (f : SpoolFile) (remaining : nat) (out : list byte)
    : SpoolFile * option (list byte) :=
  match fuel, remaining with
  | _, O => (f, Some out)
  | O, _ => (f, None)
  | S fuel', _ =>
      let to_read := Nat.min remaining (Z.to_nat 65536) in
      match file_read_exact f to_read with
      | (f, None) => (f, None)
      | (f, Some buf) => write_spool_range fuel' f (remaining - to_read) (out ++ buf)
      end
  end.

(** What [write_range] gives to the writer; a slice of [v] out of range
    panics. *)
Definition write_range (files : spools) (d : FileData) (start len : nat) : spools * option (list byte) :=
  match d with
  | Memory v | SharedMemory v =>
      (files, if (start + len <=? length v)%nat then Some (take len (drop start v)) else None)
  | Spool spool offset _ =>
      match files !! spool with
      | None => (files, None)
      | Some f =>
          let '(f, r) := write_spool_range len (seek f (offset + Z.of_nat start)) len [] in
          (<[spool := f]> files, r)
      end
  end.

Definition write_to (files : spools) (d : FileData) : spools * option (list byte) :=
  write_range files d 0 (Z.to_nat (file_len d)).

Record DataSpool := mkSpool { spool_id : nat; offset : Z }.

(** [DataSpool::new] truncates the file. *)
Definition spool_new (files : spools) (i : nat) : spools * DataSpool := (<[i := mkFile [] 0]> files, mkSpool i 0).
Definition write_chunk (files : spools) (s : DataSpool) (bytes : list byte) : spools * DataSpool :=
  (alter (fun f => write_all f bytes) (spool_id s) files, mkSpool (spool_id s) (offset s + zlen bytes)).
Definition data_ref (s : DataSpool) (off len : Z) : FileData := Spool (spool_id s) off len.
Definition spool_write_data (files : spools) (s : DataSpool) (bytes : list byte) : spools * DataSpool * FileData :=
  (write_chunk files s bytes, Spool (spool_id s) (offset s) (zlen bytes)).

(** ** Trees *)

Definition default_metadata : InodeMetadata := mkMetadata 0 0 DEFAULT_DIR_MODE 0 0.
Definition limits_default : ResourceLimits :=
  mkLimits DEFAULT_MAX_TOTAL_SIZE DEFAULT_MAX_FILE_SIZE DEFAULT_MAX_ENTRY_COUNT
    DEFAULT_MAX_PATH_LENGTH DEFAULT_MAX_PATH_DEPTH DEFAULT_MAX_SYMLINK_TARGET.
Definition new_directory (m : InodeMetadata) : DirectoryNode := mkDir m [] ∅.
Definition new_tree : FileTree := mkTree (new_directory default_metadata).
Definition set_entry (dir : DirectoryNode) (name : key) (node : TreeNode) : DirectoryNode :=
  mkDir (metadata dir) (xattrs dir) (<[name := node]> (entries dir)).

Definition slash : byte := x2f.
Definition dotdot : key := [x2e; x2e].

(** [path.split(|&b| b == b'/')]. *)
Fixpoint split_slash (path : list byte) : list key :=
  match path with
  | [] => [[]]
  | b :: path' =>
      if bool_decide (b = slash) then [] :: split_slash path'
      else match split_slash path' with
           | [] => [[b]]
           | c :: cs => (b :: c) :: cs
           end
  end.

Definition path_components (path : list byte) : list key := List.filter (fun c => negb (bool_decide (c = []))) (split_slash path).

Definition split_path (path : list byte) : result FileTreeError (list key) :=
  let components := path_components path in
  match components with
  | [] => Err PathEmpty
  | _ => if existsb (fun c => bool_decide (c = dotdot)) components then Err PathTraversal else Ok components
  end.

(** The traversal of [insert] from [dir]; the directory as it is left, also on
    an error. *)
Fixpoint insert_components (dir : DirectoryNode) (components : list key) (node : TreeNode)
    : DirectoryNode * result FileTreeError unit :=
  match components with
  | [] => (dir, Err PathEmpty)
  | [file_name] =>
      match entries dir !! file_name, node with
      | None, _ => (set_entry dir file_name node, Ok tt)
      | Some (Directory existing), Directory new_dir =>
          (set_entry dir file_name (Directory (mkDir (metadata new_dir) (xattrs new_dir) (entries existing))), Ok tt)
      | Some (Directory _), _ => (dir, Err (EntryExists file_name))
      | Some _, _ => (set_entry dir file_name node, Ok tt)
      end
  | component :: rest =>
      match entries dir !! component with
      | None =>
          let '(d, r) := insert_components (new_directory default_metadata) rest node in
          (set_entry dir component (Directory d), r)
      | Some (Directory d) =>
          let '(d, r) := insert_components d rest node in
          (set_entry dir component (Directory d), r)
      | Some _ => (dir, Err (NotADirectory component))
      end
  end.

Definition tree_insert (t : FileTree) (path : list byte) (node : TreeNode) : FileTree * result FileTreeError unit :=
  match split_path path with
  | Err e => (t, Err e)
  | Ok components => let '(d, r) := insert_components (root t) components node in (mkTree d, r)
  end.

(** The lookup loop of [get], [get_mut] and [remove]. *)
Fixpoint node_at (es : gmap key TreeNode) (components : list key) : option TreeNode :=
  match components with
  | [] => None
  | [file_name] => es !! file_name
  | component :: rest =>
      match es !! component with Some (Directory dir) => node_at (entries dir) rest | _ => None end
  end.

Definition tree_get (t : FileTree) (path : list byte) : option TreeNode :=
  match split_path path with Err _ => None | Ok components => node_at (entries (root t)) components end.

(** Writing [f node] through the reference [get_mut] returns, or removing the
    entry when [f] is [None]. *)
Fixpoint alter_at (f : TreeNode -> option TreeNode) (dir : DirectoryNode) (components : list key) : DirectoryNode :=
  match components with
  | [] => dir
  | [file_name] => mkDir (metadata dir) (xattrs dir) (partial_alter (fun o => o ≫= f) file_name (entries dir))
  | component :: rest =>
      match entries dir !! component with
      | Some (Directory d) => set_entry dir component (Directory (alter_at f d rest))
      | _ => dir
      end
  end.

Definition tree_get_mut (t : FileTree) (path : list byte) (f : TreeNode -> TreeNode) : FileTree :=
  match split_path path with
  | Err _ => t
  | Ok components => mkTree (alter_at (fun n => Some (f n)) (root t) components)
  end.

Definition tree_remove (t : FileTree) (path : list byte) : FileTree * option TreeNode :=
  match split_path path with
  | Err _ => (t, None)
  | Ok components => (mkTree (alter_at (fun _ => None) (root t) components), node_at (entries (root t)) components)
  end.

(** ** Counters *)

Fixpoint count_node (node : TreeNode) : Z :=
  match node with
  | Directory dir => 1 + msum (fun _ child => count_node child) (entries dir)
  | _ => 1
  end.
Definition count_nodes_in_dir (dir : DirectoryNode) : Z :=
  msum (fun _ child => count_node child) (entries dir).
Definition node_count (t : FileTree) : Z := count_nodes_in_dir (root t).

(** The size of the contents, each file counted at its first link. *)
Fixpoint data_size_once (node : TreeNode) (acc : gset Z * Z) : gset Z * Z :=
  match node with
  | RegularFile f => if bool_decide (id f ∈ acc.1) then acc else ({[id f]} ∪ acc.1, acc.2 + file_len (data f))
  | Directory dir => map_fold (fun _ child acc => data_size_once child acc) acc (entries dir)
  | _ => acc
  end.
Definition total_data_size (t : FileTree) : Z := (data_size_once (Directory (root t)) (∅, 0)).2.

Fixpoint count_regular_links (node : TreeNode) (counts : gmap Z Z) : gmap Z Z :=
  match node with
  | RegularFile f => <[id f := wrap 32 (default 0 (counts !! id f) + 1)]> counts
  | Directory dir => map_fold (fun _ child counts => count_regular_links child counts) counts (entries dir)
  | _ => counts
  end.
Definition regular_file_link_counts (t : FileTree) : gmap Z Z := count_regular_links (Directory (root t)) ∅.

Definition map_entries (f : TreeNode -> TreeNode) (dir : DirectoryNode) : DirectoryNode :=
  mkDir (metadata dir) (xattrs dir) (f <$> entries dir).

Fixpoint refresh_nlink (counts : gmap Z Z) (node : TreeNode) : TreeNode :=
  match node with
  | RegularFile f =>
      RegularFile (mkRegular (id f) (file_metadata f) (file_xattrs f) (data f) (default 1 (counts !! id f)))
  | Directory dir => Directory (mkDir (metadata dir) (xattrs dir) (refresh_nlink counts <$> entries dir))
  | other => other
  end.
Definition refresh_regular_nlinks (t : FileTree) : FileTree :=
  mkTree (map_entries (refresh_nlink (regular_file_link_counts t)) (root t)).

Fixpoint strip_data (node : TreeNode) : TreeNode :=
  match node with
  | RegularFile f => RegularFile (mkRegular (id f) (file_metadata f) (file_xattrs f) (Memory []) (nlink f))
  | Directory dir => Directory (mkDir (metadata dir) (xattrs dir) (strip_data <$> entries dir))
  | other => other
  end.
Definition strip_file_data (t : FileTree) : FileTree := mkTree (map_entries strip_data (root t)).

(** ** Induction over trees *)

Definition children (node : TreeNode) : gmap key TreeNode :=
  match node with Directory dir => entries dir | _ => ∅ end.


Fixpoint node_height (node : TreeNode) : nat :=
  match node with
  | Directory dir => S (map_fold (fun _ child h => Nat.max (node_height child) h) 0%nat (entries dir))
  | _ => 0
  end.

Lemma fold_max_ge (m : gmap key TreeNode) k n :
  m !! k = Some n -> (node_height n <= map_fold (fun _ child h => Nat.max (node_height child) h) 0%nat m)%nat.
Proof.
  revert k n. apply (map_fold_weak_ind (fun r (m : gmap key TreeNode) => forall k n, m !! k = Some n -> (node_height n <= r)%nat)).
  - intros k n. by rewrite lookup_empty.
  - intros i x m' r _ IH k n. rewrite lookup_insert_Some. intros [[_ ->]|[_ Hk]]; [lia|]. specialize (IH _ _ Hk). lia.
Qed.

Lemma tree_ind (P : TreeNode -> Prop) :
  (forall node, (forall k child, children node !! k = Some child -> P child) -> P node) -> forall node, P node.
Proof.
  intros Hstep node. remember (node_height node) as h eqn:Hh. revert node Hh.
  induction (lt_wf h) as [h _ IH]. intros node ->. apply Hstep. intros k child Hk.
  apply (IH (node_height child)); [|done]. destruct node; simpl in Hk; try (by rewrite lookup_empty in Hk).
  apply fold_max_ge in Hk. simpl. lia.
Qed.

(** ** Lookup *)

Lemma node_at_cons es name q :
  q <> [] -> node_at es (name :: q) = match es !! name with Some (Directory dir) => node_at (entries dir) q | _ => None end.
Proof. by destruct q. Qed.
Lemma node_at_empty p : node_at ∅ p = None.
Proof. destruct p as [|name [|]]; [done | |]; simpl; by rewrite lookup_empty. Qed.

Definition node_under (node : TreeNode) (q : path) : option TreeNode :=
  match q with [] => Some node | _ => node_at (children node) q end.

Lemma node_at_under es name q : node_at es (name :: q) = es !! name ≫= (fun node => node_under node q).
Proof.
  destruct q; simpl; [by destruct (es !! name)|]. destruct (es !! name) as [[]|]; simpl; try done;
    destruct q; simpl; by rewrite lookup_empty.
Qed.

(** ** Links *)

(** The number of entries that name file [i]. *)
Fixpoint links (i : Z) (node : TreeNode) : Z :=
  match node with
  | RegularFile f => if id f =? i then 1 else 0
  | Directory dir => msum (fun _ child => links i child) (entries dir)
  | _ => 0
  end.

Lemma image_links_nonneg i node : 0 <= links i node.
Proof.
  induction node as [node IH] using tree_ind. destruct node; simpl; try lia; [destruct (_ =? i); lia|].
  apply msum_nonneg. intros k c Hk. by apply (IH k).
Qed.

Definition add_links (o : option Z) (n : Z) : option Z := if n =? 0 then o else Some (wrap 32 (default 0 o + n)).

Lemma add_links_add o a b : 0 <= a -> 0 <= b -> add_links (add_links o a) b = add_links o (a + b).
Proof.
  intros Ha Hb. unfold add_links. destruct (Z.eqb_spec a 0) as [->|]; [done|]. destruct (Z.eqb_spec (a + b) 0); [lia|].
  destruct (Z.eqb_spec b 0) as [->|]; [by rewrite Z.add_0_r|]. simpl. f_equal. unfold wrap.
  rewrite Zplus_mod_idemp_l. f_equal. lia.
Qed.

Lemma count_regular_links_spec i node counts :
  count_regular_links node counts !! i = add_links (counts !! i) (links i node).
Proof.
  revert counts. induction node as [node IH] using tree_ind. intros counts.
  destruct node as [f|dir| | | | |]; cbn [count_regular_links links]; try done.
  - unfold add_links. destruct (Z.eqb_spec (id f) i) as [->|Hne]; [apply lookup_insert_eq | by apply lookup_insert_ne].
  - cbn [children] in IH.
    apply (map_fold_weak_ind (fun r (m : gmap key TreeNode) => m ⊆ entries dir ->
      r !! i = add_links (counts !! i) (msum (fun _ c => links i c) m))); [..|done].
    + intros _. rewrite msum_empty. done.
    + intros k c m r Hk IHm Hsub. rewrite (IH k c) by (eapply lookup_weaken; [apply lookup_insert_eq | done]).
      rewrite IHm by (etrans; [by apply insert_subseteq | done]).
      rewrite msum_insert_new by done. rewrite add_links_add, Z.add_comm; [done | | apply image_links_nonneg].
      apply msum_nonneg. intros. apply image_links_nonneg.
Qed.

Lemma node_at_fmap (f : TreeNode -> TreeNode) es p :
  (forall node, match node, f node with
                | Directory d, Directory d' => entries d' = f <$> entries d
                | Directory _, _ | _, Directory _ => False | _, _ => True end) ->
  node_at (f <$> es) p = f <$> node_at es p.
Proof.
  intros Hd. revert es. induction p as [|name q IH]; intros es; [done|]. destruct q as [|n q].
  - simpl. apply lookup_fmap.
  - change (match (f <$> es) !! name with Some (Directory dir) => node_at (entries dir) (n :: q) | _ => None end
      = f <$> match es !! name with Some (Directory dir) => node_at (entries dir) (n :: q) | _ => None end).
    rewrite lookup_fmap. destruct (es !! name) as [node|]; [|done]. simpl fmap. specialize (Hd node).
    destruct node, (f _); try done. by rewrite Hd, IH.
Qed.

Lemma msum_fmap (f : TreeNode -> Z) (g : TreeNode -> TreeNode) (m : gmap key TreeNode) :
  (forall k c, m !! k = Some c -> f (g c) = f c) -> msum (fun _ c => f c) (g <$> m) = msum (fun _ c => f c) m.
Proof.
  induction m as [|k c m Hk IH] using map_ind; intros Hfg; [by rewrite fmap_empty|].
  rewrite fmap_insert, !msum_insert_new by (rewrite ?lookup_fmap, ?Hk; done).
  rewrite (Hfg k c), IH; [done | | apply lookup_insert_eq]. intros j d Hj. apply (Hfg j).
  rewrite lookup_insert_ne; [done | congruence].
Qed.

Lemma links_refresh counts i node : links i (refresh_nlink counts node) = links i node.
Proof.
  induction node as [node IH] using tree_ind. destruct node as [|dir| | | | |]; try done. cbn [refresh_nlink links entries].
  apply msum_fmap. intros k c Hk. by apply (IH k).
Qed.

Lemma links_at es p f : node_at es p = Some (RegularFile f) -> 1 <= msum (fun _ c => links (id f) c) es.
Proof.
  revert es. induction p as [|name q IH]; intros es; [done|].
  assert (Hge : forall node, es !! name = Some node -> links (id f) node <= msum (fun _ c => links (id f) c) es).
  { intros node Hn. apply (msum_ge (fun _ c => links (id f) c) es name node); [|done]. intros. apply image_links_nonneg. }
  destruct q as [|n q].
  - simpl. intros Hf. specialize (Hge _ Hf). simpl in Hge. rewrite Z.eqb_refl in Hge. done.
  - change (node_at es (name :: n :: q)) with (match es !! name with Some (Directory dir) => node_at (entries dir) (n :: q) | _ => None end).
    destruct (es !! name) as [[|dir| | | | |]|]; try done. intros Hf%IH. specialize (Hge _ eq_refl). simpl in Hge. lia.
Qed.

(** After a refresh every regular file carries the number of its names. *)
Lemma refresh_exact t p f :
  node_at (entries (root (refresh_regular_nlinks t))) p = Some (RegularFile f) ->
  nlink f = wrap 32 (links (id f) (Directory (root (refresh_regular_nlinks t)))).
Proof.
  unfold refresh_regular_nlinks. set (counts := regular_file_link_counts t). cbn [root map_entries entries].
  rewrite node_at_fmap by (by intros []). intros Hf. apply fmap_Some in Hf as (node & Hn & Hf).
  destruct node as [g| | | | | |]; try done. simpl in Hf. injection Hf as ->. cbn [nlink id].
  cbn [links entries map_entries]. rewrite msum_fmap by (intros; apply links_refresh).
  unfold counts, regular_file_link_counts. rewrite count_regular_links_spec, lookup_empty.
  pose proof (links_at _ _ _ Hn) as Hge. cbn [links entries]. unfold add_links.
  destruct (Z.eqb_spec (msum (fun _ c => links (id g) c) (entries (root t))) 0); [lia|]. done.
Qed.

(** ** Insertion *)

(** A node without what is below it. *)
Definition shape (node : TreeNode) : TreeNode :=
  match node with Directory dir => Directory (mkDir (metadata dir) (xattrs dir) ∅) | other => other end.
Definition fresh_dir : TreeNode := Directory (new_directory default_metadata).

(** What each path holds after [node] is inserted at [p]: the node there,
    directories above it, below it the old entries when a directory meets a
    directory and the node's own otherwise, and elsewhere what was there. *)
Definition inserted (es : gmap key TreeNode) (p : path) (node : TreeNode) (q : path) : option TreeNode :=
  if decide (q = p) then Some (shape node)
  else if decide (q `prefix_of` p) then Some (default fresh_dir (shape <$> node_at es q))
  else if decide (p `prefix_of` q) then
    shape <$> match node_at es p, node with
              | Some (Directory _), Directory _ => node_at es q
              | _, _ => node_under node (drop (length p) q)
              end
  else shape <$> node_at es q.

Lemma inserted_other es c p node n q : n <> c -> inserted es (c :: p) node (n :: q) = shape <$> node_at es (n :: q).
Proof.
  intros Hn. unfold inserted. rewrite !decide_False; [done | | |congruence].
  - intros [r Hr]. by simplify_eq/=.
  - intros [r Hr]. by simplify_eq/=.
Qed.

Lemma prefix_cons_same {A} (x : A) l k : x :: l `prefix_of` x :: k <-> l `prefix_of` k.
Proof. split; [apply prefix_cons_inv_2 | apply prefix_cons]. Qed.

Lemma inserted_under es c p node q sub :
  p <> [] -> q <> [] -> (es !! c = Some sub /\ (exists d, sub = Directory d) \/ es !! c = None /\ sub = fresh_dir) ->
  inserted es (c :: p) node (c :: q) = inserted (children sub) p node q.
Proof.
  intros Hp Hq Hsub. unfold inserted. cbn [length drop].
  assert (Hat : forall r, r <> [] -> node_at es (c :: r) = node_at (children sub) r).
  { intros r Hr. rewrite node_at_under. destruct Hsub as [[-> [d ->]]|[-> ->]]; simpl; [by destruct r|]. by rewrite node_at_empty. }
  rewrite !Hat by done.
  destruct (decide (q = p)) as [->|Hne]; [by rewrite decide_True|]. rewrite (decide_False (P := c :: q = c :: p)) by congruence.
  rewrite (decide_ext (c :: q `prefix_of` c :: p) (q `prefix_of` p)) by apply prefix_cons_same.
  by rewrite (decide_ext (c :: p `prefix_of` c :: q) (p `prefix_of` q)) by apply prefix_cons_same.
Qed.

Lemma set_entry_at dir c node q :
  node_at (entries (set_entry dir c node)) (c :: q) = node_under node q.
Proof. rewrite node_at_under. cbn [set_entry entries]. by rewrite lookup_insert_eq. Qed.
Lemma set_entry_other dir c node n q :
  n <> c -> node_at (entries (set_entry dir c node)) (n :: q) = node_at (entries dir) (n :: q).
Proof. intros Hn. rewrite !node_at_under. cbn [set_entry entries]. by rewrite lookup_insert_ne. Qed.

(** Descending into an entry, created when it is missing. *)
Lemma insert_cons dir c p node :
  p <> [] ->
  insert_components dir (c :: p) node =
    match default fresh_dir (entries dir !! c) with
    | Directory d => let '(d, r) := insert_components d p node in (set_entry dir c (Directory d), r)
    | _ => (dir, Err (NotADirectory c))
    end.
Proof. destruct p; [done|]. intros _. simpl. by destruct (entries dir !! c) as [[]|]. Qed.

Lemma insert_same_dir dir p node :
  let dir' := (insert_components dir p node).1 in metadata dir' = metadata dir /\ xattrs dir' = xattrs dir.
Proof.
  destruct p as [|c p]; [done|]. destruct (decide (p = [])) as [->|Hp].
  - cbn [insert_components]. by destruct (entries dir !! c) as [[]|], node.
  - rewrite insert_cons by done. destruct (default _ _) as [|d| | | | |]; try done. by destruct (insert_components d p node).
Qed.

Lemma insert_effect dir p node dir' q :
  insert_components dir p node = (dir', Ok tt) -> q <> [] ->
  shape <$> node_at (entries dir') q = inserted (entries dir) p node q.
Proof.
  revert dir dir' q. induction p as [|c p IH]; intros dir dir' [|n q] Hins Hq; try done.
  destruct (decide (p = [])) as [->|Hp].
  - cbn [insert_components] in Hins. destruct (decide (n = c)) as [->|Hn].
    + unfold inserted. cbn [length drop]. rewrite (node_at_under _ c []), drop_0.
      destruct (decide (q = [])) as [->|Hq'].
      * rewrite decide_True by done.
        destruct (entries dir !! c) as [[]|], node; simplify_eq; cbn [node_at entries set_entry]; by rewrite lookup_insert_eq.
      * rewrite decide_False by congruence. rewrite decide_False by (intros [r Hr]; by destruct q).
        rewrite decide_True by (by exists q).
        rewrite (node_at_under (entries dir) c q).
        destruct (entries dir !! c) as [[]|], node; simplify_eq; rewrite set_entry_at; by destruct q.
    + rewrite inserted_other by done. destruct (entries dir !! c) as [[]|], node; simplify_eq; by rewrite set_entry_other.
  - rewrite insert_cons in Hins by done.
    destruct (default fresh_dir (entries dir !! c)) as [|d| | | | |] eqn:Hsub; try done.
    destruct (insert_components d p node) as [d' r] eqn:Hd. simplify_eq.
    destruct (decide (n = c)) as [->|Hn]; [|by rewrite inserted_other, set_entry_other].
    rewrite set_entry_at. destruct (decide (q = [])) as [->|Hq'].
    + unfold inserted. rewrite decide_False by congruence. rewrite decide_True by (by exists p).
      pose proof (insert_same_dir d p node) as [Hm Hx]. rewrite Hd in Hm, Hx. cbn [fst] in Hm, Hx.
      rewrite node_at_under. destruct (entries dir !! c) as [s|]; simpl in *; simplify_eq; simpl; rewrite Hm, Hx; [done|].
      rewrite Hsub. unfold fresh_dir in Hsub. by simplify_eq.
    + rewrite (inserted_under _ _ _ _ _ (Directory d)); [|done..|].
      * cbn [children]. rewrite <- (IH d d' q Hd Hq'). by destruct q.
      * destruct (entries dir !! c) as [s|]; simpl in Hsub; subst; eauto.
Qed.

(** When an insertion fails, and with what. *)
Definition blocked (es : gmap key TreeNode) (p : path) (node : TreeNode) : Prop :=
  (exists q r n, q <> [] /\ r <> [] /\ p = q ++ r /\ node_at es q = Some n /\ (forall d, n <> Directory d))
  \/ (exists d, node_at es p = Some (Directory d)) /\ (forall d, node <> Directory d).

Lemma insert_in_fresh p node : p <> [] -> (insert_components (new_directory default_metadata) p node).2 = Ok tt.
Proof.
  induction p as [|c p IH]; [done|]. intros _. destruct (decide (p = [])) as [->|Hp].
  - cbn [insert_components]. cbn [entries new_directory]. by rewrite lookup_empty.
  - rewrite insert_cons by done. cbn [entries new_directory]. rewrite lookup_empty. cbn [default fresh_dir].
    specialize (IH Hp). unfold new_directory in IH |- *. by destruct (insert_components _ p node).
Qed.

Lemma insert_refused dir p node dir' e :
  p <> [] -> insert_components dir p node = (dir', Err e) -> dir' = dir /\ blocked (entries dir) p node.
Proof.
  revert dir dir'. induction p as [|c p IH]; [done|]. intros dir dir' _ Hins.
  destruct (decide (p = [])) as [->|Hp].
  - cbn [insert_components] in Hins. unfold blocked. cbn [node_at].
    destruct (entries dir !! c) as [[|d0| | | | |]|], node; simplify_eq; (split; [done|]; right; eauto).
  - rewrite insert_cons in Hins by done. destruct (entries dir !! c) as [sub|] eqn:Hc; simpl in Hins; cycle 1.
    { pose proof (insert_in_fresh p node Hp) as Hok.
      destruct (insert_components _ p node) as [d r]. simpl in Hok. by simplify_eq. }
    destruct sub as [|d| | | | |]; simplify_eq; cycle 1.
    { destruct (insert_components d p node) as [d' r] eqn:Hd. simplify_eq.
      destruct (IH d d' Hp Hd) as [-> Hb]. split.
      - unfold set_entry. rewrite insert_id by done. by destruct dir.
      - assert (Hat : forall q, q <> [] -> node_at (entries dir) (c :: q) = node_at (entries d) q).
        { intros q Hq. rewrite node_at_under, Hc. by destruct q. }
        destruct Hb as [(q & r & n & Hq & Hr & -> & Hn & Hnd)|[[d0 Hd0] Hnd]].
        + left. exists (c :: q), r, n. split_and!; try done. by rewrite Hat.
        + right. split; [|done]. exists d0. by rewrite Hat. }
    all: split; [done|]; left; exists [c], p; eexists; split_and!; try done; simpl; by rewrite Hc.
Qed.

Lemma insert_accepted dir p node dir' :
  insert_components dir p node = (dir', Ok tt) -> ~ blocked (entries dir) p node.
Proof.
  revert dir dir'. induction p as [|c p IH]; [done|]. intros dir dir' Hins Hb.
  destruct (decide (p = [])) as [->|Hp].
  - destruct Hb as [(q & r & n & Hq & Hr & Heq & _)|[[d Hd] Hnd]].
    + destruct q as [|? [|]], r; by simplify_eq/=.
    + cbn [insert_components node_at] in *. rewrite Hd in Hins. destruct node; try done. by destruct (Hnd dir0).
  - rewrite insert_cons in Hins by done. destruct (default fresh_dir (entries dir !! c)) as [|d| | | | |] eqn:Hsub; try done.
    destruct (insert_components d p node) as [d' r] eqn:Hd. simplify_eq. apply (IH _ _ Hd).
    assert (Hat : forall q n, q <> [] -> node_at (entries dir) (c :: q) = Some n -> node_at (entries d) q = Some n).
    { intros q n Hq. rewrite node_at_under. destruct (entries dir !! c); [|done]. simpl in Hsub |- *. subst. by destruct q. }
    destruct Hb as [(q & r & n & Hq & Hr & Heq & Hn & Hnd)|[[d0 Hd0] Hnd]].
    + destruct q as [|c' q]; [done|]. simplify_eq/=. left. destruct (decide (q = [])) as [->|Hq'].
      * simpl in Hn. rewrite Hn in Hsub. simpl in Hsub. by destruct (Hnd d).
      * exists q, r, n. split_and!; try done. by apply Hat.
    + right. split; [|done]. exists d0. by apply Hat.
Qed.

(** ** Updates in place *)

Definition keeps_children (f : TreeNode -> TreeNode) : Prop :=
  forall node, children (f node) = children node /\ ((exists d, f node = Directory d) <-> (exists d, node = Directory d)).

Lemma alter_cons f dir c p :
  p <> [] ->
  alter_at f dir (c :: p) =
    match entries dir !! c with Some (Directory d) => set_entry dir c (Directory (alter_at f d p)) | _ => dir end.
Proof. by destruct p. Qed.

Lemma alter_effect f dir p q :
  keeps_children f ->
  shape <$> node_at (entries (alter_at (fun n => Some (f n)) dir p)) q =
    if decide (q = p) then (fun n => shape (f n)) <$> node_at (entries dir) q else shape <$> node_at (entries dir) q.
Proof.
  intros Hf. revert dir q. induction p as [|c p IH]; intros dir q.
  { cbn [alter_at]. by destruct (decide (q = [])) as [->|]. }
  destruct q as [|n q]; [by destruct (decide ([] = c :: p))|].
  destruct (decide (p = [])) as [->|Hp].
  - cbn [alter_at]. rewrite !node_at_under. cbn [entries]. destruct (decide (n = c)) as [->|Hn].
    + rewrite lookup_partial_alter_eq. destruct (entries dir !! c) as [node|]; simpl; [|by destruct (decide _)].
      destruct q as [|m q]; [by rewrite decide_True|]. rewrite decide_False by congruence. cbn [node_under]. by rewrite (proj1 (Hf node)).
    + rewrite lookup_partial_alter_ne, decide_False by congruence. done.
  - rewrite alter_cons by done. destruct (decide (n :: q = c :: p)) as [Heq|Hne].
    + simplify_eq. destruct (entries dir !! c) as [[|d| | | | |]|] eqn:Hc; cycle 1.
      { rewrite set_entry_at, node_at_under, Hc. specialize (IH d p). rewrite decide_True in IH by done. by destruct p. }
      all: rewrite node_at_under, Hc; cbn [mbind option_bind]; destruct p; [done|]; cbn [node_under children]; by rewrite ?node_at_empty.
    + destruct (entries dir !! c) as [[|d| | | | |]|] eqn:Hc; try done.
      destruct (decide (n = c)) as [->|Hn]; [|by rewrite set_entry_other].
      rewrite set_entry_at, node_at_under, Hc. simpl. destruct q as [|m q].
      * simpl. destruct p as [|c2 p]; [done|]. destruct (decide (p = [])) as [->|Hp2].
        { simpl. done. }
        rewrite alter_cons by done. by destruct (entries d !! c2) as [[]|].
      * specialize (IH d (m :: q)). rewrite decide_False in IH by congruence. exact IH.
Qed.

(** ** Measures over a tree *)

Section measure.
Context (g : TreeNode -> Z) (k : Z) (Hk : 0 <= k) (Hg : forall node, 0 <= g node)
  (Hdir : forall dir, g (Directory dir) = k + msum (fun _ n => g n) (entries dir)).

Lemma measure_insert dir p node dir' r :
  p <> [] -> insert_components dir p node = (dir', r) ->
  msum (fun _ n => g n) (entries dir') <= msum (fun _ n => g n) (entries dir) + g node + k * (Z.of_nat (length p) - 1).
Proof using Hk Hg Hdir.
  revert dir dir'. induction p as [|c p IH]; [done|]. intros dir dir' _ Hins. pose proof (Hg node).
  assert (Hold : forall n, entries dir !! c = Some n -> 0 <= g n) by (intros; apply Hg).
  destruct (decide (p = [])) as [->|Hp].
  - cbn [insert_components] in Hins. destruct (entries dir !! c) as [[]|] eqn:Hc, node; simplify_eq; cbn [set_entry entries];
      rewrite ?msum_insert, ?Hc; simpl; rewrite ?Hdir; cbn [entries]; specialize (Hold _ eq_refl) || idtac; try lia.
    all: rewrite ?Hdir in *; lia.
  - rewrite insert_cons in Hins by done. cbn [length].
    destruct (default fresh_dir (entries dir !! c)) as [|d| | | | |] eqn:Hsub; simplify_eq; try nia.
    destruct (insert_components d p node) as [d' r'] eqn:Hd. simplify_eq. specialize (IH d d' Hp Hd).
    cbn [set_entry entries]. rewrite msum_insert, Hdir.
    destruct (entries dir !! c) as [n|] eqn:Hc; simpl in Hsub; subst; simpl at_key; rewrite ?Hdir; [lia|].
    unfold fresh_dir, new_directory in Hsub. simplify_eq. cbn [entries] in IH. rewrite msum_empty in IH. lia.
Qed.

Lemma measure_alter f dir p :
  (forall node, g (f node) = g node) ->
  msum (fun _ n => g n) (entries (alter_at (fun n => Some (f n)) dir p)) = msum (fun _ n => g n) (entries dir).
Proof using Hdir.
  intros Hf. revert dir. induction p as [|c p IH]; intros dir; [done|]. destruct (decide (p = [])) as [->|Hp].
  - cbn [alter_at entries]. destruct (entries dir !! c) as [n|] eqn:Hc.
    + assert (Hpa : partial_alter (fun o => o ≫= (fun n => Some (f n))) c (entries dir) = <[c := f n]> (entries dir)).
      { apply partial_alter_ext. intros x Hx. rewrite Hc in Hx. by simplify_eq. }
      rewrite Hpa, msum_insert, Hc. simpl. rewrite Hf. lia.
    + assert (Hpa : partial_alter (fun o => o ≫= (fun n => Some (f n))) c (entries dir) = entries dir); [|by rewrite Hpa].
      apply map_eq. intros j. destruct (decide (j = c)) as [->|Hj].
      * by rewrite lookup_partial_alter_eq, Hc.
      * by rewrite lookup_partial_alter_ne.
  - rewrite alter_cons by done. destruct (entries dir !! c) as [[|d| | | | |]|] eqn:Hc; try done.
    cbn [set_entry entries]. rewrite msum_insert, Hc. simpl. rewrite !Hdir, IH. lia.
Qed.
End measure.

(** ** The spool *)

(** The file holds [bytes] and both positions are at its end. *)
Definition spool_ready (files : spools) (s : DataSpool) (bytes : list byte) : Prop :=
  files !! spool_id s = Some (mkFile bytes (length bytes)) /\ offset s = zlen bytes.

Lemma spool_new_ready files i : spool_ready (spool_new files i).1 (spool_new files i).2 [].
Proof. split; [apply lookup_insert_eq | done]. Qed.

Lemma write_chunk_ready files s bytes more :
  spool_ready files s bytes ->
  spool_ready (write_chunk files s more).1 (write_chunk files s more).2 (bytes ++ more)
  /\ spool_id (write_chunk files s more).2 = spool_id s.
Proof.
  intros [Hf Ho]. unfold write_chunk. cbn [fst snd spool_id]. split; [|done]. split; cbn [spool_id offset]; [|len].
  rewrite lookup_alter_eq, Hf. simpl. unfold write_all. cbn [contents cursor].
  rewrite take_ge, Nat.sub_diag, drop_ge, app_nil_r, length_app by lia. done.
Qed.

Lemma file_read_exact_at b1 d b2 len :
  (len <= length d)%nat ->
  file_read_exact (mkFile (b1 ++ d ++ b2) (length b1)) len = (mkFile (b1 ++ d ++ b2) (length b1 + len), Some (take len d)).
Proof.
  intros Hl. unfold file_read_exact. cbn [contents cursor]. rewrite drop_app_length.
  destruct (Nat.leb_spec len (length (d ++ b2))) as [_|H]; [by rewrite take_app_le by done | rewrite length_app in H; lia].
Qed.

Lemma write_spool_range_exact fuel b1 d b2 out :
  (length d <= fuel)%nat ->
  (write_spool_range fuel (mkFile (b1 ++ d ++ b2) (length b1)) (length d) out).2 = Some (out ++ d).
Proof.
  revert b1 d out. induction fuel as [|fuel IH]; intros b1 d out Hf.
  { destruct d; [simpl; by rewrite app_nil_r | simpl in Hf; lia]. }
  cbn [write_spool_range]. destruct (length d) as [|n] eqn:Hd; [destruct d; [simpl; by rewrite app_nil_r | done]|].
  set (k := Nat.min (S n) (Z.to_nat 65536)). rewrite file_read_exact_at by lia.
  specialize (IH (b1 ++ take k d) (drop k d) (out ++ take k d)). rewrite length_drop, length_app, length_take, Hd in IH.
  replace (Nat.min k (S n)) with k in IH by lia. rewrite <- !app_assoc in IH. rewrite (app_assoc (take k d) (drop k d) b2) in IH.
  rewrite !take_drop in IH. apply IH. lia.
Qed.

(** Both ways of reading a region give its bytes. *)
Lemma read_region files i f b1 d b2 :
  files !! i = Some f -> contents f = b1 ++ d ++ b2 ->
  (read_all files (Spool i (zlen b1) (zlen d))).2 = Some d /\ (write_to files (Spool i (zlen b1) (zlen d))).2 = Some d.
Proof.
  intros Hf Hc. unfold read_all, write_to, write_range, seek. cbn [file_len]. rewrite Hf, Hc, Z.add_0_r, !Nat2Z.id. split.
  - rewrite file_read_exact_at by done. cbn [snd]. by rewrite firstn_all.
  - pose proof (write_spool_range_exact (length d) b1 d b2 [] ltac:(lia)) as Hw.
    by destruct (write_spool_range _ _ _ _).
Qed.

(** A read between two writes moves the position the next write starts at: the
    third region lands on the second. *)
Example read_moves_the_spool :
  let '(files, s) := spool_new ∅ 0 in
  let '(files, s, first) := spool_write_data files s [x61; x62] in
  let '(files, s, second) := spool_write_data files s [x63; x64] in
  let files := (read_all files first).1 in
  let '(files, s, third) := spool_write_data files s [x65; x66] in
  (read_all files second).2 = Some [x65; x66] /\ (read_all files third).2 = None.
Proof. vm_compute. done. Qed.

(** ** Theorems *)

(** Inserting a node in a tree does exactly that. A refused insertion
    leaves the tree as it was, and is refused only for a malformed path, a
    component that is not a directory or a directory at the place of a node
    that is not one; an accepted one puts the node at its path, creates the
    missing directories above it, keeps the entries below a directory that
    was there, and leaves every other path alone. *)
Lemma tree_insert_exact t bytes node :
  match tree_insert t bytes node with
  | (t', Ok _) => exists p, split_path bytes = Ok p /\ ~ blocked (entries (root t)) p node
      /\ forall q, q <> [] -> shape <$> node_at (entries (root t')) q = inserted (entries (root t)) p node q
  | (t', Err e) => t' = t /\ (split_path bytes = Err e
      \/ exists p, split_path bytes = Ok p /\ blocked (entries (root t)) p node)
  end.
Proof.
  unfold tree_insert. destruct (split_path bytes) as [p|e] eqn:Hs; [|by split; [|left]].
  assert (Hp : p <> []).
  { intros ->. unfold split_path in Hs. destruct (path_components bytes); [done|]. by destruct (existsb _ _). }
  destruct (insert_components (root t) p node) as [d [[]|e]] eqn:Hins.
  - exists p. split_and!; [done | by eapply insert_accepted |]. intros q Hq. by apply insert_effect.
  - destruct (insert_refused _ _ _ _ _ Hp Hins) as [-> Hb]. split; [by destruct t | right; by exists p].
Qed.
