(* ===== verification/ImageMerge.v ===== *)
(** * Image layers: merging

    The second half of [crates/image/lib/tree/model.rs]: [merge_layer], which
    stacks one layer on a tree, and [merge_layers_with_provenance], which
    flattens a stack of layers and remembers the layer of each file.  Both are
    compared with overlay resolution: what a path shows is decided by the
    topmost layer that says anything about it. *)

From S2P Require Import Prelude Text ImageTree.
From Stdlib Require Import Strings.Byte.

(** ** Definitions *)

Definition is_whiteout_device (node : TreeNode) : bool :=
  match node with
  | CharDevice dev => (major dev =? WHITEOUT_MAJOR) && (minor dev =? WHITEOUT_MINOR)
  | _ => false
  end.

Definition is_opaque (x : Xattr) : bool :=
  bool_decide (xname x = OPAQUE_XATTR_NAME) && bool_decide (xvalue x = OPAQUE_XATTR_VALUE).
Definition has_opaque_xattr (dir : DirectoryNode) : bool := existsb is_opaque (xattrs dir).

(** One round of the loop of [merge_directory]: [layer_node] is the layer's
    entry [name], [base] the entries of the directory below. *)
Fixpoint merge_entry (layer_node : TreeNode) (name : key) (base : gmap key TreeNode) : gmap key TreeNode :=
  if is_whiteout_device layer_node then delete name base else
  match layer_node with
  | Directory layer_dir =>
      match base !! name with
      | Some (Directory base_dir) =>
          let below := if has_opaque_xattr layer_dir then ∅ else entries base_dir in
          <[name := Directory (mkDir (metadata layer_dir) (xattrs layer_dir)
              (map_fold (fun n child b => merge_entry child n b) below (entries layer_dir)))]> base
      | _ => <[name := Directory layer_dir]> base
      end
  | other => <[name := other]> base
  end.

Definition merge_entries (base layer : gmap key TreeNode) : gmap key TreeNode :=
  map_fold (fun n child b => merge_entry child n b) base layer.
Definition merge_directory (base layer : DirectoryNode) : DirectoryNode :=
  mkDir (metadata base) (xattrs base) (merge_entries (entries base) (entries layer)).
Definition merge_layer (t layer : FileTree) : FileTree :=
  refresh_regular_nlinks (mkTree (merge_directory (root t) (root layer))).

(** [Path::join] of "." changes nothing but an empty path. *)
Definition path_join (p : path) (name : key) : path :=
  if bool_decide (name = [x2e]) && negb (bool_decide (p = [])) then p else p ++ [name].
Abbreviation provenances := (gmap path nat).
(** [provenance.retain(|k, _| !k.starts_with(p))]. *)
Definition retain_outside (p : path) (provenance : provenances) : provenances :=
  filter (fun kv => ~ p `prefix_of` kv.1) provenance.

Fixpoint record_node (layer_idx : nat) (node : TreeNode) (p : path) (provenance : provenances) : provenances :=
  match node with
  | Directory dir =>
      map_fold (fun name child prov => record_node layer_idx child (path_join p name) prov) provenance (entries dir)
  | _ => <[p := layer_idx]> provenance
  end.
Definition record_provenance_recursive (dir : DirectoryNode) (layer_idx : nat) (p : path) (provenance : provenances)
    : provenances :=
  map_fold (fun name child prov => record_node layer_idx child (path_join p name) prov) provenance (entries dir).

Fixpoint merge_entry_with_provenance (layer_idx : nat) (layer_node : TreeNode) (current_path : path) (name : key)
    (st : gmap key TreeNode * provenances) : gmap key TreeNode * provenances :=
  let child_path := path_join current_path name in
  let '(base, provenance) := st in
  if is_whiteout_device layer_node then (delete name base, retain_outside child_path provenance) else
  match layer_node with
  | Directory layer_dir =>
      let opaque := has_opaque_xattr layer_dir in
      match base !! name with
      | Some (Directory base_dir) =>
          let provenance := if opaque then retain_outside child_path provenance else provenance in
          let below := if opaque then ∅ else entries base_dir in
          let '(es, provenance) :=
            map_fold (fun n child st => merge_entry_with_provenance layer_idx child child_path n st)
              (below, provenance) (entries layer_dir) in
          (<[name := Directory (mkDir (metadata layer_dir) (xattrs layer_dir) es)]> base, provenance)
      | _ =>
          let provenance := retain_outside child_path provenance in
          let provenance := record_provenance_recursive layer_dir layer_idx child_path provenance in
          (<[name := Directory layer_dir]> base, provenance)
      end
  | other => (<[name := other]> base, <[child_path := layer_idx]> provenance)
  end.

Definition merge_entries_with_provenance (layer_idx : nat) (current_path : path)
    (st : gmap key TreeNode * provenances) (layer : gmap key TreeNode) : gmap key TreeNode * provenances :=
  map_fold (fun n child st => merge_entry_with_provenance layer_idx child current_path n st) st layer.

Definition merge_directory_with_provenance (base layer : DirectoryNode) (layer_idx : nat) (current_path : path)
    (provenance : provenances) : DirectoryNode * provenances :=
  let '(es, provenance) :=
    merge_entries_with_provenance layer_idx current_path (entries base, provenance) (entries layer) in
  (mkDir (metadata base) (xattrs base) es, provenance).

Definition without_opaque (xs : list Xattr) : list Xattr := List.filter (fun x => negb (is_opaque x)) xs.
Fixpoint strip_opaque (node : TreeNode) : TreeNode :=
  match node with
  | Directory dir => Directory (mkDir (metadata dir) (without_opaque (xattrs dir)) (strip_opaque <$> entries dir))
  | other => other
  end.
Definition strip_opaque_xattrs (dir : DirectoryNode) : DirectoryNode :=
  mkDir (metadata dir) (without_opaque (xattrs dir)) (strip_opaque <$> entries dir).

(** The [for] loop over the layers, bottom to top. *)
Fixpoint merge_layers_from (layer_idx : nat) (merged : DirectoryNode) (provenance : provenances) (layers : list FileTree)
    : DirectoryNode * provenances :=
  match layers with
  | [] => (merged, provenance)
  | layer :: rest =>
      let '(merged, provenance) := merge_directory_with_provenance merged (root layer) layer_idx [] provenance in
      merge_layers_from (S layer_idx) merged provenance rest
  end.

Definition merge_layers_with_provenance (layers : list FileTree) : FileTree * provenances :=
  let '(merged, provenance) := merge_layers_from 0 (root new_tree) ∅ layers in
  (refresh_regular_nlinks (mkTree (strip_opaque_xattrs merged)), provenance).

(** ** Overlay resolution *)

(** What a path shows: the attributes of a directory, without the overlay
    marker, or a node that is not one.  Link counts are not part of it. *)
Inductive view := VDir (m : InodeMetadata) (xs : list Xattr) | VNode (n : TreeNode).

Definition view_of (node : TreeNode) : view :=
  match node with
  | Directory dir => VDir (metadata dir) (without_opaque (xattrs dir))
  | RegularFile f => VNode (RegularFile (mkRegular (id f) (file_metadata f) (file_xattrs f) (data f) 0))
  | other => VNode other
  end.

(** A whiteout shows nothing. *)
Definition shown (node : TreeNode) : option view :=
  if is_whiteout_device node then None else Some (view_of node).
Definition shows (es : gmap key TreeNode) (p : path) : option view := node_at es p ≫= shown.

(** A layer hides a path below an entry of it that is not a directory, or below an
    opaque directory. *)
Fixpoint hides (es : gmap key TreeNode) (p : path) : bool :=
  match p with
  | name :: ((_ :: _) as rest) =>
      match es !! name with
      | Some (Directory dir) => has_opaque_xattr dir || hides (entries dir) rest
      | Some _ => true
      | None => false
      end
  | _ => false
  end.

(** The layers from top to bottom, each with its index. *)
Fixpoint resolve (layers : list (nat * gmap key TreeNode)) (p : path) : option (nat * view) :=
  match layers with
  | [] => None
  | (i, es) :: below =>
      match node_at es p with
      | Some node => (fun v => (i, v)) <$> shown node
      | None => if hides es p then None else resolve below p
      end
  end.
Definition indexed (layers : list FileTree) : list (nat * gmap key TreeNode) :=
  reverse (imap (fun i layer => (i, entries (root layer))) layers).

(** ** One layer *)

Lemma merge_entry_ne node n k base : k <> n -> merge_entry node n base !! k = base !! k.
Proof.
  intros Hk. destruct node as [|dir| | | | |]; cbn [merge_entry is_whiteout_device]; try (by rewrite lookup_insert_ne).
  - destruct (base !! n) as [[]|]; by rewrite lookup_insert_ne.
  - destruct (_ && _); [by rewrite lookup_delete_ne | by rewrite lookup_insert_ne].
Qed.

(** What the entry becomes. *)
Definition merged_entry (node : TreeNode) (below : option TreeNode) : option TreeNode :=
  if is_whiteout_device node then None else
  match node, below with
  | Directory layer_dir, Some (Directory base_dir) =>
      Some (Directory (mkDir (metadata layer_dir) (xattrs layer_dir)
        (merge_entries (if has_opaque_xattr layer_dir then ∅ else entries base_dir) (entries layer_dir))))
  | _, _ => Some node
  end.

Lemma merge_entry_eq node n base : merge_entry node n base !! n = merged_entry node (base !! n).
Proof.
  destruct node as [|dir| | | | |]; cbn [merge_entry is_whiteout_device]; unfold merged_entry; cbn [is_whiteout_device];
    try (by rewrite lookup_insert_eq).
  - destruct (base !! n) as [[]|]; by rewrite lookup_insert_eq.
  - destruct (_ && _); [by rewrite lookup_delete_eq | by rewrite lookup_insert_eq].
Qed.

Lemma merge_entries_lookup base layer k :
  merge_entries base layer !! k = match layer !! k with Some node => merged_entry node (base !! k) | None => base !! k end.
Proof.
  unfold merge_entries. rewrite (fold_local (fun n child b => merge_entry child n b) (fun k b => b !! k)).
  - destruct (layer !! k); [apply merge_entry_eq | done].
  - intros. by apply merge_entry_ne.
  - intros n a s s' Heq. by rewrite !merge_entry_eq, Heq.
Qed.

Lemma hides_cons es name q :
  q <> [] -> hides es (name :: q) =
    match es !! name with Some (Directory dir) => has_opaque_xattr dir || hides (entries dir) q | Some _ => true | None => false end.
Proof. by destruct q. Qed.
Lemma shows_cons es name q :
  q <> [] -> shows es (name :: q) = match es !! name with Some (Directory dir) => shows (entries dir) q | _ => None end.
Proof. intros Hq. unfold shows. rewrite node_at_cons by done. by destruct (es !! name) as [[]|]. Qed.

Lemma shows_merge base layer p :
  shows (merge_entries base layer) p =
    match node_at layer p with
    | Some node => shown node
    | None => if hides layer p then None else shows base p
    end.
Proof.
  revert base layer. induction p as [|name q IH]; intros base layer; [done|].
  destruct (decide (q = [])) as [->|Hq].
  - unfold shows. cbn [node_at hides]. rewrite merge_entries_lookup. destruct (layer !! name) as [node|]; [|done].
    unfold merged_entry, shown. destruct (is_whiteout_device node) eqn:Hw; [done|].
    destruct node; simpl in Hw |- *; rewrite ?Hw; try done. by destruct (base !! name) as [[]|].
  - rewrite !shows_cons, node_at_cons, hides_cons, merge_entries_lookup by done.
    destruct (layer !! name) as [node|]; [|done]. unfold merged_entry.
    destruct node as [|dir| |dev| | |]; try (by destruct (base !! name) as [[]|]).
    + cbn [is_whiteout_device]. destruct (base !! name) as [[|bdir| | | | |]|].
      2:{ cbn [entries]. rewrite IH. destruct (node_at (entries dir) q); [done|]. destruct (has_opaque_xattr dir), (hides _ q); try done.
          simpl. unfold shows. rewrite node_at_empty. done. }
      all: unfold shows; destruct (node_at (entries dir) q); [done|]; by destruct (_ || _).
    + by destruct (is_whiteout_device _), (base !! name) as [[]|].
Qed.

(** ** The tree of the two merges *)

Lemma merge_entry_tree i node cur name st :
  (merge_entry_with_provenance i node cur name st).1 = merge_entry node name st.1.
Proof.
  revert cur name st. induction node as [node IH] using tree_ind. intros cur name [es prov].
  destruct node as [|dir| | | | |]; cbn [merge_entry merge_entry_with_provenance is_whiteout_device fst]; try done.
  - destruct (es !! name) as [[|bdir| | | | |]|]; try done.
    destruct (map_fold _ _ _) as [es' prov'] eqn:Hf. cbn [fst]. do 3 f_equal.
    change es' with (es', prov').1. rewrite <- Hf.
    apply (fold_morph fst). intros k child st Hk. by apply (IH k).
  - by destruct (_ && _).
Qed.

Lemma merge_entries_tree i cur st layer :
  (merge_entries_with_provenance i cur st layer).1 = merge_entries st.1 layer.
Proof. apply (fold_morph fst). intros. apply merge_entry_tree. Qed.

(** ** Nothing shown changes when link counts are refreshed and markers stripped *)

Lemma shows_fmap (f : TreeNode -> TreeNode) es p :
  (forall node, shown (f node) = shown node) ->
  (forall node, match node, f node with
                | Directory d, Directory d' => entries d' = f <$> entries d
                | Directory _, _ | _, Directory _ => False | _, _ => True end) ->
  shows (f <$> es) p = shows es p.
Proof.
  intros Hs Hd. unfold shows. rewrite node_at_fmap by done. destruct (node_at es p); [apply Hs | done].
Qed.

Lemma without_opaque_idem xs : without_opaque (without_opaque xs) = without_opaque xs.
Proof.
  unfold without_opaque. induction xs as [|x xs IH]; [done|]. simpl.
  destruct (negb (is_opaque x)) eqn:Hx; simpl; rewrite ?Hx; congruence.
Qed.

Lemma shows_strip es p : shows (strip_opaque <$> es) p = shows es p.
Proof.
  apply shows_fmap; [|by intros []]. intros []; try done. unfold shown. simpl. by rewrite without_opaque_idem.
Qed.
Lemma shows_refresh counts es p : shows (refresh_nlink counts <$> es) p = shows es p.
Proof. apply shows_fmap; [by intros [] | by intros []]. Qed.

(** ** Provenance of one layer *)

Implicit Types (es layer : gmap key TreeNode) (prov : provenances) (cur : path).

Definition plain es : Prop := forall p name, node_at es (p ++ [name]) <> None -> name <> [x2e].

Lemma plain_name es name node : plain es -> es !! name = Some node -> name <> [x2e].
Proof. intros Hp Hn. apply (Hp [] name). simpl. by rewrite Hn. Qed.
Lemma plain_children es name node : plain es -> es !! name = Some node -> plain (children node).
Proof.
  intros Hp Hn p n Hat. apply (Hp (name :: p) n). rewrite <- app_comm_cons, node_at_under, Hn. simpl.
  by destruct p.
Qed.

Fixpoint plain_node (node : TreeNode) : bool :=
  match node with
  | Directory dir => map_fold (fun n child ok => negb (bool_decide (n = [x2e])) && plain_node child && ok) true (entries dir)
  | _ => true
  end.

Lemma plain_check dir : plain_node (Directory dir) = true -> plain (entries dir).
Proof.
  intros Hd p. revert dir Hd. induction p as [|k p IH]; intros dir Hd name Hat.
  all: assert (Hall : forall k child, entries dir !! k = Some child -> k <> [x2e] /\ plain_node child = true);
    [revert Hd; cbn [plain_node]; apply (map_fold_weak_ind (fun ok (m : gmap key TreeNode) => ok = true ->
       forall k child, m !! k = Some child -> k <> [x2e] /\ plain_node child = true));
       [intros _ k' child; by rewrite lookup_empty|];
       intros k' child m r _ IHm [[Hk Hc]%andb_true_iff Hr]%andb_true_iff j ch;
       rewrite lookup_insert_Some; intros [[<- <-]|[_ Hj]]; [|by apply IHm];
       split; [|done]; by apply negb_true_iff, bool_decide_eq_false in Hk|].
  - simpl in Hat. destruct (entries dir !! name) as [child|] eqn:Hn; [|done]. by apply (Hall _ _ Hn).
  - rewrite <- app_comm_cons, node_at_under in Hat. destruct (entries dir !! k) as [child|] eqn:Hk; [|done]. simpl in Hat.
    destruct (Hall _ _ Hk) as [_ Hc]. assert (Hat' : node_at (children child) (p ++ [name]) <> None) by (by destruct p).
    destruct child as [|cdir| | | | |]; cbn [children] in Hat'; try (by rewrite node_at_empty in Hat'). by apply (IH cdir Hc name).
Qed.

Lemma path_join_plain p name : name <> [x2e] -> path_join p name = p ++ [name].
Proof. intros Hn. unfold path_join. by rewrite bool_decide_eq_false_2. Qed.

Lemma retain_outside_lookup p prov q : ~ p `prefix_of` q -> retain_outside p prov !! q = prov !! q.
Proof.
  intros Hq. unfold retain_outside. destruct (prov !! q) as [i|] eqn:Hp.
  - by apply map_lookup_filter_Some.
  - apply map_lookup_filter_None. by left.
Qed.

(** Agreement below [cur ++ [k]], and away from it. *)
Definition prov_below cur (k : key) prov prov' : Prop := forall q, prov' !! (cur ++ k :: q) = prov !! (cur ++ k :: q).
Definition prov_away cur prov prov' : Prop := forall q, ~ cur `prefix_of` q -> prov' !! q = prov !! q.

#[local] Instance prov_below_preorder cur k : PreOrder (prov_below cur k).
Proof. split; [done|]. intros x y z Hxy Hyz q. by rewrite Hyz. Qed.
#[local] Instance prov_away_preorder cur : PreOrder (prov_away cur).
Proof. split; [done|]. intros x y z Hxy Hyz q Hq. by rewrite Hyz, Hxy. Qed.

Lemma away_below cur n k prov prov' : k <> n -> prov_away (cur ++ [n]) prov prov' -> prov_below cur k prov prov'.
Proof.
  intros Hk Haway q. apply Haway. intros [r Hr]. rewrite <- app_assoc in Hr. apply app_inv_head in Hr. by simplify_eq/=.
Qed.
Lemma away_wider cur n prov prov' : prov_away (cur ++ [n]) prov prov' -> prov_away cur prov prov'.
Proof. intros Haway q Hq. apply Haway. intros [r ->]. apply Hq. rewrite <- app_assoc. by eexists. Qed.

Lemma record_node_spec i node p prov :
  plain (children node) ->
  prov_away p prov (record_node i node p prov)
  /\ forall q leaf, node_under node q = Some leaf -> (forall d, leaf <> Directory d) -> record_node i node p prov !! (p ++ q) = Some i.
Proof.
  revert p prov. induction node as [node IH] using tree_ind. intros p prov Hplain.
  assert (Hleaf : (forall d, node <> Directory d) -> record_node i node p prov = <[p := i]> prov).
  { intros Hd. destruct node; try done. by destruct (Hd dir). }
  destruct node as [|dir| | | | |]; cycle 1.
  2-7: rewrite Hleaf by done; split;
    [intros q Hq; apply lookup_insert_ne; intros ->; by apply Hq
    | intros [|k q] leaf Hl _; [rewrite app_nil_r; apply lookup_insert_eq | destruct q; simpl in Hl; by rewrite lookup_empty in Hl]].
  clear Hleaf. cbn [record_node]. cbn [children] in *.
  assert (Hstep : forall n c prov, entries dir !! n = Some c -> prov_away (p ++ [n]) prov (record_node i c (path_join p n) prov)).
  { intros n c pr Hc. rewrite path_join_plain by (by eapply plain_name). apply (IH n c Hc). by eapply plain_children. }
  split; [apply (fold_keeps _ _); intros; eapply away_wider; by apply Hstep|].
  intros [|k q] leaf Hl Hd; [simpl in Hl; simplify_eq; by destruct (Hd dir)|].
  cbn [node_under children] in Hl. rewrite node_at_under in Hl. destruct (entries dir !! k) as [c|] eqn:Hk; [|done]. simpl in Hl.
  pose proof (fold_visits (fun name child pr => record_node i child (path_join p name) pr) (prov_below p) (entries dir) prov k) as Hv.
  rewrite Hk in Hv. destruct Hv as (s0 & _ & Hs).
  { apply _. }
  { intros n a s Ha Hkn. by apply (away_below p n); [|apply Hstep]. }
  rewrite Hs, path_join_plain by (by eapply plain_name). rewrite (cons_middle k p q), app_assoc.
  apply (IH k c Hk) with (leaf := leaf); [by eapply plain_children | done | done].
Qed.

(** The two halves of a merge state at an entry. *)
Definition same_at cur (k : key) (s s' : gmap key TreeNode * provenances) : Prop :=
  s'.1 !! k = s.1 !! k /\ prov_below cur k s.2 s'.2.
#[local] Instance same_at_preorder cur k : PreOrder (same_at cur k).
Proof.
  split; [done|]. intros x y z [H1 H2] [H3 H4]. split; [congruence | by etrans].
Qed.

Definition state_away cur (s s' : gmap key TreeNode * provenances) : Prop := prov_away cur s.2 s'.2.
#[local] Instance state_away_preorder cur : PreOrder (state_away cur).
Proof. split; [intros s; apply prov_away_preorder|]. intros x y z Hxy Hyz. by eapply prov_away_preorder. Qed.

Definition is_leaf (node : TreeNode) : Prop := forall d, node <> Directory d.

(** What one round of the loop does: nothing outside its entry, and below it
    every leaf left in the tree has the layer's index if the layer holds the path
    and keeps its own otherwise. *)
Definition round_ok (i : nat) (node : TreeNode) cur (name : key) (s s' : gmap key TreeNode * provenances) : Prop :=
  prov_away (cur ++ [name]) s.2 s'.2
  /\ forall q leaf, s'.1 !! name ≫= (fun n => node_under n q) = Some leaf -> is_leaf leaf ->
       s'.2 !! (cur ++ name :: q) =
         match node_under node q with Some _ => Some i | None => s.2 !! (cur ++ name :: q) end.

Lemma leaf_round i node cur name es prov :
  is_leaf node -> round_ok i node cur name (es, prov) (<[name := node]> es, <[cur ++ [name] := i]> prov).
Proof.
  intros Hl. split; cbn [fst snd].
  - intros q Hq. apply lookup_insert_ne. intros <-. by apply Hq.
  - intros q leaf Hat Hleaf. rewrite lookup_insert_eq in Hat. simpl in Hat. destruct q as [|k q].
    + simpl. apply lookup_insert_eq.
    + destruct node; try (by destruct (Hl dir)); destruct q; simpl in Hat; by rewrite lookup_empty in Hat.
Qed.

Lemma whiteout_round i node cur name es prov :
  round_ok i node cur name (es, prov) (delete name es, retain_outside (cur ++ [name]) prov).
Proof.
  split; cbn [fst snd]; [intros q Hq; by apply retain_outside_lookup|].
  intros q leaf. by rewrite lookup_delete_eq.
Qed.

Lemma new_directory_round i dir cur name es prov :
  plain (entries dir) ->
  round_ok i (Directory dir) cur name (es, prov)
    (<[name := Directory dir]> es, record_provenance_recursive dir i (cur ++ [name]) (retain_outside (cur ++ [name]) prov)).
Proof.
  intros Hp. destruct (record_node_spec i (Directory dir) (cur ++ [name]) (retain_outside (cur ++ [name]) prov)) as [Ha Hl]; [done|].
  split; cbn [fst snd].
  - intros q Hq. rewrite <- (retain_outside_lookup (cur ++ [name]) prov q Hq). by apply Ha.
  - intros q leaf Hat Hleaf. rewrite lookup_insert_eq in Hat. cbn [mbind option_bind] in Hat. rewrite Hat.
    rewrite (cons_middle name cur q), app_assoc. by apply (Hl q leaf).
Qed.

(** The recursive case, given the rounds of the entries below. *)
Lemma directory_round i dir bdir cur name es prov :
  es !! name = Some (Directory bdir) -> plain (entries dir) -> name <> [x2e] ->
  (forall k c s, entries dir !! k = Some c ->
     round_ok i c (cur ++ [name]) k s (merge_entry_with_provenance i c (cur ++ [name]) k s)) ->
  round_ok i (Directory dir) cur name (es, prov) (merge_entry_with_provenance i (Directory dir) cur name (es, prov)).
Proof.
  intros Hes Hplain Hname IH. cbn [merge_entry_with_provenance is_whiteout_device]. rewrite Hes, path_join_plain by done.
  set (below := if has_opaque_xattr dir then ∅ else entries bdir).
  set (prov1 := if has_opaque_xattr dir then retain_outside (cur ++ [name]) prov else prov).
  set (f := fun n child st => merge_entry_with_provenance i child (cur ++ [name]) n st).
  destruct (map_fold f (below, prov1) (entries dir)) as [es2 prov2] eqn:Hf.
  assert (Hes2 : es2 = merge_entries below (entries dir)).
  { change es2 with (es2, prov2).1. rewrite <- Hf. apply (merge_entries_tree i (cur ++ [name]) (below, prov1)). }
  assert (Haway1 : prov_away (cur ++ [name]) prov prov1).
  { intros q Hq. unfold prov1. destruct (has_opaque_xattr dir); [by apply retain_outside_lookup | done]. }
  split; cbn [fst snd].
  - assert (Hk : prov_away (cur ++ [name]) (below, prov1).2 (map_fold f (below, prov1) (entries dir)).2).
    { apply (fold_keeps f (state_away (cur ++ [name]))).
      intros n a s Ha. eapply away_wider. apply (IH n a s Ha). }
    rewrite Hf in Hk. by etrans.
  - intros [|k q] leaf Hat Hleaf; rewrite lookup_insert_eq in Hat; cbn [mbind option_bind] in Hat.
    { simpl in Hat. simplify_eq. by destruct (Hleaf (mkDir (metadata dir) (xattrs dir) (merge_entries below (entries dir)))). }
    cbn [node_under children entries] in Hat |- *. rewrite node_at_under in Hat |- *.
    pose proof (fold_visits f (same_at (cur ++ [name])) (entries dir) (below, prov1) k _) as Hv.
    rewrite Hf in Hv. rewrite (cons_middle name cur (k :: q)), !app_assoc.
    assert (Hopaque : below !! k <> None -> prov1 = prov).
    { unfold below, prov1. destruct (has_opaque_xattr dir); [by rewrite lookup_empty | done]. }
    assert (Hother : forall n a s, entries dir !! n = Some a -> k <> n -> same_at (cur ++ [name]) k s (f n a s)).
    { intros n a s Ha Hkn. split; [unfold f; rewrite merge_entry_tree; by apply merge_entry_ne|].
      apply (away_below _ n); [done|]. apply (IH n a s Ha). }
    specialize (Hv Hother). destruct (entries dir !! k) as [c|] eqn:Hk; cbn [mbind option_bind] in *.
    + destruct Hv as ([es0 prov0] & [He0 Hp0] & [He1 Hp1]). cbn [fst snd] in *.
      rewrite He1 in Hat. rewrite Hp1. etrans; [exact (proj2 (IH k c (es0, prov0) Hk) q leaf Hat Hleaf)|].
      destruct (node_under c q) eqn:Hc; [done|]. cbn [snd]. rewrite Hp0, Hopaque; [done|].
      intros Hb. rewrite <- He0 in Hb. unfold f in Hat. rewrite merge_entry_tree, merge_entry_eq in Hat. cbn [fst] in Hat.
      rewrite Hb in Hat. unfold merged_entry in Hat. destruct (is_whiteout_device c); [done|].
      destruct c; simpl in Hat; congruence.
    + destruct Hv as [He1 Hp1]. cbn [fst snd] in *. rewrite Hp1, Hopaque; [done|]. rewrite <- He1. by destruct (es2 !! k).
Qed.

Lemma merge_round i node cur name s :
  plain (children node) -> name <> [x2e] -> round_ok i node cur name s (merge_entry_with_provenance i node cur name s).
Proof.
  revert cur name s. induction node as [node IH] using tree_ind. intros cur name [es prov] Hplain Hname.
  destruct node as [|dir| | | | |]; cycle 1.
  2-7: cbn [merge_entry_with_provenance]; rewrite path_join_plain by done;
    destruct (is_whiteout_device _); (apply whiteout_round || by apply leaf_round).
  cbn [children] in *.
  destruct (es !! name) as [[|bdir| | | | |]|] eqn:Hes.
  2:{ apply (directory_round i dir bdir); [done..|]. intros k c s Hk. apply (IH k c Hk);
        [by eapply plain_children | by eapply plain_name]. }
  all: cbn [merge_entry_with_provenance is_whiteout_device]; rewrite Hes, path_join_plain by done; by apply new_directory_round.
Qed.

(** ** A stack of layers *)

Lemma merge_layers_snoc i merged prov layers (layer : FileTree) :
  merge_layers_from i merged prov (layers ++ [layer]) =
    (let '(m, pr) := merge_layers_from i merged prov layers in
     merge_directory_with_provenance m (root layer) (i + length layers) [] pr).
Proof.
  revert i merged prov. induction layers as [|l layers IH]; intros i merged prov; cbn [merge_layers_from app].
  - rewrite Nat.add_0_r. by destruct (merge_directory_with_provenance _ _ _ _ _).
  - destruct (merge_directory_with_provenance merged (root l) i [] prov) as [m pr]. rewrite IH. simpl length.
    by rewrite <- Nat.add_succ_comm.
Qed.

Lemma indexed_snoc layers (layer : FileTree) : indexed (layers ++ [layer]) = (length layers, entries (root layer)) :: indexed layers.
Proof. unfold indexed. rewrite imap_app, reverse_app. simpl. by rewrite Nat.add_0_r. Qed.

Definition merged_layers (layers : list FileTree) : DirectoryNode * provenances := merge_layers_from 0 (root new_tree) ∅ layers.

Lemma merged_layers_snoc layers (layer : FileTree) :
  merged_layers (layers ++ [layer]) =
    let st := merge_entries_with_provenance (length layers) []
                (entries (merged_layers layers).1, (merged_layers layers).2) (entries (root layer)) in
    (mkDir (metadata (merged_layers layers).1) (xattrs (merged_layers layers).1) st.1, st.2).
Proof.
  unfold merged_layers. rewrite merge_layers_snoc. destruct (merge_layers_from _ _ _ layers) as [m pr].
  unfold merge_directory_with_provenance. simpl. by destruct (merge_entries_with_provenance _ _ _ _).
Qed.

Lemma merged_layers_show layers p : shows (entries (merged_layers layers).1) p = snd <$> resolve (indexed layers) p.
Proof.
  induction layers as [|layer layers IH] using rev_ind.
  - unfold shows. simpl. by rewrite node_at_empty.
  - rewrite merged_layers_snoc, indexed_snoc. cbv zeta. cbn [fst entries resolve].
    rewrite merge_entries_tree. cbn [fst]. rewrite shows_merge, IH.
    destruct (node_at (entries (root layer)) p) as [node|]; [by destruct (shown node) | by destruct (hides _ p)].
Qed.

Lemma layer_provenance i prov es layer p leaf :
  plain layer -> node_at (merge_entries es layer) p = Some leaf -> is_leaf leaf ->
  (merge_entries_with_provenance i [] (es, prov) layer).2 !! p =
    match node_at layer p with Some _ => Some i | None => prov !! p end.
Proof.
  intros Hplain Hat Hleaf. destruct p as [|name q]; [done|]. rewrite !node_at_under in *.
  set (f := fun n child st => merge_entry_with_provenance i child [] n st).
  pose proof (fold_visits f (same_at []) layer (es, prov) name _) as Hv.
  assert (Hother : forall n a s, layer !! n = Some a -> name <> n -> same_at [] name s (f n a s)).
  { intros n a s Ha Hne. split; [unfold f; rewrite merge_entry_tree; by apply merge_entry_ne|].
    apply (away_below [] n); [done|]. apply merge_round; [by eapply plain_children | by eapply plain_name]. }
  specialize (Hv Hother). change (map_fold f (es, prov) layer) with (merge_entries_with_provenance i [] (es, prov) layer) in Hv.
  rewrite <- (merge_entries_tree i [] (es, prov)) in Hat.
  destruct (layer !! name) as [c|] eqn:Hc; cbn [mbind option_bind]; [|by destruct Hv as [_ Hp]; apply Hp].
  destruct Hv as ([es0 prov0] & [_ Hp0] & [He1 Hp1]). cbn [fst snd] in *. specialize (Hp1 q). specialize (Hp0 q).
  cbn [app] in *. rewrite He1 in Hat. rewrite Hp1.
  destruct (merge_round i c [] name (es0, prov0)) as [_ Hr]; [by eapply plain_children | by eapply plain_name|].
  etrans; [exact (Hr q leaf Hat Hleaf)|]. cbn [app snd]. by destruct (node_under c q).
Qed.

Lemma shown_leaf es p n : shows es p = Some (VNode n) -> exists leaf, node_at es p = Some leaf /\ is_leaf leaf.
Proof.
  unfold shows. destruct (node_at es p) as [node|]; [|done]. intros Hs. exists node. split; [done|].
  intros d ->. done.
Qed.

Lemma merged_layers_provenance layers p i n :
  Forall (fun l => plain (entries (root l))) layers ->
  resolve (indexed layers) p = Some (i, VNode n) -> (merged_layers layers).2 !! p = Some i.
Proof.
  revert i n. induction layers as [|layer layers IH] using rev_ind; intros i n Hplain Hres; [done|].
  apply Forall_app in Hplain as [Hplain [Hlayer _]%Forall_cons].
  pose proof (merged_layers_show (layers ++ [layer]) p) as Hshow. rewrite Hres in Hshow. simpl in Hshow.
  rewrite merged_layers_snoc in Hshow |- *. cbv zeta in *. cbn [fst snd entries] in *.
  destruct (shown_leaf _ _ _ Hshow) as (leaf & Hat & Hleaf). rewrite merge_entries_tree in Hat. cbn [fst] in Hat.
  rewrite (layer_provenance _ _ _ _ _ leaf) by done. rewrite indexed_snoc in Hres. cbn [resolve] in Hres.
  destruct (node_at (entries (root layer)) p) as [node|].
  - destruct (shown node); by simplify_eq/=.
  - destruct (hides _ p); [done|]. by eapply IH.
Qed.

Lemma resolve_top layers p i v :
  resolve (indexed layers) p = Some (i, v) ->
  exists layer : FileTree, layers !! i = Some layer /\ shows (entries (root layer)) p = Some v
    /\ forall j (above : FileTree), (i < j)%nat -> layers !! j = Some above -> node_at (entries (root above)) p = None.
Proof.
  induction layers as [|layer layers IH] using rev_ind; [done|]. rewrite indexed_snoc. cbn [resolve].
  destruct (node_at (entries (root layer)) p) as [node|] eqn:Hn.
  - destruct (shown node) as [w|] eqn:Hw; [|done]. intros [= <- <-]. exists layer. split_and!.
    + by apply list_lookup_middle.
    + unfold shows. by rewrite Hn.
    + intros j above Hj Hl. apply lookup_lt_Some in Hl. rewrite length_app in Hl. simpl in Hl. lia.
  - destruct (hides _ p); [done|]. intros (l & Hl & Hs & Habove)%IH. exists l. split_and!; [by apply lookup_app_l_Some | done|].
    intros j above Hj. rewrite lookup_app_Some. intros [Ha|[Hle Ha]]; [by eapply Habove|].
    apply list_lookup_singleton_Some in Ha as [_ <-]. done.
Qed.

Lemma merged_shows layers p :
  shows (entries (root (merge_layers_with_provenance layers).1)) p = snd <$> resolve (indexed layers) p.
Proof.
  rewrite <- merged_layers_show. unfold merge_layers_with_provenance, merged_layers.
  destruct (merge_layers_from _ _ _ _) as [m pr]. cbn [fst root refresh_regular_nlinks map_entries entries strip_opaque_xattrs].
  by rewrite shows_refresh, shows_strip.
Qed.

Lemma stacked_shows layers p :
  shows (entries (root (foldl merge_layer new_tree layers))) p = snd <$> resolve (indexed layers) p.
Proof.
  induction layers as [|layer layers IH] using rev_ind.
  - unfold shows. simpl. by rewrite node_at_empty.
  - rewrite foldl_snoc, indexed_snoc. unfold merge_layer at 1, refresh_regular_nlinks.
    cbn [root map_entries entries merge_directory resolve]. rewrite shows_refresh, shows_merge, IH.
    destruct (node_at (entries (root layer)) p) as [node|]; [by destruct (shown node) | by destruct (hides _ p)].
Qed.

Lemma strip_clean dir es p : node_at (strip_opaque <$> es) p = Some (Directory dir) -> has_opaque_xattr dir = false.
Proof.
  rewrite node_at_fmap by (by intros []). intros (node & _ & Hd)%fmap_Some. destruct node; try done.
  injection Hd as ->. unfold has_opaque_xattr, without_opaque. cbn [xattrs].
  apply not_true_iff_false. rewrite existsb_exists. intros (x & Hx%filter_In & Ho). destruct Hx as [_ Hx]. by rewrite Ho in Hx.
Qed.

(** ** Theorems *)


(** The provenance map is right for every file of the flattened tree. A
    path that shows anything but a directory has a layer recorded, that layer holds
    exactly what is shown, and no layer above it mentions the path; for
    layers without an entry named ".". *)
Lemma image_provenance_exact layers p n :
  Forall (fun layer : FileTree => plain (entries (root layer))) layers ->
  shows (entries (root (merge_layers_with_provenance layers).1)) p = Some (VNode n) ->
  exists i (layer : FileTree), (merge_layers_with_provenance layers).2 !! p = Some i /\ layers !! i = Some layer
    /\ shows (entries (root layer)) p = Some (VNode n)
    /\ forall j above, (i < j)%nat -> layers !! j = Some above -> node_at (entries (root above)) p = None.
Proof.
  intros Hplain. rewrite merged_shows. intros ([i v] & Hres & Hv)%fmap_Some. simpl in Hv. subst v.
  destruct (resolve_top _ _ _ _ Hres) as (layer & Hl & Hs & Habove). exists i, layer. split_and!; [|done..].
  apply (merged_layers_provenance _ _ _ _ Hplain) in Hres. rewrite <- Hres.
  unfold merge_layers_with_provenance, merged_layers. by destruct (merge_layers_from _ _ _ _).
Qed.

(** Link counts are right after a merge. Every regular file of the
    flattened tree, and of a tree a layer was just stacked on, has as its link
    count the number of entries of that tree that name the same file, as the
    32-bit counter holds it. *)
Lemma image_nlinks_exact layers (t layer : FileTree) p f :
  (node_at (entries (root (merge_layers_with_provenance layers).1)) p = Some (RegularFile f) ->
   nlink f = wrap 32 (links (id f) (Directory (root (merge_layers_with_provenance layers).1))))
  /\ (node_at (entries (root (merge_layer t layer))) p = Some (RegularFile f) ->
      nlink f = wrap 32 (links (id f) (Directory (root (merge_layer t layer))))).
Proof.
  unfold merge_layers_with_provenance, merge_layer. destruct (merge_layers_from _ _ _ _) as [m pr]. cbn [fst].
  split; apply refresh_exact.
Qed.

(** ** Examples *)

Definition demo_file (i : Z) : TreeNode := RegularFile (mkRegular i default_metadata [] (Memory (bytes_of "data")) 1).
Definition demo_dir (es : gmap key TreeNode) : TreeNode := Directory (mkDir default_metadata [] es).
Definition demo_whiteout : TreeNode := CharDevice (mkDevice default_metadata 0 0).
Definition demo_layer (es : gmap key TreeNode) : FileTree := mkTree (mkDir default_metadata [] es).
Definition key_a : key := bytes_of "a".
Definition key_b : key := bytes_of "b".
Definition key_c : key := bytes_of "c".
Definition key_d : key := bytes_of "d".

(** A lower layer with d/a, d/b and c, and an upper one that removes d/a,
    links d/b to a new d/c and replaces c by a directory. *)
Definition demo_layers : list FileTree :=
  [demo_layer {[ key_d := demo_dir {[ key_a := demo_file 1; key_b := demo_file 2 ]}; key_c := demo_file 3 ]};
   demo_layer {[ key_d := demo_dir {[ key_a := demo_whiteout; key_b := demo_file 4; key_c := demo_file 4 ]}; key_c := demo_dir {[ key_b := demo_file 5 ]} ]}].

Lemma image_provenance_exact_witness :
  exists i (layer : FileTree), (merge_layers_with_provenance demo_layers).2 !! [key_d; key_b] = Some i /\ demo_layers !! i = Some layer
    /\ shows (entries (root layer)) [key_d; key_b] = Some (view_of (demo_file 4)).
Proof.
  assert (Hplain : Forall (fun layer : FileTree => plain (entries (root layer))) demo_layers).
  { repeat (apply Forall_cons; split; [apply plain_check; vm_compute; reflexivity|]). apply Forall_nil. exact I. }
  assert (Hs : shows (entries (root (merge_layers_with_provenance demo_layers).1)) [key_d; key_b] = Some (view_of (demo_file 4)))
    by (vm_compute; reflexivity).
  destruct (image_provenance_exact demo_layers [key_d; key_b] _ Hplain Hs) as (i & layer & Hp & Hl & Hv & _).
  exists i, layer. split; [exact Hp | split; [exact Hl | exact Hv]].
Defined.

Lemma demo_shows :
  let es := entries (root (merge_layers_with_provenance demo_layers).1) in
  shows es [key_d; key_a] = None
  /\ shows es [key_d; key_b] = Some (view_of (demo_file 4)) /\ shows es [key_c; key_b] = Some (view_of (demo_file 5))
  /\ (merge_layers_with_provenance demo_layers).2 !! [key_d; key_b] = Some 1%nat.
Proof. vm_compute. done. Qed.

(** A whiteout of a layer stays in the flattened tree when the directory that
    holds it is new. *)
Example new_directory_keeps_whiteout :
  let layers := [demo_layer {[ key_d := demo_dir {[ key_a := demo_whiteout ]} ]}] in
  node_at (entries (root (merge_layers_with_provenance layers).1)) [key_d; key_a] = Some demo_whiteout
  /\ (merge_layers_with_provenance layers).2 !! [key_d; key_a] = Some 0%nat.
Proof. vm_compute. done. Qed.

(** An entry named "." in an upper layer takes over the provenance of a file
    that the lower layer holds. *)
Example dot_entry_takes_provenance :
  let layers := [demo_layer {[ key_d := demo_dir {[ key_a := demo_file 1 ]} ]};
                 demo_layer {[ key_d := demo_dir {[ [x2e] := demo_dir {[ key_a := demo_file 2 ]} ]} ]}] in
  resolve (indexed layers) [key_d; key_a] = Some (0%nat, view_of (demo_file 1))
  /\ (merge_layers_with_provenance layers).2 !! [key_d; key_a] = Some 1%nat.
Proof. vm_compute. done. Qed.
