(* ===== verification/ImageIngest.v ===== *)
(** * Image layers: tar ingestion

    [crates/image/lib/tar/ingest.rs]: a layer's tar stream becomes a
    [FileTree].  The tar library is the list of entries it yields, each with
    the accessors the code calls; the body of an entry is the sequence of pieces
    its reader delivers.  Paths are normalised and limited, whiteout files become
    overlay markers, hard links share contents, and large contents go to the
    spool. *)

From S2P Require Import Prelude Text ImageTree ImageMerge.
From Stdlib Require Import Strings.Byte.

(** ** Constants *)

Definition WHITEOUT_PREFIX : list byte := bytes_of ".wh.".
Definition OPAQUE_WHITEOUT : list byte := bytes_of ".wh..wh..opq".
Definition GZIP_MAGIC : list byte := [x1f; x8b].
Definition ZSTD_MAGIC : list byte := [x28; xb5; x2f; xfd].
Definition ENTRY_READ_CHUNK_SIZE : nat := Z.to_nat (64 * 1024).
Definition SPOOL_WRITE_BUFFER_SIZE : nat := Z.to_nat (1024 * 1024).

(** ** Types *)

Inductive Compression := NoCompression | Gzip | Zstd.

Inductive IngestError :=
| Io | TraversalInTar | PathTooLong | PathTooDeep | FileTooLarge | TotalSizeExceeded | EntryCountExceeded
| SymlinkTargetTooLong | HardlinkTarget | InvalidEntry | Tree (e : FileTreeError).

Inductive WhiteoutKind := NotWhiteout | OpaqueWhiteout | FileWhiteout (real_name : list byte).

(** What the tar library says of an entry: [None] is an I/O error, and for
    the numbers of [extract_metadata] a malformed field. *)
Inductive EntryType := Link | DirectoryEntry | SymlinkEntry | Regular | Continuous | Char | Block | FifoEntry | Other (kind : Z).
Record tar_entry := mkEntry {
  entry_type : EntryType;
  path_bytes : option (list byte);
  link_name_bytes : option (option (list byte));
  header_uid : option Z; header_gid : option Z; header_mode : option Z; header_mtime : option Z;
  header_size : option N;
  device_major : option (option Z); device_minor : option (option Z);
  body : list (list byte)
}.

(** ** Functions *)

Definition detect (magic : list byte) : Compression :=
  if (4 <=? length magic)%nat && bool_decide (take 4 magic = ZSTD_MAGIC) then Zstd
  else if (2 <=? length magic)%nat && bool_decide (take 2 magic = GZIP_MAGIC) then Gzip
  else NoCompression.

Definition strip_dot_slash (p : list byte) : list byte :=
  if bool_decide (take 2 p = [x2e; x2f]) then drop 2 p else if bool_decide (p = [x2e]) then [] else p.

Fixpoint trailing_end (p : list byte) (last : nat) : nat :=
  match last with
  | O => O
  | S n => if bool_decide (p !! n = Some slash) then trailing_end p n else S n
  end.
Definition strip_trailing_slashes (p : list byte) : list byte := take (trailing_end p (length p)) p.

Fixpoint strip_leading_slashes (p : list byte) : list byte :=
  match p with
  | b :: p' => if bool_decide (b = slash) then strip_leading_slashes p' else p
  | [] => []
  end.

(** The [for] loop over the components: the depth, or the refusal of "..". *)
Fixpoint path_depth (components : list key) (depth : Z) : result IngestError Z :=
  match components with
  | [] => Ok depth
  | component :: rest =>
      if bool_decide (component = []) then path_depth rest depth
      else if bool_decide (component = dotdot) then Err TraversalInTar
      else path_depth rest (depth + 1)
  end.

Definition normalize_path (raw : list byte) (limits : ResourceLimits) : result IngestError (option (list byte)) :=
  let p := strip_dot_slash raw in
  let p := strip_leading_slashes p in
  let p := strip_trailing_slashes p in
  if bool_decide (p = []) then Ok None else
  let? depth := path_depth (split_slash p) 0 in
  if max_path_length limits <? zlen p then Err PathTooLong
  else if max_path_depth limits <? depth then Err PathTooDeep
  else Ok (Some p).

Definition extract_metadata (e : tar_entry) : InodeMetadata :=
  mkMetadata (wrap 32 (default 0 (header_uid e))) (wrap 32 (default 0 (header_gid e)))
    (Z.land (default 420 (header_mode e)) 4095) (default 0 (header_mtime e)) 0.

(** The parts around the last slash. *)
Fixpoint rsplit_slash (p : list byte) : option (list byte * list byte) :=
  match p with
  | [] => None
  | b :: p' =>
      match rsplit_slash p' with
      | Some (parent, name) => Some (b :: parent, name)
      | None => if bool_decide (b = slash) then Some ([], p') else None
      end
  end.
Definition path_filename (p : list byte) : list byte := match rsplit_slash p with Some (_, name) => name | None => p end.
Definition path_parent (p : list byte) : list byte := match rsplit_slash p with Some (parent, _) => parent | None => [] end.

Definition replace_filename (p new_name : list byte) : list byte :=
  let parent := path_parent p in
  if bool_decide (parent = []) then new_name else parent ++ [slash] ++ new_name.

Definition classify_whiteout (filename : list byte) : WhiteoutKind :=
  if bool_decide (filename = OPAQUE_WHITEOUT) then OpaqueWhiteout
  else if bool_decide (take (length WHITEOUT_PREFIX) filename = WHITEOUT_PREFIX) then
    let real_name := drop (length WHITEOUT_PREFIX) filename in
    if bool_decide (real_name = []) then NotWhiteout else FileWhiteout real_name
  else NotWhiteout.

Definition insert_into (t : FileTree) (p : list byte) (node : TreeNode) : result IngestError FileTree :=
  match tree_insert t p node with (t, Ok _) => Ok t | (_, Err e) => Err (Tree e) end.

(** [dir.xattrs.push], if the marker is not there yet. *)
Definition push_opaque (dir : DirectoryNode) : DirectoryNode :=
  if has_opaque_xattr dir then dir
  else mkDir (metadata dir) (xattrs dir ++ [mkXattr OPAQUE_XATTR_NAME OPAQUE_XATTR_VALUE]) (entries dir).
Definition push_opaque_node (node : TreeNode) : TreeNode :=
  match node with Directory dir => Directory (push_opaque dir) | other => other end.

Definition apply_opaque_xattr (t : FileTree) (p : list byte) : result IngestError FileTree :=
  let parent := path_parent p in
  if bool_decide (parent = []) then Ok (mkTree (push_opaque (root t))) else
  match tree_get t parent with
  | Some (Directory _) => Ok (tree_get_mut t parent push_opaque_node)
  | _ =>
      let? t := insert_into t parent (Directory (new_directory default_metadata)) in
      match tree_get t parent with
      | Some (Directory _) => Ok (tree_get_mut t parent push_opaque_node)
      | _ => Err InvalidEntry
      end
  end.

(** The target after [f.nlink = new_nlink] and [clone_ref], and its alias. *)
Definition link_target (f : RegularFileNode) : RegularFileNode :=
  mkRegular (id f) (file_metadata f) (file_xattrs f) (clone_ref (data f)).2 (wrap 32 (nlink f + 1)).
Definition link_alias (f : RegularFileNode) : RegularFileNode :=
  mkRegular (id f) (file_metadata f) (file_xattrs f) (clone_ref (data f)).1 (wrap 32 (nlink f + 1)).
Definition relink (node : TreeNode) : TreeNode :=
  match node with RegularFile f => RegularFile (link_target f) | other => other end.

Definition handle_hardlink (t : FileTree) (link_path target_path : list byte) : result IngestError FileTree :=
  match tree_get t target_path with
  | Some (RegularFile f) => insert_into (tree_get_mut t target_path relink) link_path (RegularFile (link_alias f))
  | _ => Err HardlinkTarget
  end.

(** *** Bodies *)

(** One read of at most [to_read] bytes; no bytes at the end. *)
Definition poll_read (pieces : list (list byte)) (to_read : nat) : list byte * list (list byte) :=
  match pieces with
  | [] => ([], [])
  | c :: rest => (take to_read c, match drop to_read c with [] => rest | c' => c' :: rest end)
  end.

(** The loop of [read_entry_to_memory]; [fuel] bounds its rounds by the bytes
    to read. *)
Fixpoint read_loop (fuel : nat) (chunk : nat) (pieces : list (list byte)) (remaining : nat) (acc : list byte)
    : result IngestError (list byte * list (list byte)) :=
  match fuel, remaining with
  | _, O => Ok (acc, pieces)
  | O, _ => Err Io
  | S fuel', _ =>
      match poll_read pieces (Nat.min remaining chunk) with
      | ([], _) => Err Io
      | (got, pieces) => read_loop fuel' chunk pieces (remaining - length got) (acc ++ got)
      end
  end.

Definition read_entry_to_memory (pieces : list (list byte)) (size : Z) : result IngestError (list byte) :=
  let? r := read_loop (Z.to_nat size) ENTRY_READ_CHUNK_SIZE pieces (Z.to_nat size) [] in
  Ok r.1.

(** [AsyncReadExt::read_exact]. *)
Definition read_exact_pieces (pieces : list (list byte)) (len : nat) : result IngestError (list byte * list (list byte)) :=
  read_loop len len pieces len [].

Fixpoint spool_loop (fuel : nat) (files : spools) (spool : DataSpool) (pieces : list (list byte)) (remaining : nat)
    (write_buf : list byte) : result IngestError (spools * DataSpool) :=
  match fuel, remaining with
  | _, O => Ok (match write_buf with [] => (files, spool) | _ => write_chunk files spool write_buf end)
  | O, _ => Err Io
  | S fuel', _ =>
      let to_read := Nat.min remaining ENTRY_READ_CHUNK_SIZE in
      let? r := read_exact_pieces pieces to_read in
      let '(files, spool, write_buf) :=
        if (SPOOL_WRITE_BUFFER_SIZE <? length write_buf + to_read)%nat && negb (bool_decide (write_buf = []))
        then (write_chunk files spool write_buf, []) else (files, spool, write_buf) in
      spool_loop fuel' files spool r.2 (remaining - to_read) (write_buf ++ r.1)
  end.

Definition stream_entry_to_spool (files : spools) (spool : DataSpool) (pieces : list (list byte)) (size : Z)
    : result IngestError (spools * DataSpool * FileData) :=
  let off := offset spool in
  let? r := spool_loop (Z.to_nat size) files spool pieces (Z.to_nat size) [] in
  Ok (r, data_ref r.2 off size).

(** *** The loop over the entries *)

Record ingest_state := mkState {
  tree : FileTree; entry_count : Z; total_size : Z; saw_hardlink : bool;
  next_id : Z; st_files : spools; st_spool : option DataSpool
}.
Definition set_tree (st : ingest_state) (t : FileTree) : ingest_state :=
  mkState t (entry_count st) (total_size st) (saw_hardlink st) (next_id st) (st_files st) (st_spool st).

(** A whiteout file becomes a marker; anything else is [insert_it]. *)
Definition ingest_named (st : ingest_state) (p : list byte) (m : InodeMetadata) (insert_it : result IngestError ingest_state)
    : result IngestError ingest_state :=
  match classify_whiteout (path_filename p) with
  | OpaqueWhiteout => let? t := apply_opaque_xattr (tree st) p in Ok (set_tree st t)
  | FileWhiteout real_name =>
      let? t := insert_into (tree st) (replace_filename p real_name) (CharDevice (mkDevice m WHITEOUT_MAJOR WHITEOUT_MINOR)) in
      Ok (set_tree st t)
  | NotWhiteout => insert_it
  end.

Definition insert_in (st : ingest_state) (p : list byte) (node : TreeNode) : result IngestError ingest_state :=
  let? t := insert_into (tree st) p node in Ok (set_tree st t).

(** The contents of a regular file: spooled from [SPOOL_THRESHOLD] on when
    there is a spool. *)
Definition read_file (st : ingest_state) (pieces : list (list byte)) (size : Z)
    : result IngestError (spools * option DataSpool * FileData) :=
  match st_spool st with
  | Some spool =>
      if SPOOL_THRESHOLD <=? size then
        let? r := stream_entry_to_spool (st_files st) spool pieces size in
        Ok (r.1.1, Some r.1.2, r.2)
      else let? v := read_entry_to_memory pieces size in Ok (st_files st, st_spool st, Memory v)
  | None => let? v := read_entry_to_memory pieces size in Ok (st_files st, st_spool st, Memory v)
  end.

Definition ingest_regular (limits : ResourceLimits) (st : ingest_state) (p : list byte) (m : InodeMetadata) (e : tar_entry)
    : result IngestError ingest_state :=
  let? size := ok_or (header_size e) Io in
  let size := Z.of_N size in
  if max_file_size limits <? size then Err FileTooLarge else
  let total := Z.min (total_size st + size) (2 ^ 64 - 1) in
  if max_total_size limits <? total then Err TotalSizeExceeded else
  let st := mkState (tree st) (entry_count st) total (saw_hardlink st) (next_id st) (st_files st) (st_spool st) in
  ingest_named st p m (
    let? r := read_file st (body e) size in
    let node := RegularFile (mkRegular (next_id st) m [] r.2 1) in
    let? t := insert_into (tree st) p node in
    Ok (mkState t (entry_count st) (total_size st) (saw_hardlink st) (next_id st + 1) r.1.1 r.1.2)).

Definition ingest_link (limits : ResourceLimits) (st : ingest_state) (p : list byte) (e : tar_entry)
    : result IngestError ingest_state :=
  let? link := ok_or (link_name_bytes e) Io in
  let? link := ok_or link InvalidEntry in
  let? target_path := normalize_path link limits in
  let? target_path := ok_or target_path HardlinkTarget in
  let? t := handle_hardlink (tree st) p target_path in
  Ok (mkState t (entry_count st) (total_size st) true (next_id st) (st_files st) (st_spool st)).

Definition ingest_symlink (limits : ResourceLimits) (st : ingest_state) (p : list byte) (m : InodeMetadata) (e : tar_entry)
    : result IngestError ingest_state :=
  let? link := ok_or (link_name_bytes e) Io in
  let? link := ok_or link InvalidEntry in
  if max_symlink_target limits <? zlen link then Err SymlinkTargetTooLong
  else ingest_named st p m (insert_in st p (Symlink (mkSymlink m link))).

Definition ingest_device (node : DeviceNode -> TreeNode) (st : ingest_state) (p : list byte) (m : InodeMetadata) (e : tar_entry)
    : result IngestError ingest_state :=
  let? dev_major := ok_or (device_major e) Io in
  let? dev_minor := ok_or (device_minor e) Io in
  insert_in st p (node (mkDevice m (default 0 dev_major) (default 0 dev_minor))).

(** The body of the [while] loop. *)
Definition ingest_entry (limits : ResourceLimits) (st : ingest_state) (entry : option tar_entry) : result IngestError ingest_state :=
  let? e := ok_or entry Io in
  let count := entry_count st + 1 in
  if max_entry_count limits <? count then Err EntryCountExceeded else
  let st := mkState (tree st) count (total_size st) (saw_hardlink st) (next_id st) (st_files st) (st_spool st) in
  let? raw_path := ok_or (path_bytes e) Io in
  let? p := normalize_path raw_path limits in
  match p with
  | None => Ok st
  | Some p =>
      let m := extract_metadata e in
      match entry_type e with
      | Link => ingest_link limits st p e
      | DirectoryEntry => insert_in st p (Directory (mkDir m [] ∅))
      | SymlinkEntry => ingest_symlink limits st p m e
      | Regular | Continuous => ingest_regular limits st p m e
      | Char => ingest_device CharDevice st p m e
      | Block => ingest_device BlockDevice st p m e
      | FifoEntry => insert_in st p (Fifo m)
      | Other kind => if kind =? 96 then insert_in st p (Socket m) else Ok st
      end
  end.

Definition ingest_from (limits : ResourceLimits) (st : ingest_state) (es : list (option tar_entry))
    : result IngestError ingest_state :=
  try_fold (ingest_entry limits) st es.

(** [next] is the value of the global file-id counter. *)
Definition ingest_tar (limits : ResourceLimits) (es : list (option tar_entry)) (next : Z) (files : spools) (spool : option DataSpool)
    : result IngestError ingest_state :=
  let? st := ingest_from limits (mkState new_tree 0 0 false next files spool) es in
  Ok (if saw_hardlink st then set_tree st (refresh_regular_nlinks (tree st)) else st).

(** ** Paths *)

Implicit Types (p : list byte) (limits : ResourceLimits).

Definition valid_name (c : key) : Prop := c <> [] /\ c <> dotdot /\ slash ∉ c.

Lemma split_slash_parts p : Forall (fun c => slash ∉ c) (split_slash p).
Proof.
  induction p as [|b p IH]; simpl; [by repeat constructor; apply not_elem_of_nil|].
  destruct (decide (b = slash)) as [->|Hb].
  - rewrite bool_decide_eq_true_2 by done. constructor; [apply not_elem_of_nil | done].
  - rewrite bool_decide_eq_false_2 by done.
    destruct (split_slash p) as [|c cs]; [constructor; [|done]; by rewrite list_elem_of_singleton|].
    inversion IH; subst. constructor; [|done]. by rewrite not_elem_of_cons.
Qed.

Lemma split_slash_nonempty p : split_slash p <> [].
Proof. destruct p as [|b p]; [done|]. cbn [split_slash]. destruct (bool_decide (b = slash)); [done|]. by destruct (split_slash p). Qed.

Lemma split_slash_app p r : split_slash (p ++ slash :: r) = split_slash p ++ split_slash r.
Proof.
  induction p as [|b p IH]; [done|]. cbn [app split_slash]. rewrite IH.
  pose proof (split_slash_nonempty p). destruct (bool_decide (b = slash)); [done|]. by destruct (split_slash p).
Qed.

Lemma split_slash_single name : slash ∉ name -> split_slash name = [name].
Proof.
  induction name as [|b name IH]; [done|]. rewrite not_elem_of_cons. intros [Hb Hn]. cbn [split_slash].
  by rewrite bool_decide_eq_false_2, IH.
Qed.

Lemma path_components_app p r : path_components (p ++ slash :: r) = path_components p ++ path_components r.
Proof. unfold path_components. rewrite split_slash_app. apply List.filter_app. Qed.
Lemma path_components_single name : slash ∉ name -> name <> [] -> path_components name = [name].
Proof. intros Hs Hn. unfold path_components. rewrite split_slash_single by done. simpl. by rewrite bool_decide_eq_false_2. Qed.

Lemma rsplit_slash_spec p :
  match rsplit_slash p with
  | Some (parent, name) => p = parent ++ slash :: name /\ slash ∉ name
  | None => slash ∉ p
  end.
Proof.
  induction p as [|b p IH]; simpl; [apply not_elem_of_nil|]. destruct (rsplit_slash p) as [[parent name]|].
  - destruct IH as [-> Hn]. done.
  - destruct (decide (b = slash)) as [->|Hb]; [by rewrite bool_decide_eq_true_2 | rewrite bool_decide_eq_false_2 by done].
    by rewrite not_elem_of_cons.
Qed.

Lemma components_split p :
  path_filename p <> [] -> path_components p = path_components (path_parent p) ++ [path_filename p] /\ slash ∉ path_filename p.
Proof.
  unfold path_filename, path_parent. pose proof (rsplit_slash_spec p) as Hp.
  destruct (rsplit_slash p) as [[parent name]|]; intros Hne.
  - destruct Hp as [-> Hn]. by rewrite path_components_app, (path_components_single name).
  - by rewrite path_components_single.
Qed.

Lemma components_replace p name :
  slash ∉ name -> name <> [] -> path_components (replace_filename p name) = path_components (path_parent p) ++ [name].
Proof.
  intros Hs Hn. unfold replace_filename. destruct (decide (path_parent p = [])) as [->|Hp].
  - rewrite bool_decide_eq_true_2 by done. by rewrite path_components_single.
  - rewrite bool_decide_eq_false_2 by done. change ([slash] ++ name) with (slash :: name).
    by rewrite path_components_app, (path_components_single name).
Qed.

Lemma split_path_ok p comps : split_path p = Ok comps -> comps = path_components p /\ comps <> [] /\ Forall valid_name comps.
Proof.
  unfold split_path. destruct (path_components p) as [|c cs] eqn:Hp; [done|].
  destruct (existsb _ (c :: cs)) eqn:He; [done|]. intros [= <-]. split_and!; [done..|]. rewrite <- Hp.
  apply Forall_forall. intros x Hx. rewrite Hp in Hx. split_and!.
  - intros ->. rewrite <- Hp in Hx. unfold path_components in Hx. apply list_elem_of_In, filter_In in Hx as [_ Hx]. done.
  - intros ->. apply not_true_iff_false in He. apply He, existsb_exists. exists dotdot. split; [by apply list_elem_of_In|]. done.
  - rewrite <- Hp in Hx. unfold path_components in Hx. apply list_elem_of_In, filter_In in Hx as [Hx _].
    pose proof (split_slash_parts p) as Hall. rewrite Forall_forall in Hall. apply Hall. by apply list_elem_of_In.
Qed.

Lemma path_depth_spec cs depth d :
  path_depth cs depth = Ok d -> d = depth + zlen (List.filter (fun c => negb (bool_decide (c = []))) cs).
Proof.
  revert depth. induction cs as [|c cs IH]; intros depth; simpl; [intros [= <-]; lia|].
  destruct (bool_decide (c = [])); simpl; [apply IH|]. destruct (bool_decide (c = dotdot)); [done|].
  intros ->%IH. lia.
Qed.

Lemma normalize_path_depth raw limits p :
  normalize_path raw limits = Ok (Some p) -> zlen (path_components p) <= max_path_depth limits.
Proof.
  unfold normalize_path. set (p0 := strip_trailing_slashes _). destruct (bool_decide (p0 = [])); [done|].
  destruct (path_depth (split_slash p0) 0) as [d|] eqn:Hd; [|done]. apply path_depth_spec in Hd.
  destruct (_ <? zlen p0); [done|]. destruct (max_path_depth limits <? d) eqn:Hm; [done|]. intros [= <-].
  breflect. unfold path_components. lia.
Qed.

(** ** What a tree under construction satisfies *)

(** [sizes] gives the length of every file created so far. *)
Definition node_ok limits (sizes : gmap Z Z) (linked : bool) (node : TreeNode) : Prop :=
  match node with
  | RegularFile f =>
      sizes !! id f = Some (file_len (data f)) /\ file_len (data f) <= max_file_size limits /\ (linked = false -> nlink f = 1)
  | Symlink l => zlen (target l) <= max_symlink_target limits
  | _ => True
  end.

Definition tree_ok limits (sizes : gmap Z Z) (linked : bool) (t : FileTree) : Prop :=
  forall q node, node_at (entries (root t)) q = Some node ->
    Forall valid_name q /\ zlen q <= max_path_depth limits /\ node_ok limits sizes linked node.

(** One change of the tree: at most a path of new nodes, and for each file [i]
    at most [extra i] new names. *)
Definition grows limits (extra : Z -> Z) (t t' : FileTree) : Prop :=
  node_count t' <= node_count t + max_path_depth limits
  /\ forall i, links i (Directory (root t')) <= links i (Directory (root t)) + extra i.

Lemma node_ok_shape limits sizes linked n n' :
  shape n = shape n' -> node_ok limits sizes linked n -> node_ok limits sizes linked n'.
Proof. destruct n, n'; simpl; intros; by simplify_eq. Qed.

Lemma count_node_nonneg node : 0 <= count_node node.
Proof.
  induction node as [node IH] using tree_ind. destruct node as [|dir| | | | |]; simpl; try lia.
  enough (0 <= msum (fun _ c => count_node c) (entries dir)) by lia. apply msum_nonneg. intros k c Hk. by apply (IH k).
Qed.

Lemma insert_into_inv t p node t' :
  insert_into t p node = Ok t' ->
  Forall valid_name (path_components p) /\ path_components p <> []
  /\ insert_components (root t) (path_components p) node = (root t', Ok tt).
Proof.
  unfold insert_into, tree_insert. destruct (split_path p) as [comps|] eqn:Hs; [|done].
  apply split_path_ok in Hs as (-> & Hne & Hv). destruct (insert_components _ _ _) as [d [[]|]]; [|done].
  by intros [= <-].
Qed.

Lemma insert_step limits sizes linked t p node t' :
  insert_into t p node = Ok t' -> zlen (path_components p) <= max_path_depth limits ->
  children node = ∅ -> count_node node = 1 -> node_ok limits sizes linked node -> tree_ok limits sizes linked t ->
  tree_ok limits sizes linked t' /\ grows limits (fun i => links i node) t t'.
Proof.
  intros (Hv & Hne & Hins)%insert_into_inv Hlen Hch Hcount Hok Ht. set (comps := path_components p) in *. split.
  - intros q n Hat. destruct (decide (q = [])) as [->|Hq]; [done|].
    pose proof (insert_effect _ _ _ _ q Hins Hq) as Heff. rewrite Hat in Heff. simpl in Heff. symmetry in Heff. unfold inserted in Heff.
    assert (Hold : shape <$> node_at (entries (root t)) q = Some (shape n) ->
              Forall valid_name q /\ zlen q <= max_path_depth limits /\ node_ok limits sizes linked n).
    { intros (n0 & Hn0 & Hs)%fmap_Some. destruct (Ht q n0 Hn0) as (H1 & H2 & H3). split_and!; [done..|].
      by apply (node_ok_shape _ _ _ n0). }
    destruct (decide (q = comps)) as [->|Hqp].
    { split_and!; [done..|]. simplify_eq. by apply (node_ok_shape _ _ _ node). }
    destruct (decide (q `prefix_of` comps)) as [Hpre|Hnp].
    { destruct (node_at (entries (root t)) q) as [n0|] eqn:Hn0; [by apply Hold; simpl in *|].
      destruct Hpre as [r Hr]. rewrite Hr in Hv, Hlen. apply Forall_app in Hv as [Hv _]. split_and!; [done | len |].
      simpl in Heff. simplify_eq. by apply (node_ok_shape _ _ _ fresh_dir). }
    destruct (decide (comps `prefix_of` q)) as [[r ->]|]; [|by apply Hold].
    assert (Hr : r <> []) by (intros ->; by rewrite app_nil_r in Hqp).
    assert (Hnone : node_under node r = None) by (destruct r; [done|]; cbn [node_under]; by rewrite Hch, node_at_empty).
    rewrite drop_app_length, Hnone in Heff. destruct (node_at (entries (root t)) comps) as [[]|]; try done.
    destruct node; try done. by apply Hold.
  - split.
    + pose proof (measure_insert count_node 1 ltac:(lia) count_node_nonneg (fun _ => eq_refl) _ _ _ _ _ Hne Hins) as Hm.
      unfold node_count, count_nodes_in_dir. lia.
    + intros i. pose proof (measure_insert (links i) 0 ltac:(lia) (image_links_nonneg i) (fun _ => eq_refl) _ _ _ _ _ Hne Hins) as Hm.
      cbn [links]. lia.
Qed.

Lemma mut_step limits sizes linked t p f :
  keeps_children f -> (forall n, node_ok limits sizes linked n -> node_ok limits sizes linked (f n)) ->
  (forall n, count_node (f n) = count_node n) -> (forall i n, links i (f n) = links i n) ->
  tree_ok limits sizes linked t ->
  tree_ok limits sizes linked (tree_get_mut t p f)
  /\ node_count (tree_get_mut t p f) = node_count t
  /\ forall i, links i (Directory (root (tree_get_mut t p f))) = links i (Directory (root t)).
Proof.
  intros Hf Hok Hc Hl Ht. unfold tree_get_mut. destruct (split_path p) as [comps|]; [|done]. split_and!.
  - intros q n Hat. pose proof (alter_effect f (root t) comps q Hf) as Heff. cbn [root] in Hat. rewrite Hat in Heff.
    simpl in Heff. symmetry in Heff. destruct (decide (q = comps)) as [->|Hne].
    + apply fmap_Some in Heff as (n0 & Hn0 & Hs). destruct (Ht _ _ Hn0) as (H1 & H2 & H3). split_and!; [done..|].
      apply (node_ok_shape _ _ _ (f n0)); [done | by apply Hok].
    + apply fmap_Some in Heff as (n0 & Hn0 & Hs). destruct (Ht _ _ Hn0) as (H1 & H2 & H3). split_and!; [done..|].
      by apply (node_ok_shape _ _ _ n0).
  - unfold node_count, count_nodes_in_dir. by apply (measure_alter count_node 1 (fun _ => eq_refl)).
  - intros i. cbn [links root]. by apply (measure_alter (links i) 0 (fun _ => eq_refl)).
Qed.

(** ** Reading bodies *)

Lemma poll_read_length pieces n : (length (poll_read pieces n).1 <= n)%nat.
Proof. destruct pieces; simpl; [lia|]. rewrite length_take. lia. Qed.

Lemma read_loop_length fuel chunk pieces remaining acc r rest :
  read_loop fuel chunk pieces remaining acc = Ok (r, rest) -> length r = (length acc + remaining)%nat.
Proof.
  revert pieces remaining acc. induction fuel as [|fuel IH]; intros pieces [|n] acc; simpl; try done.
  1,2: intros [= <- _]; lia.
  pose proof (poll_read_length pieces (Nat.min (S n) chunk)) as Hl.
  destruct (poll_read pieces _) as [[|b got] pieces'] eqn:Hp; [done|]. intros Hr%IH. rewrite Hr, length_app. cbn [fst] in Hl. lia.
Qed.

(** Reading delivers the first bytes of the body, wherever the pieces end. *)
Lemma poll_read_concat pieces n :
  Forall (fun c => c <> []) pieces -> pieces <> [] -> (0 < n)%nat ->
  let '(got, rest) := poll_read pieces n in
  got <> [] /\ concat pieces = got ++ concat rest /\ Forall (fun c => c <> []) rest.
Proof.
  intros Hall Hne Hn. destruct pieces as [|c pieces]; [done|]. apply Forall_cons in Hall as [Hc Hall].
  cbn [poll_read]. split_and!.
  - destruct c, n; try done; lia.
  - destruct (drop n c) eqn:Hd; cbn [concat]; rewrite <- (take_drop n c) at 1; rewrite Hd; [by rewrite app_nil_r | by rewrite app_assoc].
  - destruct (drop n c) eqn:Hd; [done|]. by constructor.
Qed.

Lemma read_loop_exact fuel chunk pieces remaining acc :
  Forall (fun c => c <> []) pieces -> (0 < chunk)%nat -> (remaining <= fuel)%nat ->
  (remaining <= length (concat pieces))%nat ->
  exists rest, read_loop fuel chunk pieces remaining acc = Ok (acc ++ take remaining (concat pieces), rest)
    /\ concat rest = drop remaining (concat pieces) /\ Forall (fun c => c <> []) rest.
Proof.
  intros Hall Hchunk. revert pieces remaining acc Hall. induction fuel as [|fuel IH]; intros pieces [|n] acc Hall Hf Hlen; try lia.
  1,2: exists pieces; simpl; by rewrite take_0, app_nil_r, drop_0.
  cbn [read_loop]. set (k := Nat.min (S n) chunk).
  assert (Hne : pieces <> []) by (intros ->; simpl in Hlen; lia).
  pose proof (poll_read_concat pieces k Hall Hne ltac:(lia)) as Hp. pose proof (poll_read_length pieces k) as Hl.
  destruct (poll_read pieces k) as [got rest]. destruct Hp as (Hgot & Hcat & Hrest). cbn [fst] in Hl.
  assert (Hg : (length got <= S n)%nat) by lia.
  assert (Hpos : (0 < length got)%nat) by (destruct got; [done | simpl; lia]).
  rewrite Hcat, length_app in Hlen. destruct (IH rest (S n - length got)%nat (acc ++ got) Hrest) as (rest' & Hr & Hd & Hall'); [lia..|].
  exists rest'. destruct got as [|b got]; [done|]. rewrite Hr, Hcat. split_and!; [|rewrite Hd|done].
  - rewrite take_app_ge by done. by rewrite <- app_assoc.
  - by rewrite drop_app_ge.
Qed.

Lemma read_file_len st pieces size files spool d :
  0 <= size -> read_file st pieces size = Ok (files, spool, d) -> file_len d = size.
Proof.
  intros Hs. unfold read_file.
  assert (Hmem : forall v, read_entry_to_memory pieces size = Ok v -> zlen v = size).
  { intros v. unfold read_entry_to_memory. destruct (read_loop _ _ _ _ _) as [[r rest]|] eqn:Hr; [|done].
    intros [= <-]. apply read_loop_length in Hr. simpl in *. lia. }
  destruct (st_spool st) as [s|].
  2:{ destruct (read_entry_to_memory pieces size) as [v|] eqn:Hv; [|done]. intros [= _ _ <-]. by apply Hmem. }
  destruct (SPOOL_THRESHOLD <=? size).
  - unfold stream_entry_to_spool. destruct (spool_loop _ _ _ _ _ _); [|done]. by intros [= _ _ <-].
  - destruct (read_entry_to_memory pieces size) as [v|] eqn:Hv; [|done]. intros [= _ _ <-]. by apply Hmem.
Qed.

(** ** The invariant of the loop *)

Record limits_wf limits : Prop := {
  wf_depth : 0 <= max_path_depth limits;
  wf_count : 0 <= max_entry_count limits;
  wf_total : 0 <= max_total_size limits < 2 ^ 64 - 1
}.

(** After [n] changes of the tree. *)
Record ingest_inv limits (sizes : gmap Z Z) (n : Z) (st : ingest_state) : Prop := {
  inv_tree : tree_ok limits sizes (saw_hardlink st) (tree st);
  inv_nodes : node_count (tree st) <= n * max_path_depth limits;
  inv_entries : n <= entry_count st <= max_entry_count limits;
  inv_sizes : msum (fun _ v => v) sizes <= total_size st <= max_total_size limits;
  inv_pos : map_Forall (fun _ v => 0 <= v) sizes;
  inv_fresh : forall i, next_id st <= i -> sizes !! i = None;
  inv_links : saw_hardlink st = false ->
    forall i, links i (Directory (root (tree st))) <= (if i <? next_id st then 1 else 0)
}.

Lemma node_ok_linked limits sizes linked node : node_ok limits sizes linked node -> node_ok limits sizes true node.
Proof. destruct node; try done. by intros (? & ? & _). Qed.
Lemma tree_ok_linked limits sizes linked t : tree_ok limits sizes linked t -> tree_ok limits sizes true t.
Proof. intros Ht q n Hn. destruct (Ht q n Hn) as (? & ? & ?%node_ok_linked). done. Qed.

Lemma tree_ok_size limits sizes linked t i v :
  sizes !! i = None -> tree_ok limits sizes linked t -> tree_ok limits (<[i := v]> sizes) linked t.
Proof.
  intros Hi Ht q n Hn. destruct (Ht q n Hn) as (H1 & H2 & H3). split_and!; [done..|]. destruct n; try done. simpl in *.
  rewrite lookup_insert_ne; [done|]. intros Heq. destruct H3 as [H3 _]. congruence.
Qed.

(** A change that adds no name to a file. *)
Lemma inv_change limits sizes n st t :
  limits_wf limits -> ingest_inv limits sizes n st -> n + 1 <= entry_count st ->
  tree_ok limits sizes (saw_hardlink st) t -> grows limits (fun _ => 0) (tree st) t ->
  ingest_inv limits sizes (n + 1) (set_tree st t).
Proof.
  intros Hw [] Hn Ht [Hc Hl]. constructor; cbn [set_tree tree entry_count total_size next_id saw_hardlink]; try done.
  - lia.
  - lia.
  - intros Hs i. specialize (inv_links0 Hs i). specialize (Hl i). lia.
Qed.

Lemma push_opaque_ok limits sizes linked :
  keeps_children push_opaque_node
  /\ (forall n, node_ok limits sizes linked n -> node_ok limits sizes linked (push_opaque_node n))
  /\ (forall n, count_node (push_opaque_node n) = count_node n) /\ (forall i n, links i (push_opaque_node n) = links i n).
Proof.
  assert (He : forall d, entries (push_opaque d) = entries d) by (intros d; unfold push_opaque; by destruct (has_opaque_xattr d)).
  split_and!.
  - intros []; try done. simpl. rewrite He. split; [done|]. split; eauto.
  - by intros [].
  - intros []; try done. simpl. by rewrite He.
  - intros i []; try done. simpl. by rewrite He.
Qed.

Lemma apply_opaque_step limits sizes linked t p t' :
  limits_wf limits -> apply_opaque_xattr t p = Ok t' -> zlen (path_components (path_parent p)) <= max_path_depth limits ->
  tree_ok limits sizes linked t -> tree_ok limits sizes linked t' /\ grows limits (fun _ => 0) t t'.
Proof.
  intros Hw Ha Hlen Ht. destruct (push_opaque_ok limits sizes linked) as (Hk & Ho & Hc & Hl).
  assert (Hmut : forall t, tree_ok limits sizes linked t ->
            tree_ok limits sizes linked (tree_get_mut t (path_parent p) push_opaque_node)
            /\ node_count (tree_get_mut t (path_parent p) push_opaque_node) = node_count t
            /\ forall i, links i (Directory (root (tree_get_mut t (path_parent p) push_opaque_node))) = links i (Directory (root t))).
  { intros t0 Ht0. by apply (mut_step limits sizes linked t0 (path_parent p)). }
  unfold apply_opaque_xattr in Ha. destruct (bool_decide (path_parent p = [])).
  { injection Ha as <-. assert (He : entries (push_opaque (root t)) = entries (root t)) by (unfold push_opaque; by destruct (has_opaque_xattr _)).
    destruct Hw. split; [intros q n; cbn [root]; rewrite He; apply Ht|]. split; [unfold node_count, count_nodes_in_dir; cbn [root]; rewrite He; lia|].
    intros i. cbn [links root]. rewrite He. lia. }
  destruct (match tree_get t (path_parent p) with Some (Directory _) => true | _ => false end) eqn:Hget.
  - assert (t' = tree_get_mut t (path_parent p) push_opaque_node) as -> by (by destruct (tree_get t (path_parent p)) as [[]|]; simplify_eq).
    destruct (Hmut t Ht) as (H1 & H2 & H3). destruct Hw. split; [done|]. split; [lia|]. intros i. rewrite H3. lia.
  - assert (Ha' : exists t1, insert_into t (path_parent p) (Directory (new_directory default_metadata)) = Ok t1
                    /\ t' = tree_get_mut t1 (path_parent p) push_opaque_node).
    { destruct (insert_into t (path_parent p) _) as [t1|]; [|by destruct (tree_get t (path_parent p)) as [[]|]].
      exists t1. split; [done|]. destruct (tree_get t (path_parent p)) as [[]|]; try done;
        destruct (tree_get t1 (path_parent p)) as [[]|]; by simplify_eq. }
    destruct Ha' as (t1 & Hins & ->).
    destruct (insert_step limits sizes linked t (path_parent p) _ t1 Hins Hlen) as [Ht1 [Hc1 Hl1]]; [done..|].
    destruct (Hmut t1 Ht1) as (H1 & H2 & H3). split; [done|]. split; [lia|]. intros i. rewrite H3. apply (Hl1 i).
Qed.

Section entry.
Context (limits : ResourceLimits) (Hw : limits_wf limits).

(** A node that names no file. *)
Lemma inv_insert sizes n st p node st' :
  ingest_inv limits sizes n st -> n + 1 <= entry_count st -> zlen (path_components p) <= max_path_depth limits ->
  children node = ∅ -> count_node node = 1 -> (forall i, links i node = 0) -> node_ok limits sizes (saw_hardlink st) node ->
  insert_in st p node = Ok st' -> ingest_inv limits sizes (n + 1) st'.
Proof using Hw.
  intros Hinv Hn Hlen Hch Hc Hl Hok. unfold insert_in. destruct (insert_into (tree st) p node) as [t|] eqn:Hins; [|done].
  intros [= <-]. destruct (insert_step limits sizes (saw_hardlink st) _ _ _ _ Hins Hlen Hch Hc Hok) as [Ht Hg]; [apply Hinv|].
  apply inv_change; try done. destruct Hg as [Hg1 Hg2]. split; [done|]. intros i. specialize (Hg2 i). cbn beta in Hg2. rewrite Hl in Hg2. done.
Qed.

Lemma classify_name filename real :
  classify_whiteout filename = FileWhiteout real -> filename <> [] /\ real <> [] /\ (slash ∉ filename -> slash ∉ real).
Proof.
  unfold classify_whiteout. destruct (bool_decide (filename = OPAQUE_WHITEOUT)); [done|].
  destruct (bool_decide_reflect (take (length WHITEOUT_PREFIX) filename = WHITEOUT_PREFIX)) as [Hp|]; [|done].
  destruct (bool_decide_reflect (drop (length WHITEOUT_PREFIX) filename = [])); [done|]. intros [= <-]. split_and!.
  - intros ->. done.
  - done.
  - intros Hs Hin. apply Hs. rewrite <- (take_drop (length WHITEOUT_PREFIX) filename). apply elem_of_app. by right.
Qed.

Lemma inv_named sizes n st p m insert_it st' :
  ingest_inv limits sizes n st -> n + 1 <= entry_count st -> zlen (path_components p) <= max_path_depth limits ->
  ingest_named st p m insert_it = Ok st' ->
  insert_it = Ok st' \/ ingest_inv limits sizes (n + 1) st'.
Proof using Hw.
  intros Hinv Hn Hlen. unfold ingest_named. destruct (classify_whiteout (path_filename p)) as [| |real] eqn:Hcl; [by left | |].
  - destruct (apply_opaque_xattr (tree st) p) as [t|] eqn:Ha; [|done]. intros [= <-]. right.
    assert (Hf : path_filename p <> []).
    { intros Hf. rewrite Hf in Hcl. done. }
    destruct (components_split p Hf) as [Hcs _].
    destruct (apply_opaque_step limits sizes (saw_hardlink st) (tree st) p t Hw Ha) as [Ht Hg].
    + rewrite Hcs, length_app in Hlen. simpl in Hlen. lia.
    + apply Hinv.
    + by apply inv_change.
  - destruct (classify_name _ _ Hcl) as (Hf & Hr & Hs). destruct (components_split p Hf) as [Hcs Hslash]. intros Hins. right.
    refine (inv_insert sizes n st _ _ st' Hinv Hn _ _ _ _ _ Hins); try done.
    rewrite components_replace by auto. rewrite Hcs in Hlen. revert Hlen. rewrite !length_app. simpl. lia.
Qed.

Lemma inv_regular sizes n st p m e st' :
  ingest_inv limits sizes n st -> n + 1 <= entry_count st -> zlen (path_components p) <= max_path_depth limits ->
  ingest_regular limits st p m e = Ok st' -> exists sizes', ingest_inv limits sizes' (n + 1) st'.
Proof using Hw.
  intros Hinv Hn Hlen. unfold ingest_regular. destruct (header_size e) as [size|]; [|done]. cbn [ok_or].
  set (sz := Z.of_N size). assert (Hsz : 0 <= sz) by lia.
  destruct (max_file_size limits <? sz) eqn:Hmax; [done|]. set (total := Z.min (total_size st + sz) (2 ^ 64 - 1)).
  destruct (max_total_size limits <? total) eqn:Htot; [done|]. breflect.
  set (st1 := mkState (tree st) (entry_count st) total (saw_hardlink st) (next_id st) (st_files st) (st_spool st)).
  assert (Htotal : total = total_size st + sz) by (destruct Hw; lia).
  assert (Hinv1 : ingest_inv limits sizes n st1) by (destruct Hinv; constructor; cbn; try done; lia).
  intros Hnamed. destruct (inv_named sizes n st1 p m _ st' Hinv1 Hn Hlen Hnamed) as [Hreg|]; [|by eauto].
  destruct (read_file st1 (body e) sz) as [[[files spool] d]|] eqn:Hread; [|done]. cbn [fst snd] in Hreg.
  apply read_file_len in Hread; [|done].
  set (node := RegularFile (mkRegular (next_id st1) m [] d 1)) in Hreg.
  destruct (insert_into (tree st1) p node) as [t|] eqn:Hins; [|done]. injection Hreg as <-.
  destruct Hinv as [HT HN HE HS HP HF HL]. assert (Hfresh : sizes !! next_id st = None) by (by apply HF).
  destruct (insert_step limits (<[next_id st := sz]> sizes) (saw_hardlink st) (tree st1) p node t Hins Hlen) as [Ht [Hg1 Hg2]]; try done.
  { cbn. rewrite lookup_insert_eq, Hread. done. }
  { by apply tree_ok_size. }
  exists (<[next_id st := sz]> sizes). constructor; cbn [tree entry_count total_size saw_hardlink next_id st1].
  - done.
  - cbn [st1 tree] in Hg1. lia.
  - lia.
  - rewrite msum_insert_new by done. lia.
  - by apply map_Forall_insert_2.
  - intros i Hi. rewrite lookup_insert_ne by lia. apply HF. lia.
  - intros Hs i. specialize (HL Hs i). specialize (Hg2 i). cbn [st1 tree links node id] in Hg2.
    change (next_id st1) with (next_id st) in Hg2. destruct (Z.eqb_spec (next_id st) i) as [Heq|Hne]; [subst i|].
    + rewrite Z.ltb_irrefl in HL. rewrite (proj2 (Z.ltb_lt _ _)) by lia. cbn [links] in *. lia.
    + destruct (Z.ltb_spec i (next_id st)), (Z.ltb_spec i (next_id st + 1)); cbn [links] in *; lia.
Qed.

Lemma relink_ok sizes :
  keeps_children relink /\ (forall n, node_ok limits sizes true n -> node_ok limits sizes true (relink n))
  /\ (forall n, count_node (relink n) = count_node n) /\ (forall i n, links i (relink n) = links i n).
Proof using Type.
  assert (Hc : forall d, file_len (clone_ref d).2 = file_len d) by (by intros []). split_and!.
  - intros []; try done; simpl; split; try done; split; intros [d Hd]; done.
  - intros []; try done. simpl. rewrite Hc. naive_solver.
  - by intros [].
  - by intros i [].
Qed.

Lemma inv_link sizes n st p e st' :
  ingest_inv limits sizes n st -> n + 1 <= entry_count st -> zlen (path_components p) <= max_path_depth limits ->
  ingest_link limits st p e = Ok st' -> ingest_inv limits sizes (n + 1) st'.
Proof using Hw.
  intros [HT HN HE HS HP HF HL] Hn Hlen. unfold ingest_link.
  destruct (link_name_bytes e) as [[link|]|]; try done. cbn [ok_or]. destruct (normalize_path link limits) as [[target|]|]; try done.
  cbn [ok_or]. unfold handle_hardlink. destruct (tree_get (tree st) target) as [[f| | | | | |]|] eqn:Hget; try done.
  destruct (insert_into _ p _) as [t|] eqn:Hins; [|done]. intros [= <-].
  destruct (relink_ok sizes) as (Hk & Ho & Hc & Hl). apply tree_ok_linked in HT.
  assert (Hf : node_ok limits sizes true (RegularFile f)).
  { unfold tree_get in Hget. destruct (split_path target) as [comps|]; [|done]. by destruct (HT _ _ Hget) as (_ & _ & ?). }
  destruct (mut_step limits sizes true (tree st) target relink Hk Ho Hc Hl HT) as (HT1 & HN1 & HL1).
  destruct (insert_step limits sizes true _ _ _ _ Hins Hlen) as [HT2 [HN2 HL2]]; try done.
  { simpl in *. assert (Hc1 : file_len (clone_ref (data f)).1 = file_len (data f)) by (by destruct (data f)). rewrite Hc1. naive_solver. }
  constructor; cbn [tree entry_count total_size saw_hardlink next_id]; try done; lia.
Qed.

Lemma inv_entry sizes n st entry st' :
  ingest_inv limits sizes n st -> ingest_entry limits st entry = Ok st' ->
  exists sizes' n', ingest_inv limits sizes' n' st'.
Proof using Hw.
  intros Hinv. unfold ingest_entry. destruct entry as [e|]; [|done]. cbn [ok_or].
  destruct (max_entry_count limits <? entry_count st + 1) eqn:Hcount; [done|]. breflect.
  set (st1 := mkState (tree st) (entry_count st + 1) (total_size st) (saw_hardlink st) (next_id st) (st_files st) (st_spool st)).
  assert (Hinv1 : ingest_inv limits sizes n st1) by (destruct Hinv; constructor; cbn; try done; lia).
  assert (Hn : n + 1 <= entry_count st1) by (destruct Hinv; cbn; lia).
  destruct (path_bytes e) as [raw|]; [|done]. cbn [ok_or]. destruct (normalize_path raw limits) as [[p|]|] eqn:Hnorm; [|by intros [= <-]; eauto|done].
  apply normalize_path_depth in Hnorm as Hlen.
  assert (Hins : forall node, children node = ∅ -> count_node node = 1 -> (forall i, links i node = 0) ->
            node_ok limits sizes (saw_hardlink st1) node -> insert_in st1 p node = Ok st' -> exists sizes' n', ingest_inv limits sizes' n' st').
  { intros node H1 H2 H3 H4 H5. exists sizes, (n + 1). by eapply inv_insert. }
  destruct (entry_type e).
  - intros Hl. exists sizes, (n + 1). by eapply inv_link.
  - by apply Hins.
  - unfold ingest_symlink. destruct (link_name_bytes e) as [[link|]|]; try done. cbn [ok_or].
    destruct (max_symlink_target limits <? zlen link) eqn:Hs; [done|]. breflect.
    intros Hnamed. destruct (inv_named _ _ _ _ _ _ _ Hinv1 Hn Hlen Hnamed) as [Hi|]; [by apply (Hins (Symlink (mkSymlink (extract_metadata e) link))) | eauto].
  - intros Hr. destruct (inv_regular _ _ _ _ _ _ _ Hinv1 Hn Hlen Hr) as [sizes' ?]. eauto.
  - intros Hr. destruct (inv_regular _ _ _ _ _ _ _ Hinv1 Hn Hlen Hr) as [sizes' ?]. eauto.
  - unfold ingest_device. destruct (device_major e), (device_minor e); try done. by apply Hins.
  - unfold ingest_device. destruct (device_major e), (device_minor e); try done. by apply Hins.
  - by apply Hins.
  - destruct (kind =? 96); [by apply Hins | intros [= <-]; eauto].
Qed.

Lemma inv_from sizes n st entries st' :
  ingest_inv limits sizes n st -> ingest_from limits st entries = Ok st' -> exists sizes' n', ingest_inv limits sizes' n' st'.
Proof using Hw.
  unfold ingest_from. revert sizes n st. induction entries as [|e entries IH]; intros sizes n st Hinv; cbn [try_fold].
  - intros [= <-]. eauto.
  - destruct (ingest_entry limits st e) as [st1|] eqn:He; [|done]. destruct (inv_entry _ _ _ _ _ Hinv He) as (sizes1 & n1 & Hinv1).
    by apply IH with sizes1 n1.
Qed.

Lemma inv_start next files spool : ingest_inv limits ∅ 0 (mkState new_tree 0 0 false next files spool).
Proof using Hw.
  destruct Hw. constructor; cbn; try done.
  - intros q node. cbn. by rewrite node_at_empty.
  - rewrite msum_empty. lia.
  - intros _ i. rewrite msum_empty. destruct (i <? next); lia.
Qed.
End entry.

(** ** Sizes *)

Section sizes.
Context (sizes : gmap Z Z).

(** The files seen so far are counted once each. *)
Definition counted (acc : gset Z * Z) : Prop :=
  acc.2 = msum (fun i v => if bool_decide (i ∈ acc.1) then v else 0) sizes.
Definition keeps_counted (acc acc' : gset Z * Z) : Prop := counted acc -> counted acc'.
#[local] Instance keeps_counted_preorder : PreOrder keeps_counted.
Proof using Type. split; [by intros x Hx|]. intros x y z Hxy Hyz Hx. by apply Hyz, Hxy. Qed.

Lemma counted_once node acc :
  (forall q f, node_under node q = Some (RegularFile f) -> sizes !! id f = Some (file_len (data f))) ->
  counted acc -> counted (data_size_once node acc).
Proof using Type.
  revert acc. induction node as [node IH] using tree_ind. intros acc Hf Hacc.
  destruct node as [f|dir| | | | |]; cbn [data_size_once]; try done.
  - destruct (bool_decide_reflect (id f ∈ acc.1)) as [|Hnew]; [done|]. unfold counted in *. cbn [fst snd].
    specialize (Hf [] f eq_refl). rewrite Hacc. symmetry.
    rewrite (msum_ext_except (fun i v => if bool_decide (i ∈ acc.1) then v else 0) _ sizes (id f)), Hf.
    + simpl. rewrite (bool_decide_eq_false_2 (id f ∈ acc.1)), bool_decide_eq_true_2 by set_solver. lia.
    + intros j v Hj _. by rewrite (bool_decide_ext (j ∈ acc.1) (j ∈ {[id f]} ∪ acc.1)) by set_solver.
  - apply (fold_keeps (fun _ child acc => data_size_once child acc) keeps_counted); [|done].
    intros k child acc' Hk Hacc'. apply (IH k child Hk); [|done]. intros q f Hq. apply (Hf (k :: q) f).
    cbn [node_under children]. by rewrite node_at_under, Hk.
Qed.

Lemma total_data_size_bound t :
  map_Forall (fun _ v => 0 <= v) sizes ->
  (forall q f, node_at (entries (root t)) q = Some (RegularFile f) -> sizes !! id f = Some (file_len (data f))) ->
  total_data_size t <= msum (fun _ v => v) sizes.
Proof using Type.
  intros Hpos Hf. unfold total_data_size.
  assert (Hc : counted (data_size_once (Directory (root t)) (∅, 0))).
  { apply counted_once.
    - intros [|k q] f Hq; [done|]. by apply (Hf (k :: q)).
    - unfold counted. cbn [fst snd]. rewrite (msum_ext _ (fun _ _ => 0)); [|intros; by rewrite bool_decide_eq_false_2 by set_solver].
      clear. induction sizes as [|i v m Hi IH] using map_ind; [by rewrite msum_empty|]. rewrite msum_insert_new by done. lia. }
  rewrite Hc. apply msum_le. intros i v Hv. specialize (Hpos i v Hv). simpl in Hpos. destruct (bool_decide _); lia.
Qed.
End sizes.

(** ** Theorems *)

Lemma refresh_nodes t q n :
  node_at (entries (root (refresh_regular_nlinks t))) q = Some n ->
  exists n0 counts, node_at (entries (root t)) q = Some n0 /\ n = refresh_nlink counts n0.
Proof.
  unfold refresh_regular_nlinks. cbn [root map_entries entries]. rewrite node_at_fmap by (by intros []).
  intros (n0 & Hn & ->)%fmap_Some. eauto.
Qed.

Lemma refresh_count t : node_count (refresh_regular_nlinks t) = node_count t.
Proof.
  unfold node_count, count_nodes_in_dir, refresh_regular_nlinks. cbn [root map_entries entries].
  apply msum_fmap. intros k c _. generalize (regular_file_link_counts t). intros counts.
  induction c as [c IH] using tree_ind. destruct c as [|dir| | | | |]; try done. cbn [refresh_nlink count_node entries].
  f_equal. apply msum_fmap. intros j d Hj. by apply (IH j).
Qed.

Lemma ingest_result limits entries_ next files spool st :
  limits_wf limits -> ingest_tar limits entries_ next files spool = Ok st ->
  exists sizes n st0, ingest_inv limits sizes n st0
    /\ st = (if saw_hardlink st0 then set_tree st0 (refresh_regular_nlinks (tree st0)) else st0).
Proof.
  intros Hw. unfold ingest_tar. destruct (ingest_from _ _ _) as [st0|] eqn:Hf; [|done]. intros [= <-].
  destruct (inv_from limits Hw _ _ _ _ _ (inv_start limits Hw next files spool) Hf) as (sizes & n & Hinv). eauto.
Qed.

Lemma node_limits limits sizes linked n0 counts :
  node_ok limits sizes linked n0 ->
  match refresh_nlink counts n0 with
  | RegularFile f => sizes !! id f = Some (file_len (data f)) /\ file_len (data f) <= max_file_size limits
  | Symlink l => zlen (target l) <= max_symlink_target limits
  | _ => True
  end.
Proof. destruct n0; try done. simpl. naive_solver. Qed.

(** What a layer's tar stream can make the host build is limited. When
    ingestion succeeds, no entry of the tree is named "", ".." or contains a slash, no
    path is deeper and no symlink target, file or total content larger than the limits, and
    the number of nodes is at most the entries times the depth allowed;
    whatever the tar entries are. *)
Lemma ingest_limits_enforced limits es next files spool st :
  limits_wf limits -> ingest_tar limits es next files spool = Ok st ->
  (forall q node, node_at (entries (root (tree st))) q = Some node ->
     Forall valid_name q /\ zlen q <= max_path_depth limits
     /\ match node with
        | RegularFile f => file_len (data f) <= max_file_size limits
        | Symlink l => zlen (target l) <= max_symlink_target limits
        | _ => True
        end)
  /\ node_count (tree st) <= max_entry_count limits * max_path_depth limits
  /\ total_data_size (tree st) <= max_total_size limits.
Proof.
  intros Hw (sizes & n & st0 & [HT HN HE HS HP HF _] & ->)%ingest_result; [|done].
  assert (Hnodes : forall t q node, t = tree st0 \/ t = refresh_regular_nlinks (tree st0) -> node_at (entries (root t)) q = Some node ->
    Forall valid_name q /\ zlen q <= max_path_depth limits
    /\ match node with
       | RegularFile f => sizes !! id f = Some (file_len (data f)) /\ file_len (data f) <= max_file_size limits
       | Symlink l => zlen (target l) <= max_symlink_target limits
       | _ => True
       end).
  { intros t q node [->| ->] Hat.
    - destruct (HT q node Hat) as (H1 & H2 & H3). split_and!; [done..|]. destruct node; naive_solver.
    - apply refresh_nodes in Hat as (n0 & counts & Hn0 & ->). destruct (HT q n0 Hn0) as (H1 & H2 & H3).
      split_and!; [done..|]. by apply (node_limits limits sizes (saw_hardlink st0)). }
  set (t := tree (if saw_hardlink st0 then _ else _)).
  assert (Ht : t = tree st0 \/ t = refresh_regular_nlinks (tree st0)) by (unfold t; destruct (saw_hardlink st0); auto).
  assert (Hcount : node_count t = node_count (tree st0)) by (destruct Ht as [->| ->]; [done | apply refresh_count]).
  split_and!.
  - intros q node Hat. destruct (Hnodes t q node Ht Hat) as (H1 & H2 & H3). split_and!; [done..|]. destruct node; naive_solver.
  - destruct Hw. rewrite Hcount. nia.
  - enough (total_data_size t <= msum (fun _ v => v) sizes) by lia. apply total_data_size_bound; [done|]. intros q f Hat. by destruct (Hnodes t q _ Ht Hat) as (_ & _ & ? & _).
Qed.

(** After ingestion every regular file's link count is the number of
    entries that name it, hard links or not, as the 32-bit counter holds it. *)
Lemma ingest_nlinks_exact limits es next files spool st q f :
  limits_wf limits -> ingest_tar limits es next files spool = Ok st ->
  node_at (entries (root (tree st))) q = Some (RegularFile f) ->
  nlink f = wrap 32 (links (id f) (Directory (root (tree st)))).
Proof.
  intros Hw (sizes & n & st0 & [HT _ _ _ _ _ HL] & ->)%ingest_result; [|done].
  destruct (saw_hardlink st0) eqn:Hs; [apply refresh_exact|]. intros Hat.
  destruct (HT q _ Hat) as (_ & _ & _ & _ & Hone). rewrite (Hone eq_refl).
  pose proof (links_at _ _ _ Hat) as Hge. specialize (HL eq_refl (id f)). cbn [links] in *.
  assert (msum (fun _ c => links (id f) c) (entries (root (tree st0))) = 1) as -> by (destruct (id f <? next_id st0); lia).
  done.
Qed.

(** ** Spooled contents *)

Lemma spool_loop_exact fuel files s b pieces remaining wb :
  spool_ready files s b -> Forall (fun c => c <> []) pieces -> (remaining <= fuel)%nat -> (remaining <= length (concat pieces))%nat ->
  exists files' s', spool_loop fuel files s pieces remaining wb = Ok (files', s')
    /\ spool_ready files' s' (b ++ wb ++ take remaining (concat pieces)) /\ spool_id s' = spool_id s.
Proof.
  revert files s b pieces remaining wb. induction fuel as [|fuel IH]; intros files s b pieces [|n] wb Hr Hall Hf Hlen; try lia.
  1,2: cbn [spool_loop]; rewrite take_0, app_nil_r; destruct wb as [|w wb];
    [exists files, s; by rewrite app_nil_r
    | destruct (write_chunk_ready files s b (w :: wb) Hr) as [H1 H2]; eexists _, _; split; [by rewrite <- surjective_pairing | done]].
  cbn [spool_loop]. set (k := Nat.min (S n) ENTRY_READ_CHUNK_SIZE).
  assert (Hk : (0 < k <= S n)%nat) by (unfold k, ENTRY_READ_CHUNK_SIZE; lia).
  destruct (read_loop_exact k k pieces k [] Hall) as (rest & Hread & Hrest & Hall'); [lia..|].
  unfold read_exact_pieces. rewrite Hread. cbn [app snd fst].
  assert (Hcut : take k (concat pieces) ++ take (S n - k) (concat rest) = take (S n) (concat pieces)).
  { rewrite Hrest, take_take_drop. f_equal. lia. }
  assert (Hl : (S n - k <= length (concat rest))%nat) by (rewrite Hrest, length_drop; lia).
  destruct (_ && _).
  - destruct (write_chunk_ready files s b wb Hr) as [H1 H2]. destruct (write_chunk files s wb) as [files1 s1]. cbn [fst snd] in *.
    destruct (IH files1 s1 _ rest (S n - k)%nat ([] ++ take k (concat pieces)) H1 Hall') as (files' & s' & Hsp & Hready & Hid); [lia..|].
    exists files', s'. split_and!; [done| |congruence]. revert Hready. cbn [app]. by rewrite Hcut, <- app_assoc.
  - destruct (IH files s b rest (S n - k)%nat (wb ++ take k (concat pieces)) Hr Hall') as (files' & s' & Hsp & Hready & Hid); [lia..|].
    exists files', s'. split_and!; [done| |done]. revert Hready. by rewrite <- app_assoc, Hcut.
Qed.

(** Several bodies streamed one after the other. *)
Fixpoint stream_all (files : spools) (s : DataSpool) (bodies : list (list (list byte)))
    : result IngestError (spools * DataSpool * list FileData) :=
  match bodies with
  | [] => Ok (files, s, [])
  | pieces :: rest =>
      let? r := stream_entry_to_spool files s pieces (zlen (concat pieces)) in
      let? rs := stream_all r.1.1 r.1.2 rest in
      Ok (rs.1, r.2 :: rs.2)
  end.

Fixpoint refs_from (i : nat) (off : Z) (bodies : list (list (list byte))) : list FileData :=
  match bodies with
  | [] => []
  | pieces :: rest => Spool i off (zlen (concat pieces)) :: refs_from i (off + zlen (concat pieces)) rest
  end.

Lemma stream_all_refs files s b bodies :
  spool_ready files s b -> Forall (fun pieces => Forall (fun c => c <> []) pieces) bodies ->
  exists files' s', stream_all files s bodies = Ok (files', s', refs_from (spool_id s) (zlen b) bodies)
    /\ spool_ready files' s' (b ++ concat (map (@concat byte) bodies)) /\ spool_id s' = spool_id s.
Proof.
  intros Hr Hall. revert files s b Hr. induction Hall as [|pieces bodies Hp Hall IH]; intros files s b Hr; cbn [stream_all refs_from map concat].
  - exists files, s. by rewrite app_nil_r.
  - unfold stream_entry_to_spool. rewrite Nat2Z.id.
    destruct (spool_loop_exact (length (concat pieces)) files s b pieces (length (concat pieces)) [] Hr Hp) as (f1 & s1 & Hl & Hr1 & Hid); [lia..|].
    rewrite Hl. cbn [app fst snd] in *. rewrite firstn_all in Hr1.
    destruct (IH f1 s1 _ Hr1) as (files' & s' & Hst & Hr' & Hid'). rewrite Hst. exists files', s'. cbn [fst snd]. split_and!.
    + destruct Hr as [_ Ho]. unfold data_ref. rewrite Hid, Ho. do 4 f_equal. len.
    + by rewrite app_assoc.
    + congruence.
Qed.

(** Contents that go through the spool come back byte for byte. Streaming any
    number of bodies succeeds, however their readers cut them into pieces, and
    afterwards both ways of reading each reference return exactly its body,
    whatever was spooled before and after it. *)
Lemma spooled_contents_exact files s b bodies :
  spool_ready files s b -> Forall (fun pieces => Forall (fun c => c <> []) pieces) bodies ->
  exists files' s' refs, stream_all files s bodies = Ok (files', s', refs)
    /\ Forall2 (fun d pieces => (read_all files' d).2 = Some (concat pieces) /\ (write_to files' d).2 = Some (concat pieces)) refs bodies.
Proof.
  intros Hr Hall. destruct (stream_all_refs files s b bodies Hr Hall) as (files' & s' & Hst & [Hf _] & Hid).
  exists files', s', (refs_from (spool_id s) (zlen b) bodies). split; [done|]. rewrite Hid in Hf. clear Hr Hall Hst.
  set (f := mkFile _ _) in Hf. assert (Hc : contents f = b ++ concat (map (@concat byte) bodies)) by done. clearbody f.
  revert b Hc. induction bodies as [|pieces bodies IH]; intros b Hc; cbn [refs_from map concat] in *; [constructor|].
  constructor; [by apply (read_region files' (spool_id s) f b (concat pieces) (concat (map (@concat byte) bodies)))|].
  specialize (IH (b ++ concat pieces)). rewrite length_app, Nat2Z.inj_add in IH. apply IH. by rewrite Hc, app_assoc.
Qed.

(** ** Examples *)

Definition demo_entry (kind : EntryType) (p : string) (link : option string) (size : N) (pieces : list (list byte)) : option tar_entry :=
  Some (mkEntry kind (Some (bytes_of p)) (Some (bytes_of <$> link)) (Some 0) (Some 0) (Some 420) (Some 7) (Some size)
    (Some None) (Some None) pieces).

(** A directory, a file in two pieces, a hard link to it, a whiteout and an
    opaque marker. *)
Definition demo_tar : list (option tar_entry) :=
  [demo_entry DirectoryEntry "./d/" None 0 [];
   demo_entry Regular "d/a" None 3 [[x61]; [x62; x63]];
   demo_entry Link "/d/b" (Some "./d/a") 0 [];
   demo_entry Regular "d/.wh.c" None 0 [];
   demo_entry Regular "e/.wh..wh..opq" None 0 []]%string.

Lemma default_limits_wf : limits_wf limits_default.
Proof. by constructor. Qed.

Definition demo_ingest : result IngestError ingest_state := ingest_tar limits_default demo_tar 1 ∅ None.

Lemma demo_is_ok : is_ok demo_ingest = true.
Proof. vm_compute. reflexivity. Qed.

Lemma demo_ingest_ok :
  match demo_ingest with
  | Ok st =>
      let es := entries (root (tree st)) in
      node_count (tree st) = 5 /\ total_data_size (tree st) = 3
      /\ match node_at es [key_d; key_b] with Some (RegularFile f) => nlink f = 2 /\ data f = SharedMemory [x61; x62; x63] | _ => False end
      /\ is_whiteout_device <$> node_at es [key_d; key_c] = Some true
      /\ match node_at es [bytes_of "e"] with Some (Directory dir) => has_opaque_xattr dir = true | _ => False end
  | Err _ => False
  end.
Proof. vm_compute. done. Qed.

Lemma ingest_limits_enforced_witness :
  match demo_ingest with Ok st => node_count (tree st) <= max_entry_count limits_default * max_path_depth limits_default | Err _ => False end.
Proof.
  destruct demo_ingest as [st|e] eqn:Hst; unfold demo_ingest in Hst; [|pose proof demo_is_ok as Hok; unfold demo_ingest in Hok; rewrite Hst in Hok; discriminate Hok].
  exact (proj1 (proj2 (ingest_limits_enforced limits_default demo_tar 1 ∅ None st default_limits_wf Hst))).
Defined.

Lemma ingest_nlinks_exact_witness :
  match demo_ingest with
  | Ok st => forall f, node_at (entries (root (tree st))) [key_d; key_b] = Some (RegularFile f) ->
               nlink f = wrap 32 (links (id f) (Directory (root (tree st))))
  | Err _ => False
  end.
Proof.
  destruct demo_ingest as [st|e] eqn:Hst; unfold demo_ingest in Hst; [|pose proof demo_is_ok as Hok; unfold demo_ingest in Hok; rewrite Hst in Hok; discriminate Hok].
  intros f. exact (ingest_nlinks_exact limits_default demo_tar 1 ∅ None st [key_d; key_b] f default_limits_wf Hst).
Defined.

Lemma spooled_contents_exact_witness :
  exists files' s' refs, stream_all (spool_new ∅ 0).1 (spool_new ∅ 0).2 [[[x61]; [x62; x63]]; [[x64]]] = Ok (files', s', refs)
    /\ Forall2 (fun d pieces => (read_all files' d).2 = Some (concat pieces) /\ (write_to files' d).2 = Some (concat pieces))
         refs [[[x61]; [x62; x63]]; [[x64]]].
Proof.
  apply (spooled_contents_exact _ _ [] _ (spool_new_ready ∅ 0)).
  repeat constructor; intros H; discriminate H.
Defined.

(** An interior "." is kept as the name of a directory. *)
Example interior_dot_is_a_name :
  match ingest_tar limits_default [demo_entry Regular "d/./a" None 0 []] 1 ∅ None with
  | Ok st => node_at (entries (root (tree st))) [key_d; [x2e]; key_a] <> None /\ node_at (entries (root (tree st))) [key_d; key_a] = None
  | Err _ => False
  end.
Proof. vm_compute. done. Qed.
