(* ===== verification/MemFs.v ===== *)
(** * The in-memory filesystem

    Models [crates/filesystem/lib/backends/memfs]: the inode table, the file
    and directory handles, and every FUSE operation that changes them.

    Nodes are shared through [Arc] pointers that outlive their entry in the
    inode table, so the state keeps the nodes themselves ([fs_arcs]) apart from
    the set of numbers the table holds ([fs_nodes]).  A pointer is named by the
    inode number of its node: [next_inode] only grows, so numbers are never
    reused.  [Arc::strong_count] counts the table, the handles and the pointers
    that the running operation and its callers keep in local variables, which
    are passed as [held].

    Each operation takes the clock readings it makes and returns the state with
    its [io::Result].  [do_read] yields the slice it gives to the reply writer
    and [do_write] takes the bytes the request reader delivered: the staging
    file in between only carries them.  The embedded init binary is a section
    variable. *)

From S2P Require Import Prelude.
From Stdlib Require Import Strings.Byte.

(** ** Errors of [platform.rs] *)

Inductive errno :=
| EPERM | ENOENT | EIO | ENXIO | EBADF | EACCES | EEXIST | ENODEV | ENOTDIR | EISDIR | EINVAL
| EFBIG | ENOSPC | ERANGE | ENAMETOOLONG | ENOTEMPTY | ENODATA | EOPNOTSUPP.

Definition raw_os_error (e : errno) : Z :=
  match e with
  | EPERM => 1 | ENOENT => 2 | EIO => 5 | ENXIO => 6 | EBADF => 9 | EACCES => 13 | EEXIST => 17
  | ENODEV => 19 | ENOTDIR => 20 | EISDIR => 21 | EINVAL => 22 | EFBIG => 27 | ENOSPC => 28
  | ERANGE => 34 | ENAMETOOLONG => 36 | ENOTEMPTY => 39 | ENODATA => 61 | EOPNOTSUPP => 95
  end.

Abbreviation io A := (result errno A).

(** ** Constants *)

Definition MODE_TYPE_MASK : Z := 0xf000.
Definition MODE_REG : Z := 0x8000.
Definition MODE_DIR : Z := 0x4000.
Definition MODE_LNK : Z := 0xa000.
Definition MODE_CHR : Z := 0x2000.
Definition MODE_BLK : Z := 0x6000.
Definition MODE_FIFO : Z := 0x1000.
Definition MODE_SOCK : Z := 0xc000.
Definition MODE_SETUID : Z := 0x800.
Definition MODE_SETGID : Z := 0x400.
Definition PERM_MASK : Z := 0xfff.

Definition DIRENT_REG : Z := 8.
Definition DIRENT_DIR : Z := 4.
Definition DIRENT_LNK : Z := 10.
Definition DIRENT_CHR : Z := 2.
Definition DIRENT_BLK : Z := 6.
Definition DIRENT_FIFO : Z := 1.
Definition DIRENT_SOCK : Z := 12.
Definition DT_UNKNOWN : Z := 0.

Definition ACCESS_F_OK : Z := 0.
Definition ACCESS_R_OK : Z := 4.
Definition ACCESS_W_OK : Z := 2.
Definition ACCESS_X_OK : Z := 1.

Definition GUEST_O_WRONLY : Z := 1.
Definition GUEST_O_RDWR : Z := 2.
Definition GUEST_O_TRUNC : Z := 0x200.
Definition GUEST_O_APPEND : Z := 0x400.

Definition RENAME_NOREPLACE : Z := 1.
Definition RENAME_EXCHANGE : Z := 2.
Definition KNOWN_RENAME_FLAGS : Z := Z.lor RENAME_NOREPLACE RENAME_EXCHANGE.

Definition SEEK_SET : Z := 0.
Definition SEEK_END : Z := 2.
Definition SEEK_DATA : Z := 3.
Definition SEEK_HOLE : Z := 4.
Definition FALLOC_FL_PUNCH_HOLE : Z := 2.
Definition FALLOC_FL_KEEP_SIZE : Z := 1.
Definition XATTR_CREATE : Z := 1.
Definition XATTR_REPLACE : Z := 2.

Definition ROOT_INODE : Z := 1.
Definition INIT_INODE : Z := 2.
Definition INIT_HANDLE : Z := 0.
Definition NAME_MAX : Z := 255.
Definition I64_MAX : Z := 2 ^ 63 - 1.

(** Names are byte strings; [flags & bit != 0] and [flags & !bits]. *)
Abbreviation name := (list byte).
Definition has_bits (flags bits : Z) : bool := negb (Z.land flags bits =? 0).
Definition without_bits (flags bits : Z) : Z := Z.ldiff flags bits.

Definition dot : name := [Byte.x2e].
Definition dotdot : name := [Byte.x2e; Byte.x2e].
Definition slash : byte := Byte.x2f.
Definition INIT_FILENAME : name :=
  [Byte.x69; Byte.x6e; Byte.x69; Byte.x74; Byte.x2e; Byte.x6b; Byte.x72; Byte.x75; Byte.x6e].

Definition is_init_name (n : name) : bool := bool_decide (n = INIT_FILENAME).

(** ** Name validation *)

Definition validate_name (n : name) : io unit :=
  if bool_decide (n = []) then Err EINVAL
  else if bool_decide (n = dotdot) then Err EPERM
  else if bool_decide (slash ∈ n) then Err EPERM
  else Ok tt.

Definition validate_memfs_name (n : name) : io unit :=
  let? _ := validate_name n in
  if bool_decide (n = dot) then Err EPERM
  else if NAME_MAX <? zlen n then Err ENAMETOOLONG
  else Ok tt.

(** ** State *)

Record Timespec := mkTimespec { ts_sec : Z; ts_nsec : Z }.

Record InodeMeta := mkMeta {
  im_uid : Z; im_gid : Z; im_mode : Z; im_rdev : Z; im_nlink : Z; im_size : Z;
  im_atime : Timespec; im_mtime : Timespec; im_ctime : Timespec }.

Inductive InodeContent :=
| RegularFile (data : list byte)
| Directory (children : gmap name Z) (parent : Z)
| Symlink (target : list byte)
| Special.

Record MemNode := mkNode {
  mn_inode : Z; mn_kind : Z; mn_lookup_refs : Z; mn_meta : InodeMeta; mn_content : InodeContent;
  mn_xattrs : gmap name (list byte) }.

Record FileHandle := mkFileHandle { fh_node : Z; fh_flags : Z }.

Record MemDirEntry := mkDirEntry { de_name : name; de_inode : Z; de_offset : Z; de_file_type : Z }.

Record DirHandle := mkDirHandle { dh_node : Z; dh_snapshot : option (list MemDirEntry) }.

Inductive CachePolicy := CacheNever | CacheAuto | CacheAlways.

Record MemFsConfig := mkMemConfig {
  cfg_capacity : option Z; cfg_max_inodes : option Z; cfg_entry_timeout : Z; cfg_attr_timeout : Z;
  cfg_cache_policy : CachePolicy; cfg_writeback : bool }.

Record MemFs := mkMemFs {
  fs_arcs : gmap Z MemNode; fs_nodes : gset Z;
  fs_file_handles : gmap Z FileHandle; fs_dir_handles : gmap Z DirHandle;
  fs_next_inode : Z; fs_next_handle : Z; fs_used_bytes : Z; fs_inode_count : Z;
  fs_writeback : bool; fs_cfg : MemFsConfig }.

#[global] Instance timespec_inhabited : Inhabited Timespec := populate (mkTimespec 0 0).
#[global] Instance meta_inhabited : Inhabited InodeMeta :=
  populate (mkMeta 0 0 0 0 0 0 inhabitant inhabitant inhabitant).
#[global] Instance node_inhabited : Inhabited MemNode :=
  populate (mkNode 0 0 0 inhabitant Special ∅).

(** ** Access to the shared cells

    Field updates of a node through its pointer, and of the filesystem. *)

Definition with_arcs (fs : MemFs) (f : gmap Z MemNode -> gmap Z MemNode) : MemFs :=
  mkMemFs (f (fs_arcs fs)) (fs_nodes fs) (fs_file_handles fs) (fs_dir_handles fs) (fs_next_inode fs)
    (fs_next_handle fs) (fs_used_bytes fs) (fs_inode_count fs) (fs_writeback fs) (fs_cfg fs).
Definition with_nodes (fs : MemFs) (f : gset Z -> gset Z) : MemFs :=
  mkMemFs (fs_arcs fs) (f (fs_nodes fs)) (fs_file_handles fs) (fs_dir_handles fs) (fs_next_inode fs)
    (fs_next_handle fs) (fs_used_bytes fs) (fs_inode_count fs) (fs_writeback fs) (fs_cfg fs).
Definition with_file_handles (fs : MemFs) (f : gmap Z FileHandle -> gmap Z FileHandle) : MemFs :=
  mkMemFs (fs_arcs fs) (fs_nodes fs) (f (fs_file_handles fs)) (fs_dir_handles fs) (fs_next_inode fs)
    (fs_next_handle fs) (fs_used_bytes fs) (fs_inode_count fs) (fs_writeback fs) (fs_cfg fs).
Definition with_dir_handles (fs : MemFs) (f : gmap Z DirHandle -> gmap Z DirHandle) : MemFs :=
  mkMemFs (fs_arcs fs) (fs_nodes fs) (fs_file_handles fs) (f (fs_dir_handles fs)) (fs_next_inode fs)
    (fs_next_handle fs) (fs_used_bytes fs) (fs_inode_count fs) (fs_writeback fs) (fs_cfg fs).
Definition with_next_inode (fs : MemFs) (z : Z) : MemFs :=
  mkMemFs (fs_arcs fs) (fs_nodes fs) (fs_file_handles fs) (fs_dir_handles fs) z
    (fs_next_handle fs) (fs_used_bytes fs) (fs_inode_count fs) (fs_writeback fs) (fs_cfg fs).
Definition with_next_handle (fs : MemFs) (z : Z) : MemFs :=
  mkMemFs (fs_arcs fs) (fs_nodes fs) (fs_file_handles fs) (fs_dir_handles fs) (fs_next_inode fs)
    z (fs_used_bytes fs) (fs_inode_count fs) (fs_writeback fs) (fs_cfg fs).
Definition with_used_bytes (fs : MemFs) (z : Z) : MemFs :=
  mkMemFs (fs_arcs fs) (fs_nodes fs) (fs_file_handles fs) (fs_dir_handles fs) (fs_next_inode fs)
    (fs_next_handle fs) z (fs_inode_count fs) (fs_writeback fs) (fs_cfg fs).
Definition with_inode_count (fs : MemFs) (z : Z) : MemFs :=
  mkMemFs (fs_arcs fs) (fs_nodes fs) (fs_file_handles fs) (fs_dir_handles fs) (fs_next_inode fs)
    (fs_next_handle fs) (fs_used_bytes fs) z (fs_writeback fs) (fs_cfg fs).
Definition with_writeback (fs : MemFs) (b : bool) : MemFs :=
  mkMemFs (fs_arcs fs) (fs_nodes fs) (fs_file_handles fs) (fs_dir_handles fs) (fs_next_inode fs)
    (fs_next_handle fs) (fs_used_bytes fs) (fs_inode_count fs) b (fs_cfg fs).

Definition set_refs (f : Z -> Z) (n : MemNode) : MemNode :=
  mkNode (mn_inode n) (mn_kind n) (f (mn_lookup_refs n)) (mn_meta n) (mn_content n) (mn_xattrs n).
Definition set_meta (f : InodeMeta -> InodeMeta) (n : MemNode) : MemNode :=
  mkNode (mn_inode n) (mn_kind n) (mn_lookup_refs n) (f (mn_meta n)) (mn_content n) (mn_xattrs n).
Definition set_content (f : InodeContent -> InodeContent) (n : MemNode) : MemNode :=
  mkNode (mn_inode n) (mn_kind n) (mn_lookup_refs n) (mn_meta n) (f (mn_content n)) (mn_xattrs n).
Definition set_xattrs (f : gmap name (list byte) -> gmap name (list byte)) (n : MemNode) : MemNode :=
  mkNode (mn_inode n) (mn_kind n) (mn_lookup_refs n) (mn_meta n) (mn_content n) (f (mn_xattrs n)).

Definition set_mode (f : Z -> Z) (m : InodeMeta) : InodeMeta :=
  mkMeta (im_uid m) (im_gid m) (f (im_mode m)) (im_rdev m) (im_nlink m) (im_size m)
    (im_atime m) (im_mtime m) (im_ctime m).
Definition set_owner (uid gid : Z) (m : InodeMeta) : InodeMeta :=
  mkMeta uid gid (im_mode m) (im_rdev m) (im_nlink m) (im_size m) (im_atime m) (im_mtime m) (im_ctime m).
Definition set_nlink (f : Z -> Z) (m : InodeMeta) : InodeMeta :=
  mkMeta (im_uid m) (im_gid m) (im_mode m) (im_rdev m) (f (im_nlink m)) (im_size m)
    (im_atime m) (im_mtime m) (im_ctime m).
Definition set_size (z : Z) (m : InodeMeta) : InodeMeta :=
  mkMeta (im_uid m) (im_gid m) (im_mode m) (im_rdev m) (im_nlink m) z
    (im_atime m) (im_mtime m) (im_ctime m).
Definition set_atime (t : Timespec) (m : InodeMeta) : InodeMeta :=
  mkMeta (im_uid m) (im_gid m) (im_mode m) (im_rdev m) (im_nlink m) (im_size m) t (im_mtime m) (im_ctime m).
Definition set_mtime (t : Timespec) (m : InodeMeta) : InodeMeta :=
  mkMeta (im_uid m) (im_gid m) (im_mode m) (im_rdev m) (im_nlink m) (im_size m) (im_atime m) t (im_ctime m).
Definition set_ctime (t : Timespec) (m : InodeMeta) : InodeMeta :=
  mkMeta (im_uid m) (im_gid m) (im_mode m) (im_rdev m) (im_nlink m) (im_size m) (im_atime m) (im_mtime m) t.

(** [meta.mtime = now; meta.ctime = now]. *)
Definition touch (now : Timespec) (m : InodeMeta) : InodeMeta := set_ctime now (set_mtime now m).

(** The node behind a pointer, and an update of it. *)
Definition deref (fs : MemFs) (ino : Z) : MemNode := fs_arcs fs !!! ino.
Definition upd_node (fs : MemFs) (ino : Z) (f : MemNode -> MemNode) : MemFs := with_arcs fs (alter f ino).
Definition upd_meta (fs : MemFs) (ino : Z) (f : InodeMeta -> InodeMeta) : MemFs :=
  upd_node fs ino (set_meta f).

(** An early return with the state reached so far. *)
Notation "'try!' x ':=' c 'with' fs 'in' k" :=
  (match c with Ok x => k | Err e => (fs, Err e) end)
  (at level 10, x pattern, c at level 100, fs at level 100, k at level 200) : msb_scope.

(** ** Inode management, [inode.rs] *)

(** The test of the [max_inodes] limit. *)
Definition inodes_full (fs : MemFs) : bool :=
  match cfg_max_inodes (fs_cfg fs) with
  | Some max => max <=? fs_inode_count fs
  | None => false
  end.

Definition alloc_inode (fs : MemFs) : MemFs * io Z :=
  if inodes_full fs then (fs, Err ENOSPC)
  else
    let ino := fs_next_inode fs in
    (with_inode_count (with_next_inode fs (wrap 64 (ino + 1))) (wrap 64 (fs_inode_count fs + 1)), Ok ino).

(** [fs.inode_count.fetch_sub(1, ..)]. *)
Definition uncount_inode (fs : MemFs) : MemFs := with_inode_count fs (wrap 64 (fs_inode_count fs - 1)).

Definition get_node (fs : MemFs) (ino : Z) : io MemNode :=
  if bool_decide (ino ∈ fs_nodes fs) then ok_or (fs_arcs fs !! ino) EBADF else Err EBADF.

(** [stat64] as built on Linux. *)
Record stat64 := mkStat {
  st_ino : Z; st_mode : Z; st_nlink : Z; st_rdev : Z; st_uid : Z; st_gid : Z; st_size : Z;
  st_blksize : Z; st_blocks : Z; st_atime : Timespec; st_mtime : Timespec; st_ctime : Timespec }.

(** [as i64] of a 64-bit value. *)
Definition as_i64 (z : Z) : Z := if z <? 2 ^ 63 then z else z - 2 ^ 64.

Definition build_stat_from_meta (ino : Z) (m : InodeMeta) : stat64 :=
  mkStat ino (im_mode m) (im_nlink m) (im_rdev m) (im_uid m) (im_gid m) (as_i64 (im_size m)) 4096
    (Z.quot (as_i64 (im_size m) + 511) 512) (im_atime m) (im_mtime m) (im_ctime m).
Definition build_stat (n : MemNode) : stat64 := build_stat_from_meta (mn_inode n) (mn_meta n).

Record Entry := mkEntry {
  en_inode : Z; en_generation : Z; en_attr : stat64; en_attr_flags : Z;
  en_attr_timeout : Z; en_entry_timeout : Z }.

Definition build_entry (fs : MemFs) (n : MemNode) : Entry :=
  mkEntry (mn_inode n) 0 (build_stat n) 0 (cfg_attr_timeout (fs_cfg fs)) (cfg_entry_timeout (fs_cfg fs)).

Definition inc_lookup (fs : MemFs) (ino : Z) : MemFs :=
  upd_node fs ino (set_refs (fun r => wrap 64 (r + 1))).

(** The pointers to a node: the table, the handles, and those in local
    variables. *)
Definition handles_on (fs : MemFs) (ino : Z) : Z :=
  zlen (filter (fun p => fh_node p.2 = ino) (map_to_list (fs_file_handles fs)))
  + zlen (filter (fun p => dh_node p.2 = ino) (map_to_list (fs_dir_handles fs))).
Definition strong_count (fs : MemFs) (held : list Z) (ino : Z) : Z :=
  (if bool_decide (ino ∈ fs_nodes fs) then 1 else 0) + handles_on fs ino + zlen (filter (eq ino) held).

Definition reserve_bytes (fs : MemFs) (amount : Z) : MemFs * io unit :=
  if amount =? 0 then (fs, Ok tt)
  else match cfg_capacity (fs_cfg fs) with
  | None => (fs, Ok tt)
  | Some cap =>
      match checked_add 64 (fs_used_bytes fs) amount with
      | None => (fs, Err ENOSPC)
      | Some new => if cap <? new then (fs, Err ENOSPC) else (with_used_bytes fs new, Ok tt)
      end
  end.

Definition release_bytes (fs : MemFs) (amount : Z) : MemFs :=
  if 0 <? amount then with_used_bytes fs (wrap 64 (fs_used_bytes fs - amount)) else fs.

Definition data_of (n : MemNode) : option (list byte) :=
  match mn_content n with RegularFile d => Some d | _ => None end.

(** The pointer taken out of the table is itself one of the counted ones. *)
Definition evict_inode (fs : MemFs) (held : list Z) (ino : Z) : MemFs :=
  if bool_decide (ino ∈ fs_nodes fs) then
    let node := deref fs ino in
    let fs := with_nodes fs (fun s => s ∖ {[ino]}) in
    let fs :=
      match data_of node with
      | Some data =>
          if (strong_count fs (ino :: held) ino =? 1) && (0 <? zlen data)
          then release_bytes fs (zlen data) else fs
      | None => fs
      end in
    uncount_inode fs
  else fs.

Definition unreferenced (fs : MemFs) (ino : Z) : bool :=
  match get_node fs ino with
  | Ok node => (mn_lookup_refs node =? 0) && (im_nlink (mn_meta node) =? 0)
  | Err _ => false
  end.

Definition try_evict (fs : MemFs) (held : list Z) (ino : Z) : MemFs :=
  if unreferenced fs ino then evict_inode fs held ino else fs.

(** [fetch_sub] wraps; the store undoes it when the count was short. *)
Definition forget_one (fs : MemFs) (held : list Z) (ino count : Z) : MemFs :=
  match get_node fs ino with
  | Ok node =>
      let prev := mn_lookup_refs node in
      let fs := upd_node fs ino (set_refs (fun r => wrap 64 (r - count))) in
      let fs := if prev <? count then upd_node fs ino (set_refs (fun _ => 0)) else fs in
      if unreferenced fs ino then evict_inode fs held ino else fs
  | Err _ => fs
  end.

Definition dirent_type_from_mode (file_type : Z) : Z :=
  if file_type =? MODE_LNK then DIRENT_LNK
  else if file_type =? MODE_DIR then DIRENT_DIR
  else if file_type =? MODE_CHR then DIRENT_CHR
  else if file_type =? MODE_BLK then DIRENT_BLK
  else if file_type =? MODE_FIFO then DIRENT_FIFO
  else if file_type =? MODE_SOCK then DIRENT_SOCK
  else DIRENT_REG.
Definition mode_to_dtype (mode_type : Z) : Z := dirent_type_from_mode (Z.land mode_type MODE_TYPE_MASK).

(** ** Directories

    [children.write().insert] and [remove] through the pointer to a directory;
    nothing happens on another kind of node, as in the source's [if let]. *)

Definition set_children (f : gmap name Z -> gmap name Z) (c : InodeContent) : InodeContent :=
  match c with Directory ch p => Directory (f ch) p | _ => c end.
Definition set_parent (p : Z) (c : InodeContent) : InodeContent :=
  match c with Directory ch _ => Directory ch p | _ => c end.
Definition add_child (fs : MemFs) (dir : Z) (n : name) (ino : Z) : MemFs :=
  upd_node fs dir (set_content (set_children <[n := ino]>)).
Definition del_child (fs : MemFs) (dir : Z) (n : name) : MemFs :=
  upd_node fs dir (set_content (set_children (delete n))).
Definition store_parent (fs : MemFs) (dir p : Z) : MemFs := upd_node fs dir (set_content (set_parent p)).

Definition children_of (n : MemNode) : option (gmap name Z) :=
  match mn_content n with Directory ch _ => Some ch | _ => None end.
Definition parent_of (n : MemNode) : option Z :=
  match mn_content n with Directory _ p => Some p | _ => None end.

Record Context := mkContext { ctx_uid : Z; ctx_gid : Z }.

Inductive OpenOptions := OptNone | DIRECT_IO | KEEP_CACHE | CACHE_DIR.

Definition cache_open_options (fs : MemFs) : OpenOptions :=
  match cfg_cache_policy (fs_cfg fs) with
  | CacheNever => DIRECT_IO | CacheAuto => OptNone | CacheAlways => KEEP_CACHE
  end.
Definition cache_dir_options (fs : MemFs) : OpenOptions :=
  match cfg_cache_policy (fs_cfg fs) with
  | CacheNever => DIRECT_IO | CacheAuto => OptNone | CacheAlways => CACHE_DIR
  end.

Definition normalize_handle_flags (writeback : bool) (flags : Z) : Z :=
  if writeback then
    let flags := if has_bits flags GUEST_O_WRONLY
                 then Z.lor (without_bits flags GUEST_O_WRONLY) GUEST_O_RDWR else flags in
    without_bits flags GUEST_O_APPEND
  else flags.

(** ** Creation, [create_ops.rs] *)

(** The test every creating operation starts with. *)
Definition reserved_name (parent : Z) (n : name) : bool := (parent =? ROOT_INODE) && is_init_name n.

(** The entry for a new node in its parent; a refusal gives the number back to
    [inode_count]. *)
Definition insert_child (fs : MemFs) (parent : Z) (n : name) (ino : Z) : MemFs * io unit :=
  match children_of (deref fs parent) with
  | Some ch =>
      match ch !! n with
      | Some _ => (uncount_inode fs, Err EEXIST)
      | None => (add_child fs parent n ino, Ok tt)
      end
  | None => (uncount_inode fs, Err ENOTDIR)
  end.

Definition register (fs : MemFs) (node : MemNode) : MemFs :=
  with_nodes (with_arcs fs <[mn_inode node := node]>) (fun s => {[mn_inode node]} ∪ s).

Definition effective_mode (file_type mode umask : Z) : Z :=
  Z.lor file_type (Z.land (without_bits mode umask) PERM_MASK).

Definition fresh_meta (ctx : Context) (mode rdev nlink size : Z) (now : Timespec) : InodeMeta :=
  mkMeta (ctx_uid ctx) (ctx_gid ctx) mode rdev nlink size now now now.

Definition add_file_handle (fs : MemFs) (h : FileHandle) : MemFs * Z :=
  let handle := fs_next_handle fs in
  (with_file_handles (with_next_handle fs (wrap 64 (handle + 1))) <[handle := h]>, handle).

(** The checks and the allocation every creating operation starts with. *)
Definition begin_create (fs : MemFs) (parent : Z) (n : name) : MemFs * io Z :=
  try! _ := validate_memfs_name n with fs in
  if reserved_name parent n then (fs, Err EEXIST) else
  try! _ := get_node fs parent with fs in
  alloc_inode fs.

(** The end of every creating operation: the entry, the parent's metadata, the
    registration. *)
Definition insert_node (fs : MemFs) (parent : Z) (n : name) (node : MemNode)
    (update_parent : InodeMeta -> InodeMeta) : MemFs * io unit :=
  let '(fs, inserted) := insert_child fs parent n (mn_inode node) in
  try! _ := inserted with fs in
  let fs := upd_meta fs parent update_parent in
  (register fs node, Ok tt).

Definition do_create (fs : MemFs) (ctx : Context) (parent : Z) (n : name) (mode flags umask : Z)
    (now : Timespec) : MemFs * io (Entry * option Z * OpenOptions) :=
  let '(fs, ino) := begin_create fs parent n in
  try! ino := ino with fs in
  let node := mkNode ino MODE_REG 1 (fresh_meta ctx (effective_mode MODE_REG mode umask) 0 1 0 now)
                (RegularFile []) ∅ in
  let '(fs, inserted) := insert_node fs parent n node (touch now) in
  try! _ := inserted with fs in
  let '(fs, handle) :=
    add_file_handle fs (mkFileHandle ino (normalize_handle_flags (fs_writeback fs) flags)) in
  (fs, Ok (build_entry fs node, Some handle, cache_open_options fs)).

Definition do_mkdir (fs : MemFs) (ctx : Context) (parent : Z) (n : name) (mode umask : Z)
    (now : Timespec) : MemFs * io Entry :=
  let '(fs, ino) := begin_create fs parent n in
  try! ino := ino with fs in
  let node := mkNode ino MODE_DIR 1 (fresh_meta ctx (effective_mode MODE_DIR mode umask) 0 2 4096 now)
                (Directory ∅ parent) ∅ in
  let '(fs, inserted) :=
    insert_node fs parent n node (fun m => touch now (set_nlink (fun l => wrap 64 (l + 1)) m)) in
  try! _ := inserted with fs in
  (fs, Ok (build_entry fs node)).

Definition mknod_content (file_type : Z) : option (Z * InodeContent) :=
  if file_type =? MODE_REG then Some (MODE_REG, RegularFile [])
  else if (file_type =? MODE_BLK) || (file_type =? MODE_CHR) || (file_type =? MODE_FIFO)
          || (file_type =? MODE_SOCK) then Some (file_type, Special)
  else None.

Definition do_mknod (fs : MemFs) (ctx : Context) (parent : Z) (n : name) (mode rdev umask : Z)
    (now : Timespec) : MemFs * io Entry :=
  let '(fs, ino) := begin_create fs parent n in
  try! ino := ino with fs in
  let file_type := Z.land mode MODE_TYPE_MASK in
  match mknod_content file_type with
  | None => (uncount_inode fs, Err EINVAL)
  | Some (kind, content) =>
      let node := mkNode ino kind 1 (fresh_meta ctx (effective_mode file_type mode umask) rdev 1 0 now)
                    content ∅ in
      let '(fs, inserted) := insert_node fs parent n node (touch now) in
      try! _ := inserted with fs in
      (fs, Ok (build_entry fs node))
  end.

Definition do_symlink (fs : MemFs) (ctx : Context) (target : list byte) (parent : Z) (n : name)
    (now : Timespec) : MemFs * io Entry :=
  let '(fs, ino) := begin_create fs parent n in
  try! ino := ino with fs in
  let node := mkNode ino MODE_LNK 1 (fresh_meta ctx (Z.lor MODE_LNK 0x1ff) 0 1 (zlen target) now)
                (Symlink target) ∅ in
  let '(fs, inserted) := insert_node fs parent n node (touch now) in
  try! _ := inserted with fs in
  (fs, Ok (build_entry fs node)).

Definition do_link (fs : MemFs) (ino newparent : Z) (newname : name) (now : Timespec)
    : MemFs * io Entry :=
  try! _ := validate_memfs_name newname with fs in
  if ino =? INIT_INODE then (fs, Err EACCES) else
  try! node := get_node fs ino with fs in
  if mn_kind node =? MODE_DIR then (fs, Err EPERM) else
  try! parent_node := get_node fs newparent with fs in
  match children_of parent_node with
  | None => (fs, Err ENOTDIR)
  | Some ch =>
      if bool_decide (is_Some (ch !! newname)) then (fs, Err EEXIST) else
      let fs := add_child fs newparent newname ino in
      let fs := upd_meta fs ino (fun m => set_ctime now (set_nlink (fun l => wrap 64 (l + 1)) m)) in
      let fs := inc_lookup fs ino in
      let fs := upd_meta fs newparent (touch now) in
      (fs, Ok (build_entry fs (deref fs ino)))
  end.

(** ** Removal, [remove_ops.rs] *)

Definition do_unlink (fs : MemFs) (parent : Z) (n : name) (now : Timespec) : MemFs * io unit :=
  try! _ := validate_memfs_name n with fs in
  if reserved_name parent n then (fs, Err EACCES) else
  try! parent_node := get_node fs parent with fs in
  match children_of parent_node with
  | None => (fs, Err ENOTDIR)
  | Some ch =>
      try! child := ok_or (ch !! n) ENOENT with fs in
      let fs := del_child fs parent n in
      try! child_node := get_node fs child with fs in
      if mn_kind child_node =? MODE_DIR then (add_child fs parent n child, Err EISDIR) else
      let fs := upd_meta fs child (fun m => set_ctime now (set_nlink (fun l => saturating_sub l 1) m)) in
      let fs := upd_meta fs parent (touch now) in
      (try_evict fs [parent; child] child, Ok tt)
  end.

Definition is_nonempty_dir (n : MemNode) : bool :=
  match children_of n with Some ch => negb (bool_decide (ch = ∅)) | None => false end.

Definition do_rmdir (fs : MemFs) (parent : Z) (n : name) (now : Timespec) : MemFs * io unit :=
  try! _ := validate_memfs_name n with fs in
  if reserved_name parent n then (fs, Err EACCES) else
  try! parent_node := get_node fs parent with fs in
  match children_of parent_node with
  | None => (fs, Err ENOTDIR)
  | Some ch =>
      try! child := ok_or (ch !! n) ENOENT with fs in
      try! child_node := get_node fs child with fs in
      if negb (mn_kind child_node =? MODE_DIR) then (fs, Err ENOTDIR)
      else if is_nonempty_dir child_node then (fs, Err ENOTEMPTY) else
      let fs := del_child fs parent n in
      let fs := upd_meta fs child (fun m => set_ctime now (set_nlink (fun _ => 0) m)) in
      let fs := upd_meta fs parent (fun m => touch now (set_nlink (fun l => saturating_sub l 1) m)) in
      (try_evict fs [parent; child] child, Ok tt)
  end.

(** The timestamps both forms of rename set at the end. *)
Definition touch_parents (fs : MemFs) (olddir newdir : Z) (now : Timespec) : MemFs :=
  let fs := upd_meta fs olddir (touch now) in
  if olddir =? newdir then fs else upd_meta fs newdir (touch now).

(** [RENAME_EXCHANGE]: swap two entries. *)
Definition rename_exchange (fs : MemFs) (olddir : Z) (old_bytes : name) (newdir : Z) (new_bytes : name)
    (source : Z) (source_node : MemNode) (dest : Z) (dest_node : MemNode) (now : Timespec) : MemFs :=
  let fs := add_child fs olddir old_bytes dest in
  let fs := add_child fs newdir new_bytes source in
  let fs := if (mn_kind source_node =? MODE_DIR) && negb (olddir =? newdir)
            then store_parent fs source newdir else fs in
  let fs := if (mn_kind dest_node =? MODE_DIR) && negb (olddir =? newdir)
            then store_parent fs dest olddir else fs in
  let fs := upd_meta fs source (set_ctime now) in
  let fs := upd_meta fs dest (set_ctime now) in
  touch_parents fs olddir newdir now.

(** The checks on, and the unlinking of, an existing destination. *)
Definition replace_dest (fs : MemFs) (source_is_dir : bool) (newdir dest : Z) (now : Timespec)
    : MemFs * io unit :=
  try! dest_node := get_node fs dest with fs in
  let dest_is_dir := mn_kind dest_node =? MODE_DIR in
  if source_is_dir && negb dest_is_dir then (fs, Err ENOTDIR)
  else if negb source_is_dir && dest_is_dir then (fs, Err EISDIR)
  else if dest_is_dir && is_nonempty_dir dest_node then (fs, Err ENOTEMPTY) else
  let fs := upd_meta fs dest (fun m =>
              set_ctime now (set_nlink (fun l => if dest_is_dir then 0 else saturating_sub l 1) m)) in
  let fs := if dest_is_dir then upd_meta fs newdir (set_nlink (fun l => saturating_sub l 1)) else fs in
  (fs, Ok tt).

(** The move itself, the link counts of the parents and the parent pointer. *)
Definition rename_move (fs : MemFs) (olddir : Z) (old_bytes : name) (newdir : Z) (new_bytes : name)
    (source : Z) (source_is_dir : bool) (now : Timespec) : MemFs :=
  let fs := del_child fs olddir old_bytes in
  let fs := add_child fs newdir new_bytes source in
  let fs :=
    if source_is_dir && negb (olddir =? newdir) then
      let fs := upd_meta fs olddir (set_nlink (fun l => saturating_sub l 1)) in
      let fs := upd_meta fs newdir (set_nlink (fun l => wrap 64 (l + 1))) in
      store_parent fs source newdir
    else fs in
  let fs := upd_meta fs source (set_ctime now) in
  touch_parents fs olddir newdir now.

Definition do_rename (fs : MemFs) (olddir : Z) (old_bytes : name) (newdir : Z) (new_bytes : name)
    (flags : Z) (now : Timespec) : MemFs * io unit :=
  try! _ := validate_memfs_name old_bytes with fs in
  try! _ := validate_memfs_name new_bytes with fs in
  if negb (without_bits flags KNOWN_RENAME_FLAGS =? 0) then (fs, Err EINVAL)
  else if has_bits flags RENAME_NOREPLACE && has_bits flags RENAME_EXCHANGE then (fs, Err EINVAL)
  else if reserved_name olddir old_bytes then (fs, Err EACCES)
  else if reserved_name newdir new_bytes then (fs, Err EACCES)
  else if (olddir =? newdir) && bool_decide (old_bytes = new_bytes) then (fs, Ok tt) else
  try! old_parent := get_node fs olddir with fs in
  try! new_parent := if newdir =? olddir then Ok old_parent else get_node fs newdir with fs in
  match children_of old_parent with
  | None => (fs, Err ENOTDIR)
  | Some old_children =>
      try! source := ok_or (old_children !! old_bytes) ENOENT with fs in
      try! source_node := get_node fs source with fs in
      let source_is_dir := mn_kind source_node =? MODE_DIR in
      match children_of new_parent with
      | None => (fs, Err ENOTDIR)
      | Some new_children =>
          let dest_ino := new_children !! new_bytes in
          if has_bits flags RENAME_EXCHANGE then
            try! dest := ok_or dest_ino ENOENT with fs in
            try! dest_node := get_node fs dest with fs in
            (rename_exchange fs olddir old_bytes newdir new_bytes source source_node dest dest_node now,
             Ok tt)
          else if has_bits flags RENAME_NOREPLACE && bool_decide (is_Some dest_ino) then (fs, Err EEXIST)
          else
            let '(fs, replaced) :=
              match dest_ino with
              | Some dest => replace_dest fs source_is_dir newdir dest now
              | None => (fs, Ok tt)
              end in
            try! _ := replaced with fs in
            let fs := rename_move fs olddir old_bytes newdir new_bytes source source_is_dir now in
            (match dest_ino with
             | Some dest => try_evict fs [olddir; newdir; source] dest
             | None => fs
             end, Ok tt)
      end
  end.

(** ** Files, [file_ops.rs] *)

Definition clear_suid_sgid (mode : Z) : Z := without_bits mode (Z.lor MODE_SETUID MODE_SETGID).
Definition set_data (d : list byte) (c : InodeContent) : InodeContent :=
  match c with RegularFile _ => RegularFile d | _ => c end.
Definition store_data (fs : MemFs) (ino : Z) (d : list byte) : MemFs :=
  upd_node fs ino (set_content (set_data d)).

(** [O_TRUNC] on a regular file. *)
Definition truncate_on_open (fs : MemFs) (ino : Z) (now : Timespec) : MemFs :=
  match data_of (deref fs ino) with
  | Some data =>
      let fs := store_data fs ino [] in
      let fs := if 0 <? zlen data then release_bytes fs (zlen data) else fs in
      upd_meta fs ino (fun m => touch now (set_size 0 m))
  | None => fs
  end.

Definition do_open (fs : MemFs) (ino : Z) (kill_priv : bool) (flags : Z) (now now' : Timespec)
    : MemFs * io (option Z * OpenOptions) :=
  if ino =? INIT_INODE then (fs, Ok (Some INIT_HANDLE, KEEP_CACHE)) else
  try! node := get_node fs ino with fs in
  if mn_kind node =? MODE_DIR then (fs, Err EISDIR) else
  let open_flags := normalize_handle_flags (fs_writeback fs) flags in
  let truncating := has_bits open_flags GUEST_O_TRUNC in
  let fs := if truncating then truncate_on_open fs ino now else fs in
  let fs :=
    if kill_priv && truncating then
      upd_meta fs ino (fun m =>
        if has_bits (im_mode m) (Z.lor MODE_SETUID MODE_SETGID)
        then set_ctime now' (set_mode clear_suid_sgid m) else m)
    else fs in
  let '(fs, handle) := add_file_handle fs (mkFileHandle ino open_flags) in
  (fs, Ok (Some handle, cache_open_options fs)).

(** [Vec::resize] with zeros, and [copy_from_slice] into a range inside. *)
Definition resize (len : Z) (d : list byte) : list byte :=
  take (Z.to_nat len) d ++ replicate (Z.to_nat (len - zlen d)) Byte.x00.
Definition overwrite (d : list byte) (start : Z) (buf : list byte) : list byte :=
  take (Z.to_nat start) d ++ buf ++ drop (Z.to_nat (start + zlen buf)) d.

(** The bytes given to the reply writer; an empty reply is [Ok(0)]. *)
Definition do_read_handle (fs : MemFs) (handle size offset : Z) : io (list byte) :=
  let? fh := ok_or (fs_file_handles fs !! handle) EBADF in
  match data_of (deref fs (fh_node fh)) with
  | None => Err EISDIR
  | Some data =>
      if zlen data <=? offset then Ok []
      else
        let last := Z.min (offset + size) (zlen data) in
        Ok (take (Z.to_nat (last - offset)) (drop (Z.to_nat offset) data))
  end.

(** The in-memory part of a write, under the data lock. *)
Definition write_data (fs : MemFs) (fh : FileHandle) (data buf : list byte) (offset : Z)
    (kill_priv : bool) (now : Timespec) : MemFs * io Z :=
  let ino := fh_node fh in
  let start := if has_bits (fh_flags fh) GUEST_O_APPEND then zlen data else offset in
  try! new_end := ok_or (checked_add 64 start (zlen buf)) EFBIG with fs in
  if I64_MAX <? new_end then (fs, Err EFBIG) else
  let grown := zlen data <? new_end in
  let '(fs, reserved) := if grown then reserve_bytes fs (new_end - zlen data) else (fs, Ok tt) in
  try! _ := reserved with fs in
  let data := if grown then resize new_end data else data in
  let data := overwrite data start buf in
  let fs := store_data fs ino data in
  let fs := upd_meta fs ino (fun m =>
              let m := touch now (set_size (zlen data) m) in
              if kill_priv then set_mode clear_suid_sgid m else m) in
  (fs, Ok (zlen buf)).

(** [delivered] is what the request reader put in the staging file. *)
Definition do_write (fs : MemFs) (ino handle : Z) (delivered : io (list byte)) (size offset : Z)
    (kill_priv : bool) (now : Timespec) : MemFs * io Z :=
  if ino =? INIT_INODE then (fs, Err EACCES) else
  try! fh := ok_or (fs_file_handles fs !! handle) EBADF with fs in
  match data_of (deref fs (fh_node fh)) with
  | None => (fs, Err EISDIR)
  | Some data =>
      let append_mode := has_bits (fh_flags fh) GUEST_O_APPEND in
      try! _ :=
        if append_mode then Ok tt
        else
          let? requested_end := ok_or (checked_add 64 offset size) EINVAL in
          if I64_MAX <? requested_end then Err EFBIG else Ok tt
        with fs in
      try! buf := delivered with fs in
      if zlen buf =? 0 then (fs, Ok 0)
      else write_data fs fh data buf offset kill_priv now
  end.

Definition do_readlink (fs : MemFs) (ino : Z) : io (list byte) :=
  if ino =? INIT_INODE then Err EINVAL else
  let? node := get_node fs ino in
  match mn_content node with Symlink target => Ok target | _ => Err EINVAL end.

Definition do_release (fs : MemFs) (ino handle : Z) : MemFs * io unit :=
  if ino =? INIT_INODE then (fs, Ok tt) else
  match fs_file_handles fs !! handle with
  | None => (fs, Ok tt)
  | Some fh =>
      let fs := with_file_handles fs (delete handle) in
      let node := deref fs (fh_node fh) in
      (match data_of node with
       | Some data =>
           if (mn_kind node =? MODE_REG) && (strong_count fs [fh_node fh] (fh_node fh) =? 1)
              && (0 <? zlen data)
           then release_bytes fs (zlen data) else fs
       | None => fs
       end, Ok tt)
  end.

(** ** Attributes, [metadata.rs] *)

(** The bits of [SetattrValid]. *)
Record SetattrValid := mkValid {
  v_size : bool; v_mode : bool; v_uid : bool; v_gid : bool; v_atime : bool; v_atime_now : bool;
  v_mtime : bool; v_mtime_now : bool; v_kill_suidgid : bool }.

(** Truncation or extension of the data. *)
Definition setattr_size (fs : MemFs) (ino new_size : Z) : MemFs * io unit :=
  match data_of (deref fs ino) with
  | None => (fs, Err EINVAL)
  | Some data =>
      let old_len := zlen data in
      if new_size <? 0 then (fs, Err EINVAL)
      else if I64_MAX <? new_size then (fs, Err EFBIG)
      else if new_size <? old_len then
        let fs := store_data fs ino (take (Z.to_nat new_size) data) in
        let fs := release_bytes fs (old_len - new_size) in
        (upd_meta fs ino (set_size new_size), Ok tt)
      else if old_len <? new_size then
        let '(fs, reserved) := reserve_bytes fs (new_size - old_len) in
        try! _ := reserved with fs in
        let fs := store_data fs ino (resize new_size data) in
        (upd_meta fs ino (set_size new_size), Ok tt)
      else (upd_meta fs ino (set_size new_size), Ok tt)
  end.

(** The remaining fields; file type bits are kept. *)
Definition setattr_meta (attr : stat64) (valid : SetattrValid) (now_a now_m now_c : Timespec)
    (m : InodeMeta) : InodeMeta :=
  let m := if v_mode valid
           then set_mode (fun mode => Z.lor (Z.land mode MODE_TYPE_MASK)
                                            (without_bits (st_mode attr) MODE_TYPE_MASK)) m else m in
  let m := if v_uid valid then set_owner (st_uid attr) (im_gid m) m else m in
  let m := if v_gid valid then set_owner (im_uid m) (st_gid attr) m else m in
  let m := if v_atime valid
           then set_atime (if v_atime_now valid then now_a else st_atime attr) m else m in
  let m := if v_mtime valid
           then set_mtime (if v_mtime_now valid then now_m else st_mtime attr) m else m in
  let m := if v_kill_suidgid valid then set_mode clear_suid_sgid m else m in
  set_ctime now_c m.

Definition do_setattr (fs : MemFs) (ino : Z) (attr : stat64) (valid : SetattrValid)
    (now_a now_m now_c : Timespec) : MemFs * io (stat64 * Z) :=
  if ino =? INIT_INODE then (fs, Err EACCES) else
  try! _ := get_node fs ino with fs in
  let '(fs, resized) := if v_size valid then setattr_size fs ino (st_size attr) else (fs, Ok tt) in
  try! _ := resized with fs in
  let fs := upd_meta fs ino (setattr_meta attr valid now_a now_m now_c) in
  (fs, Ok (build_stat (deref fs ino), cfg_attr_timeout (fs_cfg fs))).

(** [st_mode >> 6 & 7] for the owner, [>> 3 & 7] for the group, [& 7] for others. *)
Definition permission_bits (ctx : Context) (m : InodeMeta) : Z :=
  if im_uid m =? ctx_uid ctx then Z.land (Z.shiftr (im_mode m) 6) 7
  else if im_gid m =? ctx_gid ctx then Z.land (Z.shiftr (im_mode m) 3) 7
  else Z.land (im_mode m) 7.

Definition do_access (fs : MemFs) (ctx : Context) (ino mask : Z) : io unit :=
  if ino =? INIT_INODE then if has_bits mask ACCESS_W_OK then Err EACCES else Ok tt else
  let? node := get_node fs ino in
  let m := mn_meta node in
  if mask =? ACCESS_F_OK then Ok tt
  else if ctx_uid ctx =? 0 then
    if has_bits mask ACCESS_X_OK && negb (has_bits (im_mode m) 0x49) then Err EACCES else Ok tt
  else
    let bits := permission_bits ctx m in
    if has_bits mask ACCESS_R_OK && negb (has_bits bits 4) then Err EACCES
    else if has_bits mask ACCESS_W_OK && negb (has_bits bits 2) then Err EACCES
    else if has_bits mask ACCESS_X_OK && negb (has_bits bits 1) then Err EACCES
    else Ok tt.

(** ** Extended attributes, [xattr_ops.rs] *)

Inductive SizedReply := Count (n : Z) | Value (bytes : list byte).

Definition sized_reply (size : Z) (value : list byte) : io SizedReply :=
  if size =? 0 then Ok (Count (wrap 32 (zlen value)))
  else if size <? zlen value then Err ERANGE
  else Ok (Value value).

(** The order of a [BTreeMap] on byte strings. *)
Fixpoint name_leb (a b : name) : bool :=
  match a, b with
  | [], _ => true
  | _ :: _, [] => false
  | x :: a', y :: b' =>
      if Z_of_byte x <? Z_of_byte y then true
      else if Z_of_byte y <? Z_of_byte x then false
      else name_leb a' b'
  end.
Definition entry_le {A} (p q : name * A) : Prop := name_leb p.1 q.1 = true.
#[global] Instance entry_le_dec {A} : RelDecision (@entry_le A).
Proof. intros p q. unfold entry_le. apply _. Defined.
Definition btree_iter {A} (m : gmap name A) : list (name * A) := merge_sort entry_le (map_to_list m).

Definition do_setxattr (fs : MemFs) (ino : Z) (key value : list byte) (flags : Z) : MemFs * io unit :=
  if ino =? INIT_INODE then (fs, Err EACCES) else
  try! node := get_node fs ino with fs in
  if has_bits flags XATTR_CREATE && bool_decide (is_Some (mn_xattrs node !! key)) then (fs, Err EEXIST)
  else if has_bits flags XATTR_REPLACE && bool_decide (mn_xattrs node !! key = None)
  then (fs, Err ENODATA)
  else (upd_node fs ino (set_xattrs <[key := value]>), Ok tt).

Definition do_getxattr (fs : MemFs) (ino : Z) (key : list byte) (size : Z) : io SizedReply :=
  if ino =? INIT_INODE then Err ENODATA else
  let? node := get_node fs ino in
  let? value := ok_or (mn_xattrs node !! key) ENODATA in
  sized_reply size value.

Definition do_listxattr (fs : MemFs) (ino size : Z) : io SizedReply :=
  if ino =? INIT_INODE then Ok (if size =? 0 then Count 0 else Value []) else
  let? node := get_node fs ino in
  sized_reply size (concat ((fun p => p.1 ++ [Byte.x00]) <$> btree_iter (mn_xattrs node))).

Definition do_removexattr (fs : MemFs) (ino : Z) (key : list byte) : MemFs * io unit :=
  if ino =? INIT_INODE then (fs, Err EACCES) else
  try! node := get_node fs ino with fs in
  match mn_xattrs node !! key with
  | None => (fs, Err ENODATA)
  | Some _ => (upd_node fs ino (set_xattrs (delete key)), Ok tt)
  end.

(** ** Special operations, [special.rs] *)

(** [file_size as i64] plus the signed offset, checked. *)
Definition seek_end (file_size offset : Z) : io Z :=
  let pos := as_i64 file_size + as_i64 offset in
  if (pos <? - 2 ^ 63) || (I64_MAX <? pos) then Err EINVAL
  else if pos <? 0 then Err EINVAL else Ok pos.

(** The dispatch shared by [do_lseek] and [lseek_init]. *)
Definition seek_in (file_size offset whence : Z) : io Z :=
  if whence =? SEEK_SET then Ok offset
  else if whence =? SEEK_END then seek_end file_size offset
  else if whence =? SEEK_DATA then if file_size <=? offset then Err ENXIO else Ok offset
  else if whence =? SEEK_HOLE then if file_size <=? offset then Err ENXIO else Ok file_size
  else Err EINVAL.

(** Extension of a file by [fallocate]. *)
Definition allocate_range (fs : MemFs) (ino offset length : Z) : MemFs * io unit :=
  try! new_end := ok_or (checked_add 64 offset length) EINVAL with fs in
  if I64_MAX <? new_end then (fs, Err EFBIG) else
  match data_of (deref fs ino) with
  | None => (fs, Ok tt)
  | Some d =>
      if zlen d <? new_end then
        let '(fs, reserved) := reserve_bytes fs (new_end - zlen d) in
        try! _ := reserved with fs in
        let fs := store_data fs ino (resize new_end d) in
        (upd_meta fs ino (set_size new_end), Ok tt)
      else (fs, Ok tt)
  end.

Definition saturating_add (w a b : Z) : Z := Z.min (a + b) (u_max w).

(** [d[start..end].fill(0)] on the range clipped to the data. *)
Definition punch (d : list byte) (offset length : Z) : list byte :=
  let start := Z.min offset (zlen d) in
  let last := Z.min (saturating_add 64 offset length) (zlen d) in
  if start <? last
  then overwrite d start (replicate (Z.to_nat (last - start)) Byte.x00) else d.

Definition do_fallocate (fs : MemFs) (ino handle mode offset length : Z) : MemFs * io unit :=
  if ino =? INIT_INODE then (fs, Err EACCES) else
  try! fh := ok_or (fs_file_handles fs !! handle) EBADF with fs in
  if negb (mn_kind (deref fs (fh_node fh)) =? MODE_REG) then (fs, Err ENODEV)
  else if mode =? 0 then allocate_range fs (fh_node fh) offset length
  else if has_bits mode FALLOC_FL_PUNCH_HOLE && has_bits mode FALLOC_FL_KEEP_SIZE then
    (match data_of (deref fs (fh_node fh)) with
     | Some d => store_data fs (fh_node fh) (punch d offset length)
     | None => fs
     end, Ok tt)
  else (fs, Err EOPNOTSUPP).

(** The fields of [statvfs64] that vary, as set on Linux. *)
Record statvfs64 := mkStatvfs {
  f_bsize : Z; f_blocks : Z; f_bfree : Z; f_bavail : Z; f_files : Z; f_ffree : Z; f_namemax : Z }.

Definition do_statfs (fs : MemFs) : statvfs64 :=
  let bsize := 4096 in
  let total_bytes := default (2 ^ 50) (cfg_capacity (fs_cfg fs)) in
  let total_inodes := default (2 ^ 30) (cfg_max_inodes (fs_cfg fs)) in
  let bfree := saturating_sub total_bytes (fs_used_bytes fs) `div` bsize in
  mkStatvfs bsize (total_bytes `div` bsize) bfree bfree total_inodes
    (saturating_sub total_inodes (fs_inode_count fs)) NAME_MAX.

(** ** Directories, [dir_ops.rs] and [dir_snapshot.rs] *)

Definition do_opendir (fs : MemFs) (ino : Z) : MemFs * io (option Z * OpenOptions) :=
  try! node := get_node fs ino with fs in
  if negb (mn_kind node =? MODE_DIR) then (fs, Err ENOTDIR) else
  let handle := fs_next_handle fs in
  let fs := with_next_handle fs (wrap 64 (handle + 1)) in
  let fs := with_dir_handles fs <[handle := mkDirHandle ino None]> in
  (fs, Ok (Some handle, cache_dir_options fs)).

Definition do_releasedir (fs : MemFs) (handle : Z) : MemFs * io unit :=
  (with_dir_handles fs (delete handle), Ok tt).

(** [entry.offset = i + 1]. *)
Definition number_entries (l : list MemDirEntry) : list MemDirEntry :=
  imap (fun i e => mkDirEntry (de_name e) (de_inode e) (Z.of_nat i + 1) (de_file_type e)) l.

Definition child_dtype (fs : MemFs) (child : Z) : Z :=
  match get_node fs child with Ok node => mode_to_dtype (mn_kind node) | Err _ => DT_UNKNOWN end.

Definition build_snapshot (fs : MemFs) (ino : Z) (node : MemNode) : io (list MemDirEntry) :=
  match mn_content node with
  | Directory children parent =>
      Ok (number_entries
        ([mkDirEntry dot ino 0 DIRENT_DIR; mkDirEntry dotdot parent 0 DIRENT_DIR]
         ++ (if ino =? ROOT_INODE then [mkDirEntry INIT_FILENAME INIT_INODE 0 DIRENT_REG] else [])
         ++ ((fun p => mkDirEntry p.1 p.2 0 (child_dtype fs p.2)) <$> btree_iter children)))
  | _ => Err ENOTDIR
  end.

(** The entries strictly after [offset]: from the first with a larger one. *)
Fixpoint snapshot_entries_after (entries : list MemDirEntry) (offset : Z) : list MemDirEntry :=
  match entries with
  | [] => []
  | e :: rest => if offset <? de_offset e then entries else snapshot_entries_after rest offset
  end.

(** The snapshot of a handle, built and stored on first use. *)
Definition handle_snapshot (fs : MemFs) (ino handle : Z) : MemFs * io (list MemDirEntry) :=
  try! dh := ok_or (fs_dir_handles fs !! handle) EBADF with fs in
  match dh_snapshot dh with
  | Some entries => (fs, Ok entries)
  | None =>
      try! entries := build_snapshot fs ino (deref fs (dh_node dh)) with fs in
      (with_dir_handles fs <[handle := mkDirHandle (dh_node dh) (Some entries)]>, Ok entries)
  end.

Definition do_readdir (fs : MemFs) (ino handle offset : Z) : MemFs * io (list MemDirEntry) :=
  let '(fs, entries) := handle_snapshot fs ino handle in
  try! entries := entries with fs in
  (fs, Ok (snapshot_entries_after entries offset)).

Section init_binary.
Context (agentd_bytes : list byte).

(** ** The virtual init binary, [init_binary.rs] *)

Definition init_stat : stat64 :=
  mkStat INIT_INODE (Z.lor MODE_REG 0x1ed) 1 0 0 0 (as_i64 (zlen agentd_bytes)) 4096
    (Z.quot (as_i64 (zlen agentd_bytes) + 511) 512) inhabitant inhabitant inhabitant.
Definition init_entry (fs : MemFs) : Entry :=
  mkEntry INIT_INODE 0 init_stat 0 (cfg_attr_timeout (fs_cfg fs)) (cfg_entry_timeout (fs_cfg fs)).
Definition read_init (size offset : Z) : io (list byte) :=
  if zlen agentd_bytes <=? offset then Ok []
  else Ok (take (Z.to_nat (Z.min size (zlen agentd_bytes - offset))) (drop (Z.to_nat offset) agentd_bytes)).

Definition do_read (fs : MemFs) (ino handle size offset : Z) : io (list byte) :=
  if ino =? INIT_INODE then read_init size offset else do_read_handle fs handle size offset.

Definition do_lseek (fs : MemFs) (ino handle offset whence : Z) : io Z :=
  if ino =? INIT_INODE then seek_in (zlen agentd_bytes) offset whence else
  let? fh := ok_or (fs_file_handles fs !! handle) EBADF in
  match data_of (deref fs (fh_node fh)) with
  | None => Err EINVAL
  | Some data => seek_in (zlen data) offset whence
  end.

Definition do_getattr (fs : MemFs) (ino : Z) : io (stat64 * Z) :=
  if ino =? INIT_INODE then Ok (init_stat, cfg_attr_timeout (fs_cfg fs)) else
  let? node := get_node fs ino in
  Ok (build_stat node, cfg_attr_timeout (fs_cfg fs)).

Definition lookup (fs : MemFs) (parent : Z) (n : name) : MemFs * io Entry :=
  try! _ := validate_memfs_name n with fs in
  if reserved_name parent n then (fs, Ok (init_entry fs)) else
  try! parent_node := get_node fs parent with fs in
  match children_of parent_node with
  | None => (fs, Err ENOTDIR)
  | Some ch =>
      try! child := ok_or (ch !! n) ENOENT with fs in
      try! _ := get_node fs child with fs in
      let fs := inc_lookup fs child in
      (fs, Ok (build_entry fs (deref fs child)))
  end.

(** One entry of [readdirplus]: dot entries and vanished nodes are skipped. *)
Definition readdirplus_entry (fs : MemFs) (e : MemDirEntry) : MemFs * option (MemDirEntry * Entry) :=
  if bool_decide (de_name e = dot) || bool_decide (de_name e = dotdot) then (fs, None)
  else if bool_decide (de_name e = INIT_FILENAME) then (fs, Some (e, init_entry fs))
  else match get_node fs (de_inode e) with
  | Err _ => (fs, None)
  | Ok _ =>
      let fs := inc_lookup fs (de_inode e) in
      (fs, Some (e, build_entry fs (deref fs (de_inode e))))
  end.

Fixpoint readdirplus_loop (fs : MemFs) (l : list MemDirEntry) : MemFs * list (MemDirEntry * Entry) :=
  match l with
  | [] => (fs, [])
  | e :: rest =>
      let '(fs, o) := readdirplus_entry fs e in
      let '(fs, out) := readdirplus_loop fs rest in
      (fs, match o with Some p => p :: out | None => out end)
  end.

Definition do_readdirplus (fs : MemFs) (ino handle offset : Z)
    : MemFs * io (list (MemDirEntry * Entry)) :=
  let '(fs, entries) := do_readdir fs ino handle offset in
  try! entries := entries with fs in
  let '(fs, out) := readdirplus_loop fs entries in
  (fs, Ok out).

(** The streaming form.  [add_entry] is the caller's closure with its own
    state; it answers 0 when the reply is full.  The looked-up inode is
    forgotten again when the closure does not take the entry, and all of them
    when it fails. *)
Context {S : Type} (add_entry : S -> MemDirEntry -> Entry -> S * io Z).

Definition forget_all (fs : MemFs) (held emitted : list Z) : MemFs :=
  fold_left (fun fs ino => forget_one fs held ino 1) emitted fs.

Fixpoint readdirplus_stream (fs : MemFs) (s : S) (l : list MemDirEntry) (emitted : list Z)
    : MemFs * S * io unit :=
  match l with
  | [] => (fs, s, Ok tt)
  | e :: rest =>
      if bool_decide (de_name e = dot) || bool_decide (de_name e = dotdot)
      then readdirplus_stream fs s rest emitted
      else if bool_decide (de_name e = INIT_FILENAME) then
        let '(s, r) := add_entry s e (init_entry fs) in
        match r with
        | Err err => (fs, s, Err err)
        | Ok n => if n =? 0 then (fs, s, Ok tt) else readdirplus_stream fs s rest emitted
        end
      else match get_node fs (de_inode e) with
      | Err _ => readdirplus_stream fs s rest emitted
      | Ok _ =>
          let ino := de_inode e in
          let fs := inc_lookup fs ino in
          let '(s, r) := add_entry s e (build_entry fs (deref fs ino)) in
          match r with
          | Ok n => if n =? 0 then (forget_one fs [ino] ino 1, s, Ok tt)
                    else readdirplus_stream fs s rest (emitted ++ [ino])
          | Err err => (forget_all (forget_one fs [ino] ino 1) [ino] emitted, s, Err err)
          end
      end
  end.

Definition do_readdirplus_for_each (fs : MemFs) (s : S) (ino handle offset : Z) : MemFs * S * io unit :=
  let '(fs, entries) := handle_snapshot fs ino handle in
  match entries with
  | Err e => (fs, s, Err e)
  | Ok entries => readdirplus_stream fs s (snapshot_entries_after entries offset) []
  end.

End init_binary.

(** Plain streaming stops at the first refusal or error of the closure. *)
Section streaming.
Context {S : Type} (add_entry : S -> MemDirEntry -> S * io Z).

Fixpoint serve_snapshot_entries_for_each (s : S) (l : list MemDirEntry) : S * io unit :=
  match l with
  | [] => (s, Ok tt)
  | e :: rest =>
      let '(s, r) := add_entry s e in
      match r with
      | Err err => (s, Err err)
      | Ok n => if n =? 0 then (s, Ok tt) else serve_snapshot_entries_for_each s rest
      end
  end.

Definition do_readdir_for_each (fs : MemFs) (s : S) (ino handle offset : Z) : MemFs * S * io unit :=
  let '(fs, entries) := handle_snapshot fs ino handle in
  match entries with
  | Err e => (fs, s, Err e)
  | Ok entries =>
      let '(s, r) := serve_snapshot_entries_for_each s (snapshot_entries_after entries offset) in
      (fs, s, r)
  end.
End streaming.

(** ** Construction and the FUSE entry points, [builder.rs] and [mod.rs] *)

Definition root_node (now : Timespec) : MemNode :=
  mkNode ROOT_INODE MODE_DIR (u_max 64 `div` 2)
    (mkMeta 0 0 (Z.lor MODE_DIR 0x1ed) 0 2 0 now now now) (Directory ∅ ROOT_INODE) ∅.

Definition build (cfg : MemFsConfig) (now : Timespec) : MemFs :=
  mkMemFs {[ROOT_INODE := root_node now]} {[ROOT_INODE]} ∅ ∅ 3 1 0 1 false cfg.

Inductive FsOption :=
| DONT_MASK | BIG_WRITES | ASYNC_READ | PARALLEL_DIROPS | MAX_PAGES | HANDLE_KILLPRIV_V2
| DO_READDIRPLUS | READDIRPLUS_AUTO | WRITEBACK_CACHE | OtherOption (bit : Z).

(** An option set is its characteristic function. *)
Definition init (fs : MemFs) (capable : FsOption -> bool) : MemFs * io (FsOption -> bool) :=
  let writeback := cfg_writeback (fs_cfg fs) && capable WRITEBACK_CACHE in
  let opts o :=
    match o with
    | DONT_MASK | BIG_WRITES | ASYNC_READ | PARALLEL_DIROPS | MAX_PAGES | HANDLE_KILLPRIV_V2 => capable o
    | DO_READDIRPLUS | READDIRPLUS_AUTO => capable DO_READDIRPLUS
    | WRITEBACK_CACHE => writeback
    | OtherOption _ => false
    end in
  (if writeback then with_writeback fs true else fs, Ok opts).

Definition destroy (fs : MemFs) : MemFs :=
  with_nodes (with_dir_handles (with_file_handles fs (fun _ => ∅)) (fun _ => ∅)) (fun _ => ∅).

Definition forget (fs : MemFs) (ino count : Z) : MemFs :=
  if ino =? INIT_INODE then fs else forget_one fs [] ino count.

Definition batch_forget (fs : MemFs) (requests : list (Z * Z)) : MemFs :=
  fold_left (fun fs r => forget fs r.1 r.2) requests fs.

(** The requests that change the filesystem. *)
Inductive op :=
| OpInit (capable : FsOption -> bool)
| OpLookup (parent : Z) (n : name)
| OpForget (ino count : Z)
| OpBatchForget (requests : list (Z * Z))
| OpSetattr (ino : Z) (attr : stat64) (valid : SetattrValid) (now_a now_m now_c : Timespec)
| OpSymlink (ctx : Context) (target : list byte) (parent : Z) (n : name) (now : Timespec)
| OpMknod (ctx : Context) (parent : Z) (n : name) (mode rdev umask : Z) (now : Timespec)
| OpMkdir (ctx : Context) (parent : Z) (n : name) (mode umask : Z) (now : Timespec)
| OpUnlink (parent : Z) (n : name) (now : Timespec)
| OpRmdir (parent : Z) (n : name) (now : Timespec)
| OpRename (olddir : Z) (oldname : name) (newdir : Z) (newname : name) (flags : Z) (now : Timespec)
| OpLink (ino newparent : Z) (newname : name) (now : Timespec)
| OpOpen (ino : Z) (kill_priv : bool) (flags : Z) (now now' : Timespec)
| OpCreate (ctx : Context) (parent : Z) (n : name) (mode flags umask : Z) (now : Timespec)
| OpWrite (ino handle : Z) (delivered : io (list byte)) (size offset : Z) (kill_priv : bool) (now : Timespec)
| OpFallocate (ino handle mode offset length : Z)
| OpRelease (ino handle : Z)
| OpSetxattr (ino : Z) (key value : list byte) (flags : Z)
| OpRemovexattr (ino : Z) (key : list byte)
| OpOpendir (ino : Z)
| OpReaddir (ino handle offset : Z)
| OpReaddirplus (ino handle offset : Z)
| OpReleasedir (handle : Z).

Definition outcome {A} (p : MemFs * io A) : MemFs * io unit :=
  (p.1, match p.2 with Ok _ => Ok tt | Err e => Err e end).

(** The state after a request, and whether it was refused. *)
Definition apply_op (agentd_bytes : list byte) (fs : MemFs) (o : op) : MemFs * io unit :=
  match o with
  | OpInit capable => outcome (init fs capable)
  | OpLookup parent n => outcome (lookup agentd_bytes fs parent n)
  | OpForget ino count => (forget fs ino count, Ok tt)
  | OpBatchForget requests => (batch_forget fs requests, Ok tt)
  | OpSetattr ino attr valid a m c => outcome (do_setattr fs ino attr valid a m c)
  | OpSymlink ctx target parent n now => outcome (do_symlink fs ctx target parent n now)
  | OpMknod ctx parent n mode rdev umask now => outcome (do_mknod fs ctx parent n mode rdev umask now)
  | OpMkdir ctx parent n mode umask now => outcome (do_mkdir fs ctx parent n mode umask now)
  | OpUnlink parent n now => do_unlink fs parent n now
  | OpRmdir parent n now => do_rmdir fs parent n now
  | OpRename olddir oldname newdir newname flags now => do_rename fs olddir oldname newdir newname flags now
  | OpLink ino newparent newname now => outcome (do_link fs ino newparent newname now)
  | OpOpen ino kill_priv flags now now' => outcome (do_open fs ino kill_priv flags now now')
  | OpCreate ctx parent n mode flags umask now => outcome (do_create fs ctx parent n mode flags umask now)
  | OpWrite ino handle d size offset kp now => outcome (do_write fs ino handle d size offset kp now)
  | OpFallocate ino handle mode offset length => do_fallocate fs ino handle mode offset length
  | OpRelease ino handle => do_release fs ino handle
  | OpSetxattr ino key value flags => do_setxattr fs ino key value flags
  | OpRemovexattr ino key => do_removexattr fs ino key
  | OpOpendir ino => outcome (do_opendir fs ino)
  | OpReaddir ino handle offset => outcome (do_readdir fs ino handle offset)
  | OpReaddirplus ino handle offset => outcome (do_readdirplus agentd_bytes fs ino handle offset)
  | OpReleasedir handle => do_releasedir fs handle
  end.

Definition run (agentd_bytes : list byte) (fs : MemFs) (ops : list op) : MemFs :=
  fold_left (fun fs o => (apply_op agentd_bytes fs o).1) ops fs.
