(* ===== verification/MemFsTypes.v ===== *)
(** * Well-formed nodes of the in-memory filesystem

    Every node keeps its number, its kind agrees with its content and with the
    type bits of its mode, and the recorded size of a file or link is the
    length of what it holds.  Every request preserves this, whatever its
    arguments. *)

From S2P Require Import Prelude MemFs.
From Stdlib Require Import Strings.Byte.

Implicit Types fs : MemFs.

Definition kind_of_content (kind : Z) (c : InodeContent) : Prop :=
  match c with
  | RegularFile _ => kind = MODE_REG
  | Directory _ _ => kind = MODE_DIR
  | Symlink _ => kind = MODE_LNK
  | Special => kind ∈ [MODE_BLK; MODE_CHR; MODE_FIFO; MODE_SOCK]
  end.

Definition size_of_content (size : Z) (c : InodeContent) : Prop :=
  match c with
  | RegularFile d => size = zlen d /\ size <= I64_MAX
  | Symlink t => size = zlen t
  | _ => True
  end.

Definition typed (i : Z) (n : MemNode) : Prop :=
  mn_inode n = i /\ kind_of_content (mn_kind n) (mn_content n)
  /\ Z.land (im_mode (mn_meta n)) MODE_TYPE_MASK = mn_kind n
  /\ size_of_content (im_size (mn_meta n)) (mn_content n).

Definition typed_fs fs : Prop := forall i n, fs_arcs fs !! i = Some n -> typed i n.

(** ** Mode bits *)

Lemma type_bits_effective t mode umask :
  Z.land t MODE_TYPE_MASK = t -> Z.land (effective_mode t mode umask) MODE_TYPE_MASK = t.
Proof.
  intros Ht. unfold effective_mode. rewrite Z.land_lor_distr_l, Ht, <- Z.land_assoc.
  change (Z.land PERM_MASK MODE_TYPE_MASK) with 0. by rewrite Z.land_0_r, Z.lor_0_r.
Qed.

Lemma type_bits_clear mode : Z.land (clear_suid_sgid mode) MODE_TYPE_MASK = Z.land mode MODE_TYPE_MASK.
Proof.
  unfold clear_suid_sgid, without_bits. by rewrite Z.ldiff_land, <- Z.land_assoc.
Qed.

Lemma type_bits_chmod mode attr :
  Z.land (Z.lor (Z.land mode MODE_TYPE_MASK) (without_bits attr MODE_TYPE_MASK)) MODE_TYPE_MASK
  = Z.land mode MODE_TYPE_MASK.
Proof.
  unfold without_bits. rewrite Z.land_lor_distr_l, Z.ldiff_land, <- !Z.land_assoc, Z.land_diag.
  change (Z.land (Z.lnot MODE_TYPE_MASK) MODE_TYPE_MASK) with 0. by rewrite Z.land_0_r, Z.lor_0_r.
Qed.

(** ** Updates that keep nodes well formed *)

(** A metadata update that keeps the type bits and the size. *)
Definition keeps_type (f : InodeMeta -> InodeMeta) : Prop :=
  forall m, Z.land (im_mode (f m)) MODE_TYPE_MASK = Z.land (im_mode m) MODE_TYPE_MASK
            /\ im_size (f m) = im_size m.

Lemma typed_set_meta f i n : keeps_type f -> typed i n -> typed i (set_meta f n).
Proof.
  intros Hf (Hi & Hk & Hm & Hs). destruct (Hf (mn_meta n)) as [Hmode Hsize].
  split_and!; simpl; [done | done | by rewrite Hmode | by rewrite Hsize].
Qed.

Lemma typed_set_refs f i n : typed i n -> typed i (set_refs f n).
Proof. done. Qed.
Lemma typed_set_xattrs f i n : typed i n -> typed i (set_xattrs f n).
Proof. done. Qed.
Lemma typed_set_children f i n : typed i n -> typed i (set_content (set_children f) n).
Proof. intros (Hi & Hk & Hm & Hs). unfold typed. simpl. by destruct (mn_content n). Qed.
Lemma typed_set_parent p i n : typed i n -> typed i (set_content (set_parent p) n).
Proof. intros (Hi & Hk & Hm & Hs). unfold typed. simpl. by destruct (mn_content n). Qed.

Lemma keeps_touch now : keeps_type (touch now).
Proof. by intros m. Qed.
Lemma keeps_ctime now : keeps_type (set_ctime now).
Proof. by intros m. Qed.
Lemma keeps_nlink g : keeps_type (set_nlink g).
Proof. by intros m. Qed.
Lemma keeps_compose f g : keeps_type f -> keeps_type g -> keeps_type (fun m => f (g m)).
Proof.
  intros Hf Hg m. destruct (Hf (g m)) as [Hf1 Hf2]. destruct (Hg m) as [Hg1 Hg2].
  by rewrite Hf1, Hf2.
Qed.
Lemma keeps_clear : keeps_type (set_mode clear_suid_sgid).
Proof. intros m. simpl. by rewrite type_bits_clear. Qed.

Lemma keeps_setattr attr valid ta tm tc : keeps_type (setattr_meta attr valid ta tm tc).
Proof.
  intros m. unfold setattr_meta.
  destruct (v_mode valid), (v_uid valid), (v_gid valid), (v_atime valid), (v_mtime valid),
    (v_kill_suidgid valid); simpl; rewrite ?type_bits_clear, ?type_bits_chmod; done.
Qed.

Create HintDb memfs.
#[export] Hint Resolve typed_set_meta typed_set_refs typed_set_xattrs typed_set_children typed_set_parent
  keeps_touch keeps_ctime keeps_nlink keeps_clear keeps_setattr keeps_compose : memfs.

Lemma typed_upd_here fs i f :
  typed_fs fs -> (forall n, fs_arcs fs !! i = Some n -> typed i n -> typed i (f n)) ->
  typed_fs (upd_node fs i f).
Proof.
  intros Hfs Hf j n. simpl. rewrite lookup_alter_Some.
  intros [(<- & n0 & Hn0 & ->) | [_ Hn]]; [by apply Hf, Hfs | by apply Hfs].
Qed.

Lemma typed_upd fs i f : typed_fs fs -> (forall n, typed i n -> typed i (f n)) -> typed_fs (upd_node fs i f).
Proof. intros Hfs Hf. apply typed_upd_here; auto. Qed.

(** The content of a node whose data was read through its pointer. *)
Lemma content_of_data fs i n d :
  fs_arcs fs !! i = Some n -> data_of (deref fs i) = Some d -> mn_content n = RegularFile d.
Proof.
  intros Hn Hd. unfold deref in Hd. rewrite (lookup_total_correct _ _ _ Hn) in Hd. unfold data_of in Hd.
  by destruct (mn_content n); simplify_eq.
Qed.

Lemma typed_upd_meta fs i f : typed_fs fs -> keeps_type f -> typed_fs (upd_meta fs i f).
Proof. intros. apply typed_upd; [done|]. intros. by apply typed_set_meta. Qed.

Lemma typed_register fs n : typed_fs fs -> typed (mn_inode n) n -> typed_fs (register fs n).
Proof.
  intros Hfs Hn j n'. simpl. intros [[<- <-]|[_ ?]]%lookup_insert_Some; [done | by apply Hfs].
Qed.

(** New contents together with their length. *)
Lemma upd_node_compose fs i f g : upd_node (upd_node fs i f) i g = upd_node fs i (fun n => g (f n)).
Proof. unfold upd_node, with_arcs. simpl. f_equal. apply alter_alter_eq. Qed.

Lemma typed_store fs i d d0 f :
  typed_fs fs -> zlen d <= I64_MAX ->
  (forall m, Z.land (im_mode (f m)) MODE_TYPE_MASK = Z.land (im_mode m) MODE_TYPE_MASK
             /\ im_size (f m) = zlen d) ->
  data_of (deref fs i) = Some d0 ->
  typed_fs (upd_meta (store_data fs i d) i f).
Proof.
  intros Hfs Hd Hf Hdata. unfold upd_meta, store_data. rewrite upd_node_compose.
  intros j n. simpl. rewrite lookup_alter_Some. intros [(<- & n0 & Hn0 & ->) | [_ Hn]]; [|by apply Hfs].
  destruct (Hfs _ _ Hn0) as (Hi & Hk & Hm & Hs). destruct (Hf (mn_meta n0)) as [Hmode Hsize].
  rewrite (content_of_data _ _ _ _ Hn0 Hdata) in *.
  split_and!; simpl; rewrite ?Hmode, ?Hsize, ?(content_of_data _ _ _ _ Hn0 Hdata); done.
Qed.

(** ** Case analysis of requests *)

Lemma get_node_Ok fs i n : get_node fs i = Ok n <-> i ∈ fs_nodes fs /\ fs_arcs fs !! i = Some n.
Proof.
  unfold get_node. case_bool_decide; [|split; [done | by intros [? _]]].
  destruct (fs_arcs fs !! i) as [n'|]; simpl; split; [intros [= ->] | intros [_ [= ->]] | done | intros [_ ?]];
    done.
Qed.

(** The successful outcomes of [do_rename]. *)
Inductive rename_done fs o on d dn flags now : MemFs -> Prop :=
| RenameNoop : (o, on) = (d, dn) -> rename_done fs o on d dn flags now fs
| RenameExchanged op och np nch s sn t tn :
    has_bits flags RENAME_EXCHANGE = true -> (o, on) <> (d, dn) ->
    get_node fs o = Ok op -> children_of op = Some och -> och !! on = Some s -> get_node fs s = Ok sn ->
    get_node fs d = Ok np -> children_of np = Some nch -> nch !! dn = Some t -> get_node fs t = Ok tn ->
    rename_done fs o on d dn flags now (rename_exchange fs o on d dn s sn t tn now)
| RenameMoved op och np nch s sn :
    has_bits flags RENAME_EXCHANGE = false -> (o, on) <> (d, dn) ->
    get_node fs o = Ok op -> children_of op = Some och -> och !! on = Some s -> get_node fs s = Ok sn ->
    get_node fs d = Ok np -> children_of np = Some nch -> nch !! dn = None ->
    rename_done fs o on d dn flags now (rename_move fs o on d dn s (mn_kind sn =? MODE_DIR) now)
| RenameReplaced op och np nch s sn t fs1 :
    has_bits flags RENAME_EXCHANGE = false -> (o, on) <> (d, dn) ->
    get_node fs o = Ok op -> children_of op = Some och -> och !! on = Some s -> get_node fs s = Ok sn ->
    get_node fs d = Ok np -> children_of np = Some nch -> nch !! dn = Some t ->
    replace_dest fs (mn_kind sn =? MODE_DIR) d t now = (fs1, Ok tt) ->
    rename_done fs o on d dn flags now
      (try_evict (rename_move fs1 o on d dn s (mn_kind sn =? MODE_DIR) now) [o; d; s] t).

Lemma replace_dest_Err fs b d t now fs1 e : replace_dest fs b d t now = (fs1, Err e) -> fs1 = fs.
Proof. unfold replace_dest. repeat case_match; congruence. Qed.

Lemma do_rename_cases fs o on d dn flags now :
  match do_rename fs o on d dn flags now with
  | (fs', Ok _) => rename_done fs o on d dn flags now fs'
  | (fs', Err _) => fs' = fs
  end.
Proof.
  unfold do_rename. destruct (validate_memfs_name on); [|done]. destruct (validate_memfs_name dn); [|done].
  destruct (negb (_ =? 0)); [done|]. destruct (has_bits _ _ && has_bits _ _); [done|].
  destruct (reserved_name o on); [done|]. destruct (reserved_name d dn); [done|].
  destruct ((o =? d) && bool_decide (on = dn)) eqn:Hsame.
  { constructor. apply andb_true_iff in Hsame as [->%Z.eqb_eq ->%bool_decide_eq_true]. done. }
  assert (Hne : (o, on) <> (d, dn)).
  { intros [= -> ->]. rewrite Z.eqb_refl, bool_decide_eq_true_2 in Hsame; done. }
  destruct (get_node fs o) as [op|] eqn:Ho; [|done].
  destruct (if d =? o then Ok op else get_node fs d) as [np|] eqn:Hd; [|done].
  assert (Hd' : get_node fs d = Ok np).
  { destruct (Z.eqb_spec d o) as [->|]; congruence. }
  destruct (children_of op) as [och|] eqn:Hoch; [|done].
  destruct (och !! on) as [s|] eqn:Hs; simpl; [|done]. destruct (get_node fs s) as [sn|] eqn:Hsn; [|done].
  destruct (children_of np) as [nch|] eqn:Hnch; [|done].
  destruct (has_bits flags RENAME_EXCHANGE) eqn:Hx.
  { destruct (nch !! dn) as [t|] eqn:Ht; simpl; [|done]. destruct (get_node fs t) as [tn|] eqn:Htn; [|done].
    by eapply RenameExchanged. }
  destruct (has_bits _ _ && _); [done|]. destruct (nch !! dn) as [t|] eqn:Ht.
  - destruct (replace_dest fs _ d t now) as [fs1 [[]|e]] eqn:Hr; [by eapply RenameReplaced|].
    by apply replace_dest_Err in Hr.
  - by eapply RenameMoved.
Qed.

(** ** Arithmetic of the data operations *)

Lemma length_resize len d : 0 <= len -> zlen (resize len d) = len.
Proof. intros. unfold resize. len. Qed.

Lemma length_overwrite d start buf :
  0 <= start -> start + zlen buf <= zlen d -> zlen (overwrite d start buf) = zlen d.
Proof. intros. unfold overwrite. len. Qed.

Lemma length_punch d offset length : 0 <= offset -> zlen (punch d offset length) = zlen d.
Proof.
  intros Ho. unfold punch. destruct (_ <? _) eqn:Hlt; [|done]. breflect.
  apply length_overwrite; [lia|]. len.
Qed.

(** The state after a reservation: only the counter moves, by the amount when
    there is a capacity. *)
Definition reserved fs (amount u : Z) : Prop :=
  match cfg_capacity (fs_cfg fs) with
  | None => u = fs_used_bytes fs
  | Some cap => u = fs_used_bytes fs + amount /\ fits 64 u /\ (amount = 0 \/ u <= cap)
  end.

Lemma with_used_same fs : with_used_bytes fs (fs_used_bytes fs) = fs.
Proof. by destruct fs. Qed.

Lemma reserve_bytes_cases fs amount :
  0 <= amount ->
  reserve_bytes fs amount = (fs, Err ENOSPC)
  \/ exists u, reserve_bytes fs amount = (with_used_bytes fs u, Ok tt) /\ (fits 64 (fs_used_bytes fs) -> reserved fs amount u).
Proof.
  intros Ha. unfold reserve_bytes, reserved. destruct (Z.eqb_spec amount 0) as [->|].
  { right. exists (fs_used_bytes fs). rewrite with_used_same. split; [done|]. destruct (cfg_capacity _); [|done].
    intros ?. split_and!; [lia | done | by left]. }
  destruct (cfg_capacity _) as [cap|].
  - destruct (checked_add 64 _ _) as [new|] eqn:Hnew; [|by left].
    apply checked_add_Some in Hnew as [-> Hfit]. destruct (cap <? _) eqn:?; [by left|]. breflect.
    right. eexists. split; [done|]. intros [??]. unfold fits. split_and!; lia.
  - right. exists (fs_used_bytes fs). by rewrite with_used_same.
Qed.

(** The bytes of a file after a write at [start]. *)
Definition written (data : list byte) (start : Z) (buf : list byte) : list byte :=
  overwrite (if zlen data <? start + zlen buf then resize (start + zlen buf) data else data) start buf.
Definition write_start (fh : FileHandle) (data : list byte) (offset : Z) : Z :=
  if has_bits (fh_flags fh) GUEST_O_APPEND then zlen data else offset.

Lemma length_written data start buf :
  0 <= start -> zlen (written data start buf) = Z.max (zlen data) (start + zlen buf).
Proof.
  intros Hs. unfold written. destruct (zlen data <? _) eqn:Hg; breflect;
    rewrite length_overwrite; rewrite ?length_resize by lia; lia.
Qed.

Lemma write_data_cases fs fh data buf offset kp now :
  0 <= offset ->
  match write_data fs fh data buf offset kp now with
  | (fs', Err _) => fs' = fs
  | (fs', Ok n) =>
      let start := write_start fh data offset in
      let data' := written data start buf in
      n = zlen buf /\ start + zlen buf <= I64_MAX /\
      exists u, fs' = upd_meta (store_data (with_used_bytes fs u) (fh_node fh) data') (fh_node fh) (fun m =>
                        let m := touch now (set_size (zlen data') m) in
                        if kp then set_mode clear_suid_sgid m else m)
                /\ (fits 64 (fs_used_bytes fs) -> reserved fs (zlen data' - zlen data) u)
  end.
Proof.
  intros Ho. unfold write_data. fold (write_start fh data offset).
  set (start := write_start fh data offset).
  assert (Hs : 0 <= start) by (unfold start, write_start; case_match; lia).
  destruct (checked_add 64 start (zlen buf)) as [last|] eqn:Hlast; simpl; [|done].
  apply checked_add_Some in Hlast as [-> _]. destruct (I64_MAX <? _) eqn:Hmax; [done|]. breflect.
  pose proof (length_written data start buf Hs) as Hlen. unfold written in *.
  destruct (zlen data <? start + zlen buf) eqn:Hg; breflect; simpl.
  - destruct (reserve_bytes_cases fs (start + zlen buf - zlen data) ltac:(lia)) as [-> | (u & -> & Hu)]; [done|].
    split_and!; [done | lia |]. exists u. split; [done|]. rewrite Hlen. by rewrite Z.max_r by lia.
  - split_and!; [done | lia |]. exists (fs_used_bytes fs). rewrite with_used_same. split; [done|].
    intros Hf. unfold reserved. destruct (cfg_capacity _); [|done]. rewrite Hlen.
    split_and!; [lia | done | left; lia].
Qed.

(** ** Requests *)

(** Steps that do not touch a node. *)
Lemma arcs_alloc fs : fs_arcs (alloc_inode fs).1 = fs_arcs fs.
Proof. unfold alloc_inode. by destruct (inodes_full fs). Qed.
Lemma arcs_release fs a : fs_arcs (release_bytes fs a) = fs_arcs fs.
Proof. unfold release_bytes. by destruct (_ <? _). Qed.
Lemma arcs_reserve fs a : fs_arcs (reserve_bytes fs a).1 = fs_arcs fs.
Proof. unfold reserve_bytes. repeat case_match; done. Qed.
Lemma arcs_evict fs held i : fs_arcs (evict_inode fs held i) = fs_arcs fs.
Proof. unfold evict_inode. repeat case_match; simpl; rewrite ?arcs_release; done. Qed.
Lemma arcs_try_evict fs held i : fs_arcs (try_evict fs held i) = fs_arcs fs.
Proof. unfold try_evict. case_match; [apply arcs_evict | done]. Qed.
Lemma arcs_begin_create fs p n : fs_arcs (begin_create fs p n).1 = fs_arcs fs.
Proof. unfold begin_create. repeat case_match; try done. apply arcs_alloc. Qed.
Lemma arcs_snapshot fs ino h : fs_arcs (handle_snapshot fs ino h).1 = fs_arcs fs.
Proof. unfold handle_snapshot. repeat case_match; done. Qed.

Lemma typed_arcs fs fs' : fs_arcs fs' = fs_arcs fs -> typed_fs fs -> typed_fs fs'.
Proof. unfold typed_fs. by intros ->. Qed.

Lemma typed_forget_one fs held i count : typed_fs fs -> typed_fs (forget_one fs held i count).
Proof.
  intros Hfs. unfold forget_one. destruct (get_node fs i); [|done].
  assert (Hr : forall f fs, typed_fs fs -> typed_fs (upd_node fs i (set_refs f)))
    by (intros; apply typed_upd; auto with memfs).
  repeat case_match; try (eapply typed_arcs; [apply arcs_evict|]); auto.
Qed.

Lemma typed_forget fs i count : typed_fs fs -> typed_fs (forget fs i count).
Proof. intros. unfold forget. case_match; [done | by apply typed_forget_one]. Qed.

Lemma typed_insert_child fs p n i : typed_fs fs -> typed_fs (insert_child fs p n i).1.
Proof.
  intros Hfs. unfold insert_child. repeat case_match; try done. apply typed_upd; auto with memfs.
Qed.

Lemma typed_insert_node fs p n node f :
  typed_fs fs -> typed (mn_inode node) node -> keeps_type f -> typed_fs (insert_node fs p n node f).1.
Proof.
  intros Hfs Hn Hf. unfold insert_node. pose proof (typed_insert_child fs p n (mn_inode node) Hfs) as Hi.
  destruct (insert_child fs p n (mn_inode node)) as [fs1 [[]|e]]; simpl in *; [|done].
  apply typed_register; [|done]. by apply typed_upd_meta.
Qed.

Lemma typed_begin fs p n : typed_fs fs -> typed_fs (begin_create fs p n).1.
Proof. apply typed_arcs, arcs_begin_create. Qed.

Lemma typed_create fs ctx p n mode flags umask now :
  typed_fs fs -> typed_fs (do_create fs ctx p n mode flags umask now).1.
Proof.
  intros Hfs%(typed_begin _ p n). unfold do_create.
  destruct (begin_create fs p n) as [fs1 [i|e]]; [|done]. simpl in Hfs.
  set (node := mkNode i _ _ _ _ _).
  assert (Hn : typed (mn_inode node) node) by (split_and!; [done | done | by apply type_bits_effective | done]).
  pose proof (typed_insert_node fs1 p n node (touch now) Hfs Hn (keeps_touch now)) as Hins.
  destruct (insert_node fs1 p n node (touch now)) as [fs2 [[]|e]]; done.
Qed.

Lemma typed_mkdir fs ctx p n mode umask now :
  typed_fs fs -> typed_fs (do_mkdir fs ctx p n mode umask now).1.
Proof.
  intros Hfs%(typed_begin _ p n). unfold do_mkdir.
  destruct (begin_create fs p n) as [fs1 [i|e]]; [|done]. simpl in Hfs.
  set (node := mkNode i _ _ _ _ _). set (f := fun m => touch now _).
  assert (Hn : typed (mn_inode node) node) by (split_and!; [done | done | by apply type_bits_effective | done]).
  pose proof (typed_insert_node fs1 p n node f Hfs Hn ltac:(by intros m)) as Hins.
  destruct (insert_node fs1 p n node f) as [fs2 [[]|e]]; done.
Qed.

Lemma mknod_content_kind t k c : mknod_content t = Some (k, c) ->
  k = t /\ Z.land t MODE_TYPE_MASK = t /\ kind_of_content k c /\ size_of_content 0 c.
Proof.
  unfold mknod_content. destruct (Z.eqb_spec t MODE_REG) as [->|_]; [by intros [= <- <-]|].
  destruct (_ || _) eqn:Ht; [|done]. intros [= <- <-]. rewrite !orb_true_iff, !Z.eqb_eq in Ht.
  destruct Ht as [[[->| ->]| ->]| ->]; split_and!; try done; simpl; set_solver.
Qed.

Lemma typed_mknod fs ctx p n mode rdev umask now :
  typed_fs fs -> typed_fs (do_mknod fs ctx p n mode rdev umask now).1.
Proof.
  intros Hfs%(typed_begin _ p n). unfold do_mknod.
  destruct (begin_create fs p n) as [fs1 [i|e]]; [|done]. simpl in Hfs.
  destruct (mknod_content _) as [[k c]|] eqn:Hk; [|done].
  apply mknod_content_kind in Hk as (-> & Ht & Hc & Hs).
  set (node := mkNode i _ _ _ _ _).
  assert (Hn : typed (mn_inode node) node) by (split_and!; [done | done | by apply type_bits_effective | done]).
  pose proof (typed_insert_node fs1 p n node (touch now) Hfs Hn (keeps_touch now)) as Hins.
  destruct (insert_node fs1 p n node (touch now)) as [fs2 [[]|e]]; done.
Qed.

Lemma typed_symlink fs ctx target p n now :
  typed_fs fs -> typed_fs (do_symlink fs ctx target p n now).1.
Proof.
  intros Hfs%(typed_begin _ p n). unfold do_symlink.
  destruct (begin_create fs p n) as [fs1 [i|e]]; [|done]. simpl in Hfs.
  set (node := mkNode i _ _ _ _ _).
  assert (Hn : typed (mn_inode node) node) by done.
  pose proof (typed_insert_node fs1 p n node (touch now) Hfs Hn (keeps_touch now)) as Hins.
  destruct (insert_node fs1 p n node (touch now)) as [fs2 [[]|e]]; done.
Qed.

Lemma typed_add_child fs d n i : typed_fs fs -> typed_fs (add_child fs d n i).
Proof. intros. apply typed_upd; auto with memfs. Qed.
Lemma typed_del_child fs d n : typed_fs fs -> typed_fs (del_child fs d n).
Proof. intros. apply typed_upd; auto with memfs. Qed.
Lemma typed_store_parent fs d p : typed_fs fs -> typed_fs (store_parent fs d p).
Proof. intros. apply typed_upd; auto with memfs. Qed.
Lemma typed_inc_lookup fs i : typed_fs fs -> typed_fs (inc_lookup fs i).
Proof. intros. apply typed_upd; auto with memfs. Qed.
Lemma typed_try_evict fs held i : typed_fs fs -> typed_fs (try_evict fs held i).
Proof. apply typed_arcs, arcs_try_evict. Qed.
#[export] Hint Resolve typed_upd typed_upd_meta typed_add_child typed_del_child typed_store_parent
  typed_inc_lookup typed_try_evict typed_forget_one typed_forget : memfs.

Lemma typed_link fs i p n now : typed_fs fs -> typed_fs (do_link fs i p n now).1.
Proof.
  intros. unfold do_link. repeat case_match; simpl; auto 8 with memfs.
Qed.

Lemma typed_unlink fs p n now : typed_fs fs -> typed_fs (do_unlink fs p n now).1.
Proof.
  intros. unfold do_unlink. repeat case_match; simpl; auto 8 with memfs.
Qed.

Lemma typed_rmdir fs p n now : typed_fs fs -> typed_fs (do_rmdir fs p n now).1.
Proof.
  intros. unfold do_rmdir. repeat case_match; simpl; auto 8 with memfs.
Qed.

Lemma typed_touch_parents fs o d now : typed_fs fs -> typed_fs (touch_parents fs o d now).
Proof. intros. unfold touch_parents. case_match; auto with memfs. Qed.

Lemma typed_exchange fs o on d dn s sn t tn now :
  typed_fs fs -> typed_fs (rename_exchange fs o on d dn s sn t tn now).
Proof.
  intros. unfold rename_exchange. apply typed_touch_parents. repeat case_match; auto 8 with memfs.
Qed.

Lemma typed_replace fs b d t now : typed_fs fs -> typed_fs (replace_dest fs b d t now).1.
Proof.
  intros. unfold replace_dest. repeat case_match; simpl; auto.
  all: repeat apply typed_upd_meta; done || by intros m.
Qed.

Lemma typed_move fs o on d dn s b now : typed_fs fs -> typed_fs (rename_move fs o on d dn s b now).
Proof.
  intros. unfold rename_move. apply typed_touch_parents. repeat case_match; auto 8 with memfs.
Qed.

Lemma typed_rename fs o on d dn flags now : typed_fs fs -> typed_fs (do_rename fs o on d dn flags now).1.
Proof.
  intros Hfs. pose proof (do_rename_cases fs o on d dn flags now) as Hc.
  destruct (do_rename fs o on d dn flags now) as [fs' [[]|e]]; simpl; [|by subst].
  destruct Hc as [ | | |?????????? Hr]; auto using typed_exchange, typed_move.
  apply typed_try_evict, typed_move. apply (typed_replace _ (mn_kind sn =? MODE_DIR) d t now) in Hfs.
  by destruct (replace_dest _ _ _ _ _); simplify_eq.
Qed.

Lemma typed_truncate fs i now : typed_fs fs -> typed_fs (truncate_on_open fs i now).
Proof.
  intros Hfs. unfold truncate_on_open. destruct (data_of (deref fs i)) as [d|] eqn:Hd; [|done].
  assert (Hst : typed_fs (upd_meta (store_data fs i []) i (fun m => touch now (set_size 0 m)))).
  { eapply typed_store; [done | done | by intros m | exact Hd]. }
  case_match; [|done]. revert Hst. apply typed_arcs. simpl. by rewrite arcs_release.
Qed.

Lemma typed_open fs i kp flags now now' : typed_fs fs -> typed_fs (do_open fs i kp flags now now').1.
Proof.
  intros Hfs. unfold do_open. destruct (i =? INIT_INODE); [done|]. destruct (get_node fs i); [|done].
  destruct (mn_kind _ =? _); [done|]. unfold add_file_handle. simpl.
  assert (Hk : keeps_type (fun m => if has_bits (im_mode m) (Z.lor MODE_SETUID MODE_SETGID)
                 then set_ctime now' (set_mode clear_suid_sgid m) else m)).
  { intros m. case_match; [|done]. simpl. by rewrite type_bits_clear. }
  match goal with |- typed_fs (with_file_handles (with_next_handle ?fs1 _) _) =>
    apply (typed_arcs fs1); [done|] end.
  destruct (has_bits (normalize_handle_flags _ _) _), kp; simpl; auto using typed_truncate, typed_upd_meta.
Qed.

Lemma typed_data fs i d : typed_fs fs -> data_of (deref fs i) = Some d -> zlen d <= I64_MAX.
Proof.
  intros Hfs Hd. destruct (fs_arcs fs !! i) as [n|] eqn:Hn.
  - destruct (Hfs _ _ Hn) as (_ & _ & _ & Hsz). rewrite (content_of_data _ _ _ _ Hn Hd) in Hsz.
    simpl in Hsz. lia.
  - unfold deref in Hd. by rewrite lookup_total_alt, Hn in Hd.
Qed.

Lemma typed_used fs u : typed_fs fs -> typed_fs (with_used_bytes fs u).
Proof. by apply typed_arcs. Qed.

Lemma typed_write fs i h del size offset kp now :
  0 <= offset -> typed_fs fs -> typed_fs (do_write fs i h del size offset kp now).1.
Proof.
  intros Ho Hfs. unfold do_write. destruct (i =? INIT_INODE); [done|].
  destruct (fs_file_handles fs !! h) as [fh|]; simpl; [|done].
  destruct (data_of (deref fs (fh_node fh))) as [data|] eqn:Hd; [|done].
  destruct (if has_bits _ _ then _ else _); [|done]. destruct del as [buf|]; [|done].
  destruct (zlen buf =? 0); [done|].
  pose proof (write_data_cases fs fh data buf offset kp now Ho) as Hw.
  destruct (write_data fs fh data buf offset kp now) as [fs' [n|e]]; simpl; [|by subst].
  destruct Hw as (Hn & Hmax & u & -> & _). pose proof (typed_data _ _ _ Hfs Hd).
  pose proof (length_written data (write_start fh data offset) buf ltac:(unfold write_start; case_match; lia)).
  eapply typed_store; [by apply typed_used | lia | | exact Hd].
  intros m. destruct kp; simpl; by rewrite ?type_bits_clear.
Qed.

Lemma typed_setattr_size fs i z : typed_fs fs -> typed_fs (setattr_size fs i z).1.
Proof.
  intros Hfs. unfold setattr_size. destruct (data_of (deref fs i)) as [d|] eqn:Hd; [|done].
  pose proof (typed_data _ _ _ Hfs Hd).
  destruct (z <? 0) eqn:?; [done|]. destruct (I64_MAX <? z) eqn:?; [done|].
  destruct (z <? zlen d) eqn:?; [|destruct (zlen d <? z) eqn:?]; breflect; simpl.
  - apply (typed_arcs (upd_meta (store_data fs i (take (Z.to_nat z) d)) i (set_size z))).
    { simpl. by rewrite arcs_release. }
    eapply typed_store; [done | len | | exact Hd]. intros m. simpl. split; [done|]. len.
  - destruct (reserve_bytes_cases fs (z - zlen d) ltac:(lia)) as [-> | (u & -> & _)]; simpl; [done|].
    eapply typed_store; [by apply typed_used | rewrite length_resize; lia | | exact Hd].
    intros m. simpl. split; [done|]. by rewrite length_resize.
  - assert (z = zlen d) as -> by lia. apply typed_upd_here; [done|].
    intros n Hn (Hi & Hk & Hm & Hs). unfold typed. simpl. rewrite (content_of_data _ _ _ _ Hn Hd) in *.
    by split_and!.
Qed.

Lemma typed_setattr fs i attr valid ta tm tc :
  typed_fs fs -> typed_fs (do_setattr fs i attr valid ta tm tc).1.
Proof.
  intros Hfs. unfold do_setattr. destruct (i =? INIT_INODE); [done|]. destruct (get_node fs i); [|done].
  assert (Hr : typed_fs (if v_size valid then setattr_size fs i (st_size attr) else (fs, Ok tt)).1).
  { destruct (v_size valid); [by apply typed_setattr_size | done]. }
  destruct (if v_size valid then _ else _) as [fs1 [[]|e]]; simpl in *; auto with memfs.
Qed.

Lemma typed_fallocate fs i h mode offset length :
  0 <= offset -> 0 <= length -> typed_fs fs -> typed_fs (do_fallocate fs i h mode offset length).1.
Proof.
  intros Ho Hl Hfs. unfold do_fallocate. destruct (i =? INIT_INODE); [done|].
  destruct (fs_file_handles fs !! h) as [fh|]; simpl; [|done]. destruct (negb _); [done|].
  destruct (mode =? 0).
  - unfold allocate_range. destruct (checked_add 64 offset length) as [last|] eqn:Hlast; simpl; [|done].
    apply checked_add_Some in Hlast as [-> _]. destruct (I64_MAX <? _) eqn:?; [done|].
    destruct (data_of (deref fs (fh_node fh))) as [d|] eqn:Hd; [|done].
    destruct (zlen d <? _) eqn:?; [|done]. breflect.
    destruct (reserve_bytes_cases fs (offset + length - zlen d) ltac:(lia)) as [-> | (u & -> & _)]; simpl; [done|].
    eapply typed_store; [by apply typed_used | rewrite length_resize; lia | | exact Hd].
    intros m. simpl. split; [done|]. rewrite length_resize; lia.
  - destruct (has_bits _ _ && has_bits _ _); [|done]. simpl.
    destruct (data_of (deref fs (fh_node fh))) as [d|] eqn:Hd; [|done].
    apply typed_upd_here; [done|]. intros n Hn (Hi & Hk & Hm & Hs). unfold typed. simpl.
    rewrite (content_of_data _ _ _ _ Hn Hd) in *. simpl in *. by rewrite length_punch.
Qed.

Lemma typed_lookup agentd fs p n : typed_fs fs -> typed_fs (lookup agentd fs p n).1.
Proof. intros. unfold lookup. repeat case_match; simpl; auto with memfs. Qed.

Lemma typed_release fs i h : typed_fs fs -> typed_fs (do_release fs i h).1.
Proof.
  intros Hfs. unfold do_release. repeat case_match; simpl; try done.
  revert Hfs. apply typed_arcs. by rewrite arcs_release.
Qed.

Lemma typed_setxattr fs i k v flags : typed_fs fs -> typed_fs (do_setxattr fs i k v flags).1.
Proof. intros. unfold do_setxattr. repeat case_match; simpl; auto with memfs. Qed.
Lemma typed_removexattr fs i k : typed_fs fs -> typed_fs (do_removexattr fs i k).1.
Proof. intros. unfold do_removexattr. repeat case_match; simpl; auto with memfs. Qed.

Lemma arcs_opendir fs i : fs_arcs (do_opendir fs i).1 = fs_arcs fs.
Proof. unfold do_opendir. repeat case_match; done. Qed.
Lemma arcs_readdir fs i h o : fs_arcs (do_readdir fs i h o).1 = fs_arcs fs.
Proof.
  unfold do_readdir. pose proof (arcs_snapshot fs i h) as Ha.
  by destruct (handle_snapshot fs i h) as [fs1 [l|e]].
Qed.

Lemma typed_readdirplus_loop agentd fs l : typed_fs fs -> typed_fs (readdirplus_loop agentd fs l).1.
Proof.
  revert fs. induction l as [|e l IH]; intros fs Hfs; simpl; [done|].
  assert (He : typed_fs (readdirplus_entry agentd fs e).1).
  { unfold readdirplus_entry. repeat case_match; simpl; auto with memfs. }
  destruct (readdirplus_entry agentd fs e) as [fs1 o]. specialize (IH fs1 He).
  by destruct (readdirplus_loop agentd fs1 l).
Qed.

Lemma typed_readdirplus agentd fs i h o : typed_fs fs -> typed_fs (do_readdirplus agentd fs i h o).1.
Proof.
  intros Hfs. unfold do_readdirplus. pose proof (typed_arcs _ _ (arcs_readdir fs i h o) Hfs) as Hr.
  destruct (do_readdir fs i h o) as [fs1 [l|e]]; [|done].
  pose proof (typed_readdirplus_loop agentd fs1 l Hr) as Hl. by destruct (readdirplus_loop agentd fs1 l).
Qed.

Lemma typed_batch_forget fs l : typed_fs fs -> typed_fs (batch_forget fs l).
Proof.
  unfold batch_forget. revert fs. induction l as [|r l IH]; intros fs Hfs; simpl; [done|].
  by apply IH, typed_forget.
Qed.

(** The unsigned arguments of a request are in range. *)
Definition op_fits (o : op) : Prop :=
  match o with
  | OpForget _ count => fits 64 count
  | OpBatchForget requests => Forall (fun r => fits 64 r.2) requests
  | OpWrite _ _ delivered size offset _ _ =>
      fits 32 size /\ fits 64 offset /\ match delivered with Ok buf => zlen buf <= size | Err _ => True end
  | OpFallocate _ _ _ offset length => fits 64 offset /\ fits 64 length
  | _ => True
  end.

Lemma outcome_state {A} (p : MemFs * io A) : (outcome p).1 = p.1.
Proof. done. Qed.

Lemma typed_step agentd fs o : op_fits o -> typed_fs fs -> typed_fs (apply_op agentd fs o).1.
Proof.
  intros Ho Hfs. destruct o; simpl in Ho |- *;
    eauto using typed_lookup, typed_forget, typed_batch_forget, typed_setattr, typed_symlink, typed_mknod,
      typed_mkdir, typed_unlink, typed_rmdir, typed_rename, typed_link, typed_open, typed_create,
      typed_release, typed_setxattr, typed_removexattr, typed_readdirplus, typed_arcs, arcs_opendir,
      arcs_readdir.
  - by destruct (_ && _).
  - destruct Ho as (_ & [? _] & _). by apply typed_write.
  - destruct Ho as [[? _] [? _]]. by apply typed_fallocate.
Qed.

Lemma typed_build cfg now : typed_fs (build cfg now).
Proof. intros i n. simpl. rewrite lookup_singleton_Some. intros [<- <-]. done. Qed.

Lemma typed_run agentd fs ops : Forall op_fits ops -> typed_fs fs -> typed_fs (run agentd fs ops).
Proof.
  unfold run. intros Hops. revert fs. induction Hops as [|o ops Ho Hops IH]; intros fs Hfs; simpl; [done|].
  by apply IH, typed_step.
Qed.

(** Every node keeps its type.  Whatever requests a filesystem serves, a
    node reached through any pointer carries its own inode number, its kind
    agrees with its content (data, entries, link target or none) and with the
    type bits of its mode, through chmod, set-id clearing and mknod of any
    mode, and the size it reports is the number of bytes it holds. *)
Lemma memfs_nodes_typed agentd cfg now ops :
  Forall op_fits ops -> typed_fs (run agentd (build cfg now) ops).
Proof. intros Hops. apply typed_run; [done|]. apply typed_build. Qed.

Lemma memfs_nodes_typed_witness :
  let t := mkTimespec 0 0 in
  let fs := build (mkMemConfig (Some 100) (Some 20) 5 5 CacheAlways true) t in
  let ops := [OpCreate (mkContext 0 0) 1 [Byte.x66] 0x1ff 2 0 t; OpWrite 3 1 (Ok [Byte.x61]) 1 4 false t;
              OpFallocate 3 1 0 2 9] in
  typed_fs (run [] fs ops).
Proof.
  intros t fs ops. apply (memfs_nodes_typed [] (mkMemConfig (Some 100) (Some 20) 5 5 CacheAlways true) t ops).
  unfold ops. repeat constructor; simpl; lia.
Defined.
