(* ===== verification/MemFsTree.v ===== *)
(** * Names, links and the inode table of the in-memory filesystem

    The directories of [MemFs] seen as one map from (directory, name) to inode
    number.  The first part states what ties this map to the link counts, the
    parent pointers and the table, and shows that each kind of change of the
    map keeps the ties when the counts change the way the operations change
    them.  The second part shows that the operations make exactly those
    changes. *)

From S2P Require Import Prelude MemFs MemFsTypes.
From Stdlib Require Import Strings.Byte.

(** ** Link arithmetic on the name map *)

Abbreviation names := (gmap (Z * name) Z).
Implicit Types (ns : names) (kd nl par : gmap Z Z) (tab : gset Z) (fs : MemFs) (a : gmap Z MemNode).

Definition b2z (b : bool) : Z := if b then 1 else 0.
Definition is_dir kd (i : Z) : bool := bool_decide (kd !! i = Some MODE_DIR).
Definition links ns (i : Z) : Z := msum (fun _ c => b2z (c =? i)) ns.
Definition subdirs ns kd (d : Z) : Z := msum (fun p c => b2z ((p.1 =? d) && is_dir kd c)) ns.
Definition total ns : Z := msum (fun _ _ => 1) ns.

(** The link count a node must have: its names, or for a directory its two
    links to itself while it has a name and one per subdirectory. *)
Definition expected_links ns kd (i : Z) : Z :=
  if is_dir kd i
  then 2 * links ns i + subdirs ns kd i + (if i =? ROOT_INODE then 2 else 0)
  else links ns i.

Record tree_ok ns kd nl par tab : Prop := mkTreeOk {
  t_links i l : nl !! i = Some l -> l = expected_links ns kd i;
  t_single i : is_dir kd i = true -> links ns i + (if i =? ROOT_INODE then 1 else 0) <= 1;
  t_target p c : ns !! p = Some c -> c ∈ tab;
  t_source p c : ns !! p = Some c -> is_dir kd p.1 = true;
  t_parent p c : ns !! p = Some c -> is_dir kd c = true -> par !! c = Some p.1;
  t_table i : i ∈ tab -> is_Some (kd !! i);
  t_counts i : is_Some (kd !! i) <-> is_Some (nl !! i);
  t_root : ROOT_INODE ∈ tab /\ is_dir kd ROOT_INODE = true }.

Lemma b2z_nonneg b : 0 <= b2z b.
Proof. by destruct b. Qed.
#[export] Hint Resolve b2z_nonneg : msb.

Lemma links_nonneg ns i : 0 <= links ns i.
Proof. apply msum_nonneg. auto with msb. Qed.
Lemma subdirs_nonneg ns kd i : 0 <= subdirs ns kd i.
Proof. apply msum_nonneg. auto with msb. Qed.
Lemma links_pos ns p i : ns !! p = Some i -> 1 <= links ns i.
Proof.
  intros Hp. pose proof (msum_ge (fun _ c => b2z (c =? i)) ns p i ltac:(intros; apply b2z_nonneg) Hp) as Hge.
  cbv beta in Hge. by rewrite Z.eqb_refl in Hge.
Qed.
Lemma links_total ns i : links ns i <= total ns.
Proof. apply msum_le. intros. by destruct (_ =? _). Qed.
Lemma subdirs_total ns kd i : subdirs ns kd i <= total ns.
Proof. apply msum_le. intros. by destruct (_ && _). Qed.
Lemma subdirs_pos ns kd d n c : ns !! (d, n) = Some c -> is_dir kd c = true -> 1 <= subdirs ns kd d.
Proof.
  intros Hp Hc.
  pose proof (msum_ge (fun p c => b2z ((p.1 =? d) && is_dir kd c)) ns (d, n) c ltac:(intros; apply b2z_nonneg) Hp) as Hge.
  simpl in Hge. by rewrite Z.eqb_refl, Hc in Hge.
Qed.

Lemma links_none ns i : (forall p, ns !! p <> Some i) -> links ns i = 0.
Proof.
  intros Hno. unfold links. rewrite (msum_ext _ (fun _ _ => 0)).
  - induction ns as [|k v m Hk IH] using map_ind; [apply msum_empty|].
    rewrite msum_insert_new by done. rewrite IH; [done|].
    intros p Hp. apply (Hno p). rewrite lookup_insert_ne; congruence.
  - intros p c Hp. destruct (Z.eqb_spec c i); [|done]. subst. by destruct (Hno p).
Qed.

Lemma subdirs_none ns kd d : (forall n, ns !! (d, n) = None) -> subdirs ns kd d = 0.
Proof.
  intros Hno. unfold subdirs. rewrite (msum_ext _ (fun _ _ => 0)).
  - induction ns as [|k v m Hk IH] using map_ind; [apply msum_empty|].
    rewrite msum_insert_new by done. rewrite IH; [done|].
    intros n. specialize (Hno n). by apply lookup_insert_None in Hno as [? _].
  - intros [d' n] c Hp. simpl. destruct (Z.eqb_spec d' d); [|done]. subst. by rewrite Hno in Hp.
Qed.

Lemma links_insert ns p c i :
  links (<[p := c]> ns) i = links ns i - at_key (fun _ c => b2z (c =? i)) p (ns !! p) + b2z (c =? i).
Proof. apply msum_insert. Qed.
Lemma links_delete ns p i :
  links (delete p ns) i = links ns i - at_key (fun _ c => b2z (c =? i)) p (ns !! p).
Proof. apply msum_delete. Qed.
Lemma subdirs_insert ns kd p c d :
  subdirs (<[p := c]> ns) kd d
  = subdirs ns kd d - at_key (fun p c => b2z ((p.1 =? d) && is_dir kd c)) p (ns !! p)
    + b2z ((p.1 =? d) && is_dir kd c).
Proof. apply (msum_insert (fun p c => b2z ((p.1 =? d) && is_dir kd c))). Qed.
Lemma subdirs_delete ns kd p d :
  subdirs (delete p ns) kd d
  = subdirs ns kd d - at_key (fun p c => b2z ((p.1 =? d) && is_dir kd c)) p (ns !! p).
Proof. apply (msum_delete (fun p c => b2z ((p.1 =? d) && is_dir kd c))). Qed.

(** Case analysis on every number comparison of the goal. *)
Ltac zcases :=
  repeat match goal with
  | |- context [?a =? ?b] => destruct (Z.eqb_spec a b); subst
  end.

(** A new number changes no count. *)
Lemma is_dir_fresh kd i j k : j <> i -> is_dir (<[i := k]> kd) j = is_dir kd j.
Proof. intros. unfold is_dir. by rewrite lookup_insert_ne. Qed.
Lemma is_dir_here kd i k : is_dir (<[i := k]> kd) i = (k =? MODE_DIR).
Proof. unfold is_dir. rewrite lookup_insert_eq. zcases; case_bool_decide; congruence. Qed.
Lemma subdirs_fresh ns kd i k d : links ns i = 0 -> subdirs ns (<[i := k]> kd) d = subdirs ns kd d.
Proof.
  intros Hno. apply msum_ext. intros p c Hp. f_equal. f_equal. apply is_dir_fresh.
  intros ->. apply links_pos in Hp. lia.
Qed.

(** ** Changes of the name map *)

Section changes.
Context ns kd nl par tab (Hok : tree_ok ns kd nl par tab).

Lemma unknown_unlinked i : kd !! i = None -> links ns i = 0.
Proof.
  intros Hi. apply links_none. intros p Hp.
  destruct (t_table _ _ _ _ _ Hok i (t_target _ _ _ _ _ Hok p i Hp)). congruence.
Qed.

Lemma unknown_no_subdirs i : kd !! i = None -> subdirs ns kd i = 0.
Proof.
  intros Hi. apply subdirs_none. intros n. destruct (ns !! (i, n)) as [c|] eqn:Hc; [|done].
  apply (t_source _ _ _ _ _ Hok) in Hc. unfold is_dir in Hc. simpl in Hc. rewrite Hi in Hc.
  by apply bool_decide_eq_true in Hc.
Qed.

Lemma root_known : is_Some (kd !! ROOT_INODE).
Proof. apply (t_table _ _ _ _ _ Hok), (t_root _ _ _ _ _ Hok). Qed.

(** A new node under a new name. *)
Lemma tree_create i k p n :
  kd !! i = None -> is_dir kd p = true -> ns !! (p, n) = None ->
  tree_ok (<[(p, n) := i]> ns) (<[i := k]> kd)
    (<[i := if k =? MODE_DIR then 2 else 1]> (if k =? MODE_DIR then alter (Z.add 1) p nl else nl))
    (if k =? MODE_DIR then <[i := p]> par else par) ({[i]} ∪ tab).
Proof.
  intros Hi Hp Hn. pose proof (unknown_unlinked i Hi) as Hl. pose proof (unknown_no_subdirs i Hi) as Hs.
  assert (Hpi : p <> i). { intros ->. unfold is_dir in Hp. rewrite Hi in Hp. by apply bool_decide_eq_true in Hp. }
  assert (Hri : ROOT_INODE <> i). { intros Heq. destruct root_known. rewrite Heq in *. congruence. }
  assert (Hkeep : forall q c, ns !! q = Some c -> c <> i).
  { intros q c Hq ->. apply links_pos in Hq. lia. }
  split.
  - intros j l. unfold expected_links. rewrite links_insert, subdirs_insert, Hn, subdirs_fresh by done. simpl.
    rewrite is_dir_here. destruct (decide (j = i)) as [->|Hji].
    + rewrite lookup_insert_eq, is_dir_here, Hl, Hs. intros [= <-]. zcases; simpl; lia.
    + rewrite lookup_insert_ne, is_dir_fresh by done. intros Hj.
      replace (i =? j) with false by (symmetry; by apply Z.eqb_neq). simpl.
      pose proof (t_links _ _ _ _ _ Hok j) as Hold. unfold expected_links in Hold.
      destruct (k =? MODE_DIR); simpl in *.
      * apply lookup_alter_Some in Hj as [(<- & l0 & Hl0 & ->) | [? Hj]].
        -- rewrite Z.eqb_refl, Hp in *. simpl. rewrite (Hold _ Hl0). lia.
        -- rewrite (Hold _ Hj). replace (p =? j) with false by (symmetry; by apply Z.eqb_neq).
           destruct (is_dir kd j); simpl; lia.
      * rewrite (Hold _ Hj), andb_false_r. destruct (is_dir kd j); simpl; lia.
  - intros j. rewrite links_insert, Hn. simpl. destruct (decide (j = i)) as [->|Hji].
    + intros _. rewrite Hl, Z.eqb_refl. zcases; simpl; congruence || lia.
    + rewrite is_dir_fresh by done. intros Hj%(t_single _ _ _ _ _ Hok).
      replace (i =? j) with false by (symmetry; by apply Z.eqb_neq). simpl. lia.
  - intros q c [[<- <-]|[? Hq]]%lookup_insert_Some; [set_solver|].
    apply (t_target _ _ _ _ _ Hok) in Hq. set_solver.
  - intros q c [[<- <-]|[? Hq]]%lookup_insert_Some; simpl.
    + by rewrite is_dir_fresh.
    + apply (t_source _ _ _ _ _ Hok) in Hq. rewrite is_dir_fresh; [done|]. intros Heq.
      unfold is_dir in Hq. rewrite Heq, Hi in Hq. by apply bool_decide_eq_true in Hq.
  - intros q c [[<- <-]|[? Hq]]%lookup_insert_Some; simpl.
    + rewrite is_dir_here. intros ->. by rewrite lookup_insert_eq.
    + pose proof (Hkeep _ _ Hq). rewrite is_dir_fresh by done. intros Hc.
      pose proof (t_parent _ _ _ _ _ Hok q c Hq Hc). destruct (_ =? _); [|done].
      by rewrite lookup_insert_ne.
  - intros j [->%elem_of_singleton|Hj]%elem_of_union; [rewrite lookup_insert_eq; eauto|].
    destruct (decide (j = i)) as [->|]; [rewrite lookup_insert_eq; eauto|].
    rewrite lookup_insert_ne by done. by apply (t_table _ _ _ _ _ Hok).
  - intros j. destruct (decide (j = i)) as [->|]; [rewrite !lookup_insert_eq; split; eauto|].
    rewrite !lookup_insert_ne, (t_counts _ _ _ _ _ Hok j) by done.
    destruct (_ =? _); [|done]. by rewrite lookup_alter_is_Some.
  - destruct (t_root _ _ _ _ _ Hok). rewrite is_dir_fresh by done. set_solver.
Qed.

(** A change of names among known nodes: the counts have to follow the
    expected ones. *)
Lemma tree_rename_core ns' nl' par' :
  (forall i, is_Some (nl' !! i) <-> is_Some (nl !! i)) ->
  (forall i l', nl' !! i = Some l' ->
     l' = default 0 (nl !! i) + (expected_links ns' kd i - expected_links ns kd i)) ->
  (forall i, is_dir kd i = true -> links ns' i <= links ns i) ->
  (forall p c, ns' !! p = Some c -> c ∈ tab /\ is_dir kd p.1 = true
                                  /\ (is_dir kd c = true -> par' !! c = Some p.1)) ->
  tree_ok ns' kd nl' par' tab.
Proof.
  intros Hdom Hnl Hsingle Hns. destruct Hok as [Hlinks Hs _ _ _ Htab Hcounts Hroot]. split.
  - intros i l' Hl'. rewrite (Hnl _ _ Hl').
    destruct (proj1 (Hdom i) (ex_intro _ _ Hl')) as [l Hl]. rewrite Hl. simpl.
    rewrite (Hlinks _ _ Hl). lia.
  - intros i Hi. specialize (Hs i Hi). specialize (Hsingle i Hi). lia.
  - intros p c Hp. by apply (Hns p c Hp).
  - intros p c Hp. by apply (Hns p c Hp).
  - intros p c Hp. by apply (Hns p c Hp).
  - done.
  - intros i. by rewrite Hdom.
  - done.
Qed.

Lemma entry_facts p c :
  ns !! p = Some c -> c ∈ tab /\ is_dir kd p.1 = true /\ (is_dir kd c = true -> par !! c = Some p.1).
Proof.
  intros Hp. split; [by eapply t_target | split; [by eapply t_source | by eapply t_parent]].
Qed.

(** A second name for a node that is not a directory. *)
Lemma tree_link p n c :
  c ∈ tab -> is_dir kd c = false -> is_dir kd p = true -> ns !! (p, n) = None ->
  tree_ok (<[(p, n) := c]> ns) kd (alter (Z.add 1) c nl) par tab.
Proof.
  intros Hc Hnd Hp Hn. apply tree_rename_core.
  - intros i. apply lookup_alter_is_Some.
  - intros i l' Hl'. unfold expected_links. rewrite links_insert, subdirs_insert, Hn, Hnd, andb_false_r. simpl.
    apply lookup_alter_Some in Hl' as [(-> & l0 & -> & ->) | [? ->]]; simpl.
    + rewrite Hnd, Z.eqb_refl. simpl. lia.
    + replace (c =? i) with false by (symmetry; by apply Z.eqb_neq). simpl.
      destruct (is_dir kd i); lia.
  - intros i Hi. rewrite links_insert, Hn. simpl. destruct (Z.eqb_spec c i); [congruence|]. simpl. lia.
  - intros q j [[<- <-]|[_ Hq]]%lookup_insert_Some; [|by apply entry_facts].
    split_and!; [done | done | congruence].
Qed.

(** Removal of a name of a node that is not a directory. *)
Lemma tree_unlink p n c :
  ns !! (p, n) = Some c -> is_dir kd c = false ->
  tree_ok (delete (p, n) ns) kd (alter (fun l => saturating_sub l 1) c nl) par tab.
Proof.
  intros Hn Hnd. apply tree_rename_core.
  - intros i. apply lookup_alter_is_Some.
  - intros i l' Hl'. unfold expected_links. rewrite links_delete, subdirs_delete, Hn. simpl.
    rewrite Hnd, andb_false_r.
    apply lookup_alter_Some in Hl' as [(-> & l0 & Hl0 & ->) | [? ->]]; simpl.
    + rewrite Hl0, Hnd, Z.eqb_refl. simpl. apply (t_links _ _ _ _ _ Hok) in Hl0.
      unfold expected_links in Hl0. rewrite Hnd in Hl0. apply links_pos in Hn. unfold saturating_sub. lia.
    + replace (c =? i) with false by (symmetry; by apply Z.eqb_neq). simpl.
      destruct (is_dir kd i); lia.
  - intros i Hi. rewrite links_delete, Hn. simpl. destruct (Z.eqb_spec c i); simpl; lia.
  - intros q j [_ Hq]%lookup_delete_Some. by apply entry_facts.
Qed.

(** A named directory has exactly one name and is not the root. *)
Lemma dir_entry p n c : ns !! (p, n) = Some c -> is_dir kd c = true -> links ns c = 1 /\ c <> ROOT_INODE.
Proof.
  intros Hn Hd. pose proof (t_single _ _ _ _ _ Hok c Hd) as Hs. apply links_pos in Hn.
  destruct (Z.eqb_spec c ROOT_INODE); lia.
Qed.

Lemma dir_unique_entry p q c : ns !! p = Some c -> ns !! q = Some c -> is_dir kd c = true -> p = q.
Proof.
  intros Hp Hq Hc. destruct p as [d n]. destruct (dir_entry _ _ _ Hp Hc) as [Hone _].
  destruct (decide ((d, n) = q)) as [|Hne]; [done|]. pose proof (links_delete ns (d, n) c) as Hdl.
  rewrite Hp in Hdl. simpl in Hdl. rewrite Z.eqb_refl in Hdl. simpl in Hdl.
  pose proof (links_pos (delete (d, n) ns) q c ltac:(by rewrite lookup_delete_ne)). lia.
Qed.

(** Removal of an empty directory. *)
Lemma tree_rmdir p n c :
  ns !! (p, n) = Some c -> is_dir kd c = true -> (forall m, ns !! (c, m) = None) ->
  tree_ok (delete (p, n) ns) kd
    (alter (fun l => saturating_sub l 1) p (alter (fun _ => 0) c nl)) par tab.
Proof.
  intros Hn Hd Hempty. destruct (dir_entry _ _ _ Hn Hd) as [Hone Hnr].
  assert (Hpc : p <> c) by (intros ->; specialize (Hempty n); congruence).
  pose proof (subdirs_none _ kd _ Hempty) as Hnosub.
  destruct (entry_facts _ _ Hn) as (_ & Hpd & _). simpl in Hpd.
  apply tree_rename_core.
  - intros i. by rewrite !lookup_alter_is_Some.
  - intros i l' Hl'. unfold expected_links. rewrite links_delete, subdirs_delete, Hn. simpl. rewrite Hd.
    apply lookup_alter_Some in Hl' as [(-> & l0 & Hl0 & ->) | [? Hl']].
    + rewrite lookup_alter_ne in Hl0 by done. rewrite Hl0, Hpd, Z.eqb_refl. simpl.
      replace (c =? i) with false by (symmetry; by apply Z.eqb_neq). simpl.
      apply (t_links _ _ _ _ _ Hok) in Hl0. unfold expected_links in Hl0. rewrite Hpd in Hl0.
      pose proof (subdirs_pos _ _ _ _ _ Hn Hd). pose proof (links_nonneg ns i).
      unfold saturating_sub. destruct (_ =? _); lia.
    + apply lookup_alter_Some in Hl' as [(<- & l0 & Hl0 & ->) | [? ->]].
      * rewrite Hl0, Hd, Z.eqb_refl. apply (t_links _ _ _ _ _ Hok) in Hl0. unfold expected_links in Hl0.
        rewrite Hd in Hl0. simpl. replace (p =? c) with false by (symmetry; by apply Z.eqb_neq).
        destruct (Z.eqb_spec c ROOT_INODE); [done|]. simpl. lia.
      * replace (c =? i) with false by (symmetry; by apply Z.eqb_neq).
        replace (p =? i) with false by (symmetry; by apply Z.eqb_neq). simpl. destruct (is_dir kd i); lia.
  - intros i Hi. rewrite links_delete, Hn. simpl. destruct (Z.eqb_spec c i); simpl; lia.
  - intros q j [_ Hq]%lookup_delete_Some. by apply entry_facts.
Qed.

(** What a parent pointer update means for the entries of the moved node. *)
Definition reparent (moved : bool) (s d : Z) (par0 : gmap Z Z) : gmap Z Z :=
  if moved then <[s := d]> par0 else par0.

Lemma reparent_ne moved s d par0 i : i <> s -> reparent moved s d par0 !! i = par0 !! i.
Proof. intros. unfold reparent. destruct moved; [by rewrite lookup_insert_ne | done]. Qed.

(** A move of an entry to a free name. *)
Lemma tree_move o on s d dn :
  ns !! (o, on) = Some s -> ns !! (d, dn) = None -> is_dir kd d = true ->
  let moved := is_dir kd s && negb (o =? d) in
  tree_ok (<[(d, dn) := s]> (delete (o, on) ns)) kd
    (if moved then alter (Z.add 1) d (alter (fun l => saturating_sub l 1) o nl) else nl)
    (reparent moved s d par) tab.
Proof.
  intros Ho Hd Hdd moved. destruct (entry_facts _ _ Ho) as (Hs & Hod & Hpar). simpl in Hod, Hpar.
  assert (Hfree : delete (o, on) ns !! (d, dn) = None) by (rewrite lookup_delete_None; auto).
  assert (Hexp : forall i, expected_links (<[(d, dn) := s]> (delete (o, on) ns)) kd i
                           = expected_links ns kd i + (b2z (moved && (d =? i)) - b2z (moved && (o =? i)))).
  { intros i. unfold expected_links, moved.
    rewrite links_insert, subdirs_insert, links_delete, subdirs_delete, Hfree, Ho. simpl.
    destruct (is_dir kd i) eqn:Hi, (is_dir kd s) eqn:Hsd; simpl; zcases; simpl; try lia; congruence. }
  apply tree_rename_core.
  - intros i. destruct moved; [by rewrite !lookup_alter_is_Some | done].
  - intros i l' Hl'. rewrite Hexp. destruct moved eqn:Hm; simpl in Hl' |- *.
    2:{ rewrite Hl'. simpl. lia. }
    apply andb_true_iff in Hm as [Hsd Hne]. apply negb_true_iff, Z.eqb_neq in Hne.
    apply lookup_alter_Some in Hl' as [(-> & l0 & Hl0 & ->) | [? Hl']].
    + rewrite lookup_alter_ne in Hl0 by done. rewrite Hl0, Z.eqb_refl.
      replace (o =? i) with false by (symmetry; by apply Z.eqb_neq). simpl. lia.
    + replace (d =? i) with false by (symmetry; by apply Z.eqb_neq).
      apply lookup_alter_Some in Hl' as [(-> & l0 & Hl0 & ->) | [? ->]]; simpl.
      * rewrite Hl0, Z.eqb_refl. simpl. apply (t_links _ _ _ _ _ Hok) in Hl0.
        unfold expected_links in Hl0. rewrite Hod in Hl0. pose proof (subdirs_pos _ _ _ _ _ Ho Hsd).
        pose proof (links_nonneg ns i). unfold saturating_sub. destruct (i =? ROOT_INODE); lia.
      * replace (o =? i) with false by (symmetry; by apply Z.eqb_neq). simpl. lia.
  - intros i Hi. rewrite links_insert, links_delete, Hfree, Ho. simpl. lia.
  - intros q j Hq. unfold reparent, moved.
    apply lookup_insert_Some in Hq as [[<- <-]|[_ [Hne Hq]%lookup_delete_Some]]; simpl.
    + split_and!; [done | done |]. intros Hsd. rewrite Hsd in *. simpl.
      destruct (Z.eqb_spec o d) as [->|]; simpl; [by apply Hpar | by rewrite lookup_insert_eq].
    + destruct (entry_facts _ _ Hq) as (? & ? & Hp). split_and!; [done | done |].
      intros Hj. specialize (Hp Hj). destruct (is_dir kd s && _); [|done].
      rewrite lookup_insert_ne; [done|]. intros ->. by apply Hne, (dir_unique_entry _ _ _ Ho Hq Hj).
Qed.

(** An exchange of two entries, of nodes of the same sort or in one directory. *)
Lemma tree_exchange o on s d dn t :
  ns !! (o, on) = Some s -> ns !! (d, dn) = Some t -> (o, on) <> (d, dn) ->
  o = d \/ is_dir kd s = is_dir kd t ->
  tree_ok (<[(d, dn) := s]> (<[(o, on) := t]> ns)) kd nl
    (reparent (is_dir kd t && negb (o =? d)) t o (reparent (is_dir kd s && negb (o =? d)) s d par)) tab.
Proof.
  intros Ho Hd Hne Hsame. destruct (entry_facts _ _ Ho) as (Hs & Hod & Hpar).
  destruct (entry_facts _ _ Hd) as (Ht & Hdd & Hpar'). simpl in *.
  assert (Hlinks : forall i, links (<[(d, dn) := s]> (<[(o, on) := t]> ns)) i = links ns i).
  { intros i. rewrite !links_insert, lookup_insert_ne, Ho, Hd by done. simpl. lia. }
  assert (Hst : is_dir kd s = true -> s <> t).
  { intros Hsd <-. by apply Hne, (dir_unique_entry _ _ _ Ho Hd Hsd). }
  apply tree_rename_core.
  - done.
  - intros i l' Hl'. rewrite Hl'. unfold expected_links. rewrite Hlinks. simpl.
    rewrite !subdirs_insert, lookup_insert_ne, Ho, Hd by done. simpl.
    destruct Hsame as [->|Heq]; [|rewrite Heq]; destruct (is_dir kd i); lia.
  - intros i _. by rewrite Hlinks.
  - intros q j Hq. assert (Hj : j ∈ tab /\ is_dir kd q.1 = true).
    { apply lookup_insert_Some in Hq as [[<- <-]|[_ [[<- <-]|[_ Hq]]%lookup_insert_Some]]; try done.
      by destruct (entry_facts _ _ Hq) as (? & ? & _). }
    destruct Hj as [Hj Hqd]. split_and!; [done | done |]. intros Hjd.
    apply lookup_insert_Some in Hq as [[<- <-]|[Hq1 [[<- <-]|[Hq2 Hq]]%lookup_insert_Some]]; simpl.
    + rewrite !reparent_ne by auto. unfold reparent. rewrite Hjd. destruct (Z.eqb_spec o d) as [->|]; simpl.
      * by apply Hpar.
      * by rewrite lookup_insert_eq.
    + unfold reparent at 1. rewrite Hjd. destruct (Z.eqb_spec o d) as [->|]; simpl.
      * rewrite andb_false_r. by apply Hpar'.
      * by rewrite lookup_insert_eq.
    + rewrite !reparent_ne; [by eapply t_parent | |]; intros ->.
      * by apply Hq2, (dir_unique_entry _ _ _ Ho Hq Hjd).
      * by apply Hq1, (dir_unique_entry _ _ _ Hd Hq Hjd).
Qed.

(** A node leaves the table once its count is zero. *)
Lemma tree_evict i : nl !! i = Some 0 -> tree_ok ns kd nl par (tab ∖ {[i]}).
Proof.
  intros Hi. pose proof (t_links _ _ _ _ _ Hok _ _ Hi) as Hl. unfold expected_links in Hl.
  pose proof (links_nonneg ns i). pose proof (subdirs_nonneg ns kd i).
  destruct Hok as [Hlinks Hs Htarget Hsource Hparent Htab Hcounts [Hroot Hrd]].
  split; try done.
  - intros p c Hp. specialize (Htarget _ _ Hp). enough (c <> i) by set_solver. intros ->.
    apply links_pos in Hp. destruct (is_dir kd i), (i =? ROOT_INODE); lia.
  - intros j Hj. apply Htab. set_solver.
  - split; [|done]. enough (i <> ROOT_INODE) by set_solver. intros ->. rewrite Hrd, Z.eqb_refl in Hl. lia.
Qed.

End changes.

(** ** The maps of a filesystem *)

Definition names_of a : names := map_uncurry (omap children_of a).
Definition kinds_of a : gmap Z Z := mn_kind <$> a.
Definition nlinks_of a : gmap Z Z := (fun n => im_nlink (mn_meta n)) <$> a.
Definition parents_of a : gmap Z Z := omap parent_of a.

Definition tree fs : Prop :=
  tree_ok (names_of (fs_arcs fs)) (kinds_of (fs_arcs fs)) (nlinks_of (fs_arcs fs)) (parents_of (fs_arcs fs))
    (fs_nodes fs).

Lemma lookup_names a d n : names_of a !! (d, n) = (a !! d ≫= children_of) ≫= (.!! n).
Proof. unfold names_of. rewrite lookup_map_uncurry, lookup_omap. by destruct (a !! d). Qed.

Lemma lookup_names_node a d node ch n :
  a !! d = Some node -> children_of node = Some ch -> names_of a !! (d, n) = ch !! n.
Proof. intros Hd Hch. rewrite lookup_names, Hd. simpl. by rewrite Hch. Qed.

Lemma names_alter_same a i f :
  (forall n, children_of (f n) = children_of n) -> names_of (alter f i a) = names_of a.
Proof.
  intros Hf. apply map_eq. intros [d n]. rewrite !lookup_names. destruct (decide (d = i)) as [->|].
  - rewrite lookup_alter_eq. destruct (a !! i); simpl; [by rewrite Hf | done].
  - by rewrite lookup_alter_ne.
Qed.

Lemma names_set_children a d node ch f :
  a !! d = Some node -> children_of node = Some ch ->
  forall e n, names_of (alter (set_content (set_children f)) d a) !! (e, n)
              = if decide (e = d) then f ch !! n else names_of a !! (e, n).
Proof.
  intros Hd Hch e n. rewrite !lookup_names. case_decide as He.
  - subst e. rewrite lookup_alter_eq, Hd. simpl. unfold children_of in *. simpl.
    destruct (mn_content node); simplify_eq. done.
  - by rewrite lookup_alter_ne.
Qed.

Lemma names_add a d node ch n c :
  a !! d = Some node -> children_of node = Some ch ->
  names_of (alter (set_content (set_children <[n := c]>)) d a) = <[(d, n) := c]> (names_of a).
Proof.
  intros Hd Hch. apply map_eq. intros [e m]. rewrite (names_set_children _ _ _ _ _ Hd Hch).
  case_decide as He; [subst e; destruct (decide (m = n)) as [->|]|].
  - by rewrite !lookup_insert_eq.
  - rewrite !lookup_insert_ne by congruence. by rewrite (lookup_names_node _ _ _ _ _ Hd Hch).
  - by rewrite lookup_insert_ne by congruence.
Qed.

Lemma names_del a d node ch n :
  a !! d = Some node -> children_of node = Some ch ->
  names_of (alter (set_content (set_children (delete n))) d a) = delete (d, n) (names_of a).
Proof.
  intros Hd Hch. apply map_eq. intros [e m]. rewrite (names_set_children _ _ _ _ _ Hd Hch).
  case_decide as He; [subst e; destruct (decide (m = n)) as [->|]|].
  - by rewrite !lookup_delete_eq.
  - rewrite !lookup_delete_ne by congruence. by rewrite (lookup_names_node _ _ _ _ _ Hd Hch).
  - by rewrite lookup_delete_ne by congruence.
Qed.

Lemma names_insert_new a i node :
  a !! i = None -> default ∅ (children_of node) = ∅ -> names_of (<[i := node]> a) = names_of a.
Proof.
  intros Hi Hch. apply map_eq. intros [d n]. rewrite !lookup_names. destruct (decide (d = i)) as [->|].
  - rewrite lookup_insert_eq, Hi. simpl. by destruct (children_of node); simpl in *; subst.
  - by rewrite lookup_insert_ne.
Qed.

Lemma kinds_alter a i f : (forall n, mn_kind (f n) = mn_kind n) -> kinds_of (alter f i a) = kinds_of a.
Proof.
  intros Hf. apply map_eq. intros j. unfold kinds_of. rewrite !lookup_fmap.
  destruct (decide (j = i)) as [->|]; [|by rewrite lookup_alter_ne].
  rewrite lookup_alter_eq. destruct (a !! i); simpl; by rewrite ?Hf.
Qed.

Lemma nlinks_alter a i f g :
  (forall n, im_nlink (mn_meta (f n)) = g (im_nlink (mn_meta n))) ->
  nlinks_of (alter f i a) = alter g i (nlinks_of a).
Proof.
  intros Hf. apply map_eq. intros j. unfold nlinks_of. rewrite !lookup_fmap.
  destruct (decide (j = i)) as [->|]; [|by rewrite !lookup_alter_ne, lookup_fmap].
  rewrite !lookup_alter_eq, lookup_fmap. destruct (a !! i); simpl; by rewrite ?Hf.
Qed.

Lemma nlinks_alter_same a i f :
  (forall n, im_nlink (mn_meta (f n)) = im_nlink (mn_meta n)) -> nlinks_of (alter f i a) = nlinks_of a.
Proof.
  intros Hf. rewrite (nlinks_alter _ _ _ id) by done. apply map_eq. intros j.
  destruct (decide (j = i)) as [->|]; [rewrite lookup_alter_eq | by rewrite lookup_alter_ne].
  by destruct (nlinks_of a !! i).
Qed.

Lemma parents_alter_same a i f :
  (forall n, parent_of (f n) = parent_of n) -> parents_of (alter f i a) = parents_of a.
Proof.
  intros Hf. apply map_eq. intros j. unfold parents_of. rewrite !lookup_omap.
  destruct (decide (j = i)) as [->|]; [|by rewrite lookup_alter_ne].
  rewrite lookup_alter_eq. destruct (a !! i); simpl; by rewrite ?Hf.
Qed.

(** A pointer to a directory, and the updates that keep it one. *)
Definition has_dir a (d : Z) : Prop := exists node ch, a !! d = Some node /\ children_of node = Some ch.

Lemma has_dir_alter a d i f :
  (forall n, is_Some (children_of n) -> is_Some (children_of (f n))) -> has_dir a d -> has_dir (alter f i a) d.
Proof.
  intros Hf (node & ch & Hd & Hch). destruct (decide (d = i)) as [->|].
  - destruct (Hf node ltac:(eauto)) as [ch' Hch']. exists (f node), ch'. by rewrite lookup_alter_eq, Hd.
  - exists node, ch. by rewrite lookup_alter_ne.
Qed.

Lemma has_dir_children a d i f : has_dir a d -> has_dir (alter (set_content (set_children f)) i a) d.
Proof.
  apply has_dir_alter. intros n. unfold children_of. simpl. destruct (mn_content n); simpl; eauto.
Qed.
Lemma has_dir_parent a d i p : has_dir a d -> has_dir (alter (set_content (set_parent p)) i a) d.
Proof.
  apply has_dir_alter. intros n. unfold children_of. simpl. destruct (mn_content n); simpl; eauto.
Qed.
Lemma has_dir_meta a d i f : has_dir a d -> has_dir (alter (set_meta f) i a) d.
Proof. by apply has_dir_alter. Qed.
#[export] Hint Resolve has_dir_children has_dir_parent has_dir_meta : memfs.

Lemma names_add_dir a d n c :
  has_dir a d -> names_of (alter (set_content (set_children <[n := c]>)) d a) = <[(d, n) := c]> (names_of a).
Proof. intros (node & ch & Hd & Hch). by eapply names_add. Qed.
Lemma names_del_dir a d n :
  has_dir a d -> names_of (alter (set_content (set_children (delete n))) d a) = delete (d, n) (names_of a).
Proof. intros (node & ch & Hd & Hch). by eapply names_del. Qed.

Lemma parents_store a d p :
  has_dir a d -> parents_of (alter (set_content (set_parent p)) d a) = <[d := p]> (parents_of a).
Proof.
  intros (node & ch & Hd & Hch). apply map_eq. intros j. unfold parents_of. rewrite lookup_omap.
  destruct (decide (j = d)) as [->|].
  - rewrite lookup_alter_eq, Hd, lookup_insert_eq. simpl. unfold parent_of, children_of in *. simpl.
    by destruct (mn_content node).
  - by rewrite lookup_alter_ne, lookup_insert_ne, lookup_omap.
Qed.

Lemma parents_set_children a d f : parents_of (alter (set_content (set_children f)) d a) = parents_of a.
Proof. apply parents_alter_same. intros n. unfold parent_of. simpl. by destruct (mn_content n). Qed.
Lemma names_set_parent a d p : names_of (alter (set_content (set_parent p)) d a) = names_of a.
Proof. apply names_alter_same. intros n. unfold children_of. simpl. by destruct (mn_content n). Qed.

(** ** Steps that leave the tree alone *)

Definition view a : names * gmap Z Z * gmap Z Z * gmap Z Z :=
  (names_of a, kinds_of a, nlinks_of a, parents_of a).

Definition neutral (f : MemNode -> MemNode) : Prop :=
  forall n, children_of (f n) = children_of n /\ parent_of (f n) = parent_of n
            /\ mn_kind (f n) = mn_kind n /\ im_nlink (mn_meta (f n)) = im_nlink (mn_meta n).

Lemma view_alter a i f : neutral f -> view (alter f i a) = view a.
Proof.
  intros Hf. unfold view.
  rewrite names_alter_same, kinds_alter, nlinks_alter_same, parents_alter_same; [done | intros; apply Hf..].
Qed.

Lemma view_upd fs i f : neutral f -> view (fs_arcs (upd_node fs i f)) = view (fs_arcs fs).
Proof. apply view_alter. Qed.

Lemma neutral_refs f : neutral (set_refs f).
Proof. done. Qed.
Lemma neutral_xattrs f : neutral (set_xattrs f).
Proof. done. Qed.
Lemma neutral_data d : neutral (set_content (set_data d)).
Proof. intros n. unfold children_of, parent_of. simpl. by destruct (mn_content n). Qed.
Lemma neutral_meta f : (forall m, im_nlink (f m) = im_nlink m) -> neutral (set_meta f).
Proof. intros Hf n. by rewrite <- (Hf (mn_meta n)). Qed.
#[export] Hint Resolve neutral_refs neutral_xattrs neutral_data neutral_meta : memfs.

Lemma view_upd_meta fs i f :
  (forall m, im_nlink (f m) = im_nlink m) -> view (fs_arcs (upd_meta fs i f)) = view (fs_arcs fs).
Proof. intros. by apply view_upd, neutral_meta. Qed.
Lemma view_store fs i d : view (fs_arcs (store_data fs i d)) = view (fs_arcs fs).
Proof. apply view_upd, neutral_data. Qed.
Lemma view_inc_lookup fs i : view (fs_arcs (inc_lookup fs i)) = view (fs_arcs fs).
Proof. by apply view_upd. Qed.

(** Nothing that names, tables or numbers nodes has changed. *)
Definition same_tree fs fs' : Prop :=
  view (fs_arcs fs') = view (fs_arcs fs) /\ fs_nodes fs' = fs_nodes fs
  /\ fs_next_inode fs' = fs_next_inode fs /\ fs_inode_count fs' = fs_inode_count fs.

Lemma same_tree_refl fs : same_tree fs fs.
Proof. done. Qed.
Lemma same_tree_trans fs1 fs2 fs3 : same_tree fs1 fs2 -> same_tree fs2 fs3 -> same_tree fs1 fs3.
Proof. intros (?&?&?&?) (?&?&?&?). split_and!; congruence. Qed.

Lemma same_tree_upd fs i f : neutral f -> same_tree fs (upd_node fs i f).
Proof. intros. split_and!; [by apply view_upd | done..]. Qed.
Lemma same_tree_meta fs i f : (forall m, im_nlink (f m) = im_nlink m) -> same_tree fs (upd_meta fs i f).
Proof. intros. by apply same_tree_upd, neutral_meta. Qed.
Lemma same_tree_release fs n : same_tree fs (release_bytes fs n).
Proof. unfold release_bytes. by case_match. Qed.
Lemma same_tree_used fs u : same_tree fs (with_used_bytes fs u).
Proof. done. Qed.

Lemma same_tree_store_meta fs i d f :
  (forall m, im_nlink (f m) = im_nlink m) -> same_tree fs (upd_meta (store_data fs i d) i f).
Proof.
  intros. eapply same_tree_trans; [apply (same_tree_upd fs i), neutral_data | by apply same_tree_meta].
Qed.

Lemma same_tree_lookup agentd fs p n : same_tree fs (lookup agentd fs p n).1.
Proof. unfold lookup. repeat case_match; simpl; try done. by apply same_tree_upd. Qed.

Lemma setattr_meta_nlink attr valid ta tm tc m : im_nlink (setattr_meta attr valid ta tm tc m) = im_nlink m.
Proof. unfold setattr_meta. by repeat case_match. Qed.

Lemma same_tree_setattr fs i attr valid ta tm tc : same_tree fs (do_setattr fs i attr valid ta tm tc).1.
Proof.
  unfold do_setattr. destruct (i =? INIT_INODE); [done|]. destruct (get_node fs i); [|done].
  assert (Hr : same_tree fs (if v_size valid then setattr_size fs i (st_size attr) else (fs, Ok tt)).1).
  { destruct (v_size valid); [|done]. unfold setattr_size. destruct (data_of _) as [d|]; [|done].
    destruct (_ <? 0); [done|]. destruct (I64_MAX <? _); [done|].
    destruct (_ <? zlen d) eqn:?; [|destruct (zlen d <? _) eqn:?]; breflect; simpl.
    - apply (same_tree_trans _ (store_data fs i (take (Z.to_nat (st_size attr)) d))).
      { by apply same_tree_upd, neutral_data. }
      eapply same_tree_trans; [apply same_tree_release | by apply same_tree_meta].
    - destruct (reserve_bytes_cases fs (st_size attr - zlen d) ltac:(lia)) as [-> | (u & -> & _)]; [done|].
      simpl. eapply same_tree_trans; [apply (same_tree_used _ u) | by apply same_tree_store_meta].
    - by apply same_tree_meta. }
  destruct (if v_size valid then _ else _) as [fs1 [[]|e]]; simpl in *; [|done].
  eapply same_tree_trans; [done|]. apply same_tree_meta. intros m. apply setattr_meta_nlink.
Qed.

Lemma same_tree_open fs i kp flags now now' : same_tree fs (do_open fs i kp flags now now').1.
Proof.
  unfold do_open. destruct (i =? INIT_INODE); [done|]. destruct (get_node fs i); [|done].
  destruct (mn_kind _ =? _); [done|]. unfold add_file_handle. simpl.
  match goal with |- same_tree fs (with_file_handles (with_next_handle ?fs1 _) _) =>
    apply (same_tree_trans fs fs1); [|done] end.
  assert (Ht : same_tree fs (if has_bits (normalize_handle_flags (fs_writeback fs) flags) GUEST_O_TRUNC
                             then truncate_on_open fs i now else fs)).
  { case_match; [|done]. unfold truncate_on_open. destruct (data_of _) as [d|]; [|done].
    apply (same_tree_trans _ (store_data fs i [])); [by apply same_tree_upd, neutral_data|].
    eapply same_tree_trans; [|by apply same_tree_meta]. case_match; [apply same_tree_release | done]. }
  destruct (kp && _); [|exact Ht]. eapply same_tree_trans; [exact Ht|].
  apply same_tree_meta. intros m. by destruct (has_bits (im_mode m) _).
Qed.

Lemma same_tree_write fs i h del size offset kp now :
  0 <= offset -> same_tree fs (do_write fs i h del size offset kp now).1.
Proof.
  intros Ho. unfold do_write. destruct (i =? INIT_INODE); [done|].
  destruct (fs_file_handles fs !! h) as [fh|]; simpl; [|done].
  destruct (data_of (deref fs (fh_node fh))) as [data|] eqn:Hd; [|done].
  destruct (if has_bits _ _ then _ else _); [|done]. destruct del as [buf|]; [|done].
  destruct (zlen buf =? 0); [done|].
  pose proof (write_data_cases fs fh data buf offset kp now Ho) as Hw.
  destruct (write_data fs fh data buf offset kp now) as [fs' [n|e]]; simpl; [|by subst].
  destruct Hw as (_ & _ & u & -> & _). eapply same_tree_trans; [apply (same_tree_used _ u)|].
  apply same_tree_store_meta. intros m. by case_match.
Qed.

Lemma same_tree_fallocate fs i h mode offset length : same_tree fs (do_fallocate fs i h mode offset length).1.
Proof.
  unfold do_fallocate. destruct (i =? INIT_INODE); [done|].
  destruct (fs_file_handles fs !! h) as [fh|]; simpl; [|done]. destruct (negb _); [done|].
  destruct (mode =? 0).
  - unfold allocate_range. destruct (checked_add 64 offset length) as [last|]; simpl; [|done].
    destruct (I64_MAX <? _); [done|]. destruct (data_of _) as [d|]; [|done].
    destruct (zlen d <? _) eqn:?; [|done]. breflect.
    destruct (reserve_bytes_cases fs (last - zlen d) ltac:(lia)) as [-> | (u & -> & _)]; simpl; [done|].
    eapply same_tree_trans; [apply (same_tree_used _ u) | by apply same_tree_store_meta].
  - destruct (has_bits _ _ && has_bits _ _); [|done]. simpl.
    destruct (data_of _) as [d|]; [|done]. by apply same_tree_upd, neutral_data.
Qed.

Lemma same_tree_release_handle fs i h : same_tree fs (do_release fs i h).1.
Proof.
  unfold do_release. repeat case_match; simpl; try done.
  apply (same_tree_trans _ (with_file_handles fs (delete h))); [done | apply same_tree_release].
Qed.

Lemma same_tree_readdir fs i h o : same_tree fs (do_readdir fs i h o).1.
Proof. unfold do_readdir, handle_snapshot. repeat case_match; simplify_eq; done. Qed.

Lemma same_tree_readdirplus_loop agentd fs l : same_tree fs (readdirplus_loop agentd fs l).1.
Proof.
  revert fs. induction l as [|e l IH]; intros fs; simpl; [done|].
  assert (He : same_tree fs (readdirplus_entry agentd fs e).1).
  { unfold readdirplus_entry. repeat case_match; simpl; try done. by apply same_tree_upd. }
  destruct (readdirplus_entry agentd fs e) as [fs1 o]. specialize (IH fs1).
  destruct (readdirplus_loop agentd fs1 l). by eapply same_tree_trans.
Qed.

Lemma same_tree_readdirplus agentd fs i h o : same_tree fs (do_readdirplus agentd fs i h o).1.
Proof.
  unfold do_readdirplus. pose proof (same_tree_readdir fs i h o) as Hr.
  destruct (do_readdir fs i h o) as [fs1 [l|e]]; [|done].
  pose proof (same_tree_readdirplus_loop agentd fs1 l) as Hl. destruct (readdirplus_loop agentd fs1 l).
  by eapply same_tree_trans.
Qed.

(** ** The invariant *)

(** [bound] limits the entries and the numbers handed out, so that no counter
    wraps. *)
Record tree_inv (bound : Z) fs : Prop := mkTreeInv {
  ti_typed : typed_fs fs;
  ti_tree : tree fs;
  ti_total : total (names_of (fs_arcs fs)) <= bound;
  ti_next : 3 <= fs_next_inode fs <= bound + 3;
  ti_fresh i : is_Some (fs_arcs fs !! i) -> i < fs_next_inode fs /\ i <> INIT_INODE;
  ti_count : fs_inode_count fs = Z.of_nat (size (fs_nodes fs)) /\ fs_inode_count fs <= bound + 1 }.

Definition max_bound : Z := 2 ^ 62.

Lemma tree_inv_weaken b b' fs : b <= b' -> tree_inv b fs -> tree_inv b' fs.
Proof. intros Hb [? ? ? ? ? ?]. split; [done | done | lia | lia | done | lia]. Qed.

Lemma tree_inv_same b fs fs' : same_tree fs fs' -> typed_fs fs' -> tree_inv b fs -> tree_inv b fs'.
Proof.
  unfold same_tree, view. intros ([= Hns Hkd Hnl Hpar] & Htab & Hnext & Hcount) Hty [_ Htree Htot Hn Hfresh Hc].
  split; [.. | by rewrite Hcount, Htab].
  - done.
  - unfold tree. by rewrite Hns, Hkd, Hnl, Hpar, Htab.
  - by rewrite Hns.
  - by rewrite Hnext.
  - intros i Hi. rewrite Hnext. apply Hfresh.
    assert (Hk : is_Some (kinds_of (fs_arcs fs') !! i)) by (unfold kinds_of; by rewrite lookup_fmap, fmap_is_Some).
    rewrite Hkd in Hk. unfold kinds_of in Hk. by rewrite lookup_fmap, fmap_is_Some in Hk.
Qed.

Lemma is_dir_node a i n : a !! i = Some n -> is_dir (kinds_of a) i = (mn_kind n =? MODE_DIR).
Proof.
  intros Hi. unfold is_dir, kinds_of. rewrite lookup_fmap, Hi. simpl.
  destruct (Z.eqb_spec (mn_kind n) MODE_DIR); case_bool_decide; congruence.
Qed.

Lemma dir_children fs i n : typed_fs fs -> fs_arcs fs !! i = Some n ->
  (mn_kind n =? MODE_DIR) = true <-> is_Some (children_of n).
Proof.
  intros Hty Hi. destruct (Hty _ _ Hi) as (_ & Hc & _). unfold children_of. rewrite Z.eqb_eq.
  destruct (mn_content n); simpl in Hc; split; try (by intros [? ?]); try congruence; eauto.
  all: intros Hk; rewrite Hk in Hc; done || set_solver.
Qed.

(** The counts of a good tree stay far from wrapping. *)
Lemma nlink_bound b ns kd nl par tab i l :
  tree_ok ns kd nl par tab -> total ns <= b -> b < max_bound -> nl !! i = Some l -> 0 <= l < 2 ^ 64 - 1.
Proof.
  intros Htree Htot Hb Hl. pose proof (t_links _ _ _ _ _ Htree _ _ Hl) as Hexp.
  unfold expected_links, max_bound in *. pose proof (links_nonneg ns i). pose proof (links_total ns i).
  pose proof (subdirs_nonneg ns kd i). pose proof (subdirs_total ns kd i).
  destruct (is_dir _ i), (i =? ROOT_INODE); lia.
Qed.

Lemma alter_ext_at {A} (f g : A -> A) (m : gmap Z A) i :
  (forall x, m !! i = Some x -> f x = g x) -> alter f i m = alter g i m.
Proof.
  intros Hfg. apply map_eq. intros j. destruct (decide (j = i)) as [->|]; [|by rewrite !lookup_alter_ne].
  rewrite !lookup_alter_eq. destruct (m !! i) eqn:Hi; simpl; [|done]. by rewrite Hfg.
Qed.

Lemma nlink_incr_ok b ns kd nl par tab i :
  tree_ok ns kd nl par tab -> total ns <= b -> b < max_bound ->
  alter (fun l => wrap 64 (l + 1)) i nl = alter (Z.add 1) i nl.
Proof.
  intros Hok Htot Hb. apply alter_ext_at. intros l Hl. pose proof (nlink_bound _ _ _ _ _ _ _ _ Hok Htot Hb Hl).
  rewrite wrap_small; [lia|]. unfold fits. lia.
Qed.

Lemma nlink_incr b fs i :
  tree_inv b fs -> b < max_bound ->
  alter (fun l => wrap 64 (l + 1)) i (nlinks_of (fs_arcs fs)) = alter (Z.add 1) i (nlinks_of (fs_arcs fs)).
Proof. intros [_ Htree Htot _ _ _] Hb. by eapply nlink_incr_ok. Qed.

Lemma total_insert ns p c : ns !! p = None -> total (<[p := c]> ns) = total ns + 1.
Proof. intros Hp. unfold total. rewrite msum_insert, Hp. simpl. lia. Qed.
Lemma total_insert_le ns p c : total (<[p := c]> ns) <= total ns + 1.
Proof. unfold total. rewrite msum_insert. destruct (ns !! p); simpl; lia. Qed.
Lemma total_delete_le ns p : total (delete p ns) <= total ns.
Proof. unfold total. rewrite msum_delete. destruct (ns !! p); simpl; lia. Qed.

(** ** Creation *)

Lemma begin_create_cases fs p n :
  match begin_create fs p n with
  | (fs', Err _) => fs' = fs
  | (fs', Ok i) =>
      i = fs_next_inode fs /\ inodes_full fs = false
      /\ fs' = with_inode_count (with_next_inode fs (wrap 64 (i + 1))) (wrap 64 (fs_inode_count fs + 1))
      /\ (exists node, get_node fs p = Ok node) /\ reserved_name p n = false
  end.
Proof.
  unfold begin_create. destruct (validate_memfs_name n); [|done].
  destruct (reserved_name p n) eqn:Hr; [done|]. destruct (get_node fs p) as [node|]; [|done].
  unfold alloc_inode. destruct (inodes_full fs) eqn:Hf; [done|]. split_and!; eauto.
Qed.

Lemma begin_create_inv b fs p n fs1 i :
  tree_inv b fs -> b < max_bound -> begin_create fs p n = (fs1, Ok i) ->
  fs_next_inode fs1 = i + 1 /\ i = fs_next_inode fs /\ fs_arcs fs1 = fs_arcs fs /\ fs_nodes fs1 = fs_nodes fs
  /\ fs_inode_count fs1 = fs_inode_count fs + 1.
Proof.
  intros Hinv Hb Hbc. pose proof (begin_create_cases fs p n) as Hc. rewrite Hbc in Hc.
  destruct Hc as (-> & _ & -> & _). destruct Hinv as [Hty Htree Htot Hnext Hfresh Hcount]. simpl.
  unfold max_bound in Hb. rewrite !wrap_small by (unfold fits; lia). done.
Qed.

Lemma insert_node_cases fs p n node f :
  match insert_node fs p n node f with
  | (fs', Err _) => fs' = uncount_inode fs
  | (fs', Ok _) =>
      (exists ch, children_of (deref fs p) = Some ch /\ ch !! n = None)
      /\ fs' = register (upd_meta (add_child fs p n (mn_inode node)) p f) node
  end.
Proof.
  unfold insert_node, insert_child. destruct (children_of (deref fs p)) as [ch|] eqn:Hch; [|done].
  destruct (ch !! n) eqn:Hn; [done|]. eauto.
Qed.

(** The nodes the creating operations build. *)
Definition new_node (i p : Z) (node : MemNode) : Prop :=
  mn_inode node = i /\ default ∅ (children_of node) = ∅
  /\ im_nlink (mn_meta node) = (if mn_kind node =? MODE_DIR then 2 else 1)
  /\ parent_of node = (if mn_kind node =? MODE_DIR then Some p else None).

Definition parent_update (node : MemNode) (f : InodeMeta -> InodeMeta) : Prop :=
  keeps_type f /\
  forall m, im_nlink (f m) = if mn_kind node =? MODE_DIR then wrap 64 (im_nlink m + 1) else im_nlink m.

Lemma deref_children fs p ch :
  children_of (deref fs p) = Some ch -> exists node, fs_arcs fs !! p = Some node /\ children_of node = Some ch.
Proof.
  unfold deref. rewrite lookup_total_alt. destruct (fs_arcs fs !! p) as [node|]; simpl; [eauto | done].
Qed.


Lemma parents_insert a i node :
  a !! i = None ->
  parents_of (<[i := node]> a)
  = match parent_of node with Some p => <[i := p]> (parents_of a) | None => parents_of a end.
Proof.
  intros Hi. apply map_eq. intros j. unfold parents_of. rewrite lookup_omap.
  destruct (decide (j = i)) as [->|].
  - rewrite lookup_insert_eq. simpl.
    destruct (parent_of node); [by rewrite lookup_insert_eq | by rewrite lookup_omap, Hi].
  - rewrite lookup_insert_ne by done. destruct (parent_of node); by rewrite ?lookup_insert_ne, lookup_omap.
Qed.

(** The maps after an entry, a parent update and a registration. *)
Lemma created_maps a p pn ch n node f :
  let i := mn_inode node in
  a !! p = Some pn -> children_of pn = Some ch -> a !! i = None -> new_node i p node -> parent_update node f ->
  let a' := <[i := node]> (alter (set_meta f) p (alter (set_content (set_children <[n := i]>)) p a)) in
  let dir := mn_kind node =? MODE_DIR in
  names_of a' = <[(p, n) := i]> (names_of a) /\ kinds_of a' = <[i := mn_kind node]> (kinds_of a)
  /\ nlinks_of a' = <[i := if dir then 2 else 1]>
                      (if dir then alter (fun l => wrap 64 (l + 1)) p (nlinks_of a) else nlinks_of a)
  /\ parents_of a' = if dir then <[i := p]> (parents_of a) else parents_of a.
Proof.
  intros i Hp Hch Hi (_ & Hempty & Hnl & Hpar) [_ Hf] a' dir.
  set (a1 := alter (set_content (set_children <[n := i]>)) p a). set (a2 := alter (set_meta f) p a1).
  assert (Hi2 : a2 !! i = None).
  { unfold a2, a1. rewrite !lookup_alter_ne by congruence. done. }
  assert (Hnl1 : nlinks_of a1 = nlinks_of a) by (by apply nlinks_alter_same).
  split_and!.
  - unfold a'. fold a1. fold a2. rewrite names_insert_new by done. unfold a2.
    rewrite names_alter_same by done. by apply (names_add _ _ pn ch).
  - unfold a', kinds_of. fold a1. fold a2. rewrite fmap_insert. f_equal. fold (kinds_of a2). unfold a2.
    rewrite kinds_alter by done. by apply kinds_alter.
  - unfold a'. fold a1. fold a2. unfold nlinks_of. rewrite fmap_insert, Hnl. fold dir. f_equal.
    fold (nlinks_of a2) (nlinks_of a). unfold a2, dir. destruct (_ =? _).
    + rewrite <- Hnl1. apply nlinks_alter. intros. simpl. by rewrite Hf.
    + rewrite <- Hnl1. apply nlinks_alter_same. intros. simpl. by rewrite Hf.
  - unfold a'. fold a1. fold a2. rewrite parents_insert, Hpar by done.
    assert (parents_of a2 = parents_of a) as ->.
    { unfold a2. rewrite parents_alter_same by done. apply parents_alter_same.
      intros n0. unfold parent_of. simpl. by destruct (mn_content n0). }
    unfold dir. by destruct (_ =? _).
Qed.

(** The state after a successful creation. *)
Lemma create_effect b fs fs1 fs2 p n node f :
  tree_inv b fs -> b < max_bound -> begin_create fs p n = (fs1, Ok (mn_inode node)) ->
  new_node (mn_inode node) p node -> typed (mn_inode node) node -> parent_update node f ->
  insert_node fs1 p n node f = (fs2, Ok tt) ->
  tree_inv (b + 1) fs2
  /\ names_of (fs_arcs fs2) = <[(p, n) := mn_inode node]> (names_of (fs_arcs fs))
  /\ names_of (fs_arcs fs) !! (p, n) = None.
Proof.
  intros Hinv Hb Hbc Hnode Hty Hf Hins.
  destruct (begin_create_inv _ _ _ _ _ _ Hinv Hb Hbc) as (Hnext1 & Hi & Harcs1 & Htab1 & Hcount1).
  pose proof (insert_node_cases fs1 p n node f) as Hc. rewrite Hins in Hc.
  destruct Hc as [(ch & Hch & Hn) ->]. apply deref_children in Hch as (pn & Hp & Hch).
  rewrite Harcs1 in Hp. pose proof Hinv as [Htyfs Htree Htot Hnext Hfresh Hcount].
  assert (Hnew : fs_arcs fs !! mn_inode node = None).
  { destruct (fs_arcs fs !! mn_inode node) eqn:Hai; [|done]. destruct (Hfresh (mn_inode node) ltac:(eauto)). lia. }
  assert (Hfree : names_of (fs_arcs fs) !! (p, n) = None) by (by rewrite (lookup_names_node _ _ _ _ _ Hp Hch)).
  destruct (created_maps (fs_arcs fs) p pn ch n node f Hp Hch Hnew Hnode Hf) as (Hns & Hkd & Hnl & Hpar).
  set (fs2 := register (upd_meta (add_child fs1 p n (mn_inode node)) p f) node) in *.
  match type of Hns with names_of ?a2 = _ =>
    assert (Harcs2 : fs_arcs fs2 = a2) by (simpl; by rewrite Harcs1) end.
  rewrite <- Harcs2 in Hns, Hkd, Hnl, Hpar. split_and!; [|done|done]. split.
  - apply typed_register; [|done]. apply typed_upd_meta; [|apply Hf]. apply typed_add_child.
    revert Htyfs. by apply typed_arcs.
  - unfold tree. rewrite Hns, Hkd, Hnl, Hpar, (nlink_incr b fs p Hinv Hb).
    change (fs_nodes fs2) with ({[mn_inode node]} ∪ fs_nodes fs1). rewrite Htab1.
    apply tree_create; [done | unfold kinds_of; by rewrite lookup_fmap, Hnew | | done].
    rewrite (is_dir_node _ _ _ Hp). apply (dir_children fs p pn Htyfs Hp). eauto.
  - rewrite Hns, total_insert by done. lia.
  - change (fs_next_inode fs2) with (fs_next_inode fs1). lia.
  - intros j Hj. change (fs_next_inode fs2) with (fs_next_inode fs1).
    assert (Hk : is_Some (kinds_of (fs_arcs fs2) !! j)) by (unfold kinds_of; by rewrite lookup_fmap, fmap_is_Some).
    rewrite Hkd in Hk. destruct (decide (j = mn_inode node)) as [->|].
    + unfold INIT_INODE. lia.
    + rewrite lookup_insert_ne in Hk by done. unfold kinds_of in Hk.
      rewrite lookup_fmap, fmap_is_Some in Hk. destruct (Hfresh j Hk). lia.
  - change (fs_nodes fs2) with ({[mn_inode node]} ∪ fs_nodes fs1).
    change (fs_inode_count fs2) with (fs_inode_count fs1). rewrite Htab1, Hcount1.
    rewrite size_union, size_singleton; [lia|]. apply disjoint_singleton_l. intros Hin.
    destruct (t_table _ _ _ _ _ Htree _ Hin) as [k Hk]. unfold kinds_of in Hk.
    by rewrite lookup_fmap, Hnew in Hk.
Qed.

(** What a request does to the tree: on success the names change as given, on
    an error nothing but the next number may have changed. *)
Definition tree_effect (b : Z) fs (res : MemFs * io unit) (change : names -> names) : Prop :=
  match res with
  | (fs', Ok _) => tree_inv (b + 1) fs' /\ names_of (fs_arcs fs') = change (names_of (fs_arcs fs))
  | (fs', Err _) => tree_inv (b + 1) fs' /\ exists k, fs' = with_next_inode fs k
  end.

Lemma with_next_same fs : with_next_inode fs (fs_next_inode fs) = fs.
Proof. by destruct fs. Qed.

Lemma refused b fs e change : tree_inv b fs -> tree_effect b fs (fs, Err e) change.
Proof.
  intros Hinv. split; [by apply (tree_inv_weaken b); [lia|]|].
  exists (fs_next_inode fs). by rewrite with_next_same.
Qed.

Lemma served b fs fs' change :
  tree_inv b fs' -> names_of (fs_arcs fs') = change (names_of (fs_arcs fs)) ->
  tree_effect b fs (fs', Ok tt) change.
Proof. intros. split; [by apply (tree_inv_weaken b); [lia|] | done]. Qed.

(** A creation that gave its number back. *)
Lemma create_undone b fs fs1 p n i e change :
  tree_inv b fs -> b < max_bound -> begin_create fs p n = (fs1, Ok i) ->
  tree_effect b fs (uncount_inode fs1, Err e) change.
Proof.
  intros Hinv Hb Hbc.
  destruct (begin_create_inv _ _ _ _ _ _ Hinv Hb Hbc) as (Hnext1 & Hi & Harcs1 & Htab1 & Hcount1).
  pose proof (begin_create_cases fs p n) as Hc. rewrite Hbc in Hc. destruct Hc as (_ & _ & Hfs1 & _).
  destruct Hinv as [Hty Htree Htot Hnext Hfresh Hcount]. unfold max_bound in Hb.
  assert (Heq : uncount_inode fs1 = with_next_inode fs (i + 1)).
  { rewrite Hfs1. unfold uncount_inode. simpl. rewrite !wrap_small by (unfold fits; lia).
    unfold with_inode_count, with_next_inode. simpl. f_equal. lia. }
  rewrite Heq. split; [|by eexists]. split; simpl; [done | done | lia | lia | | lia].
  intros j Hj. destruct (Hfresh j Hj). lia.
Qed.

Lemma created b fs fs1 fs2 p n node f r :
  tree_inv b fs -> b < max_bound -> begin_create fs p n = (fs1, Ok (mn_inode node)) ->
  new_node (mn_inode node) p node -> typed (mn_inode node) node -> parent_update node f ->
  insert_node fs1 p n node f = (fs2, r) ->
  tree_effect b fs (fs2, r) <[(p, n) := fs_next_inode fs]>.
Proof.
  intros Hinv Hb Hbc Hnode Hty Hf Hins.
  destruct (begin_create_inv _ _ _ _ _ _ Hinv Hb Hbc) as (_ & Hi & _).
  destruct r as [[]|e].
  - destruct (create_effect _ _ _ _ _ _ _ _ Hinv Hb Hbc Hnode Hty Hf Hins) as (? & Hns & _).
    split; [done|]. by rewrite Hns, Hi.
  - pose proof (insert_node_cases fs1 p n node f) as Hc. rewrite Hins in Hc. rewrite Hc.
    by eapply create_undone.
Qed.

Lemma tree_effect_same b fs fs' fs2 r change :
  same_tree fs' fs2 -> typed_fs fs2 -> tree_effect b fs (fs', r) change -> is_ok r = true ->
  tree_effect b fs (fs2, r) change.
Proof.
  intros Hs Hty Hef Hr. destruct r; [|done]. destruct Hef as [Hinv Hns]. split.
  - by eapply tree_inv_same.
  - destruct Hs as ([= -> _ _ _] & _). done.
Qed.

Lemma touch_update node now : mn_kind node <> MODE_DIR -> parent_update node (touch now).
Proof. intros Hk. split; [by intros m|]. intros m. by apply Z.eqb_neq in Hk as ->. Qed.

Lemma create_effects b fs ctx p n mode flags umask now :
  tree_inv b fs -> b < max_bound ->
  tree_effect b fs (outcome (do_create fs ctx p n mode flags umask now)) <[(p, n) := fs_next_inode fs]>.
Proof.
  intros Hinv Hb. pose proof (typed_create fs ctx p n mode flags umask now (ti_typed _ _ Hinv)) as Hty.
  pose proof (begin_create_cases fs p n) as Hbc0. unfold do_create in *.
  destruct (begin_create fs p n) as [fs1 [i|e]] eqn:Hbc; [|subst; by apply refused].
  set (node := mkNode i _ _ _ _ _) in *.
  destruct (insert_node fs1 p n node (touch now)) as [fs2 r] eqn:Hins.
  assert (Hc : tree_effect b fs (fs2, r) <[(p, n) := fs_next_inode fs]>).
  { apply (created b fs fs1 fs2 p n node (touch now)); try done.
    split_and!; [done | done | by apply type_bits_effective | done]. }
  destruct r as [[]|e]; [|done]. by refine (tree_effect_same b fs fs2 _ (Ok tt) _ _ Hty Hc eq_refl).
Qed.

Lemma mkdir_effects b fs ctx p n mode umask now :
  tree_inv b fs -> b < max_bound ->
  tree_effect b fs (outcome (do_mkdir fs ctx p n mode umask now)) <[(p, n) := fs_next_inode fs]>.
Proof.
  intros Hinv Hb. pose proof (begin_create_cases fs p n) as Hbc0. unfold do_mkdir.
  destruct (begin_create fs p n) as [fs1 [i|e]] eqn:Hbc; [|subst; by apply refused].
  set (node := mkNode i _ _ _ _ _). set (f := fun m => touch now _).
  destruct (insert_node fs1 p n node f) as [fs2 r] eqn:Hins.
  assert (Hc : tree_effect b fs (fs2, r) <[(p, n) := fs_next_inode fs]>).
  { apply (created b fs fs1 fs2 p n node f); try done.
    split_and!; [done | done | by apply type_bits_effective | done]. }
  by destruct r as [[]|e].
Qed.

Lemma mknod_effects b fs ctx p n mode rdev umask now :
  tree_inv b fs -> b < max_bound ->
  tree_effect b fs (outcome (do_mknod fs ctx p n mode rdev umask now)) <[(p, n) := fs_next_inode fs]>.
Proof.
  intros Hinv Hb. pose proof (begin_create_cases fs p n) as Hbc0. unfold do_mknod.
  destruct (begin_create fs p n) as [fs1 [i|e]] eqn:Hbc; [|subst; by apply refused].
  destruct (mknod_content _) as [[k c]|] eqn:Hk; [|by eapply create_undone].
  pose proof (mknod_content_kind _ _ _ Hk) as (-> & Ht & Hc & Hs).
  set (node := mkNode i _ _ _ _ _).
  assert (Hnd : mn_kind node <> MODE_DIR /\ children_of node = None /\ parent_of node = None).
  { unfold mknod_content in Hk. subst node. unfold children_of, parent_of. simpl.
    destruct (Z.eqb_spec (Z.land mode MODE_TYPE_MASK) MODE_REG) as [He|].
    - simplify_eq. by rewrite He.
    - destruct (_ || _) eqn:Hor; [|done]. simplify_eq. rewrite !orb_true_iff, !Z.eqb_eq in Hor.
      destruct Hor as [[[->| ->]| ->]| ->]; done. }
  destruct Hnd as (Hnd & Hch & Hpa).
  destruct (insert_node fs1 p n node (touch now)) as [fs2 r] eqn:Hins.
  assert (Hcr : tree_effect b fs (fs2, r) <[(p, n) := fs_next_inode fs]>).
  { apply (created b fs fs1 fs2 p n node (touch now)); try done.
    - apply Z.eqb_neq in Hnd. split_and!; [done | by rewrite Hch | by rewrite Hnd | by rewrite Hnd].
    - split_and!; [done | done | by apply type_bits_effective | done].
    - by apply touch_update. }
  by destruct r as [[]|e].
Qed.

Lemma symlink_effects b fs ctx target p n now :
  tree_inv b fs -> b < max_bound ->
  tree_effect b fs (outcome (do_symlink fs ctx target p n now)) <[(p, n) := fs_next_inode fs]>.
Proof.
  intros Hinv Hb. pose proof (begin_create_cases fs p n) as Hbc0. unfold do_symlink.
  destruct (begin_create fs p n) as [fs1 [i|e]] eqn:Hbc; [|subst; by apply refused].
  set (node := mkNode i _ _ _ _ _).
  destruct (insert_node fs1 p n node (touch now)) as [fs2 r] eqn:Hins.
  assert (Hc : tree_effect b fs (fs2, r) <[(p, n) := fs_next_inode fs]>).
  { apply (created b fs fs1 fs2 p n node (touch now)); try done. }
  by destruct r as [[]|e].
Qed.

(** ** Eviction *)

Lemma evict_fields fs held i :
  i ∈ fs_nodes fs ->
  fs_nodes (evict_inode fs held i) = fs_nodes fs ∖ {[i]}
  /\ fs_next_inode (evict_inode fs held i) = fs_next_inode fs
  /\ fs_inode_count (evict_inode fs held i) = wrap 64 (fs_inode_count fs - 1).
Proof.
  intros Hi. unfold evict_inode. rewrite bool_decide_eq_true_2 by done.
  destruct (data_of (deref fs i)) as [d|]; [|done].
  destruct (_ && _); [|done]. unfold release_bytes. by destruct (0 <? zlen d).
Qed.

Lemma unreferenced_node fs i :
  unreferenced fs i = true -> i ∈ fs_nodes fs /\ nlinks_of (fs_arcs fs) !! i = Some 0.
Proof.
  unfold unreferenced. destruct (get_node fs i) as [n|] eqn:Hn; [|done].
  apply get_node_Ok in Hn as [Hi Hn]. intros [_ Hl%Z.eqb_eq]%andb_true_iff.
  split; [done|]. unfold nlinks_of. rewrite lookup_fmap, Hn. simpl. by rewrite Hl.
Qed.

Lemma evict_inv b fs held i :
  b < max_bound -> tree_inv b fs -> unreferenced fs i = true -> tree_inv b (evict_inode fs held i).
Proof.
  intros Hb Hinv [Hi Hl]%unreferenced_node. destruct (evict_fields fs held i Hi) as (Htab & Hnext & Hcount).
  pose proof (arcs_evict fs held i) as Harcs. pose proof Hinv as [Hty Htree Htot Hn Hfresh Hc].
  assert (Hsize : Z.of_nat (size (fs_nodes fs ∖ {[i]})) = Z.of_nat (size (fs_nodes fs)) - 1).
  { rewrite size_difference by set_solver. rewrite size_singleton.
    assert (size (fs_nodes fs) <> 0%nat); [|lia]. intros Hz%size_empty_inv. set_solver. }
  split; rewrite ?Harcs, ?Hnext; try done.
  - by apply (typed_arcs fs).
  - unfold tree. rewrite Harcs, Htab. by apply tree_evict.
  - unfold max_bound in Hb. rewrite Hcount, Htab, Hsize, wrap_small by (unfold fits; lia). lia.
Qed.

Lemma try_evict_inv b fs held i : b < max_bound -> tree_inv b fs -> tree_inv b (try_evict fs held i).
Proof. intros. unfold try_evict. case_match; [by apply evict_inv | done]. Qed.

Lemma forget_one_inv b fs held i count :
  b < max_bound -> tree_inv b fs ->
  tree_inv b (forget_one fs held i count) /\ view (fs_arcs (forget_one fs held i count)) = view (fs_arcs fs).
Proof.
  intros Hb Hinv. unfold forget_one. destruct (get_node fs i) as [n|]; [|done].
  assert (Hr : forall f fs, tree_inv b fs -> tree_inv b (upd_node fs i (set_refs f))).
  { intros f fs0 Hinv0. apply (tree_inv_same b fs0); [by apply same_tree_upd | | done].
    apply typed_upd; [apply Hinv0 | auto with memfs]. }
  set (fs1 := if _ <? count then _ else _).
  assert (Hfs1 : tree_inv b fs1 /\ view (fs_arcs fs1) = view (fs_arcs fs)).
  { unfold fs1. case_match; (split; [auto|]); rewrite ?view_upd by done; done. }
  destruct Hfs1 as [Hinv1 Hview]. case_match; [|done].
  split; [by apply evict_inv | by rewrite arcs_evict].
Qed.

Lemma forget_inv b fs i count :
  b < max_bound -> tree_inv b fs ->
  tree_inv b (forget fs i count) /\ view (fs_arcs (forget fs i count)) = view (fs_arcs fs).
Proof. intros. unfold forget. case_match; [done | by apply forget_one_inv]. Qed.

Lemma batch_forget_inv b fs l :
  b < max_bound -> tree_inv b fs ->
  tree_inv b (batch_forget fs l) /\ view (fs_arcs (batch_forget fs l)) = view (fs_arcs fs).
Proof.
  intros Hb. unfold batch_forget. revert fs. induction l as [|r l IH]; intros fs Hinv; simpl; [done|].
  destruct (forget_inv b fs r.1 r.2 Hb Hinv) as [Hinv1 Hv1]. destruct (IH _ Hinv1) as [Hinv2 Hv2].
  split; [done | congruence].
Qed.

(** ** Links and removals *)

Lemma entry_lookup fs p pn ch n c :
  get_node fs p = Ok pn -> children_of pn = Some ch -> ch !! n = c ->
  names_of (fs_arcs fs) !! (p, n) = c.
Proof. intros [_ Hp]%get_node_Ok Hch Hc. by rewrite (lookup_names_node _ _ _ _ _ Hp Hch). Qed.

Lemma get_dir b fs p pn ch :
  tree_inv b fs -> get_node fs p = Ok pn -> children_of pn = Some ch ->
  fs_arcs fs !! p = Some pn /\ is_dir (kinds_of (fs_arcs fs)) p = true.
Proof.
  intros Hinv [_ Hp]%get_node_Ok Hch. split; [done|]. rewrite (is_dir_node _ _ _ Hp).
  apply (dir_children fs p pn (ti_typed _ _ Hinv) Hp). eauto.
Qed.

(** An invariant for the next state from the four maps, when the table and the
    numbers stay. *)
Lemma tree_inv_maps b b' fs fs' :
  tree_inv b fs -> b <= b' -> typed_fs fs' -> tree fs' ->
  total (names_of (fs_arcs fs')) <= b' -> kinds_of (fs_arcs fs') = kinds_of (fs_arcs fs) ->
  fs_nodes fs' = fs_nodes fs -> fs_next_inode fs' = fs_next_inode fs ->
  fs_inode_count fs' = fs_inode_count fs -> tree_inv b' fs'.
Proof.
  intros [_ _ Htot Hn Hfresh Hc] Hb Hty Htree Htot' Hkd Htab Hnext Hcount.
  split; rewrite ?Hnext, ?Hcount, ?Htab; try done; try lia.
  intros i Hi. apply Hfresh.
  assert (Hk : is_Some (kinds_of (fs_arcs fs') !! i)) by (unfold kinds_of; by rewrite lookup_fmap, fmap_is_Some).
  rewrite Hkd in Hk. unfold kinds_of in Hk. by rewrite lookup_fmap, fmap_is_Some in Hk.
Qed.

Lemma link_effects b fs i p n now :
  tree_inv b fs -> b < max_bound ->
  tree_effect b fs (outcome (do_link fs i p n now)) <[(p, n) := i]>.
Proof.
  intros Hinv Hb. pose proof (typed_link fs i p n now (ti_typed _ _ Hinv)) as Hty. unfold do_link in *.
  destruct (validate_memfs_name n); [|by apply refused]. destruct (i =? INIT_INODE); [by apply refused|].
  destruct (get_node fs i) as [node|] eqn:Hi; [|by apply refused].
  destruct (mn_kind node =? MODE_DIR) eqn:Hk; [by apply refused|].
  destruct (get_node fs p) as [pn|] eqn:Hp; [|by apply refused].
  destruct (children_of pn) as [ch|] eqn:Hch; [|by apply refused].
  destruct (bool_decide (is_Some (ch !! n))) eqn:Hn; [by apply refused|].
  apply bool_decide_eq_false, eq_None_not_Some in Hn.
  pose proof (entry_lookup _ _ _ _ _ _ Hp Hch Hn) as Hfree.
  destruct (get_dir _ _ _ _ _ Hinv Hp Hch) as [Hpa Hpd]. apply get_node_Ok in Hi as [Hit Hi].
  set (fs' := upd_meta _ p (touch now)) in *.
  assert (Hns : names_of (fs_arcs fs') = <[(p, n) := i]> (names_of (fs_arcs fs))).
  { simpl. rewrite !names_alter_same by done. by apply (names_add _ _ pn ch). }
  assert (Hkd : kinds_of (fs_arcs fs') = kinds_of (fs_arcs fs)).
  { simpl. by rewrite !kinds_alter by done. }
  assert (Hnl : nlinks_of (fs_arcs fs') = alter (Z.add 1) i (nlinks_of (fs_arcs fs))).
  { simpl. rewrite !(nlinks_alter_same (alter _ i _)) by done. rewrite <- (nlink_incr b fs i Hinv Hb).
    rewrite <- (nlinks_alter_same (fs_arcs fs) p (set_content (set_children <[n := i]>))) by done.
    by apply nlinks_alter. }
  assert (Hpar : parents_of (fs_arcs fs') = parents_of (fs_arcs fs)).
  { simpl. rewrite !parents_alter_same by done. apply parents_alter_same.
    intros n0. unfold parent_of. simpl. by destruct (mn_content n0). }
  split; [|done]. apply (tree_inv_maps b _ fs fs'); try done; [lia | | rewrite Hns].
  - unfold tree. rewrite Hns, Hkd, Hnl, Hpar. apply tree_link; [apply Hinv | done | | done | done].
    by rewrite (is_dir_node _ _ _ Hi).
  - rewrite total_insert by done. pose proof (ti_total _ _ Hinv). lia.
Qed.

Lemma readd_child fs p pn ch n c :
  fs_arcs fs !! p = Some pn -> children_of pn = Some ch -> ch !! n = Some c ->
  add_child (del_child fs p n) p n c = fs.
Proof.
  intros Hp Hch Hc. unfold add_child, del_child. rewrite upd_node_compose.
  assert (Halter : alter (fun node => set_content (set_children <[n := c]>) (set_content (set_children (delete n)) node))
                     p (fs_arcs fs) = fs_arcs fs).
  { apply map_eq. intros j. destruct (decide (j = p)) as [->|]; [|by rewrite lookup_alter_ne].
    rewrite lookup_alter_eq, Hp. simpl. f_equal. unfold children_of in Hch.
    destruct pn as [ino k r m [ | ch' par | | ] x]; simpl in Hch; simplify_eq. unfold set_content. simpl.
    by rewrite insert_delete_id. }
  unfold upd_node, with_arcs. rewrite Halter. by destruct fs.
Qed.

(** The table entry of a child. *)
Lemma child_node b fs p n c :
  tree_inv b fs -> names_of (fs_arcs fs) !! (p, n) = Some c -> exists cn, get_node fs c = Ok cn.
Proof.
  intros Hinv Hc. pose proof (t_target _ _ _ _ _ (ti_tree _ _ Hinv) _ _ Hc) as Hin.
  destruct (t_table _ _ _ _ _ (ti_tree _ _ Hinv) _ Hin) as [k Hk]. unfold kinds_of in Hk.
  rewrite lookup_fmap in Hk. destruct (fs_arcs fs !! c) as [cn|] eqn:Hcn; [|done].
  exists cn. by apply get_node_Ok.
Qed.

Lemma unlink_effects b fs p n now :
  tree_inv b fs -> b < max_bound -> tree_effect b fs (do_unlink fs p n now) (delete (p, n)).
Proof.
  intros Hinv Hb. pose proof (typed_unlink fs p n now (ti_typed _ _ Hinv)) as Hty. unfold do_unlink in *.
  destruct (validate_memfs_name n); [|by apply refused]. destruct (reserved_name p n); [by apply refused|].
  destruct (get_node fs p) as [pn|] eqn:Hp; [|by apply refused].
  destruct (children_of pn) as [ch|] eqn:Hch; [|by apply refused].
  destruct (ch !! n) as [c|] eqn:Hn; [|by apply refused]. cbn [ok_or] in *.
  pose proof (entry_lookup _ _ _ _ _ _ Hp Hch Hn) as Hc.
  destruct (get_dir _ _ _ _ _ Hinv Hp Hch) as [Hpa Hpd]. destruct (child_node _ _ _ _ _ Hinv Hc) as [cn Hcn].
  apply get_node_Ok in Hcn as [Hct Hcn].
  assert (Hcn' : exists cn', get_node (del_child fs p n) c = Ok cn' /\ mn_kind cn' = mn_kind cn).
  { destruct (decide (c = p)) as [->|].
    - exists (set_content (set_children (delete n)) cn). split; [|done]. apply get_node_Ok.
      split; [done|]. simpl. by rewrite lookup_alter_eq, Hcn.
    - exists cn. split; [|done]. apply get_node_Ok. split; [done|]. simpl. by rewrite lookup_alter_ne. }
  destruct Hcn' as (cn' & Hget & Hk). rewrite Hget, Hk in *.
  destruct (mn_kind cn =? MODE_DIR) eqn:Hkd0.
  { rewrite (readd_child _ _ _ _ _ _ Hpa Hch Hn). by apply refused. }
  set (fs' := upd_meta (upd_meta (del_child fs p n) c _) p (touch now)) in *.
  assert (Hns : names_of (fs_arcs fs') = delete (p, n) (names_of (fs_arcs fs))).
  { simpl. rewrite !names_alter_same by done. by apply (names_del _ _ pn ch). }
  assert (Hkd : kinds_of (fs_arcs fs') = kinds_of (fs_arcs fs)) by (simpl; by rewrite !kinds_alter by done).
  assert (Hnl : nlinks_of (fs_arcs fs') = alter (fun l => saturating_sub l 1) c (nlinks_of (fs_arcs fs))).
  { simpl. rewrite (nlinks_alter_same (alter _ c _)) by done.
    rewrite <- (nlinks_alter_same (fs_arcs fs) p (set_content (set_children (delete n)))) by done.
    by apply nlinks_alter. }
  assert (Hpar : parents_of (fs_arcs fs') = parents_of (fs_arcs fs)).
  { simpl. rewrite !(parents_alter_same _ _ (set_meta _)) by done. apply parents_set_children. }
  split; [|by rewrite arcs_try_evict].
  apply (tree_inv_weaken b); [lia|]. apply try_evict_inv; [done|].
  apply (tree_inv_maps b b fs fs'); try done.
  - by apply (typed_arcs _ fs') in Hty; [|rewrite <- (arcs_try_evict fs' [p; c] c)].
  - unfold tree. rewrite Hns, Hkd, Hnl, Hpar. apply tree_unlink; [apply Hinv | done |].
    by rewrite (is_dir_node _ _ _ Hcn).
  - rewrite Hns. pose proof (total_delete_le (names_of (fs_arcs fs)) (p, n)).
    pose proof (ti_total _ _ Hinv). lia.
Qed.

Lemma rmdir_effects b fs p n now :
  tree_inv b fs -> b < max_bound -> tree_effect b fs (do_rmdir fs p n now) (delete (p, n)).
Proof.
  intros Hinv Hb. pose proof (typed_rmdir fs p n now (ti_typed _ _ Hinv)) as Hty. unfold do_rmdir in *.
  destruct (validate_memfs_name n); [|by apply refused]. destruct (reserved_name p n); [by apply refused|].
  destruct (get_node fs p) as [pn|] eqn:Hp; [|by apply refused].
  destruct (children_of pn) as [ch|] eqn:Hch; [|by apply refused].
  destruct (ch !! n) as [c|] eqn:Hn; [|by apply refused]. cbn [ok_or] in *.
  pose proof (entry_lookup _ _ _ _ _ _ Hp Hch Hn) as Hc.
  destruct (get_dir _ _ _ _ _ Hinv Hp Hch) as [Hpa Hpd].
  destruct (get_node fs c) as [cn|] eqn:Hcn; [|by apply refused].
  destruct (mn_kind cn =? MODE_DIR) eqn:Hkd0; [|by apply refused]. cbn [negb] in *.
  destruct (is_nonempty_dir cn) eqn:Hempty; [by apply refused|]. apply get_node_Ok in Hcn as [Hct Hcn].
  set (fs' := upd_meta (upd_meta (del_child fs p n) c _) p _) in *.
  assert (Hns : names_of (fs_arcs fs') = delete (p, n) (names_of (fs_arcs fs))).
  { simpl. rewrite !names_alter_same by done. by apply (names_del _ _ pn ch). }
  assert (Hkd : kinds_of (fs_arcs fs') = kinds_of (fs_arcs fs)) by (simpl; by rewrite !kinds_alter by done).
  assert (Hnl : nlinks_of (fs_arcs fs')
                = alter (fun l => saturating_sub l 1) p (alter (fun _ => 0) c (nlinks_of (fs_arcs fs)))).
  { simpl. rewrite (nlinks_alter _ p _ (fun l => saturating_sub l 1)) by done. f_equal.
    rewrite <- (nlinks_alter_same (fs_arcs fs) p (set_content (set_children (delete n)))) by done.
    by apply nlinks_alter. }
  assert (Hpar : parents_of (fs_arcs fs') = parents_of (fs_arcs fs)).
  { simpl. rewrite !(parents_alter_same _ _ (set_meta _)) by done. apply parents_set_children. }
  split; [|by rewrite arcs_try_evict].
  apply (tree_inv_weaken b); [lia|]. apply try_evict_inv; [done|].
  apply (tree_inv_maps b b fs fs'); try done.
  - by apply (typed_arcs _ fs') in Hty; [|rewrite <- (arcs_try_evict fs' [p; c] c)].
  - unfold tree. rewrite Hns, Hkd, Hnl, Hpar. apply tree_rmdir; [apply Hinv | done | |].
    + by rewrite (is_dir_node _ _ _ Hcn).
    + intros m. rewrite lookup_names, Hcn. simpl. unfold is_nonempty_dir in Hempty.
      destruct (children_of cn) as [ch'|]; [|done]. apply negb_false_iff, bool_decide_eq_true in Hempty.
      subst. apply lookup_empty.
  - rewrite Hns. pose proof (total_delete_le (names_of (fs_arcs fs)) (p, n)).
    pose proof (ti_total _ _ Hinv). lia.
Qed.

(** ** Rename *)

Lemma view_touch_parents fs o d now : view (fs_arcs (touch_parents fs o d now)) = view (fs_arcs fs).
Proof. unfold touch_parents. case_match; rewrite !view_upd_meta; done. Qed.

(** The maps after the move. *)
Lemma rename_move_maps fs o on d dn s dir now :
  let a := fs_arcs fs in
  has_dir a o -> has_dir a d -> (dir = true -> has_dir a s) ->
  let moved := dir && negb (o =? d) in
  view (fs_arcs (rename_move fs o on d dn s dir now))
  = (<[(d, dn) := s]> (delete (o, on) (names_of a)), kinds_of a,
     (if moved then alter (fun l => wrap 64 (l + 1)) d (alter (fun l => saturating_sub l 1) o (nlinks_of a))
      else nlinks_of a),
     reparent moved s d (parents_of a)).
Proof.
  intros a Ho Hd Hs moved. unfold rename_move. rewrite view_touch_parents, view_upd_meta by done.
  fold moved. destruct moved eqn:Hm; unfold view, reparent; simpl.
  - apply andb_true_iff in Hm as [Hdir _]. specialize (Hs Hdir).
    f_equal; [f_equal; [f_equal|]|].
    + rewrite names_set_parent, !names_alter_same by done.
      rewrite names_add_dir by auto with memfs. by rewrite names_del_dir.
    + by rewrite !kinds_alter by done.
    + rewrite (nlinks_alter_same _ s) by done. rewrite (nlinks_alter _ d _ (fun l => wrap 64 (l + 1))) by done.
      f_equal. rewrite (nlinks_alter _ o _ (fun l => saturating_sub l 1)) by done. f_equal.
      by rewrite !nlinks_alter_same by done.
    + rewrite parents_store by auto 6 with memfs. f_equal.
      by rewrite !(parents_alter_same _ _ (set_meta _)), !parents_set_children by done.
  - f_equal; [f_equal; [f_equal|]|].
    + rewrite names_add_dir by auto with memfs. by rewrite names_del_dir.
    + by rewrite !kinds_alter by done.
    + by rewrite !nlinks_alter_same by done.
    + by rewrite !parents_set_children.
Qed.

Lemma rename_move_fields fs o on d dn s dir now :
  let fs' := rename_move fs o on d dn s dir now in
  fs_nodes fs' = fs_nodes fs /\ fs_next_inode fs' = fs_next_inode fs /\ fs_inode_count fs' = fs_inode_count fs.
Proof. unfold rename_move, touch_parents. repeat case_match; done. Qed.

(** The maps after an accepted replacement. *)
Lemma replace_dest_maps fs dir d t now fs1 :
  replace_dest fs dir d t now = (fs1, Ok tt) ->
  let a := fs_arcs fs in
  exists tn, get_node fs t = Ok tn /\ dir = (mn_kind tn =? MODE_DIR)
    /\ (dir = true -> is_nonempty_dir tn = false)
    /\ view (fs_arcs fs1)
       = (names_of a, kinds_of a,
          (if dir then alter (fun l => saturating_sub l 1) d (alter (fun _ => 0) t (nlinks_of a))
           else alter (fun l => saturating_sub l 1) t (nlinks_of a)),
          parents_of a)
    /\ fs_nodes fs1 = fs_nodes fs /\ fs_next_inode fs1 = fs_next_inode fs
    /\ fs_inode_count fs1 = fs_inode_count fs.
Proof.
  unfold replace_dest. destruct (get_node fs t) as [tn|]; [|done]. intros Hr. exists tn.
  destruct (mn_kind tn =? MODE_DIR) eqn:Hk, dir; simpl in Hr; try done.
  - destruct (is_nonempty_dir tn) eqn:He; [done|]. simplify_eq. split_and!; try done.
    unfold view. simpl. f_equal; [f_equal; [f_equal|]|].
    + by rewrite !names_alter_same by done.
    + by rewrite !kinds_alter by done.
    + rewrite (nlinks_alter _ d _ (fun l => saturating_sub l 1)) by done. f_equal. by apply nlinks_alter.
    + by rewrite !parents_alter_same by done.
  - simplify_eq. split_and!; try done. unfold view. simpl. f_equal; [f_equal; [f_equal|]|].
    + by rewrite !names_alter_same by done.
    + by rewrite !kinds_alter by done.
    + by apply nlinks_alter.
    + by rewrite !parents_alter_same by done.
Qed.

(** The maps after an exchange. *)
Lemma rename_exchange_maps fs o on d dn s sn t tn now :
  let a := fs_arcs fs in
  has_dir a o -> has_dir a d -> ((mn_kind sn =? MODE_DIR) = true -> has_dir a s) ->
  ((mn_kind tn =? MODE_DIR) = true -> has_dir a t) ->
  view (fs_arcs (rename_exchange fs o on d dn s sn t tn now))
  = (<[(d, dn) := s]> (<[(o, on) := t]> (names_of a)), kinds_of a, nlinks_of a,
     reparent ((mn_kind tn =? MODE_DIR) && negb (o =? d)) t o
       (reparent ((mn_kind sn =? MODE_DIR) && negb (o =? d)) s d (parents_of a))).
Proof.
  intros a Ho Hd Hs Ht. unfold rename_exchange. rewrite view_touch_parents, !view_upd_meta by done.
  set (a2 := alter (set_content (set_children <[dn := s]>)) d (alter (set_content (set_children <[on := t]>)) o a)).
  assert (Hns : names_of a2 = <[(d, dn) := s]> (<[(o, on) := t]> (names_of a))).
  { unfold a2. rewrite names_add_dir by auto with memfs. by rewrite names_add_dir. }
  assert (Hkd : kinds_of a2 = kinds_of a) by (unfold a2; by rewrite !kinds_alter by done).
  assert (Hnl : nlinks_of a2 = nlinks_of a) by (unfold a2; by rewrite !nlinks_alter_same by done).
  assert (Hpar : parents_of a2 = parents_of a) by (unfold a2; by rewrite !parents_set_children).
  assert (Hdir : forall i, has_dir a i -> has_dir a2 i) by (intros; unfold a2; auto with memfs).
  unfold reparent, view.
  destruct (mn_kind sn =? MODE_DIR), (mn_kind tn =? MODE_DIR), (o =? d); simpl; fold a a2;
    rewrite ?names_set_parent, ?Hns, ?(kinds_alter _ _ (set_content (set_parent _))), ?Hkd,
      ?(nlinks_alter_same _ _ (set_content (set_parent _))), ?Hnl, ?parents_store, ?Hpar by auto 6 with memfs; done.
Qed.

Lemma view_inj a a' : view a' = view a ->
  names_of a' = names_of a /\ kinds_of a' = kinds_of a /\ nlinks_of a' = nlinks_of a /\ parents_of a' = parents_of a.
Proof. by intros [= -> -> -> ->]. Qed.

(** What a successful rename does to the names. *)
Definition rename_names (o : Z) (on : name) (d : Z) (dn : name) (flags : Z) ns : names :=
  if bool_decide ((o, on) = (d, dn)) then ns
  else match ns !! (o, on), ns !! (d, dn), has_bits flags RENAME_EXCHANGE with
  | Some s, Some t, true => <[(d, dn) := s]> (<[(o, on) := t]> ns)
  | Some s, _, false => <[(d, dn) := s]> (delete (o, on) ns)
  | _, _, _ => ns
  end.

(** Two different directories do not swap a directory for another kind of
    node. *)
Definition exchange_ok fs (o : op) : bool :=
  match o with
  | OpRename olddir oldname newdir newname flags _ =>
      negb (has_bits flags RENAME_EXCHANGE) || (olddir =? newdir)
      || match names_of (fs_arcs fs) !! (olddir, oldname), names_of (fs_arcs fs) !! (newdir, newname) with
         | Some s, Some t => Bool.eqb (is_dir (kinds_of (fs_arcs fs)) s) (is_dir (kinds_of (fs_arcs fs)) t)
         | _, _ => true
         end
  | _ => true
  end.

Lemma exchange_ok_same fs o on d dn flags now s t :
  exchange_ok fs (OpRename o on d dn flags now) = true -> has_bits flags RENAME_EXCHANGE = true -> o <> d ->
  names_of (fs_arcs fs) !! (o, on) = Some s -> names_of (fs_arcs fs) !! (d, dn) = Some t ->
  is_dir (kinds_of (fs_arcs fs)) s = is_dir (kinds_of (fs_arcs fs)) t.
Proof.
  unfold exchange_ok. intros Hx Hf Hne%Z.eqb_neq Hs Ht. rewrite Hf, Hne, Hs, Ht in Hx.
  by apply eqb_prop in Hx.
Qed.

Lemma get_has_dir fs p pn ch : get_node fs p = Ok pn -> children_of pn = Some ch -> has_dir (fs_arcs fs) p.
Proof. intros [_ Hp]%get_node_Ok Hch. by exists pn, ch. Qed.

Lemma kind_has_dir b fs p pn :
  tree_inv b fs -> get_node fs p = Ok pn -> (mn_kind pn =? MODE_DIR) = true -> has_dir (fs_arcs fs) p.
Proof.
  intros Hinv [_ Hp]%get_node_Ok Hk. apply (dir_children fs p pn (ti_typed _ _ Hinv) Hp) in Hk as [ch Hch].
  by exists pn, ch.
Qed.

Lemma get_is_dir fs p pn : get_node fs p = Ok pn -> is_dir (kinds_of (fs_arcs fs)) p = (mn_kind pn =? MODE_DIR).
Proof. intros [_ Hp]%get_node_Ok. by apply is_dir_node. Qed.

Lemma total_move ns p q c :
  ns !! p = Some c -> total (<[q := c]> (delete p ns)) <= total ns.
Proof.
  intros Hp. unfold total. rewrite msum_insert, msum_delete, Hp. simpl.
  destruct (delete p ns !! q); simpl; lia.
Qed.

Lemma exchange_effects b fs o on d dn s sn t tn op och np nch now :
  tree_inv b fs -> (o, on) <> (d, dn) ->
  (o <> d -> is_dir (kinds_of (fs_arcs fs)) s = is_dir (kinds_of (fs_arcs fs)) t) ->
  get_node fs o = Ok op -> children_of op = Some och -> och !! on = Some s -> get_node fs s = Ok sn ->
  get_node fs d = Ok np -> children_of np = Some nch -> nch !! dn = Some t -> get_node fs t = Ok tn ->
  let fs' := rename_exchange fs o on d dn s sn t tn now in
  tree_inv b fs'
  /\ names_of (fs_arcs fs') = <[(d, dn) := s]> (<[(o, on) := t]> (names_of (fs_arcs fs))).
Proof.
  intros Hinv Hne Hkinds Ho Hoch Hs Hsn Hd Hnch Ht Htn fs'.
  pose proof (rename_exchange_maps fs o on d dn s sn t tn now (get_has_dir _ _ _ _ Ho Hoch)
                (get_has_dir _ _ _ _ Hd Hnch) (kind_has_dir _ _ _ _ Hinv Hsn) (kind_has_dir _ _ _ _ Hinv Htn)) as Hv.
  fold fs' in Hv. unfold view in Hv. injection Hv as Hns Hkd Hnl Hpar.
  pose proof (entry_lookup _ _ _ _ _ _ Ho Hoch Hs) as Hso. pose proof (entry_lookup _ _ _ _ _ _ Hd Hnch Ht) as Htd.
  assert (Hf : fs_nodes fs' = fs_nodes fs /\ fs_next_inode fs' = fs_next_inode fs
               /\ fs_inode_count fs' = fs_inode_count fs).
  { unfold fs', rename_exchange, touch_parents. repeat case_match; done. }
  destruct Hf as (Htab & Hnext & Hcount).
  split; [|done]. apply (tree_inv_maps b b fs); try done.
  - apply typed_exchange, Hinv.
  - unfold tree. rewrite Hns, Hkd, Hnl, Hpar, Htab, <- (get_is_dir _ _ _ Hsn), <- (get_is_dir _ _ _ Htn).
    apply tree_exchange; [apply Hinv | done..|]. destruct (decide (o = d)); auto.
  - rewrite Hns. unfold total. rewrite !msum_insert, lookup_insert_ne, Hso, Htd by done. simpl.
    pose proof (ti_total _ _ Hinv). unfold total in *. lia.
Qed.

(** [tree_move] with the counter as the code increments it. *)
Lemma tree_move_wrap b ns kd nl par tab o on s d dn :
  tree_ok ns kd nl par tab -> total ns <= b -> b < max_bound ->
  ns !! (o, on) = Some s -> ns !! (d, dn) = None -> is_dir kd d = true ->
  let moved := is_dir kd s && negb (o =? d) in
  tree_ok (<[(d, dn) := s]> (delete (o, on) ns)) kd
    (if moved then alter (fun l => wrap 64 (l + 1)) d (alter (fun l => saturating_sub l 1) o nl) else nl)
    (reparent moved s d par) tab.
Proof.
  intros Hok Htot Hb Ho Hd Hdd moved.
  assert (Heq : alter (fun l => wrap 64 (l + 1)) d (alter (fun l => saturating_sub l 1) o nl)
                = alter (Z.add 1) d (alter (fun l => saturating_sub l 1) o nl)).
  { apply alter_ext_at. intros l Hl.
    assert (0 <= l < 2 ^ 64 - 1); [|rewrite wrap_small; [lia | unfold fits; lia]].
    apply lookup_alter_Some in Hl as [(-> & l0 & Hl0 & ->) | [_ Hl]].
    - pose proof (nlink_bound _ _ _ _ _ _ _ _ Hok Htot Hb Hl0). unfold saturating_sub. lia.
    - by eapply nlink_bound. }
  rewrite Heq. by apply tree_move.
Qed.

Lemma moved_effects b fs o on d dn s sn op och np nch now :
  tree_inv b fs -> b < max_bound ->
  get_node fs o = Ok op -> children_of op = Some och -> och !! on = Some s -> get_node fs s = Ok sn ->
  get_node fs d = Ok np -> children_of np = Some nch -> nch !! dn = None ->
  let fs' := rename_move fs o on d dn s (mn_kind sn =? MODE_DIR) now in
  tree_inv b fs' /\ names_of (fs_arcs fs') = <[(d, dn) := s]> (delete (o, on) (names_of (fs_arcs fs))).
Proof.
  intros Hinv Hb Ho Hoch Hs Hsn Hd Hnch Ht fs'.
  pose proof (rename_move_maps fs o on d dn s (mn_kind sn =? MODE_DIR) now (get_has_dir _ _ _ _ Ho Hoch)
                (get_has_dir _ _ _ _ Hd Hnch) (kind_has_dir _ _ _ _ Hinv Hsn)) as Hv.
  fold fs' in Hv. unfold view in Hv. injection Hv as Hns Hkd Hnl Hpar.
  pose proof (entry_lookup _ _ _ _ _ _ Ho Hoch Hs) as Hso. pose proof (entry_lookup _ _ _ _ _ _ Hd Hnch Ht) as Htd.
  destruct (rename_move_fields fs o on d dn s (mn_kind sn =? MODE_DIR) now) as (Htab & Hnext & Hcount).
  split; [|done]. apply (tree_inv_maps b b fs); try done.
  - apply typed_move, Hinv.
  - unfold tree. rewrite Hns, Hkd, Hnl, Hpar.
    change (fs_nodes fs') with (fs_nodes (rename_move fs o on d dn s (mn_kind sn =? MODE_DIR) now)).
    rewrite Htab, <- (get_is_dir _ _ _ Hsn). apply (tree_move_wrap b); try done; [apply Hinv..|].
    by destruct (get_dir _ _ _ _ _ Hinv Hd Hnch).
  - rewrite Hns. pose proof (total_move _ _ (d, dn) _ Hso). pose proof (ti_total _ _ Hinv). lia.
Qed.

Lemma typed_has_dir fs i : typed_fs fs -> has_dir (fs_arcs fs) i <-> is_dir (kinds_of (fs_arcs fs)) i = true.
Proof.
  intros Hty. split.
  - intros (node & ch & Hi & Hch). rewrite (is_dir_node _ _ _ Hi). apply (dir_children fs i node Hty Hi). eauto.
  - intros Hd. assert (Hs : is_Some (fs_arcs fs !! i)).
    { unfold is_dir, kinds_of in Hd. rewrite lookup_fmap in Hd. destruct (fs_arcs fs !! i); [eauto|].
      by apply bool_decide_eq_true in Hd. }
    destruct Hs as [node Hi]. rewrite (is_dir_node _ _ _ Hi) in Hd.
    apply (dir_children fs i node Hty Hi) in Hd as [ch Hch]. by exists node, ch.
Qed.

(** The tree once the destination of a replacing rename is gone. *)
Lemma replaced_tree b fs d dn t tn np nch :
  tree_inv b fs -> get_node fs d = Ok np -> children_of np = Some nch -> nch !! dn = Some t ->
  get_node fs t = Ok tn -> ((mn_kind tn =? MODE_DIR) = true -> is_nonempty_dir tn = false) ->
  let nl := nlinks_of (fs_arcs fs) in
  tree_ok (delete (d, dn) (names_of (fs_arcs fs))) (kinds_of (fs_arcs fs))
    (if mn_kind tn =? MODE_DIR then alter (fun l => saturating_sub l 1) d (alter (fun _ => 0) t nl)
     else alter (fun l => saturating_sub l 1) t nl)
    (parents_of (fs_arcs fs)) (fs_nodes fs).
Proof.
  intros Hinv Hd Hnch Ht Htn Hempty nl. pose proof (entry_lookup _ _ _ _ _ _ Hd Hnch Ht) as Htd.
  pose proof (get_is_dir _ _ _ Htn) as Hk. destruct (mn_kind tn =? MODE_DIR).
  - apply tree_rmdir; [apply Hinv | done | done |]. intros m. specialize (Hempty eq_refl).
    apply get_node_Ok in Htn as [_ Htn]. rewrite lookup_names, Htn. simpl. unfold is_nonempty_dir in Hempty.
    destruct (children_of tn) as [ch'|]; [|done]. apply negb_false_iff, bool_decide_eq_true in Hempty.
    subst. apply lookup_empty.
  - apply tree_unlink; [apply Hinv | done | done].
Qed.

Lemma replaced_effects b fs fs1 o on d dn s sn t op och np nch now :
  tree_inv b fs -> b < max_bound -> (o, on) <> (d, dn) ->
  get_node fs o = Ok op -> children_of op = Some och -> och !! on = Some s -> get_node fs s = Ok sn ->
  get_node fs d = Ok np -> children_of np = Some nch -> nch !! dn = Some t ->
  replace_dest fs (mn_kind sn =? MODE_DIR) d t now = (fs1, Ok tt) ->
  let fs' := rename_move fs1 o on d dn s (mn_kind sn =? MODE_DIR) now in
  tree_inv b fs' /\ names_of (fs_arcs fs') = <[(d, dn) := s]> (delete (o, on) (names_of (fs_arcs fs))).
Proof.
  intros Hinv Hb Hne Ho Hoch Hs Hsn Hd Hnch Ht Hrep fs'.
  destruct (replace_dest_maps _ _ _ _ _ _ Hrep) as (tn & Htn & Hdir & Hempty & Hv1 & Htab1 & Hnext1 & Hcount1).
  pose proof (entry_lookup _ _ _ _ _ _ Ho Hoch Hs) as Hso. pose proof (entry_lookup _ _ _ _ _ _ Hd Hnch Ht) as Htd.
  assert (Hty1 : typed_fs fs1).
  { pose proof (typed_replace fs (mn_kind sn =? MODE_DIR) d t now (ti_typed _ _ Hinv)) as Hty. by rewrite Hrep in Hty. }
  unfold view in Hv1. injection Hv1 as Hns1 Hkd1 Hnl1 Hpar1.
  assert (Hdir1 : forall i, has_dir (fs_arcs fs) i -> has_dir (fs_arcs fs1) i).
  { intros i Hi%(typed_has_dir fs i (ti_typed _ _ Hinv)). apply typed_has_dir; [done|]. by rewrite Hkd1. }
  pose proof (rename_move_maps fs1 o on d dn s (mn_kind sn =? MODE_DIR) now
                (Hdir1 _ (get_has_dir _ _ _ _ Ho Hoch)) (Hdir1 _ (get_has_dir _ _ _ _ Hd Hnch))
                (fun Hk => Hdir1 _ (kind_has_dir _ _ _ _ Hinv Hsn Hk))) as Hv.
  fold fs' in Hv. unfold view in Hv. rewrite Hns1, Hkd1, Hnl1, Hpar1 in Hv. injection Hv as Hns Hkd Hnl Hpar.
  destruct (rename_move_fields fs1 o on d dn s (mn_kind sn =? MODE_DIR) now) as (Htab & Hnext & Hcount).
  fold fs' in Htab, Hnext, Hcount.
  rewrite Hdir in Hempty, Hnl, Hpar. pose proof (replaced_tree b fs d dn t tn np nch Hinv Hd Hnch Ht Htn Hempty) as Hgone.
  pose proof (ti_total _ _ Hinv) as Htot. pose proof (total_delete_le (names_of (fs_arcs fs)) (d, dn)) as Hle.
  split; [|done]. apply (tree_inv_maps b b fs); try congruence; try done.
  - by apply typed_move.
  - unfold tree. rewrite Hns, Hkd, Hnl, Hpar, Htab, Htab1, <- Hdir, <- (get_is_dir _ _ _ Hsn).
    rewrite <- (insert_delete_eq (delete (o, on) _)), delete_delete.
    apply (tree_move_wrap b); try done; [|lia|by rewrite lookup_delete_ne|apply lookup_delete_eq|].
    + by rewrite (get_is_dir _ _ _ Hsn), Hdir.
    + by destruct (get_dir _ _ _ _ _ Hinv Hd Hnch).
  - rewrite Hns. pose proof (total_move _ _ (d, dn) _ Hso). lia.
Qed.

Lemma rename_effects b fs o on d dn flags now :
  tree_inv b fs -> b < max_bound -> exchange_ok fs (OpRename o on d dn flags now) = true ->
  tree_effect b fs (do_rename fs o on d dn flags now) (rename_names o on d dn flags).
Proof.
  intros Hinv Hb Hx. pose proof (do_rename_cases fs o on d dn flags now) as Hc.
  destruct (do_rename fs o on d dn flags now) as [fs' [[]|e]]; [|subst; by apply refused].
  destruct Hc as [Heq | op och np nch s sn t tn Hf Hne Ho Hoch Hs Hsn Hd Hnch Ht Htn
                 | op och np nch s sn Hf Hne Ho Hoch Hs Hsn Hd Hnch Ht
                 | op och np nch s sn t fs1 Hf Hne Ho Hoch Hs Hsn Hd Hnch Ht Hrep];
    (apply served; [|unfold rename_names]).
  all: try (pose proof (entry_lookup _ _ _ _ _ _ Ho Hoch Hs) as Hso;
            pose proof (entry_lookup _ _ _ _ _ _ Hd Hnch Ht) as Htd;
            try rewrite bool_decide_eq_false_2, Hso, Htd, Hf by done).
  - done.
  - by rewrite bool_decide_eq_true_2.
  - eapply exchange_effects; try done. intros Hod. by eapply exchange_ok_same.
  - eapply exchange_effects; try done. intros Hod. by eapply exchange_ok_same.
  - by eapply moved_effects.
  - by eapply moved_effects.
  - apply try_evict_inv; [done|]. by eapply replaced_effects.
  - rewrite arcs_try_evict. by eapply replaced_effects.
Qed.

(** ** All requests *)

(** Requests that leave the tree alone and refuse without a trace. *)
Lemma neutral_effect {A} b fs (p : MemFs * io A) :
  tree_inv b fs -> same_tree fs p.1 -> typed_fs p.1 -> (forall e, p.2 = Err e -> p.1 = fs) ->
  tree_effect b fs (outcome p) id.
Proof.
  intros Hinv Hs Hty Herr. destruct p as [fs' [x|e]]; cbn [fst snd] in *.
  - apply (served b fs fs'); [by eapply tree_inv_same|]. by destruct Hs as ([= -> _ _ _] & _).
  - rewrite (Herr e eq_refl). by apply (refused b fs e).
Qed.

Lemma lookup_err agentd fs p n e : (lookup agentd fs p n).2 = Err e -> (lookup agentd fs p n).1 = fs.
Proof. unfold lookup. repeat case_match; done. Qed.

Lemma setattr_err fs i attr valid ta tm tc e :
  (do_setattr fs i attr valid ta tm tc).2 = Err e -> (do_setattr fs i attr valid ta tm tc).1 = fs.
Proof.
  unfold do_setattr. destruct (i =? INIT_INODE); [done|]. destruct (get_node fs i); [|done].
  destruct (v_size valid); [|done]. unfold setattr_size. destruct (data_of _) as [d|]; [|done].
  destruct (_ <? 0); [done|]. destruct (I64_MAX <? _); [done|].
  destruct (_ <? zlen d); [done|]. destruct (zlen d <? _) eqn:?; [|done]. breflect.
  by destruct (reserve_bytes_cases fs (st_size attr - zlen d) ltac:(lia)) as [-> | (u & -> & _)].
Qed.

Lemma open_err fs i kp flags now now' e :
  (do_open fs i kp flags now now').2 = Err e -> (do_open fs i kp flags now now').1 = fs.
Proof.
  unfold do_open. destruct (i =? INIT_INODE); [done|]. destruct (get_node fs i); [|done].
  by destruct (mn_kind _ =? _).
Qed.

Lemma write_err fs i h del size offset kp now e :
  0 <= offset -> (do_write fs i h del size offset kp now).2 = Err e ->
  (do_write fs i h del size offset kp now).1 = fs.
Proof.
  intros Ho. unfold do_write. destruct (i =? INIT_INODE); [done|].
  destruct (fs_file_handles fs !! h) as [fh|]; simpl; [|done].
  destruct (data_of (deref fs (fh_node fh))) as [data|]; [|done].
  destruct (if has_bits _ _ then _ else _); [|done]. destruct del as [buf|]; [|done].
  destruct (zlen buf =? 0); [done|].
  pose proof (write_data_cases fs fh data buf offset kp now Ho) as Hw.
  by destruct (write_data fs fh data buf offset kp now) as [fs' [n|e']].
Qed.

Lemma fallocate_err fs i h mode offset length e :
  (do_fallocate fs i h mode offset length).2 = Err e -> (do_fallocate fs i h mode offset length).1 = fs.
Proof.
  unfold do_fallocate. destruct (i =? INIT_INODE); [done|].
  destruct (fs_file_handles fs !! h) as [fh|]; simpl; [|done]. destruct (negb _); [done|].
  destruct (mode =? 0).
  - unfold allocate_range. destruct (checked_add 64 offset length) as [last|]; simpl; [|done].
    destruct (I64_MAX <? _); [done|]. destruct (data_of _) as [d|]; [|done].
    destruct (zlen d <? _) eqn:?; [|done]. breflect.
    by destruct (reserve_bytes_cases fs (last - zlen d) ltac:(lia)) as [-> | (u & -> & _)].
  - by destruct (has_bits _ _ && has_bits _ _).
Qed.

Lemma readdir_err fs i h o e : (do_readdir fs i h o).2 = Err e -> (do_readdir fs i h o).1 = fs.
Proof. unfold do_readdir, handle_snapshot. repeat case_match; simplify_eq; done. Qed.

Lemma readdirplus_err agentd fs i h o e :
  (do_readdirplus agentd fs i h o).2 = Err e -> (do_readdirplus agentd fs i h o).1 = fs.
Proof.
  unfold do_readdirplus. pose proof (readdir_err fs i h o) as Hr.
  destruct (do_readdir fs i h o) as [fs1 [l|e']]; simpl in *; [|intros _; by apply (Hr e')].
  by destruct (readdirplus_loop agentd fs1 l).
Qed.

(** What each request does to the names when it succeeds. *)
Definition names_change fs (o : op) : names -> names :=
  match o with
  | OpSymlink _ _ p n _ | OpMknod _ p n _ _ _ _ | OpMkdir _ p n _ _ _ | OpCreate _ p n _ _ _ _ =>
      <[(p, n) := fs_next_inode fs]>
  | OpUnlink p n _ | OpRmdir p n _ => delete (p, n)
  | OpRename o on d dn flags _ => rename_names o on d dn flags
  | OpLink i p n _ => <[(p, n) := i]>
  | _ => id
  end.

Lemma neutral_effect_unit b fs (p : MemFs * io unit) :
  tree_inv b fs -> same_tree fs p.1 -> typed_fs p.1 -> (forall e, p.2 = Err e -> p.1 = fs) ->
  tree_effect b fs p id.
Proof.
  intros Hinv Hs Hty Herr. pose proof (neutral_effect b fs p Hinv Hs Hty Herr) as He.
  by destruct p as [fs' [[]|e]].
Qed.

Lemma step_effects agentd b fs o :
  tree_inv b fs -> b < max_bound -> op_fits o -> exchange_ok fs o = true ->
  tree_effect b fs (apply_op agentd fs o) (names_change fs o).
Proof.
  intros Hinv Hb Hfit Hx. pose proof (typed_step agentd fs o Hfit (ti_typed _ _ Hinv)) as Hty.
  destruct o; simpl apply_op in *; simpl names_change;
    eauto using symlink_effects, mknod_effects, mkdir_effects, unlink_effects, rmdir_effects,
      rename_effects, link_effects, create_effects.
  - apply neutral_effect; try done. unfold init. by destruct (_ && _).
  - apply neutral_effect; try done; [apply same_tree_lookup | apply lookup_err].
  - destruct (forget_inv b fs ino count Hb Hinv) as [? Hv]. apply served; [done|].
    by injection Hv.
  - destruct (batch_forget_inv b fs requests Hb Hinv) as [? Hv]. apply served; [done|]. by injection Hv.
  - apply neutral_effect; try done; [apply same_tree_setattr | apply setattr_err].
  - apply neutral_effect; try done; [apply same_tree_open | apply open_err].
  - destruct Hfit as (_ & [? _] & _). apply neutral_effect; try done; [by apply same_tree_write|].
    intros e. by apply write_err.
  - apply neutral_effect_unit; try done; [apply same_tree_fallocate | apply fallocate_err].
  - apply neutral_effect_unit; try done; [apply same_tree_release_handle|].
    intros e. unfold do_release. by repeat case_match.
  - apply neutral_effect_unit; try done; unfold do_setxattr; repeat case_match; try done.
    by apply same_tree_upd.
  - apply neutral_effect_unit; try done; unfold do_removexattr; repeat case_match; try done.
    by apply same_tree_upd.
  - apply neutral_effect; try done; unfold do_opendir; by repeat case_match.
  - apply neutral_effect; try done; [apply same_tree_readdir | apply readdir_err].
  - apply neutral_effect; try done; [apply same_tree_readdirplus | apply readdirplus_err].
  - by apply neutral_effect_unit.
Qed.

(** ** Runs *)

(** The requests of a run have arguments in range, and none swaps a directory
    for another kind of node between two directories. *)
Fixpoint run_ok (agentd : list byte) fs (ops : list op) : Prop :=
  match ops with
  | [] => True
  | o :: ops' => op_fits o /\ exchange_ok fs o = true /\ run_ok agentd (apply_op agentd fs o).1 ops'
  end.

#[global] Instance fits_dec w z : Decision (fits w z).
Proof. unfold fits. apply _. Defined.
#[global] Instance op_fits_dec o : Decision (op_fits o).
Proof.
  destruct o; simpl; try apply _. destruct delivered; apply _.
Defined.
#[global] Instance run_ok_dec agentd fs ops : Decision (run_ok agentd fs ops).
Proof. revert fs. induction ops as [|o ops IH]; intros fs; simpl; apply _. Defined.

Lemma step_inv agentd b fs o :
  tree_inv b fs -> b < max_bound -> op_fits o -> exchange_ok fs o = true -> tree_inv (b + 1) (apply_op agentd fs o).1.
Proof.
  intros Hinv Hb Hfit Hx. pose proof (step_effects agentd b fs o Hinv Hb Hfit Hx) as He.
  by destruct (apply_op agentd fs o) as [fs' [u|e]]; destruct He.
Qed.

Lemma run_inv agentd b fs ops :
  tree_inv b fs -> b + zlen ops <= max_bound -> run_ok agentd fs ops ->
  tree_inv (b + zlen ops) (run agentd fs ops).
Proof.
  revert b fs. induction ops as [|o ops IH]; intros b fs Hinv Hb Hok.
  - simpl. by rewrite Z.add_0_r.
  - destruct Hok as (Hfit & Hx & Hok). rewrite length_cons, Nat2Z.inj_succ in *.
    assert (Hinv1 := step_inv agentd b fs o Hinv ltac:(lia) Hfit Hx).
    specialize (IH (b + 1) _ Hinv1 ltac:(lia) Hok). unfold run in *. simpl.
    replace (b + Z.succ (zlen ops)) with (b + 1 + zlen ops) by lia. done.
Qed.

Lemma build_inv cfg now : tree_inv 0 (build cfg now).
Proof.
  assert (Hns : names_of (fs_arcs (build cfg now)) = ∅).
  { apply map_eq. intros [d n]. rewrite lookup_names, lookup_empty. simpl.
    destruct (decide (d = ROOT_INODE)) as [->|]; [by rewrite lookup_singleton_eq|].
    by rewrite lookup_singleton_ne. }
  assert (Hkd : forall i, kinds_of (fs_arcs (build cfg now)) !! i = if decide (i = ROOT_INODE) then Some MODE_DIR else None).
  { intros i. unfold kinds_of. rewrite lookup_fmap. simpl. case_decide; subst;
      [by rewrite lookup_singleton_eq | by rewrite lookup_singleton_ne]. }
  assert (Hnl : forall i, nlinks_of (fs_arcs (build cfg now)) !! i = if decide (i = ROOT_INODE) then Some 2 else None).
  { intros i. unfold nlinks_of. rewrite lookup_fmap. simpl. case_decide; subst;
      [by rewrite lookup_singleton_eq | by rewrite lookup_singleton_ne]. }
  assert (Hdir : forall i, is_dir (kinds_of (fs_arcs (build cfg now))) i = bool_decide (i = ROOT_INODE)).
  { intros i. unfold is_dir. rewrite Hkd. case_decide; repeat case_bool_decide; congruence. }
  split.
  - apply typed_build.
  - unfold tree. rewrite Hns. split; try (by intros p c; rewrite lookup_empty).
    + intros i l. rewrite Hnl. case_decide; [|done]. intros [= <-]. subst.
      unfold expected_links. by rewrite Hdir.
    + intros i. rewrite Hdir. case_bool_decide; [|done]. subst. done.
    + intros i. simpl. intros ->%elem_of_singleton. rewrite Hkd. eauto.
    + intros i. rewrite Hkd, Hnl. case_decide; split; eauto.
    + split; [set_solver | by rewrite Hdir].
  - by rewrite Hns.
  - done.
  - intros i [n Hi]. simpl in Hi. apply lookup_singleton_Some in Hi as [<- _]. done.
  - done.
Qed.

Lemma run_build_inv agentd cfg now ops :
  zlen ops <= max_bound -> run_ok agentd (build cfg now) ops ->
  tree_inv (zlen ops) (run agentd (build cfg now) ops).
Proof. intros Hlen Hok. apply (run_inv agentd 0); [apply build_inv | lia | done]. Qed.

Lemma run_snoc agentd fs ops o : run agentd fs (ops ++ [o]) = (apply_op agentd (run agentd fs ops) o).1.
Proof. unfold run. by rewrite fold_left_app. Qed.

Lemma run_ok_snoc agentd fs ops o :
  run_ok agentd fs (ops ++ [o]) <->
  run_ok agentd fs ops /\ op_fits o /\ exchange_ok (run agentd fs ops) o = true.
Proof.
  revert fs. induction ops as [|o' ops IH]; intros fs; simpl; [tauto|]. rewrite IH. tauto.
Qed.


(** C28: The operations refine a map from names to inodes.  In any state a run
    reaches, a successful request changes the map of all directory entries
    exactly as its specification [names_change] says: creation adds the next
    number under the given name, linking adds the linked one, unlink and rmdir
    remove the entry, rename moves, replaces or exchanges entries, and every
    other request leaves the map as it is. *)
Theorem memfs_names_refine agentd cfg now ops o fs' :
  zlen ops < max_bound -> run_ok agentd (build cfg now) (ops ++ [o]) ->
  let fs := run agentd (build cfg now) ops in
  apply_op agentd fs o = (fs', Ok tt) ->
  names_of (fs_arcs fs') = names_change fs o (names_of (fs_arcs fs)).
Proof.
  intros Hlen [Hok [Hfit Hx]]%run_ok_snoc fs Hstep.
  pose proof (run_build_inv agentd cfg now ops ltac:(lia) Hok) as Hinv.
  pose proof (step_effects agentd _ _ o Hinv Hlen Hfit Hx) as He. fold fs in He. rewrite Hstep in He.
  by destruct He.
Qed.


(** Lookup answers from the names.  In any state a run reaches, looking a
    valid name up in a directory of the table returns the entry of the inode
    the name map holds, with that inode's attributes, and [ENOENT] exactly when
    there is none; it never fails on a vanished child. *)
Lemma memfs_lookup_exact agentd cfg now ops d dn n :
  zlen ops <= max_bound -> run_ok agentd (build cfg now) ops ->
  let fs := run agentd (build cfg now) ops in
  get_node fs d = Ok dn -> is_Some (children_of dn) ->
  validate_memfs_name n = Ok tt -> reserved_name d n = false ->
  match names_of (fs_arcs fs) !! (d, n) with
  | Some c => exists node, get_node fs c = Ok node /\
                (lookup agentd fs d n).2 = Ok (build_entry fs (set_refs (fun r => wrap 64 (r + 1)) node))
                /\ en_inode (build_entry fs node) = c
  | None => lookup agentd fs d n = (fs, Err ENOENT)
  end.
Proof.
  intros Hlen Hok fs Hd [ch Hch] Hn Hr.
  pose proof (run_build_inv agentd cfg now ops Hlen Hok) as Hinv. fold fs in Hinv.
  pose proof (entry_lookup fs d dn ch n (ch !! n) Hd Hch eq_refl) as Hc.
  unfold lookup. rewrite Hn, Hr, Hd, Hch. rewrite Hc. destruct (ch !! n) as [c|]; [|done].
  destruct (child_node _ _ _ _ _ Hinv Hc) as [node Hnode]. exists node. simpl. rewrite Hnode. simpl.
  apply get_node_Ok in Hnode as [Htab Hnode]. split_and!.
  - done.
  - unfold deref, inc_lookup, upd_node. simpl. rewrite (lookup_total_correct _ _ (set_refs (fun r => wrap 64 (r + 1)) node)); [done|].
    by rewrite lookup_alter_eq, Hnode.
  - by destruct (ti_typed _ _ Hinv _ _ Hnode).
Qed.

(** ** A sample run *)

Module Demo.
Definition t0 : Timespec := mkTimespec 0 0.
Definition cfg : MemFsConfig := mkMemConfig (Some 100) (Some 20) 5 5 CacheAlways true.
Definition ctx : Context := mkContext 0 0.
Definition a : name := [Byte.x61].
Definition b : name := [Byte.x62].
Definition f : name := [Byte.x66].
Definition g : name := [Byte.x67].
Definition dir (p : Z) (n : name) : op := OpMkdir ctx p n 0x1ff 0 t0.
Definition file (p : Z) (n : name) : op := OpMknod ctx p n (MODE_REG + 0x1ff) 0 0 t0.

(** Directories 3 and 4 at the root, a file 5 with a second name, an exchange
    of the two directories' files, a replacing rename and removals. *)
Definition ops : list op :=
  [dir 1 a; dir 1 b; file 3 f; file 4 g; OpLink 5 1 f t0; OpRename 3 f 4 g 2 t0; OpRename 4 g 3 b 0 t0;
   OpRename 3 b 3 f 0 t0; OpUnlink 1 f t0; OpRmdir 1 b t0; OpForget 6 1].

Lemma ops_ok : run_ok [] (build cfg t0) ops.
Proof. apply (bool_decide_unpack _). vm_compute. exact I. Qed.
End Demo.


Lemma memfs_names_refine_witness :
  let fs := run [] (build Demo.cfg Demo.t0) Demo.ops in
  let fs' := (apply_op [] fs (Demo.dir 3 Demo.g)).1 in
  names_of (fs_arcs fs') = <[(3, Demo.g) := 7]> (names_of (fs_arcs fs)).
Proof.
  refine (memfs_names_refine [] Demo.cfg Demo.t0 Demo.ops (Demo.dir 3 Demo.g) _ _ _ _).
  - vm_compute. reflexivity.
  - apply (bool_decide_unpack _). vm_compute. exact I.
  - vm_compute. reflexivity.
Defined.


Lemma memfs_lookup_exact_witness :
  let fs := run [] (build Demo.cfg Demo.t0) Demo.ops in
  lookup [] fs 3 Demo.g = (fs, Err ENOENT).
Proof.
  set (fs := run [] (build Demo.cfg Demo.t0) Demo.ops).
  assert (Hlen : zlen Demo.ops <= max_bound) by (vm_compute; congruence).
  assert (Hd : get_node fs 3 = Ok (deref fs 3)) by (vm_compute; reflexivity).
  assert (Hch : is_Some (children_of (deref fs 3))) by (apply (bool_decide_unpack _); vm_compute; exact I).
  assert (Hv : validate_memfs_name Demo.g = Ok tt) by (vm_compute; reflexivity).
  assert (Hr : reserved_name 3 Demo.g = false) by (vm_compute; reflexivity).
  pose proof (memfs_lookup_exact [] Demo.cfg Demo.t0 Demo.ops 3 (deref fs 3) Demo.g Hlen Demo.ops_ok Hd Hch Hv Hr)
    as Hl.
  assert (Hnone : names_of (fs_arcs fs) !! (3, Demo.g) = None) by (vm_compute; reflexivity).
  cbv zeta in Hl. fold fs in Hl. rewrite Hnone in Hl. exact Hl.
Defined.

(** ** Behaviours outside the invariant *)

(** Swapping files for directories across two directories moves subdirectories
    without moving the link counts.  Removing them then takes the count of a
    directory that still has a name to zero, and forgetting it evicts it: its
    name is left dangling. *)
Lemma mixed_exchange_loses_directory :
  let ops := [Demo.dir 1 Demo.a; Demo.dir 1 Demo.b; Demo.file 3 Demo.f; Demo.file 3 Demo.g;
              Demo.dir 4 Demo.f; Demo.dir 4 Demo.g;
              OpRename 3 Demo.f 4 Demo.f 2 Demo.t0; OpRename 3 Demo.g 4 Demo.g 2 Demo.t0;
              OpRmdir 3 Demo.f Demo.t0; OpRmdir 3 Demo.g Demo.t0; OpForget 3 1] in
  let fs := run [] (build Demo.cfg Demo.t0) ops in
  names_of (fs_arcs fs) !! (1, Demo.a) = Some 3 /\ (lookup [] fs 1 Demo.a).2 = Err EBADF.
Proof. vm_compute. split; reflexivity. Qed.

(** A file named like the init binary in a subdirectory is listed by
    [readdirplus] with the entry of the init binary. *)
Lemma readdirplus_aliases_init :
  let fs := run [] (build Demo.cfg Demo.t0) [Demo.dir 1 Demo.a; Demo.file 3 INIT_FILENAME; OpOpendir 3] in
  names_of (fs_arcs fs) !! (3, INIT_FILENAME) = Some 4
  /\ match (do_readdirplus [] fs 3 1 0).2 with
     | Ok l => (fun p => (de_inode p.1, en_inode p.2)) <$> l = [(4, INIT_INODE)]
     | Err _ => False
     end.
Proof. vm_compute. split; reflexivity. Qed.

(** [link] alone does not reserve the name of the init binary at the root. *)
Lemma link_takes_reserved_name :
  let fs := run [] (build Demo.cfg Demo.t0) [Demo.file 1 Demo.f; OpLink 3 1 INIT_FILENAME Demo.t0] in
  names_of (fs_arcs fs) !! (1, INIT_FILENAME) = Some 3
  /\ (do_unlink fs 1 INIT_FILENAME Demo.t0).2 = Err EACCES.
Proof. vm_compute. split; reflexivity. Qed.
