(* ===== verification/MemFsSpace.v ===== *)
(** * Space accounting and file data of the in-memory filesystem

    The bytes charged against the capacity, the bytes held by files that are
    still reachable, the inode limit, and what reads return after writes. *)

From S2P Require Import Prelude MemFs MemFsTypes MemFsTree.
From Stdlib Require Import Strings.Byte.

Implicit Types (fs : MemFs) (a : gmap Z MemNode).

(** ** Bytes held *)

Definition len_of (n : MemNode) : Z := match data_of n with Some d => zlen d | None => 0 end.
Definition lens_of a : gmap Z Z := len_of <$> a.

(** A file is reachable while the table or an open handle points to it. *)
Definition opened (hs : gmap Z FileHandle) (i : Z) : Prop := map_Exists (fun _ h => fh_node h = i) hs.
#[global] Instance opened_dec hs i : Decision (opened hs i).
Proof. unfold opened. apply _. Defined.
Definition live (tab : gset Z) hs (i : Z) : bool := bool_decide (i ∈ tab \/ opened hs i).
Definition held_in (lens : gmap Z Z) (tab : gset Z) hs : Z :=
  msum (fun i l => if live tab hs i then l else 0) lens.
Definition held_bytes fs : Z := held_in (lens_of (fs_arcs fs)) (fs_nodes fs) (fs_file_handles fs).

(** With a capacity, the counter covers the bytes held and stays within it;
    [exact] asks that it covers nothing else. *)
Record space_ok (exact : bool) (cap : Z) fs : Prop := mkSpaceOk {
  sp_cap : cfg_capacity (fs_cfg fs) = Some cap;
  sp_fits : cap < 2 ^ 64;
  sp_covers : held_bytes fs <= fs_used_bytes fs <= cap;
  sp_exact : exact = true -> fs_used_bytes fs = held_bytes fs }.

Lemma lens_nonneg a i l : lens_of a !! i = Some l -> 0 <= l.
Proof.
  unfold lens_of. rewrite lookup_fmap. destruct (a !! i) as [n|]; [|done]. intros [= <-].
  unfold len_of. destruct (data_of n); lia.
Qed.

Lemma held_nonneg fs : 0 <= held_bytes fs.
Proof. apply msum_nonneg. intros i l Hl%lens_nonneg. by destruct (live _ _ i). Qed.

Lemma held_ge fs i l :
  lens_of (fs_arcs fs) !! i = Some l -> live (fs_nodes fs) (fs_file_handles fs) i = true -> l <= held_bytes fs.
Proof.
  intros Hl Hi.
  pose proof (msum_ge (fun i l => if live (fs_nodes fs) (fs_file_handles fs) i then l else 0)
                (lens_of (fs_arcs fs)) i l) as Hge.
  cbv beta in Hge. rewrite Hi in Hge. apply Hge; [|done]. intros j l' Hl'%lens_nonneg. by destruct (live _ _ j).
Qed.

(** ** Steps that leave the accounts alone *)

Definition accounts fs : gmap Z Z * gset Z * gmap Z FileHandle * Z * MemFsConfig :=
  (lens_of (fs_arcs fs), fs_nodes fs, fs_file_handles fs, fs_used_bytes fs, fs_cfg fs).

Lemma held_accounts fs fs' :
  lens_of (fs_arcs fs') = lens_of (fs_arcs fs) -> fs_nodes fs' = fs_nodes fs ->
  fs_file_handles fs' = fs_file_handles fs -> held_bytes fs' = held_bytes fs.
Proof. intros Hl Hn Hf. unfold held_bytes. by rewrite Hl, Hn, Hf. Qed.

Lemma space_accounts ex cap fs fs' : accounts fs' = accounts fs -> space_ok ex cap fs -> space_ok ex cap fs'.
Proof.
  unfold accounts. intros [= Hl Hn Hf Hu Hc] [Hcap Hfit Hcov Hex].
  pose proof (held_accounts fs fs' Hl Hn Hf) as Hh. split; rewrite ?Hh, ?Hu, ?Hc; done.
Qed.

Lemma lens_alter a i f : (forall n, len_of (f n) = len_of n) -> lens_of (alter f i a) = lens_of a.
Proof.
  intros Hf. apply map_eq. intros j. unfold lens_of. rewrite !lookup_fmap.
  destruct (decide (j = i)) as [->|]; [|by rewrite lookup_alter_ne].
  rewrite lookup_alter_eq. destruct (a !! i); simpl; by rewrite ?Hf.
Qed.

Lemma accounts_upd fs i f : (forall n, len_of (f n) = len_of n) -> accounts (upd_node fs i f) = accounts fs.
Proof. intros Hf. unfold accounts. simpl. by rewrite lens_alter. Qed.
Lemma accounts_meta fs i f : accounts (upd_meta fs i f) = accounts fs.
Proof. by apply accounts_upd. Qed.
Lemma accounts_add_child fs d n c : accounts (add_child fs d n c) = accounts fs.
Proof. apply accounts_upd. intros node. unfold len_of, data_of. simpl. by destruct (mn_content node). Qed.
Lemma accounts_del_child fs d n : accounts (del_child fs d n) = accounts fs.
Proof. apply accounts_upd. intros node. unfold len_of, data_of. simpl. by destruct (mn_content node). Qed.
Lemma accounts_store_parent fs d p : accounts (store_parent fs d p) = accounts fs.
Proof. apply accounts_upd. intros node. unfold len_of, data_of. simpl. by destruct (mn_content node). Qed.
Lemma accounts_inc_lookup fs i : accounts (inc_lookup fs i) = accounts fs.
Proof. by apply accounts_upd. Qed.
#[export] Hint Rewrite accounts_meta accounts_add_child accounts_del_child accounts_store_parent
  accounts_inc_lookup : accounts.

Lemma accounts_touch_parents fs o d now : accounts (touch_parents fs o d now) = accounts fs.
Proof. unfold touch_parents. case_match; by autorewrite with accounts. Qed.
#[export] Hint Rewrite accounts_touch_parents : accounts.

Lemma accounts_move fs o on d dn s b now : accounts (rename_move fs o on d dn s b now) = accounts fs.
Proof. unfold rename_move. case_match; by autorewrite with accounts. Qed.
Lemma accounts_exchange fs o on d dn s sn t tn now :
  accounts (rename_exchange fs o on d dn s sn t tn now) = accounts fs.
Proof. unfold rename_exchange. repeat case_match; by autorewrite with accounts. Qed.
Lemma accounts_replace fs b d t now : accounts (replace_dest fs b d t now).1 = accounts fs.
Proof. unfold replace_dest. repeat case_match; simpl; by autorewrite with accounts. Qed.
Lemma accounts_lookup agentd fs p n : accounts (lookup agentd fs p n).1 = accounts fs.
Proof. unfold lookup. repeat case_match; simpl; by autorewrite with accounts. Qed.
Lemma accounts_link fs i p n now : accounts (do_link fs i p n now).1 = accounts fs.
Proof. unfold do_link. repeat case_match; simpl; by autorewrite with accounts. Qed.
Lemma accounts_readdirplus_loop agentd fs l : accounts (readdirplus_loop agentd fs l).1 = accounts fs.
Proof.
  revert fs. induction l as [|e l IH]; intros fs; simpl; [done|].
  assert (He : accounts (readdirplus_entry agentd fs e).1 = accounts fs).
  { unfold readdirplus_entry. repeat case_match; simpl; by autorewrite with accounts. }
  destruct (readdirplus_entry agentd fs e) as [fs1 o]. specialize (IH fs1).
  destruct (readdirplus_loop agentd fs1 l). simpl in *. congruence.
Qed.
Lemma accounts_readdir fs i h o : accounts (do_readdir fs i h o).1 = accounts fs.
Proof. unfold do_readdir, handle_snapshot. repeat case_match; simplify_eq; done. Qed.
Lemma accounts_readdirplus agentd fs i h o : accounts (do_readdirplus agentd fs i h o).1 = accounts fs.
Proof.
  unfold do_readdirplus. pose proof (accounts_readdir fs i h o) as Hr.
  destruct (do_readdir fs i h o) as [fs1 [l|e]]; [|done].
  pose proof (accounts_readdirplus_loop agentd fs1 l) as Hl. destruct (readdirplus_loop agentd fs1 l).
  simpl in *. congruence.
Qed.

(** ** Changes of the data *)

Lemma lens_store a i n d d0 :
  a !! i = Some n -> data_of n = Some d0 ->
  lens_of (alter (set_content (set_data d)) i a) = <[i := zlen d]> (lens_of a).
Proof.
  intros Hi Hd. apply map_eq. intros j. unfold lens_of. rewrite lookup_fmap.
  destruct (decide (j = i)) as [->|].
  - rewrite lookup_alter_eq, Hi, lookup_insert_eq. simpl. unfold len_of, data_of in *. simpl.
    by destruct (mn_content n).
  - by rewrite lookup_alter_ne, lookup_insert_ne, lookup_fmap.
Qed.

Lemma deref_data fs i d :
  data_of (deref fs i) = Some d -> exists n, fs_arcs fs !! i = Some n /\ data_of n = Some d.
Proof.
  unfold deref. rewrite lookup_total_alt. destruct (fs_arcs fs !! i) as [n|]; simpl; [eauto | done].
Qed.

Lemma deref_len fs i d : data_of (deref fs i) = Some d -> lens_of (fs_arcs fs) !! i = Some (zlen d).
Proof.
  intros (n & Hn & Hd)%deref_data. unfold lens_of. rewrite lookup_fmap, Hn. simpl. unfold len_of. by rewrite Hd.
Qed.

Definition is_live fs (i : Z) : Prop := live (fs_nodes fs) (fs_file_handles fs) i = true.

Lemma live_table fs i : i ∈ fs_nodes fs -> is_live fs i.
Proof. intros. apply bool_decide_eq_true. by left. Qed.
Lemma live_handle fs h fh : fs_file_handles fs !! h = Some fh -> is_live fs (fh_node fh).
Proof. intros Hh. apply bool_decide_eq_true. right. by exists h, fh. Qed.

Lemma space_store ex cap fs u i d d0 :
  space_ok ex cap fs -> data_of (deref fs i) = Some d0 -> is_live fs i ->
  u = fs_used_bytes fs + (zlen d - zlen d0) -> u <= cap ->
  space_ok ex cap (store_data (with_used_bytes fs u) i d).
Proof.
  intros [Hcap Hfit Hcov Hex] Hd Hlive -> Hle.
  assert (Hh : held_bytes (store_data (with_used_bytes fs (fs_used_bytes fs + (zlen d - zlen d0))) i d)
               = held_bytes fs + (zlen d - zlen d0)).
  { unfold held_bytes, held_in. simpl. destruct (deref_data _ _ _ Hd) as (n & Hn & Hdn).
    rewrite (lens_store _ _ _ _ _ Hn Hdn), msum_insert, (deref_len _ _ _ Hd). simpl.
    unfold is_live in Hlive. rewrite Hlive. lia. }
  split; rewrite ?Hh; simpl; [done | done | lia |]. intros He. rewrite (Hex He). lia.
Qed.

Lemma reserved_space ex cap fs amount u :
  space_ok ex cap fs -> (fits 64 (fs_used_bytes fs) -> reserved fs amount u) ->
  u = fs_used_bytes fs + amount /\ u <= cap.
Proof.
  intros [Hcap Hfit Hcov _] Hr. pose proof (held_nonneg fs).
  unfold reserved in Hr. rewrite Hcap in Hr. destruct Hr as (-> & _ & Hle); [unfold fits; lia|]. lia.
Qed.

(** A release of what a reachable file holds does not wrap. *)
Lemma released ex cap fs i d amount :
  space_ok ex cap fs -> data_of (deref fs i) = Some d -> is_live fs i -> 0 <= amount <= zlen d ->
  release_bytes fs amount = with_used_bytes fs (fs_used_bytes fs - amount).
Proof.
  intros [Hcap Hfit Hcov _] Hd Hlive Ham. pose proof (held_ge _ _ _ (deref_len _ _ _ Hd) Hlive).
  unfold release_bytes. destruct (0 <? amount) eqn:Ha; breflect.
  - rewrite wrap_small; [done|]. unfold fits. lia.
  - replace (fs_used_bytes fs - amount) with (fs_used_bytes fs) by lia. by rewrite with_used_same.
Qed.

Lemma release_store fs i d amount :
  release_bytes (store_data fs i d) amount = store_data (release_bytes fs amount) i d.
Proof. unfold release_bytes. by destruct (0 <? amount). Qed.

Lemma space_meta ex cap fs i f : space_ok ex cap fs -> space_ok ex cap (upd_meta fs i f).
Proof. apply space_accounts, accounts_meta. Qed.

Lemma space_setattr ex cap fs i attr valid ta tm tc :
  space_ok ex cap fs -> space_ok ex cap (do_setattr fs i attr valid ta tm tc).1.
Proof.
  intros Hok. unfold do_setattr. destruct (i =? INIT_INODE); [done|].
  destruct (get_node fs i) as [n|] eqn:Hn; [|done].
  apply get_node_Ok in Hn as [Hlive%live_table _].
  assert (Hr : space_ok ex cap (if v_size valid then setattr_size fs i (st_size attr) else (fs, Ok tt)).1).
  { destruct (v_size valid); [|done]. unfold setattr_size. set (z := st_size attr).
    destruct (data_of (deref fs i)) as [d|] eqn:Hd; [|done].
    destruct (z <? 0) eqn:?; [done|]. destruct (I64_MAX <? z) eqn:?; [done|].
    destruct (z <? zlen d) eqn:?; [|destruct (zlen d <? z) eqn:?]; breflect; simpl.
    - apply space_meta. rewrite release_store, (released ex cap fs i d) by (done || lia).
      eapply space_store; try done; [len | pose proof (sp_covers _ _ _ Hok); lia].
    - destruct (reserve_bytes_cases fs (z - zlen d) ltac:(lia)) as [-> | (u & -> & Hu)]; [done|]. simpl.
      destruct (reserved_space _ _ _ _ _ Hok Hu) as [-> ?]. apply space_meta.
      eapply space_store; try done. rewrite length_resize; lia.
    - by apply space_meta. }
  destruct (if v_size valid then _ else _) as [fs1 [[]|e]]; simpl in *; [by apply space_meta | done].
Qed.

Lemma space_truncate ex cap fs i now :
  space_ok ex cap fs -> is_live fs i -> space_ok ex cap (truncate_on_open fs i now).
Proof.
  intros Hok Hlive. unfold truncate_on_open. destruct (data_of (deref fs i)) as [d|] eqn:Hd; [|done].
  apply space_meta.
  assert (Heq : (if 0 <? zlen d then release_bytes (store_data fs i []) (zlen d) else store_data fs i [])
                = store_data (with_used_bytes fs (fs_used_bytes fs - zlen d)) i []).
  { rewrite <- (released ex cap fs i d (zlen d)) by (done || lia). rewrite <- release_store.
    unfold release_bytes. by destruct (0 <? zlen d). }
  rewrite Heq. pose proof (sp_covers _ _ _ Hok). eapply space_store; try done; simpl; lia.
Qed.

Lemma space_write ex cap fs i h del size offset kp now :
  0 <= offset -> space_ok ex cap fs -> space_ok ex cap (do_write fs i h del size offset kp now).1.
Proof.
  intros Ho Hok. unfold do_write. destruct (i =? INIT_INODE); [done|].
  destruct (fs_file_handles fs !! h) as [fh|] eqn:Hfh; simpl; [|done].
  destruct (data_of (deref fs (fh_node fh))) as [data|] eqn:Hd; [|done].
  destruct (if has_bits _ _ then _ else _); [|done]. destruct del as [buf|]; [|done].
  destruct (zlen buf =? 0); [done|].
  pose proof (write_data_cases fs fh data buf offset kp now Ho) as Hw.
  destruct (write_data fs fh data buf offset kp now) as [fs' [n|e]]; simpl; [|by subst].
  destruct Hw as (_ & _ & u & -> & Hu). destruct (reserved_space _ _ _ _ _ Hok Hu) as [-> ?].
  apply space_meta. eapply space_store; try done. by eapply live_handle.
Qed.

Lemma space_fallocate ex cap fs i h mode offset length :
  0 <= offset -> space_ok ex cap fs -> space_ok ex cap (do_fallocate fs i h mode offset length).1.
Proof.
  intros Ho Hok. unfold do_fallocate. destruct (i =? INIT_INODE); [done|].
  destruct (fs_file_handles fs !! h) as [fh|] eqn:Hfh; simpl; [|done]. apply live_handle in Hfh.
  destruct (negb _); [done|]. destruct (mode =? 0).
  - unfold allocate_range. destruct (checked_add 64 offset length) as [last|] eqn:Hlast; simpl; [|done].
    destruct (I64_MAX <? _) eqn:?; [done|].
    destruct (data_of (deref fs (fh_node fh))) as [d|] eqn:Hd; [|done].
    destruct (zlen d <? _) eqn:?; [|done]. breflect.
    destruct (reserve_bytes_cases fs (last - zlen d) ltac:(lia)) as [-> | (u & -> & Hu)]; simpl; [done|].
    destruct (reserved_space _ _ _ _ _ Hok Hu) as [-> ?]. apply space_meta.
    eapply space_store; try done. rewrite length_resize; lia.
  - destruct (has_bits _ _ && has_bits _ _); [|done]. simpl.
    destruct (data_of (deref fs (fh_node fh))) as [d|] eqn:Hd; [|done].
    revert Hok. apply space_accounts. unfold accounts. simpl. f_equal. f_equal. f_equal. f_equal.
    destruct (deref_data _ _ _ Hd) as (n & Hn & Hdn). rewrite (lens_store _ _ _ _ _ Hn Hdn).
    rewrite length_punch by done. apply insert_id. by apply deref_len.
Qed.

(** ** Changes of the table and the handles *)

Lemma opened_insert hs h fh i : hs !! h = None -> opened (<[h := fh]> hs) i <-> fh_node fh = i \/ opened hs i.
Proof.
  intros Hh. unfold opened, map_Exists. split.
  - intros (k & v & [[<- <-]|[_ Hk]]%lookup_insert_Some & Hi); [by left | right; eauto].
  - intros [Hi | (k & v & Hk & Hi)]; [exists h, fh; by rewrite lookup_insert_eq|].
    exists k, v. rewrite lookup_insert_ne by congruence. done.
Qed.

(** The count of pointers to a node in the handle tables. *)
Lemma handles_on_zero fs i :
  handles_on fs i = 0 <->
  ~ opened (fs_file_handles fs) i /\ forall h dh, fs_dir_handles fs !! h = Some dh -> dh_node dh <> i.
Proof.
  unfold handles_on.
  set (l1 := filter _ (map_to_list (fs_file_handles fs))). set (l2 := filter _ (map_to_list (fs_dir_handles fs))).
  assert (H1 : l1 = [] <-> ~ opened (fs_file_handles fs) i).
  { split.
    - intros Hl (h & fh & Hh & Hi). assert ((h, fh) ∈ l1) as Hin; [|by rewrite Hl in Hin; apply elem_of_nil in Hin].
      apply list_elem_of_filter. split; [done|]. by apply elem_of_map_to_list.
    - intros Hno. destruct l1 as [|[h fh] l] eqn:Hl; [done|]. destruct Hno.
      assert ((h, fh) ∈ l1) as Hin by (rewrite Hl; left). apply list_elem_of_filter in Hin as [Hi Hin].
      apply elem_of_map_to_list in Hin. by exists h, fh. }
  assert (H2 : l2 = [] <-> forall h dh, fs_dir_handles fs !! h = Some dh -> dh_node dh <> i).
  { split.
    - intros Hl h dh Hh Hi. assert ((h, dh) ∈ l2) as Hin; [|by rewrite Hl in Hin; apply elem_of_nil in Hin].
      apply list_elem_of_filter. split; [done|]. by apply elem_of_map_to_list.
    - intros Hno. destruct l2 as [|[h dh] l] eqn:Hl; [done|]. exfalso.
      assert ((h, dh) ∈ l2) as Hin by (rewrite Hl; left). apply list_elem_of_filter in Hin as [Hi Hin].
      apply elem_of_map_to_list in Hin. by apply (Hno h dh). }
  rewrite <- H1, <- H2. destruct l1, l2; simpl; split; try done; try lia; by intros [? ?].
Qed.

(** Directory handles point to directories, and numbers of handles are used
    once. *)
Record handles_ok fs : Prop := mkHandlesOk {
  ho_dirs h dh : fs_dir_handles fs !! h = Some dh -> is_dir (kinds_of (fs_arcs fs)) (dh_node dh) = true;
  ho_fresh h : fs_next_handle fs <= h -> fs_file_handles fs !! h = None }.

Lemma live_evicted tab hs i j : j <> i -> live (tab ∖ {[i]}) hs j = live tab hs j.
Proof. intros Hj. unfold live. apply bool_decide_ext. set_solver. Qed.

Lemma held_evicted fs i l :
  i ∈ fs_nodes fs -> lens_of (fs_arcs fs) !! i = Some l ->
  held_in (lens_of (fs_arcs fs)) (fs_nodes fs ∖ {[i]}) (fs_file_handles fs)
  = held_bytes fs - (if bool_decide (opened (fs_file_handles fs) i) then 0 else l).
Proof.
  intros Hi Hl. unfold held_bytes, held_in.
  rewrite (msum_ext_except (fun i l => if live (fs_nodes fs) (fs_file_handles fs) i then l else 0)
             (fun j l => if live (fs_nodes fs ∖ {[i]}) (fs_file_handles fs) j then l else 0) _ i).
  2:{ intros j l' Hj _. by rewrite live_evicted. }
  rewrite Hl. simpl. unfold live. rewrite (bool_decide_eq_true_2 (i ∈ fs_nodes fs \/ _)) by auto.
  destruct (decide (opened (fs_file_handles fs) i)).
  - rewrite !bool_decide_eq_true_2 by auto. lia.
  - rewrite !bool_decide_eq_false_2 by set_solver. lia.
Qed.

(** No handle and no local pointer keeps an evicted file when its bytes are
    given back. *)
Lemma count_evicted fs held i :
  strong_count (with_nodes fs (fun s => s ∖ {[i]})) (i :: held) i
  = handles_on fs i + 1 + zlen (filter (eq i) held).
Proof.
  unfold strong_count. rewrite bool_decide_eq_false_2 by (simpl; set_solver).
  rewrite filter_cons_True by done. rewrite length_cons.
  change (handles_on (with_nodes fs (fun s => s ∖ {[i]})) i) with (handles_on fs i). lia.
Qed.

Lemma handles_on_nonneg fs i : 0 <= handles_on fs i.
Proof. unfold handles_on. lia. Qed.

Lemma regular_not_dir fs i n d :
  typed_fs fs -> fs_arcs fs !! i = Some n -> data_of n = Some d -> is_dir (kinds_of (fs_arcs fs)) i = false.
Proof.
  intros Hty Hn Hd. rewrite (is_dir_node _ _ _ Hn). destruct (Hty _ _ Hn) as (_ & Hk & _).
  unfold data_of in Hd. destruct (mn_content n); simplify_eq. simpl in Hk. by rewrite Hk.
Qed.

(** A regular file no file handle points to has no pointer in the tables. *)
Lemma unopened_handles fs i n d :
  typed_fs fs -> handles_ok fs -> fs_arcs fs !! i = Some n -> data_of n = Some d ->
  ~ opened (fs_file_handles fs) i -> handles_on fs i = 0.
Proof.
  intros Hty [Hdirs _] Hn Hd Hno. apply handles_on_zero. split; [done|]. intros h dh Hh Hi.
  specialize (Hdirs _ _ Hh). rewrite Hi in Hdirs. by rewrite (regular_not_dir _ _ _ _ Hty Hn Hd) in Hdirs.
Qed.

Lemma filter_not_held (i : Z) held : i ∉ held -> filter (eq i) held = [].
Proof.
  induction held as [|j held IH]; [done|]. intros [? ?]%not_elem_of_cons.
  rewrite filter_cons_False by done. auto.
Qed.

Lemma space_uncount ex cap fs : space_ok ex cap fs -> space_ok ex cap (uncount_inode fs).
Proof. by apply space_accounts. Qed.

Lemma space_evict ex cap fs held i :
  space_ok ex cap fs -> typed_fs fs -> i ∈ fs_nodes fs -> is_Some (fs_arcs fs !! i) ->
  (ex = true -> handles_ok fs /\ (i ∉ held \/ opened (fs_file_handles fs) i \/ len_of (deref fs i) = 0)) ->
  space_ok ex cap (evict_inode fs held i).
Proof.
  intros Hok Hty Hi [n Hn] Hexact. pose proof Hok as [Hcap Hfit Hcov Hex].
  assert (Hder : deref fs i = n) by (unfold deref; by apply lookup_total_correct).
  assert (Hl : lens_of (fs_arcs fs) !! i = Some (len_of n)) by (unfold lens_of; by rewrite lookup_fmap, Hn).
  pose proof (held_evicted fs i _ Hi Hl) as Hheld. pose proof (lens_nonneg _ _ _ Hl) as Hlen.
  pose proof (held_ge _ _ _ Hl (live_table _ _ Hi)) as Hge.
  unfold evict_inode. rewrite bool_decide_eq_true_2, Hder by done. apply space_uncount.
  set (fs1 := with_nodes fs (fun s => s ∖ {[i]})) in *.
  change (held_bytes fs1 = held_bytes fs - (if bool_decide (opened (fs_file_handles fs) i) then 0 else len_of n)) in Hheld.
  assert (Hkeep : (ex = true -> opened (fs_file_handles fs) i \/ len_of n = 0) -> space_ok ex cap fs1).
  { intros Hcase. split; [done | done | rewrite Hheld; simpl; case_bool_decide; lia |].
    intros He. rewrite Hheld. simpl. rewrite (Hex He). destruct (Hcase He); case_bool_decide; tauto || lia. }
  unfold len_of in *. destruct (data_of n) as [d|] eqn:Hd; [|apply Hkeep; auto].
  destruct ((strong_count fs1 (i :: held) i =? 1) && (0 <? zlen d)) eqn:Hone.
  - apply andb_true_iff in Hone as [Hc%Z.eqb_eq Hpos%Z.ltb_lt]. unfold fs1 in Hc. rewrite count_evicted in Hc.
    pose proof (handles_on_nonneg fs i). assert (Hz : handles_on fs i = 0) by lia.
    apply handles_on_zero in Hz as [Hno _]. rewrite bool_decide_eq_false_2 in Hheld by done.
    unfold release_bytes. replace (0 <? zlen d) with true by (symmetry; by apply Z.ltb_lt).
    rewrite wrap_small by (unfold fits; simpl; lia).
    split; simpl; [done | done | change (held_bytes (with_used_bytes fs1 (fs_used_bytes fs - zlen d))) with (held_bytes fs1); lia |].
    intros He. change (held_bytes (with_used_bytes fs1 (fs_used_bytes fs - zlen d))) with (held_bytes fs1).
    rewrite Hheld, (Hex He). lia.
  - apply Hkeep. intros He. destruct (Hexact He) as [Hh Hcase]. rewrite Hder, Hd in Hcase.
    destruct (decide (opened (fs_file_handles fs) i)) as [|Hno]; [by left|]. right.
    pose proof (unopened_handles _ _ _ _ Hty Hh Hn Hd Hno) as Hz.
    destruct Hcase as [Hnh | [?|?]]; [|done|done].
    apply andb_false_iff in Hone as [Hc%Z.eqb_neq | Hpos%Z.ltb_ge]; [|lia].
    unfold fs1 in Hc. rewrite count_evicted, Hz in Hc. destruct Hc.
    by rewrite filter_not_held.
Qed.

Lemma unreferenced_live fs i : unreferenced fs i = true -> i ∈ fs_nodes fs /\ is_Some (fs_arcs fs !! i).
Proof.
  unfold unreferenced. destruct (get_node fs i) as [n|] eqn:Hn; [|done].
  apply get_node_Ok in Hn as [? ?]. eauto.
Qed.

Lemma space_try_evict ex cap fs held i :
  space_ok ex cap fs -> typed_fs fs ->
  (ex = true -> unreferenced fs i = true ->
   handles_ok fs /\ (i ∉ held \/ opened (fs_file_handles fs) i \/ len_of (deref fs i) = 0)) ->
  space_ok ex cap (try_evict fs held i).
Proof.
  intros Hok Hty Hex. unfold try_evict. destruct (unreferenced fs i) eqn:Hu; [|done].
  destruct (unreferenced_live _ _ Hu). apply space_evict; auto.
Qed.

Lemma handles_upd fs i f :
  (forall n, mn_kind (f n) = mn_kind n) -> handles_ok fs -> handles_ok (upd_node fs i f).
Proof. intros Hf [Hd Hfr]. split; [|done]. simpl. by rewrite kinds_alter. Qed.

Lemma space_forget_one ex cap fs i count :
  space_ok ex cap fs -> typed_fs fs -> (ex = true -> handles_ok fs) -> space_ok ex cap (forget_one fs [] i count).
Proof.
  intros Hok Hty Hh. unfold forget_one. destruct (get_node fs i) as [n|]; [|done].
  set (fs1 := if mn_lookup_refs n <? count then _ else _).
  assert (Hfs1 : space_ok ex cap fs1 /\ typed_fs fs1 /\ (ex = true -> handles_ok fs1)).
  { assert (Hs : forall f fs0, space_ok ex cap fs0 /\ typed_fs fs0 /\ (ex = true -> handles_ok fs0) ->
             space_ok ex cap (upd_node fs0 i (set_refs f)) /\ typed_fs (upd_node fs0 i (set_refs f))
             /\ (ex = true -> handles_ok (upd_node fs0 i (set_refs f)))).
    { intros f fs0 (H1 & H2 & H3). split_and!.
      - revert H1. apply space_accounts. by apply accounts_upd.
      - apply typed_upd; auto with memfs.
      - intros He. apply handles_upd; auto. }
    unfold fs1. case_match; auto. }
  destruct Hfs1 as (Hok1 & Hty1 & Hh1). destruct (unreferenced fs1 i) eqn:Hu; [|done].
  destruct (unreferenced_live _ _ Hu). apply space_evict; auto. intros He. split; [auto|]. left. set_solver.
Qed.

(** A handle that leaves: only its file can stop being reachable. *)
Lemma held_closed fs h fh :
  fs_file_handles fs !! h = Some fh ->
  let hs := delete h (fs_file_handles fs) in
  let i := fh_node fh in
  held_in (lens_of (fs_arcs fs)) (fs_nodes fs) hs
  = held_bytes fs - (if live (fs_nodes fs) hs i then 0 else default 0 (lens_of (fs_arcs fs) !! i)).
Proof.
  intros Hh hs i. unfold held_bytes, held_in.
  rewrite (msum_ext_except (fun i l => if live (fs_nodes fs) (fs_file_handles fs) i then l else 0)
             (fun j l => if live (fs_nodes fs) hs j then l else 0) _ i).
  - pose proof (live_handle _ _ _ Hh) as Hl. unfold is_live in Hl. fold i in Hl.
    destruct (lens_of (fs_arcs fs) !! i); simpl; rewrite ?Hl; destruct (live _ hs i); lia.
  - intros j l Hj _. assert (live (fs_nodes fs) hs j = live (fs_nodes fs) (fs_file_handles fs) j) as ->; [|done].
    unfold live. apply bool_decide_ext. apply or_iff_compat_l. unfold opened, map_Exists. split.
    + intros (k & v & [? ?]%lookup_delete_Some & ?). eauto.
    + intros (k & v & Hk & Hv). exists k, v. unfold hs. rewrite lookup_delete_ne; [done|].
      intros ->. apply Hj. unfold i. congruence.
Qed.

Lemma regular_kind fs j d : typed_fs fs -> data_of (deref fs j) = Some d -> mn_kind (deref fs j) = MODE_REG.
Proof.
  intros Hty Hd. destruct (deref_data _ _ _ Hd) as (n & Hn & Hdn). unfold deref.
  rewrite (lookup_total_correct _ _ _ Hn). destruct (Hty _ _ Hn) as (_ & Hk & _).
  unfold data_of in Hdn. by destruct (mn_content n).
Qed.

(** The last pointer to a file is the one the caller holds exactly when
    neither the table nor an open handle reaches it. *)
Lemma count_one fs j :
  strong_count fs [j] j = (if bool_decide (j ∈ fs_nodes fs) then 1 else 0) + handles_on fs j + 1.
Proof. unfold strong_count. by rewrite filter_cons_True by done. Qed.

Lemma count_dead fs j : strong_count fs [j] j = 1 -> live (fs_nodes fs) (fs_file_handles fs) j = false.
Proof.
  rewrite count_one. intros Hc. pose proof (handles_on_nonneg fs j).
  destruct (bool_decide (j ∈ fs_nodes fs)) eqn:Hin; [lia|]. apply bool_decide_eq_false in Hin.
  assert (Hz : handles_on fs j = 0) by lia. apply handles_on_zero in Hz as [Hno _].
  apply bool_decide_eq_false. tauto.
Qed.

Lemma count_live fs j d :
  typed_fs fs -> handles_ok fs -> data_of (deref fs j) = Some d -> strong_count fs [j] j <> 1 ->
  live (fs_nodes fs) (fs_file_handles fs) j = true.
Proof.
  rewrite count_one. intros Hty Hh Hd Hc. destruct (deref_data _ _ _ Hd) as (n & Hn & Hdn). apply bool_decide_eq_true.
  destruct (decide (j ∈ fs_nodes fs)) as [|Hin]; [by left|]. right.
  destruct (decide (opened (fs_file_handles fs) j)) as [|Hno]; [done|].
  rewrite bool_decide_eq_false_2 in Hc by done. destruct Hc. by rewrite (unopened_handles fs j n d Hty Hh Hn Hdn Hno).
Qed.

(** Closing a handle keeps the accounts when its file stays reachable or holds
    nothing. *)
Lemma space_closed ex cap fs h fh :
  space_ok ex cap fs -> fs_file_handles fs !! h = Some fh ->
  let fs1 := with_file_handles fs (delete h) in
  (ex = true -> live (fs_nodes fs1) (fs_file_handles fs1) (fh_node fh) = true
                \/ default 0 (lens_of (fs_arcs fs) !! fh_node fh) = 0) -> space_ok ex cap fs1.
Proof.
  intros [Hcap Hfit Hcov Hex] Hfh fs1 Hcase. pose proof (held_closed fs h fh Hfh) as Hheld. cbv zeta in Hheld.
  change (held_in _ _ _) with (held_bytes fs1) in Hheld.
  change (live (fs_nodes fs) (delete h (fs_file_handles fs)) (fh_node fh))
    with (live (fs_nodes fs1) (fs_file_handles fs1) (fh_node fh)) in Hheld.
  assert (Hlen : 0 <= default 0 (lens_of (fs_arcs fs) !! fh_node fh)).
  { destruct (lens_of (fs_arcs fs) !! fh_node fh) eqn:Hl; [|done]. by apply lens_nonneg in Hl. }
  change (fs_used_bytes fs) with (fs_used_bytes fs1) in Hcov, Hex.
  split; [done | done | rewrite Hheld; case_match; lia |].
  intros He. rewrite Hheld, (Hex He). destruct (Hcase He) as [-> | ->]; [lia|]. case_match; lia.
Qed.

Lemma space_release ex cap fs i h :
  space_ok ex cap fs -> typed_fs fs -> (ex = true -> handles_ok fs) -> space_ok ex cap (do_release fs i h).1.
Proof.
  intros Hok Hty Hh. unfold do_release. destruct (i =? INIT_INODE); [done|].
  destruct (fs_file_handles fs !! h) as [fh|] eqn:Hfh; [|done]. cbn [fst].
  pose proof (held_closed fs h fh Hfh) as Hheld. cbv zeta in Hheld.
  pose proof (space_closed ex cap fs h fh Hok Hfh) as Hkeep. cbv zeta in Hkeep.
  set (fs1 := with_file_handles fs (delete h)) in *. set (j := fh_node fh) in *.
  change (held_in _ _ _) with (held_bytes fs1) in Hheld. change (deref fs1 j) with (deref fs j).
  change (live (fs_nodes fs) (delete h (fs_file_handles fs)) j) with (live (fs_nodes fs1) (fs_file_handles fs1) j) in Hheld.
  destruct (data_of (deref fs j)) as [d|] eqn:Hd.
  2:{ apply Hkeep. intros _. right. unfold lens_of. rewrite lookup_fmap.
      unfold deref in Hd. rewrite lookup_total_alt in Hd. destruct (fs_arcs fs !! j); simpl in *; [|done].
      unfold len_of. by rewrite Hd. }
  rewrite (deref_len _ _ _ Hd) in *. change (default 0 (Some (zlen d))) with (zlen d) in *.
  pose proof (held_ge _ _ _ (deref_len _ _ _ Hd) (live_handle _ _ _ Hfh)) as Hge.
  rewrite (regular_kind _ _ _ Hty Hd), Z.eqb_refl. cbn [andb].
  destruct ((strong_count fs1 [j] j =? 1) && (0 <? zlen d)) eqn:Hone.
  - apply andb_true_iff in Hone as [Hc%Z.eqb_eq Hpos]. rewrite (count_dead _ _ Hc) in Hheld.
    destruct Hok as [Hcap Hfit Hcov Hex]. unfold release_bytes. rewrite Hpos.
    rewrite wrap_small by (unfold fits; simpl; lia).
    assert (Hh1 : held_bytes (with_used_bytes fs1 (fs_used_bytes fs1 - zlen d)) = held_bytes fs - zlen d) by done.
    split; rewrite ?Hh1; simpl; [done | done | lia |]. intros He. rewrite (Hex He). lia.
  - apply Hkeep. intros He. apply andb_false_iff in Hone as [Hc%Z.eqb_neq | Hpos%Z.ltb_ge]; [|right; lia].
    left. apply (count_live fs1 j d); [done | | done | done].
    destruct (Hh He) as [Hdirs Hfresh]. split; [done|]. intros k Hk. simpl. apply lookup_delete_None.
    right. by apply Hfresh.
Qed.

Lemma space_register ex cap fs node :
  space_ok ex cap fs -> fs_arcs fs !! mn_inode node = None -> len_of node = 0 ->
  space_ok ex cap (register fs node).
Proof.
  intros [Hcap Hfit Hcov Hex] Hnew Hlen. set (i := mn_inode node) in *.
  assert (Hl : lens_of (fs_arcs fs) !! i = None) by (unfold lens_of; by rewrite lookup_fmap, Hnew).
  assert (Hh : held_bytes (register fs node) = held_bytes fs).
  { unfold held_bytes, held_in. simpl. fold i. unfold lens_of at 1. rewrite fmap_insert, Hlen.
    fold (lens_of (fs_arcs fs)). rewrite msum_insert_new by done.
    rewrite (msum_ext _ (fun j l => if live (fs_nodes fs) (fs_file_handles fs) j then l else 0)); [by case_match|].
    intros j l Hj. assert (j <> i) by congruence.
    assert (live ({[i]} ∪ fs_nodes fs) (fs_file_handles fs) j = live (fs_nodes fs) (fs_file_handles fs) j) as ->; [|done].
    unfold live. apply bool_decide_ext. set_solver. }
  split; rewrite ?Hh; done.
Qed.

Lemma space_add_handle ex cap fs fh :
  space_ok ex cap fs -> fh_node fh ∈ fs_nodes fs -> fs_file_handles fs !! fs_next_handle fs = None ->
  space_ok ex cap (add_file_handle fs fh).1.
Proof.
  intros [Hcap Hfit Hcov Hex] Hin Hfresh.
  assert (Hh : held_bytes (add_file_handle fs fh).1 = held_bytes fs).
  { unfold held_bytes, held_in. simpl. apply msum_ext. intros j l _.
    assert (live (fs_nodes fs) (<[fs_next_handle fs := fh]> (fs_file_handles fs)) j
            = live (fs_nodes fs) (fs_file_handles fs) j) as ->; [|done].
    unfold live. apply bool_decide_ext. rewrite opened_insert by done. naive_solver. }
  split; rewrite ?Hh; done.
Qed.

Lemma space_begin ex cap fs p n : space_ok ex cap fs -> space_ok ex cap (begin_create fs p n).1.
Proof.
  intros Hok. pose proof (begin_create_cases fs p n) as Hc.
  destruct (begin_create fs p n) as [fs1 [i|e]]; [|by subst].
  destruct Hc as (_ & _ & -> & _). revert Hok. by apply space_accounts.
Qed.

Lemma space_insert_node ex cap fs p n node f :
  space_ok ex cap fs -> fs_arcs fs !! mn_inode node = None -> len_of node = 0 ->
  space_ok ex cap (insert_node fs p n node f).1.
Proof.
  intros Hok Hnew Hlen. pose proof (insert_node_cases fs p n node f) as Hc.
  destruct (insert_node fs p n node f) as [fs1 [u|e]]; [|subst; by apply space_uncount].
  destruct Hc as [(ch & Hch & _) ->]. apply space_register; [| |done].
  - apply space_meta. revert Hok. apply space_accounts, accounts_add_child.
  - destruct (deref_children _ _ _ Hch) as (pn & Hp & _). simpl.
    rewrite !lookup_alter_ne by congruence. done.
Qed.

(** A creating operation that ends with the registration of an empty node. *)
Lemma space_created ex cap b fs p n fs1 node f :
  space_ok ex cap fs -> tree_inv b fs -> b < max_bound -> begin_create fs p n = (fs1, Ok (mn_inode node)) ->
  len_of node = 0 -> space_ok ex cap (insert_node fs1 p n node f).1.
Proof.
  intros Hok Hinv Hb Hbc Hlen. destruct (begin_create_inv _ _ _ _ _ _ Hinv Hb Hbc) as (_ & Hi & Harcs & _).
  apply space_insert_node; [|rewrite Harcs | done].
  - pose proof (space_begin ex cap fs p n Hok) as Hs. by rewrite Hbc in Hs.
  - destruct (fs_arcs fs !! mn_inode node) eqn:Hn; [|done].
    destruct (ti_fresh _ _ Hinv (mn_inode node) ltac:(eauto)). lia.
Qed.

Lemma space_mkdir ex cap b fs ctx p n mode umask now :
  space_ok ex cap fs -> tree_inv b fs -> b < max_bound ->
  space_ok ex cap (do_mkdir fs ctx p n mode umask now).1.
Proof.
  intros Hok Hinv Hb. pose proof (space_begin ex cap fs p n Hok) as Hs. unfold do_mkdir.
  destruct (begin_create fs p n) as [fs1 [i|e]] eqn:Hbc; [|done]. set (node := mkNode i _ _ _ _ _).
  set (f := fun m => touch now _).
  pose proof (space_created ex cap b fs p n fs1 node f Hok Hinv Hb Hbc eq_refl) as Hc.
  by destruct (insert_node fs1 p n node f) as [fs2 [[]|e]].
Qed.

Lemma mknod_content_empty t k c : mknod_content t = Some (k, c) -> c = RegularFile [] \/ c = Special.
Proof. unfold mknod_content. repeat case_match; intros [= <- <-]; auto. Qed.

Lemma space_mknod ex cap b fs ctx p n mode rdev umask now :
  space_ok ex cap fs -> tree_inv b fs -> b < max_bound ->
  space_ok ex cap (do_mknod fs ctx p n mode rdev umask now).1.
Proof.
  intros Hok Hinv Hb. pose proof (space_begin ex cap fs p n Hok) as Hs. unfold do_mknod.
  destruct (begin_create fs p n) as [fs1 [i|e]] eqn:Hbc; [|done].
  destruct (mknod_content _) as [[k c]|] eqn:Hk; [|by apply space_uncount].
  set (node := mkNode i _ _ _ _ _).
  assert (Hlen : len_of node = 0) by (destruct (mknod_content_empty _ _ _ Hk); by subst).
  pose proof (space_created ex cap b fs p n fs1 node (touch now) Hok Hinv Hb Hbc Hlen) as Hc.
  by destruct (insert_node fs1 p n node (touch now)) as [fs2 [[]|e]].
Qed.

Lemma space_symlink ex cap b fs ctx target p n now :
  space_ok ex cap fs -> tree_inv b fs -> b < max_bound ->
  space_ok ex cap (do_symlink fs ctx target p n now).1.
Proof.
  intros Hok Hinv Hb. pose proof (space_begin ex cap fs p n Hok) as Hs. unfold do_symlink.
  destruct (begin_create fs p n) as [fs1 [i|e]] eqn:Hbc; [|done]. set (node := mkNode i _ _ _ _ _).
  pose proof (space_created ex cap b fs p n fs1 node (touch now) Hok Hinv Hb Hbc eq_refl) as Hc.
  by destruct (insert_node fs1 p n node (touch now)) as [fs2 [[]|e]].
Qed.

Lemma space_create ex cap b fs ctx p n mode flags umask now :
  space_ok ex cap fs -> tree_inv b fs -> b < max_bound -> handles_ok fs ->
  space_ok ex cap (do_create fs ctx p n mode flags umask now).1.
Proof.
  intros Hok Hinv Hb Hh. pose proof (space_begin ex cap fs p n Hok) as Hs. unfold do_create.
  pose proof (begin_create_cases fs p n) as Hbc0.
  destruct (begin_create fs p n) as [fs1 [i|e]] eqn:Hbc; [|done]. set (node := mkNode i _ _ _ _ _).
  pose proof (space_created ex cap b fs p n fs1 node (touch now) Hok Hinv Hb Hbc eq_refl) as Hc.
  pose proof (insert_node_cases fs1 p n node (touch now)) as Hins.
  destruct (insert_node fs1 p n node (touch now)) as [fs2 [[]|e]]; [|done].
  destruct Hins as [_ ->]. apply (space_add_handle ex cap _ (mkFileHandle i _)); [done | simpl; set_solver|].
  destruct Hbc0 as (_ & _ & -> & _). simpl. by apply Hh.
Qed.

Lemma space_open ex cap fs i kp flags now now' :
  space_ok ex cap fs -> handles_ok fs -> space_ok ex cap (do_open fs i kp flags now now').1.
Proof.
  intros Hok Hh. unfold do_open. destruct (i =? INIT_INODE); [done|].
  destruct (get_node fs i) as [n|] eqn:Hn; [|done]. destruct (mn_kind n =? _); [done|].
  apply get_node_Ok in Hn as [Hin _].
  set (fs1 := if has_bits _ GUEST_O_TRUNC then truncate_on_open fs i now else fs).
  assert (H1 : space_ok ex cap fs1 /\ fs_nodes fs1 = fs_nodes fs /\ fs_file_handles fs1 = fs_file_handles fs
               /\ fs_next_handle fs1 = fs_next_handle fs).
  { unfold fs1. case_match; [|done]. split; [apply space_truncate; [done | by apply live_table]|].
    unfold truncate_on_open, release_bytes. repeat case_match; done. }
  destruct H1 as (H1 & Htab & Hfh & Hnext).
  set (fs2 := if kp && _ then _ else _).
  assert (H2 : space_ok ex cap fs2 /\ fs_nodes fs2 = fs_nodes fs /\ fs_file_handles fs2 = fs_file_handles fs
               /\ fs_next_handle fs2 = fs_next_handle fs).
  { unfold fs2. case_match; [split; [by apply space_meta | done] | done]. }
  destruct H2 as (H2 & Htab2 & Hfh2 & Hnext2).
  apply (space_add_handle ex cap fs2 (mkFileHandle i _) H2).
  - simpl. by rewrite Htab2.
  - rewrite Hfh2, Hnext2. by apply Hh.
Qed.

(** ** Kinds are stable *)

Lemma kinds_upd fs i f :
  (forall n, mn_kind (f n) = mn_kind n) -> kinds_of (fs_arcs (upd_node fs i f)) = kinds_of (fs_arcs fs).
Proof. apply kinds_alter. Qed.
Lemma kinds_meta fs i f : kinds_of (fs_arcs (upd_meta fs i f)) = kinds_of (fs_arcs fs).
Proof. by apply kinds_upd. Qed.
Lemma kinds_add_child fs d n c : kinds_of (fs_arcs (add_child fs d n c)) = kinds_of (fs_arcs fs).
Proof. by apply kinds_upd. Qed.
Lemma kinds_del_child fs d n : kinds_of (fs_arcs (del_child fs d n)) = kinds_of (fs_arcs fs).
Proof. by apply kinds_upd. Qed.
Lemma kinds_store_parent fs d p : kinds_of (fs_arcs (store_parent fs d p)) = kinds_of (fs_arcs fs).
Proof. by apply kinds_upd. Qed.
Lemma kinds_inc_lookup fs i : kinds_of (fs_arcs (inc_lookup fs i)) = kinds_of (fs_arcs fs).
Proof. by apply kinds_upd. Qed.
Lemma kinds_try_evict fs held i : kinds_of (fs_arcs (try_evict fs held i)) = kinds_of (fs_arcs fs).
Proof. by rewrite arcs_try_evict. Qed.
#[export] Hint Rewrite kinds_meta kinds_add_child kinds_del_child kinds_store_parent kinds_inc_lookup
  kinds_try_evict : kinds.

Lemma kinds_touch_parents fs o d now : kinds_of (fs_arcs (touch_parents fs o d now)) = kinds_of (fs_arcs fs).
Proof. unfold touch_parents. case_match; by autorewrite with kinds. Qed.
#[export] Hint Rewrite kinds_touch_parents : kinds.
Lemma kinds_move fs o on d dn s b now :
  kinds_of (fs_arcs (rename_move fs o on d dn s b now)) = kinds_of (fs_arcs fs).
Proof. unfold rename_move. case_match; by autorewrite with kinds. Qed.
Lemma kinds_replace fs b d t now : kinds_of (fs_arcs (replace_dest fs b d t now).1) = kinds_of (fs_arcs fs).
Proof. unfold replace_dest. repeat case_match; cbn [fst]; by autorewrite with kinds. Qed.
Lemma kinds_exchange fs o on d dn s sn t tn now :
  kinds_of (fs_arcs (rename_exchange fs o on d dn s sn t tn now)) = kinds_of (fs_arcs fs).
Proof. unfold rename_exchange. repeat case_match; by autorewrite with kinds. Qed.

Lemma kinds_unlink fs p n now : kinds_of (fs_arcs (do_unlink fs p n now).1) = kinds_of (fs_arcs fs).
Proof. unfold do_unlink. repeat case_match; cbn [fst]; by autorewrite with kinds. Qed.
Lemma kinds_rmdir fs p n now : kinds_of (fs_arcs (do_rmdir fs p n now).1) = kinds_of (fs_arcs fs).
Proof. unfold do_rmdir. repeat case_match; cbn [fst]; by autorewrite with kinds. Qed.
Lemma kinds_link fs i p n now : kinds_of (fs_arcs (do_link fs i p n now).1) = kinds_of (fs_arcs fs).
Proof. unfold do_link. repeat case_match; cbn [fst]; by autorewrite with kinds. Qed.

Lemma kinds_rename fs o on d dn flags now :
  kinds_of (fs_arcs (do_rename fs o on d dn flags now).1) = kinds_of (fs_arcs fs).
Proof.
  pose proof (do_rename_cases fs o on d dn flags now) as Hc.
  destruct (do_rename fs o on d dn flags now) as [fs' [[]|e]]; cbn [fst]; [|by subst].
  destruct Hc as [ | | |?????????? Hr]; rewrite ?kinds_exchange, ?kinds_try_evict, ?kinds_move; try done.
  rewrite <- (kinds_replace fs (mn_kind sn =? MODE_DIR) d t now).
  by destruct (replace_dest fs _ d t now); simplify_eq.
Qed.

(** Only the handle operations touch the handle tables. *)
Definition handle_tables fs : gmap Z FileHandle * gmap Z DirHandle * Z :=
  (fs_file_handles fs, fs_dir_handles fs, fs_next_handle fs).

Lemma handles_same fs fs' :
  handle_tables fs' = handle_tables fs -> kinds_of (fs_arcs fs) ⊆ kinds_of (fs_arcs fs') ->
  handles_ok fs -> handles_ok fs'.
Proof.
  unfold handle_tables. intros [= Hf Hd Hn] Hk [Hdirs Hfresh]. split.
  - rewrite Hd. intros h dh Hh. specialize (Hdirs h dh Hh). unfold is_dir in *.
    apply bool_decide_eq_true in Hdirs. apply bool_decide_eq_true. by eapply lookup_weaken.
  - by rewrite Hf, Hn.
Qed.

Lemma tables_evict fs held i : handle_tables (evict_inode fs held i) = handle_tables fs.
Proof. unfold evict_inode, release_bytes. repeat case_match; done. Qed.
Lemma tables_try_evict fs held i : handle_tables (try_evict fs held i) = handle_tables fs.
Proof. unfold try_evict. case_match; [apply tables_evict | done]. Qed.
Lemma tables_forget fs i count : handle_tables (forget fs i count) = handle_tables fs.
Proof. unfold forget, forget_one. repeat case_match; by rewrite ?tables_evict. Qed.
Lemma tables_batch_forget fs l : handle_tables (batch_forget fs l) = handle_tables fs.
Proof.
  unfold batch_forget. revert fs. induction l as [|r l IH]; intros fs; simpl; [done|].
  by rewrite IH, tables_forget.
Qed.
Lemma tables_release_bytes fs n : handle_tables (release_bytes fs n) = handle_tables fs.
Proof. unfold release_bytes. by case_match. Qed.
Lemma tables_reserve fs n : handle_tables (reserve_bytes fs n).1 = handle_tables fs.
Proof. unfold reserve_bytes. repeat case_match; done. Qed.

Lemma tables_begin fs p n : handle_tables (begin_create fs p n).1 = handle_tables fs.
Proof. unfold begin_create, alloc_inode. repeat case_match; done. Qed.
Lemma tables_insert_node fs p n node f : handle_tables (insert_node fs p n node f).1 = handle_tables fs.
Proof.
  pose proof (insert_node_cases fs p n node f) as Hc.
  destruct (insert_node fs p n node f) as [fs1 [u|e]]; [by destruct Hc as [_ ->] | by subst].
Qed.

(** The creating operations, as one state change. *)
Lemma tables_symlink fs ctx target p n now : handle_tables (do_symlink fs ctx target p n now).1 = handle_tables fs.
Proof.
  unfold do_symlink. rewrite <- (tables_begin fs p n). destruct (begin_create fs p n) as [fs1 [i|e]]; [|done].
  set (node := mkNode i _ _ _ _ _). cbn [fst]. rewrite <- (tables_insert_node fs1 p n node (touch now)).
  by destruct (insert_node fs1 p n node (touch now)) as [fs2 [[]|e]].
Qed.
Lemma tables_mknod fs ctx p n mode rdev umask now :
  handle_tables (do_mknod fs ctx p n mode rdev umask now).1 = handle_tables fs.
Proof.
  unfold do_mknod. rewrite <- (tables_begin fs p n). destruct (begin_create fs p n) as [fs1 [i|e]]; [|done].
  destruct (mknod_content _) as [[k c]|]; [|done].
  set (node := mkNode i _ _ _ _ _). cbn [fst]. rewrite <- (tables_insert_node fs1 p n node (touch now)).
  by destruct (insert_node fs1 p n node (touch now)) as [fs2 [[]|e]].
Qed.
Lemma tables_mkdir fs ctx p n mode umask now :
  handle_tables (do_mkdir fs ctx p n mode umask now).1 = handle_tables fs.
Proof.
  unfold do_mkdir. rewrite <- (tables_begin fs p n). destruct (begin_create fs p n) as [fs1 [i|e]]; [|done].
  set (node := mkNode i _ _ _ _ _). set (f := fun m => touch now _). cbn [fst].
  rewrite <- (tables_insert_node fs1 p n node f). by destruct (insert_node fs1 p n node f) as [fs2 [[]|e]].
Qed.

Lemma tables_rename fs o on d dn flags now : handle_tables (do_rename fs o on d dn flags now).1 = handle_tables fs.
Proof.
  assert (Hm : forall fs o on d dn s b now, handle_tables (rename_move fs o on d dn s b now) = handle_tables fs).
  { intros. unfold rename_move, touch_parents. repeat case_match; done. }
  pose proof (do_rename_cases fs o on d dn flags now) as Hc.
  destruct (do_rename fs o on d dn flags now) as [fs' [[]|e]]; cbn [fst]; [|by subst].
  destruct Hc as [ | | |?????????? Hr]; rewrite ?tables_try_evict, ?Hm; try done.
  - unfold rename_exchange, touch_parents. repeat case_match; done.
  - unfold replace_dest in *. repeat case_match; simplify_eq; done.
Qed.

Lemma tables_setattr fs i attr valid ta tm tc :
  handle_tables (do_setattr fs i attr valid ta tm tc).1 = handle_tables fs.
Proof. unfold do_setattr, setattr_size, release_bytes, reserve_bytes. repeat case_match; simplify_eq; done. Qed.
Lemma tables_write fs i h del size offset kp now :
  handle_tables (do_write fs i h del size offset kp now).1 = handle_tables fs.
Proof. unfold do_write, write_data, reserve_bytes. repeat case_match; simplify_eq; done. Qed.
Lemma tables_fallocate fs i h mode offset length :
  handle_tables (do_fallocate fs i h mode offset length).1 = handle_tables fs.
Proof. unfold do_fallocate, allocate_range, reserve_bytes. repeat case_match; simplify_eq; done. Qed.

(** The kinds after a request extend those before. *)
Lemma kinds_created b fs fs1 fs2 p n node f r :
  tree_inv b fs -> b < max_bound -> begin_create fs p n = (fs1, Ok (mn_inode node)) ->
  insert_node fs1 p n node f = (fs2, r) -> kinds_of (fs_arcs fs) ⊆ kinds_of (fs_arcs fs2).
Proof.
  intros Hinv Hb Hbc Hins. destruct (begin_create_inv _ _ _ _ _ _ Hinv Hb Hbc) as (_ & Hi & Harcs & _).
  pose proof (insert_node_cases fs1 p n node f) as Hc. rewrite Hins in Hc. rewrite <- Harcs.
  destruct r as [[]|e]; [|by subst]. destruct Hc as [_ ->]. simpl. unfold kinds_of at 2. rewrite fmap_insert.
  fold (kinds_of (alter (set_meta f) p (alter (set_content (set_children <[n := mn_inode node]>)) p (fs_arcs fs1)))).
  rewrite !kinds_alter by done. apply insert_subseteq. unfold kinds_of. rewrite lookup_fmap, Harcs.
  destruct (fs_arcs fs !! mn_inode node) eqn:Hn; [|done].
  destruct (ti_fresh _ _ Hinv (mn_inode node) ltac:(eauto)). lia.
Qed.

Lemma kinds_same fs fs' : same_tree fs fs' -> kinds_of (fs_arcs fs) ⊆ kinds_of (fs_arcs fs').
Proof. by intros ([= _ -> _ _] & _). Qed.

Lemma kinds_step agentd b fs o :
  tree_inv b fs -> b < max_bound -> op_fits o -> kinds_of (fs_arcs fs) ⊆ kinds_of (fs_arcs (apply_op agentd fs o).1).
Proof.
  intros Hinv Hb Hfit.
  assert (Hbegin : forall p n fs1 e, begin_create fs p n = (fs1, Err e) -> fs1 = fs).
  { intros p n fs1 e Hbc. pose proof (begin_create_cases fs p n) as Hc. by rewrite Hbc in Hc. }
  destruct o; cbn [apply_op outcome fst];
    try (by rewrite ?kinds_unlink, ?kinds_rmdir, ?kinds_rename, ?kinds_link);
    try (apply kinds_same; by eauto using same_tree_lookup, same_tree_setattr, same_tree_open,
           same_tree_fallocate, same_tree_release_handle, same_tree_readdir, same_tree_readdirplus).
  - unfold init. by case_match.
  - destruct (forget_inv b fs ino count Hb Hinv) as [_ [= _ -> _ _]]. done.
  - destruct (batch_forget_inv b fs requests Hb Hinv) as [_ [= _ -> _ _]]. done.
  - unfold do_symlink. destruct (begin_create fs parent n) as [fs1 [i|e]] eqn:Hbc; [|by rewrite (Hbegin _ _ _ _ Hbc)].
    set (node := mkNode i _ _ _ _ _). destruct (insert_node fs1 parent n node (touch now)) as [fs2 r] eqn:Hins.
    pose proof (kinds_created _ _ _ _ _ _ node _ _ Hinv Hb Hbc Hins). by destruct r as [[]|e].
  - unfold do_mknod. destruct (begin_create fs parent n) as [fs1 [i|e]] eqn:Hbc; [|by rewrite (Hbegin _ _ _ _ Hbc)].
    destruct (mknod_content _) as [[k c]|].
    2:{ destruct (begin_create_inv _ _ _ _ _ _ Hinv Hb Hbc) as (_ & _ & Harcs & _). simpl. by rewrite Harcs. }
    set (node := mkNode i _ _ _ _ _). destruct (insert_node fs1 parent n node (touch now)) as [fs2 r] eqn:Hins.
    pose proof (kinds_created _ _ _ _ _ _ node _ _ Hinv Hb Hbc Hins). by destruct r as [[]|e].
  - unfold do_mkdir. destruct (begin_create fs parent n) as [fs1 [i|e]] eqn:Hbc; [|by rewrite (Hbegin _ _ _ _ Hbc)].
    set (node := mkNode i _ _ _ _ _). set (f := fun m => touch now _).
    destruct (insert_node fs1 parent n node f) as [fs2 r] eqn:Hins.
    pose proof (kinds_created _ _ _ _ _ _ node _ _ Hinv Hb Hbc Hins). by destruct r as [[]|e].
  - unfold do_create. destruct (begin_create fs parent n) as [fs1 [i|e]] eqn:Hbc; [|by rewrite (Hbegin _ _ _ _ Hbc)].
    set (node := mkNode i _ _ _ _ _). destruct (insert_node fs1 parent n node (touch now)) as [fs2 r] eqn:Hins.
    pose proof (kinds_created _ _ _ _ _ _ node _ _ Hinv Hb Hbc Hins). by destruct r as [[]|e].
  - destruct Hfit as (_ & [? _] & _). apply kinds_same. by apply same_tree_write.
  - unfold do_setxattr. repeat case_match; cbn [fst]; try done. by rewrite kinds_upd.
  - unfold do_removexattr. repeat case_match; cbn [fst]; try done. by rewrite kinds_upd.
  - by rewrite arcs_opendir.
Qed.

(** ** All requests *)

(** The handle numbers stay below [bound]. *)
Record handle_inv (bound : Z) fs : Prop := mkHandleInv {
  hi_ok : handles_ok fs; hi_next : 1 <= fs_next_handle fs <= bound + 1 }.

Lemma handle_inv_keep b fs fs' :
  handle_tables fs' = handle_tables fs -> kinds_of (fs_arcs fs) ⊆ kinds_of (fs_arcs fs') ->
  handle_inv b fs -> handle_inv b fs'.
Proof. intros Ht Hk [Hok Hn]. split; [by eapply handles_same|]. by injection Ht as _ _ ->. Qed.

Lemma handle_inv_weaken b b' fs : b <= b' -> handle_inv b fs -> handle_inv b' fs.
Proof. intros ? [? ?]. split; [done | lia]. Qed.

(** One more file handle, under the next number. *)
Lemma handle_inv_add b fs fh :
  b < max_bound -> handle_inv b fs -> handle_inv (b + 1) (add_file_handle fs fh).1.
Proof.
  unfold max_bound. intros Hb [[Hdirs Hfresh] Hn]. unfold add_file_handle. cbn [fst].
  assert (Hnext : fs_next_handle (with_file_handles (with_next_handle fs (wrap 64 (fs_next_handle fs + 1)))
                    <[fs_next_handle fs := fh]>) = fs_next_handle fs + 1).
  { simpl. apply wrap_small. unfold fits. lia. }
  split; [|rewrite Hnext; lia]. split; [done|]. rewrite Hnext. intros h Hh. simpl.
  rewrite lookup_insert_ne by lia. apply Hfresh. lia.
Qed.

Lemma handle_inv_snapshot b fs i h : handle_inv b fs -> handle_inv b (handle_snapshot fs i h).1.
Proof.
  intros [[Hdirs Hfresh] Hn]. unfold handle_snapshot.
  destruct (fs_dir_handles fs !! h) as [dh|] eqn:Hh; simpl; [|done].
  destruct (dh_snapshot dh); [done|]. destruct (build_snapshot fs i (deref fs (dh_node dh))); [|done].
  split; [|done]. split; [|done]. simpl. intros k dk [[<- <-]|[_ Hk]]%lookup_insert_Some; simpl; eauto.
Qed.

Lemma handle_inv_open b fs i kp flags now now' :
  b < max_bound -> handle_inv b fs -> handle_inv (b + 1) (do_open fs i kp flags now now').1.
Proof.
  intros Hb Hh. unfold do_open. destruct (i =? INIT_INODE); [by apply (handle_inv_weaken b); [lia|]|].
  destruct (get_node fs i); [|by apply (handle_inv_weaken b); [lia|]].
  destruct (mn_kind _ =? _); [by apply (handle_inv_weaken b); [lia|]|].
  match goal with |- handle_inv _ (let '(fs, h) := add_file_handle ?fs2 ?fh in _).1 =>
    change (handle_inv (b + 1) (add_file_handle fs2 fh).1); apply handle_inv_add; [done|] end.
  assert (Htab : forall f fs0, handle_inv b fs0 -> handle_inv b (upd_meta fs0 i f)).
  { intros f fs0. apply handle_inv_keep; [done|]. by rewrite kinds_meta. }
  assert (Ht : handle_inv b (if has_bits (normalize_handle_flags (fs_writeback fs) flags) GUEST_O_TRUNC
                             then truncate_on_open fs i now else fs)).
  { case_match; [|done]. unfold truncate_on_open. destruct (data_of _); [|done]. apply Htab.
    revert Hh. apply handle_inv_keep; unfold store_data, release_bytes.
    - by repeat case_match.
    - repeat case_match; simpl; by rewrite kinds_alter. }
  destruct (kp && _); [by apply Htab | done].
Qed.

Lemma handle_inv_create b fs ctx p n mode flags umask now :
  tree_inv b fs -> b < max_bound -> handle_inv b fs ->
  handle_inv (b + 1) (do_create fs ctx p n mode flags umask now).1.
Proof.
  intros Hinv Hb Hh. unfold do_create. pose proof (tables_begin fs p n) as Htb.
  pose proof (begin_create_cases fs p n) as Hbc0.
  destruct (begin_create fs p n) as [fs1 [i|e]] eqn:Hbc.
  2:{ subst. by apply (handle_inv_weaken b); [lia|]. }
  set (node := mkNode i _ _ _ _ _). pose proof (tables_insert_node fs1 p n node (touch now)) as Hti.
  destruct (insert_node fs1 p n node (touch now)) as [fs2 r] eqn:Hins.
  pose proof (kinds_created _ _ _ _ _ _ node _ _ Hinv Hb Hbc Hins) as Hk.
  assert (Hfs2 : handle_inv b fs2).
  { revert Hh. apply handle_inv_keep; [cbn [fst] in *; congruence | done]. }
  destruct r as [[]|e]; [|by apply (handle_inv_weaken b); [lia|]]. by apply (handle_inv_add b fs2).
Qed.

Lemma tables_readdirplus_loop agentd fs l : handle_tables (readdirplus_loop agentd fs l).1 = handle_tables fs.
Proof.
  revert fs. induction l as [|e l IH]; intros fs; simpl; [done|].
  assert (He : handle_tables (readdirplus_entry agentd fs e).1 = handle_tables fs).
  { unfold readdirplus_entry. by repeat case_match. }
  destruct (readdirplus_entry agentd fs e) as [fs1 o]. specialize (IH fs1).
  destruct (readdirplus_loop agentd fs1 l). cbn [fst] in *. congruence.
Qed.

Lemma handle_step agentd b fs o :
  tree_inv b fs -> b < max_bound -> op_fits o -> handle_inv b fs -> handle_inv (b + 1) (apply_op agentd fs o).1.
Proof.
  intros Hinv Hb Hfit Hh. pose proof (kinds_step agentd b fs o Hinv Hb Hfit) as Hk.
  assert (Hsame : forall fs', fs' = (apply_op agentd fs o).1 -> handle_tables fs' = handle_tables fs ->
            handle_inv (b + 1) fs').
  { intros fs' -> Ht. apply (handle_inv_weaken b); [lia|]. by apply (handle_inv_keep b fs). }
  destruct o; cbn [apply_op outcome fst] in *;
    try (apply Hsame; [done|];
         solve [eauto using tables_forget, tables_batch_forget, tables_setattr, tables_symlink, tables_mknod,
                  tables_mkdir, tables_rename, tables_write, tables_fallocate]).
  - apply Hsame; [done|]. unfold init. by case_match.
  - apply Hsame; [done|]. unfold lookup. by repeat case_match.
  - apply Hsame; [done|]. unfold do_unlink. repeat case_match; cbn [fst]; by rewrite ?tables_try_evict.
  - apply Hsame; [done|]. unfold do_rmdir. repeat case_match; cbn [fst]; by rewrite ?tables_try_evict.
  - apply Hsame; [done|]. unfold do_link. by repeat case_match.
  - by apply handle_inv_open.
  - by apply handle_inv_create.
  - apply (handle_inv_weaken b); [lia|]. destruct Hh as [[Hdirs Hfresh] Hn]. unfold do_release.
    repeat case_match; cbn [fst]; try done.
    all: split; [split|]; unfold release_bytes; repeat case_match; simpl; try done.
    all: intros k Hk'; apply lookup_delete_None; right; by apply Hfresh.
  - apply Hsame; [done|]. unfold do_setxattr. by repeat case_match.
  - apply Hsame; [done|]. unfold do_removexattr. by repeat case_match.
  - destruct Hh as [[Hdirs Hfresh] Hn]. unfold do_opendir, max_bound in *.
    destruct (get_node fs ino) as [node|] eqn:Hnode; [|split; [done | simpl; lia]].
    destruct (mn_kind node =? MODE_DIR) eqn:Hd; simpl negb; cbn [fst]; [|split; [done | simpl; lia]].
    split; [split|]; simpl; rewrite ?wrap_small by (unfold fits; lia); [| | lia].
    + intros k dh [[<- <-]|[_ Hk']]%lookup_insert_Some; [|by eauto]. simpl. by rewrite (get_is_dir _ _ _ Hnode).
    + intros k Hk'. apply Hfresh. lia.
  - apply (handle_inv_weaken b); [lia|]. unfold do_readdir. pose proof (handle_inv_snapshot b fs ino handle Hh) as Hs.
    by destruct (handle_snapshot fs ino handle) as [fs1 [l|e]].
  - apply (handle_inv_weaken b); [lia|]. unfold do_readdirplus, do_readdir.
    pose proof (handle_inv_snapshot b fs ino handle Hh) as Hs.
    destruct (handle_snapshot fs ino handle) as [fs1 [l|e]]; [|done]. cbn [fst] in Hs.
    pose proof (tables_readdirplus_loop agentd fs1 (snapshot_entries_after l offset)) as Ht.
    pose proof (same_tree_readdirplus_loop agentd fs1 (snapshot_entries_after l offset)) as Hst.
    destruct (readdirplus_loop agentd fs1 _) as [fs2 out]. cbn [fst] in *.
    revert Hs. apply handle_inv_keep; [done | by apply kinds_same].
  - apply (handle_inv_weaken b); [lia|]. destruct Hh as [[Hdirs Hfresh] Hn]. unfold do_releasedir.
    split; [split|]; simpl; try done. intros k dh [_ Hk']%lookup_delete_Some. by eauto.
Qed.

(** ** Removal *)

Lemma accounts_fields fs fs' : accounts fs' = accounts fs -> fs_file_handles fs' = fs_file_handles fs.
Proof. by intros [= _ _ -> _ _]. Qed.

Lemma deref_lens fs i l : lens_of (fs_arcs fs) !! i = Some l -> len_of (deref fs i) = l.
Proof.
  unfold lens_of, deref. rewrite lookup_fmap, lookup_total_alt. destruct (fs_arcs fs !! i); simpl; congruence.
Qed.

Lemma dir_len fs i : typed_fs fs -> is_dir (kinds_of (fs_arcs fs)) i = true -> len_of (deref fs i) = 0.
Proof.
  intros Hty Hd. unfold len_of. destruct (data_of (deref fs i)) as [d|] eqn:Hdat; [|done].
  destruct (deref_data _ _ _ Hdat) as (n & Hn & Hdn). by rewrite (regular_not_dir _ _ _ _ Hty Hn Hdn) in Hd.
Qed.

(** The kernel's references keep a node in the table. *)
Lemma referenced fs i : mn_lookup_refs (deref fs i) <> 0 -> unreferenced fs i = false.
Proof.
  intros Hr. unfold unreferenced. destruct (get_node fs i) as [n|] eqn:Hn; [|done].
  apply get_node_Ok in Hn as [_ Hn]. unfold deref in Hr. rewrite (lookup_total_correct _ _ _ Hn) in Hr.
  by apply Z.eqb_neq in Hr as ->.
Qed.

Lemma deref_upd {A} (g : MemNode -> A) fs i f j :
  (forall n, g (f n) = g n) -> g (deref (upd_node fs i f) j) = g (deref fs j).
Proof.
  intros Hg. unfold deref. simpl. rewrite !lookup_total_alt. destruct (decide (j = i)) as [->|].
  - rewrite lookup_alter_eq. destruct (fs_arcs fs !! i); simpl; auto.
  - by rewrite lookup_alter_ne.
Qed.

(** An unlinked name is one the kernel still refers to. *)
Definition unlink_known fs (o : op) : bool :=
  match o with
  | OpUnlink parent n _ =>
      match names_of (fs_arcs fs) !! (parent, n) with
      | Some c => negb (mn_lookup_refs (deref fs c) =? 0)
      | None => true
      end
  | _ => true
  end.

Lemma space_unlink ex cap b fs p n now :
  space_ok ex cap fs -> tree_inv b fs ->
  (ex = true -> unlink_known fs (OpUnlink p n now) = true) -> space_ok ex cap (do_unlink fs p n now).1.
Proof.
  intros Hok Hinv Hex. pose proof (typed_unlink fs p n now (ti_typed _ _ Hinv)) as Hty. unfold do_unlink in *.
  destruct (validate_memfs_name n); [|done]. destruct (reserved_name p n); [done|].
  destruct (get_node fs p) as [pn|] eqn:Hp; [|done].
  destruct (children_of pn) as [ch|] eqn:Hch; [|done]. destruct (ch !! n) as [c|] eqn:Hn; [|done].
  cbn [ok_or] in *. pose proof (entry_lookup _ _ _ _ _ _ Hp Hch Hn) as Hc.
  destruct (get_node (del_child fs p n) c) as [cn|]; [|revert Hok; apply space_accounts, accounts_del_child].
  destruct (mn_kind cn =? MODE_DIR).
  { revert Hok. apply space_accounts. cbn [fst]. by autorewrite with accounts. }
  set (fs' := upd_meta (upd_meta (del_child fs p n) c _) p _) in *. cbn [fst] in *.
  apply space_try_evict.
  - revert Hok. apply space_accounts. unfold fs'. by autorewrite with accounts.
  - by apply (typed_arcs _ fs') in Hty; [|rewrite <- (arcs_try_evict fs' [p; c] c)].
  - intros He Hu. specialize (Hex He). unfold unlink_known in Hex. rewrite Hc in Hex.
    assert (Hr : unreferenced fs' c = false); [|congruence]. apply referenced.
    unfold fs', upd_meta, del_child. rewrite !(deref_upd mn_lookup_refs) by done.
    by apply negb_true_iff, Z.eqb_neq in Hex.
Qed.

Lemma space_rmdir ex cap b fs p n now :
  space_ok ex cap fs -> tree_inv b fs -> handles_ok fs -> space_ok ex cap (do_rmdir fs p n now).1.
Proof.
  intros Hok Hinv Hh. pose proof (typed_rmdir fs p n now (ti_typed _ _ Hinv)) as Hty. unfold do_rmdir in *.
  destruct (validate_memfs_name n); [|done]. destruct (reserved_name p n); [done|].
  destruct (get_node fs p) as [pn|] eqn:Hp; [|done].
  destruct (children_of pn) as [ch|] eqn:Hch; [|done]. destruct (ch !! n) as [c|] eqn:Hn; [|done].
  cbn [ok_or] in *. destruct (get_node fs c) as [cn|] eqn:Hcn; [|done].
  destruct (mn_kind cn =? MODE_DIR) eqn:Hk; [|done]. cbn [negb] in *. destruct (is_nonempty_dir cn); [done|].
  set (fs' := upd_meta (upd_meta (del_child fs p n) c _) p _) in *. cbn [fst] in *.
  assert (Hty' : typed_fs fs').
  { by apply (typed_arcs _ fs') in Hty; [|rewrite <- (arcs_try_evict fs' [p; c] c)]. }
  assert (Hkd : kinds_of (fs_arcs fs') = kinds_of (fs_arcs fs)) by (unfold fs'; by autorewrite with kinds).
  apply space_try_evict; [| done |].
  - revert Hok. apply space_accounts. unfold fs'. by autorewrite with accounts.
  - intros _ _. split; [apply (handles_same fs); [done | by rewrite Hkd | done]|]. right. right.
    apply dir_len; [done|]. by rewrite Hkd, (get_is_dir _ _ _ Hcn).
Qed.

Lemma named_referenced b fs i p : tree_inv b fs -> names_of (fs_arcs fs) !! p = Some i -> unreferenced fs i = false.
Proof.
  intros Hinv Hp. unfold unreferenced. destruct (get_node fs i) as [n|] eqn:Hn; [|done].
  apply get_node_Ok in Hn as [_ Hn]. pose proof (links_pos _ _ _ Hp) as Hl.
  assert (Hnl : nlinks_of (fs_arcs fs) !! i = Some (im_nlink (mn_meta n))).
  { unfold nlinks_of. by rewrite lookup_fmap, Hn. }
  pose proof (t_links _ _ _ _ _ (ti_tree _ _ Hinv) _ _ Hnl) as He. unfold expected_links in He.
  pose proof (subdirs_nonneg (names_of (fs_arcs fs)) (kinds_of (fs_arcs fs)) i).
  assert (Hne : (im_nlink (mn_meta n) =? 0) = false).
  { apply Z.eqb_neq. destruct (is_dir _ i), (i =? ROOT_INODE); lia. }
  by rewrite Hne, andb_false_r.
Qed.

Lemma tables_move fs o on d dn s b now : handle_tables (rename_move fs o on d dn s b now) = handle_tables fs.
Proof. unfold rename_move, touch_parents. by repeat case_match. Qed.
Lemma tables_replace fs b d t now : handle_tables (replace_dest fs b d t now).1 = handle_tables fs.
Proof. unfold replace_dest. by repeat case_match. Qed.

Lemma space_rename ex cap b fs o on d dn flags now :
  space_ok ex cap fs -> tree_inv b fs -> b < max_bound -> handles_ok fs ->
  space_ok ex cap (do_rename fs o on d dn flags now).1.
Proof.
  intros Hok Hinv Hb Hh. pose proof (do_rename_cases fs o on d dn flags now) as Hc.
  destruct (do_rename fs o on d dn flags now) as [fs' [[]|e]]; cbn [fst]; [|by subst].
  destruct Hc as [Heq | op och np nch s sn t tn Hf Hne Ho Hoch Hs Hsn Hd Hnch Ht Htn
                 | op och np nch s sn Hf Hne Ho Hoch Hs Hsn Hd Hnch Ht
                 | op och np nch s sn t fs1 Hf Hne Ho Hoch Hs Hsn Hd Hnch Ht Hrep].
  - done.
  - revert Hok. apply space_accounts, accounts_exchange.
  - revert Hok. apply space_accounts, accounts_move.
  - destruct (replaced_effects b fs fs1 o on d dn s sn t op och np nch now) as [Hinv' Hns']; try done.
    set (fs' := rename_move fs1 o on d dn s _ now) in *.
    pose proof (accounts_replace fs (mn_kind sn =? MODE_DIR) d t now) as Hacc.
    pose proof (kinds_replace fs (mn_kind sn =? MODE_DIR) d t now) as Hkd.
    pose proof (tables_replace fs (mn_kind sn =? MODE_DIR) d t now) as Htab.
    rewrite Hrep in Hacc, Hkd, Htab. cbn [fst] in *.
    assert (Hkd' : kinds_of (fs_arcs fs') = kinds_of (fs_arcs fs)) by (unfold fs'; by rewrite kinds_move).
    assert (Htab' : handle_tables fs' = handle_tables fs) by (unfold fs'; by rewrite tables_move).
    apply space_try_evict; [| apply Hinv' |].
    + revert Hok. apply space_accounts. unfold fs'. by rewrite accounts_move.
    + intros _ Hu. split; [apply (handles_same fs); [done | by rewrite Hkd' | done]|].
      assert (Hts : t <> s).
      { intros ->. rewrite (named_referenced b fs' s (d, dn)) in Hu; [done | done |].
        rewrite Hns'. apply lookup_insert_eq. }
      assert (Hdirs : forall j, j = o \/ j = d -> is_dir (kinds_of (fs_arcs fs)) j = true).
      { intros j [-> | ->]; [by destruct (get_dir _ _ _ _ _ Hinv Ho Hoch) | by destruct (get_dir _ _ _ _ _ Hinv Hd Hnch)]. }
      destruct (decide (t ∈ [o; d; s])) as [Hin|]; [|by left]. right. right.
      apply dir_len; [apply Hinv'|]. rewrite Hkd'. apply Hdirs. set_solver.
Qed.

(** ** Runs *)

Lemma space_forget ex cap fs i count :
  space_ok ex cap fs -> typed_fs fs -> handles_ok fs -> space_ok ex cap (forget fs i count).
Proof. intros. unfold forget. case_match; [done|]. by apply space_forget_one. Qed.

Lemma kinds_forget fs i count : kinds_of (fs_arcs (forget fs i count)) = kinds_of (fs_arcs fs).
Proof. unfold forget, forget_one. repeat case_match; rewrite ?arcs_evict, ?kinds_upd; done. Qed.

Lemma space_batch_forget ex cap fs l :
  space_ok ex cap fs -> typed_fs fs -> handles_ok fs -> space_ok ex cap (batch_forget fs l).
Proof.
  unfold batch_forget. revert fs. induction l as [|[i c] l IH]; intros fs Hok Hty Hh; simpl; [done|]. apply IH.
  - by apply space_forget.
  - by apply typed_forget.
  - apply (handles_same fs); [apply tables_forget | by rewrite kinds_forget | done].
Qed.

Lemma space_step agentd ex cap b fs o :
  space_ok ex cap fs -> tree_inv b fs -> handle_inv b fs -> b < max_bound -> op_fits o ->
  (ex = true -> unlink_known fs o = true) -> space_ok ex cap (apply_op agentd fs o).1.
Proof.
  intros Hok Hinv [Hh _] Hb Hfit Hex. pose proof (ti_typed _ _ Hinv) as Hty.
  destruct o; cbn [apply_op outcome fst] in *.
  - revert Hok. apply space_accounts. unfold init. by case_match.
  - revert Hok. apply space_accounts, accounts_lookup.
  - by apply space_forget.
  - by apply space_batch_forget.
  - by apply space_setattr.
  - by eapply space_symlink.
  - by eapply space_mknod.
  - by eapply space_mkdir.
  - by eapply space_unlink.
  - by eapply space_rmdir.
  - by eapply space_rename.
  - revert Hok. apply space_accounts, accounts_link.
  - by apply space_open.
  - by eapply space_create.
  - apply space_write; [|done]. by destruct Hfit as (_ & [? _] & _).
  - apply space_fallocate; [|done]. by destruct Hfit as [[? _] _].
  - by apply space_release.
  - revert Hok. apply space_accounts. unfold do_setxattr. repeat case_match; try done. by apply accounts_upd.
  - revert Hok. apply space_accounts. unfold do_removexattr. repeat case_match; try done. by apply accounts_upd.
  - revert Hok. apply space_accounts. unfold do_opendir. by repeat case_match.
  - revert Hok. apply space_accounts, accounts_readdir.
  - revert Hok. apply space_accounts, accounts_readdirplus.
  - revert Hok. by apply space_accounts.
Qed.

(** Every unlink of the run removes a name the kernel still refers to. *)
Fixpoint unlinks_known (agentd : list byte) fs (ops : list op) : bool :=
  match ops with
  | [] => true
  | o :: ops' => unlink_known fs o && unlinks_known agentd (apply_op agentd fs o).1 ops'
  end.

Record space_inv (ex : bool) (cap b : Z) fs : Prop := mkSpaceInv {
  si_tree : tree_inv b fs; si_handles : handle_inv b fs; si_space : space_ok ex cap fs }.

Lemma space_run agentd ex cap b fs ops :
  space_inv ex cap b fs -> b + zlen ops <= max_bound -> run_ok agentd fs ops ->
  (ex = true -> unlinks_known agentd fs ops = true) -> space_inv ex cap (b + zlen ops) (run agentd fs ops).
Proof.
  revert b fs. induction ops as [|o ops IH]; intros b fs Hinv Hb Hok Hex.
  - simpl. by rewrite Z.add_0_r.
  - destruct Hok as (Hfit & Hx & Hok). destruct Hinv as [Ht Hh Hs]. rewrite length_cons, Nat2Z.inj_succ in *.
    assert (Hex' : ex = true -> unlink_known fs o = true /\ unlinks_known agentd (apply_op agentd fs o).1 ops = true).
    { intros He. by apply andb_true_iff, Hex. }
    assert (Hinv1 : space_inv ex cap (b + 1) (apply_op agentd fs o).1).
    { split; [apply step_inv | apply handle_step | eapply space_step]; try done; try lia. intros He. by apply Hex'. }
    replace (b + Z.succ (zlen ops)) with (b + 1 + zlen ops) by lia.
    apply (IH (b + 1) _ Hinv1 ltac:(lia) Hok). intros He. by apply Hex'.
Qed.

Lemma space_build ex cap cfg now :
  cfg_capacity cfg = Some cap -> 0 <= cap < 2 ^ 64 -> space_inv ex cap 0 (build cfg now).
Proof.
  intros Hcap Hc. split; [apply build_inv | |].
  - split; [|simpl; lia]. split; [intros h dh | intros h _]; simpl; by rewrite ?lookup_empty.
  - assert (Hheld : held_bytes (build cfg now) = 0).
    { unfold held_bytes, held_in, lens_of. simpl. rewrite map_fmap_singleton.
      rewrite <- insert_empty, msum_insert, msum_empty, lookup_empty. simpl. by case_match. }
    split; simpl; rewrite ?Hheld; [done | lia | lia | done].
Qed.

Lemma space_run_build agentd ex cap cfg now ops :
  cfg_capacity cfg = Some cap -> 0 <= cap < 2 ^ 64 -> zlen ops <= max_bound -> run_ok agentd (build cfg now) ops ->
  (ex = true -> unlinks_known agentd (build cfg now) ops = true) ->
  space_inv ex cap (zlen ops) (run agentd (build cfg now) ops).
Proof. intros Hcap Hc Hlen Hok Hex. apply (space_run agentd ex cap 0); [by apply space_build | lia | done..]. Qed.

(** ** The inode limit *)

(** What a request does to the table: nodes may leave it, and one may enter
    while the limit is not reached. *)
Definition keeps fs fs' : Prop := fs_cfg fs' = fs_cfg fs /\ fs_nodes fs' ⊆ fs_nodes fs.
Definition table_step fs fs' : Prop :=
  fs_cfg fs' = fs_cfg fs
  /\ (fs_nodes fs' ⊆ fs_nodes fs \/ inodes_full fs = false /\ exists i, fs_nodes fs' = {[i]} ∪ fs_nodes fs).

#[global] Instance keeps_preorder : PreOrder keeps.
Proof.
  split; [by intros fs|]. intros fs1 fs2 fs3 [Hc1 Hn1] [Hc2 Hn2]. split; [congruence | by etrans].
Qed.

Lemma keeps_step fs fs' : keeps fs fs' -> table_step fs fs'.
Proof. intros [? ?]. split; auto. Qed.

Lemma keeps_release fs n : keeps fs (release_bytes fs n).
Proof. unfold release_bytes. by case_match. Qed.
Lemma keeps_evict fs held i : keeps fs (evict_inode fs held i).
Proof. unfold evict_inode, release_bytes. repeat case_match; try done; split; simpl; set_solver. Qed.
Lemma keeps_try_evict fs held i : keeps fs (try_evict fs held i).
Proof. unfold try_evict. case_match; [apply keeps_evict | done]. Qed.
Lemma keeps_forget fs i count : keeps fs (forget fs i count).
Proof.
  unfold forget, forget_one. repeat case_match; try done; (etrans; [|apply keeps_evict]); done.
Qed.
Lemma keeps_batch_forget fs l : keeps fs (batch_forget fs l).
Proof.
  unfold batch_forget. revert fs. induction l as [|r l IH]; intros fs; simpl; [done|].
  etrans; [apply keeps_forget | apply IH].
Qed.

Lemma keeps_reserve fs n : keeps fs (reserve_bytes fs n).1.
Proof. unfold reserve_bytes. by repeat case_match. Qed.

Lemma keeps_table_setattr fs i attr valid ta tm tc : keeps fs (do_setattr fs i attr valid ta tm tc).1.
Proof.
  unfold do_setattr, setattr_size, release_bytes, reserve_bytes. repeat case_match; simplify_eq; done.
Qed.
Lemma keeps_unlink fs p n now : keeps fs (do_unlink fs p n now).1.
Proof. unfold do_unlink. repeat case_match; cbn [fst]; try done. by etrans; [|apply keeps_try_evict]. Qed.
Lemma keeps_rmdir fs p n now : keeps fs (do_rmdir fs p n now).1.
Proof. unfold do_rmdir. repeat case_match; cbn [fst]; try done. by etrans; [|apply keeps_try_evict]. Qed.
Lemma keeps_move fs o on d dn s b now : keeps fs (rename_move fs o on d dn s b now).
Proof. unfold rename_move, touch_parents. by repeat case_match. Qed.
Lemma keeps_rename fs o on d dn flags now : keeps fs (do_rename fs o on d dn flags now).1.
Proof.
  pose proof (do_rename_cases fs o on d dn flags now) as Hc.
  destruct (do_rename fs o on d dn flags now) as [fs' [[]|e]]; cbn [fst]; [|by subst].
  destruct Hc as [| | |op och np nch s sn t fs1 _ _ _ _ _ _ _ _ _ Hr].
  - done.
  - unfold rename_exchange, touch_parents. by repeat case_match.
  - apply keeps_move.
  - etrans; [|apply keeps_try_evict]. etrans; [|apply keeps_move].
    unfold replace_dest in Hr. repeat case_match; simplify_eq; done.
Qed.

Lemma step_created fs p n fs1 i node f :
  begin_create fs p n = (fs1, Ok i) -> table_step fs (insert_node fs1 p n node f).1.
Proof.
  intros Hbc. pose proof (begin_create_cases fs p n) as Hc. rewrite Hbc in Hc.
  destruct Hc as (_ & Hfull & -> & _). pose proof (insert_node_cases) as Hi.
  specialize (Hi (with_inode_count (with_next_inode fs (wrap 64 (i + 1))) (wrap 64 (fs_inode_count fs + 1))) p n node f).
  destruct (insert_node _ p n node f) as [fs2 [u|e]]; [destruct Hi as [_ ->] | subst; by apply keeps_step].
  split; [done|]. right. split; [done|]. by exists (mn_inode node).
Qed.

Lemma step_begin_err fs p n fs1 e : begin_create fs p n = (fs1, Err e) -> fs1 = fs.
Proof. intros Hbc. pose proof (begin_create_cases fs p n) as Hc. by rewrite Hbc in Hc. Qed.

Ltac by_creation p n :=
  destruct (begin_create _ p n) as [fs1 [i|e]] eqn:Hbc; [|rewrite (step_begin_err _ _ _ _ _ Hbc); by apply keeps_step].

Lemma step_symlink fs ctx target p n now : table_step fs (do_symlink fs ctx target p n now).1.
Proof.
  unfold do_symlink. by_creation p n. set (node := mkNode i _ _ _ _ _).
  pose proof (step_created fs p n fs1 i node (touch now) Hbc). by destruct (insert_node _ _ _ _ _) as [fs2 [[]|e]].
Qed.
Lemma step_mkdir fs ctx p n mode umask now : table_step fs (do_mkdir fs ctx p n mode umask now).1.
Proof.
  unfold do_mkdir. by_creation p n. set (node := mkNode i _ _ _ _ _). set (f := fun m => touch now _).
  pose proof (step_created fs p n fs1 i node f Hbc). by destruct (insert_node _ _ _ _ _) as [fs2 [[]|e]].
Qed.
Lemma step_create fs ctx p n mode flags umask now : table_step fs (do_create fs ctx p n mode flags umask now).1.
Proof.
  unfold do_create. by_creation p n. set (node := mkNode i _ _ _ _ _).
  pose proof (step_created fs p n fs1 i node (touch now) Hbc). by destruct (insert_node _ _ _ _ _) as [fs2 [[]|e]].
Qed.
Lemma step_mknod fs ctx p n mode rdev umask now : table_step fs (do_mknod fs ctx p n mode rdev umask now).1.
Proof.
  unfold do_mknod. by_creation p n. destruct (mknod_content _) as [[k c]|].
  - set (node := mkNode i _ _ _ _ _).
    pose proof (step_created fs p n fs1 i node (touch now) Hbc). by destruct (insert_node _ _ _ _ _) as [fs2 [[]|e]].
  - pose proof (begin_create_cases fs p n) as Hc. rewrite Hbc in Hc. destruct Hc as (_ & _ & -> & _).
    by apply keeps_step.
Qed.

Lemma accounts_keeps fs fs' : accounts fs' = accounts fs -> keeps fs fs'.
Proof. intros [= _ Hn _ _ Hc]. by split; [|rewrite Hn]. Qed.

Lemma table_apply agentd fs o : table_step fs (apply_op agentd fs o).1.
Proof.
  destruct o; cbn [apply_op outcome fst];
    try (by eauto using step_symlink, step_mkdir, step_create, step_mknod);
    apply keeps_step;
    try (by eauto using keeps_forget, keeps_batch_forget, keeps_table_setattr, keeps_unlink, keeps_rmdir, keeps_rename,
           accounts_keeps, accounts_lookup, accounts_link, accounts_readdir, accounts_readdirplus).
  - unfold init. by case_match.
  - unfold do_open, truncate_on_open, release_bytes, add_file_handle. by repeat case_match.
  - unfold do_write, write_data, reserve_bytes. repeat case_match; simplify_eq; done.
  - unfold do_fallocate, allocate_range, reserve_bytes. repeat case_match; simplify_eq; done.
  - unfold do_release, release_bytes. by repeat case_match.
  - unfold do_setxattr. by repeat case_match.
  - unfold do_removexattr. by repeat case_match.
  - unfold do_opendir. by repeat case_match.
Qed.

Lemma inodes_step agentd m b fs o :
  cfg_max_inodes (fs_cfg fs) = Some m -> tree_inv b fs -> Z.of_nat (size (fs_nodes fs)) <= Z.max 1 m ->
  let fs' := (apply_op agentd fs o).1 in
  cfg_max_inodes (fs_cfg fs') = Some m /\ Z.of_nat (size (fs_nodes fs')) <= Z.max 1 m.
Proof.
  intros Hm Hinv Hs fs'. destruct (table_apply agentd fs o) as [Hc Hn]. fold fs' in Hc, Hn. rewrite Hc.
  split; [done|]. destruct Hn as [Hsub%subseteq_size | (Hfull & i & ->)]; [lia|].
  unfold inodes_full in Hfull. rewrite Hm in Hfull. apply Z.leb_gt in Hfull. destruct (ti_count _ _ Hinv) as [Hcount _].
  pose proof (size_union_alt {[i]} (fs_nodes fs)) as Hu.
  pose proof (subseteq_size (fs_nodes fs ∖ {[i]}) (fs_nodes fs) ltac:(set_solver)) as Hle.
  rewrite union_comm_L, size_union_alt.
  pose proof (subseteq_size ({[i]} ∖ fs_nodes fs) ({[i]} : gset Z) ltac:(set_solver)) as H1.
  rewrite size_singleton in H1. lia.
Qed.

Lemma inodes_run agentd m b fs ops :
  cfg_max_inodes (fs_cfg fs) = Some m -> tree_inv b fs -> Z.of_nat (size (fs_nodes fs)) <= Z.max 1 m ->
  b + zlen ops <= max_bound -> run_ok agentd fs ops ->
  Z.of_nat (size (fs_nodes (run agentd fs ops))) <= Z.max 1 m.
Proof.
  revert b fs. induction ops as [|o ops IH]; intros b fs Hm Hinv Hs Hb Hok; [done|].
  destruct Hok as (Hfit & Hx & Hok). rewrite length_cons, Nat2Z.inj_succ in *.
  destruct (inodes_step agentd m b fs o Hm Hinv Hs) as [Hm' Hs'].
  apply (IH (b + 1) (apply_op agentd fs o).1); try done; [apply step_inv; try done|]; lia.
Qed.

(** C30: The limits hold.  After any run on a filesystem with a capacity, the
    bytes of all files that are reachable, in the table or through an open
    handle, add up to at most [used_bytes], which is at most the capacity; with
    an inode limit, the table never holds more nodes than the limit (and the
    root).  So no sequence of creations, writes, truncations, allocations,
    renames, unlinks of open files and releases makes the filesystem outgrow
    its configuration, and the counter never wraps below what is held. *)
Theorem memfs_limits_enforced agentd cfg now ops :
  zlen ops <= max_bound -> run_ok agentd (build cfg now) ops ->
  let fs := run agentd (build cfg now) ops in
  (forall cap, cfg_capacity cfg = Some cap -> 0 <= cap < 2 ^ 64 ->
     0 <= held_bytes fs <= fs_used_bytes fs /\ fs_used_bytes fs <= cap)
  /\ (forall m, cfg_max_inodes cfg = Some m -> Z.of_nat (size (fs_nodes fs)) <= Z.max 1 m).
Proof.
  intros Hlen Hok fs. split.
  - intros cap Hcap Hc.
    destruct (space_run_build agentd false cap cfg now ops Hcap Hc Hlen Hok ltac:(done)) as [_ _ Hs].
    pose proof (held_nonneg fs). pose proof (sp_covers _ _ fs Hs). lia.
  - intros m Hm. apply (inodes_run agentd m 0); [done | apply build_inv | | lia | done].
    change (fs_nodes (build cfg now)) with ({[ROOT_INODE]} : gset Z). rewrite size_singleton. lia.
Qed.


(** ** A sample run *)

(** A file is created, written, opened again, unlinked while both handles are
    open, and its last handle and reference leave it. *)
Definition demo_ops : list op :=
  [OpCreate Demo.ctx 1 Demo.f 0x1ff 2 0 Demo.t0; OpWrite 3 1 (Ok [x61; x62; x63]) 3 4 false Demo.t0;
   OpOpen 3 false 2 Demo.t0 Demo.t0; OpUnlink 1 Demo.f Demo.t0; OpWrite 3 2 (Ok [x64]) 1 9 false Demo.t0;
   OpRelease 3 1; OpForget 3 1].

Lemma demo_ok : run_ok [] (build Demo.cfg Demo.t0) demo_ops.
Proof. apply (bool_decide_unpack _). vm_compute. exact I. Qed.

Lemma memfs_limits_enforced_witness :
  let fs := run [] (build Demo.cfg Demo.t0) demo_ops in
  fs_used_bytes fs = 10 /\ held_bytes fs <= 10 /\ Z.of_nat (size (fs_nodes fs)) <= 20.
Proof.
  set (fs := run [] (build Demo.cfg Demo.t0) demo_ops).
  assert (Hlen : zlen demo_ops <= max_bound) by (vm_compute; congruence).
  destruct (memfs_limits_enforced [] Demo.cfg Demo.t0 demo_ops Hlen demo_ok) as [Hc Hi]. fold fs in Hc, Hi.
  destruct (Hc 100 eq_refl ltac:(lia)) as [Hh _]. specialize (Hi 20 eq_refl).
  assert (Hu : fs_used_bytes fs = 10) by (vm_compute; reflexivity). rewrite Hu in Hh.
  cbv zeta. change (Z.max 1 20) with 20 in Hi. destruct Hh as [_ Hh]. exact (conj Hu (conj Hh Hi)).
Defined.


(** ** Behaviours outside the exact accounts *)

(** Unlinking a file the kernel has no reference to evicts it while the
    request itself still points to it, and its bytes stay charged. *)
Lemma unlink_keeps_bytes_charged :
  let ops := [OpCreate Demo.ctx 1 Demo.f 0x1ff 2 0 Demo.t0; OpWrite 3 1 (Ok [x61; x62; x63]) 3 0 false Demo.t0;
              OpRelease 3 1; OpForget 3 1; OpUnlink 1 Demo.f Demo.t0] in
  let fs := run [] (build Demo.cfg Demo.t0) ops in
  held_bytes fs = 0 /\ fs_used_bytes fs = 3.
Proof. vm_compute. split; reflexivity. Qed.

(** Without a capacity growth is not counted but shrinking is: the counter
    wraps, and the filesystem reports no free block. *)
Lemma unlimited_counter_wraps :
  let cfg := mkMemConfig None None 5 5 CacheAlways true in
  let ops := [OpCreate Demo.ctx 1 Demo.f 0x1ff 2 0 Demo.t0; OpWrite 3 1 (Ok [x61; x62; x63]) 3 0 false Demo.t0;
              OpOpen 3 false (2 + GUEST_O_TRUNC) Demo.t0 Demo.t0] in
  let fs := run [] (build cfg Demo.t0) ops in
  fs_used_bytes fs = 2 ^ 64 - 3 /\ f_bfree (do_statfs fs) = 0 /\ 0 < f_bfree (do_statfs (build cfg Demo.t0)).
Proof. vm_compute. repeat split. Qed.
