(* ===== verification/MemFsData.v ===== *)
(** * File contents and directory listings of the in-memory filesystem

    File contents against a reference in which a file is a length and a
    function from positions to bytes, and what the directory streams return. *)

From S2P Require Import Prelude MemFs MemFsTypes MemFsTree MemFsSpace.
From Stdlib Require Import Strings.Byte.

Implicit Types (fs : MemFs) (a : gmap Z MemNode) (buf : list byte) (p : Z).

(** ** The reference: sparse files *)

Record sparse := mkSparse { sp_len : Z; sp_byte : Z -> byte }.

Definition byte_at (d : list byte) p : byte := default Byte.x00 (d !! Z.to_nat p).
Definition sparse_of (d : list byte) : sparse := mkSparse (zlen d) (byte_at d).

#[global] Instance sparse_equiv : Equiv sparse := fun s t =>
  sp_len s = sp_len t /\ forall p, 0 <= p -> sp_byte s p = sp_byte t p.
#[global] Instance sparse_equivalence : Equivalence (≡@{sparse}).
Proof.
  split.
  - done.
  - intros s t [Hl Hb]. split; [done|]. intros p Hp. by rewrite Hb.
  - intros s t u [Hl1 Hb1] [Hl2 Hb2]. split; [congruence|]. intros p Hp. by rewrite Hb1, Hb2.
Qed.

Definition inside (first length p : Z) : bool := (first <=? p) && (p <? first + length).

(** A write puts [buf] at [start]; a change of length keeps what fits and
    leaves zeros behind it; a hole is zeros. *)
Definition sparse_write (start : Z) buf (s : sparse) : sparse :=
  mkSparse (Z.max (sp_len s) (start + zlen buf))
    (fun p => if inside start (zlen buf) p then byte_at buf (p - start) else sp_byte s p).
Definition sparse_resize (len : Z) (s : sparse) : sparse :=
  mkSparse len (fun p => if p <? len then sp_byte s p else Byte.x00).
Definition sparse_punch (offset length : Z) (s : sparse) : sparse :=
  mkSparse (sp_len s) (fun p => if inside offset length p then Byte.x00 else sp_byte s p).

(** ** The data operations implement the reference *)

Lemma byte_beyond d p : zlen d <= p -> byte_at d p = Byte.x00.
Proof. intros. unfold byte_at. rewrite lookup_ge_None_2; [done | lia]. Qed.

Lemma byte_app d1 d2 p :
  0 <= p -> byte_at (d1 ++ d2) p = if p <? zlen d1 then byte_at d1 p else byte_at d2 (p - zlen d1).
Proof.
  intros Hp. unfold byte_at. destruct (Z.ltb_spec p (zlen d1)).
  - by rewrite lookup_app_l by lia.
  - rewrite lookup_app_r by lia. repeat f_equal. lia.
Qed.

Lemma byte_take d n p : 0 <= p -> byte_at (take (Z.to_nat n) d) p = if p <? n then byte_at d p else Byte.x00.
Proof.
  intros Hp. unfold byte_at. destruct (Z.ltb_spec p n).
  - by rewrite lookup_take_lt by lia.
  - by rewrite lookup_take_ge by lia.
Qed.

Lemma byte_drop d n p : 0 <= n -> 0 <= p -> byte_at (drop (Z.to_nat n) d) p = byte_at d (n + p).
Proof. intros Hn Hp. unfold byte_at. rewrite lookup_drop. repeat f_equal. lia. Qed.

Lemma byte_replicate n p : byte_at (replicate n Byte.x00) p = Byte.x00.
Proof.
  unfold byte_at. destruct (replicate n Byte.x00 !! Z.to_nat p) as [x|] eqn:Hx; [|done].
  by apply lookup_replicate in Hx as [-> _].
Qed.

Lemma resize_sparse len d : 0 <= len -> sparse_of (resize len d) ≡ sparse_resize len (sparse_of d).
Proof.
  intros Hlen. split; simpl; [by apply length_resize|]. intros p Hp. unfold resize.
  rewrite byte_app, byte_take, byte_replicate by done.
  destruct (Z.ltb_spec p len), (Z.ltb_spec p (zlen (take (Z.to_nat len) d))); try done.
  - symmetry. apply byte_beyond. len.
Qed.

Lemma overwrite_byte d start buf p :
  0 <= start -> start + zlen buf <= zlen d -> 0 <= p ->
  byte_at (overwrite d start buf) p = if inside start (zlen buf) p then byte_at buf (p - start) else byte_at d p.
Proof.
  intros Hs Hend Hp. unfold overwrite, inside.
  assert (Hlen : zlen (take (Z.to_nat start) d) = start) by len.
  rewrite byte_app, Hlen by done. destruct (Z.ltb_spec p start).
  - rewrite byte_take by done. destruct (Z.ltb_spec p start), (Z.leb_spec start p); try lia. done.
  - rewrite byte_app by lia. destruct (Z.leb_spec start p); [|lia]. simpl.
    destruct (Z.ltb_spec (p - start) (zlen buf)), (Z.ltb_spec p (start + zlen buf)); try lia; [done|].
    rewrite byte_drop by lia. f_equal. lia.
Qed.

Lemma written_sparse d start buf :
  0 <= start -> sparse_of (written d start buf) ≡ sparse_write start buf (sparse_of d).
Proof.
  intros Hs. split; simpl; [by apply length_written|]. intros p Hp. unfold written.
  destruct (zlen d <? start + zlen buf) eqn:Hg; breflect.
  - rewrite overwrite_byte; [|done| rewrite length_resize; lia | done].
    destruct (resize_sparse (start + zlen buf) d ltac:(lia)) as [_ Hb]. specialize (Hb p Hp). simpl in Hb. rewrite Hb.
    destruct (inside start (zlen buf) p); [done|]. destruct (Z.ltb_spec p (start + zlen buf)); [done|].
    symmetry. apply byte_beyond. lia.
  - by apply overwrite_byte.
Qed.

Lemma punch_sparse d offset length :
  0 <= offset -> 0 <= length -> zlen d < 2 ^ 64 ->
  sparse_of (punch d offset length) ≡ sparse_punch offset length (sparse_of d).
Proof.
  intros Ho Hl Hfit. split; simpl; [by apply length_punch|]. intros p Hp. unfold punch, saturating_add, u_max.
  set (first := Z.min offset (zlen d)). set (last := Z.min (Z.min (offset + length) (2 ^ 64 - 1)) (zlen d)).
  destruct (Z.ltb_spec first last) as [Hlt|Hge].
  - rewrite overwrite_byte; [|lia| len |done]. unfold inside. rewrite byte_replicate.
    assert (Hz : zlen (replicate (Z.to_nat (last - first)) Byte.x00) = last - first) by len. rewrite Hz.
    destruct (Z.leb_spec first p), (Z.ltb_spec p (first + (last - first))), (Z.leb_spec offset p),
      (Z.ltb_spec p (offset + length)); simpl; try lia; try done; apply byte_beyond; lia.
  - unfold inside. destruct (Z.leb_spec offset p), (Z.ltb_spec p (offset + length)); simpl; try done.
    apply byte_beyond. lia.
Qed.

(** ** Contents of all files *)

Definition contents_of a : gmap Z (list byte) := omap data_of a.
Abbreviation contents fs := (contents_of (fs_arcs fs)).

Lemma contents_alter a i f : (forall n, data_of (f n) = data_of n) -> contents_of (alter f i a) = contents_of a.
Proof.
  intros Hf. apply map_eq. intros j. unfold contents_of. rewrite !lookup_omap.
  destruct (decide (j = i)) as [->|]; [|by rewrite lookup_alter_ne].
  rewrite lookup_alter_eq. by destruct (a !! i); simpl; rewrite ?Hf.
Qed.

Lemma contents_upd fs i f : (forall n, data_of (f n) = data_of n) -> contents (upd_node fs i f) = contents fs.
Proof. apply contents_alter. Qed.
Lemma contents_meta fs i f : contents (upd_meta fs i f) = contents fs.
Proof. by apply contents_upd. Qed.
Lemma contents_add_child fs p n c : contents (add_child fs p n c) = contents fs.
Proof. apply contents_upd. intros node. unfold data_of. simpl. by destruct (mn_content node). Qed.
Lemma contents_del_child fs p n : contents (del_child fs p n) = contents fs.
Proof. apply contents_upd. intros node. unfold data_of. simpl. by destruct (mn_content node). Qed.
Lemma contents_store_parent fs i p : contents (store_parent fs i p) = contents fs.
Proof. apply contents_upd. intros node. unfold data_of. simpl. by destruct (mn_content node). Qed.
Lemma contents_inc_lookup fs i : contents (inc_lookup fs i) = contents fs.
Proof. by apply contents_upd. Qed.
Lemma contents_evict fs held i : contents (evict_inode fs held i) = contents fs.
Proof. by rewrite arcs_evict. Qed.
Lemma contents_try_evict fs held i : contents (try_evict fs held i) = contents fs.
Proof. by rewrite arcs_try_evict. Qed.
Lemma contents_release fs n : contents (release_bytes fs n) = contents fs.
Proof. by rewrite arcs_release. Qed.
#[export] Hint Rewrite contents_meta contents_add_child contents_del_child contents_store_parent
  contents_inc_lookup contents_evict contents_try_evict contents_release : contents.

Lemma contents_touch_parents fs o d now : contents (touch_parents fs o d now) = contents fs.
Proof. unfold touch_parents. case_match; by autorewrite with contents. Qed.
#[export] Hint Rewrite contents_touch_parents : contents.
Lemma contents_move fs o on d dn s b now : contents (rename_move fs o on d dn s b now) = contents fs.
Proof. unfold rename_move. case_match; by autorewrite with contents. Qed.
Lemma contents_exchange fs o on d dn s sn t tn now : contents (rename_exchange fs o on d dn s sn t tn now) = contents fs.
Proof. unfold rename_exchange. repeat case_match; by autorewrite with contents. Qed.
Lemma contents_replace fs b d t now : contents (replace_dest fs b d t now).1 = contents fs.
Proof. unfold replace_dest. repeat case_match; cbn [fst]; by autorewrite with contents. Qed.

Lemma contents_store fs i d d0 :
  data_of (deref fs i) = Some d0 -> contents (store_data fs i d) = <[i := d]> (contents fs).
Proof.
  intros (n & Hn & Hd)%deref_data. apply map_eq. intros j. unfold contents_of. rewrite lookup_omap. simpl.
  destruct (decide (j = i)) as [->|].
  - rewrite lookup_alter_eq, Hn, lookup_insert_eq. simpl. unfold data_of in *. simpl. by destruct (mn_content n).
  - by rewrite lookup_alter_ne, lookup_insert_ne, lookup_omap.
Qed.

Lemma contents_deref fs i : contents fs !! i = data_of (deref fs i).
Proof.
  unfold contents_of, deref. rewrite lookup_omap, lookup_total_alt. by destruct (fs_arcs fs !! i).
Qed.

(** *** The requests that do not touch data *)

Lemma contents_lookup agentd fs p n : contents (lookup agentd fs p n).1 = contents fs.
Proof. unfold lookup. repeat case_match; cbn [fst]; by autorewrite with contents. Qed.
Lemma contents_forget fs i count : contents (forget fs i count) = contents fs.
Proof. unfold forget, forget_one. repeat case_match; autorewrite with contents; by rewrite ?contents_upd. Qed.
Lemma contents_batch_forget fs l : contents (batch_forget fs l) = contents fs.
Proof.
  unfold batch_forget. revert fs. induction l as [|r l IH]; intros fs; simpl; [done|].
  by rewrite IH, contents_forget.
Qed.
Lemma contents_unlink fs p n now : contents (do_unlink fs p n now).1 = contents fs.
Proof. unfold do_unlink. repeat case_match; cbn [fst]; by autorewrite with contents. Qed.
Lemma contents_rmdir fs p n now : contents (do_rmdir fs p n now).1 = contents fs.
Proof. unfold do_rmdir. repeat case_match; cbn [fst]; by autorewrite with contents. Qed.
Lemma contents_link fs i p n now : contents (do_link fs i p n now).1 = contents fs.
Proof. unfold do_link. repeat case_match; cbn [fst]; by autorewrite with contents. Qed.
Lemma contents_rename fs o on d dn flags now : contents (do_rename fs o on d dn flags now).1 = contents fs.
Proof.
  pose proof (do_rename_cases fs o on d dn flags now) as Hc.
  destruct (do_rename fs o on d dn flags now) as [fs' [[]|e]]; cbn [fst]; [|by subst].
  destruct Hc as [| | |op och np nch s sn t fs1 _ _ _ _ _ _ _ _ _ Hr].
  - done.
  - apply contents_exchange.
  - apply contents_move.
  - rewrite contents_try_evict, contents_move.
    pose proof (contents_replace fs (mn_kind sn =? MODE_DIR) d t now) as Hc. by rewrite Hr in Hc.
Qed.
Lemma contents_readdirplus agentd fs i h o : contents (do_readdirplus agentd fs i h o).1 = contents fs.
Proof.
  unfold do_readdirplus. pose proof (arcs_readdir fs i h o) as Hr.
  destruct (do_readdir fs i h o) as [fs1 [l|e]]; cbn [fst] in *; [|by rewrite Hr]. rewrite <- Hr. clear Hr.
  assert (Hl : contents (readdirplus_loop agentd fs1 l).1 = contents fs1);
    [|by destruct (readdirplus_loop agentd fs1 l)].
  revert fs1. induction l as [|e l IH]; intros fs1; simpl; [done|].
  assert (He : contents (readdirplus_entry agentd fs1 e).1 = contents fs1).
  { unfold readdirplus_entry. repeat case_match; cbn [fst]; by autorewrite with contents. }
  destruct (readdirplus_entry agentd fs1 e) as [fs2 o']. specialize (IH fs2).
  destruct (readdirplus_loop agentd fs2 l). cbn [fst] in *. congruence.
Qed.

(** ** What the requests do to contents *)

Definition appends (fh : FileHandle) : bool := has_bits (fh_flags fh) GUEST_O_APPEND.

(** The reference for the content of file [i]. *)
Definition data_change fs (o : op) (i : Z) (s : sparse) : sparse :=
  match o with
  | OpSetattr ino attr valid _ _ _ =>
      if (ino =? i) && v_size valid then sparse_resize (st_size attr) s else s
  | OpOpen ino _ flags _ _ =>
      if (ino =? i) && has_bits flags GUEST_O_TRUNC then sparse_resize 0 s else s
  | OpWrite _ handle (Ok buf) _ offset _ _ =>
      match fs_file_handles fs !! handle with
      | Some fh =>
          if (fh_node fh =? i) && (0 <? zlen buf)
          then sparse_write (if appends fh then sp_len s else offset) buf s
          else s
      | None => s
      end
  | OpFallocate _ handle mode offset length =>
      match fs_file_handles fs !! handle with
      | Some fh =>
          if fh_node fh =? i then
            if mode =? 0 then sparse_resize (Z.max (sp_len s) (offset + length)) s
            else sparse_punch offset length s
          else s
      | None => s
      end
  | _ => s
  end.

(** Every file there was changes as the reference does, and a file that was
    not there is empty. *)
Definition data_effect fs (o : op) fs' : Prop :=
  forall i,
    match contents fs !! i, contents fs' !! i with
    | Some d, Some d' => sparse_of d' ≡ data_change fs o i (sparse_of d)
    | Some _, None => False
    | None, Some d' => i = fs_next_inode fs /\ d' = []
    | None, None => True
    end.

Lemma effect_same fs o fs' :
  contents fs' = contents fs -> (forall i d, contents fs !! i = Some d -> data_change fs o i (sparse_of d) ≡ sparse_of d) ->
  data_effect fs o fs'.
Proof.
  intros Hc Ho i. rewrite Hc. destruct (contents fs !! i) as [d|] eqn:Hd; [|done]. by rewrite (Ho i d Hd).
Qed.

(** The data of one file is stored. *)
Lemma effect_store fs o fs' i d0 d' :
  contents fs !! i = Some d0 -> contents fs' = <[i := d']> (contents fs) ->
  sparse_of d' ≡ data_change fs o i (sparse_of d0) ->
  (forall j s, j <> i -> data_change fs o j s = s) -> data_effect fs o fs'.
Proof.
  intros Hi Hc Hd Ho j. rewrite Hc. destruct (decide (j = i)) as [->|Hne].
  - by rewrite lookup_insert_eq, Hi.
  - rewrite lookup_insert_ne by done. destruct (contents fs !! j) as [d|]; [|done]. by rewrite Ho.
Qed.

Lemma resize_id d len : len = zlen d -> sparse_resize len (sparse_of d) ≡ sparse_of d.
Proof.
  intros ->. split; [done|]. intros p Hp. simpl. destruct (Z.ltb_spec p (zlen d)); [done|].
  symmetry. by apply byte_beyond.
Qed.

Lemma setattr_data fs i attr valid ta tm tc fs' r :
  do_setattr fs i attr valid ta tm tc = (fs', Ok r) -> data_effect fs (OpSetattr i attr valid ta tm tc) fs'.
Proof.
  unfold do_setattr. destruct (i =? INIT_INODE); [done|]. destruct (get_node fs i) as [n|]; [|done].
  destruct (v_size valid) eqn:Hv.
  2:{ intros [= <- _]. apply effect_same; [by autorewrite with contents|]. intros j d _. simpl. by rewrite Hv, andb_false_r. }
  unfold setattr_size. set (z := st_size attr). destruct (data_of (deref fs i)) as [d|] eqn:Hd; [|done].
  destruct (z <? 0) eqn:?; [done|]. destruct (I64_MAX <? z) eqn:?; [done|]. intros Hr.
  assert (Hc : contents fs !! i = Some d) by (by rewrite contents_deref).
  assert (Hother : forall j s, j <> i -> data_change fs (OpSetattr i attr valid ta tm tc) j s = s).
  { intros j s Hne. simpl. destruct (Z.eqb_spec i j); [congruence | done]. }
  assert (Hat : data_change fs (OpSetattr i attr valid ta tm tc) i (sparse_of d) = sparse_resize z (sparse_of d)).
  { simpl. by rewrite Z.eqb_refl, Hv. }
  destruct (z <? zlen d) eqn:?; [|destruct (zlen d <? z) eqn:?]; breflect; simpl in Hr.
  - injection Hr as <- _. apply (effect_store _ _ _ i d (take (Z.to_nat z) d)); [done| | |done].
    + autorewrite with contents. by apply (contents_store _ _ _ d).
    + rewrite Hat, <- resize_sparse by lia. unfold resize.
      replace (Z.to_nat (z - zlen d)) with 0%nat by lia. by rewrite app_nil_r.
  - destruct (reserve_bytes_cases fs (z - zlen d) ltac:(lia)) as [Hb | (u & Hb & _)]; rewrite Hb in Hr; [done|].
    simpl in Hr. injection Hr as <- _. apply (effect_store _ _ _ i d (resize z d)); [done| | |done].
    + autorewrite with contents. by apply (contents_store (with_used_bytes fs u) _ _ d).
    + by rewrite Hat, <- resize_sparse by lia.
  - injection Hr as <- _. apply effect_same; [by autorewrite with contents|]. intros j d1 Hj.
    destruct (decide (j = i)) as [->|]; [|by rewrite Hother]. simplify_eq. rewrite Hat. apply resize_id. lia.
Qed.

Lemma trunc_normalized writeback flags :
  has_bits (normalize_handle_flags writeback flags) GUEST_O_TRUNC = has_bits flags GUEST_O_TRUNC.
Proof.
  unfold normalize_handle_flags, has_bits, without_bits. destruct writeback; [|done]. do 2 f_equal.
  rewrite Z.ldiff_land, <- Z.land_assoc. change (Z.land (Z.lnot GUEST_O_APPEND) GUEST_O_TRUNC) with GUEST_O_TRUNC.
  case_match; [|done]. rewrite Z.land_lor_distr_l, Z.ldiff_land, <- Z.land_assoc.
  change (Z.land (Z.lnot GUEST_O_WRONLY) GUEST_O_TRUNC) with GUEST_O_TRUNC.
  change (Z.land GUEST_O_RDWR GUEST_O_TRUNC) with 0. apply Z.lor_0_r.
Qed.

Lemma contents_truncate fs i now d :
  data_of (deref fs i) = Some d -> contents (truncate_on_open fs i now) = <[i := []]> (contents fs).
Proof.
  intros Hd. unfold truncate_on_open. rewrite Hd, contents_meta. case_match; autorewrite with contents;
    by apply (contents_store _ _ _ d).
Qed.

Lemma open_data b fs i kp flags now now' fs' r :
  tree_inv b fs -> do_open fs i kp flags now now' = (fs', Ok r) -> data_effect fs (OpOpen i kp flags now now') fs'.
Proof.
  intros Hinv. unfold do_open. rewrite trunc_normalized. destruct (Z.eqb_spec i INIT_INODE) as [->|Hi].
  { intros [= <- _]. apply effect_same; [done|]. intros j d Hj. unfold data_change.
    destruct (Z.eqb_spec INIT_INODE j) as [<-|]; [|done]. exfalso. unfold contents_of in Hj.
    rewrite lookup_omap in Hj. destruct (fs_arcs fs !! INIT_INODE) eqn:Ha; [|done].
    by destruct (ti_fresh _ _ Hinv INIT_INODE (mk_is_Some _ _ Ha)) as [_ []]. }
  destruct (get_node fs i) as [n|]; [|done]. destruct (mn_kind n =? MODE_DIR); [done|]. intros [= <- _]. simpl.
  set (fs1 := if kp && _ then _ else _).
  assert (Hc1 : contents fs1 = contents (if has_bits flags GUEST_O_TRUNC then truncate_on_open fs i now else fs)).
  { unfold fs1. case_match; by autorewrite with contents. }
  change (data_effect fs (OpOpen i kp flags now now') fs1).
  destruct (has_bits flags GUEST_O_TRUNC) eqn:Ht.
  2:{ apply effect_same; [done|]. intros j d _. simpl. by rewrite Ht, andb_false_r. }
  destruct (data_of (deref fs i)) as [d|] eqn:Hd.
  - apply (effect_store _ _ _ i d []); [by rewrite contents_deref | by rewrite Hc1, (contents_truncate _ _ _ d) | |].
    + simpl. rewrite Z.eqb_refl, Ht. cbn [andb]. rewrite <- resize_sparse by lia.
      unfold resize. by replace (Z.to_nat (0 - zlen d)) with 0%nat by lia.
    + intros j s Hne. simpl. destruct (Z.eqb_spec i j); [congruence | done].
  - apply effect_same; [rewrite Hc1; unfold truncate_on_open; by rewrite Hd|]. intros j d Hj. simpl.
    destruct (Z.eqb_spec i j) as [<-|]; [|done]. by rewrite contents_deref, Hd in Hj.
Qed.

Lemma write_data_effect fs i h del size offset kp now fs' r :
  0 <= offset -> do_write fs i h del size offset kp now = (fs', Ok r) ->
  data_effect fs (OpWrite i h del size offset kp now) fs'.
Proof.
  intros Ho. unfold do_write. destruct (i =? INIT_INODE); [done|].
  destruct (fs_file_handles fs !! h) as [fh|] eqn:Hfh; simpl; [|done].
  destruct (data_of (deref fs (fh_node fh))) as [d|] eqn:Hd; [|done].
  destruct (if has_bits _ _ then _ else _); [|done]. destruct del as [buf|]; [|done].
  destruct (Z.eqb_spec (zlen buf) 0) as [Hb|Hb].
  { intros [= <- _]. apply effect_same; [done|]. intros j d' _. simpl. rewrite Hfh, Hb. by rewrite andb_false_r. }
  intros Hr. pose proof (write_data_cases fs fh d buf offset kp now Ho) as Hw. rewrite Hr in Hw.
  destruct Hw as (_ & _ & u & -> & _).
  apply (effect_store _ _ _ (fh_node fh) d (written d (write_start fh d offset) buf)).
  - by rewrite contents_deref.
  - rewrite contents_meta. by apply (contents_store (with_used_bytes fs u) _ _ d).
  - unfold data_change. rewrite Hfh, Z.eqb_refl. rewrite (proj2 (Z.ltb_lt 0 (zlen buf))) by lia.
    apply written_sparse. destruct (appends fh); simpl; lia.
  - intros j s Hne. simpl. rewrite Hfh. destruct (Z.eqb_spec (fh_node fh) j); [congruence | done].
Qed.

Lemma fallocate_data fs i h mode offset length fs' :
  typed_fs fs -> 0 <= offset -> 0 <= length -> do_fallocate fs i h mode offset length = (fs', Ok tt) ->
  data_effect fs (OpFallocate i h mode offset length) fs'.
Proof.
  intros Hty Ho Hl. unfold do_fallocate. destruct (i =? INIT_INODE); [done|].
  destruct (fs_file_handles fs !! h) as [fh|] eqn:Hfh; simpl; [|done]. destruct (negb _); [done|].
  set (o := OpFallocate i h mode offset length).
  assert (Hnone : data_of (deref fs (fh_node fh)) = None -> data_effect fs o fs).
  { intros Hd. apply effect_same; [done|]. intros j d Hj. unfold o, data_change. rewrite Hfh.
    destruct (Z.eqb_spec (fh_node fh) j) as [<-|]; [|done]. by rewrite contents_deref, Hd in Hj. }
  assert (Hstore : forall d d', data_of (deref fs (fh_node fh)) = Some d ->
            sparse_of d' ≡ (if mode =? 0 then sparse_resize (Z.max (zlen d) (offset + length)) (sparse_of d)
                            else sparse_punch offset length (sparse_of d)) ->
            forall fs2, contents fs2 = <[fh_node fh := d']> (contents fs) -> data_effect fs o fs2).
  { intros d d' Hd Hs fs2 Hc. apply (effect_store _ _ _ (fh_node fh) d d'); [by rewrite contents_deref | done | |].
    - unfold o, data_change. by rewrite Hfh, Z.eqb_refl.
    - intros j s Hne. unfold o, data_change. rewrite Hfh. by destruct (Z.eqb_spec (fh_node fh) j). }
  destruct (mode =? 0) eqn:Hmode.
  - unfold allocate_range. destruct (checked_add 64 offset length) as [last|] eqn:Hlast; simpl; [|done].
    apply checked_add_Some in Hlast as [-> _].
    destruct (I64_MAX <? _); [done|]. destruct (data_of (deref fs (fh_node fh))) as [d|] eqn:Hd; [|intros [= <-]; auto].
    destruct (zlen d <? _) eqn:?; breflect.
    + destruct (reserve_bytes_cases fs (offset + length - zlen d) ltac:(lia)) as [-> | (u & -> & _)]; simpl; [done|].
      intros [= <-]. apply (Hstore d (resize (offset + length) d) eq_refl).
      * rewrite Z.max_r by lia. apply resize_sparse. lia.
      * rewrite contents_meta. by apply (contents_store (with_used_bytes fs u) _ _ d).
    + intros [= <-]. apply (Hstore d d eq_refl); [symmetry; apply resize_id; lia|].
      symmetry. apply insert_id. by rewrite contents_deref.
  - destruct (has_bits _ _ && has_bits _ _); [|done]. intros [= <-].
    destruct (data_of (deref fs (fh_node fh))) as [d|] eqn:Hd; [|auto].
    apply (Hstore d (punch d offset length) eq_refl); [|by apply (contents_store _ _ _ d)].
    apply punch_sparse; [done..|]. destruct (deref_data _ _ _ Hd) as (n & Hn & Hdn).
    destruct (Hty _ _ Hn) as (_ & _ & _ & Hsz). unfold data_of in Hdn. destruct (mn_content n); simplify_eq.
    unfold size_of_content, I64_MAX in Hsz. lia.
Qed.

(** *** Creation *)

Lemma contents_register fs node :
  contents (register fs node) = partial_alter (fun _ => data_of node) (mn_inode node) (contents fs).
Proof.
  apply map_eq. intros j. unfold contents_of. simpl. rewrite lookup_omap.
  destruct (decide (j = mn_inode node)) as [->|].
  - by rewrite lookup_insert_eq, lookup_partial_alter_eq.
  - by rewrite lookup_insert_ne, lookup_partial_alter_ne, lookup_omap.
Qed.

Lemma contents_created b fs p n fs1 i node f fs2 r :
  tree_inv b fs -> b < max_bound -> begin_create fs p n = (fs1, Ok i) -> mn_inode node = i ->
  (data_of node = None \/ data_of node = Some []) -> insert_node fs1 p n node f = (fs2, r) ->
  contents fs2 = contents fs \/ contents fs2 = <[fs_next_inode fs := []]> (contents fs)
                                 /\ contents fs !! fs_next_inode fs = None.
Proof.
  intros Hinv Hb Hbc Hi Hd Hins. destruct (begin_create_inv _ _ _ _ _ _ Hinv Hb Hbc) as (_ & -> & Harcs & _).
  pose proof (insert_node_cases fs1 p n node f) as Hc. rewrite Hins in Hc.
  destruct r as [u|e]; [|left; subst; simpl; by rewrite Harcs]. destruct Hc as [_ ->].
  assert (Hnone : fs_arcs fs !! fs_next_inode fs = None).
  { destruct (fs_arcs fs !! fs_next_inode fs) eqn:Hx; [|done].
    destruct (ti_fresh _ _ Hinv (fs_next_inode fs) (mk_is_Some _ _ Hx)). lia. }
  assert (Hreg : contents (register (upd_meta (add_child fs1 p n (mn_inode node)) p f) node)
                 = partial_alter (fun _ => data_of node) (fs_next_inode fs) (contents fs)).
  { by rewrite contents_register, contents_meta, contents_add_child, Harcs, Hi. }
  assert (Hcn : contents fs !! fs_next_inode fs = None) by (unfold contents_of; by rewrite lookup_omap, Hnone).
  rewrite Hreg. destruct Hd as [-> | ->]; [left | by right].
  rewrite <- Hcn. apply partial_alter_self.
Qed.

Lemma effect_created b fs p n fs1 i node f fs2 r o :
  tree_inv b fs -> b < max_bound -> begin_create fs p n = (fs1, Ok i) -> mn_inode node = i ->
  (data_of node = None \/ data_of node = Some []) -> insert_node fs1 p n node f = (fs2, r) ->
  (forall j s, data_change fs o j s = s) -> data_effect fs o fs2.
Proof.
  intros Hinv Hb Hbc Hi Hd Hins Ho.
  destruct (contents_created _ _ _ _ _ _ _ _ _ _ Hinv Hb Hbc Hi Hd Hins) as [Hc | [Hc Hnew]].
  - apply effect_same; [done|]. intros j d _. by rewrite Ho.
  - intros j. rewrite Hc. destruct (decide (j = fs_next_inode fs)) as [->|].
    + by rewrite Hnew, lookup_insert_eq.
    + rewrite lookup_insert_ne by done. destruct (contents fs !! j); [|done]. by rewrite Ho.
Qed.

Lemma outcome_Ok {A} (p : MemFs * io A) fs' : outcome p = (fs', Ok tt) -> exists r, p = (fs', Ok r).
Proof. destruct p as [fs1 [r|e]]; [|done]. intros [= <-]. by exists r. Qed.

Lemma data_step agentd b fs o fs' :
  tree_inv b fs -> b < max_bound -> op_fits o -> apply_op agentd fs o = (fs', Ok tt) -> data_effect fs o fs'.
Proof.
  intros Hinv Hb Hfit. pose proof (ti_typed _ _ Hinv) as Hty.
  assert (Hsame : forall o', (forall j s, data_change fs o' j s = s) -> forall fs2,
            contents fs2 = contents fs -> data_effect fs o' fs2).
  { intros o' Ho fs2 Hc. apply effect_same; [done|]. intros j d _. by rewrite Ho. }
  destruct o; cbn [apply_op outcome] in *; intros Hr.
  - injection Hr as <-. apply Hsame; [done|]. unfold init. by case_match.
  - injection Hr as <- _. apply Hsame; [done|]. apply contents_lookup.
  - injection Hr as <-. apply Hsame; [done|]. apply contents_forget.
  - injection Hr as <-. apply Hsame; [done|]. apply contents_batch_forget.
  - apply outcome_Ok in Hr as [r Hr]. by eapply setattr_data.
  - revert Hr. unfold do_symlink. destruct (begin_create fs parent n) as [fs1 [i|e]] eqn:Hbc; [|done].
    set (node := mkNode i _ _ _ _ _). destruct (insert_node fs1 parent n node (touch now)) as [fs2 [[]|e]] eqn:Hins; [|done].
    intros [= <-]. eapply (effect_created b _ _ _ _ _ node); try done. by left.
  - revert Hr. unfold do_mknod. destruct (begin_create fs parent n) as [fs1 [i|e]] eqn:Hbc; [|done].
    destruct (mknod_content _) as [[k c]|] eqn:Hk; [|done].
    set (node := mkNode i _ _ _ _ _). destruct (insert_node fs1 parent n node (touch now)) as [fs2 [[]|e]] eqn:Hins; [|done].
    intros [= <-]. eapply (effect_created b _ _ _ _ _ node); try done.
    apply mknod_content_empty in Hk as [-> | ->]; [by right | by left].
  - revert Hr. unfold do_mkdir. destruct (begin_create fs parent n) as [fs1 [i|e]] eqn:Hbc; [|done].
    set (node := mkNode i _ _ _ _ _). set (f := fun m => touch now _).
    destruct (insert_node fs1 parent n node f) as [fs2 [[]|e]] eqn:Hins; [|done].
    intros [= <-]. eapply (effect_created b _ _ _ _ _ node); try done. by left.
  - apply Hsame; [done|]. rewrite <- (contents_unlink fs parent n now). by rewrite Hr.
  - apply Hsame; [done|]. rewrite <- (contents_rmdir fs parent n now). by rewrite Hr.
  - apply Hsame; [done|]. rewrite <- (contents_rename fs olddir oldname newdir newname flags now). by rewrite Hr.
  - injection Hr as <- _. apply Hsame; [done|]. apply contents_link.
  - apply outcome_Ok in Hr as [r Hr]. by eapply open_data.
  - revert Hr. unfold do_create. destruct (begin_create fs parent n) as [fs1 [i|e]] eqn:Hbc; [|done].
    set (node := mkNode i _ _ _ _ _). destruct (insert_node fs1 parent n node (touch now)) as [fs2 [[]|e]] eqn:Hins; [|done].
    intros [= <-]. change (data_effect fs (OpCreate ctx parent n mode flags umask now) fs2).
    eapply (effect_created b _ _ _ _ _ node); try done. by right.
  - destruct Hfit as (_ & [? _] & _). apply outcome_Ok in Hr as [r Hr]. by eapply write_data_effect.
  - destruct Hfit as [[? _] [? _]]. by apply fallocate_data.
  - apply Hsame; [done|]. revert Hr. unfold do_release. repeat case_match; intros [= <-]; by autorewrite with contents.
  - apply Hsame; [done|]. revert Hr. unfold do_setxattr. repeat case_match; intros [= <-]; try done; by rewrite contents_upd.
  - apply Hsame; [done|]. revert Hr. unfold do_removexattr. repeat case_match; intros [= <-]; try done; by rewrite contents_upd.
  - injection Hr as <- _. apply Hsame; [done|]. by rewrite arcs_opendir.
  - injection Hr as <- _. apply Hsame; [done|]. by rewrite arcs_readdir.
  - injection Hr as <- _. apply Hsame; [done|]. apply contents_readdirplus.
  - injection Hr as <-. by apply Hsame.
Qed.

(** ** Reads *)

Lemma read_bytes fs h fh d size offset :
  fs_file_handles fs !! h = Some fh -> contents fs !! fh_node fh = Some d -> 0 <= offset -> 0 <= size ->
  exists out, do_read_handle fs h size offset = Ok out
    /\ zlen out = Z.max 0 (Z.min size (zlen d - offset))
    /\ forall p, 0 <= p < zlen out -> byte_at out p = byte_at d (offset + p).
Proof.
  intros Hh Hd Ho Hs. rewrite contents_deref in Hd. unfold do_read_handle. rewrite Hh. simpl. rewrite Hd.
  destruct (Z.leb_spec (zlen d) offset).
  - exists []. split_and!; [done | simpl; lia | intros p Hp; simpl in Hp; lia].
  - eexists. split; [done|]. set (k := Z.min (offset + size) (zlen d) - offset).
    assert (Hlen : zlen (take (Z.to_nat k) (drop (Z.to_nat offset) d)) = k) by len.
    rewrite Hlen. split; [lia|]. intros p Hp. rewrite byte_take by lia.
    destruct (Z.ltb_spec p k); [|lia]. by rewrite byte_drop by lia.
Qed.

Lemma bytes_eq d1 d2 : zlen d1 = zlen d2 -> (forall p, 0 <= p < zlen d1 -> byte_at d1 p = byte_at d2 p) -> d1 = d2.
Proof.
  intros Hlen Hb. apply list_eq. intros k. destruct (decide (k < length d1)%nat) as [Hk|Hk].
  - specialize (Hb (Z.of_nat k) ltac:(lia)). unfold byte_at in Hb. rewrite Nat2Z.id in Hb.
    destruct (lookup_lt_is_Some_2 d1 k) as [x Hx]; [lia|]. destruct (lookup_lt_is_Some_2 d2 k) as [y Hy]; [lia|].
    rewrite Hx, Hy in *. simpl in Hb. congruence.
  - rewrite !lookup_ge_None_2 by lia. done.
Qed.

Lemma handles_write fs i h del size offset kp now :
  0 <= offset -> fs_file_handles (do_write fs i h del size offset kp now).1 = fs_file_handles fs.
Proof. intros Ho. pose proof (tables_write fs i h del size offset kp now) as Ht. by injection Ht. Qed.

(** C32: File contents refine sparse files.  In any state a run reaches, a
    successful request changes the content of every file as the reference
    does, where a file is a length and a byte at each position: a write puts
    its bytes at the offset, or at the end for a handle that appends, with
    zeros in the gap; truncation, extension and allocation change the length
    and leave zeros past the old end; punching a hole clears the range; a
    created file is empty; nothing else, renaming, unlinking, forgetting or
    closing in particular, touches a byte of any file. *)
Theorem memfs_data_refine agentd cfg now ops o fs' :
  zlen ops < max_bound -> run_ok agentd (build cfg now) (ops ++ [o]) ->
  let fs := run agentd (build cfg now) ops in
  apply_op agentd fs o = (fs', Ok tt) -> data_effect fs o fs'.
Proof.
  intros Hlen [Hok [Hfit Hx]]%run_ok_snoc fs Hstep.
  pose proof (run_build_inv agentd cfg now ops ltac:(lia) Hok) as Hinv. by apply (data_step agentd (zlen ops)).
Qed.

Lemma write_ok fs ino h fh buf size offset kp t fs' n :
  0 <= offset -> fs_file_handles fs !! h = Some fh -> do_write fs ino h (Ok buf) size offset kp t = (fs', Ok n) ->
  n = zlen buf /\ is_Some (contents fs !! fh_node fh).
Proof.
  intros Ho Hh. rewrite contents_deref. unfold do_write. destruct (ino =? INIT_INODE); [done|]. rewrite Hh. cbn [ok_or].
  destruct (data_of (deref fs (fh_node fh))) as [d|]; [|done]. destruct (if has_bits _ _ then _ else _); [|done].
  destruct (Z.eqb_spec (zlen buf) 0); [intros [= _ <-]; eauto|]. intros Hw.
  pose proof (write_data_cases fs fh d buf offset kp t Ho) as Hc. rewrite Hw in Hc. destruct Hc. eauto.
Qed.

(** Reads see writes.  In every state, after a write through a handle that
    does not append, reading the same range through any handle of the same
    file, that one or another, returns the bytes written. *)
Lemma memfs_read_after_write agentd fs ino h fh buf size offset kp t fs' n ino2 h2 fh2 :
  0 <= offset -> fs_file_handles fs !! h = Some fh -> appends fh = false ->
  do_write fs ino h (Ok buf) size offset kp t = (fs', Ok n) ->
  fs_file_handles fs !! h2 = Some fh2 -> fh_node fh2 = fh_node fh -> ino2 <> INIT_INODE ->
  n = zlen buf /\ do_read agentd fs' ino2 h2 (zlen buf) offset = Ok buf.
Proof.
  intros Ho Hh Happ Hw Hh2 Hsame Hino. destruct (write_ok _ _ _ _ _ _ _ _ _ _ _ Ho Hh Hw) as [Hn [d Hd]].
  split; [done|]. unfold do_read. destruct (Z.eqb_spec ino2 INIT_INODE); [done|].
  pose proof (handles_write fs ino h (Ok buf) size offset kp t Ho) as Htab. rewrite Hw in Htab. cbn [fst] in Htab.
  pose proof (write_data_effect _ _ _ _ _ _ _ _ _ _ Ho Hw (fh_node fh)) as He. rewrite Hd in He.
  destruct (contents fs' !! fh_node fh) as [d'|] eqn:Hd'; [|done]. rewrite <- Hsame in Hd'. rewrite <- Htab in Hh2.
  destruct (read_bytes fs' h2 fh2 d' (zlen buf) offset Hh2 Hd' Ho ltac:(lia)) as (out & -> & Hlo & Hbo).
  f_equal. unfold data_change in He. rewrite Hh, Z.eqb_refl, Happ in He.
  destruct (Z.ltb_spec 0 (zlen buf)).
  - destruct He as [Hl Hb]. simpl in Hl, Hb. apply bytes_eq; [lia|]. intros p Hp. rewrite Hbo, Hb by lia.
    unfold inside. destruct (Z.leb_spec offset (offset + p)), (Z.ltb_spec (offset + p) (offset + zlen buf)); try lia.
    simpl. f_equal. lia.
  - apply bytes_eq; [lia|]. intros p Hp. lia.
Qed.

(** ** Directory listings *)

(** A client that takes [k] entries of each reply, continues from the offset
    of the last one, and lets other requests happen in between. *)
Fixpoint read_pages (agentd : list byte) fs (ino h offset : Z) (pages : list (nat * list op)) : list MemDirEntry :=
  match pages with
  | [] => []
  | (k, between) :: rest =>
      match do_readdir fs ino h offset with
      | (fs', Ok l) =>
          let got := take k l in
          got ++ read_pages agentd (run agentd fs' between) ino h (default offset (de_offset <$> last got)) rest
      | (_, Err _) => []
      end
  end.

Definition pages_total (pages : list (nat * list op)) : nat := sum_list (fst <$> pages).
Definition pages_ops (pages : list (nat * list op)) : Z := Z.of_nat (length (pages ≫= snd)).

Lemma after_numbered l k :
  0 <= k -> snapshot_entries_after (number_entries l) k = drop (Z.to_nat k) (number_entries l).
Proof.
  unfold number_entries. set (num := fun s i e => mkDirEntry (de_name e) (de_inode e) (Z.of_nat (s + i) + 1) (de_file_type e)).
  assert (Hgen : forall s, Z.of_nat s <= k ->
            snapshot_entries_after (imap (num s) l) k = drop (Z.to_nat k - s) (imap (num s) l)).
  { induction l as [|e l IH]; intros s Hs; simpl; [by rewrite drop_nil|].
    destruct (Z.ltb_spec k (Z.of_nat (s + 0) + 1)).
    - by replace (Z.to_nat k - s)%nat with 0%nat by lia.
    - replace (Z.to_nat k - s)%nat with (S (Z.to_nat k - S s)) by lia. simpl.
      assert (Hext : imap (num s ∘ S) l = imap (num (S s)) l).
      { apply imap_ext. intros i x _. unfold num. simpl. f_equal. lia. }
      rewrite Hext. apply IH. lia. }
  intros Hk. specialize (Hgen 0%nat ltac:(lia)). by rewrite Nat.sub_0_r in Hgen.
Qed.

Lemma numbered_offset l k e : number_entries l !! k = Some e -> de_offset e = Z.of_nat k + 1.
Proof. unfold number_entries. rewrite list_lookup_imap. destruct (l !! k); [|done]. by intros [= <-]. Qed.

(** *** The snapshot of an open handle stays *)

Definition snapshot_at fs (h d : Z) (l : list MemDirEntry) : Prop :=
  fs_dir_handles fs !! h = Some (mkDirHandle d (Some l)) /\ h < fs_next_handle fs.

Lemma readdir_snapshot fs i h o h' d l :
  fs_dir_handles fs !! h' = Some (mkDirHandle d (Some l)) ->
  fs_dir_handles (do_readdir fs i h o).1 !! h' = Some (mkDirHandle d (Some l))
  /\ fs_next_handle (do_readdir fs i h o).1 = fs_next_handle fs.
Proof.
  intros Hh. unfold do_readdir, handle_snapshot. destruct (fs_dir_handles fs !! h) as [dh|] eqn:Hdh; simpl; [|done].
  destruct (dh_snapshot dh) as [es|] eqn:Hs; [done|]. destruct (build_snapshot fs i _); simpl; [|done].
  split; [|done]. rewrite lookup_insert_ne; [done|]. intros ->. simplify_eq.
Qed.

(** The snapshot is there, and at most one handle number was used. *)
Definition kept fs fs' (h d : Z) (l : list MemDirEntry) : Prop :=
  snapshot_at fs' h d l /\ fs_next_handle fs <= fs_next_handle fs' <= fs_next_handle fs + 1.

Lemma kept_same fs fs' h d l :
  fs_dir_handles fs' = fs_dir_handles fs -> fs_next_handle fs' = fs_next_handle fs ->
  snapshot_at fs h d l -> kept fs fs' h d l.
Proof. unfold kept, snapshot_at. intros -> -> ?. split; [done | lia]. Qed.

Lemma kept_tables fs fs' h d l : handle_tables fs' = handle_tables fs -> snapshot_at fs h d l -> kept fs fs' h d l.
Proof. intros [= _ Hd Hn]. by apply kept_same. Qed.

Lemma kept_add fs fs1 fh h d l :
  handle_tables fs1 = handle_tables fs -> 0 <= fs_next_handle fs < 2 ^ 64 - 1 -> snapshot_at fs h d l ->
  kept fs (add_file_handle fs1 fh).1 h d l.
Proof.
  intros [= _ Hd Hn] Hb [Hs Hh]. unfold kept, snapshot_at. simpl. rewrite Hd, Hn, wrap_small by (unfold fits; lia).
  split; [split; [done | lia] | lia].
Qed.

Lemma tables_truncate fs i now : handle_tables (truncate_on_open fs i now) = handle_tables fs.
Proof. unfold truncate_on_open, release_bytes. by repeat case_match. Qed.

Lemma kept_open fs i kp flags now now' h d l :
  0 <= fs_next_handle fs < 2 ^ 64 - 1 -> snapshot_at fs h d l -> kept fs (do_open fs i kp flags now now').1 h d l.
Proof.
  intros Hn Hs. unfold do_open. destruct (i =? INIT_INODE); [by apply kept_tables|].
  destruct (get_node fs i); [|by apply kept_tables]. destruct (mn_kind _ =? _); [by apply kept_tables|].
  apply (kept_add fs _ (mkFileHandle i (normalize_handle_flags (fs_writeback fs) flags))); [|done..].
  destruct (has_bits _ GUEST_O_TRUNC), kp; simpl andb; cbv iota; try done; apply tables_truncate.
Qed.

Lemma kept_create fs ctx p n mode flags umask now h d l :
  0 <= fs_next_handle fs < 2 ^ 64 - 1 -> snapshot_at fs h d l ->
  kept fs (do_create fs ctx p n mode flags umask now).1 h d l.
Proof.
  intros Hn Hs. unfold do_create. pose proof (tables_begin fs p n) as Htb.
  destruct (begin_create fs p n) as [fs1 [i|e]]; [|by apply kept_tables].
  set (node := mkNode i _ _ _ _ _). pose proof (tables_insert_node fs1 p n node (touch now)) as Hti.
  destruct (insert_node fs1 p n node (touch now)) as [fs2 [[]|e]]; cbn [fst] in *.
  - apply kept_add; [congruence | done..].
  - apply kept_tables; [congruence | done].
Qed.

Lemma snapshot_kept agentd fs o h d l :
  0 <= fs_next_handle fs < 2 ^ 64 - 1 -> snapshot_at fs h d l -> o <> OpReleasedir h ->
  kept fs (apply_op agentd fs o).1 h d l.
Proof.
  intros Hn Hs Ho. destruct o; cbn [apply_op outcome fst];
    try (apply kept_tables; [|done];
         solve [eauto using tables_forget, tables_batch_forget, tables_setattr, tables_symlink, tables_mknod,
                  tables_mkdir, tables_rename, tables_write, tables_fallocate]);
    try (by apply kept_open || by apply kept_create).
  - apply kept_tables; [|done]. unfold init. by case_match.
  - apply kept_tables; [|done]. unfold lookup. by repeat case_match.
  - apply kept_tables; [|done]. unfold do_unlink. repeat case_match; cbn [fst]; by rewrite ?tables_try_evict.
  - apply kept_tables; [|done]. unfold do_rmdir. repeat case_match; cbn [fst]; by rewrite ?tables_try_evict.
  - apply kept_tables; [|done]. unfold do_link. by repeat case_match.
  - unfold do_release, release_bytes. repeat case_match; by apply kept_same.
  - apply kept_tables; [|done]. unfold do_setxattr. by repeat case_match.
  - apply kept_tables; [|done]. unfold do_removexattr. by repeat case_match.
  - destruct Hs as [Hs Hh]. unfold do_opendir. repeat case_match; cbn [fst]; try by apply kept_tables.
    unfold kept, snapshot_at. simpl. rewrite lookup_insert_ne, wrap_small by (unfold fits; lia).
    split; [split; [done | lia] | lia].
  - destruct Hs as [Hs Hh]. destruct (readdir_snapshot fs ino handle offset _ _ _ Hs) as [Hs' Hn'].
    unfold kept, snapshot_at. rewrite Hn'. split; [done | lia].
  - destruct Hs as [Hs Hh]. destruct (readdir_snapshot fs ino handle offset _ _ _ Hs) as [Hs' Hn'].
    unfold do_readdirplus. destruct (do_readdir fs ino handle offset) as [fs1 [es|e]]; cbn [fst] in *;
      [|by split; [split; [|lia]|lia]].
    pose proof (tables_readdirplus_loop agentd fs1 es) as Ht. destruct (readdirplus_loop agentd fs1 es) as [fs2 out].
    injection Ht as _ Hd2 Hn2. unfold kept, snapshot_at. cbn [fst]. rewrite Hd2, Hn2, Hn'. split; [done | lia].
  - destruct Hs as [Hs Hh]. unfold kept, snapshot_at. simpl. rewrite lookup_delete_ne by congruence. split; [done | lia].
Qed.

Lemma snapshot_run agentd fs ops h d l :
  0 <= fs_next_handle fs -> fs_next_handle fs + zlen ops < 2 ^ 64 -> snapshot_at fs h d l -> OpReleasedir h ∉ ops ->
  let fs' := run agentd fs ops in
  snapshot_at fs' h d l /\ 0 <= fs_next_handle fs' <= fs_next_handle fs + zlen ops.
Proof.
  revert fs. induction ops as [|o ops IH]; intros fs Hn Hb Hs Hno; simpl; [split; [done | lia]|].
  rewrite length_cons, Nat2Z.inj_succ in *. apply not_elem_of_cons in Hno as [Ho Hno].
  destruct (snapshot_kept agentd fs o h d l ltac:(lia) Hs ltac:(congruence)) as [Hs1 Hn1].
  destruct (IH (apply_op agentd fs o).1 ltac:(lia) ltac:(lia) Hs1 Hno) as [Hs2 Hn2]. split; [done|]. lia.
Qed.

(** *** Paging *)

Lemma page_offset l (k j : nat) :
  let got := take j (drop k (number_entries l)) in
  default (Z.of_nat k) (de_offset <$> last got) = Z.of_nat (k + length got).
Proof.
  intros got. destruct (decide (got = [])) as [->|Hne]; [simpl; lia|].
  destruct (last got) as [e|] eqn:He; [|by apply last_None in He]. simpl.
  rewrite last_lookup in He. assert (Hpos : (0 < length got)%nat) by (destruct got; [done | simpl; lia]).
  unfold got in He. rewrite lookup_take_lt, lookup_drop in He; [|unfold got in *; rewrite length_take in *; lia].
  apply numbered_offset in He. fold got in He. lia.
Qed.

Lemma readdir_again fs ino h d l k :
  snapshot_at fs h d (number_entries l) -> 0 <= k ->
  do_readdir fs ino h k = (fs, Ok (drop (Z.to_nat k) (number_entries l))).
Proof.
  intros [Hs _] Hk. unfold do_readdir, handle_snapshot. rewrite Hs. simpl. by rewrite after_numbered.
Qed.

Lemma pages_ops_cons j between pages : pages_ops ((j, between) :: pages) = zlen between + pages_ops pages.
Proof. unfold pages_ops. rewrite bind_cons, length_app. simpl. lia. Qed.

Lemma pages_from agentd fs ino h d l k pages :
  snapshot_at fs h d (number_entries l) ->
  0 <= fs_next_handle fs -> fs_next_handle fs + pages_ops pages < 2 ^ 64 ->
  Forall (fun pg => OpReleasedir h ∉ pg.2) pages ->
  read_pages agentd fs ino h (Z.of_nat k) pages = take (pages_total pages) (drop k (number_entries l)).
Proof.
  revert fs k. induction pages as [|[j between] pages IH]; intros fs k Hs Hn Hb Hall; [done|]. simpl.
  apply Forall_cons in Hall as [Hno Hall]. rewrite pages_ops_cons in Hb.
  assert (0 <= pages_ops pages) by (unfold pages_ops; lia).
  rewrite (readdir_again _ _ _ d l), Nat2Z.id by (done || lia). rewrite page_offset.
  destruct (snapshot_run agentd fs between h d (number_entries l)) as [Hs' Hn']; [lia | lia | done | done |].
  set (got := take j (drop k (number_entries l))). rewrite (IH _ (k + length got)%nat) by (done || lia).
  unfold pages_total. simpl. rewrite <- take_take_drop. fold got. f_equal. f_equal.
  rewrite drop_drop. unfold got. rewrite length_take, length_drop.
  destruct (decide (j <= length (number_entries l) - k)%nat); [f_equal; lia|]. by rewrite !drop_ge by lia.
Qed.

(** *** What the snapshot holds *)

Lemma name_leb_total n1 n2 : name_leb n1 n2 = true \/ name_leb n2 n1 = true.
Proof.
  revert n2. induction n1 as [|x n1 IH]; intros [|y n2]; simpl; auto.
  destruct (Z.ltb_spec (Z_of_byte x) (Z_of_byte y)), (Z.ltb_spec (Z_of_byte y) (Z_of_byte x)); auto.
Qed.

Lemma name_leb_trans n1 n2 n3 : name_leb n1 n2 = true -> name_leb n2 n3 = true -> name_leb n1 n3 = true.
Proof.
  revert n2 n3. induction n1 as [|x n1 IH]; intros [|y n2] [|z n3]; simpl; auto; try done.
  destruct (Z.ltb_spec (Z_of_byte x) (Z_of_byte y)), (Z.ltb_spec (Z_of_byte y) (Z_of_byte x));
  destruct (Z.ltb_spec (Z_of_byte y) (Z_of_byte z)), (Z.ltb_spec (Z_of_byte z) (Z_of_byte y));
  destruct (Z.ltb_spec (Z_of_byte x) (Z_of_byte z)), (Z.ltb_spec (Z_of_byte z) (Z_of_byte x));
    intros Hxy Hyz; try done; try (exfalso; lia); eauto.
Qed.

#[global] Instance entry_le_total {A} : Total (@entry_le A).
Proof. intros p q. apply name_leb_total. Qed.
#[global] Instance entry_le_trans {A} : Transitive (@entry_le A).
Proof. intros p q r. apply name_leb_trans. Qed.

Lemma btree_iter_spec {A} (m : gmap name A) :
  StronglySorted entry_le (btree_iter m) /\ NoDup (btree_iter m).*1
  /\ forall n x, (n, x) ∈ btree_iter m <-> m !! n = Some x.
Proof.
  unfold btree_iter. pose proof (merge_sort_Permutation entry_le (map_to_list m)) as Hp. split_and!.
  - apply StronglySorted_merge_sort; apply _.
  - rewrite Hp. apply NoDup_fst_map_to_list.
  - intros n x. rewrite Hp. apply elem_of_map_to_list.
Qed.

Definition entry_pair (e : MemDirEntry) : name * Z := (de_name e, de_inode e).

Lemma number_pairs l : entry_pair <$> number_entries l = entry_pair <$> l.
Proof.
  apply list_eq. intros k. unfold number_entries. rewrite !list_lookup_fmap, list_lookup_imap.
  by destruct (l !! k).
Qed.

(** The names that open the listing of a directory. *)
Definition listing_head (d parent : Z) : list (name * Z) :=
  [(dot, d); (dotdot, parent)] ++ (if d =? ROOT_INODE then [(INIT_FILENAME, INIT_INODE)] else []).

(** C33: A directory stream lists the directory, once.  Let a handle be open on
    a directory and nothing have been read from it.  A client that takes the
    replies in pages of any sizes, continuing each time from the offset of the
    last entry it took, while any other requests run in between, receives the
    first so many entries of one list: ".", "..", at the root the init binary,
    and then every name the directory had at the first read, in byte order,
    each exactly once and with its inode. *)
Theorem memfs_listing_complete agentd fs d h ch parent pages :
  fs_dir_handles fs !! h = Some (mkDirHandle d None) -> mn_content (deref fs d) = Directory ch parent ->
  h < fs_next_handle fs -> 0 <= fs_next_handle fs -> fs_next_handle fs + pages_ops pages < 2 ^ 64 ->
  Forall (fun pg => OpReleasedir h ∉ pg.2) pages ->
  exists kids,
    entry_pair <$> read_pages agentd fs d h 0 pages = take (pages_total pages) (listing_head d parent ++ kids)
    /\ StronglySorted entry_le kids /\ NoDup kids.*1
    /\ forall n c, (n, c) ∈ kids <-> names_of (fs_arcs fs) !! (d, n) = Some c.
Proof.
  intros Hh Hd Hlt Hn Hb Hall. exists (btree_iter ch). destruct (btree_iter_spec ch) as (Hsort & Hnd & Hin).
  split_and!; [|done..|].
  2:{ intros n c. rewrite Hin, lookup_names. unfold deref in Hd. rewrite lookup_total_alt in Hd.
      destruct (fs_arcs fs !! d) as [node|]; [|done]. simpl in *. unfold children_of. by rewrite Hd. }
  destruct pages as [|[j between] pages]; [done|].
  assert (Hfirst : exists l fs1, do_readdir fs d h 0 = (fs1, Ok (number_entries l))
            /\ snapshot_at fs1 h d (number_entries l) /\ fs_next_handle fs1 = fs_next_handle fs
            /\ entry_pair <$> number_entries l = listing_head d parent ++ btree_iter ch).
  { unfold do_readdir, handle_snapshot. rewrite Hh. cbn [ok_or dh_snapshot dh_node].
    unfold build_snapshot. rewrite Hd. set (l := _ ++ _ ++ _). exists l. eexists.
    split; [rewrite after_numbered by lia; by rewrite drop_0|]. split; [split; [apply lookup_insert_eq | done]|].
    split; [done|]. rewrite number_pairs. unfold l, listing_head.
    assert (Hkids : entry_pair <$> ((fun q => mkDirEntry q.1 q.2 0 (child_dtype fs q.2)) <$> btree_iter ch) = btree_iter ch).
    { rewrite <- list_fmap_compose. rewrite <- (list_fmap_id (btree_iter ch)) at 2. apply list_fmap_ext. by intros _ [] _. }
    rewrite !fmap_app, Hkids, (app_assoc _ _ (btree_iter ch)). f_equal. by destruct (d =? ROOT_INODE). }
  destruct Hfirst as (l & fs1 & Hr & Hs1 & Hn1 & Hl).
  assert (Heq : read_pages agentd fs d h 0 ((j, between) :: pages) = read_pages agentd fs1 d h 0 ((j, between) :: pages)).
  { simpl. rewrite Hr. rewrite (readdir_again fs1 d h d l 0) by done. by rewrite drop_0. }
  rewrite Heq, (pages_from agentd fs1 d h d l 0) by (done || lia). by rewrite drop_0, fmap_take, Hl.
Qed.

(** ** A sample run *)

Lemma memfs_data_refine_witness :
  let fs := run [] (build Demo.cfg Demo.t0) demo_ops in
  data_effect fs (OpWrite 3 2 (Ok [x65; x66]) 2 20 false Demo.t0)
    (do_write fs 3 2 (Ok [x65; x66]) 2 20 false Demo.t0).1.
Proof.
  refine (memfs_data_refine [] Demo.cfg Demo.t0 demo_ops (OpWrite 3 2 (Ok [x65; x66]) 2 20 false Demo.t0) _ _ _ _).
  - vm_compute. reflexivity.
  - apply (bool_decide_unpack _). vm_compute. exact I.
  - vm_compute. reflexivity.
Defined.

Lemma memfs_read_after_write_witness :
  let fs := run [] (build Demo.cfg Demo.t0) (take 3 demo_ops) in
  do_read [] (do_write fs 3 2 (Ok [x65; x66]) 2 20 false Demo.t0).1 3 1 2 20 = Ok [x65; x66].
Proof.
  set (fs := run [] (build Demo.cfg Demo.t0) (take 3 demo_ops)).
  refine (proj2 (memfs_read_after_write [] fs 3 2 (mkFileHandle 3 2) [x65; x66] 2 20 false Demo.t0 _ 2 3 1
                   (mkFileHandle 3 2) _ _ _ _ _ _ _)).
  - lia.
  - vm_compute. reflexivity.
  - vm_compute. reflexivity.
  - vm_compute. reflexivity.
  - vm_compute. reflexivity.
  - reflexivity.
  - vm_compute. congruence.
Defined.

(** Two entries, then the rest, while a listed name is removed in between. *)
Definition demo_pages : list (nat * list op) := [(2%nat, [OpUnlink 3 Demo.f Demo.t0]); (5%nat, [])].

Lemma memfs_listing_complete_witness :
  let fs := run [] (build Demo.cfg Demo.t0) [Demo.dir 1 Demo.a; Demo.file 3 Demo.g; Demo.file 3 Demo.f; OpOpendir 3] in
  exists kids,
    entry_pair <$> read_pages [] fs 3 1 0 demo_pages = take (pages_total demo_pages) (listing_head 3 1 ++ kids)
    /\ StronglySorted entry_le kids /\ NoDup kids.*1
    /\ forall n c, (n, c) ∈ kids <-> names_of (fs_arcs fs) !! (3, n) = Some c.
Proof.
  refine (memfs_listing_complete [] _ 3 1 {[Demo.g := 4; Demo.f := 5]} 1 demo_pages _ _ _ _ _ _).
  - vm_compute. reflexivity.
  - vm_compute. reflexivity.
  - vm_compute. reflexivity.
  - vm_compute. congruence.
  - vm_compute. reflexivity.
  - unfold demo_pages. repeat constructor; simpl; rewrite ?list_elem_of_singleton; [congruence | apply not_elem_of_nil].
Defined.
