(* ===== verification/Quota.v ===== *)
(** The byte budget of a passthrough mount,
    [crates/filesystem/lib/backends/passthroughfs/quota.rs], with the two
    callers' helpers of [unix/mod.rs].

    A budget counts optimistically: [charge] adds each growth to [used], nothing
    is taken off for removals, and only when the count crosses the limit is the
    tree walked again. The theorems show that this is as good as walking it at
    every charge: the guest's additions never exceed the limit, and nothing that
    fits is refused, removals, refusals and migrations in between included, as
    long as one request runs at a time and each request grows one file by at most
    what it was charged.  Making a hard link is outside of this: it is not
    charged, and the walk counts a file once per name.

    [u64] values are [N], whose subtraction is [saturating_sub]. The host tree is
    what one walk sees of it. *)

From stdpp Require Import base list option numbers.
From S2P Require Import Prelude.

Local Open Scope N_scope.

Definition U64_MAX : N := 2 ^ 64 - 1.

Definition sat_add (a b : N) : N := N.min (a + b) U64_MAX.

Definition wrapping_add (a b : N) : N := (a + b) mod 2 ^ 64.

(** * The host tree and its size *)

(** What a walk sees of a path: a regular file with its length, [None] if its
    metadata cannot be read; a directory with its entries, [None] if it cannot be
    read; anything else (a symbolic link, a device, an unreadable entry). *)
Inductive host : Type :=
| HFile (len : option N)
| HDir (entries : option (list host))
| HOther.

(** One entry of a directory: directories are pushed, files are added. *)
Definition visit (acc : list (option (list host)) * N) (entry : host) : list (option (list host)) * N :=
  let '(stack, total) := acc in
  match entry with
  | HDir entries => (entries :: stack, total)
  | HFile len => (stack, sat_add total (default 0 len))
  | HOther => (stack, total)
  end.

(** The loop over the stack of directories; [None] is running out of fuel. *)
Fixpoint walk (fuel : nat) (stack : list (option (list host))) (total : N) : option N :=
  match stack with
  | [] => Some total
  | dir :: stack =>
      match fuel with
      | O => None
      | S fuel =>
          match dir with
          | None => walk fuel stack total
          | Some entries => let '(stack, total) := foldl visit (stack, total) entries in walk fuel stack total
          end
      end
  end.

(** The directories of a tree, which bound the turns of the loop. *)
Fixpoint host_dirs (t : host) : nat :=
  match t with
  | HDir (Some entries) => S (foldr (fun e n => (host_dirs e + n)%nat) 0%nat entries)
  | HDir None => 1
  | _ => 0
  end.

Definition subtree_size (root : host) : N :=
  match root with
  | HFile len => default 0 len
  | HDir entries => default 0 (walk (host_dirs root) [entries] 0)
  | HOther => 0
  end.

(** * The budget *)

Record DirQuota : Type := mkQuota {
  q_limit : N;
  q_baseline : option N;
  q_used : N
}.

Record QuotaState : Type := mkQuotaState {
  qs_baseline : option N;
  qs_used : N
}.

Inductive quota_error : Type :=
| UsageExceedsLimit
| BaselineConflicts
| QuotaENOSPC.

Definition quota_new (limit : N) : DirQuota := mkQuota limit None 0.

Definition capture_state (q : DirQuota) : QuotaState := mkQuotaState (q_baseline q) (q_used q).

Definition validate_state (q : DirQuota) (s : QuotaState) : result quota_error () :=
  if q_limit q <? qs_used s then Err UsageExceedsLimit
  else
    match q_baseline q, qs_baseline s with
    | Some existing, Some restored => if existing =? restored then Ok () else Err BaselineConflicts
    | _, _ => Ok ()
    end.

Definition restore_state (q : DirQuota) (s : QuotaState) : DirQuota * result quota_error () :=
  match validate_state q s with
  | Err e => (q, Err e)
  | Ok _ =>
      let baseline :=
        match qs_baseline s, q_baseline q with
        | Some b, None => Some b
        | _, existing => existing
        end in
      (mkQuota (q_limit q) baseline (qs_used s), Ok ())
  end.

(** [get_or_init]: the first caller measures the tree. *)
Definition baseline (q : DirQuota) (root : host) : DirQuota * N :=
  match q_baseline q with
  | Some b => (q, b)
  | None => let b := subtree_size root in (mkQuota (q_limit q) (Some b) (q_used q), b)
  end.

Definition ensure_baseline (q : DirQuota) (root : host) : DirQuota := (baseline q root).1.

Definition used (q : DirQuota) : N := N.min (q_used q) (q_limit q).

Definition set_used (q : DirQuota) (u : N) : DirQuota := mkQuota (q_limit q) (q_baseline q) u.

Definition charge (q : DirQuota) (root : host) (growth : N) : DirQuota * result quota_error () :=
  if growth =? 0 then (q, Ok ())
  else
    let prev := q_used q in
    let q := set_used q (wrapping_add prev growth) in
    if sat_add prev growth <=? q_limit q then (q, Ok ())
    else
      let '(q, base) := baseline q root in
      let real := subtree_size root - base in
      if sat_add real growth <=? q_limit q then (set_used q (sat_add real growth), Ok ())
      else (set_used q real, Err QuotaENOSPC).

Record quota_statvfs64 : Type := mkQuotaStatvfs {
  f_bsize : N;
  f_frsize : N;
  f_blocks : N;
  f_bfree : N;
  f_bavail : N;
  f_namemax : N
}.

Definition quota_statvfs (baseline limit used : N) : quota_statvfs64 :=
  let bsize := 4096 in
  let total := sat_add baseline limit in
  let free := limit - used in
  mkQuotaStatvfs bsize bsize (total / bsize) (free / bsize) (free / bsize) 255.

(** The reply of [do_statfs] for a mount with a quota. *)
Definition quota_statfs (q : DirQuota) (root : host) : DirQuota * quota_statvfs64 :=
  let '(q, b) := baseline q root in (q, quota_statvfs b (q_limit q) (used q)).

(** * The guest's requests *)

(** The length of an open file from what [fstat] answers. *)
Definition fd_size (st_size : option Z) : N :=
  match st_size with
  | Some size => Z.to_N (Z.max size 0)
  | None => 0
  end.

(** [None] is a mount without a quota. *)
Definition quota_charge_to (quota : option DirQuota) (root : host) (st_size : option Z) (new_end : N)
  : option DirQuota * result quota_error () :=
  match quota with
  | Some q => let '(q, r) := charge q root (new_end - fd_size st_size) in (Some q, r)
  | None => (None, Ok ())
  end.

Definition quota_ensure_baseline (quota : option DirQuota) (root : host) : option DirQuota :=
  (fun q => ensure_baseline q root) <$> quota.

(** The length of the file at a path of entry positions, and the tree with that
    length changed. *)
Fixpoint host_len (t : host) (path : list nat) : option N :=
  match path, t with
  | [], HFile len => len
  | i :: path, HDir (Some entries) => e ← entries !! i; host_len e path
  | _, _ => None
  end.

Fixpoint set_len (len : N) (path : list nat) (t : host) : host :=
  match path, t with
  | [], HFile _ => HFile (Some len)
  | i :: path, HDir (Some entries) => HDir (Some (alter (set_len len path) i entries))
  | _, _ => t
  end.

(** One request at a time on a mount with a quota, and what else may happen to
    its tree. *)
Inductive quota_step : DirQuota * host -> DirQuota * host -> Prop :=
(** Before the first write access anything may change the tree. *)
| step_host q t t' :
    q_baseline q = None ->
    quota_step (q, t) (q, t')
(** [open] for writing, [create] and a truncation. *)
| step_touch q q' t :
    quota_ensure_baseline (Some q) t = Some q' ->
    quota_step (q, t) (q', t)
| step_statfs q q' t st :
    quota_statfs q t = (q', st) ->
    quota_step (q, t) (q', t)
(** A write, an extending truncation, an allocation or a copy that was charged up
    to [new_end] and got as far as [reached]. *)
| step_grow q q' t path len new_end reached :
    host_len t path = Some len ->
    quota_charge_to (Some q) t (Some (Z.of_N len)) new_end = (Some q', Ok ()) ->
    reached <= new_end ->
    quota_step (q, t) (q', set_len (N.max len reached) path t)
(** One that failed, was refused, or grew nothing the walk sees, such as a file
    without a name. *)
| step_charged q q' t st_size new_end r :
    quota_charge_to (Some q) t st_size new_end = (Some q', r) ->
    quota_step (q, t) (q', t)
(** Removals, shrinking truncations, and renames inside the mount. *)
| step_shrink q t t' :
    subtree_size t' <= subtree_size t ->
    quota_step (q, t) (q, t')
(** The mount moves to another host, with the same limit. *)
| step_migrate q q' t :
    restore_state (quota_new (q_limit q)) (capture_state q) = (q', Ok ()) ->
    quota_step (q, t) (q', t).

(** What the guest has added beyond the baseline. *)
Definition added (q : DirQuota) (t : host) : N := subtree_size t - default (subtree_size t) (q_baseline q).

(** * The walk measures the tree *)

Definition sum_of (f : host -> N) (l : list host) : N := foldr (fun e n => f e + n) 0 l.

(** The bytes of the regular files a walk can see. *)
Fixpoint host_sum (t : host) : N :=
  match t with
  | HFile len => default 0 len
  | HDir (Some entries) => foldr (fun e n => host_sum e + n) 0 entries
  | _ => 0
  end.

Definition stack_sum (stack : list (option (list host))) : N := sum_of host_sum (HDir <$> stack).

Definition stack_dirs (stack : list (option (list host))) : nat := sum_list_with host_dirs (HDir <$> stack).

Lemma host_sum_dir entries : host_sum (HDir (Some entries)) = sum_of host_sum entries.
Proof. reflexivity. Qed.

Lemma host_dirs_dir entries : host_dirs (HDir (Some entries)) = S (sum_list_with host_dirs entries).
Proof. reflexivity. Qed.

Lemma sum_of_cons f e l : sum_of f (e :: l) = f e + sum_of f l.
Proof. reflexivity. Qed.

Lemma stack_sum_cons dir stack : stack_sum (dir :: stack) = host_sum (HDir dir) + stack_sum stack.
Proof. reflexivity. Qed.

Lemma stack_dirs_cons dir stack : stack_dirs (dir :: stack) = (host_dirs (HDir dir) + stack_dirs stack)%nat.
Proof. reflexivity. Qed.

Lemma sat_add_min a b : sat_add (N.min a U64_MAX) b = N.min (a + b) U64_MAX.
Proof. unfold sat_add. lia. Qed.

(** One directory: the bytes and the directories of its entries are the bytes
    added and the directories pushed. *)
Lemma visit_entries entries stack a stack' total' :
  foldl visit (stack, N.min a U64_MAX) entries = (stack', total') ->
  exists b, total' = N.min b U64_MAX
    /\ b + stack_sum stack' = a + sum_of host_sum entries + stack_sum stack
    /\ stack_dirs stack' = (sum_list_with host_dirs entries + stack_dirs stack)%nat.
Proof.
  revert stack a. induction entries as [|[len|es|] entries IH]; intros stack a; cbn [foldl visit].
  - intros [= <- <-]. exists a. split_and!; [done | cbn; lia | done].
  - rewrite sat_add_min. intros (b & -> & Hs & Hd)%IH. exists b. rewrite sum_of_cons. split_and!; [done | cbn [host_sum]; lia | done].
  - intros (b & -> & Hs & Hd)%IH. exists b. rewrite stack_sum_cons in Hs. rewrite stack_dirs_cons in Hd.
    rewrite sum_of_cons. cbn [sum_list_with]. split_and!; [done | lia | lia].
  - intros (b & -> & Hs & Hd)%IH. exists b. rewrite sum_of_cons. split_and!; [done | cbn [host_sum]; lia | done].
Qed.

(** The loop ends within as many turns as there are directories, with the sum. *)
Lemma walk_total fuel stack a :
  (stack_dirs stack <= fuel)%nat ->
  walk fuel stack (N.min a U64_MAX) = Some (N.min (a + stack_sum stack) U64_MAX).
Proof.
  revert stack a. induction fuel as [|fuel IH]; intros [|[es|] stack] a Hf; cbn [walk];
    rewrite ?stack_dirs_cons, ?host_dirs_dir in Hf; rewrite ?stack_sum_cons, ?host_sum_dir;
    try (cbn; do 2 f_equal; lia); try (cbn in Hf; lia).
  - destruct (foldl visit _ es) as [stack' total'] eqn:Hv.
    apply visit_entries in Hv as (b & -> & Hs & Hd). rewrite IH by lia. do 2 f_equal. lia.
  - rewrite IH by (cbn in Hf; lia). do 2 f_equal.
Qed.

(** The size of a directory is the sum of its files at every depth, up to
    saturation; the fuel is enough. *)
Lemma subtree_size_exact entries :
  subtree_size (HDir entries) = N.min (host_sum (HDir entries)) U64_MAX.
Proof.
  unfold subtree_size. change 0 with (N.min 0 U64_MAX) at 2. rewrite walk_total by (cbn -[host_dirs]; lia).
  unfold stack_sum. cbn -[host_sum]. f_equal. lia.
Qed.

Lemma sum_of_alter f (g : host -> host) entries i e :
  entries !! i = Some e -> sum_of f (alter g i entries) + f e = sum_of f entries + f (g e).
Proof.
  revert i. induction entries as [|x entries IH]; intros [|i] Hi; cbn in *; simplify_eq; [lia|].
  specialize (IH i Hi). unfold sum_of in IH. change (list_alter g i entries) with (alter g i entries). lia.
Qed.

Lemma host_sum_set_len len path t old :
  host_len t path = Some old -> host_sum (set_len len path t) + old = host_sum t + len.
Proof.
  revert t. induction path as [|i path IH]; intros [l|[es|]|] Hl; cbn [host_len set_len] in *; simplify_eq.
  - cbn. lia.
  - apply bind_Some in Hl as (e & He & Hl). rewrite !host_sum_dir.
    pose proof (sum_of_alter host_sum (set_len len path) es i e He). specialize (IH e Hl). lia.
Qed.

(** A file grows the tree by at most what it grows itself. *)
Lemma subtree_size_grow path t old len :
  host_len t path = Some old -> old <= len ->
  subtree_size (set_len len path t) <= subtree_size t + (len - old).
Proof.
  intros Hl Hle. pose proof (host_sum_set_len len path t old Hl) as Hs.
  destruct path as [|i path], t as [l|[es|]|]; cbn [host_len set_len] in *; simplify_eq.
  - cbn. lia.
  - rewrite !subtree_size_exact. lia.
Qed.

(** * The budget is kept *)

(** The estimate lies between what the guest added and the limit. *)
Definition quota_ok (limit : N) (s : DirQuota * host) : Prop :=
  q_limit s.1 = limit /\ added s.1 s.2 <= q_used s.1 <= limit.

Lemma added_grow q t t' d : subtree_size t' <= subtree_size t + d -> added q t' <= added q t + d.
Proof. unfold added. destruct (q_baseline q); simpl; lia. Qed.

Lemma added_set_used q u t : added (set_used q u) t = added q t.
Proof. reflexivity. Qed.

Lemma baseline_keeps q q' t b :
  baseline q t = (q', b) ->
  q_limit q' = q_limit q /\ q_used q' = q_used q /\ added q' t = added q t /\ subtree_size t - b = added q t.
Proof. unfold baseline, added. destruct q as [l [b'|] u]; intros [= <- <-]; simpl; auto. Qed.

Section budget.
Context (limit : N) (Hlimit : limit < U64_MAX).

Lemma sat_add_fits a b : (sat_add a b <=? limit) = (a + b <=? limit).
Proof. unfold sat_add. destruct (N.leb_spec (a + b) limit); [apply N.leb_le | apply N.leb_gt]; lia. Qed.

Lemma wrapping_add_fits a b : a + b <= limit -> wrapping_add a b = a + b.
Proof. intros Hab. apply N.mod_small. unfold U64_MAX in Hlimit. lia. Qed.

(** With a sound estimate a charge decides as a walk would, and leaves a sound
    estimate that covers the growth it admitted. *)
Lemma charge_decides q q' t growth r :
  quota_ok limit (q, t) ->
  charge q t growth = (q', r) ->
  r = (if added q t + growth <=? limit then Ok () else Err QuotaENOSPC)
  /\ quota_ok limit (q', t) /\ added q' t = added q t
  /\ (r = Ok () -> added q t + growth <= q_used q').
Proof.
  unfold quota_ok. cbn [fst snd]. intros (Hl & Hu) Hc. unfold charge in Hc.
  destruct (N.eqb_spec growth 0) as [->|Hg].
  { injection Hc as <- <-. rewrite (proj2 (N.leb_le _ _)) by lia. split_and!; auto; lia. }
  cbn [set_used q_limit] in Hc. rewrite Hl, sat_add_fits in Hc.
  destruct (N.leb_spec (q_used q + growth) limit) as [Hfit|Hcross].
  { injection Hc as <- <-. rewrite wrapping_add_fits, added_set_used by done. cbn [q_limit q_used set_used].
    rewrite (proj2 (N.leb_le _ _)) by lia. split_and!; auto; lia. }
  destruct (baseline _ t) as [q1 b] eqn:Hb. apply baseline_keeps in Hb as (Hl1 & _ & Ha & Hr).
  cbn [set_used q_limit] in Hl1. rewrite added_set_used in Ha, Hr. rewrite Hr, Hl1, Hl, sat_add_fits in Hc.
  destruct (N.leb_spec (added q t + growth) limit) as [Hok|Hbad]; injection Hc as <- <-;
    rewrite added_set_used, Ha; cbn [q_limit q_used set_used]; unfold sat_add; rewrite Hl1;
    split_and!; auto; try discriminate; lia.
Qed.

Lemma quota_charge_to_ok q q' t st_size new_end r :
  quota_ok limit (q, t) -> quota_charge_to (Some q) t st_size new_end = (Some q', r) ->
  quota_ok limit (q', t) /\ added q' t = added q t
  /\ (r = Ok () -> added q t + (new_end - fd_size st_size) <= q_used q').
Proof.
  intros Hok Hc. unfold quota_charge_to in Hc. destruct (charge q t _) as [q1 r1] eqn:Hq.
  injection Hc as <- <-. by apply charge_decides in Hq as (_ & ? & ? & ?).
Qed.

(** A mount that moves keeps its accounting, and the move is never refused. *)
Lemma restore_capture q t :
  quota_ok limit (q, t) -> restore_state (quota_new limit) (capture_state q) = (q, Ok ()).
Proof.
  intros (Hl & Hu); cbn [fst snd] in *. unfold restore_state, validate_state.
  cbn [quota_new capture_state q_limit q_baseline qs_used qs_baseline].
  rewrite (proj2 (N.ltb_ge _ _)) by lia. destruct q as [l [b|] u]; cbn in *; by subst.
Qed.

Lemma quota_new_ok t : quota_ok limit (quota_new limit, t).
Proof. unfold quota_ok, added. cbn -[subtree_size]. lia. Qed.

Lemma quota_step_ok s s' : quota_ok limit s -> quota_step s s' -> quota_ok limit s'.
Proof.
  intros Hok Hs. destruct Hs as [q t t' Hb|q q' t Ht|q q' t st Ht|q q' t path len new_end reached Hlen Hc Hr|q q' t st new_end r Hc|q t t' Hle|q q' t Hm].
  - destruct Hok as (Hl & Hu). unfold quota_ok, added in *. cbn [fst snd] in *. rewrite Hb in *. simpl in *. lia.
  - injection Ht as <-. unfold ensure_baseline. destruct (baseline q t) as [q' b] eqn:Hb.
    apply baseline_keeps in Hb as (Hl & Hu & Ha & _). unfold quota_ok in *. cbn [fst snd] in *. by rewrite Hl, Hu, Ha.
  - unfold quota_statfs in Ht. destruct (baseline q t) as [q1 b] eqn:Hb. injection Ht as <- _.
    apply baseline_keeps in Hb as (Hl & Hu & Ha & _). unfold quota_ok in *. cbn [fst snd] in *. by rewrite Hl, Hu, Ha.
  - destruct (quota_charge_to_ok _ _ _ _ _ _ Hok Hc) as ((Hl & Hu) & Ha & Hg). specialize (Hg eq_refl).
    pose proof (subtree_size_grow path t len (N.max len reached) Hlen ltac:(lia)) as Hsize.
    apply (added_grow q') in Hsize. unfold quota_ok, fd_size in *. cbn [fst snd] in *. lia.
  - by apply (quota_charge_to_ok _ _ _ _ _ _ Hok Hc).
  - destruct Hok as (Hl & Hu). pose proof (added_grow q t t' 0 ltac:(lia)). unfold quota_ok. cbn [fst snd] in *. lia.
  - rewrite (proj1 Hok : q_limit q = limit), (restore_capture q t Hok) in Hm. by injection Hm as <-.
Qed.

Lemma quota_reachable_ok t0 s : rtc quota_step (quota_new limit, t0) s -> quota_ok limit s.
Proof.
  intros Hr. remember (quota_new limit, t0) as s0 eqn:E. assert (quota_ok limit s0) as H0 by (subst; apply quota_new_ok).
  clear E. induction Hr; eauto using quota_step_ok.
Qed.

Lemma statfs_available q q' t st :
  quota_ok limit (q, t) -> quota_statfs q t = (q', st) ->
  quota_ok limit (q', t) /\ added q' t + f_bavail st * f_bsize st <= limit.
Proof.
  intros (Hl & Hu) Hs. unfold quota_statfs in Hs. destruct (baseline q t) as [q1 b] eqn:Hb. injection Hs as <- <-.
  apply baseline_keeps in Hb as (Hl1 & Hu1 & Ha & _). unfold quota_ok, used. cbn [fst snd] in *.
  cbn [f_bavail f_bsize quota_statvfs]. rewrite Hl1, Hu1, Ha, Hl.
  pose proof (N.Div0.mul_div_le (limit - N.min (q_used q) limit) 4096). lia.
Qed.
End budget.

Lemma added_bound limit q t b : quota_ok limit (q, t) -> q_baseline q = Some b -> subtree_size t <= b + limit.
Proof. intros (Hl & Hu) Hb. unfold added in Hu. cbn [fst snd] in *. rewrite Hb in Hu. simpl in Hu. lia. Qed.


(** Four bytes of the host's, a budget of ten: the guest opens a file, grows it by
    six bytes, is refused ten more, and cuts it to two bytes. *)
Definition demo_tree (len : N) : host := HDir (Some [HFile (Some len); HOther; HDir (Some [HFile (Some 3)])]).

Lemma quota_demo_run : rtc quota_step (quota_new 10, demo_tree 4) (mkQuota 10 (Some 7) 6, demo_tree 2).
Proof.
  apply rtc_l with (mkQuota 10 (Some 7) 0, demo_tree 4); [by apply step_touch|].
  apply rtc_l with (mkQuota 10 (Some 7) 6, demo_tree 10); [by apply (step_grow _ _ (demo_tree 4) [0%nat] 4 10 10)|].
  apply rtc_l with (mkQuota 10 (Some 7) 6, demo_tree 10);
    [by apply (step_charged _ _ _ (Some 10%Z) 20 (Err QuotaENOSPC))|].
  apply rtc_l with (mkQuota 10 (Some 7) 6, demo_tree 2); [by apply step_shrink|]. apply rtc_refl.
Qed.


(** * Where the budget is not kept *)

(** Charges with nothing of them appearing in the tree. *)
Fixpoint charges (n : nat) (q : DirQuota) (t : host) (growth : N) : result quota_error DirQuota :=
  match n with
  | O => Ok q
  | S n =>
      match charge q t growth with
      | (q, Ok _) => charges n q t growth
      | (_, Err e) => Err e
      end
  end.

(** Growth that the walk does not see, such as blocks allocated past the end of a
    file with [FALLOC_FL_KEEP_SIZE], is admitted any number of times: each recount
    forgets it. *)
Lemma unseen_growth_admitted limit n q t growth :
  limit < U64_MAX -> quota_ok limit (q, t) -> added q t + growth <= limit ->
  exists q', charges n q t growth = Ok q'.
Proof.
  intros Hlimit. revert q. induction n as [|n IH]; intros q Hok Hle; [by eexists|]. cbn [charges].
  destruct (charge q t growth) as [q' r] eqn:Hc.
  apply (charge_decides limit Hlimit) in Hc as (-> & Hok' & Ha & _); [|done].
  rewrite (proj2 (N.leb_le _ _)) by done. apply IH; [done | by rewrite Ha].
Qed.

(** Two requests in flight at once: the recount of the second does not see the
    growth the first was granted, and both together exceed the limit. *)
Example overlapping_charges_exceed_limit :
  let t := HDir (Some [HFile (Some 0); HFile (Some 0)]) in
  let q := ensure_baseline (quota_new 1024) t in
  let '(q1, first) := charge q t 600 in
  let '(q2, second) := charge q1 t 600 in
  first = Ok () /\ second = Ok ()
  /\ subtree_size (set_len 600 [1%nat] (set_len 600 [0%nat] t)) = 1200.
Proof. vm_compute. auto. Qed.
